(* ===== verification/_CoqProject ===== *)
-Q . S2P
Prelude.v
ShardTypes.v
ShardOps.v
ShardInvariant.v
ShardTheorems.v
LocationCache.v
ShardStore.v
ShardStoreTheorems.v
Placement.v
PlacementHash.v
PlacementBalance.v
PlacementPlan.v
PlacementConverge.v
Membership.v
Bytes.v
CfStore.v
RaftLog.v
RaftLogTheorems.v
RaftApply.v
RaftApplyTheorems.v
Wire.v
Points.v
Arrow.v
WalIpc.v
ArrowCache.v
Wal.v
WalTheorems.v
WalWriter.v
ReplicationLog.v
ReplicationLogTheorems.v
Flush.v
FlushTheorems.v
FlushMachine.v
HintedHandoff.v
HintedHandoffTheorems.v
ForwardQueue.v
ForwardQueueTheorems.v
ForwardDrain.v
QueryAst.v
Selectors.v
CqSchedule.v
CqTheorems.v
PeerResolution.v
ShardRouting.v
ShardBootstrap.v
ShardRoutingTheorems.v
ShardQueryRouting.v
Json.v
QueryMerge.v
QueryMergeTheorems.v
QueryAggregates.v
MultiSelector.v
ColumnNaming.v
PointFrames.v
ForwardCoalescer.v
FieldTypes.v
ShardWriteHandler.v
LineProtocol.v
ShardedIngest.v
ShardedIngestTheorems.v
ShardedCluster.v
MetaStore.v
MetaSeries.v
MetaDatabases.v
ShardSplitMerge.v
ShardScheduler.v
ShardSchedulerTheorems.v
