(* ===== verification/Prelude.v ===== *)
(** * HyperbyteDB: a verification of the cluster core

    HyperbyteDB is a clustered time-series database in Rust. The rows of a
    measurement are divided by series id into _regions_, contiguous ranges of
    [u64], and each region is held by a few nodes. This development models
    the part that decides which node holds and serves what, from the map of
    regions down to the Raft log that replicates it, and the path of a write
    from its acknowledgement to the columnar tables and to the other nodes.
    Paths below are under [src/hyperbytedb/src/].

    ** The parts and how they interact

    A command for the shard map ([ShardMapOp]) is proposed by the scheduler,
    committed by Raft, and applied on every node by the Raft store, which
    hands it to the durable shard map; that runs the pure state machine
    [apply_shard_map_op], writes the changed rows and replaces the cached
    map. Reads and writes are routed through the location cache, which keeps
    a serving-only view of the map. The placement planner computes where
    copies and primaries should be, and the scheduler commits one step at a
    time towards it. The membership table, kept current by the heartbeat
    prober and by Raft membership entries, says which nodes are candidates.

    A write is acknowledged once its points are in the write-ahead log. The
    flush service reads the log in chunks, coalesces rows, hands them to the
    sink and truncates the log behind itself, but not past what the peers
    acknowledged. Points are partitioned by the region of their series; those
    of other primaries are sent there, many regions and requests to a batch,
    and the receiver checks, logs and replicates each part on its own. What
    is not delivered at once waits in the forward queue until a primary takes
    it; writes that did not reach a replica wait as hints. The replication log
    keeps the acknowledgements and the schema mutations on their way to the
    peers. Continuous queries run on a timer
    over the window their schedule gives.

    ** The files

    - [Prelude]: saturating and wrapping [u64] arithmetic, [result], slices
      ([position], [sort_by], [partition_point]), loops that run until a pass
      changes nothing ([iter_until], [loop_ends]), tactics, the hint database
      [shard] and the shared lemmas.
    - [ShardTypes], [ShardOps]: [domain/sharding/types.rs] and [ops.rs]. One
      record per struct, one definition per method or per arm of
      [apply_shard_map_op]. An arm returns the map as mutated together with
      the result, since the Rust code mutates in place before some errors.
      [ShardInvariant] has the invariant [map_wf], the reachable maps and the
      preservation lemmas; [ShardTheorems] the theorems.
    - [LocationCache]: [domain/sharding/location_cache.rs]. Each critical
      section under the lock is a definition, [cache_step] their
      interleavings by callers that hold snapshots of different versions.
    - [ShardStore], [ShardStoreTheorems]:
      [adapters/sharding/rocksdb_shard_map.rs] over the classes [RocksDb]
      (get, iteration, atomic batch) and [ShardCodec] (serde_json), whose
      laws are classes of their own.
    - [Placement]: [domain/sharding/placement.rs]. [PlacementHash],
      [PlacementBalance], [PlacementPlan] have the theorems on rendezvous
      hashing, on primaries and on copies. [PlacementConverge] has the step
      relation [converge_step] of [application/shard_scheduler.rs]
      ([try_converge_placement]) and its theorems.
    - [Membership]: [domain/cluster/membership.rs], the decisions of
      [application/cluster/heartbeat.rs], and the membership merges of
      [adapters/cluster/raft/log_store.rs].
    - [RaftLog], [RaftLogTheorems]: the storage half of
      [adapters/cluster/raft/log_store.rs] (vote, log, purge, recovery) over
      the classes [CfDb] (RocksDB with column families) and [RaftCodec].
    - [RaftApply], [RaftApplyTheorems]: its state-machine half (apply and
      snapshots), with [raft/types.rs], [raft/state_machine.rs], the mutation
      type of [domain/cluster/types.rs] and [drop_space_for] of
      [application/schema_mutation_apply.rs]; applying a schema mutation to
      the metadata store is the class [SchemaApplier].
    - [Bytes], [Wire]: byte strings, big- and little-endian integers,
      decimal and hexadecimal keys, UTF-8, and a parser monad with its
      round-trip lemmas. [CfStore]: RocksDB with column families as a class
      with laws and an in-memory instance.
    - [Points], [Arrow]: [domain/point.rs], [domain/point_coalesce.rs],
      [domain/prepared_wal.rs], [domain/arrow_coalesce.rs]; Arrow arrays are
      a class with laws and an in-memory instance.
    - [WalIpc], [ArrowCache], [Wal], [WalTheorems], [WalWriter]: the formats,
      the slot cache, the log and the group-commit writer of [adapters/wal/],
      with [application/wal_append.rs] and the columnar batches of
      [application/columnar_msgpack.rs].
    - [ReplicationLog], [ReplicationLogTheorems]:
      [adapters/cluster/replication_log.rs] and the handler of replicated
      mutations.
    - [Flush], [FlushTheorems]: [application/flush_service.rs].
      [FlushMachine]: a node as a step relation in which appends, flush steps
      and restarts interleave.
    - [HintedHandoff], [HintedHandoffTheorems]:
      [domain/cluster/replication_wire.rs],
      [adapters/cluster/hinted_handoff.rs] and the replay of
      [adapters/cluster/peer_client.rs].
    - [ForwardQueue], [ForwardQueueTheorems], [ForwardDrain]:
      [adapters/cluster/forward_queue.rs] and its drainer in
      [application/peer_ingestion_service.rs].
    - [CqSchedule], [CqTheorems]: [domain/cq_schedule.rs],
      [domain/continuous_query.rs], the scheduler loop of
      [application/continuous_query_service.rs] and the execution of one
      query in [application/query_service.rs]; chrono is a class.
    - [PeerResolution]: [application/shard_peer_resolution.rs].
    - [ShardRouting], [ShardBootstrap], [ShardRoutingTheorems]:
      [application/shard_routing.rs] and [domain/series.rs]: series ids, the
      bootstrap of a measurement with its pre-split, the partition of a write
      by region and the reading of a primary's answers.
    - [PointFrames]: the framed binary bodies of
      [application/line_protocol.rs]. [LineProtocol]: its encoder and the
      reading of parsed lines; the parser of a line is the class [LineParser].
    - [ForwardCoalescer]: [application/forward_coalescer.rs], a lane as a step
      relation of sends, turns and answers.
    - [FieldTypes]: [domain/field_type.rs] and the conflict split of
      [application/ingest_metadata.rs].
    - [ShardWriteHandler]: the forwarded-write handlers of
      [adapters/http/shard_handlers.rs].
    - [ShardedIngest]: a client's batch over the shards and the delivery of
      queued forwards, from [application/peer_ingestion_service.rs] and
      [application/shard_routing.rs], over the classes [Coordinator] (map,
      membership, peers, log) and [ForwardQueuePort]; requests that run
      concurrently are posted one after the other. [ShardedIngestTheorems]
      has their laws and lemmas, and [ForwardQueue] as an instance of the
      port. [ShardedCluster] has the theorems, and a cluster whose peers run
      the handlers of [ShardWriteHandler], which satisfies the laws
      ([network_laws]).
    - [QueryAst], [Selectors]: the statements and expressions of a query, the
      names of its output columns, and the TOP, BOTTOM and SAMPLE calls it
      may have. The text that Rust derives for an expression is the class
      [ExprDebug].
    - [ShardQueryRouting]: which regions a query reads, from the tags its
      condition fixes; regular expressions are the class [RegexEngine].
    - [Json], [QueryMerge], [QueryMergeTheorems], [QueryAggregates],
      [MultiSelector]: the statement sent to each region and the merge of the
      answers, of points, of aggregates and of ranked points. The rendering
      and reading of numbers and times is the class [QueryText].
    - [ColumnNaming]: the names of tables and columns in the storage engine.
    - [MetaStore], [MetaSeries], [MetaDatabases]:
      [adapters/metadata/rocksdb_meta.rs] with [domain/database.rs]:
      databases and retention policies, the series of a measurement, tag
      values and their counts, as calls on a state of rows and caches; serde
      on the rows is the class [MetaCodec].
    - [ShardSplitMerge], [ShardScheduler], [ShardSchedulerTheorems]:
      [application/shard_scheduler.rs] on top of the shard map, the planner,
      the membership and the medians of the metadata store: the split and
      merge decisions with the operations they propose; healing, failover,
      the pass of a tick ([plan_tick]), the moves with their slots and
      budget, leftover learners, and the retirement of nodes. A proposal is
      applied to the map at once ([propose]); the answers of other nodes and
      the copy of a region are arguments, and a copy may change other
      regions of the map.

    ** What the theorems show

    - Shard map: every reachable map is valid, so [locate] is total and exact
      and its binary search agrees with a linear scan; a split partitions its
      parent, a merge unites two neighbours, a region operation changes one
      region; replays are refused as stale, and refused operations keep the
      spaces.
    - Routing: whatever the interleaving, the cache hands out exactly the
      routable view of the snapshot asked for; that view covers the ranges of
      the map, staging ranges served by their first serving ancestor.
    - Durability: an accepted operation and an installed map are what
      reopening the database loads; the Raft store recovers everything it
      acknowledged; log updates and reads are exact at every index.
    - Replication: applying a batch refines the fold of its operations over
      the map, so replicas agree; a snapshot hands over the state machine.
    - Placement: the scores never tie, targets are the best candidates and
      change minimally; the planner's loops stop, its results are locally
      optimal and a balanced layout is kept; convergence is never refused,
      never lowers the replication, and ends at the target.
    - Scheduler: along any run of splits and merges, on current or changed
      regions, every series keeps its copies and no measurement outgrows its
      cap; a due split halves the series of a region by the median of the
      metadata store, and a due merge goes through; a tick gives up copies on
      dead nodes only; a due failover gives a region an active primary, the
      furthest known; a move is a step of [converge_step] or leaves a learner
      at most; moves stay within their slots and budget; a node is retired
      exactly when no region lists it and its rollups are handed off.
    - Membership: a departure is not undone by lifecycle calls, probes, syncs
      or topology changes; a dead node is demoted exactly at the threshold,
      and a flapping one once its misses are ahead by the threshold.
    - Write path: appends get consecutive sequences and read back; reads,
      truncations and reopening are exact; the WAL formats round-trip; group
      commit answers every request with its own sequence; the flush hands
      every point to the sink once per chunk, in batches within the limit;
      truncation stays behind the flush and the acknowledgements; drains end
      and empty the log; in every interleaving an acknowledged entry is in
      the log or was handed to the sink.
    - Queues: the mutation log, the hint queues and the forward queue refine
      a list, a FIFO per peer and a map of due entries, through restarts; a
      mutation is accepted once; a turn of the drainer loses no point.
    - Sharded writes: the regions of a bootstrapped measurement cover the key
      space and the operation is accepted; a partition puts each point into
      exactly the bucket of its region, local ones at their primary only;
      frames and rendered errors read back; a coalesced request answers every
      job with the results of its own parts; the receiver's batch handler
      answers success only for a part it has logged, and a single write is a
      batch of one. Composed: every point of an acknowledged batch is in the
      log of a node that accepted it or in the forward queue, and draining
      that queue through the coordinator loses none. The lines of a batch
      give its points back.
    - Queries: no series that satisfies the condition is left out of the
      regions a query reads; the first rows of a limited query, the
      aggregates and the ranked points merged from the regions are those of
      one node with all points, of aggregates as long as the integers fit; a
      statement with a selector is accepted exactly when the selector is well
      formed and stands beside plain references; output names follow the
      fields. Quoted identifiers read back and tag columns are distinct.
    - Metadata: after any successful calls, restarts included, the store
      lists, counts and halves exactly the series that were registered and
      not deleted since, from storage or from the index; a database is what a
      restart reads, up to whole seconds, also after failed calls.
    - Continuous queries: the windows of a plain query, or of one with FOR,
      come in order, those of a plain query never overlap, and no second is
      skipped while a good tick falls in every interval; a created query
      carries the schedule its statement says.
    - Where the code departs from what it means to do, a theorem says so:
      [merge_skips_global_id_check], [cold_locate_returns_staging],
      [snapshot_omits_shard_map], [unwritable_map_skips_entry],
      [empty_drop_not_persisted], [snapshot_merge_undoes_departure],
      [node_states_not_recorded], [tolerance_does_not_pin_primary],
      [move_rate_can_exceed_cap], [overwrite_gets_lower_ingest_seq],
      [columnar_append_not_durable], [failed_mutation_is_acked],
      [racing_append_not_flushed], [failed_replay_reorders],
      [every_leaves_tail], [every_longer_leaves_gaps],
      [short_interval_skips_buckets], [subsecond_window_empty],
      [empty_tag_changes_series], [small_float_sent_as_zero],
      [stale_bucket_misrouted], [descending_limit_returns_oldest],
      [offset_without_limit_drops_rows], [empty_sums_add_to_zero],
      [series_keys_collide], [starred_field_summed_as_product],
      [table_names_collide], [columns_collide], [delete_ignores_predicate],
      [largest_id_not_listed], [colon_measurement_keeps_series],
      [dropped_measurement_keeps_tag_values],
      [tag_value_count_depends_on_cache],
      [recreated_database_forgets_policies], [new_default_not_marked],
      [default_policy_missing], [future_heartbeat_counts_as_dead],
      [failover_blocked_by_empty_candidate].

    ** Bounds

    - [iter_until] runs at most [2 ^ depth] passes. The depth is the bit size
      of the square of the total weight: every pass that moves something
      lowers the sum of the squared loads, which starts below that square.
      [plan_placement_terminates] and [balance_primaries_terminates] prove
      that the unbounded loop ([loop_ends]) stops in the same state.
    - [bsearch] gets the length of the slice; each round at least halves the
      rest, and [partition_point_spec] needs no more.
    - [serving_ancestor] gets the number of regions, the bound the source
      has; a longer successful walk does not exist.
    - The loops of the flush get one turn per remaining sequence or point;
      [drain_correct] shows that they never run out. The replay of hints
      gets one turn more than the queue is long.
    - [u64] values are [N] with saturation or wrap-around written out where
      the source has them; the load sums and the tolerance products of the
      planner are [u128] in the source and unbounded here: they fit for fewer
      than [2 ^ 32] regions and [2 ^ 25] nodes and a tolerance below
      [2 ^ 31] percent.

    ** What is not modelled

    RocksDB and serde_json are not in the repository and enter as classes
    with their documented behaviour, each with a concrete instance that
    satisfies it; of openraft only the types it exchanges with the store
    appear. Network, timers, metrics and logging have no
    counterpart. Locks appear only as the critical sections of the cache and
    as the steps of [FlushMachine]. Of the query language the statement types
    are modelled and not the lexer and the parser; of SQL generation only the
    naming of tables and columns. What the storage engine answers to a
    generated query is a hypothesis on the answers of the regions. The
    transfer of rows between nodes, the loop of timers and tasks around the
    scheduler and its reconciliation of transfer debt, which nothing calls,
    are outside of the development. A tick reads the clocks, the membership
    and the lock of the rollup destinations once. Bincode, chrono, Arrow and its IPC format, the
    grammar of line protocol, regular expressions, the sink and the HTTP
    requests to peers are classes. Of the metadata store the schemas of
    measurements, users, tombstones, settings and the tables of queries and
    views are not modelled, and its calls run one after the other; the apply
    model reaches it through the class [SchemaApplier], which never writes
    the shard map. The next parts in line are: the rest of the metadata
    store and the mutations that reach it; region transfer; the lexer. *)

From stdpp Require Import prelude list sorting gmap strings pretty.
From stdpp Require Import options.

#[local] Open Scope N_scope.

(** ** Machine integers *)

(** [u64::MAX]. A Rust [u64] is an [N]; the operations that can leave the
    range are written with their saturation or wrap-around. *)
Definition u64_max : N := 18446744073709551615.

Definition two64 : N := 18446744073709551616.

Definition u32_max : N := 4294967295.

(** [u64::saturating_add]. *)
Definition sat_add (a b : N) : N := N.min (a + b) u64_max.

(** [u64::saturating_sub]. *)
Definition sat_sub (a b : N) : N := a - b.

(** [u64::wrapping_add] and [u64::wrapping_mul]. *)
Definition wrapping_add (a b : N) : N := (a + b) mod two64.

Definition wrapping_mul (a b : N) : N := (a * b) mod two64.

(** [u64::wrapping_sub], and [fetch_sub] of an atomic. *)
Definition wrapping_sub (a b : N) : N := (a + (two64 - b mod two64)) mod two64.

(** ** Results *)

(** Rust's [Result<A, E>], the error type first so that it is a functor. *)
Inductive result (E A : Type) : Type :=
| Ok (a : A)
| Err (e : E).
Arguments Ok {E A} a.
Arguments Err {E A} e.

#[export] Instance result_ret E : MRet (result E) := fun A a => Ok a.
#[export] Instance result_bind E : MBind (result E) :=
  fun A B f m => match m with Ok a => f a | Err e => Err e end.

Definition map_err {E F A} (f : E -> F) (r : result E A) : result F A :=
  match r with Ok a => Ok a | Err e => Err (f e) end.

Definition ok_or {E A} (e : E) (o : option A) : result E A :=
  match o with Some a => Ok a | None => Err e end.

Definition is_ok {E A} (r : result E A) : bool :=
  match r with Ok _ => true | Err _ => false end.

(** ** Slices and iterators *)

(** [iter().position(p)]. *)
Fixpoint position {A} (p : A -> bool) (l : list A) : option nat :=
  match l with
  | [] => None
  | x :: l' => if p x then Some O else S <$> position p l'
  end.

(** [slice::sort_by_key] and [slice::sort_by] are stable; so is insertion
    from the right with a reflexive [leb]. *)
Fixpoint insert_by {A} (leb : A -> A -> bool) (x : A) (l : list A) : list A :=
  match l with
  | [] => [x]
  | y :: l' => if leb x y then x :: y :: l' else y :: insert_by leb x l'
  end.

Definition sort_by {A} (leb : A -> A -> bool) (l : list A) : list A :=
  foldr (insert_by leb) [] l.

(** [iter().min_by(..)]: the first of the minimal elements. *)
Definition min_by {A} (ltb : A -> A -> bool) (l : list A) : option A :=
  match l with
  | [] => None
  | x :: l' => Some (fold_left (fun acc y => if ltb y acc then y else acc) l' x)
  end.

(** [iter().max_by(..)]: the last of the maximal elements. *)
Definition max_by {A} (ltb : A -> A -> bool) (l : list A) : option A :=
  match l with
  | [] => None
  | x :: l' => Some (fold_left (fun acc y => if ltb y acc then acc else y) l' x)
  end.

(** [slice::partition_point(pred)] as the standard library computes it: a
    binary search that treats [pred x] as [Less] and its negation as
    [Greater]. [fuel] bounds the halvings of [size]; [length l] is enough
    because [size - size / 2 < size] for every [size > 1]. *)
Fixpoint bsearch {A} (pred : A -> bool) (l : list A) (fuel base size : nat) : nat :=
  match fuel with
  | O => base
  | S fuel' =>
    if (1 <? size)%nat then
      let half := Nat.div size 2 in
      let mid := (base + half)%nat in
      let base' := match l !! mid with
                   | Some x => if pred x then mid else base
                   | None => base
                   end in
      bsearch pred l fuel' base' (size - half)%nat
    else base
  end.

Definition partition_point {A} (pred : A -> bool) (l : list A) : nat :=
  match l with
  | [] => O
  | _ =>
    let base := bsearch pred l (length l) O (length l) in
    match l !! base with
    | Some x => if pred x then S base else base
    | None => base
    end
  end.

(** [HashSet::insert] in a loop, stopping at the first repeated element. *)
Fixpoint first_duplicate (seen : list N) (l : list N) : option N :=
  match l with
  | [] => None
  | x :: l' => if bool_decide (x ∈ seen) then Some x
               else first_duplicate (x :: seen) l'
  end.

Definition sum_nat (l : list nat) : nat := foldr Nat.add 0%nat l.

(** The distinct elements of a list in the order they first appear. *)
Definition nub {A} `{EqDecision A} (l : list A) : list A :=
  fold_left (fun acc x => if bool_decide (x ∈ acc) then acc else acc ++ [x]) l [].

(** The range [from..from + n]. *)
Fixpoint seqN (from : N) (n : nat) : list N :=
  match n with
  | O => []
  | S n' => from :: seqN (from + 1) n'
  end.

(** ** Automation *)

Create HintDb shard.

(** Turn the boolean tests of the code into propositions. *)
Ltac reflect_bools :=
  repeat match goal with
  | H : _ && _ = true |- _ => apply andb_true_iff in H; destruct H
  | H : _ || _ = false |- _ => apply orb_false_iff in H; destruct H
  | H : negb _ = true |- _ => apply negb_true_iff in H
  | H : negb _ = false |- _ => apply negb_false_iff in H
  | H : bool_decide _ = true |- _ => apply bool_decide_eq_true in H
  | H : bool_decide _ = false |- _ => apply bool_decide_eq_false in H
  | H : (_ =? _) = true |- _ => apply N.eqb_eq in H
  | H : (_ =? _) = false |- _ => apply N.eqb_neq in H
  | H : (_ <=? _) = true |- _ => apply N.leb_le in H
  | H : (_ <=? _) = false |- _ => apply N.leb_gt in H
  | H : (_ <? _) = true |- _ => apply N.ltb_lt in H
  | H : (_ <? _) = false |- _ => apply N.ltb_ge in H
  end.

(** Split on every [if] and [match] of a hypothesis, keeping the equations. *)
Ltac split_match_in H :=
  repeat (match type of H with
          | context [match ?x with _ => _ end] =>
            match type of x with
            | context [match _ with _ => _ end] => fail 1
            | _ => destruct x eqn:?
            end
          end; simplify_eq/=; try done).

(** ** Lemmas on machine integers *)

Lemma sat_add_le a b : sat_add a b <= u64_max.
Proof. unfold sat_add. lia. Qed.

Lemma wrapping_add_small a b : a + b <= u64_max -> wrapping_add a b = a + b.
Proof. intros H. unfold wrapping_add. apply N.mod_small. unfold two64, u64_max in *. lia. Qed.

Lemma sat_add_spec a b : a + b <= u64_max -> sat_add a b = a + b.
Proof. unfold sat_add. lia. Qed.

Lemma Ok_inj {E A} (a b : A) : Ok (E := E) a = Ok b -> a = b.
Proof. congruence. Qed.

(** ** Lemmas on lists *)

Lemma existsb_elem_of {A} (p : A -> bool) l :
  existsb p l = true <-> exists x, x ∈ l /\ p x = true.
Proof.
  rewrite existsb_exists. split; intros (x & Hx & Hp); exists x;
    split; [by apply list_elem_of_In| done |by apply list_elem_of_In| done].
Qed.

Lemma existsb_not_elem_of {A} (p : A -> bool) l :
  existsb p l = false <-> forall x, x ∈ l -> p x = false.
Proof.
  rewrite <-not_true_iff_false, existsb_elem_of. split.
  - intros H x Hx. destruct (p x) eqn:E; [|done]. exfalso; eauto.
  - intros H (x & Hx & Hp). rewrite H in Hp; done.
Qed.

Lemma forallb_elem_of {A} (p : A -> bool) l :
  forallb p l = true <-> forall x, x ∈ l -> p x = true.
Proof.
  rewrite forallb_forall. split; intros H x Hx; apply H; by apply list_elem_of_In.
Qed.

Lemma position_Some {A} (p : A -> bool) l i :
  position p l = Some i ->
  exists x, l !! i = Some x /\ p x = true /\
            forall j y, (j < i)%nat -> l !! j = Some y -> p y = false.
Proof.
  revert i. induction l as [|x l IH]; intros i H; [done|]. cbn in H.
  destruct (p x) eqn:E; simplify_eq.
  - exists x. split; [done|]. split; [done|]. lia.
  - destruct (position p l) as [j|] eqn:Hj; simplify_eq/=.
    destruct (IH j eq_refl) as (y & Hy & Hp & Hlt).
    exists y. split; [done|]. split; [done|].
    intros [|k] z Hk Hz; simplify_eq/=; [done|]. apply (Hlt k); [lia|done].
Qed.

Lemma position_None {A} (p : A -> bool) l :
  position p l = None <-> forall x, x ∈ l -> p x = false.
Proof.
  induction l as [|x l IH]; cbn; [set_solver|].
  destruct (p x) eqn:E.
  - split; [done|]. intros H. rewrite H in E; [done|set_solver].
  - rewrite fmap_None, IH. split; intros H y Hy; [|by apply H; right].
    apply elem_of_cons in Hy as [->|Hy]; auto.
Qed.

Lemma position_app_unique {A} (p : A -> bool) l1 x l2 :
  (forall y, y ∈ l1 -> p y = false) -> p x = true ->
  position p (l1 ++ x :: l2) = Some (length l1).
Proof.
  intros H Hx. induction l1 as [|y l1 IH]; cbn; [by rewrite Hx|].
  rewrite H by set_solver. rewrite IH; [done|]. intros z Hz. apply H. set_solver.
Qed.

Lemma first_duplicate_None seen l :
  first_duplicate seen l = None <-> NoDup l /\ forall x, x ∈ l -> x ∉ seen.
Proof.
  revert seen. induction l as [|x l IH]; intros seen; cbn.
  { split; [|done]. intros _. split; [constructor|set_solver]. }
  case_bool_decide as Hx.
  - split; [done|]. intros [_ H]. exfalso. apply (H x); set_solver.
  - rewrite IH, NoDup_cons. set_solver.
Qed.

Lemma last_elem {A} (l : list A) x : last l = Some x -> x ∈ l.
Proof. intros (l' & ->)%last_Some. apply elem_of_app. right. by left. Qed.

Lemma last_is_max {A} (R : A -> A -> Prop) l x :
  StronglySorted R l -> last l = Some x -> forall y, y ∈ l -> y = x \/ R y x.
Proof.
  induction 1 as [|z l Hl IH Hz]; [done|]. destruct l as [|w l]; cbn [last].
  { intros [= ->] y Hy%list_elem_of_singleton. by left. }
  intros Hlast y [->|Hy]%elem_of_cons; [|by apply IH]. right. rewrite Forall_forall in Hz.
  apply Hz. by apply last_elem.
Qed.

Lemma StronglySorted_filter {A} (R : A -> A -> Prop) (P : A -> Prop) `{forall x, Decision (P x)} l :
  StronglySorted R l -> StronglySorted R (filter P l).
Proof.
  induction 1 as [|x l Hl IH Hx]; [constructor|]. rewrite filter_cons. case_decide; [|done].
  constructor; [done|]. rewrite Forall_forall in *. intros y [_ Hy]%list_elem_of_filter. by apply Hx.
Qed.

Lemma StronglySorted_fmap_impl {A B} (R : A -> A -> Prop) (R' : B -> B -> Prop) (f : A -> B) l :
  (forall x y, x ∈ l -> y ∈ l -> R x y -> R' (f x) (f y)) ->
  StronglySorted R l -> StronglySorted R' (f <$> l).
Proof.
  induction l as [|x l IH]; intros H Hs; cbn; [constructor|].
  inversion Hs as [|? ? Hs' Hall]; subst. constructor.
  - apply IH; [|done]. intros a b Ha Hb. apply H; by right.
  - rewrite Forall_fmap, Forall_forall in *. intros y Hy. cbn. apply H; [by left|by right|].
    by apply Hall.
Qed.

Lemma StronglySorted_weaken {A} (R R' : A -> A -> Prop) l :
  (forall x y, R x y -> R' x y) -> StronglySorted R l -> StronglySorted R' l.
Proof.
  intros H Hs. rewrite <-(list_fmap_id l). eapply StronglySorted_fmap_impl; [|done].
  intros x y _ _. apply H.
Qed.

Lemma seq_StronglySorted i n : StronglySorted lt (seq i n).
Proof.
  revert i. induction n as [|n IH]; intros i; cbn; constructor; [done|].
  apply Forall_forall. intros x Hx%elem_of_seq. lia.
Qed.

Lemma Forall2_elem_of_l {A B} (P : A -> B -> Prop) l k x :
  Forall2 P l k -> x ∈ l -> exists y, y ∈ k /\ P x y.
Proof.
  intros H (i & Hi)%list_elem_of_lookup. destruct (Forall2_lookup_l _ _ _ _ _ H Hi) as (y & Hy & ?).
  exists y. split; [by eapply list_elem_of_lookup_2|done].
Qed.

Lemma Forall2_elem_of_r {A B} (P : A -> B -> Prop) l k y :
  Forall2 P l k -> y ∈ k -> exists x, x ∈ l /\ P x y.
Proof.
  intros H (i & Hi)%list_elem_of_lookup. destruct (Forall2_lookup_r _ _ _ _ _ H Hi) as (x & Hx & ?).
  exists x. split; [by eapply list_elem_of_lookup_2|done].
Qed.

Lemma list_filter_all {B} (P : B -> Prop) `{forall x, Decision (P x)} (l : list B) :
  (forall x, x ∈ l -> P x) -> filter P l = l.
Proof.
  induction l as [|x l IH]; intros Hl; [done|]. rewrite filter_cons, decide_True by (apply Hl; by left).
  f_equal. apply IH. intros y Hy. apply Hl. by right.
Qed.

Lemma list_filter_none {B} (P : B -> Prop) `{forall x, Decision (P x)} (l : list B) :
  (forall x, x ∈ l -> ~ P x) -> filter P l = [].
Proof.
  induction l as [|x l IH]; intros Hl; [done|]. rewrite filter_cons, decide_False by (apply Hl; by left).
  apply IH. intros y Hy. apply Hl. by right.
Qed.

Lemma sorted_NoDup {A} (R : A -> A -> Prop) (l : list A) :
  (forall x, ~ R x x) -> StronglySorted R l -> NoDup l.
Proof.
  intros Hirr. induction 1 as [|x l Hl IH Hx]; constructor; [|done]. intros Hin.
  rewrite Forall_forall in Hx. by apply (Hirr x), Hx.
Qed.

Lemma filter_out_length {A} `{EqDecision A} (l ds : list A) :
  NoDup l -> ds `sublist_of` l -> (length (filter (fun x => x ∉ ds) l) + length ds = length l)%nat.
Proof.
  intros Hnd Hsub. rewrite <- (filter_app_complement (fun x => x ∈ ds) l) at 2. rewrite length_app.
  assert (filter (fun x => x ∈ ds) l ≡ₚ ds) as ->; [|lia].
  apply NoDup_Permutation; [by apply NoDup_filter|by eapply sublist_NoDup|]. intros x. rewrite list_elem_of_filter.
  split; [by intros [? _]|]. intros Hx. split; [done|]. by eapply elem_of_sublist.
Qed.

Lemma sublist_fmap_back {A B} (f : A -> B) (ys : list B) (l : list A) :
  ys `sublist_of` f <$> l -> exists xs, xs `sublist_of` l /\ ys = f <$> xs.
Proof.
  revert ys. induction l as [|x l IH]; intros ys Hs; cbn in Hs.
  - apply sublist_nil_r in Hs as ->. by exists [].
  - inversion Hs as [|? ? ? Hs'|? ? ? Hs']; subst.
    + destruct (IH _ Hs') as (xs & Hxs & ->). exists (x :: xs). split; [by constructor|done].
    + destruct (IH _ Hs') as (xs & Hxs & ->). exists xs. split; [by constructor|done].
Qed.

(** A fallible map that succeeds everywhere. *)
Lemma mapM_exists {A B} (f : A -> option B) (P : A -> B -> Prop) l :
  (forall x, x ∈ l -> exists y, f x = Some y /\ P x y) ->
  exists ys, mapM f l = Some ys /\ Forall2 P l ys.
Proof.
  induction l as [|x l IH]; intros H; [by exists []|].
  destruct (H x ltac:(by left)) as (y & Hy & HP).
  destruct IH as (ys & Hys & HPs); [intros; apply H; by right|].
  exists (y :: ys). cbn. rewrite Hy. cbn. rewrite Hys. split; [done|]. by constructor.
Qed.

Lemma nub_snoc {A} `{EqDecision A} (l : list A) x :
  nub (l ++ [x]) = if bool_decide (x ∈ nub l) then nub l else nub l ++ [x].
Proof. unfold nub. by rewrite fold_left_app. Qed.

Lemma elem_of_nub {A} `{EqDecision A} (l : list A) x : x ∈ nub l <-> x ∈ l.
Proof.
  induction l as [|y l IH] using rev_ind; [done|]. rewrite nub_snoc, elem_of_app, list_elem_of_singleton.
  case_bool_decide as Hy; [|rewrite elem_of_app, list_elem_of_singleton]; rewrite <- IH; naive_solver.
Qed.

Lemma nub_NoDup {A} `{EqDecision A} (l : list A) : NoDup (nub l).
Proof.
  induction l as [|y l IH] using rev_ind; [constructor|]. rewrite nub_snoc.
  case_bool_decide as Hy; [done|]. apply NoDup_app. split_and!; [done| |apply NoDup_singleton].
  intros x Hx ->%list_elem_of_singleton. done.
Qed.

Lemma nub_length {A} `{EqDecision A} (l : list A) : (length (nub l) <= length l)%nat.
Proof.
  induction l as [|y l IH] using rev_ind; [done|]. rewrite nub_snoc, length_app.
  case_bool_decide; [|rewrite length_app]; cbn; lia.
Qed.

Lemma nub_full {A} `{EqDecision A} (l : list A) : length (nub l) = length l -> nub l = l.
Proof.
  induction l as [|x l IH] using rev_ind; [done|]. rewrite nub_snoc, length_app. cbn.
  pose proof (nub_length l). case_bool_decide; [lia|]. rewrite length_app. cbn. intros E.
  rewrite IH by lia. done.
Qed.

Lemma elem_of_seqN from n x : x ∈ seqN from n <-> from <= x /\ x < from + N.of_nat n.
Proof.
  revert from. induction n as [|n IH]; intros from; cbn [seqN].
  - split; [by intros ?%elem_of_nil|lia].
  - rewrite elem_of_cons, IH. lia.
Qed.

Lemma seqN_length from n : length (seqN from n) = n.
Proof. revert from. induction n as [|n IH]; intros from; cbn; [done|]. by rewrite IH. Qed.

Lemma seqN_lookup from n i : (i < n)%nat -> seqN from n !! i = Some (from + N.of_nat i).
Proof.
  revert from i. induction n as [|n IH]; intros from i Hi; [lia|].
  destruct i as [|i]; cbn; [f_equal; lia|]. rewrite IH by lia. f_equal. lia.
Qed.

Lemma seqN_sorted from n : StronglySorted N.lt (seqN from n).
Proof.
  revert from. induction n as [|n IH]; intros from; cbn; constructor; [done|].
  apply Forall_forall. intros x Hx%elem_of_seqN. lia.
Qed.

(** *** Stable sorting *)

Section Sorting.
Context {A : Type} (leb : A -> A -> bool).

Definition le_of (x y : A) : Prop := leb x y = true.

Lemma insert_by_Permutation x l : insert_by leb x l ≡ₚ x :: l.
Proof.
  induction l as [|y l IH]; cbn; [done|].
  destruct (leb x y); [done|]. rewrite IH. apply Permutation_swap.
Qed.

Lemma sort_by_Permutation l : sort_by leb l ≡ₚ l.
Proof.
  unfold sort_by. induction l as [|x l IH]; cbn; [done|].
  by rewrite insert_by_Permutation, IH.
Qed.

Lemma sort_by_length l : length (sort_by leb l) = length l.
Proof. by rewrite sort_by_Permutation. Qed.

Lemma sort_by_elem_of x l : x ∈ sort_by leb l <-> x ∈ l.
Proof. by rewrite sort_by_Permutation. Qed.

Lemma insert_by_id x l : (forall y, y ∈ l -> leb x y = true) -> insert_by leb x l = x :: l.
Proof. destruct l as [|y l]; cbn; [done|]. intros H. rewrite H; [done|set_solver]. Qed.

(** Sorting a sorted list changes nothing. *)
Lemma sort_by_id l : StronglySorted le_of l -> sort_by leb l = l.
Proof.
  unfold sort_by. induction 1 as [|x l Hl IH Hx]; cbn; [done|].
  rewrite IH. apply insert_by_id. by apply Forall_forall.
Qed.

Context (leb_total : forall x y, leb x y = true \/ leb y x = true).
Context (leb_trans : forall x y z, leb x y = true -> leb y z = true -> leb x z = true).

Lemma insert_by_sorted x l :
  StronglySorted le_of l -> StronglySorted le_of (insert_by leb x l).
Proof using leb_total leb_trans.
  induction 1 as [|y l Hl IH Hy]; cbn; [repeat constructor|].
  destruct (leb x y) eqn:E.
  - repeat constructor; try done. eapply Forall_impl; [done|].
    intros z Hz. by eapply leb_trans.
  - constructor; [done|]. rewrite insert_by_Permutation. constructor; [|done].
    unfold le_of. destruct (leb_total x y); congruence.
Qed.

Lemma sort_by_sorted l : StronglySorted le_of (sort_by leb l).
Proof using leb_total leb_trans.
  unfold sort_by. induction l as [|x l IH]; cbn; [constructor|].
  by apply insert_by_sorted.
Qed.

(** The result is a function of the multiset when ties are equal elements. *)
Lemma sort_by_unique l1 l2 :
  (forall x y, leb x y = true -> leb y x = true -> x = y) ->
  l1 ≡ₚ l2 -> sort_by leb l1 = sort_by leb l2.
Proof using leb_total leb_trans.
  intros Hanti Hp.
  apply (StronglySorted_unique_strong le_of).
  - intros x y _ _. apply Hanti.
  - apply sort_by_sorted.
  - apply sort_by_sorted.
  - by rewrite !sort_by_Permutation.
Qed.
End Sorting.

(** *** Stable sorting of parts *)

Lemma StronglySorted_take {A} (R : A -> A -> Prop) n l : StronglySorted R l -> StronglySorted R (take n l).
Proof.
  intros H. revert n. induction H as [|x l Hl IH Hx]; intros [|n]; cbn; constructor; [done|]. by apply Forall_take.
Qed.

Section SortParts.
Context {A : Type} (leb : A -> A -> bool).
Context (leb_total : forall x y, leb x y = true \/ leb y x = true).
Context (leb_trans : forall x y z, leb x y = true -> leb y z = true -> leb x z = true).

Lemma insert_by_strict_comm x y l :
  leb x y = false -> insert_by leb x (insert_by leb y l) = insert_by leb y (insert_by leb x l).
Proof using leb_total leb_trans.
  intros Hxy. assert (leb y x = true) as Hyx by (destruct (leb_total x y); congruence).
  induction l as [|z l IH]; cbn; [by rewrite Hxy, Hyx|].
  destruct (leb x z) eqn:Exz.
  - rewrite (leb_trans _ _ _ Hyx Exz). cbn. by rewrite Hxy, Exz, Hyx.
  - destruct (leb y z) eqn:Eyz; cbn; rewrite ?Hxy, ?Exz, ?Eyz; [done|]. by rewrite IH.
Qed.

(** Sorting a prefix first changes nothing. *)
Lemma foldr_insert_sort l t : foldr (insert_by leb) t (sort_by leb l) = foldr (insert_by leb) t l.
Proof using leb_total leb_trans.
  assert (forall x l, foldr (insert_by leb) t (insert_by leb x l) = insert_by leb x (foldr (insert_by leb) t l)) as Hi.
  { intros x k. induction k as [|y k IH]; cbn; [done|]. destruct (leb x y) eqn:E; cbn; [done|].
    rewrite IH. symmetry. by apply insert_by_strict_comm. }
  unfold sort_by. induction l as [|x l IH]; cbn; [done|]. by rewrite Hi, IH.
Qed.

Lemma sort_by_app l1 l2 : sort_by leb (l1 ++ l2) = foldr (insert_by leb) (sort_by leb l2) (sort_by leb l1).
Proof using leb_total leb_trans. rewrite foldr_insert_sort. unfold sort_by. by rewrite foldr_app. Qed.

(** Sorting the parts first changes nothing. *)
Lemma sort_by_concat ls : sort_by leb (concat (sort_by leb <$> ls)) = sort_by leb (concat ls).
Proof using leb_total leb_trans.
  induction ls as [|l ls IH]; [done|]. rewrite fmap_cons. cbn [concat]. rewrite !sort_by_app, IH. f_equal.
  apply sort_by_id, sort_by_sorted; done.
Qed.

Lemma take_insert_by n x l : take n (insert_by leb x (take n l)) = take n (insert_by leb x l).
Proof.
  revert n. induction l as [|y l IH]; intros [|n]; cbn; try done.
  destruct (leb x y); cbn; [|f_equal; apply IH].
  destruct n; cbn; [done|]. do 2 f_equal. rewrite take_take. f_equal. lia.
Qed.

Lemma take_foldr_insert n l t : take n (foldr (insert_by leb) (take n t) l) = take n (foldr (insert_by leb) t l).
Proof.
  induction l as [|x l IH]; cbn; [by rewrite take_take, Nat.min_id|].
  by rewrite <-take_insert_by, IH, take_insert_by.
Qed.

Lemma foldr_insert_head x l t :
  StronglySorted (le_of leb) (x :: l) -> StronglySorted (le_of leb) t -> (forall y, y ∈ t -> leb x y = true) ->
  foldr (insert_by leb) t (x :: l) = x :: foldr (insert_by leb) t l.
Proof.
  intros Hl Ht Hx. cbn. apply insert_by_id. apply StronglySorted_inv in Hl as [_ Hl]. rewrite Forall_forall in Hl.
  assert (forall y, y ∈ foldr (insert_by leb) t l <-> y ∈ l \/ y ∈ t) as Hy.
  { intros y. clear. induction l as [|z l IH]; cbn; [set_solver|].
    rewrite insert_by_Permutation, elem_of_cons, IH. set_solver. }
  intros y [Hin|Hin]%Hy; [by apply Hl|by apply Hx].
Qed.

Lemma foldr_insert_tail y l t :
  (forall x, x ∈ l -> leb x y = false) -> foldr (insert_by leb) (y :: t) l = y :: foldr (insert_by leb) t l.
Proof.
  induction l as [|x l IH]; intros H; cbn; [done|]. rewrite IH by (intros; apply H; by right). cbn.
  by rewrite H by (by left).
Qed.

Lemma take_foldr_insert_l n l t :
  StronglySorted (le_of leb) l -> StronglySorted (le_of leb) t ->
  take n (foldr (insert_by leb) t (take n l)) = take n (foldr (insert_by leb) t l).
Proof using leb_total leb_trans.
  revert l t. induction n as [|n IH]; intros l t Hl Ht; [done|]. destruct l as [|x l]; [done|].
  destruct t as [|y t].
  { fold (sort_by leb (take (S n) (x :: l))). fold (sort_by leb (x :: l)).
    rewrite (sort_by_id leb (x :: l)) by done. rewrite sort_by_id, take_take, Nat.min_id; [done|].
    by apply StronglySorted_take. }
  pose proof (StronglySorted_inv Hl) as [Hl' Hx]. pose proof (StronglySorted_inv Ht) as [Ht' Hy].
  rewrite Forall_forall in Hx, Hy.
  destruct (leb x y) eqn:E.
  - assert (forall z, z ∈ y :: t -> leb x z = true) as Hz
      by (intros z [-> |Hz]%elem_of_cons; [done|]; eapply leb_trans; [exact E|by apply Hy]).
    cbn [take]. rewrite !foldr_insert_head; try done; [cbn; f_equal; by apply IH|].
    constructor; [by apply StronglySorted_take|]. apply Forall_take, Forall_forall, Hx.
  - assert (forall z, z ∈ x :: l -> leb z y = false) as Hz.
    { intros z [-> |Hz]%elem_of_cons; [done|]. apply not_true_is_false. intros Hc. apply Hx in Hz.
      unfold le_of in Hz. rewrite (leb_trans _ _ _ Hz Hc) in E. done. }
    rewrite !foldr_insert_tail; [|done|intros z Hin; apply Hz; by eapply subseteq_take].
    cbn [take]. f_equal. rewrite <-(IH (x :: l)), <-(IH (take (S n) (x :: l))) by (try done; by apply StronglySorted_take).
    rewrite take_take. do 3 f_equal. lia.
Qed.

(** The first [n] of everything are found among the first [n] of each part. *)
Lemma take_sort_parts n ls :
  take n (sort_by leb (concat ((fun l => take n (sort_by leb l)) <$> ls))) = take n (sort_by leb (concat ls)).
Proof using leb_total leb_trans.
  induction ls as [|l ls IH]; [done|]. rewrite fmap_cons. cbn [concat]. rewrite !sort_by_app.
  rewrite (sort_by_id leb (take n (sort_by leb l))) by (apply StronglySorted_take, sort_by_sorted; done).
  rewrite take_foldr_insert_l by (apply sort_by_sorted; done).
  by rewrite <-take_foldr_insert, IH, take_foldr_insert.
Qed.
End SortParts.

(** *** [min_by] and [max_by] *)

Section MinBy.
Context {A : Type} (ltb : A -> A -> bool).
Context (ltb_trans : forall x y z, ltb x y = true -> ltb y z = true -> ltb x z = true).
Context (ltb_irrefl : forall x, ltb x x = false).
Context (ltb_weak : forall x y z, ltb x y = true -> ltb z y = false -> ltb x z = true).

Let step acc y : A := if ltb y acc then y else acc.

Lemma fold_min_elem_of l x : fold_left step l x ∈ x :: l.
Proof.
  revert x. induction l as [|y l IH]; intros x; cbn; [by left|].
  destruct (proj1 (elem_of_cons _ _ _) (IH (step x y))) as [->|H].
  - unfold step. destruct (ltb y x); [by right; left|by left].
  - by right; right.
Qed.

Lemma fold_min_le l x y : y ∈ x :: l -> ltb y (fold_left step l x) = false.
Proof using ltb_irrefl ltb_trans ltb_weak.
  revert x y. induction l as [|z l IH]; intros x y Hy; cbn.
  { apply list_elem_of_singleton in Hy as ->. apply ltb_irrefl. }
  assert (Hs : ltb (step x z) (fold_left step l (step x z)) = false)
    by (apply IH; by left).
  assert (Hkeep : forall w, ltb w (step x z) = false ->
                    ltb w (fold_left step l (step x z)) = false).
  { intros w Hw. apply not_true_is_false. intros H.
    rewrite (ltb_weak _ _ (step x z) H Hs) in Hw. done. }
  apply elem_of_cons in Hy as [->|Hy].
  - apply Hkeep. unfold step. destruct (ltb z x) eqn:E; [|apply ltb_irrefl].
    apply not_true_is_false. intros H.
    specialize (ltb_irrefl x).
    pose proof (ltb_trans _ _ _ H E). congruence.
  - apply elem_of_cons in Hy as [->|Hy]; [|apply IH; by right].
    apply Hkeep. unfold step. destruct (ltb z x) eqn:E; [apply ltb_irrefl|done].
Qed.

Lemma min_by_Some l m :
  min_by ltb l = Some m -> m ∈ l /\ forall y, y ∈ l -> ltb y m = false.
Proof using ltb_irrefl ltb_trans ltb_weak.
  destruct l as [|x l]; cbn; [done|]. intros [= <-].
  split; [apply fold_min_elem_of|]. intros y. apply fold_min_le.
Qed.
End MinBy.

Lemma min_by_elem_of {A} (ltb : A -> A -> bool) l m : min_by ltb l = Some m -> m ∈ l.
Proof.
  destruct l as [|x l]; cbn; [done|]. intros [= <-]. apply fold_min_elem_of.
Qed.

Lemma min_by_None {A} (ltb : A -> A -> bool) l : min_by ltb l = None <-> l = [].
Proof. by destruct l. Qed.

(** *** Binary search *)

Section PartitionPoint.
Context {A : Type} (pred : A -> bool).

(** [l] is partitioned at [k]: [pred] holds exactly on the first [k]. *)
Definition partitioned_at (l : list A) (k : nat) : Prop :=
  forall i x, l !! i = Some x -> pred x = true <-> (i < k)%nat.

Lemma bsearch_spec l k fuel base size :
  partitioned_at l k ->
  (base + size <= length l)%nat -> (0 < size)%nat -> (size <= fuel)%nat ->
  (base = O \/ base < k)%nat -> (k <= base + size)%nat ->
  let b := bsearch pred l fuel base size in
  (b < length l)%nat /\ (b = O \/ b < k)%nat /\ (k <= S b)%nat.
Proof.
  intros Hp. revert base size.
  induction fuel as [|fuel IH]; intros base size Hb Hpos Hf Hlo Hhi; [lia|].
  cbn [bsearch]. cbv zeta.
  destruct (Nat.ltb_spec 1 size) as [Hs|Hs]; [|lia].
  set (half := Nat.div size 2).
  assert (Hhalf : (0 < half /\ half < size /\ 2 * half <= size)%nat).
  { subst half. split; [apply Nat.div_str_pos; lia|].
    split; [apply Nat.div_lt; lia|apply Nat.Div0.mul_div_le]. }
  destruct (lookup_lt_is_Some_2 l (base + half)) as [x Hx]; [lia|].
  fold half. rewrite Hx.
  pose proof (Hp _ _ Hx) as Hpx.
  destruct (pred x) eqn:E.
  - assert (base + half < k)%nat by (by apply Hpx). apply IH; lia.
  - assert (~ (base + half < k)%nat) by (intros Hc; by apply Hpx in Hc).
    apply IH; lia.
Qed.

(** On a partitioned slice the binary search returns the partition point. *)
Lemma partition_point_spec l k :
  partitioned_at l k -> (k <= length l)%nat -> partition_point pred l = k.
Proof.
  intros Hp Hk. unfold partition_point. destruct l as [|x0 l0]; [cbn in Hk; lia|].
  set (l := x0 :: l0) in *.
  assert (Hl : (0 < length l)%nat) by (subst l; cbn; lia).
  destruct (bsearch_spec l k (length l) O (length l)) as (H1 & H2 & H3); try lia; try done.
  destruct (lookup_lt_is_Some_2 l _ H1) as [x Hx]. rewrite Hx.
  pose proof (Hp _ _ Hx) as Hpx.
  destruct (pred x); [destruct Hpx as [Hpx _]; specialize (Hpx eq_refl); lia|].
  assert (~ (bsearch pred l (length l) 0 (length l) < k)%nat); [|lia].
  intros Hc. apply Hpx in Hc. done.
Qed.

Lemma partitioned_at_app l1 l2 :
  (forall x, x ∈ l1 -> pred x = true) -> (forall x, x ∈ l2 -> pred x = false) ->
  partitioned_at (l1 ++ l2) (length l1).
Proof.
  intros H1 H2 i x Hi. destruct (decide (i < length l1)%nat) as [Hlt|Hge].
  - rewrite lookup_app_l in Hi by done. split; [done|]. intros _.
    apply H1. by eapply list_elem_of_lookup_2.
  - rewrite lookup_app_r in Hi by lia. split; [|lia]. intros Hc.
    rewrite H2 in Hc; [done|]. by eapply list_elem_of_lookup_2.
Qed.
End PartitionPoint.

(** *** Concatenations of keyed lists *)

(** A flattened association list with distinct keys has no duplicates exactly
    when no entry has one and different entries are disjoint. *)
Lemma NoDup_bind_keyed {K V B} (f : K * V -> list B) (l : list (K * V)) :
  NoDup l.*1 ->
  NoDup (l ≫= f) <->
  (forall x, x ∈ l -> NoDup (f x)) /\
  (forall x y b, x ∈ l -> y ∈ l -> x.1 <> y.1 -> b ∈ f x -> b ∈ f y -> False).
Proof.
  induction l as [|x l IH]; cbn.
  { intros _. split; [|constructor]. intros _.
    split; [by intros ? ?%elem_of_nil|by intros ? ? ? ?%elem_of_nil]. }
  intros [Hx Hnd]%NoDup_cons. rewrite NoDup_app, IH by done.
  assert (Hkey : forall y, y ∈ l -> x.1 <> y.1).
  { intros y Hy E. apply Hx. rewrite E. by apply list_elem_of_fmap_2. }
  split.
  - intros (H1 & H2 & H3 & H4). split.
    + intros y [->|Hy]%elem_of_cons; auto.
    + intros y z b [->|Hy]%elem_of_cons [->|Hz]%elem_of_cons Hne Hb Hb'; [done|..|eauto].
      * apply (H2 b Hb), list_elem_of_bind. eauto.
      * apply (H2 b Hb'), list_elem_of_bind. eauto.
  - intros [H1 H2]. split; [apply H1; by left|]. split.
    + intros b Hb (y & Hb' & Hy)%list_elem_of_bind.
      apply (H2 x y b); [by left|by right|by apply Hkey|done|done].
    + split.
      * intros y Hy. apply H1. by right.
      * intros y z b Hy Hz. apply H2; by right.
Qed.

(** ** Loops that run until a pass changes nothing *)

(** [loop { let moved = pass(); if !moved { break } }] run for at most
    [2 ^ depth] passes; the flag says whether the last pass still moved. *)
Fixpoint iter_until {S} (pass : S -> S * bool) (depth : nat) (s : S) : S * bool :=
  match depth with
  | O => pass s
  | S depth' =>
    let '(s', moved) := iter_until pass depth' s in
    if moved then iter_until pass depth' s' else (s', false)
  end.

(** The loop itself, as a relation: [s'] is the state it stops in. *)
Inductive loop_ends {S} (pass : S -> S * bool) : S -> S -> Prop :=
| loop_stop s s' : pass s = (s', false) -> loop_ends pass s s'
| loop_more s s1 s' : pass s = (s1, true) -> loop_ends pass s1 s' -> loop_ends pass s s'.

Section IterUntil.
Context {S : Type} (pass : S -> S * bool) (inv : S -> Prop) (mu : S -> N).
Context (pass_inv : forall s, inv s -> inv (pass s).1).
Context (pass_mu : forall s, inv s -> (pass s).2 = true -> mu (pass s).1 < mu s).

Lemma iter_until_more depth s :
  inv s -> inv (iter_until pass depth s).1 /\
  ((iter_until pass depth s).2 = true ->
   mu (iter_until pass depth s).1 + 2 ^ N.of_nat depth <= mu s).
Proof using pass_inv pass_mu.
  revert s. induction depth as [|depth IH]; intros s Hs; cbn [iter_until].
  - split; [by apply pass_inv|]. intros Hm. specialize (pass_mu _ Hs Hm).
    change (2 ^ N.of_nat 0) with 1. lia.
  - destruct (IH s Hs) as [H1 H2]. destruct (iter_until pass depth s) as [s' []]; [|by split].
    cbn in H1, H2. specialize (H2 eq_refl). destruct (IH s' H1) as [H3 H4].
    split; [done|]. intros Hm. specialize (H4 Hm).
    replace (N.of_nat (Datatypes.S depth)) with (N.succ (N.of_nat depth)) by lia.
    rewrite N.pow_succ_r'. lia.
Qed.

(** A strictly decreasing measure below [2 ^ depth] makes the loop stop. *)
Lemma iter_until_stops depth s :
  inv s -> mu s < 2 ^ N.of_nat depth ->
  (iter_until pass depth s).2 = false /\ inv (iter_until pass depth s).1.
Proof using pass_inv pass_mu.
  intros Hs Hmu. destruct (iter_until_more depth s Hs) as [Hi H]. split; [|done].
  destruct (iter_until pass depth s).2; [|done]. specialize (H eq_refl). lia.
Qed.
End IterUntil.

Lemma iter_until_loop {S} (pass : S -> S * bool) depth s s' :
  iter_until pass depth s = (s', false) -> loop_ends pass s s'.
Proof.
  assert (Hgen : forall depth s, let r := iter_until pass depth s in
    (r.2 = false -> loop_ends pass s r.1) /\
    (r.2 = true -> forall s', loop_ends pass r.1 s' -> loop_ends pass s s')).
  { clear depth s s'. intros depth. induction depth as [|depth IH]; intros s; cbn [iter_until].
    - destruct (pass s) as [s1 m] eqn:E. cbn. split; intros ->; [by constructor|].
      intros s' Hs'. by eapply loop_more.
    - destruct (IH s) as [H1 H2]. destruct (iter_until pass depth s) as [s1 []]; cbn in *.
      + destruct (IH s1) as [H3 H4]. split; intros Hm; [apply H2; auto|].
        intros s' Hs'. apply H2; auto.
      + split; [auto|done]. }
  intros E. destruct (Hgen depth s) as [H _]. rewrite E in H. by apply H.
Qed.

(** The state a loop stops in is one that a pass leaves unmoved. *)
Lemma loop_ends_inv {S} (pass : S -> S * bool) (inv : S -> Prop) s s' :
  (forall s, inv s -> inv (pass s).1) ->
  loop_ends pass s s' -> inv s -> exists s0, inv s0 /\ pass s0 = (s', false).
Proof.
  intros Hi. induction 1 as [s s' H|s s1 s' H _ IH]; intros Hs; [by exists s|].
  apply IH. specialize (Hi _ Hs). by rewrite H in Hi.
Qed.

(** *** Sorting and filtering commute when ties are equal elements *)

Lemma StronglySorted_filterb {A} (R : A -> A -> Prop) (p : A -> bool) l :
  StronglySorted R l -> StronglySorted R (List.filter p l).
Proof.
  induction 1 as [|x l Hl IH Hx]; cbn; [constructor|]. destruct (p x); [|done].
  constructor; [done|]. rewrite Forall_forall in *. intros y [Hy _]%list_elem_of_In%filter_In.
  apply Hx. by apply list_elem_of_In.
Qed.

Lemma filterb_Permutation {A} (p : A -> bool) l l' :
  l ≡ₚ l' -> List.filter p l ≡ₚ List.filter p l'.
Proof.
  induction 1 as [|x l l' _ IH|x y l|l1 l2 l3 _ IH1 _ IH2]; cbn; [done|..].
  - by destruct (p x); rewrite IH.
  - destruct (p x), (p y); done || apply Permutation_swap.
  - by rewrite IH1.
Qed.

Lemma filterb_elem_of {A} (p : A -> bool) l x : x ∈ List.filter p l <-> x ∈ l /\ p x = true.
Proof. by rewrite !list_elem_of_In, filter_In. Qed.

Lemma filterb_NoDup {A} (p : A -> bool) l : NoDup l -> NoDup (List.filter p l).
Proof.
  induction 1 as [|x l Hx Hl IH]; cbn; [constructor|]. destruct (p x); [|done].
  constructor; [|done]. rewrite filterb_elem_of. by intros [? _].
Qed.

Lemma filterb_id {A} (p : A -> bool) l : (forall x, x ∈ l -> p x = true) -> List.filter p l = l.
Proof.
  induction l as [|x l IH]; cbn; [done|]. intros H. rewrite H, IH; [done| |by left].
  intros y Hy. apply H. by right.
Qed.

Lemma filterb_app {A} (p : A -> bool) l1 l2 :
  List.filter p (l1 ++ l2) = List.filter p l1 ++ List.filter p l2.
Proof. induction l1 as [|x l1 IH]; cbn; [done|]. destruct (p x); cbn; by rewrite IH. Qed.

Lemma filterb_length {A} (p : A -> bool) l : (length (List.filter p l) <= length l)%nat.
Proof. induction l as [|x l IH]; cbn; [done|]. destruct (p x); cbn; lia. Qed.

Lemma sort_by_filterb {A} (leb : A -> A -> bool) (p : A -> bool) l :
  (forall x y, leb x y = true \/ leb y x = true) ->
  (forall x y z, leb x y = true -> leb y z = true -> leb x z = true) ->
  (forall x y, leb x y = true -> leb y x = true -> x = y) ->
  sort_by leb (List.filter p l) = List.filter p (sort_by leb l).
Proof.
  intros Ht Htr Ha. apply (StronglySorted_unique_strong (le_of leb)).
  - intros x y _ _. apply Ha.
  - by apply sort_by_sorted.
  - by apply StronglySorted_filterb, sort_by_sorted.
  - rewrite sort_by_Permutation. apply filterb_Permutation. by rewrite sort_by_Permutation.
Qed.

(** *** Local search: passes over a list that move while a measure drops *)

Lemma iter_until_fixed {S} (pass : S -> S * bool) depth s :
  pass s = (s, false) -> iter_until pass depth s = (s, false).
Proof. intros H. induction depth as [|depth IH]; cbn; [done|]. by rewrite IH. Qed.

Section LocalSearch.
Context {S A : Type} (step : S * bool -> A -> S * bool) (inv : S -> Prop) (mu : S -> N).
Context (dom : A -> Prop).
Context (step_spec : forall s b a, dom a -> inv s ->
  step (s, b) a = (s, b) \/ exists s', step (s, b) a = (s', true) /\ inv s' /\ mu s' < mu s).

Lemma search_pass_spec l s b :
  (forall a, a ∈ l -> dom a) -> inv s ->
  let r := fold_left step l (s, b) in
  inv r.1 /\ mu r.1 <= mu s /\ (r.2 = true -> b = true \/ mu r.1 < mu s) /\
  (r.2 = false -> b = false /\ r.1 = s /\ forall a, a ∈ l -> step (s, false) a = (s, false)).
Proof using step_spec.
  intros Hl. revert s b. induction l as [|a l IH]; intros s b Hs; cbn.
  - split_and!; [done|lia|auto|]. intros ->. split_and!; [done..|]. by intros a ?%elem_of_nil.
  - specialize (IH ltac:(intros; apply Hl; by right)).
    destruct (step_spec s b a (Hl a ltac:(by left)) Hs) as [E|(s' & E & Hs' & Hmu)]; rewrite E.
    + destruct (IH s b Hs) as (H1 & H2 & H3 & H4). split_and!; [done..|].
      intros [-> [Hr Ha]]%H4. split_and!; [done..|].
      intros x [->|Hx]%elem_of_cons; auto.
    + destruct (IH s' true Hs') as (H1 & H2 & H3 & H4). split_and!; [done|lia|right; lia|].
      by intros [? _]%H4.
Qed.

(** With the measure below [2 ^ depth], the passes stop in a state that
    satisfies the invariant and in which no step moves. *)
Lemma local_search_spec l depth s :
  (forall a, a ∈ l -> dom a) -> inv s -> mu s < 2 ^ N.of_nat depth ->
  exists s', iter_until (fun s => fold_left step l (s, false)) depth s = (s', false) /\
    inv s' /\ forall a, a ∈ l -> step (s', false) a = (s', false).
Proof using step_spec.
  intros Hl Hs Hmu. set (pass := fun s => fold_left step l (s, false)).
  destruct (iter_until_stops pass inv mu) with (depth := depth) (s := s) as [H1 H2]; [..|done|done|].
  { intros s0 H0. by apply (search_pass_spec l s0 false Hl H0). }
  { intros s0 H0 Hm. destruct (search_pass_spec l s0 false Hl H0) as (_ & _ & H3 & _).
    by destruct (H3 Hm). }
  destruct (iter_until pass depth s) as [s' []] eqn:E; [done|]. exists s'. split_and!; [done..|].
  destruct (loop_ends_inv pass inv s s') as (s0 & Hs0 & E0);
    [|by eapply iter_until_loop|done|].
  { intros s0 H0. by apply (search_pass_spec l s0 false Hl H0). }
  destruct (search_pass_spec l s0 false Hl Hs0) as (_ & _ & _ & H4). cbn zeta in H4.
  change (fold_left step l (s0, false)) with (pass s0) in H4. rewrite E0 in H4.
  destruct (H4 eq_refl) as (_ & Heq & Ha). cbn in Heq. by subst s'.
Qed.
End LocalSearch.

(** *** Keyed lists *)

(** Two elements of a list with distinct keys that share a key are equal. *)
Lemma NoDup_fmap_eq {A B} (f : A -> B) l x y :
  NoDup (f <$> l) -> x ∈ l -> y ∈ l -> f x = f y -> x = y.
Proof.
  induction l as [|z l IH]; cbn; [by intros _ ?%elem_of_nil|].
  intros [Hz Hl]%NoDup_cons.
  assert (Hno : forall w, w ∈ l -> f w <> f z).
  { intros w Hw He. apply Hz. rewrite <- He. by apply list_elem_of_fmap_2. }
  intros [->|Hx]%elem_of_cons [->|Hy]%elem_of_cons He; [done| | |by apply IH].
  - by destruct (Hno y).
  - by destruct (Hno x).
Qed.

(** Collecting keyed elements into a map. *)
Section Collect.
Context {K V A : Type} `{Countable K} (f : A -> K) (g : A -> V).

Definition collect_from (acc : gmap K V) (l : list A) : gmap K V :=
  fold_left (fun (acc : gmap K V) x => <[f x := g x]> acc) l acc.

Lemma collect_Some acc l k v :
  collect_from acc l !! k = Some v ->
  (exists x, x ∈ l /\ f x = k /\ g x = v) \/ acc !! k = Some v.
Proof.
  revert acc. induction l as [|x l IH]; cbn; [by right|]. intros acc [(y & Hy & Hf & Hg)|Hk]%IH.
  - left. exists y. split; [by right|done].
  - apply lookup_insert_Some in Hk as [[<- <-]|[_ Hk]]; [left|by right].
    exists x. split; [by left|done].
Qed.

Lemma collect_is_Some acc l k :
  is_Some (collect_from acc l !! k) <-> k ∈ f <$> l \/ is_Some (acc !! k).
Proof.
  revert acc. induction l as [|x l IH]; intros acc; cbn [fmap list_fmap].
  - rewrite elem_of_nil. naive_solver.
  - change (collect_from acc (x :: l)) with (collect_from (<[f x := g x]> acc) l). rewrite IH, lookup_insert_is_Some', elem_of_cons. naive_solver.
Qed.

Lemma collect_elem acc l x :
  NoDup (f <$> l) -> x ∈ l -> collect_from acc l !! f x = Some (g x).
Proof.
  intros Hnd Hx. destruct (proj2 (collect_is_Some acc l (f x))) as [v Hv].
  { left. by apply list_elem_of_fmap_2. }
  rewrite Hv. revert acc Hv. induction l as [|y l IH]; cbn; [by apply elem_of_nil in Hx|].
  apply NoDup_cons in Hnd as [Hy Hl]. intros acc Hv.
  apply elem_of_cons in Hx as [->|Hx]; [|by eapply IH].
  apply collect_Some in Hv as [(z & Hz & Hf & _)|Hv].
  - destruct Hy. rewrite <- Hf. by apply list_elem_of_fmap_2.
  - rewrite lookup_insert_eq in Hv. done.
Qed.
End Collect.

(** [max_by] finds a maximal element. *)
Section MaxBy.
Context {A : Type} (ltb : A -> A -> bool).
Context (ltb_trans : forall x y z, ltb x y = true -> ltb y z = true -> ltb x z = true).
Context (ltb_irrefl : forall x, ltb x x = false).
Context (ltb_weak : forall x y z, ltb x y = true -> ltb z y = false -> ltb x z = true).

Let step acc y : A := if ltb y acc then acc else y.

Lemma fold_max_elem_of l x : fold_left step l x ∈ x :: l.
Proof.
  revert x. induction l as [|y l IH]; intros x; cbn; [by left|].
  destruct (proj1 (elem_of_cons _ _ _) (IH (step x y))) as [->|Hx].
  - unfold step. destruct (ltb y x); [by left|by right; left].
  - by right; right.
Qed.

Lemma fold_max_ge l x : ltb (fold_left step l x) x = false /\
  forall y, y ∈ l -> ltb (fold_left step l x) y = false.
Proof using ltb_irrefl ltb_trans ltb_weak.
  assert (Hcut : forall a b c, ltb a b = false -> ltb b c = false -> ltb a c = false).
  { intros a b c Hab Hbc. apply not_true_is_false. intros Hac.
    rewrite (ltb_weak _ _ b Hac Hbc) in Hab. done. }
  revert x. induction l as [|z l IH]; intros x; cbn.
  { split; [apply ltb_irrefl|]. by intros y ?%elem_of_nil. }
  destruct (IH (step x z)) as [H1 H2].
  assert (Hx : ltb (step x z) x = false).
  { unfold step. destruct (ltb z x) eqn:E; [apply ltb_irrefl|done]. }
  assert (Hz : ltb (step x z) z = false).
  { unfold step. destruct (ltb z x) eqn:E; [|apply ltb_irrefl].
    apply not_true_is_false. intros Hxz. pose proof (ltb_trans _ _ _ Hxz E).
    specialize (ltb_irrefl x). congruence. }
  split; [by eapply Hcut|]. intros y [->|Hy]%elem_of_cons; [by eapply Hcut|by apply H2].
Qed.

Lemma max_by_Some l m :
  max_by ltb l = Some m -> m ∈ l /\ forall y, y ∈ l -> ltb m y = false.
Proof using ltb_irrefl ltb_trans ltb_weak.
  destruct l as [|x l]; cbn; [done|]. intros [= <-].
  split; [apply fold_max_elem_of|]. destruct (fold_max_ge l x) as [H1 H2].
  intros y [->|Hy]%elem_of_cons; auto.
Qed.
End MaxBy.

Lemma max_by_elem_of {A} (ltb : A -> A -> bool) l m : max_by ltb l = Some m -> m ∈ l.
Proof. destruct l as [|x l]; cbn; [done|]. intros [= <-]. apply fold_max_elem_of. Qed.

Lemma max_by_None {A} (ltb : A -> A -> bool) l : max_by ltb l = None <-> l = [].
Proof. by destruct l. Qed.

Lemma fold_left_fixed {A B} (step : B -> A -> B) l s :
  (forall x, x ∈ l -> step s x = s) -> fold_left step l s = s.
Proof.
  induction l as [|x l IH]; intros H; cbn; [done|]. rewrite H by by left.
  apply IH. intros y Hy. apply H. by right.
Qed.

(** *** Counting *)

Lemma filterb_length_le {A} (p q : A -> bool) l :
  (forall x, x ∈ l -> q x = true -> p x = true) ->
  (length (List.filter q l) <= length (List.filter p l))%nat.
Proof.
  induction l as [|x l IH]; intros H; cbn; [done|].
  specialize (IH ltac:(intros y Hy; apply H; by right)).
  specialize (H x ltac:(by left)). destruct (q x), (p x); cbn; try lia; by specialize (H eq_refl).
Qed.

Lemma filterb_length_lt {A} (p q : A -> bool) l y :
  (forall x, x ∈ l -> q x = true -> p x = true) -> y ∈ l -> p y = true -> q y = false ->
  (length (List.filter q l) < length (List.filter p l))%nat.
Proof.
  intros H Hy Hp Hq. apply list_elem_of_split in Hy as (l1 & l2 & ->).
  rewrite !filterb_app, !length_app. cbn [List.filter]. rewrite Hp, Hq. cbn [length].
  pose proof (filterb_length_le p q l1 ltac:(intros x Hx; apply H, elem_of_app; by left)).
  pose proof (filterb_length_le p q l2 ltac:(intros x Hx; apply H, elem_of_app; right; by right)).
  lia.
Qed.

Lemma filterb_filterb {A} (p q : A -> bool) l :
  List.filter p (List.filter q l) = List.filter (fun x => q x && p x) l.
Proof.
  induction l as [|x l IH]; cbn; [done|]. destruct (q x); cbn; [|done].
  destruct (p x); by rewrite IH.
Qed.

Lemma find_Some_elem {A} (p : A -> bool) l x : find p l = Some x -> x ∈ l /\ p x = true.
Proof. intros [H1 H2]%find_some. by rewrite list_elem_of_In. Qed.

Lemma find_None_elem {A} (p : A -> bool) l : find p l = None -> forall x, x ∈ l -> p x = false.
Proof. intros H x Hx. eapply find_none; [exact H|]. by apply list_elem_of_In. Qed.

(** *** An executable codec: bit strings of the numbers [Countable] assigns *)

Definition bit0 : Ascii.ascii := Ascii.ascii_of_N 48.

Definition bit1 : Ascii.ascii := Ascii.ascii_of_N 49.

Fixpoint pos_bits (p : positive) : string :=
  match p with
  | xH => EmptyString
  | xO q => String bit0 (pos_bits q)
  | xI q => String bit1 (pos_bits q)
  end.

Fixpoint bits_pos (s : string) : positive :=
  match s with
  | EmptyString => xH
  | String c s' => if bool_decide (c = bit0) then xO (bits_pos s') else xI (bits_pos s')
  end.

Lemma bits_pos_bits p : bits_pos (pos_bits p) = p.
Proof.
  induction p as [p IH|p IH|]; [..|done]; cbn [pos_bits bits_pos].
  - rewrite bool_decide_eq_false_2 by done. by rewrite IH.
  - rewrite bool_decide_eq_true_2 by done. by rewrite IH.
Qed.

Definition decode_or {A} `{Countable A} (s : string) : result string A :=
  match decode (bits_pos s) with Some a => Ok a | None => Err "corrupt"%string end.

Lemma decode_or_bits {A} `{Countable A} (x : A) : decode_or (pos_bits (encode x)) = Ok x.
Proof. unfold decode_or. by rewrite bits_pos_bits, decode_encode. Qed.
