(* ===== verification/ShardTypes.v ===== *)
(** * Shard map data model ([hyperbytedb/src/domain/sharding/types.rs])

    The epoch, region, space and map records with their operations, and the
    facts every client of the map relies on: a validated space is a partition
    of the series-id range, so [locate] is total and exact on it. *)

From stdpp Require Import prelude list sorting gmap strings pretty.
From S2P Require Import Prelude.
From stdpp Require Import options.

#[local] Open Scope N_scope.

(** ** Data *)

Record ShardEpoch := mkEpoch { conf_ver : N; version : N }.

Definition epoch_default : ShardEpoch := mkEpoch 0 0.

#[export] Instance ShardEpoch_eq_dec : EqDecision ShardEpoch.
Proof. solve_decision. Defined.

Definition bump_version (e : ShardEpoch) : ShardEpoch :=
  mkEpoch (conf_ver e) (sat_add (version e) 1).

Definition bump_conf_ver (e : ShardEpoch) : ShardEpoch :=
  mkEpoch (sat_add (conf_ver e) 1) (version e).

Definition is_behind (self other : ShardEpoch) : bool :=
  negb (bool_decide (self = other)) && (conf_ver self <=? conf_ver other)
  && (version self <=? version other).

Inductive RegionState := Serving | Staging.

#[export] Instance RegionState_eq_dec : EqDecision RegionState.
Proof. solve_decision. Defined.

Record ShardRegion := mkRegion {
  region_id : N;
  start : N;
  end_ : N;
  epoch : ShardEpoch;
  peers : list N;
  primary : N;
  last_split_at : N;
  transfer_verified : option bool;
  transfer_first_seen : option Z;
  state : RegionState;
  staged_from : option N;
  staging_peers : list N
}.

#[export] Instance ShardRegion_eq_dec : EqDecision ShardRegion.
Proof. solve_decision. Defined.

Definition is_serving (r : ShardRegion) : bool :=
  match state r with Serving => true | Staging => false end.

Definition is_serving_peer (r : ShardRegion) (peer : N) : bool :=
  bool_decide (peer ∈ peers r) && negb (bool_decide (peer ∈ staging_peers r)).

Definition contains (r : ShardRegion) (series_id : N) : bool :=
  (start r <=? series_id) && (series_id <? end_ r).

Definition transfer_outstanding (r : ShardRegion) : bool :=
  bool_decide (transfer_verified r = Some false).

Record MeasurementKey := mkKey { db : string; rp : string; measurement : string }.

#[export] Instance MeasurementKey_eq_dec : EqDecision MeasurementKey.
Proof. solve_decision. Defined.

#[export] Instance MeasurementKey_countable : Countable MeasurementKey.
Proof.
  refine (inj_countable' (fun k => (db k, rp k, measurement k))
            (fun '(a, b, c) => mkKey a b c) _).
  by intros [].
Defined.

Record MeasurementShardSpace := mkSpace {
  key : MeasurementKey;
  regions : list ShardRegion
}.

Record ShardMap := mkMap {
  map_version : N;
  next_region_id : N;
  spaces : gmap MeasurementKey MeasurementShardSpace
}.

Definition default_next_region_id : N := 1.

Definition map_default : ShardMap := mkMap 0 default_next_region_id ∅.

(** ** Record updates *)

Definition set_region_id (id : N) (r : ShardRegion) : ShardRegion :=
  mkRegion id (start r) (end_ r) (epoch r) (peers r) (primary r) (last_split_at r)
    (transfer_verified r) (transfer_first_seen r) (state r) (staged_from r) (staging_peers r).

Definition set_epoch (e : ShardEpoch) (r : ShardRegion) : ShardRegion :=
  mkRegion (region_id r) (start r) (end_ r) e (peers r) (primary r) (last_split_at r)
    (transfer_verified r) (transfer_first_seen r) (state r) (staged_from r) (staging_peers r).

Definition set_peers (ps : list N) (r : ShardRegion) : ShardRegion :=
  mkRegion (region_id r) (start r) (end_ r) (epoch r) ps (primary r) (last_split_at r)
    (transfer_verified r) (transfer_first_seen r) (state r) (staged_from r) (staging_peers r).

Definition set_primary (p : N) (r : ShardRegion) : ShardRegion :=
  mkRegion (region_id r) (start r) (end_ r) (epoch r) (peers r) p (last_split_at r)
    (transfer_verified r) (transfer_first_seen r) (state r) (staged_from r) (staging_peers r).

Definition set_transfer (v : option bool) (t : option Z) (r : ShardRegion) : ShardRegion :=
  mkRegion (region_id r) (start r) (end_ r) (epoch r) (peers r) (primary r) (last_split_at r)
    v t (state r) (staged_from r) (staging_peers r).

Definition set_state (st : RegionState) (from : option N) (r : ShardRegion) : ShardRegion :=
  mkRegion (region_id r) (start r) (end_ r) (epoch r) (peers r) (primary r) (last_split_at r)
    (transfer_verified r) (transfer_first_seen r) st from (staging_peers r).

Definition set_staging_peers (ps : list N) (r : ShardRegion) : ShardRegion :=
  mkRegion (region_id r) (start r) (end_ r) (epoch r) (peers r) (primary r) (last_split_at r)
    (transfer_verified r) (transfer_first_seen r) (state r) (staged_from r) ps.

Definition set_spaces (s : gmap MeasurementKey MeasurementShardSpace) (m : ShardMap) : ShardMap :=
  mkMap (map_version m) (next_region_id m) s.

Definition set_next_region_id (n : N) (m : ShardMap) : ShardMap :=
  mkMap (map_version m) n (spaces m).

Definition set_map_version (n : N) (m : ShardMap) : ShardMap :=
  mkMap n (next_region_id m) (spaces m).

(** ** Operations *)

(** [MeasurementShardSpace::locate]. *)
Definition space_locate (s : MeasurementShardSpace) (series_id : N) : option ShardRegion :=
  match regions s with
  | [] => None
  | _ =>
    let idx := partition_point (fun r => start r <=? series_id) (regions s) in
    match idx with
    | O => None
    | S i =>
      region ← regions s !! i;
      if contains region series_id then Some region else None
    end
  end.

(** [MeasurementShardSpace::region_with_range]. *)
Definition region_with_range (s : MeasurementShardSpace) (lo hi : N) : option ShardRegion :=
  find (fun r => (start r =? lo) && (end_ r =? hi)) (regions s).

Definition start_leb (a b : ShardRegion) : bool := start a <=? start b.

(** The [windows(2)] loop of [validate]. *)
Fixpoint check_windows (l : list ShardRegion) : result string unit :=
  match l with
  | a :: l' =>
    match l' with
    | [] => Ok tt
    | b :: _ =>
      if negb (end_ a =? start b) then
        Err ("gap or overlap between regions " +:+ pretty (region_id a) +:+ " and "
             +:+ pretty (region_id b))%string
      else check_windows l'
    end
  | [] => Ok tt
  end.

(** [MeasurementShardSpace::validate]. *)
Definition validate (s : MeasurementShardSpace) : result string unit :=
  let sorted := sort_by start_leb (regions s) in
  match sorted with
  | [] => Err "empty region list"%string
  | first :: _ =>
    if negb (start first =? 0) then
      Err ("first region must start at 0, got " +:+ pretty (start first))%string
    else
      _ ← check_windows sorted;
      if negb (bool_decide (end_ <$> last sorted = Some u64_max)) then
        Err "last region must end at u64::MAX"%string
      else
        match first_duplicate [] (region_id <$> regions s) with
        | Some id => Err ("duplicate region_id " +:+ pretty id +:+ " within space")%string
        | None => Ok tt
        end
  end.

(** Every region of every space, in the map's iteration order. *)
Definition all_regions (m : ShardMap) : list ShardRegion :=
  map_to_list (spaces m) ≫= fun kv => regions (kv.2).

(** [ShardMap::validate_global_region_ids]. *)
Definition validate_global_region_ids (m : ShardMap) : result string unit :=
  match first_duplicate [] (region_id <$> all_regions m) with
  | Some id => Err ("duplicate region_id " +:+ pretty id)%string
  | None => Ok tt
  end.

(** [ShardMap::locate] and [ShardMap::space]. *)
Definition space (m : ShardMap) (k : MeasurementKey) : option MeasurementShardSpace :=
  spaces m !! k.

Definition locate (m : ShardMap) (k : MeasurementKey) (series_id : N) : option ShardRegion :=
  s ← spaces m !! k; space_locate s series_id.

(** The JSON envelope of the map: the same counters, the spaces as a list. *)
Record ShardMapJson := mkMapJson {
  json_map_version : N;
  json_next_region_id : N;
  json_spaces : list MeasurementShardSpace
}.

Definition to_json (m : ShardMap) : ShardMapJson :=
  mkMapJson (map_version m) (next_region_id m) ((map_to_list (spaces m)).*2).

Definition insert_spaces (l : list MeasurementShardSpace)
    : gmap MeasurementKey MeasurementShardSpace :=
  fold_left (fun acc s => <[key s := s]> acc) l ∅.

Definition of_json (j : ShardMapJson) : ShardMap :=
  mkMap (json_map_version j) (json_next_region_id j) (insert_spaces (json_spaces j)).

(** ** Well-formedness *)

(** The machine-width facts the Rust types give. *)
Definition u64_region (r : ShardRegion) : Prop :=
  region_id r <= u64_max /\ start r <= u64_max /\ end_ r <= u64_max.

Definition start_sorted (l : list ShardRegion) : Prop := StronglySorted (le_of start_leb) l.

(** [l] is a contiguous run of regions from [lo] to [hi]. *)
Fixpoint chain (lo hi : N) (l : list ShardRegion) : Prop :=
  match l with
  | [] => lo = hi
  | r :: l' => start r = lo /\ start r <= end_ r /\ chain (end_ r) hi l'
  end.

(** What the map keeps true of each space. *)
Record space_wf (s : MeasurementShardSpace) : Prop := mkSpaceWf {
  swf_u64 : Forall u64_region (regions s);
  swf_sorted : start_sorted (regions s);
  swf_valid : validate s = Ok tt
}.

(** *** Sorting by [start] *)

Lemma start_leb_total x y : start_leb x y = true \/ start_leb y x = true.
Proof. unfold start_leb. rewrite !N.leb_le. lia. Qed.

Lemma start_leb_trans x y z :
  start_leb x y = true -> start_leb y z = true -> start_leb x z = true.
Proof. unfold start_leb. rewrite !N.leb_le. lia. Qed.

Lemma sort_regions_sorted l : start_sorted (sort_by start_leb l).
Proof. apply sort_by_sorted; [apply start_leb_total|apply start_leb_trans]. Qed.

Lemma sort_regions_id l : start_sorted l -> sort_by start_leb l = l.
Proof. apply sort_by_id. Qed.

#[export] Hint Resolve sort_regions_sorted : shard.

(** *** Chains *)

Lemma chain_le lo hi l : chain lo hi l -> lo <= hi.
Proof.
  revert lo. induction l as [|r l IH]; intros lo; cbn; [lia|].
  intros (<- & H & Hc%IH). lia.
Qed.

Lemma chain_bounds lo hi l r : chain lo hi l -> r ∈ l -> lo <= start r /\ end_ r <= hi.
Proof.
  revert lo. induction l as [|x l IH]; intros lo; cbn; [by intros _ ?%elem_of_nil|].
  intros (<- & Hx & Hc) [->|Hr]%elem_of_cons.
  - apply chain_le in Hc. lia.
  - specialize (IH _ Hc Hr). lia.
Qed.

Lemma chain_app lo hi l1 l2 :
  chain lo hi (l1 ++ l2) <-> exists mid, chain lo mid l1 /\ chain mid hi l2.
Proof.
  revert lo. induction l1 as [|r l1 IH]; intros lo; cbn.
  - split; [by exists lo|]. by intros (mid & -> & H).
  - rewrite IH. naive_solver.
Qed.

Lemma chain_sorted lo hi l : chain lo hi l -> start_sorted l.
Proof.
  revert lo. induction l as [|r l IH]; intros lo; cbn; [constructor|].
  intros (<- & Hr & Hc). constructor; [by eapply IH|].
  apply Forall_forall. intros x Hx. apply N.leb_le.
  pose proof (chain_bounds _ _ _ _ Hc Hx). lia.
Qed.

(** A point inside a chain lies in exactly one of its regions. *)
Lemma chain_split lo hi l id :
  chain lo hi l -> lo <= id -> id < hi ->
  exists l1 r l2, l = l1 ++ r :: l2 /\ contains r id = true /\
    (forall x, x ∈ l1 -> start x <= id /\ end_ x <= id) /\ (forall x, x ∈ l2 -> id < start x).
Proof.
  revert lo. induction l as [|r l IH]; intros lo; cbn; [lia|].
  intros (<- & Hr & Hc) Hlo Hhi. destruct (decide (id < end_ r)) as [Hlt|Hge].
  - exists [], r, l. split; [done|]. split.
    + unfold contains. rewrite andb_true_iff, N.leb_le, N.ltb_lt. lia.
    + split; [by intros ? ?%elem_of_nil|]. intros x Hx.
      pose proof (chain_bounds _ _ _ _ Hc Hx). lia.
  - destruct (IH _ Hc) as (l1 & x & l2 & -> & Hx & H1 & H2); [lia|lia|].
    exists (r :: l1), x, l2. split; [done|]. split; [done|]. split; [|done].
    intros y [->|Hy]%elem_of_cons; [lia|by apply H1].
Qed.

(** *** What [validate] accepts *)

Lemma check_windows_chain l r :
  start_sorted (r :: l) -> Forall u64_region (r :: l) ->
  check_windows (r :: l) = Ok tt -> end_ <$> last (r :: l) = Some u64_max ->
  chain (start r) u64_max (r :: l).
Proof.
  revert r. induction l as [|b l IH]; intros r Hs Hu Hw Hl.
  - cbn in *. simplify_eq. apply Forall_cons in Hu as [(_ & H & _) _].
    split; [done|]. split; [lia|done].
  - inversion Hs as [|? ? Hs' Hall]; subst. apply Forall_cons in Hall as [Hrb%N.leb_le _].
    apply Forall_cons in Hu as [_ Hu]. cbn [check_windows] in Hw.
    destruct (end_ r =? start b) eqn:E; cbn [negb] in Hw; [|done]. apply N.eqb_eq in E.
    split; [done|]. split; [lia|]. rewrite E. apply IH; try done.
Qed.

Lemma chain_check_windows lo hi l : chain lo hi l -> check_windows l = Ok tt.
Proof.
  revert lo. induction l as [|r l IH]; intros lo; [done|].
  intros (<- & Hr & Hc). cbn [check_windows]. destruct l as [|b l]; [done|].
  pose proof Hc as (Hb & _). rewrite Hb, N.eqb_refl. cbn. by eapply IH.
Qed.

Lemma chain_last lo hi l : l <> [] -> chain lo hi l -> end_ <$> last l = Some hi.
Proof.
  revert lo. induction l as [|r l IH]; intros lo Hne Hc; [done|].
  destruct l as [|b l]; [destruct Hc as (_ & _ & Hc); cbn in *; by subst|].
  destruct Hc as (_ & _ & Hc). change (last (r :: b :: l)) with (last (b :: l)).
  by apply (IH _ ltac:(done) Hc).
Qed.

(** [validate] accepts exactly the lists that, sorted by start, tile
    [[0, u64::MAX)] and carry distinct region ids. *)
Lemma validate_Ok s :
  Forall u64_region (regions s) ->
  validate s = Ok tt <->
  regions s <> [] /\ chain 0 u64_max (sort_by start_leb (regions s)) /\
  NoDup (region_id <$> regions s).
Proof.
  intros Hu. unfold validate.
  assert (Hu' : Forall u64_region (sort_by start_leb (regions s)))
    by (by rewrite sort_by_Permutation).
  pose proof (sort_regions_sorted (regions s)) as Hs.
  pose proof (sort_by_Permutation start_leb (regions s)) as Hp.
  destruct (sort_by start_leb (regions s)) as [|r l] eqn:E.
  { apply Permutation_nil_l in Hp. rewrite Hp. naive_solver. }
  assert (Hne : regions s <> []).
  { intros Hn. rewrite Hn in Hp. by apply Permutation_nil_r in Hp. }
  split.
  - intros H. destruct (start r =? 0) eqn:E0; cbn [negb] in H; [|done]. apply N.eqb_eq in E0.
    destruct (check_windows (r :: l)) as [[]|] eqn:Ew; cbn [mbind result_bind] in H; [|done].
    case_bool_decide as El; cbn [negb] in H; [|done].
    destruct (first_duplicate _ _) eqn:Ed; [done|].
    apply first_duplicate_None in Ed as [Hnd _].
    split; [done|]. split; [|done]. rewrite <-E0. by apply check_windows_chain.
  - intros (_ & Hc & Hnd). pose proof Hc as (E0 & _). rewrite E0. cbn [negb N.eqb].
    rewrite (chain_check_windows _ _ _ Hc). cbn [mbind result_bind].
    rewrite (bool_decide_eq_true_2 (_ = Some u64_max)) by (by eapply chain_last). cbn [negb].
    rewrite (proj2 (first_duplicate_None [] _)); [done|].
    split; [done|]. intros ? _ []%elem_of_nil.
Qed.

Lemma space_wf_chain s : space_wf s -> chain 0 u64_max (regions s).
Proof.
  intros [Hu Hs Hv]. apply validate_Ok in Hv as (_ & Hc & _); [|done].
  by rewrite sort_regions_id in Hc.
Qed.

Lemma space_wf_intro s :
  Forall u64_region (regions s) -> chain 0 u64_max (regions s) ->
  NoDup (region_id <$> regions s) -> space_wf s.
Proof.
  intros Hu Hc Hnd. pose proof (chain_sorted _ _ _ Hc) as Hs. split; [done..|].
  apply validate_Ok; [done|]. rewrite sort_regions_id by done.
  split; [|done]. intros Hn. rewrite Hn in Hc. cbn in Hc. by compute in Hc.
Qed.

Lemma space_wf_nodup s : space_wf s -> NoDup (region_id <$> regions s).
Proof. intros [Hu Hs Hv]. by apply validate_Ok in Hv as (_ & _ & H). Qed.

(** Region ids identify the regions of a space. *)
Lemma nodup_region_id l r1 r2 :
  NoDup (region_id <$> l) -> r1 ∈ l -> r2 ∈ l -> region_id r1 = region_id r2 -> r1 = r2.
Proof.
  induction l as [|r l IH]; cbn; [by intros _ ?%elem_of_nil|].
  intros [Hn Hnd]%NoDup_cons [->|H1]%elem_of_cons [->|H2]%elem_of_cons E; try done.
  - destruct Hn. rewrite E. by apply list_elem_of_fmap_2.
  - destruct Hn. rewrite <-E. by apply list_elem_of_fmap_2.
  - by apply IH.
Qed.

(** *** [locate] *)

Lemma chain_locate k l id :
  chain 0 u64_max l -> id < u64_max ->
  exists l1 r l2, l = l1 ++ r :: l2 /\ contains r id = true /\
    space_locate (mkSpace k l) id = Some r.
Proof.
  intros Hc Hid. destruct (chain_split _ _ _ id Hc) as (l1 & r & l2 & -> & Hr & H1 & H2);
    [lia|done|].
  exists l1, r, l2. split; [done|]. split; [done|]. unfold space_locate. cbn [regions].
  assert (Hpp : partition_point (fun r => start r <=? id) (l1 ++ r :: l2) = S (length l1)).
  { replace (l1 ++ r :: l2) with ((l1 ++ [r]) ++ l2) by (by rewrite <-app_assoc).
    replace (S (length l1)) with (length (l1 ++ [r])) by (rewrite length_app; cbn; lia).
    apply partition_point_spec; [|rewrite !length_app; lia].
    apply partitioned_at_app.
    - intros x [Hx|Hx]%elem_of_app; apply N.leb_le; [by apply H1|].
      apply list_elem_of_singleton in Hx as ->. unfold contains in Hr. reflect_bools. lia.
    - intros x Hx. apply N.leb_gt. by apply H2. }
  rewrite Hpp. rewrite list_lookup_middle by done. cbn. rewrite Hr. by destruct l1.
Qed.

Lemma space_locate_sound s id r :
  space_locate s id = Some r -> r ∈ regions s /\ contains r id = true.
Proof.
  unfold space_locate. destruct (regions s) as [|x l] eqn:E; [done|].
  destruct (partition_point _ _) as [|i]; [done|].
  destruct ((x :: l) !! i) as [y|] eqn:Ei; cbn; [|done].
  destruct (contains y id) eqn:Ec; [|done]. intros [= <-].
  split; [|done]. by eapply list_elem_of_lookup_2.
Qed.

Lemma chain_contains_unique lo hi l id r1 r2 :
  chain lo hi l -> r1 ∈ l -> r2 ∈ l ->
  contains r1 id = true -> contains r2 id = true -> r1 = r2.
Proof.
  intros Hc H1 H2 C1 C2. pose proof (chain_bounds _ _ _ _ Hc H1).
  unfold contains in *. reflect_bools.
  destruct (chain_split _ _ _ id Hc) as (l1 & r & l2 & -> & _ & Ha & Hb); [lia|lia|].
  assert (Hone : forall x, x ∈ l1 ++ r :: l2 -> start x <= id -> id < end_ x -> x = r).
  { intros x [Hx|[->|Hx]%elem_of_cons]%elem_of_app ? ?; [|done|].
    - specialize (Ha _ Hx). lia.
    - specialize (Hb _ Hx). lia. }
  rewrite (Hone r1), (Hone r2); done.
Qed.

Lemma space_locate_complete s id r :
  space_wf s -> r ∈ regions s -> contains r id = true -> space_locate s id = Some r.
Proof.
  intros Hwf Hr Hc. pose proof (space_wf_chain _ Hwf) as Hch.
  pose proof (chain_bounds _ _ _ _ Hch Hr). pose proof Hc as Hc'. unfold contains in Hc'.
  reflect_bools. destruct s as [k l]. cbn in *.
  destruct (chain_locate k l id Hch) as (l1 & x & l2 & -> & Hx & Hloc); [lia|].
  rewrite Hloc. f_equal. eapply chain_contains_unique; try done. set_solver.
Qed.
