(* ===== verification/ShardOps.v ===== *)
(** * Shard map operations ([hyperbytedb/src/domain/sharding/ops.rs])

    The commands that change the shard map and [apply_shard_map_op], the
    state machine every replica runs on the same Raft log. The Rust function
    mutates the map in place and returns a [Result]; here each arm returns
    the mutated map together with the result, so the partial mutations that
    precede an error return are visible. *)

From stdpp Require Import prelude list sorting gmap strings pretty.
From S2P Require Import Prelude ShardTypes.
From stdpp Require Import options.

#[local] Open Scope N_scope.

Inductive ShardMapApplyError :=
| SpaceExists (e_db e_rp e_measurement : string)
| DuplicateRegionId (id : N)
| UnknownSpace
| UnknownRegion (id : N)
| UnknownLeftRegion (id : N)
| UnknownRightRegion (id : N)
| StaleEpoch (op : string)
| Invalid (msg : string).

Inductive ShardMapOp :=
| BootstrapMeasurement (k : MeasurementKey) (region : ShardRegion)
| BootstrapMeasurementPresplit (k : MeasurementKey) (rs : list ShardRegion)
| Split (k : MeasurementKey) (id split_key : N) (ep : ShardEpoch) (left right : ShardRegion)
| Merge (k : MeasurementKey) (left_region_id right_region_id : N) (ep : ShardEpoch)
    (right_epoch : option ShardEpoch) (merged : ShardRegion)
| MovePeer (k : MeasurementKey) (id from_peer to_peer : N) (ep : ShardEpoch)
| AddPeer (k : MeasurementKey) (id to_peer : N) (ep : ShardEpoch) (staging : bool)
| PromotePeer (k : MeasurementKey) (id peer : N) (ep : ShardEpoch)
| RemovePeer (k : MeasurementKey) (id from_peer : N) (ep : ShardEpoch)
| TransferPrimary (k : MeasurementKey) (id new_primary : N) (ep : ShardEpoch)
| ClearVerified (k : MeasurementKey) (id : N) (ep : ShardEpoch)
| ActivateRegion (k : MeasurementKey) (id : N) (ep : ShardEpoch)
| DropSpace (d : string) (r m : option string).

Definition drop_matches (d : string) (r m : option string) (k : MeasurementKey) : bool :=
  bool_decide (db k = d)
  && match r with None => true | Some r => bool_decide (rp k = r) end
  && match m with None => true | Some m => bool_decide (measurement k = m) end.

Definition measurement_key (op : ShardMapOp) : option MeasurementKey :=
  match op with
  | DropSpace _ _ _ => None
  | BootstrapMeasurement k _ | BootstrapMeasurementPresplit k _ | Split k _ _ _ _ _
  | Merge k _ _ _ _ _ | MovePeer k _ _ _ _ | AddPeer k _ _ _ _ | PromotePeer k _ _ _
  | RemovePeer k _ _ _ | TransferPrimary k _ _ _ | ClearVerified k _ _
  | ActivateRegion k _ _ => Some k
  end.

Definition affected_space_keys (op : ShardMapOp) (m : ShardMap) : list MeasurementKey :=
  match op with
  | DropSpace d r ms =>
    List.filter (drop_matches d r ms) ((map_to_list (spaces m)).*1)
  | other => match measurement_key other with Some k => [k] | None => [] end
  end.

Definition sort_space_regions (s : MeasurementShardSpace) : MeasurementShardSpace :=
  mkSpace (key s) (sort_by start_leb (regions s)).

(** [map.spaces.values().any(|s| s.regions.iter().any(|r| r.region_id == id))]. *)
Definition any_region_id (m : ShardMap) (id : N) : bool :=
  existsb (fun kv => existsb (fun r => region_id r =? id) (regions (kv.2)))
    (map_to_list (spaces m)).

Definition outcome : Type := ShardMap * result ShardMapApplyError unit.

Definition put_space (k : MeasurementKey) (s : MeasurementShardSpace) (m : ShardMap) : ShardMap :=
  set_spaces (<[k := s]> (spaces m)) m.

(** ** Bootstrap *)

(** The duplicate check of [BootstrapMeasurementPresplit]: a fresh [HashSet]
    of the ids seen so far, and every id already in the map. *)
Fixpoint check_new_ids (m : ShardMap) (seen : list N) (rs : list ShardRegion)
    : result ShardMapApplyError unit :=
  match rs with
  | [] => Ok tt
  | r :: rs' =>
    if bool_decide (region_id r ∈ seen) || any_region_id m (region_id r)
    then Err (DuplicateRegionId (region_id r))
    else check_new_ids m (region_id r :: seen) rs'
  end.

(** [regions.iter().map(|r| r.region_id).max()]. *)
Definition max_region_id (rs : list ShardRegion) : option N :=
  match rs with
  | [] => None
  | r :: rs' => Some (fold_left (fun acc x => N.max acc (region_id x)) rs' (region_id r))
  end.

Definition apply_bootstrap_presplit (m : ShardMap) (k : MeasurementKey) (rs : list ShardRegion)
    : outcome :=
  match spaces m !! k with
  | Some _ => (m, Err (SpaceExists (db k) (rp k) (measurement k)))
  | None =>
    match check_new_ids m [] rs with
    | Err e => (m, Err e)
    | Ok _ =>
      let m := match max_region_id rs with
               | Some mx => set_next_region_id (N.max (next_region_id m) (sat_add mx 1)) m
               | None => m
               end in
      let s := sort_space_regions (mkSpace k rs) in
      match validate s with
      | Err e => (m, Err (Invalid e))
      | Ok _ => (put_space k s m, Ok tt)
      end
    end
  end.

Definition apply_bootstrap (m : ShardMap) (k : MeasurementKey) (region : ShardRegion) : outcome :=
  match spaces m !! k with
  | Some _ => (m, Err (SpaceExists (db k) (rp k) (measurement k)))
  | None =>
    if any_region_id m (region_id region) then (m, Err (DuplicateRegionId (region_id region)))
    else
      let m := set_next_region_id
                 (N.max (next_region_id m) (sat_add (region_id region) 1)) m in
      let s := sort_space_regions (mkSpace k [region]) in
      match validate s with
      | Err e => (m, Err (Invalid e))
      | Ok _ => (put_space k s m, Ok tt)
      end
  end.

(** ** Split and merge *)

(** Apply-time normalisation of a split child: a child whose primary differs
    from the parent's carries transfer debt, aged from the parent's. *)
Definition normalise_child (old child : ShardRegion) : ShardRegion :=
  if negb (primary child =? primary old) then
    set_transfer (Some false)
      (match transfer_first_seen old with
       | Some t => Some t
       | None => transfer_first_seen child
       end) child
  else child.

(** [regions[idx] = left; regions.insert(idx + 1, right)]. *)
Definition splice (l : list ShardRegion) (idx : nat) (left right : ShardRegion)
    : list ShardRegion :=
  take idx l ++ left :: right :: drop (S idx) l.

Definition apply_split (m : ShardMap) (k : MeasurementKey) (id split_key : N) (ep : ShardEpoch)
    (left right : ShardRegion) : outcome :=
  let allocated := next_region_id m in
  if any_region_id m allocated then (m, Err (DuplicateRegionId allocated))
  else
    let right := set_region_id allocated right in
    let m := set_next_region_id (sat_add allocated 1) m in
    match spaces m !! k with
    | None => (m, Err UnknownSpace)
    | Some s =>
      match position (fun r => region_id r =? id) (regions s) with
      | None => (m, Err (UnknownRegion id))
      | Some idx =>
        match regions s !! idx with
        | None => (m, Err (UnknownRegion id))
        | Some old =>
          if negb (bool_decide (epoch old = ep)) then (m, Err (StaleEpoch "Split"))
          else if (split_key <=? start old) || (end_ old <=? split_key) then
            (m, Err (Invalid ("split_key " +:+ pretty split_key +:+ " not inside region ["
                              +:+ pretty (start old) +:+ ", " +:+ pretty (end_ old) +:+ ")")))
          else if negb (end_ left =? split_key) || negb (start right =? split_key) then
            (m, Err (Invalid "split regions must meet at split_key"))
          else
            let left := normalise_child old left in
            let right := normalise_child old right in
            let s := sort_space_regions (mkSpace (key s) (splice (regions s) idx left right)) in
            let m := put_space k s m in
            match validate s with
            | Err e => (m, Err (Invalid e))
            | Ok _ =>
              match validate_global_region_ids m with
              | Err e => (m, Err (Invalid e))
              | Ok _ => (m, Ok tt)
              end
            end
        end
      end
    end.

Definition apply_drop_space (m : ShardMap) (d : string) (r ms : option string) : outcome :=
  (set_spaces (filter (fun kv => drop_matches d r ms (kv.1) = false) (spaces m)) m, Ok tt).

(** [regions.remove(ri); regions[li] = merged] for [ri = li + 1]. *)
Definition splice_merged (l : list ShardRegion) (li : nat) (merged : ShardRegion)
    : list ShardRegion :=
  take li l ++ merged :: drop (S (S li)) l.

Definition apply_merge (m : ShardMap) (k : MeasurementKey) (left_region_id right_region_id : N)
    (ep : ShardEpoch) (right_epoch : option ShardEpoch) (merged : ShardRegion) : outcome :=
  match spaces m !! k with
  | None => (m, Err UnknownSpace)
  | Some s =>
    match position (fun r => region_id r =? left_region_id) (regions s) with
    | None => (m, Err (UnknownLeftRegion left_region_id))
    | Some li =>
      if negb (bool_decide (epoch <$> regions s !! li = Some ep)) then
        (m, Err (StaleEpoch "Merge"))
      else
        match position (fun r => region_id r =? right_region_id) (regions s) with
        | None => (m, Err (UnknownRightRegion right_region_id))
        | Some ri =>
          if negb (Nat.eqb ri (S li)) then (m, Err (Invalid "merge regions must be adjacent"))
          else if negb (bool_decide (epoch <$> regions s !! ri
                                     = Some (default ep right_epoch))) then
            (m, Err (StaleEpoch "Merge right region"))
          else
            let s := sort_space_regions (mkSpace (key s) (splice_merged (regions s) li merged)) in
            let m := put_space k s m in
            match validate s with
            | Err e => (m, Err (Invalid e))
            | Ok _ => (m, Ok tt)
            end
        end
    end
  end.

(** ** Single-region operations *)

(** The shape the remaining arms share: find the space, find the region,
    check its epoch, compute the updated region, write it back and re-sort.
    Every check precedes the mutation, so an error leaves the map alone. *)
Definition modify_region (m : ShardMap) (k : MeasurementKey) (id : N) (ep : ShardEpoch)
    (op : string) (f : ShardRegion -> result ShardMapApplyError ShardRegion) : outcome :=
  match spaces m !! k with
  | None => (m, Err UnknownSpace)
  | Some s =>
    match position (fun r => region_id r =? id) (regions s) with
    | None => (m, Err (UnknownRegion id))
    | Some idx =>
      match regions s !! idx with
      | None => (m, Err (UnknownRegion id))
      | Some region =>
        if negb (bool_decide (epoch region = ep)) then (m, Err (StaleEpoch op))
        else
          match f region with
          | Err e => (m, Err e)
          | Ok region' =>
            let s := sort_space_regions (mkSpace (key s) (<[idx := region']> (regions s))) in
            (put_space k s m, Ok tt)
          end
      end
    end
  end.

(** [v.retain(|p| *p != x)]. *)
Definition retain_ne (x : N) (l : list N) : list N := List.filter (fun p => negb (p =? x)) l.

(** [if !v.contains(&x) { v.push(x) }]. *)
Definition push_new (x : N) (l : list N) : list N :=
  if bool_decide (x ∈ l) then l else l ++ [x].

Definition move_peer (from_peer to_peer : N) (ep : ShardEpoch) (r : ShardRegion)
    : result ShardMapApplyError ShardRegion :=
  if negb (bool_decide (from_peer ∈ peers r)) then
    Err (Invalid ("peer " +:+ pretty from_peer +:+ " not in region"))
  else if bool_decide (to_peer ∈ staging_peers r) then
    Err (Invalid ("cannot move peer to learner " +:+ pretty to_peer))
  else
    let r := set_peers (retain_ne from_peer (peers r)) r in
    let r := set_staging_peers (retain_ne from_peer (staging_peers r)) r in
    let r := set_peers (push_new to_peer (peers r)) r in
    let r := set_epoch (bump_conf_ver ep) r in
    Ok (if primary r =? from_peer then set_primary to_peer r else r).

Definition add_peer (to_peer : N) (ep : ShardEpoch) (staging : bool) (r : ShardRegion)
    : result ShardMapApplyError ShardRegion :=
  if transfer_outstanding r then
    Err (Invalid "cannot add peer while transfer debt is outstanding")
  else if bool_decide (to_peer ∈ peers r) then
    Err (Invalid ("peer " +:+ pretty to_peer +:+ " already in region"))
  else
    let r := set_peers (peers r ++ [to_peer]) r in
    let r := if staging && negb (bool_decide (to_peer ∈ staging_peers r))
             then set_staging_peers (staging_peers r ++ [to_peer]) r else r in
    Ok (set_epoch (bump_conf_ver ep) r).

Definition promote_peer (id peer : N) (ep : ShardEpoch) (r : ShardRegion)
    : result ShardMapApplyError ShardRegion :=
  if negb (bool_decide (peer ∈ peers r)) then
    Err (Invalid ("cannot promote " +:+ pretty peer +:+ ": not a member of region "
                  +:+ pretty id))
  else
    let r := set_staging_peers (retain_ne peer (staging_peers r)) r in
    Ok (set_epoch (bump_conf_ver ep) r).

Definition remaining_serving (from_peer : N) (r : ShardRegion) : nat :=
  length (List.filter (fun p => negb (p =? from_peer) && is_serving_peer r p) (peers r)).

Definition remove_peer (from_peer : N) (ep : ShardEpoch) (r : ShardRegion)
    : result ShardMapApplyError ShardRegion :=
  if transfer_outstanding r then
    Err (Invalid "cannot remove peer while transfer debt is outstanding")
  else if negb (bool_decide (from_peer ∈ peers r)) then
    Err (Invalid ("peer " +:+ pretty from_peer +:+ " not in region"))
  else if primary r =? from_peer then
    Err (Invalid ("cannot remove peer " +:+ pretty from_peer +:+ ": it is the region primary"))
  else if Nat.leb (length (peers r)) 1 then
    Err (Invalid "cannot remove the last peer of a region")
  else if Nat.eqb (remaining_serving from_peer r) 0 then
    Err (Invalid "cannot remove peer: no serving replica would remain")
  else
    let r := set_peers (retain_ne from_peer (peers r)) r in
    let r := set_staging_peers (retain_ne from_peer (staging_peers r)) r in
    Ok (set_epoch (bump_conf_ver ep) r).

Definition transfer_primary (id new_primary : N) (ep : ShardEpoch) (r : ShardRegion)
    : result ShardMapApplyError ShardRegion :=
  if bool_decide (new_primary ∈ staging_peers r) then
    Err (Invalid ("cannot make learner " +:+ pretty new_primary +:+ " the primary of region "
                  +:+ pretty id))
  else if negb (bool_decide (new_primary ∈ peers r)) then
    Err (Invalid ("new primary " +:+ pretty new_primary +:+ " not a peer"))
  else Ok (set_epoch (bump_conf_ver ep) (set_primary new_primary r)).

Definition clear_verified (ep : ShardEpoch) (r : ShardRegion)
    : result ShardMapApplyError ShardRegion :=
  Ok (set_epoch (bump_conf_ver ep) (set_transfer (Some true) None r)).

Definition activate_region (ep : ShardEpoch) (r : ShardRegion)
    : result ShardMapApplyError ShardRegion :=
  Ok (set_epoch (bump_conf_ver ep) (set_state Serving None r)).

(** ** The state machine *)

Definition apply_shard_map_op (m : ShardMap) (op : ShardMapOp) : outcome :=
  let m := set_map_version (sat_add (map_version m) 1) m in
  match op with
  | BootstrapMeasurementPresplit k rs => apply_bootstrap_presplit m k rs
  | BootstrapMeasurement k region => apply_bootstrap m k region
  | Split k id split_key ep lc rc => apply_split m k id split_key ep lc rc
  | DropSpace d r ms => apply_drop_space m d r ms
  | Merge k l r ep r_ep merged => apply_merge m k l r ep r_ep merged
  | MovePeer k id from_peer to_peer ep =>
    modify_region m k id ep "MovePeer" (move_peer from_peer to_peer ep)
  | AddPeer k id to_peer ep staging =>
    modify_region m k id ep "AddPeer" (add_peer to_peer ep staging)
  | PromotePeer k id peer ep => modify_region m k id ep "PromotePeer" (promote_peer id peer ep)
  | RemovePeer k id from_peer ep => modify_region m k id ep "RemovePeer" (remove_peer from_peer ep)
  | TransferPrimary k id new_primary ep =>
    modify_region m k id ep "TransferPrimary" (transfer_primary id new_primary ep)
  | ClearVerified k id ep => modify_region m k id ep "ClearVerified" (clear_verified ep)
  | ActivateRegion k id ep => modify_region m k id ep "ActivateRegion" (activate_region ep)
  end.
