(* ===== verification/ShardInvariant.v ===== *)
(** * The shard map invariant

    Every map reachable by applying well-formed operations keeps, for every
    measurement, regions that tile the series-id range, region ids that are
    globally unique and below the allocator, and a primary that is a serving
    member of its peer set. *)

From stdpp Require Import prelude list sorting gmap strings pretty.
From S2P Require Import Prelude ShardTypes ShardOps.
From stdpp Require Import options.

#[local] Open Scope N_scope.

(** ** Definitions *)

(** A region is non-empty and its membership coherent: its primary is a
    member that may serve, and learners are members. *)
Record region_wf (r : ShardRegion) : Prop := mkRegionWf {
  rwf_u64 : u64_region r;
  rwf_nonempty : start r < end_ r;
  rwf_nodup : NoDup (peers r);
  rwf_primary : primary r ∈ peers r;
  rwf_no_learner : primary r ∉ staging_peers r;
  rwf_staging : forall p, p ∈ staging_peers r -> p ∈ peers r
}.

(** [r] is a region of the space [k] of [m]. *)
Definition in_map (m : ShardMap) (k : MeasurementKey) (r : ShardRegion) : Prop :=
  exists s, spaces m !! k = Some s /\ r ∈ regions s.

Record map_wf (m : ShardMap) : Prop := mkMapWf {
  mwf_key : forall k s, spaces m !! k = Some s -> key s = k;
  mwf_space : forall k s, spaces m !! k = Some s -> space_wf s;
  mwf_region : forall k r, in_map m k r -> region_wf r;
  mwf_ids : forall k1 k2 r1 r2, in_map m k1 r1 -> in_map m k2 r2 ->
            region_id r1 = region_id r2 -> k1 = k2;
  mwf_next : forall k r, in_map m k r ->
             region_id r < next_region_id m \/ next_region_id m = u64_max;
  mwf_next_u64 : next_region_id m <= u64_max
}.

(** What the payload of an operation must satisfy; the scheduler's proposals
    do (a split keeps the parent's id on its left child, a merge keeps the
    left region's id). *)
Definition op_wf (op : ShardMapOp) : Prop :=
  match op with
  | BootstrapMeasurement _ r => region_wf r
  | BootstrapMeasurementPresplit _ rs => Forall region_wf rs
  | Split _ id _ _ lc rc => region_wf lc /\ region_wf rc /\ region_id lc = id
  | Merge _ lid _ _ _ merged => region_wf merged /\ region_id merged = lid
  | _ => True
  end.

(** Maps reachable from the empty map; a failed operation is discarded. *)
Inductive reachable : ShardMap -> Prop :=
| reachable_init : reachable map_default
| reachable_step m op m' :
    reachable m -> op_wf op -> apply_shard_map_op m op = (m', Ok tt) -> reachable m'.

(** ** Lemmas on the global id checks *)

Lemma any_region_id_true m id :
  any_region_id m id = true <-> exists k r, in_map m k r /\ region_id r = id.
Proof.
  unfold any_region_id, in_map. rewrite existsb_elem_of. split.
  - intros ([k s] & Hin & (r & Hr & E)%existsb_elem_of). apply N.eqb_eq in E.
    apply elem_of_map_to_list in Hin. eauto 10.
  - intros (k & r & (s & Hs & Hr) & E). exists (k, s). split; [by apply elem_of_map_to_list|].
    apply existsb_elem_of. exists r. split; [done|]. by apply N.eqb_eq.
Qed.

Lemma any_region_id_false m id :
  any_region_id m id = false <-> forall k r, in_map m k r -> region_id r <> id.
Proof.
  rewrite <-not_true_iff_false, any_region_id_true. naive_solver.
Qed.

Lemma global_ids_Ok m :
  validate_global_region_ids m = Ok tt <->
  (forall k s, spaces m !! k = Some s -> NoDup (region_id <$> regions s)) /\
  (forall k1 k2 r1 r2, in_map m k1 r1 -> in_map m k2 r2 ->
     region_id r1 = region_id r2 -> k1 = k2).
Proof.
  unfold validate_global_region_ids, all_regions.
  set (L := map_to_list (spaces m)).
  assert (E : region_id <$> (L ≫= fun kv => regions kv.2)
              = L ≫= fun kv => region_id <$> regions kv.2).
  { induction L as [|x L IH]; cbn; [done|]. by rewrite fmap_app, IH. }
  rewrite E. transitivity (NoDup (L ≫= fun kv => region_id <$> regions kv.2)).
  { destruct (first_duplicate _ _) as [x|] eqn:Ed.
    - split; [done|]. intros Hnd. exfalso.
      assert (first_duplicate [] (L ≫= fun kv => region_id <$> regions kv.2) = None) as Hn.
      { apply first_duplicate_None. split; [done|]. by intros ? _ ?%elem_of_nil. }
      congruence.
    - apply first_duplicate_None in Ed as [Hnd _]. done. }
  rewrite NoDup_bind_keyed by apply NoDup_fst_map_to_list. split.
  - intros [H1 H2]. split.
    + intros k s Hs. apply (H1 (k, s)). by apply elem_of_map_to_list.
    + intros k1 k2 r1 r2 (s1 & Hs1 & Hr1) (s2 & Hs2 & Hr2) Eid.
      destruct (decide (k1 = k2)) as [|Hne]; [done|]. exfalso.
      apply (H2 (k1, s1) (k2, s2) (region_id r1)); try done.
      * by apply elem_of_map_to_list.
      * by apply elem_of_map_to_list.
      * by apply list_elem_of_fmap_2.
      * rewrite Eid. by apply list_elem_of_fmap_2.
  - intros [H1 H2]. split.
    + intros [k s] Hin%elem_of_map_to_list. by apply (H1 k).
    + intros [k1 s1] [k2 s2] b Hin1%elem_of_map_to_list Hin2%elem_of_map_to_list Hne
        (r1 & -> & Hr1)%list_elem_of_fmap (r2 & Eid & Hr2)%list_elem_of_fmap.
      apply Hne. cbn. apply (H2 k1 k2 r1 r2); [by exists s1|by exists s2|done].
Qed.

(** ** Writing one space back *)

Lemma in_map_put m k s k' r :
  in_map (put_space k s m) k' r <->
  (k' = k /\ r ∈ regions s) \/ (k' <> k /\ in_map m k' r).
Proof.
  unfold in_map, put_space. cbn. destruct (decide (k' = k)) as [->|Hne].
  - rewrite lookup_insert_eq. naive_solver.
  - rewrite lookup_insert_ne by done. naive_solver.
Qed.

(** Replacing the space [k] keeps the map well formed when the new space is,
    its ids are those of the old space or fresh, and all are allocated. *)
Lemma put_space_wf m k s :
  map_wf m -> key s = k -> space_wf s -> Forall region_wf (regions s) ->
  (forall r, r ∈ regions s ->
     (exists r0, in_map m k r0 /\ region_id r0 = region_id r) \/
     any_region_id m (region_id r) = false) ->
  (forall r, r ∈ regions s -> region_id r < next_region_id m \/ next_region_id m = u64_max) ->
  map_wf (put_space k s m).
Proof.
  intros Hwf Hk Hs Hr Hids Hnext. rewrite Forall_forall in Hr.
  assert (Hout : forall k' r r', k' <> k -> r ∈ regions s -> in_map m k' r' ->
                   region_id r <> region_id r').
  { intros k' r r' Hne Hin Hin' E. destruct (Hids _ Hin) as [(r0 & H0 & E0)|Hf].
    - apply Hne. eapply mwf_ids; [done|done|exact H0|congruence].
    - rewrite any_region_id_false in Hf. by apply (Hf k' r'). }
  split.
  - cbn. intros k' s'. destruct (decide (k' = k)) as [->|Hne].
    + rewrite lookup_insert_eq. by intros [= <-].
    + rewrite lookup_insert_ne by done. by apply mwf_key.
  - cbn. intros k' s'. destruct (decide (k' = k)) as [->|Hne].
    + rewrite lookup_insert_eq. by intros [= <-].
    + rewrite lookup_insert_ne by done. by apply mwf_space.
  - intros k' r [[-> Hin]|[_ Hin]]%in_map_put; [by apply Hr|by eapply mwf_region].
  - intros k1 k2 r1 r2 [[-> H1]|[N1 H1]]%in_map_put [[-> H2]|[N2 H2]]%in_map_put E; try done.
    + by destruct (Hout k2 r1 r2 N2 H1 H2).
    + by destruct (Hout k1 r2 r1 N1 H2 H1).
    + by eapply mwf_ids.
  - intros k' r [[-> Hin]|[_ Hin]]%in_map_put; cbn; [by apply Hnext|by eapply mwf_next].
  - cbn. by apply mwf_next_u64.
Qed.

(** Changing the counters only: raising the allocator keeps the map well formed. *)
Lemma set_next_wf m n :
  map_wf m -> next_region_id m <= n -> n <= u64_max -> map_wf (set_next_region_id n m).
Proof.
  intros [] Hle Hn. split; try done. cbn. intros k r Hin.
  destruct (mwf_next0 k r Hin); [left; lia|right; lia].
Qed.

Lemma set_version_wf m n : map_wf m -> map_wf (set_map_version n m).
Proof. by intros []. Qed.

Lemma map_default_wf : map_wf map_default.
Proof.
  split; try (intros; unfold in_map in *; set_solver).
  cbn. by compute.
Qed.

(** A list that passed [validate] after sorting makes a well-formed space. *)
Lemma validated_space_wf k l :
  Forall u64_region l ->
  validate (sort_space_regions (mkSpace k l)) = Ok tt ->
  space_wf (sort_space_regions (mkSpace k l)).
Proof.
  intros Hu Hv. split; cbn [sort_space_regions regions];
    [by rewrite sort_by_Permutation|auto with shard|done].
Qed.

#[export] Hint Resolve set_version_wf validated_space_wf : shard.

(** ** Single-region updates *)

(** [r'] keeps the identity and range of [r]. *)
Definition same_place (r r' : ShardRegion) : Prop :=
  region_id r' = region_id r /\ start r' = start r /\ end_ r' = end_ r.

Lemma chain_ext lo hi l1 l2 :
  start <$> l1 = start <$> l2 -> end_ <$> l1 = end_ <$> l2 -> chain lo hi l1 -> chain lo hi l2.
Proof.
  revert lo l2. induction l1 as [|r l1 IH]; intros lo [|x l2]; cbn; try done.
  intros [= E1 E2] [= E3 E4] (? & ? & ?). rewrite <-E1, <-E3. split; [done|]. split; [done|].
  by apply IH.
Qed.

Lemma fmap_insert_same {B} (f : ShardRegion -> B) (l : list ShardRegion) (i : nat) r r' :
  l !! i = Some r -> f r' = f r -> f <$> <[i := r']> l = f <$> l.
Proof.
  intros Hi E. rewrite list_fmap_insert, E. apply list_insert_id.
  by rewrite list_lookup_fmap, Hi.
Qed.

Lemma update_space_wf s i r r' :
  space_wf s -> regions s !! i = Some r -> same_place r r' -> u64_region r' ->
  space_wf (mkSpace (key s) (<[i := r']> (regions s))).
Proof.
  intros Hwf Hi (E1 & E2 & E3) Hu. apply space_wf_intro; cbn.
  - apply Forall_insert; [by destruct Hwf|done].
  - eapply chain_ext; [..|by apply space_wf_chain].
    + symmetry. by eapply fmap_insert_same.
    + symmetry. by eapply fmap_insert_same.
  - rewrite (fmap_insert_same region_id _ _ r) by done. by apply space_wf_nodup.
Qed.

Lemma sort_space_id s : space_wf s -> sort_space_regions s = s.
Proof.
  intros Hwf. unfold sort_space_regions. destruct s as [k l]. cbn. f_equal.
  apply sort_regions_id. by destruct Hwf.
Qed.

(** What a successful single-region operation does to the map. *)
Lemma modify_region_Ok m k id ep op f m' :
  map_wf m -> modify_region m k id ep op f = (m', Ok tt) ->
  (forall r r', f r = Ok r' -> same_place r r' /\ (region_wf r -> region_wf r')) ->
  exists s i r r', spaces m !! k = Some s /\ regions s !! i = Some r /\ region_id r = id /\
    epoch r = ep /\ f r = Ok r' /\
    m' = put_space k (mkSpace k (<[i := r']> (regions s))) m /\ map_wf m'.
Proof.
  intros Hwf H Hf. unfold modify_region in H.
  destruct (spaces m !! k) as [s|] eqn:Es; [|done].
  destruct (position _ _) as [i|] eqn:Ep; [|done].
  apply position_Some in Ep as (r & Hi & Eid & _). rewrite Hi in H. apply N.eqb_eq in Eid.
  case_bool_decide as Eep; cbn [negb] in H; [|done].
  destruct (f r) as [r'|] eqn:Ef; [|done]. destruct (Hf _ _ Ef) as [Hsp Hrw].
  pose proof (mwf_space _ Hwf _ _ Es) as Hs. pose proof (mwf_key _ Hwf _ _ Es) as Hk.
  assert (Hin : in_map m k r) by (exists s; split; [done|by eapply list_elem_of_lookup_2]).
  pose proof (mwf_region _ Hwf _ _ Hin) as Hr. specialize (Hrw Hr).
  pose proof (update_space_wf s i r r' Hs Hi Hsp (rwf_u64 _ Hrw)) as Hs'.
  rewrite (sort_space_id _ Hs'), Hk in H. rewrite Hk in Hs'. injection H as <-.
  exists s, i, r, r'. do 6 (split; [done|]).
  assert (Hmem : forall x, x ∈ <[i := r']> (regions s) -> x = r' \/ x ∈ regions s).
  { intros x (j & Hj)%list_elem_of_lookup. apply list_lookup_insert_Some in Hj.
    destruct Hj as [(_ & -> & _)|[_ Hj]]; [by left|right; by eapply list_elem_of_lookup_2]. }
  destruct Hsp as (E1 & _).
  apply put_space_wf; cbn; try done.
  - apply Forall_insert; [|done]. apply Forall_forall. intros x Hx.
    eapply mwf_region; [done|]. by exists s.
  - intros x [->|Hx]%Hmem; left; [by exists r|]. exists x. split; [by exists s|done].
  - intros x [->|Hx]%Hmem; [rewrite E1|]; eapply mwf_next; try done. by exists s.
Qed.

Lemma elem_of_retain_ne p x l : p ∈ retain_ne x l <-> p ∈ l /\ p <> x.
Proof.
  unfold retain_ne. rewrite !list_elem_of_In, filter_In, negb_true_iff, N.eqb_neq. done.
Qed.

Lemma NoDup_retain_ne x l : NoDup l -> NoDup (retain_ne x l).
Proof. unfold retain_ne. rewrite !NoDup_ListNoDup. apply List.NoDup_filter. Qed.

Lemma elem_of_push_new p x l : p ∈ push_new x l <-> p ∈ l \/ p = x.
Proof.
  unfold push_new. case_bool_decide.
  - naive_solver.
  - rewrite elem_of_app, list_elem_of_singleton. done.
Qed.

Lemma NoDup_push_new x l : NoDup l -> NoDup (push_new x l).
Proof.
  unfold push_new. case_bool_decide as H; [done|]. intros Hl. apply NoDup_app.
  split; [done|]. split; [|by apply NoDup_singleton].
  by intros y Hy ->%list_elem_of_singleton.
Qed.

#[export] Hint Resolve NoDup_retain_ne NoDup_push_new : shard.

(** Discharge the membership half of [region_wf] for an updated region. *)
Ltac solve_members :=
  cbn; intros;
  repeat match goal with
  | H : _ ∈ retain_ne _ _ |- _ => apply elem_of_retain_ne in H; destruct H
  | H : _ ∈ _ ++ _ |- _ => apply elem_of_app in H
  end;
  rewrite ?elem_of_push_new, ?elem_of_retain_ne, ?elem_of_app, ?list_elem_of_singleton in *;
  naive_solver.

Lemma move_peer_wf from_peer to_peer ep r r' :
  move_peer from_peer to_peer ep r = Ok r' ->
  same_place r r' /\ (region_wf r -> region_wf r').
Proof.
  unfold move_peer. case_bool_decide as Hf; cbn [negb]; [|done].
  case_bool_decide as Ht; [done|]. intros [= <-].
  split; [by destruct (primary _ =? _)|]. intros [Hu Hne Hnd Hp Hl Hs].
  cbn [primary set_epoch set_peers set_staging_peers].
  destruct (primary r =? from_peer) eqn:E; reflect_bools;
    (split; cbn; [done|done|by auto with shard|solve_members..]).
Qed.

Lemma add_peer_wf to_peer ep staging r r' :
  add_peer to_peer ep staging r = Ok r' ->
  same_place r r' /\ (region_wf r -> region_wf r').
Proof.
  unfold add_peer. destruct (transfer_outstanding r); [done|].
  case_bool_decide as Ht; [done|]. intros [= <-].
  split; [by destruct (staging && _)|]. intros [Hu Hne Hnd Hp Hl Hs].
  assert (Hnd' : NoDup (peers r ++ [to_peer])).
  { apply NoDup_app. split; [done|]. split; [|by apply NoDup_singleton].
    by intros y Hy ->%list_elem_of_singleton. }
  cbn [staging_peers set_peers].
  destruct (staging && _); (split; cbn; [done|done|done|solve_members..]).
Qed.

Lemma promote_peer_wf id peer ep r r' :
  promote_peer id peer ep r = Ok r' -> same_place r r' /\ (region_wf r -> region_wf r').
Proof.
  unfold promote_peer. case_bool_decide as Hf; cbn [negb]; [|done]. intros [= <-].
  split; [done|]. intros [Hu Hne Hnd Hp Hl Hs]. split; cbn; [done|done|done|solve_members..].
Qed.

Lemma remove_peer_wf from_peer ep r r' :
  remove_peer from_peer ep r = Ok r' -> same_place r r' /\ (region_wf r -> region_wf r').
Proof.
  unfold remove_peer. destruct (transfer_outstanding r); [done|].
  case_bool_decide as Hf; cbn [negb]; [|done].
  destruct (primary r =? from_peer) eqn:E; [done|]. destruct (Nat.leb _ _); [done|].
  destruct (Nat.eqb _ _); [done|]. intros [= <-]. reflect_bools.
  split; [done|]. intros [Hu Hne Hnd Hp Hl Hs].
  split; cbn; [done|done|by auto with shard|solve_members..].
Qed.

Lemma transfer_primary_wf id new_primary ep r r' :
  transfer_primary id new_primary ep r = Ok r' ->
  same_place r r' /\ (region_wf r -> region_wf r').
Proof.
  unfold transfer_primary. case_bool_decide as Hl'; [done|].
  case_bool_decide as Hp'; cbn [negb]; [|done]. intros [= <-].
  split; [done|]. intros [Hu Hne Hnd Hp Hl Hs]. by split.
Qed.

Lemma clear_verified_wf ep r r' :
  clear_verified ep r = Ok r' -> same_place r r' /\ (region_wf r -> region_wf r').
Proof. unfold clear_verified. intros [= <-]. split; [done|]. by intros []. Qed.

Lemma activate_region_wf ep r r' :
  activate_region ep r = Ok r' -> same_place r r' /\ (region_wf r -> region_wf r').
Proof. unfold activate_region. intros [= <-]. split; [done|]. by intros []. Qed.

#[export] Hint Resolve move_peer_wf add_peer_wf promote_peer_wf remove_peer_wf
  transfer_primary_wf clear_verified_wf activate_region_wf : shard.

(** ** Bootstrap *)

Lemma check_new_ids_Ok m seen rs :
  check_new_ids m seen rs = Ok tt ->
  forall r, r ∈ rs -> any_region_id m (region_id r) = false.
Proof.
  revert seen. induction rs as [|x rs IH]; intros seen; cbn; [by intros _ ? ?%elem_of_nil|].
  destruct (_ || _) eqn:E; [done|]. reflect_bools.
  intros Hc r [->|Hr]%elem_of_cons; [done|by eapply IH].
Qed.

Lemma fold_max_region_ge (rs : list ShardRegion) acc :
  acc <= fold_left (fun a x => N.max a (region_id x)) rs acc /\
  (forall r, r ∈ rs -> region_id r <= fold_left (fun a x => N.max a (region_id x)) rs acc).
Proof.
  revert acc. induction rs as [|x rs IH]; intros acc; cbn.
  { split; [lia|]. by intros ? ?%elem_of_nil. }
  destruct (IH (N.max acc (region_id x))) as [H1 H2]. split; [lia|].
  intros r [->|Hr]%elem_of_cons; [lia|auto].
Qed.

Lemma max_region_id_ge rs mx r : max_region_id rs = Some mx -> r ∈ rs -> region_id r <= mx.
Proof.
  destruct rs as [|x rs]; [done|]. intros [= <-] Hr.
  destruct (fold_max_region_ge rs (region_id x)) as [H1 H2].
  apply elem_of_cons in Hr as [->|Hr]; auto.
Qed.

(** The allocator stays ahead of a region id it is raised past. *)
Lemma sat_add_above id n : id <= u64_max -> sat_add id 1 <= n -> n <= u64_max ->
  id < n \/ n = u64_max.
Proof. unfold sat_add. lia. Qed.

Lemma new_space_wf m k rs n :
  map_wf m -> Forall region_wf rs ->
  (forall r, r ∈ rs -> any_region_id m (region_id r) = false) ->
  validate (sort_space_regions (mkSpace k rs)) = Ok tt ->
  next_region_id m <= n -> n <= u64_max ->
  (forall r, r ∈ rs -> sat_add (region_id r) 1 <= n) ->
  map_wf (put_space k (sort_space_regions (mkSpace k rs)) (set_next_region_id n m)).
Proof.
  intros Hwf Hrs Hfresh Hv Hn Hn' Hids.
  assert (Hmem : forall r, r ∈ regions (sort_space_regions (mkSpace k rs)) -> r ∈ rs)
    by (intros r; cbn [sort_space_regions regions]; by rewrite sort_by_elem_of).
  assert (Hu : Forall u64_region rs) by (eapply Forall_impl; [done|by intros ? []]).
  rewrite Forall_forall in Hrs.
  apply put_space_wf; [by apply set_next_wf|done|auto with shard|..].
  - apply Forall_forall. auto.
  - intros r Hr%Hmem. right. by apply Hfresh.
  - intros r Hr%Hmem. cbn. apply sat_add_above; auto. by destruct (Hrs r Hr) as [[? _]].
Qed.

Lemma apply_bootstrap_wf m k r m' :
  map_wf m -> region_wf r -> apply_bootstrap m k r = (m', Ok tt) -> map_wf m'.
Proof.
  intros Hwf Hr. unfold apply_bootstrap. destruct (spaces m !! k); [done|].
  destruct (any_region_id m (region_id r)) eqn:Ea; [done|].
  destruct (validate _) as [[]|] eqn:Ev; [|done]. intros [= <-].
  pose proof (mwf_next_u64 _ Hwf). pose proof (sat_add_le (region_id r) 1).
  apply new_space_wf; try done; try lia; [by constructor|..];
    intros x ->%list_elem_of_singleton; [done|lia].
Qed.

Lemma apply_bootstrap_presplit_wf m k rs m' :
  map_wf m -> Forall region_wf rs ->
  apply_bootstrap_presplit m k rs = (m', Ok tt) -> map_wf m'.
Proof.
  intros Hwf Hr. unfold apply_bootstrap_presplit. destruct (spaces m !! k); [done|].
  destruct (check_new_ids m [] rs) as [[]|] eqn:Ec; [|done].
  pose proof (check_new_ids_Ok _ _ _ Ec) as Hfresh.
  destruct (validate _) as [[]|] eqn:Ev; [|done]. intros [= <-].
  destruct (max_region_id rs) as [mx|] eqn:Em; [|destruct rs; [by compute in Ev|done]].
  pose proof (mwf_next_u64 _ Hwf). pose proof (sat_add_le mx 1).
  apply new_space_wf; try done; try lia.
  intros r Hin. pose proof (max_region_id_ge _ _ _ Em Hin). unfold sat_add. lia.
Qed.

(** ** Split and merge *)

(** Replacing the consecutive regions of a tiling that cover [[x, y)] by
    others, keeping a tiling with distinct ids, forces the new regions to
    cover exactly [[x, y)]. *)
Lemma retile x y l1 olds l2 news L :
  chain 0 x l1 -> chain x y olds -> chain y u64_max l2 ->
  chain 0 u64_max L -> L ≡ₚ l1 ++ news ++ l2 -> NoDup (region_id <$> L) ->
  (forall id, x <= id -> id < y -> exists n, n ∈ news /\ contains n id = true) /\
  (forall n id, n ∈ news -> contains n id = true -> x <= id /\ id < y).
Proof.
  intros H1 Ho H2 HL Hp Hnd.
  pose proof (chain_le _ _ _ Ho). pose proof (chain_le _ _ _ H2).
  assert (Hmem : forall r, r ∈ L <-> r ∈ l1 \/ r ∈ news \/ r ∈ l2)
    by (intros r; by rewrite Hp, !elem_of_app).
  split.
  - intros id Hx Hy. destruct (chain_split _ _ _ id HL) as (p & r & q & E & Hc & _);
      [lia|lia|].
    assert (Hr : r ∈ L) by (rewrite E; set_solver).
    unfold contains in Hc. apply Hmem in Hr as [Hr|[Hr|Hr]]; [|by exists r|].
    + pose proof (chain_bounds _ _ _ _ H1 Hr). reflect_bools. lia.
    + pose proof (chain_bounds _ _ _ _ H2 Hr). reflect_bools. lia.
  - intros n id Hn Hc.
    assert (HnL : n ∈ L) by (apply Hmem; auto).
    pose proof (chain_bounds _ _ _ _ HL HnL) as Hb.
    assert (Hdisj : forall r, r ∈ l1 \/ r ∈ l2 -> contains r id = true -> False).
    { intros r Hr Hcr. assert (HrL : r ∈ L) by (apply Hmem; tauto).
      rewrite (chain_contains_unique _ _ _ _ _ _ HL HnL HrL Hc Hcr) in Hn.
      rewrite Hp, !fmap_app, !NoDup_app in Hnd.
      destruct Hnd as (_ & Hd1 & _ & Hd2 & _).
      destruct Hr as [Hr|Hr].
      - apply (Hd1 (region_id r)); [by apply list_elem_of_fmap_2|].
        rewrite elem_of_app. left. by apply list_elem_of_fmap_2.
      - apply (Hd2 (region_id r)); by apply list_elem_of_fmap_2. }
    pose proof Hc as Hc'. unfold contains in Hc'. reflect_bools.
    split; apply N.nlt_ge || apply N.nle_gt; intros Hout.
    + destruct (chain_split _ _ _ id H1) as (p & r & q & -> & Hcr & _); [lia|lia|].
      apply (Hdisj r); [left; set_solver|done].
    + destruct (chain_split _ _ _ id H2) as (p & r & q & -> & Hcr & _); [lia|lia|].
      apply (Hdisj r); [right; set_solver|done].
Qed.

Lemma contains_true r id : contains r id = true <-> start r <= id /\ id < end_ r.
Proof. unfold contains. by rewrite andb_true_iff, N.leb_le, N.ltb_lt. Qed.

Lemma chain_middle lo hi l1 r l2 :
  chain lo hi (l1 ++ r :: l2) ->
  chain lo (start r) l1 /\ chain (start r) (end_ r) [r] /\ chain (end_ r) hi l2.
Proof.
  intros (mid & H1 & <- & Hr & H2)%chain_app. split; [done|]. by split.
Qed.

Lemma normalise_child_place old c :
  start (normalise_child old c) = start c /\ end_ (normalise_child old c) = end_ c /\
  region_id (normalise_child old c) = region_id c /\ primary (normalise_child old c) = primary c
  /\ epoch (normalise_child old c) = epoch c.
Proof. unfold normalise_child. by destruct (negb _). Qed.

Lemma normalise_child_wf old c : region_wf c -> region_wf (normalise_child old c).
Proof. unfold normalise_child. destruct (negb _); [|done]. by intros []. Qed.

#[export] Hint Resolve normalise_child_wf : shard.

(** What [validate] forces of the two children of an accepted split. *)
Lemma split_place l1 old l2 a b sk :
  chain 0 u64_max (l1 ++ old :: l2) -> start old < sk -> sk < end_ old ->
  end_ a = sk -> start b = sk ->
  chain 0 u64_max (sort_by start_leb (l1 ++ a :: b :: l2)) ->
  NoDup (region_id <$> (l1 ++ a :: b :: l2)) ->
  start a = start old /\ end_ b = end_ old.
Proof.
  intros Hc Hlo Hhi Ea Eb HL Hnd. apply chain_middle in Hc as (H1 & Ho & H2).
  destruct (retile _ _ l1 [old] l2 [a; b] _ H1 Ho H2 HL) as [Hcov Hin].
  { by rewrite sort_by_Permutation. }
  { by rewrite (sort_by_Permutation start_leb). }
  assert (Ha : start a <= start old).
  { destruct (Hcov (start old)) as (n & Hn & Hcn%contains_true); [lia|lia|].
    apply elem_of_cons in Hn as [->| ->%list_elem_of_singleton]; lia. }
  assert (Hb : end_ old <= end_ b).
  { destruct (Hcov (end_ old - 1)) as (n & Hn & Hcn%contains_true); [lia|lia|].
    apply elem_of_cons in Hn as [->| ->%list_elem_of_singleton]; lia. }
  destruct (Hin a (start a)) as [Ha' _]; [by left|apply contains_true; lia|].
  split; [lia|]. destruct (decide (end_ b = end_ old)) as [|Hne]; [done|].
  destruct (Hin b (end_ old)) as [_ Hb']; [by right; left|apply contains_true; lia|lia].
Qed.

Lemma merge_place l1 olds l2 c x y :
  chain 0 x l1 -> chain x y olds -> chain y u64_max l2 -> x < y ->
  chain 0 u64_max (sort_by start_leb (l1 ++ c :: l2)) ->
  NoDup (region_id <$> (l1 ++ c :: l2)) ->
  start c = x /\ end_ c = y.
Proof.
  intros H1 Ho H2 Hxy HL Hnd.
  destruct (retile _ _ l1 olds l2 [c] _ H1 Ho H2 HL) as [Hcov Hin].
  { by rewrite sort_by_Permutation. }
  { by rewrite (sort_by_Permutation start_leb). }
  destruct (Hcov x) as (n & ->%list_elem_of_singleton & Hx%contains_true); [lia|lia|].
  destruct (Hcov (y - 1)) as (n & ->%list_elem_of_singleton & Hy%contains_true); [lia|lia|].
  destruct (Hin c (start c)) as [? _]; [by left|apply contains_true; lia|].
  split; [lia|]. destruct (decide (end_ c = y)) as [|Hne]; [done|].
  destruct (Hin c y) as [_ ?]; [by left|apply contains_true; lia|lia].
Qed.

Lemma set_region_id_wf id r : id <= u64_max -> region_wf r -> region_wf (set_region_id id r).
Proof. intros Hid [(_ & ? & ?)]. by split. Qed.

Lemma lookup_split_at {A} (l : list A) i x :
  l !! i = Some x -> exists l1 l2, l = l1 ++ x :: l2 /\ i = length l1.
Proof.
  intros H. exists (take i l), (drop (S i) l). split; [by symmetry; apply take_drop_middle|].
  rewrite length_take. apply lookup_lt_Some in H. lia.
Qed.

Lemma splice_app l1 old l2 a b :
  splice (l1 ++ old :: l2) (length l1) a b = l1 ++ a :: b :: l2.
Proof.
  unfold splice. rewrite take_app_length.
  replace (S (length l1)) with (length (l1 ++ [old])) by (rewrite length_app; cbn; lia).
  replace (l1 ++ old :: l2) with ((l1 ++ [old]) ++ l2) by (by rewrite <-app_assoc).
  by rewrite drop_app_length.
Qed.

Lemma splice_merged_app l1 a b l2 c :
  splice_merged (l1 ++ a :: b :: l2) (length l1) c = l1 ++ c :: l2.
Proof.
  unfold splice_merged. rewrite take_app_length.
  replace (S (S (length l1))) with (length (l1 ++ [a; b])) by (rewrite length_app; cbn; lia).
  replace (l1 ++ a :: b :: l2) with ((l1 ++ [a; b]) ++ l2) by (by rewrite <-app_assoc).
  by rewrite drop_app_length.
Qed.

(** Everything an accepted split does. *)
Record split_done (m : ShardMap) (k : MeasurementKey) (id sk : N) (ep : ShardEpoch)
    (lc rc : ShardRegion) (m' : ShardMap) (l1 l2 : list ShardRegion) (old lc' rc' : ShardRegion)
    : Prop := mkSplitDone {
  sd_before : spaces m !! k = Some (mkSpace k (l1 ++ old :: l2));
  sd_id : region_id old = id;
  sd_epoch : epoch old = ep;
  sd_inside : start old < sk /\ sk < end_ old;
  sd_left : lc' = normalise_child old lc;
  sd_right : rc' = normalise_child old (set_region_id (next_region_id m) rc);
  sd_left_range : start lc = start old /\ end_ lc = sk;
  sd_right_range : start rc = sk /\ end_ rc = end_ old;
  sd_fresh : any_region_id m (next_region_id m) = false;
  sd_after : m' = put_space k (mkSpace k (l1 ++ lc' :: rc' :: l2))
                    (set_next_region_id (sat_add (next_region_id m) 1) m);
  sd_global : validate_global_region_ids m' = Ok tt
}.

(** Replacing a region by two that meet inside it and validate. *)
Lemma split_space_wf k l1 old l2 a b sk :
  space_wf (mkSpace k (l1 ++ old :: l2)) -> u64_region a -> u64_region b ->
  start old < sk -> sk < end_ old -> end_ a = sk -> start b = sk ->
  validate (sort_space_regions (mkSpace k (l1 ++ a :: b :: l2))) = Ok tt ->
  start a = start old /\ end_ b = end_ old /\ space_wf (mkSpace k (l1 ++ a :: b :: l2)).
Proof.
  intros Hs Ha Hb Hlo Hhi Ea Eb Ev.
  assert (Hu : Forall u64_region (l1 ++ a :: b :: l2)).
  { destruct Hs as [Hu _ _]. cbn in Hu. rewrite Forall_app, Forall_cons in Hu.
    rewrite Forall_app, !Forall_cons. naive_solver. }
  pose proof (validated_space_wf k _ Hu Ev) as Hs'.
  pose proof (space_wf_nodup _ Hs') as Hnd. cbn [regions sort_space_regions] in Hnd.
  rewrite (sort_by_Permutation start_leb) in Hnd.
  destruct (split_place l1 old l2 a b sk) as [E1 E2]; try done.
  { apply (space_wf_chain _ Hs). }
  { apply (space_wf_chain _ Hs'). }
  split; [done|]. split; [done|]. apply space_wf_intro; [done| |done].
  pose proof (space_wf_chain _ Hs) as (mid & C1 & C2 & C3 & C4)%chain_app. cbn in C1.
  apply chain_app. exists mid. split; [done|]. cbn.
  rewrite Ea, Eb, E1, E2. repeat split; try done; lia.
Qed.

Lemma normalise_child_u64 old c : u64_region c -> u64_region (normalise_child old c).
Proof. unfold normalise_child. by destruct (negb _). Qed.

Lemma apply_split_Ok m k id sk ep lc rc m' :
  map_wf m -> u64_region lc -> u64_region rc ->
  apply_split m k id sk ep lc rc = (m', Ok tt) ->
  exists l1 l2 old lc' rc', split_done m k id sk ep lc rc m' l1 l2 old lc' rc' /\
    space_wf (mkSpace k (l1 ++ lc' :: rc' :: l2)).
Proof.
  intros Hwf Hul Hur H. unfold apply_split in H.
  destruct (any_region_id m (next_region_id m)) eqn:Ea; [done|].
  cbn [spaces set_next_region_id] in H.
  destruct (spaces m !! k) as [[k' l]|] eqn:Es; [|done].
  pose proof (mwf_key _ Hwf _ _ Es) as Hk. cbn in Hk. subst k'. cbn [regions key] in H.
  destruct (position _ l) as [idx|] eqn:Ep; [|done].
  apply position_Some in Ep as (old & Hi & Eid & _). rewrite Hi in H. apply N.eqb_eq in Eid.
  destruct (lookup_split_at _ _ _ Hi) as (l1 & l2 & -> & ->).
  case_bool_decide as Eep; cbn [negb] in H; [|done].
  destruct (_ || _) eqn:Erange in H; [done|]. destruct (_ || _) eqn:Emeet in H; [done|].
  cbn [start set_region_id] in Emeet. reflect_bools. rewrite splice_app in H.
  destruct (normalise_child_place old lc) as (Pl1 & Pl2 & _).
  destruct (normalise_child_place old (set_region_id (next_region_id m) rc)) as (Pr1 & Pr2 & _).
  cbn in Pr1, Pr2.
  destruct (validate _) as [[]|] eqn:Ev in H; [|done].
  destruct (validate_global_region_ids _) as [[]|] eqn:Eg in H; [|done].
  destruct (split_space_wf _ _ _ _ _ _ sk (mwf_space _ Hwf _ _ Es)
    (normalise_child_u64 old _ Hul)
    (normalise_child_u64 old (set_region_id (next_region_id m) rc)
       (conj (mwf_next_u64 _ Hwf) (proj2 Hur)))) as (E1 & E2 & Hs'); try done; try lia.
  rewrite (sort_space_id _ Hs') in H, Eg.
  injection H as <-. eexists l1, l2, old, _, _. split; [|exact Hs'].
  split; try done; split; congruence || lia.
Qed.

(** Everything an accepted merge does. *)
Record merge_done (m : ShardMap) (k : MeasurementKey) (lid rid : N) (ep : ShardEpoch)
    (right_epoch : option ShardEpoch) (merged : ShardRegion) (m' : ShardMap)
    (l1 l2 : list ShardRegion) (lr rr : ShardRegion) : Prop := mkMergeDone {
  md_before : spaces m !! k = Some (mkSpace k (l1 ++ lr :: rr :: l2));
  md_ids : region_id lr = lid /\ region_id rr = rid;
  md_epochs : epoch lr = ep /\ epoch rr = default ep right_epoch;
  md_range : start merged = start lr /\ end_ merged = end_ rr;
  md_after : m' = put_space k (mkSpace k (l1 ++ merged :: l2)) m
}.

Lemma apply_merge_Ok m k lid rid ep r_ep merged m' :
  map_wf m -> u64_region merged -> apply_merge m k lid rid ep r_ep merged = (m', Ok tt) ->
  exists l1 l2 lr rr, merge_done m k lid rid ep r_ep merged m' l1 l2 lr rr /\
    space_wf (mkSpace k (l1 ++ merged :: l2)).
Proof.
  intros Hwf Hum H. unfold apply_merge in H.
  destruct (spaces m !! k) as [[k' l]|] eqn:Es; [|done].
  pose proof (mwf_key _ Hwf _ _ Es) as Hk. cbn in Hk. subst k'. cbn [regions key] in H.
  destruct (position _ l) as [li|] eqn:Ep in H; [|done].
  apply position_Some in Ep as (lr & Hi & Eid & _). apply N.eqb_eq in Eid.
  case_bool_decide as Eep; cbn [negb] in H; [|done]. rewrite Hi in Eep. simplify_eq/=.
  destruct (position _ l) as [ri|] eqn:Epr in H; [|done].
  apply position_Some in Epr as (rr & Hj & Eid' & _). apply N.eqb_eq in Eid'.
  destruct (Nat.eqb_spec ri (S li)) as [->|]; cbn [negb] in H; [|done].
  case_bool_decide as Eep'; cbn [negb] in H; [|done]. rewrite Hj in Eep'. simplify_eq/=.
  destruct (lookup_split_at _ _ _ Hi) as (l1 & l0 & -> & ->).
  rewrite lookup_app_r in Hj by lia.
  replace (S (length l1) - length l1)%nat with 1%nat in Hj by lia. cbn in Hj.
  destruct l0 as [|x l2]; [done|]. cbn in Hj. simplify_eq.
  rewrite splice_merged_app in H.
  destruct (validate _) as [[]|] eqn:Ev in H; [|done].
  pose proof (mwf_space _ Hwf _ _ Es) as Hs.
  assert (Hu : Forall u64_region (l1 ++ merged :: l2)).
  { destruct Hs as [Hu _ _]. cbn in Hu. rewrite Forall_app, !Forall_cons in Hu.
    rewrite Forall_app, Forall_cons. naive_solver. }
  pose proof (validated_space_wf k _ Hu Ev) as Hs'.
  assert (Hc' : chain 0 u64_max (sort_by start_leb (l1 ++ merged :: l2)))
    by (apply (space_wf_chain _ Hs')).
  pose proof (space_wf_nodup _ Hs') as Hnd. cbn [regions sort_space_regions] in Hnd.
  rewrite (sort_by_Permutation start_leb) in Hnd.
  pose proof (space_wf_chain _ Hs) as (mid & C1 & C2 & C3 & C4 & C5 & C6)%chain_app.
  cbn in C1, C2.
  assert (Hne : start lr < end_ lr).
  { apply rwf_nonempty, (mwf_region _ Hwf k). eexists. split; [done|]. cbn. set_solver. }
  destruct (merge_place l1 [lr; rr] l2 merged mid (end_ rr)) as [E1 E2]; try done; try lia.
  assert (Hchain : chain 0 u64_max (l1 ++ merged :: l2)).
  { apply chain_app. exists mid. cbn. rewrite E1, E2. repeat split; try done; lia. }
  rewrite (sort_space_id (mkSpace k (l1 ++ merged :: l2))) in H, Hs'
    by (by apply space_wf_intro).
  injection H as <-. exists l1, l2, lr, rr. split; [|done].
  split; try done. split; [lia|done].
Qed.

Lemma apply_split_wf m k id sk ep lc rc m' :
  map_wf m -> region_wf lc -> region_wf rc -> region_id lc = id ->
  apply_split m k id sk ep lc rc = (m', Ok tt) -> map_wf m'.
Proof.
  intros Hwf Hl Hr Hid H.
  destruct (apply_split_Ok _ _ _ _ _ _ _ _ Hwf (rwf_u64 _ Hl) (rwf_u64 _ Hr) H)
    as (l1 & l2 & old & lc' & rc' & Hd & Hs). destruct Hd. subst lc' rc' m'.
  pose proof (mwf_next_u64 _ Hwf) as Hnu.
  destruct (normalise_child_place old lc) as (_ & _ & El & _).
  destruct (normalise_child_place old (set_region_id (next_region_id m) rc)) as (_ & _ & Er & _).
  assert (Hold : forall r, r ∈ l1 ++ old :: l2 -> in_map m k r) by (intros r ?; by eexists).
  pose proof (sat_add_le (next_region_id m) 1).
  apply put_space_wf; cbn [regions key]; [apply set_next_wf; try done; unfold sat_add; lia|done..| | |].
  - rewrite Forall_app, !Forall_cons. split; [|split; [|split]].
    + apply Forall_forall. intros x Hx. eapply mwf_region; [done|]. apply Hold. set_solver.
    + auto with shard.
    + apply normalise_child_wf. by apply set_region_id_wf.
    + apply Forall_forall. intros x Hx. eapply mwf_region; [done|]. apply Hold. set_solver.
  - intros x Hx. rewrite elem_of_app, !elem_of_cons in Hx.
    destruct Hx as [Hx|[->|[->|Hx]]].
    + left. exists x. split; [apply Hold; set_solver|done].
    + left. exists old. split; [apply Hold; set_solver|]. congruence.
    + right. rewrite Er. done.
    + left. exists x. split; [apply Hold; set_solver|done].
  - cbn. intros x Hx. rewrite elem_of_app, !elem_of_cons in Hx.
    assert (Hlt : forall y, y ∈ l1 ++ old :: l2 -> region_id y < sat_add (next_region_id m) 1
                    \/ sat_add (next_region_id m) 1 = u64_max).
    { intros y Hy%Hold. destruct (mwf_next _ Hwf _ _ Hy); unfold sat_add; lia. }
    destruct Hx as [Hx|[->|[->|Hx]]].
    + apply Hlt. set_solver.
    + rewrite El. replace (region_id lc) with (region_id old) by congruence.
      apply Hlt. set_solver.
    + rewrite Er. cbn. unfold sat_add. lia.
    + apply Hlt. set_solver.
Qed.

Lemma apply_merge_wf m k lid rid ep r_ep merged m' :
  map_wf m -> region_wf merged -> region_id merged = lid ->
  apply_merge m k lid rid ep r_ep merged = (m', Ok tt) -> map_wf m'.
Proof.
  intros Hwf Hm Hid H.
  destruct (apply_merge_Ok _ _ _ _ _ _ _ _ Hwf (rwf_u64 _ Hm) H)
    as (l1 & l2 & lr & rr & Hd & Hs). destruct Hd as [Hb [E1 E2] _ _ ->].
  assert (Hold : forall r, r ∈ l1 ++ lr :: rr :: l2 -> in_map m k r) by (intros r ?; by eexists).
  assert (Hcase : forall x, x ∈ l1 ++ merged :: l2 ->
            x = merged \/ (x ∈ l1 ++ lr :: rr :: l2)) by set_solver.
  apply put_space_wf; cbn [regions key]; [done..| | |].
  - apply Forall_forall. intros x [->|Hx]%Hcase; [done|]. eapply mwf_region; [done|].
    by apply Hold.
  - intros x [->|Hx]%Hcase; left.
    + exists lr. split; [apply Hold; set_solver|congruence].
    + exists x. split; [by apply Hold|done].
  - assert (Hnx : forall y, y ∈ l1 ++ lr :: rr :: l2 ->
              region_id y < next_region_id m \/ next_region_id m = u64_max)
      by (intros y Hy%Hold; by eapply mwf_next).
    intros x [->|Hx]%Hcase; [|by apply Hnx].
    rewrite Hid, <-E1. apply Hnx. set_solver.
Qed.

Lemma apply_drop_space_wf m d r ms m' :
  map_wf m -> apply_drop_space m d r ms = (m', Ok tt) -> map_wf m'.
Proof.
  intros [] [= <-].
  assert (Hsub : forall k s, filter (fun kv => drop_matches d r ms (kv.1) = false) (spaces m) !! k
                   = Some s -> spaces m !! k = Some s)
    by (intros k s [? _]%map_lookup_filter_Some; done).
  assert (Hin : forall k x, in_map (set_spaces (filter (fun kv => drop_matches d r ms (kv.1)
                  = false) (spaces m)) m) k x -> in_map m k x)
    by (intros k x (s & Hs & Hx); exists s; auto).
  split; cbn; eauto.
Qed.

(** Every accepted operation keeps the map well formed. *)
Lemma apply_shard_map_op_wf m op m' :
  map_wf m -> op_wf op -> apply_shard_map_op m op = (m', Ok tt) -> map_wf m'.
Proof.
  intros Hwf Hop. unfold apply_shard_map_op.
  assert (Hwf' := set_version_wf m (sat_add (map_version m) 1) Hwf).
  assert (Hmod : forall k id ep o f m0, modify_region
             (set_map_version (sat_add (map_version m) 1) m) k id ep o f = (m0, Ok tt) ->
             (forall r r', f r = Ok r' -> same_place r r' /\ (region_wf r -> region_wf r')) ->
             map_wf m0).
  { intros k id ep o f m0 H Hf.
    by destruct (modify_region_Ok _ _ _ _ _ _ _ Hwf' H Hf) as (?&?&?&?&?&?&?&?&?&?&?). }
  destruct op; cbn in Hop; intros H;
    try (eapply Hmod; [exact H|eauto with shard]; fail).
  - by eapply apply_bootstrap_wf.
  - by eapply apply_bootstrap_presplit_wf.
  - destruct Hop as (? & ? & ?). by eapply apply_split_wf; [..|exact H].
  - destruct Hop as (? & ?). by eapply apply_merge_wf; [..|exact H].
  - by eapply apply_drop_space_wf.
Qed.

Lemma reachable_wf m : reachable m -> map_wf m.
Proof. induction 1; [apply map_default_wf|by eapply apply_shard_map_op_wf]. Qed.
