(* ===== verification/ShardTheorems.v ===== *)
(** * Theorems about the shard map

    The properties of [apply_shard_map_op] and [locate] that routing,
    replication and the scheduler rely on, with concrete instances. *)

From stdpp Require Import prelude list sorting gmap strings pretty.
From S2P Require Import Prelude ShardTypes ShardOps ShardInvariant.
From stdpp Require Import options.

#[local] Open Scope N_scope.

(** ** Shared lemmas *)

(** On a well-formed space the binary search agrees with a linear scan. *)
Lemma space_locate_find s id :
  space_wf s -> space_locate s id = find (fun r => contains r id) (regions s).
Proof.
  intros Hwf. destruct (find _ _) as [r|] eqn:E.
  - apply find_some in E as [Hr%list_elem_of_In Hc]. by apply space_locate_complete.
  - destruct (space_locate s id) as [r|] eqn:El; [|done].
    apply space_locate_sound in El as [Hr Hc].
    apply list_elem_of_In in Hr. pose proof (find_none _ _ E r Hr) as Hn. cbn in Hn. congruence.
Qed.

Lemma find_app_none {A} (p : A -> bool) l1 l2 :
  (forall x, x ∈ l1 -> p x = false) -> find p (l1 ++ l2) = find p l2.
Proof.
  induction l1 as [|x l1 IH]; cbn; [done|]. intros H. rewrite H by (by left).
  apply IH. intros y Hy. apply H. by right.
Qed.

Lemma find_app {A} (p : A -> bool) l1 l2 :
  find p (l1 ++ l2) = match find p l1 with Some x => Some x | None => find p l2 end.
Proof. induction l1 as [|x l1 IH]; cbn; [done|]. by destruct (p x). Qed.

Lemma contains_false r id : contains r id = false <-> id < start r \/ end_ r <= id.
Proof. unfold contains. rewrite andb_false_iff, N.leb_gt, N.ltb_ge. done. Qed.

(** A segment of a tiling is the only place where its points are found. *)
Lemma find_segment l1 seg l2 x y id :
  chain 0 x l1 -> chain x y seg -> chain y u64_max l2 ->
  find (fun r => contains r id) (l1 ++ seg ++ l2)
  = if (x <=? id) && (id <? y) then find (fun r => contains r id) seg
    else match find (fun r => contains r id) l1 with
         | Some r => Some r
         | None => find (fun r => contains r id) l2
         end.
Proof.
  intros H1 Hs H2. destruct (_ && _) eqn:E; reflect_bools.
  - rewrite find_app_none.
    + rewrite find_app. destruct (find _ seg) eqn:Ef; [done|].
      destruct (chain_split _ _ _ id Hs) as (p & r & q & -> & Hc & _); [lia|lia|].
      rewrite (find_none _ _ Ef r) in Hc; [done|]. apply list_elem_of_In. set_solver.
    + intros r Hr. apply contains_false. pose proof (chain_bounds _ _ _ _ H1 Hr). lia.
  - rewrite !find_app. destruct (find _ l1) eqn:Ef; [done|].
    assert (find (fun r => contains r id) seg = None) as ->; [|done].
    destruct (find _ seg) as [r|] eqn:Er; [|done].
    apply find_some in Er as [Hr%list_elem_of_In Hc%contains_true].
    pose proof (chain_bounds _ _ _ _ Hs Hr).
    rewrite andb_false_iff, N.leb_gt, N.ltb_ge in E. lia.
Qed.

Lemma put_space_locate m k s k' id :
  locate (put_space k s m) k' id = if decide (k' = k) then space_locate s id else locate m k' id.
Proof.
  unfold locate, put_space. cbn. case_decide as E.
  - subst. by rewrite lookup_insert_eq.
  - by rewrite lookup_insert_ne.
Qed.

(** Two tilings that differ in one segment locate every other point alike. *)
Lemma locate_retiled k l1 seg seg' l2 x y id :
  space_wf (mkSpace k (l1 ++ seg ++ l2)) -> space_wf (mkSpace k (l1 ++ seg' ++ l2)) ->
  chain 0 x l1 -> chain x y seg -> chain x y seg' -> chain y u64_max l2 ->
  space_locate (mkSpace k (l1 ++ seg' ++ l2)) id
  = if (x <=? id) && (id <? y) then find (fun r => contains r id) seg'
    else space_locate (mkSpace k (l1 ++ seg ++ l2)) id.
Proof.
  intros W W' H1 Hs Hs' H2. rewrite !space_locate_find by done. cbn [regions].
  rewrite !(find_segment _ _ _ x y) by done. by destruct (_ && _).
Qed.

Lemma map_wf_space_chain m k l : map_wf m -> spaces m !! k = Some (mkSpace k l) ->
  chain 0 u64_max l.
Proof. intros Hwf Hs. apply (space_wf_chain _ (mwf_space _ Hwf _ _ Hs)). Qed.

Lemma split_done_locate m k id sk ep lc rc m' l1 l2 old lc' rc' :
  map_wf m -> split_done m k id sk ep lc rc m' l1 l2 old lc' rc' ->
  space_wf (mkSpace k (l1 ++ lc' :: rc' :: l2)) ->
  forall sid, locate m' k sid
    = if (start old <=? sid) && (sid <? sk) then Some lc'
      else if (sk <=? sid) && (sid <? end_ old) then Some rc'
      else locate m k sid.
Proof.
  intros Hwf [] Hs sid. pose proof (map_wf_space_chain _ _ _ Hwf sd_before) as Hch.
  destruct (chain_middle _ _ _ _ _ Hch) as (C1 & C2 & C3).
  destruct (normalise_child_place old lc) as (Pl1 & Pl2 & _).
  destruct (normalise_child_place old (set_region_id (next_region_id m) rc)) as (Pr1 & Pr2 & _).
  cbn in Pr1, Pr2. rewrite <-sd_left in Pl1, Pl2. rewrite <-sd_right in Pr1, Pr2.
  rewrite sd_after, put_space_locate, decide_True by done.
  rewrite (locate_retiled k l1 [old] [lc'; rc'] l2 (start old) (end_ old)); try done.
  - unfold locate. rewrite sd_before. cbn [mbind option_bind find].
    unfold contains. rewrite Pl1, Pl2, Pr1, Pr2.
    destruct sd_left_range as [-> ->], sd_right_range as [-> ->].
    destruct (N.leb_spec (start old) sid), (N.ltb_spec sid (end_ old)),
      (N.ltb_spec sid sk), (N.leb_spec sk sid); cbn; try done; lia.
  - by apply (mwf_space _ Hwf k).
  - cbn. rewrite Pl1, Pl2, Pr1, Pr2. repeat split; lia.
Qed.

Lemma merge_done_locate m k lid rid ep r_ep merged m' l1 l2 lr rr :
  map_wf m -> merge_done m k lid rid ep r_ep merged m' l1 l2 lr rr ->
  space_wf (mkSpace k (l1 ++ merged :: l2)) ->
  end_ lr = start rr /\
  forall sid, locate m' k sid
    = if (start lr <=? sid) && (sid <? end_ rr) then Some merged else locate m k sid.
Proof.
  intros Hwf [] Hs. pose proof (map_wf_space_chain _ _ _ Hwf md_before) as Hch.
  destruct (chain_middle _ _ _ _ _ Hch) as (C1 & (_ & Hle & _) & C3).
  cbn in C3. destruct C3 as (Ert & Hle' & C4). destruct md_range as [Es Ee].
  split; [done|]. intros sid. subst m'. rewrite put_space_locate, decide_True by done.
  rewrite (locate_retiled k l1 [lr; rr] [merged] l2 (start lr) (end_ rr)); try done.
  - unfold locate. rewrite md_before. cbn [mbind option_bind find].
    unfold contains. rewrite Es, Ee. by destruct (_ && _).
  - by apply (mwf_space _ Hwf k).
  - cbn. rewrite Es, Ee. split; [done|]. split; [lia|done].
Qed.

(** The operations that update one region in place: its space, id, expected
    epoch, the name in a stale-epoch error, and the update. *)
Definition region_step (op : ShardMapOp)
    : option (MeasurementKey * N * ShardEpoch * string
              * (ShardRegion -> result ShardMapApplyError ShardRegion)) :=
  match op with
  | MovePeer k id f t ep => Some (k, id, ep, "MovePeer", move_peer f t ep)
  | AddPeer k id t ep st => Some (k, id, ep, "AddPeer", add_peer t ep st)
  | PromotePeer k id p ep => Some (k, id, ep, "PromotePeer", promote_peer id p ep)
  | RemovePeer k id f ep => Some (k, id, ep, "RemovePeer", remove_peer f ep)
  | TransferPrimary k id p ep => Some (k, id, ep, "TransferPrimary", transfer_primary id p ep)
  | ClearVerified k id ep => Some (k, id, ep, "ClearVerified", clear_verified ep)
  | ActivateRegion k id ep => Some (k, id, ep, "ActivateRegion", activate_region ep)
  | _ => None
  end%string.

Definition bump_map (m : ShardMap) : ShardMap :=
  set_map_version (sat_add (map_version m) 1) m.

Lemma region_step_apply op k id ep name f m :
  region_step op = Some (k, id, ep, name, f) ->
  apply_shard_map_op m op = modify_region (bump_map m) k id ep name f.
Proof. destruct op; cbn; intros H; simplify_eq; reflexivity. Qed.

Lemma region_step_spec op k id ep name f r r' :
  region_step op = Some (k, id, ep, name, f) -> f r = Ok r' ->
  same_place r r' /\ (region_wf r -> region_wf r') /\ epoch r' = bump_conf_ver ep.
Proof.
  intros H Hf. rewrite (and_assoc (same_place _ _)). split.
  - destruct op; cbn in H; simplify_eq; eauto with shard.
  - destruct op; cbn in H; simplify_eq;
      unfold move_peer, add_peer, promote_peer, remove_peer, transfer_primary, clear_verified,
        activate_region in Hf; repeat case_match; simplify_eq; done.
Qed.

Lemma bump_map_wf m : map_wf m -> map_wf (bump_map m).
Proof. apply set_version_wf. Qed.

#[export] Hint Resolve bump_map_wf : shard.

(** The effect of an accepted single-region operation. *)
Lemma region_step_Ok op k id ep name f m m' :
  map_wf m -> region_step op = Some (k, id, ep, name, f) ->
  apply_shard_map_op m op = (m', Ok tt) ->
  exists l1 r l2 r', spaces m !! k = Some (mkSpace k (l1 ++ r :: l2)) /\ region_id r = id /\
    epoch r = ep /\ f r = Ok r' /\ same_place r r' /\ epoch r' = bump_conf_ver ep /\
    m' = put_space k (mkSpace k (l1 ++ r' :: l2)) (bump_map m) /\ map_wf m'.
Proof.
  intros Hwf Hop H. rewrite (region_step_apply _ _ _ _ _ _ _ Hop) in H.
  destruct (modify_region_Ok _ _ _ _ _ _ _ (bump_map_wf _ Hwf) H)
    as (s & i & r & r' & Hs & Hi & Hid & Hep & Hf & -> & Hwf').
  { intros r r' Hr. destruct (region_step_spec _ _ _ _ _ _ _ _ Hop Hr) as (? & ? & _). done. }
  destruct (region_step_spec _ _ _ _ _ _ _ _ Hop Hf) as (Hsp & _ & He).
  cbn in Hs. pose proof (mwf_key _ Hwf _ _ Hs) as Hk. destruct s as [k' l]. cbn in *. subst k'.
  destruct (lookup_split_at _ _ _ Hi) as (l1 & l2 & -> & ->).
  exists l1, r, l2, r'. rewrite insert_app_r_alt, Nat.sub_diag in * by lia. cbn in *. done.
Qed.

Lemma modify_region_Err m k id ep name f m' e :
  modify_region m k id ep name f = (m', Err e) -> m' = m.
Proof. unfold modify_region. intros H. repeat case_match; by simplify_eq. Qed.

Lemma region_step_locate op k id ep name f m m' :
  map_wf m -> region_step op = Some (k, id, ep, name, f) ->
  apply_shard_map_op m op = (m', Ok tt) ->
  exists r r', in_map m k r /\ region_id r = id /\ epoch r = ep /\ f r = Ok r' /\
    same_place r r' /\ epoch r' = bump_conf_ver ep /\
    forall k' sid, locate m' k' sid
      = if decide (k' = k) then if contains r sid then Some r' else locate m k' sid
        else locate m k' sid.
Proof.
  intros Hwf Hop H.
  destruct (region_step_Ok _ _ _ _ _ _ _ _ Hwf Hop H)
    as (l1 & r & l2 & r' & Hs & Hid & Hep & Hf & Hsp & He & -> & Hwf').
  exists r, r'. split; [eexists; split; [done|cbn; set_solver]|]. do 5 (split; [done|]).
  intros k' sid. rewrite put_space_locate. case_decide as Ek; [subst k'|done].
  destruct (chain_middle _ _ _ _ _ (map_wf_space_chain _ _ _ Hwf Hs)) as (C1 & C2 & C3).
  pose proof Hsp as (_ & Es & Ee).
  rewrite (locate_retiled k l1 [r] [r'] l2 (start r) (end_ r)); try done.
  - unfold locate. rewrite Hs. cbn [mbind option_bind find].
    unfold contains. rewrite Es, Ee. by destruct (_ && _).
  - by apply (mwf_space _ Hwf k).
  - apply (mwf_space _ Hwf' k). cbn. apply lookup_insert_eq.
  - cbn in *. rewrite Es, Ee. done.
Qed.

(** ** A concrete map *)

Definition k_cpu : MeasurementKey := mkKey "db" "autogen" "cpu".

Definition k_mem : MeasurementKey := mkKey "db" "autogen" "mem".

Definition sample_region (id lo hi p : N) : ShardRegion :=
  mkRegion id lo hi epoch_default [p; p + 1] p 0 None None Serving None [].

Definition split_at_1000 : ShardMapOp :=
  Split k_cpu 1 1000 epoch_default (sample_region 1 0 1000 1)
    (sample_region 99 1000 u64_max 2).

Definition sample_ops : list ShardMapOp :=
  [ BootstrapMeasurement k_cpu (sample_region 1 0 u64_max 1);
    split_at_1000;
    AddPeer k_cpu 1 7 epoch_default true ].

Definition run_ops (m : ShardMap) (ops : list ShardMapOp) : ShardMap :=
  fold_left (fun m op => (apply_shard_map_op m op).1) ops m.

Definition sample_map : ShardMap := run_ops map_default sample_ops.

Lemma sample_region_wf id lo hi p :
  id <= u64_max -> hi <= u64_max -> lo < hi -> region_wf (sample_region id lo hi p).
Proof.
  intros Hid Hhi Hlo. split; cbn; [split; cbn; lia|done|..].
  - apply NoDup_cons. split; [|apply NoDup_singleton].
    intros ?%list_elem_of_singleton. lia.
  - by left.
  - by intros ?%elem_of_nil.
  - by intros ? ?%elem_of_nil.
Qed.

Lemma sample_map1_reachable : reachable (run_ops map_default (take 1 sample_ops)).
Proof.
  eapply (reachable_step _ (BootstrapMeasurement k_cpu (sample_region 1 0 u64_max 1)) _
            reachable_init); [|vm_compute; reflexivity].
  apply sample_region_wf; by compute.
Qed.

Lemma sample_map2_reachable : reachable (run_ops map_default (take 2 sample_ops)).
Proof.
  eapply (reachable_step _ split_at_1000 _ sample_map1_reachable); [|vm_compute; reflexivity].
  repeat split; try apply sample_region_wf; by compute.
Qed.

Lemma sample_map_reachable : reachable sample_map.
Proof.
  eapply (reachable_step _ (AddPeer k_cpu 1 7 epoch_default true) _ sample_map2_reachable);
    [done|vm_compute; reflexivity].
Qed.

Definition sample_map1 : ShardMap := run_ops map_default (take 1 sample_ops).

Definition sample_map2 : ShardMap := run_ops map_default (take 2 sample_ops).

(** ** Properties *)

(** C1: in every shard map reachable from the empty map by accepted operations (whose payload
    regions are themselves well formed, [op_wf], as the scheduler builds them), region ids
    are globally unique, every space passes [validate] with its regions stored in key order
    under its own key, and the primary of every region is a member that may serve reads
    (never a learner). *)
Theorem reachable_map_invariant m :
  reachable m ->
  validate_global_region_ids m = Ok tt /\
  forall k s, spaces m !! k = Some s ->
    key s = k /\ validate s = Ok tt /\ start_sorted (regions s) /\
    forall r, r ∈ regions s -> is_serving_peer r (primary r) = true.
Proof.
  intros Hwf%reachable_wf. split.
  - apply global_ids_Ok. split; [|by apply mwf_ids].
    intros k s Hs. apply space_wf_nodup. by eapply mwf_space.
  - intros k s Hs. pose proof (mwf_space _ Hwf _ _ Hs) as [_ Hsort Hv].
    split; [by eapply mwf_key|]. split; [done|]. split; [done|].
    intros r Hr. destruct (mwf_region _ Hwf k r) as [_ _ _ Hp Hl _]; [by exists s|].
    unfold is_serving_peer. by rewrite bool_decide_eq_true_2, bool_decide_eq_false_2.
Qed.

Lemma reachable_map_invariant_witness :
  validate_global_region_ids sample_map = Ok tt /\
  exists s, spaces sample_map !! k_cpu = Some s /\ validate s = Ok tt /\
    length (regions s) = 2%nat.
Proof.
  destruct (reachable_map_invariant sample_map sample_map_reachable) as [H1 H2].
  split; [exact H1|]. eexists. split; [vm_compute; reflexivity|]. split; [|reflexivity].
  refine (proj1 (proj2 (H2 k_cpu _ _))). vm_compute. reflexivity.
Defined.

(** C2: on a reachable map, [locate] of a known measurement succeeds for every series id
    below [u64::MAX] (the one id outside the half-open key space), and returns the only
    region of the space that contains the id. *)
Theorem locate_total_exact m k s :
  reachable m -> spaces m !! k = Some s ->
  (forall sid, sid < u64_max -> exists r, locate m k sid = Some r) /\
  (forall sid r, locate m k sid = Some r <-> r ∈ regions s /\ contains r sid = true) /\
  locate m k u64_max = None.
Proof.
  intros Hwf%reachable_wf Hs. unfold locate. rewrite Hs. cbn [mbind option_bind].
  pose proof (mwf_space _ Hwf _ _ Hs) as Hsw. pose proof (space_wf_chain _ Hsw) as Hc.
  split; [|split].
  - intros sid Hlt. destruct s as [ks l].
    destruct (chain_locate ks l sid Hc Hlt) as (l1 & r & l2 & _ & _ & E). by exists r.
  - intros sid r. split; [apply space_locate_sound|]. intros [? ?].
    by apply space_locate_complete.
  - destruct (space_locate s u64_max) as [r|] eqn:E; [|done].
    apply space_locate_sound in E as [Hr Hcr%contains_true].
    pose proof (chain_bounds _ _ _ _ Hc Hr). lia.
Qed.

Lemma locate_total_exact_witness :
  reachable sample_map /\ exists r, locate sample_map k_cpu 1000 = Some r.
Proof.
  split; [exact sample_map_reachable|].
  refine (proj1 (locate_total_exact sample_map k_cpu _ sample_map_reachable _) 1000 _);
    [vm_compute; reflexivity|reflexivity].
Defined.

(** The binary search of [locate] returns what a linear scan for the first region
    containing the id would, on every well-formed space. *)
Theorem locate_is_linear_scan s :
  space_wf s ->
  forall sid, space_locate s sid = find (fun r => contains r sid) (regions s).
Proof. intros Hs sid. by apply space_locate_find. Qed.

Lemma sample_space_wf :
  space_wf (mkSpace k_cpu [sample_region 1 0 1000 1; sample_region 2 1000 u64_max 2]).
Proof.
  apply space_wf_intro; cbn.
  - repeat constructor; by compute.
  - repeat split; by compute.
  - apply NoDup_cons. split; [by intros ?%list_elem_of_singleton|apply NoDup_singleton].
Qed.

Lemma locate_is_linear_scan_witness :
  space_locate (mkSpace k_cpu [sample_region 1 0 1000 1; sample_region 2 1000 u64_max 2]) 1000
  = Some (sample_region 2 1000 u64_max 2).
Proof. rewrite (locate_is_linear_scan _ sample_space_wf). vm_compute. reflexivity. Defined.

(** C3: an accepted split hands exactly the series ids of the old region to its two
    children, split at [split_key]; every other id of the measurement, and every other
    measurement, is located as before. The right child gets the freshly allocated id, and a
    child whose primary differs from the parent's is marked as owing a transfer. *)
Theorem split_partitions_parent m k id sk ep lc rc m' :
  reachable m -> op_wf (Split k id sk ep lc rc) ->
  apply_shard_map_op m (Split k id sk ep lc rc) = (m', Ok tt) ->
  exists old lc' rc',
    in_map m k old /\ region_id old = id /\ epoch old = ep /\
    region_id lc' = id /\ region_id rc' = next_region_id m /\
    any_region_id m (next_region_id m) = false /\
    (primary lc <> primary old -> transfer_outstanding lc' = true) /\
    (primary rc <> primary old -> transfer_outstanding rc' = true) /\
    (forall sid, locate m' k sid
       = if (start old <=? sid) && (sid <? sk) then Some lc'
         else if (sk <=? sid) && (sid <? end_ old) then Some rc'
         else locate m k sid) /\
    (forall k' sid, k' <> k -> locate m' k' sid = locate m k' sid).
Proof.
  intros Hwf%reachable_wf (Hl & Hr & Hid) H.
  destruct (apply_split_Ok _ _ _ _ _ _ _ _ (bump_map_wf _ Hwf) (rwf_u64 _ Hl) (rwf_u64 _ Hr) H)
    as (l1 & l2 & old & lc' & rc' & Hd & Hs).
  pose proof (split_done_locate _ _ _ _ _ _ _ _ _ _ _ _ _ (bump_map_wf _ Hwf) Hd Hs) as Hloc.
  destruct Hd. cbn in sd_before, sd_right, sd_fresh, sd_after.
  exists old, lc', rc'. split; [eexists; split; [done|cbn; set_solver]|].
  do 2 (split; [done|]). subst lc' rc'.
  split; [by rewrite (proj1 (proj2 (proj2 (normalise_child_place old lc))))|].
  split; [apply (proj1 (proj2 (proj2 (normalise_child_place old (set_region_id _ rc)))))|].
  split; [exact sd_fresh|].
  assert (Hdebt : forall c, primary c <> primary old ->
            transfer_outstanding (normalise_child old c) = true).
  { intros c Hne%N.eqb_neq. unfold normalise_child. by rewrite Hne. }
  split; [apply Hdebt|]. split; [intros Hne; by apply Hdebt|].
  split; [exact Hloc|]. intros k' sid Hk. subst m'. rewrite put_space_locate, decide_False by done.
  done.
Qed.

Lemma split_partitions_parent_witness :
  exists m', apply_shard_map_op sample_map1 split_at_1000 = (m', Ok tt) /\
    locate m' k_cpu 999 <> locate m' k_cpu 1000.
Proof.
  destruct (apply_shard_map_op sample_map1 split_at_1000) as [m' res] eqn:E.
  assert (res = Ok tt) as -> by (vm_compute in E; congruence).
  exists m'. split; [reflexivity|].
  destruct (split_partitions_parent sample_map1 k_cpu 1 1000 epoch_default
              (sample_region 1 0 1000 1) (sample_region 99 1000 u64_max 2) m'
              sample_map1_reachable) as (old & lc' & rc' & Hin & _ & _ & Hl & Hr & _ & _ & _ & Hloc & _).
  - repeat split; try apply sample_region_wf; by compute.
  - exact E.
  - destruct Hin as (s & Hs & Hold). vm_compute in Hs. injection Hs as <-.
    apply list_elem_of_singleton in Hold. subst old.
    rewrite !Hloc. cbn. intros [= Heq]. rewrite Heq in Hl. rewrite Hl in Hr.
    vm_compute in Hr. discriminate.
Defined.

(** C4: an accepted merge gives every series id of the two adjacent regions to the merged
    region, whose range is exactly their union, and leaves every other id and measurement
    located as before. *)
Theorem merge_unites_neighbours m k lid rid ep r_ep merged m' :
  reachable m -> op_wf (Merge k lid rid ep r_ep merged) ->
  apply_shard_map_op m (Merge k lid rid ep r_ep merged) = (m', Ok tt) ->
  exists lr rr,
    in_map m k lr /\ in_map m k rr /\ region_id lr = lid /\ region_id rr = rid /\
    epoch lr = ep /\ epoch rr = default ep r_ep /\ end_ lr = start rr /\
    start merged = start lr /\ end_ merged = end_ rr /\
    (forall sid, locate m' k sid
       = if (start lr <=? sid) && (sid <? end_ rr) then Some merged else locate m k sid) /\
    (forall k' sid, k' <> k -> locate m' k' sid = locate m k' sid).
Proof.
  intros Hwf%reachable_wf (Hm & Hid) H.
  destruct (apply_merge_Ok _ _ _ _ _ _ _ _ (bump_map_wf _ Hwf) (rwf_u64 _ Hm) H)
    as (l1 & l2 & lr & rr & Hd & Hs).
  pose proof (merge_done_locate _ _ _ _ _ _ _ _ _ _ _ _ (bump_map_wf _ Hwf) Hd Hs) as [Hmeet Hloc].
  destruct Hd. cbn in md_before. destruct md_ids as [? ?], md_epochs as [? ?], md_range as [Es Ee].
  exists lr, rr.
  do 2 (split; [eexists; split; [done|cbn; set_solver]|]).
  do 7 (split; [done|]). split; [exact Hloc|].
  intros k' sid Hk. subst m'. by rewrite put_space_locate, decide_False.
Qed.

Definition merge_back : ShardMapOp :=
  Merge k_cpu 1 2 epoch_default None (sample_region 1 0 u64_max 1).

Lemma merge_unites_neighbours_witness :
  exists m', apply_shard_map_op sample_map2 merge_back = (m', Ok tt) /\
    locate m' k_cpu 5000 = Some (sample_region 1 0 u64_max 1).
Proof.
  destruct (apply_shard_map_op sample_map2 merge_back) as [m' res] eqn:E.
  assert (res = Ok tt) as -> by (vm_compute in E; congruence).
  exists m'. split; [reflexivity|].
  destruct (merge_unites_neighbours sample_map2 k_cpu 1 2 epoch_default None
              (sample_region 1 0 u64_max 1) m' sample_map2_reachable)
    as (lr & rr & _ & _ & _ & _ & _ & _ & _ & Es & Ee & Hloc & _).
  - split; [apply sample_region_wf; by compute|reflexivity].
  - exact E.
  - rewrite Hloc, <-Es, <-Ee. reflexivity.
Defined.

(** An accepted membership, primary, verification or activation operation changes one
    region only: it finds the region by id at the expected epoch, keeps its id and range,
    and bumps its [conf_ver]; every other series id and measurement is located as before. *)
Theorem region_op_frame op k id ep name f m m' :
  reachable m -> region_step op = Some (k, id, ep, name, f) ->
  apply_shard_map_op m op = (m', Ok tt) ->
  exists r r', in_map m k r /\ region_id r = id /\ epoch r = ep /\ f r = Ok r' /\
    same_place r r' /\ epoch r' = bump_conf_ver ep /\
    forall k' sid, locate m' k' sid
      = if decide (k' = k) then if contains r sid then Some r' else locate m k' sid
        else locate m k' sid.
Proof. intros Hwf%reachable_wf Hop H. by eapply region_step_locate. Qed.

Lemma region_op_frame_witness :
  exists m', apply_shard_map_op sample_map (PromotePeer k_cpu 1 7 (mkEpoch 1 0)) = (m', Ok tt) /\
    exists r, locate m' k_cpu 0 = Some r /\ epoch r = mkEpoch 2 0.
Proof.
  destruct (apply_shard_map_op sample_map (PromotePeer k_cpu 1 7 (mkEpoch 1 0)))
    as [m' res] eqn:E.
  assert (res = Ok tt) as -> by (vm_compute in E; congruence).
  exists m'. split; [reflexivity|].
  destruct (region_op_frame (PromotePeer k_cpu 1 7 (mkEpoch 1 0)) k_cpu 1 (mkEpoch 1 0)
              "PromotePeer" (promote_peer 1 7 (mkEpoch 1 0)) _ _ sample_map_reachable eq_refl E)
    as (r & r' & (s & Hs & Hin) & Hid & _ & _ & _ & He & Hloc).
  exists r'. split; [|rewrite He; reflexivity].
  rewrite Hloc, decide_True by reflexivity.
  vm_compute in Hs. injection Hs as <-. cbn in Hin.
  apply elem_of_cons in Hin as [->|Hin]; [reflexivity|].
  apply list_elem_of_singleton in Hin. subst r. vm_compute in Hid. discriminate.
Defined.

(** Replaying an accepted single-region operation is refused: its epoch is stale from
    then on (until [conf_ver] saturates), so a duplicated log entry or a retry built from an
    old view cannot apply twice. *)
Theorem region_op_replay_stale op k id ep name f m m' :
  reachable m -> region_step op = Some (k, id, ep, name, f) -> conf_ver ep < u64_max ->
  apply_shard_map_op m op = (m', Ok tt) ->
  exists m'', apply_shard_map_op m' op = (m'', Err (StaleEpoch name)) /\ spaces m'' = spaces m'.
Proof.
  intros Hwf%reachable_wf Hop Hep H.
  destruct (region_step_Ok _ _ _ _ _ _ _ _ Hwf Hop H)
    as (l1 & r & l2 & r' & Hs & Hid & He & _ & (Eid & _) & He' & -> & Hwf').
  rewrite (region_step_apply _ _ _ _ _ _ _ Hop). unfold modify_region.
  set (m1 := bump_map _). assert (spaces m1 !! k = Some (mkSpace k (l1 ++ r' :: l2))) as ->
    by (cbn; apply lookup_insert_eq).
  cbn [regions]. rewrite (position_app_unique _ l1 r' l2).
  - rewrite list_lookup_middle by done.
    rewrite bool_decide_eq_false_2; [by exists m1|].
    rewrite He'. intros E. apply (f_equal conf_ver) in E. cbn in E. unfold sat_add in E. lia.
  - intros y Hy. apply N.eqb_neq. intros Ey.
    pose proof (space_wf_nodup _ (mwf_space _ Hwf _ _ Hs)) as Hnd. cbn in Hnd.
    rewrite fmap_app, NoDup_app in Hnd. destruct Hnd as (_ & Hnd & _).
    apply (Hnd (region_id y)); [by apply list_elem_of_fmap_2|].
    rewrite Ey, <-Hid. cbn. by left.
  - apply N.eqb_eq. congruence.
Qed.

Lemma region_op_replay_stale_witness :
  exists m' m'', apply_shard_map_op sample_map2 (TransferPrimary k_cpu 2 3 epoch_default)
                 = (m', Ok tt) /\
    apply_shard_map_op m' (TransferPrimary k_cpu 2 3 epoch_default)
    = (m'', Err (StaleEpoch "TransferPrimary")).
Proof.
  destruct (apply_shard_map_op sample_map2 (TransferPrimary k_cpu 2 3 epoch_default))
    as [m' res] eqn:E.
  assert (res = Ok tt) as -> by (vm_compute in E; congruence).
  exists m'. edestruct (region_op_replay_stale (TransferPrimary k_cpu 2 3 epoch_default))
    as (m'' & H & _); [exact sample_map2_reachable|reflexivity|reflexivity|exact E|].
  exists m''. split; [reflexivity|exact H].
Defined.

(** A refused operation other than a split or a merge leaves every space of the map
    untouched (the [map_version] counter alone moves). *)
Theorem refused_op_keeps_spaces m op m' e :
  apply_shard_map_op m op = (m', Err e) ->
  match op with Split _ _ _ _ _ _ | Merge _ _ _ _ _ _ => True
  | _ => spaces m' = spaces m /\ map_version m' = sat_add (map_version m) 1 end.
Proof.
  destruct op; try done; cbn [apply_shard_map_op]; intros H;
    try (apply modify_region_Err in H as ->; done).
  - unfold apply_bootstrap in H. repeat case_match; by simplify_eq.
  - unfold apply_bootstrap_presplit in H. repeat case_match; by simplify_eq.
Qed.

Lemma refused_op_keeps_spaces_witness :
  spaces (apply_shard_map_op sample_map (RemovePeer k_cpu 1 1 (mkEpoch 1 0))).1
  = spaces sample_map.
Proof.
  refine (proj1 (refused_op_keeps_spaces sample_map (RemovePeer k_cpu 1 1 (mkEpoch 1 0)) _
            (Invalid "cannot remove peer 1: it is the region primary") _)).
  vm_compute. reflexivity.
Defined.

(** Dropping a database, retention policy or measurement removes exactly the spaces in
    its scope, leaves the others as they are, and is idempotent. *)
Theorem drop_space_exact m d r ms :
  let m' := (apply_shard_map_op m (DropSpace d r ms)).1 in
  (apply_shard_map_op m (DropSpace d r ms)).2 = Ok tt /\
  (forall k, spaces m' !! k = if drop_matches d r ms k then None else spaces m !! k) /\
  spaces (apply_shard_map_op m' (DropSpace d r ms)).1 = spaces m'.
Proof.
  assert (Hspec : forall m k, spaces (apply_shard_map_op m (DropSpace d r ms)).1 !! k
            = if drop_matches d r ms k then None else spaces m !! k).
  { clear m. intros m k. cbn. rewrite map_lookup_filter.
    destruct (spaces m !! k) as [s|] eqn:Es; cbn; [|by destruct (drop_matches _ _ _ _)].
    destruct (drop_matches d r ms k) eqn:E.
    - rewrite option_guard_False; [done|congruence].
    - by rewrite option_guard_True. }
  cbv zeta. split; [done|]. split; [apply Hspec|].
  apply map_eq. intros k. rewrite !Hspec. by destruct (drop_matches d r ms k).
Qed.

(** A merge is not checked against the other measurements: an accepted merge whose
    merged region carries an id in use elsewhere leaves a map that fails the global id
    check, which a split would have refused and which a restart refuses to load. *)
Theorem merge_skips_global_id_check :
  let m := (apply_shard_map_op sample_map2
              (BootstrapMeasurement k_mem (sample_region 9 0 u64_max 1))).1 in
  let bad := Merge k_cpu 1 2 epoch_default None (sample_region 9 0 u64_max 1) in
  reachable m /\
  (apply_shard_map_op m bad).2 = Ok tt /\
  is_ok (validate_global_region_ids (apply_shard_map_op m bad).1) = false.
Proof.
  cbv zeta. split; [|split; vm_compute; reflexivity].
  eapply (reachable_step _ (BootstrapMeasurement k_mem (sample_region 9 0 u64_max 1)) _
            sample_map2_reachable); [|vm_compute; reflexivity].
  apply sample_region_wf; by compute.
Qed.

Lemma insert_spaces_lookup (l : list (MeasurementKey * MeasurementShardSpace))
    (acc : gmap MeasurementKey MeasurementShardSpace) :
  NoDup l.*1 -> (forall k s, (k, s) ∈ l -> key s = k) ->
  (forall k, k ∈ l.*1 -> acc !! k = None) ->
  fold_left (fun acc s => <[key s := s]> acc) l.*2 acc = list_to_map l ∪ acc.
Proof.
  revert acc. induction l as [|[k s] l IH]; intros acc; cbn; [by rewrite map_empty_union|].
  intros [Hk Hnd]%NoDup_cons Hkey Hacc. rewrite (Hkey k s) by (by left).
  rewrite IH; [|done|intros; apply Hkey; by right|].
  - rewrite <-insert_union_l, insert_union_r; [done|].
    apply not_elem_of_list_to_map_1. done.
  - intros k' Hk'. rewrite lookup_insert_ne; [apply Hacc; by right|]. by intros ->.
Qed.

(** The JSON form of a reachable map (spaces as a list, keyed by the key each carries)
    converts back to the same map. *)
Theorem shard_map_json_roundtrip m : reachable m -> of_json (to_json m) = m.
Proof.
  intros Hwf%reachable_wf. unfold of_json, to_json, insert_spaces. cbn.
  destruct m as [v n sp]. cbn. f_equal. rewrite insert_spaces_lookup.
  - rewrite map_union_empty. apply list_to_map_to_list.
  - apply NoDup_fst_map_to_list.
  - intros k s Hs%elem_of_map_to_list. by apply (mwf_key _ Hwf).
  - done.
Qed.

Lemma shard_map_json_roundtrip_witness : of_json (to_json sample_map) = sample_map.
Proof. apply (shard_map_json_roundtrip sample_map). exact sample_map_reachable. Defined.
