(* ===== verification/LocationCache.v ===== *)
(** * Shard location cache ([hyperbytedb/src/domain/sharding/location_cache.rs])

    The in-memory routing view. Each method of the Rust type takes the lock
    once or twice; here each critical section is a definition of its own
    ([*_read], [*_write]), so the coherence invariant, which every section
    preserves, covers any interleaving of callers. *)

From stdpp Require Import prelude list sorting gmap strings pretty.
From S2P Require Import Prelude ShardTypes ShardOps ShardInvariant ShardTheorems.
From stdpp Require Import options.

#[local] Open Scope N_scope.

Record CachedMeasurement := mkCached {
  c_map_version : N;
  c_regions : list ShardRegion
}.

(** [CacheInner]; the tuple key [(db, rp, measurement)] is a [MeasurementKey]. *)
Record CacheInner := mkInner {
  i_map_version : N;
  by_measurement : gmap MeasurementKey CachedMeasurement
}.

Definition cache_new : CacheInner := mkInner 0 ∅.

Record RegionRoute := mkRoute {
  route_region_id : N;
  route_primary : N;
  self_is_peer : bool
}.

(** [regions.iter().map(|r| (r.region_id, r.clone())).collect()]. *)
Definition regions_by_id (rs : list ShardRegion) : gmap N ShardRegion :=
  fold_left (fun acc r => <[region_id r := r]> acc) rs ∅.

(** The walk to the first serving ancestor; [hops] bounds the lookups. *)
Fixpoint serving_ancestor (by_id : gmap N ShardRegion) (hops : nat) (cursor : option N)
    : option ShardRegion :=
  match hops with
  | O => None
  | S hops' =>
    donor_id ← cursor;
    candidate ← by_id !! donor_id;
    if is_serving candidate then Some candidate
    else serving_ancestor by_id hops' (staged_from candidate)
  end.

(** A staging region under its donor's identity, keeping its own range. *)
Definition under_donor (region d : ShardRegion) : ShardRegion :=
  mkRegion (region_id d) (start region) (end_ region) (epoch d) (peers d) (primary d)
    (last_split_at region) None None Serving None [].

Definition materialise_one (rs : list ShardRegion) (region : ShardRegion) : ShardRegion :=
  if is_serving region then region
  else match serving_ancestor (regions_by_id rs) (length rs) (staged_from region) with
       | Some d => under_donor region d
       | None => region
       end.

Definition materialise_serving (rs : list ShardRegion) : list ShardRegion :=
  if forallb is_serving rs then rs
  else sort_by start_leb (materialise_one rs <$> rs).

Definition locate_in_regions (rs : list ShardRegion) (series_id : N) : option ShardRegion :=
  match rs with
  | [] => None
  | _ =>
    match partition_point (fun r => start r <=? series_id) rs with
    | O => None
    | S i =>
      region ← rs !! i;
      if contains region series_id then Some region else None
    end
  end.

(** ** Writers *)

(** The write section shared by the refreshing methods: raise the version
    and store the materialised regions of one space. *)
Definition cache_put (c : CacheInner) (m : ShardMap) (k : MeasurementKey)
    (s : MeasurementShardSpace) : CacheInner :=
  mkInner (N.max (i_map_version c) (map_version m))
    (<[k := mkCached (map_version m) (materialise_serving (regions s))]> (by_measurement c)).

Definition refresh_from_map (c : CacheInner) (m : ShardMap) : CacheInner :=
  fold_left
    (fun acc kv => mkInner (i_map_version acc)
       (<[key (kv.2) := mkCached (map_version m) (materialise_serving (regions (kv.2)))]>
          (by_measurement acc)))
    (map_to_list (spaces m))
    (mkInner (N.max (i_map_version c) (map_version m)) (by_measurement c)).

Definition refresh_measurement (c : CacheInner) (m : ShardMap) (k : MeasurementKey) : CacheInner :=
  match space m k with
  | Some s => cache_put c m k s
  | None => mkInner (N.max (i_map_version c) (map_version m)) (delete k (by_measurement c))
  end.

Definition invalidate_all (c : CacheInner) : CacheInner := mkInner (i_map_version c) ∅.

Definition invalidate_measurement (c : CacheInner) (k : MeasurementKey) : CacheInner :=
  mkInner (i_map_version c) (delete k (by_measurement c)).

(** ** Readers *)

(** The cached regions of [k] when they belong to the caller's snapshot. *)
Definition fresh_entry (c : CacheInner) (m : ShardMap) (k : MeasurementKey)
    : option (list ShardRegion) :=
  cached ← by_measurement c !! k;
  if c_map_version cached =? map_version m then Some (c_regions cached) else None.

(** The second critical section of the readers: fill the entry after a miss. *)
Definition fill_entry (c : CacheInner) (m : ShardMap) (k : MeasurementKey) : CacheInner :=
  match space m k with Some s => cache_put c m k s | None => c end.

Definition serving_regions (c : CacheInner) (m : ShardMap) (k : MeasurementKey)
    : CacheInner * list ShardRegion :=
  match fresh_entry c m k with
  | Some rs => (c, rs)
  | None =>
    match space m k with
    | None => (c, [])
    | Some s => (cache_put c m k s, materialise_serving (regions s))
    end
  end.

Definition locate_read (c : CacheInner) (m : ShardMap) (k : MeasurementKey) (series_id : N)
    : option ShardRegion :=
  rs ← fresh_entry c m k; locate_in_regions rs series_id.

Definition cache_locate (c : CacheInner) (m : ShardMap) (k : MeasurementKey) (series_id : N)
    : CacheInner * option ShardRegion :=
  match locate_read c m k series_id with
  | Some region => (c, Some region)
  | None =>
    match locate m k series_id with
    | None => (c, None)
    | Some region => (fill_entry c m k, Some region)
    end
  end.

Definition route_of (self_id : N) (r : ShardRegion) : RegionRoute :=
  mkRoute (region_id r) (primary r) (bool_decide (self_id ∈ peers r)).

Definition locate_route (c : CacheInner) (m : ShardMap) (k : MeasurementKey)
    (series_id self_id : N) : CacheInner * option RegionRoute :=
  match locate_read c m k series_id with
  | Some region => (c, Some (route_of self_id region))
  | None =>
    match locate m k series_id with
    | None => (c, None)
    | Some region => (fill_entry c m k, Some (route_of self_id region))
    end
  end.

Definition check_epoch (c : CacheInner) (m : ShardMap) (k : MeasurementKey) (series_id : N)
    (ep : ShardEpoch) : bool :=
  match fresh_entry c m k with
  | Some rs =>
    match locate_in_regions rs series_id with
    | Some r => bool_decide (epoch r = ep)
    | None => false
    end
  | None =>
    match locate m k series_id with
    | Some r => bool_decide (epoch r = ep)
    | None => false
    end
  end.

(** ** The materialised view *)

Lemma materialise_one_place rs r :
  start (materialise_one rs r) = start r /\ end_ (materialise_one rs r) = end_ r.
Proof. unfold materialise_one. destruct (is_serving r); [done|]. by case_match. Qed.

Lemma fmap_materialise_start rs (l : list ShardRegion) :
  start <$> (materialise_one rs <$> l) = start <$> l /\
  end_ <$> (materialise_one rs <$> l) = end_ <$> l.
Proof.
  rewrite <-!list_fmap_compose. split; apply list_fmap_ext; intros i r _; cbn;
    apply materialise_one_place.
Qed.

Lemma chain_materialise rs lo hi (l : list ShardRegion) :
  chain lo hi l -> chain lo hi (materialise_one rs <$> l).
Proof.
  destruct (fmap_materialise_start rs l). by apply chain_ext.
Qed.

(** The stored regions are already in order, so the final sort is the
    identity and the view is the regions one by one. *)
Lemma materialise_serving_eq lo hi rs :
  chain lo hi rs -> materialise_serving rs = materialise_one rs <$> rs.
Proof.
  intros Hc. unfold materialise_serving. destruct (forallb is_serving rs) eqn:E.
  - symmetry. rewrite forallb_elem_of in E. rewrite <-(list_fmap_id rs) at 3.
    apply list_fmap_ext. intros i r Hi. unfold materialise_one.
    rewrite E; [done|]. by eapply list_elem_of_lookup_2.
  - apply sort_regions_id. eapply chain_sorted. by apply chain_materialise.
Qed.

Lemma chain_locate_find k l sid :
  chain 0 u64_max l -> space_locate (mkSpace k l) sid = find (fun r => contains r sid) l.
Proof.
  intros Hc. destruct (space_locate (mkSpace k l) sid) as [r|] eqn:El.
  - apply space_locate_sound in El as [Hr Hcr]. cbn in Hr.
    destruct (find _ l) as [r'|] eqn:Ef.
    + apply find_some in Ef as [Hr'%list_elem_of_In Hc']. f_equal.
      by eapply chain_contains_unique.
    + apply list_elem_of_In in Hr. pose proof (find_none _ _ Ef r Hr) as Hn.
      cbn in Hn. congruence.
  - destruct (find _ l) as [r'|] eqn:Ef; [|done].
    apply find_some in Ef as [Hr'%list_elem_of_In Hc'].
    pose proof (chain_bounds _ _ _ _ Hc Hr'). apply contains_true in Hc'.
    destruct (chain_locate k l sid Hc) as (? & r & ? & _ & _ & E); [lia|congruence].
Qed.

Lemma find_fmap {A B} (p : B -> bool) (q : A -> bool) (f : A -> B) (l : list A) :
  (forall x, p (f x) = q x) -> find p (f <$> l) = f <$> find q l.
Proof.
  intros H. induction l as [|x l IH]; cbn; [done|]. rewrite H. destruct (q x); [done|].
  exact IH.
Qed.

(** Looking a series up in the view gives the region that holds it, under
    the identity of the region that serves it. *)
Lemma locate_materialised s sid :
  space_wf s ->
  locate_in_regions (materialise_serving (regions s)) sid
  = materialise_one (regions s) <$> space_locate s sid.
Proof.
  intros Hs. pose proof (space_wf_chain _ Hs) as Hc.
  rewrite (materialise_serving_eq _ _ _ Hc), (space_locate_find _ _ Hs).
  change (locate_in_regions ?l sid) with (space_locate (mkSpace (key s) l) sid).
  rewrite chain_locate_find by (by apply chain_materialise).
  apply find_fmap. intros r. unfold contains.
  destruct (materialise_one_place (regions s) r) as [-> ->]. done.
Qed.

(** *** Donors *)

Lemma regions_by_id_lookup rs id r :
  regions_by_id rs !! id = Some r -> r ∈ rs /\ region_id r = id.
Proof.
  unfold regions_by_id.
  assert (H : forall acc : gmap N ShardRegion,
    fold_left (fun acc r => <[region_id r := r]> acc) rs acc !! id = Some r ->
    (r ∈ rs /\ region_id r = id) \/ acc !! id = Some r).
  { induction rs as [|x rs IH]; intros acc Hl; cbn in *; [by right|].
    apply IH in Hl as [[? ?]|Hl]; [left; split; [by right|done]|].
    apply lookup_insert_Some in Hl as [[? ->]|[_ Hl]]; [left; split; [by left|done]|by right]. }
  intros Hl. apply H in Hl as [|Hl]; [done|]. by rewrite lookup_empty in Hl.
Qed.

Lemma serving_ancestor_spec by_id n c d :
  serving_ancestor by_id n c = Some d ->
  is_serving d = true /\ exists id, by_id !! id = Some d.
Proof.
  revert c. induction n as [|n IH]; intros c; cbn; [done|].
  destruct c as [id|]; cbn; [|done]. destruct (by_id !! id) as [x|] eqn:E; cbn; [|done].
  destruct (is_serving x) eqn:Es; [|by apply IH]. intros [= ->]. eauto.
Qed.

Lemma serving_ancestor_mono by_id n n' c d :
  (n <= n')%nat -> serving_ancestor by_id n c = Some d -> serving_ancestor by_id n' c = Some d.
Proof.
  revert n' c. induction n as [|n IH]; intros [|n'] c Hle; cbn; try done; [lia|].
  destruct c as [id|]; cbn; [|done]. destruct (by_id !! id) as [x|]; cbn; [|done].
  destruct (is_serving x); [done|]. apply IH. lia.
Qed.

(** A walk that succeeds either avoids [id] or passes through it. *)
Lemma serving_ancestor_avoid by_id id n c d :
  serving_ancestor by_id n c = Some d ->
  serving_ancestor (delete id by_id) n c = Some d \/
  exists n', (n' <= n)%nat /\ serving_ancestor by_id n' (Some id) = Some d.
Proof.
  revert c. induction n as [|n IH]; intros c H; [done|]. pose proof H as H0. cbn in H.
  destruct c as [i|]; cbn in H; [|done].
  destruct (decide (i = id)) as [->|Hne]; [right; exists (S n); split; [lia|done]|].
  destruct (by_id !! i) as [x|] eqn:E; cbn in H; [|done].
  cbn. rewrite lookup_delete_ne, E by done. cbn.
  destruct (is_serving x); [by left|].
  destruct (IH _ H) as [|(n' & ? & ?)]; [by left|right; exists n'; split; [lia|done]].
Qed.

(** As many hops as there are regions are enough for any successful walk. *)
Lemma serving_ancestor_bound (by_id : gmap N ShardRegion) n c d :
  serving_ancestor by_id n c = Some d -> serving_ancestor by_id (size by_id) c = Some d.
Proof.
  remember (size by_id) as sz eqn:Esz. revert by_id Esz n c d.
  induction sz as [|sz IHsz]; intros by_id Esz n c d.
  { intros H. destruct (serving_ancestor_spec _ _ _ _ H) as (_ & id & Hid).
    symmetry in Esz. apply map_size_empty_inv in Esz. subst. by rewrite lookup_empty in Hid. }
  revert c. induction n as [n IHn] using lt_wf_ind. intros c H.
  destruct n as [|n]; [done|]. cbn in H |- *.
  destruct c as [id|]; cbn in *; [|done]. destruct (by_id !! id) as [x|] eqn:E; cbn in *; [|done].
  destruct (is_serving x) eqn:Es; [done|].
  destruct (serving_ancestor_avoid _ id _ _ _ H) as [Ha|(n' & Hn' & Hr)].
  - assert (Hdel : serving_ancestor (delete id by_id) sz (staged_from x) = Some d).
    { eapply IHsz; [|done]. rewrite map_size_delete, E. lia. }
    assert (Hsub : forall k c, serving_ancestor (delete id by_id) k c = Some d ->
              serving_ancestor by_id k c = Some d).
    { clear. intros k. induction k as [|k IH]; intros c; cbn; [done|].
      destruct c as [i|]; cbn; [|done].
      destruct (delete id by_id !! i) as [y|] eqn:Ey; cbn; [|done].
      apply lookup_delete_Some in Ey as [_ ->]. cbn. destruct (is_serving y); auto. }
    by apply Hsub.
  - specialize (IHn n' ltac:(lia) (Some id) Hr). cbn in IHn. rewrite E in IHn. cbn in IHn.
    by rewrite Es in IHn.
Qed.

Lemma size_regions_by_id rs : (size (regions_by_id rs) <= length rs)%nat.
Proof.
  unfold regions_by_id.
  assert (H : forall acc : gmap N ShardRegion,
    (size (fold_left (fun acc r => <[region_id r := r]> acc) rs acc)
     <= length rs + size acc)%nat).
  { induction rs as [|x rs IH]; intros acc; cbn; [lia|].
    specialize (IH (<[region_id x := x]> acc)).
    rewrite map_size_insert in IH. destruct (acc !! region_id x); cbn in IH; lia. }
  specialize (H ∅). rewrite map_size_empty in H. lia.
Qed.

(** ** Coherence *)

Section Coherence.

(** The maps this node has held, by version. Every accepted operation bumps
    [map_version], so a version names one map. *)
Context (hist : N -> option ShardMap).

Definition snapshot_of (m : ShardMap) : Prop := hist (map_version m) = Some m.

(** Every entry is the view of the map its version names. *)
Definition coherent (c : CacheInner) : Prop :=
  forall k e, by_measurement c !! k = Some e ->
    exists m s, hist (c_map_version e) = Some m /\ space m k = Some s /\
      c_regions e = materialise_serving (regions s).

(** The critical sections, by any thread holding any snapshot. *)
Inductive cache_step : CacheInner -> CacheInner -> Prop :=
| step_refresh_all c m : snapshot_of m -> (forall k s, space m k = Some s -> key s = k) ->
    cache_step c (refresh_from_map c m)
| step_refresh c m k : snapshot_of m -> cache_step c (refresh_measurement c m k)
| step_fill c m k : snapshot_of m -> cache_step c (fill_entry c m k)
| step_invalidate_all c : cache_step c (invalidate_all c)
| step_invalidate c k : cache_step c (invalidate_measurement c k).

Lemma coherent_new : coherent cache_new.
Proof. intros k e. cbn. by rewrite lookup_empty. Qed.

Lemma coherent_insert c v m k s :
  coherent c -> snapshot_of m -> space m k = Some s ->
  coherent (mkInner v (<[k := mkCached (map_version m) (materialise_serving (regions s))]>
                         (by_measurement c))).
Proof.
  intros Hc Hm Hs k' e. cbn. destruct (decide (k' = k)) as [->|Hne].
  - rewrite lookup_insert_eq. intros [= <-]. by exists m, s.
  - rewrite lookup_insert_ne by done. apply Hc.
Qed.

Lemma coherent_delete c v k :
  coherent c -> coherent (mkInner v (delete k (by_measurement c))).
Proof.
  intros Hc k' e. cbn. rewrite lookup_delete_Some. intros [_ H]. by apply Hc.
Qed.

Lemma coherent_refresh_all c m :
  coherent c -> snapshot_of m -> (forall k s, space m k = Some s -> key s = k) ->
  coherent (refresh_from_map c m).
Proof.
  intros Hc Hm Hkey. unfold refresh_from_map.
  assert (Hin : forall kv, kv ∈ map_to_list (spaces m) -> space m (key kv.2) = Some kv.2).
  { intros [k s] Hks%elem_of_map_to_list. cbn. by rewrite (Hkey k s Hks). }
  generalize (N.max (i_map_version c) (map_version m)). intros v.
  assert (Hc' : coherent (mkInner v (by_measurement c))) by exact Hc.
  revert Hin Hc'. generalize (mkInner v (by_measurement c)).
  induction (map_to_list (spaces m)) as [|kv l IH]; intros c0 Hin Hc0; cbn; [done|].
  apply IH; [intros; apply Hin; by right|]. apply coherent_insert; [done|done|].
  apply Hin. by left.
Qed.

(** Every critical section keeps the cache coherent. *)
Lemma cache_step_coherent c c' : coherent c -> cache_step c c' -> coherent c'.
Proof.
  intros Hc Hst. destruct Hst as [c m Hm Hk|c m k Hm|c m k Hm|c|c k].
  - by apply coherent_refresh_all.
  - unfold refresh_measurement. destruct (space m k) eqn:E; [|by apply coherent_delete].
    by apply coherent_insert.
  - unfold fill_entry. destruct (space m k) eqn:E; [|done]. by apply coherent_insert.
  - intros k e. cbn. by rewrite lookup_empty.
  - by apply coherent_delete.
Qed.

Lemma fresh_entry_coherent c m k rs :
  coherent c -> snapshot_of m -> fresh_entry c m k = Some rs ->
  exists s, space m k = Some s /\ rs = materialise_serving (regions s).
Proof.
  intros Hc Hm. unfold fresh_entry. destruct (by_measurement c !! k) as [e|] eqn:E; cbn; [|done].
  destruct (c_map_version e =? map_version m) eqn:Ev; [|done]. intros [= <-]. reflect_bools.
  destruct (Hc _ _ E) as (m' & s & Hh & Hs & Hr). rewrite Ev, Hm in Hh. simplify_eq.
  by exists s.
Qed.
End Coherence.

Lemma rtc_coherent hist c : rtc (cache_step hist) cache_new c -> coherent hist c.
Proof.
  generalize (coherent_new hist). generalize cache_new. intros c0 H0 Hr.
  induction Hr as [|x y z Hxy _ IH]; [done|]. by apply IH, (cache_step_coherent _ x).
Qed.

Section Readers.
Context (hist : N -> option ShardMap) (c : CacheInner) (m : ShardMap) (k : MeasurementKey).
Context (Hc : coherent hist c) (Hm : snapshot_of hist m) (Hwf : map_wf m).

(** What a lookup that hits the cache returns. *)
Lemma locate_read_hit sid r :
  locate_read c m k sid = Some r ->
  exists s raw, space m k = Some s /\ locate m k sid = Some raw /\
    r = materialise_one (regions s) raw.
Proof using Hc Hm Hwf.
  unfold locate_read. destruct (fresh_entry c m k) as [rs|] eqn:E; cbn; [|done].
  destruct (fresh_entry_coherent _ _ _ _ _ Hc Hm E) as (s & Hs & ->).
  rewrite locate_materialised by (by eapply mwf_space).
  destruct (space_locate s sid) as [raw|] eqn:El; cbn; [|done]. intros [= <-].
  exists s, raw. split; [done|]. split; [|done]. unfold locate, space in *.
  rewrite Hs. cbn. done.
Qed.

(** A lookup that misses although the entry is fresh has nothing to find. *)
Lemma locate_read_miss sid rs :
  fresh_entry c m k = Some rs -> locate_in_regions rs sid = None -> locate m k sid = None.
Proof using Hc Hm Hwf.
  intros E Hn. destruct (fresh_entry_coherent _ _ _ _ _ Hc Hm E) as (s & Hs & ->).
  rewrite locate_materialised in Hn by (by eapply mwf_space).
  unfold locate, space in *. rewrite Hs. cbn. by apply fmap_None in Hn.
Qed.
End Readers.

Lemma materialise_one_serving rs r : is_serving r = true -> materialise_one rs r = r.
Proof. unfold materialise_one. by intros ->. Qed.

(** ** Properties *)

(** The routable view of a well-formed space keeps its ranges: the same starts and ends
    in the same order, tiling the whole key space. Each entry is the stored region when it is
    serving; for a staging region it is the first serving ancestor's identity over the
    staging region's range, found whenever a chain of donors of any length leads to one; and
    otherwise it is the region unchanged. *)
Theorem materialised_view_partition s :
  space_wf s ->
  let view := materialise_serving (regions s) in
  start <$> view = start <$> regions s /\ end_ <$> view = end_ <$> regions s /\
  chain 0 u64_max view /\
  forall i r, regions s !! i = Some r ->
    exists v, view !! i = Some v /\
      (is_serving r = true -> v = r) /\
      (is_serving r = false -> forall n d,
         serving_ancestor (regions_by_id (regions s)) n (staged_from r) = Some d ->
         d ∈ regions s /\ is_serving d = true /\ v = under_donor r d).
Proof.
  intros Hs. pose proof (space_wf_chain _ Hs) as Hc. cbv zeta.
  rewrite (materialise_serving_eq _ _ _ Hc).
  destruct (fmap_materialise_start (regions s) (regions s)) as [E1 E2].
  split; [done|]. split; [done|]. split; [by apply chain_materialise|].
  intros i r Hi. exists (materialise_one (regions s) r).
  split; [by rewrite list_lookup_fmap, Hi|]. unfold materialise_one.
  split; intros Hr; rewrite Hr; [done|]. intros n d Hn.
  destruct (serving_ancestor_spec _ _ _ _ Hn) as (Hd & id & [Hin _]%regions_by_id_lookup).
  apply serving_ancestor_bound in Hn.
  rewrite (serving_ancestor_mono _ _ (length (regions s)) _ _ (size_regions_by_id _) Hn). done.
Qed.

Definition staging_child : ShardRegion :=
  set_state Staging (Some 1) (sample_region 2 1000 u64_max 2).

Definition staging_space : MeasurementShardSpace :=
  mkSpace k_cpu [sample_region 1 0 1000 1; staging_child].

Lemma staging_space_wf : space_wf staging_space.
Proof.
  apply space_wf_intro; cbn.
  - repeat constructor; by compute.
  - repeat split; by compute.
  - apply NoDup_cons. split; [by intros ?%list_elem_of_singleton|apply NoDup_singleton].
Qed.

Lemma materialised_view_partition_witness :
  exists v, materialise_serving (regions staging_space) !! 1%nat = Some v /\
    v = under_donor staging_child (sample_region 1 0 1000 1).
Proof.
  destruct (materialised_view_partition staging_space staging_space_wf) as (_ & _ & _ & H).
  destruct (H 1%nat staging_child eq_refl) as (v & Hv & _ & Hd).
  exists v. split; [exact Hv|]. apply (Hd eq_refl 1%nat). vm_compute. reflexivity.
Defined.

(** Whatever the interleaving of refreshes, fills and invalidations by threads holding
    snapshots of different versions, the regions handed out for a snapshot are exactly the
    routable view computed from that snapshot: a version-matched entry is never stale. *)
Theorem serving_regions_transparent hist c m k :
  rtc (cache_step hist) cache_new c -> snapshot_of hist m ->
  (serving_regions c m k).2
  = match space m k with Some s => materialise_serving (regions s) | None => [] end.
Proof.
  intros Hr Hm.
  pose proof (rtc_coherent _ _ Hr) as Hc.
  unfold serving_regions. destruct (fresh_entry c m k) as [rs|] eqn:E; cbn.
  - by destruct (fresh_entry_coherent _ _ _ _ _ Hc Hm E) as (s & -> & ->).
  - by destruct (space m k).
Qed.

Definition sample_hist (v : N) : option ShardMap :=
  if v =? map_version sample_map2 then Some sample_map2
  else if v =? map_version sample_map then Some sample_map else None.

Lemma serving_regions_transparent_witness :
  length (serving_regions (refresh_measurement cache_new sample_map2 k_cpu) sample_map k_cpu).2
  = 2%nat.
Proof.
  rewrite (serving_regions_transparent sample_hist).
  - vm_compute. reflexivity.
  - eapply rtc_l; [|apply rtc_refl]. apply step_refresh. reflexivity.
  - reflexivity.
Defined.

(** When no region of the measurement is staging, routing through the cache is routing
    through the map: [locate], [locate_route] and [check_epoch] give the map's answer for
    every series id, on hits and on misses. *)
Theorem cache_transparent_when_serving hist c m k :
  rtc (cache_step hist) cache_new c -> snapshot_of hist m -> reachable m ->
  (forall s r, space m k = Some s -> r ∈ regions s -> is_serving r = true) ->
  forall sid self ep,
    (cache_locate c m k sid).2 = locate m k sid /\
    (locate_route c m k sid self).2 = route_of self <$> locate m k sid /\
    check_epoch c m k sid ep
    = match locate m k sid with Some r => bool_decide (epoch r = ep) | None => false end.
Proof.
  intros Hr Hm Hwf%reachable_wf Hserv sid self ep.
  pose proof (rtc_coherent _ _ Hr) as Hc.
  assert (Hhit : forall r, locate_read c m k sid = Some r -> locate m k sid = Some r).
  { intros r H. destruct (locate_read_hit hist c m k Hc Hm Hwf sid r H)
      as (s & raw & Hs & Hl & ->).
    rewrite materialise_one_serving; [done|]. apply (Hserv s); [done|].
    unfold locate, space in *. rewrite Hs in Hl. cbn in Hl.
    by apply space_locate_sound in Hl as [? _]. }
  split; [|split].
  - unfold cache_locate. destruct (locate_read c m k sid) eqn:E; cbn.
    + symmetry. by apply Hhit.
    + by destruct (locate m k sid).
  - unfold locate_route. destruct (locate_read c m k sid) eqn:E; cbn.
    + by rewrite (Hhit _ eq_refl).
    + by destruct (locate m k sid).
  - unfold check_epoch. destruct (fresh_entry c m k) as [rs|] eqn:E; [|done].
    destruct (locate_in_regions rs sid) as [r|] eqn:El.
    + rewrite (Hhit r); [done|]. unfold locate_read. by rewrite E.
    + by rewrite (locate_read_miss hist c m k Hc Hm Hwf sid rs E El).
Qed.

Lemma cache_transparent_when_serving_witness :
  (cache_locate (refresh_measurement cache_new sample_map2 k_cpu) sample_map k_cpu 7).2
  = locate sample_map k_cpu 7.
Proof.
  refine (proj1 (cache_transparent_when_serving sample_hist _ sample_map k_cpu _ _ _ _ 7 0
                   epoch_default)).
  - eapply rtc_l; [|apply rtc_refl]. apply step_refresh. reflexivity.
  - reflexivity.
  - exact sample_map_reachable.
  - intros s r Hs. vm_compute in Hs. injection Hs as <-. cbn.
    intros [->|[->|[]%elem_of_nil]%elem_of_cons]%elem_of_cons; reflexivity.
Defined.

(** The map of one measurement with a staging child. *)
Definition staging_map : ShardMap := mkMap 5 3 {[ k_cpu := staging_space ]}.

(** A lookup that misses the cache returns the stored region itself, so the first
    [locate] (and [locate_route]) of a staged range after any map change answers with the
    staging child, although the child must not be routed to; the next lookup answers with
    its donor. *)
Theorem cold_locate_returns_staging :
  let cold := cache_locate cache_new staging_map k_cpu 5000 in
  let warm := cache_locate cold.1 staging_map k_cpu 5000 in
  cold.2 = Some staging_child /\ is_serving staging_child = false /\
  (region_id <$> warm.2) = Some 1 /\
  (route_primary <$> (locate_route cache_new staging_map k_cpu 5000 1).2) = Some 2 /\
  (route_primary <$> (locate_route cold.1 staging_map k_cpu 5000 1).2) = Some 1.
Proof. vm_compute. repeat split. Qed.
