(* ===== verification/ShardStore.v ===== *)
(** * Durable shard map ([hyperbytedb/src/adapters/sharding/rocksdb_shard_map.rs])

    The adapter that keeps the shard map in RocksDB, one row per measurement
    space plus one row of counters, behind an in-memory copy. RocksDB and the
    JSON codec are not part of the repository: they are the classes [RocksDb]
    and [ShardCodec], with their documented behaviour as laws. *)

From stdpp Require Import prelude list sorting gmap strings pretty.
From S2P Require Import Prelude ShardTypes ShardOps ShardInvariant ShardTheorems.
From stdpp Require Import options.

#[local] Open Scope N_scope.

(** ** Byte strings *)

(** Lexicographic byte order, the order of RocksDB's default comparator. *)
Fixpoint str_leb (a b : string) : bool :=
  match a, b with
  | EmptyString, _ => true
  | String _ _, EmptyString => false
  | String x a', String y b' =>
    let nx := Ascii.N_of_ascii x in
    let ny := Ascii.N_of_ascii y in
    if nx =? ny then str_leb a' b' else nx <? ny
  end.

(** ** Interfaces *)

Inductive BatchOp :=
| Put (k v : string)
| Delete (k : string).

Definition apply_batch_op (m : gmap string string) (o : BatchOp) : gmap string string :=
  match o with
  | Put k v => <[k := v]> m
  | Delete k => delete k m
  end.

(** [DB::get], [DB::iterator(From(prefix, Forward))] and [DB::write]. *)
Class RocksDb (DB : Type) := {
  rdb_get : DB -> string -> result string (option string);
  rdb_scan : DB -> string -> list (result string (string * string));
  rdb_write : DB -> list BatchOp -> result string DB
}.

(** What an open database promises: reads see the stored rows, a scan
    returns the rows from its start key on in key order, and a batch is
    applied as a whole or not at all. *)
Class RocksDbLaws (DB : Type) `{RocksDb DB} := {
  rows : DB -> gmap string string;
  rdb_get_law : forall d k, rdb_get d k = Ok (rows d !! k);
  rdb_scan_law : forall d p, exists l,
    rdb_scan d p = Ok <$> l /\
    StronglySorted (fun a b => str_leb a.1 b.1 = true) l /\ NoDup l.*1 /\
    (forall k v, (k, v) ∈ l <-> rows d !! k = Some v /\ str_leb p k = true);
  rdb_write_law : forall d b d', rdb_write d b = Ok d' ->
    rows d' = fold_left apply_batch_op b (rows d)
}.

Record PersistedShardMapMeta := mkMeta { meta_map_version : N; meta_next_region_id : N }.

(** [serde_json] for the persisted records. [PersistedShardSpace] flattens to
    the space it wraps, [PersistedShardMap] is the JSON envelope of the map. *)
Class ShardCodec := {
  enc_meta : PersistedShardMapMeta -> result string string;
  dec_meta : string -> result string PersistedShardMapMeta;
  enc_space : MeasurementShardSpace -> result string string;
  dec_space : string -> result string MeasurementShardSpace;
  dec_legacy : string -> result string ShardMapJson
}.

Class ShardCodecLaws `{ShardCodec} := {
  meta_roundtrip : forall x b, enc_meta x = Ok b -> dec_meta b = Ok x;
  space_roundtrip : forall x b, enc_space x = Ok b -> dec_space b = Ok x
}.

(** ** The adapter *)

Definition LEGACY_SHARD_MAP_KEY : string := "shardmap:global".

Definition META_KEY : string := "shardmap:meta".

Definition SPACE_PREFIX : string := "shardmap:space:".

(** The ASCII unit separator. *)
Definition unit_sep : string := String (Ascii.ascii_of_N 31) EmptyString.

Definition space_key (k : MeasurementKey) : string :=
  SPACE_PREFIX +:+ db k +:+ unit_sep +:+ rp k +:+ unit_sep +:+ measurement k.

Inductive StoreError :=
| Storage (msg : string)
| ShardMapErr (msg : string)
| ApplyErr (e : ShardMapApplyError).

(** [spaces.values().flat_map(region ids).max().map(saturating + 1).unwrap_or(1)]. *)
Definition recompute_next_region_id (m : ShardMap) : N :=
  match max_region_id (all_regions m) with
  | Some mx => sat_add mx 1
  | None => 1
  end.

(** [PersistedShardMap::into_shard_map]. *)
Definition into_shard_map (j : ShardMapJson) : ShardMap :=
  let m := of_json j in
  if json_next_region_id j =? 0 then set_next_region_id (recompute_next_region_id m) m else m.

Section Adapter.
Context {DB : Type} `{RocksDb DB} `{ShardCodec}.

Record RocksDbShardMap := mkStore { store_db : DB; cache : ShardMap; enabled : bool }.

Definition storage {A} (r : result string A) : result StoreError A := map_err Storage r.

Definition load_meta (d : DB) : result StoreError PersistedShardMapMeta :=
  o ← storage (rdb_get d META_KEY);
  match o with
  | Some bytes => map_err (fun e => ShardMapErr ("shard map meta corrupt: " +:+ e)) (dec_meta bytes)
  | None => Ok (mkMeta 0 default_next_region_id)
  end.

Fixpoint load_spaces_loop (items : list (result string (string * string)))
    : result StoreError (list MeasurementShardSpace) :=
  match items with
  | [] => Ok []
  | item :: items' =>
    kv ← storage item;
    if negb (String.prefix SPACE_PREFIX kv.1) then Ok []
    else
      s ← map_err (fun e => ShardMapErr ("shard space corrupt: " +:+ e)) (dec_space kv.2);
      rest ← load_spaces_loop items';
      Ok (s :: rest)
  end.

Definition load_spaces (d : DB) : result StoreError (list MeasurementShardSpace) :=
  load_spaces_loop (rdb_scan d SPACE_PREFIX).

Definition meta_of (m : ShardMap) : PersistedShardMapMeta :=
  mkMeta (map_version m) (next_region_id m).

Definition put_meta (m : ShardMap) : result StoreError BatchOp :=
  b ← map_err (fun e => ShardMapErr ("shard map meta serialize: " +:+ e)) (enc_meta (meta_of m));
  Ok (Put META_KEY b).

(** The row of [s] at [row_key], a failure reported under the context [ctx]. *)
Definition put_space_row (ctx row_key : string) (s : MeasurementShardSpace)
    : result StoreError BatchOp :=
  b ← map_err (fun e => ShardMapErr (ctx +:+ ": " +:+ e)) (enc_space s);
  Ok (Put row_key b).

Fixpoint put_space_rows (ctx : string) (l : list MeasurementShardSpace)
    : result StoreError (list BatchOp) :=
  match l with
  | [] => Ok []
  | s :: l' =>
    o ← put_space_row ctx (space_key (key s)) s;
    rest ← put_space_rows ctx l';
    Ok (o :: rest)
  end.

(** Returns the database after the migration and whether one was done. *)
Definition migrate_legacy_if_present (d : DB) : result StoreError (DB * bool) :=
  o ← storage (rdb_get d LEGACY_SHARD_MAP_KEY);
  match o with
  | None => Ok (d, false)
  | Some bytes =>
    legacy ← map_err (fun e => ShardMapErr ("legacy shard map corrupt: " +:+ e)) (dec_legacy bytes);
    let m := into_shard_map legacy in
    meta ← put_meta m;
    puts ← put_space_rows "shard map meta serialize" ((map_to_list (spaces m)).*2);
    d' ← storage (rdb_write d (meta :: puts ++ [Delete LEGACY_SHARD_MAP_KEY]));
    Ok (d', true)
  end.

(** The loop of [assemble_map]: validate, then index by the key carried. *)
Fixpoint index_spaces (l : list MeasurementShardSpace)
    (acc : gmap MeasurementKey MeasurementShardSpace)
    : result StoreError (gmap MeasurementKey MeasurementShardSpace) :=
  match l with
  | [] => Ok acc
  | s :: l' =>
    _ ← map_err ShardMapErr (validate s);
    index_spaces l' (<[key s := s]> acc)
  end.

Definition assemble_map (d : DB) : result StoreError ShardMap :=
  meta ← load_meta d;
  l ← load_spaces d;
  space_map ← index_spaces l ∅;
  let m := mkMap (meta_map_version meta) (meta_next_region_id meta) space_map in
  let m := if next_region_id m =? 0
           then set_next_region_id (recompute_next_region_id m) m else m in
  _ ← map_err ShardMapErr (validate_global_region_ids m);
  Ok m.

Definition load_map (d : DB) : result StoreError (DB * ShardMap) :=
  r ← migrate_legacy_if_present d;
  m ← assemble_map r.1;
  Ok (r.1, m).

Definition open_store (d : DB) (en : bool) : result StoreError RocksDbShardMap :=
  r ← load_map d;
  Ok (mkStore r.1 r.2 en).

(** Deletions of the stored rows that the incoming map no longer has. *)
Definition delete_rows (l : list MeasurementShardSpace) : list BatchOp :=
  (fun s => Delete (space_key (key s))) <$> l.

Definition absent_spaces (m : ShardMap) (existing : list MeasurementShardSpace)
    : list MeasurementShardSpace :=
  List.filter (fun s => negb (bool_decide (is_Some (spaces m !! key s)))) existing.

Definition persist_full_map (d : DB) (m : ShardMap) : result StoreError DB :=
  existing ← load_spaces d;
  meta ← put_meta m;
  puts ← put_space_rows "shard space serialize" ((map_to_list (spaces m)).*2);
  storage (rdb_write d (meta :: delete_rows (absent_spaces m existing) ++ puts)).

Definition persist_space (d : DB) (m : ShardMap) (changed : MeasurementKey)
    : result StoreError DB :=
  meta ← put_meta m;
  row ← match space m changed with
        | Some s => put_space_row "shard space serialize" (space_key changed) s
        | None => Ok (Delete (space_key changed))
        end;
  storage (rdb_write d [meta; row]).

(** The [for key in &changed] loop of [apply_op]: a failing write stops it
    with the earlier rows written. *)
Fixpoint persist_spaces (d : DB) (m : ShardMap) (changed : list MeasurementKey)
    : DB * result StoreError unit :=
  match changed with
  | [] => (d, Ok tt)
  | k :: changed' =>
    match persist_space d m k with
    | Err e => (d, Err e)
    | Ok d' => persist_spaces d' m changed'
    end
  end.

Definition apply_op (st : RocksDbShardMap) (op : ShardMapOp)
    : RocksDbShardMap * result StoreError ShardMap :=
  let changed := affected_space_keys op (cache st) in
  match apply_shard_map_op (cache st) op with
  | (_, Err e) => (st, Err (ApplyErr e))
  | (m, Ok _) =>
    match persist_spaces (store_db st) m changed with
    | (d, Err e) => (mkStore d (cache st) (enabled st), Err e)
    | (d, Ok _) => (mkStore d m (enabled st), Ok m)
    end
  end.

Fixpoint validate_all (l : list MeasurementShardSpace) : result StoreError unit :=
  match l with
  | [] => Ok tt
  | s :: l' => _ ← map_err ShardMapErr (validate s); validate_all l'
  end.

Definition replace_map (st : RocksDbShardMap) (m : ShardMap)
    : RocksDbShardMap * result StoreError unit :=
  let go :=
    _ ← validate_all ((map_to_list (spaces m)).*2);
    _ ← map_err ShardMapErr (validate_global_region_ids m);
    persist_full_map (store_db st) m in
  match go with
  | Err e => (st, Err e)
  | Ok d => (mkStore d m (enabled st), Ok tt)
  end.

Definition snapshot (st : RocksDbShardMap) : ShardMap := cache st.

Definition store_locate (st : RocksDbShardMap) (k : MeasurementKey) (series_id : N)
    : option ShardRegion := locate (cache st) k series_id.

Definition regions_for_measurement (st : RocksDbShardMap) (k : MeasurementKey)
    : list ShardRegion :=
  match space (cache st) k with Some s => regions s | None => [] end.

Definition node_owns_measurement (st : RocksDbShardMap) (node_id : N) (k : MeasurementKey)
    : bool :=
  if negb (enabled st) then true
  else match space (cache st) k with
       | Some s => existsb (fun r => bool_decide (node_id ∈ peers r)) (regions s)
       | None => false
       end.
End Adapter.
Arguments RocksDbShardMap DB : clear implicits.
Arguments delete_rows : simpl never.
Arguments absent_spaces : simpl never.

(** ** Row keys *)

Fixpoint no_sep (s : string) : bool :=
  match s with
  | EmptyString => true
  | String c s' => negb (Ascii.N_of_ascii c =? 31) && no_sep s'
  end.

(** Database and retention policy names hold no unit separator. *)
Definition key_ok (k : MeasurementKey) : Prop :=
  no_sep (db k) = true /\ no_sep (rp k) = true.

Lemma sep_inj a a' r r' :
  no_sep a = true -> no_sep a' = true ->
  a +:+ unit_sep +:+ r = a' +:+ unit_sep +:+ r' -> a = a' /\ r = r'.
Proof.
  revert a'. induction a as [|c a IH]; intros [|c' a'] Ha Ha' E.
  - cbn in E. injection E as E. done.
  - cbn in E. injection E as E1 E2. subst c'. by vm_compute in Ha'.
  - cbn in E. injection E as E1 E2. subst c. by vm_compute in Ha.
  - cbn in Ha, Ha'. apply andb_true_iff in Ha as [_ Ha], Ha' as [_ Ha'].
    change (String c (a +:+ unit_sep +:+ r) = String c' (a' +:+ unit_sep +:+ r')) in E.
    injection E as E1 E2. destruct (IH _ Ha Ha' E2) as [-> ->]. by subst.
Qed.

Lemma string_app_inj_l p a b : (p +:+ a)%string = (p +:+ b)%string -> a = b.
Proof. induction p as [|c p IH]; cbn; [done|]. intros [= E]. by apply IH. Qed.

Lemma space_key_inj k k' : key_ok k -> key_ok k' -> space_key k = space_key k' -> k = k'.
Proof.
  intros [H1 H2] [H1' H2'] E. unfold space_key in E. apply string_app_inj_l in E.
  apply sep_inj in E as [E1 E]; [|done..]. apply sep_inj in E as [E2 E3]; [|done..].
  destruct k, k'; cbn in *. congruence.
Qed.

Lemma space_key_prefix k : String.prefix SPACE_PREFIX (space_key k) = true.
Proof.
  unfold space_key. generalize (db k +:+ unit_sep +:+ rp k +:+ unit_sep +:+ measurement k)%string.
  intros s. by destruct s.
Qed.

Lemma prefix_leb p s : String.prefix p s = true -> str_leb p s = true.
Proof.
  revert s. induction p as [|c p IH]; intros [|d s]; cbn; try done.
  destruct (Ascii.ascii_dec c d) as [->|]; [|done]. rewrite N.eqb_refl. apply IH.
Qed.

(** In key order, the rows that carry a prefix come first after it. *)
Lemma prefix_between p a b :
  str_leb p a = true -> str_leb a b = true -> String.prefix p b = true ->
  String.prefix p a = true.
Proof.
  revert a b. induction p as [|c p IH]; intros [|x a] [|y b]; cbn; try done.
  intros H1 H2. destruct (Ascii.ascii_dec c y) as [->|Hne]; [|done]. intros H3.
  destruct (Ascii.ascii_dec y x) as [->|Hne].
  - rewrite N.eqb_refl in H1, H2. by eapply IH.
  - assert (Hn : Ascii.N_of_ascii y <> Ascii.N_of_ascii x).
    { intros E. apply Hne. rewrite <-(Ascii.ascii_N_embedding y), <-(Ascii.ascii_N_embedding x).
      by rewrite E. }
    destruct (N.eqb_spec (Ascii.N_of_ascii y) (Ascii.N_of_ascii x)); [done|].
    destruct (N.eqb_spec (Ascii.N_of_ascii x) (Ascii.N_of_ascii y)); [congruence|].
    apply N.ltb_lt in H1, H2. lia.
Qed.

(** ** What an operation can change *)

(** An accepted operation changes no space outside [affected_space_keys]. *)
Lemma apply_op_frame m op m' k :
  map_wf m -> op_wf op -> apply_shard_map_op m op = (m', Ok tt) ->
  k ∉ affected_space_keys op m -> spaces m' !! k = spaces m !! k.
Proof.
  intros Hwf Hop H Hk.
  assert (Hput : forall k0 s m0, k <> k0 -> spaces (put_space k0 s m0) !! k = spaces m0 !! k)
    by (intros; cbn; by rewrite lookup_insert_ne).
  destruct (region_step op) as [[[[[k0 id] ep] name] f]|] eqn:Es.
  - destruct (region_step_Ok _ _ _ _ _ _ _ _ Hwf Es H) as (?&?&?&?&_&_&_&_&_&_& -> &_).
    rewrite Hput; [done|]. intros ->. apply Hk. destruct op; cbn in Es; simplify_eq; by left.
  - assert (Hk0 : forall k0, measurement_key op = Some k0 -> k <> k0).
    { intros k0 Hk0 ->. apply Hk. destruct op; cbn in Hk0; simplify_eq; by left. }
    destruct op as [k0 r|k0 rs|k0 id sk ep lc rc|k0 lid rid ep rep mg| | | | | | | |d r ms];
      try done; cbn in H; try specialize (Hk0 k0 eq_refl).
    + unfold apply_bootstrap in H. repeat case_match; simplify_eq. by rewrite Hput.
    + unfold apply_bootstrap_presplit in H. repeat case_match; simplify_eq; by rewrite Hput.
    + destruct Hop as (Hl & Hr & _).
      destruct (apply_split_Ok _ _ _ _ _ _ _ _ (bump_map_wf _ Hwf) (rwf_u64 _ Hl)
                  (rwf_u64 _ Hr) H) as (?&?&?&?&?&[]&_). subst m'. by rewrite Hput.
    + destruct Hop as (Hm & _).
      destruct (apply_merge_Ok _ _ _ _ _ _ _ _ (bump_map_wf _ Hwf) (rwf_u64 _ Hm) H)
        as (?&?&?&?&[]&_). subst m'. by rewrite Hput.
    + injection H as <-. cbn. destruct (drop_matches d r ms k) eqn:E.
      * destruct (spaces m !! k) as [s|] eqn:Esp.
        -- exfalso. apply Hk. cbn. apply list_elem_of_In, filter_In. split; [|done].
           apply list_elem_of_In, list_elem_of_fmap. exists (k, s).
           split; [done|]. by apply elem_of_map_to_list.
        -- apply map_lookup_filter_None. by left.
      * rewrite map_lookup_filter. destruct (spaces m !! k); cbn; [|done].
        by rewrite option_guard_True.
Qed.

(** ** Disk and memory *)

Section Durability.
Context {DB : Type} `{RDB : RocksDb DB} `{SC : ShardCodec}
        {RL : @RocksDbLaws DB RDB} {CL : @ShardCodecLaws SC}.

(** The row that holds the space [k] of [m], if it has one. *)
Definition row_matches (d : DB) (m : ShardMap) (k : MeasurementKey) : Prop :=
  match spaces m !! k with
  | Some s => exists b, enc_space s = Ok b /\ rows d !! space_key k = Some b
  | None => rows d !! space_key k = None
  end.

(** The database holds exactly the map [m]. *)
Record represents (d : DB) (m : ShardMap) : Prop := mkRepr {
  rep_meta : exists b, enc_meta (meta_of m) = Ok b /\ rows d !! META_KEY = Some b;
  rep_legacy : rows d !! LEGACY_SHARD_MAP_KEY = None;
  rep_rows : forall k, key_ok k -> row_matches d m k;
  rep_only : forall rk b, String.prefix SPACE_PREFIX rk = true -> rows d !! rk = Some b ->
             exists k, is_Some (spaces m !! k) /\ rk = space_key k;
  rep_keys : forall k, is_Some (spaces m !! k) -> key_ok k
}.

(** *** Loading *)

(** The load loop reads every prefixed row of a sorted scan. *)
Lemma load_spaces_loop_Ok (l : list (string * string)) (P : MeasurementShardSpace -> Prop) :
  StronglySorted (fun a b => str_leb a.1 b.1 = true) l ->
  (forall kv, kv ∈ l -> str_leb SPACE_PREFIX kv.1 = true) ->
  (forall kv, kv ∈ l -> String.prefix SPACE_PREFIX kv.1 = true ->
     exists s, dec_space kv.2 = Ok s /\ P s) ->
  exists ss, load_spaces_loop (Ok <$> l) = Ok ss /\ (forall s, s ∈ ss -> P s) /\
    (forall kv s, kv ∈ l -> String.prefix SPACE_PREFIX kv.1 = true ->
       dec_space kv.2 = Ok s -> s ∈ ss).
Proof.
  induction 1 as [|kv l Hs IH Hall]; intros Hge Hdec.
  { exists []. split; [done|]. split; by intros ? ?%elem_of_nil || intros ? ? ?%elem_of_nil. }
  cbn. destruct (String.prefix SPACE_PREFIX kv.1) eqn:Ep; cbn.
  - destruct (Hdec kv) as (s & Hsd & HP); [by left|done|]. rewrite Hsd. cbn.
    destruct IH as (ss & -> & HP' & Hin); [intros; apply Hge; by right|
      intros; apply Hdec; [by right|done]|].
    exists (s :: ss). split; [done|]. split.
    + intros x [->|Hx]%elem_of_cons; auto.
    + intros kv' s' [->|Hkv']%elem_of_cons Hp Hd; [|right; by eapply Hin].
      rewrite Hsd in Hd. simplify_eq. by left.
  - exists []. split; [done|]. split; [by intros ? ?%elem_of_nil|].
    intros kv' s' [->|Hkv']%elem_of_cons Hp _; [congruence|].
    rewrite Forall_forall in Hall. rewrite (prefix_between _ kv.1 kv'.1) in Ep; [done|..].
    + apply Hge. by left.
    + by apply Hall.
    + done.
Qed.

Lemma load_spaces_represents d m :
  represents d m -> map_wf m ->
  exists ss, load_spaces d = Ok ss /\
    (forall s, s ∈ ss -> spaces m !! key s = Some s) /\
    (forall k s, spaces m !! k = Some s -> s ∈ ss).
Proof using CL RL.
  intros Hrep Hwf. unfold load_spaces.
  destruct (rdb_scan_law d SPACE_PREFIX) as (l & -> & Hsort & _ & Hin).
  destruct (load_spaces_loop_Ok l (fun s => spaces m !! key s = Some s)) as (ss & -> & H1 & H2).
  - done.
  - intros [rk b] [_ ?]%Hin. done.
  - intros [rk b] [Hb _]%Hin Hp. cbn in *.
    destruct (rep_only _ _ Hrep _ _ Hp Hb) as (k & [s Hs] & ->).
    pose proof (rep_rows _ _ Hrep k (rep_keys _ _ Hrep k (mk_is_Some _ _ Hs))) as Hrow.
    unfold row_matches in Hrow. rewrite Hs in Hrow. destruct Hrow as (b' & He & Hb').
    rewrite Hb in Hb'. simplify_eq. exists s. split; [by apply space_roundtrip|].
    by rewrite (mwf_key _ Hwf _ _ Hs).
  - exists ss. split; [done|]. split; [done|]. intros k s Hs.
    pose proof (rep_rows _ _ Hrep k (rep_keys _ _ Hrep k (mk_is_Some _ _ Hs))) as Hrow.
    unfold row_matches in Hrow. rewrite Hs in Hrow. destruct Hrow as (b' & He & Hb').
    apply (H2 (space_key k, b')).
    + apply Hin. split; [done|]. apply prefix_leb, space_key_prefix.
    + apply space_key_prefix.
    + by apply space_roundtrip.
Qed.

Lemma index_spaces_Ok (ss : list MeasurementShardSpace) acc :
  (forall s, s ∈ ss -> validate s = Ok tt) ->
  index_spaces ss acc = Ok (fold_left (fun acc s => <[key s := s]> acc) ss acc).
Proof.
  revert acc. induction ss as [|s ss IH]; intros acc Hv; cbn; [done|].
  rewrite Hv by (by left). cbn. apply IH. intros; apply Hv; by right.
Qed.

Lemma index_all (m : ShardMap) (ss : list MeasurementShardSpace) :
  (forall s, s ∈ ss -> spaces m !! key s = Some s) ->
  (forall k s, spaces m !! k = Some s -> s ∈ ss) -> map_wf m ->
  fold_left (fun acc s => <[key s := s]> acc) ss ∅ = spaces m.
Proof.
  intros H1 H2 Hwf. apply map_eq. intros k.
  assert (Hfold : forall acc : gmap MeasurementKey MeasurementShardSpace,
    (forall s, s ∈ ss -> key s = k -> spaces m !! k = Some s) ->
    fold_left (fun acc s => <[key s := s]> acc) ss acc !! k
    = if existsb (fun s => bool_decide (key s = k)) ss then spaces m !! k else acc !! k).
  { clear H1 H2. induction ss as [|s ss IH]; intros acc Hs; cbn; [done|].
    rewrite IH by (intros; apply Hs; [by right|done]).
    destruct (existsb _ ss); [by rewrite orb_true_r|]. rewrite orb_false_r.
    case_bool_decide as E; [|by rewrite lookup_insert_ne].
    rewrite (Hs s) by (done || by left). rewrite E. apply lookup_insert_eq. }
  rewrite Hfold by (intros s Hs <-; by apply H1).
  destruct (existsb _ ss) eqn:E; [done|]. rewrite lookup_empty.
  destruct (spaces m !! k) as [s|] eqn:Es; [|done].
  rewrite existsb_not_elem_of in E. specialize (E s (H2 _ _ Es)).
  apply bool_decide_eq_false in E. destruct E. by apply (mwf_key _ Hwf).
Qed.

Lemma map_wf_global m : map_wf m -> validate_global_region_ids m = Ok tt.
Proof.
  intros Hwf. apply global_ids_Ok. split; [|by apply mwf_ids].
  intros k s Hs. apply space_wf_nodup. by eapply mwf_space.
Qed.

(** A database that holds [m] loads as [m]. *)
Lemma load_represents d m :
  represents d m -> map_wf m -> next_region_id m <> 0 -> load_map d = Ok (d, m).
Proof using CL RL.
  intros Hrep Hwf Hn. unfold load_map, migrate_legacy_if_present.
  rewrite rdb_get_law, (rep_legacy _ _ Hrep). cbn.
  unfold assemble_map, load_meta. rewrite rdb_get_law.
  destruct (rep_meta _ _ Hrep) as (b & He & ->). cbn.
  rewrite (meta_roundtrip _ _ He). cbn.
  destruct (load_spaces_represents _ _ Hrep Hwf) as (ss & -> & H1 & H2). cbn.
  rewrite index_spaces_Ok
    by (intros s Hs; by destruct (mwf_space _ Hwf _ _ (H1 s Hs))). cbn.
  rewrite (index_all m) by done. apply N.eqb_neq in Hn. rewrite Hn.
  destruct m as [v n sp]. cbn in *. rewrite (map_wf_global _ Hwf). done.
Qed.

(** *** Persisting *)

Lemma put_meta_Ok m o : put_meta m = Ok o -> exists b, enc_meta (meta_of m) = Ok b /\ o = Put META_KEY b.
Proof.
  unfold put_meta. destruct (enc_meta (meta_of m)) as [b|]; cbn; [|done].
  intros [= <-]. eauto.
Qed.

Lemma space_key_ne_meta k : space_key k <> META_KEY.
Proof. intros E. pose proof (space_key_prefix k) as H. rewrite E in H. by vm_compute in H. Qed.

Lemma space_key_ne_legacy k : space_key k <> LEGACY_SHARD_MAP_KEY.
Proof. intros E. pose proof (space_key_prefix k) as H. rewrite E in H. by vm_compute in H. Qed.

(** What one [persist_space] writes. *)
Lemma persist_space_Ok d m k d' :
  persist_space d m k = Ok d' ->
  (exists b, enc_meta (meta_of m) = Ok b /\ rows d' !! META_KEY = Some b) /\
  row_matches d' m k /\
  (forall rk, rk <> META_KEY -> rk <> space_key k -> rows d' !! rk = rows d !! rk).
Proof using RL.
  unfold persist_space. destruct (put_meta m) as [o|] eqn:Em; cbn; [|done].
  apply put_meta_Ok in Em as (b & Hb & ->). unfold row_matches, space, put_space_row.
  destruct (spaces m !! k) as [s|]; cbn.
  - destruct (enc_space s) as [bs|] eqn:Es; cbn; [|done].
    destruct (rdb_write _ _) as [d1|] eqn:Ew; cbn; [|done]. intros [= <-].
    rewrite (rdb_write_law _ _ _ Ew). cbn. split; [|split].
    + exists b. split; [done|]. rewrite lookup_insert_ne by apply space_key_ne_meta.
      apply lookup_insert_eq.
    + exists bs. split; [done|]. apply lookup_insert_eq.
    + intros rk H1 H2. by rewrite !lookup_insert_ne.
  - destruct (rdb_write _ _) as [d1|] eqn:Ew; cbn; [|done]. intros [= <-].
    rewrite (rdb_write_law _ _ _ Ew). cbn. split; [|split].
    + exists b. split; [done|]. rewrite lookup_delete_ne by apply space_key_ne_meta.
      apply lookup_insert_eq.
    + apply lookup_delete_eq.
    + intros rk H1 H2. by rewrite lookup_delete_ne, lookup_insert_ne.
Qed.

Lemma row_matches_ext d d' m k :
  rows d' !! space_key k = rows d !! space_key k -> row_matches d m k -> row_matches d' m k.
Proof. unfold row_matches. intros ->. done. Qed.

Lemma persist_spaces_Ok d m ks d' :
  Forall key_ok ks -> persist_spaces d m ks = (d', Ok tt) ->
  (ks <> [] -> exists b, enc_meta (meta_of m) = Ok b /\ rows d' !! META_KEY = Some b) /\
  (forall k, k ∈ ks -> row_matches d' m k) /\
  (forall rk, rk <> META_KEY -> (forall k, k ∈ ks -> rk <> space_key k) ->
     rows d' !! rk = rows d !! rk).
Proof using RL.
  revert d. induction ks as [|k ks IH]; intros d Hok; cbn.
  { intros [= <-]. split; [done|]. split; [by intros ? ?%elem_of_nil|done]. }
  apply Forall_cons in Hok as [Hk Hok].
  destruct (persist_space d m k) as [d1|] eqn:E; [|done]. intros Hp.
  destruct (persist_space_Ok _ _ _ _ E) as (Hm & Hr & Ho).
  destruct (IH _ Hok Hp) as (IH1 & IH2 & IH3). split; [|split].
  - intros _. destruct ks as [|k' ks]; [|by apply IH1]. cbn in Hp. by injection Hp as <-.
  - intros k' [->|Hk']%elem_of_cons; [|by apply IH2].
    destruct (decide (k ∈ ks)) as [|Hnin]; [by apply IH2|].
    eapply row_matches_ext; [|done]. apply IH3; [apply space_key_ne_meta|].
    intros k'' Hk'' Ekey. rewrite Forall_forall in Hok.
    apply space_key_inj in Ekey; [|done|by apply Hok]. by subst.
  - intros rk Hrk Hks. rewrite IH3; [|done|intros; apply Hks; by right].
    apply Ho; [done|]. apply Hks. by left.
Qed.

(** *** Whole-map writes *)

Lemma put_space_rows_Ok ctx l puts (R : gmap string string) :
  put_space_rows ctx l = Ok puts -> NoDup (key <$> l) -> (forall s, s ∈ l -> key_ok (key s)) ->
  (forall s, s ∈ l -> exists b, enc_space s = Ok b /\
     fold_left apply_batch_op puts R !! space_key (key s) = Some b) /\
  (forall rk, (forall s, s ∈ l -> rk <> space_key (key s)) ->
     fold_left apply_batch_op puts R !! rk = R !! rk).
Proof.
  revert puts R. induction l as [|s l IH]; intros puts R; cbn.
  { intros [= <-] _ _. split; [by intros ? ?%elem_of_nil|done]. }
  unfold put_space_row. destruct (enc_space s) as [b|] eqn:Eb; cbn; [|done].
  destruct (put_space_rows ctx l) as [puts'|] eqn:El; cbn; [|done].
  intros [= <-] [Hn Hnd]%NoDup_cons Hok. cbn.
  destruct (IH puts' (<[space_key (key s) := b]> R) eq_refl Hnd) as [IH1 IH2];
    [intros; apply Hok; by right|].
  split.
  - intros s' [->|Hs']%elem_of_cons; [|by apply IH1]. exists b. split; [done|].
    rewrite IH2; [apply lookup_insert_eq|]. intros s' Hs' E.
    apply space_key_inj in E; [|apply Hok; by left|apply Hok; by right].
    apply Hn. rewrite E. by apply list_elem_of_fmap_2.
  - intros rk Hrk. rewrite IH2 by (intros; apply Hrk; by right).
    apply lookup_insert_ne. intros E. by apply (Hrk s); [left|].
Qed.

Lemma deletes_fold (l : list MeasurementShardSpace) (R : gmap string string) rk :
  fold_left apply_batch_op (delete_rows l) R !! rk
  = if existsb (fun s => bool_decide (space_key (key s) = rk)) l then None else R !! rk.
Proof.
  unfold delete_rows. revert R. induction l as [|s l IH]; intros R; cbn; [done|].
  rewrite IH. destruct (existsb _ l); [by rewrite orb_true_r|]. rewrite orb_false_r.
  case_bool_decide as E; [subst; apply lookup_delete_eq|by rewrite lookup_delete_ne].
Qed.

(** The spaces of a map, as the list the persistence loops walk. *)
Lemma space_list_spec m :
  map_wf m -> NoDup (key <$> (map_to_list (spaces m)).*2) /\
  (forall s, s ∈ (map_to_list (spaces m)).*2 <-> spaces m !! key s = Some s).
Proof.
  intros Hwf.
  assert (E : key <$> (map_to_list (spaces m)).*2 = (map_to_list (spaces m)).*1).
  { rewrite <-list_fmap_compose. apply list_fmap_ext. intros i [k s] Hi. cbn.
    apply (mwf_key _ Hwf). apply elem_of_map_to_list. by eapply list_elem_of_lookup_2. }
  split; [rewrite E; apply NoDup_fst_map_to_list|]. intros s. split.
  - intros ([k s'] & -> & Hks%elem_of_map_to_list)%list_elem_of_fmap. cbn.
    by rewrite (mwf_key _ Hwf _ _ Hks).
  - intros Hs. apply list_elem_of_fmap. exists (key s, s). split; [done|].
    by apply elem_of_map_to_list.
Qed.

(** The row [rk] belongs to a space the new map lacks. *)
Definition dropped (m : ShardMap) (existing : list MeasurementShardSpace) (rk : string) : bool :=
  existsb (fun s => bool_decide (space_key (key s) = rk)) (absent_spaces m existing).

(** The rows after a whole-map write, row by row. *)
Lemma full_map_rows d m d' ss :
  map_wf m -> (forall k, is_Some (spaces m !! k) -> key_ok k) ->
  load_spaces d = Ok ss -> persist_full_map d m = Ok d' ->
  (exists b, enc_meta (meta_of m) = Ok b /\ rows d' !! META_KEY = Some b) /\
  (forall s, spaces m !! key s = Some s ->
     exists b, enc_space s = Ok b /\ rows d' !! space_key (key s) = Some b) /\
  (forall rk, rk <> META_KEY -> (forall k, is_Some (spaces m !! k) -> rk <> space_key k) ->
     rows d' !! rk = if dropped m ss rk then None else rows d !! rk).
Proof using RL.
  intros Hwf Hok Hss. unfold persist_full_map. rewrite Hss. cbn.
  destruct (put_meta m) as [o|] eqn:Em; cbn; [|done].
  apply put_meta_Ok in Em as (b & Hb & ->).
  destruct (put_space_rows _ _) as [puts|] eqn:Ep; cbn; [|done].
  destruct (space_list_spec m Hwf) as [Hnd Hin].
  destruct (rdb_write _ _) as [d1|] eqn:Ew; cbn; [|done]. intros [= <-].
  apply rdb_write_law in Ew. cbn [fold_left apply_batch_op] in Ew. rewrite fold_left_app in Ew.
  destruct (put_space_rows_Ok _ _ _
    (fold_left apply_batch_op (delete_rows (absent_spaces m ss)) (<[META_KEY:=b]> (rows d)))
    Ep Hnd) as [Hput Hother].
  { intros s Hs%Hin. apply Hok. by eexists. }
  rewrite <-Ew in Hput, Hother. split; [|split].
  - exists b. split; [done|]. rewrite Hother by (intros s _ E; by apply (space_key_ne_meta (key s))).
    rewrite deletes_fold. destruct (existsb _ _) eqn:Ee; [|apply lookup_insert_eq].
    apply existsb_elem_of in Ee as (s & _ & Hs). apply bool_decide_eq_true in Hs.
    by apply space_key_ne_meta in Hs.
  - intros s Hs%Hin. by apply Hput.
  - intros rk Hm Hno. rewrite Hother by (intros s Hs%Hin; apply Hno; by eexists).
    rewrite deletes_fold. unfold dropped. destruct (existsb _ _); [done|].
    by rewrite lookup_insert_ne.
Qed.

(** A space the new map lacks has no row left. *)
Lemma dropped_row_absent d m0 m ss k :
  represents d m0 -> map_wf m0 -> (forall k s, spaces m0 !! k = Some s -> s ∈ ss) ->
  key_ok k -> spaces m !! k = None ->
  dropped m ss (space_key k) = false -> rows d !! space_key k = None.
Proof.
  intros Hrep Hwf0 Hss Hk Hnk Ee. unfold dropped in Ee. rewrite existsb_not_elem_of in Ee.
  pose proof (rep_rows _ _ Hrep k Hk) as Hrow. unfold row_matches in Hrow.
  destruct (spaces m0 !! k) as [s|] eqn:Es; [|done]. exfalso.
  pose proof (mwf_key _ Hwf0 _ _ Es) as Hks.
  assert (bool_decide (space_key (key s) = space_key k) = false) as Hf.
  { apply Ee, list_elem_of_In, filter_In. split; [by eapply list_elem_of_In, Hss|].
    rewrite Hks, Hnk. by rewrite bool_decide_eq_false_2 by (by intros [? ?]). }
  apply bool_decide_eq_false in Hf. by rewrite Hks in Hf.
Qed.

Lemma persist_full_map_Ok d m0 m d' :
  represents d m0 -> map_wf m0 -> map_wf m -> (forall k, is_Some (spaces m !! k) -> key_ok k) ->
  persist_full_map d m = Ok d' -> represents d' m.
Proof using CL RL.
  intros Hrep Hwf0 Hwf Hok Hp.
  destruct (load_spaces_represents _ _ Hrep Hwf0) as (ss & Hload & Hss1 & Hss2).
  destruct (full_map_rows _ _ _ _ Hwf Hok Hload Hp) as (Hmeta & Hput & Hother).
  pose proof (fun k => dropped_row_absent d m0 m ss k Hrep Hwf0 Hss2) as Habsent.
  split; [done| | | |exact Hok].
  - rewrite Hother; [|done|intros k _ E; by apply (space_key_ne_legacy k)].
    destruct (dropped _ _ _); [done|]. by apply (rep_legacy _ _ Hrep).
  - intros k Hk. unfold row_matches. destruct (spaces m !! k) as [s|] eqn:Es.
    + pose proof (mwf_key _ Hwf _ _ Es) as <-. by apply Hput.
    + rewrite Hother; [|apply space_key_ne_meta|].
      * destruct (dropped _ _ _) eqn:Ed; [done|]. by apply Habsent.
      * intros k' Hk' E. apply space_key_inj in E; [|done|by apply Hok]. subst.
        rewrite Es in Hk'. by destruct Hk'.
  - intros rk bv Hpre Hrow.
    destruct (decide (Exists (fun kv => rk = space_key kv.1) (map_to_list (spaces m))))
      as [([k s] & Hks%elem_of_map_to_list & ->)%Exists_exists|Hno].
    { exists k. split; [by eexists|done]. }
    rewrite Hother in Hrow; [|by intros ->; vm_compute in Hpre|].
    + destruct (dropped _ _ _) eqn:Ed; [done|].
      destruct (rep_only _ _ Hrep _ _ Hpre Hrow) as (k & Hk & ->).
      destruct (spaces m !! k) as [s|] eqn:Es; [by exists k; rewrite Es|].
      rewrite (Habsent k) in Hrow; [done|by apply (rep_keys _ _ Hrep)|done|done].
    + intros k [s Hs] ->. apply Hno, Exists_exists. exists (k, s).
      split; [by apply elem_of_map_to_list|done].
Qed.
End Durability.
