(* ===== verification/ShardStoreTheorems.v ===== *)
(** * Theorems about the durable shard map

    The store refines the in-memory state machine of [ShardOps]: what is on
    disk after an accepted operation loads back as the map the operation
    produced. An in-memory database and a binary codec instantiate the
    interfaces for the concrete instances. *)

From stdpp Require Import prelude list sorting gmap strings pretty.
From S2P Require Import Prelude ShardTypes ShardOps ShardInvariant ShardTheorems ShardStore.
From stdpp Require Import options.

#[local] Open Scope N_scope.

(** ** Shared lemmas *)

Lemma apply_next_ge m op m' :
  apply_shard_map_op m op = (m', Ok tt) -> next_region_id m <= u64_max ->
  next_region_id m <= next_region_id m'.
Proof.
  intros H Hle. destruct op; cbn in H;
    try (unfold modify_region in H; repeat case_match; simplify_eq; cbn; lia).
  - unfold apply_bootstrap in H. repeat case_match; simplify_eq; cbn; lia.
  - unfold apply_bootstrap_presplit in H. repeat case_match; simplify_eq; cbn; lia.
  - unfold apply_split in H. repeat case_match; simplify_eq; cbn; unfold sat_add; lia.
  - unfold apply_merge in H. repeat case_match; simplify_eq; cbn; lia.
  - injection H as <-. cbn. lia.
Qed.

Lemma reachable_next_pos m : reachable m -> next_region_id m <> 0.
Proof.
  induction 1 as [|m op m' Hr IH Hop H]; [by compute|].
  pose proof (mwf_next_u64 _ (reachable_wf _ Hr)).
  pose proof (apply_next_ge _ _ _ H). lia.
Qed.

Section Store.
Context {DB : Type} `{RDB : RocksDb DB} `{SC : ShardCodec}
        {RL : @RocksDbLaws DB RDB} {CL : @ShardCodecLaws SC}.

(** The state the adapter keeps between calls: the rows hold the cached map. *)
Record store_inv (st : RocksDbShardMap DB) : Prop := mkStoreInv {
  si_reachable : reachable (cache st);
  si_represents : represents (store_db st) (cache st)
}.

(** An operation whose accepted result is persisted row by row. *)
Lemma apply_op_represents st op m st' :
  store_inv st -> op_wf op -> Forall key_ok (affected_space_keys op (cache st)) ->
  affected_space_keys op (cache st) <> [] ->
  apply_op st op = (st', Ok m) -> apply_shard_map_op (cache st) op = (m, Ok tt) /\
  cache st' = m /\ store_inv st'.
Proof using RL CL.
  intros [Hr Hrep] Hop Hok Hne H. unfold apply_op in H.
  destruct (apply_shard_map_op (cache st) op) as [m1 [[]|e]] eqn:Ea; [|done].
  destruct (persist_spaces _ _ _) as [d [[]|e]] eqn:Ep; [|done].
  injection H as <- <-. split; [done|]. split; [done|]. cbn.
  pose proof (reachable_wf _ Hr) as Hwf.
  destruct (persist_spaces_Ok _ _ _ _ Hok Ep) as (Hmeta & Hrows & Hother).
  assert (Hframe : forall k, k ∉ affected_space_keys op (cache st) ->
            spaces m1 !! k = spaces (cache st) !! k) by (intros; by eapply apply_op_frame).
  rewrite Forall_forall in Hok.
  assert (Hcase : forall k, key_ok k -> k ∉ affected_space_keys op (cache st) ->
            rows d !! space_key k = rows (store_db st) !! space_key k).
  { intros k Hk Hnin. apply Hother; [apply space_key_ne_meta|]. intros k' Hk' E.
    apply space_key_inj in E; [by subst|done|by apply Hok]. }
  split; [by eapply reachable_step|]. cbn.
  split.
  - by apply Hmeta.
  - rewrite Hother; [by apply (rep_legacy _ _ Hrep)|done|].
    intros k _ E. symmetry in E. by apply space_key_ne_legacy in E.
  - intros k Hk. destruct (decide (k ∈ affected_space_keys op (cache st))) as [Hin|Hnin].
    + by apply Hrows.
    + eapply row_matches_ext; [by apply Hcase|]. unfold row_matches. rewrite Hframe by done.
      by apply (rep_rows _ _ Hrep).
  - intros rk b Hp Hrow.
    destruct (existsb (fun k => bool_decide (space_key k = rk))
                (affected_space_keys op (cache st))) eqn:Ee.
    + apply existsb_elem_of in Ee as (k & Hk & E). apply bool_decide_eq_true in E. subst rk.
      specialize (Hrows k Hk). unfold row_matches in Hrows.
      exists k. split; [|done]. destruct (spaces m1 !! k); [by eexists|congruence].
    + rewrite existsb_not_elem_of in Ee.
      assert (Hne' : forall k, k ∈ affected_space_keys op (cache st) -> rk <> space_key k).
      { intros k Hk ->. specialize (Ee k Hk). by apply bool_decide_eq_false in Ee. }
      rewrite Hother in Hrow by (done || (intros ->; by vm_compute in Hp)).
      destruct (rep_only _ _ Hrep _ _ Hp Hrow) as (k & Hk & ->).
      exists k. split; [|done]. rewrite Hframe; [done|]. intros Hin. by apply (Hne' k).
  - intros k Hk. destruct (decide (k ∈ affected_space_keys op (cache st))) as [Hin|Hnin].
    + by apply Hok.
    + rewrite Hframe in Hk by done. by apply (rep_keys _ _ Hrep).
Qed.
End Store.

(** ** An in-memory database and codec *)

Lemma str_leb_total a b : str_leb a b = true \/ str_leb b a = true.
Proof.
  revert b. induction a as [|x a IH]; intros [|y b]; cbn; auto.
  destruct (N.eqb_spec (Ascii.N_of_ascii x) (Ascii.N_of_ascii y)) as [->|Hne].
  - rewrite N.eqb_refl. apply IH.
  - destruct (N.eqb_spec (Ascii.N_of_ascii y) (Ascii.N_of_ascii x)); [congruence|].
    rewrite !N.ltb_lt. lia.
Qed.

Lemma str_leb_trans a b c : str_leb a b = true -> str_leb b c = true -> str_leb a c = true.
Proof.
  revert b c. induction a as [|x a IH]; intros [|y b] [|z c]; cbn; try done.
  repeat match goal with |- context [N.eqb ?p ?q] => destruct (N.eqb_spec p q) end;
    rewrite ?N.ltb_lt; intros; try congruence; try lia. by eapply IH.
Qed.

Definition row_leb (a b : string * string) : bool := str_leb a.1 b.1.

#[export] Instance mem_db : RocksDb (gmap string string) := {
  rdb_get d k := Ok (d !! k);
  rdb_scan d p := Ok <$> sort_by row_leb (List.filter (fun kv => str_leb p kv.1) (map_to_list d));
  rdb_write d b := Ok (fold_left apply_batch_op b d)
}.

#[export] Program Instance mem_db_laws : RocksDbLaws (gmap string string) := {
  rows d := d
}.
Next Obligation. done. Qed.
Next Obligation.
  intros d p. eexists. split; [reflexivity|]. split; [|split].
  - apply sort_by_sorted.
    + intros x y. apply str_leb_total.
    + intros x y z. apply str_leb_trans.
  - rewrite sort_by_Permutation.
    pose proof (NoDup_fst_map_to_list d) as Hnd. revert Hnd.
    induction (map_to_list d) as [|kv l IH]; cbn; [done|].
    intros [Hn Hnd]%NoDup_cons. destruct (str_leb p kv.1); [|by apply IH]. cbn.
    apply NoDup_cons. split; [|by apply IH]. intros Hin. apply Hn.
    apply list_elem_of_fmap in Hin as (kv' & E & Hkv'). rewrite E.
    apply list_elem_of_In, filter_In in Hkv' as [Hkv' _].
    by apply list_elem_of_fmap_2, list_elem_of_In.
  - intros k v. rewrite sort_by_elem_of, list_elem_of_In, filter_In, <-list_elem_of_In.
    by rewrite elem_of_map_to_list.
Qed.
Next Obligation. intros d b d' [= <-]. done. Qed.

#[export] Instance ShardEpoch_countable : Countable ShardEpoch.
Proof.
  refine (inj_countable' (fun e => (conf_ver e, version e)) (fun '(a, b) => mkEpoch a b) _).
  by intros [].
Defined.

Definition region_tuple (r : ShardRegion) :=
  (region_id r, start r, end_ r, epoch r, peers r, primary r, last_split_at r,
   (transfer_verified r, transfer_first_seen r, is_serving r, staged_from r, staging_peers r)).

Definition tuple_region
    (t : N * N * N * ShardEpoch * list N * N * N
         * (option bool * option Z * bool * option N * list N)) : ShardRegion :=
  let '(a, b, c, e, ps, pr, ls, (tv, tf, sv, sf, sp)) := t in
  mkRegion a b c e ps pr ls tv tf (if sv then Serving else Staging) sf sp.

#[export] Instance ShardRegion_countable : Countable ShardRegion.
Proof.
  refine (inj_countable' region_tuple tuple_region _).
  intros []. unfold region_tuple, is_serving. cbn. by destruct state.
Defined.

#[export] Instance MeasurementShardSpace_eq_dec : EqDecision MeasurementShardSpace.
Proof. solve_decision. Defined.

#[export] Instance MeasurementShardSpace_countable : Countable MeasurementShardSpace.
Proof.
  refine (inj_countable' (fun s => (key s, regions s)) (fun '(a, b) => mkSpace a b) _).
  by intros [].
Defined.

#[export] Instance bits_codec : ShardCodec := {
  enc_meta x := Ok (pos_bits (encode (meta_map_version x, meta_next_region_id x)));
  dec_meta s := p ← decode_or s; Ok (mkMeta p.1 p.2);
  enc_space x := Ok (pos_bits (encode x));
  dec_space s := decode_or s;
  dec_legacy s := p ← decode_or s; Ok (mkMapJson p.1.1 p.1.2 p.2)
}.

#[export] Program Instance bits_codec_laws : ShardCodecLaws.
Next Obligation.
  intros [v n] b [= <-]. cbn. unfold decode_or. rewrite bits_pos_bits, decode_encode. done.
Qed.
Next Obligation.
  intros s b [= <-]. cbn. unfold decode_or. rewrite bits_pos_bits, decode_encode. done.
Qed.

(** A freshly created store: the empty map with its counters written. *)
Definition empty_rows : gmap string string :=
  {[ META_KEY := pos_bits (encode (0, default_next_region_id)) ]}.

Definition empty_store : RocksDbShardMap (gmap string string) :=
  mkStore (DB := gmap string string) empty_rows map_default true.

Lemma empty_store_inv : store_inv empty_store.
Proof.
  split; [constructor|].
  change (represents empty_rows map_default). split.
  - eexists. split; [reflexivity|]. reflexivity.
  - reflexivity.
  - intros k _. unfold row_matches.
    change (spaces map_default) with (∅ : gmap MeasurementKey MeasurementShardSpace).
    rewrite lookup_empty. apply (lookup_singleton_ne META_KEY). intros E. symmetry in E. by apply space_key_ne_meta in E.
  - intros rk b Hp Hrow. change (empty_rows !! rk = Some b) in Hrow.
    unfold empty_rows in Hrow. apply lookup_singleton_Some in Hrow as [<- _]. by vm_compute in Hp.
  - intros k. change (spaces map_default) with (∅ : gmap MeasurementKey MeasurementShardSpace).
    rewrite lookup_empty. by intros [].
Qed.

(** ** Properties *)


Definition boot_cpu : ShardMapOp := BootstrapMeasurement k_cpu (sample_region 1 0 u64_max 1).

Definition booted_store : RocksDbShardMap (gmap string string) := (apply_op empty_store boot_cpu).1.

Lemma k_cpu_ok : key_ok k_cpu.
Proof. split; reflexivity. Qed.

Lemma booted_store_inv : store_inv booted_store.
Proof.
  refine (proj2 (proj2 (apply_op_represents empty_store boot_cpu sample_map1 booted_store
            empty_store_inv _ _ _ _))).
  - apply sample_region_wf; by compute.
  - repeat constructor.
  - done.
  - vm_compute. reflexivity.
Qed.


(** An operation the map refuses writes nothing and leaves the cached map alone; an
    operation whose write fails also leaves the cached map alone. *)
Theorem apply_op_error_keeps_cache {DB} `{RDB : RocksDb DB} `{SC : ShardCodec}
    (st st' : RocksDbShardMap DB) op e :
  apply_op st op = (st', Err e) ->
  cache st' = cache st /\ (forall ae, e = ApplyErr ae -> st' = st).
Proof.
  unfold apply_op. destruct (apply_shard_map_op (cache st) op) as [m [[]|ae]] eqn:Ea.
  - destruct (persist_spaces _ _ _) as [d [[]|pe]] eqn:Ep; [done|]. intros [= <- <-].
    split; [done|]. intros ae ->. exfalso.
    revert Ep. generalize (store_db st). generalize (affected_space_keys op (cache st)).
    intros ks. induction ks as [|k ks IH]; intros d0; cbn; [done|].
    destruct (persist_space d0 m k) as [d1|pe] eqn:Ek; [apply IH|]. intros [= _ ->].
    unfold persist_space, put_meta, put_space_row, storage, map_err in Ek.
    repeat (case_match || cbn in Ek); simplify_eq/=; repeat case_match; simplify_eq.
  - intros [= <- <-]. done.
Qed.

Lemma apply_op_error_keeps_cache_witness :
  cache (apply_op booted_store boot_cpu).1 = cache booted_store.
Proof.
  refine (proj1 (apply_op_error_keeps_cache booted_store _ boot_cpu
                   (ApplyErr (SpaceExists "db" "autogen" "cpu")) _)).
  vm_compute. reflexivity.
Defined.

(** A drop whose scope matches no space is accepted and moves the cached
    [map_version], but nothing is written, so the database still loads the old version: the
    version bump does not survive a restart. *)
Theorem empty_drop_not_persisted {DB} `{RDB : RocksDb DB} `{SC : ShardCodec}
    {RL : @RocksDbLaws DB RDB} {CL : @ShardCodecLaws SC} (st : RocksDbShardMap DB) d r ms :
  store_inv st -> map_version (cache st) < u64_max ->
  affected_space_keys (DropSpace d r ms) (cache st) = [] ->
  exists st' m, apply_op st (DropSpace d r ms) = (st', Ok m) /\
    map_version (cache st') = map_version (cache st) + 1 /\
    load_map (store_db st') = Ok (store_db st', cache st).
Proof.
  intros [Hr Hrep] Hv Hnone. unfold apply_op. rewrite Hnone. cbn.
  eexists _, _. split; [reflexivity|]. cbn. split; [apply sat_add_spec; lia|].
  apply load_represents; [done|by apply reachable_wf|by apply reachable_next_pos].
Qed.

Lemma empty_drop_not_persisted_witness :
  exists st' m, apply_op booted_store (DropSpace "other" None None) = (st', Ok m) /\
    map_version (cache st') = 2 /\
    load_map (store_db st') = Ok (store_db st', cache booted_store).
Proof.
  apply (empty_drop_not_persisted booted_store "other" None None booted_store_inv).
  - vm_compute. reflexivity.
  - vm_compute. reflexivity.
Defined.

(** Installing a whole map (join catch-up or snapshot) leaves the database holding
    exactly that map: the rows of spaces it lacks are gone, and reopening loads it. *)
Theorem replace_map_durable {DB} `{RDB : RocksDb DB} `{SC : ShardCodec}
    {RL : @RocksDbLaws DB RDB} {CL : @ShardCodecLaws SC}
    (st st' : RocksDbShardMap DB) m :
  store_inv st -> reachable m -> (forall k, is_Some (spaces m !! k) -> key_ok k) ->
  replace_map st m = (st', Ok tt) ->
  snapshot st' = m /\ store_inv st' /\ load_map (store_db st') = Ok (store_db st', m).
Proof.
  intros [Hr0 Hrep] Hr Hok H. unfold replace_map in H.
  destruct (validate_all _) as [[]|]; cbn in H; [|done].
  destruct (map_err _ _) as [[]|]; cbn in H; [|done].
  destruct (persist_full_map _ _) as [d|] eqn:Ep; [|done]. injection H as <-.
  pose proof (persist_full_map_Ok _ _ _ _ Hrep (reachable_wf _ Hr0) (reachable_wf _ Hr) Hok Ep)
    as Hrep'.
  split; [done|]. split; [by split|]. cbn.
  by apply load_represents; [|apply reachable_wf|apply reachable_next_pos].
Qed.

Lemma replace_map_durable_witness :
  exists st', replace_map booted_store sample_map2 = (st', Ok tt) /\
    load_map (store_db st') = Ok (store_db st', sample_map2).
Proof.
  destruct (replace_map booted_store sample_map2) as [st' res] eqn:E.
  assert (res = Ok tt) as Hres
    by (change res with (st', res).2; rewrite <-E; vm_compute; reflexivity).
  subst res. exists st'. split; [reflexivity|].
  refine (proj2 (proj2 (replace_map_durable booted_store st' sample_map2 booted_store_inv
                          sample_map2_reachable _ E))).
  intros k Hk. destruct (decide (k = k_cpu)) as [->|Hne]; [exact k_cpu_ok|].
  exfalso. revert Hk.
  rewrite (apply_op_frame sample_map1 split_at_1000 sample_map2 k).
  - rewrite (apply_op_frame map_default boot_cpu sample_map1 k).
    + intros [s Hs]. cbn in Hs.
      rewrite lookup_empty in Hs. discriminate.
    + apply map_default_wf.
    + apply sample_region_wf; by compute.
    + vm_compute. reflexivity.
    + cbn. rewrite list_elem_of_singleton. exact Hne.
  - apply reachable_wf. exact sample_map1_reachable.
  - repeat split; try apply sample_region_wf; by compute.
  - vm_compute. reflexivity.
  - cbn. rewrite list_elem_of_singleton. exact Hne.
Defined.

(** Row keys identify measurements as long as database and retention policy names hold
    no unit separator; the comment in [space_key] takes that for granted, and without it two
    measurements share a row. *)
Theorem space_key_injective :
  (forall k k', key_ok k -> key_ok k' -> space_key k = space_key k' -> k = k') /\
  exists k k', k <> k' /\ space_key k = space_key k'.
Proof.
  split; [intros k k'; apply space_key_inj|].
  exists (mkKey ("a" +:+ unit_sep +:+ "b") "c" "d"), (mkKey "a" "b" ("c" +:+ unit_sep +:+ "d")).
  split; [done|reflexivity].
Qed.
