(* ===== verification/Placement.v ===== *)
(** * Region placement ([hyperbytedb/src/domain/sharding/placement.rs])

    Rendezvous hashing of regions onto nodes, the balancing of primaries and
    copies, and the step by step convergence of a region to its target. *)

From stdpp Require Import prelude list sorting gmap strings pretty.
From S2P Require Import Prelude ShardTypes.
From stdpp Require Import options.

#[local] Open Scope N_scope.

(** ** Hashing *)

Definition MIX_1 : N := 0xbf58476d1ce4e5b9.

Definition MIX_2 : N := 0x94d049bb133111eb.

Definition GOLDEN : N := 0x9e3779b97f4a7c15.

Definition mix (z : N) : N :=
  let z := wrapping_mul (N.lxor z (N.shiftr z 30)) MIX_1 in
  let z := wrapping_mul (N.lxor z (N.shiftr z 27)) MIX_2 in
  N.lxor z (N.shiftr z 31).

(** [str::as_bytes]. *)
Fixpoint as_bytes (s : string) : list N :=
  match s with
  | EmptyString => []
  | String c s' => Ascii.N_of_ascii c :: as_bytes s'
  end.

Definition mix_bytes (seed : N) (bytes : list N) : N :=
  fold_left (fun acc b => mix (wrapping_add (wrapping_add acc b) GOLDEN)) bytes seed.

Definition placement_hash (k : MeasurementKey) (st node_id : N) : N :=
  let acc := mix_bytes GOLDEN (as_bytes (db k)) in
  let acc := mix_bytes acc (as_bytes (rp k)) in
  let acc := mix_bytes acc (as_bytes (measurement k)) in
  let acc := mix (wrapping_add (wrapping_add acc st) GOLDEN) in
  mix (wrapping_add (wrapping_add acc node_id) GOLDEN).

(** Descending by score, then by node id. *)
Definition score_leb (a b : N * N) : bool :=
  (b.1 <? a.1) || ((b.1 =? a.1) && (b.2 <=? a.2)).

Definition target_placement (k : MeasurementKey) (st : N) (candidates : list N) (rf : nat)
    : list N :=
  let scored := (fun n => (placement_hash k st n, n)) <$> candidates in
  (take rf (sort_by score_leb scored)).*2.

(** ** Balancing primaries *)

Record PrimaryCandidate := mkPC {
  pc_region_id : N;
  pc_current : N;
  pc_weight : N;
  pc_peers : list N
}.

Definition load_of (load : gmap N N) (n : N) : N := default 0 (load !! n).

Definition weight1 (w : N) : N := N.max w 1.

(** Heaviest first, region id breaking ties. *)
Definition weight_leb (a b : PrimaryCandidate) : bool :=
  (pc_weight b <? pc_weight a)
  || ((pc_weight b =? pc_weight a) && (pc_region_id a <=? pc_region_id b)).

(** Keys [(load, rank)] compared lexicographically. *)
Definition load_rank_ltb (load : gmap N N) (a b : nat * N) : bool :=
  (load_of load a.2 <? load_of load b.2)
  || ((load_of load a.2 =? load_of load b.2) && Nat.ltb a.1 b.1).

Definition enumerate {A} (l : list A) : list (nat * A) := imap (fun i x => (i, x)) l.

(** The least loaded peer, earlier rank breaking ties. *)
Definition least_loaded (load : gmap N N) (ps : list N) : N :=
  match min_by (load_rank_ltb load) (enumerate ps) with
  | Some (_, n) => n
  | None => default 0 (head ps)
  end.

Definition add_load (n w : N) (load : gmap N N) : gmap N N := <[n := load_of load n + w]> load.

Definition sub_load (n w : N) (load : gmap N N) : gmap N N := <[n := load_of load n - w]> load.

(** Load per node and primary per region. *)
Definition balance_state : Type := gmap N N * gmap N N.

(** One iteration of the greedy loop. *)
Definition assign_primary (cap_num cap_den : N) (st : balance_state) (r : PrimaryCandidate)
    : balance_state :=
  let '(load, out) := st in
  let w := weight1 (pc_weight r) in
  let within n := (load_of load n + w) * cap_den <=? cap_num in
  let unloaded n := load_of load n =? 0 in
  let chosen :=
    if bool_decide (pc_current r ∈ pc_peers r) && (within (pc_current r) || unloaded (pc_current r))
    then pc_current r
    else least_loaded load (pc_peers r) in
  (add_load chosen w load, <[pc_region_id r := chosen]> out).

Definition load_ltb (load : gmap N N) (a b : N) : bool := load_of load a <? load_of load b.

(** One iteration of the improvement pass: move a region's primary to its
    least loaded other peer when that strictly lowers the busier of the two. *)
Definition improve_one (by_id : gmap N PrimaryCandidate) (acc : balance_state * bool) (id : N)
    : balance_state * bool :=
  let '((load, out), moved) := acc in
  match by_id !! id, out !! id with
  | Some r, Some from =>
    let w := weight1 (pc_weight r) in
    let from_load := load_of load from in
    match min_by (load_ltb load) (List.filter (fun p => negb (p =? from)) (pc_peers r)) with
    | Some to =>
      if load_of load to + w <? from_load
      then ((add_load to w (sub_load from w load), <[id := to]> out), true)
      else acc
    | None => acc
    end
  | _, _ => acc
  end.

Definition improve_pass (by_id : gmap N PrimaryCandidate) (ids : list N) (st : balance_state)
    : balance_state * bool :=
  fold_left (improve_one by_id) ids (st, false).

Definition index_by_id (rs : list PrimaryCandidate) : gmap N PrimaryCandidate :=
  fold_left (fun acc r => <[pc_region_id r := r]> acc) rs ∅.

(** [u64] order, for [sort_unstable] on region ids. *)
Definition sort_ids (l : list N) : list N := sort_by N.leb l.

Definition total_weight (rs : list PrimaryCandidate) : N :=
  fold_right (fun r acc => weight1 (pc_weight r) + acc) 0 rs.

(** The distinct nodes of all peer sets. *)
Definition peer_nodes (rs : list PrimaryCandidate) : gset N :=
  list_to_set (rs ≫= pc_peers).

Definition greedy_order (rs : list PrimaryCandidate) : list PrimaryCandidate :=
  sort_by weight_leb (List.filter (fun r => negb (bool_decide (pc_peers r = []))) rs).

Definition greedy (rs : list PrimaryCandidate) (tolerance_pct : N) : balance_state :=
  let cap_num := total_weight rs * wrapping_add 100 tolerance_pct in
  let cap_den := 100 * N.of_nat (size (peer_nodes rs)) in
  fold_left (assign_primary cap_num cap_den) (greedy_order rs) (∅, ∅).

(** Passes enough for the improvement loop: every move lowers the sum of
    squared loads, which starts below the square of the total weight. *)
Definition improve_depth (rs : list PrimaryCandidate) : nat :=
  N.to_nat (N.size (total_weight rs * total_weight rs)).

Definition improve (rs : list PrimaryCandidate) (st : balance_state) : balance_state * bool :=
  let ids := sort_ids ((map_to_list (st.2)).*1) in
  iter_until (improve_pass (index_by_id rs) ids) (improve_depth rs) st.

Definition balance_primaries (rs : list PrimaryCandidate) (tolerance_pct : N) : gmap N N :=
  if bool_decide (peer_nodes rs = ∅) then ∅
  else (improve rs (greedy rs tolerance_pct)).1.2.

(** ** Planning weights *)

(** Pairs of range width and reported series. *)
Definition estimate_region_weights (rs : list (N * N)) : list N :=
  let '(series, width) :=
    fold_left (fun acc wr => (acc.1 + wr.2, acc.2 + wr.1))
      (List.filter (fun wr => 0 <? wr.2) rs) (0, 0) in
  (fun wr =>
     let expected := if width =? 0 then 0 else wr.1 * series / width in
     N.max (N.max (if expected <=? u64_max then expected else u64_max) wr.2) 1) <$> rs.

(** ** Balancing copies *)

Record RegionPlanInput := mkPlan {
  rp_region_id : N;
  current_peers : list N;
  current_primary : N;
  rp_weight : N;
  hrw : list N
}.

(** [usize::MAX] for a node that is not a candidate. *)
Definition rank (r : RegionPlanInput) (n : N) : N :=
  match position (fun x => x =? n) (hrw r) with
  | Some i => N.of_nat i
  | None => u64_max
  end.

Definition plan_weight_leb (a b : RegionPlanInput) : bool :=
  (rp_weight b <? rp_weight a)
  || ((rp_weight b =? rp_weight a) && (rp_region_id a <=? rp_region_id b)).

(** [(load[n], rank(r, n))] compared lexicographically, strictly and not. *)
Definition node_ltb (load : gmap N N) (r : RegionPlanInput) (a b : N) : bool :=
  (load_of load a <? load_of load b)
  || ((load_of load a =? load_of load b) && (rank r a <? rank r b)).

Definition node_leb (load : gmap N N) (r : RegionPlanInput) (a b : N) : bool :=
  (load_of load a <? load_of load b)
  || ((load_of load a =? load_of load b) && (rank r a <=? rank r b)).

(** [(load[n], Reverse(rank(r, n)))]. *)
Definition node_rev_ltb (load : gmap N N) (r : RegionPlanInput) (a b : nat * N) : bool :=
  (load_of load a.2 <? load_of load b.2)
  || ((load_of load a.2 =? load_of load b.2) && (rank r b.2 <? rank r a.2)).

(** The least loaded candidate outside [set]. *)
Definition best_outside (load : gmap N N) (r : RegionPlanInput) (set : list N) : option N :=
  min_by (node_ltb load r) (List.filter (fun n => negb (bool_decide (n ∈ set))) (hrw r)).

(** [while set.len() < want]: each round adds one candidate or stops. *)
Fixpoint fill_set (load : gmap N N) (r : RegionPlanInput) (rounds : nat) (set : list N)
    : list N :=
  match rounds with
  | O => set
  | S rounds' =>
    match best_outside load r set with
    | Some n => fill_set load r rounds' (set ++ [n])
    | None => set
    end
  end.

Definition plan_order (rs : list RegionPlanInput) : list RegionPlanInput :=
  sort_by plan_weight_leb (List.filter (fun r => negb (bool_decide (hrw r = []))) rs).

Definition initial_load (order : list RegionPlanInput) : gmap N N :=
  fold_left (fun acc n => <[n := load_of acc n]> acc) (order ≫= hrw) ∅.

Definition plan_state : Type := gmap N N * gmap N (list N).

Definition initial_set (rf : nat) (load : gmap N N) (r : RegionPlanInput) : list N :=
  let want := Nat.min rf (length (hrw r)) in
  let kept := List.filter (fun n => bool_decide (n ∈ hrw r)) (current_peers r) in
  let set := take want (sort_by (node_leb load r) kept) in
  fill_set load r (want - length set) set.

Definition assign_set (rf : nat) (st : plan_state) (r : RegionPlanInput) : plan_state :=
  let '(load, sets) := st in
  let w := weight1 (rp_weight r) in
  let set := initial_set rf load r in
  (fold_left (fun acc n => add_load n w acc) set load, <[rp_region_id r := set]> sets).

(** One iteration of the copy-moving pass. *)
Definition move_copy (acc : plan_state * bool) (r : RegionPlanInput) : plan_state * bool :=
  let '((load, sets), moved) := acc in
  let w := weight1 (rp_weight r) in
  match sets !! rp_region_id r with
  | None => acc
  | Some set =>
    match max_by (node_rev_ltb load r) (enumerate set) with
    | None => acc
    | Some (i, from) =>
      match best_outside load r set with
      | None => acc
      | Some to =>
        if load_of load to + 2 * w <=? load_of load from
        then ((add_load to w (sub_load from w load),
               <[rp_region_id r := <[i := to]> set]> sets), true)
        else acc
      end
    end
  end.

Definition move_pass (order : list RegionPlanInput) (st : plan_state) : plan_state * bool :=
  fold_left move_copy order (st, false).

Definition rank_leb (r : RegionPlanInput) (a b : N) : bool := rank r a <=? rank r b.

(** [target] with [primary] moved to the front, when it is one of the peers:
    [target[..=i].rotate_right(1)]. *)
Definition with_primary_first (target : list N) (prim : option N) : list N :=
  match prim with
  | None => target
  | Some p =>
    match position (fun n => n =? p) target with
    | None => target
    | Some i => p :: take i target ++ drop (S i) target
    end
  end.

(** The total copy weight placed, which bounds the passes as for primaries. *)
Definition move_depth (rf : nat) (order : list RegionPlanInput) : nat :=
  let total := N.of_nat rf * fold_right (fun r acc => weight1 (rp_weight r) + acc) 0 order in
  N.to_nat (N.size (total * total)).

Definition plan_sets (order : list RegionPlanInput) (rf : nat) : plan_state * bool :=
  iter_until (move_pass order) (move_depth rf order)
    (fold_left (assign_set rf) order (initial_load order, ∅)).

Definition ranked_set (sets : gmap N (list N)) (r : RegionPlanInput) : list N :=
  sort_by (rank_leb r) (default [] (sets !! rp_region_id r)).

Definition plan_placement (rs : list RegionPlanInput) (rf : nat) (tolerance_pct : N)
    : gmap N (list N) :=
  let order := plan_order rs in
  let sets := (plan_sets order rf).1.2 in
  let primaries := balance_primaries
    ((fun r => mkPC (rp_region_id r) (current_primary r) (rp_weight r) (ranked_set sets r))
       <$> order) tolerance_pct in
  fold_left
    (fun acc r => <[rp_region_id r :=
                      with_primary_first (ranked_set sets r) (primaries !! rp_region_id r)]> acc)
    order ∅.

(** ** Convergence steps *)

Inductive PlacementStep :=
| Add (n : N)
| Remove (n : N)
| Promote (n : N).

Definition next_placement_step (region : ShardRegion) (target : list N) : option PlacementStep :=
  if transfer_outstanding region then None
  else match target with
  | [] => None
  | want_primary :: _ =>
    match find (fun t => negb (bool_decide (t ∈ peers region))) target with
    | Some missing => Some (Add missing)
    | None =>
      if existsb (fun t => bool_decide (t ∈ staging_peers region)) target then None
      else
        match find (fun p => negb (bool_decide (p ∈ target)) && negb (p =? primary region))
                (peers region) with
        | Some extra => Some (Remove extra)
        | None =>
          if negb (primary region =? want_primary) then Some (Promote want_primary)
          else
            match find (fun p => negb (bool_decide (p ∈ target))) (peers region) with
            | Some extra => Some (Remove extra)
            | None => None
            end
        end
    end
  end.

(** ** Priorities and pacing *)

Inductive MoveTier := RfViolation | Evacuation | Convergence.

#[export] Instance MoveTier_eq_dec : EqDecision MoveTier.
Proof. solve_decision. Defined.

Definition move_tier (region : ShardRegion) (rf : nat) (departing unhealthy : list N) : MoveTier :=
  let live := length (List.filter (fun p => negb (bool_decide (p ∈ unhealthy))) (peers region)) in
  if Nat.ltb live rf then RfViolation
  else if existsb (fun p => bool_decide (p ∈ departing)) (peers region) then Evacuation
  else Convergence.

Definition move_rate_bytes_per_sec (tier : MoveTier) (cap : N) (movers : nat) : N :=
  if negb (bool_decide (tier = Convergence)) || (cap =? 0) then 0
  else N.max (cap / N.of_nat (Nat.max movers 1)) 1.

(** ** Co-locating small neighbours *)

Definition colocate_step (merge_series : N) (acc : gmap N (list N) * option (N * N))
    (reg : N * option N) : gmap N (list N) * option (N * N) :=
  let '(plan, run) := acc in
  let '(id, series) := reg in
  match series with
  | Some series =>
    if series <? merge_series then
      match run with
      | Some (head, total) =>
        if wrapping_add total series <? merge_series then
          (match plan !! head with Some target => <[id := target]> plan | None => plan end,
           Some (head, wrapping_add total series))
        else (plan, Some (id, series))
      | None => (plan, Some (id, series))
      end
    else (plan, None)
  | None => (plan, None)
  end.

Definition colocate_small_neighbours (plan : gmap N (list N)) (rs : list (N * option N))
    (merge_series : N) : gmap N (list N) :=
  (fold_left (colocate_step merge_series) rs (plan, None)).1.
