(* ===== verification/PlacementHash.v ===== *)
(** * Rendezvous hashing: theorems on [placement_hash] and [target_placement]

    The SplitMix64 finaliser is a bijection of [u64], so two nodes never tie;
    the ranking is a function of the candidate set alone, picks the best
    scores, and is disturbed minimally when a node leaves. *)

From stdpp Require Import prelude list sorting gmap strings.
From S2P Require Import Prelude ShardTypes Placement.
From stdpp Require Import options.

#[local] Open Scope N_scope.

(** All candidates, best first: [target_placement] with [rf] unbounded. *)
Definition score (k : MeasurementKey) (st n : N) : N * N := (placement_hash k st n, n).

Definition ranking (k : MeasurementKey) (st : N) (cands : list N) : list N :=
  (sort_by score_leb (score k st <$> cands)).*2.

(** ** The mixer is injective *)

Lemma wrapping_add_lt a b : wrapping_add a b < two64.
Proof. apply N.mod_lt. done. Qed.

Lemma wrapping_mul_lt a b : wrapping_mul a b < two64.
Proof. apply N.mod_lt. done. Qed.

Lemma two64_pow : two64 = 2 ^ 64.
Proof. done. Qed.

Lemma lxor_shiftr_lt z k : z < two64 -> N.lxor z (N.shiftr z k) < two64.
Proof.
  intros Hz. rewrite two64_pow in *.
  destruct (N.eq_dec (N.lxor z (N.shiftr z k)) 0) as [-> | Hne]; [done|].
  apply N.log2_lt_pow2; [lia|].
  eapply N.le_lt_trans; [apply N.log2_lxor|].
  assert (Hlog : forall a, a < 2 ^ 64 -> N.log2 a < 64).
  { intros a Ha. destruct (N.eq_dec a 0) as [-> | Ha0]; [done|].
    apply N.log2_lt_pow2; [lia|done]. }
  apply N.max_lub_lt; apply Hlog; [done|].
  rewrite N.shiftr_div_pow2. eapply N.le_lt_trans; [|exact Hz].
  apply N.Div0.div_le_upper_bound. pose proof (N.pow_nonzero 2 k). nia.
Qed.

(** A value equal to its own shift by a positive amount is zero. *)
Lemma shiftr_fixed d k : 0 < k -> d = N.shiftr d k -> d = 0.
Proof.
  intros Hk Hd. rewrite N.shiftr_div_pow2 in Hd.
  destruct (N.eq_dec d 0) as [|Hne]; [done|].
  assert (1 < 2 ^ k) by (apply N.pow_gt_1; lia).
  pose proof (N.div_lt d (2 ^ k)). lia.
Qed.

Lemma xorshift_inj a b k :
  0 < k -> N.lxor a (N.shiftr a k) = N.lxor b (N.shiftr b k) -> a = b.
Proof.
  intros Hk H. apply N.lxor_eq. apply (shiftr_fixed _ k Hk).
  rewrite N.shiftr_lxor. apply N.lxor_eq.
  rewrite (N.lxor_assoc a b), <- (N.lxor_assoc b), (N.lxor_comm b (N.shiftr a k)).
  rewrite (N.lxor_assoc (N.shiftr a k)), <- (N.lxor_assoc a), H. apply N.lxor_nilpotent.
Qed.

(** Multiplication by an odd constant has an inverse modulo [2 ^ 64]. *)
Lemma wrapping_mul_inj c inv a b :
  (c * inv) mod two64 = 1 -> a < two64 -> b < two64 ->
  wrapping_mul a c = wrapping_mul b c -> a = b.
Proof.
  intros Hinv Ha Hb H. unfold wrapping_mul in H.
  assert (Hback : forall x, x < two64 -> ((x * c) mod two64 * inv) mod two64 = x).
  { intros x Hx. rewrite N.Div0.mul_mod_idemp_l, <- N.mul_assoc, <- N.Div0.mul_mod_idemp_r, Hinv.
    rewrite N.mul_1_r. by apply N.mod_small. }
  by rewrite <- (Hback a Ha), <- (Hback b Hb), H.
Qed.

Lemma wrapping_add_inj c a b :
  a < two64 -> b < two64 -> wrapping_add c a = wrapping_add c b -> a = b.
Proof.
  unfold wrapping_add. intros Ha Hb H.
  pose proof (N.div_mod (c + a) two64 ltac:(done)) as Ea.
  pose proof (N.div_mod (c + b) two64 ltac:(done)) as Eb.
  rewrite H in Ea. unfold two64 in *. lia.
Qed.

Lemma wrapping_add_comm a b : wrapping_add a b = wrapping_add b a.
Proof. unfold wrapping_add. by rewrite N.add_comm. Qed.

Lemma mix_lt z : mix z < two64.
Proof. apply lxor_shiftr_lt, wrapping_mul_lt. Qed.

Lemma mix_inj a b : a < two64 -> b < two64 -> mix a = mix b -> a = b.
Proof.
  intros Ha Hb H. unfold mix in H.
  apply xorshift_inj in H; [|done].
  apply (wrapping_mul_inj _ 0x319642b2d24d8ec3) in H;
    [|vm_compute; reflexivity|apply lxor_shiftr_lt, wrapping_mul_lt..].
  apply xorshift_inj in H; [|done].
  apply (wrapping_mul_inj _ 0x96de1b173f119089) in H;
    [|vm_compute; reflexivity|by apply lxor_shiftr_lt..].
  by apply xorshift_inj in H.
Qed.

(** ** Scores *)

Lemma mix_bytes_lt seed bs : seed < two64 -> mix_bytes seed bs < two64.
Proof.
  revert seed. induction bs as [|b bs IH]; intros seed Hs; [done|]. apply IH, mix_lt.
Qed.

Lemma placement_hash_lt k st n : placement_hash k st n < two64.
Proof. apply mix_lt. Qed.

Lemma hash_round_inj acc a b :
  a < two64 -> b < two64 ->
  mix (wrapping_add (wrapping_add acc a) GOLDEN) = mix (wrapping_add (wrapping_add acc b) GOLDEN) ->
  a = b.
Proof.
  intros Ha Hb H. apply mix_inj in H; [|apply wrapping_add_lt..].
  rewrite !(wrapping_add_comm _ GOLDEN) in H.
  apply wrapping_add_inj in H; [|apply wrapping_add_lt..].
  by apply wrapping_add_inj in H.
Qed.

Lemma hash_round_inj_seed x acc acc' :
  acc < two64 -> acc' < two64 ->
  mix (wrapping_add (wrapping_add acc x) GOLDEN) = mix (wrapping_add (wrapping_add acc' x) GOLDEN) ->
  acc = acc'.
Proof.
  intros Ha Hb H. apply hash_round_inj with (acc := x); [done..|].
  by rewrite !(wrapping_add_comm x).
Qed.

Lemma placement_hash_inj_start k st st' n :
  st < two64 -> st' < two64 -> placement_hash k st n = placement_hash k st' n -> st = st'.
Proof.
  intros Hn Hn'. unfold placement_hash.
  intros H%hash_round_inj_seed; [|apply mix_lt..]. by apply hash_round_inj in H.
Qed.

Lemma placement_hash_inj k st n n' :
  n < two64 -> n' < two64 -> placement_hash k st n = placement_hash k st n' -> n = n'.
Proof. intros Hn Hn'. unfold placement_hash. by apply hash_round_inj. Qed.

(** For one region, two different nodes never get the same placement
    score, and for one node, two regions of a measurement with different
    start points never do: the SplitMix64 rounds are injective on [u64], so
    the node-id tie break of [target_placement] never decides a placement. *)
Theorem placement_scores_distinct (k : MeasurementKey) (st st' n n' : N) :
  st < two64 -> st' < two64 -> n < two64 -> n' < two64 ->
  (placement_hash k st n = placement_hash k st n' -> n = n') /\
  (placement_hash k st n = placement_hash k st' n -> st = st').
Proof.
  intros Hst Hst' Hn Hn'. split; [by apply placement_hash_inj|by apply placement_hash_inj_start].
Qed.

#[local] Opaque placement_hash.

(** ** The ranking *)

Lemma score_leb_total a b : score_leb a b = true \/ score_leb b a = true.
Proof. unfold score_leb. rewrite !orb_true_iff, !andb_true_iff, !N.ltb_lt, !N.eqb_eq, !N.leb_le. lia. Qed.

Lemma score_leb_trans a b c :
  score_leb a b = true -> score_leb b c = true -> score_leb a c = true.
Proof. unfold score_leb. rewrite !orb_true_iff, !andb_true_iff, !N.ltb_lt, !N.eqb_eq, !N.leb_le. lia. Qed.

Lemma score_leb_hash a b : score_leb a b = true -> b.1 <= a.1.
Proof. unfold score_leb. rewrite orb_true_iff, andb_true_iff, N.ltb_lt, N.eqb_eq. lia. Qed.

Lemma score_leb_antisym a b : score_leb a b = true -> score_leb b a = true -> a = b.
Proof.
  unfold score_leb. rewrite !orb_true_iff, !andb_true_iff, !N.ltb_lt, !N.eqb_eq, !N.leb_le.
  destruct a, b; cbn. intros. f_equal; lia.
Qed.

Lemma target_ranking k st cands rf :
  target_placement k st cands rf = take rf (ranking k st cands).
Proof. unfold target_placement, ranking. by rewrite fmap_take. Qed.

Lemma ranking_Permutation k st cands : ranking k st cands ≡ₚ cands.
Proof.
  unfold ranking. rewrite sort_by_Permutation, <- list_fmap_compose.
  by rewrite (list_fmap_ext _ id), list_fmap_id by done.
Qed.

Lemma ranking_sorted k st cands :
  StronglySorted (fun a b => score_leb (score k st a) (score k st b) = true) (ranking k st cands).
Proof.
  unfold ranking.
  assert (Hs := sort_by_sorted score_leb score_leb_total score_leb_trans (score k st <$> cands)).
  assert (Hall : forall x, x ∈ sort_by score_leb (score k st <$> cands) -> x = score k st x.2).
  { intros x. rewrite sort_by_elem_of, list_elem_of_fmap. by intros [n [-> _]]. }
  induction Hs as [|x l Hl IH Hx]; cbn; [constructor|]. constructor.
  - apply IH. intros y Hy. apply Hall. by right.
  - rewrite Forall_fmap, Forall_forall in *. intros y Hy. cbn.
    rewrite <- (Hall x) by by left. rewrite <- (Hall y) by by right. by apply Hx.
Qed.

Lemma ranking_filter k st p cands :
  ranking k st (List.filter p cands) = List.filter p (ranking k st cands).
Proof.
  assert (Hf : forall l, List.filter p (l.*2) = (List.filter (fun x : N * N => p x.2) l).*2).
  { induction l as [|x l IH]; cbn; [done|]. destruct (p x.2); cbn; by rewrite IH. }
  assert (Hg : forall l, score k st <$> List.filter p l
                       = List.filter (fun x : N * N => p x.2) (score k st <$> l)).
  { induction l as [|x l IH]; cbn; [done|]. destruct (p x); cbn; by rewrite IH. }
  unfold ranking. rewrite Hf, Hg. f_equal.
  apply sort_by_filterb; [apply score_leb_total|apply score_leb_trans|apply score_leb_antisym].
Qed.

Lemma StronglySorted_app_cross {A} (R : A -> A -> Prop) l1 l2 x y :
  StronglySorted R (l1 ++ l2) -> x ∈ l1 -> y ∈ l2 -> R x y.
Proof.
  induction l1 as [|z l1 IH]; cbn; [by intros _ ?%elem_of_nil|].
  intros Hs%StronglySorted_inv. destruct Hs as [Hs Hz]. rewrite Forall_forall in Hz.
  intros [->|Hx]%elem_of_cons Hy; [apply Hz; rewrite elem_of_app; by right|by apply IH].
Qed.

(** The target is [min rf n] distinct candidates, and every candidate
    left out scores strictly below every one chosen. *)
Theorem target_placement_best (k : MeasurementKey) (st : N) (cands : list N) (rf : nat) :
  NoDup cands -> (forall n, n ∈ cands -> n < two64) ->
  let t := target_placement k st cands rf in
  NoDup t /\ t ⊆ cands /\ length t = Nat.min rf (length cands) /\
  (forall n m, n ∈ t -> m ∈ cands -> m ∉ t -> placement_hash k st m < placement_hash k st n).
Proof.
  intros Hnd H64. cbn zeta. rewrite target_ranking.
  pose proof (ranking_Permutation k st cands) as Hp.
  assert (Hr : NoDup (ranking k st cands)) by by rewrite Hp.
  split_and!.
  - apply (sublist_NoDup _ _ Hr (sublist_take _ _)).
  - intros n Hn%subseteq_take. by rewrite Hp in Hn.
  - by rewrite length_take, Hp.
  - intros n m Hn Hm Hout. pose proof (ranking_sorted k st cands) as Hs.
    rewrite <- Hp, <- (take_drop rf (ranking k st cands)), elem_of_app in Hm.
    destruct Hm as [|Hm]; [done|]. rewrite <- (take_drop rf (ranking k st cands)) in Hs.
    pose proof (StronglySorted_app_cross _ _ _ _ _ Hs Hn Hm) as Hle.
    assert (n <> m) by by intros ->.
    assert (Hne : placement_hash k st n <> placement_hash k st m).
    { intros He. apply placement_hash_inj in He; [done|apply H64; rewrite <- Hp..];
        [by eapply subseteq_take|by eapply subseteq_drop]. }
    apply score_leb_hash in Hle. unfold score, fst in Hle. lia.
Qed.

(** Every coordinator computes the same target: the result depends on the
    set of candidates and not on the order in which they are listed. *)
Theorem target_placement_order_free (k : MeasurementKey) (st : N) (cands cands' : list N)
    (rf : nat) :
  cands ≡ₚ cands' -> target_placement k st cands rf = target_placement k st cands' rf.
Proof.
  intros Hp. unfold target_placement. do 2 f_equal.
  apply sort_by_unique;
    [apply score_leb_total|apply score_leb_trans|apply score_leb_antisym|by rewrite Hp].
Qed.

(** Minimal disruption. When a node leaves the candidate set, the other
    members of the target keep their place and order, at most one new node is
    appended, and a region the node did not hold keeps exactly its target. *)
Theorem target_placement_minimal_disruption (k : MeasurementKey) (st x : N) (cands : list N)
    (rf : nat) :
  NoDup cands ->
  let t := target_placement k st cands rf in
  let t' := target_placement k st (List.filter (fun n => negb (n =? x)) cands) rf in
  (x ∉ t -> t' = t) /\
  (exists new, t' = List.filter (fun n => negb (n =? x)) t ++ new /\ (length new <= 1)%nat).
Proof.
  intros Hnd. cbn zeta. rewrite !target_ranking, ranking_filter.
  assert (Hr : NoDup (ranking k st cands)) by by rewrite ranking_Permutation.
  set (l := ranking k st cands) in *. clearbody l. clear Hnd cands.
  set (p := fun n => negb (n =? x)).
  assert (Hid : forall l', x ∉ l' -> List.filter p l' = l').
  { intros l' Hx. apply filterb_id. intros y Hy. unfold p.
    rewrite negb_true_iff, N.eqb_neq. by intros ->. }
  assert (Hcase : x ∉ take rf l -> take rf (List.filter p l) = take rf l).
  { intros Hx. rewrite <- (take_drop rf l) at 1. rewrite filterb_app, Hid by done.
    destruct (decide (length l <= rf)%nat) as [Hle|Hgt].
    - rewrite drop_ge, app_nil_r by done. by rewrite take_take, Nat.min_id.
    - rewrite take_app_le by (rewrite length_take; lia). by rewrite take_take, Nat.min_id. }
  split; [done|].
  destruct (decide (x ∈ take rf l)) as [Hx|Hx];
    [|exists []; rewrite app_nil_r, (Hid (take rf l)) by done; split; [by apply Hcase|cbn; lia]].
  rewrite <- (take_drop rf l) in Hr.
  apply list_elem_of_split in Hx as (l1 & l2 & Hl). rewrite Hl in Hr |- *.
  apply NoDup_app in Hr as (Hr & Hx & _).
  assert (Hd : x ∉ drop rf l) by (apply Hx; set_solver).
  assert (Hf : List.filter p (l1 ++ x :: l2) = l1 ++ l2).
  { rewrite filterb_app. cbn [List.filter]. unfold p at 2. rewrite N.eqb_refl. cbn [negb].
    apply NoDup_app in Hr as (_ & H1 & H2%NoDup_cons). rewrite !Hid; [done|apply H2|].
    intros Hin. by apply (H1 x Hin); left. }
  assert (Hlen : length (l1 ++ x :: l2) = Nat.min rf (length l)) by by rewrite <- Hl, length_take.
  rewrite length_app in Hlen. cbn in Hlen.
  assert (Hs : List.filter p l = (l1 ++ l2) ++ drop rf l).
  { rewrite <- (take_drop rf l) at 1. rewrite filterb_app, Hl, Hf. by rewrite (Hid (drop rf l)). }
  rewrite Hs, Hf.
  exists (take (rf - length (l1 ++ l2)) (drop rf l)). rewrite take_app. split.
  - f_equal. apply take_ge. rewrite length_app. lia.
  - rewrite length_take, length_drop, length_app. lia.
Qed.

(** ** Witnesses *)

#[local] Transparent placement_hash.

Definition hash_key : MeasurementKey := mkKey "telemetry" "autogen" "cpu".

Definition five_nodes : list N := [1; 2; 3; 4; 5].

Lemma five_nodes_NoDup : NoDup five_nodes.
Proof. repeat (constructor; [set_solver|]). constructor. Qed.

Lemma placement_scores_distinct_witness :
  (placement_hash hash_key 0 1 = placement_hash hash_key 0 2 -> 1 = 2) /\
  (placement_hash hash_key 0 1 = placement_hash hash_key 4096 1 -> 0 = 4096).
Proof. apply (placement_scores_distinct hash_key 0 4096 1 2); done. Defined.

Lemma target_placement_best_witness :
  length (target_placement hash_key 0 five_nodes 3) = 3%nat.
Proof.
  apply (target_placement_best hash_key 0 five_nodes 3).
  - exact five_nodes_NoDup.
  - intros n. unfold five_nodes. rewrite !elem_of_cons, elem_of_nil. unfold two64. lia.
Defined.

Lemma target_placement_order_free_witness :
  target_placement hash_key 0 [1; 2; 3] 2 = target_placement hash_key 0 [2; 1; 3] 2.
Proof. apply (target_placement_order_free hash_key 0 [1; 2; 3] [2; 1; 3] 2), Permutation_swap. Defined.

Lemma target_placement_minimal_disruption_witness :
  (3 ∉ target_placement hash_key 0 five_nodes 2) /\
  target_placement hash_key 0 (List.filter (fun n => negb (n =? 3)) five_nodes) 2
  = target_placement hash_key 0 five_nodes 2.
Proof.
  assert (H : 3 ∉ target_placement hash_key 0 five_nodes 2)
    by (apply (bool_decide_unpack _); vm_compute; exact I).
  split; [done|]. apply (target_placement_minimal_disruption hash_key 0 3 five_nodes 2); [|done].
  exact five_nodes_NoDup.
Defined.
