(* ===== verification/PlacementBalance.v ===== *)
(** * Balancing primaries: theorems on [balance_primaries]

    The improvement loop stops (every move lowers the sum of squared loads),
    every region gets a primary among its peers, no single hand-over lowers
    the busier of two nodes, and a layout that is within tolerance and has no
    such hand-over is left alone. *)

From stdpp Require Import prelude list sorting gmap fin_maps.
From S2P Require Import Prelude ShardTypes Placement.
From stdpp Require Import options.

#[local] Open Scope N_scope.

(** ** Sums over the load table *)

Definition map_sum (f : N -> N) (m : gmap N N) : N := map_fold (fun _ v acc => f v + acc) 0 m.

Definition square (x : N) : N := x * x.

(** The load [out] puts on node [n]. *)
Fixpoint primary_load (rs : list PrimaryCandidate) (out : gmap N N) (n : N) : N :=
  match rs with
  | [] => 0
  | r :: rs' =>
    (if bool_decide (out !! pc_region_id r = Some n) then weight1 (pc_weight r) else 0)
    + primary_load rs' out n
  end.

(** The load of the layout as it stands. *)
Fixpoint current_load (rs : list PrimaryCandidate) (n : N) : N :=
  match rs with
  | [] => 0
  | r :: rs' =>
    (if pc_current r =? n then weight1 (pc_weight r) else 0) + current_load rs' n
  end.

Definition distinct_ids (rs : list PrimaryCandidate) : Prop := NoDup (pc_region_id <$> rs).

(** A layout in which every primary is a peer and every node's primary load
    is within [tol] percent of its fair share. *)
Definition within_tolerance (rs : list PrimaryCandidate) (tol : N) : Prop :=
  (forall r, r ∈ rs -> pc_current r ∈ pc_peers r) /\
  (forall n, current_load rs n * (100 * N.of_nat (size (peer_nodes rs)))
             <= total_weight rs * wrapping_add 100 tol).

(** No hand-over to another peer lowers the busier of the two nodes. *)
Definition no_gain (rs : list PrimaryCandidate) : Prop :=
  forall r q, r ∈ rs -> q ∈ pc_peers r -> q <> pc_current r ->
    current_load rs (pc_current r) <= current_load rs q + weight1 (pc_weight r).

Lemma map_sum_insert_new f m k v :
  m !! k = None -> map_sum f (<[k := v]> m) = f v + map_sum f m.
Proof. intros H. unfold map_sum. rewrite map_fold_insert_L; [done|lia|done]. Qed.

Lemma map_sum_update f m k v :
  f 0 = 0 -> map_sum f (<[k := v]> m) + f (load_of m k) = map_sum f m + f v.
Proof.
  intros H0. unfold load_of. destruct (m !! k) as [v0|] eqn:E; cbn.
  - rewrite <- (insert_delete_id m k v0) at 2 by done.
    rewrite <- (insert_delete_eq m k v).
    rewrite !map_sum_insert_new by apply lookup_delete_eq. lia.
  - rewrite map_sum_insert_new by done. lia.
Qed.

Lemma map_sum_square_le m : map_sum square m <= square (map_sum id m).
Proof.
  induction m as [|k v m Hk IH] using map_ind; [done|].
  rewrite !map_sum_insert_new by done. unfold square, id in *. nia.
Qed.

Lemma load_of_insert m k v n : load_of (<[k := v]> m) n = if k =? n then v else load_of m n.
Proof.
  unfold load_of. destruct (N.eqb_spec k n) as [->|Hne].
  - by rewrite lookup_insert_eq.
  - by rewrite lookup_insert_ne.
Qed.

Lemma weight1_pos w : 0 < weight1 w.
Proof. unfold weight1. lia. Qed.

(** Moving weight [w] to a node that stays below the source's old load. *)
Lemma move_squares load from to w :
  from <> to -> 0 < w -> load_of load to + w < load_of load from ->
  map_sum square (add_load to w (sub_load from w load)) < map_sum square load.
Proof.
  intros Hne Hw Hlt. unfold add_load, sub_load.
  rewrite load_of_insert. rewrite (proj2 (N.eqb_neq from to)) by done.
  pose proof (map_sum_update square load from (load_of load from - w) eq_refl) as H1.
  pose proof (map_sum_update square (<[from := load_of load from - w]> load) to
                (load_of load to + w) eq_refl) as H2.
  rewrite load_of_insert, (proj2 (N.eqb_neq from to)) in H2 by done.
  unfold square at 2 4 in H1. unfold square at 2 4 in H2.
  set (f := load_of load from) in *. set (t := load_of load to) in *.
  assert (exists d, f = t + w + d /\ 0 < d) as (d & Hf & Hd) by (exists (f - t - w); lia).
  rewrite Hf in *. replace (t + w + d - w) with (t + d) in * by lia. nia.
Qed.

Lemma enumerate_lookup {A} (l : list A) i x : (i, x) ∈ enumerate l -> l !! i = Some x.
Proof.
  unfold enumerate. intros H%list_elem_of_lookup. destruct H as [j H].
  rewrite list_lookup_imap in H. destruct (l !! j) eqn:E; cbn in H; by simplify_eq.
Qed.

Lemma enumerate_nil {A} (l : list A) : enumerate l = [] -> l = [].
Proof. by destruct l. Qed.

Lemma least_loaded_elem load ps : ps <> [] -> least_loaded load ps ∈ ps.
Proof.
  intros Hne. unfold least_loaded. destruct (min_by _ _) as [[i n]|] eqn:E.
  - apply min_by_elem_of, enumerate_lookup in E. by eapply list_elem_of_lookup_2.
  - by apply min_by_None, enumerate_nil in E.
Qed.

Lemma index_by_id_collect l : index_by_id l = collect_from pc_region_id id ∅ l.
Proof. done. Qed.

Lemma index_by_id_lookup l id r :
  index_by_id l !! id = Some r -> r ∈ l /\ pc_region_id r = id.
Proof.
  rewrite index_by_id_collect. intros [(x & Hx & Hf & <-)|H]%collect_Some; [done|].
  by rewrite lookup_empty in H.
Qed.

Lemma index_by_id_elem l r :
  distinct_ids l -> r ∈ l -> index_by_id l !! pc_region_id r = Some r.
Proof. rewrite index_by_id_collect. apply collect_elem. Qed.

Lemma total_weight_cons r l : total_weight (r :: l) = weight1 (pc_weight r) + total_weight l.
Proof. done. Qed.

(** ** The invariant of both loops *)

Section Balance.
Context (rs : list PrimaryCandidate) (ids_nodup : distinct_ids rs).

(** The load table agrees with the assignment, and primaries are peers. *)
Definition balance_inv (st : balance_state) : Prop :=
  (forall n, load_of st.1 n = primary_load rs st.2 n) /\
  (forall r p, r ∈ rs -> st.2 !! pc_region_id r = Some p -> p ∈ pc_peers r).

(** The regions that have a primary. *)
Definition assigned (done : list PrimaryCandidate) (st : balance_state) : Prop :=
  forall id, is_Some (st.2 !! id) <-> id ∈ pc_region_id <$> done.

Lemma primary_load_other l out id p n :
  id ∉ pc_region_id <$> l -> primary_load l (<[id := p]> out) n = primary_load l out n.
Proof.
  induction l as [|r l IH]; cbn; [done|].
  intros [Hr Hl]%not_elem_of_cons. rewrite IH, lookup_insert_ne by done. done.
Qed.

Lemma primary_load_assign r out p n :
  r ∈ rs ->
  primary_load rs (<[pc_region_id r := p]> out) n
  + (if bool_decide (out !! pc_region_id r = Some n) then weight1 (pc_weight r) else 0)
  = primary_load rs out n + (if p =? n then weight1 (pc_weight r) else 0).
Proof using ids_nodup.
  unfold distinct_ids in ids_nodup. induction rs as [|x l IH]; [by intros ?%elem_of_nil|].
  cbn in ids_nodup. apply NoDup_cons in ids_nodup as [Hx Hl].
  intros [->|Hr]%elem_of_cons; cbn [primary_load].
  - rewrite primary_load_other, lookup_insert_eq by done.
    destruct (N.eqb_spec p n) as [->|Hne]; [rewrite bool_decide_true by done; lia|].
    rewrite (bool_decide_false (Some p = Some n)) by congruence. lia.
  - assert (pc_region_id r <> pc_region_id x).
    { intros He. apply Hx. rewrite <- He. by apply list_elem_of_fmap_2. }
    rewrite lookup_insert_ne by done. specialize (IH Hl Hr). lia.
Qed.

Lemma same_region r r' :
  r ∈ rs -> r' ∈ rs -> pc_region_id r = pc_region_id r' -> r = r'.
Proof using ids_nodup.
  intros Hr Hr' He. by apply (NoDup_fmap_eq pc_region_id rs).
Qed.

Lemma assign_primary_step cn cd st r :
  exists p, assign_primary cn cd st r
            = (add_load p (weight1 (pc_weight r)) st.1, <[pc_region_id r := p]> st.2) /\
            (pc_peers r <> [] -> p ∈ pc_peers r).
Proof.
  destruct st as [load out]. unfold assign_primary. eexists. split; [done|].
  intros Hne. destruct (_ && _) eqn:E; [|by apply least_loaded_elem].
  apply andb_true_iff in E as [E _]. by apply bool_decide_eq_true in E.
Qed.

Lemma assign_inv load out r p :
  balance_inv (load, out) -> r ∈ rs -> p ∈ pc_peers r -> out !! pc_region_id r = None ->
  balance_inv (add_load p (weight1 (pc_weight r)) load, <[pc_region_id r := p]> out).
Proof using ids_nodup.
  intros [Hload Hp] Hr Hpr Hnone. cbn in *. split; cbn.
  - intros n. unfold add_load. rewrite load_of_insert.
    pose proof (primary_load_assign r out p n Hr) as H. rewrite Hnone, bool_decide_false in H by done. revert H.
    destruct (N.eqb_spec p n) as [->|]; rewrite Hload; lia.
  - intros r' p' Hr'. rewrite lookup_insert_Some. intros [[He <-]|[_ H]]; [|by eapply Hp].
    by rewrite (same_region _ _ Hr' Hr).
Qed.

Lemma greedy_fold cn cd l st prev :
  balance_inv st -> assigned prev st -> NoDup (pc_region_id <$> (prev ++ l)) ->
  (forall r, r ∈ l -> r ∈ rs /\ pc_peers r <> []) ->
  let st' := fold_left (assign_primary cn cd) l st in
  balance_inv st' /\ assigned (prev ++ l) st'.
Proof using ids_nodup.
  revert st prev. induction l as [|r l IH]; intros st prev Hinv Has Hnd Hl; cbn [fold_left].
  { by rewrite app_nil_r. }
  destruct (Hl r) as [Hr Hne]; [by left|].
  destruct (assign_primary_step cn cd st r) as (p & E & Hp). rewrite E.
  destruct (IH (add_load p (weight1 (pc_weight r)) st.1, <[pc_region_id r := p]> st.2)
              (prev ++ [r])) as [H1 H2].
  - destruct st as [load out]. apply assign_inv; [done..|by apply Hp|].
    apply eq_None_not_Some. rewrite (Has (pc_region_id r)). rewrite fmap_app in Hnd.
    apply NoDup_app in Hnd as (_ & Hd & _). intros Hin. apply (Hd _ Hin). cbn. by left.
  - intros id. cbn. rewrite lookup_insert_is_Some', fmap_app, elem_of_app.
    rewrite (Has id). cbn. rewrite list_elem_of_singleton. naive_solver.
  - by rewrite <- app_assoc.
  - intros r' Hr'. apply Hl. by right.
  - rewrite <- app_assoc in H2. by split.
Qed.

Lemma improve_inv load out r from to :
  balance_inv (load, out) -> r ∈ rs -> out !! pc_region_id r = Some from -> to ∈ pc_peers r ->
  from <> to -> weight1 (pc_weight r) <= load_of load from ->
  balance_inv (add_load to (weight1 (pc_weight r)) (sub_load from (weight1 (pc_weight r)) load),
               <[pc_region_id r := to]> out).
Proof using ids_nodup.
  intros [Hload Hp] Hr Hfrom Hto Hne Hw. cbn in *. split; cbn.
  - intros n. unfold add_load, sub_load. rewrite !load_of_insert.
    pose proof (primary_load_assign r out to n Hr) as H. rewrite Hfrom in H.
    rewrite (bool_decide_ext (Some from = Some n) (from = n)) in H by naive_solver.
    rewrite Hload in Hw. rewrite !Hload. revert H.
    destruct (N.eqb_spec to n) as [->|], (N.eqb_spec from n) as [->|];
      try done; rewrite ?bool_decide_true, ?bool_decide_false by done.
    all: lia.
  - intros r' p' Hr'. rewrite lookup_insert_Some. intros [[He <-]|[_ H]]; [|by eapply Hp].
    by rewrite (same_region _ _ Hr' Hr).
Qed.
End Balance.

(** ** Steps of the improvement pass *)

Lemma load_ltb_min load ps m :
  min_by (load_ltb load) ps = Some m -> m ∈ ps /\ forall q, q ∈ ps -> load_of load m <= load_of load q.
Proof.
  intros H. apply min_by_Some in H as [Hm Hle].
  - split; [done|]. intros q Hq. specialize (Hle q Hq). unfold load_ltb in Hle.
    by apply N.ltb_ge in Hle.
  - unfold load_ltb. intros x y z. rewrite !N.ltb_lt. lia.
  - intros x. apply N.ltb_irrefl.
  - unfold load_ltb. intros x y z. rewrite !N.ltb_lt, N.ltb_ge. lia.
Qed.

Lemma improve_one_cases by_id load out b id :
  improve_one by_id ((load, out), b) id = ((load, out), b) \/
  exists r from to, by_id !! id = Some r /\ out !! id = Some from /\
    to ∈ pc_peers r /\ from <> to /\
    load_of load to + weight1 (pc_weight r) < load_of load from /\
    improve_one by_id ((load, out), b) id
    = ((add_load to (weight1 (pc_weight r)) (sub_load from (weight1 (pc_weight r)) load),
        <[id := to]> out), true).
Proof.
  unfold improve_one. destruct (by_id !! id) as [r|]; [|by left].
  destruct (out !! id) as [from|]; [|by left].
  destruct (min_by _ _) as [to|] eqn:E; [|by left].
  destruct (_ <? _) eqn:L; [|by left]. right. exists r, from, to.
  apply min_by_elem_of, filterb_elem_of in E as [Hto Hne].
  rewrite negb_true_iff, N.eqb_neq in Hne. apply N.ltb_lt in L. split_and!; auto.
Qed.

(** A region that stays put has no better peer. *)
Lemma improve_one_stuck by_id load out id r from q :
  improve_one by_id ((load, out), false) id = ((load, out), false) ->
  by_id !! id = Some r -> out !! id = Some from -> q ∈ pc_peers r -> q <> from ->
  load_of load from <= load_of load q + weight1 (pc_weight r).
Proof.
  intros H Hr Hfrom Hq Hne. unfold improve_one in H. rewrite Hr, Hfrom in H.
  assert (Hin : q ∈ List.filter (fun p => negb (p =? from)) (pc_peers r)).
  { apply filterb_elem_of. split; [done|]. by rewrite negb_true_iff, N.eqb_neq. }
  destruct (min_by _ _) as [to|] eqn:E.
  - apply load_ltb_min in E as [_ Hle]. specialize (Hle q Hin).
    destruct (_ <? _) eqn:L; [done|]. apply N.ltb_ge in L. lia.
  - apply min_by_None in E. rewrite E in Hin. by apply elem_of_nil in Hin.
Qed.

Lemma improve_one_stays by_id load out b id r from :
  by_id !! id = Some r -> out !! id = Some from ->
  (forall q, q ∈ pc_peers r -> q <> from ->
     load_of load from <= load_of load q + weight1 (pc_weight r)) ->
  improve_one by_id ((load, out), b) id = ((load, out), b).
Proof.
  intros Hr Hfrom Hq.
  destruct (improve_one_cases by_id load out b id)
    as [|(r' & from' & to & Hr' & Hf' & Hto & Hne & Hlt & _)]; [done|].
  simplify_eq. specialize (Hq to Hto ltac:(done)). lia.
Qed.

Lemma improve_one_measure by_id st b id :
  improve_one by_id (st, b) id = (st, b) \/
  exists st', improve_one by_id (st, b) id = (st', true) /\ True /\
    map_sum square st'.1 < map_sum square st.1.
Proof.
  destruct st as [load out]. destruct (improve_one_cases by_id load out b id)
    as [E|(r & from & to & _ & _ & _ & Hne & Hlt & E)]; [by left|right].
  eexists. split; [exact E|]. split; [done|]. apply move_squares; [done|apply weight1_pos|done].
Qed.

Lemma greedy_sum cn cd l st :
  map_sum id (fold_left (assign_primary cn cd) l st).1 = map_sum id st.1 + total_weight l.
Proof.
  revert st. induction l as [|r l IH]; intros st; cbn [fold_left].
  { change (total_weight []) with 0. lia. }
  destruct (assign_primary_step cn cd st r) as (p & E & _). rewrite IH, E, total_weight_cons.
  pose proof (map_sum_update id st.1 p (load_of st.1 p + weight1 (pc_weight r)) eq_refl) as H.
  unfold add_load, id, fst in *. lia.
Qed.

Lemma total_weight_Permutation l l' : l ≡ₚ l' -> total_weight l = total_weight l'.
Proof.
  induction 1 as [|x l l' _ IH|x y l|l1 l2 l3 _ IH1 _ IH2]; [done|..].
  - by rewrite !total_weight_cons, IH.
  - rewrite !total_weight_cons. lia.
  - by rewrite IH1.
Qed.

Lemma total_weight_filter p l : total_weight (List.filter p l) <= total_weight l.
Proof.
  induction l as [|r l IH]; [done|]. cbn [List.filter]. rewrite total_weight_cons.
  destruct (p r); rewrite ?total_weight_cons; lia.
Qed.

(** The measure of the loop starts below its bound. *)
Lemma greedy_measure rs tol :
  map_sum square (greedy rs tol).1 < 2 ^ N.of_nat (improve_depth rs).
Proof.
  unfold greedy, improve_depth. rewrite N2Nat.id.
  eapply N.le_lt_trans; [apply map_sum_square_le|]. rewrite greedy_sum.
  change (map_sum id ∅) with 0. unfold greedy_order.
  rewrite (total_weight_Permutation _ _ (sort_by_Permutation _ _)).
  pose proof (total_weight_filter (fun r => negb (bool_decide (pc_peers r = []))) rs).
  pose proof (N.size_gt (total_weight rs * total_weight rs)).
  cbn [fst]. change (map_sum id ∅) with 0. rewrite N.add_0_l.
  eapply N.le_lt_trans; [apply N.mul_le_mono|]; done.
Qed.

(** ** Correctness of the whole routine *)

Lemma greedy_order_elem rs r : r ∈ greedy_order rs <-> r ∈ rs /\ pc_peers r <> [].
Proof.
  unfold greedy_order.
  by rewrite sort_by_elem_of, filterb_elem_of, negb_true_iff, bool_decide_eq_false.
Qed.

Lemma greedy_order_ids rs : distinct_ids rs -> distinct_ids (greedy_order rs).
Proof.
  unfold distinct_ids, greedy_order. rewrite sort_by_Permutation. generalize rs. clear rs.
  induction rs as [|r rs IH]; cbn; [done|]. intros [Hr Hrs]%NoDup_cons.
  destruct (negb _); [|by apply IH]. cbn. constructor; [|by apply IH].
  rewrite list_elem_of_fmap. intros (x & He & [Hx _]%filterb_elem_of). apply Hr. rewrite He.
  by apply list_elem_of_fmap_2.
Qed.

Lemma empty_inv rs : balance_inv rs (∅, ∅).
Proof.
  split; cbn; [|by intros r p _]. intros n.
  induction rs as [|r rs IH]; [done|]. cbn [primary_load]. by rewrite <- IH.
Qed.

Lemma empty_assigned : assigned [] (∅, ∅).
Proof.
  intros id. cbn. rewrite lookup_empty. split; [by intros [? ?]|by intros ?%elem_of_nil].
Qed.

Lemma greedy_spec rs tol :
  distinct_ids rs ->
  balance_inv rs (greedy rs tol) /\ assigned (greedy_order rs) (greedy rs tol).
Proof.
  intros Hnd. unfold greedy.
  apply (greedy_fold rs Hnd _ _ _ _ []).
  - apply empty_inv.
  - apply empty_assigned.
  - by apply greedy_order_ids.
  - intros r. by rewrite greedy_order_elem.
Qed.

Lemma improve_one_spec rs dn st b id :
  distinct_ids rs -> balance_inv rs st /\ assigned dn st ->
  improve_one (index_by_id rs) (st, b) id = (st, b) \/
  exists st', improve_one (index_by_id rs) (st, b) id = (st', true) /\
    (balance_inv rs st' /\ assigned dn st') /\ map_sum square st'.1 < map_sum square st.1.
Proof.
  intros Hnd [Hinv Has]. destruct st as [load out].
  destruct (improve_one_cases (index_by_id rs) load out b id)
    as [E|(r & from & to & Hr & Hf & Hto & Hne & Hlt & E)]; [by left|right].
  apply index_by_id_lookup in Hr as [Hr <-]. eexists. split; [exact E|]. split; [split|].
  - eapply improve_inv; eauto. lia.
  - intros id. cbn. rewrite <- (Has id). cbn. rewrite lookup_insert_is_Some'.
    split; [|by right]. by intros [<-|]; [rewrite Hf|].
  - apply move_squares; [done|apply weight1_pos|done].
Qed.

Lemma improve_spec rs tol :
  distinct_ids rs ->
  exists st, improve rs (greedy rs tol) = (st, false) /\
    balance_inv rs st /\ assigned (greedy_order rs) st /\
    (forall id, id ∈ sort_ids (map_to_list (greedy rs tol).2).*1 ->
       improve_one (index_by_id rs) (st, false) id = (st, false)).
Proof.
  intros Hnd. unfold improve.
  destruct (local_search_spec (improve_one (index_by_id rs))
    (fun st => balance_inv rs st /\ assigned (greedy_order rs) st) (fun st => map_sum square st.1)
    (fun _ => True))
    with (l := sort_ids (map_to_list (greedy rs tol).2).*1) (depth := improve_depth rs)
         (s := greedy rs tol) as (st & E & [H1 H2] & H3).
  - intros s b a _. by apply improve_one_spec.
  - done.
  - by apply greedy_spec.
  - apply greedy_measure.
  - by exists st.
Qed.

Lemma peer_nodes_empty rs r : peer_nodes rs = ∅ -> r ∈ rs -> pc_peers r = [].
Proof.
  intros He Hr. destruct (pc_peers r) as [|p l] eqn:Ep; [done|].
  assert (Hp : p ∈ peer_nodes rs); [|rewrite He in Hp; by apply elem_of_empty in Hp].
  unfold peer_nodes. apply elem_of_list_to_set, list_elem_of_bind. exists r.
  split; [rewrite Ep; by left|done].
Qed.

Lemma primary_load_le rs out n :
  (forall r p, r ∈ rs -> out !! pc_region_id r = Some p -> p = pc_current r) ->
  primary_load rs out n <= current_load rs n.
Proof.
  induction rs as [|r rs IH]; intros H; cbn [primary_load current_load]; [done|].
  assert (IH' := IH ltac:(intros r' p Hr'; apply H; by right)).
  case_bool_decide as E; [|lia]. rewrite <- (H r n ltac:(by left) E), N.eqb_refl. lia.
Qed.

Lemma primary_load_eq rs out n :
  (forall r, r ∈ rs -> out !! pc_region_id r = Some (pc_current r)) ->
  primary_load rs out n = current_load rs n.
Proof.
  induction rs as [|r rs IH]; intros H; cbn [primary_load current_load]; [done|].
  rewrite IH by (intros r' Hr'; apply H; by right). rewrite (H r) by by left.
  destruct (N.eqb_spec (pc_current r) n) as [->|]; [by rewrite bool_decide_true|].
  by rewrite bool_decide_false by congruence.
Qed.

(** Within tolerance, the greedy loop keeps every current primary. *)
Lemma greedy_keeps rs tol l st prev :
  distinct_ids rs -> within_tolerance rs tol ->
  balance_inv rs st -> assigned prev st -> NoDup (pc_region_id <$> (prev ++ l)) ->
  (forall r, r ∈ l -> r ∈ rs) ->
  (forall r p, r ∈ rs -> st.2 !! pc_region_id r = Some p -> p = pc_current r) ->
  let cn := total_weight rs * wrapping_add 100 tol in
  let cd := 100 * N.of_nat (size (peer_nodes rs)) in
  forall r p, r ∈ rs -> (fold_left (assign_primary cn cd) l st).2 !! pc_region_id r = Some p ->
    p = pc_current r.
Proof.
  intros Hnd [Hcur Hcap] Hinv Has Hl Hsub Hkeep cn cd. revert st prev Hinv Has Hl Hkeep.
  induction l as [|r l IH]; intros st prev Hinv Has Hl Hkeep; cbn [fold_left]; [done|].
  destruct st as [load out].
  assert (Hr : r ∈ rs) by (apply Hsub; by left).
  assert (Hnone : out !! pc_region_id r = None).
  { apply eq_None_not_Some. rewrite (Has (pc_region_id r)). rewrite fmap_app in Hl.
    apply NoDup_app in Hl as (_ & Hd & _). intros Hin. apply (Hd _ Hin). cbn. by left. }
  set (w := weight1 (pc_weight r)). set (st' := (add_load (pc_current r) w load,
                                                <[pc_region_id r := pc_current r]> out)).
  assert (Hkeep' : forall r' p, r' ∈ rs -> st'.2 !! pc_region_id r' = Some p -> p = pc_current r').
  { intros r' p Hr'. cbn. rewrite lookup_insert_Some. intros [[He <-]|[_ H]]; [|by eapply Hkeep].
    by rewrite (same_region rs Hnd _ _ Hr' Hr). }
  assert (Hinv' : balance_inv rs st') by (apply assign_inv; auto).
  assert (Hw : load_of load (pc_current r) + w <= current_load rs (pc_current r)).
  { eapply N.le_trans; [|by apply (primary_load_le rs st'.2)]. cbn.
    pose proof (primary_load_assign rs Hnd r out (pc_current r) (pc_current r) Hr) as H.
    rewrite Hnone, N.eqb_refl, bool_decide_false in H by done.
    destruct Hinv as [Hload _]. cbn in Hload. rewrite Hload. fold w in H. lia. }
  assert (Hstep : assign_primary cn cd (load, out) r = st').
  { unfold assign_primary. fold w.
    assert (Hwithin : ((load_of load (pc_current r) + w) * cd <=? cn) = true).
    { apply N.leb_le. etrans; [|apply (Hcap (pc_current r))]. by apply N.mul_le_mono_r. }
    rewrite Hwithin, bool_decide_true by auto. done. }
  rewrite Hstep. apply (IH ltac:(intros; apply Hsub; by right) st' (prev ++ [r])); [done| | |done].
  - intros id. cbn. rewrite lookup_insert_is_Some', fmap_app, elem_of_app.
    rewrite (Has id). cbn. rewrite list_elem_of_singleton. naive_solver.
  - by rewrite <- app_assoc.
Qed.

(** The improvement loop of [balance_primaries] stops on every input, and
    the result is the state in which it stops: each hand-over strictly lowers
    the sum of the squared primary loads. *)
Theorem balance_primaries_terminates (rs : list PrimaryCandidate) (tol : N) :
  let ids := sort_ids (map_to_list (greedy rs tol).2).*1 in
  exists st, loop_ends (improve_pass (index_by_id rs) ids) (greedy rs tol) st /\
    balance_primaries rs tol = if bool_decide (peer_nodes rs = ∅) then ∅ else st.2.
Proof.
  cbn zeta. destruct (local_search_spec (improve_one (index_by_id rs)) (fun _ => True)
    (fun st => map_sum square st.1) (fun _ => True)) with (l := sort_ids (map_to_list (greedy rs tol).2).*1)
    (depth := improve_depth rs) (s := greedy rs tol) as (st & E & _).
  - intros s b a _ _. apply improve_one_measure.
  - done.
  - done.
  - apply greedy_measure.
  - exists st. split; [by eapply iter_until_loop|].
    unfold balance_primaries, improve, improve_pass. by rewrite E.
Qed.

Lemma balance_spec (rs : list PrimaryCandidate) (tol : N) :
  distinct_ids rs ->
  let out := balance_primaries rs tol in
  (forall id, is_Some (out !! id) <-> exists r, r ∈ rs /\ pc_region_id r = id /\ pc_peers r <> []) /\
  (forall r p, r ∈ rs -> out !! pc_region_id r = Some p ->
     p ∈ pc_peers r /\
     forall q, q ∈ pc_peers r -> q <> p ->
       primary_load rs out p <= primary_load rs out q + weight1 (pc_weight r)).
Proof.
  intros Hnd. cbn zeta. unfold balance_primaries. case_bool_decide as Hempty.
  { split.
    - intros id. rewrite lookup_empty. split; [by intros []|].
      intros (r & Hr & _ & Hne). by rewrite (peer_nodes_empty rs r) in Hne.
    - intros r p _. by rewrite lookup_empty. }
  destruct (improve_spec rs tol Hnd) as ([load out] & -> & [Hload Hp] & Has & Hst). cbn in *.
  split.
  - intros id. rewrite (Has id), list_elem_of_fmap. cbn.
    split; intros (r & H); exists r; rewrite greedy_order_elem in *; naive_solver.
  - intros r p Hr Hout. split; [by eapply Hp|]. intros q Hq Hne. rewrite <- !Hload.
    eapply improve_one_stuck; [|by apply index_by_id_elem|done..]. apply Hst.
    unfold sort_ids. rewrite sort_by_elem_of, list_elem_of_fmap.
    destruct (greedy_spec rs tol Hnd) as [_ Hg].
    destruct (proj2 (Hg (pc_region_id r))) as [p0 Hp0].
    { by rewrite <- (Has (pc_region_id r)); cbn; rewrite Hout. }
    exists (pc_region_id r, p0). split; [done|]. by apply elem_of_map_to_list.
Qed.

(** C0: [balance_primaries] gives a primary to exactly the regions that have
    peers, always one of those peers, and the assignment is locally optimal:
    handing any region to another of its peers would not leave the busier of
    the two nodes with less primary load. *)
Theorem balance_primaries_correct (rs : list PrimaryCandidate) (tol : N) :
  distinct_ids rs ->
  let out := balance_primaries rs tol in
  (forall id, is_Some (out !! id) <-> exists r, r ∈ rs /\ pc_region_id r = id /\ pc_peers r <> []) /\
  (forall r p, r ∈ rs -> out !! pc_region_id r = Some p ->
     p ∈ pc_peers r /\
     forall q, q ∈ pc_peers r -> q <> p ->
       primary_load rs out p <= primary_load rs out q + weight1 (pc_weight r)).
Proof. apply balance_spec. Qed.

(** Nothing flaps: a layout within the tolerance in which no hand-over
    gains anything is returned unchanged. *)
Theorem balance_primaries_steady (rs : list PrimaryCandidate) (tol : N) :
  distinct_ids rs -> within_tolerance rs tol -> no_gain rs ->
  forall r, r ∈ rs -> balance_primaries rs tol !! pc_region_id r = Some (pc_current r).
Proof.
  intros Hnd Htol Hgain.
  destruct (greedy_spec rs tol Hnd) as [[Hload Hp] Has].
  assert (Hg : forall r, r ∈ rs -> (greedy rs tol).2 !! pc_region_id r = Some (pc_current r)).
  { intros r Hr. destruct (proj2 (Has (pc_region_id r))) as [p E].
    { apply list_elem_of_fmap_2, greedy_order_elem. split; [done|].
      destruct Htol as [Hcur _]. specialize (Hcur r Hr). intros He. rewrite He in Hcur.
      by apply elem_of_nil in Hcur. }
    rewrite E. f_equal. revert E. unfold greedy.
    apply (greedy_keeps rs tol _ _ []); try done.
    - apply empty_inv.
    - apply empty_assigned.
    - by apply greedy_order_ids.
    - by intros r' [Hr' _]%greedy_order_elem. }
  intros r Hr. unfold balance_primaries. rewrite bool_decide_false.
  2:{ intros He. destruct Htol as [Hcur _]. specialize (Hcur r Hr).
      rewrite (peer_nodes_empty rs r) in Hcur by done. by apply elem_of_nil in Hcur. }
  unfold improve. rewrite iter_until_fixed; [by apply Hg|].
  unfold improve_pass. set (ids := sort_ids _).
  assert (Hids : forall id, id ∈ ids -> improve_one (index_by_id rs) (greedy rs tol, false) id
                                        = (greedy rs tol, false)).
  { intros id Hid. unfold ids, sort_ids in Hid.
    rewrite sort_by_elem_of, list_elem_of_fmap in Hid. destruct Hid as ([id' p] & -> & Hid).
    apply elem_of_map_to_list in Hid. cbn.
    destruct (proj1 (list_elem_of_fmap _ _ _) (proj1 (Has id') (mk_is_Some _ _ Hid)))
      as (x & -> & [Hx _]%greedy_order_elem).
    destruct (greedy rs tol) as [load out]. cbn in *.
    eapply improve_one_stays; [by apply index_by_id_elem|by apply Hg|].
    intros q Hq Hne. rewrite !Hload, !primary_load_eq by done. by apply Hgain. }
  clearbody ids. induction ids as [|id ids IH]; cbn [fold_left]; [done|].
  rewrite Hids by by left. apply IH. intros id' Hid'. apply Hids. by right.
Qed.

(** ** Witnesses and a divergence *)

(** Two nodes with primary loads 11 and 9: both within 20% of the mean. *)
Definition near_even : list PrimaryCandidate :=
  [mkPC 1 1 10 [1; 2]; mkPC 2 1 1 [1; 2]; mkPC 3 2 9 [2; 1]].

(** Two nodes with equal loads. *)
Definition even_pair : list PrimaryCandidate := [mkPC 1 1 10 [1; 2]; mkPC 2 2 10 [1; 2]].

Lemma near_even_ids : distinct_ids near_even.
Proof. unfold distinct_ids. cbn. repeat (constructor; [set_solver|]). constructor. Qed.

Lemma even_pair_ids : distinct_ids even_pair.
Proof. unfold distinct_ids. cbn. repeat (constructor; [set_solver|]). constructor. Qed.

Lemma even_pair_tolerance : within_tolerance even_pair 20.
Proof.
  split.
  - unfold even_pair. intros r. rewrite !elem_of_cons, elem_of_nil.
    intros [->|[->|[]]]; cbn; set_solver.
  - intros n. replace (total_weight even_pair * wrapping_add 100 20) with 2400 by (vm_compute; reflexivity).
    replace (100 * N.of_nat (size (peer_nodes even_pair))) with 200 by (vm_compute; reflexivity).
    cbn [current_load even_pair pc_current pc_weight].
    destruct (N.eqb_spec 1 n) as [<-|]; [vm_compute; done|]. destruct (2 =? n); vm_compute; done.
Qed.

Lemma even_pair_no_gain : no_gain even_pair.
Proof.
  unfold no_gain, even_pair. intros r q. rewrite !elem_of_cons, elem_of_nil.
  intros [->|[->|[]]]; cbn [pc_peers pc_current]; rewrite !elem_of_cons, elem_of_nil;
    intros [->|[->|[]]]; intros Hne; vm_compute; done.
Qed.

Lemma balance_primaries_correct_witness :
  balance_primaries near_even 20 !! 2 = Some 2 /\ 2 ∈ [1; 2].
Proof.
  assert (H : balance_primaries near_even 20 !! 2 = Some 2) by (vm_compute; reflexivity).
  split; [done|].
  apply (balance_primaries_correct near_even 20 near_even_ids) with (r := mkPC 2 1 1 [1; 2]);
    [right; by left|done].
Defined.

Lemma balance_primaries_steady_witness :
  balance_primaries even_pair 20 !! 1 = Some 1.
Proof.
  apply (balance_primaries_steady even_pair 20 even_pair_ids even_pair_tolerance
           even_pair_no_gain (mkPC 1 1 10 [1; 2])). by left.
Defined.

(** The tolerance does not by itself keep a primary in place: both nodes
    of this layout are within 20% of their fair share, and the improvement
    pass still hands region 2 from node 1 to node 2. *)
Theorem tolerance_does_not_pin_primary :
  (forall n, current_load near_even n * (100 * N.of_nat (size (peer_nodes near_even)))
             <= total_weight near_even * wrapping_add 100 20) /\
  balance_primaries near_even 20 !! 2 = Some 2 /\
  pc_current <$> find (fun r => pc_region_id r =? 2) near_even = Some 1.
Proof.
  split; [|split; vm_compute; reflexivity]. intros n.
  replace (total_weight near_even * wrapping_add 100 20) with 2400 by (vm_compute; reflexivity).
  replace (100 * N.of_nat (size (peer_nodes near_even))) with 200 by (vm_compute; reflexivity).
  cbn [current_load near_even pc_current pc_weight].
  destruct (N.eqb_spec 1 n) as [<-|]; [vm_compute; done|]. destruct (2 =? n); vm_compute; done.
Qed.
