(* ===== verification/PlacementPlan.v ===== *)
(** * Balancing copies: theorems on [plan_placement]

    Every planned target is a full set of distinct candidates with its
    primary first, the copy-moving loop stops, no copy is left that is worth
    moving, and a layout without such a copy keeps its peer sets. *)

From stdpp Require Import prelude list sorting gmap fin_maps.
From S2P Require Import Prelude ShardTypes Placement PlacementBalance.
From stdpp Require Import options.

#[local] Open Scope N_scope.

Definition set_of (sets : gmap N (list N)) (r : RegionPlanInput) : list N :=
  default [] (sets !! rp_region_id r).

(** The copy load [sets] puts on node [n]. *)
Fixpoint copy_load (rs : list RegionPlanInput) (sets : gmap N (list N)) (n : N) : N :=
  match rs with
  | [] => 0
  | r :: rs' =>
    (if bool_decide (n ∈ set_of sets r) then weight1 (rp_weight r) else 0) + copy_load rs' sets n
  end.

Definition plan_ids (rs : list RegionPlanInput) : Prop := NoDup (rp_region_id <$> rs).

(** Inputs as the scheduler builds them: distinct regions, no node listed
    twice in a candidate ranking or a peer list. *)
Definition plan_input_wf (rs : list RegionPlanInput) : Prop :=
  plan_ids rs /\ forall r, r ∈ rs -> NoDup (hrw r) /\ NoDup (current_peers r).

(** A full set of distinct candidates. *)
Definition full_set (rf : nat) (r : RegionPlanInput) (set : list N) : Prop :=
  NoDup set /\ set ⊆ hrw r /\ length set = Nat.min rf (length (hrw r)).

(** No copy of [r] is worth moving under the load [load]. *)
Definition no_gap (load : N -> N) (r : RegionPlanInput) (set : list N) : Prop :=
  forall a b, a ∈ set -> b ∈ hrw r -> b ∉ set -> load a < load b + 2 * weight1 (rp_weight r).

(** The primary load of a plan: the weights of the regions that list [n]
    first. *)
Fixpoint lead_load (rs : list RegionPlanInput) (plan : gmap N (list N)) (n : N) : N :=
  match rs with
  | [] => 0
  | r :: rs' =>
    (if bool_decide (head (set_of plan r) = Some n) then weight1 (rp_weight r) else 0)
    + lead_load rs' plan n
  end.

(** The peer sets as they stand. *)
Definition current_sets (rs : list RegionPlanInput) : gmap N (list N) :=
  collect_from rp_region_id current_peers ∅ rs.

(** The candidates [plan_placement] hands to [balance_primaries]. *)
Definition candidate_of (sets : gmap N (list N)) (r : RegionPlanInput) : PrimaryCandidate :=
  mkPC (rp_region_id r) (current_primary r) (rp_weight r) (ranked_set sets r).

(** ** Orders on nodes *)

Lemma node_ltb_min load r l m :
  min_by (node_ltb load r) l = Some m ->
  m ∈ l /\ forall q, q ∈ l -> load_of load m <= load_of load q.
Proof.
  intros H. apply min_by_Some in H as [Hm Hle]; [split; [done|]|..].
  - intros q Hq. specialize (Hle q Hq). unfold node_ltb in Hle.
    apply orb_false_iff in Hle as [Hle _]. by apply N.ltb_ge in Hle.
  - unfold node_ltb. intros x y z.
    rewrite !orb_true_iff, !andb_true_iff, !N.ltb_lt, !N.eqb_eq. lia.
  - intros x. unfold node_ltb. by rewrite !N.ltb_irrefl, andb_false_r.
  - unfold node_ltb. intros x y z.
    rewrite !orb_true_iff, !orb_false_iff, !andb_true_iff, !andb_false_iff.
    rewrite !N.ltb_lt, !N.ltb_ge, !N.eqb_eq, !N.eqb_neq. lia.
Qed.

Lemma node_rev_ltb_max load r l m :
  max_by (node_rev_ltb load r) l = Some m ->
  m ∈ l /\ forall q, q ∈ l -> load_of load q.2 <= load_of load m.2.
Proof.
  intros H. apply max_by_Some in H as [Hm Hle]; [split; [done|]|..].
  - intros q Hq. specialize (Hle q Hq). unfold node_rev_ltb in Hle.
    apply orb_false_iff in Hle as [Hle _]. by apply N.ltb_ge in Hle.
  - unfold node_rev_ltb. intros x y z.
    rewrite !orb_true_iff, !andb_true_iff, !N.ltb_lt, !N.eqb_eq. lia.
  - intros x. unfold node_rev_ltb. by rewrite !N.ltb_irrefl, andb_false_r.
  - unfold node_rev_ltb. intros x y z.
    rewrite !orb_true_iff, !orb_false_iff, !andb_true_iff, !andb_false_iff.
    rewrite !N.ltb_lt, !N.ltb_ge, !N.eqb_eq, !N.eqb_neq. lia.
Qed.

Lemma best_outside_Some load r set n :
  best_outside load r set = Some n ->
  n ∈ hrw r /\ (n ∉ set) /\
  forall q, q ∈ hrw r -> q ∉ set -> load_of load n <= load_of load q.
Proof.
  intros [Hn Hle]%node_ltb_min. apply filterb_elem_of in Hn as [Hn Hout].
  rewrite negb_true_iff, bool_decide_eq_false in Hout. split_and!; [done..|].
  intros q Hq Hqs. apply Hle, filterb_elem_of.
  by rewrite negb_true_iff, bool_decide_eq_false.
Qed.

Lemma best_outside_None load r set :
  best_outside load r set = None -> hrw r ⊆ set.
Proof.
  intros H%min_by_None n Hn. destruct (decide (n ∈ set)) as [|Hout]; [done|].
  assert (Hin : n ∈ List.filter (fun n => negb (bool_decide (n ∈ set))) (hrw r)).
  { apply filterb_elem_of. by rewrite negb_true_iff, bool_decide_eq_false. }
  rewrite H in Hin. by apply elem_of_nil in Hin.
Qed.

(** ** Initial sets *)

Lemma NoDup_subset_length {A} (l k : list A) : NoDup l -> l ⊆ k -> (length l <= length k)%nat.
Proof. intros Hl Hk. apply submseteq_length, NoDup_submseteq; [done|]. intros x. apply Hk. Qed.

Lemma fill_set_length load r rounds set :
  (length (fill_set load r rounds set) <= length set + rounds)%nat.
Proof.
  revert set. induction rounds as [|k IH]; intros set; cbn; [lia|].
  destruct (best_outside load r set); [|lia]. rewrite IH, length_app. cbn. lia.
Qed.

Lemma fill_set_spec load r rounds set :
  NoDup (hrw r) -> NoDup set -> set ⊆ hrw r -> (length set + rounds <= length (hrw r))%nat ->
  let set' := fill_set load r rounds set in
  NoDup set' /\ set' ⊆ hrw r /\ length set' = (length set + rounds)%nat.
Proof.
  intros Hh. revert set. induction rounds as [|k IH]; intros set Hs Hsub Hlen; cbn.
  { split_and!; [done..|lia]. }
  destruct (best_outside load r set) as [n|] eqn:E.
  - apply best_outside_Some in E as (Hn & Hout & _).
    destruct (IH (set ++ [n])) as (H1 & H2 & H3).
    + apply NoDup_app. split_and!; [done|..|apply NoDup_singleton].
      intros x Hx Hxn%list_elem_of_singleton. by subst.
    + intros x [Hx|Hx%list_elem_of_singleton]%elem_of_app; [by apply Hsub|by subst].
    + rewrite length_app. cbn. lia.
    + split_and!; [done..|]. rewrite H3, length_app. cbn. lia.
  - apply best_outside_None, NoDup_subset_length in E; [lia|done].
Qed.

Lemma initial_set_length rf load r : (length (initial_set rf load r) <= rf)%nat.
Proof.
  unfold initial_set. rewrite fill_set_length, length_take. lia.
Qed.

Lemma initial_set_full rf load r :
  NoDup (hrw r) -> NoDup (current_peers r) -> full_set rf r (initial_set rf load r).
Proof.
  intros Hh Hc. unfold initial_set. set (want := Nat.min rf (length (hrw r))).
  set (kept := sort_by _ _).
  assert (Hk : NoDup kept) by (unfold kept; rewrite sort_by_Permutation; by apply filterb_NoDup).
  destruct (fill_set_spec load r (want - length (take want kept)) (take want kept)) as (H1 & H2 & H3).
  - done.
  - apply (sublist_NoDup _ _ Hk (sublist_take _ _)).
  - intros n Hn%subseteq_take. unfold kept in Hn. rewrite sort_by_elem_of, filterb_elem_of in Hn.
    destruct Hn as [_ Hn]. by apply bool_decide_eq_true in Hn.
  - rewrite length_take. lia.
  - split_and!; [done..|]. rewrite H3, length_take. fold want. lia.
Qed.

(** ** Loads *)

Lemma add_all_load set w load n :
  NoDup set ->
  load_of (fold_left (fun acc m => add_load m w acc) set load) n
  = load_of load n + (if bool_decide (n ∈ set) then w else 0).
Proof.
  intros Hnd. revert load. induction Hnd as [|m set Hm Hs IH]; intros load; cbn [fold_left].
  { rewrite bool_decide_false by apply not_elem_of_nil. lia. }
  rewrite IH. unfold add_load. rewrite load_of_insert.
  destruct (N.eqb_spec m n) as [->|Hne].
  - rewrite bool_decide_false, bool_decide_true by (done || by left). lia.
  - rewrite (bool_decide_ext (n ∈ m :: set) (n ∈ set)); [done|].
    rewrite elem_of_cons. naive_solver.
Qed.

Lemma add_all_sum set w load :
  map_sum id (fold_left (fun acc m => add_load m w acc) set load)
  = map_sum id load + N.of_nat (length set) * w.
Proof.
  revert load. induction set as [|m set IH]; intros load; cbn [fold_left length]; [lia|].
  rewrite IH. pose proof (map_sum_update id load m (load_of load m + w) eq_refl) as H.
  unfold add_load, id in *. lia.
Qed.

Lemma initial_load_zero order n : load_of (initial_load order) n = 0.
Proof.
  unfold initial_load.
  assert (Hgen : forall l (m : gmap N N), (forall n, load_of m n = 0) ->
    forall n, load_of (fold_left (fun acc n => <[n := load_of acc n]> acc) l m) n = 0).
  { induction l as [|x l IH]; cbn; [done|]. intros m Hm. apply IH. intros y.
    rewrite load_of_insert. by destruct (_ =? _). }
  by apply Hgen.
Qed.

Lemma initial_load_sum order : map_sum id (initial_load order) = 0.
Proof.
  unfold initial_load.
  assert (Hgen : forall l (m : gmap N N), map_sum id m = 0 ->
    map_sum id (fold_left (fun acc n => <[n := load_of acc n]> acc) l m) = 0).
  { induction l as [|x l IH]; cbn; [done|]. intros m Hm. apply IH.
    pose proof (map_sum_update id m x (load_of m x) eq_refl). unfold id in *. lia. }
  by apply Hgen.
Qed.

Lemma set_of_insert_eq sets r set : set_of (<[rp_region_id r := set]> sets) r = set.
Proof. unfold set_of. by rewrite lookup_insert_eq. Qed.

Lemma set_of_insert_ne sets r id set :
  id <> rp_region_id r -> set_of (<[id := set]> sets) r = set_of sets r.
Proof. intros H. unfold set_of. by rewrite lookup_insert_ne. Qed.

Lemma copy_load_other l sets id set n :
  id ∉ rp_region_id <$> l -> copy_load l (<[id := set]> sets) n = copy_load l sets n.
Proof.
  induction l as [|r l IH]; cbn; [done|].
  intros [Hr Hl]%not_elem_of_cons. by rewrite IH, set_of_insert_ne by done.
Qed.

Lemma copy_load_assign l r sets set n :
  plan_ids l -> r ∈ l ->
  copy_load l (<[rp_region_id r := set]> sets) n
  + (if bool_decide (n ∈ set_of sets r) then weight1 (rp_weight r) else 0)
  = copy_load l sets n + (if bool_decide (n ∈ set) then weight1 (rp_weight r) else 0).
Proof.
  unfold plan_ids. induction l as [|x l IH]; [by intros _ ?%elem_of_nil|].
  cbn [fmap list_fmap]. intros [Hx Hl]%NoDup_cons.
  intros [->|Hr]%elem_of_cons; cbn [copy_load].
  - rewrite copy_load_other, set_of_insert_eq by done. lia.
  - assert (rp_region_id r <> rp_region_id x).
    { intros He. apply Hx. rewrite <- He. by apply list_elem_of_fmap_2. }
    rewrite set_of_insert_ne by done. specialize (IH Hl Hr). lia.
Qed.

(** ** One move *)

Lemma move_copy_cases load sets b r :
  move_copy ((load, sets), b) r = ((load, sets), b) \/
  exists set i from to, sets !! rp_region_id r = Some set /\ set !! i = Some from /\
    to ∈ hrw r /\ (to ∉ set) /\
    load_of load to + 2 * weight1 (rp_weight r) <= load_of load from /\
    move_copy ((load, sets), b) r
    = ((add_load to (weight1 (rp_weight r)) (sub_load from (weight1 (rp_weight r)) load),
        <[rp_region_id r := <[i := to]> set]> sets), true).
Proof.
  unfold move_copy. destruct (sets !! rp_region_id r) as [set|]; [|by left].
  destruct (max_by _ _) as [[i from]|] eqn:Emax; [|by left].
  destruct (best_outside load r set) as [to|] eqn:Eto; [|by left].
  destruct (_ <=? _) eqn:L; [|by left]. right. exists set, i, from, to.
  apply max_by_elem_of, enumerate_lookup in Emax.
  apply best_outside_Some in Eto as (H1 & H2 & _). apply N.leb_le in L. by split_and!.
Qed.

Lemma move_copy_stuck load sets r set :
  move_copy ((load, sets), false) r = ((load, sets), false) ->
  sets !! rp_region_id r = Some set -> no_gap (load_of load) r set.
Proof.
  intros H Hset a b Ha Hb Hout. unfold move_copy in H. rewrite Hset in H.
  destruct (max_by _ _) as [[i from]|] eqn:Emax.
  2:{ apply max_by_None, enumerate_nil in Emax as ->. by apply elem_of_nil in Ha. }
  apply node_rev_ltb_max in Emax as [_ Hmax].
  apply list_elem_of_lookup in Ha as [j Ha].
  assert (Hle : load_of load a <= load_of load from).
  { apply (Hmax (j, a)). unfold enumerate. apply list_elem_of_lookup. exists j.
    by rewrite list_lookup_imap, Ha. }
  destruct (best_outside load r set) as [to|] eqn:Eto.
  - apply best_outside_Some in Eto as (_ & _ & Hto). specialize (Hto b Hb Hout).
    destruct (_ <=? _) eqn:L; [done|]. apply N.leb_gt in L. lia.
  - apply best_outside_None in Eto. by apply Eto in Hb.
Qed.

Lemma move_copy_stays load sets b r :
  (forall set, sets !! rp_region_id r = Some set -> no_gap (load_of load) r set) ->
  move_copy ((load, sets), b) r = ((load, sets), b).
Proof.
  intros H. destruct (move_copy_cases load sets b r)
    as [|(set & i & from & to & Hset & Hi & Hto & Hout & Hle & _)]; [done|].
  assert (Hf : from ∈ set) by by eapply list_elem_of_lookup_2.
  specialize (H set Hset from to Hf Hto Hout). lia.
Qed.

Lemma move_copy_measure st b r :
  move_copy (st, b) r = (st, b) \/
  exists st', move_copy (st, b) r = (st', true) /\ True /\
    map_sum square st'.1 < map_sum square st.1.
Proof.
  destruct st as [load sets]. destruct (move_copy_cases load sets b r)
    as [E|(set & i & from & to & _ & Hi & _ & Hout & Hle & E)]; [by left|right].
  eexists. split; [exact E|]. split; [done|]. pose proof (weight1_pos (rp_weight r)).
  cbn [fst]. apply move_squares; [|done|lia]. intros ->.
  by apply Hout; eapply list_elem_of_lookup_2.
Qed.

Lemma replace_at (set : list N) i from to :
  NoDup set -> set !! i = Some from -> to ∉ set ->
  NoDup (<[i := to]> set) /\
  forall n, n ∈ <[i := to]> set <-> n = to \/ (n ∈ set /\ n <> from).
Proof.
  intros Hnd Hi Hout. assert (Hlt : (i < length set)%nat) by by eapply lookup_lt_Some.
  rewrite insert_take_drop by done. rewrite <- (take_drop_middle set i from Hi) in Hnd, Hout.
  assert (Hmem : forall n, n ∈ set <-> n ∈ take i set ++ from :: drop (S i) set)
    by by rewrite take_drop_middle.
  rewrite Permutation_app_comm in Hnd, Hout. cbn in Hnd, Hout.
  apply NoDup_cons in Hnd as [Hf Hnd]. apply not_elem_of_cons in Hout as [Hne Hout]. split.
  - rewrite Permutation_app_comm. cbn. by constructor.
  - intros n. rewrite Hmem. rewrite elem_of_app in Hf, Hout |- *.
    rewrite elem_of_app, !elem_of_cons. naive_solver.
Qed.

(** ** Invariant of the planning loops *)

Section Plan.
Context (order : list RegionPlanInput) (rf : nat) (order_ids : plan_ids order).

Definition plan_inv (st : plan_state) : Prop :=
  (forall n, load_of st.1 n = copy_load order st.2 n) /\
  (forall r set, r ∈ order -> st.2 !! rp_region_id r = Some set -> full_set rf r set).

Definition planned (prev : list RegionPlanInput) (st : plan_state) : Prop :=
  forall id, is_Some (st.2 !! id) <-> id ∈ rp_region_id <$> prev.

Lemma same_plan_region r r' :
  r ∈ order -> r' ∈ order -> rp_region_id r = rp_region_id r' -> r = r'.
Proof using order_ids. intros Hr Hr' He. by apply (NoDup_fmap_eq rp_region_id order). Qed.

Lemma plan_inv_sets (sets : gmap N (list N)) r set :
  (forall r set, r ∈ order -> sets !! rp_region_id r = Some set -> full_set rf r set) ->
  r ∈ order -> full_set rf r set ->
  forall r' set', r' ∈ order -> <[rp_region_id r := set]> sets !! rp_region_id r' = Some set' ->
    full_set rf r' set'.
Proof using order_ids.
  intros Hsets Hr Hset r' set' Hr'. rewrite lookup_insert_Some.
  intros [[He <-]|[_ H]]; [|by eapply Hsets]. by rewrite (same_plan_region _ _ Hr' Hr).
Qed.

Lemma assign_set_inv st r :
  plan_inv st -> r ∈ order -> st.2 !! rp_region_id r = None ->
  NoDup (hrw r) -> NoDup (current_peers r) -> plan_inv (assign_set rf st r).
Proof using order_ids.
  destruct st as [load sets]. intros [Hload Hsets] Hr Hnone Hh Hc. cbn in *.
  destruct (initial_set_full rf load r Hh Hc) as (Hnd & Hsub & Hlen). split; cbn.
  - intros n. rewrite add_all_load, Hload by done.
    pose proof (copy_load_assign order r sets (initial_set rf load r) n order_ids Hr) as H.
    assert (He : set_of sets r = []) by (unfold set_of; by rewrite Hnone).
    rewrite He, (bool_decide_false (n ∈ [])) in H by apply not_elem_of_nil. lia.
  - by apply plan_inv_sets.
Qed.

Lemma move_copy_inv load sets r set i from to :
  plan_inv (load, sets) -> r ∈ order -> sets !! rp_region_id r = Some set ->
  set !! i = Some from -> to ∈ hrw r -> to ∉ set -> weight1 (rp_weight r) <= load_of load from ->
  plan_inv (add_load to (weight1 (rp_weight r)) (sub_load from (weight1 (rp_weight r)) load),
            <[rp_region_id r := <[i := to]> set]> sets).
Proof using order_ids.
  intros [Hload Hsets] Hr Hset Hi Hto Hout Hw. cbn in *.
  destruct (Hsets r set Hr Hset) as (Hnd & Hsub & Hlen).
  destruct (replace_at set i from to Hnd Hi Hout) as [Hnd' Hmem].
  assert (Hf : from ∈ set) by by eapply list_elem_of_lookup_2.
  split; cbn.
  - intros n. unfold add_load, sub_load. rewrite !load_of_insert.
    pose proof (copy_load_assign order r sets (<[i := to]> set) n order_ids Hr) as H.
    assert (He : set_of sets r = set) by (unfold set_of; by rewrite Hset).
    rewrite He, (bool_decide_ext _ _ (Hmem n)) in H. rewrite Hload in Hw. rewrite !Hload. revert H.
    destruct (N.eqb_spec to n) as [->|Hto_n], (N.eqb_spec from n) as [->|Hfrom_n]; [done|..].
    + rewrite bool_decide_false, bool_decide_true by (done || by left). lia.
    + rewrite bool_decide_true, bool_decide_false by naive_solver. lia.
    + rewrite (bool_decide_ext (n = to \/ n ∈ set /\ n <> from) (n ∈ set)) by naive_solver. lia.
  - apply plan_inv_sets; [done..|]. split_and!; [done| |by rewrite length_insert].
    intros n [->|[Hn _]]%Hmem; [done|by apply Hsub].
Qed.

Lemma assign_sets_fold l st prev :
  plan_inv st -> planned prev st -> NoDup (rp_region_id <$> (prev ++ l)) ->
  (forall r, r ∈ l -> r ∈ order /\ NoDup (hrw r) /\ NoDup (current_peers r)) ->
  plan_inv (fold_left (assign_set rf) l st) /\ planned (prev ++ l) (fold_left (assign_set rf) l st).
Proof using order_ids.
  revert st prev. induction l as [|r l IH]; intros st prev Hinv Has Hnd Hl; cbn [fold_left].
  { by rewrite app_nil_r. }
  destruct (Hl r) as (Hr & Hh & Hc); [by left|].
  destruct (IH (assign_set rf st r) (prev ++ [r])) as [H1 H2].
  - apply assign_set_inv; [done..| |done|done]. apply eq_None_not_Some.
    rewrite (Has (rp_region_id r)). rewrite fmap_app in Hnd.
    apply NoDup_app in Hnd as (_ & Hd & _). intros Hin. apply (Hd _ Hin). cbn. by left.
  - intros id. destruct st as [load sets]. cbn.
    rewrite lookup_insert_is_Some', fmap_app, elem_of_app.
    rewrite (Has id). cbn. rewrite list_elem_of_singleton. naive_solver.
  - by rewrite <- app_assoc.
  - intros r' Hr'. apply Hl. by right.
  - rewrite <- app_assoc in H2. by split.
Qed.

Lemma move_copy_spec prev st b r :
  r ∈ order -> plan_inv st /\ planned prev st ->
  move_copy (st, b) r = (st, b) \/
  exists st', move_copy (st, b) r = (st', true) /\
    (plan_inv st' /\ planned prev st') /\ map_sum square st'.1 < map_sum square st.1.
Proof using order_ids.
  intros Hr [Hinv Has]. destruct st as [load sets].
  destruct (move_copy_cases load sets b r)
    as [E|(set & i & from & to & Hset & Hi & Hto & Hout & Hle & E)]; [by left|right].
  pose proof (weight1_pos (rp_weight r)). eexists. split; [exact E|]. split; [split|].
  - eapply move_copy_inv; eauto. lia.
  - intros id. cbn. rewrite <- (Has id). cbn. rewrite lookup_insert_is_Some'.
    split; [|by right]. by intros [<-|]; [rewrite Hset|].
  - cbn [fst]. apply move_squares; [|done|lia]. intros ->.
    by apply Hout; eapply list_elem_of_lookup_2.
Qed.
End Plan.

(** ** The plan *)

Lemma plan_order_elem rs r : r ∈ plan_order rs <-> r ∈ rs /\ hrw r <> [].
Proof.
  unfold plan_order.
  by rewrite sort_by_elem_of, filterb_elem_of, negb_true_iff, bool_decide_eq_false.
Qed.

Lemma plan_order_ids rs : plan_ids rs -> plan_ids (plan_order rs).
Proof.
  unfold plan_ids, plan_order. rewrite sort_by_Permutation. generalize rs. clear rs.
  induction rs as [|r rs IH]; cbn; [done|]. intros [Hr Hrs]%NoDup_cons.
  destruct (negb _); [|by apply IH]. cbn. constructor; [|by apply IH].
  rewrite list_elem_of_fmap. intros (x & He & [Hx _]%filterb_elem_of). apply Hr. rewrite He.
  by apply list_elem_of_fmap_2.
Qed.

Lemma assign_sets_sum rf l st :
  map_sum id (fold_left (assign_set rf) l st).1
  <= map_sum id st.1 + N.of_nat rf * fold_right (fun r acc => weight1 (rp_weight r) + acc) 0 l.
Proof.
  revert st. induction l as [|r l IH]; intros st; cbn [fold_left fold_right]; [lia|].
  etrans; [apply IH|]. destruct st as [load sets]. cbn [assign_set fst].
  rewrite add_all_sum. pose proof (initial_set_length rf load r). nia.
Qed.

Lemma plan_measure order rf :
  map_sum square (fold_left (assign_set rf) order (initial_load order, ∅)).1
  < 2 ^ N.of_nat (move_depth rf order).
Proof.
  unfold move_depth. rewrite N2Nat.id. eapply N.le_lt_trans; [|apply N.size_gt].
  eapply N.le_trans; [apply map_sum_square_le|].
  pose proof (assign_sets_sum rf order (initial_load order, ∅)) as H. cbn [fst] in H.
  rewrite initial_load_sum, N.add_0_l in H. by apply N.mul_le_mono.
Qed.

Lemma empty_plan_inv order rf : plan_inv order rf (initial_load order, ∅).
Proof.
  split; cbn; [|by intros r set _]. intros n. rewrite initial_load_zero. clear rf.
  induction order as [|r l IH]; cbn [copy_load]; [done|]. rewrite <- IH.
  by rewrite bool_decide_false by apply not_elem_of_nil.
Qed.

Lemma empty_planned order : planned [] (initial_load order, ∅).
Proof.
  intros id. cbn. rewrite lookup_empty. split; [by intros [? ?]|by intros ?%elem_of_nil].
Qed.

Lemma assign_sets_spec rs rf :
  plan_input_wf rs ->
  let st := fold_left (assign_set rf) (plan_order rs) (initial_load (plan_order rs), ∅) in
  plan_inv (plan_order rs) rf st /\ planned (plan_order rs) st.
Proof.
  intros [Hids Hwf]. apply (assign_sets_fold _ _ (plan_order_ids rs Hids) _ _ []).
  - apply empty_plan_inv.
  - apply empty_planned.
  - by apply plan_order_ids.
  - intros r Hr. split; [done|]. apply plan_order_elem in Hr as [Hr _]. by apply Hwf.
Qed.

Lemma plan_sets_spec rs rf :
  plan_input_wf rs ->
  exists st, plan_sets (plan_order rs) rf = (st, false) /\
    plan_inv (plan_order rs) rf st /\ planned (plan_order rs) st /\
    forall r set, r ∈ plan_order rs -> st.2 !! rp_region_id r = Some set ->
      no_gap (copy_load (plan_order rs) st.2) r set.
Proof.
  intros Hwf. destruct (assign_sets_spec rs rf Hwf) as [Hinv Has].
  destruct Hwf as [Hids Hwf]. unfold plan_sets.
  destruct (local_search_spec move_copy
    (fun st => plan_inv (plan_order rs) rf st /\ planned (plan_order rs) st)
    (fun st => map_sum square st.1) (fun r => r ∈ plan_order rs))
    with (l := plan_order rs) (depth := move_depth rf (plan_order rs))
         (s := fold_left (assign_set rf) (plan_order rs) (initial_load (plan_order rs), ∅))
    as ([load sets] & E & [H1 H2] & H3).
  - intros s b r Hr. apply move_copy_spec; [by apply plan_order_ids|done].
  - done.
  - done.
  - apply plan_measure.
  - exists (load, sets). split_and!; [done..|]. intros r set Hr Hset a b Ha Hb Hout.
    destruct H1 as [Hload _]. cbn [fst snd] in *. rewrite <- !Hload.
    eapply move_copy_stuck; [by apply H3|done..].
Qed.

Lemma with_primary_first_spec target p :
  p ∈ target ->
  with_primary_first target (Some p) ≡ₚ target /\
  head (with_primary_first target (Some p)) = Some p.
Proof.
  intros Hp. unfold with_primary_first. destruct (position _ target) as [i|] eqn:E.
  - apply position_Some in E as (x & Hi & Hx & _). apply N.eqb_eq in Hx as ->. split; [|done].
    rewrite <- (take_drop_middle target i p Hi) at 3. apply Permutation_middle.
  - eapply position_None in E; [|exact Hp]. by rewrite N.eqb_refl in E.
Qed.

Lemma ranked_set_Permutation sets r : ranked_set sets r ≡ₚ set_of sets r.
Proof. apply sort_by_Permutation. Qed.

Lemma candidates_ids sets order : plan_ids order -> distinct_ids (candidate_of sets <$> order).
Proof. unfold distinct_ids, plan_ids. by rewrite <- list_fmap_compose. Qed.

(** The target the plan gives a region, and what is known of it. *)
Lemma plan_lookup rs rf tol :
  plan_input_wf rs ->
  exists sets out, plan_inv (plan_order rs) rf sets /\
    (forall r set, r ∈ plan_order rs -> sets.2 !! rp_region_id r = Some set ->
       no_gap (copy_load (plan_order rs) sets.2) r set) /\
    out = balance_primaries (candidate_of sets.2 <$> plan_order rs) tol /\
    (forall id, is_Some (plan_placement rs rf tol !! id) <-> id ∈ rp_region_id <$> plan_order rs) /\
    (forall r, r ∈ plan_order rs ->
       sets.2 !! rp_region_id r = Some (set_of sets.2 r) /\
       plan_placement rs rf tol !! rp_region_id r
       = Some (with_primary_first (ranked_set sets.2 r) (out !! rp_region_id r))).
Proof.
  intros Hwf. destruct (plan_sets_spec rs rf Hwf) as (sets & E & Hinv & Hpl & Hgap).
  destruct Hwf as [Hids _]. eexists sets, _. split_and!; [done|done|reflexivity|..].
  - intros id. unfold plan_placement. rewrite E. cbn [fst].
    etrans; [apply (collect_is_Some rp_region_id)|]. rewrite lookup_empty. split; [|by left].
    by intros [?|[]].
  - intros r Hr. split.
    + unfold set_of. destruct (proj2 (Hpl (rp_region_id r))) as [set Hset];
        [by apply list_elem_of_fmap_2|]. by rewrite Hset.
    + unfold plan_placement. rewrite E. cbn [fst].
      apply (collect_elem rp_region_id (fun r => with_primary_first _ _));
        [by apply plan_order_ids|done].
Qed.

Lemma planned_target sets out rs tol r :
  plan_ids rs -> r ∈ plan_order rs ->
  out = balance_primaries (candidate_of sets <$> plan_order rs) tol ->
  let t := with_primary_first (ranked_set sets r) (out !! rp_region_id r) in
  t ≡ₚ set_of sets r /\ head t = out !! rp_region_id r.
Proof.
  intros Hids Hr ->. cbn zeta.
  destruct (balance_spec (candidate_of sets <$> plan_order rs) tol) as [Hdom Hval];
    [by apply candidates_ids, plan_order_ids|].
  destruct (balance_primaries _ tol !! rp_region_id r) as [p|] eqn:E.
  - destruct (Hval (candidate_of sets r) p) as [Hp _]; [by apply list_elem_of_fmap_2|done|].
    destruct (with_primary_first_spec (ranked_set sets r) p Hp) as [H1 H2].
    split; [by rewrite H1, ranked_set_Permutation|done].
  - cbn. split; [apply ranked_set_Permutation|].
    destruct (ranked_set sets r) as [|q l] eqn:Er; [done|].
    destruct (proj2 (Hdom (rp_region_id r))) as [p Hp]; [|by rewrite Hp in E].
    exists (candidate_of sets r). split_and!; [by apply list_elem_of_fmap_2|done|].
    cbn. by rewrite Er.
Qed.

Lemma copy_load_ext l sets sets' n :
  (forall r, r ∈ l -> n ∈ set_of sets r <-> n ∈ set_of sets' r) ->
  copy_load l sets n = copy_load l sets' n.
Proof.
  induction l as [|r l IH]; intros H; cbn [copy_load]; [done|].
  rewrite IH by (intros r' Hr'; apply H; by right). f_equal.
  by rewrite (bool_decide_ext (n ∈ set_of sets r) (n ∈ set_of sets' r)) by (apply H; by left).
Qed.

(** Sums over the sorted, filtered order are sums over the input. *)
Lemma copy_load_order rs plan n :
  (forall r, r ∈ rs -> hrw r = [] -> set_of plan r = []) ->
  copy_load (plan_order rs) plan n = copy_load rs plan n.
Proof.
  intros Hnil. unfold plan_order.
  assert (Hperm : forall l l', l ≡ₚ l' -> copy_load l plan n = copy_load l' plan n).
  { induction 1 as [|x l l' _ IH|x y l|l1 l2 l3 _ IH1 _ IH2]; cbn [copy_load]; lia. }
  rewrite (Hperm _ _ (sort_by_Permutation _ _)). clear Hperm.
  induction rs as [|r rs IH]; [done|]. cbn [List.filter copy_load].
  specialize (IH ltac:(intros; apply Hnil; [by right|done])).
  case_bool_decide as E; cbn [negb copy_load]; rewrite IH; [|done].
  rewrite (Hnil r ltac:(by left) E), bool_decide_false by apply not_elem_of_nil. lia.
Qed.

Lemma lead_load_order rs plan n :
  (forall r, r ∈ rs -> hrw r = [] -> set_of plan r = []) ->
  lead_load (plan_order rs) plan n = lead_load rs plan n.
Proof.
  intros Hnil. unfold plan_order.
  assert (Hperm : forall l l', l ≡ₚ l' -> lead_load l plan n = lead_load l' plan n).
  { induction 1 as [|x l l' _ IH|x y l|l1 l2 l3 _ IH1 _ IH2]; cbn [lead_load]; lia. }
  rewrite (Hperm _ _ (sort_by_Permutation _ _)). clear Hperm.
  induction rs as [|r rs IH]; [done|]. cbn [List.filter lead_load].
  specialize (IH ltac:(intros; apply Hnil; [by right|done])).
  case_bool_decide as E; cbn [negb lead_load]; rewrite IH; [|done].
  rewrite (Hnil r ltac:(by left) E), bool_decide_false by done. lia.
Qed.

Lemma plan_uncovered rs rf tol r :
  plan_input_wf rs -> r ∈ rs -> hrw r = [] -> set_of (plan_placement rs rf tol) r = [].
Proof.
  intros Hwf Hr Hnil. destruct (plan_lookup rs rf tol Hwf) as (sets & out & _ & _ & _ & Hdom & _).
  unfold set_of. destruct (plan_placement rs rf tol !! rp_region_id r) eqn:E; [|done].
  destruct (proj1 (list_elem_of_fmap _ _ _) (proj1 (Hdom (rp_region_id r)) (mk_is_Some _ _ E)))
    as (x & He & [Hx Hne]%plan_order_elem).
  destruct Hwf as [Hids _]. by rewrite (NoDup_fmap_eq rp_region_id rs r x) in Hnil.
Qed.

Lemma full_set_Permutation rf r set set' : set ≡ₚ set' -> full_set rf r set -> full_set rf r set'.
Proof.
  intros Hp (H1 & H2 & H3). split_and!; [by rewrite <- Hp| |by rewrite <- Hp].
  intros n. rewrite <- Hp. apply H2.
Qed.

(** The copy-moving loop of [plan_placement] stops on every input: each
    move strictly lowers the sum of the squared copy loads. *)
Theorem plan_placement_terminates (rs : list RegionPlanInput) (rf : nat) :
  let order := plan_order rs in
  exists st, loop_ends (move_pass order)
               (fold_left (assign_set rf) order (initial_load order, ∅)) st /\
    plan_sets order rf = (st, false).
Proof.
  cbn zeta. destruct (local_search_spec move_copy (fun _ => True)
    (fun st => map_sum square st.1) (fun _ => True)) with (l := plan_order rs)
    (depth := move_depth rf (plan_order rs))
    (s := fold_left (assign_set rf) (plan_order rs) (initial_load (plan_order rs), ∅))
    as (st & E & _).
  - intros s b r _ _. apply move_copy_measure.
  - done.
  - done.
  - apply plan_measure.
  - exists st. split; [by eapply iter_until_loop|done].
Qed.

(** The targets of a plan. *)
Lemma plan_targets_spec (rs : list RegionPlanInput) (rf : nat) (tol : N) :
  plan_input_wf rs ->
  let plan := plan_placement rs rf tol in
  (forall id, is_Some (plan !! id) <-> exists r, r ∈ rs /\ rp_region_id r = id /\ hrw r <> []) /\
  (forall r t, r ∈ rs -> plan !! rp_region_id r = Some t ->
     full_set rf r t /\ no_gap (copy_load rs plan) r t).
Proof.
  intros Hwf. cbn zeta.
  pose proof (fun r => plan_uncovered rs rf tol r Hwf) as Hnil.
  destruct (plan_lookup rs rf tol Hwf) as (sets & out & [_ Hfull] & Hgap & Hout & Hdom & Hval).
  destruct Hwf as [Hids _].
  assert (Hin : forall r t, r ∈ rs -> plan_placement rs rf tol !! rp_region_id r = Some t ->
                  r ∈ plan_order rs).
  { intros r t Hr Ht. destruct (proj1 (list_elem_of_fmap _ _ _)
      (proj1 (Hdom (rp_region_id r)) (mk_is_Some _ _ Ht))) as (x & He & Hx).
    rewrite (NoDup_fmap_eq rp_region_id rs r x); [done..| |done].
    by apply plan_order_elem in Hx as [Hx _]. }
  split.
  - intros id. rewrite (Hdom id), list_elem_of_fmap.
    split; intros (r & H); exists r; rewrite plan_order_elem in *; naive_solver.
  - intros r t Hr Ht. pose proof (Hin r t Hr Ht) as Ho. destruct (Hval r Ho) as [Hs Hv].
    rewrite Ht in Hv. injection Hv as ->.
    destruct (planned_target sets.2 out rs tol r Hids Ho Hout) as [Hp _].
    split; [eapply full_set_Permutation; [symmetry; exact Hp|by apply (Hfull r)]|].
    intros a b. rewrite Hp. intros Ha Hb Hb'.
    assert (Heq : forall n, copy_load rs (plan_placement rs rf tol) n
                            = copy_load (plan_order rs) sets.2 n).
    { intros n. rewrite <- copy_load_order by done. apply copy_load_ext. intros x Hx.
      destruct (Hval x Hx) as [_ Hv]. unfold set_of at 1. rewrite Hv. cbn [default from_option id].
      by rewrite (proj1 (planned_target sets.2 out rs tol x Hids Hx Hout)). }
    rewrite !Heq. by apply (Hgap r (set_of sets.2 r)).
Qed.

(** C0: [plan_placement] gives a target to exactly the regions that have
    candidates; each target holds [min rf n] distinct candidates, so a node
    that left the candidate set is never planned; and no copy is left that
    the planner should move: a node holding a copy carries less than two
    copies of the region more than any candidate without one. *)
Theorem plan_placement_targets (rs : list RegionPlanInput) (rf : nat) (tol : N) :
  plan_input_wf rs ->
  let plan := plan_placement rs rf tol in
  (forall id, is_Some (plan !! id) <-> exists r, r ∈ rs /\ rp_region_id r = id /\ hrw r <> []) /\
  (forall r t, r ∈ rs -> plan !! rp_region_id r = Some t ->
     full_set rf r t /\ no_gap (copy_load rs plan) r t).
Proof. apply plan_targets_spec. Qed.

Lemma lead_load_primary l sets out plan n :
  (forall r, r ∈ l -> head (set_of plan r) = out !! rp_region_id r) ->
  primary_load (candidate_of sets <$> l) out n = lead_load l plan n.
Proof.
  induction l as [|r l IH]; intros H; [done|]. cbn [fmap list_fmap primary_load lead_load].
  rewrite (H r) by by left. f_equal. apply IH. intros r' Hr'. apply H. by right.
Qed.

(** The plan's leaders are balanced too: each target lists its primary
    first, and handing a region to another node of its target would not
    leave the busier of the two with less primary load. *)
Theorem plan_placement_leaders (rs : list RegionPlanInput) (rf : nat) (tol : N) :
  plan_input_wf rs ->
  let plan := plan_placement rs rf tol in
  forall r p t q, r ∈ rs -> plan !! rp_region_id r = Some (p :: t) -> q ∈ t ->
    lead_load rs plan p <= lead_load rs plan q + weight1 (rp_weight r).
Proof.
  intros Hwf. cbn zeta. intros r p t q Hr Ht Hq.
  pose proof (fun r => plan_uncovered rs rf tol r Hwf) as Hnil.
  destruct (plan_lookup rs rf tol Hwf) as (sets & out & [_ Hfull] & _ & Hout & Hdom & Hval).
  destruct Hwf as [Hids _].
  assert (Ho : r ∈ plan_order rs).
  { apply plan_order_elem. split; [done|]. intros He. specialize (Hnil r Hr He).
    unfold set_of in Hnil. by rewrite Ht in Hnil. }
  assert (Hhead : forall x, x ∈ plan_order rs ->
            head (set_of (plan_placement rs rf tol) x) = out !! rp_region_id x).
  { intros x Hx. destruct (Hval x Hx) as [_ Hv]. unfold set_of. rewrite Hv.
    by apply (planned_target sets.2 out rs tol x). }
  destruct (balance_spec (candidate_of sets.2 <$> plan_order rs) tol) as [_ Hbal];
    [by apply candidates_ids, plan_order_ids|]. rewrite <- Hout in Hbal.
  destruct (planned_target sets.2 out rs tol r Hids Ho Hout) as [Hp Hh].
  destruct (Hval r Ho) as [Hs Hv]. rewrite Ht in Hv. injection Hv as Hv. rewrite <- Hv in Hp, Hh.
  assert (Hmem : forall n, n ∈ ranked_set sets.2 r <-> n ∈ p :: t)
    by (intros n; by rewrite Hp, ranked_set_Permutation).
  destruct (Hbal (candidate_of sets.2 r) p) as [_ Hopt]; [by apply list_elem_of_fmap_2|done|].
  assert (Heq : forall n, lead_load rs (plan_placement rs rf tol) n
                          = primary_load (candidate_of sets.2 <$> plan_order rs) out n).
  { intros n. rewrite <- lead_load_order by done. symmetry. by apply lead_load_primary. }
  rewrite !Heq.
  apply Hopt; [cbn; apply Hmem; by right|]. intros ->.
  destruct (Hfull r _ Ho Hs) as [Hnd _]. rewrite <- Hp in Hnd.
  apply NoDup_cons in Hnd as [Hnd _]. done.
Qed.

(** ** Steady layouts *)

Lemma initial_set_keeps rf load r :
  full_set rf r (current_peers r) -> initial_set rf load r ≡ₚ current_peers r.
Proof.
  intros (_ & Hsub & Hlen). unfold initial_set.
  rewrite (filterb_id _ (current_peers r)) by (intros x Hx; by apply bool_decide_eq_true, Hsub).
  set (l := sort_by _ _).
  assert (Hl : l ≡ₚ current_peers r) by apply sort_by_Permutation.
  assert (Hll : length l = Nat.min rf (length (hrw r))) by by rewrite Hl.
  rewrite take_ge by lia. replace (_ - length l)%nat with 0%nat by lia. done.
Qed.

Lemma assign_sets_keep rf l st prev :
  NoDup (rp_region_id <$> (prev ++ l)) -> (forall r, r ∈ l -> full_set rf r (current_peers r)) ->
  (forall r, r ∈ prev -> set_of st.2 r ≡ₚ current_peers r) ->
  forall r, r ∈ prev ++ l -> set_of (fold_left (assign_set rf) l st).2 r ≡ₚ current_peers r.
Proof.
  revert st prev. induction l as [|x l IH]; intros st prev Hnd Hl Hprev; cbn [fold_left].
  { by rewrite app_nil_r. }
  replace (prev ++ x :: l) with ((prev ++ [x]) ++ l) in * by by rewrite <- app_assoc.
  apply IH; [done|intros r Hr; apply Hl; by right|]. destruct st as [load sets]. cbn [snd assign_set].
  intros r [Hr|Hr%list_elem_of_singleton]%elem_of_app.
  - rewrite set_of_insert_ne; [by apply Hprev|]. intros He. rewrite !fmap_app in Hnd.
    apply NoDup_app in Hnd as (Hnd & _ & _). apply NoDup_app in Hnd as (_ & Hd & _).
    apply (Hd (rp_region_id r)); [by apply list_elem_of_fmap_2|]. rewrite <- He. cbn. by left.
  - subst. rewrite set_of_insert_eq. apply initial_set_keeps, Hl. by left.
Qed.

(** A layout that is already full and has no copy worth moving keeps every
    peer set: the plan reorders it at most, so no data is moved. *)
Theorem plan_placement_steady (rs : list RegionPlanInput) (rf : nat) (tol : N) :
  plan_input_wf rs ->
  (forall r, r ∈ rs -> hrw r <> [] /\ full_set rf r (current_peers r)) ->
  (forall r, r ∈ rs -> no_gap (copy_load rs (current_sets rs)) r (current_peers r)) ->
  forall r, r ∈ rs ->
    exists t, plan_placement rs rf tol !! rp_region_id r = Some t /\ t ≡ₚ current_peers r.
Proof.
  intros Hwf Hfull Hgap r Hr.
  assert (Ho : forall x, x ∈ plan_order rs <-> x ∈ rs).
  { intros x. rewrite plan_order_elem. split; [by intros []|]. intros Hx.
    split; [done|by apply Hfull]. }
  destruct (assign_sets_spec rs rf Hwf) as [[Hload _] Has].
  destruct (Hwf) as [Hids _]. set (order := plan_order rs) in *.
  set (st := fold_left (assign_set rf) order (initial_load order, ∅)) in *.
  assert (Hset : forall x, x ∈ order -> set_of st.2 x ≡ₚ current_peers x).
  { apply (assign_sets_keep rf order _ []).
    - by apply plan_order_ids.
    - intros x Hx. by apply Hfull, Ho.
    - by intros x ?%elem_of_nil. }
  assert (Hcur : forall x, x ∈ rs -> set_of (current_sets rs) x = current_peers x).
  { intros x Hx. unfold set_of, current_sets. by rewrite (collect_elem rp_region_id). }
  assert (Hl : forall n, load_of st.1 n = copy_load rs (current_sets rs) n).
  { intros n. rewrite Hload. unfold order. rewrite copy_load_order.
    - apply copy_load_ext. intros x Hx. by rewrite Hset, Hcur by (done || by apply Ho).
    - intros x Hx He. by destruct (Hfull x Hx). }
  assert (Hstays : forall x b, x ∈ order -> move_copy (st, b) x = (st, b)).
  { intros x b Hx. destruct st as [load sets] eqn:Est. apply move_copy_stays.
    intros s Hs a c Ha Hc Hout. cbn [fst snd] in Hl, Hset. rewrite !Hl.
    assert (Hsx : s ≡ₚ current_peers x).
    { rewrite <- (Hset x Hx). unfold set_of. by rewrite Hs. }
    rewrite Hsx in Ha, Hout. apply (Hgap x); [by apply Ho|done..]. }
  assert (Hplan : plan_sets order rf = (st, false)).
  { unfold plan_sets. fold st. apply iter_until_fixed. unfold move_pass.
    apply fold_left_fixed. auto. }
  destruct (planned_target st.2 _ rs tol r Hids (proj2 (Ho r) Hr) eq_refl) as [Hp _].
  eexists. split; [|etrans; [exact Hp|by apply Hset, Ho]].
  unfold plan_placement. fold order. rewrite Hplan. cbn [fst].
  apply (collect_elem rp_region_id (fun r => with_primary_first _ _));
    [by apply plan_order_ids|by apply Ho].
Qed.

(** ** Witnesses *)

(** Three nodes, two copies of each of three regions, evenly spread. *)
Definition even_plan : list RegionPlanInput :=
  [mkPlan 1 [1; 2] 1 10 [1; 2; 3]; mkPlan 2 [2; 3] 2 10 [2; 3; 1]; mkPlan 3 [3; 1] 3 10 [3; 1; 2]].

(** The same regions with every copy on the first two nodes. *)
Definition skewed_plan : list RegionPlanInput :=
  [mkPlan 1 [1; 2] 1 10 [1; 2; 3]; mkPlan 2 [1; 2] 1 10 [2; 3; 1]; mkPlan 3 [1; 2] 1 10 [3; 1; 2]].

Lemma even_plan_wf : plan_input_wf even_plan.
Proof.
  split; [unfold plan_ids; cbn; repeat (constructor; [set_solver|]); constructor|].
  unfold even_plan. intros r. rewrite !elem_of_cons, elem_of_nil.
  intros [->|[->|[->|[]]]]; cbn [hrw current_peers]; split;
    repeat (constructor; [set_solver|]); constructor.
Qed.

Lemma skewed_plan_wf : plan_input_wf skewed_plan.
Proof.
  split; [unfold plan_ids; cbn; repeat (constructor; [set_solver|]); constructor|].
  unfold skewed_plan. intros r. rewrite !elem_of_cons, elem_of_nil.
  intros [->|[->|[->|[]]]]; cbn [hrw current_peers]; split;
    repeat (constructor; [set_solver|]); constructor.
Qed.

Lemma plan_placement_targets_witness :
  plan_placement skewed_plan 2 20 !! 2 = Some [3; 1] /\
  full_set 2 (mkPlan 2 [1; 2] 1 10 [2; 3; 1]) [3; 1].
Proof.
  assert (H : plan_placement skewed_plan 2 20 !! 2 = Some [3; 1]) by (vm_compute; reflexivity).
  split; [done|].
  apply (plan_placement_targets skewed_plan 2 20 skewed_plan_wf); [|done].
  right. by left.
Defined.

Lemma plan_placement_leaders_witness :
  lead_load skewed_plan (plan_placement skewed_plan 2 20) 3
  <= lead_load skewed_plan (plan_placement skewed_plan 2 20) 1 + 10.
Proof.
  apply (plan_placement_leaders skewed_plan 2 20 skewed_plan_wf
           (mkPlan 2 [1; 2] 1 10 [2; 3; 1]) 3 [1] 1).
  - right. by left.
  - vm_compute. reflexivity.
  - by left.
Defined.

Lemma even_plan_full r : r ∈ even_plan -> hrw r <> [] /\ full_set 2 r (current_peers r).
Proof.
  intros Hr. destruct even_plan_wf as [_ Hwf]. destruct (Hwf r Hr) as [_ Hnd]. revert Hr Hnd.
  unfold even_plan. rewrite !elem_of_cons, elem_of_nil. unfold full_set.
  intros [->|[->|[->|[]]]]; cbn [hrw current_peers]; intros Hnd; split_and!; try done;
    intros n; rewrite !elem_of_cons, elem_of_nil; tauto.
Qed.

Lemma even_plan_no_gap r :
  r ∈ even_plan -> no_gap (copy_load even_plan (current_sets even_plan)) r (current_peers r).
Proof.
  unfold no_gap. intros Hr a b Ha Hb _. revert Hr Ha Hb.
  unfold even_plan at 1. rewrite !elem_of_cons, elem_of_nil.
  intros [->|[->|[->|[]]]]; cbn [hrw current_peers];
    rewrite !(elem_of_cons _ a), !(elem_of_cons _ b), !elem_of_nil;
    intros [->|[->|[]]] [->|[->|[->|[]]]]; vm_compute; done.
Qed.

Lemma plan_placement_steady_witness :
  exists t, plan_placement even_plan 2 20 !! 2 = Some t /\ t ≡ₚ [2; 3].
Proof.
  apply (plan_placement_steady even_plan 2 20 even_plan_wf even_plan_full even_plan_no_gap
           (mkPlan 2 [2; 3] 2 10 [2; 3; 1])). right. by left.
Defined.
