(* ===== verification/PlacementConverge.v ===== *)
(** * Converging a region to its target ([next_placement_step] at work)

    The steps the scheduler commits for a region
    ([ShardScheduler::try_converge_placement]) as a relation on regions, and
    the theorems on it: a step is never refused, the number of serving
    copies never dips below the target, and convergence ends at the target. *)

From stdpp Require Import prelude list sorting gmap relations strings.
From S2P Require Import Prelude ShardTypes ShardOps ShardInvariant Placement.
From stdpp Require Import options.

#[local] Open Scope N_scope.

(** One committed step. A missing target member is added as a learner, its
    rows are staged, and it is promoted under the epoch the addition left; the
    scheduler may take any missing member that has caught up. The other steps
    are one operation. The scheduler may also defer a step: then nothing is
    committed and no transition is taken. *)
Inductive converge_step (target : list N) (r : ShardRegion) : ShardRegion -> Prop :=
| converge_add missing n r1 r2 :
    next_placement_step r target = Some (Add missing) ->
    n ∈ target -> n ∉ peers r ->
    add_peer n (epoch r) true r = Ok r1 ->
    promote_peer (region_id r) n (epoch r1) r1 = Ok r2 ->
    converge_step target r r2
| converge_remove n r1 :
    next_placement_step r target = Some (Remove n) ->
    remove_peer n (epoch r) r = Ok r1 ->
    converge_step target r r1
| converge_promote n r1 :
    next_placement_step r target = Some (Promote n) ->
    transfer_primary (region_id r) n (epoch r) r = Ok r1 ->
    converge_step target r r1.

(** The peers that hold a full copy. *)
Definition serving_peers (r : ShardRegion) : list N :=
  List.filter (is_serving_peer r) (peers r).

(** The distance to the target. *)
Definition gap (target : list N) (r : ShardRegion) : nat :=
  length (List.filter (fun t => negb (bool_decide (t ∈ peers r))) target)
  + length (List.filter (fun p => negb (bool_decide (p ∈ target))) (peers r))
  + (if bool_decide (head target = Some (primary r)) then 0 else 1).

(** Where convergence starts and stays: a well-formed region without
    transfer debt, of whose learners none is a target member. *)
Record settled (target : list N) (r : ShardRegion) : Prop := mkSettled {
  settled_wf : region_wf r;
  settled_debt : transfer_outstanding r = false;
  settled_learners : forall t, t ∈ target -> t ∉ staging_peers r
}.

(** The region is at its target. *)
Definition at_target (target : list N) (r : ShardRegion) : Prop :=
  peers r ≡ₚ target /\ head target = Some (primary r).

(** ** What each step says of the region *)

Definition covered (target : list N) (r : ShardRegion) : Prop :=
  forall t, t ∈ target -> t ∈ peers r /\ (t ∉ staging_peers r).

(** The meaning of [next_placement_step] on a settled region. *)
Definition step_spec (target : list N) (r : ShardRegion) (s : option PlacementStep) : Prop :=
  match s with
  | Some (Add n) => n ∈ target /\ (n ∉ peers r)
  | Some (Remove n) => covered target r /\ n ∈ peers r /\ (n ∉ target) /\ n <> primary r
  | Some (Promote n) => covered target r /\ head target = Some n /\ n <> primary r
  | None => covered target r /\ (forall p, p ∈ peers r -> p ∈ target) /\
            head target = Some (primary r)
  end.

Lemma next_step_cases target r s :
  next_placement_step r target = s ->
  match s with
  | Some _ => transfer_outstanding r = false /\ step_spec target r s
  | None => target <> [] -> settled target r -> step_spec target r None
  end.
Proof.
  intros <-. unfold next_placement_step.
  destruct (transfer_outstanding r) eqn:Hdebt; [intros _ [_ Hd _]; congruence|].
  destruct target as [|want rest]; [done|]. set (target := want :: rest) in *.
  destruct (find _ target) as [m|] eqn:Emiss.
  { apply find_Some_elem in Emiss as [Hm Hout].
    by rewrite negb_true_iff, bool_decide_eq_false in Hout. }
  destruct (existsb _ target) eqn:El.
  { apply existsb_elem_of in El as (t & Ht & Hs). apply bool_decide_eq_true in Hs.
    intros _ [_ _ Hlearn]. by apply Hlearn in Ht. }
  assert (Hcov : covered target r).
  { intros t Ht. pose proof (find_None_elem _ _ Emiss t Ht) as Hin.
    rewrite negb_false_iff, bool_decide_eq_true in Hin. split; [done|].
    rewrite existsb_not_elem_of in El. specialize (El t Ht). by apply bool_decide_eq_false in El. }
  destruct (find _ (peers r)) as [n|] eqn:E1.
  { apply find_Some_elem in E1 as [Hn Hout].
    rewrite andb_true_iff, !negb_true_iff, bool_decide_eq_false, N.eqb_neq in Hout.
    by destruct Hout. }
  clear E1. destruct (N.eqb_spec (primary r) want) as [Hp|Hp]; cbn [negb].
  - destruct (find _ (peers r)) as [n|] eqn:E2; cbn [step_spec].
    + apply find_Some_elem in E2 as [Hn Hout]. rewrite negb_true_iff, bool_decide_eq_false in Hout.
      split_and!; [done..|]. intros ->. apply Hout. rewrite Hp. by left.
    + intros _ _. split_and!; [done| |by rewrite Hp]. intros p Hpp.
      pose proof (find_None_elem _ _ E2 p Hpp) as H. by rewrite negb_false_iff, bool_decide_eq_true in H.
  - cbn [step_spec]. split_and!; [done..|]. congruence.
Qed.

Lemma next_step_spec target r :
  target <> [] -> settled target r -> step_spec target r (next_placement_step r target).
Proof.
  intros Hne Hset. pose proof (next_step_cases target r _ eq_refl) as H.
  destruct (next_placement_step r target); [by destruct H|by apply H].
Qed.

(** ** Effects of the committed operations *)

Lemma add_promote_effect n r :
  transfer_outstanding r = false -> n ∉ peers r ->
  exists r1 r2, add_peer n (epoch r) true r = Ok r1 /\
    promote_peer (region_id r) n (epoch r1) r1 = Ok r2 /\
    peers r2 = peers r ++ [n] /\ primary r2 = primary r /\
    transfer_verified r2 = transfer_verified r /\
    (forall p, p ∈ staging_peers r2 <-> p ∈ staging_peers r /\ p <> n).
Proof.
  intros Hdebt Hn. unfold add_peer. rewrite Hdebt, bool_decide_false by done.
  eexists. eexists. split; [reflexivity|]. unfold promote_peer. cbn [peers set_epoch].
  rewrite bool_decide_true; cbn [negb].
  2:{ destruct (true && _); cbn; apply elem_of_app; right; by left. }
  split; [reflexivity|]. cbn [staging_peers set_peers].
  case_bool_decide as Hs; cbn [negb andb];
    cbn [peers primary transfer_verified staging_peers set_epoch set_staging_peers set_peers];
    split_and!; try done; intros p; rewrite elem_of_retain_ne; [done|].
  rewrite elem_of_app, list_elem_of_singleton. naive_solver.
Qed.

Lemma remove_effect n r :
  transfer_outstanding r = false -> region_wf r -> n ∈ peers r -> n <> primary r ->
  exists r1, remove_peer n (epoch r) r = Ok r1 /\
    peers r1 = retain_ne n (peers r) /\ primary r1 = primary r /\
    transfer_verified r1 = transfer_verified r /\ staging_peers r1 = retain_ne n (staging_peers r).
Proof.
  intros Hdebt [_ _ Hnd Hp Hl _] Hn Hne. unfold remove_peer.
  rewrite Hdebt, bool_decide_true by done. cbn [negb].
  rewrite (proj2 (N.eqb_neq _ _)) by congruence.
  assert (Hlen : (2 <= length (peers r))%nat).
  { change 2%nat with (length [n; primary r]). apply submseteq_length, NoDup_submseteq.
    - constructor; [by rewrite list_elem_of_singleton|apply NoDup_singleton].
    - intros x. rewrite elem_of_cons, list_elem_of_singleton. by intros [-> | ->]. }
  rewrite (proj2 (Nat.leb_gt _ _)) by lia.
  assert (Hrem : remaining_serving n r <> 0%nat).
  { unfold remaining_serving. intros H0%length_zero_iff_nil.
    assert (Hin : primary r ∈ List.filter (fun p => negb (p =? n) && is_serving_peer r p) (peers r)).
    { apply filterb_elem_of. split; [done|]. unfold is_serving_peer.
      rewrite (proj2 (N.eqb_neq _ _)) by congruence. rewrite bool_decide_true by done.
      by rewrite bool_decide_false. }
    rewrite H0 in Hin. by apply elem_of_nil in Hin. }
  rewrite (proj2 (Nat.eqb_neq _ _)) by done. eexists. by split.
Qed.

Lemma promote_effect n r :
  n ∈ peers r -> n ∉ staging_peers r ->
  exists r1, transfer_primary (region_id r) n (epoch r) r = Ok r1 /\
    peers r1 = peers r /\ primary r1 = n /\
    transfer_verified r1 = transfer_verified r /\ staging_peers r1 = staging_peers r.
Proof.
  intros Hn Hs. unfold transfer_primary. rewrite bool_decide_false by done.
  rewrite bool_decide_true by done. eexists. by split.
Qed.

(** The three ways a settled region changes. *)
Lemma converge_cases target r r' :
  target <> [] -> settled target r -> converge_step target r r' ->
  transfer_verified r' = transfer_verified r /\
  ((exists n, n ∈ target /\ (n ∉ peers r) /\ peers r' = peers r ++ [n] /\ primary r' = primary r /\
      (forall p, p ∈ staging_peers r' <-> p ∈ staging_peers r /\ p <> n)) \/
   (exists n, covered target r /\ n ∈ peers r /\ (n ∉ target) /\ peers r' = retain_ne n (peers r) /\
      primary r' = primary r /\ staging_peers r' = retain_ne n (staging_peers r)) \/
   (exists n, covered target r /\ head target = Some n /\ n <> primary r /\ peers r' = peers r /\
      primary r' = n /\ staging_peers r' = staging_peers r)).
Proof.
  intros Hne Hset Hstep. pose proof (next_step_spec target r Hne Hset) as Hspec.
  destruct Hset as [Hwf Hdebt Hlearn].
  destruct Hstep as [m n r1 r2 Hs Hn Hout Ha Hb|n r1 Hs Ha|n r1 Hs Ha]; rewrite Hs in Hspec; cbn in Hspec.
  - destruct (add_promote_effect n r Hdebt Hout) as (x1 & x2 & E1 & E2 & Hp & Hpr & Htv & Hst).
    rewrite Ha in E1. injection E1 as <-. rewrite Hb in E2. injection E2 as <-.
    split; [done|]. left. by exists n.
  - destruct Hspec as (Hcov & Hn & Hout & Hnp).
    destruct (remove_effect n r Hdebt Hwf Hn Hnp) as (x1 & E1 & Hp & Hpr & Htv & Hst).
    rewrite Ha in E1. injection E1 as <-. split; [done|]. right. left. by exists n.
  - destruct Hspec as (Hcov & Hh & Hnp).
    destruct (Hcov n) as [Hn Hs']; [destruct target; by simplify_eq/=; left|].
    destruct (promote_effect n r Hn Hs') as (x1 & E1 & Hp & Hpr & Htv & Hst).
    rewrite Ha in E1. injection E1 as <-. split; [done|]. right. right. by exists n.
Qed.

Lemma converge_step_wf target r r' : converge_step target r r' -> region_wf r -> region_wf r'.
Proof.
  intros [m n r1 r2 _ _ _ Ha Hb|n r1 _ Ha|n r1 _ Ha] Hwf.
  - apply promote_peer_wf in Hb as [_ Hb]. apply add_peer_wf in Ha as [_ Ha]. auto.
  - apply remove_peer_wf in Ha as [_ Ha]. auto.
  - apply transfer_primary_wf in Ha as [_ Ha]. auto.
Qed.

Lemma converge_settled target r r' :
  target <> [] -> settled target r -> converge_step target r r' -> settled target r'.
Proof.
  intros Hne Hset Hstep. pose proof (converge_step_wf _ _ _ Hstep (settled_wf _ _ Hset)) as Hwf'.
  destruct (converge_cases _ _ _ Hne Hset Hstep) as [Htv Hcases].
  destruct Hset as [Hwf Hdebt Hlearn]. split; [done| |].
  - unfold transfer_outstanding in *. by rewrite Htv.
  - intros t Ht. specialize (Hlearn t Ht).
    destruct Hcases as [(n & _ & _ & _ & _ & Hs)|[(n & _ & _ & _ & _ & _ & ->)|(n & _ & _ & _ & _ & _ & ->)]].
    + rewrite Hs. naive_solver.
    + rewrite elem_of_retain_ne. naive_solver.
    + done.
Qed.

Lemma converge_gap target r r' :
  target <> [] -> settled target r -> converge_step target r r' ->
  (gap target r' < gap target r)%nat.
Proof.
  intros Hne Hset Hstep. destruct (converge_cases _ _ _ Hne Hset Hstep) as [_ Hcases]. unfold gap.
  destruct Hcases as [(n & Hn & Hout & -> & -> & _)
                     |[(n & Hcov & Hn & Hout & -> & -> & _)|(n & _ & Hh & Hnp & -> & -> & _)]].
  - apply Nat.add_lt_mono_r. rewrite filterb_app, length_app. cbn [List.filter].
    rewrite (bool_decide_true (n ∈ target)) by done. cbn [negb length].
    enough (length (List.filter (fun t => negb (bool_decide (t ∈ peers r ++ [n]))) target)
            < length (List.filter (fun t => negb (bool_decide (t ∈ peers r))) target))%nat by lia.
    apply filterb_length_lt with (y := n); [|done|by rewrite bool_decide_false|].
    + intros x _. rewrite !negb_true_iff, !bool_decide_eq_false, elem_of_app. naive_solver.
    + rewrite negb_false_iff, bool_decide_eq_true, elem_of_app, list_elem_of_singleton. by right.
  - apply Nat.add_lt_mono_r.
    enough (length (List.filter (fun t => negb (bool_decide (t ∈ retain_ne n (peers r)))) target)
            <= length (List.filter (fun t => negb (bool_decide (t ∈ peers r))) target) /\
            length (List.filter (fun p => negb (bool_decide (p ∈ target))) (retain_ne n (peers r)))
            < length (List.filter (fun p => negb (bool_decide (p ∈ target))) (peers r)))%nat by lia.
    split.
    + apply filterb_length_le. intros t Ht. rewrite !negb_true_iff, !bool_decide_eq_false.
      rewrite elem_of_retain_ne. intros H Hin. apply H. split; [done|]. by intros ->.
    + unfold retain_ne. rewrite filterb_filterb. apply filterb_length_lt with (y := n).
      * intros x _. rewrite andb_true_iff. by intros [_ ?].
      * done.
      * by rewrite bool_decide_false.
      * by rewrite N.eqb_refl.
  - rewrite Hh. rewrite (bool_decide_true (Some n = Some n)) by done.
    rewrite bool_decide_false by congruence. lia.
Qed.

(** Every step is accepted by the state machine. *)
Lemma step_accepted target r s :
  region_wf r -> next_placement_step r target = Some s ->
  match s with
  | Add n => exists r1 r2, add_peer n (epoch r) true r = Ok r1 /\
               promote_peer (region_id r) n (epoch r1) r1 = Ok r2
  | Remove n => exists r1, remove_peer n (epoch r) r = Ok r1
  | Promote n => exists r1, transfer_primary (region_id r) n (epoch r) r = Ok r1
  end.
Proof.
  intros Hwf E. apply next_step_cases in E as [Hdebt Hspec].
  destruct s as [n|n|n]; cbn in Hspec.
  - destruct Hspec as [Hn Hout].
    destruct (add_promote_effect n r Hdebt Hout) as (x1 & x2 & E1 & E2 & _). eauto.
  - destruct Hspec as (_ & Hn & _ & Hnp).
    destruct (remove_effect n r Hdebt Hwf Hn Hnp) as (x1 & E1 & _). eauto.
  - destruct Hspec as (Hcov & Hh & _).
    destruct (Hcov n) as [Hn Hs']; [destruct target; by simplify_eq/=; left|].
    destruct (promote_effect n r Hn Hs') as (x1 & E1 & _). eauto.
Qed.

(** A settled region that is not at its target can take a step. *)
Lemma converge_progress target r s :
  region_wf r -> next_placement_step r target = Some s -> exists r', converge_step target r r'.
Proof.
  intros Hwf E. pose proof (step_accepted target r s Hwf E) as H.
  destruct s as [n|n|n].
  - destruct H as (x1 & x2 & E1 & E2). exists x2.
    destruct (next_step_cases _ _ _ E) as [_ [Hn Hout]]. by eapply converge_add.
  - destruct H as (x1 & E1). exists x1. by eapply converge_remove.
  - destruct H as (x1 & E1). exists x1. by eapply converge_promote.
Qed.

Lemma fixed_point_at_target target r :
  target <> [] -> NoDup target -> settled target r -> next_placement_step r target = None ->
  at_target target r.
Proof.
  intros Hne Hnd Hset E. pose proof (next_step_spec target r Hne Hset) as Hspec. rewrite E in Hspec.
  destruct Hspec as (Hcov & Hsub & Hh). split; [|done].
  apply NoDup_Permutation; [by destruct Hset as [[]]|done|]. intros p.
  split; [apply Hsub|]. intros Hp. by apply Hcov.
Qed.

Lemma converge_rtc_settled target r r' :
  target <> [] -> settled target r -> rtc (converge_step target) r r' -> settled target r'.
Proof.
  intros Hne Hset. induction 1 as [|r r1 r' Hs _ IH]; [done|].
  by apply IH, (converge_settled target r).
Qed.

(** ** Theorems *)

(** The step the planner asks for is never refused: on a well-formed
    region the operations that [try_converge_placement] proposes for it are
    accepted by the state machine under the region's current epoch. *)
Theorem placement_step_never_refused (r : ShardRegion) (target : list N) (s : PlacementStep) :
  region_wf r -> next_placement_step r target = Some s ->
  match s with
  | Add n => exists r1 r2, add_peer n (epoch r) true r = Ok r1 /\
               promote_peer (region_id r) n (epoch r1) r1 = Ok r2
  | Remove n => exists r1, remove_peer n (epoch r) r = Ok r1
  | Promote n => exists r1, transfer_primary (region_id r) n (epoch r) r = Ok r1
  end.
Proof. apply step_accepted. Qed.

(** C10: Convergence reaches the target. From a settled region every sequence
    of committed steps is at most [gap] long, it can always be extended until
    [next_placement_step] returns [None], and then the peers are exactly the
    target and the primary is its first node. *)
Theorem placement_converges (r : ShardRegion) (target : list N) :
  target <> [] -> NoDup target -> settled target r ->
  (forall n r', nsteps (converge_step target) n r r' -> (n <= gap target r)%nat) /\
  (forall r', rtc (converge_step target) r r' ->
     (exists r'', converge_step target r' r'') \/
     (next_placement_step r' target = None /\ at_target target r')).
Proof.
  intros Hne Hnd Hset. split.
  - intros n r' Hn. revert Hset. induction Hn as [r|n r r1 r' Hs Hn IH]; intros Hset; [lia|].
    pose proof (converge_gap target r r1 Hne Hset Hs).
    specialize (IH (converge_settled target r r1 Hne Hset Hs)). lia.
  - intros r' Hr. pose proof (converge_rtc_settled target r r' Hne Hset Hr) as Hset'.
    destruct (next_placement_step r' target) as [s|] eqn:E.
    + left. eapply converge_progress; [by destruct Hset'|done].
    + right. split; [done|]. by apply fixed_point_at_target.
Qed.

Lemma serving_peers_elem r p : p ∈ serving_peers r <-> p ∈ peers r /\ p ∉ staging_peers r.
Proof.
  unfold serving_peers, is_serving_peer. rewrite filterb_elem_of, andb_true_iff, negb_true_iff.
  rewrite bool_decide_eq_true, bool_decide_eq_false. naive_solver.
Qed.

Lemma serving_peers_NoDup r : region_wf r -> NoDup (serving_peers r).
Proof. intros []. by apply filterb_NoDup. Qed.

(** The replication factor never dips while converging: after a committed
    step the region has at least as many serving copies as before it or as
    the target asks for, and every target member that was serving still is. *)
Theorem convergence_keeps_replication (r r' : ShardRegion) (target : list N) :
  target <> [] -> NoDup target -> settled target r -> converge_step target r r' ->
  (Nat.min (length (serving_peers r)) (length target) <= length (serving_peers r'))%nat /\
  (forall t, t ∈ target -> t ∈ serving_peers r -> t ∈ serving_peers r').
Proof.
  intros Hne Hnd Hset Hstep. destruct (converge_cases _ _ _ Hne Hset Hstep) as [_ Hcases].
  pose proof (serving_peers_NoDup r (settled_wf _ _ Hset)) as Hsnd.
  assert (Hlen : forall l, NoDup l -> (forall p, p ∈ l -> p ∈ serving_peers r') ->
                   (length l <= length (serving_peers r'))%nat).
  { intros l Hl Hsub. by apply submseteq_length, NoDup_submseteq. }
  assert (Hkeep : forall t, t ∈ target -> t ∈ serving_peers r -> t ∈ serving_peers r').
  { intros t Ht. rewrite !serving_peers_elem.
    destruct Hcases as [(n & _ & Hout & -> & _ & Hs)|[(n & _ & _ & Hout & -> & _ & ->)|(n & _ & _ & _ & -> & _ & ->)]].
    - rewrite Hs, elem_of_app. naive_solver.
    - rewrite !elem_of_retain_ne. naive_solver.
    - done. }
  split; [|done].
  destruct Hcases as [(n & _ & Hout & Hp & _ & Hs)|[(n & Hcov & _)|(n & _ & _ & _ & Hp & _ & Hs)]].
  - etrans; [apply Nat.le_min_l|]. apply Hlen; [done|]. intros p.
    rewrite !serving_peers_elem, Hp, Hs, elem_of_app. naive_solver.
  - etrans; [apply Nat.le_min_r|]. apply Hlen; [done|]. intros t Ht. apply Hkeep; [done|].
    apply serving_peers_elem. by apply Hcov.
  - etrans; [apply Nat.le_min_l|]. apply Hlen; [done|]. intros p.
    by rewrite !serving_peers_elem, Hp, Hs.
Qed.

(** Pacing. Moves for durability or evacuation are unpaced; [movers]
    concurrent balance moves together stay within the cap when it gives each
    of them at least a byte per second, and never exceed the larger of the
    cap and one byte per second each. *)
Theorem move_rate_bound (tier : MoveTier) (cap : N) (movers : nat) :
  let rate := move_rate_bytes_per_sec tier cap movers in
  let m := N.of_nat (Nat.max movers 1) in
  (tier <> Convergence \/ cap = 0 -> rate = 0) /\
  (m <= cap -> m * rate <= cap) /\ m * rate <= N.max cap m.
Proof.
  cbn zeta. unfold move_rate_bytes_per_sec. set (m := N.of_nat (Nat.max movers 1)).
  assert (Hm : 0 < m) by lia. pose proof (N.Div0.mul_div_le cap m) as Hdiv.
  case_bool_decide as Ht; cbn [negb orb].
  - destruct (N.eqb_spec cap 0) as [->|Hcap]; [split_and!; lia|]. split_and!; [naive_solver|..]; nia.
  - split_and!; lia.
Qed.

(** When the cap is below the number of movers the floor of one byte per
    second each breaks it: eight movers under a cap of three send eight. *)
Theorem move_rate_can_exceed_cap :
  3 < 8 * move_rate_bytes_per_sec Convergence 3 8.
Proof. vm_compute. reflexivity. Qed.

(** Planning weights: one per region, never zero, never below what the
    region reported, and within [u64] when the reports are. *)
Theorem estimate_region_weights_bounds (rs : list (N * N)) :
  length (estimate_region_weights rs) = length rs /\
  forall i w reported wt, rs !! i = Some (w, reported) ->
    estimate_region_weights rs !! i = Some wt ->
    1 <= wt /\ reported <= wt /\ (reported <= u64_max -> wt <= u64_max).
Proof.
  unfold estimate_region_weights. destruct (fold_left _ _ _) as [series width].
  split; [by rewrite length_fmap|]. intros i w reported wt Hi.
  rewrite list_lookup_fmap, Hi. cbn. intros [= <-].
  assert (1 <= u64_max) by done. case_match; reflect_bools; lia.
Qed.

Lemma colocate_step_spec ms plan run id series plan' run' :
  colocate_step ms (plan, run) (id, series) = (plan', run') ->
  plan' = plan \/
  exists s h t, series = Some s /\ s < ms /\ plan !! h = Some t /\ plan' = <[id := t]> plan.
Proof.
  unfold colocate_step. destruct series as [s|]; [|by intros [= <- _]; left].
  destruct (N.ltb_spec s ms) as [Hs|]; [|by intros [= <- _]; left].
  destruct run as [[h total]|]; [|by intros [= <- _]; left].
  destruct (_ <? _); [|by intros [= <- _]; left].
  destruct (plan !! h) as [t|] eqn:E; intros [= <- _]; [|by left].
  right. by exists s, h, t.
Qed.

(** Co-locating small neighbours only retargets regions whose report is
    below the merge threshold, and only to a target some region of the plan
    already has. *)
Theorem colocate_touches_small_only (plan : gmap N (list N)) (rs : list (N * option N)) (ms : N) :
  let plan' := colocate_small_neighbours plan rs ms in
  (forall id, (forall s, (id, Some s) ∈ rs -> ms <= s) -> plan' !! id = plan !! id) /\
  (forall id t, plan' !! id = Some t -> exists id0, plan !! id0 = Some t).
Proof.
  cbn zeta. unfold colocate_small_neighbours.
  assert (Hgen : forall l plan run,
    let p := (fold_left (colocate_step ms) l (plan, run)).1 in
    (forall id, (forall s, (id, Some s) ∈ l -> ms <= s) -> p !! id = plan !! id) /\
    (forall id t, p !! id = Some t -> exists id0, plan !! id0 = Some t)).
  { clear. induction l as [|[id series] l IH]; intros plan run; cbn [fold_left]; [naive_solver|].
    destruct (colocate_step ms (plan, run) (id, series)) as [plan1 run1] eqn:E.
    destruct (IH plan1 run1) as [H1 H2]. apply colocate_step_spec in E. split.
    - intros id' Hid. rewrite H1 by (intros s Hs; apply Hid; by right).
      destruct E as [->|(s & h & t & -> & Hs & Ht & ->)]; [done|].
      rewrite lookup_insert_ne; [done|]. intros ->. specialize (Hid s ltac:(by left)). lia.
    - intros id' t Hid. apply H2 in Hid as [id0 Hid].
      destruct E as [->|(s & h & t' & -> & Hs & Ht & ->)]; [eauto|].
      apply lookup_insert_Some in Hid as [[_ <-]|[_ Hid]]; eauto. }
  apply Hgen.
Qed.

(** ** Witnesses *)

(** A region on nodes 1 and 2 led by 1, to be moved to 2 and 3 led by 2. *)
Definition drifted : ShardRegion :=
  mkRegion 7 0 1000 (mkEpoch 1 1) [1; 2] 1 0 None None Serving None [].

Definition drift_target : list N := [2; 3].

Lemma drifted_wf : region_wf drifted.
Proof.
  split.
  - unfold u64_region. vm_compute. repeat split; done.
  - done.
  - cbn. repeat (constructor; [set_solver|]). constructor.
  - by left.
  - by intros ?%elem_of_nil.
  - by intros p ?%elem_of_nil.
Qed.

Lemma drifted_settled : settled drift_target drifted.
Proof. split; [exact drifted_wf|done|]. by intros t _ ?%elem_of_nil. Qed.

Lemma drift_target_NoDup : NoDup drift_target.
Proof. repeat (constructor; [set_solver|]). constructor. Qed.

Lemma placement_step_never_refused_witness :
  next_placement_step drifted drift_target = Some (Add 3) /\
  exists r1 r2, add_peer 3 (epoch drifted) true drifted = Ok r1 /\
    promote_peer (region_id drifted) 3 (epoch r1) r1 = Ok r2.
Proof.
  split; [vm_compute; reflexivity|].
  apply (placement_step_never_refused drifted drift_target (Add 3) drifted_wf).
  vm_compute. reflexivity.
Defined.

Lemma placement_converges_witness :
  (exists r', converge_step drift_target drifted r') \/
  (next_placement_step drifted drift_target = None /\ at_target drift_target drifted).
Proof.
  apply (placement_converges drifted drift_target); [done|exact drift_target_NoDup|exact drifted_settled|].
  apply rtc_refl.
Defined.

(** The region after node 3 joined. *)
Definition joined : ShardRegion :=
  mkRegion 7 0 1000 (mkEpoch 3 1) [1; 2; 3] 1 0 None None Serving None [].

Lemma convergence_keeps_replication_witness :
  converge_step drift_target drifted joined /\ (2 <= length (serving_peers joined))%nat.
Proof.
  assert (H : converge_step drift_target drifted joined).
  { eapply (converge_add _ _ 3 3); [vm_compute; reflexivity|right; by left| |vm_compute; reflexivity..].
    cbn [peers drifted]. rewrite !elem_of_cons, elem_of_nil. lia. }
  split; [done|].
  apply (convergence_keeps_replication drifted joined drift_target);
    [done|exact drift_target_NoDup|exact drifted_settled|done].
Defined.
