(* ===== verification/Membership.v ===== *)
(** * Cluster membership ([hyperbytedb/src/domain/cluster/membership.rs],
      [hyperbytedb/src/application/cluster/heartbeat.rs])

    The node table, its lifecycle, the heartbeat prober that converges it to
    what the peers report of themselves, and the merges the Raft store makes
    into it ([hyperbytedb/src/adapters/cluster/raft/log_store.rs]). *)

From stdpp Require Import prelude list gmap fin_maps strings.
From S2P Require Import Prelude.
From stdpp Require Import options.

#[local] Open Scope N_scope.

(** ** Node states *)

Inductive NodeState :=
| Joining | Syncing | Active | Disconnected | Draining | Decommissioning | Leaving.

#[export] Instance NodeState_eq_dec : EqDecision NodeState.
Proof. solve_decision. Defined.

(** [Display for NodeState]. *)
Definition show_node_state (s : NodeState) : string :=
  match s with
  | Joining => "joining"
  | Syncing => "syncing"
  | Active => "active"
  | Disconnected => "disconnected"
  | Draining => "draining"
  | Decommissioning => "decommissioning"
  | Leaving => "leaving"
  end.

(** [FromStr for NodeState]. *)
Definition parse_node_state (s : string) : option NodeState :=
  if bool_decide (s = "joining") then Some Joining
  else if bool_decide (s = "syncing") then Some Syncing
  else if bool_decide (s = "active") then Some Active
  else if bool_decide (s = "disconnected") then Some Disconnected
  else if bool_decide (s = "draining") then Some Draining
  else if bool_decide (s = "decommissioning") then Some Decommissioning
  else if bool_decide (s = "leaving") then Some Leaving
  else None.

Record NodeInfo := mkNode {
  node_id : N;
  addr : string;
  ns : NodeState;
  joined_at : Z;
  last_heartbeat : Z;
  needs_sync : bool;
  consecutive_misses : N
}.

Record ClusterMembership := mkMembership {
  cm_version : N;
  nodes : gmap N NodeInfo
}.

Definition membership_new : ClusterMembership := mkMembership 0 ∅.

(** [self.version += 1], wrapping in a release build. *)
Definition bump (m : ClusterMembership) : ClusterMembership :=
  mkMembership (wrapping_add (cm_version m) 1) (nodes m).

Definition set_nodes (ns : gmap N NodeInfo) (m : ClusterMembership) : ClusterMembership :=
  mkMembership (cm_version m) ns.

Definition with_state (s : NodeState) (n : NodeInfo) : NodeInfo :=
  mkNode (node_id n) (addr n) s (joined_at n) (last_heartbeat n) (needs_sync n)
    (consecutive_misses n).

Definition with_addr (a : string) (n : NodeInfo) : NodeInfo :=
  mkNode (node_id n) a (ns n) (joined_at n) (last_heartbeat n) (needs_sync n)
    (consecutive_misses n).

Definition with_heartbeat (ts : Z) (n : NodeInfo) : NodeInfo :=
  mkNode (node_id n) (addr n) (ns n) (joined_at n) ts (needs_sync n) (consecutive_misses n).

Definition with_needs_sync (b : bool) (n : NodeInfo) : NodeInfo :=
  mkNode (node_id n) (addr n) (ns n) (joined_at n) (last_heartbeat n) b (consecutive_misses n).

Definition with_misses (c : N) (n : NodeInfo) : NodeInfo :=
  mkNode (node_id n) (addr n) (ns n) (joined_at n) (last_heartbeat n) (needs_sync n) c.

(** [if let Some(node) = self.nodes.get_mut(&id)]. *)
Definition update_node (id : N) (f : NodeInfo -> NodeInfo) (m : ClusterMembership)
    : ClusterMembership := set_nodes (alter f id (nodes m)) m.

(** ** The table's operations *)

Definition add_node (info : NodeInfo) (m : ClusterMembership) : ClusterMembership :=
  bump (set_nodes (<[node_id info := info]> (nodes m)) m).

Definition remove_node (id : N) (m : ClusterMembership) : ClusterMembership :=
  bump (set_nodes (delete id (nodes m)) m).

Definition set_node_state (id : N) (s : NodeState) (m : ClusterMembership)
    : ClusterMembership * bool :=
  match nodes m !! id with
  | Some _ => (bump (update_node id (with_state s) m), true)
  | None => (m, false)
  end.

Definition update_heartbeat (id : N) (ts : Z) (m : ClusterMembership) : ClusterMembership :=
  update_node id (with_heartbeat ts) m.

Definition legal_transition (from to : NodeState) : bool :=
  match from, to with
  | Decommissioning, Leaving => true
  | Decommissioning, _ | Leaving, _ => false
  | _, _ => true
  end.

Definition transition (id : N) (to : NodeState) (m : ClusterMembership)
    : ClusterMembership * bool :=
  match nodes m !! id with
  | None => (m, false)
  | Some node => if legal_transition (ns node) to then set_node_state id to m else (m, false)
  end.

(** [is_departing]: regions must be evacuated off this node. *)
Definition is_departing (n : NodeInfo) : bool :=
  match ns n with Decommissioning | Leaving => true | _ => false end.

(** [is_serving]: may take traffic now. *)
Definition node_is_serving (n : NodeInfo) : bool := bool_decide (ns n = Active).

Definition holds_placement (n : NodeInfo) : bool :=
  match ns n with Active | Draining | Disconnected => true | _ => false end.

Definition complete_sync_to_active (id : N) (m : ClusterMembership) : ClusterMembership * bool :=
  match nodes m !! id with
  | None => (m, false)
  | Some node => if is_departing node then (m, false) else set_node_state id Active m
  end.

Definition begin_sync_to_syncing (id : N) (m : ClusterMembership) : ClusterMembership * bool :=
  match nodes m !! id with
  | None => (m, false)
  | Some node => if is_departing node then (m, false) else set_node_state id Syncing m
  end.

Definition record_probe_miss (id : N) (m : ClusterMembership) : ClusterMembership * N :=
  match nodes m !! id with
  | Some node =>
    let c := N.min (consecutive_misses node + 1) u32_max in
    (update_node id (with_misses c) m, c)
  | None => (m, 0)
  end.

Definition record_probe_success (id : N) (m : ClusterMembership) : ClusterMembership :=
  update_node id (fun n => with_misses (sat_sub (consecutive_misses n) 1) n) m.

Definition set_needs_sync (id : N) (b : bool) (m : ClusterMembership) : ClusterMembership :=
  update_node id (with_needs_sync b) m.

(** [self.nodes.values()]; the order of a [HashMap] is not fixed. *)
Definition node_values (m : ClusterMembership) : list NodeInfo := (map_to_list (nodes m)).*2.

Definition active_peers (exclude_id : N) (m : ClusterMembership) : list NodeInfo :=
  List.filter (fun n => negb (node_id n =? exclude_id) && bool_decide (ns n = Active))
    (node_values m).

Definition replication_peers (exclude_id : N) (m : ClusterMembership) : list NodeInfo :=
  List.filter (fun n => negb (node_id n =? exclude_id) && negb (is_departing n)) (node_values m).

Definition all_peers (exclude_id : N) (m : ClusterMembership) : list NodeInfo :=
  List.filter (fun n => negb (node_id n =? exclude_id)) (node_values m).

Definition get_node (id : N) (m : ClusterMembership) : option NodeInfo := nodes m !! id.

(** [self.nodes.keys().max().map_or(1, |m| m + 1)]. *)
Definition next_node_id (m : ClusterMembership) : N :=
  match (map_to_list (nodes m)).*1 with
  | [] => 1
  | k :: ks => wrapping_add (fold_right N.max k ks) 1
  end.

(** ** The heartbeat prober *)

Record HealthBody := mkHealth { hb_state : option NodeState; hb_needs_sync : option bool }.

(** [HealthBody::parse] once the two JSON fields are extracted: the text of
    ["state"], if it is a string, and ["needs_sync"], if it is a boolean. *)
Definition health_body (state : option string) (needs : option bool) : option HealthBody :=
  let st := match state with Some s => parse_node_state s | None => None end in
  match st, needs with
  | None, None => None
  | _, _ => Some (mkHealth st needs)
  end.

Definition ready (b : HealthBody) : bool :=
  bool_decide (hb_state b = Some Active) && negb (bool_decide (hb_needs_sync b = Some true)).

Inductive ProbeSignal :=
| Unreachable
| Response (health_ok : bool) (body : option HealthBody).

Definition decide_transition_with (current : NodeState) (signal : ProbeSignal)
    (misses threshold : N) (sync_gates_readmit : bool) : option NodeState :=
  let is_ready b :=
    ready b || (negb sync_gates_readmit && bool_decide (hb_state b = Some Active)) in
  let then_active (c : bool) := if c then Some Active else None in
  match signal with
  | Unreachable =>
    match current with
    | Active | Syncing => if threshold <=? misses then Some Disconnected else None
    | _ => None
    end
  | Response _ None => then_active (bool_decide (current = Disconnected))
  | Response _ (Some b) =>
    match current with
    | Disconnected =>
      match hb_state b with
      | Some Decommissioning => Some Decommissioning
      | Some Leaving => Some Leaving
      | Some Draining => Some Draining
      | Some Syncing => Some Syncing
      | _ => then_active (is_ready b)
      end
    | Syncing => then_active (is_ready b)
    | Active =>
      match hb_state b with
      | Some Syncing => Some Syncing
      | Some Draining => Some Draining
      | Some Decommissioning => Some Decommissioning
      | Some Leaving => Some Leaving
      | _ => None
      end
    | Draining => then_active (is_ready b)
    | Decommissioning | Leaving => None
    | Joining => then_active (is_ready b)
    end
  end.

(** [if next != current { m.set_state(pid, next) }]. *)
Definition move_to (id : N) (current : NodeState) (next : option NodeState)
    (m : ClusterMembership) : ClusterMembership :=
  match next with
  | None => m
  | Some s => if bool_decide (s = current) then m else (set_node_state id s m).1
  end.

(** The body of the result loop of [probe_peers]. *)
Definition apply_probe (threshold : N) (gates : bool) (now : Z) (m : ClusterMembership)
    (result : N * ProbeSignal) : ClusterMembership :=
  let '(id, signal) := result in
  match signal with
  | Unreachable =>
    let '(m, misses) := record_probe_miss id m in
    match get_node id m with
    | None => m
    | Some n => move_to id (ns n) (decide_transition_with (ns n) signal misses threshold gates) m
    end
  | Response _ _ =>
    let m := record_probe_success id (update_heartbeat id now m) in
    match get_node id m with
    | None => m
    | Some n => move_to id (ns n) (decide_transition_with (ns n) signal 0 threshold gates) m
    end
  end.

Definition probe_peers (threshold : N) (gates : bool) (now : Z) (m : ClusterMembership)
    (results : list (N * ProbeSignal)) : ClusterMembership :=
  fold_left (apply_probe threshold gates now) results m.

(** ** Merges made by the Raft store *)

Definition self_owned (s : NodeState) : bool :=
  match s with Active | Syncing => true | _ => false end.

Definition merge_snapshot_node (shared : ClusterMembership) (entry : N * NodeInfo)
    : ClusterMembership :=
  let '(id, info) := entry in
  match nodes shared !! id with
  | Some existing =>
    let existing' := with_addr (addr info) existing in
    let existing' := if self_owned (ns existing') then existing' else with_state (ns info) existing' in
    set_nodes (<[id := existing']> (nodes shared)) shared
  | None => add_node info shared
  end.

Definition merge_snapshot_membership (shared incoming : ClusterMembership) : ClusterMembership :=
  fold_left merge_snapshot_node (map_to_list (nodes incoming)) shared.

Definition self_reported (s : NodeState) : bool :=
  match s with Active | Syncing | Joining => true | _ => false end.

Definition merge_persisted_node (shared : ClusterMembership) (entry : N * NodeInfo)
    : ClusterMembership :=
  let '(id, info) := entry in
  match nodes shared !! id with
  | Some existing =>
    let existing' := with_addr (addr info) existing in
    let existing' :=
      if self_reported (ns existing') && self_reported (ns info) then existing'
      else with_state (ns info) existing' in
    set_nodes (<[id := existing']> (nodes shared)) shared
  | None => add_node info shared
  end.

Definition merge_persisted_membership (shared persisted : ClusterMembership)
    : ClusterMembership :=
  fold_left merge_persisted_node (map_to_list (nodes persisted))
    (mkMembership (N.max (cm_version shared) (cm_version persisted)) (nodes shared)).

(** One node of the Raft topology: known nodes keep their state, a new voter
    starts [Active] and a new learner [Syncing]. *)
Definition upsert_topology (now : Z) (voters : gset N) (shared : ClusterMembership)
    (entry : N * string) : ClusterMembership :=
  let '(nid, a) := entry in
  let raft_state := if bool_decide (nid ∈ voters) then Active else Syncing in
  match nodes shared !! nid with
  | Some existing => set_nodes (<[nid := with_heartbeat now (with_addr a existing)]> (nodes shared)) shared
  | None => add_node (mkNode nid a raft_state now now false 0) shared
  end.

Definition stale_ids (all_nodes : gmap N string) (shared : ClusterMembership) : list N :=
  List.filter (fun id => negb (bool_decide (is_Some (all_nodes !! id))))
    ((map_to_list (nodes shared)).*1).

Definition sync_raft_membership_to_shared (now : Z) (voters : gset N) (all_nodes : gmap N string)
    (shared : ClusterMembership) : ClusterMembership :=
  let shared := fold_left (upsert_topology now voters) (map_to_list all_nodes) shared in
  fold_left (fun m id => remove_node id m) (stale_ids all_nodes shared) shared.

(** [hydrate_shared_membership_from_state_machine]. *)
Definition hydrate_shared_membership (now : Z) (voters : gset N) (raft_nodes : gmap N string)
    (persisted shared : ClusterMembership) : ClusterMembership :=
  if bool_decide (raft_nodes = ∅) && bool_decide (nodes persisted = ∅) then shared
  else
    let shared :=
      if bool_decide (nodes persisted = ∅) then shared
      else merge_persisted_membership shared persisted in
    fold_left (upsert_topology now voters) (map_to_list raft_nodes) shared.

(** ** Lifecycle of one node *)

(** The writers that run without an operator asking to bring a node back. *)
Inductive lifecycle_step : ClusterMembership -> ClusterMembership -> Prop :=
| ls_transition id to m : lifecycle_step m (transition id to m).1
| ls_complete_sync id m : lifecycle_step m (complete_sync_to_active id m).1
| ls_begin_sync id m : lifecycle_step m (begin_sync_to_syncing id m).1
| ls_heartbeat id ts m : lifecycle_step m (update_heartbeat id ts m)
| ls_needs_sync id b m : lifecycle_step m (set_needs_sync id b m)
| ls_probes th gates now results m : lifecycle_step m (probe_peers th gates now m results)
| ls_topology now voters all_nodes m :
    lifecycle_step m (sync_raft_membership_to_shared now voters all_nodes m).

(** Once departing, a record keeps its state or moves on to [Leaving]. *)
Definition departure_kept (a b : option NodeInfo) : Prop :=
  match a with
  | None => True
  | Some i =>
    is_departing i = true ->
    match b with
    | None => True
    | Some i' => ns i' = ns i \/ (ns i = Decommissioning /\ ns i' = Leaving)
    end
  end.

(** A departing record stays, in its state. *)
Definition departure_frozen (a b : option NodeInfo) : Prop :=
  match a with
  | None => True
  | Some i => is_departing i = true -> exists i', b = Some i' /\ ns i' = ns i
  end.

Lemma frozen_kept a b : departure_frozen a b -> departure_kept a b.
Proof. destruct a as [i|]; cbn; [|done]. intros H Hd. destruct (H Hd) as (i' & -> & ->). by left. Qed.

Lemma frozen_refl a : departure_frozen a a.
Proof. destruct a as [i|]; cbn; eauto. Qed.

Lemma frozen_trans a b c : departure_frozen a b -> departure_frozen b c -> departure_frozen a c.
Proof.
  destruct a as [i|]; cbn; [|done]. intros H1 H2 Hd. destruct (H1 Hd) as (i' & -> & Hi).
  cbn in H2. unfold is_departing in *. rewrite <- Hi in Hd |- *. by apply H2.
Qed.

Lemma set_node_state_lookup id s m id' :
  nodes (set_node_state id s m).1 !! id' =
  if id =? id' then with_state s <$> nodes m !! id else nodes m !! id'.
Proof.
  unfold set_node_state. destruct (N.eqb_spec id id') as [->|Hne].
  - destruct (nodes m !! id') eqn:E; cbn; [|done]. by rewrite lookup_alter_eq, E.
  - destruct (nodes m !! id) eqn:E; cbn; [|done]. by rewrite lookup_alter_ne.
Qed.

Lemma update_node_lookup id f m id' :
  nodes (update_node id f m) !! id' = if id =? id' then f <$> nodes m !! id else nodes m !! id'.
Proof.
  unfold update_node. cbn. destruct (N.eqb_spec id id') as [->|Hne].
  - by rewrite lookup_alter_eq.
  - by rewrite lookup_alter_ne.
Qed.

(** A state-preserving update of one record. *)
Lemma update_frozen id f m id' :
  (forall n, ns (f n) = ns n) -> departure_frozen (nodes m !! id') (nodes (update_node id f m) !! id').
Proof.
  intros Hf. rewrite update_node_lookup. destruct (N.eqb_spec id id') as [->|]; [|apply frozen_refl].
  destruct (nodes m !! id') as [n|]; [|done]. cbn. intros _. eauto.
Qed.

Lemma decide_departing current signal misses th gates :
  current = Decommissioning \/ current = Leaving ->
  decide_transition_with current signal misses th gates = None.
Proof. by intros [-> | ->]; destruct signal as [|ok [b|]]. Qed.

Lemma departing_cases i : is_departing i = true -> ns i = Decommissioning \/ ns i = Leaving.
Proof. unfold is_departing. destruct (ns i); auto; done. Qed.

(** What one probe does to the record of the node probed. *)
Definition probe_node (th : N) (gates : bool) (now : Z) (signal : ProbeSignal) (n : NodeInfo)
    : NodeInfo :=
  let '(n, misses) :=
    match signal with
    | Unreachable =>
      let c := N.min (consecutive_misses n + 1) u32_max in (with_misses c n, c)
    | Response _ _ => (with_misses (sat_sub (consecutive_misses n) 1) (with_heartbeat now n), 0)
    end in
  match decide_transition_with (ns n) signal misses th gates with
  | Some s => with_state s n
  | None => n
  end.

(** Repeated probes of one node. *)
Definition probe_run (th : N) (gates : bool) (now : Z) (id : N) (signals : list ProbeSignal)
    (m : ClusterMembership) : ClusterMembership :=
  probe_peers th gates now m ((fun s => (id, s)) <$> signals).

Definition is_miss (s : ProbeSignal) : bool := match s with Unreachable => true | _ => false end.

Definition misses_in (l : list ProbeSignal) : N := N.of_nat (length (List.filter is_miss l)).

Definition answers_in (l : list ProbeSignal) : N :=
  N.of_nat (length (List.filter (fun s => negb (is_miss s)) l)).

Lemma move_frozen id n next m id' :
  nodes m !! id = Some n -> (is_departing n = true -> next = None) ->
  departure_frozen (nodes m !! id') (nodes (move_to id (ns n) next m) !! id').
Proof.
  intros Hn Hnext. unfold move_to. destruct next as [s|]; [|apply frozen_refl].
  case_bool_decide; [apply frozen_refl|]. rewrite set_node_state_lookup.
  destruct (N.eqb_spec id id') as [<-|]; [|apply frozen_refl].
  rewrite Hn. cbn. intros Hd. by specialize (Hnext Hd).
Qed.

Lemma set_state_frozen id s m id' :
  (forall n, nodes m !! id = Some n -> is_departing n = false) ->
  departure_frozen (nodes m !! id') (nodes (set_node_state id s m).1 !! id').
Proof.
  intros H. rewrite set_node_state_lookup. destruct (N.eqb_spec id id') as [<-|]; [|apply frozen_refl].
  destruct (nodes m !! id) as [n|]; [|done]. cbn. intros Hd. by rewrite (H n eq_refl) in Hd.
Qed.

Lemma apply_probe_frozen th gates now m res id' :
  departure_frozen (nodes m !! id') (nodes (apply_probe th gates now m res) !! id').
Proof.
  destruct res as [id [|ok body]]; unfold apply_probe.
  - unfold record_probe_miss. destruct (nodes m !! id) as [n0|] eqn:E0.
    + set (m1 := update_node _ _ _).
      apply frozen_trans with (b := nodes m1 !! id'); [by apply update_frozen|].
      unfold get_node. destruct (nodes m1 !! id) as [n|] eqn:E; [|apply frozen_refl].
      apply move_frozen; [done|]. intros Hd. by apply decide_departing, departing_cases.
    + unfold get_node. rewrite E0. apply frozen_refl.
  - unfold record_probe_success, update_heartbeat. set (m1 := update_node _ _ m).
    set (m2 := update_node _ _ m1).
    apply frozen_trans with (b := nodes m2 !! id').
    { apply frozen_trans with (b := nodes m1 !! id'); by apply update_frozen. }
    unfold get_node. destruct (nodes m2 !! id) as [n|] eqn:E; [|apply frozen_refl].
    apply move_frozen; [done|]. intros Hd. by apply decide_departing, departing_cases.
Qed.

Lemma fold_frozen {A} (f : ClusterMembership -> A -> ClusterMembership) l m id :
  (forall m x, departure_frozen (nodes m !! id) (nodes (f m x) !! id)) ->
  departure_frozen (nodes m !! id) (nodes (fold_left f l m) !! id).
Proof.
  intros H. revert m. induction l as [|x l IH]; intros m; cbn; [apply frozen_refl|].
  by eapply frozen_trans.
Qed.

Lemma upsert_frozen now voters m e id :
  departure_frozen (nodes m !! id) (nodes (upsert_topology now voters m e) !! id).
Proof.
  destruct e as [nid a]. unfold upsert_topology. destruct (nodes m !! nid) as [n|] eqn:E; cbn.
  - destruct (decide (nid = id)) as [<-|Hne].
    + rewrite lookup_insert_eq, E. cbn. eauto.
    + rewrite lookup_insert_ne by done. apply frozen_refl.
  - destruct (decide (nid = id)) as [<-|Hne]; [by rewrite E|].
    rewrite lookup_insert_ne by done. apply frozen_refl.
Qed.

Lemma remove_stale_kept l m id :
  nodes (fold_left (fun m id => remove_node id m) l m) !! id = nodes m !! id \/
  nodes (fold_left (fun m id => remove_node id m) l m) !! id = None.
Proof.
  revert m. induction l as [|x l IH]; intros m; cbn [fold_left]; [by left|].
  destruct (IH (remove_node x m)) as [H|H]; rewrite H; [|by right]. cbn.
  destruct (decide (x = id)) as [->|Hne]; [right; apply lookup_delete_eq|left; by apply lookup_delete_ne].
Qed.


(** ** Demotion and readmission *)

Lemma with_state_id n : with_state (ns n) n = n.
Proof. by destruct n. Qed.

Lemma move_to_lookup id n next m :
  nodes m !! id = Some n ->
  nodes (move_to id (ns n) next m) !! id
  = Some (match next with Some s => with_state s n | None => n end).
Proof.
  intros Hn. unfold move_to. destruct next as [s|]; [|done].
  case_bool_decide as E; [by rewrite E, with_state_id|].
  by rewrite set_node_state_lookup, N.eqb_refl, Hn.
Qed.

Lemma apply_probe_lookup th gates now m id signal n :
  nodes m !! id = Some n ->
  nodes (apply_probe th gates now m (id, signal)) !! id = Some (probe_node th gates now signal n).
Proof.
  intros Hn. unfold apply_probe, probe_node. destruct signal as [|ok body].
  - unfold record_probe_miss. rewrite Hn. unfold get_node.
    set (c := N.min _ _). set (m1 := update_node _ _ _).
    assert (H1 : nodes m1 !! id = Some (with_misses c n))
      by (unfold m1; by rewrite update_node_lookup, N.eqb_refl, Hn).
    rewrite H1. by apply move_to_lookup.
  - unfold record_probe_success, update_heartbeat, get_node. set (m2 := update_node _ _ _).
    set (n2 := with_misses _ _).
    assert (H2 : nodes m2 !! id = Some n2)
      by (unfold m2; by rewrite update_node_lookup, N.eqb_refl, update_node_lookup, N.eqb_refl, Hn).
    rewrite H2. by apply move_to_lookup.
Qed.

Lemma probe_run_snoc th gates now id l s m :
  probe_run th gates now id (l ++ [s]) m
  = apply_probe th gates now (probe_run th gates now id l m) (id, s).
Proof. unfold probe_run, probe_peers. by rewrite fmap_app, fold_left_app. Qed.

Lemma probe_run_lookup th gates now id l m n :
  nodes m !! id = Some n ->
  nodes (probe_run th gates now id l m) !! id
  = Some (fold_left (fun n s => probe_node th gates now s n) l n).
Proof.
  unfold probe_run, probe_peers. revert m n. induction l as [|s l IH]; intros m n Hn; cbn; [done|].
  by apply IH, apply_probe_lookup.
Qed.

Lemma probe_node_misses th gates now s n :
  consecutive_misses (probe_node th gates now s n)
  = if is_miss s then N.min (consecutive_misses n + 1) u32_max
    else sat_sub (consecutive_misses n) 1.
Proof.
  unfold probe_node. destruct s as [|ok body]; cbn [is_miss];
    match goal with |- context [decide_transition_with ?a ?b ?c ?d ?e] =>
      by destruct (decide_transition_with a b c d e) end.
Qed.

(** The miss counter never falls below misses minus answers. *)
Lemma probe_counter th gates now l n :
  N.min (consecutive_misses n + misses_in l) u32_max
  <= consecutive_misses (fold_left (fun n s => probe_node th gates now s n) l n) + answers_in l.
Proof.
  revert n. induction l as [|s l IH]; intros n; cbn [fold_left].
  { unfold misses_in, answers_in. cbn. lia. }
  specialize (IH (probe_node th gates now s n)). rewrite probe_node_misses in IH.
  unfold misses_in, answers_in, sat_sub in *. cbn [List.filter].
  destruct (is_miss s); cbn [negb length]; lia.
Qed.

(** Slow to evict, but flapping does not hide a dead node: whatever a peer
    reports when it answers, as soon as a failed probe leaves the misses ahead
    of the answers by the threshold the node is neither [Active] nor
    [Syncing]. *)
Theorem flapping_node_demoted (th : N) (gates : bool) (now : Z) (id : N) (n : NodeInfo)
    (m : ClusterMembership) (l : list ProbeSignal) :
  nodes m !! id = Some n -> answers_in l + th <= misses_in l + 1 -> answers_in l + th <= u32_max ->
  exists n', nodes (probe_run th gates now id (l ++ [Unreachable]) m) !! id = Some n' /\
    ns n' <> Active /\ ns n' <> Syncing.
Proof.
  intros Hn Hmiss Hmax. pose proof (probe_run_lookup th gates now id l m n Hn) as Hl.
  rewrite probe_run_snoc. eexists. split; [by apply apply_probe_lookup|].
  pose proof (probe_counter th gates now l n) as Hc. set (n1 := fold_left _ l n) in *.
  unfold probe_node. cbn [ns with_misses].
  assert (Hth : (th <=? N.min (consecutive_misses n1 + 1) u32_max) = true) by (apply N.leb_le; lia).
  unfold decide_transition_with. destruct (ns n1) eqn:E; rewrite ?Hth; cbn; rewrite ?E; done.
Qed.

Lemma all_misses th gates now k n :
  ns n = Active -> consecutive_misses n = 0 -> N.of_nat k < th -> th <= u32_max ->
  let n' := fold_left (fun n s => probe_node th gates now s n) (replicate k Unreachable) n in
  ns n' = Active /\ consecutive_misses n' = N.of_nat k.
Proof.
  intros Hs Hc Hk Hth. induction k as [|k IH]; [by split|].
  rewrite replicate_S_end, fold_left_app. cbn zeta in *. destruct IH as [H1 H2]; [lia|].
  cbn [fold_left]. set (n1 := fold_left _ _ _) in *.
  rewrite probe_node_misses. cbn [is_miss]. rewrite H2. split; [|lia].
  unfold probe_node. cbn [ns with_misses]. rewrite H1. unfold decide_transition_with.
  rewrite (proj2 (N.leb_gt _ _)) by lia. done.
Qed.

(** Hysteresis: a healthy [Active] node stays [Active] through fewer than
    [th] consecutive failed probes and is [Disconnected] by the [th]-th. *)
Theorem demotion_at_threshold (th : N) (gates : bool) (now : Z) (id : N) (n : NodeInfo)
    (m : ClusterMembership) (k : nat) :
  nodes m !! id = Some n -> ns n = Active -> consecutive_misses n = 0 ->
  1 <= th -> th <= u32_max -> N.of_nat k < th ->
  exists n', nodes (probe_run th gates now id (replicate k Unreachable) m) !! id = Some n' /\
    ns n' = Active /\
    (N.of_nat k + 1 = th ->
     ns <$> nodes (probe_run th gates now id (replicate (S k) Unreachable) m) !! id
     = Some Disconnected).
Proof.
  intros Hn Hs Hc H1 Hth Hk. destruct (all_misses th gates now k n Hs Hc Hk Hth) as [Ha Hm].
  eexists. split; [by apply probe_run_lookup|]. split; [done|]. intros Hlast.
  rewrite replicate_S_end, probe_run_snoc.
  rewrite (apply_probe_lookup _ _ _ _ _ _ _ (probe_run_lookup _ _ _ _ _ _ _ Hn)).
  set (n1 := fold_left _ _ _) in *. clearbody n1.
  unfold probe_node. cbn. rewrite Ha, Hm.
  unfold decide_transition_with. rewrite (proj2 (N.leb_le _ _)) by lia. done.
Qed.

(** Fast to readmit: one answer in which the node reports itself [Active]
    and in no need of a sync makes it [Active], unless it is departing. *)
Theorem ready_node_readmitted (th : N) (gates : bool) (now : Z) (id : N) (n : NodeInfo)
    (m : ClusterMembership) (ok : bool) (b : HealthBody) :
  nodes m !! id = Some n -> is_departing n = false -> ready b = true ->
  ns <$> nodes (apply_probe th gates now m (id, Response ok (Some b))) !! id = Some Active.
Proof.
  intros Hn Hd Hb. rewrite (apply_probe_lookup _ _ _ _ _ _ n Hn). cbn.
  unfold probe_node, decide_transition_with. rewrite Hb. unfold ready in Hb.
  apply andb_true_iff in Hb as [Hb _]. apply bool_decide_eq_true in Hb. rewrite Hb.
  cbn [ns with_misses with_heartbeat orb]. unfold is_departing in Hd.
  destruct (ns n) eqn:E; cbn; rewrite ?E; done.
Qed.

(** Node states survive the text form they travel in. *)
Theorem node_state_roundtrip (s : NodeState) : parse_node_state (show_node_state s) = Some s.
Proof. by destruct s. Qed.

(** ** Witnesses and a divergence *)

Definition sample_node (id : N) (s : NodeState) : NodeInfo :=
  mkNode id "10.0.0.1:8086" s 1000 1000 false 0.

(** A cluster of two: node 1 serves, node 2 is being removed. *)
Definition sample_cluster : ClusterMembership :=
  add_node (sample_node 2 Decommissioning) (add_node (sample_node 1 Active) membership_new).

Definition healthy : HealthBody := mkHealth (Some Active) (Some false).


Lemma flapping_node_demoted_witness :
  exists n', nodes (probe_run 3 true 2000 1
               ([Unreachable; Unreachable; Response true (Some healthy); Unreachable] ++ [Unreachable])
               sample_cluster) !! 1 = Some n' /\ ns n' <> Active /\ ns n' <> Syncing.
Proof.
  apply (flapping_node_demoted 3 true 2000 1 (sample_node 1 Active)).
  - vm_compute. reflexivity.
  - vm_compute. done.
  - vm_compute. done.
Defined.

Lemma demotion_at_threshold_witness :
  exists n', nodes (probe_run 5 true 2000 1 (replicate 4 Unreachable) sample_cluster) !! 1 = Some n' /\
    ns n' = Active /\
    (N.of_nat 4 + 1 = 5 ->
     ns <$> nodes (probe_run 5 true 2000 1 (replicate 5 Unreachable) sample_cluster) !! 1
     = Some Disconnected).
Proof.
  apply (demotion_at_threshold 5 true 2000 1 (sample_node 1 Active)); try done.
Defined.

Definition restarted_cluster : ClusterMembership :=
  add_node (sample_node 3 Draining) membership_new.

Lemma ready_node_readmitted_witness :
  ns <$> nodes (apply_probe 5 true 2000 restarted_cluster (3, Response true (Some healthy))) !! 3
  = Some Active.
Proof.
  apply (ready_node_readmitted 5 true 2000 3 (sample_node 3 Draining)); vm_compute; reflexivity.
Defined.

(** The merge of a snapshot's membership overwrites the state of every
    known node that is not [Active] or [Syncing]: a leader's older view turns
    a node that is being decommissioned here back to [Active]. *)
Theorem snapshot_merge_undoes_departure :
  ns <$> nodes sample_cluster !! 2 = Some Decommissioning /\
  ns <$> nodes (merge_snapshot_membership sample_cluster
                  (add_node (sample_node 2 Active) membership_new)) !! 2 = Some Active.
Proof. split; vm_compute; reflexivity. Qed.
