(* ===== verification/Bytes.v ===== *)
(** * Bytes, keys and numbers in text

    Byte strings under RocksDB's comparator, and the ways the adapters write
    numbers into keys and values: big-endian words ([u64::to_be_bytes]),
    fixed-width hexadecimal ([{:016x}]) and decimal, with the parsers that
    read them back. Both fixed-width forms sort as the numbers do. *)

From Stdlib Require Import Ascii String.
From stdpp Require Import prelude list sorting gmap fin_maps strings pretty.
From S2P Require Import Prelude.
From stdpp Require Import options.

#[local] Open Scope N_scope.

(** A key or a prefix of one, as bytes. *)
Definition bytes : Type := list N.

(** RocksDB's default comparator. *)
Fixpoint bytes_ltb (a b : bytes) : bool :=
  match a, b with
  | _, [] => false
  | [], _ :: _ => true
  | x :: a', y :: b' => if x =? y then bytes_ltb a' b' else x <? y
  end.

Definition bytes_leb (a b : bytes) : bool := negb (bytes_ltb b a).

(** [starts_with]. *)
Fixpoint has_prefix (p k : bytes) : bool :=
  match p, k with
  | [], _ => true
  | _ :: _, [] => false
  | x :: p', y :: k' => (x =? y) && has_prefix p' k'
  end.

(** [strip_prefix]. *)
Definition strip_prefix (p k : bytes) : option bytes :=
  if has_prefix p k then Some (drop (length p) k) else None.

(** The bytes of a string. *)
Definition str_bytes (s : string) : bytes := N_of_ascii <$> String.list_ascii_of_string s.

Definition bytes_str (b : bytes) : string := String.string_of_list_ascii (ascii_of_N <$> b).

(** The [k] low base-[B] digits of [n], most significant first, each written
    as [f d]. *)
Fixpoint digits (B : N) (f : N -> N) (k : nat) (n : N) : bytes :=
  match k with
  | O => []
  | S k' => f ((n / B ^ N.of_nat k') mod B) :: digits B f k' n
  end.

(** [u64::to_be_bytes]. *)
Definition u64_to_be (n : N) : bytes := digits 256 (fun d => d) 8 n.

(** [u64::from_be_bytes] on the first eight bytes; the source panics on a
    shorter slice, which no writer makes. *)
Definition be_to_u64 (bs : bytes) : N := fold_left (fun acc b => acc * 256 + b) (take 8 bs) 0.

Definition hex_char (d : N) : N := if d <? 10 then 48 + d else 87 + d.

(** [format!("{:016x}", n)]. *)
Definition hex16 (n : N) : bytes := digits 16 hex_char 16 n.

(** [char::to_digit(radix)], for radixes up to 16. *)
Definition to_digit (radix c : N) : option N :=
  let d := if (48 <=? c) && (c <=? 57) then Some (c - 48)
           else if (97 <=? c) && (c <=? 102) then Some (c - 87)
           else if (65 <=? c) && (c <=? 70) then Some (c - 55)
           else None in
  d ≫= fun d => if d <? radix then Some d else None.

Fixpoint parse_digits (radix acc : N) (s : bytes) : option N :=
  match s with
  | [] => Some acc
  | c :: s' =>
    d ← to_digit radix c;
    let acc' := acc * radix + d in
    if acc' <=? u64_max then parse_digits radix acc' s' else None
  end.

(** [u64::from_str_radix]: an optional plus sign, then at least one digit;
    [None] on anything else and on overflow. *)
Definition from_str_radix (radix : N) (s : bytes) : option N :=
  match s with
  | [] => None
  | 43 :: [] => None
  | 43 :: s' => parse_digits radix 0 s'
  | _ => parse_digits radix 0 s
  end.

(** [format!("{}", n)] of an unsigned number. *)
Definition decimal (n : N) : bytes := str_bytes (pretty n).

(** A [u64] as the value of a row. *)
Definition u64_value (n : N) : string := bytes_str (u64_to_be n).

Definition value_u64 (v : string) : N := be_to_u64 (str_bytes v).

#[local] Arguments u64_to_be : simpl never.

(** ** Strings as bytes *)

Definition byte_ok (b : N) : Prop := b < 256.

Lemma str_bytes_str s : bytes_str (str_bytes s) = s.
Proof.
  unfold bytes_str, str_bytes. rewrite <- list_fmap_compose.
  rewrite <- (String.string_of_list_ascii_of_string s) at 2. f_equal.
  rewrite <- (list_fmap_id (String.list_ascii_of_string s)) at 2.
  apply list_fmap_ext. intros i c _. apply ascii_N_embedding.
Qed.

Lemma bytes_str_bytes b : Forall byte_ok b -> str_bytes (bytes_str b) = b.
Proof.
  intros Hb. unfold bytes_str, str_bytes. rewrite String.list_ascii_of_string_of_list_ascii.
  rewrite <- list_fmap_compose. rewrite <- (list_fmap_id b) at 2. apply list_fmap_ext.
  intros i x Hx. apply N_ascii_embedding. by apply (Forall_lookup_1 _ _ _ _ Hb Hx).
Qed.

Lemma str_bytes_inj s s' : str_bytes s = str_bytes s' -> s = s'.
Proof. intros E. by rewrite <- (str_bytes_str s), E, str_bytes_str. Qed.

Lemma str_bytes_app s s' : str_bytes (s +:+ s') = str_bytes s ++ str_bytes s'.
Proof.
  induction s as [|c s IH]; [done|].
  change (N_of_ascii c :: str_bytes (s +:+ s') = N_of_ascii c :: (str_bytes s ++ str_bytes s')).
  by f_equal.
Qed.

(** ** The comparator is a total order *)

Lemma bytes_ltb_irrefl a : bytes_ltb a a = false.
Proof. induction a as [|x a IH]; cbn; [done|]. by rewrite N.eqb_refl. Qed.

Lemma bytes_ltb_trans a b c : bytes_ltb a b = true -> bytes_ltb b c = true -> bytes_ltb a c = true.
Proof.
  revert b c. induction a as [|x a IH]; intros [|y b] [|z c]; cbn; try done.
  repeat match goal with |- context [N.eqb ?p ?q] => destruct (N.eqb_spec p q) end;
    rewrite ?N.ltb_lt; intros; try congruence; try lia. by eapply IH.
Qed.

Lemma bytes_trichotomy a b : bytes_ltb a b = true \/ a = b \/ bytes_ltb b a = true.
Proof.
  revert b. induction a as [|x a IH]; intros [|y b]; cbn; auto.
  rewrite (N.eqb_sym y x). destruct (N.eqb_spec x y) as [->|Hne].
  - destruct (IH b) as [|[->|]]; auto.
  - rewrite !N.ltb_lt. lia.
Qed.

Lemma bytes_leb_total a b : bytes_leb a b = true \/ bytes_leb b a = true.
Proof.
  unfold bytes_leb. rewrite !negb_true_iff. destruct (bytes_trichotomy a b) as [E|[->|E]].
  - left. apply not_true_is_false. intros E'. pose proof (bytes_ltb_trans _ _ _ E E') as E2.
    by rewrite bytes_ltb_irrefl in E2.
  - left. apply bytes_ltb_irrefl.
  - right. apply not_true_is_false. intros E'. pose proof (bytes_ltb_trans _ _ _ E E') as E2.
    by rewrite bytes_ltb_irrefl in E2.
Qed.

Lemma bytes_leb_ltb a b : bytes_leb a b = true -> a <> b -> bytes_ltb a b = true.
Proof.
  unfold bytes_leb. rewrite negb_true_iff. intros E Hne.
  destruct (bytes_trichotomy a b) as [|[|]]; congruence.
Qed.

Lemma bytes_leb_trans a b c : bytes_leb a b = true -> bytes_leb b c = true -> bytes_leb a c = true.
Proof.
  intros Hab Hbc. destruct (decide (a = b)) as [->|Hne]; [done|].
  destruct (decide (b = c)) as [->|Hne']; [done|].
  pose proof (bytes_ltb_trans _ _ _ (bytes_leb_ltb _ _ Hab Hne) (bytes_leb_ltb _ _ Hbc Hne')) as E.
  unfold bytes_leb. rewrite negb_true_iff. apply not_true_is_false. intros E'.
  pose proof (bytes_ltb_trans _ _ _ E E') as E2. by rewrite bytes_ltb_irrefl in E2.
Qed.

(** ** Ordered maps *)

(** [String::cmp]: strings compare as their bytes. *)
Definition string_leb (a b : string) : bool := bytes_leb (str_bytes a) (str_bytes b).

(** The entries of a [BTreeMap] in key order, [leb] being the order of the
    keys. *)
Definition btree_iter {K V} `{Countable K} (leb : K -> K -> bool) (m : gmap K V) : list (K * V) :=
  sort_by (fun a b => leb a.1 b.1) (map_to_list m).

Lemma btree_iter_Permutation {K V} `{Countable K} leb (m : gmap K V) :
  btree_iter leb m ≡ₚ map_to_list m.
Proof. apply sort_by_Permutation. Qed.

Lemma btree_iter_elem {K V} `{Countable K} leb (m : gmap K V) k v :
  (k, v) ∈ btree_iter leb m <-> m !! k = Some v.
Proof. by rewrite btree_iter_Permutation, elem_of_map_to_list. Qed.

Lemma btree_iter_NoDup {K V} `{Countable K} leb (m : gmap K V) : NoDup (btree_iter leb m).*1.
Proof. rewrite btree_iter_Permutation. apply NoDup_fst_map_to_list. Qed.

(** Inserting the entries of one map into another one is their union. *)
Lemma btree_insert_all {K V} `{Countable K} leb (m acc : gmap K V) :
  fold_left (fun acc kv => <[kv.1 := kv.2]> acc) (btree_iter leb m) acc = m ∪ acc.
Proof.
  rewrite <- (list_to_map_to_list m) at 2.
  rewrite <- (list_to_map_proper (btree_iter leb m) (map_to_list m))
    by (apply btree_iter_NoDup || apply btree_iter_Permutation).
  pose proof (btree_iter_NoDup leb m) as Hnd. revert acc Hnd.
  induction (btree_iter leb m) as [|[k v] l IH]; intros acc Hnd; cbn; [by rewrite map_empty_union|].
  apply NoDup_cons in Hnd as [Hk Hnd]. rewrite IH by done.
  rewrite <- insert_union_l. symmetry. apply insert_union_r. by apply not_elem_of_list_to_map.
Qed.

(** ** Prefixes *)

Lemma has_prefix_app p k : has_prefix p (p ++ k) = true.
Proof. induction p as [|x p IH]; cbn; [done|]. by rewrite N.eqb_refl. Qed.

Lemma has_prefix_true p k : has_prefix p k = true <-> exists k', k = p ++ k'.
Proof.
  split; [|intros [k' ->]; apply has_prefix_app].
  revert k. induction p as [|x p IH]; intros k; cbn; [eauto|].
  destruct k as [|y k]; [done|]. rewrite andb_true_iff, N.eqb_eq. intros [-> H].
  destruct (IH _ H) as [k' ->]. eauto.
Qed.

Lemma strip_prefix_app p k : strip_prefix p (p ++ k) = Some k.
Proof. unfold strip_prefix. by rewrite has_prefix_app, drop_app_length. Qed.

Lemma bytes_prefix_leb p k : bytes_leb p (p ++ k) = true.
Proof.
  unfold bytes_leb. rewrite negb_true_iff. induction p as [|x p IH]; cbn.
  - by destruct k.
  - by rewrite N.eqb_refl.
Qed.

Lemma bytes_ltb_app p a b : bytes_ltb (p ++ a) (p ++ b) = bytes_ltb a b.
Proof. induction p as [|x p IH]; cbn; [done|]. by rewrite N.eqb_refl. Qed.

Lemma bytes_leb_app p a b : bytes_leb (p ++ a) (p ++ b) = bytes_leb a b.
Proof. unfold bytes_leb. by rewrite bytes_ltb_app. Qed.

(** The keys with a prefix are contiguous. *)
Lemma prefix_convex p a b :
  bytes_leb p a = true -> bytes_ltb a b = true -> has_prefix p b = true -> has_prefix p a = true.
Proof.
  unfold bytes_leb. rewrite negb_true_iff. revert a b.
  induction p as [|x p IH]; intros a b; [done|].
  destruct a as [|y a]; [done|]. destruct b as [|z b]; [done|]. cbn.
  rewrite !andb_true_iff, !N.eqb_eq. rewrite (N.eqb_sym y x).
  destruct (N.eqb_spec x y) as [->|Hne].
  - destruct (N.eqb_spec y z) as [->|]; [|naive_solver]. intros H1 H2 [_ H3]. eauto.
  - rewrite N.ltb_ge. intros H1 H2 [-> _]. destruct (N.eqb_spec y z); [congruence|].
    apply N.ltb_lt in H2. lia.
Qed.

(** ** Fixed-width digits *)

Section Digits.
Context (B : N) (HB : 1 < B).

Lemma powB_pos k : 0 < B ^ k.
Proof using HB. apply N.neq_0_lt_0, N.pow_nonzero. lia. Qed.

Lemma powB_S k : B ^ N.of_nat (S k) = B * B ^ N.of_nat k.
Proof. rewrite Nat2N.inj_succ, N.pow_succ_r'. done. Qed.

Lemma head_digit k a : a < B ^ N.of_nat (S k) -> (a / B ^ N.of_nat k) mod B = a / B ^ N.of_nat k.
Proof using HB.
  intros Ha. apply N.mod_small. rewrite powB_S in Ha. pose proof (powB_pos (N.of_nat k)).
  apply N.Div0.div_lt_upper_bound; lia.
Qed.

Lemma digits_mod f k j n :
  (k <= j)%nat -> digits B f k (n mod B ^ N.of_nat j) = digits B f k n.
Proof using HB.
  intros Hkj. induction k as [|k IH]; cbn [digits]; [done|]. rewrite IH by lia. f_equal. f_equal.
  assert (Hp : B ^ N.of_nat j = B ^ N.of_nat k * (B * B ^ N.of_nat (j - S k))).
  { rewrite N.mul_assoc, (N.mul_comm (B ^ N.of_nat k) B), <- powB_S, <- N.pow_add_r.
    f_equal. lia. }
  pose proof (powB_pos (N.of_nat k)). pose proof (powB_pos (N.of_nat (j - S k))).
  rewrite Hp, N.Div0.mod_mul_r, N.mul_comm, N.div_add by lia.
  rewrite N.div_small by (apply N.mod_lt; lia).
  rewrite N.add_0_l, N.Div0.mod_mul_r, (N.mul_comm B ((_ / B) mod _)), N.Div0.mod_add.
  by apply N.Div0.mod_mod.
Qed.

Lemma digits_length f k n : length (digits B f k n) = k.
Proof. induction k; cbn; congruence. Qed.

Lemma digits_ltb f k a b :
  (forall d e, d < e -> e < B -> f d < f e) ->
  a < B ^ N.of_nat k -> b < B ^ N.of_nat k ->
  bytes_ltb (digits B f k a) (digits B f k b) = (a <? b).
Proof using HB.
  intros Hf. revert a b. induction k as [|k IH]; intros a b Ha Hb; cbn [digits bytes_ltb].
  { cbn in Ha, Hb. symmetry. apply N.ltb_ge. lia. }
  rewrite !head_digit by done. pose proof (powB_pos (N.of_nat k)) as Hpos.
  pose proof (N.div_mod a (B ^ N.of_nat k) ltac:(lia)) as Ea.
  pose proof (N.div_mod b (B ^ N.of_nat k) ltac:(lia)) as Eb.
  pose proof (N.mod_lt a (B ^ N.of_nat k) ltac:(lia)) as Ma.
  pose proof (N.mod_lt b (B ^ N.of_nat k) ltac:(lia)) as Mb.
  assert (a / B ^ N.of_nat k < B) as La
    by (rewrite powB_S in Ha; apply N.Div0.div_lt_upper_bound; lia).
  assert (b / B ^ N.of_nat k < B) as Lb
    by (rewrite powB_S in Hb; apply N.Div0.div_lt_upper_bound; lia).
  rewrite <- (digits_mod f k k a), <- (digits_mod f k k b), IH by done.
  set (q := a / _) in *. set (q' := b / _) in *. set (P := B ^ N.of_nat k) in *.
  set (ra := a mod P) in *. set (rb := b mod P) in *. clearbody q q' ra rb P.
  assert (Hmono : forall x y, x < y -> P * x + P <= P * y).
  { intros x y Hxy. rewrite <- N.mul_succ_r. apply N.mul_le_mono_l. lia. }
  apply Bool.eq_iff_eq_true.
  destruct (N.lt_total q q') as [Hlt|[->|Hlt]].
  - pose proof (Hf _ _ Hlt Lb). specialize (Hmono _ _ Hlt).
    destruct (N.eqb_spec (f q) (f q')); [lia|]. rewrite !N.ltb_lt. lia.
  - rewrite N.eqb_refl, !N.ltb_lt. lia.
  - pose proof (Hf _ _ Hlt La). specialize (Hmono _ _ Hlt).
    destruct (N.eqb_spec (f q) (f q')); [lia|]. rewrite !N.ltb_lt. lia.
Qed.

Lemma digits_fold k n acc :
  fold_left (fun acc b => acc * B + b) (digits B (fun d => d) k n) acc
  = acc * B ^ N.of_nat k + n mod B ^ N.of_nat k.
Proof using HB.
  revert acc. induction k as [|k IH]; intros acc; cbn [digits fold_left].
  { rewrite N.mod_1_r. cbn. lia. }
  rewrite IH, powB_S. pose proof (powB_pos (N.of_nat k)).
  rewrite (N.mul_comm B (B ^ _)), N.Div0.mod_mul_r. lia.
Qed.

Lemma digits_ok f k n : (forall d, d < B -> byte_ok (f d)) -> Forall byte_ok (digits B f k n).
Proof using HB.
  intros Hf. induction k as [|k IH]; cbn; constructor; [|done]. apply Hf, N.mod_lt. lia.
Qed.
End Digits.

(** *** Big-endian words *)

Lemma u64_lt_pow n : n <= u64_max -> n < two64.
Proof. unfold u64_max, two64. lia. Qed.

Lemma u64_to_be_ltb a b : a <= u64_max -> b <= u64_max -> bytes_ltb (u64_to_be a) (u64_to_be b) = (a <? b).
Proof. intros Ha Hb. apply digits_ltb; [done|done|by apply u64_lt_pow..]. Qed.

Lemma u64_to_be_leb a b : a <= u64_max -> b <= u64_max -> bytes_leb (u64_to_be a) (u64_to_be b) = (a <=? b).
Proof. intros Ha Hb. unfold bytes_leb. rewrite u64_to_be_ltb by done. by rewrite N.leb_antisym. Qed.

Lemma be_roundtrip n : n <= u64_max -> be_to_u64 (u64_to_be n) = n.
Proof.
  intros Hn. unfold be_to_u64. rewrite take_ge by done. unfold u64_to_be.
  rewrite digits_fold by done. cbn [N.of_nat]. rewrite N.mod_small; [lia|by apply u64_lt_pow].
Qed.

Lemma u64_to_be_inj a b : a <= u64_max -> b <= u64_max -> u64_to_be a = u64_to_be b -> a = b.
Proof. intros Ha Hb E. by rewrite <- (be_roundtrip a), E, be_roundtrip. Qed.

Lemma u64_to_be_ok n : Forall byte_ok (u64_to_be n).
Proof. apply digits_ok; done. Qed.

Lemma u64_value_roundtrip n : n <= u64_max -> value_u64 (u64_value n) = n.
Proof.
  intros Hn. unfold value_u64, u64_value. rewrite bytes_str_bytes by apply u64_to_be_ok.
  by apply be_roundtrip.
Qed.

Lemma u64_value_inj a b : a <= u64_max -> b <= u64_max -> u64_value a = u64_value b -> a = b.
Proof. intros Ha Hb E. by rewrite <- (u64_value_roundtrip a), E, u64_value_roundtrip. Qed.

Lemma u64_value_length n : length (str_bytes (u64_value n)) = 8%nat.
Proof. unfold u64_value. rewrite bytes_str_bytes by apply u64_to_be_ok. done. Qed.

(** *** Hexadecimal *)

Lemma hex_char_mono d e : d < e -> e < 16 -> hex_char d < hex_char e.
Proof. intros. unfold hex_char. destruct (N.ltb_spec d 10), (N.ltb_spec e 10); lia. Qed.

Lemma hex16_ltb a b : a <= u64_max -> b <= u64_max -> bytes_ltb (hex16 a) (hex16 b) = (a <? b).
Proof. intros Ha Hb. apply digits_ltb; [done|apply hex_char_mono|by apply u64_lt_pow..]. Qed.

Lemma to_digit_hex d : d < 16 -> to_digit 16 (hex_char d) = Some d.
Proof.
  intros Hd. rewrite <- (N2Nat.id d). assert (N.to_nat d < 16)%nat as Hk by lia.
  revert Hk. generalize (N.to_nat d). clear. intros k Hk.
  do 16 (destruct k as [|k]; [done|]). lia.
Qed.

Lemma parse_hex_digits k n acc :
  acc * 16 ^ N.of_nat k + n mod 16 ^ N.of_nat k <= u64_max ->
  parse_digits 16 acc (digits 16 hex_char k n)
  = Some (acc * 16 ^ N.of_nat k + n mod 16 ^ N.of_nat k).
Proof.
  revert acc. induction k as [|k IH]; intros acc; cbn [digits parse_digits].
  { rewrite N.mod_1_r. intros _. cbn. f_equal. lia. }
  rewrite to_digit_hex by (apply N.mod_lt; lia). cbn.
  pose proof (powB_pos 16 ltac:(lia) (N.of_nat k)) as Hp.
  rewrite powB_S, (N.mul_comm 16 (16 ^ _)), N.Div0.mod_mul_r. intros Hle.
  set (d := _ mod 16) in *. set (P := 16 ^ N.of_nat k) in *.
  assert ((acc * 16 + d) * P + n mod P <= u64_max) as Hle' by lia.
  destruct (N.leb_spec (acc * 16 + d) u64_max) as [_|Hgt].
  - rewrite IH by done. f_equal. lia.
  - exfalso. clear IH Hle. set (r := n mod P) in *. clearbody r d P.
    assert ((acc * 16 + d) * 1 <= (acc * 16 + d) * P) by (apply N.mul_le_mono_l; lia). lia.
Qed.

Lemma hex16_head n : exists c s, hex16 n = c :: s /\ c <> 43.
Proof.
  unfold hex16. cbn [digits]. do 2 eexists. split; [reflexivity|].
  unfold hex_char. set (d := _ mod 16). clearbody d. destruct (d <? 10) eqn:E; [lia|].
  apply N.ltb_ge in E. lia.
Qed.

Lemma from_str_radix_digits r c s :
  c <> 43 -> from_str_radix r (c :: s) = parse_digits r 0 (c :: s).
Proof.
  intros Hc. unfold from_str_radix.
  destruct c as [|p]; [done|]. do 6 (destruct p as [p|p|]; try done).
Qed.

Lemma hex16_roundtrip n : n <= u64_max -> from_str_radix 16 (hex16 n) = Some n.
Proof.
  intros Hn. destruct (hex16_head n) as (c & s & E & Hc). rewrite E, from_str_radix_digits, <- E by done.
  unfold hex16. rewrite parse_hex_digits; cbn [N.of_nat]; rewrite N.mod_small by (by apply u64_lt_pow); done.
Qed.

Lemma hex16_inj a b : a <= u64_max -> b <= u64_max -> hex16 a = hex16 b -> a = b.
Proof. intros Ha Hb E. apply (f_equal (from_str_radix 16)) in E. rewrite !hex16_roundtrip in E by done. congruence. Qed.

(** *** Decimal *)

Lemma decimal_inj a b : decimal a = decimal b -> a = b.
Proof. intros E. apply str_bytes_inj in E. by apply (inj pretty). Qed.

Lemma str_bytes_cons c s : str_bytes (String c s) = N_of_ascii c :: str_bytes s.
Proof. done. Qed.

Lemma to_digit_pretty d :
  d < 10 -> to_digit 10 (N_of_ascii (pretty_N_char d)) = Some d /\ N_of_ascii (pretty_N_char d) <> 43.
Proof.
  intros Hd. rewrite <- (N2Nat.id d). assert (N.to_nat d < 10)%nat as Hk by lia.
  revert Hk. generalize (N.to_nat d). clear. intros k Hk.
  do 10 (destruct k as [|k]; [done|]). lia.
Qed.

Lemma parse_pretty_go n s :
  n <= u64_max ->
  parse_digits 10 0 (str_bytes (pretty_N_go n s)) = parse_digits 10 n (str_bytes s).
Proof.
  revert s. induction (N.lt_wf_0 n) as [n _ IH]. intros s Hn.
  destruct (decide (n = 0)) as [->|Hnz]; [by rewrite pretty_N_go_0|].
  assert (n / 10 < n) by (apply N.div_lt; lia).
  rewrite pretty_N_go_step, IH by lia. rewrite str_bytes_cons. cbn [parse_digits].
  destruct (to_digit_pretty (n mod 10)) as [-> _]; [apply N.mod_lt; lia|]. cbn.
  replace (n / 10 * 10 + n mod 10) with n
    by (rewrite (N.div_mod n 10) at 1 by lia; lia).
  by rewrite (proj2 (N.leb_le _ _) Hn).
Qed.

Lemma pretty_go_head n s :
  0 < n -> exists c s', str_bytes (pretty_N_go n s) = c :: s' /\ c <> 43.
Proof.
  revert s. induction (N.lt_wf_0 n) as [n _ IH]. intros s Hn.
  rewrite pretty_N_go_step by done. destruct (decide (n / 10 = 0)) as [->|Hnz].
  - rewrite pretty_N_go_0, str_bytes_cons. do 2 eexists. split; [done|].
    apply to_digit_pretty, N.mod_lt. lia.
  - apply IH; [apply N.div_lt; lia|]. by apply N.neq_0_lt_0.
Qed.

Lemma decimal_roundtrip n : n <= u64_max -> from_str_radix 10 (decimal n) = Some n.
Proof.
  intros Hn. unfold decimal, pretty, pretty_N. case_decide as Hz; [by subst|].
  destruct (pretty_go_head n EmptyString ltac:(lia)) as (c & s & E & Hc).
  rewrite E, from_str_radix_digits, <- E by done. by rewrite parse_pretty_go.
Qed.

(** Digits are ASCII. *)
Lemma hex16_ascii n : Forall (fun b => b < 128) (hex16 n).
Proof.
  unfold hex16. generalize 16%nat. intros k. induction k as [|k IH]; cbn [digits]; constructor; [|done].
  unfold hex_char. pose proof (N.mod_lt (n / 16 ^ N.of_nat k) 16 ltac:(lia)).
  destruct (_ <? 10) eqn:E; reflect_bools; lia.
Qed.

Lemma pretty_go_ascii n s :
  Forall (fun b => b < 128) (str_bytes s) -> Forall (fun b => b < 128) (str_bytes (pretty_N_go n s)).
Proof.
  revert s. induction (N.lt_wf_0 n) as [n _ IH]. intros s Hs.
  destruct (decide (n = 0)) as [->|Hnz]; [by rewrite pretty_N_go_0|].
  rewrite pretty_N_go_step by lia. apply IH; [apply N.div_lt; lia|].
  rewrite str_bytes_cons. constructor; [|done].
  pose proof (N.mod_lt n 10 ltac:(lia)) as Hd. destruct (to_digit_pretty _ Hd) as [Ht _].
  unfold to_digit in Ht. set (c := N_of_ascii _) in *. clearbody c.
  destruct ((48 <=? c) && (c <=? 57)) eqn:E1; reflect_bools; [lia|].
  destruct ((97 <=? c) && (c <=? 102)) eqn:E2; reflect_bools; [lia|].
  destruct ((65 <=? c) && (c <=? 70)) eqn:E3; reflect_bools; [lia|done].
Qed.

Lemma decimal_ascii n : Forall (fun b => b < 128) (decimal n).
Proof.
  unfold decimal, pretty, pretty_N. case_decide; [by repeat constructor|]. by apply pretty_go_ascii.
Qed.

Lemma be_fold_le bs acc :
  Forall byte_ok bs ->
  fold_left (fun acc b => acc * 256 + b) bs acc < (acc + 1) * 256 ^ N.of_nat (length bs).
Proof.
  intros H. revert acc. induction H as [|b bs Hb _ IH]; intros acc; cbn [fold_left length].
  { cbn. lia. }
  specialize (IH (acc * 256 + b)). rewrite Nat2N.inj_succ, N.pow_succ_r'. unfold byte_ok in Hb.
  eapply N.lt_le_trans; [exact IH|]. rewrite N.mul_assoc. apply N.mul_le_mono_r. lia.
Qed.

(** A stored number is a [u64]. *)
Lemma value_u64_le v : value_u64 v <= u64_max.
Proof.
  unfold value_u64, be_to_u64. assert (Forall byte_ok (take 8 (str_bytes v))) as H.
  { apply Forall_take. unfold str_bytes. apply Forall_fmap, Forall_true. intros c. apply N_ascii_bounded. }
  pose proof (be_fold_le _ 0 H) as Hlt. rewrite N.mul_1_l in Hlt.
  assert (256 ^ N.of_nat (length (take 8 (str_bytes v))) <= 256 ^ 8).
  { apply N.pow_le_mono_r; [lia|]. rewrite length_take. lia. }
  unfold u64_max. lia.
Qed.

#[global] Arguments str_bytes : simpl never.
#[global] Arguments bytes_str : simpl never.
#[global] Arguments u64_to_be : simpl never.
#[global] Arguments hex16 : simpl never.
#[global] Arguments decimal : simpl never.
#[global] Arguments be_to_u64 : simpl never.
#[global] Arguments u64_value : simpl never.
#[global] Arguments value_u64 : simpl never.
