(* ===== verification/CfStore.v ===== *)
(** * Ordered column-family storage

    RocksDB as the adapters use it: rows of bytes in column families, read by
    key or in key order, written in atomic batches. RocksDB is not part of
    the repository; it is the class [CfDb] over any set of column families,
    with its documented behaviour as the class [CfDbLaws] and an in-memory
    instance. Keys are byte strings under the default comparator. *)

From stdpp Require Import prelude list sorting gmap fin_maps strings.
From S2P Require Import Prelude Bytes.
From stdpp Require Import options.

#[local] Open Scope N_scope.

(** ** The database *)

Inductive CfOp (Cf : Type) :=
| PutCf (c : Cf) (k : bytes) (v : string)
| DeleteCf (c : Cf) (k : bytes)
| DeleteRangeCf (c : Cf) (from to : bytes).
Arguments PutCf {Cf} c k v.
Arguments DeleteCf {Cf} c k.
Arguments DeleteRangeCf {Cf} c from to.

Definition in_range (from to k : bytes) : bool := bytes_leb from k && bytes_ltb k to.

Definition apply_cf_op {Cf} `{EqDecision Cf} (c : Cf) (m : gmap bytes string) (o : CfOp Cf)
    : gmap bytes string :=
  match o with
  | PutCf c' k v => if bool_decide (c = c') then <[k := v]> m else m
  | DeleteCf c' k => if bool_decide (c = c') then delete k m else m
  | DeleteRangeCf c' from to =>
    if bool_decide (c = c') then filter (fun kv => in_range from to kv.1 = false) m else m
  end.

(** [get_cf], [iterator_cf(From(key, Forward))], [iterator_cf(End).next()],
    [write] of a batch ([put_cf], [delete_cf] and [delete_range_cf] are batches
    of one), [flush_wal(true)] and [flush_cf]. *)
Class CfDb (Cf DB : Type) := {
  cf_get : DB -> Cf -> bytes -> result string (option string);
  cf_scan : DB -> Cf -> bytes -> list (result string (bytes * string));
  cf_last : DB -> Cf -> option (result string (bytes * string));
  cf_write : DB -> list (CfOp Cf) -> result string DB;
  cf_flush : DB -> result string unit;
  cf_flush_memtable : DB -> Cf -> result string unit
}.

(** What an open database promises: reads see the stored rows, iterators go
    through them in key order, a batch is applied as a whole or not at all. *)
Class CfDbLaws (Cf DB : Type) `{EqDecision Cf} `{CfDb Cf DB} := {
  cf_rows : DB -> Cf -> gmap bytes string;
  cf_get_law : forall d c k, cf_get d c k = Ok (cf_rows d c !! k);
  cf_scan_law : forall d c p, exists l,
    cf_scan d c p = Ok <$> l /\
    StronglySorted (fun a b => bytes_ltb a.1 b.1 = true) l /\
    (forall k v, (k, v) ∈ l <-> cf_rows d c !! k = Some v /\ bytes_leb p k = true);
  cf_last_law : forall d c,
    match cf_last d c with
    | None => cf_rows d c = ∅
    | Some (Ok (k, v)) =>
      cf_rows d c !! k = Some v /\ forall k', is_Some (cf_rows d c !! k') -> bytes_leb k' k = true
    | Some (Err _) => False
    end;
  cf_write_law : forall d b d', cf_write d b = Ok d' ->
    forall c, cf_rows d' c = fold_left (apply_cf_op c) b (cf_rows d c)
}.

(** A write followed by [flush_wal(true)]: the rows are in the database even
    when the flush fails. *)
Definition write_flush {Cf DB} `{CfDb Cf DB} (d : DB) (b : list (CfOp Cf))
    : DB * result string unit :=
  match cf_write d b with
  | Err e => (d, Err e)
  | Ok d' => (d', cf_flush d')
  end.

(** [iter.flatten()] from a prefix, stopped at the first key without it. *)
Fixpoint take_while {A} (p : A -> bool) (l : list A) : list A :=
  match l with
  | [] => []
  | x :: l' => if p x then x :: take_while p l' else []
  end.

Definition result_ok {E A} (r : result E A) : option A :=
  match r with Ok a => Some a | Err _ => None end.

Definition prefix_rows {Cf DB} `{CfDb Cf DB} (d : DB) (c : Cf) (prefix : bytes) : list (bytes * string) :=
  take_while (fun kv => has_prefix prefix kv.1) (omap result_ok (cf_scan d c prefix)).

Lemma take_while_elem {A} (p : A -> bool) l x : x ∈ take_while p l -> x ∈ l /\ p x = true.
Proof.
  induction l as [|y l IH]; cbn; [by intros ?%elem_of_nil|]. destruct (p y) eqn:E; [|by intros ?%elem_of_nil].
  rewrite !elem_of_cons. intros [->|Hx]; [auto|]. destruct (IH Hx). auto.
Qed.

Lemma omap_result_ok {E A} (l : list A) : omap result_ok (Ok (E := E) <$> l) = l.
Proof. induction l as [|x l IH]; [done|]. cbn. by f_equal. Qed.

Lemma take_while_sorted {A} (R : A -> A -> Prop) p l : StronglySorted R l -> StronglySorted R (take_while p l).
Proof.
  induction 1 as [|x l Hl IH Hx]; cbn; [constructor|]. destruct (p x); [|constructor].
  constructor; [done|]. rewrite Forall_forall in *. intros y [Hy _]%take_while_elem. by apply Hx.
Qed.

(** In key order, the rows under a prefix that are at or after it come first. *)
Lemma take_while_prefix (l : list (bytes * string)) prefix kv :
  StronglySorted (fun a b => bytes_ltb a.1 b.1 = true) l ->
  (forall y, y ∈ l -> bytes_leb prefix y.1 = true) ->
  kv ∈ take_while (fun kv => has_prefix prefix kv.1) l <-> kv ∈ l /\ has_prefix prefix kv.1 = true.
Proof.
  intros Hs Hall. split; [intros H; by apply take_while_elem in H|]. intros [Hl Hp].
  induction Hs as [|x l Hs IH Hx]; [done|]. cbn. apply elem_of_cons in Hl as [<-|Hl].
  - rewrite Hp. by left.
  - rewrite Forall_forall in Hx. specialize (Hx _ Hl).
    rewrite (prefix_convex prefix x.1 kv.1); [|by apply Hall; left|done|done].
    right. apply IH; [|done]. intros y Hy. apply Hall. by right.
Qed.

(** The rows under a prefix, in key order. *)
Lemma prefix_rows_spec {Cf DB} `{CfDbLaws Cf DB} (d : DB) (c : Cf) prefix :
  StronglySorted (fun a b => bytes_ltb a.1 b.1 = true) (prefix_rows d c prefix) /\
  forall k v, (k, v) ∈ prefix_rows d c prefix <-> cf_rows d c !! k = Some v /\ has_prefix prefix k = true.
Proof.
  unfold prefix_rows. destruct (cf_scan_law d c prefix) as (l & -> & Hs & Hin).
  rewrite omap_result_ok. split; [by apply take_while_sorted|]. intros k v.
  rewrite take_while_prefix by (try done; intros [k' v'] [_ ?]%Hin; done). rewrite Hin.
  split; [by intros [[? _] ?]|]. intros [? Hp]. split_and!; try done.
  apply has_prefix_true in Hp as [k' ->]. apply bytes_prefix_leb.
Qed.

(** One operation on a column family. *)
Section CfOps.
Context {Cf : Type} `{EqDecision Cf}.

Lemma apply_put_eq (c : Cf) k v m : apply_cf_op c m (PutCf c k v) = <[k := v]> m.
Proof. cbn. by rewrite bool_decide_true. Qed.

Lemma apply_put_ne (c c' : Cf) k v m : c <> c' -> apply_cf_op c m (PutCf c' k v) = m.
Proof. intros. cbn. by rewrite bool_decide_false. Qed.

Lemma apply_delete_eq (c : Cf) k m : apply_cf_op c m (DeleteCf c k) = delete k m.
Proof. cbn. by rewrite bool_decide_true. Qed.

Lemma apply_delete_ne (c c' : Cf) k m : c <> c' -> apply_cf_op c m (DeleteCf c' k) = m.
Proof. intros. cbn. by rewrite bool_decide_false. Qed.

Lemma apply_delete_range_eq (c : Cf) from to m :
  apply_cf_op c m (DeleteRangeCf c from to) = filter (fun kv => in_range from to kv.1 = false) m.
Proof. cbn. by rewrite bool_decide_true. Qed.

Lemma apply_delete_range_ne (c c' : Cf) from to m :
  c <> c' -> apply_cf_op c m (DeleteRangeCf c' from to) = m.
Proof. intros. cbn. by rewrite bool_decide_false. Qed.

(** A batch of deletes. *)
Lemma deletes_rows (c : Cf) ks m k :
  fold_left (apply_cf_op c) (DeleteCf c <$> ks) m !! k = if decide (k ∈ ks) then None else m !! k.
Proof.
  revert m. induction ks as [|k0 ks IH]; intros m; cbn [fmap list_fmap fold_left]; [done|].
  rewrite IH, apply_delete_eq. destruct (decide (k0 = k)) as [->|Hne].
  - rewrite lookup_delete_eq. rewrite (decide_True (P := k ∈ k :: ks)) by (by left). by case_decide.
  - rewrite lookup_delete_ne by done. do 2 case_decide; try done; set_solver.
Qed.

Lemma deletes_ne (c c' : Cf) ks m :
  c <> c' -> fold_left (apply_cf_op c) (DeleteCf c' <$> ks) m = m.
Proof.
  intros Hne. revert m. induction ks as [|k0 ks IH]; intros m; [done|]. cbn [fmap list_fmap fold_left].
  by rewrite apply_delete_ne, IH.
Qed.
End CfOps.

(** ** An in-memory database *)

Definition MemDb (Cf : Type) : Type := Cf -> gmap bytes string.

Definition key_leb (a b : bytes * string) : bool := bytes_leb a.1 b.1.

Definition sorted_rows (m : gmap bytes string) : list (bytes * string) :=
  sort_by key_leb (map_to_list m).

Definition empty_db {Cf} : MemDb Cf := fun _ => ∅.

#[export] Instance mem_cf_db {Cf} `{EqDecision Cf} : CfDb Cf (MemDb Cf) := {
  cf_get d c k := Ok (d c !! k);
  cf_scan d c p := Ok <$> List.filter (fun kv => bytes_leb p kv.1) (sorted_rows (d c));
  cf_last d c := Ok <$> last (sorted_rows (d c));
  cf_write d b := Ok (fun c => fold_left (apply_cf_op c) b (d c));
  cf_flush d := Ok tt;
  cf_flush_memtable d c := Ok tt
}.

Lemma sorted_rows_strict m :
  StronglySorted (fun a b : bytes * string => bytes_ltb a.1 b.1 = true) (sorted_rows m).
Proof.
  assert (Hs : StronglySorted (le_of key_leb) (sorted_rows m)).
  { apply sort_by_sorted; [intros x y; apply bytes_leb_total|intros x y z; apply bytes_leb_trans]. }
  assert (Hnd : NoDup (sorted_rows m).*1).
  { unfold sorted_rows. rewrite sort_by_Permutation. apply NoDup_fst_map_to_list. }
  induction Hs as [|x l Hl IH Hx]; [constructor|]. cbn in Hnd. apply NoDup_cons in Hnd as [Hn Hnd].
  constructor; [by apply IH|]. rewrite Forall_forall in *. intros y Hy.
  apply bytes_leb_ltb; [by apply Hx|]. intros He. apply Hn. rewrite He. by apply list_elem_of_fmap_2.
Qed.

Lemma sorted_rows_elem m k v : (k, v) ∈ sorted_rows m <-> m !! k = Some v.
Proof. unfold sorted_rows. by rewrite sort_by_elem_of, elem_of_map_to_list. Qed.

#[export] Program Instance mem_cf_laws {Cf} `{EqDecision Cf} : CfDbLaws Cf (MemDb Cf) :=
  { cf_rows := fun d => d }.
Next Obligation. done. Qed.
Next Obligation.
  intros Cf EqC d c p. eexists. split; [reflexivity|]. split.
  - apply StronglySorted_filterb, sorted_rows_strict.
  - intros k v. by rewrite filterb_elem_of, sorted_rows_elem.
Qed.
Next Obligation.
  intros Cf EqC d c. cbn. destruct (last (sorted_rows (d c))) as [[k v]|] eqn:E; cbn.
  - split; [by apply sorted_rows_elem, last_elem|]. intros k' [v' Hk'].
    apply sorted_rows_elem in Hk'.
    destruct (last_is_max _ _ _ (sorted_rows_strict _) E _ Hk') as [[= -> ->]|Hlt].
    + unfold bytes_leb. by rewrite bytes_ltb_irrefl.
    + cbn in Hlt. unfold bytes_leb. rewrite negb_true_iff. apply not_true_is_false. intros E'.
      pose proof (bytes_ltb_trans _ _ _ Hlt E') as E2. by rewrite bytes_ltb_irrefl in E2.
  - apply last_None in E. apply map_empty. intros k. apply eq_None_not_Some. intros [v Hv].
    apply sorted_rows_elem in Hv. rewrite E in Hv. by apply elem_of_nil in Hv.
Qed.
Next Obligation. by intros Cf EqC d b d' [= <-] c. Qed.
