(* ===== verification/RaftLog.v ===== *)
(** * The Raft log on disk ([hyperbytedb/src/adapters/cluster/raft/log_store.rs])

    The [RaftStorage] half of [RaftStore] that openraft drives: the vote, the
    log, the purge point. RocksDB with its column families and serde_json are
    not part of the repository; they are the classes [CfDb] and [RaftCodec],
    with their documented behaviour as laws. *)

From stdpp Require Import prelude list sorting gmap fin_maps strings.
From S2P Require Import Prelude Bytes CfStore Membership.
From stdpp Require Import options.

#[local] Open Scope N_scope.

(** ** Keys *)

Inductive Cf := CF_META | CF_LOGS | CF_STATE.

#[export] Instance Cf_eq_dec : EqDecision Cf.
Proof. solve_decision. Defined.

(** ** openraft's types, as far as the store looks into them *)

Record LogId := mkLogId { lid_term : N; lid_node : N; lid_index : N }.

Record Vote := mkVote { vote_term : N; vote_node : N; vote_committed : bool }.

(** [Membership]: the joint configuration and the known nodes. *)
Record RaftMembership := mkRaftMembership {
  joint_config : list (gset N);
  raft_nodes : gmap N string
}.

Record StoredMembership := mkStoredMembership {
  stored_log_id : option LogId;
  stored_membership : RaftMembership
}.

Inductive EntryPayload (Req : Type) :=
| Blank
| Normal (req : Req)
| MembershipChange (mem : RaftMembership).
Arguments Blank {Req}.
Arguments Normal {Req} req.
Arguments MembershipChange {Req} mem.

Record Entry (Req : Type) := mkEntry { log_id : LogId; payload : EntryPayload Req }.
Arguments mkEntry {Req} log_id payload.
Arguments log_id {Req} _.
Arguments payload {Req} _.

Record StateMachineData := mkSm {
  last_applied_log : option LogId;
  last_membership : StoredMembership;
  cluster_membership : ClusterMembership
}.

Definition sm_default : StateMachineData :=
  mkSm None (mkStoredMembership None (mkRaftMembership [] ∅)) membership_new.

Record SnapshotMeta := mkSnapshotMeta {
  snap_last_log_id : option LogId;
  snap_last_membership : StoredMembership;
  snapshot_id : string
}.

(** The snapshot's bytes are the encoded [StateMachineData]. *)
Record StoredSnapshot := mkStoredSnapshot { snap_meta : SnapshotMeta; snap_data : string }.

Record LogState := mkLogState { ls_last_purged : option LogId; ls_last_log_id : option LogId }.

(** serde_json for the rows the store writes. *)
Class RaftCodec (Req : Type) := {
  enc_vote : Vote -> result string string;
  dec_vote : string -> result string Vote;
  enc_log_id : LogId -> result string string;
  dec_log_id : string -> result string LogId;
  enc_entry : Entry Req -> result string string;
  dec_entry : string -> result string (Entry Req);
  enc_sm : StateMachineData -> result string string;
  dec_sm : string -> result string StateMachineData;
  enc_snapshot : StoredSnapshot -> result string string;
  dec_snapshot : string -> result string StoredSnapshot
}.

Class RaftCodecLaws (Req : Type) `{RaftCodec Req} := {
  vote_roundtrip : forall x b, enc_vote x = Ok b -> dec_vote b = Ok x;
  log_id_roundtrip : forall x b, enc_log_id x = Ok b -> dec_log_id b = Ok x;
  entry_roundtrip : forall x b, enc_entry x = Ok b -> dec_entry b = Ok x;
  sm_roundtrip : forall x b, enc_sm x = Ok b -> dec_sm b = Ok x;
  snapshot_roundtrip : forall x b, enc_snapshot x = Ok b -> dec_snapshot b = Ok x
}.

(** ** The store *)

Definition KEY_VOTE : bytes := [118; 111; 116; 101].

Definition KEY_LAST_PURGED : bytes := [108; 97; 115; 116; 95; 112; 117; 114; 103; 101; 100].

Definition KEY_SM_DATA : bytes := [115; 109; 95; 100; 97; 116; 97].

Definition KEY_SNAPSHOT : bytes := [115; 110; 97; 112; 115; 104; 111; 116].

Section Store.
Context {DB Req : Type} `{!CfDb Cf DB} `{RaftCodec Req}.

(** The part of [RaftStore] that is backed by its database. *)
Record RaftStore := mkRaft {
  raft_db : DB;
  vote : option Vote;
  last_purged_log_id : option LogId;
  sm : StateMachineData
}.

(** [.map(|v| serde_json::from_slice(&v)).transpose()]. *)
Definition decode_row {A} (dec : string -> result string A) (row : option string)
    : result string (option A) :=
  match row with
  | None => Ok None
  | Some b => x ← dec b; Ok (Some x)
  end.

Definition raft_open (d : DB) : result string RaftStore :=
  row ← cf_get d CF_META KEY_VOTE;
  v ← decode_row dec_vote row;
  row ← cf_get d CF_META KEY_LAST_PURGED;
  p ← decode_row dec_log_id row;
  row ← cf_get d CF_STATE KEY_SM_DATA;
  s ← decode_row dec_sm row;
  Ok (mkRaft d v p (default sm_default s)).

Definition with_db (d : DB) (st : RaftStore) : RaftStore :=
  mkRaft d (vote st) (last_purged_log_id st) (sm st).

Definition save_vote (v : Vote) (st : RaftStore) : RaftStore * result string unit :=
  match enc_vote v with
  | Err e => (st, Err e)
  | Ok b =>
    match write_flush (raft_db st) [PutCf CF_META KEY_VOTE b] with
    | (d, Err e) => (with_db d st, Err e)
    | (d, Ok _) => (mkRaft d (Some v) (last_purged_log_id st) (sm st), Ok tt)
    end
  end.

Definition read_vote (st : RaftStore) : option Vote := vote st.

(** The loop over the iterator of [try_get_log_entries]. *)
Fixpoint read_entries (end_index : option N) (items : list (result string (bytes * string)))
    : result string (list (Entry Req)) :=
  match items with
  | [] => Ok []
  | Err e :: _ => Err e
  | Ok (k, v) :: items' =>
    if match end_index with Some e => e <=? be_to_u64 k | None => false end then Ok []
    else
      entry ← dec_entry v;
      rest ← read_entries end_index items';
      Ok (entry :: rest)
  end.

(** [try_get_log_entries] with the bounds resolved to [start..end]. *)
Definition try_get_log_entries (start : N) (end_index : option N) (st : RaftStore)
    : result string (list (Entry Req)) :=
  read_entries end_index (cf_scan (raft_db st) CF_LOGS (u64_to_be start)).

Definition get_log_state (st : RaftStore) : result string LogState :=
  last ← match cf_last (raft_db st) CF_LOGS with
         | None => Ok None
         | Some (Err e) => Err e
         | Some (Ok (_, v)) => entry ← dec_entry v; Ok (Some (log_id entry))
         end;
  Ok (mkLogState (last_purged_log_id st)
        (match last with Some id => Some id | None => last_purged_log_id st end)).

Fixpoint encode_entries (entries : list (Entry Req)) : result string (list (CfOp Cf)) :=
  match entries with
  | [] => Ok []
  | e :: entries' =>
    b ← enc_entry e;
    rest ← encode_entries entries';
    Ok (PutCf CF_LOGS (u64_to_be (lid_index (log_id e))) b :: rest)
  end.

Definition append_to_log (entries : list (Entry Req)) (st : RaftStore)
    : RaftStore * result string unit :=
  match encode_entries entries with
  | Err e => (st, Err e)
  | Ok b => let '(d, r) := write_flush (raft_db st) b in (with_db d st, r)
  end.

(** Deletes [index..u64::MAX], then the last key; a failure of the second
    delete is only logged. *)
Definition delete_conflict_logs_since (id : LogId) (st : RaftStore)
    : RaftStore * result string unit :=
  match cf_write (raft_db st) [DeleteRangeCf CF_LOGS (u64_to_be (lid_index id)) (u64_to_be u64_max)] with
  | Err e => (st, Err e)
  | Ok d =>
    match cf_write d [DeleteCf CF_LOGS (u64_to_be u64_max)] with
    | Err _ => (with_db d st, Ok tt)
    | Ok d' => (with_db d' st, Ok tt)
    end
  end.

(** Records the purge point first, then deletes [0..index + 1]. *)
Definition purge_logs_upto (id : LogId) (st : RaftStore) : RaftStore * result string unit :=
  match enc_log_id id with
  | Err e => (st, Err e)
  | Ok b =>
    match write_flush (raft_db st) [PutCf CF_META KEY_LAST_PURGED b] with
    | (d, Err e) => (with_db d st, Err e)
    | (d, Ok _) =>
      let upto := u64_to_be (wrapping_add (lid_index id) 1) in
      match write_flush d [DeleteRangeCf CF_LOGS (u64_to_be 0) upto] with
      | (d, Err e) => (with_db d st, Err e)
      | (d, Ok _) => (mkRaft d (vote st) (Some id) (sm st), Ok tt)
      end
    end
  end.
End Store.
Arguments RaftStore : clear implicits.
Arguments mkRaft {DB} _ _ _ _.

#[local] Arguments u64_to_be : simpl never.
#[local] Arguments in_range : simpl never.

(** ** The log as a map from indexes to entries *)

Section LogTheorems.
#[local] Set Default Proof Using "Type*".
Context {DB Req : Type} `{CDB : !CfDb Cf DB} `{DbLaws : !CfDbLaws Cf DB} `{CodecLaws : RaftCodecLaws Req}.

Definition log_row (rows : gmap bytes string) (i : N) : option (Entry Req) :=
  match rows !! u64_to_be i with
  | Some b => match dec_entry b with Ok e => Some e | Err _ => None end
  | None => None
  end.

Definition log_at (d : DB) (i : N) : option (Entry Req) := log_row (cf_rows d CF_LOGS) i.

(** Every row of the log holds an entry under the key of its index. *)
Definition rows_wf (rows : gmap bytes string) : Prop :=
  forall k v, rows !! k = Some v ->
    exists e, dec_entry v = Ok e /\ k = u64_to_be (lid_index (log_id e)) /\
              lid_index (log_id e) <= u64_max.

Definition log_wf (d : DB) : Prop := rows_wf (cf_rows d CF_LOGS).

Definition entry_ok (e : Entry Req) : Prop := lid_index (log_id e) <= u64_max.

Definition before_end (end_index : option N) (i : N) : Prop :=
  match end_index with Some e => i < e | None => True end.

Definition index_lt (a b : Entry Req) : Prop := lid_index (log_id a) < lid_index (log_id b).

(** A store that a restart would find as it is. *)
Definition recovered (st : RaftStore DB) : Prop := raft_open (raft_db st) = Ok st.

(** The log with [entries] written over it, the later of two with one index
    winning. *)
Definition overwritten (entries : list (Entry Req)) (i : N) (old : option (Entry Req))
    : option (Entry Req) :=
  fold_left (fun acc e => if lid_index (log_id e) =? i then Some e else acc) entries old.

Lemma log_row_index rows i e :
  rows_wf rows -> i <= u64_max -> log_row rows i = Some e -> lid_index (log_id e) = i.
Proof.
  intros Hwf Hi. unfold log_row. destruct (rows !! u64_to_be i) as [b|] eqn:E; [|done].
  destruct (Hwf _ _ E) as (e' & Hd & Hk & He'). rewrite Hd. intros [= <-].
  symmetry. by apply u64_to_be_inj.
Qed.

Lemma log_row_filter rows from to i :
  i <= u64_max -> from <= u64_max -> to <= u64_max ->
  log_row (filter (fun kv => in_range (u64_to_be from) (u64_to_be to) kv.1 = false) rows) i
  = if (from <=? i) && (i <? to) then None else log_row rows i.
Proof.
  intros Hi Hf Ht. unfold log_row. rewrite map_lookup_filter.
  assert (Hr : in_range (u64_to_be from) (u64_to_be to) (u64_to_be i) = (from <=? i) && (i <? to)).
  { unfold in_range. by rewrite u64_to_be_leb, u64_to_be_ltb. }
  destruct (rows !! u64_to_be i) as [b|]; cbn; [|by destruct (_ && _)].
  case_guard as G; cbn; cbn in G; rewrite Hr in G.
  - by rewrite G.
  - apply not_false_is_true in G. by rewrite G.
Qed.

Lemma rows_wf_filter rows (P : bytes * string -> Prop) `{forall x, Decision (P x)} :
  rows_wf rows -> rows_wf (filter P rows).
Proof. intros Hwf k v [Hk _]%map_lookup_filter_Some. by apply Hwf. Qed.

Lemma write_flush_ok d b d' :
  write_flush d b = (d', Ok tt) -> forall c, cf_rows d' c = fold_left (apply_cf_op c) b (cf_rows d c).
Proof.
  unfold write_flush. destruct (cf_write d b) as [d0|e] eqn:E; [|done].
  intros [= -> _]. by apply cf_write_law.
Qed.

(** *** Appending *)

Lemma encode_entries_rows entries b rows i :
  encode_entries entries = Ok b -> Forall entry_ok entries -> i <= u64_max ->
  log_row (fold_left (apply_cf_op CF_LOGS) b rows) i = overwritten entries i (log_row rows i) /\
  (rows_wf rows -> rows_wf (fold_left (apply_cf_op CF_LOGS) b rows)) /\
  (forall c, c <> CF_LOGS -> forall m, fold_left (apply_cf_op c) b m = m).
Proof.
  revert b rows. induction entries as [|e entries IH]; intros b rows; cbn [encode_entries].
  { intros [= <-] _ _. done. }
  destruct (enc_entry e) as [v|] eqn:Ee; [|done]. cbn.
  destruct (encode_entries entries) as [b'|] eqn:Eb; [|done]. cbn. intros [= <-] Hok Hi.
  apply Forall_cons in Hok as [He Hok]. apply entry_roundtrip in Ee.
  set (rows1 := <[u64_to_be (lid_index (log_id e)) := v]> rows).
  destruct (IH b' rows1 eq_refl Hok Hi) as (A1 & A2 & A3). cbn [fold_left apply_cf_op].
  rewrite (bool_decide_true (CF_LOGS = CF_LOGS)) by done. split_and!.
  - fold rows1. rewrite A1. unfold overwritten. cbn [fold_left]. f_equal.
    unfold log_row, rows1. destruct (N.eqb_spec (lid_index (log_id e)) i) as [<-|Hne].
    + by rewrite lookup_insert_eq, Ee.
    + rewrite lookup_insert_ne; [done|]. intros Hk. by apply u64_to_be_inj in Hk.
  - intros Hwf. apply A2. intros k w [[<- <-]|[_ Hk]]%lookup_insert_Some; [|by apply Hwf].
    by exists e.
  - intros c Hc m. rewrite bool_decide_false by done. by apply A3.
Qed.

Lemma append_rows entries st st' :
  append_to_log entries st = (st', Ok tt) -> Forall entry_ok entries ->
  (forall i, i <= u64_max -> log_at (raft_db st') i = overwritten entries i (log_at (raft_db st) i)) /\
  (log_wf (raft_db st) -> log_wf (raft_db st')) /\
  (forall c, c <> CF_LOGS -> cf_rows (raft_db st') c = cf_rows (raft_db st) c) /\
  st' = with_db (raft_db st') st.
Proof.
  unfold append_to_log. destruct (encode_entries entries) as [b|] eqn:E; [|done].
  destruct (write_flush (raft_db st) b) as [d r] eqn:Ew. intros [= <- ->] Hok.
  pose proof (write_flush_ok _ _ _ Ew) as Hrows. cbn. split_and!.
  - intros i Hi. unfold log_at. rewrite (Hrows CF_LOGS). by apply encode_entries_rows.
  - unfold log_wf. rewrite (Hrows CF_LOGS). by apply (encode_entries_rows entries b _ 0).
  - intros c Hc. rewrite Hrows.
    by apply (encode_entries_rows entries b (cf_rows (raft_db st) CF_LOGS) 0).
  - done.
Qed.

(** *** Deleting a conflicting suffix *)

Lemma delete_conflict_rows id st st' :
  delete_conflict_logs_since id st = (st', Ok tt) -> lid_index id <= u64_max ->
  (forall i, i < u64_max ->
     log_at (raft_db st') i = if lid_index id <=? i then None else log_at (raft_db st) i) /\
  (log_wf (raft_db st) -> log_wf (raft_db st')) /\
  (forall c, c <> CF_LOGS -> cf_rows (raft_db st') c = cf_rows (raft_db st) c) /\
  st' = with_db (raft_db st') st.
Proof.
  intros Hop Hid. unfold delete_conflict_logs_since in Hop.
  destruct (cf_write (raft_db st) _) as [d|] eqn:E1; [|done].
  pose proof (cf_write_law _ _ _ E1) as Hr1. cbn [fold_left apply_cf_op] in Hr1.
  assert (Hlast : st' = with_db (raft_db st') st /\
    ((forall c, cf_rows (raft_db st') c = cf_rows d c) \/
     forall c, cf_rows (raft_db st') c
               = if bool_decide (c = CF_LOGS) then delete (u64_to_be u64_max) (cf_rows d c)
                 else cf_rows d c)).
  { destruct (cf_write d _) as [d'|] eqn:E2; injection Hop as <-; (split; [done|]).
    - right. intros c. rewrite (cf_write_law _ _ _ E2). done.
    - by left. }
  clear Hop E1. destruct Hlast as [Hst Hlast].
  assert (Hlogs : forall i, i < u64_max -> log_at (raft_db st') i = log_at d i).
  { intros i Hi. unfold log_at. destruct Hlast as [-> | ->]; [done|].
    rewrite bool_decide_true by done. unfold log_row. rewrite lookup_delete_ne; [done|].
    intros Hk. apply u64_to_be_inj in Hk; unfold u64_max in *; lia. }
  assert (Hd : cf_rows d CF_LOGS = filter (fun kv =>
      in_range (u64_to_be (lid_index id)) (u64_to_be u64_max) kv.1 = false) (cf_rows (raft_db st) CF_LOGS))
    by by rewrite (Hr1 CF_LOGS).
  split_and!.
  - intros i Hi. rewrite Hlogs by done. unfold log_at. rewrite Hd, log_row_filter by lia.
    rewrite (proj2 (N.ltb_lt i u64_max)) by done. by rewrite andb_true_r.
  - intros Hwf. apply (rows_wf_filter _ (fun kv =>
      in_range (u64_to_be (lid_index id)) (u64_to_be u64_max) kv.1 = false)) in Hwf.
    rewrite <- Hd in Hwf. unfold log_wf. destruct Hlast as [-> | ->]; [done|].
    rewrite bool_decide_true by done. intros k v [_ Hk]%lookup_delete_Some. by apply Hwf.
  - intros c Hc. assert (Hdc : cf_rows d c = cf_rows (raft_db st) c).
    { rewrite Hr1. by rewrite bool_decide_false. }
    destruct Hlast as [-> | ->]; [done|]. by rewrite bool_decide_false.
  - done.
Qed.

(** *** Purging a prefix *)

Lemma purge_rows id st st' :
  purge_logs_upto id st = (st', Ok tt) -> lid_index id < u64_max ->
  (forall i, i <= u64_max ->
     log_at (raft_db st') i = if i <=? lid_index id then None else log_at (raft_db st) i) /\
  (log_wf (raft_db st) -> log_wf (raft_db st')) /\
  (exists b, enc_log_id id = Ok b /\
     cf_rows (raft_db st') CF_META = <[KEY_LAST_PURGED := b]> (cf_rows (raft_db st) CF_META)) /\
  cf_rows (raft_db st') CF_STATE = cf_rows (raft_db st) CF_STATE /\
  st' = mkRaft (raft_db st') (vote st) (Some id) (sm st).
Proof.
  intros Hop Hid. unfold purge_logs_upto in Hop. destruct (enc_log_id id) as [b|] eqn:Eb; [|done].
  destruct (write_flush (raft_db st) _) as [d [[]|]] eqn:E1; [|done].
  destruct (write_flush d _) as [d' [[]|]] eqn:E2; [|done]. injection Hop as <-. cbn [raft_db].
  pose proof (write_flush_ok _ _ _ E1) as Hr1. pose proof (write_flush_ok _ _ _ E2) as Hr2.
  cbn [fold_left apply_cf_op] in Hr1, Hr2.
  assert (Hw : wrapping_add (lid_index id) 1 = lid_index id + 1).
  { apply wrapping_add_small. lia. }
  rewrite Hw in Hr2.
  assert (Hlogs : cf_rows d' CF_LOGS = filter (fun kv =>
      in_range (u64_to_be 0) (u64_to_be (lid_index id + 1)) kv.1 = false) (cf_rows (raft_db st) CF_LOGS)).
  { rewrite (Hr2 CF_LOGS), (Hr1 CF_LOGS). done. }
  split_and!.
  - intros i Hi. unfold log_at. rewrite Hlogs, log_row_filter by (done || lia).
    cbn [andb]. rewrite (proj2 (N.leb_le 0 i)) by lia. cbn [andb].
    replace (i <? lid_index id + 1) with (i <=? lid_index id); [done|].
    apply Bool.eq_iff_eq_true. rewrite N.leb_le, N.ltb_lt. lia.
  - intros Hwf. unfold log_wf. rewrite Hlogs. by apply rows_wf_filter.
  - exists b. split; [done|]. by rewrite (Hr2 CF_META), (Hr1 CF_META).
  - by rewrite (Hr2 CF_STATE), (Hr1 CF_STATE).
  - done.
Qed.

(** *** Reading *)

Definition row_ok (kv : bytes * string) : Prop :=
  exists e, dec_entry kv.2 = Ok e /\ kv.1 = u64_to_be (lid_index (log_id e)) /\
            lid_index (log_id e) <= u64_max.

Lemma read_entries_spec end_index l :
  Forall row_ok l -> StronglySorted (fun a b : bytes * string => bytes_ltb a.1 b.1 = true) l ->
  exists es, read_entries end_index (Ok <$> l) = Ok es /\ StronglySorted index_lt es /\
    forall e, e ∈ es <-> (exists kv, kv ∈ l /\ dec_entry kv.2 = Ok e) /\
                         before_end end_index (lid_index (log_id e)).
Proof.
  induction l as [|[k v] l IH]; intros Hok Hs; cbn [fmap list_fmap read_entries].
  { exists []. split_and!; [done|constructor|]. intros e. rewrite elem_of_nil.
    split; [done|]. intros [([k v] & ?%elem_of_nil & _) _]. done. }
  apply Forall_cons in Hok as [(e & Hd & Hk & He) Hok]. cbn in Hd, Hk. apply StronglySorted_inv in Hs as [Hs Hall].
  rewrite Forall_forall in Hall.
  assert (Hafter : forall kv e', kv ∈ l -> dec_entry kv.2 = Ok e' -> index_lt e e').
  { intros kv e' Hkv Hd'. specialize (Hall kv Hkv). cbn in Hall.
    rewrite Forall_forall in Hok. destruct (Hok kv Hkv) as (e2 & Hd2 & Hk2 & He2).
    rewrite Hd2 in Hd'. injection Hd' as <-. rewrite Hk, Hk2, u64_to_be_ltb in Hall by done.
    by apply N.ltb_lt in Hall. }
  rewrite Hk, be_roundtrip by done.
  destruct (match end_index with Some n => n <=? lid_index (log_id e) | None => false end) eqn:Eend.
  - exists []. split_and!; [done|constructor|]. intros x. rewrite elem_of_nil. split; [done|].
    destruct end_index as [n|]; [|done]. apply N.leb_le in Eend. cbn.
    intros [([k' v'] & [[= -> ->]|Hin]%elem_of_cons & Hx) Hlt]; cbn in Hx.
    + rewrite Hd in Hx. injection Hx as <-. lia.
    + specialize (Hafter _ x Hin Hx). unfold index_lt in Hafter. lia.
  - rewrite Hd. cbn. destruct (IH Hok Hs) as (es & -> & Hsorted & Hmem). cbn.
    exists (e :: es). split_and!; [done| |].
    + constructor; [done|]. apply Forall_forall. intros x Hx. apply Hmem in Hx as [(kv & Hkv & Hx) _].
      by apply (Hafter kv).
    + intros x. rewrite elem_of_cons, Hmem. split.
      * intros [->|[(kv & Hkv & Hx) Hlt]].
        -- split; [exists (u64_to_be (lid_index (log_id e)), v); split; [by left|done]|]. destruct end_index; [|done].
           apply N.leb_gt in Eend. done.
        -- split; [exists kv; split; [by right|done]|done].
      * intros [(kv & [->|Hkv]%elem_of_cons & Hx) Hlt]; [left; cbn in Hx; congruence|].
        right. split; [by exists kv|done].
Qed.

Lemma scan_row_ok d p l :
  log_wf d -> (forall k v, (k, v) ∈ l <-> cf_rows d CF_LOGS !! k = Some v /\ bytes_leb p k = true) ->
  Forall row_ok l.
Proof.
  intros Hwf Hl. apply Forall_forall. intros [k v] [Hk _]%Hl. by apply Hwf.
Qed.

Lemma read_log st start end_index :
  log_wf (raft_db st) -> start <= u64_max ->
  exists es, try_get_log_entries start end_index st = Ok es /\ StronglySorted index_lt es /\
    forall e, e ∈ es <->
      lid_index (log_id e) <= u64_max /\ log_at (raft_db st) (lid_index (log_id e)) = Some e /\
      start <= lid_index (log_id e) /\ before_end end_index (lid_index (log_id e)).
Proof.
  intros Hwf Hstart. unfold try_get_log_entries.
  destruct (cf_scan_law (raft_db st) CF_LOGS (u64_to_be start)) as (l & -> & Hs & Hl).
  pose proof (scan_row_ok _ _ _ Hwf Hl) as Hok.
  destruct (read_entries_spec end_index l Hok Hs) as (es & -> & Hsorted & Hmem).
  exists es. split_and!; [done..|]. intros e. rewrite Hmem. rewrite Forall_forall in Hok. split.
  - intros [([k v] & Hkv & Hd) Hend]. destruct (Hok _ Hkv) as (e' & Hd' & Hk & He). cbn in *.
    rewrite Hd in Hd'. injection Hd' as <-. apply Hl in Hkv as [Hrow Hleb].
    rewrite Hk, u64_to_be_leb in Hleb by done. apply N.leb_le in Hleb. split_and!; try done.
    unfold log_at, log_row. rewrite <- Hk, Hrow. by rewrite Hd.
  - intros (He & Hat & Hle & Hend). split; [|done]. unfold log_at, log_row in Hat.
    destruct (cf_rows (raft_db st) CF_LOGS !! u64_to_be (lid_index (log_id e))) as [v|] eqn:Erow; [|done].
    exists (u64_to_be (lid_index (log_id e)), v). split.
    + apply Hl. split; [done|]. rewrite u64_to_be_leb by done. by apply N.leb_le.
    + cbn. destruct (dec_entry v); [|done]. by injection Hat as ->.
Qed.

(** *** Recovery *)

Lemma raft_open_rows d st :
  raft_open d = Ok st <->
  decode_row dec_vote (cf_rows d CF_META !! KEY_VOTE) = Ok (vote st) /\
  decode_row dec_log_id (cf_rows d CF_META !! KEY_LAST_PURGED) = Ok (last_purged_log_id st) /\
  (exists s, decode_row dec_sm (cf_rows d CF_STATE !! KEY_SM_DATA) = Ok s /\
             sm st = default sm_default s) /\ raft_db st = d.
Proof.
  unfold raft_open. rewrite !cf_get_law. cbn.
  destruct (decode_row dec_vote _) as [v|] eqn:Ev; cbn; [|naive_solver].
  destruct (decode_row dec_log_id _) as [p|] eqn:Ep; cbn; [|naive_solver].
  destruct (decode_row dec_sm _) as [s|] eqn:Es; cbn; [|naive_solver].
  split.
  - intros [= <-]. cbn. split_and!; eauto.
  - intros ([= ->] & [= ->] & (s' & [= ->] & <-) & <-). by destruct st.
Qed.
End LogTheorems.
