(* ===== verification/RaftLogTheorems.v ===== *)
(** * Theorems on the Raft log store

    Log updates, log reads and recovery, with a binary codec that
    instantiates [RaftCodec]. *)

From stdpp Require Import prelude list sorting gmap fin_maps strings.
From S2P Require Import Prelude Bytes CfStore Membership RaftLog.
From stdpp Require Import options.

#[local] Open Scope N_scope.

(** ** A codec *)

#[export] Instance LogId_eq_dec : EqDecision LogId.
Proof. solve_decision. Defined.

#[export] Instance Vote_eq_dec : EqDecision Vote.
Proof. solve_decision. Defined.

#[export] Instance RaftMembership_eq_dec : EqDecision RaftMembership.
Proof. solve_decision. Defined.

#[export] Instance StoredMembership_eq_dec : EqDecision StoredMembership.
Proof. solve_decision. Defined.

#[export] Instance NodeInfo_eq_dec : EqDecision NodeInfo.
Proof. solve_decision. Defined.

#[export] Instance ClusterMembership_eq_dec : EqDecision ClusterMembership.
Proof. solve_decision. Defined.

#[export] Instance StateMachineData_eq_dec : EqDecision StateMachineData.
Proof. solve_decision. Defined.

#[export] Instance SnapshotMeta_eq_dec : EqDecision SnapshotMeta.
Proof. solve_decision. Defined.

#[export] Instance StoredSnapshot_eq_dec : EqDecision StoredSnapshot.
Proof. solve_decision. Defined.

#[export] Instance EntryPayload_eq_dec {Req} `{EqDecision Req} : EqDecision (EntryPayload Req).
Proof. solve_decision. Defined.

#[export] Instance Entry_eq_dec {Req} `{EqDecision Req} : EqDecision (Entry Req).
Proof. solve_decision. Defined.

#[export] Instance LogId_countable : Countable LogId.
Proof.
  refine (inj_countable' (fun x => (lid_term x, lid_node x, lid_index x))
            (fun '(a, b, c) => mkLogId a b c) _). by intros [].
Defined.

#[export] Instance Vote_countable : Countable Vote.
Proof.
  refine (inj_countable' (fun x => (vote_term x, vote_node x, vote_committed x))
            (fun '(a, b, c) => mkVote a b c) _). by intros [].
Defined.

#[export] Instance RaftMembership_countable : Countable RaftMembership.
Proof.
  refine (inj_countable' (fun x => (joint_config x, raft_nodes x))
            (fun '(a, b) => mkRaftMembership a b) _). by intros [].
Defined.

#[export] Instance StoredMembership_countable : Countable StoredMembership.
Proof.
  refine (inj_countable' (fun x => (stored_log_id x, stored_membership x))
            (fun '(a, b) => mkStoredMembership a b) _). by intros [].
Defined.

#[export] Instance NodeState_countable : Countable NodeState.
Proof.
  refine (inj_countable show_node_state parse_node_state _). by intros [].
Defined.

#[export] Instance NodeInfo_countable : Countable NodeInfo.
Proof.
  refine (inj_countable' (fun x => (node_id x, addr x, ns x, joined_at x, last_heartbeat x,
                                    needs_sync x, consecutive_misses x))
            (fun '(a, b, c, d, e, f, g) => mkNode a b c d e f g) _). by intros [].
Defined.

#[export] Instance ClusterMembership_countable : Countable ClusterMembership.
Proof.
  refine (inj_countable' (fun x => (cm_version x, nodes x))
            (fun '(a, b) => mkMembership a b) _). by intros [].
Defined.

#[export] Instance StateMachineData_countable : Countable StateMachineData.
Proof.
  refine (inj_countable' (fun x => (last_applied_log x, last_membership x, cluster_membership x))
            (fun '(a, b, c) => mkSm a b c) _). by intros [].
Defined.

#[export] Instance SnapshotMeta_countable : Countable SnapshotMeta.
Proof.
  refine (inj_countable' (fun x => (snap_last_log_id x, snap_last_membership x, snapshot_id x))
            (fun '(a, b, c) => mkSnapshotMeta a b c) _). by intros [].
Defined.

#[export] Instance StoredSnapshot_countable : Countable StoredSnapshot.
Proof.
  refine (inj_countable' (fun x => (snap_meta x, snap_data x))
            (fun '(a, b) => mkStoredSnapshot a b) _). by intros [].
Defined.

#[export] Instance EntryPayload_countable {Req} `{Countable Req} : Countable (EntryPayload Req).
Proof.
  refine (inj_countable'
    (fun p => match p with Blank => inl None | Normal r => inl (Some r) | MembershipChange m => inr m end)
    (fun x => match x with inl None => Blank | inl (Some r) => Normal r | inr m => MembershipChange m end) _).
  by intros [].
Defined.

#[export] Instance Entry_countable {Req} `{Countable Req} : Countable (Entry Req).
Proof.
  refine (inj_countable' (fun x => (log_id x, payload x)) (fun '(a, b) => mkEntry a b) _). by intros [].
Defined.

#[export] Instance bits_raft_codec {Req} `{Countable Req} : RaftCodec Req := {
  enc_vote x := Ok (pos_bits (encode x));
  dec_vote s := decode_or s;
  enc_log_id x := Ok (pos_bits (encode x));
  dec_log_id s := decode_or s;
  enc_entry x := Ok (pos_bits (encode x));
  dec_entry s := decode_or s;
  enc_sm x := Ok (pos_bits (encode x));
  dec_sm s := decode_or s;
  enc_snapshot x := Ok (pos_bits (encode x));
  dec_snapshot s := decode_or s
}.

#[export] Instance bits_raft_codec_laws {Req} `{Countable Req} : RaftCodecLaws Req.
Proof. split; intros x b [= <-]; apply decode_or_bits. Qed.

(** ** The contract of the log *)

Section Contract.
#[local] Set Default Proof Using "Type*".
Context {DB Req : Type} `{CDB : !CfDb Cf DB} `{DbLaws : !CfDbLaws Cf DB} `{CodecLaws : RaftCodecLaws Req}.

Lemma open_frame (st st' : RaftStore DB) :
  (forall c, c <> CF_LOGS -> cf_rows (raft_db st') c = cf_rows (raft_db st) c) ->
  st' = with_db (raft_db st') st -> recovered (Req := Req) st -> recovered (Req := Req) st'.
Proof.
  unfold recovered. rewrite !raft_open_rows. intros Hrows -> (Hv & Hp & Hs & _).
  cbn in *. by rewrite !Hrows.
Qed.

Lemma save_vote_recovered v (st st' : RaftStore DB) :
  save_vote (Req := Req) v st = (st', Ok tt) ->
  vote st' = Some v /\ (recovered (Req := Req) st -> recovered (Req := Req) st').
Proof.
  unfold save_vote. destruct (enc_vote v) as [b|] eqn:Eb; [|done].
  destruct (write_flush (raft_db st) _) as [d [[]|]] eqn:Ew; [|done]. intros [= <-].
  split; [done|]. pose proof (write_flush_ok _ _ _ Ew) as Hr. cbn [fold_left apply_cf_op] in Hr.
  unfold recovered. rewrite !raft_open_rows. intros (Hv & Hp & Hs & _). cbn [raft_db vote last_purged_log_id sm].
  rewrite (Hr CF_META), (Hr CF_STATE), bool_decide_true, bool_decide_false by done.
  rewrite lookup_insert_eq, lookup_insert_ne by done. split_and!; try done.
  cbn. by rewrite (vote_roundtrip _ _ Eb).
Qed.

Lemma purge_recovered id (st st' : RaftStore DB) :
  purge_logs_upto (Req := Req) id st = (st', Ok tt) -> lid_index id < u64_max ->
  recovered (Req := Req) st -> recovered (Req := Req) st'.
Proof.
  intros Hp Hid. destruct (purge_rows (Req := Req) id st st' Hp Hid) as (_ & _ & (b & Eb & Hm) & Hs & Hst).
  unfold recovered. rewrite !raft_open_rows. intros (Hv & _ & Hsm & _). rewrite Hst.
  cbn [raft_db vote last_purged_log_id sm]. rewrite Hm, Hs.
  rewrite lookup_insert_eq, lookup_insert_ne by done. split_and!; try done.
  cbn. by rewrite (log_id_roundtrip _ _ Eb).
Qed.


(** Each acknowledged change of the log does exactly what openraft asks
    for, at every index: an append overwrites the entries it names, a
    truncation removes the conflicting suffix, a purge removes the prefix up
    to its point, and nothing else changes. *)
Theorem raft_log_updates (st : RaftStore DB) :
  log_wf (Req := Req) (raft_db st) ->
  (forall es st', Forall entry_ok es -> append_to_log (Req := Req) es st = (st', Ok tt) ->
     log_wf (Req := Req) (raft_db st') /\
     forall i, i <= u64_max ->
       log_at (raft_db st') i = overwritten es i (log_at (raft_db st) i)) /\
  (forall id st', lid_index id <= u64_max -> delete_conflict_logs_since id st = (st', Ok tt) ->
     log_wf (Req := Req) (raft_db st') /\
     forall i, i < u64_max ->
       log_at (Req := Req) (raft_db st') i
       = if lid_index id <=? i then None else log_at (raft_db st) i) /\
  (forall id st', lid_index id < u64_max -> purge_logs_upto (Req := Req) id st = (st', Ok tt) ->
     log_wf (Req := Req) (raft_db st') /\
     forall i, i <= u64_max ->
       log_at (Req := Req) (raft_db st') i
       = if i <=? lid_index id then None else log_at (raft_db st) i).
Proof.
  intros Hwf. split_and!.
  - intros es st' Hok Ha. destruct (append_rows es st st' Ha Hok) as (H1 & H2 & _). auto.
  - intros id st' Hid Hd. destruct (delete_conflict_rows (Req := Req) id st st' Hd Hid) as (H1 & H2 & _).
    auto.
  - intros id st' Hid Hp. destruct (purge_rows (Req := Req) id st st' Hp Hid) as (H1 & H2 & _). auto.
Qed.

Lemma log_state_rows (st : RaftStore DB) :
  log_wf (Req := Req) (raft_db st) ->
  exists s, get_log_state (Req := Req) st = Ok s /\ ls_last_purged s = last_purged_log_id st /\
    ((exists e, log_at (Req := Req) (raft_db st) (lid_index (log_id e)) = Some e /\
        ls_last_log_id s = Some (log_id e) /\
        forall i x, i <= u64_max -> log_at (Req := Req) (raft_db st) i = Some x -> i <= lid_index (log_id e)) \/
     ((forall i, log_at (Req := Req) (raft_db st) i = None) /\ ls_last_log_id s = last_purged_log_id st)).
Proof.
  intros Hwf. unfold get_log_state. pose proof (cf_last_law (raft_db st) CF_LOGS) as Hlast.
  destruct (cf_last (raft_db st) CF_LOGS) as [[[k v]|]|]; [..|done|].
  - destruct Hlast as [Hrow Hmax]. destruct (Hwf k v Hrow) as (e & Hd & Hk & He). cbn. rewrite Hd. cbn.
    eexists. split; [reflexivity|]. split; [done|]. left. exists e. split_and!.
    + unfold log_at, log_row. by rewrite <- Hk, Hrow, Hd.
    + done.
    + intros i x Hi Hx. unfold log_at, log_row in Hx.
      destruct (cf_rows (raft_db st) CF_LOGS !! u64_to_be i) eqn:Ei; [|done].
      specialize (Hmax _ (mk_is_Some _ _ Ei)). rewrite Hk, u64_to_be_leb in Hmax by done.
      by apply N.leb_le in Hmax.
  - eexists. split; [reflexivity|]. split; [done|]. right. split; [|done]. intros i.
    unfold log_at, log_row. by rewrite Hlast, lookup_empty.
Qed.

(** Reading the log back. [try_get_log_entries] returns exactly the stored
    entries of the range asked for, in index order, and [get_log_state]
    reports the last entry, or the purge point of an empty log. *)
Theorem raft_log_reads (st : RaftStore DB) (start : N) (end_index : option N) :
  log_wf (Req := Req) (raft_db st) -> start <= u64_max ->
  (exists es, try_get_log_entries (Req := Req) start end_index st = Ok es /\
     StronglySorted index_lt es /\
     forall e, e ∈ es <->
       lid_index (log_id e) <= u64_max /\ log_at (raft_db st) (lid_index (log_id e)) = Some e /\
       start <= lid_index (log_id e) /\ before_end end_index (lid_index (log_id e))) /\
  (exists s, get_log_state (Req := Req) st = Ok s /\ ls_last_purged s = last_purged_log_id st /\
    ((exists e, log_at (Req := Req) (raft_db st) (lid_index (log_id e)) = Some e /\
        ls_last_log_id s = Some (log_id e) /\
        forall i x, i <= u64_max -> log_at (Req := Req) (raft_db st) i = Some x ->
          i <= lid_index (log_id e)) \/
     ((forall i, log_at (Req := Req) (raft_db st) i = None) /\
      ls_last_log_id s = last_purged_log_id st))).
Proof. intros Hwf Hs. split; [by apply read_log|by apply log_state_rows]. Qed.
End Contract.

(** ** Witnesses *)

Definition fresh_db : MemDb Cf := empty_db.

Definition fresh_raft : RaftStore (MemDb Cf) := mkRaft fresh_db None None sm_default.

Definition blank_at (i : N) : Entry unit := mkEntry (mkLogId 1 1 i) Blank.

Definition voted_raft : RaftStore (MemDb Cf) := (save_vote (Req := unit) (mkVote 3 1 true) fresh_raft).1.

Definition appended_raft : RaftStore (MemDb Cf) :=
  (append_to_log [blank_at 1; blank_at 2; blank_at 300] fresh_raft).1.

Lemma fresh_recovered : recovered (Req := unit) fresh_raft.
Proof. reflexivity. Qed.

Lemma fresh_wf : log_wf (Req := unit) fresh_db.
Proof. intros k v. cbn. unfold fresh_db, empty_db. by rewrite lookup_empty. Qed.

Lemma blanks_ok : Forall entry_ok [blank_at 1; blank_at 2; blank_at 300].
Proof. repeat constructor; done. Qed.


Lemma appended_ok :
  append_to_log [blank_at 1; blank_at 2; blank_at 300] fresh_raft = (appended_raft, Ok tt).
Proof. unfold appended_raft. rewrite (surjective_pairing (append_to_log _ _)). reflexivity. Qed.

Lemma raft_log_updates_witness :
  log_wf (Req := unit) (raft_db appended_raft) /\
  forall i, i <= u64_max ->
    log_at (raft_db appended_raft) i
    = overwritten [blank_at 1; blank_at 2; blank_at 300] i (log_at (raft_db fresh_raft) i).
Proof.
  apply (raft_log_updates (Req := unit) fresh_raft fresh_wf); [exact blanks_ok|]. exact appended_ok.
Defined.

Lemma appended_wf : log_wf (Req := unit) (raft_db appended_raft).
Proof.
  apply (append_rows [blank_at 1; blank_at 2; blank_at 300] fresh_raft appended_raft);
    [exact appended_ok|exact blanks_ok|exact fresh_wf].
Qed.

Lemma raft_log_reads_witness :
  exists es, try_get_log_entries (Req := unit) 2 (Some 300) appended_raft = Ok es /\
    StronglySorted index_lt es.
Proof.
  destruct (raft_log_reads (Req := unit) appended_raft 2 (Some 300) appended_wf) as [(es & H1 & H2 & _) _];
    [done|]. exists es. split; [exact H1|exact H2].
Defined.
