(* ===== verification/RaftApply.v ===== *)
(** * Applying the Raft log ([hyperbytedb/src/adapters/cluster/raft/log_store.rs])

    The state-machine half of [RaftStore]: a committed entry reaches the
    membership table, the schema and the shard map; snapshots of the state
    machine are built and installed. Schema mutations go through
    [schema_mutation_apply::apply_schema_mutation], which is the class
    [SchemaApplier] here: it changes the metadata store and reads the shard
    map at most. The payload types it alone looks into are opaque. *)

From stdpp Require Import prelude list sorting gmap fin_maps strings.
From S2P Require Import Prelude Bytes CfStore ShardTypes ShardOps LocationCache ShardStore Membership RaftLog.
From stdpp Require Import options.

#[local] Open Scope N_scope.

(** ** Requests *)

(** The payloads of schema mutations. *)
Class SchemaTypes := {
  RetentionPolicy : Type;
  ContinuousQueryDef : Type;
  MaterializedViewDef : Type;
  MeasurementMeta : Type;
  RetentionPolicyChange : Type;
  DatabasePrivilege : Type;
  SettingValue : Type
}.

Inductive MutationRequest `{SchemaTypes} :=
| CreateDatabase (name : string) (rp : option RetentionPolicy)
| DropDatabase (name : string)
| CreateRetentionPolicy (d : string) (rp : RetentionPolicy)
| DropRetentionPolicy (d name : string)
| CreateUser (username password_hash : string) (admin : bool)
| DropUser (username : string)
| SetPassword (username password_hash : string)
| DeleteRows (database rp ms predicate_sql : string)
| CreateContinuousQuery (database name : string) (definition : ContinuousQueryDef)
| DropContinuousQuery (database name : string)
| CreateMaterializedView (database name : string) (definition : MaterializedViewDef)
    (source_meta : option MeasurementMeta)
| DropMaterializedView (database name : string)
| AlterRetentionPolicy (d name : string) (change : RetentionPolicyChange)
| DropSeries (database rp : string) (ms : option string) (predicate_sql : string)
| DropMeasurement (database rp name : string)
| Grant (username : string) (database : option string) (privilege : DatabasePrivilege)
| Revoke (username : string) (database : option string) (privilege : DatabasePrivilege)
| SetSetting (name : string) (value : option SettingValue).

Inductive ClusterRequest `{SchemaTypes} :=
| SetNodeState (node_id : N) (state : NodeState)
| SchemaMutation (mutation : MutationRequest)
| ShardMapMutation (op : ShardMapOp).

(** The error a response carries as its message. *)
Inductive ApplyError :=
| SchemaError (msg : string)
| MapError (e : StoreError)
| NotAvailable (what : string).

Record ClusterResponse := mkResponse { resp_ok : bool; resp_error : option ApplyError }.

Definition success : ClusterResponse := mkResponse true None.

Definition error_response (e : ApplyError) : ClusterResponse := mkResponse false (Some e).

(** The shard spaces a schema drop takes with it. *)
Definition drop_space_for `{SchemaTypes} (mutation : MutationRequest) : option ShardMapOp :=
  match mutation with
  | DropDatabase d => Some (DropSpace d None None)
  | DropRetentionPolicy d name => Some (DropSpace d (Some name) None)
  | DropMeasurement d r name => Some (DropSpace d (Some r) (Some name))
  | _ => None
  end.

Class SchemaApplier `{SchemaTypes} (Meta : Type) :=
  apply_schema_mutation : MutationRequest -> Meta -> Meta * result string unit.

(** ** The node *)

Section Apply.
Context {DB SDB Meta : Type} `{SchemaTypes} `{!CfDb Cf DB} `{RaftCodec ClusterRequest}.
Context `{RocksDb SDB} `{ShardCodec} `{!SchemaApplier Meta}.

(** [RaftStore] with the runtime state it applies entries to. *)
Record RaftNode := mkRaftNode {
  raft : RaftStore DB;
  shared_membership : ClusterMembership;
  metadata : option Meta;
  shard_map : option (RocksDbShardMap SDB);
  shard_location_cache : option CacheInner
}.

Definition set_shared (m : ClusterMembership) (n : RaftNode) : RaftNode :=
  mkRaftNode (raft n) m (metadata n) (shard_map n) (shard_location_cache n).

Definition set_metadata (m : option Meta) (n : RaftNode) : RaftNode :=
  mkRaftNode (raft n) (shared_membership n) m (shard_map n) (shard_location_cache n).

Definition set_map (m : option (RocksDbShardMap SDB)) (c : option CacheInner) (n : RaftNode)
    : RaftNode := mkRaftNode (raft n) (shared_membership n) (metadata n) m c.

Definition set_raft (r : RaftStore DB) (n : RaftNode) : RaftNode :=
  mkRaftNode r (shared_membership n) (metadata n) (shard_map n) (shard_location_cache n).

Definition set_sm (s : StateMachineData) (n : RaftNode) : RaftNode :=
  set_raft (mkRaft (raft_db (raft n)) (vote (raft n)) (last_purged_log_id (raft n)) s) n.

(** [RaftStore::apply_shard_map_op]. *)
Definition apply_map_op (op : ShardMapOp) (n : RaftNode) : RaftNode * ClusterResponse :=
  match shard_map n with
  | None => (n, error_response (NotAvailable "shard map not available"))
  | Some st =>
    let changed := affected_space_keys op (snapshot st) in
    match apply_op st op with
    | (st', Ok m) =>
      let c := (fun c => fold_left (fun c k => refresh_measurement c m k) changed c)
                 <$> shard_location_cache n in
      (set_map (Some st') c n, success)
    | (st', Err e) => (set_map (Some st') (shard_location_cache n) n, error_response (MapError e))
    end
  end.

Definition apply_request (req : ClusterRequest) (n : RaftNode) : RaftNode * ClusterResponse :=
  match req with
  | SetNodeState id s => (set_shared (set_node_state id s (shared_membership n)).1 n, success)
  | SchemaMutation mutation =>
    match metadata n with
    | None => (n, error_response (NotAvailable "metadata port not available"))
    | Some meta =>
      let '(meta', r) := apply_schema_mutation mutation meta in
      let n := set_metadata (Some meta') n in
      let resp := match r with Ok _ => success | Err e => error_response (SchemaError e) end in
      match drop_space_for mutation, shard_map n with
      | Some op, Some _ => ((apply_map_op op n).1, resp)
      | _, _ => (n, resp)
      end
    end
  | ShardMapMutation op => apply_map_op op n
  end.

(** The voters of all configurations of a joint membership. *)
Definition voter_ids (mem : RaftMembership) : gset N := ⋃ (joint_config mem).

(** One iteration of [apply_to_state_machine]. *)
Definition apply_entry (now : Z) (n : RaftNode) (e : Entry ClusterRequest)
    : RaftNode * ClusterResponse :=
  let s := sm (raft n) in
  let n := set_sm (mkSm (Some (log_id e)) (last_membership s) (cluster_membership s)) n in
  match payload e with
  | Blank => (n, success)
  | Normal req => apply_request req n
  | MembershipChange mem =>
    let s := sm (raft n) in
    let n := set_sm (mkSm (last_applied_log s) (mkStoredMembership (Some (log_id e)) mem)
                       (cluster_membership s)) n in
    (set_shared (sync_raft_membership_to_shared now (voter_ids mem) (raft_nodes mem)
                   (shared_membership n)) n, success)
  end.

Fixpoint apply_entries (now : Z) (n : RaftNode) (es : list (Entry ClusterRequest))
    : RaftNode * list ClusterResponse :=
  match es with
  | [] => (n, [])
  | e :: es' =>
    let '(n, r) := apply_entry now n e in
    let '(n, rs) := apply_entries now n es' in
    (n, r :: rs)
  end.

(** Applies the batch, then writes the state machine's row. *)
Definition apply_to_state_machine (now : Z) (es : list (Entry ClusterRequest)) (n : RaftNode)
    : RaftNode * result string (list ClusterResponse) :=
  let '(n, rs) := apply_entries now n es in
  match enc_sm (sm (raft n)) with
  | Err e => (n, Err e)
  | Ok b =>
    match cf_write (raft_db (raft n)) [PutCf CF_STATE KEY_SM_DATA b] with
    | Err e => (n, Err e)
    | Ok d => (set_raft (with_db d (raft n)) n, Ok rs)
    end
  end.

(** ** Snapshots *)

(** The snapshot id is the text of the applied log id. *)
Context (show_log_id : LogId -> string).

Definition snapshot_meta (s : StateMachineData) : SnapshotMeta :=
  mkSnapshotMeta (last_applied_log s) (last_membership s)
    (match last_applied_log s with Some id => show_log_id id | None => EmptyString end).

(** [serialize_snapshot]: the meta and the encoded state machine. *)
Definition serialize_snapshot (r : RaftStore DB) : result string StoredSnapshot :=
  b ← enc_sm (sm r);
  Ok (mkStoredSnapshot (snapshot_meta (sm r)) b).

Definition build_snapshot (r : RaftStore DB) : RaftStore DB * result string StoredSnapshot :=
  match (snap ← serialize_snapshot r;
         b ← enc_snapshot snap;
         d ← cf_write (raft_db r) [PutCf CF_STATE KEY_SNAPSHOT b];
         Ok (d, snap)) with
  | Err e => (r, Err e)
  | Ok (d, snap) => (with_db d r, Ok snap)
  end.

(** The rows of an installed snapshot, written as one batch. *)
Definition snapshot_batch (snap : StoredSnapshot) (sm_bytes snap_bytes : string)
    (purged : option (LogId * string)) : list (CfOp Cf) :=
  [PutCf CF_STATE KEY_SM_DATA sm_bytes; PutCf CF_STATE KEY_SNAPSHOT snap_bytes]
  ++ match purged with
     | None => []
     | Some (id, pb) =>
       [PutCf CF_META KEY_LAST_PURGED pb;
        DeleteRangeCf CF_LOGS (u64_to_be 0) (u64_to_be (wrapping_add (lid_index id) 1))]
     end.

Definition encode_purged (id : option LogId) : result string (option (LogId * string)) :=
  match id with
  | None => Ok None
  | Some i => b ← enc_log_id i; Ok (Some (i, b))
  end.

Definition install_snapshot (snap : StoredSnapshot) (n : RaftNode) : RaftNode * result string unit :=
  match (s ← dec_sm (snap_data snap);
         sm_bytes ← enc_sm s;
         snap_bytes ← enc_snapshot snap;
         purged ← encode_purged (snap_last_log_id (snap_meta snap));
         Ok (s, snapshot_batch snap sm_bytes snap_bytes purged)) with
  | Err e => (n, Err e)
  | Ok (s, batch) =>
    match write_flush (raft_db (raft n)) batch with
    | (d, Err e) => (set_raft (with_db d (raft n)) n, Err e)
    | (d, Ok _) =>
      let r := mkRaft d (vote (raft n)) (snap_last_log_id (snap_meta snap)) s in
      let shared := merge_snapshot_membership (shared_membership n) (cluster_membership s) in
      (set_shared shared (set_raft r n), Ok tt)
    end
  end.

Definition get_current_snapshot (r : RaftStore DB) : result string (option StoredSnapshot) :=
  row ← cf_get (raft_db r) CF_STATE KEY_SNAPSHOT;
  match row with
  | Some b => x ← dec_snapshot b; Ok (Some x)
  | None =>
    match last_applied_log (sm r) with
    | Some _ => x ← serialize_snapshot r; Ok (Some x)
    | None => Ok None
    end
  end.
End Apply.
Arguments RaftNode : clear implicits.
Arguments mkRaftNode {DB SDB Meta} _ _ _ _ _.
