(* ===== verification/RaftApplyTheorems.v ===== *)
(** * Theorems on applying the Raft log

    Replicas agree on the shard map, an applied batch and an installed
    snapshot survive a restart, and what snapshots and failed writes leave
    out. The last part instantiates the interfaces for the concrete
    instances. *)

From stdpp Require Import prelude list sorting gmap fin_maps strings.
From S2P Require Import Prelude ShardTypes ShardOps ShardInvariant ShardTheorems.
From S2P Require Import LocationCache ShardStore ShardStoreTheorems.
From S2P Require Import Bytes CfStore Membership RaftLog RaftLogTheorems RaftApply.
From stdpp Require Import options.

#[local] Open Scope N_scope.

Section ApplyTheorems.
#[local] Set Default Proof Using "Type*".
Context {DB SDB Meta : Type} `{ST : SchemaTypes} `{CDB : !CfDb Cf DB} `{RC : RaftCodec ClusterRequest}.
Context `{RDB : RocksDb SDB} `{SC : ShardCodec} `{SA : !SchemaApplier Meta}.

Implicit Types (n : RaftNode DB SDB Meta) (st : RocksDbShardMap SDB).

(** ** The pure state machine *)

(** The map a node holds. *)
Definition node_map n : option ShardMap := cache <$> shard_map n.

(** One operation on the replicated map: a refused one changes nothing. *)
Definition step_map (m : ShardMap) (op : ShardMapOp) : ShardMap :=
  match apply_shard_map_op m op with
  | (m', Ok _) => m'
  | (_, Err _) => m
  end.

(** The map operations an entry stands for. *)
Definition entry_ops (e : Entry ClusterRequest) : list ShardMapOp :=
  match payload e with
  | Normal (ShardMapMutation op) => [op]
  | Normal (SchemaMutation mu) => match drop_space_for mu with Some op => [op] | None => [] end
  | _ => []
  end.

(** Every write of a space's row succeeds. *)
Definition writes_ok : Prop := forall (d : SDB) m k, exists d', persist_space d m k = Ok d'.

Lemma persist_spaces_ok (d : SDB) m ks : writes_ok -> exists d', persist_spaces d m ks = (d', Ok tt).
Proof.
  intros Hw. revert d. induction ks as [|k ks IH]; intros d; cbn; [by exists d|].
  destruct (Hw d m k) as [d' ->]. apply IH.
Qed.

Lemma apply_op_map st op : writes_ok -> cache (apply_op st op).1 = step_map (cache st) op.
Proof.
  intros Hw. unfold apply_op, step_map. destruct (apply_shard_map_op (cache st) op) as [m [[]|e]]; [|done].
  destruct (persist_spaces_ok (store_db st) m (affected_space_keys op (cache st)) Hw) as [d ->]. done.
Qed.

Lemma apply_map_op_map op n :
  writes_ok -> node_map (apply_map_op op n).1 = (fun m => step_map m op) <$> node_map n.
Proof.
  intros Hw. unfold apply_map_op, node_map. destruct (shard_map n) as [st|] eqn:E; cbn; [|by rewrite E].
  pose proof (apply_op_map st op Hw) as H. by destruct (apply_op st op) as [st' [m|e]]; cbn in *; rewrite H.
Qed.

Lemma apply_map_op_frame op n :
  raft (apply_map_op op n).1 = raft n /\ metadata (apply_map_op op n).1 = metadata n /\
  shared_membership (apply_map_op op n).1 = shared_membership n.
Proof.
  unfold apply_map_op. destruct (shard_map n) as [st|]; [|done].
  by destruct (apply_op st op) as [st' [m|e]].
Qed.

Lemma apply_request_map req n :
  writes_ok -> is_Some (metadata n) ->
  node_map (apply_request req n).1
  = (fun m => fold_left step_map
      (match req with
       | ShardMapMutation op => [op]
       | SchemaMutation mu => match drop_space_for mu with Some op => [op] | None => [] end
       | _ => [] end) m) <$> node_map n.
Proof.
  intros Hw [meta Hm]. destruct req as [id s|mu|op]; cbn [apply_request].
  - unfold node_map. cbn. by destruct (shard_map n).
  - rewrite Hm. destruct (apply_schema_mutation mu meta) as [meta' r].
    destruct (drop_space_for mu) as [op|]; cbn.
    + destruct (shard_map n) as [st|] eqn:E.
      * cbn [fst]. rewrite apply_map_op_map by done. unfold node_map. cbn. by rewrite E.
      * unfold node_map. cbn. by rewrite E.
    + unfold node_map. cbn. by destruct (shard_map n).
  - by rewrite apply_map_op_map.
Qed.

Lemma apply_request_frame req n :
  raft (apply_request req n).1 = raft n /\
  (is_Some (metadata n) -> is_Some (metadata (apply_request req n).1)).
Proof.
  destruct req as [id s|mu|op]; cbn [apply_request]; [done| |].
  - destruct (metadata n) as [meta|] eqn:Em; [|done].
    destruct (apply_schema_mutation mu meta) as [meta' r].
    destruct (drop_space_for mu) as [op|]; [|by cbn; eauto].
    cbn [shard_map set_metadata]. destruct (shard_map n) eqn:E; [|by cbn; eauto]. cbn [fst].
    destruct (apply_map_op_frame op (set_metadata (Some meta') n)) as (H1 & H2 & _).
    rewrite H1, H2. cbn. eauto.
  - by destruct (apply_map_op_frame op n) as (-> & -> & _).
Qed.

Lemma apply_entry_spec now n e :
  sm (raft (apply_entry now n e).1)
  = mkSm (Some (log_id e))
      (match payload e with
       | MembershipChange mem => mkStoredMembership (Some (log_id e)) mem
       | _ => last_membership (sm (raft n)) end)
      (cluster_membership (sm (raft n))) /\
  raft (apply_entry now n e).1
  = mkRaft (raft_db (raft n)) (vote (raft n)) (last_purged_log_id (raft n))
      (sm (raft (apply_entry now n e).1)) /\
  (is_Some (metadata n) -> is_Some (metadata (apply_entry now n e).1)).
Proof.
  unfold apply_entry. destruct (payload e) as [|req|mem]; cbn [fst]; [done| |done].
  match goal with |- context [apply_request req ?n0] =>
    destruct (apply_request_frame req n0) as [-> Hm] end. by split_and!.
Qed.

Lemma apply_entry_map now n e :
  writes_ok -> is_Some (metadata n) ->
  node_map (apply_entry now n e).1 = (fun m => fold_left step_map (entry_ops e) m) <$> node_map n.
Proof.
  intros Hw Hm. unfold apply_entry, entry_ops. destruct (payload e) as [|req|mem]; cbn [fst].
  - unfold node_map. cbn. by destruct (shard_map n).
  - rewrite apply_request_map by done. destruct req; unfold node_map; cbn; by destruct (shard_map n).
  - unfold node_map. cbn. by destruct (shard_map n).
Qed.

Lemma apply_entries_map now n es :
  writes_ok -> is_Some (metadata n) ->
  node_map (apply_entries now n es).1
  = (fun m => fold_left step_map (es ≫= entry_ops) m) <$> node_map n.
Proof.
  intros Hw. revert n. induction es as [|e es IH]; intros n Hm; cbn [apply_entries].
  { cbn. by destruct (node_map n). }
  pose proof (apply_entry_map now n e Hw Hm) as H1.
  pose proof (proj2 (proj2 (apply_entry_spec now n e)) Hm) as H2.
  destruct (apply_entry now n e) as [n1 r]. cbn [fst] in *.
  specialize (IH n1 H2). destruct (apply_entries now n1 es) as [n2 rs]. cbn [fst] in *.
  rewrite IH, H1. destruct (node_map n); cbn; [|done]. by rewrite fold_left_app.
Qed.

Lemma apply_to_sm_cases now es n :
  node_map (apply_to_state_machine now es n).1 = node_map (apply_entries now n es).1.
Proof.
  unfold apply_to_state_machine. destruct (apply_entries now n es) as [n' rs]. cbn [fst].
  destruct (enc_sm _) as [b|]; [|done]. by destruct (cf_write _ _).
Qed.

(** C5: Applying committed entries refines the pure state machine, so replicas
    agree: when its rows can be written, a node's shard map after a batch is
    the map before it with the operations of the batch applied in order, and
    two nodes with the same map end with the same map, whatever their
    databases, caches, membership views and clocks are. *)
Theorem replicas_agree_on_map (now now' : Z) (es : list (Entry ClusterRequest))
    (n n' : RaftNode DB SDB Meta) :
  writes_ok -> is_Some (metadata n) -> is_Some (metadata n') -> node_map n = node_map n' ->
  node_map (apply_to_state_machine now es n).1
  = (fun m => fold_left step_map (es ≫= entry_ops) m) <$> node_map n /\
  node_map (apply_to_state_machine now es n).1 = node_map (apply_to_state_machine now' es n').1.
Proof.
  intros Hw Hm Hm' He. rewrite !apply_to_sm_cases, !apply_entries_map by done. by rewrite He.
Qed.

(** ** The persisted state machine *)

Lemma apply_entries_sm now n es :
  let n' := (apply_entries now n es).1 in
  raft n' = mkRaft (raft_db (raft n)) (vote (raft n)) (last_purged_log_id (raft n)) (sm (raft n')) /\
  cluster_membership (sm (raft n')) = cluster_membership (sm (raft n)) /\
  last_applied_log (sm (raft n'))
  = match last es with Some e => Some (log_id e) | None => last_applied_log (sm (raft n)) end /\
  length (apply_entries now n es).2 = length es.
Proof.
  cbn zeta. revert n. induction es as [|e es IH]; intros n; cbn [apply_entries].
  { cbn. by destruct (raft n). }
  destruct (apply_entry_spec now n e) as (H1 & H2 & _).
  destruct (apply_entry now n e) as [n1 r]. cbn [fst] in *. specialize (IH n1).
  destruct (apply_entries now n1 es) as [n2 rs]. cbn [fst snd length] in *.
  destruct IH as (I1 & I2 & I3 & I4). split_and!.
  - rewrite I1, H2. done.
  - rewrite I2, H1. done.
  - rewrite I3, H1, last_cons. cbn. by destruct (last es).
  - by rewrite I4.
Qed.

(** Node states set through Raft are not part of the replicated state
    machine: no entry, [SetNodeState] included, ever changes the
    [cluster_membership] that is persisted and put into snapshots. *)
Theorem node_states_not_recorded (now : Z) (es : list (Entry ClusterRequest))
    (n : RaftNode DB SDB Meta) :
  cluster_membership (sm (raft (apply_to_state_machine now es n).1))
  = cluster_membership (sm (raft n)).
Proof.
  unfold apply_to_state_machine. destruct (apply_entries_sm now n es) as (_ & H & _).
  destruct (apply_entries now n es) as [n' rs]. cbn [fst] in *.
  destruct (enc_sm _) as [b|]; [|done]. by destruct (cf_write _ _).
Qed.

(** A map operation of one measurement that the database refuses to write. *)
Lemma refused_write_keeps_map st op k :
  (forall (d : SDB) b, exists e, rdb_write d b = Err e) ->
  measurement_key op = Some k -> cache (apply_op st op).1 = cache st /\ is_ok (apply_op st op).2 = false.
Proof.
  intros Hw Hk. unfold apply_op. destruct (apply_shard_map_op (cache st) op) as [m [[]|e]]; [|done].
  assert (Hkeys : affected_space_keys op (cache st) = [k]).
  { unfold affected_space_keys. destruct op; try done; by rewrite Hk. }
  rewrite Hkeys. cbn [persist_spaces]. unfold persist_space.
  destruct (put_meta m) as [meta|]; cbn; [|done].
  destruct (match space m k with Some _ => _ | None => _ end) as [row|]; cbn; [|done].
  destruct (Hw (store_db st) [meta; row]) as [e ->]. done.
Qed.

(** A node that cannot write its shard map falls behind for good: the
    operation is answered with an error and the map stays as it was, but the
    entry counts as applied, so Raft does not deliver it again. *)
Theorem unwritable_map_skips_entry (now : Z) (id : LogId) (op : ShardMapOp) (k : MeasurementKey)
    (n n' : RaftNode DB SDB Meta) (rs : list ClusterResponse) :
  (forall (d : SDB) b, exists e, rdb_write d b = Err e) ->
  measurement_key op = Some k ->
  apply_to_state_machine now [mkEntry id (Normal (ShardMapMutation op))] n = (n', Ok rs) ->
  node_map n' = node_map n /\ last_applied_log (sm (raft n')) = Some id /\
  (forall r, r ∈ rs -> resp_ok r = false).
Proof.
  intros Hw Hk. unfold apply_to_state_machine. cbn [apply_entries apply_entry payload log_id].
  set (n0 := set_sm _ n). cbn [apply_request].
  destruct (apply_map_op op n0) as [n1 r] eqn:E.
  destruct (enc_sm (sm (raft n1))) as [b|]; [|done].
  destruct (cf_write (raft_db (raft n1)) _) as [d|]; [|done]. intros [= <- <-].
  pose proof (apply_map_op_frame op n0) as (Hr & _). rewrite E in Hr. cbn [fst] in Hr.
  split_and!.
  - unfold apply_map_op in E. unfold node_map. cbn.
    change (shard_map n0) with (shard_map n) in E. destruct (shard_map n) as [st|] eqn:Es.
    + destruct (refused_write_keeps_map st op k Hw Hk) as [Hc _].
      destruct (apply_op st op) as [st' [m|e]]; injection E as <- _; cbn in *; by rewrite Hc.
    + injection E as <- _. cbn. by rewrite Es.
  - cbn. by rewrite Hr.
  - intros x Hx%list_elem_of_singleton. subst x. unfold apply_map_op in E.
    change (shard_map n0) with (shard_map n) in E. destruct (shard_map n) as [st|] eqn:Es.
    + destruct (refused_write_keeps_map st op k Hw Hk) as [_ Hok].
      destruct (apply_op st op) as [st' [m|e]]; [done|]. by injection E as _ <-.
    + by injection E as _ <-.
Qed.
End ApplyTheorems.

(** ** Durability of the state machine and of snapshots *)

Section Durability.
#[local] Set Default Proof Using "Type*".
Context {DB SDB Meta : Type} `{ST : SchemaTypes} `{CDB : !CfDb Cf DB} `{DbLaws : !CfDbLaws Cf DB}.
Context `{CodecLaws : RaftCodecLaws ClusterRequest}.
Context `{RDB : RocksDb SDB} `{SC : ShardCodec} `{SA : !SchemaApplier Meta}.
Context (show_log_id : LogId -> string).

Lemma sm_row_recovered (r : RaftStore DB) s d b :
  raft_open (Req := ClusterRequest) (raft_db r) = Ok r \/
  (exists s0, raft_open (Req := ClusterRequest) (raft_db r) = Ok (mkRaft (raft_db r) (vote r) (last_purged_log_id r) s0)) ->
  enc_sm s = Ok b -> cf_write (raft_db r) [PutCf CF_STATE KEY_SM_DATA b] = Ok d ->
  raft_open (Req := ClusterRequest) d = Ok (mkRaft d (vote r) (last_purged_log_id r) s).
Proof.
  intros Hopen Hb Hw. pose proof (cf_write_law _ _ _ Hw) as Hr. cbn [fold_left apply_cf_op] in Hr.
  assert (Hrows : exists s0, raft_open (Req := ClusterRequest) (raft_db r)
                             = Ok (mkRaft (raft_db r) (vote r) (last_purged_log_id r) s0)).
  { destruct Hopen as [Ho|Ho]; [|done]. exists (sm r). rewrite Ho. by destruct r. }
  destruct Hrows as [s0 Ho]. rewrite raft_open_rows in Ho |- *. destruct Ho as (Hv & Hp & _ & _).
  cbn [vote last_purged_log_id sm raft_db] in *. rewrite (Hr CF_META), (Hr CF_STATE).
  rewrite bool_decide_false, bool_decide_true by done. split_and!; try done.
  exists (Some s). rewrite lookup_insert_eq. cbn. by rewrite (sm_roundtrip _ _ Hb).
Qed.

(** An acknowledged batch is applied as a whole: one response per entry,
    the last entry is the applied one, and a restart recovers exactly that
    state machine. *)
Theorem applied_batch_recovers (now : Z) (es : list (Entry ClusterRequest))
    (n n' : RaftNode DB SDB Meta) (rs : list ClusterResponse) :
  recovered (Req := ClusterRequest) (raft n) ->
  apply_to_state_machine now es n = (n', Ok rs) ->
  recovered (Req := ClusterRequest) (raft n') /\ length rs = length es /\
  last_applied_log (sm (raft n'))
  = match last es with Some e => Some (log_id e) | None => last_applied_log (sm (raft n)) end.
Proof.
  intros Hrec. unfold apply_to_state_machine.
  destruct (apply_entries_sm now n es) as (H1 & _ & H3 & H4).
  destruct (apply_entries now n es) as [n1 rs1]. cbn [fst snd] in *.
  destruct (enc_sm (sm (raft n1))) as [b|] eqn:Eb; [|done].
  destruct (cf_write (raft_db (raft n1)) _) as [d|] eqn:Ew; [|done]. intros [= <- <-].
  split_and!; [|done|done]. unfold recovered. cbn [raft set_raft raft_db with_db].
  rewrite (sm_row_recovered (raft n1) (sm (raft n1)) d b); [done| |done|done].
  right. exists (sm (raft n)). rewrite H1. cbn [raft_db vote last_purged_log_id].
  rewrite Hrec. by destruct (raft n).
Qed.

Lemma build_snapshot_Ok (r r' : RaftStore DB) snap :
  build_snapshot show_log_id r = (r', Ok snap) ->
  enc_sm (sm r) = Ok (snap_data snap) /\ snap_meta snap = snapshot_meta show_log_id (sm r).
Proof.
  unfold build_snapshot, serialize_snapshot. destruct (enc_sm (sm r)) as [b|] eqn:Eb; cbn; [|done].
  destruct (enc_snapshot _) as [sb|]; cbn; [|done].
  destruct (cf_write _ _) as [d|]; cbn; [|done]. by intros [= _ <-].
Qed.

(** The rows after an installed snapshot. *)
Lemma install_rows (snap : StoredSnapshot) (n n' : RaftNode DB SDB Meta) s id :
  install_snapshot snap n = (n', Ok tt) -> dec_sm (snap_data snap) = Ok s ->
  snap_last_log_id (snap_meta snap) = Some id -> lid_index id < u64_max ->
  exists sb pb d,
    enc_sm s = Ok sb /\ enc_log_id id = Ok pb /\
    raft n' = mkRaft d (vote (raft n)) (Some id) s /\ shard_map n' = shard_map n /\
    cf_rows d CF_STATE !! KEY_SM_DATA = Some sb /\
    cf_rows d CF_META = <[KEY_LAST_PURGED := pb]> (cf_rows (raft_db (raft n)) CF_META) /\
    cf_rows d CF_LOGS = filter (fun kv =>
      in_range (u64_to_be 0) (u64_to_be (lid_index id + 1)) kv.1 = false)
      (cf_rows (raft_db (raft n)) CF_LOGS).
Proof.
  unfold install_snapshot. intros Hi Hs Hid Hlt. rewrite Hs in Hi. cbn in Hi.
  destruct (enc_sm s) as [sb|] eqn:Esb; cbn in Hi; [|done].
  destruct (enc_snapshot snap) as [snb|]; cbn in Hi; [|done]. rewrite Hid in Hi. cbn in Hi.
  destruct (enc_log_id id) as [pb|] eqn:Epb; cbn in Hi; [|done].
  destruct (write_flush (raft_db (raft n)) _) as [d [[]|]] eqn:Ew; [|done]. injection Hi as <-.
  pose proof (write_flush_ok _ _ _ Ew) as Hr. unfold snapshot_batch in Hr.
  assert (Hw : wrapping_add (lid_index id) 1 = lid_index id + 1).
  { apply wrapping_add_small. lia. }
  rewrite Hw in Hr. cbn [fold_left apply_cf_op app] in Hr.
  exists sb, pb, d. split_and!; try done.
  rewrite (Hr CF_STATE).
  change (<[KEY_SNAPSHOT := snb]> (<[KEY_SM_DATA := sb]> (cf_rows (raft_db (raft n)) CF_STATE))
          !! KEY_SM_DATA = Some sb).
  by rewrite lookup_insert_ne, lookup_insert_eq by done.
Qed.

(** A snapshot built on one node and installed on another hands over the
    state machine: the receiver's is the builder's, its purge point is the
    builder's last applied entry, exactly the entries up to it leave the log,
    and a restart recovers all of it. *)
Theorem snapshot_transfers_state_machine (r r' : RaftStore DB) (snap : StoredSnapshot)
    (n n' : RaftNode DB SDB Meta) (id : LogId) :
  recovered (Req := ClusterRequest) (raft n) ->
  build_snapshot show_log_id r = (r', Ok snap) ->
  last_applied_log (sm r) = Some id -> lid_index id < u64_max ->
  install_snapshot snap n = (n', Ok tt) ->
  sm (raft n') = sm r /\ last_purged_log_id (raft n') = Some id /\
  recovered (Req := ClusterRequest) (raft n') /\
  (forall i, i <= u64_max ->
     log_at (Req := ClusterRequest) (raft_db (raft n')) i
     = if i <=? lid_index id then None else log_at (raft_db (raft n)) i).
Proof.
  intros Hrec Hb Hid Hlt Hi. destruct (build_snapshot_Ok r r' snap Hb) as [Henc Hmeta].
  apply sm_roundtrip in Henc.
  destruct (install_rows snap n n' (sm r) id Hi Henc) as (sb & pb & d & Esb & Epb & Hn' & _ & Hs & Hm & Hl);
    [by rewrite Hmeta|done|]. rewrite Hn'. cbn [sm last_purged_log_id raft_db]. split_and!; [done|done|..].
  - unfold recovered in *. cbn [raft_db]. rewrite raft_open_rows in Hrec |- *.
    destruct Hrec as (Hv & _ & _ & _). cbn [vote last_purged_log_id sm raft_db].
    rewrite Hm, Hs, lookup_insert_eq, lookup_insert_ne by done. split_and!; [done| | |done].
    + cbn. by rewrite (log_id_roundtrip _ _ Epb).
    + exists (Some (sm r)). cbn. by rewrite (sm_roundtrip _ _ Esb).
  - intros i Hi'. unfold log_at. rewrite Hl, log_row_filter by (done || lia).
    rewrite (proj2 (N.leb_le 0 i)) by lia. cbn [andb].
    replace (i <? lid_index id + 1) with (i <=? lid_index id); [done|].
    apply Bool.eq_iff_eq_true. rewrite N.leb_le, N.ltb_lt. lia.
Qed.

(** The shard map is not in the snapshot: a node that installs one skips
    every entry up to the builder's last applied one, among them all their
    shard map operations, and keeps the map it had. *)
Theorem snapshot_omits_shard_map (r r' : RaftStore DB) (snap : StoredSnapshot)
    (n n' : RaftNode DB SDB Meta) (id : LogId) :
  build_snapshot show_log_id r = (r', Ok snap) ->
  last_applied_log (sm r) = Some id -> lid_index id < u64_max ->
  install_snapshot snap n = (n', Ok tt) ->
  last_applied_log (sm (raft n')) = Some id /\ node_map n' = node_map n.
Proof.
  intros Hb Hid Hlt Hi. destruct (build_snapshot_Ok r r' snap Hb) as [Henc Hmeta].
  apply sm_roundtrip in Henc.
  destruct (install_rows snap n n' (sm r) id Hi Henc) as (sb & pb & d & _ & _ & -> & Hmap & _);
    [by rewrite Hmeta|done|]. split; [done|]. unfold node_map. by rewrite Hmap.
Qed.
End Durability.

(** ** Witnesses *)

(** Schema payloads without content, and a schema that counts mutations. *)
#[local] Instance unit_schema : SchemaTypes :=
  {| RetentionPolicy := unit; ContinuousQueryDef := unit; MaterializedViewDef := unit;
     MeasurementMeta := unit; RetentionPolicyChange := unit; DatabasePrivilege := unit;
     SettingValue := unit |}.

#[local] Instance counting_schema : SchemaApplier nat := fun _ n => (S n, Ok tt).

(** A codec for everything but log entries, which applying never encodes. *)
#[local] Instance sm_codec : RaftCodec ClusterRequest := {
  enc_vote x := Ok (pos_bits (encode x));
  dec_vote s := decode_or s;
  enc_log_id x := Ok (pos_bits (encode x));
  dec_log_id s := decode_or s;
  enc_entry _ := Err "entries are not encoded here"%string;
  dec_entry _ := Err "entries are not encoded here"%string;
  enc_sm x := Ok (pos_bits (encode x));
  dec_sm s := decode_or s;
  enc_snapshot x := Ok (pos_bits (encode x));
  dec_snapshot s := decode_or s
}.

#[local] Instance sm_codec_laws : RaftCodecLaws ClusterRequest.
Proof. split; intros x b E; try done; injection E as <-; apply decode_or_bits. Qed.

Definition fresh_node : RaftNode (MemDb Cf) (gmap string string) nat :=
  mkRaftNode fresh_raft membership_new (Some 0%nat) (Some empty_store) (Some cache_new).

(** A second replica with another database, membership view and cache. *)
Definition other_node : RaftNode (MemDb Cf) (gmap string string) nat :=
  mkRaftNode voted_raft sample_cluster (Some 7%nat) (Some empty_store) None.

Definition boot_entry : Entry ClusterRequest :=
  mkEntry (mkLogId 1 1 1) (Normal (ShardMapMutation (BootstrapMeasurement k_cpu (sample_region 1 0 u64_max 1)))).

Lemma mem_writes_ok : writes_ok (SDB := gmap string string).
Proof.
  intros d m k. unfold persist_space. cbn. destruct (space m k); cbn; eauto.
Qed.

Lemma fresh_node_recovered : recovered (Req := ClusterRequest) (raft fresh_node).
Proof. reflexivity. Qed.

Lemma replicas_agree_on_map_witness :
  node_map (apply_to_state_machine 5 [boot_entry] fresh_node).1
  = node_map (apply_to_state_machine 9 [boot_entry] other_node).1.
Proof.
  apply (replicas_agree_on_map 5 9 [boot_entry] fresh_node other_node);
    [exact mem_writes_ok|done|done|reflexivity].
Defined.

Definition booted_node : RaftNode (MemDb Cf) (gmap string string) nat :=
  (apply_to_state_machine 5 [boot_entry] fresh_node).1.

Definition boot_responses : list ClusterResponse := (apply_entries 5 fresh_node [boot_entry]).2.

Lemma booted_ok : apply_to_state_machine 5 [boot_entry] fresh_node = (booted_node, Ok boot_responses).
Proof. unfold booted_node. rewrite (surjective_pairing (apply_to_state_machine _ _ _)). reflexivity. Qed.

Lemma applied_batch_recovers_witness :
  recovered (Req := ClusterRequest) (raft booted_node) /\ length boot_responses = 1%nat.
Proof.
  destruct (applied_batch_recovers 5 [boot_entry] fresh_node booted_node boot_responses
              fresh_node_recovered booted_ok) as (H1 & H2 & _).
  split; [exact H1|exact H2].
Defined.

Definition no_show (id : LogId) : string := "1-1".

Definition built : RaftStore (MemDb Cf) * result string StoredSnapshot :=
  build_snapshot no_show (raft booted_node).

Definition built_snapshot : StoredSnapshot :=
  mkStoredSnapshot (snapshot_meta no_show (sm (raft booted_node)))
    (pos_bits (encode (sm (raft booted_node)))).

Lemma built_ok : build_snapshot no_show (raft booted_node) = (built.1, Ok built_snapshot).
Proof. unfold built. rewrite (surjective_pairing (build_snapshot _ _)). reflexivity. Qed.

Definition installed_node : RaftNode (MemDb Cf) (gmap string string) nat :=
  (install_snapshot built_snapshot fresh_node).1.

Lemma installed_ok : install_snapshot built_snapshot fresh_node = (installed_node, Ok tt).
Proof.
  unfold installed_node. rewrite (surjective_pairing (install_snapshot _ _)) at 1. f_equal.
Qed.

Lemma booted_applied : last_applied_log (sm (raft booted_node)) = Some (mkLogId 1 1 1).
Proof. vm_compute. reflexivity. Qed.

Lemma snapshot_transfers_state_machine_witness :
  sm (raft installed_node) = sm (raft booted_node) /\
  last_purged_log_id (raft installed_node) = Some (mkLogId 1 1 1).
Proof.
  destruct (snapshot_transfers_state_machine no_show (raft booted_node) built.1 built_snapshot
              fresh_node installed_node (mkLogId 1 1 1) fresh_node_recovered built_ok
              booted_applied ltac:(done) installed_ok) as (H1 & H2 & _).
  split; [exact H1|exact H2].
Defined.

Lemma snapshot_omits_shard_map_witness :
  last_applied_log (sm (raft installed_node)) = Some (mkLogId 1 1 1) /\
  node_map installed_node = node_map fresh_node.
Proof.
  apply (snapshot_omits_shard_map no_show (raft booted_node) built.1 built_snapshot
           fresh_node installed_node (mkLogId 1 1 1) built_ok booted_applied);
    [done|exact installed_ok].
Defined.

(** A database that has gone read-only. *)
Record ReadOnlyDb := mkReadOnly { ro_rows : gmap string string }.

#[local] Instance read_only_db : RocksDb ReadOnlyDb := {
  rdb_get d k := Ok (ro_rows d !! k);
  rdb_scan d p := Ok <$> sort_by row_leb
    (List.filter (fun kv => str_leb p kv.1) (map_to_list (ro_rows d)));
  rdb_write d b := Err "read-only file system"%string
}.

Definition stuck_node : RaftNode (MemDb Cf) ReadOnlyDb nat :=
  mkRaftNode fresh_raft membership_new (Some 0%nat)
    (Some (mkStore (mkReadOnly empty_rows) map_default true)) None.

Definition stuck_after : RaftNode (MemDb Cf) ReadOnlyDb nat :=
  (apply_to_state_machine 5 [boot_entry] stuck_node).1.

Definition stuck_responses : list ClusterResponse := (apply_entries 5 stuck_node [boot_entry]).2.

Lemma stuck_ok : apply_to_state_machine 5 [boot_entry] stuck_node = (stuck_after, Ok stuck_responses).
Proof. unfold stuck_after. rewrite (surjective_pairing (apply_to_state_machine _ _ _)). reflexivity. Qed.

Lemma unwritable_map_skips_entry_witness :
  node_map stuck_after = node_map stuck_node /\
  last_applied_log (sm (raft stuck_after)) = Some (mkLogId 1 1 1).
Proof.
  destruct (unwritable_map_skips_entry 5 (mkLogId 1 1 1)
    (BootstrapMeasurement k_cpu (sample_region 1 0 u64_max 1)) k_cpu stuck_node stuck_after
    stuck_responses) as (H1 & H2 & _).
  - intros d b. by eexists.
  - reflexivity.
  - exact stuck_ok.
  - split; [exact H1|exact H2].
Defined.
