(* ===== verification/Wire.v ===== *)
(** * Binary records

    What the hand-written binary formats are made of: little-endian words,
    length-prefixed strings, and a cursor over the bytes left to read. The
    prepared WAL slot ([wal_ipc.rs]) and the hinted-handoff record
    ([replication_wire.rs]) are built on it. *)

From Stdlib Require Import Ascii String.
From stdpp Require Import prelude list strings.
From S2P Require Import Prelude Bytes.
From stdpp Require Import options.

#[local] Open Scope N_scope.

(** ** Little-endian words *)

(** [to_le_bytes] of a [k]-byte unsigned integer; a wider value is cut to its
    low [k] bytes, which is what [as u32] before it does. *)
Fixpoint le_bytes (k : nat) (n : N) : bytes :=
  match k with
  | O => []
  | S k' => n mod 256 :: le_bytes k' (n / 256)
  end.

(** [from_le_bytes]. *)
Fixpoint le_num (bs : bytes) : N :=
  match bs with
  | [] => 0
  | b :: bs' => b + 256 * le_num bs'
  end.

(** The bit pattern of an [i64] and back. *)
Definition i64_bits (z : Z) : N := Z.to_N (z mod 2 ^ 64).

Definition bits_i64 (n : N) : Z :=
  if n <? 9223372036854775808 then Z.of_N n else (Z.of_N n - 2 ^ 64)%Z.

Definition i64_ok (z : Z) : Prop := (- 2 ^ 63 <= z < 2 ^ 63)%Z.

(** ** UTF-8 *)

Definition utf8_cont (b : N) : bool := (128 <=? b) && (b <=? 191).

(** The second byte of a three- and of a four-byte sequence: no overlong
    form, no surrogate, nothing past U+10FFFF. *)
Definition utf8_second3 (b0 b1 : N) : bool :=
  if b0 =? 224 then (160 <=? b1) && (b1 <=? 191)
  else if b0 =? 237 then (128 <=? b1) && (b1 <=? 159)
  else utf8_cont b1.

Definition utf8_second4 (b0 b1 : N) : bool :=
  if b0 =? 240 then (144 <=? b1) && (b1 <=? 191)
  else if b0 =? 244 then (128 <=? b1) && (b1 <=? 143)
  else utf8_cont b1.

(** [std::str::from_utf8] succeeds. *)
Fixpoint utf8_valid (bs : bytes) : bool :=
  match bs with
  | [] => true
  | b0 :: r0 =>
    if b0 <? 128 then utf8_valid r0
    else match r0 with
    | [] => false
    | b1 :: r1 =>
      if (194 <=? b0) && (b0 <=? 223) then utf8_cont b1 && utf8_valid r1
      else match r1 with
      | [] => false
      | b2 :: r2 =>
        if (224 <=? b0) && (b0 <=? 239) then utf8_second3 b0 b1 && utf8_cont b2 && utf8_valid r2
        else match r2 with
        | [] => false
        | b3 :: r3 =>
          (240 <=? b0) && (b0 <=? 244) && utf8_second4 b0 b1 && utf8_cont b2 && utf8_cont b3
          && utf8_valid r3
        end
      end
    end
  end.

(** A Rust [String] holds valid UTF-8. *)
Definition utf8 (s : string) : Prop := utf8_valid (str_bytes s) = true.

(** ** A cursor *)

(** A reader takes bytes off the front or fails. *)
Definition Parser (E A : Type) : Type := bytes -> result E (A * bytes).

#[export] Instance parser_ret E : MRet (Parser E) := fun A a c => Ok (a, c).
#[export] Instance parser_bind E : MBind (Parser E) :=
  fun A B f p c => match p c with Ok (a, c') => f a c' | Err e => Err e end.

Definition parse_fail {E A} (e : E) : Parser E A := fun _ => Err e.

(** A result that reads nothing. *)
Definition parse_lift {E A} (r : result E A) : Parser E A :=
  fun c => match r with Ok a => Ok (a, c) | Err e => Err e end.

Definition parse_remaining {E} : Parser E nat := fun c => Ok (length c, c).

(** [read_exact] into a buffer of [k] bytes. *)
Definition read_exact {E} (eof : E) (k : nat) : Parser E bytes :=
  fun c => if (length c <? k)%nat then Err eof else Ok (take k c, drop k c).

(** [from_le_bytes] of the next [k] bytes. *)
Definition read_le {E} (eof : E) (k : nat) : Parser E N :=
  b ← read_exact eof k; mret (le_num b).

(** [p] run [k] times, the results in order. *)
Fixpoint parse_times {E A} (k : nat) (p : Parser E A) : Parser E (list A) :=
  match k with
  | O => mret []
  | S k' => x ← p; xs ← parse_times k' p; mret (x :: xs)
  end.

(** ** Lemmas *)

Lemma le_bytes_length k n : length (le_bytes k n) = k.
Proof. revert n. induction k as [|k IH]; intros n; cbn; [done|]. by rewrite IH. Qed.

Lemma le_bytes_ok k n : Forall byte_ok (le_bytes k n).
Proof.
  revert n. induction k as [|k IH]; intros n; cbn; constructor; [|done]. apply N.mod_lt. lia.
Qed.

Lemma le_num_bytes k n : le_num (le_bytes k n) = n mod 256 ^ N.of_nat k.
Proof.
  revert n. induction k as [|k IH]; intros n; cbn [le_bytes le_num]; [by rewrite N.mod_1_r|].
  rewrite IH, Nat2N.inj_succ, N.pow_succ_r'. by rewrite N.Div0.mod_mul_r.
Qed.

Lemma le_roundtrip k n : n < 256 ^ N.of_nat k -> le_num (le_bytes k n) = n.
Proof. intros Hn. rewrite le_num_bytes. by apply N.mod_small. Qed.

Lemma i64_roundtrip z : i64_ok z -> bits_i64 (i64_bits z) = z.
Proof.
  unfold i64_ok, bits_i64, i64_bits. intros Hz.
  pose proof (Z.mod_pos_bound z (2 ^ 64) ltac:(lia)) as Hb.
  destruct (decide (0 <= z)%Z).
  - rewrite Z.mod_small by lia. destruct (N.ltb_spec (Z.to_N z) 9223372036854775808); lia.
  - assert (z mod 2 ^ 64 = z + 2 ^ 64)%Z as E.
    { symmetry. apply (Z.mod_unique_pos _ _ (-1)); lia. }
    rewrite E. destruct (N.ltb_spec (Z.to_N (z + 2 ^ 64)) 9223372036854775808); lia.
Qed.

Lemma i64_bits_lt z : i64_bits z < 256 ^ 8.
Proof.
  unfold i64_bits. pose proof (Z.mod_pos_bound z (2 ^ 64) ltac:(lia)). lia.
Qed.

(** Reading back what was written. *)
Lemma read_exact_app {E} (eof : E) k b c : length b = k -> read_exact eof k (b ++ c) = Ok (b, c).
Proof.
  intros <-. unfold read_exact. rewrite length_app.
  destruct (Nat.ltb_spec (length b + length c) (length b)); [lia|].
  by rewrite take_app_length, drop_app_length.
Qed.

Lemma read_le_app {E} (eof : E) k n c :
  n < 256 ^ N.of_nat k -> read_le eof k (le_bytes k n ++ c) = Ok (n, c).
Proof.
  intros Hn. unfold read_le, mbind, parser_bind. rewrite read_exact_app by apply le_bytes_length.
  cbn. by rewrite le_roundtrip.
Qed.

(** [p] reads what [w] writes, whatever follows. *)
Definition reads {E A} (p : Parser E A) (b : bytes) (a : A) : Prop :=
  forall c, p (b ++ c) = Ok (a, c).

Lemma reads_bind {E A B} (p : Parser E A) (f : A -> Parser E B) b b' a x :
  reads p b a -> reads (f a) b' x -> reads (p ≫= f) (b ++ b') x.
Proof.
  intros Hp Hf c. unfold mbind, parser_bind. rewrite <- app_assoc, Hp. apply Hf.
Qed.

Lemma reads_ret {E A} (a : A) : reads (E := E) (mret a) [] a.
Proof. by intros c. Qed.

(** The same with nothing left to read after [p], and with nothing read by
    [p]. *)
Lemma reads_bind_last {E A B} (p : Parser E A) (f : A -> Parser E B) b a x :
  reads p b a -> reads (f a) [] x -> reads (p ≫= f) b x.
Proof. intros Hp Hf. rewrite <- (app_nil_r b). by eapply reads_bind. Qed.

Lemma reads_bind_none {E A B} (p : Parser E A) (f : A -> Parser E B) b a x :
  reads p [] a -> reads (f a) b x -> reads (p ≫= f) b x.
Proof. intros Hp Hf. change b with ([] ++ b). by eapply reads_bind. Qed.

Lemma reads_lift {E A} (r : result E A) a : r = Ok a -> reads (parse_lift r) [] a.
Proof. intros -> c. done. Qed.

Lemma reads_exact {E} (eof : E) k b : length b = k -> reads (read_exact eof k) b b.
Proof. intros Hk c. by apply read_exact_app. Qed.

Lemma reads_le {E} (eof : E) k n :
  n < 256 ^ N.of_nat k -> reads (read_le eof k) (le_bytes k n) n.
Proof. intros Hn c. by apply read_le_app. Qed.

Lemma reads_times {E A} (p : Parser E A) (w : A -> bytes) xs :
  (forall x, x ∈ xs -> reads p (w x) x) ->
  reads (parse_times (length xs) p) (mjoin (w <$> xs)) xs.
Proof.
  induction xs as [|x xs IH]; intros H; [apply reads_ret|]. cbn [length parse_times fmap list_fmap mjoin list_join].
  apply (reads_bind _ _ _ _ x); [apply H; by left|].
  eapply reads_bind_last; [apply IH; intros; apply H; by right|].
  apply reads_ret.
Qed.

Lemma utf8_bytes s : Forall byte_ok (str_bytes s).
Proof.
  unfold str_bytes. apply Forall_fmap, Forall_true. intros c. apply N_ascii_bounded.
Qed.

Lemma utf8_ascii b : Forall (fun x => x < 128) b -> utf8_valid b = true.
Proof. induction 1 as [|x b Hx _ IH]; [done|]. cbn. by rewrite (proj2 (N.ltb_lt _ _) Hx). Qed.

#[global] Arguments le_bytes : simpl never.
