(* ===== verification/Points.v ===== *)
(** * Points and partial rows

    [domain/point.rs] and [domain/point_coalesce.rs]: points, and the merge of
    points that share a series-instant (timestamp and tags) into one row. The
    code groups the points through hash buckets; the theorems show that the
    result is the grouping by series-instant whatever the hash function is,
    and that a merged row has every field of its group, the last write
    winning. *)

From stdpp Require Import prelude list sorting gmap fin_maps strings.
From S2P Require Import Prelude Bytes.
From stdpp Require Import options.

#[local] Open Scope N_scope.

(** An [f64] is carried as its bit pattern. *)
Inductive FieldValue :=
| FFloat (bits : N)
| FInteger (i : Z)
| FUInteger (u : N)
| FString (s : string)
| FBoolean (b : bool).

#[export] Instance field_value_eq_dec : EqDecision FieldValue.
Proof. solve_decision. Defined.

(** [series_id_cache] is a memo of a function of the other fields and is not
    serialized; it has no counterpart. *)
Record Point := mkPoint {
  pt_measurement : string;
  pt_tags : gmap string string;
  pt_fields : gmap string FieldValue;
  pt_timestamp : Z
}.

#[export] Instance point_eq_dec : EqDecision Point.
Proof. solve_decision. Defined.

Definition type_discriminant (v : FieldValue) : N :=
  match v with
  | FFloat _ => 0 | FInteger _ => 1 | FUInteger _ => 2 | FString _ => 3 | FBoolean _ => 4
  end.

Definition type_name (v : FieldValue) : string :=
  match v with
  | FFloat _ => "float" | FInteger _ => "integer" | FUInteger _ => "unsigned"
  | FString _ => "string" | FBoolean _ => "boolean"
  end.

Definition type_name_from_discriminant (d : N) : string :=
  match d with
  | 0 => "float" | 1 => "integer" | 2 => "unsigned" | 3 => "string" | 4 => "boolean"
  | _ => "unknown"
  end.

(** What [Hash] feeds to a hasher here. *)
Inductive HashInput :=
| HashI64 (z : Z)
| HashStr (s : string)
| HashU8 (b : N).

(** [DefaultHasher]: a deterministic function of what it is fed, its algorithm
    unspecified. *)
Class DefaultHasher := hasher_finish : list HashInput -> N.

Section Coalesce.
Context `{DH : !DefaultHasher}.

Definition series_instant_hash (p : Point) : N :=
  hasher_finish (HashI64 (pt_timestamp p)
    :: flat_map (fun kv => [HashStr kv.1; HashStr kv.2]) (btree_iter string_leb (pt_tags p))).

Definition same_series_instant (a b : Point) : bool :=
  Z.eqb (pt_timestamp a) (pt_timestamp b) && bool_decide (pt_tags a = pt_tags b).

(** The test on the first point of an existing group. *)
Definition group_matches (points : list Point) (groups : list (list nat)) (p : Point) (g : nat)
    : bool :=
  match (l ← groups !! g; i ← head l; points !! i) with
  | Some q => same_series_instant q p
  | None => false
  end.

(** One turn of the loop over the indices; [None] is the panic of an index
    out of range. *)
Definition coalesce_step (points : list Point)
    (st : list (list nat) * gmap N (list nat)) (i : nat)
    : option (list (list nat) * gmap N (list nat)) :=
  let '(groups, buckets) := st in
  p ← points !! i;
  let h := series_instant_hash p in
  let bucket := default [] (buckets !! h) in
  match List.find (group_matches points groups p) bucket with
  | Some g => Some (alter (fun l => l ++ [i]) g groups, <[h := bucket]> buckets)
  | None =>
    Some (groups ++ [[i]], <[h := bucket ++ [length groups]]> buckets)
  end.

Fixpoint coalesce_loop (points : list Point) (st : list (list nat) * gmap N (list nat))
    (idxs : list nat) : option (list (list nat) * gmap N (list nat)) :=
  match idxs with
  | [] => Some st
  | i :: idxs' => st' ← coalesce_step points st i; coalesce_loop points st' idxs'
  end.

(** The outer [option] is the panic, the inner one the source's. *)
Definition coalesce_plan_indexed (points : list Point) (idxs : list nat)
    : option (option (list (list nat))) :=
  '(groups, _) ← coalesce_loop points ([], ∅) idxs;
  Some (if (length groups =? length idxs)%nat then None else Some groups).

(** [0..points.len() as u32]. *)
Definition u32_range (n : nat) : list nat := seq 0 (N.to_nat (N.of_nat n mod 4294967296)).

Definition coalesce_plan (points : list Point) : option (option (list (list nat))) :=
  coalesce_plan_indexed points (u32_range (length points)).

Definition merge_fields (base : Point) (p : Point) : Point :=
  mkPoint (pt_measurement base) (pt_tags base)
    (fold_left (fun acc kv => <[kv.1 := kv.2]> acc) (btree_iter string_leb (pt_fields p))
       (pt_fields base))
    (pt_timestamp base).

Definition merge_point_group (points : list Point) (group : list nat) : option Point :=
  match group with
  | [] => None
  | g0 :: rest =>
    base ← points !! g0;
    ps ← mapM (points !!.) rest;
    Some (fold_left merge_fields ps base)
  end.

Definition coalesce_points_and_origins (points : list Point) (origins : list N)
    : option (option (list Point * list N)) :=
  plan ← coalesce_plan points;
  match plan with
  | None => Some None
  | Some groups =>
    merged_points ← mapM (merge_point_group points) groups;
    merged_origins ← mapM (fun g => last g ≫= (origins !!.)) groups;
    Some (Some (merged_points, merged_origins))
  end.

(** [by_meas.entry(m).or_default().push(i)] for every point in order. *)
Fixpoint index_by_measurement (i : nat) (points : list Point) (by_meas : gmap string (list nat))
    : gmap string (list nat) :=
  match points with
  | [] => by_meas
  | p :: points' =>
    let m := pt_measurement p in
    index_by_measurement (S i) points' (<[m := default [] (by_meas !! m) ++ [i]]> by_meas)
  end.

Definition coalesce_measurement (points : list Point) (idxs : list nat) : option (list Point) :=
  plan ← coalesce_plan_indexed points idxs;
  match plan with
  | None => mapM (points !!.) idxs
  | Some groups => mapM (merge_point_group points) groups
  end.

(** [Cow] says only whether a point was copied; both cases are the point. *)
Definition group_and_coalesce_by_measurement (points : list Point)
    : option (list (string * list Point)) :=
  mapM (fun mi => ps ← coalesce_measurement points mi.2; Some (mi.1, ps))
    (btree_iter string_leb (index_by_measurement 0 points ∅)).

End Coalesce.

#[local] Arguments coalesce_measurement : simpl never.

(** ** The reference grouping *)

(** The series-instant of a point. *)
Definition instant (p : Point) : Z * gmap string string := (pt_timestamp p, pt_tags p).

Definition instant_at (points : list Point) (i : nat) : option (Z * gmap string string) :=
  instant <$> points !! i.

(** The indices of one series-instant, in order. *)
Definition members (points : list Point) (idxs : list nat) (k : option (Z * gmap string string))
    : list nat :=
  filter (fun i => instant_at points i = k) idxs.

Definition groups_of (points : list Point) (idxs : list nat) : list (list nat) :=
  members points idxs <$> nub (instant_at points <$> idxs).

(** The fields a sequence of points leaves in one series-instant when each is
    written over the ones before. *)
Definition row_fields (points : list Point) (k : Z * gmap string string) : gmap string FieldValue :=
  fold_left (fun acc p => if bool_decide (instant p = k) then pt_fields p ∪ acc else acc) points ∅.

(** ** Lemmas *)

Lemma same_series_instant_spec a b : same_series_instant a b = true <-> instant a = instant b.
Proof.
  unfold same_series_instant, instant. rewrite andb_true_iff, Z.eqb_eq, bool_decide_eq_true.
  split; [by intros [-> ->]|by intros [= -> ->]].
Qed.

Lemma members_snoc points idxs i k :
  members points (idxs ++ [i]) k
  = members points idxs k ++ (if bool_decide (instant_at points i = k) then [i] else []).
Proof.
  unfold members. rewrite filter_app. f_equal. cbn. by case_bool_decide; case_decide.
Qed.

Lemma elem_of_members points idxs i k :
  i ∈ members points idxs k <-> instant_at points i = k /\ i ∈ idxs.
Proof. unfold members. by rewrite list_elem_of_filter. Qed.

(** Every group is non-empty and its head has the group's series-instant. *)
Lemma members_head points idxs k :
  k ∈ instant_at points <$> idxs ->
  exists i l, members points idxs k = i :: l /\ instant_at points i = k.
Proof.
  intros (j & -> & Hj)%list_elem_of_fmap.
  destruct (members points idxs (instant_at points j)) as [|i l] eqn:E.
  - assert (j ∈ members points idxs (instant_at points j)) as H by (by apply elem_of_members).
    rewrite E in H. by apply elem_of_nil in H.
  - exists i, l. split; [done|].
    assert (i ∈ members points idxs (instant_at points j)) as H by (rewrite E; by left).
    by apply elem_of_members in H as [? _].
Qed.

Lemma mapM_fmap_compat {A B C} (g : A -> B) (f : B -> option C) l :
  mapM f (g <$> l) = mapM (fun x => f (g x)) l.
Proof. induction l as [|x l IH]; [done|]. cbn. by rewrite IH. Qed.

Section CoalesceLemmas.
Context `{DH : !DefaultHasher}.
#[local] Set Default Proof Using "Type".

(** The hash is a function of the series-instant. *)
Definition instant_hash (k : Z * gmap string string) : N :=
  series_instant_hash (mkPoint EmptyString k.2 ∅ k.1).

Lemma series_instant_hash_key p : series_instant_hash p = instant_hash (instant p).
Proof. done. Qed.

(** The state of the loop after the indices [idxs]. *)
Definition coalesce_inv (points : list Point) (idxs : list nat)
    (st : list (list nat) * gmap N (list nat)) : Prop :=
  st.1 = groups_of points idxs /\
  forall g k, nub (instant_at points <$> idxs) !! g = Some (Some k) ->
    g ∈ default [] (st.2 !! instant_hash k).

Lemma group_matches_spec points idxs p g :
  group_matches points (groups_of points idxs) p g = true <->
  nub (instant_at points <$> idxs) !! g = Some (Some (instant p)).
Proof.
  unfold group_matches, groups_of. rewrite list_lookup_fmap.
  destruct (nub _ !! g) as [k|] eqn:Hg; cbn; [|done].
  destruct (members_head points idxs k) as (i & l & -> & Hi).
  { apply elem_of_nub. by apply list_elem_of_lookup_2 in Hg. }
  cbn. unfold instant_at in Hi. destruct (points !! i) as [q|]; cbn in Hi; subst k.
  - rewrite same_series_instant_spec. split; congruence.
  - split; congruence.
Qed.

Lemma find_group points idxs st p :
  coalesce_inv points idxs st ->
  match List.find (group_matches points st.1 p) (default [] (st.2 !! series_instant_hash p)) with
  | Some g => nub (instant_at points <$> idxs) !! g = Some (Some (instant p))
  | None => Some (instant p) ∉ nub (instant_at points <$> idxs)
  end.
Proof.
  intros [-> Hb]. destruct (List.find _ _) as [g|] eqn:E.
  - apply List.find_some in E as [_ E]. by apply group_matches_spec.
  - intros (g & Hg)%list_elem_of_lookup_1. pose proof (Hb _ _ Hg) as Hin.
    rewrite <- series_instant_hash_key in Hin. apply list_elem_of_In in Hin.
    pose proof (List.find_none _ _ E _ Hin) as Hn.
    apply group_matches_spec in Hg. congruence.
Qed.

Lemma groups_of_old points idxs i g k :
  instant_at points i = k -> nub (instant_at points <$> idxs) !! g = Some k ->
  groups_of points (idxs ++ [i]) = alter (fun l => l ++ [i]) g (groups_of points idxs).
Proof.
  intros Hi Hg. unfold groups_of. rewrite fmap_app. cbn. rewrite nub_snoc, Hi.
  rewrite bool_decide_true by (by apply list_elem_of_lookup_2 in Hg).
  apply list_eq. intros g'. rewrite list_lookup_fmap. destruct (decide (g' = g)) as [->|Hne].
  - rewrite list_lookup_alter_eq, list_lookup_fmap, Hg. cbn.
    by rewrite members_snoc, bool_decide_true.
  - rewrite list_lookup_alter_ne, list_lookup_fmap by done.
    destruct (nub _ !! g') as [k'|] eqn:Hg'; cbn; [|done]. f_equal.
    rewrite members_snoc, bool_decide_false; [by rewrite app_nil_r|].
    intros <-. apply Hne. rewrite Hi in Hg'. by apply (NoDup_lookup _ g' g k (nub_NoDup (instant_at points <$> idxs))).
Qed.

Lemma groups_of_new points idxs i :
  instant_at points i ∉ nub (instant_at points <$> idxs) ->
  groups_of points (idxs ++ [i]) = groups_of points idxs ++ [[i]].
Proof.
  intros Hi. unfold groups_of. rewrite fmap_app. cbn. rewrite nub_snoc.
  rewrite bool_decide_false by done. rewrite fmap_app. cbn. f_equal.
  - apply list_fmap_ext. intros g k Hg. rewrite members_snoc, bool_decide_false.
    + by rewrite app_nil_r.
    + intros <-. apply Hi. by apply list_elem_of_lookup_2 in Hg.
  - f_equal. rewrite members_snoc, bool_decide_true by done.
    destruct (members points idxs _) as [|j l] eqn:E; [done|].
    assert (j ∈ members points idxs (instant_at points i)) as [Hj Hjin]%elem_of_members
      by (rewrite E; by left).
    exfalso. apply Hi, elem_of_nub. rewrite <- Hj. by apply list_elem_of_fmap_2.
Qed.

Lemma coalesce_step_inv points idxs st i :
  coalesce_inv points idxs st -> is_Some (points !! i) ->
  exists st', coalesce_step points st i = Some st' /\ coalesce_inv points (idxs ++ [i]) st'.
Proof.
  intros Hinv [p Hp]. pose proof (find_group _ _ _ p Hinv) as Hf.
  assert (instant_at points i = Some (instant p)) as Hi by (unfold instant_at; by rewrite Hp).
  destruct st as [groups buckets], Hinv as [Hg Hb]. cbn in Hg, Hb, Hf.
  unfold coalesce_step. rewrite Hp. cbn.
  destruct (List.find _ _) as [g|].
  - eexists. split; [done|]. split; cbn.
    + rewrite Hg. symmetry. by eapply groups_of_old.
    + rewrite fmap_app. cbn. rewrite nub_snoc, Hi.
      rewrite bool_decide_true by (by apply list_elem_of_lookup_2 in Hf).
      intros g' k Hk. specialize (Hb _ _ Hk).
      destruct (decide (instant_hash k = series_instant_hash p)) as [E|].
      * rewrite E in Hb |- *. by rewrite lookup_insert_eq.
      * by rewrite lookup_insert_ne.
  - eexists. split; [done|]. split; cbn.
    + rewrite Hg, groups_of_new; [done|by rewrite Hi].
    + rewrite fmap_app. cbn. rewrite nub_snoc, Hi, bool_decide_false by done.
      intros g' k Hk. rewrite Hg. unfold groups_of. rewrite length_fmap.
      apply lookup_app_Some in Hk as [Hk|[Hlen Hk]].
      * specialize (Hb _ _ Hk). destruct (decide (instant_hash k = series_instant_hash p)) as [E|].
        -- rewrite E in Hb |- *. rewrite lookup_insert_eq. cbn. apply elem_of_app. by left.
        -- by rewrite lookup_insert_ne.
      * apply list_lookup_singleton_Some in Hk as [Hz [= <-]].
        rewrite <- series_instant_hash_key, lookup_insert_eq. cbn. apply elem_of_app. right.
        apply list_elem_of_singleton. lia.
Qed.

Lemma coalesce_loop_inv points idxs' idxs st :
  coalesce_inv points idxs st -> Forall (fun i => is_Some (points !! i)) idxs' ->
  exists st', coalesce_loop points st idxs' = Some st' /\ coalesce_inv points (idxs ++ idxs') st'.
Proof.
  revert idxs st. induction idxs' as [|i idxs' IH]; intros idxs st Hinv Hv.
  { rewrite app_nil_r. eauto. }
  apply Forall_cons in Hv as [Hi Hv].
  destruct (coalesce_step_inv _ _ _ _ Hinv Hi) as (st' & E & Hinv'). cbn. rewrite E. cbn.
  destruct (IH _ _ Hinv' Hv) as (st'' & E' & Hinv''). exists st''. split; [done|].
  by rewrite <- app_assoc in Hinv''.
Qed.

Lemma coalesce_plan_indexed_eq points idxs :
  Forall (fun i => is_Some (points !! i)) idxs ->
  coalesce_plan_indexed points idxs
  = Some (if (length (groups_of points idxs) =? length idxs)%nat then None
          else Some (groups_of points idxs)).
Proof.
  intros Hv. destruct (coalesce_loop_inv points idxs [] ([], ∅)) as ([gs bs] & E & Hg & _); [|done|].
  - split; [done|]. intros g k Hg. by destruct g.
  - unfold coalesce_plan_indexed. rewrite E. cbn in *. by subst gs.
Qed.

(** The points [sub] at the indices [idxs]. *)
Definition selects (points : list Point) (idxs : list nat) (sub : list Point) : Prop :=
  Forall2 (fun i p => points !! i = Some p) idxs sub.

Lemma selects_valid points idxs sub :
  selects points idxs sub -> Forall (fun i => is_Some (points !! i)) idxs.
Proof. induction 1; constructor; eauto. Qed.

Lemma selects_members points idxs sub k :
  selects points idxs sub ->
  selects points (members points idxs (Some k)) (filter (fun p => instant p = k) sub).
Proof.
  unfold selects, members. induction 1 as [|i p idxs sub Hi H IH]; [constructor|].
  assert (instant_at points i = Some (instant p)) as Hk by (unfold instant_at; by rewrite Hi).
  rewrite !filter_cons. destruct (decide (instant p = k)) as [He|Hne].
  - rewrite decide_True by congruence. by constructor.
  - rewrite decide_False by congruence. done.
Qed.

Lemma selects_instants points idxs sub :
  selects points idxs sub -> instant_at points <$> idxs = Some ∘ instant <$> sub.
Proof.
  induction 1 as [|i p idxs sub Hi H IH]; [done|]. cbn. unfold instant_at at 1. rewrite Hi. cbn.
  by f_equal.
Qed.

Lemma nub_fmap_Some {A} `{EqDecision A} (l : list A) : nub (Some <$> l) = Some <$> nub l.
Proof.
  induction l as [|x l IH] using rev_ind; [done|]. rewrite fmap_app. cbn. rewrite !nub_snoc, IH.
  destruct (decide (x ∈ nub l)) as [Hx|Hx].
  - rewrite !bool_decide_true; [done|done|by apply list_elem_of_fmap_2].
  - rewrite !bool_decide_false; [by rewrite fmap_app|done|].
    intros (y & [= <-] & Hy)%list_elem_of_fmap. done.
Qed.

(** Merging a list of points one after the other. *)
Definition merge_rows (ps : list Point) : option Point :=
  match ps with [] => None | base :: rest => Some (fold_left merge_fields rest base) end.

Lemma merge_point_group_rows points g ps :
  selects points g ps -> merge_point_group points g = merge_rows ps.
Proof.
  intros [|i p g' ps' Hi H]; [done|]. cbn. rewrite Hi. cbn.
  assert (mapM (points !!.) g' = Some ps') as -> by (by apply mapM_Some_2). done.
Qed.

Lemma merge_fields_union base p : pt_fields (merge_fields base p) = pt_fields p ∪ pt_fields base.
Proof. apply btree_insert_all. Qed.

Lemma merge_all_fields rest base :
  pt_fields (fold_left merge_fields rest base)
  = fold_left (fun acc p => pt_fields p ∪ acc) rest (pt_fields base).
Proof.
  revert base. induction rest as [|p rest IH]; intros base; [done|]. cbn [fold_left].
  by rewrite IH, merge_fields_union.
Qed.

Lemma merge_all_same rest base :
  instant (fold_left merge_fields rest base) = instant base /\
  pt_measurement (fold_left merge_fields rest base) = pt_measurement base.
Proof. revert base. induction rest as [|p rest IH]; intros base; [done|]. cbn. by rewrite !(proj1 (IH _)), !(proj2 (IH _)). Qed.

Lemma row_fields_filter points k acc :
  fold_left (fun acc p => if bool_decide (instant p = k) then pt_fields p ∪ acc else acc) points acc
  = fold_left (fun acc p => pt_fields p ∪ acc) (filter (fun p => instant p = k) points) acc.
Proof.
  revert acc. induction points as [|p points IH]; intros acc; [done|].
  rewrite filter_cons. cbn [fold_left]. case_bool_decide; case_decide; done || apply IH.
Qed.

Lemma merge_rows_fields ps k q :
  merge_rows (filter (fun p => instant p = k) ps) = Some q ->
  instant q = k /\ pt_fields q = row_fields ps k /\
  exists p, p ∈ ps /\ pt_measurement q = pt_measurement p.
Proof.
  unfold row_fields. rewrite row_fields_filter.
  destruct (filter (fun p => instant p = k) ps) as [|base rest] eqn:E; [done|].
  cbn [merge_rows]. intros [= <-].
  assert (base ∈ filter (fun p => instant p = k) ps) as [Hb Hin]%list_elem_of_filter
    by (rewrite E; by left).
  destruct (merge_all_same rest base) as [-> Hm]. split; [done|]. split; [|eauto].
  cbn [fold_left]. by rewrite merge_all_fields, map_union_empty.
Qed.

(** What coalescing makes of the points [sub]: one row per series-instant, in
    the order they first appear, with the fields the points leave there. *)
Definition coalesced (sub out : list Point) : Prop :=
  instant <$> out = nub (instant <$> sub) /\
  (forall k, row_fields out k = row_fields sub k) /\
  (forall q, q ∈ out -> exists p, p ∈ sub /\ pt_measurement q = pt_measurement p).

Lemma row_fields_nil_inst ps k : k ∉ instant <$> ps -> row_fields ps k = ∅.
Proof.
  intros Hk. unfold row_fields. rewrite row_fields_filter.
  assert (filter (fun p => instant p = k) ps = []) as ->; [|done].
  destruct (filter _ ps) as [|q l] eqn:E; [done|]. exfalso.
  assert (q ∈ filter (fun p => instant p = k) ps) as [<- Hq]%list_elem_of_filter
    by (rewrite E; by left).
  apply Hk. by apply list_elem_of_fmap_2.
Qed.

(** In a list with distinct series-instants each row stands for itself. *)
Lemma row_fields_unique ps q : NoDup (instant <$> ps) -> q ∈ ps -> row_fields ps (instant q) = pt_fields q.
Proof.
  intros Hnd Hq. unfold row_fields. rewrite row_fields_filter.
  assert (filter (fun p => instant p = instant q) ps = [q]) as ->; [|apply map_union_empty].
  induction ps as [|p ps IH]; [by apply elem_of_nil in Hq|].
  cbn in Hnd. apply NoDup_cons in Hnd as [Hp Hnd]. rewrite filter_cons.
  apply elem_of_cons in Hq as [->|Hq].
  - rewrite decide_True by done. f_equal. destruct (filter _ ps) as [|r l] eqn:E; [done|]. exfalso.
    assert (r ∈ filter (fun x => instant x = instant p) ps) as [Hr Hin]%list_elem_of_filter
      by (rewrite E; by left).
    apply Hp. rewrite <- Hr. by apply list_elem_of_fmap_2.
  - rewrite decide_False; [by apply IH|]. intros E. apply Hp. rewrite E. by apply list_elem_of_fmap_2.
Qed.

Lemma merged_groups_coalesced points idxs sub :
  selects points idxs sub ->
  exists out, mapM (merge_point_group points) (groups_of points idxs) = Some out /\
              coalesced sub out.
Proof.
  intros Hs. unfold groups_of. rewrite (selects_instants _ _ _ Hs), list_fmap_compose, nub_fmap_Some.
  rewrite <- list_fmap_compose.
  destruct (mapM_exists (fun k => merge_point_group points (members points idxs (Some k)))
    (fun k q => merge_rows (filter (fun p => instant p = k) sub) = Some q) (nub (instant <$> sub)))
    as (out & E & Hout).
  { intros k Hk. rewrite elem_of_nub in Hk. rewrite (merge_point_group_rows _ _ _ (selects_members _ _ _ k Hs)).
    destruct (filter (fun p => instant p = k) sub) as [|b r] eqn:Ef; [|cbn; eauto].
    exfalso. apply list_elem_of_fmap in Hk as (p & -> & Hp).
    assert (p ∈ filter (fun x => instant x = instant p) sub) as Hf by (by apply list_elem_of_filter).
    rewrite Ef in Hf. by apply elem_of_nil in Hf. }
  exists out. split; [by rewrite mapM_fmap_compat|]. clear E Hs points idxs.
  assert (instant <$> out = nub (instant <$> sub)) as Hkeys.
  { induction Hout as [|k q ks out Hq H IH]; [done|]. cbn. rewrite IH. f_equal.
    by apply merge_rows_fields in Hq as [-> _]. }
  split; [done|]. split.
  - intros k. destruct (decide (k ∈ nub (instant <$> sub))) as [Hk|Hk].
    + rewrite <- Hkeys in Hk. apply list_elem_of_fmap in Hk as (q & -> & Hq).
      rewrite row_fields_unique; [|rewrite Hkeys; apply nub_NoDup|done].
      apply list_elem_of_lookup_1 in Hq as [j Hj].
      destruct (Forall2_lookup_r _ _ _ _ _ Hout Hj) as (k & _ & Hm).
      by destruct (merge_rows_fields _ _ _ Hm) as (<- & -> & _).
    + rewrite !row_fields_nil_inst; [done|by rewrite <- elem_of_nub|by rewrite Hkeys].
  - intros q [j Hj]%list_elem_of_lookup_1.
    destruct (Forall2_lookup_r _ _ _ _ _ Hout Hj) as (k & _ & Hm).
    by destruct (merge_rows_fields _ _ _ Hm) as (_ & _ & Hmeas).
Qed.

Lemma groups_of_length points idxs sub :
  selects points idxs sub -> length (groups_of points idxs) = length (nub (instant <$> sub)).
Proof.
  intros Hs. unfold groups_of. rewrite (selects_instants _ _ _ Hs), list_fmap_compose, nub_fmap_Some.
  by rewrite !length_fmap.
Qed.

Lemma selects_mapM points idxs sub : selects points idxs sub -> mapM (points !!.) idxs = Some sub.
Proof. intros H. by apply mapM_Some_2. Qed.

Lemma coalesce_measurement_ok points idxs sub :
  selects points idxs sub ->
  exists out, coalesce_measurement points idxs = Some out /\ coalesced sub out.
Proof.
  intros Hs. unfold coalesce_measurement.
  rewrite coalesce_plan_indexed_eq by (by eapply selects_valid). cbn.
  destruct (Nat.eqb_spec (length (groups_of points idxs)) (length idxs)) as [E|E].
  - exists sub. split; [by apply selects_mapM|]. split; [|split; eauto].
    symmetry. apply nub_full. rewrite length_fmap, <- (Forall2_length _ _ _ Hs), <- E.
    symmetry. by apply groups_of_length.
  - by apply merged_groups_coalesced.
Qed.

Lemma index_by_measurement_spec points pre suf acc :
  points = pre ++ suf ->
  (forall m, match acc !! m with
             | Some idxs => idxs <> [] /\ selects points idxs (filter (fun p => pt_measurement p = m) pre)
             | None => filter (fun p => pt_measurement p = m) pre = []
             end) ->
  forall m, match index_by_measurement (length pre) suf acc !! m with
            | Some idxs => idxs <> [] /\ selects points idxs (filter (fun p => pt_measurement p = m) points)
            | None => filter (fun p => pt_measurement p = m) points = []
            end.
Proof.
  revert pre acc. induction suf as [|p suf IH]; intros pre acc Hp Hacc.
  { rewrite app_nil_r in Hp. subst. apply Hacc. }
  cbn [index_by_measurement]. replace (S (length pre)) with (length (pre ++ [p]))
    by (rewrite length_app; cbn; lia).
  apply IH; [by rewrite <- app_assoc|]. intros m. rewrite filter_app, filter_cons, filter_nil.
  specialize (Hacc m). destruct (decide (pt_measurement p = m)) as [<-|Hm].
  - rewrite lookup_insert_eq. split; [by intros []%app_nil|].
    assert (points !! length pre = Some p) as Hl
      by (subst points; apply list_lookup_middle; done).
    apply Forall2_app; [|by constructor].
    destruct (acc !! pt_measurement p) as [idxs|]; cbn; [by apply Hacc|]. by rewrite Hacc.
  - by rewrite lookup_insert_ne, app_nil_r.
Qed.

Lemma selects_all points : selects points (seq 0 (length points)) points.
Proof.
  unfold selects. apply Forall2_same_length_lookup_2; [by rewrite length_seq|].
  intros j i p [-> _]%lookup_seq Hp. done.
Qed.

Lemma u32_range_all n : N.of_nat n < 4294967296 -> u32_range n = seq 0 n.
Proof. intros Hn. unfold u32_range. rewrite N.mod_small by done. by rewrite Nat2N.id. Qed.

Lemma members_last points idxs k i :
  StronglySorted lt idxs -> last (members points idxs (Some k)) = Some i ->
  instant_at points i = Some k /\
  forall j, j ∈ idxs -> instant_at points j = Some k -> (j <= i)%nat.
Proof.
  intros Hsort El. pose proof (last_elem _ _ El) as [Hi _]%elem_of_members. split; [done|].
  intros j Hj Hk. destruct (last_is_max lt _ _ (StronglySorted_filter _ _ _ Hsort) El j) as [->|];
    [|lia..]. by apply elem_of_members.
Qed.

(** Each group takes the origin of its last point. *)
Lemma last_origins points (origins : list N) :
  length origins = length points ->
  exists os, mapM (fun g => last g ≫= (origins !!.)) (groups_of points (seq 0 (length points))) = Some os /\
    Forall2 (fun k o => exists i, instant_at points i = Some k /\ origins !! i = Some o /\
      forall i', instant_at points i' = Some k -> (i' <= i)%nat) (nub (instant <$> points)) os.
Proof.
  intros Hlen. pose proof (selects_all points) as Hs. set (idxs := seq 0 (length points)) in *.
  assert (forall i k, instant_at points i = Some k -> (i < length points)%nat) as Hlt.
  { intros i k (p & Hp & _)%fmap_Some. by apply lookup_lt_Some in Hp. }
  destruct (mapM_exists (fun k => last (members points idxs (Some k)) ≫= (origins !!.))
    (fun k o => exists i, instant_at points i = Some k /\ origins !! i = Some o /\
      forall i', instant_at points i' = Some k -> (i' <= i)%nat) (nub (instant <$> points)))
    as (os & E & Hos).
  - intros k Hk. rewrite elem_of_nub in Hk.
    destruct (members_head points idxs (Some k)) as (i0 & l & Em & _).
    { rewrite (selects_instants _ _ _ Hs), list_fmap_compose. by apply list_elem_of_fmap_2. }
    destruct (last (members points idxs (Some k))) as [i|] eqn:El;
      [|rewrite Em in El; by apply last_None in El].
    destruct (members_last _ _ _ _ (seq_StronglySorted _ _) El) as [Hi Hmax].
    destruct (lookup_lt_is_Some_2 origins i) as [o Ho]; [rewrite Hlen; by eapply Hlt|].
    exists o. split; [done|]. exists i. split_and!; [done..|]. intros i' Hi'.
    apply Hmax; [|done]. apply elem_of_seq. apply Hlt in Hi'. lia.
  - exists os. split; [|done]. unfold groups_of.
    rewrite (selects_instants _ _ _ Hs), list_fmap_compose, nub_fmap_Some, <- list_fmap_compose.
    by rewrite mapM_fmap_compat.
Qed.

End CoalesceLemmas.

(** ** What coalescing does *)

(** Grouping a batch by measurement and merging its partial rows, as the
    write path does, never panics, names every measurement of the batch
    exactly once, and makes of the points of a measurement one row per
    series-instant (timestamp and tags), in order of first appearance, with
    exactly the fields that writing the points one after the other would
    leave there. This holds for every hash function. *)
Theorem group_and_coalesce_correct `{DH : !DefaultHasher} (points : list Point) :
  exists out, group_and_coalesce_by_measurement points = Some out /\
    NoDup out.*1 /\
    (forall m, m ∈ out.*1 <-> exists p, p ∈ points /\ pt_measurement p = m) /\
    forall m rows, (m, rows) ∈ out ->
      coalesced (filter (fun p => pt_measurement p = m) points) rows.
Proof.
  pose proof (index_by_measurement_spec points [] points ∅ eq_refl) as Hidx.
  cbn [length] in Hidx. specialize (Hidx ltac:(intros m; by rewrite lookup_empty)).
  unfold group_and_coalesce_by_measurement. set (by_meas := index_by_measurement 0 points ∅) in *.
  destruct (mapM_exists (fun mi : string * list nat => ps ← coalesce_measurement points mi.2; Some (mi.1, ps))
    (fun mi mr => mi.1 = mr.1 /\ coalesced (filter (fun p => pt_measurement p = mr.1) points) mr.2)
    (btree_iter string_leb by_meas)) as (out & E & Hout).
  { intros [m idxs] Hm%btree_iter_elem. specialize (Hidx m). rewrite Hm in Hidx.
    destruct (coalesce_measurement_ok _ _ _ (proj2 Hidx)) as (rows & Er & Hr).
    exists (m, rows). cbn. by rewrite Er. }
  assert (out.*1 = (btree_iter string_leb by_meas).*1) as Hkeys.
  { clear E. induction Hout as [|a b la lb [H1 _] H IH]; cbn; congruence. }
  exists out. split; [done|]. rewrite Hkeys. split; [apply btree_iter_NoDup|]. split.
  - intros m. rewrite btree_iter_Permutation, list_elem_of_fmap. specialize (Hidx m). split.
    + intros ([m' idxs] & -> & Hm%elem_of_map_to_list). cbn in *. rewrite Hm in Hidx.
      destruct Hidx as [Hne Hs]. destruct (filter _ points) as [|p ps] eqn:Ef;
        [by inversion Hs; subst|].
      assert (p ∈ filter (fun p => pt_measurement p = m') points) as [Hp Hin]%list_elem_of_filter
        by (rewrite Ef; by left). eauto.
    + intros (p & Hp & Hm). destruct (by_meas !! m) as [idxs|] eqn:Em.
      * exists (m, idxs). split; [done|]. by apply elem_of_map_to_list.
      * exfalso. assert (p ∈ filter (fun p => pt_measurement p = m) points) as Hf
          by (by apply list_elem_of_filter).
        rewrite Hidx in Hf. by apply elem_of_nil in Hf.
  - intros m rows [j Hj]%list_elem_of_lookup_1.
    by destruct (Forall2_lookup_r _ _ _ _ _ Hout Hj) as ([m' idxs] & _ & _ & Hc).
Qed.

Lemma coalesce_points_and_origins_law `{DH : !DefaultHasher} points origins :
  length origins = length points -> N.of_nat (length points) < 4294967296 ->
  exists r, coalesce_points_and_origins points origins = Some r /\
    match r with
    | None => NoDup (instant <$> points)
    | Some (rows, os) =>
      coalesced points rows /\ length os = length rows /\
      forall j q o, rows !! j = Some q -> os !! j = Some o ->
        exists i, instant_at points i = Some (instant q) /\ origins !! i = Some o /\
          forall i', instant_at points i' = Some (instant q) -> (i' <= i)%nat
    end.
Proof.
  intros Hlen Hu32. unfold coalesce_points_and_origins, coalesce_plan.
  rewrite u32_range_all by done. pose proof (selects_all points) as Hs.
  rewrite coalesce_plan_indexed_eq by (by eapply selects_valid). cbn.
  destruct (Nat.eqb_spec (length (groups_of points (seq 0 (length points)))) (length (seq 0 (length points))))
    as [E|E].
  { exists None. split; [done|]. rewrite (groups_of_length _ _ _ Hs), length_seq in E.
    rewrite <- (length_fmap instant) in E. apply nub_full in E. rewrite <- E. apply nub_NoDup. }
  destruct (merged_groups_coalesced _ _ _ Hs) as (rows & Er & Hc). rewrite Er. cbn.
  destruct (last_origins points origins Hlen) as (os & Eo & Hos).
  rewrite Eo. cbn. eexists. split; [done|]. split; [done|]. destruct Hc as (Hk & _ & _).
  split; [by rewrite <- (Forall2_length _ _ _ Hos), <- Hk, length_fmap|].
  intros j q o Hq Ho. destruct (Forall2_lookup_r _ _ _ _ _ Hos Ho) as (k & Hj & Hi).
  rewrite <- Hk, list_lookup_fmap, Hq in Hj. by simplify_eq/=.
Qed.

(** Coalescing the rows of a flush batch with their origins, for fewer
    than [2^32] points: either no two points share a series-instant and the
    batch is left as it is, or the result is the merged rows with one origin
    each, the origin of the last point that was merged into the row. *)
Theorem coalesce_points_and_origins_correct `{DH : !DefaultHasher} points origins :
  length origins = length points -> N.of_nat (length points) < 4294967296 ->
  exists r, coalesce_points_and_origins points origins = Some r /\
    match r with
    | None => NoDup (instant <$> points)
    | Some (rows, os) =>
      coalesced points rows /\ length os = length rows /\
      forall j q o, rows !! j = Some q -> os !! j = Some o ->
        exists i, instant_at points i = Some (instant q) /\ origins !! i = Some o /\
          forall i', instant_at points i' = Some (instant q) -> (i' <= i)%nat
    end.
Proof. apply coalesce_points_and_origins_law. Qed.

(** Two partial lines and a line of another host: one merge. *)
Definition sample_points : list Point :=
  [ mkPoint "cpu" {["host" := "a"]} {["idle" := FFloat 1]} 10;
    mkPoint "cpu" {["host" := "b"]} {["idle" := FFloat 2]} 10;
    mkPoint "cpu" {["host" := "a"]} {["user" := FUInteger 3]} 10 ]%Z.

Lemma coalesce_points_and_origins_witness :
  let DH := (fun _ => 0) : DefaultHasher in
  exists rows, coalesce_points_and_origins sample_points [7; 8; 9] = Some (Some (rows, [9; 8])) /\
    coalesced sample_points rows.
Proof.
  intros DH. destruct (coalesce_points_and_origins_correct sample_points [7; 8; 9] eq_refl eq_refl)
    as (r & E & Hr). revert Hr.
  assert (option_map (option_map snd) (coalesce_points_and_origins sample_points [7; 8; 9])
          = Some (Some [9; 8])) as E' by (vm_compute; reflexivity).
  rewrite E in E' |- *. destruct r as [[rows os]|]; [|done]. cbn in E'. injection E' as ->.
  intros (Hc & _). eauto.
Defined.
