(* ===== verification/Arrow.v ===== *)
(** * Prepared Arrow batches

    [domain/prepared_wal.rs] and [domain/arrow_coalesce.rs]: the in-memory WAL
    slots with their chDB-ready batches, the patch of their [ingest_seq]
    column, and the merge of batches that need not share a schema. Arrow
    itself is the class [Arrow]; [ArrowLaws] says what the code relies on. *)

From stdpp Require Import prelude list strings.
From S2P Require Import Prelude.
From stdpp Require Import options.

#[local] Open Scope N_scope.

(** The Arrow types the code tells apart; any other type by its name. *)
Inductive DataType :=
| Float64
| Int64
| UInt64
| Utf8
| Dictionary (key value : DataType)
| OtherType (name : string).

#[export] Instance data_type_eq_dec : EqDecision DataType.
Proof. solve_decision. Defined.

Record Field := mkField {
  fd_name : string;
  fd_type : DataType;
  fd_nullable : bool
}.

#[export] Instance field_eq_dec : EqDecision Field.
Proof. solve_decision. Defined.

(** Arrow's arrays [A] and record batches [RB]. *)
Class Arrow (A RB : Type) := {
  arr_type : A -> DataType;
  arr_len : A -> nat;
  (* [downcast_ref::<UInt64Array>] with its nulls, and [UInt64Array::from] *)
  arr_as_u64 : A -> option (list (option N));
  arr_from_u64 : list N -> A;
  (* [new_null_array], [StringArray::from] *)
  arr_null : DataType -> nat -> A;
  arr_strings : list string -> A;
  (* [cast_with_options] with [safe: true], and [cast] *)
  arr_cast_safe : A -> DataType -> result string A;
  arr_cast : A -> DataType -> result string A;
  rb_schema : RB -> list Field;
  rb_columns : RB -> list A;
  rb_num_rows : RB -> nat;
  (* [RecordBatch::try_new], [concat_batches], [RecordBatch::slice] *)
  rb_try_new : list Field -> list A -> result string RB;
  rb_concat : list Field -> list RB -> result string RB;
  rb_slice : RB -> nat -> nat -> RB
}.

(** chDB fact-table batch for one measurement. *)
Record PreparedMeasurementBatch (RB : Type) := mkPrepared {
  pb_measurement : string;
  pb_table_name : string;
  pb_series_table_name : string;
  pb_batch : RB;
  pb_row_count : nat;
  pb_min_time : Z;
  pb_max_time : Z;
  pb_new_series : option RB
}.
Arguments mkPrepared {RB} _ _ _ _ _ _ _ _.
Arguments pb_measurement {RB} _.
Arguments pb_table_name {RB} _.
Arguments pb_series_table_name {RB} _.
Arguments pb_batch {RB} _.
Arguments pb_row_count {RB} _.
Arguments pb_min_time {RB} _.
Arguments pb_max_time {RB} _.
Arguments pb_new_series {RB} _.

(** One WAL sequence worth of prepared data. *)
Record PreparedWalSlot (RB : Type) := mkSlot {
  sl_database : string;
  sl_retention_policy : string;
  sl_origin_node_id : N;
  sl_measurements : list (PreparedMeasurementBatch RB)
}.
Arguments mkSlot {RB} _ _ _ _.
Arguments sl_database {RB} _.
Arguments sl_retention_policy {RB} _.
Arguments sl_origin_node_id {RB} _.
Arguments sl_measurements {RB} _.

Definition total_rows {RB} (slot : PreparedWalSlot RB) : nat :=
  foldr (fun m acc => (pb_row_count m + acc)%nat) 0%nat (sl_measurements slot).

(** What a batch without one of the merged columns gets in its place. *)
Inductive Missing :=
| MissingNull
| MissingEmptyString.

(** The type a column takes when batches disagree. *)
Definition wider_type (a b : DataType) : DataType :=
  if bool_decide (a = b) then a
  else match a, b with
       | Float64, Int64 | Int64, Float64 => Float64
       | Int64, UInt64 | UInt64, Int64 => UInt64
       | (Dictionary _ _ | Utf8), (Dictionary _ _ | Utf8) => Utf8
       | _, _ => a
       end.

Section Batches.
Context {A RB : Type} `{AR : !Arrow A RB}.

(** ** The [ingest_seq] column *)

(** [schema.fields().iter().position(name)], also [Schema::index_of]. *)
Definition field_index (s : list Field) (name : string) : option nat :=
  position (fun f => bool_decide (fd_name f = name)) s.

(** The absolute sequence of each row: the base plus the row's own relative
    value, or plus its position where it has none. *)
Definition patched_seqs (base : N) (n : nat) (existing : option (list (option N))) : list N :=
  imap (fun i _ =>
    match existing ≫= (fun l => l !! i) with
    | Some (Some v) => sat_add base v
    | _ => sat_add base (N.of_nat i)
    end) (repeat tt n).

Definition patch_ingest_seq (batch : RB) (base : N) : result string RB :=
  let n := rb_num_rows batch in
  if (n =? 0)%nat then Ok batch
  else
    match field_index (rb_schema batch) "ingest_seq" with
    | None => Err "prepared batch missing ingest_seq column"
    | Some idx =>
      match rb_columns batch !! idx with
      | None => Err "column index out of range"
      | Some seq_col =>
        if negb (bool_decide (arr_type seq_col = UInt64)) then
          Err "ingest_seq column has unexpected type"
        else
          rb_try_new (rb_schema batch)
            (<[idx := arr_from_u64 (patched_seqs base n (arr_as_u64 seq_col))]> (rb_columns batch))
      end
    end.

Fixpoint patch_measurements (seq row_offset : N) (ms : list (PreparedMeasurementBatch RB))
    : result string (list (PreparedMeasurementBatch RB)) :=
  match ms with
  | [] => Ok []
  | m :: ms' =>
    b ← patch_ingest_seq (pb_batch m) (sat_add seq row_offset);
    rest ← patch_measurements seq (sat_add row_offset (N.of_nat (pb_row_count m))) ms';
    mret (mkPrepared (pb_measurement m) (pb_table_name m) (pb_series_table_name m) b
            (pb_row_count m) (pb_min_time m) (pb_max_time m) (pb_new_series m) :: rest)
  end.

(** The slot is only used when every batch was patched. *)
Definition patch_all_ingest_seqs (slot : PreparedWalSlot RB) (seq : N)
    : result string (PreparedWalSlot RB) :=
  ms ← patch_measurements seq 0 (sl_measurements slot);
  mret (mkSlot (sl_database slot) (sl_retention_policy slot) (sl_origin_node_id slot) ms).

(** ** Merging batches by column name *)

(** [existing.with_data_type(wider).with_nullable(..)] on the first field of
    that name, or the field pushed at the end. *)
Fixpoint add_field (fields : list Field) (f : Field) : list Field :=
  match fields with
  | [] => [f]
  | e :: fields' =>
    if bool_decide (fd_name e = fd_name f)
    then mkField (fd_name e) (wider_type (fd_type e) (fd_type f))
           (fd_nullable e || fd_nullable f) :: fields'
    else e :: add_field fields' f
  end.

Definition merged_fields (batches : list RB) : list Field :=
  fold_left (fun fields b => fold_left add_field (rb_schema b) fields) batches [].

(** A column some batch lacks must be nullable when nulls fill it. *)
Definition fill_nullable (missing : Missing) (batches : list RB) (f : Field) : Field :=
  let everywhere := forallb (fun b => bool_decide (is_Some (field_index (rb_schema b) (fd_name f)))) batches in
  match missing with
  | MissingNull => if everywhere then f else mkField (fd_name f) (fd_type f) true
  | MissingEmptyString => f
  end.

Definition aligned_column (missing : Missing) (batch : RB) (f : Field) : result string A :=
  match field_index (rb_schema batch) (fd_name f) with
  | Some i =>
    match rb_columns batch !! i with
    | None => Err "column index out of range"
    | Some c => if bool_decide (arr_type c = fd_type f) then Ok c else arr_cast_safe c (fd_type f)
    end
  | None =>
    match missing with
    | MissingNull => Ok (arr_null (fd_type f) (rb_num_rows batch))
    | MissingEmptyString =>
      arr_cast (arr_strings (repeat EmptyString (rb_num_rows batch))) (fd_type f)
    end
  end.

(** A loop that stops at the first error. *)
Fixpoint try_map {E B C} (f : B -> result E C) (l : list B) : result E (list C) :=
  match l with
  | [] => Ok []
  | x :: l' => y ← f x; ys ← try_map f l'; mret (y :: ys)
  end.

Definition align_batch (missing : Missing) (schema : list Field) (batch : RB) : result string RB :=
  cols ← try_map (aligned_column missing batch) schema;
  rb_try_new schema cols.

Definition concat_by_name (batches : list RB) (missing : Missing) : result string RB :=
  let schema := fill_nullable missing batches <$> merged_fields batches in
  aligned ← try_map (align_batch missing schema) batches;
  rb_concat schema aligned.

Definition is_dictionary (t : DataType) : bool :=
  match t with Dictionary _ _ => true | _ => false end.

(** A dictionary column cast to its value type and back. *)
Definition reencode_column (col : A) : result string A :=
  match arr_type col with
  | Dictionary k v => decoded ← arr_cast col v; arr_cast decoded (Dictionary k v)
  | _ => Ok col
  end.

Definition normalize_dictionary_columns (batch : RB) : result string RB :=
  if negb (existsb (fun c => is_dictionary (arr_type c)) (rb_columns batch)) then Ok batch
  else
    cols ← try_map reencode_column (rb_columns batch);
    rb_try_new (rb_schema batch) cols.

Definition merge_series_batches (batches : list RB) : result string (option RB) :=
  match batches with
  | [] => Ok None
  | [b] => Ok (Some b)
  | _ =>
    merged ← concat_by_name batches MissingEmptyString;
    n ← normalize_dictionary_columns merged;
    mret (Some n)
  end.

(** [iter().min()] and [iter().max()] of a non-empty list. *)
Definition min_z (l : list Z) : Z := match l with [] => 0%Z | x :: l' => fold_left Z.min l' x end.
Definition max_z (l : list Z) : Z := match l with [] => 0%Z | x :: l' => fold_left Z.max l' x end.

Definition coalesce_prepared_batches (batches : list (PreparedMeasurementBatch RB))
    : result string (option (PreparedMeasurementBatch RB)) :=
  match batches with
  | [] => Ok None
  | [b] => Ok (Some b)
  | template :: _ =>
    merged ← concat_by_name (pb_batch <$> batches) MissingNull;
    series ← merge_series_batches (omap pb_new_series batches);
    mret (Some (mkPrepared (pb_measurement template) (pb_table_name template)
      (pb_series_table_name template) merged (rb_num_rows merged)
      (min_z (pb_min_time <$> batches)) (max_z (pb_max_time <$> batches)) series))
  end.

(** [slice_prepared_batch] of [flush_service.rs]. *)
Definition slice_prepared_batch (batch : PreparedMeasurementBatch RB) (offset len : nat)
    : PreparedMeasurementBatch RB :=
  mkPrepared (pb_measurement batch) (pb_table_name batch) (pb_series_table_name batch)
    (rb_slice (pb_batch batch) offset len) len (pb_min_time batch) (pb_max_time batch)
    (if (offset =? 0)%nat then pb_new_series batch else None).

End Batches.

(** ** What the code relies on *)

(** The values of an array and the shape of a batch. A cast, a null array and
    the rest of what a column holds are left open. *)
Class ArrowLaws (A RB V : Type) `{Arrow A RB} := {
  arr_values : A -> list V;
  arr_values_len : forall c, length (arr_values c) = arr_len c;
  arr_as_u64_law : forall l, arr_as_u64 (arr_from_u64 l) = Some (Some <$> l);
  arr_from_u64_len : forall l, arr_len (arr_from_u64 l) = length l;
  arr_null_len : forall t n, arr_len (arr_null t n) = n;
  arr_strings_len : forall l, arr_len (arr_strings l) = length l;
  arr_cast_safe_len : forall c t c', arr_cast_safe c t = Ok c' -> arr_len c' = arr_len c;
  arr_cast_len : forall c t c', arr_cast c t = Ok c' -> arr_len c' = arr_len c;
  rb_shape : forall b, length (rb_columns b) = length (rb_schema b) /\
    Forall (fun c => arr_len c = rb_num_rows b) (rb_columns b);
  rb_try_new_law : forall s cs b, rb_try_new s cs = Ok b ->
    rb_schema b = s /\ rb_columns b = cs /\ cs <> [];
  rb_concat_law : forall s bs b, rb_concat s bs = Ok b ->
    rb_schema b = s /\ rb_num_rows b = sum_nat (rb_num_rows <$> bs) /\
    forall i c, rb_columns b !! i = Some c ->
      exists cs, Forall2 (fun b' c' => rb_columns b' !! i = Some c') bs cs /\
        arr_values c = mjoin (arr_values <$> cs)
}.

Lemma try_map_Forall2 {E B C} (f : B -> result E C) l ys :
  try_map f l = Ok ys -> Forall2 (fun x y => f x = Ok y) l ys.
Proof.
  revert ys. induction l as [|x l IH]; intros ys; cbn; [intros [= <-]; constructor|].
  destruct (f x) as [y|e] eqn:Ef; cbn; [|done]. destruct (try_map f l) as [ys'|e]; cbn; [|done].
  intros [= <-]. constructor; [done|]. by apply IH.
Qed.

Section BatchLemmas.
Context {A RB V : Type} `{AR : !Arrow A RB} `{AL : !ArrowLaws A RB V}.
#[local] Set Default Proof Using "Type*".

(** The column a batch has under a name. *)
Definition column_named (b : RB) (name : string) : option A :=
  field_index (rb_schema b) name ≫= fun i => rb_columns b !! i.

Lemma add_field_names fields f :
  fd_name <$> add_field fields f
  = if bool_decide (fd_name f ∈ fd_name <$> fields) then fd_name <$> fields
    else (fd_name <$> fields) ++ [fd_name f].
Proof.
  induction fields as [|e fields IH]; [done|]. cbn [add_field].
  destruct (decide (fd_name e = fd_name f)) as [He|He].
  - rewrite bool_decide_true by done. rewrite bool_decide_true; [done|]. cbn. rewrite He. by left.
  - rewrite bool_decide_false by done. cbn [fmap list_fmap]. rewrite IH.
    destruct (decide (fd_name f ∈ fd_name <$> fields)) as [Hin|Hin].
    + rewrite !bool_decide_true; [done|by right|done].
    + rewrite !bool_decide_false; [done| |done]. rewrite elem_of_cons. intros [E|]; congruence.
Qed.

(** The names of the merged schema, in the order they first appear. *)
Lemma merged_fields_names batches :
  fd_name <$> merged_fields batches = nub (mjoin ((fun b => fd_name <$> rb_schema b) <$> batches)).
Proof.
  unfold merged_fields. assert (forall seen acc, fd_name <$> acc = nub seen ->
    fd_name <$> fold_left (fun fields b => fold_left add_field (rb_schema b) fields) batches acc
    = nub (seen ++ mjoin ((fun b => fd_name <$> rb_schema b) <$> batches))) as H;
    [|by apply (H [] [])].
  induction batches as [|b batches IH]; intros seen acc Hacc; cbn [fold_left fmap list_fmap mjoin list_join].
  { by rewrite app_nil_r. }
  rewrite app_assoc. apply IH. clear IH. revert seen acc Hacc.
  induction (rb_schema b) as [|f fs IH]; intros seen acc Hacc; cbn; [by rewrite app_nil_r|].
  rewrite cons_middle, app_assoc. apply IH. by rewrite add_field_names, Hacc, nub_snoc.
Qed.

Lemma fill_nullable_name missing batches f : fd_name (fill_nullable missing batches f) = fd_name f.
Proof. unfold fill_nullable. destruct missing; [destruct (forallb _ _)|]; done. Qed.

Lemma field_index_Some s name i :
  field_index s name = Some i -> exists f, s !! i = Some f /\ fd_name f = name.
Proof.
  intros (f & Hf & Hn & _)%position_Some. exists f. split; [done|]. by apply bool_decide_eq_true in Hn.
Qed.

(** How a batch's column appears under the merged type [ty]. *)
Definition column_as (missing : Missing) (name : string) (ty : DataType) (b : RB) (c' : A) : Prop :=
  match column_named b name with
  | Some own => if bool_decide (arr_type own = ty) then c' = own else arr_cast_safe own ty = Ok c'
  | None => match missing with
            | MissingNull => c' = arr_null ty (rb_num_rows b)
            | MissingEmptyString =>
              arr_cast (arr_strings (repeat EmptyString (rb_num_rows b))) ty = Ok c'
            end
  end.

Lemma aligned_column_spec missing b f c :
  aligned_column missing b f = Ok c -> column_as missing (fd_name f) (fd_type f) b c.
Proof.
  unfold aligned_column, column_as, column_named.
  destruct (field_index _ _) as [i|]; cbn; [|destruct missing; congruence].
  destruct (rb_columns b !! i) as [own|]; cbn; [|done]. destruct (bool_decide _); congruence.
Qed.

Lemma column_as_len missing name ty b c :
  column_as missing name ty b c -> arr_len c = rb_num_rows b.
Proof.
  unfold column_as. destruct (column_named b name) as [own|] eqn:E.
  - assert (arr_len own = rb_num_rows b) as Hl.
    { unfold column_named in E. destruct (field_index _ _) as [i|]; [|done]. cbn in E.
      destruct (rb_shape b) as [_ Hf]. by apply (Forall_lookup_1 _ _ _ _ Hf E). }
    destruct (bool_decide _); [by intros ->|]. intros Hc. by rewrite (arr_cast_safe_len _ _ _ Hc).
  - destruct missing; [intros ->; by rewrite arr_null_len|].
    intros Hc. by rewrite (arr_cast_len _ _ _ Hc), arr_strings_len, repeat_length.
Qed.

Lemma align_batch_spec missing schema b b' :
  align_batch missing schema b = Ok b' ->
  rb_schema b' = schema /\ rb_num_rows b' = rb_num_rows b /\
  Forall2 (fun f c => column_as missing (fd_name f) (fd_type f) b c) schema (rb_columns b').
Proof.
  unfold align_batch. destruct (try_map _ schema) as [cols|] eqn:Em; cbn; [|done].
  intros Hn. destruct (rb_try_new_law _ _ _ Hn) as (Hs & Hc & Hne). rewrite Hc.
  assert (Forall2 (fun f c => column_as missing (fd_name f) (fd_type f) b c) schema cols) as Hf.
  { eapply Forall2_impl; [by eapply try_map_Forall2|]. intros f c. apply aligned_column_spec. }
  split_and!; [done| |done]. destruct cols as [|c cols]; [done|].
  destruct (rb_shape b') as [_ Hshape]. rewrite Hc in Hshape. apply Forall_cons in Hshape as [<- _].
  inversion Hf; subst. by eapply column_as_len.
Qed.

(** Stacking batches by column name: the result has every column name of
    any batch exactly once, in the order they first appear, and as many rows
    as the batches have together. The values under a name are, batch after
    batch, the batch's own column of that name (cast when its type is not the
    merged one), or the fill value where the batch has no such column: no
    batch's values end up under another name. *)
Theorem concat_by_name_correct batches missing out :
  concat_by_name batches missing = Ok out ->
  fd_name <$> rb_schema out = nub (mjoin ((fun b => fd_name <$> rb_schema b) <$> batches)) /\
  rb_num_rows out = sum_nat (rb_num_rows <$> batches) /\
  forall name c, column_named out name = Some c ->
    exists ty cols, Forall2 (column_as missing name ty) batches cols /\
      arr_values c = mjoin (arr_values <$> cols).
Proof.
  unfold concat_by_name. set (schema := fill_nullable missing batches <$> merged_fields batches).
  destruct (try_map _ batches) as [aligned|] eqn:Ea; cbn; [|done].
  apply try_map_Forall2 in Ea. intros Hc. destruct (rb_concat_law _ _ _ Hc) as (Hs & Hn & Hv).
  split; [|split].
  - rewrite Hs, <- merged_fields_names. unfold schema. rewrite <- list_fmap_compose.
    apply list_fmap_ext. intros i f _. apply fill_nullable_name.
  - rewrite Hn. f_equal. clearbody schema. clear -Ea AL. induction Ea as [|b b' bs bs' H _ IH]; [done|]. cbn.
    f_equal; [|done]. by apply align_batch_spec in H as (_ & ? & _).
  - intros name c Hname. unfold column_named in Hname. rewrite Hs in Hname.
    destruct (field_index schema name) as [i|] eqn:Ei; [|done]. cbn in Hname.
    destruct (field_index_Some _ _ _ Ei) as (f & Hf & <-). destruct (Hv _ _ Hname) as (cs & Hcs & ->).
    exists (fd_type f), cs. split; [|done]. clearbody schema. clear -Ea Hcs Hf AL.
    revert cs Hcs. induction Ea as [|b b' bs bs' H _ IH]; intros cs Hcs; [by inversion Hcs|].
    inversion Hcs as [|? c' ? cs' Hc' Hcs']; subst. constructor; [|by apply IH].
    apply align_batch_spec in H as (_ & _ & Hcols).
    destruct (Forall2_lookup_l _ _ _ _ _ Hcols Hf) as (c'' & Hc'' & Has). by simplify_eq.
Qed.
(** The [ingest_seq] values of a batch. *)
Definition ingest_seqs (b : RB) : option (list (option N)) :=
  column_named b "ingest_seq" ≫= arr_as_u64.

Lemma field_index_bound (b : RB) name i :
  field_index (rb_schema b) name = Some i -> (i < length (rb_columns b))%nat.
Proof.
  intros (f & Hf & _)%field_index_Some. apply lookup_lt_Some in Hf.
  destruct (rb_shape b) as [-> _]. done.
Qed.

Lemma patch_ingest_seq_column b base b' :
  patch_ingest_seq b base = Ok b' -> rb_num_rows b <> 0%nat ->
  exists col, column_named b "ingest_seq" = Some col /\
    ingest_seqs b' = Some (Some <$> patched_seqs base (rb_num_rows b) (arr_as_u64 col)) /\
    forall name, name <> "ingest_seq" -> column_named b' name = column_named b name.
Proof.
  unfold patch_ingest_seq, ingest_seqs, column_named. intros Hp Hn.
  destruct (Nat.eqb_spec (rb_num_rows b) 0); [done|].
  destruct (field_index (rb_schema b) "ingest_seq") as [i|] eqn:Ei; [|done].
  pose proof (field_index_bound _ _ _ Ei) as Hi. cbn.
  destruct (rb_columns b !! i) as [col|] eqn:Ec; [|done]. exists col. split; [done|].
  destruct (negb _); [done|]. destruct (rb_try_new_law _ _ _ Hp) as (-> & -> & _).
  rewrite Ei. cbn. rewrite list_lookup_insert_eq by done. cbn. rewrite arr_as_u64_law.
  split; [done|]. intros name Hne. destruct (field_index (rb_schema b) name) as [j|] eqn:Ej; [|done].
  cbn. apply list_lookup_insert_ne. intros ->.
  apply field_index_Some in Ei as (f & Hf & Hf1). apply field_index_Some in Ej as (g & Hg & Hg1).
  congruence.
Qed.

Lemma patched_seqs_lookup base n existing i :
  (i < n)%nat ->
  patched_seqs base n existing !! i
  = Some (sat_add base (match existing ≫= (fun l => l !! i) with
                        | Some (Some v) => v | _ => N.of_nat i end)).
Proof.
  intros Hi. unfold patched_seqs. rewrite list_lookup_imap.
  assert (repeat tt n !! i = Some tt) as ->.
  { destruct (lookup_lt_is_Some_2 (repeat tt n) i) as [[] Hx]; [by rewrite repeat_length|done]. }
  cbn. by destruct (existing ≫= _) as [[v|]|].
Qed.

(** Assigning a WAL sequence to a prepared batch writes, for every row,
    the sequence plus the row's relative value (or its position where it has
    none), saturating at [u64::MAX], in the [ingest_seq] column and leaves
    every other column as it was. *)
Theorem patch_ingest_seq_correct b base b' :
  patch_ingest_seq b base = Ok b' -> rb_num_rows b <> 0%nat ->
  exists rel, ingest_seqs b = rel /\
    (forall i, (i < rb_num_rows b)%nat ->
      (l ← ingest_seqs b'; l !! i) = Some (Some (sat_add base
        (match rel ≫= (fun l => l !! i) with Some (Some v) => v | _ => N.of_nat i end)))) /\
    forall name, name <> "ingest_seq" -> column_named b' name = column_named b name.
Proof.
  intros Hp Hn. destruct (patch_ingest_seq_column _ _ _ Hp Hn) as (col & Hc & Hs & Hother).
  eexists. split; [reflexivity|]. split; [|done]. intros i Hi. rewrite Hs. cbn.
  rewrite list_lookup_fmap, patched_seqs_lookup by done. unfold ingest_seqs. by rewrite Hc.
Qed.
End BatchLemmas.

(** ** An in-memory Arrow *)

Inductive Cell :=
| CellU64 (n : N)
| CellStr (s : string)
| CellNull.

Record MemArray := mkArray { ma_type : DataType; ma_cells : list Cell }.

(** The cells of a short column are filled with nulls. *)
Record MemBatch := mkBatch { mb_schema : list Field; mb_rows : nat; mb_cells : list (list Cell) }.

Definition mem_column (n : nat) (f : Field) (cells : list Cell) : MemArray :=
  mkArray (fd_type f) (take n (cells ++ repeat CellNull n)).

Definition mem_columns (b : MemBatch) : list MemArray :=
  imap (fun i f => mem_column (mb_rows b) f (default [] (mb_cells b !! i))) (mb_schema b).

#[local] Arguments mem_column : simpl never.
#[local] Arguments mem_columns : simpl never.

Definition mem_try_new (s : list Field) (cs : list MemArray) : result string MemBatch :=
  match cs with
  | [] => Err "must specify at least one column"
  | c0 :: _ =>
    let n := length (ma_cells c0) in
    if bool_decide (fd_type <$> s = ma_type <$> cs)
       && forallb (fun c => (length (ma_cells c) =? n)%nat) cs
    then Ok (mkBatch s n (ma_cells <$> cs)) else Err "column types or lengths do not match"
  end.

Definition mem_concat (s : list Field) (bs : list MemBatch) : result string MemBatch :=
  if forallb (fun b => (length (mb_schema b) =? length s)%nat) bs
  then Ok (mkBatch s (sum_nat (mb_rows <$> bs))
    (imap (fun i _ => mjoin ((fun b => default [] (ma_cells <$> mem_columns b !! i)) <$> bs)) s))
  else Err "batches do not match the schema".

Definition cell_u64 (c : Cell) : option N := match c with CellU64 n => Some n | _ => None end.

#[export] Instance mem_arrow : Arrow MemArray MemBatch := {
  arr_type := ma_type;
  arr_len c := length (ma_cells c);
  arr_as_u64 c := if bool_decide (ma_type c = UInt64) then Some (cell_u64 <$> ma_cells c) else None;
  arr_from_u64 l := mkArray UInt64 (CellU64 <$> l);
  arr_null t n := mkArray t (repeat CellNull n);
  arr_strings l := mkArray Utf8 (CellStr <$> l);
  arr_cast_safe c t := Ok (mkArray t (ma_cells c));
  arr_cast c t := Ok (mkArray t (ma_cells c));
  rb_schema := mb_schema;
  rb_columns := mem_columns;
  rb_num_rows := mb_rows;
  rb_try_new := mem_try_new;
  rb_concat := mem_concat;
  rb_slice b o n := mkBatch (mb_schema b) (min n (mb_rows b - o))
    ((fun c => take n (drop o (ma_cells c))) <$> mem_columns b)
}.

Lemma mem_column_cells n f cells : length (ma_cells (mem_column n f cells)) = n.
Proof. unfold mem_column. cbn. rewrite length_take, length_app, repeat_length. lia. Qed.

Lemma mem_column_full n f cells :
  length cells = n -> mem_column n f cells = mkArray (fd_type f) cells.
Proof. intros <-. unfold mem_column. by rewrite take_app_length. Qed.

Lemma mem_columns_lookup b i :
  mem_columns b !! i = (fun f => mem_column (mb_rows b) f (default [] (mb_cells b !! i))) <$> mb_schema b !! i.
Proof. unfold mem_columns. by rewrite list_lookup_imap. Qed.

Lemma mem_columns_of s n cs :
  fd_type <$> s = ma_type <$> cs -> (forall c, c ∈ cs -> length (ma_cells c) = n) ->
  mem_columns (mkBatch s n (ma_cells <$> cs)) = cs.
Proof.
  intros Htys Hlen. apply list_eq. intros i. rewrite mem_columns_lookup.
  cbn [mb_rows mb_cells mb_schema].
  assert ((fd_type <$> s) !! i = (ma_type <$> cs) !! i) as Hty by congruence.
  rewrite !list_lookup_fmap in *.
  destruct (s !! i) as [f|], (cs !! i) as [c|] eqn:Ec; simplify_eq/=; [|done].
  f_equal. rewrite mem_column_full; [by rewrite Hty; destruct c|].
  apply Hlen. by apply list_elem_of_lookup_2 in Ec.
Qed.

Lemma mem_try_new_spec s cs b :
  mem_try_new s cs = Ok b -> mb_schema b = s /\ mem_columns b = cs /\ cs <> [].
Proof.
  unfold mem_try_new. destruct cs as [|c0 cs0]; [done|].
  destruct (_ && _) eqn:Hok; [|done]. intros [= <-].
  apply andb_true_iff in Hok as [Htys%bool_decide_eq_true Hlen].
  split; [done|]. split; [|done]. apply (mem_columns_of _ _ (c0 :: cs0)); [done|].
  intros c Hc. rewrite forallb_elem_of in Hlen. by apply Nat.eqb_eq, Hlen.
Qed.

Lemma mem_concat_spec s bs b :
  mem_concat s bs = Ok b ->
  mb_schema b = s /\ mb_rows b = sum_nat (mb_rows <$> bs) /\
  forall i c, mem_columns b !! i = Some c ->
    exists cs, Forall2 (fun b' c' => mem_columns b' !! i = Some c') bs cs /\
      ma_cells c = mjoin (ma_cells <$> cs).
Proof.
  unfold mem_concat. destruct (forallb _ bs) eqn:Hok; [|done]. intros [= <-]. cbn.
  split_and!; [done..|]. intros i c Hc. rewrite mem_columns_lookup in Hc. cbn in Hc.
  rewrite list_lookup_imap in Hc. destruct (s !! i) as [f|] eqn:Ef; [|done]. cbn in Hc. simplify_eq.
  assert (exists cs, Forall2 (fun b' c' => mem_columns b' !! i = Some c') bs cs) as [cs Hcs].
  { rewrite forallb_elem_of in Hok. apply lookup_lt_Some in Ef.
    induction bs as [|b bs IH]; [exists []; constructor|].
    destruct IH as [cs Hcs]; [intros; apply Hok; by right|].
    specialize (Hok b ltac:(by left)). apply Nat.eqb_eq in Hok.
    destruct (lookup_lt_is_Some_2 (mem_columns b) i) as [c Hc]; [|exists (c :: cs); by constructor].
    unfold mem_columns. rewrite length_imap. lia. }
  exists cs. split; [done|]. clear Hok Ef.
  rewrite mem_column_full; cbn.
  - induction Hcs as [|b c bs cs Hb _ IH]; [done|]. cbn. rewrite Hb. cbn. by f_equal.
  - induction Hcs as [|b c bs cs Hb _ IH]; [done|]. cbn. rewrite Hb. cbn.
    rewrite length_app. cbn. f_equal; [|exact IH]. rewrite mem_columns_lookup in Hb.
    destruct (mb_schema b !! i); [|done]. cbn in Hb. simplify_eq. apply mem_column_cells.
Qed.

#[export] Program Instance mem_arrow_laws : ArrowLaws MemArray MemBatch Cell := {
  arr_values := ma_cells
}.
Next Obligation. done. Qed.
Next Obligation.
  intros l. cbn. f_equal. rewrite <- list_fmap_compose. by apply list_fmap_ext.
Qed.
Next Obligation. intros l. cbn. by rewrite length_fmap. Qed.
Next Obligation. intros t n. cbn. by rewrite repeat_length. Qed.
Next Obligation. intros l. cbn. by rewrite length_fmap. Qed.
Next Obligation. by intros c t c' [= <-]. Qed.
Next Obligation. by intros c t c' [= <-]. Qed.
Next Obligation.
  intros b. cbn. unfold mem_columns. rewrite length_imap. split; [done|].
  apply Forall_lookup_2. intros i c Hc. rewrite list_lookup_imap in Hc.
  destruct (mb_schema b !! i); [|done]. cbn in Hc. simplify_eq. apply mem_column_cells.
Qed.
Next Obligation. apply mem_try_new_spec. Qed.
Next Obligation. apply mem_concat_spec. Qed.

(** A write with field [used] and one with field [free]. *)
Definition used_batch : MemBatch :=
  mkBatch [mkField "ingest_seq" UInt64 false; mkField "used" Float64 true] 2
    [[CellU64 0; CellU64 1]; [CellU64 5; CellU64 6]].

Definition free_batch : MemBatch :=
  mkBatch [mkField "ingest_seq" UInt64 false; mkField "free" Float64 true] 1
    [[CellU64 0]; [CellU64 7]].

Definition stacked_batch : MemBatch :=
  mkBatch [mkField "ingest_seq" UInt64 false; mkField "used" Float64 true; mkField "free" Float64 true] 3
    [[CellU64 0; CellU64 1; CellU64 0]; [CellU64 5; CellU64 6; CellNull];
     [CellNull; CellNull; CellU64 7]].

Lemma concat_by_name_witness :
  concat_by_name [used_batch; free_batch] MissingNull = Ok stacked_batch /\
  rb_num_rows stacked_batch = 3%nat.
Proof.
  assert (concat_by_name [used_batch; free_batch] MissingNull = Ok stacked_batch) as E
    by (vm_compute; reflexivity).
  split; [done|]. destruct (concat_by_name_correct _ _ _ E) as (_ & -> & _). reflexivity.
Defined.

Definition patched_used : MemBatch :=
  mkBatch (mb_schema used_batch) 2 [[CellU64 10; CellU64 11]; [CellU64 5; CellU64 6]].

Lemma patch_ingest_seq_witness :
  patch_ingest_seq used_batch 10 = Ok patched_used /\
  column_named patched_used "used" = column_named used_batch "used".
Proof.
  assert (patch_ingest_seq used_batch 10 = Ok patched_used) as E by (vm_compute; reflexivity).
  split; [done|]. destruct (patch_ingest_seq_correct _ _ _ E ltac:(done)) as (rel & _ & _ & H).
  by apply H.
Defined.

(** A write does not always get a higher [ingest_seq] than an earlier
    one: a row of WAL entry 10 gets 11 or more when it is not the first of its
    write, so a single-row overwrite in entry 11 ties with it, and loses to
    any later row. The fact tables keep the row with the highest
    [ingest_seq]. *)
Theorem overwrite_gets_lower_ingest_seq :
  let old := mkSlot "db" "rp" 0 [mkPrepared "m" "t" "t_series" (mkBatch
               [mkField "ingest_seq" UInt64 false] 3 [[CellU64 0; CellU64 1; CellU64 2]]) 3 0 0 None] in
  let new := mkSlot "db" "rp" 0 [mkPrepared "m" "t" "t_series" (mkBatch
               [mkField "ingest_seq" UInt64 false] 1 [[CellU64 0]]) 1 0 0 None] in
  (slot ← patch_all_ingest_seqs old 10;
   mret ((fun m => ingest_seqs (pb_batch m)) <$> sl_measurements slot))
    = Ok [Some [Some 10; Some 11; Some 12]] /\
  (slot ← patch_all_ingest_seqs new 11;
   mret ((fun m => ingest_seqs (pb_batch m)) <$> sl_measurements slot))
    = Ok [Some [Some 11]].
Proof. vm_compute. done. Qed.
