(* ===== verification/WalIpc.v ===== *)
(** * The WAL value codec

    [adapters/wal/wal_ipc.rs] with the types it stores ([domain/wal.rs],
    [ports/wal.rs]): a WAL value is a bincode [WalEntry] or, in the Arrow IPC
    format, a versioned binary slot that embeds one Arrow stream per
    measurement and the bincode entry. Arrow's stream format and bincode are
    the classes [ArrowIpc] and [Bincode] with their round-trip laws. *)

From Stdlib Require Import Ascii String.
From stdpp Require Import prelude list strings gmap.
From S2P Require Import Prelude Bytes Wire Points Arrow.
From stdpp Require Import options.

#[local] Open Scope N_scope.

Record WalEntry := mkWalEntry {
  we_database : string;
  we_retention_policy : string;
  we_points : list Point;
  we_origin_node_id : N
}.

#[export] Instance wal_entry_eq_dec : EqDecision WalEntry.
Proof. solve_decision. Defined.

(** [struct LegacyWalEntry]: an entry from before [origin_node_id]. *)
Record LegacyWalEntry := mkLegacyWalEntry {
  le_database : string;
  le_retention_policy : string;
  le_points : list Point
}.

Inductive WalFormat := WfBincode | WfArrowIpc.

#[export] Instance wal_format_eq_dec : EqDecision WalFormat.
Proof. solve_decision. Defined.

Definition is_ascii_space (c : N) : bool :=
  existsb (N.eqb c) [9; 10; 11; 12; 13; 32].

Fixpoint trim_start (s : bytes) : bytes :=
  match s with
  | c :: s' => if is_ascii_space c then trim_start s' else s
  | [] => []
  end.

(** [str::trim] of a string of ASCII characters. *)
Definition trim (s : bytes) : bytes := rev (trim_start (rev (trim_start s))).

Definition to_ascii_lowercase (s : bytes) : bytes :=
  (fun c => if (65 <=? c) && (c <=? 90) then c + 32 else c) <$> s.

(** [WalFormat::from_config]. *)
Definition wal_format_from_config (s : string) : WalFormat :=
  let t := bytes_str (to_ascii_lowercase (trim (str_bytes s))) in
  if bool_decide (t ∈ ["arrow_ipc"; "arrow-ipc"; "ipc"]) then WfArrowIpc else WfBincode.

(** [HyperbytedbError::Wal] and the internal errors of the patching code. *)
Inductive WalError :=
| WeStringTooLong
| WeEof
| WeUtf8
| WeIpc (context e : string)
| WeIpcEmpty
| WeBincode (e : string)
| WeMagic
| WeVersion (v : N)
| WeLength (what : string) (len remaining : N)
| WeSlotRequired
| WeLegacyMissing
| WeDb (e : string)
| WeKeyLength (n : nat)
| WePatch (e : string)
| WeCorrupt (e : string).

(** bincode on WAL entries. *)
Class Bincode := {
  bincode_serialize : WalEntry -> result string bytes;
  bincode_deserialize : bytes -> result string WalEntry;
  bincode_deserialize_legacy : bytes -> result string LegacyWalEntry
}.

(** [StreamWriter] over one batch; [StreamReader] as the list of what its
    iterator yields. *)
Class ArrowIpc (RB : Type) := {
  ipc_write : RB -> result string bytes;
  ipc_read : bytes -> result string (list (result string RB))
}.

Definition MAGIC : bytes := [72; 66; 87; 65].
Definition VERSION : N := 1.

(** ** Encoding *)

Definition write_string (s : string) : result WalError bytes :=
  let b := str_bytes s in
  if 65535 <? N.of_nat (length b) then Err WeStringTooLong
  else Ok (le_bytes 2 (N.of_nat (length b)) ++ b).

(** A length as [u32]. *)
Definition u32_len {A} (l : list A) : bytes := le_bytes 4 (N.of_nat (length l)).

Section Codec.
Context {RB : Type} `{AI : !ArrowIpc RB} `{BC : !Bincode}.

Definition encode_record_batch (b : RB) : result WalError bytes :=
  map_err (WeIpc "IPC encode") (ipc_write b).

Definition decode_record_batch (bs : bytes) : result WalError RB :=
  reader ← map_err (WeIpc "IPC decode") (ipc_read bs);
  match reader with
  | [] => Err WeIpcEmpty
  | r :: _ => map_err (WeIpc "IPC decode batch") r
  end.

Definition encode_measurement (m : PreparedMeasurementBatch RB) : result WalError bytes :=
  measurement ← write_string (pb_measurement m);
  table_name ← write_string (pb_table_name m);
  series_table_name ← write_string (pb_series_table_name m);
  fact_ipc ← encode_record_batch (pb_batch m);
  series_ipc ← match pb_new_series m with
               | Some sb => encode_record_batch sb
               | None => Ok []
               end;
  mret (measurement ++ table_name ++ series_table_name
    ++ le_bytes 4 (N.of_nat (pb_row_count m))
    ++ le_bytes 8 (i64_bits (pb_min_time m)) ++ le_bytes 8 (i64_bits (pb_max_time m))
    ++ u32_len fact_ipc ++ fact_ipc ++ u32_len series_ipc ++ series_ipc).

Definition encode_prepared_slot (slot : PreparedWalSlot RB) (legacy_entry : option WalEntry)
    : result WalError bytes :=
  database ← write_string (sl_database slot);
  retention_policy ← write_string (sl_retention_policy slot);
  measurements ← try_map encode_measurement (sl_measurements slot);
  legacy ← match legacy_entry with
           | Some e => map_err WeBincode (bincode_serialize e)
           | None => Ok []
           end;
  mret (MAGIC ++ [VERSION] ++ database ++ retention_policy
    ++ le_bytes 8 (sl_origin_node_id slot) ++ u32_len (sl_measurements slot)
    ++ mjoin measurements ++ u32_len legacy ++ legacy).

(** ** Decoding *)

Definition read_string : Parser WalError string :=
  len ← read_le WeEof 2;
  buf ← read_exact WeEof (N.to_nat len);
  if utf8_valid buf then mret (bytes_str buf) else parse_fail WeUtf8.

(** A length and that many bytes, the length checked against what is left. *)
Definition read_sized (what : string) (len : N) : Parser WalError bytes :=
  remaining ← parse_remaining;
  if N.of_nat remaining <? len then parse_fail (WeLength what len (N.of_nat remaining))
  else read_exact WeEof (N.to_nat len).

Definition read_series : Parser WalError (option RB) :=
  series_len ← read_le WeEof 4;
  if 0 <? series_len then
    series_ipc ← read_sized "series_ipc" series_len;
    b ← parse_lift (decode_record_batch series_ipc);
    mret (Some b)
  else mret None.

Definition read_measurement : Parser WalError (PreparedMeasurementBatch RB) :=
  measurement ← read_string;
  table_name ← read_string;
  series_table_name ← read_string;
  row_count ← read_le WeEof 4;
  min_time ← read_le WeEof 8;
  max_time ← read_le WeEof 8;
  fact_len ← read_le WeEof 4;
  fact_ipc ← read_sized "fact_ipc" fact_len;
  batch ← parse_lift (decode_record_batch fact_ipc);
  new_series ← read_series;
  mret (mkPrepared measurement table_name series_table_name batch (N.to_nat row_count)
          (bits_i64 min_time) (bits_i64 max_time) new_series).

Definition read_legacy : Parser WalError (option WalEntry) :=
  legacy_len ← read_le WeEof 4;
  if 0 <? legacy_len then
    legacy ← read_sized "legacy entry" legacy_len;
    e ← parse_lift (map_err WeBincode (bincode_deserialize legacy));
    mret (Some e)
  else mret None.

Definition read_slot : Parser WalError (PreparedWalSlot RB * option WalEntry) :=
  database ← read_string;
  retention_policy ← read_string;
  origin_node_id ← read_le WeEof 8;
  measurement_count ← read_le WeEof 4;
  measurements ← parse_times (N.to_nat measurement_count) read_measurement;
  legacy_entry ← read_legacy;
  mret (mkSlot database retention_policy origin_node_id measurements, legacy_entry).

Definition decode_prepared_slot (bs : bytes)
    : result WalError (PreparedWalSlot RB * option WalEntry) :=
  if (length bs <? 5)%nat || negb (bool_decide (take 4 bs = MAGIC)) then Err WeMagic
  else
    match bs !! 4%nat with
    | None => Err WeMagic
    | Some version =>
      if negb (version =? VERSION) then Err (WeVersion version)
      else '(r, _) ← read_slot (drop 5 bs); mret r
    end.

(** ** Both formats *)

Definition encode_wal_value (format : WalFormat) (slot : option (PreparedWalSlot RB)) (entry : WalEntry)
    : result WalError bytes :=
  match format with
  | WfBincode => map_err WeBincode (bincode_serialize entry)
  | WfArrowIpc =>
    match slot with
    | None => Err WeSlotRequired
    | Some slot => encode_prepared_slot slot (Some entry)
    end
  end.

Definition decode_wal_value (format : WalFormat) (bs : bytes)
    : result WalError (option (PreparedWalSlot RB) * WalEntry) :=
  match format with
  | WfBincode => entry ← map_err WeBincode (bincode_deserialize bs); mret (None, entry)
  | WfArrowIpc =>
    '(slot, legacy) ← decode_prepared_slot bs;
    entry ← ok_or WeLegacyMissing legacy;
    mret (Some slot, entry)
  end.

End Codec.

(** ** Round trip *)

(** What a serialized entry promises: it is not empty and reads back. *)
Class BincodeLaws `{Bincode} := {
  bincode_roundtrip : forall e b, bincode_serialize e = Ok b -> bincode_deserialize b = Ok e;
  bincode_nonempty : forall e b, bincode_serialize e = Ok b -> b <> [];
  bincode_bytes : forall e b, bincode_serialize e = Ok b -> Forall byte_ok b
}.

(** An Arrow stream of one batch: a schema message, so not empty, then the
    batch. *)
Class ArrowIpcLaws (RB : Type) `{ArrowIpc RB} := {
  ipc_roundtrip : forall b bs, ipc_write b = Ok bs -> ipc_read bs = Ok [Ok b];
  ipc_nonempty : forall b bs, ipc_write b = Ok bs -> bs <> [];
  ipc_bytes : forall b bs, ipc_write b = Ok bs -> Forall byte_ok bs
}.

(** A length that [as u32] keeps. *)
Definition fits_u32 {A} (l : list A) : Prop := N.of_nat (length l) < 4294967296.

Section RoundTrip.
Context {RB : Type} `{AI : !ArrowIpc RB} `{BC : !Bincode}.
Context `{AIL : !ArrowIpcLaws RB} `{BL : !BincodeLaws}.
#[local] Set Default Proof Using "Type*".

(** Names are Rust strings, numbers are in the range of their types, and the
    embedded streams are below 4 GiB. *)
Definition measurement_fits (m : PreparedMeasurementBatch RB) : Prop :=
  utf8 (pb_measurement m) /\ utf8 (pb_table_name m) /\ utf8 (pb_series_table_name m) /\
  N.of_nat (pb_row_count m) < 4294967296 /\ i64_ok (pb_min_time m) /\ i64_ok (pb_max_time m) /\
  (forall bs, ipc_write (pb_batch m) = Ok bs -> fits_u32 bs) /\
  (forall b bs, pb_new_series m = Some b -> ipc_write b = Ok bs -> fits_u32 bs).

Definition slot_fits (slot : PreparedWalSlot RB) : Prop :=
  utf8 (sl_database slot) /\ utf8 (sl_retention_policy slot) /\
  sl_origin_node_id slot <= u64_max /\ fits_u32 (sl_measurements slot) /\
  Forall measurement_fits (sl_measurements slot).

Definition entry_fits (e : WalEntry) : Prop :=
  forall bs, bincode_serialize e = Ok bs -> fits_u32 bs.

Lemma reads_string s b : write_string s = Ok b -> utf8 s -> reads read_string b s.
Proof.
  unfold write_string. destruct (N.ltb_spec 65535 (N.of_nat (length (str_bytes s)))); [done|].
  intros <-%Ok_inj Hu. eapply reads_bind; [apply reads_le; cbn; lia|].
  rewrite Nat2N.id. eapply reads_bind_last; [by apply reads_exact|].
  rewrite Hu. intros c. unfold mret, parser_ret. by rewrite str_bytes_str.
Qed.

Lemma reads_sized what b : reads (read_sized what (N.of_nat (length b))) b b.
Proof.
  intros c. unfold read_sized, mbind, parser_bind, parse_remaining. cbn. rewrite length_app.
  destruct (N.ltb_spec (N.of_nat (length b + length c)) (N.of_nat (length b))); [lia|].
  rewrite Nat2N.id. by apply read_exact_app.
Qed.

Lemma encode_record_batch_ok (b : RB) bs :
  encode_record_batch b = Ok bs -> ipc_write b = Ok bs /\ decode_record_batch bs = Ok b.
Proof.
  unfold encode_record_batch, decode_record_batch. destruct (ipc_write b) as [x|] eqn:E; [|done].
  cbn. intros [= ->]. split; [done|]. by rewrite (ipc_roundtrip _ _ E).
Qed.

Lemma pos_length {A} (l : list A) : l <> [] -> (0 <? N.of_nat (length l)) = true.
Proof. intros Hl. apply N.ltb_lt. destruct l; [done|]. cbn. lia. Qed.

Lemma reads_series (o : option RB) bs :
  match o with Some sb => encode_record_batch sb | None => Ok [] end = Ok bs ->
  (forall b bs, o = Some b -> ipc_write b = Ok bs -> fits_u32 bs) ->
  reads read_series (u32_len bs ++ bs) o.
Proof.
  destruct o as [b|]; intros E Hfit.
  - apply encode_record_batch_ok in E as [Ew Ed].
    eapply reads_bind; [apply reads_le; by eapply Hfit|].
    rewrite pos_length by (by eapply ipc_nonempty).
    eapply reads_bind_last; [apply reads_sized|].
    eapply reads_bind_last; [by apply reads_lift|]. apply reads_ret.
  - simplify_eq. eapply reads_bind; [by apply reads_le|]. apply reads_ret.
Qed.

Lemma reads_measurement m bs :
  encode_measurement m = Ok bs -> measurement_fits m -> reads read_measurement bs m.
Proof.
  intros E (H1 & H2 & H3 & Hrows & Hmin & Hmax & Hfact & Hseries). unfold encode_measurement in E.
  destruct (write_string (pb_measurement m)) as [b1|] eqn:E1; [|done]. cbn in E.
  destruct (write_string (pb_table_name m)) as [b2|] eqn:E2; [|done]. cbn in E.
  destruct (write_string (pb_series_table_name m)) as [b3|] eqn:E3; [|done]. cbn in E.
  destruct (encode_record_batch (pb_batch m)) as [b4|] eqn:E4; [|done]. cbn in E.
  destruct (match pb_new_series m with Some _ => _ | None => _ end) as [b5|] eqn:E5; [|done].
  cbn in E. apply Ok_inj in E as <-. apply encode_record_batch_ok in E4 as [E4w E4d].
  apply (reads_bind _ _ _ _ _ _ (reads_string _ _ E1 H1)).
  apply (reads_bind _ _ _ _ _ _ (reads_string _ _ E2 H2)).
  apply (reads_bind _ _ _ _ _ _ (reads_string _ _ E3 H3)).
  eapply reads_bind; [by apply reads_le|].
  eapply reads_bind; [apply reads_le, i64_bits_lt|].
  eapply reads_bind; [apply reads_le, i64_bits_lt|].
  eapply reads_bind; [apply reads_le; by apply Hfact|].
  eapply reads_bind; [apply reads_sized|].
  eapply reads_bind_none; [by apply reads_lift|].
  apply (reads_bind_last _ _ _ _ _ (reads_series _ _ E5 Hseries)).
  rewrite Nat2N.id, !i64_roundtrip by done. intros c. by destruct m.
Qed.

Lemma reads_measurements ms bss :
  try_map encode_measurement ms = Ok bss -> Forall measurement_fits ms ->
  reads (parse_times (length ms) read_measurement) (mjoin bss) ms.
Proof.
  intros E%try_map_Forall2 Hfit. induction E as [|m bs ms bss Em _ IH]; [apply reads_ret|].
  apply Forall_cons in Hfit as [Hm Hms].
  eapply reads_bind; [by eapply reads_measurement|].
  eapply reads_bind_last; [by apply IH|]. apply reads_ret.
Qed.

Lemma reads_legacy (o : option WalEntry) bs :
  match o with Some e => map_err WeBincode (bincode_serialize e) | None => Ok [] end = Ok bs ->
  match o with Some e => entry_fits e | None => True end ->
  reads read_legacy (u32_len bs ++ bs) o.
Proof.
  destruct o as [e|]; intros E Hfit.
  - destruct (bincode_serialize e) as [x|] eqn:Es; [|done]. cbn in E. injection E as ->.
    eapply reads_bind; [apply reads_le; by apply Hfit|].
    rewrite pos_length by (by eapply bincode_nonempty).
    eapply reads_bind_last; [apply reads_sized|].
    eapply reads_bind_last; [|apply reads_ret].
    apply reads_lift. by rewrite (bincode_roundtrip _ _ Es).
  - simplify_eq. eapply reads_bind; [by apply reads_le|]. apply reads_ret.
Qed.

Lemma decode_encode_slot slot legacy bs :
  encode_prepared_slot slot legacy = Ok bs -> slot_fits slot ->
  match legacy with Some e => entry_fits e | None => True end ->
  decode_prepared_slot bs = Ok (slot, legacy).
Proof.
  intros E (H1 & H2 & Ho & Hlen & Hms) Hleg. unfold encode_prepared_slot in E.
  destruct (write_string (sl_database slot)) as [b1|] eqn:E1; [|done]. cbn in E.
  destruct (write_string (sl_retention_policy slot)) as [b2|] eqn:E2; [|done]. cbn in E.
  destruct (try_map encode_measurement _) as [bss|] eqn:E3; [|done]. cbn in E.
  destruct (match legacy with Some _ => _ | None => _ end) as [b4|] eqn:E4; [|done].
  cbn in E. apply Ok_inj in E as <-.
  assert (reads read_slot (b1 ++ b2 ++ le_bytes 8 (sl_origin_node_id slot)
    ++ u32_len (sl_measurements slot) ++ mjoin bss ++ u32_len b4 ++ b4) (slot, legacy)) as Hr.
  { apply (reads_bind _ _ _ _ _ _ (reads_string _ _ E1 H1)).
    apply (reads_bind _ _ _ _ _ _ (reads_string _ _ E2 H2)).
    eapply reads_bind; [apply reads_le; unfold u64_max in Ho; cbn; lia|].
    eapply reads_bind; [by apply reads_le|]. rewrite Nat2N.id.
    apply (reads_bind _ _ _ _ _ _ (reads_measurements _ _ E3 Hms)).
    apply (reads_bind_last _ _ _ _ _ (reads_legacy _ _ E4 Hleg)). intros c. by destruct slot. }
  unfold decode_prepared_slot. cbn [MAGIC app length Nat.ltb Nat.leb take].
  rewrite bool_decide_true by done. cbn [negb orb lookup list_lookup N.eqb VERSION Pos.eqb drop].
  specialize (Hr []). rewrite app_nil_r in Hr. rewrite drop_0. by rewrite Hr.
Qed.

Lemma write_string_bytes s b : write_string s = Ok b -> Forall byte_ok b.
Proof.
  unfold write_string. destruct (_ <? _); [done|]. intros <-%Ok_inj.
  apply Forall_app. split; [apply le_bytes_ok|apply utf8_bytes].
Qed.

Lemma encode_record_batch_bytes (b : RB) bs : encode_record_batch b = Ok bs -> Forall byte_ok bs.
Proof. intros [Hw _]%encode_record_batch_ok. by eapply ipc_bytes. Qed.

Lemma encode_measurement_bytes (m : PreparedMeasurementBatch RB) bs :
  encode_measurement m = Ok bs -> Forall byte_ok bs.
Proof.
  unfold encode_measurement.
  destruct (write_string (pb_measurement m)) as [b1|] eqn:E1; [|done]. cbn.
  destruct (write_string (pb_table_name m)) as [b2|] eqn:E2; [|done]. cbn.
  destruct (write_string (pb_series_table_name m)) as [b3|] eqn:E3; [|done]. cbn.
  destruct (encode_record_batch (pb_batch m)) as [b4|] eqn:E4; [|done]. cbn.
  destruct (match pb_new_series m with Some _ => _ | None => _ end) as [b5|] eqn:E5; [|done].
  cbn. intros <-%Ok_inj. rewrite !Forall_app. apply write_string_bytes in E1, E2, E3.
  apply encode_record_batch_bytes in E4. split_and!; try done; try apply le_bytes_ok.
  destruct (pb_new_series m); [by eapply encode_record_batch_bytes|]. by injection E5 as <-.
Qed.

Lemma encode_wal_value_bytes format (slot : option (PreparedWalSlot RB)) entry bs :
  encode_wal_value format slot entry = Ok bs -> Forall byte_ok bs.
Proof.
  destruct format; cbn.
  { destruct (bincode_serialize entry) eqn:E; [|done]. intros <-%Ok_inj. by eapply bincode_bytes. }
  destruct slot as [sl|]; [|done]. unfold encode_prepared_slot.
  destruct (write_string (sl_database sl)) as [b1|] eqn:E1; [|done]. cbn.
  destruct (write_string (sl_retention_policy sl)) as [b2|] eqn:E2; [|done]. cbn.
  destruct (try_map encode_measurement _) as [bss|] eqn:E3; [|done]. cbn.
  destruct (bincode_serialize entry) as [b4|] eqn:E4; [|done]. cbn. intros <-%Ok_inj.
  apply write_string_bytes in E1, E2. apply try_map_Forall2 in E3.
  repeat (apply Forall_cons; split; [done|]). rewrite !Forall_app.
  split_and!; try done; try apply le_bytes_ok; [|by eapply bincode_bytes].
  induction E3 as [|m b ms bss Em _ IH]; [constructor|]. apply Forall_app.
  split; [by eapply encode_measurement_bytes|done].
Qed.

Lemma wal_value_decodes format (slot : option (PreparedWalSlot RB)) entry bs :
  encode_wal_value format slot entry = Ok bs ->
  (forall s, format = WfArrowIpc -> slot = Some s -> slot_fits s) -> entry_fits entry ->
  decode_wal_value format bs
  = Ok (match format with WfBincode => None | WfArrowIpc => slot end, entry).
Proof.
  destruct format; cbn; intros E Hs He.
  - destruct (bincode_serialize entry) as [b|] eqn:Eb; [|done]. cbn in E. injection E as ->.
    by rewrite (bincode_roundtrip _ _ Eb).
  - destruct slot as [s|]; [|done].
    by rewrite (decode_encode_slot _ _ _ E (Hs s eq_refl eq_refl) He).
Qed.

(** A WAL value decodes to exactly what was encoded, in both formats: the
    entry, and in the Arrow IPC format also the prepared slot with its
    batches. The slot's names must be at most 65535 bytes long (or encoding
    fails) and its embedded streams below 4 GiB. *)
Theorem wal_value_roundtrip format (slot : option (PreparedWalSlot RB)) entry bs :
  encode_wal_value format slot entry = Ok bs ->
  (forall s, slot = Some s -> slot_fits s) -> entry_fits entry ->
  decode_wal_value format bs
  = Ok (match format with WfBincode => None | WfArrowIpc => slot end, entry).
Proof. intros E Hs. eapply wal_value_decodes; eauto. Qed.

End RoundTrip.

(** ** Concrete codecs *)

(** The bits of a number, one per byte, as a stand-in for a serializer. *)
Fixpoint bit_bytes (p : positive) : bytes :=
  match p with
  | xH => [2]
  | xO p' => 0 :: bit_bytes p'
  | xI p' => 1 :: bit_bytes p'
  end.

Fixpoint bytes_pos (b : bytes) : option positive :=
  match b with
  | [] => None
  | 2 :: _ => Some xH
  | 0 :: b' => xO <$> bytes_pos b'
  | _ :: b' => xI <$> bytes_pos b'
  end.

Lemma bytes_pos_bit_bytes p : bytes_pos (bit_bytes p) = Some p.
Proof. induction p as [p IH|p IH|]; cbn; [by rewrite IH..|done]. Qed.

Lemma bit_bytes_ok p : Forall byte_ok (bit_bytes p).
Proof. induction p; cbn; repeat constructor; done. Qed.

#[export] Instance field_value_countable : Countable FieldValue :=
  inj_countable' (fun v => match v with
    | FFloat b => inl (inl b) | FInteger i => inl (inr (inl i)) | FUInteger u => inl (inr (inr u))
    | FString s => inr (inl s) | FBoolean b => inr (inr b) end)
  (fun x => match x with
    | inl (inl b) => FFloat b | inl (inr (inl i)) => FInteger i | inl (inr (inr u)) => FUInteger u
    | inr (inl s) => FString s | inr (inr b) => FBoolean b end) ltac:(by intros []).

#[export] Instance point_countable : Countable Point :=
  inj_countable' (fun p => (pt_measurement p, pt_tags p, pt_fields p, pt_timestamp p))
    (fun '(m, t, f, z) => mkPoint m t f z) ltac:(by intros []).

#[export] Instance wal_entry_countable : Countable WalEntry :=
  inj_countable' (fun e => (we_database e, we_retention_policy e, we_points e, we_origin_node_id e))
    (fun '(d, r, p, o) => mkWalEntry d r p o) ltac:(by intros []).

(** A current entry starts with 0, a legacy one with 1. *)
#[export] Instance mem_bincode : Bincode := {
  bincode_serialize e := Ok (0 :: bit_bytes (encode e));
  bincode_deserialize b :=
    match b with
    | 0 :: b' => ok_or "invalid entry" (bytes_pos b' ≫= decode)
    | _ => Err "invalid entry"
    end;
  bincode_deserialize_legacy b :=
    match b with
    | 1 :: b' => ok_or "invalid entry" ((fun '(d, r, p) => mkLegacyWalEntry d r p)
                   <$> (bytes_pos b' ≫= decode))
    | _ => Err "invalid entry"
    end
}.

#[export] Instance mem_bincode_laws : BincodeLaws.
Proof.
  split.
  - intros e b [= <-]. cbn. rewrite bytes_pos_bit_bytes. cbn. by rewrite decode_encode.
  - by intros e b [= <-].
  - intros e b [= <-]. constructor; [done|]. apply bit_bytes_ok.
Qed.

#[export] Instance data_type_countable : Countable DataType.
Proof.
  refine (inj_countable' (fix go t := match t with
    | Float64 => GenLeaf (inl 0) | Int64 => GenLeaf (inl 1) | UInt64 => GenLeaf (inl 2)
    | Utf8 => GenLeaf (inl 3) | Dictionary k v => GenNode 0 [go k; go v]
    | OtherType s => GenLeaf (inr s) end)
  (fix go t := match t with
    | GenLeaf (inl 0) => Float64 | GenLeaf (inl 1) => Int64 | GenLeaf (inl 2) => UInt64
    | GenNode _ [k; v] => Dictionary (go k) (go v)
    | GenLeaf (inr s) => OtherType s | _ => Utf8 end) _).
  intros t. induction t; cbn; congruence.
Defined.

#[export] Instance field_countable : Countable Field :=
  inj_countable' (fun f => (fd_name f, fd_type f, fd_nullable f))
    (fun '(n, t, b) => mkField n t b) ltac:(by intros []).

#[export] Instance cell_eq_dec : EqDecision Cell.
Proof. solve_decision. Defined.

#[export] Instance cell_countable : Countable Cell :=
  inj_countable' (fun c => match c with CellU64 n => inl n | CellStr s => inr (Some s) | CellNull => inr None end)
    (fun x => match x with inl n => CellU64 n | inr (Some s) => CellStr s | inr None => CellNull end)
    ltac:(by intros []).

#[export] Instance mem_batch_eq_dec : EqDecision MemBatch.
Proof. solve_decision. Defined.

#[export] Instance mem_batch_countable : Countable MemBatch :=
  inj_countable' (fun b => (mb_schema b, mb_rows b, mb_cells b))
    (fun '(s, n, c) => mkBatch s n c) ltac:(by intros []).

#[export] Instance mem_ipc : ArrowIpc MemBatch := {
  ipc_write b := Ok (bit_bytes (encode b));
  ipc_read b := match bytes_pos b ≫= decode with
                | Some x => Ok [Ok x]
                | None => Err "invalid stream"
                end
}.

#[export] Instance mem_ipc_laws : ArrowIpcLaws MemBatch.
Proof.
  split.
  - intros b bs [= <-]. cbn. rewrite bytes_pos_bit_bytes. cbn. by rewrite decode_encode.
  - intros b bs [= <-]. by destruct (encode b).
  - intros b bs [= <-]. apply bit_bytes_ok.
Qed.

Definition sample_entry : WalEntry := mkWalEntry "db" "autogen" [] 3.

Definition sample_slot : PreparedWalSlot MemBatch :=
  mkSlot "db" "autogen" 3
    [mkPrepared "mem" "db_autogen_mem" "db_autogen_mem_series" free_batch 1 (-5) 7 (Some free_batch)].

Lemma sample_slot_fits : slot_fits sample_slot.
Proof.
  assert (fits_u32 (bit_bytes (encode free_batch))) as Hfit by (vm_compute; reflexivity).
  unfold slot_fits. do 2 (split; [vm_compute; reflexivity|]). split; [vm_compute; congruence|].
  split; [vm_compute; reflexivity|]. apply Forall_singleton. unfold measurement_fits.
  do 4 (split; [vm_compute; reflexivity|]). do 2 (split; [vm_compute; split; congruence|]). split.
  - intros bs <-%Ok_inj. exact Hfit.
  - intros b bs Hb <-%Ok_inj. assert (b = free_batch) as -> by (cbn in Hb; congruence). exact Hfit.
Qed.

Lemma wal_value_roundtrip_witness :
  exists bs, encode_wal_value WfArrowIpc (Some sample_slot) sample_entry = Ok bs /\
    decode_wal_value WfArrowIpc bs = Ok (Some sample_slot, sample_entry).
Proof.
  destruct (encode_wal_value WfArrowIpc (Some sample_slot) sample_entry) as [bs|e] eqn:E;
    [|exfalso; vm_compute in E; congruence].
  exists bs. split; [done|]. apply (wal_value_roundtrip WfArrowIpc (Some sample_slot) sample_entry bs E).
  - intros s Hs. assert (s = sample_slot) as -> by congruence. apply sample_slot_fits.
  - intros bs' <-%Ok_inj. vm_compute. reflexivity.
Defined.
