(* ===== verification/ArrowCache.v ===== *)
(** * The cache of prepared WAL slots

    [adapters/wal/arrow_cache.rs]: unflushed prepared slots by sequence. Each
    operation holds the lock for its whole length, so it is one step. *)

From stdpp Require Import prelude list sorting gmap fin_maps strings.
From S2P Require Import Prelude Bytes Arrow.
From stdpp Require Import options.

#[local] Open Scope N_scope.

Section Cache.
Context {RB : Type}.

Definition arrow_cache_new : gmap N (PreparedWalSlot RB) := ∅.

Definition cache_insert (seq : N) (slot : PreparedWalSlot RB) (c : gmap N (PreparedWalSlot RB)) : gmap N (PreparedWalSlot RB) :=
  <[seq := slot]> c.

Definition cache_insert_batch (seqs : list N) (slots : list (PreparedWalSlot RB)) (c : gmap N (PreparedWalSlot RB))
    : gmap N (PreparedWalSlot RB) :=
  fold_left (fun m ss => <[ss.1 := ss.2]> m) (zip seqs slots) c.

(** The loop of [take_range]; [max] is what is left of [max_entries]. *)
Fixpoint take_loop (max : nat) (seq to_inclusive : N) (c : gmap N (PreparedWalSlot RB))
    : list (N * PreparedWalSlot RB) * gmap N (PreparedWalSlot RB) :=
  match max with
  | O => ([], c)
  | S max' =>
    if seq <=? to_inclusive then
      match c !! seq with
      | Some slot =>
        let '(out, c') := take_loop max' (wrapping_add seq 1) to_inclusive (delete seq c) in
        ((seq, slot) :: out, c')
      | None => ([], c)
      end
    else ([], c)
  end.

Definition take_range (from to_inclusive : N) (max_entries : nat) (c : gmap N (PreparedWalSlot RB))
    : option (list (N * PreparedWalSlot RB)) * gmap N (PreparedWalSlot RB) :=
  if (max_entries =? 0)%nat || (to_inclusive <? from) then (None, c)
  else if negb (bool_decide (is_Some (c !! from))) then (None, c)
  else
    let '(out, c') := take_loop max_entries from to_inclusive c in
    match out with
    | [] => (None, c')
    | _ => (Some out, c')
    end.

Definition next_seq_at_or_after (from : N) (c : gmap N (PreparedWalSlot RB)) : option N :=
  fst <$> List.find (fun kv => from <=? kv.1) (btree_iter N.leb c).

Definition cache_truncate_before (sequence : N) (c : gmap N (PreparedWalSlot RB)) : gmap N (PreparedWalSlot RB) :=
  filter (fun kv => (sequence <=? kv.1) = true) c.

Definition cache_purge_database (database : string) (c : gmap N (PreparedWalSlot RB)) : gmap N (PreparedWalSlot RB) :=
  filter (fun kv => sl_database kv.2 <> database) c.

Definition cache_len (c : gmap N (PreparedWalSlot RB)) : nat := size c.

Definition cache_is_empty (c : gmap N (PreparedWalSlot RB)) : bool := bool_decide (c = ∅).

End Cache.

(** ** Properties *)

Section CacheLemmas.
Context {RB : Type}.

(** The run of [n] cached slots from [from] on. *)
Definition is_run (c : gmap N (PreparedWalSlot RB)) (from : N) (out : list (N * PreparedWalSlot RB)) : Prop :=
  out.*1 = seqN from (length out) /\ forall s slot, (s, slot) ∈ out -> c !! s = Some slot.

Lemma take_loop_spec max seq to (c : gmap N (PreparedWalSlot RB)) out c' :
  to < u64_max -> take_loop max seq to c = (out, c') ->
  is_run c seq out /\ (length out <= max)%nat /\
  (forall s, s ∈ out.*1 -> s <= to) /\
  (forall s, c' !! s = if decide (s ∈ out.*1) then None else c !! s) /\
  (length out = max \/ to < seq + N.of_nat (length out) \/ c !! (seq + N.of_nat (length out)) = None).
Proof.
  intros Hto. revert seq c out c'. induction max as [|max IH]; intros seq c out c'; cbn [take_loop].
  { intros [= <- <-]. cbn. split_and!; try done; [|intros ? ?%elem_of_nil; done|by left].
    split; [done|]. by intros ? ? ?%elem_of_nil. }
  destruct (N.leb_spec seq to) as [Hle|Hgt].
  2:{ intros [= <- <-]. cbn. split_and!; [|lia|by intros ? ?%elem_of_nil|done|right; left; lia].
      split; [done|]. by intros ? ? ?%elem_of_nil. }
  destruct (c !! seq) as [slot|] eqn:Es.
  2:{ intros [= <- <-]. cbn. rewrite N.add_0_r. split_and!; [|lia|by intros ? ?%elem_of_nil|done|auto].
      split; [done|]. by intros ? ? ?%elem_of_nil. }
  destruct (take_loop max _ to (delete seq c)) as [out1 c1] eqn:Et. intros [= <- <-].
  assert (wrapping_add seq 1 = seq + 1) as Hw
    by (apply wrapping_add_small; lia).
  rewrite Hw in Et. destruct (IH _ _ _ _ Et) as ([Hrun Hin] & Hl & Hub & Hc' & Hstop).
  assert (Hne : forall s, s ∈ out1.*1 -> s <> seq).
  { intros s Hs. rewrite Hrun in Hs. apply elem_of_seqN in Hs. lia. }
  split_and!.
  - split; [cbn; by rewrite Hrun|]. intros s sl [[= -> ->]|Hs]%elem_of_cons; [done|].
    specialize (Hin _ _ Hs). apply (list_elem_of_fmap_2 fst) in Hs.
    rewrite lookup_delete_ne in Hin; [done|]. apply not_eq_sym. by apply Hne.
  - cbn. lia.
  - intros s. cbn. intros [->|Hs]%elem_of_cons; [done|]. by apply Hub.
  - intros s. cbn [fmap list_fmap fst]. rewrite Hc'.
    destruct (decide (s = seq)) as [->|Hs].
    + rewrite lookup_delete_eq. rewrite (decide_True (P := seq ∈ seq :: _)) by (by left). by case_decide.
    + rewrite lookup_delete_ne by done. do 2 case_decide; try done; set_solver.
  - cbn [length]. destruct Hstop as [->|[?|Hn]]; [by left|right; left; lia|right; right].
    replace (seq + N.of_nat (S (length out1))) with (seq + 1 + N.of_nat (length out1)) by lia.
    destruct (decide (seq = seq + 1 + N.of_nat (length out1))); [lia|].
    by rewrite lookup_delete_ne in Hn.
Qed.

Lemma take_range_law from to max_entries (c : gmap N (PreparedWalSlot RB)) :
  to < u64_max ->
  match take_range from to max_entries c with
  | (Some out, c') =>
    is_run c from out /\ (0 < length out <= max_entries)%nat /\
    (forall s, s ∈ out.*1 -> s <= to) /\
    (forall s, c' !! s = if decide (s ∈ out.*1) then None else c !! s) /\
    (length out = max_entries \/ to < from + N.of_nat (length out) \/
     c !! (from + N.of_nat (length out)) = None)
  | (None, c') => c' = c /\ (max_entries = 0%nat \/ to < from \/ c !! from = None)
  end.
Proof.
  intros Hto. unfold take_range. destruct (_ || _) eqn:Eg.
  { split; [done|]. apply orb_true_iff in Eg as [E|E]; [left; by apply Nat.eqb_eq|].
    right; left. by apply N.ltb_lt. }
  apply orb_false_iff in Eg as [E1 E2]. apply Nat.eqb_neq in E1. apply N.ltb_ge in E2.
  case_bool_decide as Hs; cbn [negb].
  2:{ split; [done|]. right; right. by apply eq_None_not_Some. }
  destruct (take_loop max_entries from to c) as [out c'] eqn:Et.
  destruct (take_loop_spec _ _ _ _ _ _ Hto Et) as (Hrun & Hl & Hub & Hc' & Hstop).
  destruct out as [|x out].
  - exfalso. destruct Hs as [slot Hslot]. cbn in Hstop. rewrite N.add_0_r, Hslot in Hstop.
    destruct Hstop as [?|[?|?]]; [lia|lia|done].
  - split_and!; try done. cbn. lia.
Qed.

(** Taking slots for a flush returns a contiguous run of cached slots
    that starts at [from], stays within the flush snapshot [to_inclusive] and
    has at most [max_entries] slots; exactly these leave the cache, so slots
    of later writes stay for the next flush. The run ends only at one of the
    two bounds or at the first sequence without a slot, and there is no run
    only when the first sequence has no slot or the bounds allow none. *)
Theorem take_range_correct from to max_entries (c : gmap N (PreparedWalSlot RB)) :
  to < u64_max ->
  match take_range from to max_entries c with
  | (Some out, c') =>
    is_run c from out /\ (0 < length out <= max_entries)%nat /\
    (forall s, s ∈ out.*1 -> s <= to) /\
    (forall s, c' !! s = if decide (s ∈ out.*1) then None else c !! s) /\
    (length out = max_entries \/ to < from + N.of_nat (length out) \/
     c !! (from + N.of_nat (length out)) = None)
  | (None, c') => c' = c /\ (max_entries = 0%nat \/ to < from \/ c !! from = None)
  end.
Proof. apply take_range_law. Qed.

(** The next cached sequence, for a gap in the run. *)
Lemma next_seq_spec from (c : gmap N (PreparedWalSlot RB)) :
  match next_seq_at_or_after from c with
  | Some s => from <= s /\ is_Some (c !! s) /\
              forall s', from <= s' -> is_Some (c !! s') -> s <= s'
  | None => forall s', from <= s' -> c !! s' = None
  end.
Proof.
  unfold next_seq_at_or_after.
  assert (Hs : StronglySorted (fun a b : N * PreparedWalSlot RB => (a.1 <=? b.1) = true) (btree_iter N.leb c)).
  { apply sort_by_sorted.
    - intros x y. rewrite !N.leb_le. lia.
    - intros x y z. rewrite !N.leb_le. lia. }
  assert (Hin : forall s slot, (s, slot) ∈ btree_iter N.leb c <-> c !! s = Some slot)
    by (intros; apply btree_iter_elem).
  destruct (List.find _ _) as [[s slot]|] eqn:E; cbn.
  - pose proof (List.find_some _ _ E) as [Hsl Hle]. apply N.leb_le in Hle. cbn in Hle.
    split; [done|]. split; [exists slot; apply Hin; by apply list_elem_of_In|].
    intros s' Hs' [sl' Hsl']. apply Hin in Hsl'. clear Hin Hsl.
    induction Hs as [|[s0 sl0] l Hl IH Hx]; [done|]. cbn in E. destruct (N.leb_spec from s0).
    + simplify_eq. apply elem_of_cons in Hsl' as [[= -> ->]|Hsl']; [done|].
      rewrite Forall_forall in Hx. apply N.leb_le. apply (Hx _ Hsl').
    + apply elem_of_cons in Hsl' as [[= -> ->]|Hsl']; [lia|]. by apply IH.
  - intros s' Hs'. apply eq_None_not_Some. intros [sl' Hsl']. apply Hin in Hsl'.
    apply list_elem_of_In in Hsl'. pose proof (List.find_none _ _ E _ Hsl') as Hn. cbn in Hn.
    apply N.leb_gt in Hn. lia.
Qed.

End CacheLemmas.

(** A cache with a gap after 3: a flush up to 10 takes 1 and 2. *)
Lemma take_range_witness :
  let slot := mkSlot "db" "rp" 0 [] : PreparedWalSlot nat in
  let c := <[1 := slot]> (<[2 := slot]> (<[4 := slot]> ∅)) : gmap N (PreparedWalSlot nat) in
  fst (take_range 1 10 5000 c) = Some [(1, slot); (2, slot)] /\ (1 <= 10)%N.
Proof.
  intros slot c. pose proof (take_range_correct 1 10 5000 c eq_refl) as H.
  assert (fst (take_range 1 10 5000 c) = Some [(1, slot); (2, slot)]) as E by (vm_compute; reflexivity).
  destruct (take_range 1 10 5000 c) as [o c'] eqn:Et. cbn in E. subst o.
  destruct H as (_ & _ & Hub & _). split; [done|]. transitivity 2; [lia|]. apply Hub. cbn. right. by left.
Defined.
