(* ===== verification/Wal.v ===== *)
(** * The write-ahead log

    [adapters/wal/rocksdb_wal.rs]: entries under their big-endian sequence in
    one column family, the last assigned sequence in another, the sizes of the
    entries this process wrote, and the cache of prepared slots. [RocksDbWal]
    is the state; an operation returns the state it leaves with its result,
    also when it fails. The group commit of [batching_wal.rs] and the two
    appends of [application/wal_append.rs] are at the end. *)

From Stdlib Require Import Ascii String.
From stdpp Require Import prelude list gmap fin_maps strings.
From S2P Require Import Prelude Bytes CfStore Wire Points Arrow WalIpc ArrowCache.
From stdpp Require Import options.

#[local] Open Scope N_scope.

Inductive WalCf := WalData | WalMeta.

#[export] Instance wal_cf_eq_dec : EqDecision WalCf.
Proof. solve_decision. Defined.

Definition LAST_SEQ_KEY : bytes := str_bytes "last_seq".
Definition READ_MAX_BYTES : N := 33554432.
Definition TRUNCATE_POINT_DELETES_MAX : N := 1024.
Definition RANGE_DELETES_PER_MEMTABLE : N := 64.

Record WalAppendBundle (RB : Type) := mkBundle {
  wb_entry : WalEntry;
  wb_prepared : option (PreparedWalSlot RB)
}.
Arguments mkBundle {RB} _ _.
Arguments wb_entry {RB} _.
Arguments wb_prepared {RB} _.

Record RocksDbWal (DB RB : Type) := mkWal {
  wal_db : DB;
  wal_seq : N;
  wal_flushed_through : N;
  wal_truncated_through : N;
  wal_range_deletes_unflushed : N;
  (* [(seq, encoded bytes)], oldest first *)
  wal_sizes : list (N * N);
  wal_arrow_cache : gmap N (PreparedWalSlot RB);
  wal_format : WalFormat;
  wal_arrow_enabled : bool
}.
Arguments mkWal {DB RB} _ _ _ _ _ _ _ _ _.
Arguments wal_db {DB RB} _.
Arguments wal_seq {DB RB} _.
Arguments wal_flushed_through {DB RB} _.
Arguments wal_truncated_through {DB RB} _.
Arguments wal_range_deletes_unflushed {DB RB} _.
Arguments wal_sizes {DB RB} _.
Arguments wal_arrow_cache {DB RB} _.
Arguments wal_format {DB RB} _.
Arguments wal_arrow_enabled {DB RB} _.

Section Wal.
Context {DB A RB : Type} `{CDB : !CfDb WalCf DB} `{AR : !Arrow A RB}.
Context `{AI : !ArrowIpc RB} `{BC : !Bincode}.

(** ** Field updates *)

Definition set_seq (s : N) (w : RocksDbWal DB RB) : RocksDbWal DB RB :=
  mkWal (wal_db w) s (wal_flushed_through w) (wal_truncated_through w)
    (wal_range_deletes_unflushed w) (wal_sizes w) (wal_arrow_cache w) (wal_format w)
    (wal_arrow_enabled w).

Definition set_db (d : DB) (w : RocksDbWal DB RB) : RocksDbWal DB RB :=
  mkWal d (wal_seq w) (wal_flushed_through w) (wal_truncated_through w)
    (wal_range_deletes_unflushed w) (wal_sizes w) (wal_arrow_cache w) (wal_format w)
    (wal_arrow_enabled w).

Definition set_sizes (l : list (N * N)) (w : RocksDbWal DB RB) : RocksDbWal DB RB :=
  mkWal (wal_db w) (wal_seq w) (wal_flushed_through w) (wal_truncated_through w)
    (wal_range_deletes_unflushed w) l (wal_arrow_cache w) (wal_format w) (wal_arrow_enabled w).

Definition set_cache (c : gmap N (PreparedWalSlot RB)) (w : RocksDbWal DB RB) : RocksDbWal DB RB :=
  mkWal (wal_db w) (wal_seq w) (wal_flushed_through w) (wal_truncated_through w)
    (wal_range_deletes_unflushed w) (wal_sizes w) c (wal_format w) (wal_arrow_enabled w).

(** [set_flushed_through]. *)
Definition set_flushed_through (sequence : N) (w : RocksDbWal DB RB) : RocksDbWal DB RB :=
  mkWal (wal_db w) (wal_seq w) sequence (wal_truncated_through w)
    (wal_range_deletes_unflushed w) (wal_sizes w) (wal_arrow_cache w) (wal_format w)
    (wal_arrow_enabled w).

Definition set_truncated (t unflushed : N) (w : RocksDbWal DB RB) : RocksDbWal DB RB :=
  mkWal (wal_db w) (wal_seq w) (wal_flushed_through w) t unflushed (wal_sizes w)
    (wal_arrow_cache w) (wal_format w) (wal_arrow_enabled w).

(** ** Opening *)

(** [value.len() >= 4 && &value[..4] == b"HBWA" || bincode::deserialize(value).is_ok()]. *)
Definition is_current (value : bytes) : bool :=
  ((4 <=? length value)%nat && bool_decide (take 4 value = MAGIC))
  || is_ok (bincode_deserialize value).

(** The batch that rewrites the legacy entries of a scan. *)
Fixpoint migrate_batch (items : list (result string (bytes * string)))
    : result WalError (list (CfOp WalCf)) :=
  match items with
  | [] => Ok []
  | Err e :: _ => Err (WeDb e)
  | Ok (key, value) :: items' =>
    if is_current (str_bytes value) then migrate_batch items'
    else
      legacy ← map_err WeCorrupt (bincode_deserialize_legacy (str_bytes value));
      new_value ← map_err WeBincode (bincode_serialize
        (mkWalEntry (le_database legacy) (le_retention_policy legacy) (le_points legacy) 0));
      batch ← migrate_batch items';
      mret (PutCf WalData key (bytes_str new_value) :: batch)
  end.

Definition migrate_legacy_entries (d : DB) : DB * result WalError unit :=
  match cf_scan d WalData [] with
  | [] => (d, Ok tt)
  | Err e :: _ => (d, Err (WeDb e))
  | Ok (_, value) :: _ =>
    if is_current (str_bytes value) then (d, Ok tt)
    else
      match migrate_batch (cf_scan d WalData []) with
      | Err e => (d, Err e)
      | Ok [] => (d, Ok tt)
      | Ok batch =>
        match cf_write d batch with
        | Err e => (d, Err (WeDb e))
        | Ok d' => (d', Ok tt)
        end
      end
  end.

(** The sequence of a row, when its key has eight bytes. *)
Definition key_seq (key : bytes) : option N :=
  if (length key =? 8)%nat then Some (be_to_u64 key) else None.

(** The last assigned sequence: the tail of the log, or [last_seq]. *)
Definition recover_seq (d : DB) : result WalError N :=
  let from_meta :=
    match cf_get d WalMeta LAST_SEQ_KEY with
    | Ok (Some v) => Ok (if (length (str_bytes v) =? 8)%nat then value_u64 v else 0)
    | Ok None => Ok 0
    | Err e => Err (WeDb e)
    end in
  match cf_last d WalData with
  | Some (Ok (key, _)) => match key_seq key with Some s => Ok s | None => from_meta end
  | Some (Err e) => Err (WeDb e)
  | None => from_meta
  end.

(** The oldest entry left, or past the last one. *)
Definition recover_first (d : DB) (seq : N) : result WalError N :=
  match cf_scan d WalData [] with
  | Ok (key, _) :: _ => Ok (default (sat_add seq 1) (key_seq key))
  | Err e :: _ => Err (WeDb e)
  | [] => Ok (sat_add seq 1)
  end.

(** [open_with_options] on an opened database. *)
Definition wal_open (d : DB) (format : WalFormat) (arrow_enabled : bool) : DB * result WalError (RocksDbWal DB RB) :=
  match migrate_legacy_entries d with
  | (d', Err e) => (d', Err e)
  | (d', Ok _) =>
    (d', seq ← recover_seq d';
         first ← recover_first d' seq;
         mret (mkWal d' seq 0 first 0 [] ∅ format arrow_enabled))
  end.

(** ** Appending *)

(** One turn of the loop of [write_bundle_batch]. *)
Definition encode_bundle (format : WalFormat) (seq : N) (bundle : WalAppendBundle RB)
    (pre_encoded : option bytes) : result WalError (bytes * option (PreparedWalSlot RB)) :=
  slot ← match format, wb_prepared bundle with
         | WfArrowIpc, Some slot => s ← map_err WePatch (patch_all_ingest_seqs slot seq); mret (Some s)
         | _, prepared => Ok prepared
         end;
  value ← match pre_encoded with
          | Some b => Ok b
          | None => encode_wal_value format slot (wb_entry bundle)
          end;
  mret (value, slot).

(** The rows of a batch: sequence, value and slot of each bundle. A missing
    pre-encoded value is [None]. *)
Fixpoint encode_bundles (format : WalFormat) (seq : N) (bundles : list (WalAppendBundle RB))
    (pre_encoded : list (option bytes))
    : result WalError (list (N * bytes * option (PreparedWalSlot RB))) :=
  match bundles with
  | [] => Ok []
  | b :: bundles' =>
    '(value, slot) ← encode_bundle format seq b (default None (head pre_encoded));
    rest ← encode_bundles format (wrapping_add seq 1) bundles' (tail pre_encoded);
    mret ((seq, value, slot) :: rest)
  end.

Definition row_put (r : N * bytes * option (PreparedWalSlot RB)) : CfOp WalCf :=
  PutCf WalData (u64_to_be r.1.1) (bytes_str r.1.2).

Definition cache_row (c : gmap N (PreparedWalSlot RB)) (r : N * bytes * option (PreparedWalSlot RB))
    : gmap N (PreparedWalSlot RB) :=
  match r.2 with Some slot => cache_insert r.1.1 slot c | None => c end.

(** [seq.fetch_add(count)]: the sequences of a batch are taken before it is
    written. *)
Definition take_seqs (w : RocksDbWal DB RB) (count : N) : RocksDbWal DB RB * N :=
  (set_seq (wrapping_add (wal_seq w) count) w, wrapping_add (wal_seq w) 1).

(** The rest of [write_bundle_batch]. *)
Definition write_rows (w : RocksDbWal DB RB) (first_seq : N) (bundles : list (WalAppendBundle RB))
    (pre_encoded : list (option bytes)) : RocksDbWal DB RB * result WalError (list N) :=
  match encode_bundles (wal_format w) first_seq bundles pre_encoded with
  | Err e => (w, Err e)
  | Ok rows =>
    match cf_write (wal_db w) (row_put <$> rows) with
    | Err e => (w, Err (WeDb e))
    | Ok d =>
      let w := set_db d w in
      let w := set_sizes (wal_sizes w ++ ((fun r => (r.1.1, N.of_nat (length r.1.2))) <$> rows)) w in
      let w := if wal_arrow_enabled w
               then set_cache (fold_left cache_row rows (wal_arrow_cache w)) w else w in
      (w, Ok ((fun r => r.1.1) <$> rows))
    end
  end.

Definition write_bundle_batch (w : RocksDbWal DB RB) (bundles : list (WalAppendBundle RB))
    (pre_encoded : list (option bytes)) : RocksDbWal DB RB * result WalError (list N) :=
  match bundles with
  | [] => (w, Ok [])
  | _ =>
    let '(w', first_seq) := take_seqs w (N.of_nat (length bundles)) in
    write_rows w' first_seq bundles pre_encoded
  end.

Definition append_bundle_batch_sync (w : RocksDbWal DB RB) (bundles : list (WalAppendBundle RB))
    : RocksDbWal DB RB * result WalError (list N) :=
  write_bundle_batch w bundles (repeat None (length bundles)).

Definition append_batch_sync (w : RocksDbWal DB RB) (entries : list WalEntry) : RocksDbWal DB RB * result WalError (list N) :=
  append_bundle_batch_sync w ((fun e => mkBundle e None) <$> entries).

Definition append_bundle (w : RocksDbWal DB RB) (bundle : WalAppendBundle RB) : RocksDbWal DB RB * result WalError N :=
  match write_bundle_batch w [bundle] [None] with
  | (w', Ok seqs) => (w', Ok (default 0 (head seqs)))
  | (w', Err e) => (w', Err e)
  end.

Definition append (w : RocksDbWal DB RB) (entry : WalEntry) : RocksDbWal DB RB * result WalError N :=
  append_bundle w (mkBundle entry None).

(** ** Reading *)

(** On an error the slots already taken are dropped, as in the source. *)
Definition take_prepared_range (w : RocksDbWal DB RB) (from to_inclusive : N) (max_entries : nat)
    : RocksDbWal DB RB * result WalError (option (list (N * PreparedWalSlot RB))) :=
  if negb (wal_arrow_enabled w) then (w, Ok None)
  else
    match take_range from to_inclusive max_entries (wal_arrow_cache w) with
    | (None, c) => (set_cache c w, Ok None)
    | (Some slots, c) =>
      (set_cache c w,
       match wal_format w with
       | WfBincode =>
         patched ← try_map (fun ss => s ← map_err WePatch (patch_all_ingest_seqs ss.2 ss.1);
                                      mret (ss.1, s)) slots;
         mret (Some patched)
       | WfArrowIpc => Ok (Some slots)
       end)
    end.

Definition next_prepared_seq (w : RocksDbWal DB RB) (from : N) : option N :=
  if negb (wal_arrow_enabled w) then None else next_seq_at_or_after from (wal_arrow_cache w).

(** The loop of [read_range]: [left] entries may still be read, [read_bytes]
    were read. *)
Fixpoint read_loop (format : WalFormat) (arrow_enabled : bool) (left read_bytes : N)
    (c : gmap N (PreparedWalSlot RB)) (items : list (result string (bytes * string)))
    : gmap N (PreparedWalSlot RB) * result WalError (list (N * WalEntry)) :=
  match items with
  | [] => (c, Ok [])
  | item :: items' =>
    if (left =? 0) || (READ_MAX_BYTES <=? read_bytes) then (c, Ok [])
    else
      match item with
      | Err e => (c, Err (WeDb e))
      | Ok (key, value) =>
        match key_seq key with
        | None => (c, Err (WeKeyLength (length key)))
        | Some seq =>
          match decode_wal_value format (str_bytes value) with
          | Err e => (c, Err e)
          | Ok (prepared, entry) =>
            let c := match prepared with
                     | Some slot => if arrow_enabled then cache_insert seq slot c else c
                     | None => c
                     end in
            match read_loop format arrow_enabled (left - 1)
                    (read_bytes + N.of_nat (length (str_bytes value))) c items' with
            | (c', Ok rest) => (c', Ok ((seq, entry) :: rest))
            | (c', Err e) => (c', Err e)
            end
          end
        end
      end
  end.

Definition read_range (w : RocksDbWal DB RB) (from max_entries : N) : RocksDbWal DB RB * result WalError (list (N * WalEntry)) :=
  let '(c, r) := read_loop (wal_format w) (wal_arrow_enabled w) max_entries 0 (wal_arrow_cache w)
                   (cf_scan (wal_db w) WalData (u64_to_be from)) in
  (set_cache c w, r).

Definition read_from (w : RocksDbWal DB RB) (sequence : N) : RocksDbWal DB RB * result WalError (list (N * WalEntry)) :=
  read_range w sequence u64_max.

(** ** Truncating *)

(** [sizes.pop_front()] while the front is below [sequence]. *)
Fixpoint drop_sizes (sequence : N) (l : list (N * N)) : list (N * N) :=
  match l with
  | [] => []
  | (s, n) :: l' => if s <? sequence then drop_sizes sequence l' else l
  end.

(** The deletes of [from..sequence]. *)
Definition truncate_ops (from sequence : N) : list (CfOp WalCf) :=
  if TRUNCATE_POINT_DELETES_MAX <? sequence - from
  then [DeleteRangeCf WalData (u64_to_be from) (u64_to_be sequence)]
  else (fun s => DeleteCf WalData (u64_to_be s)) <$> seqN from (N.to_nat (sequence - from)).

Definition truncate_before (w : RocksDbWal DB RB) (sequence : N) : RocksDbWal DB RB * result WalError unit :=
  let w := set_cache (cache_truncate_before sequence (wal_arrow_cache w)) w in
  let w := set_sizes (drop_sizes sequence (wal_sizes w)) w in
  let last_seq := wal_seq w in
  let from := wal_truncated_through w in
  if sequence <=? from then (w, Ok tt)
  else
    let ranged := TRUNCATE_POINT_DELETES_MAX <? sequence - from in
    match cf_write (wal_db w) (truncate_ops from sequence
                                ++ [PutCf WalMeta LAST_SEQ_KEY (u64_value last_seq)]) with
    | Err e => (w, Err (WeDb e))
    | Ok d =>
      let t := N.max from sequence in
      let n := wal_range_deletes_unflushed w in
      let w := set_db d w in
      if ranged then
        if RANGE_DELETES_PER_MEMTABLE <=? wrapping_add n 1 then
          match cf_flush_memtable d WalData with
          | Err e => (set_truncated t (wrapping_add n 1) w, Err (WeDb e))
          | Ok _ => (set_truncated t 0 w, Ok tt)
          end
        else (set_truncated t (wrapping_add n 1) w, Ok tt)
      else (set_truncated t n w, Ok tt)
    end.

Definition last_sequence (w : RocksDbWal DB RB) : N := wal_seq w.

(** The loop of [flushed_margin_start] over the sizes, newest first. The
    total of the kept sizes is that of values held in memory and below
    [2^64]. *)
Fixpoint margin_loop (max_bytes kept start : N) (l : list (N * N)) : N :=
  match l with
  | [] => start
  | (seq, len) :: l' =>
    if max_bytes <? kept + len then seq
    else margin_loop max_bytes (kept + len) (sat_sub seq 1) l'
  end.

Fixpoint skip_while {B} (p : B -> bool) (l : list B) : list B :=
  match l with
  | [] => []
  | x :: l' => if p x then skip_while p l' else l
  end.

Definition flushed_margin_start (w : RocksDbWal DB RB) (through max_bytes : N) : N :=
  margin_loop max_bytes 0 through (skip_while (fun sl => through <? sl.1) (rev (wal_sizes w))).

Definition flush_wal (w : RocksDbWal DB RB) : result WalError unit := map_err WeDb (cf_flush (wal_db w)).

(** The deletes of [purge_database]. *)
Fixpoint purge_batch (format : WalFormat) (database : string)
    (items : list (result string (bytes * string))) : result WalError (list (CfOp WalCf)) :=
  match items with
  | [] => Ok []
  | Err e :: _ => Err (WeDb e)
  | Ok (key, value) :: items' =>
    if negb (length key =? 8)%nat then purge_batch format database items'
    else
      '(_, entry) ← decode_wal_value (RB := RB) format (str_bytes value);
      batch ← purge_batch format database items';
      mret (if bool_decide (we_database entry = database) then DeleteCf WalData key :: batch
            else batch)
  end.

Definition purge_database (w : RocksDbWal DB RB) (database : string) : RocksDbWal DB RB * result WalError unit :=
  let w := set_cache (cache_purge_database database (wal_arrow_cache w)) w in
  match purge_batch (wal_format w) database (cf_scan (wal_db w) WalData []) with
  | Err e => (w, Err e)
  | Ok [] => (w, Ok tt)
  | Ok batch =>
    match cf_write (wal_db w) batch with
    | Err e => (w, Err (WeDb e))
    | Ok d => (set_db d w, Ok tt)
    end
  end.

End Wal.
