(* ===== verification/WalTheorems.v ===== *)
(** * Properties of the write-ahead log

    A well-formed log stays well-formed under its operations; appends get
    consecutive sequences and are read back as they were written; a read
    returns the next entries with none skipped; truncation deletes exactly
    the entries below its argument; reopening recovers the last sequence. *)

From Stdlib Require Import Ascii String.
From stdpp Require Import prelude list sorting gmap fin_maps strings.
From S2P Require Import Prelude Bytes CfStore Wire Points Arrow WalIpc ArrowCache Wal.
From stdpp Require Import options.

#[local] Open Scope N_scope.
#[local] Arguments u64_to_be : simpl never.
#[local] Arguments in_range : simpl never.
#[local] Arguments apply_cf_op : simpl never.
#[local] Arguments decode_wal_value : simpl never.

Lemma sorted_app_N (l1 l2 : list N) m :
  StronglySorted N.lt l1 -> StronglySorted N.lt l2 ->
  Forall (fun s => s <= m) l1 -> Forall (fun s => m < s) l2 -> StronglySorted N.lt (l1 ++ l2).
Proof.
  intros H1 H2 Hm1 Hm2. induction H1 as [|x l1 Hl IH Hx]; [done|].
  apply Forall_cons in Hm1 as [Hxm Hm1]. cbn. constructor; [by apply IH|].
  apply Forall_app. split; [done|]. eapply Forall_impl; [exact Hm2|]. intros y Hy. cbn in Hy. lia.
Qed.

Lemma drop_sizes_spec sequence l :
  StronglySorted N.lt l.*1 ->
  StronglySorted N.lt (drop_sizes sequence l).*1 /\
  (forall x, x ∈ drop_sizes sequence l <-> x ∈ l /\ sequence <= x.1).
Proof.
  induction l as [|[s n] l IH]; cbn; intros Hs; [split; [done|set_solver]|].
  inversion Hs as [|? ? Hl Hx]; subst. destruct (N.ltb_spec s sequence).
  - destruct (IH Hl) as [IH1 IH2]. split; [done|]. intros x. rewrite IH2, elem_of_cons.
    split; [naive_solver|]. intros [[->|?] ?]; [cbn in *; lia|done].
  - split; [done|]. intros x. split; [|tauto]. intros Hx'. split; [done|].
    apply elem_of_cons in Hx' as [->|Hx']; [done|]. rewrite Forall_forall in Hx.
    specialize (Hx x.1 ltac:(by apply list_elem_of_fmap_2)). lia.
Qed.

Lemma elem_of_take_lookup {B} (l : list B) n x : x ∈ take n l -> x ∈ l.
Proof. intros Hx. rewrite <- (take_drop n l). apply elem_of_app. by left. Qed.

Lemma sorted_take_split {B} (R : B -> B -> Prop) (l : list B) n x :
  StronglySorted R l -> x ∈ l -> x ∈ take n l \/ forall y, y ∈ take n l -> R y x.
Proof.
  intros Hs Hx. rewrite <- (take_drop n l) in Hx, Hs. apply elem_of_app in Hx as [Hx|Hx]; [by left|].
  right. intros y Hy. by apply (StronglySorted_app_1_elem_of R _ _ _ _ Hs Hy Hx).
Qed.
(** *** The byte-bounded margin *)

(** The sizes of the entries after [r]. *)
Definition bytes_after (r : N) (l : list (N * N)) : N :=
  foldr (fun sl acc => (if r <? sl.1 then sl.2 else 0) + acc) 0 l.

Lemma bytes_after_none r l : Forall (fun sl => sl.1 <= r) l -> bytes_after r l = 0.
Proof.
  unfold bytes_after. induction 1 as [|[s n] l Hs _ IH]; [done|]. cbn [foldr fst snd] in *. rewrite (proj2 (N.ltb_ge _ _) Hs). lia.
Qed.

Lemma bytes_after_app r l1 l2 : bytes_after r (l1 ++ l2) = bytes_after r l1 + bytes_after r l2.
Proof. unfold bytes_after. induction l1 as [|x l1 IH]; cbn [foldr app]; [done|]. rewrite IH. lia. Qed.

Lemma bytes_after_Permutation r l1 l2 : l1 ≡ₚ l2 -> bytes_after r l1 = bytes_after r l2.
Proof. unfold bytes_after. induction 1; cbn [foldr]; lia. Qed.

Lemma margin_loop_spec max_bytes kept start l :
  StronglySorted (fun a b => b.1 < a.1) l -> Forall (fun sl => 0 < sl.1 /\ sl.1 <= start) l ->
  kept <= max_bytes ->
  margin_loop max_bytes kept start l <= start /\
  kept + bytes_after (margin_loop max_bytes kept start l) l <= max_bytes.
Proof.
  revert kept start. induction l as [|[seq len] l IH]; intros kept start Hs Hf Hk; [cbn; lia|].
  inversion Hs as [|? ? Hs' Hx]; subst. apply Forall_cons in Hf as [[Hpos Hle] Hf]. cbn in Hpos, Hle.
  cbn [margin_loop]. destruct (N.ltb_spec max_bytes (kept + len)) as [Hov|Hfit].
  - split; [done|]. rewrite bytes_after_none; [lia|]. constructor; [done|].
    eapply Forall_impl; [exact Hx|]. intros [s n] Hsn. cbn in *. lia.
  - destruct (IH (kept + len) (sat_sub seq 1)) as [H1 H2]; [done| |lia|].
    + rewrite Forall_forall in *. intros [s n] Hsn. specialize (Hx _ Hsn). specialize (Hf _ Hsn).
      unfold sat_sub. cbn in *. lia.
    + unfold sat_sub in *. split; [lia|]. unfold bytes_after in *. cbn [foldr fst snd].
      destruct (_ <? seq); lia.
Qed.

Lemma skip_while_spec {B} (p : B -> bool) l :
  exists l1, l = l1 ++ skip_while p l /\ Forall (fun x => p x = true) l1 /\
    forall x l', skip_while p l = x :: l' -> p x = false.
Proof.
  induction l as [|x l IH]; [by exists []|]. cbn. destruct (p x) eqn:Ep.
  - destruct IH as (l1 & E & Hf & Hh). exists (x :: l1). cbn. split; [by f_equal|]. split; [by constructor|done].
  - exists []. split_and!; [done|done|]. by intros ? ? [= <- <-].
Qed.

Lemma sorted_rev (l : list (N * N)) :
  StronglySorted N.lt l.*1 -> StronglySorted (fun a b => b.1 < a.1) (rev l).
Proof.
  induction l as [|x l IH]; cbn; [constructor|]. intros Hs. inversion Hs as [|? ? Hl Hx]; subst.
  apply StronglySorted_app_2; [|by apply IH|repeat constructor].
  intros a b Ha%list_elem_of_In Hb%list_elem_of_singleton. subst b.
  rewrite <- in_rev in Ha. apply list_elem_of_In in Ha. rewrite Forall_forall in Hx.
  apply Hx. by apply list_elem_of_fmap_2.
Qed.

Section WalTheorems.
Context {DB A RB V : Type} `{CDB : !CfDb WalCf DB} `{DbLaws : !CfDbLaws WalCf DB}.
Context `{AR : !Arrow A RB} `{AI : !ArrowIpc RB} `{BC : !Bincode}.
Context `{AIL : !ArrowIpcLaws RB} `{BL : !BincodeLaws}.
#[local] Set Default Proof Using "Type*".

(** The stored value of a sequence. *)
Definition wal_row (w : RocksDbWal DB RB) (s : N) : option string := cf_rows (wal_db w) WalData !! u64_to_be s.

(** The entry a sequence reads as. *)
Definition wal_entry (w : RocksDbWal DB RB) (s : N) : option WalEntry :=
  v ← wal_row w s;
  match decode_wal_value (RB := RB) (wal_format w) (str_bytes v) with
  | Ok (_, e) => Some e
  | Err _ => None
  end.

(** Every row is an entry between the truncation point and the last assigned
    sequence; the sizes are in order. *)
Definition wal_wf (w : RocksDbWal DB RB) : Prop :=
  wal_seq w < u64_max /\
  (forall k v, cf_rows (wal_db w) WalData !! k = Some v ->
    exists s, k = u64_to_be s /\ wal_truncated_through w <= s /\ s <= wal_seq w /\
      is_ok (decode_wal_value (RB := RB) (wal_format w) (str_bytes v)) = true) /\
  0 < wal_truncated_through w /\ wal_truncated_through w <= wal_seq w + 1 /\
  StronglySorted N.lt (wal_sizes w).*1 /\
  Forall (fun s => wal_truncated_through w <= s /\ s <= wal_seq w) (wal_sizes w).*1.

Lemma wf_row (w : RocksDbWal DB RB) s v :
  wal_wf w -> s <= u64_max -> wal_row w s = Some v ->
  wal_truncated_through w <= s /\ s <= wal_seq w /\ is_Some (wal_entry w s).
Proof.
  intros (Hseq & Hrows & _) Hs Hv. destruct (Hrows _ _ Hv) as (s' & Hk & H1 & H2 & Hd).
  apply u64_to_be_inj in Hk; [|done|lia]. subst s'. split_and!; [done..|].
  unfold wal_entry. rewrite Hv. cbn. destruct (decode_wal_value _ _) as [[? e]|]; [eauto|done].
Qed.

(** ** Appending *)

(** The rows of a batch carry consecutive sequences and the encoded
    bundles. *)
Lemma encode_bundles_rows fmt seq bundles pre rows :
  encode_bundles (RB := RB) fmt seq bundles pre = Ok rows ->
  seq + N.of_nat (length bundles) <= u64_max ->
  length rows = length bundles /\
  forall i r, rows !! i = Some r ->
    exists b, bundles !! i = Some b /\ r.1.1 = seq + N.of_nat i /\
      encode_bundle fmt (seq + N.of_nat i) b (default None (pre !! i)) = Ok (r.1.2, r.2).
Proof.
  revert seq pre rows. induction bundles as [|b bundles IH]; intros seq pre rows; cbn [encode_bundles length].
  { intros <-%Ok_inj _. by split. }
  destruct (encode_bundle fmt seq b _) as [[value slot]|] eqn:Eb; cbn; [|done].
  destruct (encode_bundles fmt _ bundles _) as [rest|] eqn:Er; cbn; [|done]. intros <-%Ok_inj Hmax.
  assert (wrapping_add seq 1 = seq + 1) as Hw
    by (apply wrapping_add_small; lia).
  rewrite Hw in Er. destruct (IH _ _ _ Er) as [Hl Hf]; [lia|]. split; [cbn; by rewrite Hl|].
  intros [|i] r Hr; simplify_eq/=.
  - exists b. rewrite N.add_0_r. split_and!; [done..|]. by destruct pre.
  - destruct (Hf _ _ Hr) as (b' & Hb & Hs & He). exists b'.
    replace (seq + N.of_nat (S i)) with (seq + 1 + N.of_nat i) by lia.
    split_and!; [done..|]. by destruct pre.
Qed.

Lemma row_put_eq (r : N * bytes * option (PreparedWalSlot RB)) m :
  apply_cf_op WalData m (row_put r) = <[u64_to_be r.1.1 := bytes_str r.1.2]> m.
Proof. apply apply_put_eq. Qed.

(** The column family of the entries after a batch of puts. *)
Lemma puts_rows (rows : list (N * bytes * option (PreparedWalSlot RB))) m k :
  fold_left (apply_cf_op WalData) (row_put <$> rows) m !! k
  = match last (filter (fun r => u64_to_be r.1.1 = k) rows) with
    | Some r => Some (bytes_str r.1.2)
    | None => m !! k
    end.
Proof.
  induction rows as [|r rows IH] using rev_ind; [done|]. rewrite fmap_app, fold_left_app. cbn.
  rewrite row_put_eq, filter_app, filter_cons, filter_nil.
  destruct (decide (u64_to_be r.1.1 = k)) as [<-|Hne].
  - by rewrite lookup_insert_eq, last_snoc.
  - by rewrite lookup_insert_ne, app_nil_r.
Qed.

Lemma puts_other (rows : list (N * bytes * option (PreparedWalSlot RB))) m :
  fold_left (apply_cf_op WalMeta) (row_put <$> rows) m = m.
Proof. induction rows as [|r rows IH]; [done|]. cbn. exact IH. Qed.

(** What is asked of an appended bundle: its entry and, in the Arrow IPC
    format, its patched slot fit the format, and a pre-encoded value is the
    bincode of its entry. *)
Definition bundle_fits (fmt : WalFormat) (b : WalAppendBundle RB) (pre : option bytes) : Prop :=
  entry_fits (wb_entry b) /\
  (forall x, pre = Some x -> fmt = WfBincode /\ bincode_serialize (wb_entry b) = Ok x) /\
  (forall slot seq slot', fmt = WfArrowIpc -> wb_prepared b = Some slot ->
    patch_all_ingest_seqs slot seq = Ok slot' -> slot_fits slot').

Lemma encode_bundle_decodes fmt seq b pre value slot :
  encode_bundle fmt seq b pre = Ok (value, slot) -> bundle_fits fmt b pre ->
  (exists o, decode_wal_value fmt value = Ok (o, wb_entry b)) /\ Forall byte_ok value.
Proof.
  intros E (He & Hpre & Hslot). unfold encode_bundle in E.
  destruct (match fmt with WfBincode => _ | WfArrowIpc => _ end) as [sl|] eqn:Es; [|done]. cbn in E.
  destruct pre as [x|].
  - cbn in E. injection E as <- <-. destruct (Hpre x eq_refl) as [-> Hb]. unfold decode_wal_value.
    rewrite (bincode_roundtrip _ _ Hb). split; [by eexists|by eapply bincode_bytes].
  - destruct (encode_wal_value fmt sl (wb_entry b)) as [v|] eqn:Ev; [|done]. cbn in E.
    injection E as <- <-. split; [|by eapply encode_wal_value_bytes].
    eexists. eapply wal_value_decodes; [done| |done]. intros s -> ->.
    destruct (wb_prepared b) as [p|] eqn:Ep; [|done].
    destruct (patch_all_ingest_seqs p seq) as [s'|] eqn:Eq; [|done]. cbn in Es. simplify_eq.
    apply Ok_inj in Es. simplify_eq. by apply (Hslot p seq s).
Qed.

(** The rows of a written batch. *)
Lemma batch_rows_lookup first (rows : list (N * bytes * option (PreparedWalSlot RB))) m s :
  (forall i r, rows !! i = Some r -> r.1.1 = first + N.of_nat i) ->
  first + N.of_nat (length rows) <= u64_max -> s <= u64_max ->
  fold_left (apply_cf_op WalData) (row_put <$> rows) m !! u64_to_be s
  = if first <=? s then
      match rows !! N.to_nat (s - first) with
      | Some r => Some (bytes_str r.1.2)
      | None => m !! u64_to_be s
      end
    else m !! u64_to_be s.
Proof.
  intros Hidx Hmax Hs. rewrite puts_rows.
  assert (forall i r, rows !! i = Some r -> u64_to_be r.1.1 = u64_to_be s -> first <= s /\ i = N.to_nat (s - first)) as Huniq.
  { intros i r Hr E. pose proof (lookup_lt_Some _ _ _ Hr). rewrite (Hidx _ _ Hr) in E.
    apply u64_to_be_inj in E; lia. }
  destruct (filter (fun r => u64_to_be r.1.1 = u64_to_be s) rows) as [|r0 l] eqn:Ef.
  - cbn. destruct (N.leb_spec first s); [|done].
    destruct (rows !! N.to_nat (s - first)) as [r|] eqn:Er; [|done]. exfalso.
    assert (r ∈ filter (fun r => u64_to_be r.1.1 = u64_to_be s) rows) as Hin.
    { apply list_elem_of_filter. split; [|by apply list_elem_of_lookup_2 in Er].
      rewrite (Hidx _ _ Er). f_equal. lia. }
    rewrite Ef in Hin. by apply elem_of_nil in Hin.
  - destruct (last (r0 :: l)) as [r|] eqn:El; [|by apply last_None in El].
    assert (r ∈ filter (fun r => u64_to_be r.1.1 = u64_to_be s) rows) as [E Hin]%list_elem_of_filter
      by (rewrite Ef; by apply last_elem).
    apply list_elem_of_lookup_1 in Hin as [i Hi]. destruct (Huniq _ _ Hi E) as [Hle ->].
    rewrite (proj2 (N.leb_le _ _) Hle), Hi. done.
Qed.

Lemma write_bundle_batch_step (w w' : RocksDbWal DB RB) bundles pre seqs :
  write_bundle_batch w bundles pre = (w', Ok seqs) -> bundles <> [] ->
  wal_seq w + N.of_nat (length bundles) < u64_max ->
  exists rows, length rows = length bundles /\
    (forall i r, rows !! i = Some r ->
      exists b, bundles !! i = Some b /\ r.1.1 = wal_seq w + 1 + N.of_nat i /\
        encode_bundle (wal_format w) (wal_seq w + 1 + N.of_nat i) b (default None (pre !! i)) = Ok (r.1.2, r.2)) /\
    seqs = seqN (wal_seq w + 1) (length bundles) /\
    wal_seq w' = wal_seq w + N.of_nat (length bundles) /\
    wal_format w' = wal_format w /\ wal_arrow_enabled w' = wal_arrow_enabled w /\
    wal_truncated_through w' = wal_truncated_through w /\
    wal_flushed_through w' = wal_flushed_through w /\
    wal_sizes w' = wal_sizes w ++ ((fun r => (r.1.1, N.of_nat (length r.1.2))) <$> rows) /\
    wal_arrow_cache w' = (if wal_arrow_enabled w then fold_left cache_row rows (wal_arrow_cache w)
                          else wal_arrow_cache w) /\
    forall c, cf_rows (wal_db w') c = fold_left (apply_cf_op c) (row_put <$> rows) (cf_rows (wal_db w) c).
Proof.
  intros E Hne Hmax. destruct bundles as [|b0 bs]; [done|]. set (bundles := b0 :: bs) in *.
  assert (Hw : forall n, n <= N.of_nat (length bundles) -> wrapping_add (wal_seq w) n = wal_seq w + n).
  { intros n Hn. apply wrapping_add_small. lia. }
  assert (1 <= N.of_nat (length bundles)) as Hlen1 by (cbn; lia).
  change (write_bundle_batch w bundles pre)
    with (let '(w1, f) := take_seqs w (N.of_nat (length bundles)) in write_rows w1 f bundles pre) in E.
  cbn in E. rewrite !Hw in E by done. unfold write_rows in E. cbn [wal_format set_seq] in E.
  destruct (encode_bundles _ _ bundles pre) as [rows|] eqn:Er; [|done].
  destruct (encode_bundles_rows _ _ _ _ _ Er) as [Hl Hrows]; [lia|].
  cbn [wal_db set_seq] in E. destruct (cf_write (wal_db w) _) as [d|] eqn:Ed; [|done].
  assert ((fun r => r.1.1) <$> rows = seqN (wal_seq w + 1) (length bundles)) as Hseqs.
  { apply list_eq_same_length with (length bundles);
      [by rewrite seqN_length|by rewrite length_fmap|].
    intros i x y Hi Hx Hy. rewrite list_lookup_fmap in Hx. rewrite seqN_lookup in Hy by done.
    destruct (rows !! i) as [r|] eqn:Hr; [|done]. cbn in Hx. destruct (Hrows _ _ Hr) as (b & _ & Hs & _).
    congruence. }
  exists rows. rewrite Hseqs in E. pose proof (cf_write_law _ _ _ Ed) as Hd.
  split; [done|]. split; [done|].
  destruct (wal_arrow_enabled w) eqn:Ea; cbn in E; rewrite Ea in E; cbn in E;
    injection E as <- <-; cbn; split_and!; try done; try apply Hd.
Qed.

(** Bundles at the positions of a batch that fit. *)
Definition bundles_fit (w : RocksDbWal DB RB) (bundles : list (WalAppendBundle RB))
    (pre : list (option bytes)) : Prop :=
  forall i b, bundles !! i = Some b -> bundle_fits (wal_format w) b (default None (pre !! i)).

Lemma row_sizes_keys (rows : list (N * bytes * option (PreparedWalSlot RB))) :
  ((fun r => (r.1.1, N.of_nat (length r.1.2))) <$> rows).*1 = (fun r => r.1.1) <$> rows.
Proof. rewrite <- list_fmap_compose. by apply list_fmap_ext. Qed.

(** Rows [seq + 1, ..] that decode to the entries of the bundles. *)
Definition rows_for (w : RocksDbWal DB RB) (bundles : list (WalAppendBundle RB))
    (rows : list (N * bytes * option (PreparedWalSlot RB))) : Prop :=
  length rows = length bundles /\
  forall i r, rows !! i = Some r ->
    exists b, bundles !! i = Some b /\ r.1.1 = wal_seq w + 1 + N.of_nat i /\
      (exists o, decode_wal_value (wal_format w) r.1.2 = Ok (o, wb_entry b)) /\ Forall byte_ok r.1.2.

Lemma rows_for_keys (w : RocksDbWal DB RB) bundles rows :
  rows_for w bundles rows -> (fun r => r.1.1) <$> rows = seqN (wal_seq w + 1) (length rows).
Proof.
  intros [Hl Hr]. apply list_eq_same_length with (length rows);
    [by rewrite seqN_length|by rewrite length_fmap|].
  intros i x y Hi Hx Hy. rewrite list_lookup_fmap in Hx. rewrite seqN_lookup in Hy by done.
  destruct (rows !! i) as [r|] eqn:Ei; [|done]. cbn in Hx.
  destruct (Hr _ _ Ei) as (b & _ & Hs & _). congruence.
Qed.

Lemma append_wf (w w' : RocksDbWal DB RB) bundles rows :
  wal_wf w -> rows_for w bundles rows -> wal_seq w + N.of_nat (length bundles) < u64_max ->
  wal_seq w' = wal_seq w + N.of_nat (length bundles) -> wal_format w' = wal_format w ->
  wal_truncated_through w' = wal_truncated_through w ->
  wal_sizes w' = wal_sizes w ++ ((fun r => (r.1.1, N.of_nat (length r.1.2))) <$> rows) ->
  (forall c, cf_rows (wal_db w') c = fold_left (apply_cf_op c) (row_put <$> rows) (cf_rows (wal_db w) c)) ->
  wal_wf w'.
Proof.
  intros (Hseq & Hrows & Ht0 & Ht1 & Hsort & Hsizes) Hfor Hmax Hseq' Hfmt Htr Hsz Hd.
  pose proof (rows_for_keys _ _ _ Hfor) as Hkeys. destruct Hfor as [Hl Hr].
  assert (Hnew : forall x, x ∈ seqN (wal_seq w + 1) (length rows) -> wal_seq w < x /\ x <= wal_seq w').
  { intros x Hx%elem_of_seqN. lia. }
  split_and!; rewrite ?Hseq', ?Htr, ?Hfmt, ?Hsz; try lia.
  - intros k v Hk. rewrite Hd, puts_rows in Hk.
    destruct (last (filter _ rows)) as [r|] eqn:El.
    + apply last_elem, list_elem_of_filter in El as [<- Hin].
      apply list_elem_of_lookup_1 in Hin as [i Hi]. injection Hk as <-.
      destruct (Hr _ _ Hi) as (b & Hb & Hs & [o Ho] & Hbytes).
      pose proof (lookup_lt_Some _ _ _ Hi). exists r.1.1. split; [done|]. rewrite Hs.
      split; [lia|]. split; [lia|]. by rewrite bytes_str_bytes, Ho.
    + destruct (Hrows _ _ Hk) as (s0 & -> & ? & ? & ?). exists s0. split_and!; try done; lia.
  - rewrite fmap_app, row_sizes_keys, Hkeys. eapply sorted_app_N; [done|apply seqN_sorted|eapply Forall_impl; [done|]; by intros x [_ ?]|].
    apply Forall_forall. intros x Hx. by apply Hnew.
  - rewrite fmap_app, row_sizes_keys, Hkeys. apply Forall_app. split.
    + eapply Forall_impl; [done|]. intros x Hx. cbn in Hx. lia.
    + apply Forall_forall. intros x Hx%Hnew. lia.
Qed.

Lemma append_ok (w w' : RocksDbWal DB RB) bundles pre seqs :
  write_bundle_batch w bundles pre = (w', Ok seqs) -> bundles <> [] ->
  wal_seq w + N.of_nat (length bundles) < u64_max ->
  wal_wf w -> bundles_fit w bundles pre ->
  wal_wf w' /\ seqs = seqN (wal_seq w + 1) (length bundles) /\
  wal_seq w' = wal_seq w + N.of_nat (length bundles) /\
  (forall i b, bundles !! i = Some b ->
    wal_entry w' (wal_seq w + 1 + N.of_nat i) = Some (wb_entry b)) /\
  (forall s, s <= wal_seq w -> wal_row w' s = wal_row w s) /\
  wal_format w' = wal_format w /\
  cf_rows (wal_db w') WalMeta = cf_rows (wal_db w) WalMeta.
Proof.
  intros E Hne Hmax Hwf Hfit.
  destruct (write_bundle_batch_step _ _ _ _ _ E Hne Hmax)
    as (rows & Hl & Hr & -> & Hseq' & Hfmt & _ & Htr & _ & Hsz & _ & Hd).
  assert (Hfor : rows_for w bundles rows).
  { split; [done|]. intros i r Hi. destruct (Hr _ _ Hi) as (b & Hb & Hs & He). exists b.
    split; [done|]. split; [done|]. eapply encode_bundle_decodes; [done|]. by apply Hfit. }
  assert (Hidx : forall i r, rows !! i = Some r -> r.1.1 = wal_seq w + 1 + N.of_nat i).
  { intros i r Hi. by destruct (Hr _ _ Hi) as (b & _ & ? & _). }
  assert (Hlen : wal_seq w + 1 + N.of_nat (length rows) <= u64_max) by (rewrite Hl; lia).
  split; [by eapply append_wf|]. split_and!; [done|done| | |done|rewrite Hd; apply puts_other].
  - intros i b Hb. pose proof (lookup_lt_Some _ _ _ Hb) as Hi.
    destruct (lookup_lt_is_Some_2 rows i) as [r Hri]; [lia|]. destruct Hfor as [_ Hfor].
    destruct (Hfor _ _ Hri) as (b' & Hb' & _ & [o Ho] & Hbytes). simplify_eq.
    unfold wal_entry, wal_row. rewrite Hd, (batch_rows_lookup (wal_seq w + 1)) by (done || lia).
    rewrite (proj2 (N.leb_le _ _)) by lia.
    replace (N.to_nat (wal_seq w + 1 + N.of_nat i - (wal_seq w + 1))) with i by lia.
    rewrite Hri, Hfmt. cbn. by rewrite bytes_str_bytes, Ho.
  - intros s Hs. destruct Hwf as (Hseq & _).
    unfold wal_row. rewrite Hd, (batch_rows_lookup (wal_seq w + 1)) by (done || lia).
    by rewrite (proj2 (N.leb_gt _ _)) by lia.
Qed.

Lemma append_err (w w' : RocksDbWal DB RB) bundles pre e :
  write_bundle_batch w bundles pre = (w', Err e) ->
  w' = set_seq (wrapping_add (wal_seq w) (N.of_nat (length bundles))) w.
Proof.
  destruct bundles as [|b bs]; [done|].
  change (write_bundle_batch w (b :: bs) pre)
    with (let '(w1, f) := take_seqs w (N.of_nat (length (b :: bs))) in write_rows w1 f (b :: bs) pre).
  cbn [take_seqs]. unfold write_rows.
  destruct (encode_bundles _ _ _ _) as [rows|]; [|by intros [= <- _]].
  destruct (cf_write _ _) as [d|]; [done|by intros [= <- _]].
Qed.

Lemma wf_set_seq (w : RocksDbWal DB RB) n :
  wal_wf w -> wal_seq w <= n -> n < u64_max -> wal_wf (set_seq n w).
Proof.
  intros (Hseq & Hrows & Ht0 & Ht1 & Hsort & Hsizes) Hle Hn. split_and!; cbn; try done; [|lia|].
  - intros k v Hk. destruct (Hrows _ _ Hk) as (s & -> & ? & ? & ?). exists s. split_and!; try done. lia.
  - eapply Forall_impl; [exact Hsizes|]. intros x Hx. cbn in Hx. lia.
Qed.

(** The cache after a batch: only its own sequences were added. *)
Lemma cache_rows_keys (rows : list (N * bytes * option (PreparedWalSlot RB))) (c : gmap N (PreparedWalSlot RB)) s :
  is_Some (fold_left cache_row rows c !! s) -> is_Some (c !! s) \/ exists r, r ∈ rows /\ r.1.1 = s.
Proof.
  revert c. induction rows as [|r rows IH]; intros c; cbn [fold_left]; [by left|].
  intros [Hc|(r' & Hr & Hs)]%IH; [|right; exists r'; split; [by right|done]].
  unfold cache_row in Hc. destruct r.2 as [slot|]; [|by left]. unfold cache_insert in Hc.
  destruct (decide (r.1.1 = s)) as [<-|Hne]; [right; exists r; split; [by left|done]|].
  rewrite lookup_insert_ne in Hc by done. by left.
Qed.

Lemma append_cache_keys (w w' : RocksDbWal DB RB) bundles pre seqs s :
  write_bundle_batch w bundles pre = (w', Ok seqs) -> bundles <> [] ->
  wal_seq w + N.of_nat (length bundles) < u64_max ->
  is_Some (wal_arrow_cache w' !! s) ->
  is_Some (wal_arrow_cache w !! s) \/ s <= wal_seq w + N.of_nat (length bundles).
Proof.
  intros E Hne Hmax. destruct (write_bundle_batch_step _ _ _ _ _ E Hne Hmax)
    as (rows & Hl & Hr & _ & _ & _ & _ & _ & _ & _ & -> & _).
  destruct (wal_arrow_enabled w); [|by left]. intros [?|(r & [i Hi]%list_elem_of_lookup & <-)]%cache_rows_keys; [by left|].
  right. destruct (Hr _ _ Hi) as (b & _ & -> & _). apply lookup_lt_Some in Hi. lia.
Qed.

(** ** Truncating *)

Lemma truncate_ops_rows from sequence m s :
  from <= sequence -> sequence <= u64_max -> s <= u64_max ->
  fold_left (apply_cf_op WalData) (truncate_ops from sequence) m !! u64_to_be s
  = if (from <=? s) && (s <? sequence) then None else m !! u64_to_be s.
Proof.
  intros Hle Hsq Hs. unfold truncate_ops. destruct (_ <? sequence - from).
  - cbn [fold_left]. rewrite apply_delete_range_eq, map_lookup_filter.
    assert (in_range (u64_to_be from) (u64_to_be sequence) (u64_to_be s)
            = (from <=? s) && (s <? sequence)) as Hr.
    { unfold in_range. rewrite u64_to_be_leb, u64_to_be_ltb; [done|lia..]. }
    destruct (m !! u64_to_be s) as [v|]; cbn; [|by destruct (_ && _)].
    case_guard as G; cbn; cbn in G; rewrite Hr in G; [by rewrite G|].
    apply not_false_is_true in G. by rewrite G.
  - rewrite (list_fmap_compose u64_to_be (DeleteCf WalData)), deletes_rows.
    destruct ((from <=? s) && (s <? sequence)) eqn:Eb; reflect_bools.
    + rewrite decide_True; [done|]. apply list_elem_of_fmap. exists s. split; [done|].
      apply elem_of_seqN. lia.
    + rewrite decide_False; [done|]. intros (x & Ex & Hx%elem_of_seqN)%list_elem_of_fmap.
      apply u64_to_be_inj in Ex; [|lia..]. subst x. apply andb_false_iff in Eb as [Eb|Eb]; reflect_bools; lia.
Qed.

(** No row appears, and a row that is kept is as it was. *)
Lemma truncate_ops_sub from sequence m k v :
  fold_left (apply_cf_op WalData) (truncate_ops from sequence) m !! k = Some v -> m !! k = Some v.
Proof.
  unfold truncate_ops. destruct (_ <? sequence - from).
  - cbn [fold_left]. rewrite apply_delete_range_eq. by intros [? _]%map_lookup_filter_Some.
  - rewrite (list_fmap_compose u64_to_be (DeleteCf WalData)), deletes_rows. by case_decide.
Qed.

Lemma truncate_ops_meta from sequence m :
  fold_left (apply_cf_op WalMeta) (truncate_ops from sequence) m = m.
Proof.
  unfold truncate_ops. destruct (_ <? sequence - from).
  - cbn [fold_left]. by rewrite apply_delete_range_ne.
  - rewrite (list_fmap_compose u64_to_be (DeleteCf WalData)). by apply deletes_ne.
Qed.

(** What a truncation leaves of the fields it does not own. *)
Definition truncated_frame (w w' : RocksDbWal DB RB) (sequence : N) : Prop :=
  wal_seq w' = wal_seq w /\ wal_format w' = wal_format w /\
  wal_arrow_enabled w' = wal_arrow_enabled w /\ wal_flushed_through w' = wal_flushed_through w /\
  wal_arrow_cache w' = cache_truncate_before sequence (wal_arrow_cache w) /\
  wal_sizes w' = drop_sizes sequence (wal_sizes w).

Lemma truncate_step (w w' : RocksDbWal DB RB) sequence r :
  truncate_before w sequence = (w', r) ->
  truncated_frame w w' sequence /\
  ((wal_db w' = wal_db w /\ wal_truncated_through w' = wal_truncated_through w /\
    (r = Ok tt -> sequence <= wal_truncated_through w)) \/
   (wal_truncated_through w < sequence /\ wal_truncated_through w' = sequence /\
    forall c, cf_rows (wal_db w') c = fold_left (apply_cf_op c)
      (truncate_ops (wal_truncated_through w) sequence ++ [PutCf WalMeta LAST_SEQ_KEY (u64_value (wal_seq w))])
      (cf_rows (wal_db w) c))).
Proof.
  unfold truncate_before, truncated_frame. cbn [wal_truncated_through set_sizes set_cache wal_db wal_seq].
  destruct (N.leb_spec sequence (wal_truncated_through w)) as [Hle|Hlt].
  { intros [= <- <-]. cbn. split; [done|]. left. done. }
  destruct (cf_write (wal_db w) _) as [d|] eqn:Ed.
  2:{ intros [= <- <-]. cbn. split; [done|]. left. done. }
  pose proof (cf_write_law _ _ _ Ed) as Hd. rewrite N.max_r by lia.
  destruct (TRUNCATE_POINT_DELETES_MAX <? _); [destruct (RANGE_DELETES_PER_MEMTABLE <=? _);
    [destruct (cf_flush_memtable d WalData)|]|];
    intros [= <- <-]; cbn; (split; [done|]); right; done.
Qed.

Lemma truncate_ok (w w' : RocksDbWal DB RB) sequence r :
  truncate_before w sequence = (w', r) -> wal_wf w -> sequence <= wal_seq w + 1 ->
  wal_wf w' /\ truncated_frame w w' sequence /\
  (forall s, sequence <= s -> s <= u64_max -> wal_row w' s = wal_row w s) /\
  (forall s v, s <= u64_max -> wal_row w' s = Some v -> wal_row w s = Some v) /\
  (r = Ok tt -> forall s, s < sequence -> s <= u64_max -> wal_row w' s = None) /\
  (cf_rows (wal_db w') WalMeta = cf_rows (wal_db w) WalMeta \/
   cf_rows (wal_db w') WalMeta !! LAST_SEQ_KEY = Some (u64_value (wal_seq w))).
Proof.
  intros E Hwf Hsq. destruct (truncate_step _ _ _ _ E) as [Hframe Hcase].
  pose proof Hwf as (Hseq & Hrows & Ht0 & Ht1 & Hsort & Hsizes).
  destruct Hframe as (Hs' & Hf' & Ha' & Hfl' & Hc' & Hz').
  destruct (drop_sizes_spec sequence _ Hsort) as [Hsort' Hin].
  assert (Hszok : Forall (fun s => N.max sequence (wal_truncated_through w) <= s /\ s <= wal_seq w) (wal_sizes w').*1).
  { rewrite Hz'. apply Forall_forall. intros x (y & -> & [Hy Hge]%Hin)%list_elem_of_fmap.
    rewrite Forall_forall in Hsizes. apply (list_elem_of_fmap_2 fst) in Hy. apply Hsizes in Hy. lia. }
  destruct Hcase as [(Hdb & Ht & Hr)|(Hlt & Ht & Hd)].
  - assert (Hrow : forall s, wal_row w' s = wal_row w s) by (intros s; unfold wal_row; by rewrite Hdb).
    split_and!; [|done..| | | |].
    + split_and!; rewrite ?Hs', ?Ht, ?Hdb, ?Hf', ?Hz'; try done. rewrite <- Hz'.
      eapply Forall_impl; [exact Hszok|]. cbn. lia.
    + intros. apply Hrow.
    + intros s v _. by rewrite Hrow.
    + intros ->. specialize (Hr eq_refl). intros s Hs Hmax. rewrite Hrow.
      destruct (wal_row w s) as [v|] eqn:Ev; [|done]. destruct (wf_row _ _ _ Hwf Hmax Ev). lia.
    + left. by rewrite Hdb.
  - assert (Hrow : forall k, cf_rows (wal_db w') WalData !! k
      = fold_left (apply_cf_op WalData) (truncate_ops (wal_truncated_through w) sequence)
          (cf_rows (wal_db w) WalData) !! k).
    { intros k. rewrite Hd, fold_left_app. cbn [fold_left]. by rewrite apply_put_ne. }
    split_and!; [|done..| | | |].
    + split_and!; rewrite ?Hs', ?Ht, ?Hf', ?Hz'; try done; [|lia|rewrite <- Hz'; eapply Forall_impl; [exact Hszok|]; cbn; lia].
      intros k v Hk. rewrite Hrow in Hk. pose proof (truncate_ops_sub _ _ _ _ _ Hk) as Hk0.
      destruct (Hrows _ _ Hk0) as (s & -> & H1 & H2 & H3). exists s. split; [done|].
      rewrite truncate_ops_rows in Hk by lia. destruct (_ && _) eqn:Eb; [done|].
      apply andb_false_iff in Eb as [Eb|Eb]; reflect_bools; [lia|]. split_and!; [lia|done|done].
    + intros s Hge Hmax. unfold wal_row. rewrite Hrow, truncate_ops_rows by lia.
      by rewrite (proj2 (N.ltb_ge _ _) Hge), andb_false_r.
    + intros s v Hmax. unfold wal_row. rewrite Hrow. apply truncate_ops_sub.
    + intros _ s Hs Hmax. unfold wal_row. rewrite Hrow, truncate_ops_rows by lia.
      destruct (_ && _) eqn:Eb; [done|]. apply andb_false_iff in Eb as [Eb|Eb]; reflect_bools; [|lia].
      destruct (wal_row w s) as [v|] eqn:Ev; [|done]. destruct (wf_row _ _ _ Hwf Hmax Ev). lia.
    + right. rewrite Hd, fold_left_app. cbn [fold_left].
      by rewrite truncate_ops_meta, apply_put_eq, lookup_insert_eq.
Qed.

(** ** Reading *)

Definition no_entry : WalEntry := mkWalEntry EmptyString EmptyString [] 0.

(** What the scan makes of a row. *)
Definition row_entry (fmt : WalFormat) (kv : bytes * string) : N * WalEntry :=
  (be_to_u64 kv.1, match decode_wal_value (RB := RB) fmt (str_bytes kv.2) with
                   | Ok (_, e) => e | Err _ => no_entry end).

Definition row_good (fmt : WalFormat) (kv : bytes * string) : Prop :=
  exists s, kv.1 = u64_to_be s /\ s <= u64_max /\
    is_ok (decode_wal_value (RB := RB) fmt (str_bytes kv.2)) = true.

Definition rows_bytes (l : list (bytes * string)) : N :=
  foldr (fun kv acc => N.of_nat (length (str_bytes kv.2)) + acc) 0 l.

Lemma key_seq_be s : s <= u64_max -> key_seq (u64_to_be s) = Some s.
Proof.
  intros Hs. unfold key_seq. change (length (u64_to_be s) =? 8)%nat with true. cbn.
  by rewrite be_roundtrip.
Qed.

Lemma read_loop_page fmt en left rb (c : gmap N (PreparedWalSlot RB)) l :
  Forall (row_good fmt) l ->
  exists n c', read_loop fmt en left rb c (Ok <$> l) = (c', Ok (row_entry fmt <$> take n l)) /\
    (n <= length l)%nat /\ N.of_nat n <= left /\
    ((n < length l)%nat -> N.of_nat n = left \/ READ_MAX_BYTES <= rb + rows_bytes (take n l)) /\
    (forall m, (m < n)%nat -> rb + rows_bytes (take m l) < READ_MAX_BYTES) /\
    (fmt = WfBincode -> c' = c) /\
    (forall s, is_Some (c' !! s) -> is_Some (c !! s) \/ s ∈ (row_entry fmt <$> take n l).*1).
Proof.
  revert left rb c. induction l as [|[k v] l IH]; intros left rb c Hg; cbn [fmap list_fmap read_loop].
  { exists 0%nat, c. cbn. split_and!; try done; try lia; try (intros; lia). by left. }
  destruct ((left =? 0) || (READ_MAX_BYTES <=? rb)) eqn:Estop.
  { exists 0%nat, c. cbn. split_and!; try done; try lia; [|by left]. intros _.
    apply orb_true_iff in Estop as [Es|Es]; reflect_bools; [left|right]; lia. }
  reflect_bools. apply Forall_cons in Hg as [(s & Hk & Hs & Hd) Hg]. cbn in Hk, Hd. subst k.
  rewrite key_seq_be by done.
  destruct (decode_wal_value fmt (str_bytes v)) as [[o e]|] eqn:Ed; [|done].
  set (c1 := match o with Some slot => _ | None => c end).
  destruct (IH (left - 1) (rb + N.of_nat (length (str_bytes v))) c1 Hg)
    as (n & c' & E & Hn & Hl & Hstop & Hb & Hc & Hkeys).
  rewrite E. exists (S n), c'. cbn [take fmap list_fmap length rows_bytes foldr]. split_and!.
  - do 3 f_equal. unfold row_entry. cbn [fst snd]. by rewrite be_roundtrip, Ed.
  - lia.
  - lia.
  - intros Hlt. destruct (Hstop ltac:(lia)) as [?|?]; [left; lia|right].
    unfold rows_bytes in *. cbn. lia.
  - intros [|m] Hm; cbn; [lia|]. specialize (Hb m ltac:(lia)). unfold rows_bytes in *. lia.
  - intros ->. rewrite Hc by done. unfold c1. unfold decode_wal_value in Ed.
    destruct (bincode_deserialize _); [|done]. cbn in Ed. by injection Ed as <- <-.
  - intros s' Hs'. cbn [fmap list_fmap]. rewrite elem_of_cons. unfold row_entry at 1. cbn [fst].
    rewrite be_roundtrip by done. destruct (Hkeys _ Hs') as [Hc1|?]; [|by right; right].
    unfold c1 in Hc1. destruct o as [slot|]; [|by left]. destruct en; [|by left].
    unfold cache_insert in Hc1. destruct (decide (s = s')) as [->|Hne]; [by right; left|].
    rewrite lookup_insert_ne in Hc1 by done. by left.
Qed.

(** The rows from a sequence on, as the scan yields them. *)
Lemma scan_rows (w : RocksDbWal DB RB) from :
  wal_wf w -> from <= u64_max ->
  exists l, cf_scan (wal_db w) WalData (u64_to_be from) = Ok <$> l /\
    Forall (row_good (wal_format w)) l /\
    StronglySorted N.lt (row_entry (wal_format w) <$> l).*1 /\
    (forall s e, (s, e) ∈ row_entry (wal_format w) <$> l <->
      from <= s /\ s <= u64_max /\ wal_entry w s = Some e).
Proof.
  intros Hwf Hfrom. pose proof Hwf as (Hseq & Hrows & _).
  destruct (cf_scan_law (wal_db w) WalData (u64_to_be from)) as (l & -> & Hsort & Hin).
  assert (Hg : Forall (row_good (wal_format w)) l).
  { apply Forall_forall. intros [k v] [Hkv _]%Hin. destruct (Hrows _ _ Hkv) as (s & -> & _ & Hs & Hd).
    exists s. split_and!; [done|lia|done]. }
  exists l. split; [done|]. split; [done|]. split.
  - clear Hin. induction Hsort as [|kv l Hl IH Hkv]; [constructor|]. apply Forall_cons in Hg as [Hg0 Hg].
    cbn. constructor; [by apply IH|]. apply Forall_forall.
    intros x (y & -> & (z & -> & Hz)%list_elem_of_fmap)%list_elem_of_fmap. cbn.
    rewrite Forall_forall in Hkv, Hg. destruct Hg0 as (s & Hk & Hs & _).
    destruct (Hg _ Hz) as (s' & Hk' & Hs' & _). specialize (Hkv _ Hz).
    rewrite Hk, Hk' in *. rewrite !be_roundtrip by done. rewrite u64_to_be_ltb in Hkv by done. by apply N.ltb_lt.
  - intros s e. rewrite list_elem_of_fmap. split.
    + intros ([k v] & Hse & Hkv). rewrite Forall_forall in Hg. destruct (Hg _ Hkv) as (s' & Hk & Hs & Hd).
      cbn in Hk. subst k. unfold row_entry in Hse. cbn in Hse, Hd. rewrite be_roundtrip in Hse by done.
      injection Hse as -> ->. apply Hin in Hkv as [Hrow Hle]. rewrite u64_to_be_leb in Hle by done.
      apply N.leb_le in Hle. split_and!; [done..|]. unfold wal_entry, wal_row. rewrite Hrow. cbn.
      by destruct (decode_wal_value _ _) as [[? ?]|].
    + intros (Hge & Hmax & He). unfold wal_entry in He. destruct (wal_row w s) as [v|] eqn:Hv; [|done].
      cbn in He. exists (u64_to_be s, v). split.
      * unfold row_entry. cbn. rewrite be_roundtrip by done. f_equal.
        destruct (decode_wal_value _ _) as [[? ?]|]; [by simplify_eq|done].
      * apply Hin. split; [done|]. rewrite u64_to_be_leb by done. by apply N.leb_le.
Qed.


Lemma read_range_page (w : RocksDbWal DB RB) from max_entries :
  wal_wf w -> from <= u64_max ->
  exists page c', read_range w from max_entries = (set_cache c' w, Ok page) /\
    (wal_format w = WfBincode -> c' = wal_arrow_cache w) /\
    (forall s, is_Some (c' !! s) -> is_Some (wal_arrow_cache w !! s) \/ s ∈ page.*1) /\
    StronglySorted N.lt page.*1 /\ N.of_nat (length page) <= max_entries /\
    (forall s e, (s, e) ∈ page -> from <= s /\ s <= u64_max /\ wal_entry w s = Some e) /\
    (forall s e, from <= s -> s <= u64_max -> wal_entry w s = Some e ->
      (s, e) ∈ page \/ forall s', s' ∈ page.*1 -> s' < s) /\
    (page = [] -> 0 < max_entries -> forall s, from <= s -> s <= u64_max -> wal_entry w s = None).
Proof.
  intros Hwf Hfrom. destruct (scan_rows _ _ Hwf Hfrom) as (l & Escan & Hg & Hsort & Hin).
  destruct (read_loop_page (wal_format w) (wal_arrow_enabled w) max_entries 0 (wal_arrow_cache w) l Hg)
    as (n & c' & E & Hn & Hmax & Hstop & Hbytes & Hc & Hkeys).
  exists (row_entry (wal_format w) <$> take n l), c'. unfold read_range. rewrite Escan, E.
  rewrite fmap_take in Hkeys |- *. set (all := row_entry (wal_format w) <$> l) in *.
  assert (Hs : StronglySorted (fun a b : N * WalEntry => a.1 < b.1) all).
  { clear -Hsort. induction all as [|x all IH]; [constructor|]. cbn in Hsort.
    inversion Hsort as [|? ? Hl Hx]; subst. constructor; [by apply IH|]. apply Forall_forall.
    intros y Hy. rewrite Forall_forall in Hx. apply Hx. by apply list_elem_of_fmap_2. }
  split_and!; [done|done|done| | | | |].
  - rewrite fmap_take. rewrite <- (take_drop n all.*1) in Hsort. by apply StronglySorted_app_1_l in Hsort.
  - rewrite length_take. lia.
  - intros s e Hse%elem_of_take_lookup. by apply Hin.
  - intros s e H1 H2 He. destruct (sorted_take_split _ all n (s, e) Hs) as [H|H]; [by apply Hin|by left|].
    right. intros s' (y & -> & Hy)%list_elem_of_fmap. apply (H _ Hy).
  - intros Hnil Hpos s H1 H2. destruct (wal_entry w s) as [e|] eqn:He; [|done]. exfalso.
    assert ((s, e) ∈ all) as Hse by (by apply Hin).
    assert (n = 0%nat) as ->.
    { apply (f_equal length) in Hnil. rewrite length_take in Hnil. unfold all in Hnil.
      rewrite length_fmap in Hnil. cbn in Hnil. lia. }
    assert (0 < length l)%nat as Hl.
    { destruct l; [by apply elem_of_nil in Hse|cbn; lia]. }
    destruct (Hstop Hl) as [Hz|Hz]; [cbn in Hz; lia|]. by rewrite take_0 in Hz.
Qed.

(** The margin never reaches past the flush and stays within its budget. *)
Lemma margin_start_ok (w : RocksDbWal DB RB) through max_bytes :
  wal_wf w ->
  flushed_margin_start w through max_bytes <= through /\
  bytes_after (flushed_margin_start w through max_bytes)
    (filter (fun sl => sl.1 <= through) (wal_sizes w)) <= max_bytes.
Proof.
  intros (_ & _ & Ht0 & _ & Hsort & Hsz). unfold flushed_margin_start.
  assert (Hpos : Forall (fun sl => 0 < sl.1) (wal_sizes w)).
  { rewrite Forall_fmap in Hsz. eapply Forall_impl; [exact Hsz|]. cbn. lia. }
  destruct (skip_while_spec (fun sl : N * N => through <? sl.1) (rev (wal_sizes w))) as (l1 & E & Hl1 & Hhead).
  set (l := skip_while _ _) in *. pose proof (sorted_rev _ Hsort) as Hrev. rewrite E in Hrev.
  assert (Hl : Forall (fun sl => 0 < sl.1 /\ sl.1 <= through) l).
  { apply Forall_forall. intros x Hx. split.
    - rewrite Forall_forall in Hpos. apply Hpos. apply list_elem_of_In, in_rev, list_elem_of_In.
      rewrite E. apply elem_of_app. by right.
    - destruct l as [|y l2] eqn:El; [by apply elem_of_nil in Hx|].
      specialize (Hhead _ _ eq_refl). apply N.ltb_ge in Hhead. apply StronglySorted_app_1_r in Hrev.
      inversion Hrev as [|? ? _ Hy]; subst. apply elem_of_cons in Hx as [->|Hx]; [done|].
      rewrite Forall_forall in Hy. specialize (Hy _ Hx). cbn in Hy. lia. }
  assert (Hfil : filter (fun sl => sl.1 <= through) (wal_sizes w) ≡ₚ l).
  { rewrite (Permutation_rev (wal_sizes w)), E, filter_app.
    rewrite (list_filter_all _ l) by (intros x Hx; rewrite Forall_forall in Hl; by apply Hl).
    rewrite (list_filter_none _ l1); [done|]. intros x Hx. rewrite Forall_forall in Hl1.
    specialize (Hl1 _ Hx). apply N.ltb_lt in Hl1. cbn. lia. }
  rewrite (bytes_after_Permutation _ _ _ Hfil).
  destruct (margin_loop_spec max_bytes 0 through l) as [H1 H2]; [|done|lia|].
  - by apply StronglySorted_app_1_r in Hrev.
  - split; [done|]. lia.
Qed.

(** ** Reopening *)

Lemma decode_current fmt b :
  is_ok (decode_wal_value (RB := RB) fmt b) = true -> is_current b = true.
Proof.
  unfold is_current. destruct fmt; unfold decode_wal_value.
  - destruct (bincode_deserialize b); cbn; [|done]. by rewrite orb_true_r.
  - unfold decode_prepared_slot. destruct (_ || _) eqn:E; [done|]. intros _.
    apply orb_false_iff in E as [E1 E2]. apply Nat.ltb_ge in E1. apply negb_false_iff in E2.
    rewrite E2. destruct (Nat.leb_spec 4 (length b)); [done|lia].
Qed.

(** The last entry is still in the log, or the log is empty and [last_seq]
    tells. *)
Definition tail_known (w : RocksDbWal DB RB) : Prop :=
  is_Some (wal_row w (wal_seq w)) \/
  (cf_rows (wal_db w) WalData = ∅ /\
   match cf_rows (wal_db w) WalMeta !! LAST_SEQ_KEY with
   | Some v => v = u64_value (wal_seq w)
   | None => wal_seq w = 0
   end).

(** [last_seq] was written by a truncation. *)
Definition meta_ok (w : RocksDbWal DB RB) : Prop :=
  forall v, cf_rows (wal_db w) WalMeta !! LAST_SEQ_KEY = Some v ->
    exists n, v = u64_value n /\ n < u64_max.

Lemma scan_all_current (w : RocksDbWal DB RB) :
  wal_wf w -> exists l, cf_scan (wal_db w) WalData [] = Ok <$> l /\
    StronglySorted (fun a b : bytes * string => bytes_ltb a.1 b.1 = true) l /\
    (forall k v, (k, v) ∈ l <-> cf_rows (wal_db w) WalData !! k = Some v) /\
    Forall (fun kv => is_current (str_bytes kv.2) = true) l.
Proof.
  intros (Hseq & Hrows & _). destruct (cf_scan_law (wal_db w) WalData []) as (l & -> & Hs & Hin).
  assert (Hin' : forall k v, (k, v) ∈ l <-> cf_rows (wal_db w) WalData !! k = Some v).
  { intros k v. rewrite Hin. unfold bytes_leb. destruct k; tauto. }
  exists l. split_and!; [done..|]. apply Forall_forall. intros [k v] Hkv%Hin'.
  destruct (Hrows _ _ Hkv) as (s & _ & _ & _ & Hd). by apply decode_current in Hd.
Qed.

Lemma migrate_current (w : RocksDbWal DB RB) :
  wal_wf w -> migrate_legacy_entries (wal_db w) = (wal_db w, Ok tt).
Proof.
  intros Hwf. destruct (scan_all_current _ Hwf) as (l & E & _ & _ & Hc).
  unfold migrate_legacy_entries. rewrite E. destruct l as [|[k v] l]; [done|]. cbn.
  apply Forall_cons in Hc as [Hc _]. cbn in Hc. by rewrite Hc.
Qed.

Lemma u64_value_len n : (length (str_bytes (u64_value n)) =? 8)%nat = true.
Proof. unfold u64_value. rewrite bytes_str_bytes by apply u64_to_be_ok. done. Qed.

Lemma recover_seq_ok (w : RocksDbWal DB RB) :
  wal_wf w -> meta_ok w ->
  exists seq, recover_seq (wal_db w) = Ok seq /\ seq < u64_max /\
    (forall s v, s <= u64_max -> wal_row w s = Some v -> s <= seq) /\
    (tail_known w -> seq = wal_seq w).
Proof.
  intros Hwf Hmeta. pose proof Hwf as (Hseq & Hrows & _). unfold recover_seq.
  pose proof (cf_last_law (wal_db w) WalData) as Hlast.
  destruct (cf_last (wal_db w) WalData) as [[[k v]|]|]; [|done|].
  - destruct Hlast as [Hkv Hmax]. destruct (Hrows _ _ Hkv) as (s & -> & Ht & Hs & _).
    rewrite key_seq_be by lia. exists s. split_and!; [done|lia| |].
    + intros s' v' Hs' Hv'. specialize (Hmax _ ltac:(by eexists)).
      rewrite u64_to_be_leb in Hmax by lia. by apply N.leb_le.
    + intros [[v' Hv']|[He _]].
      * specialize (Hmax _ ltac:(by eexists)). rewrite u64_to_be_leb in Hmax by lia.
        apply N.leb_le in Hmax. lia.
      * rewrite He in Hkv. by rewrite lookup_empty in Hkv.
  - rewrite cf_get_law. assert (Hnone : forall s, wal_row w s = None)
      by (intros s; unfold wal_row; by rewrite Hlast, lookup_empty).
    destruct (cf_rows (wal_db w) WalMeta !! LAST_SEQ_KEY) as [v|] eqn:Ev.
    + destruct (Hmeta _ Ev) as (n & -> & Hn). rewrite u64_value_len, u64_value_roundtrip by lia.
      exists n. split_and!; [done..| |]; [intros s v; by rewrite Hnone|].
      intros [[v' Hv']|[_ Hv]]; [by rewrite Hnone in Hv'|]. rewrite Ev in Hv.
      apply (f_equal value_u64) in Hv. rewrite !u64_value_roundtrip in Hv by lia. done.
    + exists 0. split_and!; [done|done|intros s v; by rewrite Hnone|].
      intros [[v' Hv']|[_ Hv]]; [by rewrite Hnone in Hv'|]. by rewrite Ev in Hv.
Qed.

Lemma recover_first_ok (w : RocksDbWal DB RB) seq :
  wal_wf w -> seq < u64_max ->
  (forall s v, s <= u64_max -> wal_row w s = Some v -> s <= seq) ->
  exists first, recover_first (wal_db w) seq = Ok first /\ 0 < first /\ first <= seq + 1 /\
    forall k v, cf_rows (wal_db w) WalData !! k = Some v ->
      exists s, k = u64_to_be s /\ first <= s /\ s <= seq.
Proof.
  intros Hwf Hle Hmax. pose proof Hwf as (Hseq & Hrows & Ht0 & _).
  destruct (scan_all_current _ Hwf) as (l & E & Hs & Hin & _). unfold recover_first. rewrite E.
  assert (Hrow : forall k v, cf_rows (wal_db w) WalData !! k = Some v ->
    exists s, k = u64_to_be s /\ wal_truncated_through w <= s /\ s <= u64_max /\ s <= seq).
  { intros k v Hkv. destruct (Hrows _ _ Hkv) as (s & -> & ? & ? & _). exists s.
    split_and!; [done|done|lia|]. eapply Hmax; [lia|exact Hkv]. }
  destruct l as [|[k v] l]; cbn.
  - exists (sat_add seq 1). rewrite sat_add_spec by lia. split_and!; [done|lia|lia|].
    intros k v Hkv%Hin. by apply elem_of_nil in Hkv.
  - destruct (Hrow k v) as (s & -> & ? & ? & ?); [apply Hin; by left|]. rewrite key_seq_be by done.
    exists s. split_and!; [done|lia|lia|]. intros k' v' Hkv'. destruct (Hrow _ _ Hkv') as (s' & -> & ? & ? & ?).
    exists s'. split_and!; [done| |done]. apply Hin in Hkv'. apply elem_of_cons in Hkv' as [E1|Hkv'].
    + assert (u64_to_be s' = u64_to_be s) as E2 by congruence. apply u64_to_be_inj in E2; lia.
    + inversion Hs as [|? ? _ Hx]; subst. rewrite Forall_forall in Hx. specialize (Hx _ Hkv'). cbn in Hx.
      rewrite u64_to_be_ltb in Hx by done. apply N.ltb_lt in Hx. lia.
Qed.

Lemma wal_open_ok (w : RocksDbWal DB RB) en :
  wal_wf w -> meta_ok w ->
  exists w', wal_open (wal_db w) (wal_format w) en = (wal_db w, Ok w') /\
    wal_wf w' /\ meta_ok w' /\ wal_db w' = wal_db w /\ wal_format w' = wal_format w /\
    (tail_known w -> wal_seq w' = wal_seq w) /\
    wal_arrow_cache w' = ∅ /\ wal_flushed_through w' = 0.
Proof.
  intros Hwf Hmeta. pose proof Hwf as (Hseq & Hrows & _).
  destruct (recover_seq_ok _ Hwf Hmeta) as (seq & Es & Hle & Hmax & Htail).
  destruct (recover_first_ok _ _ Hwf Hle Hmax) as (first & Ef & Hf0 & Hf1 & Hr).
  unfold wal_open. rewrite migrate_current, Es by done. cbn. rewrite Ef. cbn.
  eexists. split; [done|]. split_and!; try done.
  split_and!; cbn; try done; [|constructor].
  intros k v Hkv. destruct (Hr _ _ Hkv) as (s & -> & ? & ?). exists s. split_and!; [done..|].
  by destruct (Hrows _ _ Hkv) as (? & _ & _ & _ & ?).
Qed.

(** ** Purging a database *)

(** The keys of the rows of a database. *)
Definition purged_keys (fmt : WalFormat) (database : string) (l : list (bytes * string)) : list bytes :=
  (filter (fun kv => we_database (row_entry fmt kv).2 = database) l).*1.

Lemma purge_batch_rows fmt database l :
  Forall (row_good fmt) l ->
  purge_batch (RB := RB) fmt database (Ok <$> l) = Ok (DeleteCf WalData <$> purged_keys fmt database l).
Proof.
  unfold purged_keys.
  induction l as [|[k v] l IH]; intros Hg; [done|]. apply Forall_cons in Hg as [(s & Hk & Hs & Hd) Hg].
  cbn in Hk. subst k. cbn [fmap list_fmap purge_batch]. change (length (u64_to_be s) =? 8)%nat with true.
  cbn [negb]. cbn in Hd. rewrite filter_cons.
  destruct (decode_wal_value fmt (str_bytes v)) as [[o e]|] eqn:Ed; [|done].
  assert ((row_entry fmt (u64_to_be s, v)).2 = e) as He by (unfold row_entry; cbn; by rewrite Ed).
  cbn [mbind result_bind]. rewrite (IH Hg). cbn [mbind result_bind].
  case_bool_decide; case_decide; congruence || done.
Qed.

Lemma purged_keys_spec (w : RocksDbWal DB RB) database l s :
  wal_wf w -> (forall k v, (k, v) ∈ l <-> cf_rows (wal_db w) WalData !! k = Some v) ->
  u64_to_be s ∈ purged_keys (wal_format w) database l <->
  we_database <$> wal_entry w s = Some database.
Proof.
  intros (_ & Hrows & _) Hin. unfold purged_keys. rewrite list_elem_of_fmap. split.
  - intros ([k v] & Hk & [Hdb Hkv%Hin]%list_elem_of_filter). cbn in Hk. subst k.
    unfold wal_entry, wal_row. rewrite Hkv. cbn. unfold row_entry in Hdb. cbn in Hdb.
    destruct (Hrows _ _ Hkv) as (_ & _ & _ & _ & Hd).
    destruct (decode_wal_value _ _) as [[? e]|]; [|done]. cbn. by rewrite Hdb.
  - unfold wal_entry. destruct (wal_row w s) as [v|] eqn:Hv; cbn; [|done].
    destruct (decode_wal_value _ _) as [[? e]|] eqn:Ed; cbn; [|done]. intros [= Hdb].
    exists (u64_to_be s, v). split; [done|]. apply list_elem_of_filter. split; [|by apply Hin].
    unfold row_entry. cbn. by rewrite Ed.
Qed.

(** A purge deletes the keys of the database or, on an error, nothing. *)
Lemma purge_step (w w' : RocksDbWal DB RB) database r :
  purge_database w database = (w', r) -> wal_wf w ->
  exists d (ks : list bytes), w' = set_db d (set_cache (cache_purge_database database (wal_arrow_cache w)) w) /\
    (forall k, cf_rows d WalData !! k = if decide (k ∈ ks) then None else cf_rows (wal_db w) WalData !! k) /\
    cf_rows d WalMeta = cf_rows (wal_db w) WalMeta /\
    (forall s, u64_to_be s ∈ ks -> we_database <$> wal_entry w s = Some database) /\
    (r = Ok tt -> forall s, we_database <$> wal_entry w s = Some database -> u64_to_be s ∈ ks).
Proof.
  intros E Hwf. pose proof Hwf as (Hseq & Hrows & _).
  destruct (scan_all_current _ Hwf) as (l & El & _ & Hin & _).
  assert (Hg : Forall (row_good (wal_format w)) l).
  { apply Forall_forall. intros [k v] Hkv%Hin. destruct (Hrows _ _ Hkv) as (s & -> & _ & ? & ?).
    exists s. split_and!; [done|lia|done]. }
  assert (Hks := fun s => purged_keys_spec w database l s Hwf Hin).
  unfold purge_database in E. cbn [wal_format set_cache wal_db] in E.
  rewrite El, purge_batch_rows in E by done.
  set (ks := purged_keys (wal_format w) database l) in *.
  assert (Hnone : forall (k : bytes) (m : gmap bytes string),
    m !! k = if decide (k ∈ @nil bytes) then None else m !! k).
  { intros k m. case_decide as Hk; [by apply elem_of_nil in Hk|done]. }
  destruct ks as [|k0 ks0] eqn:Eks; cbn in E.
  { injection E as <- <-. exists (wal_db w), []. split_and!; [by destruct w|done|done|..].
    - intros s Hs. by apply elem_of_nil in Hs.
    - intros _ s. by rewrite <- Hks. }
  destruct (cf_write _ _) as [d|] eqn:Ed; injection E as <- <-.
  - change (DeleteCf WalData k0 :: (DeleteCf WalData <$> ks0)) with (DeleteCf WalData <$> k0 :: ks0) in Ed.
    exists d, (k0 :: ks0). split_and!; [done| | |intros s; by rewrite Hks|intros _ s; by rewrite Hks].
    + intros k. rewrite (cf_write_law _ _ _ Ed). apply deletes_rows.
    + rewrite (cf_write_law _ _ _ Ed). by apply deletes_ne.
  - exists (wal_db w), []. split_and!; [by destruct w|done|done| |done].
    intros s Hs. by apply elem_of_nil in Hs.
Qed.

Lemma purge_ok (w w' : RocksDbWal DB RB) database r :
  purge_database w database = (w', r) -> wal_wf w ->
  wal_wf w' /\ wal_seq w' = wal_seq w /\ wal_format w' = wal_format w /\
  wal_arrow_enabled w' = wal_arrow_enabled w /\
  wal_truncated_through w' = wal_truncated_through w /\
  wal_arrow_cache w' = cache_purge_database database (wal_arrow_cache w) /\
  cf_rows (wal_db w') WalMeta = cf_rows (wal_db w) WalMeta /\
  (forall s, wal_entry w' s = wal_entry w s \/
     (wal_entry w' s = None /\ we_database <$> wal_entry w s = Some database)) /\
  (r = Ok tt -> forall s, we_database <$> wal_entry w' s <> Some database).
Proof.
  intros E Hwf. destruct (purge_step _ _ _ _ E Hwf) as (d & ks & -> & Hd & Hm & Hk1 & Hk2).
  pose proof Hwf as (Hseq & Hrows & Hrest).
  assert (Hrow : forall s, wal_entry (set_db d (set_cache
      (cache_purge_database database (wal_arrow_cache w)) w)) s
    = if decide (u64_to_be s ∈ ks) then None else wal_entry w s).
  { intros s. unfold wal_entry, wal_row. cbn. rewrite Hd. by case_decide. }
  split; [|split_and!; try done].
  - split; [done|]. split; [|done]. intros k v Hk. cbn in Hk. rewrite Hd in Hk.
    case_decide; [done|]. by apply Hrows.
  - intros s. rewrite Hrow. case_decide as Hin0; [|by left]. right. split; [done|]. by apply Hk1.
  - intros Hr s. rewrite Hrow. case_decide as Hin0; [done|]. intros Hdb. by apply Hin0, Hk2.
Qed.

(** ** What the log does *)

(** A group-committed append that succeeds gives its entries the next
    consecutive sequences, in order; each reads back as the entry it was, no
    older entry changes, and the log stays well-formed. One that fails leaves
    every entry, the sizes and the cache as they were and only uses up
    sequences. *)
Theorem append_correct (w w' : RocksDbWal DB RB) bundles pre r :
  wal_wf w -> bundles_fit w bundles pre -> bundles <> [] ->
  wal_seq w + N.of_nat (length bundles) < u64_max ->
  write_bundle_batch w bundles pre = (w', r) ->
  match r with
  | Ok seqs =>
    wal_wf w' /\ seqs = seqN (wal_seq w + 1) (length bundles) /\
    wal_seq w' = wal_seq w + N.of_nat (length bundles) /\
    (forall i b, bundles !! i = Some b ->
      wal_entry w' (wal_seq w + 1 + N.of_nat i) = Some (wb_entry b)) /\
    (forall s, s <= wal_seq w -> wal_entry w' s = wal_entry w s)
  | Err _ => w' = set_seq (wrapping_add (wal_seq w) (N.of_nat (length bundles))) w
  end.
Proof.
  intros Hwf Hfit Hne Hmax E. destruct r as [seqs|e]; [|by eapply append_err].
  destruct (append_ok _ _ _ _ _ E Hne Hmax Hwf Hfit) as (Hwf' & Hs & Hq & Hnew & Hold & Hf & _).
  split_and!; try done; try apply Hwf'. intros s Hle. unfold wal_entry. by rewrite Hold, Hf.
Qed.

(** Reading from a sequence returns the entries from there on in order,
    none skipped: every entry of the log at or after the start is on the page
    or after all of the page. The page has at most [max_entries] entries, and
    it is empty only when the log has nothing more, so an empty page means
    the end of the log. *)
Theorem read_range_correct (w : RocksDbWal DB RB) from max_entries :
  wal_wf w -> from <= u64_max -> 0 < max_entries ->
  exists page c', read_range w from max_entries = (set_cache c' w, Ok page) /\
    StronglySorted N.lt page.*1 /\ N.of_nat (length page) <= max_entries /\
    (forall s e, (s, e) ∈ page -> from <= s /\ wal_entry w s = Some e) /\
    (forall s e, from <= s -> s <= u64_max -> wal_entry w s = Some e ->
      (s, e) ∈ page \/ forall s', s' ∈ page.*1 -> s' < s) /\
    (page = [] -> forall s, from <= s -> s <= u64_max -> wal_entry w s = None).
Proof.
  intros Hwf Hf Hmax. destruct (read_range_page w from max_entries Hwf Hf)
    as (page & c' & E & _ & _ & Hs & Hl & Hin & Hall & Hend).
  exists page, c'. split_and!; try done; [|by intros Hp; apply Hend].
  intros s e Hse. by destruct (Hin _ _ Hse) as (? & _ & ?).
Qed.

(** Truncating before a sequence removes exactly the entries below it,
    whether by point deletes or by a range delete, and keeps the log
    well-formed; on a database error no entry at or after the sequence is
    touched either. *)
Theorem truncate_before_correct (w w' : RocksDbWal DB RB) sequence r :
  wal_wf w -> sequence <= wal_seq w + 1 -> truncate_before w sequence = (w', r) ->
  wal_wf w' /\ wal_seq w' = wal_seq w /\
  (forall s, sequence <= s -> s <= u64_max -> wal_entry w' s = wal_entry w s) /\
  (r = Ok tt -> forall s, s < sequence -> s <= u64_max -> wal_entry w' s = None).
Proof.
  intros Hwf Hs E. destruct (truncate_ok _ _ _ _ E Hwf Hs) as (Hwf' & Hframe & Hkeep & _ & Hgone & _).
  destruct Hframe as (Hq & Hf & _). split; [done|]. split; [done|]. split.
  - intros s H1 H2. unfold wal_entry. by rewrite Hkeep, Hf.
  - intros Hr s H1 H2. unfold wal_entry. by rewrite Hgone.
Qed.

(** C35: Reopening the log after a crash gives a well-formed log with exactly
    the entries it had and, when its tail is known (the last entry is still
    there, or a truncation of everything recorded [last_seq]), the same last
    sequence, so that no sequence is assigned twice. The prepared slots, kept
    only in memory, are gone. *)
Theorem wal_reopen_correct (w : RocksDbWal DB RB) en :
  wal_wf w -> meta_ok w ->
  exists w', wal_open (wal_db w) (wal_format w) en = (wal_db w, Ok w') /\
    wal_wf w' /\ (forall s, wal_entry w' s = wal_entry w s) /\
    (tail_known w -> wal_seq w' = wal_seq w) /\ wal_arrow_cache w' = ∅.
Proof.
  intros Hwf Hm. destruct (wal_open_ok w en Hwf Hm) as (w' & E & Hwf' & _ & Hd & Hf & Ht & Hc & _).
  exists w'. split; [done|]. split; [done|]. split; [|done].
  intros s. unfold wal_entry, wal_row. by rewrite Hd, Hf.
Qed.

(** The byte-bounded margin: in a well-formed log the point up to which
    flushed entries may go never lies past the flush, and the entries this
    process wrote that stay behind it are together at most [max_bytes]
    long. *)
Theorem flushed_margin_bound (w : RocksDbWal DB RB) through max_bytes :
  wal_wf w ->
  flushed_margin_start w through max_bytes <= through /\
  bytes_after (flushed_margin_start w through max_bytes)
    (filter (fun sl => sl.1 <= through) (wal_sizes w)) <= max_bytes.
Proof. intros Hwf. by apply margin_start_ok. Qed.

End WalTheorems.

(** ** Witnesses *)

Definition wit_wal : RocksDbWal (MemDb WalCf) MemBatch := mkWal empty_db 0 0 1 0 [] ∅ WfBincode true.

Definition wit_entry : WalEntry := mkWalEntry "db" "autogen" [mkPoint "cpu" ∅ ∅ 7%Z] 0.

Definition wit_bundles : list (WalAppendBundle MemBatch) := [mkBundle wit_entry None; mkBundle sample_entry None].

Lemma wit_wal_wf : wal_wf wit_wal.
Proof.
  split; [done|]. split; [intros k v Hk; change ((∅ : gmap bytes string) !! k = Some v) in Hk; by rewrite lookup_empty in Hk|].
  split_and!; try done; constructor.
Qed.

Lemma wit_entry_fits : entry_fits wit_entry.
Proof. intros bs <-%Ok_inj. vm_compute. reflexivity. Qed.

Lemma wit_bundles_fit : bundles_fit wit_wal wit_bundles [].
Proof.
  intros [|[|i]] b Hb; [| |done]; injection Hb as <-; (split; [|by split]); [apply wit_entry_fits|].
  intros bs <-%Ok_inj. vm_compute. reflexivity.
Qed.

(** The log with two entries. *)
Definition wit_wal2 : RocksDbWal (MemDb WalCf) MemBatch := fst (write_bundle_batch wit_wal wit_bundles []).

Lemma append_correct_witness :
  snd (write_bundle_batch wit_wal wit_bundles []) = Ok [1; 2] /\ wal_entry wit_wal2 1 = Some wit_entry.
Proof.
  assert (snd (write_bundle_batch wit_wal wit_bundles []) = Ok [1; 2]) as E by (vm_compute; reflexivity).
  split; [exact E|].
  pose proof (append_correct wit_wal wit_wal2 wit_bundles [] (snd (write_bundle_batch wit_wal wit_bundles []))
    wit_wal_wf wit_bundles_fit ltac:(discriminate) ltac:(apply N.ltb_lt; reflexivity) (surjective_pairing _)) as H.
  rewrite E in H. destruct H as (_ & _ & _ & H & _). exact (H 0%nat _ eq_refl).
Defined.

Lemma wit_wal2_wf : wal_wf wit_wal2.
Proof.
  assert (snd (write_bundle_batch wit_wal wit_bundles []) = Ok [1; 2]) as E by (vm_compute; reflexivity).
  apply (append_ok wit_wal wit_wal2 wit_bundles [] [1; 2]).
  - rewrite <- E. apply surjective_pairing.
  - discriminate.
  - apply N.ltb_lt. reflexivity.
  - apply wit_wal_wf.
  - apply wit_bundles_fit.
Qed.

Lemma read_range_correct_witness :
  exists page c', read_range wit_wal2 1 10 = (set_cache c' wit_wal2, Ok page) /\
    page = [(1, wit_entry); (2, sample_entry)].
Proof.
  destruct (read_range_correct wit_wal2 1 10 wit_wal2_wf) as (page & c' & E & _).
  - apply N.leb_le. reflexivity.
  - reflexivity.
  - exists page, c'. split; [exact E|]. apply (f_equal snd) in E. cbn [snd] in E. apply (Ok_inj (E := WalError)). rewrite <- E.
    vm_compute. reflexivity.
Defined.

Lemma truncate_before_correct_witness :
  wal_entry (fst (truncate_before wit_wal2 2)) 1 = None /\
  wal_entry (fst (truncate_before wit_wal2 2)) 2 = wal_entry wit_wal2 2.
Proof.
  destruct (truncate_before_correct wit_wal2 (fst (truncate_before wit_wal2 2)) 2
    (snd (truncate_before wit_wal2 2)) wit_wal2_wf) as (_ & _ & Hkeep & Hgone).
  - vm_compute. discriminate.
  - apply surjective_pairing.
  - split.
    + apply Hgone; [vm_compute; reflexivity|reflexivity|vm_compute; discriminate].
    + apply Hkeep; vm_compute; discriminate.
Defined.

Lemma wal_reopen_correct_witness :
  exists w', wal_open (wal_db wit_wal2) WfBincode false = (wal_db wit_wal2, Ok w') /\
    wal_entry w' 1 = wal_entry wit_wal2 1 /\ wal_seq w' = 2.
Proof.
  destruct (wal_reopen_correct wit_wal2 false wit_wal2_wf) as (w' & E & _ & He & Hs & _).
  - intros v Hv. vm_compute in Hv. discriminate.
  - exists w'. split; [exact E|]. split; [apply He|]. apply Hs. left. exists (bytes_str (0 :: bit_bytes (encode sample_entry))).
    vm_compute. reflexivity.
Defined.

Lemma flushed_margin_bound_witness :
  flushed_margin_start wit_wal2 2 10 = 2 /\
  bytes_after 2 (filter (fun sl => sl.1 <= 2) (wal_sizes wit_wal2)) <= 10.
Proof.
  destruct (flushed_margin_bound wit_wal2 2 10 wit_wal2_wf) as [_ H].
  assert (flushed_margin_start wit_wal2 2 10 = 2) as E by (vm_compute; reflexivity).
  rewrite E in H. split; [exact E|exact H].
Defined.
