(* ===== verification/WalWriter.v ===== *)
(** * Writers of the log

    The group commit of [adapters/wal/batching_wal.rs], the two appends of
    [application/wal_append.rs] and the columnar batches they take
    ([application/columnar_msgpack.rs], [Precision] of [domain/database.rs]).
    The channel between the writers and the group commit is the list of
    requests waiting in it. *)

From Stdlib Require Import Ascii String.
From stdpp Require Import prelude list sorting gmap fin_maps strings.
From S2P Require Import Prelude Bytes CfStore Wire Points Arrow WalIpc ArrowCache Wal WalTheorems.
From stdpp Require Import options.

#[local] Open Scope N_scope.

(** ** Precision *)

Inductive Precision := Nanosecond | Microsecond | Millisecond | Second.

Definition precision_from_str_opt (s : option string) : Precision :=
  match s with
  | None => Nanosecond
  | Some s =>
    if bool_decide (s = "ns") then Nanosecond
    else if bool_decide (s = "us") || bool_decide (s = "u") then Microsecond
    else if bool_decide (s = "ms") then Millisecond
    else if bool_decide (s = "s") then Second
    else Nanosecond
  end.

Definition i64_min : Z := - 2 ^ 63.
Definition i64_max : Z := 2 ^ 63 - 1.

(** [i64::saturating_mul]. *)
Definition sat_mul_i64 (a b : Z) : Z := Z.max i64_min (Z.min (a * b) i64_max).

Definition precision_factor (p : Precision) : Z :=
  match p with
  | Nanosecond => 1 | Microsecond => 1000 | Millisecond => 1000000 | Second => 1000000000
  end.

Definition to_nanos (p : Precision) (ts : Z) : Z :=
  match p with
  | Nanosecond => ts
  | Microsecond => sat_mul_i64 ts 1000
  | Millisecond => sat_mul_i64 ts 1000000
  | Second => sat_mul_i64 ts 1000000000
  end.

(** Division of an [i64] truncates toward zero. *)
Definition from_nanos (p : Precision) (nanos : Z) : Z :=
  match p with
  | Nanosecond => nanos
  | Microsecond => Z.quot nanos 1000
  | Millisecond => Z.quot nanos 1000000
  | Second => Z.quot nanos 1000000000
  end.

(** ** Columnar batches *)

Inductive IngestError :=
| PointLimitExceeded (count limit : N)
| ColumnarMsgpackParse (reason : string)
| WallClockUnavailable
| IngestWal (e : WalError).

(** [values] are [f64] bit patterns. *)
Record ColumnarMsgpackBatch := mkColumnar {
  co_measurement : string;
  co_tags : gmap string string;
  co_field : string;
  co_values : list N;
  co_timestamps : option (list Z)
}.

Definition default_max_points_per_request : N := 500000.

Definition validate_point_count (count max_points : N) : result IngestError unit :=
  let limit := if max_points =? 0 then default_max_points_per_request else max_points in
  if limit <? count then Err (PointLimitExceeded count limit) else Ok tt.

(** [now] is [Utc::now().timestamp_nanos_opt()]. *)
Definition columnar_timestamps_ns (now : option Z) (wire : ColumnarMsgpackBatch)
    (precision : option string) : result IngestError (list Z) :=
  let n := length (co_values wire) in
  if (n =? 0)%nat then Ok []
  else
    match co_timestamps wire with
    | Some ts =>
      if negb (length ts =? n)%nat
      then Err (ColumnarMsgpackParse "timestamps length does not match values length")
      else Ok (to_nanos (precision_from_str_opt precision) <$> ts)
    | None =>
      now ← ok_or WallClockUnavailable now;
      mret (repeat now n)
    end.

Definition columnar_point (wire : ColumnarMsgpackBatch) (v : N) (ts : Z) : Point :=
  mkPoint (co_measurement wire) (co_tags wire) {[co_field wire := FFloat v]} ts.

Definition columnar_batch_to_points (now : option Z) (wire : ColumnarMsgpackBatch)
    (precision : option string) : result IngestError (list Point) :=
  if bool_decide (co_field wire = EmptyString)
  then Err (ColumnarMsgpackParse "field name must be non-empty")
  else if (length (co_values wire) =? 0)%nat then Ok []
  else
    ts ← columnar_timestamps_ns now wire precision;
    mret (zip_with (columnar_point wire) (co_values wire) ts).

(** ** Appends *)

Section Writer.
Context {DB A RB : Type} `{CDB : !CfDb WalCf DB} `{AR : !Arrow A RB}.
Context `{AI : !ArrowIpc RB} `{BC : !Bincode}.

(** The part of the sink that builds prepared slots; [None] is no sink. *)
Record SlotBuilder := mkBuilder {
  build_prepared_wal_slot :
    string -> string -> N -> list Point -> result string (PreparedWalSlot RB);
  build_prepared_wal_slot_from_columnar :
    string -> string -> N -> ColumnarMsgpackBatch -> option string -> result string (PreparedWalSlot RB)
}.

(** The slot of a write, when slots are enabled and one can be built. *)
Definition built_slot (w : RocksDbWal DB RB) (sink : option SlotBuilder)
    (build : SlotBuilder -> result string (PreparedWalSlot RB)) : option (PreparedWalSlot RB) :=
  if wal_arrow_enabled w then
    match sink with
    | Some b => match build b with Ok slot => Some slot | Err _ => None end
    | None => None
    end
  else None.

Definition lift_wal {B} (r : RocksDbWal DB RB * result WalError B)
    : RocksDbWal DB RB * result IngestError B :=
  (r.1, map_err IngestWal r.2).

Definition append_points_with_prepared (w : RocksDbWal DB RB) (sink : option SlotBuilder)
    (db rp : string) (points : list Point) (origin_node_id max_points_per_request : N)
    : RocksDbWal DB RB * result IngestError N :=
  match validate_point_count (N.of_nat (length points)) max_points_per_request with
  | Err e => (w, Err e)
  | Ok _ =>
    let entry := mkWalEntry db rp points origin_node_id in
    match built_slot w sink (fun b => build_prepared_wal_slot b db rp origin_node_id points) with
    | Some prepared => lift_wal (append_bundle w (mkBundle entry (Some prepared)))
    | None => lift_wal (append w entry)
    end
  end.

Definition append_columnar_with_prepared (w : RocksDbWal DB RB) (sink : option SlotBuilder)
    (now : option Z) (db rp : string) (wire : ColumnarMsgpackBatch) (precision : option string)
    (origin_node_id max_points_per_request : N) : RocksDbWal DB RB * result IngestError N :=
  match validate_point_count (N.of_nat (length (co_values wire))) max_points_per_request with
  | Err e => (w, Err e)
  | Ok _ =>
    match built_slot w sink
            (fun b => build_prepared_wal_slot_from_columnar b db rp origin_node_id wire precision) with
    | Some prepared =>
      lift_wal (append_bundle w (mkBundle (mkWalEntry db rp [] origin_node_id) (Some prepared)))
    | None =>
      match columnar_batch_to_points now wire precision with
      | Err e => (w, Err e)
      | Ok points =>
        append_points_with_prepared w sink db rp points origin_node_id max_points_per_request
      end
    end
  end.

(** ** Group commit *)

Record BatchRequest := mkRequest {
  br_bundle : WalAppendBundle RB;
  br_pre_encoded : option bytes
}.

(** What [enqueue] sends: bincode is encoded by the caller. *)
Definition make_request (format : WalFormat) (bundle : WalAppendBundle RB)
    : result WalError BatchRequest :=
  match format with
  | WfBincode =>
    b ← map_err WeBincode (bincode_serialize (wb_entry bundle));
    mret (mkRequest bundle (Some b))
  | WfArrowIpc => Ok (mkRequest bundle None)
  end.

(** One turn of [writer_loop]: the first request and what else is waiting, up
    to [max_batch]; every request of the batch gets an answer. *)
Definition writer_turn (w : RocksDbWal DB RB) (max_batch : nat) (first : BatchRequest)
    (waiting : list BatchRequest)
    : RocksDbWal DB RB * list (result WalError N) * list BatchRequest :=
  let batch := first :: take (max_batch - 1) waiting in
  let '(w', r) := write_bundle_batch w (br_bundle <$> batch) (br_pre_encoded <$> batch) in
  (w', match r with
       | Ok seqs => Ok <$> seqs
       | Err e => repeat (Err e) (length batch)
       end, drop (max_batch - 1) waiting).

(** [writer_loop] until the channel is empty; every turn takes a request, so
    the number of requests is enough fuel. *)
Fixpoint writer_run (fuel : nat) (w : RocksDbWal DB RB) (max_batch : nat) (queue : list BatchRequest)
    : RocksDbWal DB RB * list (result WalError N) :=
  match fuel, queue with
  | S fuel', first :: waiting =>
    let '(w', answers, rest) := writer_turn w max_batch first waiting in
    let '(w'', answers') := writer_run fuel' w' max_batch rest in
    (w'', answers ++ answers')
  | _, _ => (w, [])
  end.

Definition writer_loop (w : RocksDbWal DB RB) (max_batch : nat) (queue : list BatchRequest)
    : RocksDbWal DB RB * list (result WalError N) :=
  writer_run (length queue) w max_batch queue.

End Writer.

Section WriterTheorems.
Context {DB A RB : Type} `{CDB : !CfDb WalCf DB} `{DbLaws : !CfDbLaws WalCf DB}.
Context `{AR : !Arrow A RB} `{AI : !ArrowIpc RB} `{BC : !Bincode}.
Context `{AIL : !ArrowIpcLaws RB} `{BL : !BincodeLaws}.
#[local] Set Default Proof Using "Type*".

(** Every request fits the format. *)
Definition requests_fit (w : RocksDbWal DB RB) (queue : list (BatchRequest (RB := RB))) : Prop :=
  Forall (fun r => bundle_fits (wal_format w) (br_bundle r) (br_pre_encoded r)) queue.

(** The answers to a part of the queue: an [Ok] is the sequence under which
    the entry is in the log, and sequences grow along the queue. *)
Definition answered (w w' : RocksDbWal DB RB) (queue : list (BatchRequest (RB := RB)))
    (answers : list (result WalError N)) : Prop :=
  Forall2 (fun r a => forall s, a = Ok s ->
    wal_seq w < s /\ s <= wal_seq w' /\ wal_entry w' s = Some (wb_entry (br_bundle r))) queue answers /\
  (forall i j s s', (i < j)%nat -> answers !! i = Some (Ok s) -> answers !! j = Some (Ok s') -> s < s').

(** What a writer may do to the log. *)
Definition extends (w w' : RocksDbWal DB RB) (n : nat) : Prop :=
  wal_wf w' /\ wal_format w' = wal_format w /\
  wal_seq w <= wal_seq w' /\ wal_seq w' <= wal_seq w + N.of_nat n /\
  (forall s, s <= wal_seq w -> wal_entry w' s = wal_entry w s).

Lemma writer_turn_ok (w : RocksDbWal DB RB) max_batch first waiting w' answers rest :
  wal_wf w -> requests_fit w (first :: waiting) ->
  wal_seq w + N.of_nat (length (first :: waiting)) < u64_max ->
  writer_turn w max_batch first waiting = (w', answers, rest) ->
  exists batch, first :: waiting = batch ++ rest /\ batch <> [] /\
    extends w w' (length batch) /\ answered w w' batch answers.
Proof.
  intros Hwf Hfit Hmax E. unfold writer_turn in E.
  set (batch := first :: take (max_batch - 1) waiting) in *.
  assert (Hsplit : first :: waiting = batch ++ drop (max_batch - 1) waiting)
    by (unfold batch; cbn; by rewrite take_drop).
  assert (Hne : batch <> []) by done. clearbody batch.
  assert (Hfit' : Forall (fun r => bundle_fits (wal_format w) (br_bundle r) (br_pre_encoded r)) batch).
  { unfold requests_fit in Hfit. rewrite Hsplit in Hfit. by apply Forall_app in Hfit as [? _]. }
  assert (Hbound : wal_seq w + N.of_nat (length batch) < u64_max).
  { apply (f_equal length) in Hsplit. rewrite length_app in Hsplit. lia. }
  destruct (write_bundle_batch w _ _) as [w1 r] eqn:Ew. injection E as <- <- <-.
  exists batch. split; [done|]. split; [done|]. destruct r as [seqs|e].
  - destruct (append_ok _ _ _ _ _ Ew) as (Hwf' & -> & Hseq & Hnew & Hold & Hf & _);
      [by destruct batch|by rewrite length_fmap|done|..].
    { intros i b Hb. rewrite !list_lookup_fmap in *. destruct (batch !! i) as [r|] eqn:Er; [|done].
      cbn in *. simplify_eq. by apply (Forall_lookup_1 _ _ _ _ Hfit' Er). }
    rewrite length_fmap in *. split.
    + split_and!; try done; [lia..|]. intros s Hs. unfold wal_entry. by rewrite Hold, Hf.
    + split.
      * apply Forall2_same_length_lookup_2; [by rewrite length_fmap, seqN_length|].
        intros i r a Hr Ha s ->. pose proof (lookup_lt_Some _ _ _ Hr) as Hi.
        rewrite list_lookup_fmap, seqN_lookup in Ha by done. cbn in Ha. simplify_eq.
        split; [lia|]. split; [lia|]. apply Hnew. by rewrite list_lookup_fmap, Hr.
      * intros i j s s' Hij Hi Hj. rewrite list_lookup_fmap in Hi, Hj.
        assert (j < length batch)%nat as Hjl.
        { destruct (seqN _ _ !! j) eqn:Ej in Hj; [|done]. apply lookup_lt_Some in Ej.
          by rewrite seqN_length in Ej. }
        rewrite seqN_lookup in Hi, Hj by lia. cbn in *. simplify_eq. lia.
  - apply append_err in Ew as ->. rewrite length_fmap.
    assert (wrapping_add (wal_seq w) (N.of_nat (length batch)) = wal_seq w + N.of_nat (length batch)) as ->
      by (apply wrapping_add_small; lia).
    split; [split_and!; cbn; try done; [|lia..]; apply wf_set_seq; [done|lia|done]|].
    split.
    + apply Forall2_same_length_lookup_2; [by rewrite repeat_length|].
      intros i r a _ Ha s ->. apply list_elem_of_lookup_2, list_elem_of_In, repeat_spec in Ha. done.
    + intros i j s s' _ Hi. apply list_elem_of_lookup_2, list_elem_of_In, repeat_spec in Hi. done.
Qed.

Lemma answered_app (w w1 w' : RocksDbWal DB RB) q1 q2 a1 a2 n :
  extends w1 w' n -> wal_seq w <= wal_seq w1 ->
  answered w w1 q1 a1 -> answered w1 w' q2 a2 -> answered w w' (q1 ++ q2) (a1 ++ a2).
Proof.
  intros (_ & _ & Hle & _ & Hold) Hle0 [H1 O1] [H2 O2]. split.
  - apply Forall2_app.
    + eapply Forall2_impl; [exact H1|]. cbn. intros r a Ha s Hs. destruct (Ha s Hs) as (? & ? & ?).
      split_and!; [done|lia|]. by rewrite Hold.
    + eapply Forall2_impl; [exact H2|]. cbn. intros r a Ha s Hs. destruct (Ha s Hs) as (? & ? & ?).
      split_and!; [lia|done|done].
  - intros i j s s' Hij Hi Hj. apply lookup_app_Some in Hi as [Hi|[Hil Hi]];
      apply lookup_app_Some in Hj as [Hj|[Hjl Hj]].
    + by apply (O1 i j).
    + destruct (Forall2_lookup_r _ _ _ _ _ H1 Hi) as (r & _ & Hr). destruct (Hr s eq_refl) as (_ & ? & _).
      destruct (Forall2_lookup_r _ _ _ _ _ H2 Hj) as (r' & _ & Hr'). destruct (Hr' s' eq_refl) as (? & _). lia.
    + apply lookup_lt_Some in Hj. lia.
    + apply (O2 (i - length a1)%nat (j - length a1)%nat); [lia|done|done].
Qed.

Lemma writer_run_ok fuel (w : RocksDbWal DB RB) max_batch queue w' answers :
  wal_wf w -> requests_fit w queue -> wal_seq w + N.of_nat (length queue) < u64_max ->
  (length queue <= fuel)%nat -> writer_run fuel w max_batch queue = (w', answers) ->
  extends w w' (length queue) /\ answered w w' queue answers.
Proof.
  revert w queue w' answers. induction fuel as [|fuel IH]; intros w queue w' answers Hwf Hfit Hmax Hfuel E;
    (destruct queue as [|first waiting]; [injection E as <- <-;
       split; [split_and!; try done; lia|by split]|cbn [length] in Hfuel; try lia]).
  cbn [writer_run] in E. destruct (writer_turn w max_batch first waiting) as [[w1 a1] rest] eqn:Et.
  destruct (writer_turn_ok _ _ _ _ _ _ _ Hwf Hfit Hmax Et) as (batch & Hsplit & Hne & Hext & Hans).
  destruct (writer_run fuel w1 max_batch rest) as [w2 a2] eqn:Er. injection E as <- <-.
  assert (Hlen : length (first :: waiting) = (length batch + length rest)%nat)
    by (by rewrite Hsplit, length_app).
  assert (0 < length batch)%nat by (destruct batch; [done|cbn; lia]).
  pose proof Hext as (Hwf1 & Hf1 & Hle1 & Hub1 & Hold1).
  destruct (IH w1 rest w2 a2) as [Hext2 Hans2]; [done| |cbn [length] in *; lia..|done|].
  { unfold requests_fit in *. rewrite Hf1. rewrite Hsplit in Hfit. by apply Forall_app in Hfit as [_ ?]. }
  pose proof Hext2 as (Hwf2 & Hf2 & Hle2 & Hub2 & Hold2).
  split.
  - split_and!; [done|congruence|lia|cbn [length] in *; lia|]. intros s Hs. rewrite Hold2 by lia. by apply Hold1.
  - rewrite Hsplit. by eapply answered_app.
Qed.

(** Group commit: however the waiting requests are cut into batches,
    every request is answered, in order; a successful answer is the sequence
    under which exactly that request's entry is in the log, sequences grow
    along the queue, and the entries that were in the log before are
    unchanged. *)
Theorem group_commit_correct (w : RocksDbWal DB RB) max_batch queue w' answers :
  wal_wf w -> requests_fit w queue -> wal_seq w + N.of_nat (length queue) < u64_max ->
  writer_loop w max_batch queue = (w', answers) ->
  wal_wf w' /\ length answers = length queue /\
  (forall s, s <= wal_seq w -> wal_entry w' s = wal_entry w s) /\
  (forall i r s, queue !! i = Some r -> answers !! i = Some (Ok s) ->
    wal_seq w < s /\ wal_entry w' s = Some (wb_entry (br_bundle r))) /\
  (forall i j s s', (i < j)%nat -> answers !! i = Some (Ok s) -> answers !! j = Some (Ok s') -> s < s').
Proof.
  intros Hwf Hfit Hmax E.
  destruct (writer_run_ok _ _ _ _ _ _ Hwf Hfit Hmax ltac:(done) E) as [(Hwf' & _ & _ & _ & Hold) [Hans Hord]].
  split; [done|]. split; [by rewrite (Forall2_length _ _ _ Hans)|]. split; [done|]. split; [|done].
  intros i r s Hr Ha. destruct (Forall2_lookup_l _ _ _ _ _ Hans Hr) as (a & Ha' & Hra). simplify_eq.
  by destruct (Hra s eq_refl) as (? & _ & ?).
Qed.

(** A columnar write acknowledged in the bincode format is not durable:
    its durable entry has no points, the rows are only in the in-memory slot,
    and after a restart the log has an entry without points and no slot for
    it. *)
Theorem columnar_append_not_durable (w w' : RocksDbWal DB RB) sink now db rp wire precision origin limit seq slot :
  wal_wf w -> meta_ok w -> wal_seq w + 1 < u64_max -> wal_format w = WfBincode ->
  entry_fits (mkWalEntry db rp [] origin) ->
  built_slot w sink
    (fun b => build_prepared_wal_slot_from_columnar b db rp origin wire precision) = Some slot ->
  append_columnar_with_prepared w sink now db rp wire precision origin limit = (w', Ok seq) ->
  exists w'', wal_open (wal_db w') WfBincode true = (wal_db w', Ok w'') /\
    wal_entry w'' seq = Some (mkWalEntry db rp [] origin) /\ wal_arrow_cache w'' !! seq = None.
Proof.
  intros Hwf Hm Hmax Hf He Hslot E. unfold append_columnar_with_prepared in E.
  destruct (validate_point_count _ _); [|done]. rewrite Hslot in E.
  unfold lift_wal, append_bundle in E.
  destruct (write_bundle_batch w _ _) as [w1 [seqs|e]] eqn:Ew; [|done]. cbn in E. injection E as <- <-.
  destruct (append_ok _ _ _ _ _ Ew) as (Hwf' & -> & Hs & Hnew & _ & Hf' & Hmeta);
    [done|cbn; lia|done| |].
  { intros [|i] b Hb; simplify_eq/=. rewrite Hf. split_and!; [done|done|done]. }
  cbn. specialize (Hnew 0%nat _ eq_refl). cbn in Hnew. rewrite N.add_0_r in Hnew.
  assert (meta_ok w1) as Hm' by (intros v; rewrite Hmeta; apply Hm).
  destruct (wal_open_ok w1 true Hwf' Hm') as (w2 & Eo & _ & _ & Hd & Hfo & _ & Hc & _).
  rewrite Hf', Hf in Eo. exists w2. split; [done|]. split; [|by rewrite Hc].
  unfold wal_entry, wal_row in *. by rewrite Hd, Hfo.
Qed.
End WriterTheorems.

(** ** Timestamps *)

(** Converting a client timestamp to nanoseconds stays within [i64]: it
    is exact, and converted back gives the timestamp, when the product fits;
    otherwise it saturates at the bound on its side. *)
Theorem to_nanos_bounds p ts :
  i64_ok ts ->
  i64_ok (to_nanos p ts) /\
  ((i64_min <= ts * precision_factor p <= i64_max)%Z ->
   to_nanos p ts = (ts * precision_factor p)%Z /\ from_nanos p (to_nanos p ts) = ts) /\
  ((ts * precision_factor p < i64_min)%Z -> to_nanos p ts = i64_min) /\
  ((i64_max < ts * precision_factor p)%Z -> to_nanos p ts = i64_max).
Proof.
  unfold i64_ok. intros Hts. unfold i64_min, i64_max.
  assert (Hq : forall f : Z, (f = 1000 \/ f = 1000000 \/ f = 1000000000)%Z -> Z.quot (ts * f) f = ts)
    by (intros f Hf; apply Z.quot_mul; lia).
  destruct p; cbn [to_nanos precision_factor from_nanos]; unfold sat_mul_i64, i64_min, i64_max;
    (split; [lia|]); (split; [|lia]); intros H; (split; [lia|]);
    rewrite ?Z.min_l, ?Z.max_r by lia; try apply Hq; lia.
Qed.

(** ** Witnesses *)

Lemma to_nanos_bounds_witness :
  to_nanos Second 1700000000 = 1700000000000000000%Z /\ to_nanos Second 10000000000 = i64_max.
Proof.
  destruct (to_nanos_bounds Second 1700000000) as (_ & H & _); [unfold i64_ok; lia|].
  destruct (to_nanos_bounds Second 10000000000) as (_ & _ & _ & H2); [unfold i64_ok; lia|].
  split; [apply H; unfold i64_min, i64_max; cbn; lia|apply H2; unfold i64_max; cbn; lia].
Defined.

Definition wit_requests : list (BatchRequest (RB := MemBatch)) :=
  [mkRequest (mkBundle wit_entry None) None; mkRequest (mkBundle sample_entry None) None].

Lemma wit_requests_fit : requests_fit wit_wal wit_requests.
Proof.
  repeat constructor; try done; intros bs <-%Ok_inj; vm_compute; reflexivity.
Qed.

Lemma group_commit_correct_witness :
  snd (writer_loop wit_wal 8 wit_requests) = [Ok 1; Ok 2] /\
  wal_entry (fst (writer_loop wit_wal 8 wit_requests)) 2 = Some sample_entry.
Proof.
  assert (snd (writer_loop wit_wal 8 wit_requests) = [Ok 1; Ok 2]) as E by (vm_compute; reflexivity).
  split; [exact E|].
  destruct (group_commit_correct wit_wal 8 wit_requests (fst (writer_loop wit_wal 8 wit_requests))
    (snd (writer_loop wit_wal 8 wit_requests)) wit_wal_wf wit_requests_fit) as (_ & _ & _ & H & _).
  - apply N.ltb_lt. reflexivity.
  - apply surjective_pairing.
  - rewrite E in H. apply (H 1%nat (mkRequest (mkBundle sample_entry None) None) 2); reflexivity.
Defined.

Definition wit_columnar : ColumnarMsgpackBatch := mkColumnar "cpu" ∅ "v" [0] (Some [7%Z]).

Definition wit_builder : SlotBuilder (RB := MemBatch) :=
  mkBuilder (fun _ _ _ _ => Ok sample_slot) (fun _ _ _ _ _ => Ok sample_slot).

Lemma columnar_append_not_durable_witness :
  exists w'', wal_open (wal_db (fst (append_columnar_with_prepared wit_wal (Some wit_builder) None
      "db" "autogen" wit_columnar None 0 0))) WfBincode true
    = (wal_db (fst (append_columnar_with_prepared wit_wal (Some wit_builder) None
      "db" "autogen" wit_columnar None 0 0)), Ok w'') /\
    wal_entry w'' 1 = Some (mkWalEntry "db" "autogen" [] 0) /\ wal_arrow_cache w'' !! 1 = None.
Proof.
  apply (columnar_append_not_durable wit_wal
    (fst (append_columnar_with_prepared wit_wal (Some wit_builder) None "db" "autogen" wit_columnar None 0 0))
    (Some wit_builder) None "db" "autogen" wit_columnar None 0 0 1 sample_slot).
  - apply wit_wal_wf.
  - intros v Hv. vm_compute in Hv. discriminate.
  - apply N.ltb_lt. reflexivity.
  - reflexivity.
  - intros bs <-%Ok_inj. vm_compute. reflexivity.
  - reflexivity.
  - assert (snd (append_columnar_with_prepared wit_wal (Some wit_builder) None "db" "autogen" wit_columnar None 0 0)
      = Ok 1) as E by (vm_compute; reflexivity).
    rewrite <- E. apply surjective_pairing.
Defined.
