(* ===== verification/ReplicationLog.v ===== *)
(** * The replication log

    [adapters/cluster/replication_log.rs]: per-peer acknowledgements of the
    WAL and of the mutation log, the mutation log itself, and the last
    mutation applied per origin, which [handle_replicate_mutation]
    ([adapters/http/peer_handlers.rs]) uses to drop duplicates. The mutations
    are opaque here; serde_json on log entries is the class [MutationCodec].
    The database is shared with the hinted-handoff and the forward queue, each
    in a column family of its own. *)

From Stdlib Require Import Ascii String.
From stdpp Require Import prelude list sorting gmap fin_maps strings.
From S2P Require Import Prelude Bytes CfStore Wire.
From stdpp Require Import options.

#[local] Open Scope N_scope.

(** The column families of the database. *)
Inductive ReplCf := ReplData | HintData | ForwardData.

#[export] Instance repl_cf_eq_dec : EqDecision ReplCf.
Proof. solve_decision. Defined.

Definition ack_prefix : bytes := str_bytes "repl_ack:".
Definition mutation_log_prefix : bytes := str_bytes "mutation_log:".
Definition mutation_ack_prefix : bytes := str_bytes "mutation_ack:".
Definition applied_prefix : bytes := str_bytes "applied_mutation:".

Definition ack_key (peer_id : N) : bytes := ack_prefix ++ decimal peer_id.
Definition mutation_log_key (seq : N) : bytes := mutation_log_prefix ++ hex16 seq.
Definition mutation_ack_key (peer_id : N) : bytes := mutation_ack_prefix ++ decimal peer_id.
Definition applied_mutation_key (origin_node_id : N) : bytes := applied_prefix ++ decimal origin_node_id.

Record MutationLogEntry (Req : Type) := mkMutationEntry {
  me_seq : N;
  me_request : Req
}.
Arguments mkMutationEntry {Req} _ _.
Arguments me_seq {Req} _.
Arguments me_request {Req} _.

Class MutationCodec (Req : Type) := {
  mutation_to_vec : MutationLogEntry Req -> result string string;
  mutation_from_slice : string -> result string (MutationLogEntry Req)
}.

(** serde_json reads back the entries it wrote. *)
Class MutationCodecLaws (Req : Type) `{MutationCodec Req} :=
  mutation_json_law : forall e v, me_seq e <= u64_max -> mutation_to_vec e = Ok v -> mutation_from_slice v = Ok e.

Record ReplicationLog (DB : Type) := mkReplLog {
  rl_db : DB;
  rl_mutation_seq : N;
  rl_applied : gmap N N
}.
Arguments mkReplLog {DB} _ _ _.
Arguments rl_db {DB} _.
Arguments rl_mutation_seq {DB} _.
Arguments rl_applied {DB} _.

Section ReplicationLog.
Context {DB Req : Type} `{CDB : !CfDb ReplCf DB} `{MC : !MutationCodec Req}.

Definition rl_set_db (d : DB) (l : ReplicationLog DB) : ReplicationLog DB :=
  mkReplLog d (rl_mutation_seq l) (rl_applied l).

(** ** Opening *)

(** The number a key ends in after a prefix, [None] when it does not parse. *)
Definition key_number (prefix : bytes) (radix : N) (key : bytes) : option N :=
  if utf8_valid key then s ← strip_prefix prefix key; from_str_radix radix s else None.

Definition recover_mutation_seq (d : DB) : N :=
  fold_left (fun max_seq kv =>
    match key_number mutation_log_prefix 16 kv.1 with
    | Some s => N.max max_seq s
    | None => max_seq
    end) (prefix_rows d ReplData mutation_log_prefix) 0.

Definition recover_applied (d : DB) : gmap N N :=
  fold_left (fun m kv =>
    match key_number applied_prefix 10 kv.1 with
    | Some origin =>
      if (length (str_bytes kv.2) =? 8)%nat then <[origin := value_u64 kv.2]> m else m
    | None => m
    end) (prefix_rows d ReplData applied_prefix) ∅.

(** [ReplicationLog::open] on an opened database. *)
Definition repl_open (d : DB) : ReplicationLog DB :=
  mkReplLog d (recover_mutation_seq d) (recover_applied d).

(** ** Acknowledgements *)

(** The stored number, 0 without a row. *)
Definition get_ack (d : DB) (key : bytes) : result string N :=
  match cf_get d ReplData key with
  | Ok (Some v) => Ok (value_u64 v)
  | Ok None => Ok 0
  | Err e => Err e
  end.

(** A put unless the stored number is already as high; a failed read counts
    as 0. *)
Definition advance_ack (d : DB) (key : bytes) (seq : N) : DB * result string unit :=
  let current := match get_ack d key with Ok n => n | Err _ => 0 end in
  if seq <=? current then (d, Ok tt)
  else
    match cf_write d [PutCf ReplData key (u64_value seq)] with
    | Ok d' => (d', Ok tt)
    | Err e => (d, Err e)
    end.

Definition set_wal_ack (l : ReplicationLog DB) (peer_id seq : N) : ReplicationLog DB * result string unit :=
  let '(d, r) := advance_ack (rl_db l) (ack_key peer_id) seq in (rl_set_db d l, r).

Definition get_wal_ack (l : ReplicationLog DB) (peer_id : N) : result string N :=
  get_ack (rl_db l) (ack_key peer_id).

Definition set_mutation_ack (l : ReplicationLog DB) (peer_id seq : N)
    : ReplicationLog DB * result string unit :=
  let '(d, r) := advance_ack (rl_db l) (mutation_ack_key peer_id) seq in (rl_set_db d l, r).

Definition get_mutation_ack (l : ReplicationLog DB) (peer_id : N) : result string N :=
  get_ack (rl_db l) (mutation_ack_key peer_id).

(** The least number under a prefix, over the rows there are. *)
Definition min_ack (d : DB) (prefix : bytes) : option N :=
  fold_left (fun m kv =>
    let seq := value_u64 kv.2 in
    Some (match m with Some m => N.min m seq | None => seq end)) (prefix_rows d ReplData prefix) None.

Definition min_wal_ack (l : ReplicationLog DB) : option N := min_ack (rl_db l) ack_prefix.

Definition min_mutation_ack (l : ReplicationLog DB) : option N := min_ack (rl_db l) mutation_ack_prefix.

Fixpoint min_max_loop (l : ReplicationLog DB) (peer_ids : list N) (min_a max_a : N)
    : result string (N * N) :=
  match peer_ids with
  | [] => Ok (min_a, max_a)
  | pid :: peer_ids' =>
    a ← get_wal_ack l pid;
    min_max_loop l peer_ids' (N.min min_a a) (N.max max_a a)
  end.

Definition min_max_wal_ack_for_peers (l : ReplicationLog DB) (peer_ids : list N)
    : result string (N * N) :=
  match peer_ids with
  | [] => Ok (u64_max, 0)
  | _ => min_max_loop l peer_ids u64_max 0
  end.

(** What a synchronous replication records when the peer answers with success:
    the peer's [ack_seq], or the batch's sequence when there is none. *)
Definition record_sync_ack (l : ReplicationLog DB) (peer_id wal_seq : N) (ack_seq : option N)
    : ReplicationLog DB :=
  fst (set_wal_ack l peer_id (default wal_seq ack_seq)).

(** ** The mutation log *)

Definition append_mutation (l : ReplicationLog DB) (request : Req) : ReplicationLog DB * result string N :=
  let seq := wrapping_add (rl_mutation_seq l) 1 in
  let l := mkReplLog (rl_db l) seq (rl_applied l) in
  match mutation_to_vec (mkMutationEntry seq request) with
  | Err e => (l, Err e)
  | Ok value =>
    match cf_write (rl_db l) [PutCf ReplData (mutation_log_key seq) value] with
    | Err e => (l, Err e)
    | Ok d => (rl_set_db d l, Ok seq)
    end
  end.

(** The loop of [read_mutations_from]; an unreadable item is skipped. *)
Fixpoint read_mutations (max_entries : nat) (items : list (result string (bytes * string)))
    : result string (list (MutationLogEntry Req)) :=
  match max_entries, items with
  | O, _ | _, [] => Ok []
  | S _, Err _ :: items' => read_mutations max_entries items'
  | S max', Ok (key, value) :: items' =>
    if negb (has_prefix mutation_log_prefix key) then Ok []
    else
      entry ← mutation_from_slice value;
      rest ← read_mutations max' items';
      mret (entry :: rest)
  end.

Definition read_mutations_from (l : ReplicationLog DB) (from_seq : N) (max_entries : nat)
    : result string (list (MutationLogEntry Req)) :=
  read_mutations max_entries (cf_scan (rl_db l) ReplData (mutation_log_key from_seq)).

Definition last_mutation_seq (l : ReplicationLog DB) : N := rl_mutation_seq l.

Definition truncate_mutations_before (l : ReplicationLog DB) (seq : N)
    : ReplicationLog DB * result string unit :=
  match cf_write (rl_db l) [DeleteRangeCf ReplData (mutation_log_key 0) (mutation_log_key seq)] with
  | Err e => (l, Err e)
  | Ok d => (rl_set_db d l, Ok tt)
  end.

(** ** Duplicates *)

(** [map.entry(origin).or_insert(0)] adds the origin also when the mutation
    is refused or the put fails. *)
Definition check_and_record_mutation (l : ReplicationLog DB) (origin_node_id seq : N)
    : ReplicationLog DB * result string bool :=
  let last := default 0 (rl_applied l !! origin_node_id) in
  let l := mkReplLog (rl_db l) (rl_mutation_seq l) (<[origin_node_id := last]> (rl_applied l)) in
  if last <? seq then
    match cf_write (rl_db l) [PutCf ReplData (applied_mutation_key origin_node_id) (u64_value seq)] with
    | Err e => (l, Err e)
    | Ok d => (mkReplLog d (rl_mutation_seq l) (<[origin_node_id := seq]> (rl_applied l)), Ok true)
    end
  else (l, Ok false).

Definition repl_remove_peer (l : ReplicationLog DB) (peer_id : N) : ReplicationLog DB :=
  let drop_key k (l : ReplicationLog DB) :=
    match cf_write (rl_db l) [DeleteCf ReplData k] with
    | Ok d => rl_set_db d l
    | Err _ => l
    end in
  drop_key (mutation_ack_key peer_id) (drop_key (ack_key peer_id) l).

(** ** The receiver of a replicated mutation *)

(** The answer to a replicated mutation: success with the sender's sequence,
    or an error the sender retries. *)
Inductive MutationReply :=
| MutationAck (seq : N)
| MutationError.

(** [handle_replicate_mutation] after the origin was validated; [apply] is
    [apply_mutation] on the receiver's state [S]. *)
Definition handle_replicate_mutation {S} (apply : S -> Req -> S * result string unit)
    (l : ReplicationLog DB) (st : S) (origin sender_seq : N) (mutation : Req)
    : ReplicationLog DB * S * MutationReply :=
  let run (l : ReplicationLog DB) :=
    match apply st mutation with
    | (st', Ok _) => (l, st', MutationAck sender_seq)
    | (st', Err _) => (l, st', MutationError)
    end in
  if origin =? 0 then run l
  else
    match check_and_record_mutation l origin sender_seq with
    | (l', Ok false) => (l', st, MutationAck sender_seq)
    | (l', Err _) => (l', st, MutationError)
    | (l', Ok true) => run l'
    end.

End ReplicationLog.

(** ** A codec in memory, for text requests *)

#[export] Instance mem_mutation_codec : MutationCodec string := {
  mutation_to_vec e := Ok (String.append (u64_value (me_seq e)) (me_request e));
  mutation_from_slice v := Ok (mkMutationEntry (value_u64 v) (bytes_str (drop 8 (str_bytes v))))
}.

#[export] Instance mem_mutation_codec_laws : MutationCodecLaws string.
Proof.
  intros [s r] v Hs Hv%Ok_inj. subst v. cbn in *. do 2 f_equal.
  - unfold value_u64, be_to_u64. rewrite str_bytes_app, take_app_le by (by rewrite u64_value_length).
    by apply u64_value_roundtrip.
  - rewrite str_bytes_app, drop_app_length' by (by rewrite u64_value_length). apply str_bytes_str.
Qed.
