(* ===== verification/ReplicationLogTheorems.v ===== *)
(** * Properties of the replication log

    Acknowledgements only advance; the mutation log is read in order with
    none skipped; a mutation is accepted at most once per origin, also across
    restarts; and what happens to a mutation whose first application fails or
    that arrives out of order. *)

From Stdlib Require Import Ascii String.
From stdpp Require Import prelude list sorting gmap fin_maps strings.
From S2P Require Import Prelude Bytes CfStore Wire ReplicationLog.
From stdpp Require Import options.

#[local] Open Scope N_scope.
#[local] Arguments apply_cf_op : simpl never.

(** ** Keys *)

Lemma ack_key_inj p q : ack_key p = ack_key q -> p = q.
Proof. intros E%app_inv_head. by apply decimal_inj. Qed.

Lemma mutation_ack_key_inj p q : mutation_ack_key p = mutation_ack_key q -> p = q.
Proof. intros E%app_inv_head. by apply decimal_inj. Qed.

Lemma applied_key_inj p q : applied_mutation_key p = applied_mutation_key q -> p = q.
Proof. intros E%app_inv_head. by apply decimal_inj. Qed.

Lemma mutation_log_key_inj a b :
  a <= u64_max -> b <= u64_max -> mutation_log_key a = mutation_log_key b -> a = b.
Proof. intros Ha Hb E%app_inv_head. by apply hex16_inj. Qed.

(** Keys of different kinds differ: none starts with the prefix of
    another. *)
Lemma key_kinds p q :
  has_prefix ack_prefix (mutation_ack_key q) = false /\
  has_prefix ack_prefix (mutation_log_key p) = false /\
  has_prefix ack_prefix (applied_mutation_key q) = false /\
  has_prefix mutation_log_prefix (ack_key p) = false /\
  has_prefix mutation_log_prefix (mutation_ack_key q) = false /\
  has_prefix mutation_log_prefix (applied_mutation_key q) = false /\
  has_prefix mutation_ack_prefix (ack_key p) = false /\
  has_prefix mutation_ack_prefix (mutation_log_key p) = false /\
  has_prefix mutation_ack_prefix (applied_mutation_key q) = false /\
  has_prefix applied_prefix (ack_key p) = false /\
  has_prefix applied_prefix (mutation_ack_key q) = false /\
  has_prefix applied_prefix (mutation_log_key p) = false.
Proof. split_and!; reflexivity. Qed.

Lemma prefix_ne p k k' : has_prefix p k = true -> has_prefix p k' = false -> k <> k'.
Proof. congruence. Qed.

Lemma ack_prefix_key p : has_prefix ack_prefix (ack_key p) = true.
Proof. apply has_prefix_app. Qed.

Lemma mutation_ack_prefix_key p : has_prefix mutation_ack_prefix (mutation_ack_key p) = true.
Proof. apply has_prefix_app. Qed.

Lemma mutation_log_prefix_key s : has_prefix mutation_log_prefix (mutation_log_key s) = true.
Proof. apply has_prefix_app. Qed.

Lemma applied_prefix_key o : has_prefix applied_prefix (applied_mutation_key o) = true.
Proof. apply has_prefix_app. Qed.

Lemma key_number_log s : s <= u64_max -> key_number mutation_log_prefix 16 (mutation_log_key s) = Some s.
Proof.
  intros Hs. unfold key_number, mutation_log_key. rewrite utf8_ascii.
  - rewrite strip_prefix_app. cbn. by apply hex16_roundtrip.
  - apply Forall_app. split; [by repeat constructor|apply hex16_ascii].
Qed.

Lemma key_number_applied o : o <= u64_max -> key_number applied_prefix 10 (applied_mutation_key o) = Some o.
Proof.
  intros Ho. unfold key_number, applied_mutation_key. rewrite utf8_ascii.
  - rewrite strip_prefix_app. cbn. by apply decimal_roundtrip.
  - apply Forall_app. split; [by repeat constructor|apply decimal_ascii].
Qed.

Lemma mutation_log_key_ltb a b :
  a <= u64_max -> b <= u64_max -> bytes_ltb (mutation_log_key a) (mutation_log_key b) = (a <? b).
Proof. intros Ha Hb. unfold mutation_log_key. rewrite bytes_ltb_app. by apply hex16_ltb. Qed.

Lemma mutation_log_key_leb a b :
  a <= u64_max -> b <= u64_max -> bytes_leb (mutation_log_key a) (mutation_log_key b) = (a <=? b).
Proof. intros Ha Hb. unfold bytes_leb. rewrite mutation_log_key_ltb by done. by rewrite N.leb_antisym. Qed.

Section ReplTheorems.
Context {DB Req : Type} `{CDB : !CfDb ReplCf DB} `{DbLaws : !CfDbLaws ReplCf DB}.
Context `{MC : !MutationCodec Req}.
#[local] Set Default Proof Using "Type*".

Definition repl_row (l : ReplicationLog DB) (k : bytes) : option string := cf_rows (rl_db l) ReplData !! k.

(** ** Acknowledgements *)

Definition row_num (o : option string) : N := match o with Some v => value_u64 v | None => 0 end.

Lemma get_ack_row d k : get_ack d k = Ok (row_num (cf_rows d ReplData !! k)).
Proof. unfold get_ack. rewrite cf_get_law. by destruct (_ !! k). Qed.

Lemma put_rows d d' k v :
  cf_write d [PutCf ReplData k v] = Ok d' -> cf_rows d' ReplData = <[k := v]> (cf_rows d ReplData).
Proof. intros E. rewrite (cf_write_law _ _ _ E). cbn [fold_left]. apply apply_put_eq. Qed.

Lemma advance_ack_spec d k seq d' r :
  advance_ack d k seq = (d', r) -> seq <= u64_max ->
  (r = Ok tt -> get_ack d' k = Ok (N.max (row_num (cf_rows d ReplData !! k)) seq)) /\
  (r <> Ok tt -> d' = d) /\
  (forall k', k' <> k -> cf_rows d' ReplData !! k' = cf_rows d ReplData !! k') /\
  (cf_rows d' ReplData !! k = cf_rows d ReplData !! k \/ cf_rows d' ReplData !! k = Some (u64_value seq)).
Proof.
  unfold advance_ack. rewrite get_ack_row. intros E Hs.
  destruct (N.leb_spec seq (row_num (cf_rows d ReplData !! k))) as [Hle|Hgt].
  { injection E as <- <-. split_and!; try done; [|by left]. intros _. rewrite get_ack_row. f_equal. lia. }
  destruct (cf_write d _) as [d1|e] eqn:Ew; injection E as <- <-; [|split_and!; try done; by left].
  apply put_rows in Ew. split_and!; try done.
  - intros _. rewrite get_ack_row, Ew, lookup_insert_eq. cbn. rewrite u64_value_roundtrip by done. f_equal. lia.
  - intros k' Hk'. rewrite Ew. by rewrite lookup_insert_ne.
  - right. by rewrite Ew, lookup_insert_eq.
Qed.

(** Recording a WAL acknowledgement never moves a peer's watermark
    back: it becomes the maximum of the old and the new one, whatever the
    order in which acknowledgements arrive, and no other peer's watermark and
    no mutation watermark changes. When the write fails nothing changes. *)
Theorem wal_ack_monotone (l l' : ReplicationLog DB) peer seq r :
  set_wal_ack l peer seq = (l', r) -> seq <= u64_max ->
  exists old, get_wal_ack l peer = Ok old /\
    get_wal_ack l' peer = Ok (match r with Ok _ => N.max old seq | Err _ => old end) /\
    (forall q, q <> peer -> get_wal_ack l' q = get_wal_ack l q) /\
    (forall q, get_mutation_ack l' q = get_mutation_ack l q).
Proof.
  unfold set_wal_ack, get_wal_ack, get_mutation_ack.
  destruct (advance_ack (rl_db l) (ack_key peer) seq) as [d r0] eqn:E. intros [= <- <-] Hs.
  destruct (advance_ack_spec _ _ _ _ _ E Hs) as (Hok & Herr & Hother & _).
  eexists. split; [apply get_ack_row|]. cbn. split; [|split].
  - destruct r0 as [[]|e]; [by apply Hok|]. rewrite Herr by done. apply get_ack_row.
  - intros q Hq. rewrite !get_ack_row, Hother; [done|]. intros Hk. by apply ack_key_inj in Hk.
  - intros q. rewrite !get_ack_row, Hother; [done|].
    apply not_eq_sym. eapply prefix_ne; [apply ack_prefix_key|]. apply (key_kinds 0 q).
Qed.

Lemma min_max_loop_spec (l : ReplicationLog DB) ps mn mx mn' mx' :
  min_max_loop l ps mn mx = Ok (mn', mx') ->
  mn' <= mn /\ mx <= mx' /\
  (forall p a, p ∈ ps -> get_wal_ack l p = Ok a -> mn' <= a /\ a <= mx') /\
  (mn' = mn \/ exists p, p ∈ ps /\ get_wal_ack l p = Ok mn') /\
  (mx' = mx \/ exists p, p ∈ ps /\ get_wal_ack l p = Ok mx').
Proof.
  revert mn mx. induction ps as [|p ps IH]; intros mn mx; cbn [min_max_loop].
  { intros [= <- <-]. split_and!; try lia; try (by left). by intros ? ? ?%elem_of_nil. }
  destruct (get_wal_ack l p) as [a|] eqn:Ea; cbn; [|done]. intros E.
  destruct (IH _ _ E) as (H1 & H2 & H3 & H4 & H5). split_and!; [lia|lia| | |].
  - intros q b [->|Hq]%elem_of_cons Hb; [rewrite Ea in Hb; apply Ok_inj in Hb as ->; lia|by eapply H3].
  - destruct H4 as [->|(q & Hq & Hb)]; [|right; exists q; split; [by right|done]].
    destruct (N.min_spec mn a) as [[_ ->]|[_ ->]]; [by left|]. right. exists p. split; [by left|done].
  - destruct H5 as [->|(q & Hq & Hb)]; [|right; exists q; split; [by right|done]].
    destruct (N.max_spec mx a) as [[_ ->]|[_ ->]]; [|by left]. right. exists p. split; [by left|done].
Qed.

Lemma min_max_ok (l : ReplicationLog DB) ps :
  ps <> [] ->
  exists mn mx, min_max_wal_ack_for_peers l ps = Ok (mn, mx) /\
    (forall p a, p ∈ ps -> get_wal_ack l p = Ok a -> mn <= a /\ a <= mx) /\
    (exists p, p ∈ ps /\ get_wal_ack l p = Ok mn) /\ (exists p, p ∈ ps /\ get_wal_ack l p = Ok mx).
Proof.
  intros Hne. assert (forall ps mn mx, exists r, min_max_loop l ps mn mx = Ok r) as Htot.
  { intros ps0. induction ps0 as [|p ps0 IH]; intros mn mx; cbn; [by eexists|].
    unfold get_wal_ack. rewrite get_ack_row. cbn. apply IH. }
  destruct ps as [|p ps]; [done|]. destruct (Htot (p :: ps) u64_max 0) as [[mn mx] E].
  exists mn, mx. split; [done|]. destruct (min_max_loop_spec _ _ _ _ _ _ E) as (_ & _ & H3 & H4 & H5).
  split; [done|].
  assert (exists a, get_wal_ack l p = Ok a /\ a <= u64_max) as (a & Ea & Ha).
  { eexists. split; [apply get_ack_row|]. destruct (_ !! _); cbn; [apply value_u64_le|done]. }
  destruct (H3 p a ltac:(by left) Ea) as [? ?]. split.
  - destruct H4 as [->|?]; [|done]. exists p. split; [by left|]. rewrite Ea. f_equal. lia.
  - destruct H5 as [->|?]; [|done]. exists p. split; [by left|]. rewrite Ea. f_equal. lia.
Qed.

(** ** Mutations applied once *)

(** Every row under the applied prefix is a number under an origin's key, and
    the map in memory agrees with the rows. *)
Definition applied_ok (l : ReplicationLog DB) : Prop :=
  (forall k v, repl_row l k = Some v -> has_prefix applied_prefix k = true ->
     exists o s, o <= u64_max /\ s <= u64_max /\ k = applied_mutation_key o /\ v = u64_value s) /\
  (forall o, o <= u64_max -> default 0 (rl_applied l !! o) = row_num (repl_row l (applied_mutation_key o))).

Lemma recover_applied_fold rows (m : gmap N N) o :
  (forall k v, (k, v) ∈ rows ->
     exists o s, o <= u64_max /\ s <= u64_max /\ k = applied_mutation_key o /\ v = u64_value s) ->
  NoDup rows.*1 ->
  let m' := fold_left (fun m kv =>
    match key_number applied_prefix 10 kv.1 with
    | Some origin =>
      if (length (str_bytes kv.2) =? 8)%nat then <[origin := value_u64 kv.2]> m else m
    | None => m
    end) rows m in
  (forall s, s <= u64_max -> (applied_mutation_key o, u64_value s) ∈ rows -> m' !! o = Some s) /\
  (applied_mutation_key o ∉ rows.*1 -> m' !! o = m !! o).
Proof.
  cbv zeta. revert m. induction rows as [|[k v] rows IH]; intros m Hwf Hnd; cbn [fold_left].
  { split; [by intros s _ ?%elem_of_nil|done]. }
  cbn in Hnd. apply NoDup_cons in Hnd as [Hni Hnd].
  destruct (Hwf k v) as (o' & s' & Ho & Hs & -> & ->); [by left|].
  cbn [fst snd]. rewrite key_number_applied, u64_value_length, u64_value_roundtrip by done. cbn [Nat.eqb].
  destruct (IH (<[o' := s']> m)) as [IH1 IH2]; [intros; apply Hwf; by right|done|]. split.
  - intros s Hs1 [[Hk Hv]%pair_equal_spec|Hin]%elem_of_cons; [|by apply IH1].
    apply applied_key_inj in Hk as ->. apply u64_value_inj in Hv as ->; [|done..].
    rewrite IH2 by done. by rewrite lookup_insert_eq.
  - cbn. intros [Hk Hin]%not_elem_of_cons. rewrite IH2 by done. rewrite lookup_insert_ne; [done|]. by intros ->.
Qed.

Lemma sorted_keys_NoDup (rows : list (bytes * string)) :
  StronglySorted (fun a b => bytes_ltb a.1 b.1 = true) rows -> NoDup rows.*1.
Proof.
  induction 1 as [|x l Hl IH Hx]; [constructor|]. cbn. constructor; [|done].
  intros (y & Hy & Hin)%list_elem_of_fmap. rewrite Forall_forall in Hx. specialize (Hx _ Hin).
  by rewrite Hy, bytes_ltb_irrefl in Hx.
Qed.

(** Reopening reads the map back. *)
Lemma applied_ok_reopen (l : ReplicationLog DB) :
  applied_ok l -> applied_ok (repl_open (rl_db l)).
Proof.
  intros [Hwf Hmap]. split; [done|]. intros o Ho. unfold repl_open, repl_row. cbn [rl_applied rl_db].
  destruct (prefix_rows_spec (rl_db l) ReplData applied_prefix) as [Hs Hin].
  destruct (recover_applied_fold (prefix_rows (rl_db l) ReplData applied_prefix) ∅ o) as [H1 H2].
  { intros k v [? ?]%Hin. by apply Hwf. }
  { by apply sorted_keys_NoDup. }
  destruct (cf_rows (rl_db l) ReplData !! applied_mutation_key o) as [v|] eqn:E.
  - destruct (Hwf _ _ E (applied_prefix_key o)) as (o' & s & _ & Hs' & _ & ->).
    unfold recover_applied. rewrite (H1 s) by (try apply Hin; auto using applied_prefix_key). cbn.
    by rewrite u64_value_roundtrip.
  - unfold recover_applied. rewrite H2; [done|]. intros ([k v] & Hk & Hkv)%list_elem_of_fmap.
    cbn in Hk. subst k. apply Hin in Hkv as [? _]. congruence.
Qed.

(** Writes outside the applied prefix leave it alone. *)
Lemma applied_ok_frame (l l' : ReplicationLog DB) :
  applied_ok l -> rl_applied l' = rl_applied l ->
  (forall k, has_prefix applied_prefix k = true -> repl_row l' k = repl_row l k) -> applied_ok l'.
Proof.
  intros [Hwf Hmap] Ha Hrow. split.
  - intros k v Hk Hp. apply (Hwf k v); [|done]. by rewrite <- Hrow.
  - intros o Ho. rewrite Ha, Hrow by apply applied_prefix_key. by apply Hmap.
Qed.

Lemma check_and_record_spec (l l' : ReplicationLog DB) o s r :
  check_and_record_mutation l o s = (l', r) -> applied_ok l -> o <= u64_max -> s <= u64_max ->
  applied_ok l' /\
  (forall q, q <> o -> default 0 (rl_applied l' !! q) = default 0 (rl_applied l !! q)) /\
  match r with
  | Ok true => default 0 (rl_applied l !! o) < s /\ default 0 (rl_applied l' !! o) = s
  | Ok false => s <= default 0 (rl_applied l !! o) /\
                default 0 (rl_applied l' !! o) = default 0 (rl_applied l !! o)
  | Err _ => default 0 (rl_applied l' !! o) = default 0 (rl_applied l !! o)
  end.
Proof.
  unfold check_and_record_mutation. intros E [Hwf Hmap] Ho Hs. cbn [rl_db rl_mutation_seq rl_applied] in E.
  set (last := default 0 (rl_applied l !! o)) in *.
  assert (Hsame : applied_ok (mkReplLog (rl_db l) (rl_mutation_seq l) (<[o := last]> (rl_applied l))) /\
    forall q, default 0 ((<[o := last]> (rl_applied l)) !! q) = default 0 (rl_applied l !! q)).
  { assert (forall q, default 0 ((<[o := last]> (rl_applied l)) !! q) = default 0 (rl_applied l !! q)) as Hq.
    { intros q. destruct (decide (o = q)) as [<-|Hne]; [by rewrite lookup_insert_eq|by rewrite lookup_insert_ne]. }
    split; [|done]. split; [done|]. intros q Hle. cbn. rewrite Hq. by apply Hmap. }
  destruct Hsame as [Hok Hq].
  destruct (N.ltb_spec last s) as [Hlt|Hge]; [|injection E as <- <-; split_and!; auto; apply Hok].
  destruct (cf_write (rl_db l) _) as [d|e] eqn:Ew; injection E as <- <-; cbn;
    [|split; [done|]; split; [intros q _; apply Hq|apply Hq]].
  apply put_rows in Ew. split; [split|split].
  - intros k v Hk Hp. unfold repl_row in Hk. cbn in Hk. rewrite Ew in Hk.
    apply lookup_insert_Some in Hk as [[<- <-]|[_ Hk]]; [by exists o, s|by apply Hwf].
  - intros q Hle. unfold repl_row. cbn. rewrite Ew. destruct (decide (o = q)) as [<-|Hne].
    + rewrite !lookup_insert_eq. cbn. by rewrite u64_value_roundtrip.
    + rewrite !lookup_insert_ne; [by apply Hmap|by intros ?%applied_key_inj|done..].
  - intros q Hne. by rewrite !lookup_insert_ne by done.
  - rewrite lookup_insert_eq. done.
Qed.

(** What the node does to its log, in any order; a restart reopens it on the
    database as it is. *)
Inductive ReplEvent :=
| EvWalAck (peer seq : N)
| EvMutationAck (peer seq : N)
| EvAppend (request : Req)
| EvTruncate (seq : N)
| EvRemovePeer (peer : N)
| EvDeliver (origin seq : N)
| EvRestart.

Definition event_ok (e : ReplEvent) : Prop :=
  match e with
  | EvDeliver o s => o <= u64_max /\ s <= u64_max
  | EvTruncate s => s <= u64_max
  | _ => True
  end.

(** The log after an event, and the mutation the event let through. *)
Definition repl_step (l : ReplicationLog DB) (e : ReplEvent) : ReplicationLog DB * option (N * N) :=
  match e with
  | EvWalAck p s => (fst (set_wal_ack l p s), None)
  | EvMutationAck p s => (fst (set_mutation_ack l p s), None)
  | EvAppend r => (fst (append_mutation l r), None)
  | EvTruncate s => (fst (truncate_mutations_before l s), None)
  | EvRemovePeer p => (repl_remove_peer l p, None)
  | EvDeliver o s =>
    match check_and_record_mutation l o s with
    | (l', Ok true) => (l', Some (o, s))
    | (l', _) => (l', None)
    end
  | EvRestart => (repl_open (rl_db l), None)
  end.

Fixpoint repl_run (l : ReplicationLog DB) (es : list ReplEvent) : ReplicationLog DB * list (N * N) :=
  match es with
  | [] => (l, [])
  | e :: es' =>
    let '(l1, a) := repl_step l e in
    let '(l2, acc) := repl_run l1 es' in
    (l2, match a with Some x => x :: acc | None => acc end)
  end.

(** A row written under a key without the prefix is not seen under it. *)
Lemma row_frame d d' p k0 :
  (exists v, cf_rows d' ReplData = <[k0 := v]> (cf_rows d ReplData)) \/
    cf_rows d' ReplData = delete k0 (cf_rows d ReplData) ->
  has_prefix p k0 = false ->
  forall k, has_prefix p k = true -> cf_rows d' ReplData !! k = cf_rows d ReplData !! k.
Proof.
  intros [[v Hd]|Hd] Hk0 k Hk; rewrite Hd; [rewrite lookup_insert_ne|rewrite lookup_delete_ne]; congruence.
Qed.

Lemma advance_frame d k0 seq d' r p :
  advance_ack d k0 seq = (d', r) -> has_prefix p k0 = false ->
  forall k, has_prefix p k = true -> cf_rows d' ReplData !! k = cf_rows d ReplData !! k.
Proof.
  unfold advance_ack. destruct (_ <=? _); [by intros [= <- <-]|].
  destruct (cf_write d _) as [d1|e] eqn:Ew; intros [= <- <-]; [|done]. apply put_rows in Ew.
  apply row_frame. left. by eexists.
Qed.

Lemma truncate_rows (l l' : ReplicationLog DB) seq r :
  truncate_mutations_before l seq = (l', r) ->
  (r <> Ok tt -> l' = l) /\
  (r = Ok tt -> forall k, repl_row l' k =
     if in_range (mutation_log_key 0) (mutation_log_key seq) k then None else repl_row l k) /\
  rl_applied l' = rl_applied l /\ rl_mutation_seq l' = rl_mutation_seq l.
Proof.
  unfold truncate_mutations_before. destruct (cf_write (rl_db l) _) as [d|e] eqn:Ew; intros [= <- <-]; [|done].
  split_and!; try done. intros _ k. unfold repl_row. cbn. rewrite (cf_write_law _ _ _ Ew).
  cbn [fold_left]. rewrite apply_delete_range_eq. destruct (in_range _ _ k) eqn:E.
  - apply map_lookup_filter_None. right. intros v _. cbn. congruence.
  - destruct (cf_rows (rl_db l) ReplData !! k) as [v|] eqn:Ek.
    + by apply map_lookup_filter_Some.
    + apply map_lookup_filter_None. by left.
Qed.

Lemma in_log_range s k :
  in_range (mutation_log_key 0) (mutation_log_key s) k = true -> has_prefix mutation_log_prefix k = true.
Proof.
  intros [H1 H2]%andb_true_iff.
  assert (mutation_log_key 0 = mutation_log_key 0) by done.
  eapply prefix_convex; [|exact H2|apply mutation_log_prefix_key].
  eapply bytes_leb_trans; [apply bytes_prefix_leb|exact H1].
Qed.

Lemma remove_peer_frame (l : ReplicationLog DB) peer p :
  has_prefix p (ack_key peer) = false -> has_prefix p (mutation_ack_key peer) = false ->
  rl_applied (repl_remove_peer l peer) = rl_applied l /\
  forall k, has_prefix p k = true -> repl_row (repl_remove_peer l peer) k = repl_row l k.
Proof.
  intros H1 H2. unfold repl_remove_peer.
  assert (Hdrop : forall k0 (l : ReplicationLog DB), has_prefix p k0 = false ->
    let l' := match cf_write (rl_db l) [DeleteCf ReplData k0] with Ok d => rl_set_db d l | Err _ => l end in
    rl_applied l' = rl_applied l /\ forall k, has_prefix p k = true -> repl_row l' k = repl_row l k).
  { intros k0 l0 Hk0. destruct (cf_write (rl_db l0) _) as [d|e] eqn:Ew; [|done]. split; [done|].
    apply row_frame with (k0 := k0); [|done]. right. rewrite (cf_write_law _ _ _ Ew). cbn [fold_left].
    apply apply_delete_eq. }
  destruct (Hdrop (ack_key peer) l H1) as [Ha1 Hr1].
  destruct (Hdrop (mutation_ack_key peer)
    (match cf_write (rl_db l) [DeleteCf ReplData (ack_key peer)] with Ok d => rl_set_db d l | Err _ => l end) H2)
    as [Ha2 Hr2].
  split; [by rewrite Ha2, Ha1|]. intros k Hk. by rewrite Hr2, Hr1.
Qed.

Definition touches_applied (e : ReplEvent) : bool :=
  match e with EvDeliver _ _ | EvRestart => true | _ => false end.

Lemma repl_step_frame (l : ReplicationLog DB) e :
  touches_applied e = false ->
  snd (repl_step l e) = None /\
  rl_applied (fst (repl_step l e)) = rl_applied l /\
  forall k, has_prefix applied_prefix k = true -> repl_row (fst (repl_step l e)) k = repl_row l k.
Proof.
  destruct e as [p s|p s|r|s|p|o s|]; intros He; try done; cbn [repl_step snd fst]; split; try done.
  - unfold set_wal_ack. destruct (advance_ack _ _ _) as [d r] eqn:E. split; [done|].
    by eapply advance_frame.
  - unfold set_mutation_ack. destruct (advance_ack _ _ _) as [d r] eqn:E. split; [done|].
    by eapply advance_frame.
  - unfold append_mutation. destruct (mutation_to_vec _) as [v|]; [|done]. cbn [rl_db].
    destruct (cf_write (rl_db l) _) as [d|] eqn:Ew; [|done]. split; [done|]. apply put_rows in Ew.
    eapply row_frame; [left; by eexists|]. done.
  - destruct (truncate_mutations_before l s) as [l' r] eqn:E.
    destruct (truncate_rows _ _ _ _ E) as (H1 & H2 & H3 & _). split; [done|]. intros k Hk. cbn.
    destruct r as [[]|]; [|by rewrite H1]. rewrite H2 by done.
    destruct (in_range _ _ k) eqn:Er; [|done]. apply in_log_range in Er.
    apply has_prefix_true in Er as [k' ->]. done.
  - by apply remove_peer_frame.
Qed.

Lemma repl_step_applied_ok (l l' : ReplicationLog DB) e a :
  repl_step l e = (l', a) -> event_ok e -> applied_ok l ->
  applied_ok l' /\
  forall o, o <= u64_max ->
    default 0 (rl_applied l !! o) <= default 0 (rl_applied l' !! o) /\
    forall s, a = Some (o, s) -> default 0 (rl_applied l !! o) < s /\ default 0 (rl_applied l' !! o) = s.
Proof.
  intros E He Hok.
  destruct (touches_applied e) eqn:Hf; [|
    apply (repl_step_frame l) in Hf as (Ha & Hm & Hr); rewrite E in Ha, Hm, Hr; cbn in Ha, Hm, Hr; subst a;
    split; [by eapply applied_ok_frame|]; intros o Ho; by rewrite Hm].
  destruct e as [p s|p s|r|s|p|o s|]; try done; cbn [repl_step] in E.
  - destruct He as [Ho Hs]. destruct (check_and_record_mutation l o s) as [l1 r] eqn:Ec.
    destruct (check_and_record_spec _ _ _ _ _ Ec Hok Ho Hs) as (Hok1 & Hne & Hr).
    assert (l' = l1 /\ (forall q t, a = Some (q, t) -> r = Ok true /\ q = o /\ t = s)) as [-> Ha].
    { destruct r as [[]|]; injection E as <- <-; split; try done. intros q t [= <- <-]. done. }
    split; [done|]. intros q Hq. destruct (decide (q = o)) as [->|Hqo].
    + split; [destruct r as [[]|]; lia|]. intros t (-> & _ & ->)%Ha. done.
    + rewrite Hne by done. split; [done|]. intros t (_ & -> & _)%Ha. done.
  - injection E as <- <-. pose proof (applied_ok_reopen _ Hok) as Hok'. split; [done|].
    intros o Ho. split; [|done]. rewrite (proj2 Hok), (proj2 Hok') by done. done.
Qed.

Lemma repl_run_accepts (l l' : ReplicationLog DB) es acc :
  repl_run l es = (l', acc) -> Forall event_ok es -> applied_ok l ->
  (forall o s, (o, s) ∈ acc -> o <= u64_max /\ default 0 (rl_applied l !! o) < s) /\
  forall i j o s t, (i < j)%nat -> acc !! i = Some (o, s) -> acc !! j = Some (o, t) -> s < t.
Proof.
  revert l acc. induction es as [|e es IH]; intros l acc; cbn [repl_run].
  { intros [= <- <-] _ _. split; [by intros o s ?%elem_of_nil|]. intros i j o s t _ Hi. by rewrite lookup_nil in Hi. }
  destruct (repl_step l e) as [l1 a] eqn:E1. destruct (repl_run l1 es) as [l2 acc2] eqn:E2.
  intros [= <- <-] [He Hes]%Forall_cons Hok.
  destruct (repl_step_applied_ok _ _ _ _ E1 He Hok) as [Hok1 Hstep].
  destruct (IH _ _ E2 Hes Hok1) as [Hin Hord].
  assert (Hin1 : forall o s, (o, s) ∈ acc2 -> o <= u64_max /\ default 0 (rl_applied l !! o) < s).
  { intros o s [Ho Hs]%Hin. split; [done|]. destruct (Hstep o Ho) as [? _]. lia. }
  destruct a as [[o0 s0]|]; [|done].
  assert (Ho0 : o0 <= u64_max).
  { destruct e; cbn in E1; try (by injection E1); try done. destruct (check_and_record_mutation _ _ _) as [? [[]|]];
      injection E1; intros; subst; by destruct He. }
  destruct (Hstep o0 Ho0) as [_ Hs0]. destruct (Hs0 s0 eq_refl) as [Hlt Heq]. split.
  - intros o s [[= -> ->]|H]%elem_of_cons; [done|by apply Hin1].
  - intros [|i] [|j] o s t Hij Hi Hj; try lia; cbn in Hi, Hj.
    + injection Hi as -> ->. apply list_elem_of_lookup_2, Hin in Hj as [_ Hj]. lia.
    + eapply (Hord i j); [lia|done..].
Qed.

(** C39: A replicated mutation is let through at most once, also across
    restarts: over any sequence of acknowledgements, appends, truncations,
    peer removals, deliveries and restarts that starts from an empty
    database, the mutations [check_and_record_mutation] accepts from one
    origin have strictly increasing sequence numbers, so that no mutation is
    accepted twice. *)
Theorem mutation_accepted_once (d : DB) es l acc :
  cf_rows d ReplData = ∅ -> Forall event_ok es -> repl_run (repl_open d) es = (l, acc) ->
  (forall i j o s t, (i < j)%nat -> acc !! i = Some (o, s) -> acc !! j = Some (o, t) -> s < t) /\ NoDup acc.
Proof.
  intros Hd Hes E.
  assert (applied_ok (repl_open d)) as Hok.
  { apply (applied_ok_reopen (mkReplLog d 0 ∅)). split; unfold repl_row; cbn; rewrite Hd.
    - intros k v Hk. by rewrite lookup_empty in Hk.
    - intros o _. by rewrite !lookup_empty. }
  destruct (repl_run_accepts _ _ _ _ E Hes Hok) as [_ Hord]. split; [done|].
  apply NoDup_alt. intros i j [o s] Hi Hj.
  destruct (lt_eq_lt_dec i j) as [[Hlt|]|Hlt]; [|done|]; exfalso.
  - specialize (Hord _ _ _ _ _ Hlt Hi Hj). lia.
  - specialize (Hord _ _ _ _ _ Hlt Hj Hi). lia.
Qed.

(** ** The mutation log *)

Context `{ML : !MutationCodecLaws Req}.

Definition mutation_row (l : ReplicationLog DB) (s : N) (e : MutationLogEntry Req) : Prop :=
  exists v, repl_row l (mutation_log_key s) = Some v /\ mutation_from_slice v = Ok e.

(** Every row of the log is an entry under its own sequence, none above the
    counter. *)
Definition mutations_ok (l : ReplicationLog DB) : Prop :=
  rl_mutation_seq l <= u64_max /\
  forall k v, repl_row l k = Some v -> has_prefix mutation_log_prefix k = true ->
    exists s e, 1 <= s <= rl_mutation_seq l /\ k = mutation_log_key s /\
      mutation_from_slice v = Ok e /\ me_seq e = s.

Lemma mutation_row_seq (l : ReplicationLog DB) s e :
  mutations_ok l -> s <= u64_max -> mutation_row l s e -> me_seq e = s /\ 1 <= s <= rl_mutation_seq l.
Proof.
  intros [Hb Hwf] Hs (v & Hv & He). destruct (Hwf _ _ Hv (mutation_log_prefix_key s)) as (s' & e' & Hs' & Hk & He' & Hm).
  apply mutation_log_key_inj in Hk as <-; [|lia..]. rewrite He in He'. by apply Ok_inj in He' as <-.
Qed.

Lemma append_mutation_spec (l l' : ReplicationLog DB) req r :
  append_mutation l req = (l', r) -> mutations_ok l -> rl_mutation_seq l < u64_max ->
  mutations_ok l' /\ rl_mutation_seq l' = rl_mutation_seq l + 1 /\
  match r with
  | Ok seq => seq = rl_mutation_seq l + 1 /\
      forall s e, s <= u64_max ->
        (mutation_row l' s e <-> mutation_row l s e \/ s = seq /\ e = mkMutationEntry seq req)
  | Err _ => forall s e, mutation_row l' s e <-> mutation_row l s e
  end.
Proof.
  unfold append_mutation. intros E Hok Hlt. pose proof Hok as [Hb Hwf]. cbn [rl_db rl_mutation_seq rl_applied] in E.
  assert (Hw : wrapping_add (rl_mutation_seq l) 1 = rl_mutation_seq l + 1).
  { apply wrapping_add_small. lia. }
  rewrite Hw in E. set (seq := rl_mutation_seq l + 1) in *.
  assert (Hup : mutations_ok (mkReplLog (rl_db l) seq (rl_applied l))).
  { split; [cbn; lia|]. intros k v Hk Hp. destruct (Hwf k v Hk Hp) as (s & e & Hs & Hrest).
    exists s, e. split; [cbn; lia|done]. }
  destruct (mutation_to_vec (mkMutationEntry seq req)) as [v|] eqn:Ev; [|injection E as <- <-; by split_and!].
  destruct (cf_write (rl_db l) _) as [d|] eqn:Ew; [|injection E as <- <-; by split_and!].
  injection E as <- <-. apply put_rows in Ew. apply mutation_json_law in Ev; [|cbn; lia].
  split; [split|split]; try done.
  - apply Hup.
  - intros k w Hk Hp. unfold repl_row in Hk. cbn in Hk. rewrite Ew in Hk.
    apply lookup_insert_Some in Hk as [[<- <-]|[_ Hk]]; [|by apply (proj2 Hup)].
    exists seq, (mkMutationEntry seq req). split; [cbn; lia|done].
  - split; [done|]. intros s e Hs. unfold mutation_row, repl_row. cbn. rewrite Ew.
    destruct (decide (s = seq)) as [->|Hne].
    + rewrite lookup_insert_eq. split.
      * intros (w & [= <-] & He). right. rewrite Ev in He. by apply Ok_inj in He as <-.
      * intros [Hr|[_ ->]]; [|by eexists].
        destruct (mutation_row_seq l seq e Hok Hs Hr) as [_ ?]. lia.
    + rewrite lookup_insert_ne by (intros ?%mutation_log_key_inj; lia). naive_solver.
Qed.

Lemma truncate_mutations_spec (l l' : ReplicationLog DB) seq :
  truncate_mutations_before l seq = (l', Ok tt) -> mutations_ok l -> seq <= u64_max ->
  mutations_ok l' /\ rl_mutation_seq l' = rl_mutation_seq l /\
  forall s e, s <= u64_max -> (mutation_row l' s e <-> mutation_row l s e /\ seq <= s).
Proof.
  intros E [Hb Hwf] Hs. destruct (truncate_rows _ _ _ _ E) as (_ & Hr & _ & Hm). specialize (Hr eq_refl).
  split; [split|split]; try done.
  - by rewrite Hm.
  - intros k v. rewrite Hr, Hm. destruct (in_range _ _ k); [done|]. apply Hwf.
  - intros s e Hle. unfold mutation_row. rewrite Hr. unfold in_range.
    rewrite mutation_log_key_leb, mutation_log_key_ltb by lia.
    destruct (N.leb_spec 0 s), (N.ltb_spec s seq); cbn; try lia; naive_solver lia.
Qed.

Lemma read_mutations_rows (rows : list (bytes * string)) (es : list (MutationLogEntry Req)) max :
  Forall2 (fun kv e => mutation_from_slice kv.2 = Ok e)
    (take_while (fun kv => has_prefix mutation_log_prefix kv.1) rows) es ->
  read_mutations max (Ok <$> rows) = Ok (take max es).
Proof.
  revert es max. induction rows as [|[k v] rows IH]; intros es max; cbn [take_while].
  { intros ->%Forall2_nil_inv_l. destruct max; by rewrite take_nil. }
  destruct max as [|max]; [done|]. cbn [fmap list_fmap read_mutations fst].
  destruct (has_prefix mutation_log_prefix k); cbn [negb]; [|by intros ->%Forall2_nil_inv_l].
  intros (e & es' & He & Hes & ->)%Forall2_cons_inv_l. cbn in He. rewrite He. cbn. by rewrite (IH es').
Qed.

Lemma read_mutations_all (l : ReplicationLog DB) from :
  mutations_ok l -> from <= u64_max ->
  exists es, StronglySorted (fun a b => me_seq a < me_seq b) es /\
    (forall e, e ∈ es <-> from <= me_seq e <= u64_max /\ mutation_row l (me_seq e) e) /\
    forall max, read_mutations_from l from max = Ok (take max es).
Proof.
  intros [Hb Hwf] Hfrom. unfold read_mutations_from.
  destruct (cf_scan_law (rl_db l) ReplData (mutation_log_key from)) as (rows & -> & Hs & Hin).
  set (pr := take_while (fun kv => has_prefix mutation_log_prefix kv.1) rows).
  assert (Hpr : forall k v, (k, v) ∈ pr <-> repl_row l k = Some v /\
    bytes_leb (mutation_log_key from) k = true /\ has_prefix mutation_log_prefix k = true).
  { intros k v. unfold pr. rewrite take_while_prefix; [rewrite Hin; naive_solver|done|].
    intros [k' v'] [_ Hle]%Hin. eapply bytes_leb_trans; [apply bytes_prefix_leb|exact Hle]. }
  assert (Hdec : forall k v, (k, v) ∈ pr -> exists e, from <= me_seq e <= u64_max /\
    k = mutation_log_key (me_seq e) /\ mutation_from_slice v = Ok e).
  { intros k v (Hk & Hle & Hp)%Hpr. destruct (Hwf k v Hk Hp) as (s & e & Hse & -> & He & <-).
    rewrite mutation_log_key_leb in Hle by lia. apply N.leb_le in Hle. exists e. split_and!; [lia|lia|done|done]. }
  assert (Hps : StronglySorted (fun a b => bytes_ltb a.1 b.1 = true) pr) by (by apply take_while_sorted).
  assert (exists es, Forall2 (fun kv e => mutation_from_slice kv.2 = Ok e /\ kv.1 = mutation_log_key (me_seq e) /\
    from <= me_seq e <= u64_max) pr es) as [es Hes].
  { clear -Hdec. induction pr as [|[k v] pr IH]; [by exists []|].
    destruct (Hdec k v) as (e & ? & ? & ?); [by left|]. destruct IH as [es Hes]; [intros; apply Hdec; by right|].
    exists (e :: es). by constructor. }
  exists es. split_and!.
  - clear -Hes Hps. induction Hes as [|[k v] e pr es (He & Hk & Hle) Hes IH]; [constructor|].
    apply StronglySorted_inv in Hps as [Hps Hx]. constructor; [by apply IH|]. apply Forall_forall. intros e' He'.
    destruct (Forall2_elem_of_r _ _ _ _ Hes He') as ([k' v'] & Hin & _ & Hk' & Hle').
    rewrite Forall_forall in Hx. specialize (Hx _ Hin). cbn in *. subst.
    rewrite mutation_log_key_ltb in Hx by lia. by apply N.ltb_lt.
  - intros e. split.
    + intros He. destruct (Forall2_elem_of_r _ _ _ _ Hes He) as ([k v] & Hkv & Hd & Hk & Hle). cbn in *. subst.
      split; [done|]. exists v. split; [|done]. by apply Hpr in Hkv as [? _].
    + intros (Hle & v & Hv & He).
      assert ((mutation_log_key (me_seq e), v) ∈ pr) as Hkv.
      { apply Hpr. rewrite mutation_log_key_leb by lia. split_and!; [done|by apply N.leb_le; lia|apply mutation_log_prefix_key]. }
      destruct (Forall2_elem_of_l _ _ _ _ Hes Hkv) as (e' & He' & Hd & _). cbn in Hd.
      rewrite He in Hd. by apply Ok_inj in Hd as <-.
  - intros max. apply read_mutations_rows. eapply Forall2_impl; [exact Hes|]. by intros ? ? [? _].
Qed.

(** The log as a list: an append adds at the end when the write succeeds, a
    truncation filters. *)
Definition log_step (l : ReplicationLog DB) (log : list (MutationLogEntry Req)) (e : ReplEvent)
    : list (MutationLogEntry Req) :=
  match e with
  | EvAppend req =>
    match snd (append_mutation l req) with
    | Ok seq => log ++ [mkMutationEntry seq req]
    | Err _ => log
    end
  | EvTruncate seq =>
    match snd (truncate_mutations_before l seq) with
    | Ok _ => filter (fun e => seq <= me_seq e) log
    | Err _ => log
    end
  | _ => log
  end.

Fixpoint log_run (l : ReplicationLog DB) (log : list (MutationLogEntry Req)) (es : list ReplEvent)
    : ReplicationLog DB * list (MutationLogEntry Req) :=
  match es with
  | [] => (l, log)
  | e :: es' => log_run (fst (repl_step l e)) (log_step l log e) es'
  end.

Definition log_rep (l : ReplicationLog DB) (log : list (MutationLogEntry Req)) : Prop :=
  mutations_ok l /\
  StronglySorted (fun a b => me_seq a < me_seq b) log /\
  forall e, e ∈ log <-> me_seq e <= u64_max /\ mutation_row l (me_seq e) e.

Lemma strictly_sorted_eq (l1 l2 : list (MutationLogEntry Req)) :
  StronglySorted (fun a b => me_seq a < me_seq b) l1 -> StronglySorted (fun a b => me_seq a < me_seq b) l2 ->
  (forall e, e ∈ l1 <-> e ∈ l2) -> l1 = l2.
Proof.
  revert l2. induction l1 as [|x l1 IH]; intros [|y l2] H1 H2 Heq; [done| | |].
  - exfalso. apply (not_elem_of_nil y). apply Heq. by left.
  - exfalso. apply (not_elem_of_nil x). apply Heq. by left.
  - apply StronglySorted_inv in H1 as [H1 F1], H2 as [H2 F2]. rewrite Forall_forall in F1, F2.
    assert (x = y) as <-.
    { assert (x ∈ y :: l2) as [|Hx]%elem_of_cons by (apply Heq; by left); [done|].
      assert (y ∈ x :: l1) as [|Hy]%elem_of_cons by (apply Heq; by left); [done|].
      specialize (F1 _ Hy). specialize (F2 _ Hx). lia. }
    f_equal. apply IH; [done..|]. intros e. specialize (Heq e). rewrite !elem_of_cons in Heq. split; intros He.
    + destruct (proj1 Heq ltac:(by right)) as [->|]; [|done]. specialize (F1 _ He). lia.
    + destruct (proj2 Heq ltac:(by right)) as [->|]; [|done]. specialize (F2 _ He). lia.
Qed.

Lemma log_rep_read (l : ReplicationLog DB) log from max :
  log_rep l log -> from <= u64_max ->
  read_mutations_from l from max = Ok (take max (filter (fun e => from <= me_seq e) log)).
Proof.
  intros (Hok & Hs & Hin) Hfrom. destruct (read_mutations_all l from Hok Hfrom) as (es & Hes & Hin' & ->).
  do 2 f_equal. apply strictly_sorted_eq; [done|by apply StronglySorted_filter|].
  intros e. rewrite Hin', list_elem_of_filter, Hin. naive_solver.
Qed.

(** A step that keeps the rows of the log and does not lower the counter. *)
Lemma log_rep_frame (l l' : ReplicationLog DB) log :
  log_rep l log -> rl_mutation_seq l' <= u64_max ->
  (forall s e, mutation_row l s e -> s <= rl_mutation_seq l -> s <= rl_mutation_seq l') ->
  (forall k, has_prefix mutation_log_prefix k = true -> repl_row l' k = repl_row l k) -> log_rep l' log.
Proof.
  intros ([Hb Hwf] & Hs & Hin) Hb' Hseq Hrow. split; [split; [done|]|split; [done|]].
  - intros k v. intros Hk Hp. rewrite Hrow in Hk by done. destruct (Hwf k v Hk Hp) as (s & e & Hse & -> & He & Hm).
    exists s, e. split_and!; try done; [lia|]. apply (Hseq s e); [by exists v|lia].
  - intros e. rewrite Hin. unfold mutation_row. by rewrite Hrow by apply mutation_log_prefix_key.
Qed.

Lemma recover_seq_fold rows acc :
  let r := fold_left (fun max_seq kv =>
    match key_number mutation_log_prefix 16 kv.1 with
    | Some s => N.max max_seq s
    | None => max_seq
    end) rows acc in
  acc <= r /\
  (forall s v, s <= u64_max -> (mutation_log_key s, v) ∈ rows -> s <= r) /\
  (forall b, b <= u64_max -> acc <= b ->
   (forall k (v : string), (k, v) ∈ rows -> exists s, s <= b /\ k = mutation_log_key s) -> r <= b).
Proof.
  cbv zeta. revert acc. induction rows as [|[k v] rows IH]; intros acc; cbn [fold_left].
  { split_and!; [done|by intros ? ? ? ?%elem_of_nil|done]. }
  cbn [fst]. set (acc' := match key_number _ _ _ with Some s => N.max acc s | None => acc end).
  assert (acc <= acc') by (unfold acc'; destruct (key_number _ _ _); lia).
  destruct (IH acc') as (H1 & H2 & H3). split_and!; [lia| |].
  - intros s w Hs [[Hk _]%pair_equal_spec|Hin]%elem_of_cons; [|by eapply H2].
    assert (s <= acc') by (unfold acc'; rewrite <- Hk, key_number_log by done; lia). lia.
  - intros b Hb Ha Hwf. apply H3; [done| |intros; eapply Hwf; by right].
    destruct (Hwf k v ltac:(by left)) as (s & Hs & ->). unfold acc'. rewrite key_number_log by lia. lia.
Qed.

Lemma log_rep_reopen (l : ReplicationLog DB) log :
  log_rep l log ->
  log_rep (repl_open (rl_db l)) log /\ rl_mutation_seq (repl_open (rl_db l)) <= rl_mutation_seq l.
Proof.
  intros Hrep. pose proof Hrep as ([Hb Hwf] & _).
  destruct (prefix_rows_spec (rl_db l) ReplData mutation_log_prefix) as [_ Hin].
  destruct (recover_seq_fold (prefix_rows (rl_db l) ReplData mutation_log_prefix) 0) as (_ & H2 & H3).
  assert (Hle : rl_mutation_seq (repl_open (rl_db l)) <= rl_mutation_seq l).
  { apply H3; [done|lia|]. intros k v [Hk Hp]%Hin. destruct (Hwf k v Hk Hp) as (s & _ & Hs & -> & _).
    exists s. split; [lia|done]. }
  split; [|done]. eapply log_rep_frame; [done|lia| |done].
  - intros s e (v & Hv & _) Hs. apply (H2 s v); [lia|]. apply Hin. split; [done|apply mutation_log_prefix_key].
Qed.

Lemma log_rep_append (l : ReplicationLog DB) log req :
  log_rep l log -> rl_mutation_seq l < u64_max ->
  log_rep (fst (append_mutation l req)) (log_step l log (EvAppend req)).
Proof.
  intros (Hok & Hs & Hin) Hlt. destruct (append_mutation l req) as [l' r] eqn:E. cbn [fst].
  destruct (append_mutation_spec _ _ _ _ E Hok Hlt) as (Hok' & _ & Hr). cbn. rewrite E. cbn.
  destruct r as [seq|]; (split; [done|]); [|split; [done|]; intros x; by rewrite Hin, Hr].
  destruct Hr as [-> Hr]. split.
  - apply StronglySorted_app_2; [|done|by repeat constructor]. intros x y Hx ->%list_elem_of_singleton. cbn.
    apply Hin in Hx as [Hle Hrow]. destruct (mutation_row_seq l _ _ Hok Hle Hrow). lia.
  - intros e. rewrite elem_of_app, list_elem_of_singleton, Hin. split.
    + intros [[Hle Hrow]| ->]; (split; [cbn; lia|]); apply Hr; cbn; [lia|by left|lia|by right].
    + intros [Hle Hrow]. apply Hr in Hrow as [|[_ ->]]; [by left|by right|done].
Qed.

Lemma log_rep_step (l : ReplicationLog DB) log e :
  log_rep l log -> event_ok e -> rl_mutation_seq l < u64_max ->
  log_rep (fst (repl_step l e)) (log_step l log e) /\
  rl_mutation_seq (fst (repl_step l e)) <= rl_mutation_seq l + 1.
Proof.
  intros Hrep He Hlt. pose proof Hrep as (Hok & Hs & Hin).
  assert (Hfr : forall l', rl_mutation_seq l' = rl_mutation_seq l ->
    (forall k, has_prefix mutation_log_prefix k = true -> repl_row l' k = repl_row l k) ->
    log_rep l' log /\ rl_mutation_seq l' <= rl_mutation_seq l + 1).
  { intros l' Hq Hrow. rewrite Hq. split; [|lia]. eapply log_rep_frame; try done; rewrite Hq; [lia|done]. }
  destruct e as [p s|p s|r|s|p|o s|]; cbn [repl_step log_step fst].
  - unfold set_wal_ack. destruct (advance_ack _ _ _) as [d r] eqn:E. apply Hfr; [done|]. by eapply advance_frame.
  - unfold set_mutation_ack. destruct (advance_ack _ _ _) as [d r] eqn:E. apply Hfr; [done|]. by eapply advance_frame.
  - split; [by apply log_rep_append|]. destruct (append_mutation l r) as [l' r'] eqn:E.
    destruct (append_mutation_spec _ _ _ _ E Hok Hlt) as (_ & Hq & _). cbn [fst]. lia.
  - destruct (truncate_mutations_before l s) as [l' [[]|e]] eqn:E; cbn [fst snd].
    + destruct (truncate_mutations_spec _ _ _ E Hok He) as (Hok' & -> & Hr). split; [|lia].
      split; [done|]. split; [by apply StronglySorted_filter|]. intros e. rewrite list_elem_of_filter, Hin.
      split; [intros (? & ? & ?)|intros (? & Hrow)]; [split; [done|]; by apply Hr|].
      by apply Hr in Hrow as [? ?].
    + destruct (truncate_rows _ _ _ _ E) as (-> & _); [|done]. split; [done|lia].
  - apply Hfr; [|by apply remove_peer_frame]. unfold repl_remove_peer.
    do 2 (destruct (cf_write _ _); cbn [rl_set_db rl_mutation_seq rl_db]; try done).
  - destruct (check_and_record_mutation l o s) as [l' r] eqn:E.
    assert (fst (match r with Ok true => (l', Some (o, s)) | _ => (l', None) end) = l') as ->
      by (by destruct r as [[]|]).
    unfold check_and_record_mutation in E. cbn [rl_db rl_mutation_seq rl_applied] in E.
    destruct (_ <? _); [|injection E as <- <-; by apply Hfr].
    destruct (cf_write (rl_db l) _) as [d|] eqn:Ew; injection E as <- <-; apply Hfr; try done.
    apply put_rows in Ew. eapply row_frame; [left; by eexists|done].
  - destruct (log_rep_reopen _ _ Hrep). split; [done|lia].
Qed.

(** The mutation log refines a list. Over any sequence of operations and
    restarts from an empty database, with fewer appends than there are
    sequence numbers, [read_mutations_from] returns the first [max_entries]
    of the entries appended and not truncated whose sequence is at least
    [from_seq], in sequence order; failed appends and failed truncations leave
    the list alone. *)
Theorem mutation_log_refines (d : DB) es l log from max :
  cf_rows d ReplData = ∅ -> Forall event_ok es -> N.of_nat (length es) < u64_max ->
  log_run (repl_open d) [] es = (l, log) -> from <= u64_max ->
  StronglySorted (fun a b => me_seq a < me_seq b) log /\
  read_mutations_from l from max = Ok (take max (filter (fun e => from <= me_seq e) log)).
Proof.
  intros Hd Hes Hlen E Hfrom.
  assert (H0 : log_rep (repl_open d) [] /\ rl_mutation_seq (repl_open d) <= 0).
  { apply (log_rep_reopen (mkReplLog d 0 ∅)). split; [split; [done|]|split; [constructor|]].
    - intros k v. unfold repl_row. cbn. by rewrite Hd, lookup_empty.
    - intros e. split; [by intros ?%elem_of_nil|]. intros (_ & v & Hv & _). unfold repl_row in Hv. cbn in Hv.
      by rewrite Hd, lookup_empty in Hv. }
  assert (log_rep l log) as Hrep; [|by split; [apply Hrep|apply log_rep_read]].
  assert (Hbound : rl_mutation_seq (repl_open d) + N.of_nat (length es) < u64_max) by lia.
  destruct H0 as [H0 _]. clear Hd Hlen. revert E H0 Hes Hbound. generalize (repl_open d) ([] : list (MutationLogEntry Req)).
  induction es as [|e es IH]; intros l0 log0; cbn [log_run]; [by intros [= <- <-]|].
  intros E H0 [He Hes]%Forall_cons Hbound. rewrite length_cons in Hbound.
  destruct (log_rep_step l0 log0 e H0 He) as [H1 Hle]; [lia|]. eapply IH; [done..|lia].
Qed.

(** A replicated mutation whose application fails is never applied: the
    receiver has recorded its sequence before applying it, so the retry of the
    sender is acknowledged without being applied. *)
Theorem failed_mutation_is_acked {S} (apply : S -> Req -> S * result string unit)
    (l l1 : ReplicationLog DB) (st st1 : S) origin seq mutation e :
  origin <> 0 -> check_and_record_mutation l origin seq = (l1, Ok true) ->
  apply st mutation = (st1, Err e) ->
  handle_replicate_mutation apply l st origin seq mutation = (l1, st1, MutationError) /\
  exists l2, handle_replicate_mutation apply l1 st1 origin seq mutation = (l2, st1, MutationAck seq).
Proof.
  intros Ho%N.eqb_neq Hc Ha. unfold handle_replicate_mutation. rewrite Ho, Hc, Ha. split; [done|].
  assert (rl_applied l1 !! origin = Some seq) as Hl1.
  { unfold check_and_record_mutation in Hc. cbn [rl_db rl_mutation_seq rl_applied] in Hc.
    destruct (_ <? _); [|done]. destruct (cf_write _ _); [|done]. injection Hc as <-. cbn. apply lookup_insert_eq. }
  unfold check_and_record_mutation. rewrite Hl1. cbn [from_option id].
  rewrite N.ltb_irrefl. by eexists.
Qed.
End ReplTheorems.

(** ** Witnesses *)

Definition wit_event : list ReplEvent :=
  [EvDeliver 7 1; EvAppend "create"%string; EvDeliver 7 3; EvWalAck 2 5; EvRestart; EvDeliver 7 3;
   EvAppend "drop"%string; EvDeliver 7 2; EvTruncate 2].

Lemma wal_ack_monotone_witness :
  exists old, get_wal_ack (repl_open (empty_db (Cf := ReplCf))) 2 = Ok old /\
    get_wal_ack (fst (set_wal_ack (repl_open (empty_db (Cf := ReplCf))) 2 5)) 2 = Ok (N.max old 5).
Proof.
  destruct (wal_ack_monotone (repl_open (empty_db (Cf := ReplCf)))
    (fst (set_wal_ack (repl_open (empty_db (Cf := ReplCf))) 2 5)) 2 5 (Ok tt)) as (old & H1 & H2 & _).
  - reflexivity.
  - apply N.leb_le. vm_compute. reflexivity.
  - exists old. split; [exact H1|exact H2].
Defined.

Lemma wit_events_ok : Forall event_ok wit_event.
Proof. repeat constructor; apply N.leb_le; reflexivity. Qed.

Lemma mutation_accepted_once_witness :
  snd (repl_run (repl_open (empty_db (Cf := ReplCf))) wit_event) = [(7, 1); (7, 3)] /\
  NoDup (snd (repl_run (repl_open (empty_db (Cf := ReplCf))) wit_event)).
Proof.
  split; [vm_compute; reflexivity|].
  destruct (mutation_accepted_once (empty_db (Cf := ReplCf)) wit_event
    (fst (repl_run (repl_open (empty_db (Cf := ReplCf))) wit_event))
    (snd (repl_run (repl_open (empty_db (Cf := ReplCf))) wit_event))) as [_ H].
  - reflexivity.
  - apply wit_events_ok.
  - apply surjective_pairing.
  - exact H.
Defined.

Lemma mutation_log_refines_witness :
  read_mutations_from (fst (log_run (repl_open (empty_db (Cf := ReplCf))) [] wit_event)) 0 10 =
    Ok [mkMutationEntry 2 "drop"%string].
Proof.
  destruct (mutation_log_refines (empty_db (Cf := ReplCf)) wit_event
    (fst (log_run (repl_open (empty_db (Cf := ReplCf))) [] wit_event))
    (snd (log_run (repl_open (empty_db (Cf := ReplCf))) [] wit_event)) 0 10) as [_ H].
  - reflexivity.
  - apply wit_events_ok.
  - apply N.ltb_lt. reflexivity.
  - apply surjective_pairing.
  - apply N.leb_le. reflexivity.
  - rewrite H. vm_compute. reflexivity.
Defined.

Lemma failed_mutation_is_acked_witness :
  let apply (st : nat) (_ : string) := (st, Err "disk full"%string) in
  handle_replicate_mutation apply (repl_open (empty_db (Cf := ReplCf))) 0%nat 7 1 "drop"%string =
    (fst (check_and_record_mutation (repl_open (empty_db (Cf := ReplCf))) 7 1), 0%nat, MutationError) /\
  exists l2, handle_replicate_mutation apply
    (fst (check_and_record_mutation (repl_open (empty_db (Cf := ReplCf))) 7 1)) 0%nat 7 1 "drop"%string =
    (l2, 0%nat, MutationAck 1).
Proof.
  cbv zeta. eapply (failed_mutation_is_acked (fun st _ => (st, Err "disk full"%string))); [done| |reflexivity].
  reflexivity.
Defined.
