(* ===== verification/Flush.v ===== *)
(** * The flush service

    [application/flush_service.rs]: the entries of the WAL after
    [last_flushed] are taken in chunks, from the cache of prepared slots or by
    reading the log; each chunk is grouped by measurement, coalesced, split
    into work items and handed to the sink; then the log is truncated up to
    what the peers still need. The sink ([PointsSinkPort], chDB) is the class
    [PointsSink]. A flush is given the time each chunk reads and the order in
    which the spawned work items of a chunk reach the sink. *)

From Stdlib Require Import Ascii String.
From stdpp Require Import prelude list sorting gmap fin_maps strings.
From S2P Require Import Prelude Bytes CfStore Wire Points Arrow WalIpc ArrowCache Wal Membership.
From S2P Require Import WalWriter ReplicationLog.
From stdpp Require Import options.

#[local] Open Scope N_scope.

Definition WAL_READ_CHUNK : nat := 5000.
Definition NATIVE_CHUNK_BATCHES : nat := 4.
Definition DEFAULT_MAX_POINTS_PER_BATCH : N := 50000.
Definition MIN_BATCH_POINTS : N := 10000.
Definition MAX_BATCH_POINTS : N := 500000.
Definition MAX_WAL_RETENTION_ENTRIES : N := 500000.

(** The batch size of [FlushServiceImpl::new]. *)
Definition effective_limit (max_points_per_batch : N) : N :=
  if max_points_per_batch =? 0 then DEFAULT_MAX_POINTS_PER_BATCH
  else N.min (N.max max_points_per_batch MIN_BATCH_POINTS) MAX_BATCH_POINTS.

(** What the service is built with. *)
Record FlushConfig := mkFlushConfig {
  fc_max_points_per_batch : nat;
  fc_membership : option ClusterMembership;
  fc_node_id : N;
  fc_heartbeat_interval_secs : N;
  fc_heartbeat_miss_threshold : N;
  fc_truncate_stale_peer_multiplier : N;
  fc_coalesce : bool;
  fc_sharding_enabled : bool;
  fc_sharded_wal_retention_bytes : N
}.

(** A work item: [FlushWork] with the base of its ingest sequences, or
    [PreparedFlushWork]. *)
Inductive FlushTask (RB : Type) :=
| NativeTask (db rp measurement : string) (origins : list N) (ingest_seq_base : N) (points : list Point)
| PreparedTask (db rp : string) (batch : PreparedMeasurementBatch RB).
Arguments NativeTask {RB} _ _ _ _ _ _.
Arguments PreparedTask {RB} _ _ _.

(** How a write to the sink ends: [JoinError] when its task panicked. *)
Inductive SinkError :=
| WriteToMaterializedDestination (measurement : string)
| SinkFailed (msg : string)
| SinkPanicked.

Class PointsSink (RB S : Type) := {
  write_points : S -> string -> string -> string -> list N -> N -> list Point -> S * result SinkError unit;
  write_prepared_batch : S -> string -> string -> PreparedMeasurementBatch RB -> S * result SinkError unit
}.

Inductive FlushError :=
| FeWal (e : WalError)
| FeCoalesce (msg : string)
| FeSink
| FePanic
| FeFuel.

(** The mutable state: the log, the flush's own counters, the replication log
    and the sink. *)
Record FlushState (DB RDB RB S : Type) := mkFlush {
  fs_wal : RocksDbWal DB RB;
  fs_last_flushed : N;
  fs_last_local : N;
  fs_repl : option (ReplicationLog RDB);
  fs_sink : S
}.
Arguments mkFlush {DB RDB RB S} _ _ _ _ _.
Arguments fs_wal {DB RDB RB S} _.
Arguments fs_last_flushed {DB RDB RB S} _.
Arguments fs_last_local {DB RDB RB S} _.
Arguments fs_repl {DB RDB RB S} _.
Arguments fs_sink {DB RDB RB S} _.

(** A chunk on its way to the sink: its start, the sequences it takes and its
    work items. *)
Record FlushChunk (RB : Type) := mkChunk {
  ck_from : N;
  ck_seqs : list N;
  ck_tasks : list (FlushTask RB)
}.
Arguments mkChunk {RB} _ _ _.
Arguments ck_from {RB} _.
Arguments ck_seqs {RB} _.
Arguments ck_tasks {RB} _.

(** The order of the keys of [by_meas]. *)
Definition key3_leb (a b : string * string * string) : bool :=
  if negb (bool_decide (a.1.1 = b.1.1)) then string_leb a.1.1 b.1.1
  else if negb (bool_decide (a.1.2 = b.1.2)) then string_leb a.1.2 b.1.2
  else string_leb a.2 b.2.

(** ** Grouping and splitting *)

(** A direct client write carries origin 0 and counts as this node's. *)
Definition eff_origin (node_id origin : N) : N := if origin =? 0 then node_id else origin.

(** [origin == self.node_id || (self.node_id > 0 && origin == 0)]. *)
Definition is_local (node_id origin : N) : bool :=
  (origin =? node_id) || ((0 <? node_id) && (origin =? 0)).

(** [by_meas.entry(key).or_default()] of the native path. *)
Definition push_point (db rp : string) (origin : N)
    (m : gmap (string * string * string) (list Point * list N)) (p : Point)
    : gmap (string * string * string) (list Point * list N) :=
  let key := (db, rp, pt_measurement p) in
  let slot := default ([], []) (m !! key) in
  <[key := (slot.1 ++ [p], slot.2 ++ [origin])]> m.

Definition group_entry (node_id : N) (m : gmap (string * string * string) (list Point * list N))
    (se : N * WalEntry) : gmap (string * string * string) (list Point * list N) :=
  let e := se.2 in
  fold_left (push_point (we_database e) (we_retention_policy e) (eff_origin node_id (we_origin_node_id e)))
    (we_points e) m.

Definition group_entries (node_id : N) (entries : list (N * WalEntry))
    : gmap (string * string * string) (list Point * list N) :=
  fold_left (group_entry node_id) entries ∅.

(** The loop [while !points.is_empty()]; the batch size is positive, and
    every turn takes at least one point, so the number of points is fuel
    enough. *)
Fixpoint split_points (fuel max : nat) (points : list Point) (origins : list N)
    : list (list Point * list N) :=
  match fuel, points with
  | O, _ | _, [] => []
  | S fuel', _ =>
    let take_n := Nat.min (length points) max in
    (take take_n points, take take_n origins)
      :: split_points fuel' max (drop take_n points) (drop take_n origins)
  end.

(** The coalesced points of a measurement; [None] where the source panics, at
    [2^32] points. *)
Definition coalesce_group `{DefaultHasher} (coalesce : bool) (points : list Point) (origins : list N)
    : option (list Point * list N) :=
  if coalesce then
    match coalesce_points_and_origins points origins with
    | Some (Some r) => Some r
    | Some None => Some (points, origins)
    | None => None
    end
  else Some (points, origins).

(** The work items of the native path, before their ingest sequences. *)
Fixpoint native_work `{DefaultHasher} (coalesce : bool) (max : nat)
    (groups : list (string * string * string * (list Point * list N)))
    : option (list (string * string * string * (list Point * list N))) :=
  match groups with
  | [] => Some []
  | (key, (points, origins)) :: groups' =>
    '(ps, os) ← coalesce_group coalesce points origins;
    rest ← native_work coalesce max groups';
    mret (((fun c => (key, c)) <$> split_points (length ps) max ps os) ++ rest)
  end.

Definition native_tasks {RB} (from_seq : N)
    (work : list (string * string * string * (list Point * list N))) : list (FlushTask RB) :=
  imap (fun idx w =>
    let '(db, rp, measurement, (points, origins)) := w in
    NativeTask db rp measurement origins (sat_add from_seq (N.of_nat idx)) points) work.

(** The entries of a native chunk: those of the snapshot, up to the point
    budget. *)
Fixpoint take_budget (budget taken_points : nat) (entries : list (N * WalEntry)) : list (N * WalEntry) :=
  match entries with
  | [] => []
  | (seq, e) :: entries' =>
    if (taken_points =? 0)%nat || (taken_points <? budget)%nat
    then (seq, e) :: take_budget budget (taken_points + length (we_points e)) entries'
    else []
  end.

(** The largest of the sequences, [default] when there is none. *)
Definition max_seq (default : N) (seqs : list N) : N :=
  match seqs with
  | [] => default
  | s :: seqs' => fold_left N.max seqs' s
  end.

Section Flush.
Context {DB RDB A RB SK : Type} `{CDB : !CfDb WalCf DB} `{RCDB : !CfDb ReplCf RDB}.
Context `{AR : !Arrow A RB} `{AI : !ArrowIpc RB} `{BC : !Bincode} `{DH : !DefaultHasher}.
Context `{PS : !PointsSink RB SK}.

(** [by_meas] of the prepared path. *)
Definition push_prepared (db rp : string)
    (m : gmap (string * string * string) (list (PreparedMeasurementBatch RB)))
    (b : PreparedMeasurementBatch RB)
    : gmap (string * string * string) (list (PreparedMeasurementBatch RB)) :=
  let key := (db, rp, pb_measurement b) in
  <[key := default [] (m !! key) ++ [b]]> m.

Definition group_prepared (prepared : list (N * PreparedWalSlot RB))
    : gmap (string * string * string) (list (PreparedMeasurementBatch RB)) :=
  fold_left (fun m ss => fold_left (push_prepared (sl_database ss.2) (sl_retention_policy ss.2))
                           (sl_measurements ss.2) m) prepared ∅.

(** The loop [while offset < batch.row_count]. *)
Fixpoint slice_batches (fuel max offset : nat) (batch : PreparedMeasurementBatch RB)
    : list (PreparedMeasurementBatch RB) :=
  match fuel with
  | O => []
  | S fuel' =>
    if (offset <? pb_row_count batch)%nat then
      let take_n := Nat.min (pb_row_count batch - offset) max in
      slice_prepared_batch batch offset take_n :: slice_batches fuel' max (offset + take_n) batch
    else []
  end.

Definition merge_group (coalesce : bool) (batches : list (PreparedMeasurementBatch RB))
    : result string (list (PreparedMeasurementBatch RB)) :=
  if coalesce && (1 <? length batches)%nat
  then out ← coalesce_prepared_batches batches; mret (option_list out)
  else if (length batches =? 1)%nat then Ok batches
  else out ← coalesce_prepared_batches batches; mret (option_list out).

Fixpoint prepared_work (coalesce : bool) (max : nat)
    (groups : list (string * string * string * list (PreparedMeasurementBatch RB)))
    : result string (list (FlushTask RB)) :=
  match groups with
  | [] => Ok []
  | ((db, rp, _), batches) :: groups' =>
    merged ← merge_group coalesce batches;
    rest ← prepared_work coalesce max groups';
    mret ((PreparedTask db rp <$> (merged ≫= fun b => slice_batches (pb_row_count b) max 0 b)) ++ rest)
  end.

(** ** What the peers still need *)

(** Peers without an acknowledgement and with a heartbeat older than
    [stale_after] are left out. *)
Definition stale_after (cfg : FlushConfig) : Z :=
  sat_mul_i64
    (sat_mul_i64 (bits_i64 (fc_heartbeat_interval_secs cfg))
       (bits_i64 (N.max (fc_heartbeat_miss_threshold cfg) 1)))
    (bits_i64 (fc_truncate_stale_peer_multiplier cfg)).

Definition peer_counts (cfg : FlushConfig) (now : Z) (rl : ReplicationLog RDB) (m : ClusterMembership)
    (pid : N) : bool :=
  let ack := match get_wal_ack rl pid with Ok n => n | Err _ => 0 end in
  (0 <? ack) ||
  match get_node pid m with
  | Some node => negb (stale_after cfg <? now - last_heartbeat node)%Z
  | None => true
  end.

Definition effective_peers (cfg : FlushConfig) (now : Z) (rl : ReplicationLog RDB) (peer_ids : list N)
    : list N :=
  if (0 <? fc_truncate_stale_peer_multiplier cfg) && (0 <? fc_heartbeat_interval_secs cfg) then
    match fc_membership cfg with
    | Some m => List.filter (peer_counts cfg now rl m) peer_ids
    | None => peer_ids
    end
  else peer_ids.

(** The peers of an unsharded node; the sharded branch of the source is not
    reached, a sharded node having returned before. *)
Definition barrier_peers (cfg : FlushConfig) : list N :=
  match fc_membership cfg with
  | Some m => node_id <$> replication_peers (fc_node_id cfg) m
  | None => []
  end.

Definition compute_safe_truncate_seq (cfg : FlushConfig) (now : Z) (w : RocksDbWal DB RB)
    (repl : option (ReplicationLog RDB)) (last_local chunk_max_seq : N) : N :=
  if fc_sharding_enabled cfg then
    flushed_margin_start w chunk_max_seq (fc_sharded_wal_retention_bytes cfg)
  else
    match repl with
    | None => chunk_max_seq
    | Some rl =>
      match barrier_peers cfg with
      | [] => sat_sub chunk_max_seq MAX_WAL_RETENTION_ENTRIES
      | peer_ids =>
        if last_local =? 0 then chunk_max_seq
        else
          match effective_peers cfg now rl peer_ids with
          | [] => chunk_max_seq
          | effective =>
            match min_max_wal_ack_for_peers rl effective with
            | Err _ => 0
            | Ok (min_ack, max_ack) =>
              if (0 <? max_ack) && (min_ack =? 0) then 0
              else if 0 <? min_ack then N.min chunk_max_seq min_ack
              else sat_sub chunk_max_seq MAX_WAL_RETENTION_ENTRIES
            end
          end
      end
    end.

(** ** One chunk *)

Definition set_wal (w : RocksDbWal DB RB) (st : FlushState DB RDB RB SK) : FlushState DB RDB RB SK :=
  mkFlush w (fs_last_flushed st) (fs_last_local st) (fs_repl st) (fs_sink st).

(** [last_local_wal_seq.fetch_max] over the sequences of local writes. *)
Definition note_local (cfg : FlushConfig) (seqs : list (N * N)) (st : FlushState DB RDB RB SK)
    : FlushState DB RDB RB SK :=
  mkFlush (fs_wal st) (fs_last_flushed st)
    (fold_left (fun m so => if is_local (fc_node_id cfg) so.2 then N.max m so.1 else m) seqs (fs_last_local st))
    (fs_repl st) (fs_sink st).

(** The work items of a run of prepared slots: the first half of
    [flush_prepared_chunk]. *)
Definition prepared_chunk (cfg : FlushConfig) (from_seq : N) (prepared : list (N * PreparedWalSlot RB))
    : result FlushError (FlushChunk RB) :=
  work ← map_err FeCoalesce (prepared_work (fc_coalesce cfg) (fc_max_points_per_batch cfg)
           (btree_iter key3_leb (group_prepared prepared)));
  mret (mkChunk from_seq prepared.*1 work).

Definition native_chunk (cfg : FlushConfig) (from_seq : N) (entries : list (N * WalEntry))
    : result FlushError (FlushChunk RB) :=
  match native_work (fc_coalesce cfg) (fc_max_points_per_batch cfg)
          (btree_iter key3_leb (group_entries (fc_node_id cfg) entries)) with
  | None => Err FePanic
  | Some work => Ok (mkChunk from_seq entries.*1 (native_tasks from_seq work))
  end.

(** The native path: read the log, keep the snapshot's entries within the
    point budget. [None] when there is nothing to flush. *)
Definition take_native (cfg : FlushConfig) (from_seq snapshot_seq native_limit : N)
    (st : FlushState DB RDB RB SK) : FlushState DB RDB RB SK * result FlushError (option (FlushChunk RB)) :=
  match read_range (fs_wal st) from_seq native_limit with
  | (w, Err e) => (set_wal w st, Err (FeWal e))
  | (w, Ok entries) =>
    let st := set_wal w st in
    let budget := (fc_max_points_per_batch cfg * NATIVE_CHUNK_BATCHES)%nat in
    match take_budget budget 0 (filter (fun se => se.1 <= snapshot_seq) entries) with
    | [] => (st, Ok None)
    | taken =>
      (note_local cfg ((fun se => (se.1, we_origin_node_id se.2)) <$> taken) st,
       chunk ← native_chunk cfg from_seq taken; mret (Some chunk))
    end
  end.

(** From the cursor to the work items of the next chunk. *)
Definition take_chunk (cfg : FlushConfig) (cursor snapshot_seq : N) (st : FlushState DB RDB RB SK)
    : FlushState DB RDB RB SK * result FlushError (option (FlushChunk RB)) :=
  let from_seq := wrapping_add cursor 1 in
  let limit := N.of_nat WAL_READ_CHUNK in
  if wal_arrow_enabled (fs_wal st) then
    match take_prepared_range (fs_wal st) from_seq snapshot_seq WAL_READ_CHUNK with
    | (w, Err e) => (set_wal w st, Err (FeWal e))
    | (w, Ok (Some ((_ :: _) as prepared))) =>
      (note_local cfg ((fun ss => (ss.1, sl_origin_node_id ss.2)) <$> prepared) (set_wal w st),
       chunk ← prepared_chunk cfg from_seq prepared; mret (Some chunk))
    | (w, Ok (Some [])) => take_native cfg from_seq snapshot_seq limit (set_wal w st)
    | (w, Ok None) =>
      let native_limit :=
        match next_prepared_seq w from_seq with
        | Some next => if from_seq <? next then N.min (next - from_seq) limit else limit
        | None => limit
        end in
      take_native cfg from_seq snapshot_seq native_limit (set_wal w st)
    end
  else take_native cfg from_seq snapshot_seq limit st.

Definition run_task (sk : SK) (t : FlushTask RB) : SK * result SinkError unit :=
  match t with
  | NativeTask db rp measurement origins base points => write_points sk db rp measurement origins base points
  | PreparedTask db rp batch => write_prepared_batch sk db rp batch
  end.

(** A refused materialized destination counts as written, see
    [unwritable_rows]. *)
Definition task_failed (r : result SinkError unit) : bool :=
  match r with
  | Ok _ | Err (WriteToMaterializedDestination _) => false
  | Err _ => true
  end.

(** The tasks in the order they reach the sink; whether one failed. *)
Fixpoint run_tasks (sk : SK) (tasks : list (FlushTask RB)) : SK * bool :=
  match tasks with
  | [] => (sk, false)
  | t :: tasks' =>
    let '(sk1, r) := run_task sk t in
    let '(sk2, failed) := run_tasks sk1 tasks' in
    (sk2, task_failed r || failed)
  end.

(** [min_mutation_ack] and [truncate_mutations_before], errors logged. *)
Definition truncate_mutation_log (repl : option (ReplicationLog RDB)) : option (ReplicationLog RDB) :=
  match repl with
  | Some rl =>
    Some match min_mutation_ack rl with
         | Some min_mut_ack => fst (truncate_mutations_before rl min_mut_ack)
         | None => rl
         end
  | None => None
  end.

(** After the sink: hold the log at the start of a failed chunk, truncate,
    record what is flushed. The new cursor, or the error that ends the
    flush. *)
Definition finish_chunk (cfg : FlushConfig) (now : Z) (chunk : FlushChunk RB) (cursor : N)
    (any_failed : bool) (st : FlushState DB RDB RB SK) : FlushState DB RDB RB SK * result FlushError N :=
  let flushed_through :=
    if any_failed then sat_sub (ck_from chunk) 1 else max_seq cursor (ck_seqs chunk) in
  let safe := compute_safe_truncate_seq cfg now (fs_wal st) (fs_repl st) (fs_last_local st) flushed_through in
  match truncate_before (fs_wal st) (wrapping_add safe 1) with
  | (w, Err e) => (set_wal w st, Err (FeWal e))
  | (w, Ok _) =>
    (mkFlush (set_flushed_through flushed_through w) flushed_through (fs_last_local st)
       (truncate_mutation_log (fs_repl st)) (fs_sink st),
     if any_failed then Err FeSink else Ok flushed_through)
  end.

Definition write_chunk (sched : list (FlushTask RB) -> list (FlushTask RB)) (chunk : FlushChunk RB)
    (st : FlushState DB RDB RB SK) : FlushState DB RDB RB SK * bool :=
  let '(sk, failed) := run_tasks (fs_sink st) (sched (ck_tasks chunk)) in
  (mkFlush (fs_wal st) (fs_last_flushed st) (fs_last_local st) (fs_repl st) sk, failed).

(** ** The flush *)

(** [while cursor < snapshot_seq]; every chunk moves the cursor forward, so
    their difference is fuel enough. [clock] gives the time a chunk that
    starts at a sequence reads. *)
Fixpoint flush_loop (fuel : nat) (cfg : FlushConfig) (clock : N -> Z)
    (sched : list (FlushTask RB) -> list (FlushTask RB)) (cursor snapshot_seq : N)
    (st : FlushState DB RDB RB SK) : FlushState DB RDB RB SK * result FlushError unit :=
  if cursor <? snapshot_seq then
    match fuel with
    | O => (st, Err FeFuel)
    | S fuel' =>
      match take_chunk cfg cursor snapshot_seq st with
      | (st, Err e) => (st, Err e)
      | (st, Ok None) => (st, Ok tt)
      | (st, Ok (Some chunk)) =>
        let '(st, any_failed) := write_chunk sched chunk st in
        match finish_chunk cfg (clock (ck_from chunk)) chunk cursor any_failed st with
        | (st, Err e) => (st, Err e)
        | (st, Ok cursor') => flush_loop fuel' cfg clock sched cursor' snapshot_seq st
        end
      end
    end
  else (st, Ok tt).

Definition flush (cfg : FlushConfig) (clock : N -> Z)
    (sched : list (FlushTask RB) -> list (FlushTask RB)) (st : FlushState DB RDB RB SK)
    : FlushState DB RDB RB SK * result FlushError unit :=
  let cursor := fs_last_flushed st in
  let snapshot_seq := last_sequence (fs_wal st) in
  if snapshot_seq <=? cursor then (st, Ok tt)
  else flush_loop (N.to_nat (snapshot_seq - cursor)) cfg clock sched cursor snapshot_seq st.

(** [drain]: flush until the log has nothing after the cursor. *)
Fixpoint drain (fuel : nat) (cfg : FlushConfig) (clock : N -> Z)
    (sched : list (FlushTask RB) -> list (FlushTask RB)) (st : FlushState DB RDB RB SK)
    : FlushState DB RDB RB SK * result FlushError unit :=
  match fuel with
  | O => (st, Err FeFuel)
  | S fuel' =>
    match flush cfg clock sched st with
    | (st, Err e) => (st, Err e)
    | (st, Ok _) =>
      match read_range (fs_wal st) (wrapping_add (fs_last_flushed st) 1) 1 with
      | (w, Err e) => (set_wal w st, Err (FeWal e))
      | (w, Ok []) => (set_wal w st, Ok tt)
      | (w, Ok _) => drain fuel' cfg clock sched (set_wal w st)
      end
    end
  end.

End Flush.

(** ** A sink in memory *)

(** It keeps the work items it is given, and refuses none. *)
#[export] Instance recording_sink {RB} : PointsSink RB (list (FlushTask RB)) := {
  write_points sk db rp measurement origins base points :=
    (NativeTask db rp measurement origins base points :: sk, Ok tt);
  write_prepared_batch sk db rp batch := (PreparedTask db rp batch :: sk, Ok tt)
}.
