(* ===== verification/FlushTheorems.v ===== *)
(** * Properties of the flush service

    What a chunk hands to the sink, how far the log may be truncated, that a
    flush ends, and that no entry leaves the log before the sink has it,
    whatever appends, purges and restarts come in between. *)

From Stdlib Require Import Ascii String.
From stdpp Require Import prelude list sorting gmap fin_maps strings.
From S2P Require Import Prelude Bytes CfStore Wire Points Arrow WalIpc ArrowCache Wal WalTheorems Membership.
From S2P Require Import WalWriter ReplicationLog ReplicationLogTheorems Flush.
From stdpp Require Import options.

#[local] Open Scope N_scope.
#[local] Arguments u64_to_be : simpl never.
#[local] Arguments apply_cf_op : simpl never.
#[local] Arguments decode_wal_value : simpl never.

(** ** What a chunk holds *)

(** The points of the entries that go to one table, with their origins. *)
Definition we_points_of (node_id : N) (entries : list (N * WalEntry)) (key : string * string * string)
    : list (Point * N) :=
  entries ≫= fun se =>
    (fun p => (p, eff_origin node_id (we_origin_node_id se.2))) <$>
      filter (fun p => (we_database se.2, we_retention_policy se.2, pt_measurement p) = key) (we_points se.2).

(** The group of a key holds these pairs. *)
Definition group_is (g : option (list Point * list N)) (l : list (Point * N)) : Prop :=
  match g with
  | None => l = []
  | Some (ps, os) => l <> [] /\ ps = l.*1 /\ os = l.*2
  end.

Lemma push_point_group db rp origin m p key l :
  group_is (m !! key) l ->
  group_is (push_point db rp origin m p !! key)
    (l ++ if decide ((db, rp, pt_measurement p) = key) then [(p, origin)] else []).
Proof.
  intros Hg. unfold push_point. case_decide as Hk.
  - subst key. rewrite lookup_insert_eq. destruct (m !! _) as [[ps os]|]; cbn in Hg |- *.
    + destruct Hg as (_ & -> & ->). rewrite !fmap_app. split_and!; [|done|done]. by intros []%app_nil.
    + subst l. done.
  - by rewrite lookup_insert_ne, app_nil_r.
Qed.

Lemma push_points_group db rp origin m points key l :
  group_is (m !! key) l ->
  group_is (fold_left (push_point db rp origin) points m !! key)
    (l ++ ((fun p => (p, origin)) <$> filter (fun p => (db, rp, pt_measurement p) = key) points)).
Proof.
  revert m l. induction points as [|p points IH]; intros m l Hg; cbn [fold_left].
  { by rewrite app_nil_r. }
  apply (push_point_group db rp origin m p) in Hg. apply IH in Hg. rewrite filter_cons.
  case_decide; [by rewrite <- app_assoc in Hg|by rewrite app_nil_r in Hg].
Qed.

Lemma group_entries_spec node_id entries key :
  group_is (group_entries node_id entries !! key) (we_points_of node_id entries key).
Proof.
  unfold group_entries. assert (Hg : group_is ((∅ : gmap _ (list Point * list N)) !! key) []) by done.
  change (we_points_of node_id entries key) with ([] ++ we_points_of node_id entries key).
  revert Hg. generalize (∅ : gmap (string * string * string) (list Point * list N)) ([] : list (Point * N)).
  induction entries as [|[s e] entries IH]; intros m l Hg; cbn; [by rewrite app_nil_r|].
  rewrite app_assoc. apply IH. by apply push_points_group.
Qed.

Lemma split_points_spec fuel max ps os :
  (length ps <= fuel)%nat -> (0 < max)%nat -> length os = length ps ->
  mjoin (split_points fuel max ps os).*1 = ps /\ mjoin (split_points fuel max ps os).*2 = os /\
  Forall (fun c => (0 < length c.1 <= max)%nat /\ length c.2 = length c.1) (split_points fuel max ps os).
Proof.
  intros Hf Hmax. revert ps os Hf. induction fuel as [|fuel IH]; intros ps os Hf Hl.
  { destruct ps; [|cbn in Hf; lia]. destruct os; [|done]. by split_and!. }
  destruct ps as [|p ps]; [destruct os; [by split_and!|done]|].
  assert (exists n, n = Nat.min (length (p :: ps)) max /\ (0 < n)%nat) as (n & En & Hn).
  { eexists. split; [done|]. rewrite length_cons. lia. }
  change (split_points (S fuel) max (p :: ps) os)
    with ((take (Nat.min (length (p :: ps)) max) (p :: ps), take (Nat.min (length (p :: ps)) max) os)
            :: split_points fuel max (drop (Nat.min (length (p :: ps)) max) (p :: ps))
                 (drop (Nat.min (length (p :: ps)) max) os)).
  rewrite <- En. destruct (IH (drop n (p :: ps)) (drop n os)) as (H1 & H2 & H3).
  { rewrite length_drop. lia. }
  { rewrite !length_drop. lia. }
  rewrite !fmap_cons. split_and!.
  - cbn [fst]. change (take n (p :: ps) ++ mjoin (split_points fuel max (drop n (p :: ps)) (drop n os)).*1 = p :: ps).
    rewrite H1. apply take_drop.
  - cbn [snd]. change (take n os ++ mjoin (split_points fuel max (drop n (p :: ps)) (drop n os)).*2 = os).
    rewrite H2. apply take_drop.
  - constructor; [|done]. cbn [fst snd]. rewrite !length_take. lia.
Qed.

(** The points a list of work items writes to a table. *)
Definition work_points (key : string * string * string)
    (work : list (string * string * string * (list Point * list N))) : list Point * list N :=
  let mine := filter (fun w => w.1 = key) work in
  (mjoin (mine.*2).*1, mjoin (mine.*2).*2).

Lemma work_points_app key w1 w2 :
  work_points key (w1 ++ w2)
  = ((work_points key w1).1 ++ (work_points key w2).1, (work_points key w1).2 ++ (work_points key w2).2).
Proof. unfold work_points. cbn. by rewrite filter_app, !fmap_app, !join_app. Qed.

Lemma work_points_same key (cs : list (list Point * list N)) :
  work_points key ((fun c => (key, c)) <$> cs) = (mjoin cs.*1, mjoin cs.*2).
Proof.
  unfold work_points. rewrite list_filter_all by (by intros x (c & -> & _)%list_elem_of_fmap).
  cbn. rewrite <- !list_fmap_compose. f_equal.
Qed.

Lemma work_points_other key key' (cs : list (list Point * list N)) :
  key <> key' -> work_points key ((fun c => (key', c)) <$> cs) = ([], []).
Proof.
  intros Hne. unfold work_points. rewrite list_filter_none; [done|].
  intros x (c & -> & _)%list_elem_of_fmap. cbn. congruence.
Qed.

Section Native.
Context `{DH : !DefaultHasher}.
#[local] Set Default Proof Using "Type*".

(** A coalesced group has as many origins as points. *)
Lemma coalesce_group_length coalesce ps os ps' os' :
  coalesce_group coalesce ps os = Some (ps', os') -> length os = length ps ->
  N.of_nat (length ps) < 4294967296 -> length os' = length ps'.
Proof.
  unfold coalesce_group. destruct coalesce; [|by intros [= <- <-]]. intros E Hl Hu.
  destruct (coalesce_points_and_origins_law ps os Hl Hu) as (r & Hr & Hspec). rewrite Hr in E.
  destruct r as [[rows ors]|]; simplify_eq; [|done]. by destruct Hspec as (_ & ? & _).
Qed.

Lemma native_work_spec coalesce max groups work :
  native_work coalesce max groups = Some work -> (0 < max)%nat -> NoDup groups.*1 ->
  (forall key ps os, (key, (ps, os)) ∈ groups -> length os = length ps /\ N.of_nat (length ps) < 4294967296) ->
  (forall key ps os, (key, (ps, os)) ∈ groups -> coalesce_group coalesce ps os = Some (work_points key work)) /\
  (forall key, key ∉ groups.*1 -> work_points key work = ([], [])) /\
  Forall (fun w => (0 < length w.2.1 <= max)%nat /\ length w.2.2 = length w.2.1) work.
Proof.
  intros E Hmax. revert work E. induction groups as [|[key0 [ps0 os0]] groups IH]; intros work E Hnd Hwf; cbn in E.
  { simplify_eq. split_and!; [by intros ? ? ? ?%elem_of_nil|done|done]. }
  destruct (coalesce_group coalesce ps0 os0) as [[ps1 os1]|] eqn:Ec; [|done]. cbn in E.
  destruct (native_work coalesce max groups) as [rest|] eqn:Er; [|done]. cbn in E. injection E as <-.
  cbn in Hnd. apply NoDup_cons in Hnd as [Hni Hnd].
  destruct (Hwf key0 ps0 os0) as [Hl0 Hu0]; [by left|].
  pose proof (coalesce_group_length _ _ _ _ _ Ec Hl0 Hu0) as Hl1.
  destruct (split_points_spec (length ps1) max ps1 os1) as (H1 & H2 & H3); [done|done|done|].
  destruct (IH rest eq_refl Hnd) as (IH1 & IH2 & IH3); [intros; eapply Hwf; by right|].
  split_and!.
  - intros key ps os [[= -> -> ->]|Hin]%elem_of_cons; rewrite work_points_app.
    + rewrite work_points_same, (IH2 key0 Hni). cbn [fst snd]. rewrite H1, H2, !app_nil_r. exact Ec.
    + assert (key <> key0) by (intros ->; apply Hni; by apply (list_elem_of_fmap_2 fst) in Hin).
      rewrite work_points_other by done. cbn [fst snd app]. rewrite (IH1 _ _ _ Hin). by destruct (work_points key rest).
  - intros key Hk. cbn in Hk. apply not_elem_of_cons in Hk as [Hk Hk']. rewrite work_points_app.
    rewrite work_points_other by done. by rewrite IH2.
  - apply Forall_app. split; [|done]. apply Forall_fmap. eapply Forall_impl; [exact H3|]. done.
Qed.
End Native.

(** The work of a native task. *)
Definition task_work {RB} (t : FlushTask RB) : option (string * string * string * (list Point * list N)) :=
  match t with
  | NativeTask db rp measurement origins _ points => Some (db, rp, measurement, (points, origins))
  | PreparedTask _ _ _ => None
  end.

Lemma native_tasks_work {RB} from_seq work : omap (task_work (RB := RB)) (native_tasks from_seq work) = work.
Proof.
  unfold native_tasks.
  assert (forall (f : nat -> nat), omap (task_work (RB := RB)) (imap (fun idx w =>
    let '(db, rp, measurement, (points, origins)) := w in
    NativeTask db rp measurement origins (sat_add from_seq (N.of_nat (f idx))) points) work) = work) as H.
  { induction work as [|[[[db rp] m] [ps os]] work IH]; intros f; [done|]. cbn. f_equal.
    apply (IH (fun i => f (S i))). }
  apply (H id).
Qed.

Definition chunk_work {RB} (ck : FlushChunk RB) : list (string * string * string * (list Point * list N)) :=
  omap task_work (ck_tasks ck).

(** What a native chunk hands to the sink. The work items of a table
    carry, in order, the points that the chunk's entries have for this table,
    each with the origin of its entry (this node's own id for a direct client
    write), coalesced first when coalescing is on; no other work item goes to
    the table. Every work item has between one and [max_points_per_batch]
    points and one origin per point. *)
Theorem native_chunk_correct {RB} `{DH : !DefaultHasher} cfg from_seq entries (ck : FlushChunk RB) :
  native_chunk cfg from_seq entries = Ok ck -> (0 < fc_max_points_per_batch cfg)%nat ->
  (forall key, N.of_nat (length (we_points_of (fc_node_id cfg) entries key)) < 4294967296) ->
  ck_seqs ck = entries.*1 /\ length (chunk_work ck) = length (ck_tasks ck) /\
  (forall key, match we_points_of (fc_node_id cfg) entries key with
     | [] => work_points key (chunk_work ck) = ([], [])
     | pts => coalesce_group (fc_coalesce cfg) pts.*1 pts.*2
              = Some (work_points key (chunk_work ck))
     end) /\
  Forall (fun w => (0 < length w.2.1 <= fc_max_points_per_batch cfg)%nat /\ length w.2.2 = length w.2.1)
    (chunk_work ck).
Proof.
  intros E Hmax Hu. unfold native_chunk in E. destruct (native_work _ _ _) as [work|] eqn:Ew; [|done].
  apply Ok_inj in E as <-. unfold chunk_work. cbn [ck_seqs ck_tasks]. rewrite native_tasks_work. split; [done|].
  split; [unfold native_tasks; by rewrite length_imap|].
  assert (Hgrp : forall key ps os, (key, (ps, os)) ∈ btree_iter key3_leb (group_entries (fc_node_id cfg) entries) ->
    we_points_of (fc_node_id cfg) entries key <> [] /\ ps = (we_points_of (fc_node_id cfg) entries key).*1 /\
    os = (we_points_of (fc_node_id cfg) entries key).*2).
  { intros key ps os Hin%btree_iter_elem. pose proof (group_entries_spec (fc_node_id cfg) entries key) as Hg.
    by rewrite Hin in Hg. }
  destruct (native_work_spec _ _ _ _ Ew Hmax (btree_iter_NoDup _ _)) as (H1 & H2 & H3).
  { intros key ps os (_ & -> & ->)%Hgrp. rewrite !length_fmap. split; [done|apply Hu]. }
  split; [|done]. intros key. pose proof (group_entries_spec (fc_node_id cfg) entries key) as Hg.
  destruct (group_entries (fc_node_id cfg) entries !! key) as [[ps os]|] eqn:Ek; cbn in Hg.
  - destruct Hg as (Hne & -> & ->). destruct (we_points_of _ entries key) eqn:Ep; [done|].
    apply H1. by apply btree_iter_elem.
  - rewrite Hg. apply H2. intros ([k v] & Hk & Hin%btree_iter_elem)%list_elem_of_fmap. cbn in Hk. congruence.
Qed.

Lemma take_budget_prefix budget taken entries : exists n, take_budget budget taken entries = take n entries.
Proof.
  revert taken. induction entries as [|[s e] entries IH]; intros taken; cbn; [by exists 0%nat|].
  destruct (_ || _); [|by exists 0%nat]. destruct (IH (taken + length (we_points e))%nat) as [n ->].
  by exists (S n).
Qed.

Lemma take_budget_nil budget entries : take_budget budget 0 entries = [] -> entries = [].
Proof. by destruct entries as [|[s e] entries]. Qed.

Lemma max_seq_spec d s seqs :
  max_seq d (s :: seqs) ∈ s :: seqs /\ forall x, x ∈ s :: seqs -> x <= max_seq d (s :: seqs).
Proof.
  cbn [max_seq]. revert s. induction seqs as [|y seqs IH]; intros s; cbn [fold_left].
  { split; [by left|]. by intros x ->%list_elem_of_singleton. }
  destruct (IH (N.max s y)) as [H1 H2]. split.
  - apply elem_of_cons in H1 as [->|H1]; [|by do 2 right].
    destruct (N.max_spec s y) as [[_ ->]|[_ ->]]; [by right; left|by left].
  - intros x [->|[->|Hx]%elem_of_cons]%elem_of_cons; [| |apply H2; by right];
      specialize (H2 (N.max s y) ltac:(by left)); lia.
Qed.

Lemma run_covers (from : N) (seqs : list N) s d :
  seqs = seqN from (length seqs) -> seqs <> [] -> from <= s -> s <= max_seq d seqs -> s ∈ seqs.
Proof.
  intros Hseq Hne Hge Hle. destruct seqs as [|x seqs]; [done|].
  destruct (max_seq_spec d x seqs) as [Hin _]. rewrite Hseq in Hin |- *. apply elem_of_seqN in Hin.
  apply elem_of_seqN. rewrite <- Hseq in Hin. lia.
Qed.

(** A prefix of a sorted list holds everything up to its maximum. *)
Lemma prefix_covers (l : list N) n s d :
  StronglySorted N.lt l -> take n l <> [] -> s ∈ l -> s <= max_seq d (take n l) -> s ∈ take n l.
Proof.
  intros Hs Hne Hin Hle. destruct (sorted_take_split _ _ n _ Hs Hin) as [|Hlt]; [done|].
  destruct (take n l) as [|x t]; [done|]. destruct (max_seq_spec d x t) as [Hm _].
  specialize (Hlt _ Hm). lia.
Qed.

Lemma chunk_pos : 0 < N.of_nat WAL_READ_CHUNK.
Proof. apply N.ltb_lt. reflexivity. Qed.

(** ** Sizes of a native chunk *)

Definition total_points (entries : list (N * WalEntry)) : nat :=
  sum_nat ((fun se => length (we_points se.2)) <$> entries).

Lemma take_budget_total budget bound taken entries :
  Forall (fun se => (length (we_points se.2) <= bound)%nat) entries ->
  (total_points (take_budget budget taken entries) + taken <= Nat.max taken (budget + bound))%nat.
Proof.
  revert taken. induction entries as [|[s e] entries IH]; intros taken Hf; cbn [take_budget]; [unfold total_points; cbn; lia|].
  apply Forall_cons in Hf as [Hb Hf]. cbn in Hb.
  destruct (_ || _) eqn:Ec; [|unfold total_points; cbn; lia].
  assert (taken <= budget)%nat by (apply orb_true_iff in Ec as [?%Nat.eqb_eq|?%Nat.ltb_lt]; lia).
  specialize (IH (taken + length (we_points e))%nat Hf).
  change (total_points ((s, e) :: take_budget budget (taken + length (we_points e)) entries))
    with (length (we_points e) + total_points (take_budget budget (taken + length (we_points e)) entries))%nat. lia.
Qed.

Lemma entry_points_total node_id entries key :
  (length (we_points_of node_id entries key) <= total_points entries)%nat.
Proof.
  induction entries as [|[s e] entries IH]; [done|]. unfold we_points_of in *. rewrite bind_cons, length_app, length_fmap.
  change (total_points ((s, e) :: entries)) with (length (we_points e) + total_points entries)%nat.
  pose proof (length_filter (fun p => (we_database e, we_retention_policy e, pt_measurement p) = key) (we_points e)).
  cbn [snd]. lia.
Qed.

Lemma coalesce_group_some `{DefaultHasher} coalesce ps os :
  length os = length ps -> N.of_nat (length ps) < 4294967296 -> is_Some (coalesce_group coalesce ps os).
Proof.
  intros Hl Hu. unfold coalesce_group. destruct coalesce; [|done].
  destruct (coalesce_points_and_origins_law ps os Hl Hu) as ([r|] & -> & _); done.
Qed.

Lemma native_work_some `{DefaultHasher} coalesce max groups :
  Forall (fun g => length g.2.2 = length g.2.1 /\ N.of_nat (length g.2.1) < 4294967296) groups ->
  is_Some (native_work coalesce max groups).
Proof.
  induction 1 as [|[key [ps os]] groups [Hl Hu] _ [work Hw]]; [done|]. cbn in Hl, Hu |- *.
  destruct (coalesce_group_some coalesce ps os Hl Hu) as [[ps' os'] ->]. cbn. rewrite Hw. done.
Qed.

(** A chunk within the sizes the service works with is built without a
    panic. *)
Lemma native_chunk_ok {RB} `{DefaultHasher} cfg from_seq entries :
  N.of_nat (total_points entries) < 4294967296 ->
  exists ck : FlushChunk RB, native_chunk cfg from_seq entries = Ok ck.
Proof.
  intros Ht. unfold native_chunk.
  destruct (native_work_some (fc_coalesce cfg) (fc_max_points_per_batch cfg)
    (btree_iter key3_leb (group_entries (fc_node_id cfg) entries))) as [work ->]; [|by eexists].
  apply Forall_forall. intros [key [ps os]] Hin%btree_iter_elem.
  pose proof (group_entries_spec (fc_node_id cfg) entries key) as Hg. rewrite Hin in Hg. destruct Hg as (_ & -> & ->).
  cbn. rewrite !length_fmap. split; [done|].
  pose proof (entry_points_total (fc_node_id cfg) entries key). lia.
Qed.

Section FlushTheorems.
Context {DB RDB A RB SK : Type} `{CDB : !CfDb WalCf DB} `{DbLaws : !CfDbLaws WalCf DB}.
Context `{RCDB : !CfDb ReplCf RDB} `{RDbLaws : !CfDbLaws ReplCf RDB}.
Context `{AR : !Arrow A RB} `{AI : !ArrowIpc RB} `{BC : !Bincode} `{DH : !DefaultHasher}.
Context `{AIL : !ArrowIpcLaws RB} `{BL : !BincodeLaws}.
Context `{PS : !PointsSink RB SK}.
#[local] Set Default Proof Using "Type*".

(** ** How far the log may be truncated *)

Lemma safe_truncate_le cfg now (w : RocksDbWal DB RB) (repl : option (ReplicationLog RDB)) last_local chunk_max :
  wal_wf w -> compute_safe_truncate_seq cfg now w repl last_local chunk_max <= chunk_max.
Proof.
  intros Hwf. unfold compute_safe_truncate_seq.
  destruct (fc_sharding_enabled cfg); [by apply margin_start_ok|].
  destruct repl as [rl|]; [|lia]. destruct (barrier_peers cfg) as [|p ps]; [unfold sat_sub; lia|].
  destruct (last_local =? 0); [lia|]. destruct (effective_peers cfg now rl (p :: ps)) as [|q qs]; [lia|].
  destruct (min_max_wal_ack_for_peers rl (q :: qs)) as [[mn mx]|]; [|lia].
  destruct (_ && _); [lia|]. destruct (0 <? mn); unfold sat_sub; lia.
Qed.

(** How far a flush truncates. The bound never lies past what was
    flushed. On an unsharded node that took client writes and has peers in the
    barrier, it never lies past what an effective peer acknowledged, unless no
    effective peer acknowledged anything at all; then at least
    [MAX_WAL_RETENTION_ENTRIES] flushed sequences stay, and when only some of
    them acknowledged, nothing is truncated. *)
Theorem safe_truncate_bound cfg now (w : RocksDbWal DB RB) (rl : ReplicationLog RDB) last_local chunk_max :
  wal_wf w ->
  let safe := compute_safe_truncate_seq cfg now w (Some rl) last_local chunk_max in
  safe <= chunk_max /\
  (fc_sharding_enabled cfg = false -> last_local <> 0 ->
   forall p ack, p ∈ effective_peers cfg now rl (barrier_peers cfg) -> get_wal_ack rl p = Ok ack ->
   safe <= ack \/
   safe + MAX_WAL_RETENTION_ENTRIES <= N.max chunk_max MAX_WAL_RETENTION_ENTRIES /\
   forall q, q ∈ effective_peers cfg now rl (barrier_peers cfg) -> get_wal_ack rl q = Ok 0).
Proof.
  intros Hwf safe. split; [by apply safe_truncate_le|]. intros Hsh Hll p ack Hp Hack. unfold safe, compute_safe_truncate_seq.
  rewrite Hsh. destruct (barrier_peers cfg) as [|b bs] eqn:Eb.
  { unfold effective_peers in Hp. destruct (_ && _); [destruct (fc_membership cfg)|]; by apply elem_of_nil in Hp. }
  rewrite (proj2 (N.eqb_neq _ _) Hll). destruct (effective_peers cfg now rl (b :: bs)) as [|q qs] eqn:Ee.
  { by apply elem_of_nil in Hp. }
  destruct (min_max_ok rl (q :: qs)) as (mn & mx & -> & Hall & (pm & Hpm & Hmn) & (px & Hpx & Hmx)); [done|].
  destruct (Hall _ _ Hp Hack) as [Hle1 Hle2].
  destruct (N.ltb_spec 0 mx), (N.eqb_spec mn 0); cbn [andb]; try (left; lia).
  - destruct (N.ltb_spec 0 mn); [left; lia|lia].
  - rewrite (proj2 (N.ltb_ge _ _)) by lia. right. split; [unfold sat_sub; lia|]. intros q' Hq'.
    pose proof (get_ack_row (rl_db rl) (ack_key q')) as Hq. unfold get_wal_ack in *. rewrite Hq.
    destruct (Hall q' _ Hq' Hq) as [_ Hz]. f_equal. lia.
Qed.

(** ** Taking a chunk *)

(** The cached sequences were assigned. *)
Definition cache_ok (top : N) (c : gmap N (PreparedWalSlot RB)) : Prop :=
  forall s, is_Some (c !! s) -> s <= top.

(** What a step leaves of a log: only the cache may change, and no key above
    [top] enters it. *)
Definition cache_read_step (top : N) (w w' : RocksDbWal DB RB) : Prop :=
  exists c, w' = set_cache c w /\ (cache_ok top (wal_arrow_cache w) -> cache_ok top c).

Lemma cache_step_entry top (w w' : RocksDbWal DB RB) s : cache_read_step top w w' -> wal_entry w' s = wal_entry w s.
Proof. by intros (c & -> & _). Qed.

Definition same_but_wal (st st' : FlushState DB RDB RB SK) : Prop :=
  fs_last_flushed st' = fs_last_flushed st /\ fs_repl st' = fs_repl st /\ fs_sink st' = fs_sink st.

(** What a chunk covers: some sequences after the cursor, with no entry of the
    log up to the last of them left out. *)
Definition chunk_covers (w : RocksDbWal DB RB) (top cursor snapshot : N) (ck : FlushChunk RB) : Prop :=
  ck_from ck = cursor + 1 /\ ck_seqs ck <> [] /\
  (forall s, s ∈ ck_seqs ck -> cursor < s /\ s <= snapshot /\ s <= top) /\
  (forall s e, wal_entry w s = Some e -> cursor < s -> s <= max_seq cursor (ck_seqs ck) -> s ∈ ck_seqs ck).

Definition taken_ok (w : RocksDbWal DB RB) (top cursor snapshot : N) (r : result FlushError (option (FlushChunk RB)))
    : Prop :=
  match r with
  | Ok (Some ck) => chunk_covers w top cursor snapshot ck
  | Ok None => forall s, cursor < s -> s <= snapshot -> wal_entry w s = None
  | Err _ => True
  end.

Lemma row_top (w : RocksDbWal DB RB) top s e :
  wal_wf (set_seq top w) -> s <= u64_max -> wal_entry w s = Some e -> s <= top.
Proof.
  intros Hwf Hs He. unfold wal_entry in He. destruct (wal_row w s) as [v|] eqn:Ev; [|done].
  by destruct (wf_row (set_seq top w) s v Hwf Hs Ev) as (_ & ? & _).
Qed.

Lemma take_native_spec cfg cursor snapshot limit top (st st' : FlushState DB RDB RB SK) r :
  take_native cfg (cursor + 1) snapshot limit st = (st', r) ->
  wal_wf (set_seq top (fs_wal st)) -> wal_wf (fs_wal st) -> 0 < limit -> snapshot < u64_max -> cursor < snapshot ->
  cache_read_step top (fs_wal st) (fs_wal st') /\ same_but_wal st st' /\ taken_ok (fs_wal st) top cursor snapshot r.
Proof.
  intros E Htop Hwf Hlim Hsn Hcur. unfold take_native in E.
  destruct (read_range_page (fs_wal st) (cursor + 1) limit Hwf) as (page & c' & Er & _ & Hk & Hs & _ & Hin & Hall & Hend);
    [lia|].
  rewrite Er in E.
  assert (Hcs : cache_read_step top (fs_wal st) (set_cache c' (fs_wal st))).
  { exists c'. split; [done|]. intros Hc s [Hs'|Hs']%Hk; [by apply Hc|].
    apply list_elem_of_fmap in Hs' as ([s0 e] & -> & Hse). destruct (Hin _ _ Hse) as (_ & ? & ?).
    by eapply row_top. }
  assert (Hsorted : StronglySorted N.lt (filter (fun se : N * WalEntry => se.1 <= snapshot) page).*1).
  { clear -Hs. induction page as [|x page IH]; [constructor|]. cbn in Hs. inversion Hs as [|? ? Hl Hx]; subst.
    rewrite filter_cons. case_decide; [|by apply IH]. cbn. constructor; [by apply IH|].
    rewrite Forall_forall in *. intros y (z & -> & [_ Hz]%list_elem_of_filter)%list_elem_of_fmap.
    apply Hx. by apply list_elem_of_fmap_2. }
  assert (Hmine : forall s e, wal_entry (fs_wal st) s = Some e -> cursor < s -> s <= snapshot ->
    filter (fun se : N * WalEntry => se.1 <= snapshot) page <> [] /\
    ((s, e) ∈ filter (fun se : N * WalEntry => se.1 <= snapshot) page \/
     forall s', s' ∈ (filter (fun se : N * WalEntry => se.1 <= snapshot) page).*1 -> s' < s)).
  { intros s e He H1 H2. destruct (Hall s e) as [Hp|Hp]; [lia|lia|done| |].
    - assert ((s, e) ∈ filter (fun se : N * WalEntry => se.1 <= snapshot) page) as Hf by (by apply list_elem_of_filter).
      split; [|by left]. intros Hn. rewrite Hn in Hf. by apply elem_of_nil in Hf.
    - destruct page as [|[s0 e0] page]; [by rewrite (Hend eq_refl Hlim s) in He by lia|].
      specialize (Hp s0 ltac:(by left)) as Hlt. split.
      + rewrite filter_cons, decide_True by (cbn; lia). done.
      + right. intros s' (z & -> & [_ Hz]%list_elem_of_filter)%list_elem_of_fmap. apply Hp. by apply list_elem_of_fmap_2. }
  set (fl := filter (fun se : N * WalEntry => se.1 <= snapshot) page) in *.
  destruct (take_budget _ 0 fl) as [|x taken] eqn:Et.
  { injection E as <- <-. split; [done|]. split; [done|]. cbn. apply take_budget_nil in Et.
    intros s H1 H2. destruct (wal_entry (fs_wal st) s) as [e|] eqn:He; [|done].
    by destruct (Hmine s e He H1 H2) as [? _]. }
  injection E as <- <-. split; [done|]. split; [done|].
  unfold native_chunk. destruct (native_work _ _ _) as [work|]; [|done]. cbn [taken_ok mbind result_bind].
  destruct (take_budget_prefix (fc_max_points_per_batch cfg * NATIVE_CHUNK_BATCHES) 0 fl) as [n Hn].
  rewrite Et in Hn. cbn. unfold chunk_covers. cbn [ck_from ck_seqs]. split; [done|]. split; [done|].
  assert (Hsub : forall s, s ∈ (x :: taken).*1 -> exists e, (s, e) ∈ fl).
  { intros s ([s' e] & -> & Hse)%list_elem_of_fmap. exists e. rewrite Hn in Hse. by apply elem_of_take_lookup in Hse. }
  split.
  - intros s Hs'. change (s ∈ (x :: taken).*1) in Hs'. apply Hsub in Hs' as [e [Hle Hp]%list_elem_of_filter].
    destruct (Hin _ _ Hp) as (H1 & H2 & He). split_and!; [lia|done|by eapply row_top].
  - intros s e He H1 H2. change (s <= max_seq cursor (x :: taken).*1) in H2. change (s ∈ (x :: taken).*1).
    assert (s <= snapshot) as H3.
    { etrans; [exact H2|]. destruct (max_seq_spec cursor x.1 taken.*1) as [Hm _].
      apply Hsub in Hm as [em [Hle _]%list_elem_of_filter]. exact Hle. }
    assert (s ∈ fl.*1) as Hfl.
    { destruct (Hmine s e He H1 H3) as [_ [Hf|Hf]]; [by apply (list_elem_of_fmap_2 fst) in Hf|].
      destruct (max_seq_spec cursor x.1 taken.*1) as [Hm _]. apply Hsub in Hm as [em Hm].
      apply (list_elem_of_fmap_2 fst) in Hm. specialize (Hf _ Hm). cbn in Hf, H2. lia. }
    rewrite Hn, fmap_take in H2 |- *. eapply (prefix_covers _ n s cursor Hsorted); [|done|exact H2].
    by rewrite <- fmap_take, <- Hn.
Qed.

Lemma try_map_keys (f : N * PreparedWalSlot RB -> result WalError (N * PreparedWalSlot RB)) l l' :
  try_map f l = Ok l' -> (forall x y, f x = Ok y -> y.1 = x.1) -> l'.*1 = l.*1.
Proof.
  revert l'. induction l as [|x l IH]; intros l' E Hf; cbn in E; [by apply Ok_inj in E as <-|].
  destruct (f x) as [y|] eqn:Ey; [|done]. cbn in E. destruct (try_map f l) as [ys|] eqn:Eys; [|done].
  cbn in E. apply Ok_inj in E as <-. cbn. f_equal; [by apply Hf|by apply IH].
Qed.

Lemma take_prepared_spec (w w' : RocksDbWal DB RB) cursor snapshot max top r :
  take_prepared_range w (cursor + 1) snapshot max = (w', r) -> snapshot < u64_max ->
  cache_read_step top w w' /\
  forall prepared, r = Ok (Some prepared) -> cache_ok top (wal_arrow_cache w) ->
    prepared.*1 = seqN (cursor + 1) (length prepared) /\
    forall s, s ∈ prepared.*1 -> s <= snapshot /\ s <= top.
Proof.
  intros E Hsn. unfold take_prepared_range in E. destruct (wal_arrow_enabled w); cbn [negb] in E.
  2:{ injection E as <- <-. split; [|done]. exists (wal_arrow_cache w). split; [by destruct w|done]. }
  pose proof (take_range_law (cursor + 1) snapshot max (wal_arrow_cache w) Hsn) as Ht.
  destruct (take_range _ _ _ _) as [[slots|] c].
  2:{ destruct Ht as [-> _]. injection E as <- <-. split; [|done]. by exists (wal_arrow_cache w). }
  destruct Ht as ([Hrun Hmem] & _ & Hub & Hc & _). injection E as <- <-. split.
  { exists c. split; [done|]. intros Hok s Hs. apply Hok. rewrite Hc in Hs. case_decide; [by destruct Hs|done]. }
  intros prepared Hp Hok.
  assert (prepared.*1 = slots.*1) as Hk.
  { destruct (wal_format w).
    - destruct (try_map _ slots) as [patched|] eqn:Ep; [|done]. cbn in Hp. apply Ok_inj in Hp. simplify_eq.
      eapply try_map_keys; [exact Ep|]. intros [s sl] y Hy. cbn in Hy.
      destruct (patch_all_ingest_seqs sl s); [|done]. cbn in Hy. by apply Ok_inj in Hy as <-.
    - apply Ok_inj in Hp. by simplify_eq. }
  assert (length prepared = length slots) as Hlen by (rewrite <- !(length_fmap fst), Hk; done).
  rewrite Hk, Hlen. split; [done|]. intros s Hs. split; [by apply Hub|].
  apply list_elem_of_fmap in Hs as ([s0 sl] & -> & Hin). apply Hok. cbn. by rewrite (Hmem _ _ Hin).
Qed.

Lemma cache_step_trans top (w1 w2 w3 : RocksDbWal DB RB) :
  cache_read_step top w1 w2 -> cache_read_step top w2 w3 -> cache_read_step top w1 w3.
Proof. intros (c & -> & H1) (c' & -> & H2). exists c'. split; [done|]. auto. Qed.

Lemma take_chunk_spec cfg cursor snapshot top (st st' : FlushState DB RDB RB SK) r :
  take_chunk cfg cursor snapshot st = (st', r) ->
  wal_wf (set_seq top (fs_wal st)) -> wal_wf (fs_wal st) -> cache_ok top (wal_arrow_cache (fs_wal st)) ->
  snapshot < u64_max -> cursor < snapshot ->
  cache_read_step top (fs_wal st) (fs_wal st') /\ same_but_wal st st' /\ taken_ok (fs_wal st) top cursor snapshot r.
Proof.
  intros E Htop Hwf Hcache Hsn Hcur. unfold take_chunk in E.
  assert (wrapping_add cursor 1 = cursor + 1) as Hw
    by (apply wrapping_add_small; lia).
  rewrite Hw in E. destruct (wal_arrow_enabled (fs_wal st)) eqn:Ea; [|eapply take_native_spec; try done; exact chunk_pos].
  destruct (take_prepared_range (fs_wal st) (cursor + 1) snapshot WAL_READ_CHUNK) as [w1 r1] eqn:Et.
  destruct (take_prepared_spec _ _ _ _ _ top _ Et Hsn) as [Hcs Hp].
  assert (Hnat : forall limit, 0 < limit -> take_native cfg (cursor + 1) snapshot limit (set_wal w1 st) = (st', r) ->
    cache_read_step top (fs_wal st) (fs_wal st') /\ same_but_wal st st' /\ taken_ok (fs_wal st) top cursor snapshot r).
  { intros limit Hl En. destruct Hcs as (c1 & -> & Hc1).
    destruct (take_native_spec _ _ _ _ top _ _ _ En) as (H1 & H2 & H3); try done.
    split_and!; try apply H2; [|exact H3]. eapply cache_step_trans; [|exact H1]. by exists c1. }
  destruct r1 as [[[|x prepared]|]|e].
  - eapply Hnat; [|exact E]. exact chunk_pos.
  - injection E as <- <-. split; [done|]. split; [done|]. destruct (Hp _ eq_refl Hcache) as [Hrun Hub].
    unfold prepared_chunk. destruct (prepared_work _ _ _) as [work|]; [|exact I].
    change (chunk_covers (fs_wal st) top cursor snapshot (mkChunk (cursor + 1) (x :: prepared).*1 work)).
    unfold chunk_covers. cbn [ck_from ck_seqs]. split; [done|]. split; [done|]. split.
    + intros s Hs. split; [|by apply Hub]. rewrite Hrun in Hs. apply elem_of_seqN in Hs. lia.
    + intros s e He H1 H2. eapply (run_covers (cursor + 1) _ s cursor); [|done|lia|exact H2].
      by rewrite length_fmap.
  - eapply Hnat; [|exact E]. pose proof chunk_pos. destruct (next_prepared_seq w1 (cursor + 1)); [|done].
    destruct (N.ltb_spec (cursor + 1) n); [lia|done].
  - by injection E as <- <-.
Qed.

(** ** A flush ends, and a drain leaves nothing behind *)

Definition flush_ready (st : FlushState DB RDB RB SK) : Prop :=
  wal_wf (fs_wal st) /\ cache_ok (wal_seq (fs_wal st)) (wal_arrow_cache (fs_wal st)) /\
  fs_last_flushed st <= wal_seq (fs_wal st).

Lemma set_seq_same (w : RocksDbWal DB RB) : set_seq (wal_seq w) w = w.
Proof. by destruct w. Qed.

(** The log has nothing after the mark. *)
Definition log_flushed (st : FlushState DB RDB RB SK) : Prop :=
  forall s, fs_last_flushed st < s -> s <= u64_max -> wal_entry (fs_wal st) s = None.

Lemma ready_cache_step (st st' : FlushState DB RDB RB SK) :
  flush_ready st -> cache_read_step (wal_seq (fs_wal st)) (fs_wal st) (fs_wal st') -> same_but_wal st st' ->
  flush_ready st' /\ wal_seq (fs_wal st') = wal_seq (fs_wal st).
Proof.
  intros (Hwf & Hc & Hl) (c & Hw & Hcc) (Hf & _ & _). unfold flush_ready. rewrite Hw, Hf.
  split; [|done]. split; [exact Hwf|]. split; [by apply Hcc|exact Hl].
Qed.

Lemma max_seq_covers (w : RocksDbWal DB RB) top cursor snapshot ck :
  chunk_covers w top cursor snapshot ck ->
  cursor < max_seq cursor (ck_seqs ck) /\ max_seq cursor (ck_seqs ck) <= top /\
  max_seq cursor (ck_seqs ck) <= snapshot.
Proof.
  intros (_ & Hne & Hin & _). destruct (ck_seqs ck) as [|x l]; [done|].
  destruct (max_seq_spec cursor x l) as [Hm _]. by destruct (Hin _ Hm) as (? & ? & ?).
Qed.

Lemma finish_chunk_ready cfg now ck failed (st st' : FlushState DB RDB RB SK) cursor snapshot r :
  flush_ready st -> cursor = fs_last_flushed st ->
  chunk_covers (fs_wal st) (wal_seq (fs_wal st)) cursor snapshot ck ->
  finish_chunk cfg now ck cursor failed st = (st', r) ->
  flush_ready st' /\ wal_seq (fs_wal st') = wal_seq (fs_wal st) /\ r <> Err FeFuel /\
  forall c, r = Ok c -> c = fs_last_flushed st' /\ cursor < c /\ c <= snapshot.
Proof.
  intros (Hwf & Hc & Hl) -> Hcov E. unfold finish_chunk in E. cbv zeta in E.
  set (f := if failed then _ else _) in E. set (safe := compute_safe_truncate_seq _ _ _ _ _ _) in E.
  destruct (max_seq_covers _ _ _ _ _ Hcov) as (H1 & H2 & H3).
  assert (f <= wal_seq (fs_wal st)) as Hf.
  { unfold f. destruct failed; [|done]. destruct Hcov as (-> & _). unfold sat_sub. lia. }
  assert (safe <= f) as Hsafe by (by apply safe_truncate_le).
  pose proof Hwf as (Hmax & _).
  assert (wrapping_add safe 1 = safe + 1) as Hw
    by (apply wrapping_add_small; lia).
  rewrite Hw in E. destruct (truncate_before (fs_wal st) (safe + 1)) as [w r1] eqn:Et.
  destruct (truncate_ok _ _ _ _ Et Hwf ltac:(lia)) as (Hwf' & (Hs & _ & _ & _ & Hcache & _) & _).
  assert (cache_ok (wal_seq w) (wal_arrow_cache w)) as Hc'.
  { intros s. rewrite Hcache, Hs. unfold cache_truncate_before. intros [v [Hv _]%map_lookup_filter_Some]. by apply Hc. }
  destruct r1 as [[]|e]; injection E as <- <-.
  - split; [split; [exact Hwf'|split; [exact Hc'|cbn; lia]]|]. split; [exact Hs|]. unfold f. destruct failed; [done|].
    split; [done|]. intros c <-%Ok_inj. done.
  - split; [split; [exact Hwf'|split; [exact Hc'|cbn; lia]]|]. split; [exact Hs|]. split; [done|]. done.
Qed.

Lemma write_chunk_wal sched ck (st st' : FlushState DB RDB RB SK) failed :
  write_chunk sched ck st = (st', failed) ->
  fs_wal st' = fs_wal st /\ fs_last_flushed st' = fs_last_flushed st /\ fs_repl st' = fs_repl st.
Proof. unfold write_chunk. destruct (run_tasks _ _) as [sk f]. by intros [= <- <-]. Qed.

Lemma take_native_fuel cfg from snapshot limit (st st' : FlushState DB RDB RB SK) r :
  take_native cfg from snapshot limit st = (st', r) -> r <> Err FeFuel.
Proof.
  unfold take_native. destruct (read_range _ _ _) as [w [entries|e]]; [|by intros [= <- <-]].
  destruct (take_budget _ _ _); [by intros [= <- <-]|]. unfold native_chunk.
  destruct (native_work _ _ _); by intros [= <- <-].
Qed.

Lemma take_chunk_fuel cfg cursor snapshot (st st' : FlushState DB RDB RB SK) r :
  take_chunk cfg cursor snapshot st = (st', r) -> r <> Err FeFuel.
Proof.
  unfold take_chunk. destruct (wal_arrow_enabled _); [|apply take_native_fuel].
  destruct (take_prepared_range _ _ _ _) as [w [[[|x prepared]|]|e]].
  - apply take_native_fuel.
  - unfold prepared_chunk. destruct (prepared_work _ _ _); by intros [= <- <-].
  - apply take_native_fuel.
  - by intros [= <- <-].
Qed.

Lemma log_end_flushed (st : FlushState DB RDB RB SK) :
  wal_wf (fs_wal st) ->
  (forall s, fs_last_flushed st < s -> s <= wal_seq (fs_wal st) -> wal_entry (fs_wal st) s = None) -> log_flushed st.
Proof.
  intros Hwf Hn s Hs Hmx. destruct (wal_entry (fs_wal st) s) as [e|] eqn:He; [|done].
  assert (s <= wal_seq (fs_wal st)) as Hle by (eapply row_top; [by rewrite set_seq_same|done|exact He]).
  by rewrite Hn in He.
Qed.

Lemma flush_loop_ends fuel cfg clock sched cursor (st st' : FlushState DB RDB RB SK) r :
  flush_loop fuel cfg clock sched cursor (wal_seq (fs_wal st)) st = (st', r) ->
  flush_ready st -> cursor = fs_last_flushed st -> (N.to_nat (wal_seq (fs_wal st) - cursor) <= fuel)%nat ->
  flush_ready st' /\ wal_seq (fs_wal st') = wal_seq (fs_wal st) /\ r <> Err FeFuel /\ (r = Ok tt -> log_flushed st').
Proof.
  revert cursor st. induction fuel as [|fuel IH]; intros cursor st E Hr -> Hfuel;
    cbn [flush_loop] in E; destruct (N.ltb_spec (fs_last_flushed st) (wal_seq (fs_wal st))) as [Hlt|Hge]; try lia.
  1,3: injection E as <- <-; split; [done|]; split; [done|]; split; [done|]; intros _;
    apply log_end_flushed; [apply Hr|]; intros s; lia.
  destruct (take_chunk cfg _ _ st) as [st1 r1] eqn:Et. pose proof (take_chunk_fuel _ _ _ _ _ _ Et) as Hne.
  pose proof Hr as (Hwf & Hc & Hl).
  destruct (take_chunk_spec _ _ _ (wal_seq (fs_wal st)) _ _ _ Et) as (Hcs & Hsame & Htk); try done;
    [apply Hwf|].
  destruct (ready_cache_step _ _ Hr Hcs Hsame) as [Hr1 Hs1]. pose proof Hsame as (Hf1 & _ & _).
  destruct r1 as [[ck|]|e].
  - destruct (write_chunk sched ck st1) as [st2 failed] eqn:Ew. destruct (write_chunk_wal _ _ _ _ _ Ew) as (Hw2 & Hf2 & _).
    destruct (finish_chunk cfg _ ck _ failed st2) as [st3 r3] eqn:Ef.
    assert (flush_ready st2) as Hr2 by (unfold flush_ready; by rewrite Hw2, Hf2).
    assert (fs_last_flushed st = fs_last_flushed st2) as Hcur by (by rewrite Hf2, Hf1).
    assert (chunk_covers (fs_wal st2) (wal_seq (fs_wal st2)) (fs_last_flushed st) (wal_seq (fs_wal st)) ck) as Hcov.
    { rewrite Hw2, Hs1. destruct Hcs as (c & Hw1 & _). rewrite Hw1. exact Htk. }
    destruct (finish_chunk_ready _ _ _ _ _ _ _ _ _ Hr2 Hcur Hcov Ef) as (Hr3 & Hs3 & Hne3 & Hc3).
    assert (wal_seq (fs_wal st3) = wal_seq (fs_wal st)) as Hs by (by rewrite Hs3, Hw2).
    destruct r3 as [c|e]; [|injection E as <- <-; split; [done|]; split; [done|]; split; [congruence|done]].
    destruct (Hc3 c eq_refl) as (-> & H1 & H2). rewrite <- Hs in E |- *. eapply IH; [exact E|done|done|]. lia.
  - injection E as <- <-. split; [done|]. split; [done|]. split; [done|]. intros _. apply log_end_flushed; [apply Hr1|].
    rewrite Hf1, Hs1. intros s. rewrite (cache_step_entry _ _ _ s Hcs). apply Htk.
  - injection E as <- <-. split; [done|]. split; [done|]. split; [congruence|done].
Qed.

Lemma flush_ends cfg clock sched (st st' : FlushState DB RDB RB SK) r :
  flush cfg clock sched st = (st', r) -> flush_ready st ->
  flush_ready st' /\ r <> Err FeFuel /\ (r = Ok tt -> log_flushed st').
Proof.
  unfold flush, last_sequence. intros E Hr. destruct (N.leb_spec (wal_seq (fs_wal st)) (fs_last_flushed st)).
  - injection E as <- <-. split; [done|]. split; [done|]. intros _. apply log_end_flushed; [apply Hr|]. intros s. lia.
  - destruct (flush_loop_ends _ _ _ _ _ _ _ _ E Hr eq_refl ltac:(done)) as (? & _ & ? & ?). done.
Qed.

(** C38: A drain ends after one flush. Whatever the sink and the database
    answer, the loops of the flush run out before their fuel, and when a drain
    with no concurrent writers succeeds, the log has no entry left after
    [last_flushed]. *)
Theorem drain_correct fuel cfg clock sched (st st' : FlushState DB RDB RB SK) r :
  flush_ready st -> (0 < fuel)%nat -> drain fuel cfg clock sched st = (st', r) ->
  flush_ready st' /\ r <> Err FeFuel /\ (r = Ok tt -> log_flushed st').
Proof.
  intros Hr Hf E. destruct fuel as [|fuel]; [lia|]. cbn [drain] in E.
  destruct (flush cfg clock sched st) as [st1 r1] eqn:Ef.
  destruct (flush_ends _ _ _ _ _ _ Ef Hr) as (Hr1 & Hne & Hfl).
  destruct r1 as [[]|e]; [|injection E as <- <-; split; [done|]; split; [congruence|done]].
  specialize (Hfl eq_refl). pose proof Hr1 as (Hwf & Hc & Hl). pose proof Hwf as (Hmax & _).
  assert (wrapping_add (fs_last_flushed st1) 1 = fs_last_flushed st1 + 1) as Hw
    by (apply wrapping_add_small; lia).
  rewrite Hw in E. destruct (read_range_page (fs_wal st1) (fs_last_flushed st1 + 1) 1 Hwf ltac:(lia))
    as (page & c' & Er & _ & Hk & _ & _ & Hin & _).
  rewrite Er in E. destruct page as [|[s e] page].
  - injection E as <- <-. split; [|split; [done|by intros _]]. split; [exact Hwf|]. split; [|exact Hl].
    intros s [Hs|Hs]%Hk; [by apply Hc|by apply elem_of_nil in Hs].
  - exfalso. destruct (Hin s e ltac:(by left)) as (H1 & H2 & He). rewrite Hfl in He by lia. done.
Qed.

(** ** A healthy_wal node drains *)

Definition entries_small (w : RocksDbWal DB RB) : Prop :=
  forall s e, s <= u64_max -> wal_entry w s = Some e -> N.of_nat (length (we_points e)) <= 2147483648.

(** Neither the database nor the sink fails. *)
Definition healthy_wal : Prop :=
  (forall (d : DB) b, exists d', cf_write d b = Ok d') /\
  (forall (d : DB) c, cf_flush_memtable (Cf := WalCf) d c = Ok tt) /\
  (forall (sk : SK) t, task_failed (snd (run_task (RB := RB) sk t)) = false).

Lemma run_tasks_healthy sk tasks : healthy_wal -> snd (run_tasks (RB := RB) sk tasks) = false.
Proof.
  intros (_ & _ & Hs). revert sk. induction tasks as [|t tasks IH]; intros sk; cbn; [done|].
  specialize (Hs sk t). destruct (run_task sk t) as [sk1 r]. specialize (IH sk1).
  destruct (run_tasks sk1 tasks) as [sk2 f]. cbn in *. by rewrite Hs, IH.
Qed.

Lemma truncate_healthy (w : RocksDbWal DB RB) sequence :
  healthy_wal -> exists w', truncate_before w sequence = (w', Ok tt).
Proof.
  intros (Hw & Hm & _). unfold truncate_before. cbn [wal_truncated_through set_sizes set_cache wal_db wal_seq].
  destruct (_ <=? _); [by eexists|]. destruct (Hw (wal_db w) (truncate_ops (wal_truncated_through w) sequence
    ++ [PutCf WalMeta LAST_SEQ_KEY (u64_value (wal_seq w))])) as [d ->].
  destruct (_ <? _); [|by eexists]. destruct (_ <=? _); [|by eexists]. rewrite Hm. by eexists.
Qed.

Lemma take_native_healthy cfg from snapshot limit (st st' : FlushState DB RDB RB SK) r :
  take_native cfg from snapshot limit st = (st', r) -> wal_wf (fs_wal st) -> from <= u64_max ->
  entries_small (fs_wal st) -> N.of_nat (fc_max_points_per_batch cfg) <= MAX_BATCH_POINTS -> is_ok r = true.
Proof.
  intros E Hwf Hfrom Hsm Hmax. unfold take_native in E.
  destruct (read_range_page (fs_wal st) from limit Hwf Hfrom) as (page & c' & Er & _ & _ & _ & _ & Hin & _).
  rewrite Er in E. destruct (take_budget _ _ _) as [|x taken] eqn:Et; [by injection E as <- <-|].
  injection E as <- <-.
  assert (Hb : Forall (fun se : N * WalEntry => (length (we_points se.2) <= N.to_nat 2147483648)%nat)
    (filter (fun se : N * WalEntry => se.1 <= snapshot) page)).
  { apply Forall_forall. intros [s e] [_ Hp]%list_elem_of_filter. destruct (Hin _ _ Hp) as (_ & Hs & He). cbn.
    specialize (Hsm s e Hs He). lia. }
  pose proof (take_budget_total (fc_max_points_per_batch cfg * NATIVE_CHUNK_BATCHES) _ 0 _ Hb) as Htot.
  rewrite Et in Htot. destruct (native_chunk_ok (RB := RB) cfg from (x :: taken)) as [ck ->]; [|done].
  unfold NATIVE_CHUNK_BATCHES in Htot. unfold MAX_BATCH_POINTS in Hmax. lia.
Qed.

(** What stays true of a healthy_wal node without prepared slots between its
    chunks. *)
Definition drains (st : FlushState DB RDB RB SK) : Prop :=
  flush_ready st /\ wal_arrow_enabled (fs_wal st) = false /\ entries_small (fs_wal st).

Lemma finish_chunk_healthy cfg now ck (st st' : FlushState DB RDB RB SK) cursor snapshot r :
  healthy_wal -> drains st -> cursor = fs_last_flushed st ->
  chunk_covers (fs_wal st) (wal_seq (fs_wal st)) cursor snapshot ck ->
  finish_chunk cfg now ck cursor false st = (st', r) -> drains st' /\ exists c, r = Ok c.
Proof.
  intros Hh (Hr & Ha & Hsm) Hcur Hcov E.
  destruct (finish_chunk_ready _ _ _ _ _ _ _ _ _ Hr Hcur Hcov E) as (Hr' & _ & _ & _).
  pose proof Hr as (Hwf & _ & Hl). pose proof Hwf as (Hmax & _).
  unfold finish_chunk in E. cbv zeta in E. set (safe := compute_safe_truncate_seq _ _ _ _ _ _) in E.
  destruct (max_seq_covers _ _ _ _ _ Hcov) as (_ & H2 & _).
  assert (safe <= max_seq cursor (ck_seqs ck)) as Hsafe by (by apply safe_truncate_le).
  assert (wrapping_add safe 1 = safe + 1) as Hw
    by (apply wrapping_add_small; lia).
  rewrite Hw in E. destruct (truncate_healthy (fs_wal st) (safe + 1) Hh) as [w Et]. rewrite Et in E.
  destruct (truncate_ok _ _ _ _ Et Hwf ltac:(lia)) as (_ & (_ & Hfmt & Hen & _) & _ & Hsub & _).
  injection E as <- <-. split; [|by eexists]. split; [done|]. split; [cbn; by rewrite Hen|].
  intros s e Hs He. apply (Hsm s e Hs). unfold wal_entry in *. cbn in He.
  change (wal_row (set_flushed_through _ w) s) with (wal_row w s) in He. rewrite Hfmt in He.
  destruct (wal_row w s) as [v|] eqn:Ev; [|done]. by rewrite (Hsub _ _ Hs Ev).
Qed.

Lemma flush_loop_healthy fuel cfg clock sched cursor (st st' : FlushState DB RDB RB SK) r :
  flush_loop fuel cfg clock sched cursor (wal_seq (fs_wal st)) st = (st', r) ->
  healthy_wal -> drains st -> N.of_nat (fc_max_points_per_batch cfg) <= MAX_BATCH_POINTS ->
  cursor = fs_last_flushed st -> (N.to_nat (wal_seq (fs_wal st) - cursor) <= fuel)%nat -> r = Ok tt.
Proof.
  intros E Hh Hd Hmax. revert cursor st E Hd. induction fuel as [|fuel IH]; intros cursor st E Hd -> Hfuel;
    cbn [flush_loop] in E; destruct (N.ltb_spec (fs_last_flushed st) (wal_seq (fs_wal st))) as [Hlt|Hge]; try lia;
    try (by injection E as <- <-).
  destruct (take_chunk cfg _ _ st) as [st1 r1] eqn:Et. pose proof Hd as (Hr & Ha & Hsm).
  pose proof Hr as (Hwf & Hc & Hl). pose proof Hwf as (Hm & _).
  destruct (take_chunk_spec _ _ _ (wal_seq (fs_wal st)) _ _ _ Et) as (Hcs & Hsame & Htk); try done.
  destruct (ready_cache_step _ _ Hr Hcs Hsame) as [Hr1 Hs1]. pose proof Hsame as (Hf1 & _ & _).
  assert (Hok : is_ok r1 = true).
  { unfold take_chunk in Et. rewrite Ha in Et. eapply take_native_healthy; [exact Et|done| |done|done].
    unfold wrapping_add, two64, u64_max in *. pose proof (N.mod_lt (fs_last_flushed st + 1) two64). unfold two64 in *. lia. }
  destruct Hcs as (c1 & Hw1 & _).
  destruct r1 as [[ck|]|e]; [|by injection E as <- <-|done].
  unfold write_chunk in E. pose proof (run_tasks_healthy (fs_sink st1) (sched (ck_tasks ck)) Hh) as Hrun.
  destruct (run_tasks _ _) as [sk failed]. cbn in Hrun. subst failed.
  set (st2 := mkFlush _ _ _ _ _) in E. destruct (finish_chunk cfg _ ck _ false st2) as [st3 r3] eqn:Ef.
  assert (drains st2) as Hd2.
  { split; [exact Hr1|]. change (fs_wal st2) with (fs_wal st1). rewrite Hw1. done. }
  assert (fs_last_flushed st = fs_last_flushed st2) as Hcur by (by rewrite <- Hf1).
  assert (chunk_covers (fs_wal st2) (wal_seq (fs_wal st2)) (fs_last_flushed st) (wal_seq (fs_wal st)) ck) as Hcov.
  { change (fs_wal st2) with (fs_wal st1). rewrite Hs1, Hw1. exact Htk. }
  destruct (finish_chunk_healthy _ _ _ _ _ _ _ _ Hh Hd2 Hcur Hcov Ef) as (Hd3 & c & ->).
  destruct (finish_chunk_ready _ _ _ _ _ _ _ _ _ (proj1 Hd2) Hcur Hcov Ef) as (_ & Hs3 & _ & Hc3).
  destruct (Hc3 c eq_refl) as (-> & H1 & H2).
  assert (wal_seq (fs_wal st3) = wal_seq (fs_wal st)) as Hs by (rewrite Hs3; exact Hs1).
  rewrite <- Hs in E. eapply IH; [exact E|done|done|]. lia.
Qed.

(** A node whose database and sink do not fail drains: the first flush of
    a drain goes through the whole log and succeeds, so the drain returns with
    nothing left after [last_flushed]. Batches are within the configured
    limits and no single entry has more than [2^31] points. *)
Theorem drain_completes fuel cfg clock sched (st : FlushState DB RDB RB SK) :
  healthy_wal -> flush_ready st -> wal_arrow_enabled (fs_wal st) = false -> entries_small (fs_wal st) ->
  N.of_nat (fc_max_points_per_batch cfg) <= MAX_BATCH_POINTS -> (0 < fuel)%nat ->
  exists st', drain fuel cfg clock sched st = (st', Ok tt) /\ log_flushed st'.
Proof.
  intros Hh Hr Ha Hsm Hmax Hf. destruct fuel as [|fuel]; [lia|]. cbn [drain].
  destruct (flush cfg clock sched st) as [st1 r1] eqn:Ef.
  destruct (flush_ends _ _ _ _ _ _ Ef Hr) as (Hr1 & _ & Hfl).
  assert (r1 = Ok tt) as ->.
  { unfold flush, last_sequence in Ef. destruct (_ <=? _); [by injection Ef as <- <-|].
    eapply flush_loop_healthy; [exact Ef|done|by split|done|done|done]. }
  specialize (Hfl eq_refl). pose proof Hr1 as (Hwf & Hc & Hl). pose proof Hwf as (Hm & _).
  assert (wrapping_add (fs_last_flushed st1) 1 = fs_last_flushed st1 + 1) as Hw
    by (apply wrapping_add_small; lia).
  rewrite Hw. destruct (read_range_page (fs_wal st1) (fs_last_flushed st1 + 1) 1 Hwf ltac:(lia))
    as (page & c' & Er & _ & _ & _ & _ & Hin & _).
  rewrite Er. destruct page as [|[s e] page]; [by eexists|]. exfalso.
  destruct (Hin s e ltac:(by left)) as (H1 & H2 & He). rewrite Hfl in He by lia. done.
Qed.
End FlushTheorems.

(** ** Witnesses *)

#[local] Instance wit_hasher : DefaultHasher := fun _ => 0.

(** The log of [wit_wal2] without prepared slots. *)
Definition wit_log : RocksDbWal (MemDb WalCf) MemBatch :=
  mkWal (wal_db wit_wal2) 2 0 1 0 (wal_sizes wit_wal2) ∅ WfBincode false.

Definition wit_cfg : FlushConfig :=
  mkFlushConfig 10000 (Some (mkMembership 0 {[2 := mkNode 2 "b:8086" Active 0 0 false 0]})) 1 0 0 0 true false 1073741824.

Definition wit_state : FlushState (MemDb WalCf) (MemDb ReplCf) MemBatch (list (FlushTask MemBatch)) :=
  mkFlush wit_log 0 0 None [].

Lemma wit_log_wf : wal_wf wit_log.
Proof. exact wit_wal2_wf. Qed.

Lemma wit_ready : flush_ready wit_state.
Proof.
  split; [exact wit_log_wf|]. split; [|vm_compute; discriminate].
  intros s [v Hv]. change ((∅ : gmap N (PreparedWalSlot MemBatch)) !! s = Some v) in Hv. by rewrite lookup_empty in Hv.
Qed.

Lemma wit_small : entries_small wit_log.
Proof.
  intros s e Hs He. assert (s <= 2) as Hle by (eapply (row_top wit_log 2); [exact wit_log_wf|done|exact He]).
  assert (s = 0 \/ s = 1 \/ s = 2) as [->|[->| ->]] by lia; vm_compute in He; simplify_eq; vm_compute; discriminate.
Qed.

Lemma wit_healthy : healthy_wal (DB := MemDb WalCf) (RB := MemBatch) (SK := list (FlushTask MemBatch)).
Proof. split_and!; [by eexists|done|]. intros sk [|]; reflexivity. Qed.

Lemma drain_completes_witness :
  exists st', drain 1 wit_cfg (fun _ => 0%Z) id wit_state = (st', Ok tt) /\ log_flushed st'.
Proof.
  apply (drain_completes 1 wit_cfg (fun _ => 0%Z) id wit_state).
  - exact wit_healthy.
  - exact wit_ready.
  - reflexivity.
  - exact wit_small.
  - vm_compute. discriminate.
  - lia.
Defined.

Lemma drain_correct_witness :
  fs_last_flushed (fst (drain 1 wit_cfg (fun _ => 0%Z) id wit_state)) = 2 /\
  log_flushed (fst (drain 1 wit_cfg (fun _ => 0%Z) id wit_state)).
Proof.
  destruct (drain_correct 1 wit_cfg (fun _ => 0%Z) id wit_state
    (fst (drain 1 wit_cfg (fun _ => 0%Z) id wit_state)) (snd (drain 1 wit_cfg (fun _ => 0%Z) id wit_state))
    wit_ready) as (_ & _ & H).
  - lia.
  - apply surjective_pairing.
  - split; [vm_compute; reflexivity|]. apply H. vm_compute. reflexivity.
Defined.

Lemma native_chunk_correct_witness :
  exists ck : FlushChunk MemBatch, native_chunk wit_cfg 1 [(1, wit_entry)] = Ok ck /\
    ck_tasks ck = [NativeTask "db" "autogen" "cpu" [1] 1 [mkPoint "cpu" ∅ ∅ 7%Z]] /\ ck_seqs ck = [1].
Proof.
  destruct (native_chunk wit_cfg 1 [(1, wit_entry)]) as [ck|e] eqn:E; [|vm_compute in E; discriminate].
  exists ck. split; [reflexivity|].
  destruct (native_chunk_correct wit_cfg 1 [(1, wit_entry)] ck E) as [H _].
  - vm_compute. lia.
  - intros key. pose proof (entry_points_total (fc_node_id wit_cfg) [(1, wit_entry)] key) as Ht. cbn in Ht |- *. lia.
  - split; [|exact H]. vm_compute in E. apply Ok_inj in E as <-. reflexivity.
Defined.

(** The log of a node whose peer 2 acknowledged sequence 1. *)
Definition wit_acked : ReplicationLog (MemDb ReplCf) :=
  fst (set_wal_ack (repl_open (empty_db (Cf := ReplCf))) 2 1).

Lemma safe_truncate_bound_witness :
  compute_safe_truncate_seq wit_cfg 0 wit_log (Some wit_acked) 2 2 = 1 /\
  compute_safe_truncate_seq wit_cfg 0 wit_log (Some wit_acked) 2 2 <= 2.
Proof.
  destruct (safe_truncate_bound wit_cfg 0 wit_log wit_acked 2 2 wit_log_wf) as [H _].
  split; [vm_compute; reflexivity|exact H].
Defined.
