(* ===== verification/FlushMachine.v ===== *)
(** * A node that appends while it flushes

    The flush service runs beside the group-commit writer, database drops and
    crashes. The node is a state machine whose steps are the operations of
    [Wal] and [Flush] at the points where they can interleave: the writer
    assigns the sequences of a batch before it writes the rows, and a flush
    takes a chunk, writes it to the sink and truncates the log in separate
    steps. What the writer acknowledged, what the sink was given and which
    databases were dropped is recorded as history. *)

From Stdlib Require Import Ascii String.
From stdpp Require Import prelude list sorting gmap fin_maps strings relations.
From S2P Require Import Prelude Bytes CfStore Wire Points Arrow WalIpc ArrowCache Wal WalTheorems Membership.
From S2P Require Import WalWriter ReplicationLog ReplicationLogTheorems Flush FlushTheorems.
From stdpp Require Import options.

#[local] Open Scope N_scope.
#[local] Arguments u64_to_be : simpl never.
#[local] Arguments apply_cf_op : simpl never.
#[local] Arguments decode_wal_value : simpl never.

Section Machine.
Context {DB RDB A RB SK : Type} `{CDB : !CfDb WalCf DB} `{DbLaws : !CfDbLaws WalCf DB}.
Context `{RCDB : !CfDb ReplCf RDB} `{RDbLaws : !CfDbLaws ReplCf RDB}.
Context `{AR : !Arrow A RB} `{AI : !ArrowIpc RB} `{BC : !Bincode} `{DH : !DefaultHasher}.
Context `{AIL : !ArrowIpcLaws RB} `{BL : !BincodeLaws}.
Context `{PS : !PointsSink RB SK}.

(** Where the flush is: between flushes, between chunks, before and after the
    writes of a chunk. A chunk carries the entries its sequences had when it
    was taken. *)
Inductive FlushPc :=
| PcIdle
| PcLoop (cursor snapshot : N)
| PcWriting (cursor snapshot : N) (ck : FlushChunk RB) (ents : list (N * WalEntry))
| PcWritten (cursor snapshot : N) (ck : FlushChunk RB) (ents : list (N * WalEntry)) (failed : bool).

Record Node := mkNodeState {
  nd_st : FlushState DB RDB RB SK;
  nd_pc : FlushPc;
  (* the batch the writer has sequences for but has not written *)
  nd_pending : option (N * list (WalAppendBundle RB) * list (option bytes));
  nd_acked : list (N * WalEntry);
  nd_done : list (N * WalEntry);
  nd_purged : list string
}.

Definition nd_wal (n : Node) : RocksDbWal DB RB := fs_wal (nd_st n).

Definition with_wal (w : RocksDbWal DB RB) (n : Node) : Node :=
  mkNodeState (set_wal w (nd_st n)) (nd_pc n) (nd_pending n) (nd_acked n) (nd_done n) (nd_purged n).

Definition with_flush (st : FlushState DB RDB RB SK) (pc : FlushPc) (n : Node) : Node :=
  mkNodeState st pc (nd_pending n) (nd_acked n) (nd_done n) (nd_purged n).

Definition with_pending (p : option (N * list (WalAppendBundle RB) * list (option bytes))) (n : Node) : Node :=
  mkNodeState (nd_st n) (nd_pc n) p (nd_acked n) (nd_done n) (nd_purged n).

Definition with_history (acked done : list (N * WalEntry)) (n : Node) : Node :=
  mkNodeState (nd_st n) (nd_pc n) (nd_pending n) (nd_acked n ++ acked) (nd_done n ++ done) (nd_purged n).

(** The entries of some sequences. *)
Definition entries_at (w : RocksDbWal DB RB) (seqs : list N) : list (N * WalEntry) :=
  omap (fun s => e ← wal_entry w s; Some (s, e)) seqs.

(** One step; the configuration (its view of the membership included), the
    clock and the order of the work items may differ from step to step. *)
Inductive node_step : Node -> Node -> Prop :=
| step_alloc n bundles pre w first :
    nd_pending n = None -> bundles <> [] -> bundles_fit (nd_wal n) bundles pre ->
    wal_seq (nd_wal n) + N.of_nat (length bundles) < u64_max ->
    take_seqs (nd_wal n) (N.of_nat (length bundles)) = (w, first) ->
    node_step n (with_pending (Some (first, bundles, pre)) (with_wal w n))
| step_commit n first bundles pre w seqs :
    nd_pending n = Some (first, bundles, pre) ->
    write_rows (nd_wal n) first bundles pre = (w, Ok seqs) ->
    node_step n (with_history (zip seqs (wb_entry <$> bundles)) [] (with_pending None (with_wal w n)))
| step_commit_failed n first bundles pre w e :
    nd_pending n = Some (first, bundles, pre) ->
    write_rows (nd_wal n) first bundles pre = (w, Err e) ->
    node_step n (with_pending None (with_wal w n))
| step_begin n :
    nd_pc n = PcIdle ->
    node_step n (with_flush (nd_st n) (PcLoop (fs_last_flushed (nd_st n)) (last_sequence (nd_wal n))) n)
| step_take n cfg cursor snapshot st ck :
    nd_pc n = PcLoop cursor snapshot -> cursor < snapshot ->
    take_chunk cfg cursor snapshot (nd_st n) = (st, Ok (Some ck)) ->
    node_step n (with_flush st (PcWriting cursor snapshot ck (entries_at (nd_wal n) (ck_seqs ck))) n)
| step_nothing n cfg cursor snapshot st r :
    nd_pc n = PcLoop cursor snapshot -> cursor < snapshot ->
    take_chunk cfg cursor snapshot (nd_st n) = (st, r) -> (r = Ok None \/ exists e, r = Err e) ->
    node_step n (with_flush st PcIdle n)
| step_end n cursor snapshot :
    nd_pc n = PcLoop cursor snapshot -> snapshot <= cursor ->
    node_step n (with_flush (nd_st n) PcIdle n)
| step_write n cursor snapshot ck ents sched st failed :
    nd_pc n = PcWriting cursor snapshot ck ents -> sched (ck_tasks ck) ≡ₚ ck_tasks ck ->
    write_chunk sched ck (nd_st n) = (st, failed) ->
    node_step n (with_history [] (if failed then [] else ents)
                   (with_flush st (PcWritten cursor snapshot ck ents failed) n))
| step_finish n cfg now cursor snapshot ck ents failed st r :
    nd_pc n = PcWritten cursor snapshot ck ents failed ->
    finish_chunk cfg now ck cursor failed (nd_st n) = (st, r) ->
    node_step n (with_flush st (match r with Ok c => PcLoop c snapshot | Err _ => PcIdle end) n)
| step_purge n database w r :
    purge_database (nd_wal n) database = (w, r) ->
    node_step n (mkNodeState (set_wal w (nd_st n)) (nd_pc n) (nd_pending n) (nd_acked n) (nd_done n)
                   (database :: nd_purged n))
| step_replication n repl :
    node_step n (with_flush (mkFlush (nd_wal n) (fs_last_flushed (nd_st n)) (fs_last_local (nd_st n)) repl
                               (fs_sink (nd_st n))) (nd_pc n) n)
| step_restart n en repl d w :
    wal_open (wal_db (nd_wal n)) (wal_format (nd_wal n)) en = (d, Ok w) ->
    node_step n (with_pending None
      (with_flush (mkFlush w 0 0 repl (fs_sink (nd_st n))) PcIdle n)).

(** ** The invariant *)
#[local] Set Default Proof Using "Type*".

(** The last sequence whose batch is settled. *)
Definition nd_base (n : Node) : N :=
  match nd_pending n with
  | Some (first, _, _) => first - 1
  | None => wal_seq (nd_wal n)
  end.

Definition pending_ok (n : Node) : Prop :=
  match nd_pending n with
  | Some (first, bundles, pre) =>
    0 < first /\ bundles <> [] /\ bundles_fit (nd_wal n) bundles pre /\
    wal_seq (nd_wal n) = first - 1 + N.of_nat (length bundles)
  | None => True
  end.

Definition chunk_held (n : Node) (cursor : N) (ck : FlushChunk RB) (ents : list (N * WalEntry)) : Prop :=
  ck_from ck = cursor + 1 /\ ck_seqs ck <> [] /\ (forall s, s ∈ ck_seqs ck -> cursor < s /\ s <= nd_base n) /\
  forall s e, wal_entry (nd_wal n) s = Some e -> cursor < s -> s <= max_seq cursor (ck_seqs ck) -> (s, e) ∈ ents.

Definition pc_ok (n : Node) : Prop :=
  match nd_pc n with
  | PcIdle => True
  | PcLoop cursor snapshot => cursor = fs_last_flushed (nd_st n) /\ snapshot <= wal_seq (nd_wal n)
  | PcWriting cursor snapshot ck ents =>
    cursor = fs_last_flushed (nd_st n) /\ snapshot <= wal_seq (nd_wal n) /\ chunk_held n cursor ck ents
  | PcWritten cursor snapshot ck ents failed =>
    cursor = fs_last_flushed (nd_st n) /\ snapshot <= wal_seq (nd_wal n) /\ chunk_held n cursor ck ents /\
    (failed = false -> forall x, x ∈ ents -> x ∈ nd_done n)
  end.

Definition log_ok (n : Node) : Prop :=
  wal_wf (set_seq (nd_base n) (nd_wal n)) /\ nd_base n <= wal_seq (nd_wal n) /\ wal_seq (nd_wal n) < u64_max /\
  cache_ok (nd_base n) (wal_arrow_cache (nd_wal n)) /\ meta_ok (nd_wal n) /\ pending_ok n.

(** Every entry at or below [last_flushed] was written to the sink, and every
    acknowledged entry is in the log, written, or of a dropped database. *)
Definition history_ok (n : Node) : Prop :=
  fs_last_flushed (nd_st n) <= nd_base n /\
  (forall s e, wal_entry (nd_wal n) s = Some e -> s <= fs_last_flushed (nd_st n) -> (s, e) ∈ nd_done n) /\
  forall s e, (s, e) ∈ nd_acked n -> s <= u64_max /\
    (wal_entry (nd_wal n) s = Some e \/ (s, e) ∈ nd_done n \/ we_database e ∈ nd_purged n).

Definition node_inv (n : Node) : Prop := log_ok n /\ history_ok n /\ pc_ok n.

Lemma log_ok_wf n : log_ok n -> wal_wf (nd_wal n).
Proof.
  intros (Hwf & Hle & Hmax & _). apply (wf_set_seq _ (wal_seq (nd_wal n))) in Hwf; [|done|done].
  by destruct (nd_wal n).
Qed.

(** A step that keeps the entries, the settled sequence and the flush's
    counter keeps the history and the chunk. *)
Lemma history_frame n n' :
  history_ok n -> nd_acked n' = nd_acked n -> (forall x, x ∈ nd_done n -> x ∈ nd_done n') ->
  nd_purged n' = nd_purged n ->
  fs_last_flushed (nd_st n') = fs_last_flushed (nd_st n) -> nd_base n <= nd_base n' ->
  (forall s, wal_entry (nd_wal n') s = wal_entry (nd_wal n) s) -> history_ok n'.
Proof.
  intros (H1 & H2 & H3) Ha Hd Hp Hf Hb He. split_and!.
  - rewrite Hf. lia.
  - intros s e. rewrite He, Hf. intros Hse Hle. by apply Hd, H2.
  - intros s e. rewrite Ha, He, Hp. intros [Hs [?|[?|?]]]%H3; (split; [done|]);
      [by left|right; left; by apply Hd|by right; right].
Qed.

Lemma chunk_frame n n' cursor ck ents :
  chunk_held n cursor ck ents -> nd_base n <= nd_base n' ->
  (forall s e, wal_entry (nd_wal n') s = Some e -> s <= nd_base n -> wal_entry (nd_wal n) s = Some e) ->
  chunk_held n' cursor ck ents.
Proof.
  intros (H1 & H2 & H3 & H4) Hb He. split_and!; try done.
  - intros s Hs. destruct (H3 s Hs). lia.
  - intros s e Hse Hc Hm. apply H4; [|done..]. apply He; [done|].
    destruct (ck_seqs ck) as [|x l]; [done|]. destruct (max_seq_spec cursor x l) as [Hin _].
    destruct (H3 _ Hin). lia.
Qed.

Lemma pc_frame n n' :
  pc_ok n -> nd_pc n' = nd_pc n -> (forall x, x ∈ nd_done n -> x ∈ nd_done n') ->
  fs_last_flushed (nd_st n') = fs_last_flushed (nd_st n) ->
  nd_base n <= nd_base n' -> wal_seq (nd_wal n) <= wal_seq (nd_wal n') ->
  (forall s e, wal_entry (nd_wal n') s = Some e -> s <= nd_base n -> wal_entry (nd_wal n) s = Some e) -> pc_ok n'.
Proof.
  unfold pc_ok. intros Hpc -> Hd Hf Hb Hs He. destruct (nd_pc n) as [|c sn|c sn ck ents|c sn ck ents failed]; [done|..].
  - destruct Hpc as [-> ?]. split; [done|lia].
  - destruct Hpc as (-> & ? & ?). split_and!; [done|lia|by eapply chunk_frame].
  - destruct Hpc as (-> & ? & ? & ?). split_and!; [done|lia|by eapply chunk_frame|]. naive_solver.
Qed.

(** *** Appending *)

Lemma inv_alloc n bundles pre w first :
  nd_pending n = None -> bundles <> [] -> bundles_fit (nd_wal n) bundles pre ->
  wal_seq (nd_wal n) + N.of_nat (length bundles) < u64_max ->
  take_seqs (nd_wal n) (N.of_nat (length bundles)) = (w, first) -> node_inv n ->
  node_inv (with_pending (Some (first, bundles, pre)) (with_wal w n)).
Proof.
  intros Hp Hne Hfit Hmax Ht (Hlog & Hh & Hpc). unfold take_seqs in Ht.
  assert (Hw : forall k, k <= N.of_nat (length bundles) -> wrapping_add (wal_seq (nd_wal n)) k = wal_seq (nd_wal n) + k).
  { intros k Hk. apply wrapping_add_small. lia. }
  assert (0 < length bundles)%nat by (destruct bundles; [done|cbn; lia]).
  rewrite !Hw in Ht by lia. injection Ht as <- <-.
  assert (Hb : nd_base n = wal_seq (nd_wal n)) by (unfold nd_base; by rewrite Hp).
  set (n' := with_pending _ _).
  assert (Hb' : nd_base n' = nd_base n) by (rewrite Hb; unfold nd_base; cbn; lia).
  destruct Hlog as (Hwf & Hle & Hs & Hc & Hm & _). split_and!.
  - unfold log_ok. rewrite Hb'. split_and!; [exact Hwf|cbn; lia|cbn; lia|exact Hc|exact Hm|].
    cbn. split_and!; [lia|done|exact Hfit|lia].
  - eapply history_frame; try done. by rewrite Hb'.
  - eapply pc_frame; try done; [by rewrite Hb'|cbn; lia].
Qed.

(** The write of a settled batch is the write of a whole batch by a log that
    has not yet assigned its sequences. *)
Lemma commit_as_batch n first bundles pre :
  log_ok n -> nd_pending n = Some (first, bundles, pre) ->
  write_rows (nd_wal n) first bundles pre = write_bundle_batch (set_seq (nd_base n) (nd_wal n)) bundles pre /\
  nd_base n + N.of_nat (length bundles) = wal_seq (nd_wal n) /\ bundles <> [] /\
  bundles_fit (set_seq (nd_base n) (nd_wal n)) bundles pre.
Proof.
  intros (_ & _ & Hmax & _ & _ & Hpend) Hp. unfold pending_ok in Hpend. rewrite Hp in Hpend.
  destruct Hpend as (Hf & Hne & Hfit & Hseq). unfold nd_base. rewrite Hp. split_and!; [|lia|done|exact Hfit].
  destruct bundles as [|b bs]; [done|].
  change (write_bundle_batch (set_seq (first - 1) (nd_wal n)) (b :: bs) pre)
    with (write_rows (set_seq (wrapping_add (first - 1) (N.of_nat (length (b :: bs)))) (set_seq (first - 1) (nd_wal n)))
            (wrapping_add (first - 1) 1) (b :: bs) pre).
  assert (Hw : forall k, first - 1 + k < u64_max -> wrapping_add (first - 1) k = first - 1 + k).
  { intros k Hk. apply wrapping_add_small. lia. }
  rewrite !Hw by (rewrite ?length_cons in *; lia). rewrite <- Hseq.
  replace (first - 1 + 1) with first by lia. by destruct (nd_wal n).
Qed.

Lemma zip_acked (seqs : list N) (es : list WalEntry) first s e :
  seqs = seqN first (length es) -> (s, e) ∈ zip seqs es ->
  exists i, es !! i = Some e /\ s = first + N.of_nat i.
Proof.
  intros -> (i & Hi)%list_elem_of_lookup. apply lookup_zip_Some in Hi as [Hs He].
  exists i. split; [done|]. rewrite seqN_lookup in Hs by (by eapply lookup_lt_Some). by simplify_eq.
Qed.

Lemma inv_commit n first bundles pre w seqs :
  nd_pending n = Some (first, bundles, pre) -> write_rows (nd_wal n) first bundles pre = (w, Ok seqs) ->
  node_inv n ->
  node_inv (with_history (zip seqs (wb_entry <$> bundles)) [] (with_pending None (with_wal w n))).
Proof.
  intros Hp Ew (Hlog & Hh & Hpc). destruct (commit_as_batch _ _ _ _ Hlog Hp) as (Eb & Hlen & Hne & Hfit).
  rewrite Eb in Ew. pose proof Hlog as (Hwf & Hle & Hmax & Hc & Hm & _).
  assert (Hlt : wal_seq (set_seq (nd_base n) (nd_wal n)) + N.of_nat (length bundles) < u64_max) by (cbn; lia).
  destruct (append_ok _ _ _ _ _ Ew Hne Hlt Hwf Hfit) as (Hwf' & Hseqs & Hseq' & Hnew & Hold & Hfmt & Hmeta).
  assert (Hkeys := fun s => append_cache_keys _ _ _ _ _ s Ew Hne Hlt).
  cbn [wal_seq set_seq] in Hseqs, Hseq', Hnew, Hold, Hkeys.
  set (n' := with_history _ _ _). assert (Hb' : nd_base n' = wal_seq w) by done.
  assert (Hent : forall s, s <= nd_base n -> wal_entry w s = wal_entry (nd_wal n) s).
  { intros s Hs. unfold wal_entry. rewrite (Hold s Hs), Hfmt. done. }
  split_and!.
  - unfold log_ok. rewrite Hb'. change (nd_wal n') with w. split; [by destruct w|]. split_and!; try done.
    + lia.
    + intros s [Hs|Hs]%Hkeys; [apply Hc in Hs|]; lia.
    + intros v. rewrite Hmeta. apply Hm.
  - destruct Hh as (H1 & H2 & H3). split_and!.
    + rewrite Hb'. cbn. lia.
    + intros s e He Hs. change (nd_wal n') with w in He. cbn in Hs |- *. rewrite app_nil_r.
      apply H2; [|done]. rewrite <- Hent by lia. done.
    + intros s e [Ha|Ha]%elem_of_app; change (nd_wal n') with w; cbn [nd_done nd_purged n' with_history].
      * rewrite app_nil_r. destruct (H3 s e Ha) as [Hs [He|?]]; (split; [done|]); [left|by right].
        rewrite Hent; [done|]. by eapply row_top.
      * assert (seqs = seqN (nd_base n + 1) (length (wb_entry <$> bundles))) as Hsq by (by rewrite length_fmap).
        destruct (zip_acked _ _ _ _ _ Hsq Ha) as (i & Hi & ->).
        rewrite list_lookup_fmap in Hi. destruct (bundles !! i) as [b|] eqn:Ebi; [|done]. cbn in Hi. simplify_eq.
        apply lookup_lt_Some in Ebi as Hi'. split; [lia|]. left. by apply Hnew.
  - eapply pc_frame; try done; [|rewrite Hb'; lia|change (nd_wal n') with w; lia|].
    + intros x Hx. cbn. by rewrite app_nil_r.
    + intros s e He Hs. change (nd_wal n') with w in He. by rewrite <- Hent.
Qed.

Lemma write_rows_err (w w' : RocksDbWal DB RB) first bundles pre e :
  write_rows w first bundles pre = (w', Err e) -> w' = w.
Proof.
  unfold write_rows. destruct (encode_bundles _ _ _ _) as [rows|]; [|by intros [= <- _]].
  destruct (cf_write _ _) as [d|]; [done|by intros [= <- _]].
Qed.

Lemma inv_commit_failed n first bundles pre w e :
  nd_pending n = Some (first, bundles, pre) -> write_rows (nd_wal n) first bundles pre = (w, Err e) ->
  node_inv n -> node_inv (with_pending None (with_wal w n)).
Proof.
  intros Hp Ew%write_rows_err (Hlog & Hh & Hpc). subst w.
  pose proof (log_ok_wf _ Hlog) as Hwf'. destruct Hlog as (_ & Hle & Hmax & Hc & Hm & _).
  set (n' := with_pending None _). assert (Hb' : nd_base n' = wal_seq (nd_wal n)) by done.
  split_and!.
  - unfold log_ok. rewrite Hb'. change (nd_wal n') with (nd_wal n). split; [by destruct (nd_wal n)|].
    split_and!; try done. intros s Hs%Hc. lia.
  - eapply history_frame; try done.
  - eapply pc_frame; try done.
Qed.

(** *** Flushing *)

Lemma inv_cache n st pc :
  node_inv n -> cache_read_step (nd_base n) (nd_wal n) (fs_wal st) -> same_but_wal (nd_st n) st ->
  pc_ok (with_flush st pc n) -> node_inv (with_flush st pc n).
Proof.
  intros (Hlog & Hh & _) (c & Hw & Hc') (Hf & _ & _) Hpc. set (n' := with_flush st pc n) in *.
  assert (Hw' : nd_wal n' = set_cache c (nd_wal n)) by done.
  assert (Hb' : nd_base n' = nd_base n) by (unfold nd_base; by rewrite Hw').
  destruct Hlog as (Hwf & Hle & Hmax & Hc & Hm & Hpend). split_and!; [|split_and!|done].
  - unfold log_ok. rewrite Hb', Hw'. split; [exact Hwf|]. split_and!; try done; [by apply Hc'|].
    unfold pending_ok in *. rewrite Hw'. exact Hpend.
  - cbn. rewrite Hf, Hb'. apply Hh.
  - intros s e. rewrite Hw'. cbn. rewrite Hf. apply Hh.
  - intros s e. rewrite Hw'. apply Hh.
Qed.

Lemma entries_at_spec (w : RocksDbWal DB RB) seqs s e :
  s ∈ seqs -> wal_entry w s = Some e -> (s, e) ∈ entries_at w seqs.
Proof. intros Hs He. apply list_elem_of_omap. exists s. split; [done|]. by rewrite He. Qed.

Lemma inv_take n cfg cursor snapshot st r :
  nd_pc n = PcLoop cursor snapshot -> cursor < snapshot ->
  take_chunk cfg cursor snapshot (nd_st n) = (st, r) -> node_inv n ->
  node_inv (with_flush st PcIdle n) /\
  forall ck, r = Ok (Some ck) ->
    node_inv (with_flush st (PcWriting cursor snapshot ck (entries_at (nd_wal n) (ck_seqs ck))) n).
Proof.
  intros Hpc Hlt Et Hinv. pose proof Hinv as (Hlog & Hh & Hpcok). unfold pc_ok in Hpcok. rewrite Hpc in Hpcok.
  destruct Hpcok as [-> Hsn]. pose proof (log_ok_wf _ Hlog) as Hwf'.
  pose proof Hlog as (Hwf & Hle & Hmax & Hc & _).
  destruct (take_chunk_spec _ _ _ _ _ _ _ Et Hwf Hwf' Hc) as (Hcs & Hsame & Htk); [lia|done|].
  split; [by apply inv_cache|]. intros ck ->. apply inv_cache; [done..|].
  pose proof Hsame as (Hf & _ & _). destruct Hcs as (c & Hw & _). destruct Htk as (H1 & H2 & H3 & H4).
  set (n' := with_flush _ _ _).
  assert (Hw' : nd_wal n' = set_cache c (nd_wal n)) by done.
  assert (Hb' : nd_base n' = nd_base n) by (unfold nd_base; by rewrite Hw').
  unfold pc_ok. cbn [nd_pc n' with_flush]. rewrite Hw'. split; [by cbn; rewrite Hf|]. split; [exact Hsn|].
  unfold chunk_held. rewrite Hb', Hw'. split_and!; try done.
  - intros s Hs. by destruct (H3 s Hs) as (? & _ & ?).
  - intros s e He Hc1 Hm. apply entries_at_spec; [|done]. by eapply H4.
Qed.

Lemma inv_write n cursor snapshot ck ents sched st failed :
  nd_pc n = PcWriting cursor snapshot ck ents -> write_chunk sched ck (nd_st n) = (st, failed) -> node_inv n ->
  node_inv (with_history [] (if failed then [] else ents) (with_flush st (PcWritten cursor snapshot ck ents failed) n)).
Proof.
  intros Hpc Ew (Hlog & Hh & Hpcok). unfold write_chunk in Ew.
  destruct (run_tasks _ _) as [sk f]. injection Ew as <- <-.
  set (n' := with_history _ _ _). assert (Hb' : nd_base n' = nd_base n) by done.
  assert (Hd : forall x, x ∈ nd_done n -> x ∈ nd_done n') by (intros x Hx; cbn; apply elem_of_app; by left).
  split_and!.
  - exact Hlog.
  - eapply history_frame; try done. cbn. apply app_nil_r.
  - unfold pc_ok in *. rewrite Hpc in Hpcok. destruct Hpcok as (H1 & H2 & H3). cbn [nd_pc n' with_history with_flush].
    split_and!; try done. intros -> x Hx. cbn. apply elem_of_app. by right.
Qed.

(** The log below its last sequence after a truncation. *)
Lemma truncate_lower (w w' : RocksDbWal DB RB) top sequence r :
  truncate_before w sequence = (w', r) -> wal_wf w -> wal_wf (set_seq top w) -> sequence <= top + 1 ->
  sequence <= wal_seq w + 1 -> wal_wf (set_seq top w').
Proof.
  intros E Hwf Htop Hle Hle'. destruct (truncate_ok _ _ _ _ E Hwf Hle') as (Hwf' & (_ & _ & _ & _ & _ & Hz) & _ & Hsub & _).
  destruct (truncate_step _ _ _ _ E) as [_ Hcase].
  destruct Hwf' as (Hs' & Hrows' & Ht0 & _ & Hsort' & Hsz').
  destruct Htop as (Hst & Hrows & _ & Ht1 & Hsort & Hsz). cbn in Hst, Hrows, Ht1, Hsort, Hsz.
  split; [exact Hst|]. split; [|split; [exact Ht0|split; [|split; [exact Hsort'|]]]]; cbn.
  - intros k v Hk. destruct (Hrows' _ _ Hk) as (s & -> & H1 & H2 & H3). exists s. split_and!; try done.
    assert (wal_row w s = Some v) as Hr by (apply Hsub; [lia|exact Hk]).
    destruct (Hrows _ _ Hr) as (s2 & E2 & _ & H4 & _). apply u64_to_be_inj in E2; [by subst|lia|lia].
  - destruct Hcase as [(_ & -> & _)|(_ & -> & _)]; lia.
  - rewrite Forall_forall in Hsz, Hsz' |- *. intros s Hin. split; [by apply Hsz'|].
    rewrite Hz in Hin. apply list_elem_of_fmap in Hin as (x & -> & Hx).
    destruct (drop_sizes_spec sequence _ Hsort) as [_ Hd]. apply Hd in Hx as [Hx _].
    apply Hsz. by apply list_elem_of_fmap_2.
Qed.

(** Everything up to the new mark was written. *)
Lemma flushed_done n cursor snapshot ck ents failed :
  node_inv n -> nd_pc n = PcWritten cursor snapshot ck ents failed ->
  let f := if failed then sat_sub (ck_from ck) 1 else max_seq cursor (ck_seqs ck) in
  cursor <= f /\ f <= nd_base n /\
  forall s e, wal_entry (nd_wal n) s = Some e -> s <= f -> (s, e) ∈ nd_done n.
Proof.
  intros (_ & (H1 & H2 & _) & Hpc) Epc. unfold pc_ok in Hpc. rewrite Epc in Hpc.
  destruct Hpc as (-> & _ & (Hf & Hne & Hin & Hents) & Hdone). cbv zeta. destruct failed.
  { rewrite Hf. unfold sat_sub. replace (fs_last_flushed (nd_st n) + 1 - 1) with (fs_last_flushed (nd_st n)) by lia.
    split_and!; [lia|lia|]. apply H2. }
  destruct (ck_seqs ck) as [|x l] eqn:El; [done|].
  destruct (max_seq_spec (fs_last_flushed (nd_st n)) x l) as [Hm _]. destruct (Hin _ Hm). split_and!; [lia|done|].
  intros s e He Hs. destruct (N.le_gt_cases s (fs_last_flushed (nd_st n))) as [Hle|Hgt]; [by apply H2|].
  by apply Hdone, Hents.
Qed.

(** A truncation of written entries keeps the log and the history. *)
Lemma inv_truncate n w r f sequence st pc :
  node_inv n -> truncate_before (nd_wal n) sequence = (w, r) -> sequence <= f + 1 -> f <= nd_base n ->
  (forall s e, wal_entry (nd_wal n) s = Some e -> s <= f -> (s, e) ∈ nd_done n) ->
  (exists m, fs_wal st = set_flushed_through m w) \/ fs_wal st = w ->
  fs_last_flushed st <= f -> pc_ok (with_flush st pc n) -> node_inv (with_flush st pc n).
Proof.
  intros (Hlog & Hh & _) Et Hsq Hf Hdone Hst Hlf Hpc. set (n' := with_flush st pc n) in *.
  pose proof (log_ok_wf _ Hlog) as Hwf. destruct Hlog as (Htop & Hle & Hmax & Hc & Hm & Hpend).
  destruct (truncate_ok _ _ _ _ Et Hwf) as (_ & (Hs & Hfmt & _ & _ & Hcache & _) & Hkeep & Hsub & _ & Hmeta); [lia|].
  pose proof (truncate_lower _ _ _ _ _ Et Hwf Htop ltac:(lia) ltac:(lia)) as Hlow.
  assert (Hw : wal_seq (nd_wal n') = wal_seq (nd_wal n) /\ wal_format (nd_wal n') = wal_format (nd_wal n) /\
    wal_arrow_cache (nd_wal n') = wal_arrow_cache w /\ wal_db (nd_wal n') = wal_db w /\
    wal_wf (set_seq (nd_base n) (nd_wal n'))).
  { change (nd_wal n') with (fs_wal st). destruct Hst as [[m ->]| ->]; (split_and!; try done); exact Hlow. }
  destruct Hw as (Hs' & Hf' & Hc' & Hd' & Hwf').
  assert (Hb' : nd_base n' = nd_base n) by (unfold nd_base; by rewrite Hs').
  assert (Hrow : forall s, wal_row (nd_wal n') s = wal_row w s) by (intros s; unfold wal_row; by rewrite Hd').
  assert (Hback : forall s e, s <= u64_max -> wal_entry (nd_wal n') s = Some e -> wal_entry (nd_wal n) s = Some e).
  { intros s e Hle' He. unfold wal_entry in *. rewrite Hrow, Hf' in He. destruct (wal_row w s) as [v|] eqn:Ev; [|done].
    by rewrite (Hsub _ _ Hle' Ev). }
  split_and!; [|split_and!|done].
  - unfold log_ok. rewrite Hb'. split; [exact Hwf'|]. rewrite Hs'. split_and!; try done.
    + intros s. rewrite Hc', Hcache. unfold cache_truncate_before. intros [v [Hv _]%map_lookup_filter_Some]. by apply Hc.
    + intros v. rewrite Hd'. destruct Hmeta as [->|Hmeta]; [apply Hm|]. rewrite Hmeta. intros [= <-].
      by exists (wal_seq (nd_wal n)).
    + unfold pending_ok in *. cbn [nd_pending n' with_flush]. destruct (nd_pending n) as [[[? ?] ?]|]; [|done].
      rewrite Hs'. unfold bundles_fit in *. rewrite Hf'. exact Hpend.
  - rewrite Hb'. cbn. lia.
  - intros s e He Hle'. cbn in Hle'. apply Hdone; [|lia]. apply Hback; [lia|done].
  - intros s e Ha. destruct (proj2 (proj2 Hh) s e Ha) as [Hmx [He|Hr]]; (split; [done|]); [|by right].
    destruct (N.le_gt_cases sequence s) as [Hge|Hlt].
    + left. unfold wal_entry in *. rewrite Hrow, Hf', Hkeep by done. done.
    + right; left. apply Hdone; [done|lia].
Qed.

Lemma inv_finish n cfg now cursor snapshot ck ents failed st r :
  nd_pc n = PcWritten cursor snapshot ck ents failed -> finish_chunk cfg now ck cursor failed (nd_st n) = (st, r) ->
  node_inv n -> node_inv (with_flush st (match r with Ok c => PcLoop c snapshot | Err _ => PcIdle end) n).
Proof.
  intros Hpc Ef Hinv. destruct (flushed_done _ _ _ _ _ _ Hinv Hpc) as (Hcf & Hfb & Hdone).
  unfold finish_chunk in Ef.
  set (f := if failed then sat_sub (ck_from ck) 1 else max_seq cursor (ck_seqs ck)) in *. cbv zeta in Ef.
  set (safe := compute_safe_truncate_seq _ _ _ _ _ _) in Ef.
  pose proof Hinv as (Hlog & _ & Hpcok). pose proof (log_ok_wf _ Hlog) as Hwf.
  assert (safe <= f) as Hsafe by (by apply safe_truncate_le).
  destruct Hlog as (_ & Hle & Hmax & _). unfold pc_ok in Hpcok. rewrite Hpc in Hpcok. destruct Hpcok as (-> & Hsn & _).
  assert (wrapping_add safe 1 = safe + 1) as Hw
    by (apply wrapping_add_small; lia).
  rewrite Hw in Ef. change (fs_wal (nd_st n)) with (nd_wal n) in Ef.
  destruct (truncate_before (nd_wal n) (safe + 1)) as [w [[]|e]] eqn:Et; injection Ef as <- <-.
  - eapply inv_truncate; [done|exact Et| |exact Hfb|exact Hdone|left; by eexists| |]; [lia|done|].
    unfold pc_ok. cbn [nd_pc with_flush]. destruct failed; [done|]. cbn [fs_last_flushed nd_st with_flush].
    split; [done|]. destruct (truncate_step _ _ _ _ Et) as [(Hs & _) _].
    unfold nd_wal. cbn. rewrite Hs. exact Hsn.
  - eapply inv_truncate; [done|exact Et| |exact Hfb|exact Hdone|by right|exact Hcf|done]; lia.
Qed.

(** *** Drops and crashes *)

Lemma purge_set_seq (w w' : RocksDbWal DB RB) database r top :
  purge_database w database = (w', r) -> purge_database (set_seq top w) database = (set_seq top w', r).
Proof.
  unfold purge_database. cbn [set_seq set_cache wal_format wal_db wal_arrow_cache].
  destruct (purge_batch _ _ _) as [[|o b]|]; [by intros [= <- <-]| |by intros [= <- <-]].
  destruct (cf_write _ _); by intros [= <- <-].
Qed.

Lemma inv_purge n database w r :
  purge_database (nd_wal n) database = (w, r) -> node_inv n ->
  node_inv (mkNodeState (set_wal w (nd_st n)) (nd_pc n) (nd_pending n) (nd_acked n) (nd_done n)
              (database :: nd_purged n)).
Proof.
  intros Ep (Hlog & Hh & Hpc). set (n' := mkNodeState _ _ _ _ _ _).
  destruct Hlog as (Hwf & Hle & Hmax & Hc & Hm & Hpend).
  pose proof (purge_set_seq _ _ _ _ (nd_base n) Ep) as Ep'.
  destruct (purge_ok _ _ _ _ Ep' Hwf) as (Hwf' & _ & Hfmt & _ & _ & Hcache & Hmeta & Hent & _).
  assert (Hs : wal_seq w = wal_seq (nd_wal n)).
  { unfold purge_database in Ep. destruct (purge_batch _ _ _) as [[|o b]|]; [by injection Ep as <- <-| |by injection Ep as <- <-].
    destruct (cf_write _ _); by injection Ep as <- <-. }
  assert (Hb' : nd_base n' = nd_base n) by (unfold nd_base; change (nd_wal n') with w; by rewrite Hs).
  change (forall s, wal_entry w s = wal_entry (nd_wal n) s \/
     (wal_entry w s = None /\ we_database <$> wal_entry (nd_wal n) s = Some database)) in Hent.
  assert (Hback : forall s e, wal_entry w s = Some e -> wal_entry (nd_wal n) s = Some e).
  { intros s e He. destruct (Hent s) as [<-|[Hn _]]; [done|congruence]. }
  destruct Hh as (H1 & H2 & H3). split; [|split; [split; [|split]|]].
  - unfold log_ok. rewrite Hb'. change (nd_wal n') with w. split; [exact Hwf'|]. rewrite Hs. split_and!; try done.
    + intros s. change (wal_arrow_cache (set_seq (nd_base n) w)) with (wal_arrow_cache w) in Hcache. rewrite Hcache.
      unfold cache_purge_database. intros [v [Hv _]%map_lookup_filter_Some]. by apply Hc.
    + intros v. cbn in Hmeta. rewrite Hmeta. apply Hm.
    + unfold pending_ok in *. cbn [nd_pending n']. destruct (nd_pending n) as [[[? ?] ?]|]; [|done].
      change (nd_wal n') with w. rewrite Hs. unfold bundles_fit in *. cbn in Hfmt. rewrite Hfmt. exact Hpend.
  - by rewrite Hb'.
  - intros s e He Hle'. apply H2; [|done]. by apply Hback.
  - intros s e Ha. destruct (H3 s e Ha) as [Hs' [He|[Hd|Hd]]]; (split; [done|]).
    + destruct (Hent s) as [E|[_ E]]; [left; by rewrite <- He|]. right; right. rewrite He in E. cbn in E.
      injection E as <-. by left.
    + by right; left.
    + right; right. by right.
  - eapply pc_frame; try done; [by rewrite Hb'|by change (nd_wal n') with w; rewrite Hs|].
    intros s e He _. by apply Hback.
Qed.

Lemma inv_restart n en repl d w :
  wal_open (wal_db (nd_wal n)) (wal_format (nd_wal n)) en = (d, Ok w) -> node_inv n ->
  node_inv (with_pending None (with_flush (mkFlush w 0 0 repl (fs_sink (nd_st n))) PcIdle n)).
Proof.
  intros Eo (Hlog & Hh & _). set (n' := with_pending _ _).
  destruct Hlog as (Hwf & Hle & Hmax & Hc & Hm & _).
  destruct (wal_open_ok (set_seq (nd_base n) (nd_wal n)) en Hwf Hm) as (w' & Eo' & Hwf' & Hm' & Hd & Hf & _ & Hca & _).
  cbn in Eo', Hd, Hf. rewrite Eo in Eo'. injection Eo' as _ <-.
  assert (Hb' : nd_base n' = wal_seq w) by done.
  assert (Hent : forall s, wal_entry w s = wal_entry (nd_wal n) s) by (intros s; unfold wal_entry, wal_row; by rewrite Hd, Hf).
  split; [|split; [split; [|split]|done]].
  - unfold log_ok. rewrite Hb'. change (nd_wal n') with w. split; [by destruct w|]. split_and!; try done; [apply Hwf'|].
    intros s. rewrite Hca. by intros [? ?%lookup_empty_Some].
  - cbn. lia.
  - intros s e He Hs. cbn in Hs. change (nd_wal n') with w in He. unfold wal_entry in He.
    destruct (wal_row w s) as [v|] eqn:Ev; [|done]. destruct (wf_row w s v Hwf' ltac:(lia) Ev) as (Ht & _).
    destruct Hwf' as (_ & _ & Ht0 & _). lia.
  - intros s e Ha. change (nd_wal n') with w. rewrite Hent. by apply Hh.
Qed.

Lemma node_step_inv n n' : node_step n n' -> node_inv n -> node_inv n'.
Proof.
  destruct 1 as [n bundles pre w first ? ? ? ? Ht|n first bundles pre w seqs ? Ew|n first bundles pre w e ? Ew|n Hpc
    |n cfg cursor snapshot st ck Hpc ? Et|n cfg cursor snapshot st r Hpc ? Et ?|n cursor snapshot Hpc ?
    |n cursor snapshot ck ents sched st failed Hpc ? Ew|n cfg now cursor snapshot ck ents failed st r Hpc Ef
    |n database w r Ep|n repl|n en repl d w Eo]; intros Hinv.
  - by eapply inv_alloc.
  - by eapply inv_commit.
  - by eapply inv_commit_failed.
  - destruct Hinv as (Hlog & Hh & _). split_and!; [exact Hlog|exact Hh|]. by split.
  - by eapply inv_take.
  - by eapply inv_take.
  - destruct Hinv as (Hlog & Hh & _). by split_and!; [exact Hlog|exact Hh|].
  - by eapply inv_write.
  - by eapply inv_finish.
  - by eapply inv_purge.
  - destruct Hinv as (Hlog & Hh & Hpc). by split_and!; [exact Hlog|exact Hh|exact Hpc].
  - by eapply inv_restart.
Qed.

(** A node with an empty log. *)
Definition fresh_flush_node (n : Node) : Prop :=
  wal_wf (nd_wal n) /\ meta_ok (nd_wal n) /\ wal_arrow_cache (nd_wal n) = ∅ /\
  fs_last_flushed (nd_st n) = 0 /\ nd_pc n = PcIdle /\ nd_pending n = None /\
  nd_acked n = [] /\ nd_done n = [] /\ nd_purged n = [].

Lemma fresh_inv n : fresh_flush_node n -> node_inv n.
Proof.
  intros (Hwf & Hm & Hc & Hf & Hpc & Hp & Ha & Hd & _).
  assert (Hb : nd_base n = wal_seq (nd_wal n)) by (unfold nd_base; by rewrite Hp).
  split; [|split; [split; [|split]|]].
  - unfold log_ok. rewrite Hb. split; [by destruct (nd_wal n)|]. split_and!; try done; [apply Hwf| |].
    + intros s. rewrite Hc. by intros [? ?%lookup_empty_Some].
    + unfold pending_ok. by rewrite Hp.
  - rewrite Hf. lia.
  - intros s e He Hs. rewrite Hf in Hs. unfold wal_entry in He.
    destruct (wal_row (nd_wal n) s) as [v|] eqn:Ev; [|done].
    destruct (wf_row _ s v Hwf ltac:(lia) Ev) as (Ht & _). destruct Hwf as (_ & _ & Ht0 & _). lia.
  - intros s e. rewrite Ha. by intros ?%elem_of_nil.
  - unfold pc_ok. by rewrite Hpc.
Qed.

End Machine.

(** ** Without the group-commit writer *)

#[local] Instance wit_machine_hasher : DefaultHasher := fun _ => 0.

Definition late_entry : WalEntry := mkWalEntry "db" "autogen" [mkPoint "late" ∅ ∅ 7%Z] 0.

Definition bare_wal : RocksDbWal (MemDb WalCf) MemBatch := mkWal empty_db 0 0 1 0 [] ∅ WfBincode false.

(** Two appends that run at once: the first takes sequence 1, the second takes
    and writes sequence 2, a drain follows, then the first writes its row. *)
Definition racing_appends
    : FlushState (MemDb WalCf) (MemDb ReplCf) MemBatch (list (FlushTask MemBatch)) * result WalError (list N) :=
  let '(w1, first1) := take_seqs bare_wal 1 in
  let '(w2, first2) := take_seqs w1 1 in
  let '(w3, _) := write_rows w2 first2 [mkBundle wit_entry None] [None] in
  let '(st, _) := drain 1 wit_cfg (fun _ => 0%Z) id (mkFlush w3 0 0 None []) in
  let '(w4, r) := write_rows (fs_wal st) first1 [mkBundle late_entry None] [None] in
  (set_wal w4 st, r).

(** With [wal_batch_size = 0] appends run at once, each taking its
    sequence before it writes its row. A flush in between can pass a sequence
    whose row is not yet there: the late append is acknowledged and its row is
    in the log, but later drains succeed without ever handing it to the
    sink. *)
Theorem racing_append_not_flushed :
  let '(st, r) := racing_appends in
  r = Ok [1] /\ wal_entry (fs_wal st) 1 = Some late_entry /\
  snd (drain 1 wit_cfg (fun _ => 0%Z) id st) = Ok tt /\
  fs_sink (fst (drain 1 wit_cfg (fun _ => 0%Z) id st))
  = [NativeTask "db" "autogen" "cpu" [1] 1 [mkPoint "cpu" ∅ ∅ 7%Z]].
Proof. vm_compute. split_and!; reflexivity. Qed.

(** ** Witness *)

Definition wit_node : Node (DB := MemDb WalCf) (RDB := MemDb ReplCf) (RB := MemBatch) (SK := list (FlushTask MemBatch)) :=
  mkNodeState (mkFlush wit_wal 0 0 None []) PcIdle None [] [] [].

Definition wit_node1 := with_pending (Some (1, wit_bundles, []))
  (with_wal (fst (take_seqs wit_wal 2)) wit_node).

Definition wit_node2 := with_history (zip [1; 2] (wb_entry <$> wit_bundles)) []
  (with_pending None (with_wal (fst (write_rows (nd_wal wit_node1) 1 wit_bundles [])) wit_node1)).

