(* ===== verification/HintedHandoff.v ===== *)
(** * Hinted handoff

    Writes that failed to replicate wait on disk, per peer, and are replayed
    when the peer is back: the record format of
    [domain/cluster/replication_wire.rs], the queue of
    [adapters/cluster/hinted_handoff.rs] with its per-peer counts and cap, and
    the replay loop [drain_hints_for_peer] of
    [adapters/cluster/peer_client.rs]. The queue has a column family of its
    own in the database of the replication log. *)

From Stdlib Require Import Ascii String.
From stdpp Require Import prelude list sorting gmap fin_maps strings.
From S2P Require Import Prelude Bytes CfStore Wire Membership ReplicationLog.
From stdpp Require Import options.

#[local] Open Scope N_scope.

(** ** The record *)

Record HintPayload := mkHint {
  hp_database : string;
  hp_retention_policy : string;
  hp_precision : option string;
  hp_line_body : bytes
}.

Inductive HintError :=
| HeTooLong
| HeMagic
| HeTruncated
| HeUtf8
| HeFlag
| HePanic
| HeDb (msg : string)
| HeFull (count limit : N).

Definition HH_MAGIC : bytes := str_bytes "CFh1".

Definition u16_max : N := 65535.

(** The body's length always fits a [u64]. *)
Definition encode_hint_value (p : HintPayload) : result HintError bytes :=
  let db := str_bytes (hp_database p) in
  let rp := str_bytes (hp_retention_policy p) in
  let prec := match hp_precision p with Some s => str_bytes s | None => [] end in
  let len (b : bytes) := N.of_nat (length b) in
  if (u32_max <? len db) || (u32_max <? len rp) then Err HeTooLong
  else if u16_max <? len prec then Err HeTooLong
  else
    Ok (HH_MAGIC ++ le_bytes 4 (len db) ++ db ++ le_bytes 4 (len rp) ++ rp
        ++ (match prec with [] => [0] | _ => 1 :: le_bytes 2 (len prec) ++ prec end)
        ++ le_bytes 8 (len (hp_line_body p)) ++ hp_line_body p).

(** A string of [k] bytes. *)
Definition read_utf8 (k : N) : Parser HintError string :=
  b ← read_exact HeTruncated (N.to_nat k);
  if utf8_valid b then mret (bytes_str b) else parse_fail HeUtf8.

Definition read_precision : Parser HintError (option string) :=
  flag ← read_exact HeTruncated 1;
  match flag with
  | [0] => mret None
  | [1] => plen ← read_le HeTruncated 2; p ← read_utf8 plen; mret (Some p)
  | _ => parse_fail HeFlag
  end.

(** The body: [i + blen] is an addition of [usize]s that overflows for a
    length near [2^64]; the slice that follows panics, as the addition does
    with overflow checks. *)
Definition read_body (total : nat) : Parser HintError bytes :=
  blen ← read_le HeTruncated 8;
  rest ← parse_remaining;
  if two64 <=? N.of_nat (total - rest) + blen then parse_fail HePanic
  else read_exact HeTruncated (N.to_nat (N.min blen (N.of_nat (S rest)))).

Definition read_hint (total : nat) : Parser HintError HintPayload :=
  dlen ← read_le HeTruncated 4;
  database ← read_utf8 dlen;
  rlen ← read_le HeTruncated 4;
  retention_policy ← read_utf8 rlen;
  precision ← read_precision;
  line_body ← read_body total;
  mret (mkHint database retention_policy precision line_body).

(** Bytes after the body are ignored. *)
Definition decode_hint_value (data : bytes) : result HintError HintPayload :=
  if (length data <? 4)%nat || negb (bool_decide (take 4 data = HH_MAGIC)) then Err HeMagic
  else '(hint, _) ← read_hint (length data) (drop 4 data); mret hint.

(** ** The queue *)

Definition hh_prefix : bytes := str_bytes "hh:".

Definition colon : N := 58.

Definition hh_peer_prefix (peer_id : N) : bytes := hh_prefix ++ hex16 peer_id ++ [colon].

Definition hh_key (peer_id seq : N) : bytes := hh_peer_prefix peer_id ++ hex16 seq.

(** [split(':')]. *)
Fixpoint split_on (c : N) (cur : bytes) (b : bytes) : list bytes :=
  match b with
  | [] => [rev cur]
  | x :: b' => if x =? c then rev cur :: split_on c [] b' else split_on c (x :: cur) b'
  end.

Definition peer_of_key (key : bytes) : option N :=
  if utf8_valid key then
    match split_on colon [] key with
    | h :: p :: _ => if bool_decide (h = str_bytes "hh") then from_str_radix 16 p else None
    | _ => None
    end
  else None.

(** [k.rsplit(':').next()] as a sequence. *)
Definition seq_of_key (key : bytes) : option N :=
  if utf8_valid key then last (split_on colon [] key) ≫= from_str_radix 16 else None.

Record HintedHandoff (DB : Type) := mkHH {
  hh_db : DB;
  hh_seq : N;
  hh_max : N;
  hh_counts : gmap N N
}.
Arguments mkHH {DB} _ _ _ _.
Arguments hh_db {DB} _.
Arguments hh_seq {DB} _.
Arguments hh_max {DB} _.
Arguments hh_counts {DB} _.

Section Queue.
Context {DB : Type} `{CDB : !CfDb ReplCf DB}.

(** The startup scan. *)
Definition scan_hint (acc : N * gmap N N) (kv : bytes * string) : N * gmap N N :=
  let counts := match peer_of_key kv.1 with
                | Some peer => <[peer := default 0 (acc.2 !! peer) + 1]> acc.2
                | None => acc.2
                end in
  (match seq_of_key kv.1 with Some s => N.max acc.1 s | None => acc.1 end, counts).

Definition hh_new (d : DB) (max_hints_per_peer : N) : HintedHandoff DB :=
  let '(max_seq, counts) := fold_left scan_hint (prefix_rows d HintData hh_prefix) (0, ∅) in
  mkHH d max_seq max_hints_per_peer counts.

Definition hh_set_counts (c : gmap N N) (h : HintedHandoff DB) : HintedHandoff DB :=
  mkHH (hh_db h) (hh_seq h) (hh_max h) c.

Definition hh_set_db (d : DB) (h : HintedHandoff DB) : HintedHandoff DB :=
  mkHH d (hh_seq h) (hh_max h) (hh_counts h).

Definition release (peer_id n : N) (h : HintedHandoff DB) : HintedHandoff DB :=
  if n =? 0 then h
  else match hh_counts h !! peer_id with
       | Some c => hh_set_counts (<[peer_id := sat_sub c n]> (hh_counts h)) h
       | None => h
       end.

(** The count is reserved before the put and released when it fails. *)
Definition enqueue_hint (h : HintedHandoff DB) (peer_id : N) (payload : HintPayload)
    : HintedHandoff DB * result HintError unit :=
  let count := default 0 (hh_counts h !! peer_id) in
  if (0 <? hh_max h) && (hh_max h <=? count)
  then (hh_set_counts (<[peer_id := count]> (hh_counts h)) h, Err (HeFull count (hh_max h)))
  else
    let seq := wrapping_add (hh_seq h) 1 in
    let h := mkHH (hh_db h) seq (hh_max h) (<[peer_id := count + 1]> (hh_counts h)) in
    match encode_hint_value payload with
    | Err e => (release peer_id 1 h, Err e)
    | Ok value =>
      match cf_write (hh_db h) [PutCf HintData (hh_key peer_id seq) (bytes_str value)] with
      | Err e => (release peer_id 1 h, Err (HeDb e))
      | Ok d => (hh_set_db d h, Ok tt)
      end
    end.

(** The scan of [drain]: the records read and the keys to delete. An item that
    cannot be read is skipped, a record that cannot be decoded is deleted; a
    record on which decoding panics ends the call. *)
Fixpoint drain_scan (prefix : bytes) (left : nat) (items : list (result string (bytes * string)))
    : result HintError (list HintPayload * list bytes) :=
  match left, items with
  | O, _ | _, [] => Ok ([], [])
  | S _, Err _ :: items' => drain_scan prefix left items'
  | S left', Ok (key, value) :: items' =>
    if negb (has_prefix prefix key) then Ok ([], [])
    else
      match decode_hint_value (str_bytes value) with
      | Ok rec => '(recs, keys) ← drain_scan prefix left' items'; mret (rec :: recs, key :: keys)
      | Err HePanic => Err HePanic
      | Err _ => '(recs, keys) ← drain_scan prefix left items'; mret (recs, key :: keys)
      end
  end.

(** One delete after the other; a failed one is not counted. *)
Fixpoint delete_keys (d : DB) (deleted : N) (keys : list bytes) : DB * N :=
  match keys with
  | [] => (d, deleted)
  | key :: keys' =>
    match cf_write d [DeleteCf HintData key] with
    | Ok d' => delete_keys d' (deleted + 1) keys'
    | Err _ => delete_keys d deleted keys'
    end
  end.

Definition hh_drain (h : HintedHandoff DB) (peer_id : N) (batch_size : nat)
    : HintedHandoff DB * result HintError (list HintPayload) :=
  let prefix := hh_peer_prefix peer_id in
  match drain_scan prefix batch_size (cf_scan (hh_db h) HintData prefix) with
  | Err e => (h, Err e)
  | Ok (results, keys) =>
    let '(d, deleted) := delete_keys (hh_db h) 0 keys in
    (release peer_id deleted (hh_set_db d h), Ok results)
  end.

Definition pending_count (h : HintedHandoff DB) (peer_id : N) : N := default 0 (hh_counts h !! peer_id).

Definition total_pending (h : HintedHandoff DB) : N := map_fold (fun _ c acc => c + acc) 0 (hh_counts h).

(** ** Replaying *)

(** Re-enqueue what was not delivered; errors are logged. *)
Definition requeue (h : HintedHandoff DB) (peer_id : N) (hints : list HintPayload) : HintedHandoff DB :=
  fold_left (fun h hint => fst (enqueue_hint h peer_id hint)) hints h.

(** The hints of a batch, in order, until the peer refuses one: the rest of the
    batch and whether all were delivered. *)
Fixpoint replay_batch {S} (send : S -> HintPayload -> S * bool) (st : S) (batch : list HintPayload)
    : S * list HintPayload :=
  match batch with
  | [] => (st, [])
  | hint :: batch' =>
    match send st hint with
    | (st', true) => replay_batch send st' batch'
    | (st', false) => (st', batch)
    end
  end.

(** [drain_hints_for_peer] for a known peer; every turn takes a batch off the
    queue, so the number of queued hints is fuel enough. *)
Fixpoint drain_hints_for_peer {S} (fuel : nat) (send : S -> HintPayload -> S * bool)
    (h : HintedHandoff DB) (st : S) (peer_id : N) : HintedHandoff DB * S :=
  match fuel with
  | O => (h, st)
  | S fuel' =>
    match hh_drain h peer_id 100 with
    | (h', Err _) | (h', Ok []) => (h', st)
    | (h', Ok batch) =>
      match replay_batch send st batch with
      | (st', []) => drain_hints_for_peer fuel' send h' st' peer_id
      | (st', rest) => (requeue h' peer_id rest, st')
      end
    end
  end.

End Queue.
