(* ===== verification/HintedHandoffTheorems.v ===== *)
(** * Properties of the hinted-handoff queue

    The record format round trips; the queue of a peer is a first-in
    first-out list whose length is the count kept in memory, also across
    restarts; a replay to a healthy peer delivers the whole queue in order. *)

From Stdlib Require Import Ascii String.
From stdpp Require Import prelude list sorting gmap fin_maps strings.
From S2P Require Import Prelude Bytes CfStore Wire Membership ReplicationLog HintedHandoff.
From stdpp Require Import options.

#[local] Open Scope N_scope.
#[local] Arguments apply_cf_op : simpl never.
#[local] Arguments decode_hint_value : simpl never.
#[local] Arguments hh_key : simpl never.
#[local] Arguments hh_peer_prefix : simpl never.

(** ** The record *)

(** An empty precision is written like a missing one. *)
Definition hint_norm (p : HintPayload) : HintPayload :=
  mkHint (hp_database p) (hp_retention_policy p)
    (match hp_precision p with Some EmptyString => None | o => o end) (hp_line_body p).

(** The strings of a payload are Rust strings, and the record fits memory. *)
Definition hint_ok (p : HintPayload) : Prop :=
  utf8 (hp_database p) /\ utf8 (hp_retention_policy p) /\
  (forall s, hp_precision p = Some s -> utf8 s) /\ Forall byte_ok (hp_line_body p) /\
  (forall b, encode_hint_value p = Ok b -> N.of_nat (length b) < two64).

Lemma reads_utf8 s k : utf8 s -> k = N.of_nat (length (str_bytes s)) -> reads (read_utf8 k) (str_bytes s) s.
Proof.
  intros Hs ->. unfold read_utf8. rewrite Nat2N.id. eapply reads_bind_last; [by apply reads_exact|].
  unfold utf8 in Hs. rewrite Hs. intros c. by rewrite str_bytes_str.
Qed.

Lemma reads_precision o :
  (forall s, o = Some s -> utf8 s) ->
  N.of_nat (length (match o with Some s => str_bytes s | None => [] end)) <= u16_max ->
  reads read_precision
    (match match o with Some s => str_bytes s | None => [] end with
     | [] => [0]
     | _ => 1 :: le_bytes 2 (N.of_nat (length (match o with Some s => str_bytes s | None => [] end)))
              ++ match o with Some s => str_bytes s | None => [] end
     end) (match o with Some EmptyString => None | o => o end).
Proof.
  intros Hu Hlen. unfold read_precision. destruct o as [s|].
  2:{ eapply (reads_bind_last _ _ [0]); [by apply reads_exact|apply reads_ret]. }
  destruct s as [|c s]; [eapply (reads_bind_last _ _ [0]); [by apply reads_exact|apply reads_ret]|].
  destruct (str_bytes (String c s)) as [|x l] eqn:E; [by rewrite str_bytes_cons in E|]. rewrite <- E in Hlen |- *.
  change (1 :: le_bytes 2 (N.of_nat (length (str_bytes (String c s)))) ++ str_bytes (String c s))
    with ([1] ++ (le_bytes 2 (N.of_nat (length (str_bytes (String c s)))) ++ str_bytes (String c s))).
  eapply reads_bind; [by apply reads_exact|]. cbn beta iota.
  eapply reads_bind; [apply reads_le; unfold u16_max in Hlen; lia|].
  eapply reads_bind_last; [apply reads_utf8; [by apply Hu|done]|apply reads_ret].
Qed.

(** The last field: nothing follows it. *)
Lemma read_body_end total body :
  N.of_nat total < two64 -> (length body <= total)%nat ->
  read_body total (le_bytes 8 (N.of_nat (length body)) ++ body) = Ok (body, []).
Proof.
  intros Ht Hle. unfold read_body, mbind, parser_bind.
  rewrite read_le_app by (unfold two64 in Ht; change (256 ^ N.of_nat 8) with 18446744073709551616; lia).
  unfold parse_remaining. destruct (N.leb_spec two64 (N.of_nat (total - length body) + N.of_nat (length body))); [lia|].
  rewrite N.min_l by lia. rewrite Nat2N.id.
  rewrite <- (app_nil_r body) at 2. by apply read_exact_app.
Qed.

Lemma hint_decodes p b :
  encode_hint_value p = Ok b -> hint_ok p -> decode_hint_value b = Ok (hint_norm p).
Proof.
  intros E (Hdb & Hrp & Hprec & _ & Hsize). specialize (Hsize b E). unfold encode_hint_value in E.
  destruct (_ || _) eqn:E1; [done|]. destruct (u16_max <? _) eqn:E2; [done|]. apply Ok_inj in E.
  apply orb_false_iff in E1 as [E1 E1']. apply N.ltb_ge in E1, E1', E2.
  set (db := str_bytes (hp_database p)) in *. set (rp := str_bytes (hp_retention_policy p)) in *.
  unfold decode_hint_value.
  assert (take 4 b = HH_MAGIC /\ drop 4 b = le_bytes 4 (N.of_nat (length db)) ++ db
    ++ le_bytes 4 (N.of_nat (length rp)) ++ rp
    ++ (match match hp_precision p with Some s => str_bytes s | None => [] end with
        | [] => [0]
        | _ => 1 :: le_bytes 2 (N.of_nat (length (match hp_precision p with Some s => str_bytes s | None => [] end)))
                 ++ match hp_precision p with Some s => str_bytes s | None => [] end
        end) ++ le_bytes 8 (N.of_nat (length (hp_line_body p))) ++ hp_line_body p) as [Ht Hd]
    by (rewrite <- E; done).
  assert (4 <= length b)%nat as H4 by (apply (f_equal length) in Ht; rewrite length_take in Ht; change (length HH_MAGIC) with 4%nat in Ht; lia).
  rewrite (proj2 (Nat.ltb_ge _ _) H4), Ht, bool_decide_true by done. cbn [orb negb]. rewrite Hd.
  unfold u32_max in *. unfold read_hint at 1. unfold mbind, result_bind, parser_bind.
  rewrite read_le_app by (change (256 ^ N.of_nat 4) with 4294967296; lia).
  rewrite (reads_utf8 (hp_database p) _ Hdb eq_refl).
  rewrite read_le_app by (change (256 ^ N.of_nat 4) with 4294967296; lia).
  rewrite (reads_utf8 (hp_retention_policy p) _ Hrp eq_refl).
  rewrite (reads_precision _ Hprec E2). rewrite read_body_end; [unfold hint_norm; by destruct (hp_precision p) as [[|c s]|]|done|].
  apply (f_equal length) in E. rewrite !length_app in E. lia.
Qed.

(** A hinted-handoff record decodes to the hint it was written from, for
    every hint whose encoding succeeds and fits memory; only an empty
    precision comes back as none. *)
Theorem hint_roundtrip p b :
  encode_hint_value p = Ok b -> hint_ok p -> decode_hint_value b = Ok (hint_norm p).
Proof. apply hint_decodes. Qed.

(** ** Keys *)

Lemma hex16_no_colon n : Forall (fun b => b <> colon) (hex16 n).
Proof.
  unfold hex16. generalize 16%nat. intros k. induction k as [|k IH]; cbn [digits]; constructor; [|done].
  unfold hex_char, colon. pose proof (N.mod_lt (n / 16 ^ N.of_nat k) 16 ltac:(lia)).
  destruct (_ <? 10) eqn:E; reflect_bools; lia.
Qed.

Lemma hex16_length n : length (hex16 n) = 16%nat.
Proof. apply digits_length. Qed.

Lemma split_on_app c cur a b :
  Forall (fun x => x <> c) a -> split_on c cur (a ++ c :: b) = (rev cur ++ a) :: split_on c [] b.
Proof.
  intros Ha. revert cur. induction Ha as [|x a Hx _ IH]; intros cur; cbn.
  - by rewrite N.eqb_refl, app_nil_r.
  - rewrite (proj2 (N.eqb_neq _ _) Hx), IH. cbn. by rewrite <- app_assoc.
Qed.

Lemma split_on_end c cur a : Forall (fun x => x <> c) a -> split_on c cur a = [rev cur ++ a].
Proof.
  intros Ha. revert cur. induction Ha as [|x a Hx _ IH]; intros cur; cbn; [by rewrite app_nil_r|].
  rewrite (proj2 (N.eqb_neq _ _) Hx), IH. cbn. by rewrite <- app_assoc.
Qed.

Lemma split_hh_key p s : split_on colon [] (hh_key p s) = [str_bytes "hh"; hex16 p; hex16 s].
Proof.
  assert (hh_key p s = str_bytes "hh" ++ colon :: (hex16 p ++ colon :: hex16 s)) as ->.
  { unfold hh_key, hh_peer_prefix, hh_prefix.
    change (str_bytes "hh:") with (str_bytes "hh" ++ [colon]). rewrite <- !app_assoc. done. }
  rewrite split_on_app by (repeat constructor; done). cbn [rev app].
  rewrite split_on_app by apply hex16_no_colon. cbn [rev app].
  by rewrite split_on_end by apply hex16_no_colon.
Qed.

Lemma utf8_hh_key p s : utf8_valid (hh_key p s) = true.
Proof.
  apply utf8_ascii. unfold hh_key, hh_peer_prefix. rewrite <- !app_assoc.
  apply Forall_app. split; [by repeat constructor|]. apply Forall_app. split; [apply hex16_ascii|].
  apply Forall_app. split; [by repeat constructor|apply hex16_ascii].
Qed.

Lemma peer_of_hh_key p s : p <= u64_max -> peer_of_key (hh_key p s) = Some p.
Proof.
  intros Hp. unfold peer_of_key. rewrite utf8_hh_key, split_hh_key, bool_decide_true by done. by apply hex16_roundtrip.
Qed.

Lemma seq_of_hh_key p s : s <= u64_max -> seq_of_key (hh_key p s) = Some s.
Proof. intros Hs. unfold seq_of_key. rewrite utf8_hh_key, split_hh_key. cbn. by apply hex16_roundtrip. Qed.

Lemma hh_key_inj p q s t :
  p <= u64_max -> q <= u64_max -> s <= u64_max -> t <= u64_max -> hh_key p s = hh_key q t -> p = q /\ s = t.
Proof.
  intros Hp Hq Hs Ht E. split.
  - pose proof (peer_of_hh_key p s Hp) as E1. rewrite E, peer_of_hh_key in E1 by done. by simplify_eq.
  - pose proof (seq_of_hh_key p s Hs) as E1. rewrite E, seq_of_hh_key in E1 by done. by simplify_eq.
Qed.

Lemma hh_key_prefix p s : has_prefix (hh_peer_prefix p) (hh_key p s) = true.
Proof. apply has_prefix_app. Qed.

Lemma hh_key_all p s : has_prefix hh_prefix (hh_key p s) = true.
Proof. unfold hh_key, hh_peer_prefix. rewrite <- !app_assoc. apply has_prefix_app. Qed.

Lemma peer_prefix_all p k : has_prefix (hh_peer_prefix p) k = true -> has_prefix hh_prefix k = true.
Proof.
  intros [k' ->]%has_prefix_true. unfold hh_peer_prefix. rewrite <- !app_assoc. apply has_prefix_app.
Qed.

(** A key of another peer does not have a peer's prefix. *)
Lemma hh_key_other p q s :
  p <= u64_max -> q <= u64_max -> has_prefix (hh_peer_prefix p) (hh_key q s) = true -> p = q.
Proof.
  intros Hp Hq [k' E]%has_prefix_true. unfold hh_key, hh_peer_prefix in E. rewrite <- !app_assoc in E.
  apply app_inv_head in E. apply hex16_inj; [done|done|].
  apply (f_equal (take 16)) in E. by rewrite !take_app_le, !take_ge in E by (by rewrite hex16_length).
Qed.

Lemma hh_key_ltb p s t : s <= u64_max -> t <= u64_max -> bytes_ltb (hh_key p s) (hh_key p t) = (s <? t).
Proof. intros Hs Ht. unfold hh_key. rewrite bytes_ltb_app. by apply hex16_ltb. Qed.

Lemma hh_keys_inj p (l1 l2 : list N) :
  p <= u64_max -> (forall s, s ∈ l1 -> s <= u64_max) -> (forall s, s ∈ l2 -> s <= u64_max) ->
  hh_key p <$> l1 = hh_key p <$> l2 -> l1 = l2.
Proof.
  intros Hp. revert l2. induction l1 as [|s l1 IH]; intros [|t l2] H1 H2 E; try done.
  rewrite !fmap_cons in E. pose proof (f_equal head E) as Eh. pose proof (f_equal tail E) as Et.
  apply (inj Some) in Eh. f_equal.
  - apply (hh_key_inj p p s t) in Eh as [_ ?]; [done|done|done|apply H1; by left|apply H2; by left].
  - apply IH; [intros; apply H1; by right|intros; apply H2; by right|exact Et].
Qed.

(** ** The queue as lists *)

Section Queue.
Context {DB : Type} `{CDB : !CfDb ReplCf DB} `{DbLaws : !CfDbLaws ReplCf DB}.
#[local] Set Default Proof Using "Type*".

Definition hint_row (h : HintedHandoff DB) (k : bytes) : option string := cf_rows (hh_db h) HintData !! k.

(** The queue of every peer: its hints in order, each under its sequence. *)
Definition hh_rep (h : HintedHandoff DB) (q : N -> list (N * HintPayload)) : Prop :=
  hh_seq h <= u64_max /\
  (forall k v, hint_row h k = Some v -> has_prefix hh_prefix k = true ->
     exists p s x, p <= u64_max /\ k = hh_key p s /\ (s, x) ∈ q p /\ decode_hint_value (str_bytes v) = Ok x) /\
  forall p, p <= u64_max ->
    StronglySorted (fun a b => a.1 < b.1) (q p) /\
    (forall s x, (s, x) ∈ q p -> s <= hh_seq h /\
       exists v, hint_row h (hh_key p s) = Some v /\ decode_hint_value (str_bytes v) = Ok x) /\
    pending_count h p = N.of_nat (length (q p)).

Definition upd_queue (q : N -> list (N * HintPayload)) (p : N) (l : list (N * HintPayload))
    : N -> list (N * HintPayload) := fun p' => if decide (p' = p) then l else q p'.

Lemma encode_hint_bytes p b :
  encode_hint_value p = Ok b -> hint_ok p -> Forall byte_ok b.
Proof.
  intros E (_ & _ & _ & Hb & _). unfold encode_hint_value in E. destruct (_ || _); [done|].
  destruct (_ <? _); [done|]. apply Ok_inj in E as <-.
  assert (byte_ok 0 /\ byte_ok 1) as [H0 H1] by done.
  apply Forall_app. split; [exact (utf8_bytes "CFh1")|].
  repeat (apply Forall_app; split); auto using le_bytes_ok, utf8_bytes.
  destruct (hp_precision p) as [s|]; [|by repeat constructor].
  pose proof (utf8_bytes s) as Hs. destruct (str_bytes s) as [|x l]; [by repeat constructor|].
  constructor; [done|]. apply Forall_app. split; [apply le_bytes_ok|done].
Qed.

Lemma pending_insert (h : HintedHandoff DB) p p' c :
  pending_count (hh_set_counts (<[p := c]> (hh_counts h)) h) p' = if decide (p' = p) then c else pending_count h p'.
Proof.
  unfold pending_count. cbn. case_decide as E; [subst; by rewrite lookup_insert_eq|by rewrite lookup_insert_ne].
Qed.

(** A change of the counts alone, back to what they were. *)
Lemma hh_rep_counts (h h' : HintedHandoff DB) q :
  hh_rep h q -> hh_db h' = hh_db h -> hh_seq h <= hh_seq h' -> hh_seq h' <= u64_max ->
  (forall p, p <= u64_max -> pending_count h' p = pending_count h p) -> hh_rep h' q.
Proof.
  intros (Hs & Hrow & Hq) Hd Hle Hmax Hc. split_and!; [done| |].
  - intros k v. unfold hint_row. rewrite Hd. apply Hrow.
  - intros p Hp. destruct (Hq p Hp) as (H1 & H2 & H3). split_and!; [done| |by rewrite Hc].
    intros s x Hx. destruct (H2 s x Hx) as [? Hv]. split; [lia|]. unfold hint_row. by rewrite Hd.
Qed.

Lemma enqueue_rep (h h' : HintedHandoff DB) q p x r :
  enqueue_hint h p x = (h', r) -> hh_rep h q -> p <= u64_max -> hh_seq h < u64_max -> hint_ok x ->
  match r with
  | Ok _ => hh_rep h' (upd_queue q p (q p ++ [(hh_seq h + 1, hint_norm x)])) /\
            (hh_max h = 0 \/ N.of_nat (length (q p)) < hh_max h)
  | Err e => hh_rep h' q /\
             (0 < hh_max h -> hh_max h <= N.of_nat (length (q p)) ->
              e = HeFull (N.of_nat (length (q p))) (hh_max h))
  end /\ hh_max h' = hh_max h.
Proof.
  intros E Hrep Hp Hlt Hx. pose proof Hrep as (Hs & Hrow & Hq). destruct (Hq p Hp) as (Hsort & Hin & Hcnt).
  unfold enqueue_hint in E. unfold pending_count in Hcnt. rewrite Hcnt in E.
  destruct ((0 <? hh_max h) && (hh_max h <=? N.of_nat (length (q p)))) eqn:Efull.
  { injection E as <- <-. split; [|done]. split; [|done]. eapply hh_rep_counts; try done.
    intros p' _. rewrite pending_insert. case_decide; [by subst|done]. }
  assert (Hcap : hh_max h = 0 \/ N.of_nat (length (q p)) < hh_max h).
  { apply andb_false_iff in Efull as [?%N.ltb_ge|?%N.leb_gt]; [left; lia|by right]. }
  rewrite wrapping_add_small in E by lia. cbn [hh_db] in E.
  set (h1 := mkHH _ _ _ _) in E.
  assert (Hfail : hh_rep (release p 1 h1) q /\ hh_max (release p 1 h1) = hh_max h).
  { unfold release. cbn [N.eqb]. unfold h1. cbn [hh_counts]. rewrite lookup_insert_eq. split; [|done].
    eapply hh_rep_counts; try done; [cbn; lia|cbn; lia|]. intros p' _. unfold pending_count, sat_sub. cbn.
    destruct (decide (p' = p)) as [->|Hne].
    - rewrite lookup_insert_eq, Hcnt. cbn. lia.
    - by rewrite !lookup_insert_ne. }
  assert (Hnotfull : 0 < hh_max h -> hh_max h <= N.of_nat (length (q p)) -> False) by lia.
  destruct (encode_hint_value x) as [b|e] eqn:Ee; [|injection E as <- <-; destruct Hfail; naive_solver].
  destruct (cf_write (hh_db h) _) as [d|e] eqn:Ew; [|injection E as <- <-; destruct Hfail; naive_solver].
  injection E as <- <-. split; [|done]. split; [|done].
  assert (Hd : cf_rows d HintData = <[hh_key p (hh_seq h + 1) := bytes_str b]> (cf_rows (hh_db h) HintData)).
  { rewrite (cf_write_law _ _ _ Ew). cbn [fold_left]. apply apply_put_eq. }
  assert (Hdec : decode_hint_value (str_bytes (bytes_str b)) = Ok (hint_norm x)).
  { rewrite bytes_str_bytes by (by eapply encode_hint_bytes). by apply hint_decodes. }
  split_and!; [cbn; lia| |].
  - intros k v. unfold hint_row. cbn. rewrite Hd. intros [[<- <-]|[Hne Hk]]%lookup_insert_Some Hpre.
    + exists p, (hh_seq h + 1), (hint_norm x). split_and!; try done. unfold upd_queue.
      rewrite decide_True by done. apply elem_of_app. right. by left.
    + destruct (Hrow k v Hk Hpre) as (p' & s & y & Hp' & -> & Hy & Hdy). exists p', s, y. split_and!; try done.
      unfold upd_queue. case_decide as E'; [subst; apply elem_of_app; by left|done].
  - intros p' Hp'. destruct (Hq p' Hp') as (Hsort' & Hin' & Hcnt').
    assert (Hkeep : forall s y, (s, y) ∈ q p' -> s <= hh_seq h + 1 /\
      exists v, hint_row (hh_set_db d h1) (hh_key p' s) = Some v /\ decode_hint_value (str_bytes v) = Ok y).
    { intros s y Hy. destruct (Hin' s y Hy) as (Hle & v & Hv & Hdv). split; [lia|]. exists v. split; [|done].
      unfold hint_row. cbn. rewrite Hd. rewrite lookup_insert_ne; [exact Hv|].
      intros Hk. apply hh_key_inj in Hk as [_ ?]; lia. }
    unfold upd_queue. case_decide as E'.
    + subst p'. split_and!.
      * apply StronglySorted_app_2; [|done|by repeat constructor]. intros [s y] z Hy ->%list_elem_of_singleton. cbn.
        destruct (Hin s y Hy). lia.
      * intros s y [Hy|Hy]%elem_of_app; [by apply Hkeep|]. apply list_elem_of_singleton in Hy. simplify_eq. split; [done|].
        exists (bytes_str b). split; [|done]. unfold hint_row. cbn. by rewrite Hd, lookup_insert_eq.
      * unfold pending_count. cbn. rewrite lookup_insert_eq, length_app. cbn. lia.
    + split_and!; [done|exact Hkeep|]. unfold pending_count in *. cbn. by rewrite lookup_insert_ne.
Qed.

(** *** Draining *)

Lemma drain_scan_rows prefix n (rows : list (bytes * string)) (xs : list HintPayload) :
  Forall2 (fun kv x => decode_hint_value (str_bytes kv.2) = Ok x)
    (take_while (fun kv => has_prefix prefix kv.1) rows) xs ->
  drain_scan prefix n (Ok <$> rows)
  = Ok (take n xs, (take n (take_while (fun kv => has_prefix prefix kv.1) rows)).*1).
Proof.
  revert n xs. induction rows as [|[k v] rows IH]; intros n xs; cbn [take_while].
  { intros ->%Forall2_nil_inv_l. destruct n; by rewrite !take_nil. }
  destruct n as [|n]; [done|]. cbn [fmap list_fmap drain_scan fst].
  destruct (has_prefix prefix k); cbn [negb]; [|by intros ->%Forall2_nil_inv_l].
  intros (x & xs' & Hx & Hxs & ->)%Forall2_cons_inv_l. cbn in Hx. rewrite Hx. by rewrite (IH n xs' Hxs).
Qed.

Lemma delete_keys_spec d n keys d' n' :
  delete_keys d n keys = (d', n') ->
  exists ds, ds `sublist_of` keys /\ n' = n + N.of_nat (length ds) /\
    (forall k, cf_rows d' HintData !! k = if decide (k ∈ ds) then None else cf_rows d HintData !! k) /\
    ((forall (d : DB) k, exists d', cf_write d [DeleteCf HintData k] = Ok d') -> ds = keys).
Proof.
  revert d n. induction keys as [|k keys IH]; intros d n; cbn [delete_keys].
  { intros [= <- <-]. exists []. split_and!; [done|cbn; lia| |done]. intros k. case_decide as H; [by apply elem_of_nil in H|done]. }
  destruct (cf_write d [DeleteCf HintData k]) as [d1|e] eqn:Ew; intros E.
  - destruct (IH _ _ E) as (ds & Hsub & -> & Hrows & Hall). exists (k :: ds). split_and!.
    + by constructor.
    + cbn. lia.
    + intros k'. rewrite Hrows, (cf_write_law _ _ _ Ew). cbn [fold_left]. rewrite apply_delete_eq.
      destruct (decide (k' = k)) as [->|Hne].
      * rewrite lookup_delete_eq, (decide_True (P := k ∈ k :: ds)) by (by left). by case_decide.
      * rewrite lookup_delete_ne by done. do 2 case_decide; try done; set_solver.
    + intros Hw. f_equal. by apply Hall.
  - destruct (IH _ _ E) as (ds & Hsub & -> & Hrows & Hall). exists ds. split_and!; [by constructor|done|done|].
    intros Hw. destruct (Hw d k) as [? ?]. congruence.
Qed.

(** The rows of a peer, in key order, are its queue. *)
Lemma peer_rows_queue (h : HintedHandoff DB) q p rows :
  hh_rep h q -> p <= u64_max ->
  cf_scan (hh_db h) HintData (hh_peer_prefix p) = Ok <$> rows ->
  StronglySorted (fun a b => bytes_ltb a.1 b.1 = true) rows ->
  (forall k v, (k, v) ∈ rows <-> hint_row h k = Some v /\ bytes_leb (hh_peer_prefix p) k = true) ->
  let prows := take_while (fun kv => has_prefix (hh_peer_prefix p) kv.1) rows in
  prows.*1 = (fun sx => hh_key p sx.1) <$> q p /\
  Forall2 (fun kv x => decode_hint_value (str_bytes kv.2) = Ok x) prows (q p).*2.
Proof.
  intros (Hs & Hrow & Hq) Hp Escan Hsort Hin prows. destruct (Hq p Hp) as (Hqs & Hqin & _).
  assert (Hmem : forall k v, (k, v) ∈ prows <-> hint_row h k = Some v /\ has_prefix (hh_peer_prefix p) k = true).
  { intros k v. unfold prows. rewrite take_while_prefix by (try done; intros [k' v'] [_ ?]%Hin; done). rewrite Hin.
    split; [by intros [[? _] ?]|]. intros [? Hpre]. split_and!; try done.
    apply has_prefix_true in Hpre as [k' ->]. apply bytes_prefix_leb. }
  assert (Hkeys : prows.*1 = (fun sx => hh_key p sx.1) <$> q p).
  { assert (Hps : StronglySorted (fun a b => bytes_ltb a b = true) prows.*1).
    { assert (StronglySorted (fun a b => bytes_ltb a.1 b.1 = true) prows) as H by (by apply take_while_sorted).
      clear -H. induction H as [|x l Hl IH Hx]; [constructor|]. cbn. constructor; [done|].
      rewrite Forall_forall in Hx. apply Forall_forall. intros y (z & -> & Hz)%list_elem_of_fmap. by apply Hx. }
    assert (Hks : StronglySorted (fun a b => bytes_ltb a b = true) ((fun sx => hh_key p sx.1) <$> q p)).
    { assert (forall sx, sx ∈ q p -> sx.1 <= u64_max) as Hb.
      { intros [s x] Hx. destruct (Hqin s x Hx). cbn. lia. }
      clear -Hqs Hb. induction Hqs as [|x l Hl IH Hx]; [constructor|]. cbn. constructor; [apply IH; intros; apply Hb; by right|].
      rewrite Forall_forall in Hx. apply Forall_forall. intros y (z & -> & Hz)%list_elem_of_fmap. rewrite hh_key_ltb.
      - apply N.ltb_lt. by apply Hx.
      - apply Hb. by left.
      - apply Hb. by right. }
    assert (Hirr : forall a, ~ bytes_ltb a a = true) by (intros a; by rewrite bytes_ltb_irrefl).
    eapply (StronglySorted_unique_strong (fun a b => bytes_ltb a b = true)); [|exact Hps|exact Hks|].
    - intros a b _ _ Hab Hba. exfalso. by apply (Hirr a), (bytes_ltb_trans _ _ _ Hab Hba).
    - apply NoDup_Permutation; [exact (sorted_NoDup _ _ Hirr Hps)|exact (sorted_NoDup _ _ Hirr Hks)|]. intros k. rewrite !list_elem_of_fmap. split.
      + intros ([k' v] & -> & [Hv Hpre]%Hmem). destruct (Hrow _ _ Hv (peer_prefix_all _ _ Hpre)) as (p' & s & x & Hp' & -> & Hx & _).
        apply hh_key_other in Hpre as <-; [|done|done]. by exists (s, x).
      + intros ([s x] & -> & Hx). destruct (Hqin s x Hx) as (_ & v & Hv & _). exists (hh_key p s, v). split; [done|].
        apply Hmem. split; [done|apply hh_key_prefix]. }
  split; [done|]. apply Forall2_same_length_lookup. split.
  { rewrite length_fmap. apply (f_equal length) in Hkeys. by rewrite !length_fmap in Hkeys. }
  intros i [k v] x Hi Hx. rewrite list_lookup_fmap in Hx.
  assert (prows.*1 !! i = Some k) as Hk by (rewrite list_lookup_fmap, Hi; done). rewrite Hkeys, list_lookup_fmap in Hk.
  destruct (q p !! i) as [[s y]|] eqn:Ey; [|done]. cbn in Hk, Hx. simplify_eq.
  destruct (Hqin s x) as (_ & v' & Hv' & Hd); [by eapply list_elem_of_lookup_2|].
  apply list_elem_of_lookup_2, Hmem in Hi as [Hv _]. cbn. congruence.
Qed.

Lemma filter_fst (ds : list N) (l : list (N * HintPayload)) :
  (filter (fun sx => sx.1 ∉ ds) l).*1 = filter (fun s => s ∉ ds) l.*1.
Proof.
  induction l as [|[s x] l IH]; [done|]. rewrite fmap_cons, !filter_cons. cbn [fst].
  destruct (decide (s ∉ ds)); cbn; by rewrite IH.
Qed.

Lemma release_counts (h : HintedHandoff DB) p n p' :
  n <= pending_count h p ->
  hh_db (release p n h) = hh_db h /\ hh_seq (release p n h) = hh_seq h /\ hh_max (release p n h) = hh_max h /\
  pending_count (release p n h) p' = if decide (p' = p) then pending_count h p - n else pending_count h p'.
Proof.
  intros Hn. unfold release. destruct (N.eqb_spec n 0) as [->|Hnz].
  { split_and!; try done. case_decide; [subst; lia|done]. }
  unfold pending_count in Hn. destruct (hh_counts h !! p) as [c|] eqn:E; [|cbn in Hn; lia]. cbn in Hn.
  split_and!; try done. rewrite pending_insert. unfold pending_count, sat_sub. by rewrite E.
Qed.

Lemma drain_rep (h h' : HintedHandoff DB) q p n r :
  hh_drain h p n = (h', r) -> hh_rep h q -> p <= u64_max ->
  exists ds, r = Ok (take n (q p)).*2 /\ ds `sublist_of` (take n (q p)).*1 /\
    hh_rep h' (upd_queue q p (filter (fun sx => sx.1 ∉ ds) (q p))) /\
    hh_seq h' = hh_seq h /\ hh_max h' = hh_max h /\
    ((forall (d : DB) k, exists d', cf_write d [DeleteCf HintData k] = Ok d') -> ds = (take n (q p)).*1).
Proof.
  intros E Hrep Hp. pose proof Hrep as (Hs & Hrow & Hq). destruct (Hq p Hp) as (Hqs & Hqin & Hcnt).
  unfold hh_drain in E. destruct (cf_scan_law (hh_db h) HintData (hh_peer_prefix p)) as (rows & Escan & Hsort & Hin).
  destruct (peer_rows_queue h q p rows Hrep Hp Escan Hsort Hin) as [Hkeys Hdec].
  rewrite Escan, (drain_scan_rows _ _ _ _ Hdec) in E.
  replace (take n (q p).*2) with (take n (q p)).*2 in E by apply fmap_take.
  rewrite (fmap_take fst), Hkeys, <- fmap_take in E.
  destruct (delete_keys (hh_db h) 0 _) as [d deleted] eqn:Ed. injection E as <- <-.
  destruct (delete_keys_spec _ _ _ _ _ Ed) as (dks & Hsub & -> & Hrows & Hall).
  assert (exists ds, ds `sublist_of` (take n (q p)).*1 /\ dks = hh_key p <$> ds) as (ds & Hds & ->).
  { apply sublist_fmap_back. rewrite <- list_fmap_compose. exact Hsub. }
  assert (Hdq : ds `sublist_of` (q p).*1).
  { rewrite Hds, fmap_take. apply sublist_take. }
  assert (Hnd : NoDup (q p).*1).
  { apply (sorted_NoDup N.lt); [intros x; lia|]. clear -Hqs. induction Hqs as [|x l Hl IH Hx]; [constructor|]. cbn.
    constructor; [done|]. rewrite Forall_forall in Hx. apply Forall_forall. intros y (z & -> & Hz)%list_elem_of_fmap. by apply Hx. }
  assert (Hb : forall s x, (s, x) ∈ q p -> s <= u64_max) by (intros s x Hx; destruct (Hqin s x Hx); lia).
  assert (Hdb : forall s, s ∈ ds -> s <= u64_max).
  { intros s Hx. apply (elem_of_sublist _ _ _ Hx) in Hdq. apply list_elem_of_fmap in Hdq as ([s' x] & -> & Hx'). by eapply Hb. }
  assert (Hlen : (length (filter (fun sx : N * HintPayload => sx.1 ∉ ds) (q p)) + length ds = length (q p))%nat).
  { rewrite <- (length_fmap fst (q p)), <- (filter_out_length _ _ Hnd Hdq), <- filter_fst. by rewrite length_fmap. }
  destruct (release_counts (hh_set_db d h) p (0 + N.of_nat (length (hh_key p <$> ds))) p) as (Hd' & Hs' & Hm' & _).
  { rewrite length_fmap. change (pending_count (hh_set_db d h) p) with (pending_count h p). rewrite Hcnt. lia. }
  exists ds. split; [done|]. split; [done|]. split; [|split; [done|split; [done|]]].
  2:{ intros Hw. specialize (Hall Hw). change ((fun sx : N * HintPayload => hh_key p sx.1) <$> take n (q p)) with ((hh_key p ∘ fst) <$> take n (q p)) in Hall.
      rewrite list_fmap_compose in Hall.
      assert (forall s, s ∈ (take n (q p)).*1 -> s <= u64_max) as Hb2.
      { intros s (sx & -> & Hsx)%list_elem_of_fmap. destruct sx. apply (Hb _ h0).
        rewrite <- (take_drop n (q p)). apply elem_of_app. by left. }
      apply (hh_keys_inj p); [done|exact Hdb|exact Hb2|exact Hall]. }
  assert (Hgone : forall p' s, p' <= u64_max -> s <= u64_max ->
    hh_key p' s ∈ hh_key p <$> ds <-> p' = p /\ s ∈ ds).
  { intros p' s Hp' Hs0. rewrite list_elem_of_fmap. split.
    - intros (t & Hk & Ht). apply hh_key_inj in Hk as [-> ->]; auto.
    - intros [-> Ht]. by exists s. }
  set (h2 := release _ _ _) in *. unfold hint_row in *.
  assert (Hrow2 : forall k, cf_rows (hh_db h2) HintData !! k = if decide (k ∈ hh_key p <$> ds) then None else cf_rows (hh_db h) HintData !! k).
  { intros k. rewrite Hd'. apply Hrows. }
  split_and!; [by rewrite Hs'| |].
  - intros k v Hk Hpre. unfold hint_row in Hk. rewrite Hrow2 in Hk. case_decide as Hkd; [done|].
    destruct (Hrow k v Hk Hpre) as (p' & s & x & Hp' & -> & Hx & Hdx). exists p', s, x. split_and!; try done.
    unfold upd_queue. case_decide as E'; [|done]. subst p'. apply list_elem_of_filter. split; [|done].
    cbn. intros Hs0. apply Hkd, Hgone; eauto.
  - intros p' Hp'. destruct (Hq p' Hp') as (Hqs' & Hqin' & Hcnt').
    destruct (release_counts (hh_set_db d h) p (0 + N.of_nat (length (hh_key p <$> ds))) p') as (_ & _ & _ & Hc').
    { rewrite length_fmap. change (pending_count (hh_set_db d h) p) with (pending_count h p). rewrite Hcnt. lia. }
    change (pending_count (hh_set_db d h) p) with (pending_count h p) in Hc'.
    change (pending_count (hh_set_db d h) p') with (pending_count h p') in Hc'.
    fold h2 in Hc'. unfold upd_queue, hint_row. rewrite Hs', Hc'. case_decide as E'.
    + subst p'. split_and!.
      * by apply StronglySorted_filter.
      * intros s x [Hns Hx]%list_elem_of_filter. destruct (Hqin s x Hx) as (Hle & v & Hv & Hdv). split; [done|].
        exists v. split; [|done]. rewrite Hrow2, decide_False; [done|]. intros [_ Hs0]%Hgone; [done|done|by eapply Hb].
      * rewrite Hcnt, length_fmap. lia.
    + split_and!; [done| |done]. intros s x Hx. destruct (Hqin' s x Hx) as (Hle & v & Hv & Hdv). split; [done|].
      exists v. split; [|done]. rewrite Hrow2, decide_False; [done|]. intros [? _]%Hgone; [done|done|lia].
Qed.

(** *** Restarting *)

Lemma scan_hints rows acc m c :
  fold_left scan_hint rows acc = (m, c) ->
  (forall k (v : string), (k, v) ∈ rows -> exists p s, p <= u64_max /\ s <= u64_max /\ k = hh_key p s) ->
  (forall p, default 0 (c !! p) = default 0 (acc.2 !! p)
     + N.of_nat (length (filter (fun kv => peer_of_key kv.1 = Some p) rows))) /\
  acc.1 <= m /\ (forall p s v, s <= u64_max -> (hh_key p s, v) ∈ rows -> s <= m) /\
  (forall b, acc.1 <= b -> (forall p s v, s <= u64_max -> (hh_key p s, v) ∈ rows -> s <= b) -> m <= b).
Proof.
  revert acc. induction rows as [|[k v] rows IH]; intros [m0 c0] E Hwf; cbn [fold_left] in E.
  { injection E as <- <-. split_and!; [intros p; cbn; lia|done|by intros ? ? ? _ ?%elem_of_nil|done]. }
  destruct (Hwf k v) as (p0 & s0 & Hp0 & Hs0 & ->); [by left|].
  unfold scan_hint at 2 in E. cbn [fst snd] in E. rewrite peer_of_hh_key, seq_of_hh_key in E by done.
  destruct (IH _ E) as (H1 & H2 & H3 & H4); [intros; eapply Hwf; by right|]. cbn [fst snd] in *. split_and!.
  - intros p. rewrite H1, filter_cons. cbn [fst]. rewrite peer_of_hh_key by done.
    destruct (decide (p0 = p)) as [<-|Hne].
    + rewrite lookup_insert_eq, decide_True by done. cbn. lia.
    + rewrite lookup_insert_ne, decide_False by congruence. done.
  - lia.
  - intros p s w Hs [[Hk _]%pair_equal_spec|Hin]%elem_of_cons; [|by eapply H3].
    assert (seq_of_key (hh_key p s) = seq_of_key (hh_key p0 s0)) as Eq by (by rewrite Hk).
    rewrite !seq_of_hh_key in Eq by done. simplify_eq. lia.
  - intros b Hb Hall. apply H4; [|intros; eapply Hall; [done|by right]].
    specialize (Hall p0 s0 v Hs0 ltac:(by left)). lia.
Qed.

Lemma new_rep (h : HintedHandoff DB) q max :
  hh_rep h q ->
  hh_rep (hh_new (hh_db h) max) q /\ hh_max (hh_new (hh_db h) max) = max /\
  hh_seq (hh_new (hh_db h) max) <= hh_seq h.
Proof.
  intros Hrep. pose proof Hrep as (Hs & Hrow & Hq). unfold hh_new.
  destruct (prefix_rows_spec (hh_db h) HintData hh_prefix) as [Hsort Hin].
  set (rows := prefix_rows (hh_db h) HintData hh_prefix) in *.
  destruct (fold_left scan_hint rows (0, ∅)) as [m c] eqn:Ef.
  assert (Hkv : forall k v, (k, v) ∈ rows -> exists p s x, p <= u64_max /\ s <= hh_seq h /\ k = hh_key p s /\
    (s, x) ∈ q p).
  { intros k v [Hk Hpre]%Hin. destruct (Hrow k v Hk Hpre) as (p & s & x & Hp & -> & Hx & _).
    destruct (Hq p Hp) as (_ & Hqin & _). destruct (Hqin s x Hx). eauto 10. }
  destruct (scan_hints _ _ _ _ Ef) as (H1 & _ & H3 & H4).
  { intros k v Hk. destruct (Hkv k v Hk) as (p & s & x & ? & ? & -> & _). exists p, s. split_and!; [done|lia|done]. }
  assert (Hm : m <= hh_seq h).
  { apply (H4 (hh_seq h)); [cbn; lia|]. intros p s v Hs' Hk. destruct (Hkv _ _ Hk) as (p' & s' & x & _ & Hle & Hk' & _).
    assert (seq_of_key (hh_key p s) = seq_of_key (hh_key p' s')) as Eq by (by rewrite Hk').
    rewrite !seq_of_hh_key in Eq by lia. by simplify_eq. }
  split; [|by split]. split_and!; [cbn; lia|done|]. intros p Hp. destruct (Hq p Hp) as (Hqs & Hqin & Hcnt).
  split_and!; [done| |].
  - intros s x Hx. destruct (Hqin s x Hx) as (Hle & v & Hv & Hd). split; [|by exists v].
    apply (H3 p s v); [lia|]. apply Hin. split; [done|apply hh_key_all].
  - unfold pending_count. cbn [hh_counts]. rewrite H1. cbn [snd]. rewrite lookup_empty. cbn [from_option].
    rewrite N.add_0_l. f_equal. rewrite <- (length_fmap fst (filter _ rows)).
    rewrite <- (length_fmap (fun sx => hh_key p sx.1) (q p)). apply Permutation_length.
    assert (Hnd : NoDup rows).
    { apply (sorted_NoDup (fun a b => bytes_ltb a.1 b.1 = true)); [|exact Hsort]. intros x. by rewrite bytes_ltb_irrefl. }
    apply NoDup_Permutation.
    + apply NoDup_fmap_fst; [|by apply NoDup_filter]. intros k v1 v2 [_ [Hk1 _]%Hin]%list_elem_of_filter [_ [Hk2 _]%Hin]%list_elem_of_filter.
      congruence.
    + apply (sorted_NoDup (fun a b => bytes_ltb a b = true)); [intros x; by rewrite bytes_ltb_irrefl|].
      destruct (cf_scan_law (hh_db h) HintData (hh_peer_prefix p)) as (prows & Escan & Hps & Hpin).
      destruct (peer_rows_queue h q p prows Hrep Hp Escan Hps Hpin) as [<- _].
      assert (StronglySorted (fun a b => bytes_ltb a.1 b.1 = true)
        (take_while (fun kv => has_prefix (hh_peer_prefix p) kv.1) prows)) as H by (by apply take_while_sorted).
      clear -H. induction H as [|x l Hl IH Hx]; [constructor|]. cbn. constructor; [done|].
      rewrite Forall_forall in Hx. apply Forall_forall. intros y (z & -> & Hz)%list_elem_of_fmap. by apply Hx.
    + intros k. rewrite !list_elem_of_fmap. split.
      * intros ([k' v] & -> & [Hpk Hkv']%list_elem_of_filter). cbn in *.
        destruct (Hkv k' v Hkv') as (p' & s & x & Hp' & _ & -> & Hx). rewrite peer_of_hh_key in Hpk by done.
        simplify_eq. by exists (s, x).
      * intros ([s x] & -> & Hx). destruct (Hqin s x Hx) as (Hle & v & Hv & _). exists (hh_key p s, v). split; [done|].
        apply list_elem_of_filter. split; [by apply peer_of_hh_key|]. apply Hin. split; [done|apply hh_key_all].
Qed.

(** ** What the queue promises *)

(** What is done to the queue; a restart may come with another cap. *)
Inductive HintEvent :=
| HintEnqueue (peer : N) (payload : HintPayload)
| HintDrain (peer : N) (batch_size : nat)
| HintRestart (max_hints_per_peer : N).

Definition hint_event_ok (e : HintEvent) : Prop :=
  match e with
  | HintEnqueue p x => p <= u64_max /\ hint_ok x
  | HintDrain p _ => p <= u64_max
  | HintRestart _ => True
  end.

Definition hint_step (h : HintedHandoff DB) (e : HintEvent) : HintedHandoff DB :=
  match e with
  | HintEnqueue p x => fst (enqueue_hint h p x)
  | HintDrain p n => fst (hh_drain h p n)
  | HintRestart max => hh_new (hh_db h) max
  end.

(** A list per peer: an accepted hint goes to the end, a drain takes from the
    front. *)
Definition queue_step (h : HintedHandoff DB) (q : N -> list (N * HintPayload)) (e : HintEvent)
    : N -> list (N * HintPayload) :=
  match e with
  | HintEnqueue p x =>
    match snd (enqueue_hint h p x) with
    | Ok _ => upd_queue q p (q p ++ [(hh_seq h + 1, hint_norm x)])
    | Err _ => q
    end
  | HintDrain p n => upd_queue q p (drop n (q p))
  | HintRestart _ => q
  end.

Fixpoint hint_run (h : HintedHandoff DB) (q : N -> list (N * HintPayload)) (es : list HintEvent)
    : HintedHandoff DB * (N -> list (N * HintPayload)) :=
  match es with
  | [] => (h, q)
  | e :: es' => hint_run (hint_step h e) (queue_step h q e) es'
  end.

Definition deletes_succeed : Prop :=
  forall (d : DB) k, exists d', cf_write d [DeleteCf HintData k] = Ok d'.

Lemma filter_out_take (l : list (N * HintPayload)) n :
  NoDup l.*1 -> filter (fun sx => sx.1 ∉ (take n l).*1) l = drop n l.
Proof.
  intros Hnd. rewrite <- (take_drop n l) in Hnd. rewrite fmap_app in Hnd. apply NoDup_app in Hnd as (_ & Hd & _).
  transitivity (filter (fun sx => sx.1 ∉ (take n l).*1) (take n l ++ drop n l)); [by rewrite take_drop|].
  rewrite filter_app.
  rewrite list_filter_none by (intros x Hx Hn; apply Hn; by apply list_elem_of_fmap_2).
  apply list_filter_all. intros x Hx Hin. apply (Hd _ Hin). by apply list_elem_of_fmap_2.
Qed.

(** When deletes succeed a drain takes its hints off the front. *)
Lemma drain_front (h h' : HintedHandoff DB) q p n r :
  deletes_succeed -> hh_drain h p n = (h', r) -> hh_rep h q -> p <= u64_max ->
  r = Ok (take n (q p)).*2 /\ hh_rep h' (upd_queue q p (drop n (q p))) /\ hh_seq h' = hh_seq h /\ hh_max h' = hh_max h.
Proof.
  intros Hdel E Hrep Hp. destruct (drain_rep _ _ _ _ _ _ E Hrep Hp) as (ds & -> & _ & Hrep' & Hs & Hm & Hds).
  rewrite (Hds Hdel) in Hrep'. destruct Hrep as (_ & _ & Hq). destruct (Hq p Hp) as (Hqs & _ & _).
  rewrite filter_out_take in Hrep'; [done|]. apply (sorted_NoDup N.lt); [intros x; lia|].
  clear -Hqs. induction Hqs as [|x l Hl IH Hx]; [constructor|]. cbn. constructor; [done|].
  rewrite Forall_forall in Hx. apply Forall_forall. intros y (z & -> & Hz)%list_elem_of_fmap. by apply Hx.
Qed.

Lemma hint_step_rep (h : HintedHandoff DB) q e :
  deletes_succeed -> hh_rep h q -> hint_event_ok e -> hh_seq h < u64_max ->
  hh_rep (hint_step h e) (queue_step h q e) /\ hh_seq (hint_step h e) <= hh_seq h + 1.
Proof.
  intros Hdel Hrep He Hlt. destruct e as [p x|p n|max]; cbn in *.
  - destruct He as [Hp Hx]. destruct (enqueue_hint h p x) as [h' r] eqn:E. cbn.
    destruct (enqueue_rep _ _ _ _ _ _ E Hrep Hp Hlt Hx) as [Hr _]. split; [by destruct r; destruct Hr|].
    unfold enqueue_hint in E. destruct (_ && _); [injection E as <- _; cbn; lia|].
    rewrite wrapping_add_small in E by lia.
    assert (Hrel : forall n (g : HintedHandoff DB), hh_seq (release p n g) = hh_seq g).
    { intros n g. unfold release. destruct (_ =? _); [done|]. by destruct (hh_counts g !! p). }
    destruct (encode_hint_value x); [destruct (cf_write _ _)|]; injection E as <- _; rewrite ?Hrel; cbn; lia.
  - destruct (hh_drain h p n) as [h' r] eqn:E. cbn.
    destruct (drain_front _ _ _ _ _ _ Hdel E Hrep He) as (_ & ? & -> & _). split; [done|lia].
  - destruct (new_rep h q max Hrep) as (Hr & _ & Hs). split; [done|lia].
Qed.

Lemma empty_rep (d : DB) max : cf_rows d HintData = ∅ -> hh_rep (hh_new d max) (fun _ => []).
Proof.
  intros Hd. apply (new_rep (mkHH d 0 max ∅) (fun _ => []) max). split_and!; [cbn; lia| |].
  - intros k v. unfold hint_row. cbn. by rewrite Hd, lookup_empty.
  - intros p _. split_and!; [constructor|intros s x Hx; by apply elem_of_nil in Hx|]. unfold pending_count. cbn. by rewrite lookup_empty.
Qed.

Lemma hint_run_rep es (h : HintedHandoff DB) q h' q' :
  deletes_succeed -> hint_run h q es = (h', q') -> Forall hint_event_ok es ->
  hh_seq h + N.of_nat (length es) < u64_max -> hh_rep h q ->
  hh_rep h' q' /\ hh_seq h' <= hh_seq h + N.of_nat (length es).
Proof.
  intros Hdel. revert h q. induction es as [|e es IH]; intros h q E Hes Hlt Hrep; cbn in E.
  { simplify_eq. split; [done|lia]. }
  apply Forall_cons in Hes as [He Hes]. rewrite length_cons in Hlt |- *.
  destruct (hint_step_rep h q e Hdel Hrep He) as [Hr Hs]; [lia|].
  destruct (IH _ _ E Hes) as [? ?]; [lia|done|]. split; [done|lia].
Qed.

(** C40: The hinted-handoff queue refines one first-in first-out list per peer.
    After any sequence of enqueues (refused and failed ones included), drains
    and restarts from an empty column family whose deletes succeed, the count
    kept in memory is the length of the peer's list, a drain returns the first
    [batch_size] hints of the list in order, and an enqueue succeeds only
    below the cap and adds its hint at the end. *)
Theorem hint_queue_refines (d : DB) max es h q p n x :
  deletes_succeed -> cf_rows d HintData = ∅ -> Forall hint_event_ok es -> N.of_nat (length es) + 1 < u64_max ->
  hint_run (hh_new d max) (fun _ => []) es = (h, q) -> p <= u64_max -> hint_ok x ->
  pending_count h p = N.of_nat (length (q p)) /\
  snd (hh_drain h p n) = Ok (take n (q p)).*2 /\
  (snd (enqueue_hint h p x) = Ok tt ->
   (hh_max h = 0 \/ N.of_nat (length (q p)) < hh_max h) /\
   snd (hh_drain (fst (enqueue_hint h p x)) p (S (length (q p)))) = Ok ((q p).*2 ++ [hint_norm x])).
Proof.
  intros Hdel Hd Hes Hlen E Hp Hx. pose proof (empty_rep d max Hd) as H0.
  assert (hh_seq (hh_new d max) = 0) as Hs0.
  { unfold hh_new. destruct (prefix_rows_spec d HintData hh_prefix) as [_ Hin].
    destruct (prefix_rows d HintData hh_prefix) as [|[k v] l]; [done|].
    destruct (proj1 (Hin k v) ltac:(by left)) as [Hk _]. by rewrite Hd, lookup_empty in Hk. }
  destruct (hint_run_rep _ _ _ _ _ Hdel E Hes ltac:(lia) H0) as [Hrep Hle].
  assert (hh_seq h < u64_max) as Hseq by lia.
  destruct (hh_drain h p n) as [h1 r1] eqn:Ed. destruct (drain_front _ _ _ _ _ _ Hdel Ed Hrep Hp) as (-> & _).
  split; [by apply Hrep|]. split; [done|].
  destruct (enqueue_hint h p x) as [h2 r2] eqn:Ee. cbn [snd fst]. intros ->.
  destruct (enqueue_rep _ _ _ _ _ _ Ee Hrep Hp Hseq Hx) as [[Hr2 Hcap] _]. split; [done|].
  destruct (hh_drain h2 p _) as [h3 r3] eqn:Ed2. destruct (drain_front _ _ _ _ _ _ Hdel Ed2 Hr2 Hp) as (-> & _).
  cbn. unfold upd_queue. rewrite decide_True by done. rewrite take_ge by (rewrite length_app; cbn; lia).
  by rewrite fmap_app.
Qed.

(** ** Replaying *)

Lemma replay_batch_all {S} (send : S -> HintPayload -> S * bool) st batch :
  (forall st x, snd (send st x) = true) ->
  replay_batch send st batch = (fold_left (fun st x => fst (send st x)) batch st, []).
Proof.
  intros Hs. revert st. induction batch as [|x batch IH]; intros st; [done|]. cbn.
  specialize (Hs st x) as Hx. destruct (send st x) as [st' b]. cbn in Hx. subst b. by rewrite IH.
Qed.

Lemma replay_all {S} (send : S -> HintPayload -> S * bool) fuel (h : HintedHandoff DB) q st p :
  deletes_succeed -> (forall st x, snd (send st x) = true) -> hh_rep h q -> p <= u64_max ->
  (length (q p) < fuel)%nat ->
  exists h', drain_hints_for_peer fuel send h st p
             = (h', fold_left (fun st x => fst (send st x)) (q p).*2 st) /\ pending_count h' p = 0.
Proof.
  intros Hdel Hsend. revert h q st. induction fuel as [|fuel IH]; intros h q st Hrep Hp Hf; [lia|].
  cbn [drain_hints_for_peer]. destruct (hh_drain h p 100) as [h1 r1] eqn:Ed.
  destruct (drain_front _ _ _ _ _ _ Hdel Ed Hrep Hp) as (-> & Hrep1 & _).
  destruct (q p) as [|sx l] eqn:Eq.
  - exists h1. split; [done|]. destruct Hrep1 as (_ & _ & Hq1). destruct (Hq1 p Hp) as (_ & _ & ->).
    unfold upd_queue. by rewrite decide_True.
  - rewrite <- Eq in *. destruct ((take 100 (q p)).*2) as [|x batch] eqn:Eb.
    { exfalso. rewrite Eq in Eb. done. }
    rewrite replay_batch_all by done. rewrite <- Eb.
    destruct (IH h1 (upd_queue q p (drop 100 (q p))) (fold_left (fun st x => fst (send st x)) (take 100 (q p)).*2 st))
      as (h' & E & Hc); [done|done| |].
    { unfold upd_queue. rewrite decide_True by done. rewrite length_drop. rewrite Eq in *. cbn in *. lia. }
    exists h'. split; [|done]. rewrite E. f_equal. unfold upd_queue. rewrite decide_True by done.
    rewrite <- fold_left_app, <- fmap_app. by rewrite take_drop.
Qed.

(** A replay to a peer that accepts every hint delivers the whole queue of
    the peer, each hint once and in the order it was queued, and leaves the
    queue empty. *)
Theorem replay_delivers_all {S} (send : S -> HintPayload -> S * bool) (d : DB) max es h q st p fuel :
  deletes_succeed -> cf_rows d HintData = ∅ -> Forall hint_event_ok es -> N.of_nat (length es) < u64_max ->
  hint_run (hh_new d max) (fun _ => []) es = (h, q) -> p <= u64_max ->
  (forall st x, snd (send st x) = true) -> (length (q p) < fuel)%nat ->
  exists h', drain_hints_for_peer fuel send h st p
             = (h', fold_left (fun st x => fst (send st x)) (q p).*2 st) /\ pending_count h' p = 0.
Proof.
  intros Hdel Hd Hes Hlen E Hp Hsend Hf. pose proof (empty_rep d max Hd) as H0.
  apply replay_all; try done. eapply hint_run_rep; [done|done|done| |done].
  unfold hh_new. destruct (prefix_rows_spec d HintData hh_prefix) as [_ Hin].
  destruct (prefix_rows d HintData hh_prefix) as [|[k v] l]; [cbn; lia|].
  destruct (proj1 (Hin k v) ltac:(by left)) as [Hk _]. by rewrite Hd, lookup_empty in Hk.
Qed.
End Queue.

(** ** A failed replay *)

(** The hint number [i]. *)
Definition numbered_hint (i : nat) : HintPayload := mkHint "db" "autogen" None [N.of_nat i].

(** A queue of 101 hints for peer 2. *)
Definition backlog : HintedHandoff (MemDb ReplCf) :=
  fold_left (fun h i => fst (enqueue_hint h 2 (numbered_hint i))) (seq 0 101) (hh_new empty_db 0).

(** A replay that fails does not keep the order of the queue: the batch of
    100 hints was taken off the queue before the peer refused the first of
    them, and goes back behind the hints queued after it. The next replay
    starts with the newest hint. *)
Theorem failed_replay_reorders :
  snd (hh_drain backlog 2 2) = Ok [numbered_hint 0; numbered_hint 1] /\
  snd (hh_drain (fst (drain_hints_for_peer 102 (fun (st : unit) _ => (st, false)) backlog tt 2)) 2 2)
  = Ok [numbered_hint 100; numbered_hint 0].
Proof. split; vm_compute; reflexivity. Qed.

(** ** Witnesses *)

Lemma mem_deletes_succeed : deletes_succeed (DB := MemDb ReplCf).
Proof. intros d k. by eexists. Qed.

Lemma numbered_ok i : (i < 8)%nat -> hint_ok (numbered_hint i).
Proof.
  intros Hi. split_and!; [done|done|done|repeat constructor; unfold byte_ok; lia|].
  intros b Hb.
  assert (match encode_hint_value (numbered_hint i) with Ok b => N.of_nat (length b) <? two64 | Err _ => true end = true)
    as He by (do 8 (destruct i as [|i]; [vm_compute; reflexivity|]); lia).
  rewrite Hb in He. by apply N.ltb_lt.
Qed.

Lemma hint_roundtrip_witness :
  exists b, encode_hint_value (mkHint "db" "autogen" (Some "ms"%string) [99; 112; 117]) = Ok b /\
    decode_hint_value b = Ok (mkHint "db" "autogen" (Some "ms"%string) [99; 112; 117]).
Proof.
  destruct (encode_hint_value (mkHint "db" "autogen" (Some "ms"%string) [99; 112; 117])) as [b|e] eqn:E;
    [|vm_compute in E; discriminate].
  exists b. split; [reflexivity|]. apply (hint_roundtrip _ b E). split_and!; [reflexivity|reflexivity| | |].
  - intros s [= <-]. reflexivity.
  - repeat constructor.
  - intros b' Hb. rewrite E in Hb. apply Ok_inj in Hb as <-. vm_compute in E. apply Ok_inj in E as <-.
    apply N.ltb_lt. reflexivity.
Defined.

Definition wit_hints : list HintEvent :=
  [HintEnqueue 2 (numbered_hint 0); HintEnqueue 2 (numbered_hint 1); HintRestart 3; HintDrain 2 1].

Lemma wit_hints_ok : Forall hint_event_ok wit_hints.
Proof.
  assert (2 <= u64_max) by (apply N.leb_le; reflexivity).
  repeat constructor; try done; apply numbered_ok; lia.
Qed.

Lemma hint_queue_refines_witness :
  pending_count (fst (hint_run (hh_new (empty_db (Cf := ReplCf)) 0) (fun _ => []) wit_hints)) 2 = 1 /\
  snd (hh_drain (fst (hint_run (hh_new (empty_db (Cf := ReplCf)) 0) (fun _ => []) wit_hints)) 2 5)
  = Ok [numbered_hint 1].
Proof.
  destruct (hint_queue_refines (empty_db (Cf := ReplCf)) 0 wit_hints
    (fst (hint_run (hh_new (empty_db (Cf := ReplCf)) 0) (fun _ => []) wit_hints))
    (snd (hint_run (hh_new (empty_db (Cf := ReplCf)) 0) (fun _ => []) wit_hints)) 2 5 (numbered_hint 7))
    as (Hc & Hd & _).
  - exact mem_deletes_succeed.
  - reflexivity.
  - exact wit_hints_ok.
  - apply N.ltb_lt. reflexivity.
  - apply surjective_pairing.
  - apply N.leb_le. reflexivity.
  - apply numbered_ok. lia.
  - rewrite Hc, Hd. split; vm_compute; reflexivity.
Defined.

Lemma replay_delivers_all_witness :
  exists h', drain_hints_for_peer 5 (fun (sent : list HintPayload) x => (sent ++ [x], true))
      (fst (hint_run (hh_new (empty_db (Cf := ReplCf)) 0) (fun _ => []) wit_hints)) [] 2
    = (h', [numbered_hint 1]) /\ pending_count h' 2 = 0.
Proof.
  destruct (replay_delivers_all (fun (sent : list HintPayload) x => (sent ++ [x], true))
    (empty_db (Cf := ReplCf)) 0 wit_hints
    (fst (hint_run (hh_new (empty_db (Cf := ReplCf)) 0) (fun _ => []) wit_hints))
    (snd (hint_run (hh_new (empty_db (Cf := ReplCf)) 0) (fun _ => []) wit_hints)) [] 2 5) as (h' & E & Hc).
  - exact mem_deletes_succeed.
  - reflexivity.
  - exact wit_hints_ok.
  - apply N.ltb_lt. reflexivity.
  - apply surjective_pairing.
  - apply N.leb_le. reflexivity.
  - reflexivity.
  - vm_compute. lia.
  - exists h'. split; [|exact Hc]. rewrite E. f_equal.
Defined.
