(* ===== verification/ForwardQueue.v ===== *)
(** * The forward queue

    The durable queue of writes a coordinator owes to other region primaries:
    [adapters/cluster/forward_queue.rs] with the entry of
    [domain/cluster/forward.rs]. In memory the queue keeps one index by
    readiness and one by age over the rows of a column family in the database
    of the replication log. Bincode on entries is the class [ForwardCodec].
    The functions here run one after the other; the source takes the lock of
    the indexes after the database write. *)

From Stdlib Require Import Ascii String.
From stdpp Require Import prelude list sorting gmap fin_maps fin_sets strings.
From S2P Require Import Prelude Bytes CfStore Wire ReplicationLog.
From stdpp Require Import options.

#[local] Open Scope N_scope.

Record ForwardEntry := mkForward {
  fe_db : string;
  fe_rp : string;
  fe_precision : option string;
  fe_enqueued_ms : N;
  fe_not_before_ms : N;
  fe_attempts : N;
  fe_body : bytes
}.

(** ** The indexes *)

Record Pending := mkPending {
  pe_enqueued_ms : N;
  pe_not_before_ms : N;
  pe_bytes : N
}.

Record State := mkFqState {
  st_pending : gmap N Pending;
  st_ready : gset N;
  st_delayed : gset (N * N);
  st_by_age : gset (N * N)
}.

Definition fq_empty : State := mkFqState ∅ ∅ ∅ ∅.

(** The order of a [BTreeSet] of pairs. *)
Definition pair_leb (a b : N * N) : bool := (a.1 <? b.1) || ((a.1 =? b.1) && (a.2 <=? b.2)).

Definition first_pair (s : gset (N * N)) : option (N * N) := head (sort_by pair_leb (elements s)).

Definition fq_insert (seq : N) (p : Pending) (st : State) : State :=
  mkFqState (<[seq := p]> (st_pending st))
    (if pe_not_before_ms p =? 0 then st_ready st ∪ {[ seq ]} else st_ready st)
    (if pe_not_before_ms p =? 0 then st_delayed st else st_delayed st ∪ {[ (pe_not_before_ms p, seq) ]})
    (st_by_age st ∪ {[ (pe_enqueued_ms p, seq) ]}).

Definition fq_remove (seq : N) (st : State) : State * option N :=
  match st_pending st !! seq with
  | None => (st, None)
  | Some p =>
    (mkFqState (delete seq (st_pending st)) (st_ready st ∖ {[ seq ]})
       (st_delayed st ∖ {[ (pe_not_before_ms p, seq) ]})
       (st_by_age st ∖ {[ (pe_enqueued_ms p, seq) ]}), Some (pe_bytes p))
  end.

Definition fq_unclaim (seq not_before_ms : N) (st : State) : State :=
  match st_pending st !! seq with
  | None => st
  | Some p =>
    mkFqState (<[seq := mkPending (pe_enqueued_ms p) not_before_ms (pe_bytes p)]> (st_pending st))
      (st_ready st ∖ {[ seq ]})
      ((st_delayed st ∖ {[ (pe_not_before_ms p, seq) ]}) ∪ {[ (not_before_ms, seq) ]})
      (st_by_age st)
  end.

(** Move what is due from [delayed] to [ready]; each turn takes one pair, so
    the size of [delayed] bounds the turns. *)
Fixpoint fq_wake (fuel : nat) (now_ms : N) (st : State) : State :=
  match fuel with
  | O => st
  | S fuel' =>
    match first_pair (st_delayed st) with
    | Some (not_before, seq) =>
      if now_ms <? not_before then st
      else fq_wake fuel' now_ms
             (mkFqState (st_pending st) (st_ready st ∪ {[ seq ]})
                (st_delayed st ∖ {[ (not_before, seq) ]}) (st_by_age st))
    | None => st
    end
  end.

Fixpoint pick_ready (size : N -> N) (max_entries : nat) (max_bytes : N) (l picked : list N) (total : N)
    : list N :=
  match l with
  | [] => picked
  | seq :: l' =>
    if (max_entries <=? length picked)%nat then picked
    else if negb (bool_decide (picked = [])) && (max_bytes <? total + size seq) then picked
    else pick_ready size max_entries max_bytes l' (picked ++ [seq]) (total + size seq)
  end.

Definition pending_size (st : State) (seq : N) : N :=
  match st_pending st !! seq with Some p => pe_bytes p | None => 0 end.

Definition state_claim (now_ms : N) (max_entries : nat) (max_bytes : N) (st : State) : State * list N :=
  let st := fq_wake (size (st_delayed st)) now_ms st in
  let picked := pick_ready (pending_size st) max_entries max_bytes
                  (sort_by N.leb (elements (st_ready st))) [] 0 in
  (mkFqState (st_pending st) (st_ready st ∖ list_to_set picked) (st_delayed st) (st_by_age st), picked).

(** ** The queue *)

(** [bincode::serialize] and [bincode::deserialize] on entries. *)
Class ForwardCodec := {
  forward_serialize : ForwardEntry -> result string string;
  forward_deserialize : string -> result string ForwardEntry
}.

(** What the types of the fields promise: integers in range, strings in
    UTF-8, lengths in [usize]. *)
Definition precision_bytes (e : ForwardEntry) : bytes :=
  match fe_precision e with Some s => str_bytes s | None => [] end.

Definition forward_ok (e : ForwardEntry) : Prop :=
  (fe_enqueued_ms e <= u64_max /\ fe_not_before_ms e <= u64_max /\ fe_attempts e <= u32_max) /\
  (utf8 (fe_db e) /\ utf8 (fe_rp e) /\ utf8_valid (precision_bytes e) = true /\ Forall byte_ok (fe_body e)) /\
  Forall (fun b : bytes => N.of_nat (length b) < two64)
    [str_bytes (fe_db e); str_bytes (fe_rp e); precision_bytes e; fe_body e].

(** Bincode reads back the entries it wrote. *)
Class ForwardCodecLaws `{ForwardCodec} :=
  forward_codec_law : forall e v, forward_ok e -> forward_serialize e = Ok v -> forward_deserialize v = Ok e.

Record ForwardQueue (DB : Type) := mkForwardQueue {
  fq_db : DB;
  fq_seq : N;
  fq_bytes : N;
  fq_state : State
}.
Arguments mkForwardQueue {DB} _ _ _ _.
Arguments fq_db {DB} _.
Arguments fq_seq {DB} _.
Arguments fq_bytes {DB} _.
Arguments fq_state {DB} _.

Definition str_len (v : string) : N := N.of_nat (String.length v).

Section ForwardQueue.
Context {DB : Type} `{CDB : !CfDb ReplCf DB} `{FC : !ForwardCodec}.

(** Rows with a key of another length and undecodable rows are skipped. *)
Fixpoint fq_scan (rows : list (result string (bytes * string))) (max_seq bytes : N) (st : State)
    : result string (N * N * State) :=
  match rows with
  | [] => Ok (max_seq, bytes, st)
  | Err e :: _ => Err e
  | Ok (k, v) :: rows' =>
    if negb (length k =? 8)%nat then fq_scan rows' max_seq bytes st
    else
      match forward_deserialize v with
      | Err _ => fq_scan rows' max_seq bytes st
      | Ok entry =>
        let seq := be_to_u64 k in
        fq_scan rows' (N.max max_seq seq) (wrapping_add bytes (str_len v))
          (fq_insert seq (mkPending (fe_enqueued_ms entry) (fe_not_before_ms entry) (str_len v)) st)
      end
  end.

Definition fq_new (d : DB) : result string (ForwardQueue DB) :=
  '(max_seq, bytes, st) ← fq_scan (cf_scan d ForwardData []) 0 0 fq_empty;
  mret (mkForwardQueue d max_seq bytes st).

Definition fq_set_state (st : State) (q : ForwardQueue DB) : ForwardQueue DB :=
  mkForwardQueue (fq_db q) (fq_seq q) (fq_bytes q) st.

Definition fq_forget (q : ForwardQueue DB) (seq : N) : ForwardQueue DB :=
  let '(st, size) := fq_remove seq (fq_state q) in
  match size with
  | Some bytes => mkForwardQueue (fq_db q) (fq_seq q) (wrapping_sub (fq_bytes q) bytes) st
  | None => fq_set_state st q
  end.

(** The sequence is taken before the write, and stays taken when it fails. *)
Definition fq_write (q : ForwardQueue DB) (done : list N) (entry : option ForwardEntry)
    : ForwardQueue DB * result string (option N) :=
  let deletes := (fun seq => DeleteCf ForwardData (u64_to_be seq)) <$> done in
  match entry with
  | None =>
    match cf_write (fq_db q) deletes with
    | Err e => (q, Err e)
    | Ok d =>
      (fold_left fq_forget done (mkForwardQueue d (fq_seq q) (fq_bytes q) (fq_state q)), Ok None)
    end
  | Some entry =>
    match forward_serialize entry with
    | Err e => (q, Err e)
    | Ok value =>
      let seq := wrapping_add (fq_seq q) 1 in
      match cf_write (fq_db q) (deletes ++ [PutCf ForwardData (u64_to_be seq) value]) with
      | Err e => (mkForwardQueue (fq_db q) seq (fq_bytes q) (fq_state q), Err e)
      | Ok d =>
        let q' := fold_left fq_forget done (mkForwardQueue d seq (fq_bytes q) (fq_state q)) in
        let p := mkPending (fe_enqueued_ms entry) (fe_not_before_ms entry) (str_len value) in
        (mkForwardQueue (fq_db q') (fq_seq q') (wrapping_add (fq_bytes q') (str_len value))
           (fq_insert seq p (fq_state q')), Ok (Some seq))
      end
    end
  end.

Definition fq_enqueue (q : ForwardQueue DB) (entry : ForwardEntry) : ForwardQueue DB * result string N :=
  let '(q', r) := fq_write q [] (Some entry) in
  (q', seq ← r; mret (default 0 seq)).

Definition fq_release (q : ForwardQueue DB) (seqs : list N) (not_before_ms : N) : ForwardQueue DB :=
  fq_set_state (fold_left (fun st seq => fq_unclaim seq not_before_ms st) seqs (fq_state q)) q.

(** The rows of a claim. A read error gives the whole claim back; an error of
    the write that drops an undecodable row leaves it claimed. *)
Fixpoint claim_rows (all seqs : list N) (out : list (N * ForwardEntry)) (q : ForwardQueue DB)
    : ForwardQueue DB * result string (list (N * ForwardEntry)) :=
  match seqs with
  | [] => (q, Ok out)
  | seq :: seqs' =>
    match cf_get (fq_db q) ForwardData (u64_to_be seq) with
    | Ok (Some v) =>
      match forward_deserialize v with
      | Ok e => claim_rows all seqs' (out ++ [(seq, e)]) q
      | Err _ =>
        let '(q', r) := fq_write q [seq] None in
        match r with
        | Ok _ => claim_rows all seqs' out q'
        | Err e => (q', Err e)
        end
      end
    | Ok None => claim_rows all seqs' out (fq_forget q seq)
    | Err e => (fq_release q all 0, Err e)
    end
  end.

Definition fq_claim (q : ForwardQueue DB) (now_ms : N) (max_entries : nat) (max_bytes : N)
    : ForwardQueue DB * result string (list (N * ForwardEntry)) :=
  let '(st, seqs) := state_claim now_ms max_entries max_bytes (fq_state q) in
  claim_rows seqs seqs [] (fq_set_state st q).

Definition fq_complete (q : ForwardQueue DB) (seqs : list N) (retry : option ForwardEntry)
    : ForwardQueue DB * result string unit :=
  let '(q', r) := fq_write q seqs retry in
  (q', _ ← r; mret tt).

Definition oldest_age_ms (q : ForwardQueue DB) (now_ms : N) : N :=
  match first_pair (st_by_age (fq_state q)) with
  | Some (t, _) => sat_sub now_ms t
  | None => 0
  end.

Definition fq_len (q : ForwardQueue DB) : nat := size (st_pending (fq_state q)).
End ForwardQueue.

(** ** Bincode's format

    Its default configuration: little-endian integers of their own width,
    lengths as [u64], one byte for the variant of an [Option]. *)
Definition bin_bytes (b : bytes) : bytes := le_bytes 8 (N.of_nat (length b)) ++ b.

Definition bin_option (o : option string) : bytes :=
  match o with Some s => 1 :: bin_bytes (str_bytes s) | None => [0] end.

Definition read_bin : Parser string bytes :=
  n ← read_le "eof" 8; read_exact "eof" (N.to_nat n).

Definition read_bin_string : Parser string string :=
  b ← read_bin; if utf8_valid b then mret (bytes_str b) else parse_fail "utf8".

Definition read_bin_option : Parser string (option string) :=
  tag ← read_exact "eof" 1;
  match tag with
  | [0] => mret None
  | [1] => s ← read_bin_string; mret (Some s)
  | _ => parse_fail "tag"
  end.

Definition read_forward : Parser string ForwardEntry :=
  db ← read_bin_string;
  rp ← read_bin_string;
  precision ← read_bin_option;
  enqueued_ms ← read_le "eof" 8;
  not_before_ms ← read_le "eof" 8;
  attempts ← read_le "eof" 4;
  body ← read_bin;
  mret (mkForward db rp precision enqueued_ms not_before_ms attempts body).

Definition forward_bytes (e : ForwardEntry) : bytes :=
  bin_bytes (str_bytes (fe_db e)) ++ bin_bytes (str_bytes (fe_rp e)) ++ bin_option (fe_precision e)
  ++ le_bytes 8 (fe_enqueued_ms e) ++ le_bytes 8 (fe_not_before_ms e) ++ le_bytes 4 (fe_attempts e)
  ++ bin_bytes (fe_body e).

#[export] Instance bincode_forward : ForwardCodec := {
  forward_serialize e := Ok (bytes_str (forward_bytes e));
  forward_deserialize v := '(e, _) ← read_forward (str_bytes v); mret e
}.

Lemma reads_bin b : N.of_nat (length b) < two64 -> reads read_bin (bin_bytes b) b.
Proof.
  intros Hb. unfold read_bin, bin_bytes. eapply reads_bind; [apply reads_le; exact Hb|].
  apply reads_exact. by rewrite Nat2N.id.
Qed.

Lemma reads_bin_string s :
  utf8 s -> N.of_nat (length (str_bytes s)) < two64 -> reads read_bin_string (bin_bytes (str_bytes s)) s.
Proof.
  intros Hs Hl. unfold read_bin_string. eapply reads_bind_last; [by apply reads_bin|].
  unfold utf8 in Hs. rewrite Hs, str_bytes_str. apply reads_ret.
Qed.

Lemma reads_bin_option o :
  let b := match o with Some s => str_bytes s | None => [] end in
  utf8_valid b = true -> N.of_nat (length b) < two64 -> reads read_bin_option (bin_option o) o.
Proof.
  unfold read_bin_option. destruct o as [s|]; cbn [bin_option]; intros Hs Hl.
  - change (1 :: bin_bytes (str_bytes s)) with ([1] ++ bin_bytes (str_bytes s)).
    eapply reads_bind; [by apply reads_exact|]. cbn.
    eapply reads_bind_last; [by apply reads_bin_string|apply reads_ret].
  - eapply reads_bind_last; [by apply reads_exact|]. apply reads_ret.
Qed.

Lemma bin_bytes_ok b : Forall byte_ok b -> Forall byte_ok (bin_bytes b).
Proof. intros Hb. apply Forall_app. split; [apply le_bytes_ok|done]. Qed.

#[export] Instance bincode_forward_laws : ForwardCodecLaws.
Proof.
  intros e v ((He & Hn & Ha) & (Hdb & Hrp & Hp & Hbody) & Hlen) Hv%Ok_inj. subst v.
  rewrite !Forall_cons in Hlen. destruct Hlen as (Hl1 & Hl2 & Hl3 & Hl4 & _).
  cbn [forward_deserialize bincode_forward]. rewrite bytes_str_bytes.
  - rewrite <- (app_nil_r (forward_bytes e)).
    assert (reads read_forward (forward_bytes e) e) as Hr; [|by rewrite Hr].
    unfold read_forward, forward_bytes, u64_max, u32_max in *.
    eapply reads_bind; [by apply reads_bin_string|]. eapply reads_bind; [by apply reads_bin_string|].
    eapply reads_bind; [by apply reads_bin_option|].
    do 3 (eapply reads_bind; [apply reads_le; change (256 ^ N.of_nat 8) with 18446744073709551616;
      change (256 ^ N.of_nat 4) with 4294967296; lia|]).
    eapply reads_bind_last; [by apply reads_bin|]. destruct e. apply reads_ret.
  - unfold forward_bytes. repeat (apply Forall_app; split); auto using le_bytes_ok, bin_bytes_ok, utf8_bytes.
    destruct (fe_precision e); cbn; constructor; try done; auto using bin_bytes_ok, utf8_bytes.
Qed.
