(* ===== verification/ForwardQueueTheorems.v ===== *)
(** * Properties of the forward queue

    The queue of [ForwardQueue.v] against a map from sequences to entries:
    each entry is claimed or due from some time on. The indexes of the source
    represent the map through every sequence of enqueues, claims, completions,
    releases and restarts, so that a claim hands out what is due in sequence
    order and nothing twice, and what was not completed survives a restart. *)

From Stdlib Require Import Ascii String.
From stdpp Require Import prelude list sorting gmap fin_maps fin_map_dom fin_sets strings.
From S2P Require Import Prelude Bytes CfStore ReplicationLog ForwardQueue.
From stdpp Require Import options.

#[local] Open Scope N_scope.

(** ** The indexes *)

(** What the indexes hold of an entry; [sl_due] is [None] for a claimed one
    and otherwise the time it is due from. *)
Record Slot := mkSlot {
  sl_enqueued : N;
  sl_size : N;
  sl_due : option N
}.

Definition slot_rep (st : State) (s : N) (x : option Slot) : Prop :=
  match x with
  | None =>
    st_pending st !! s = None /\ s ∉ st_ready st /\
    (forall t, (t, s) ∉ st_delayed st) /\ (forall t, (t, s) ∉ st_by_age st)
  | Some x =>
    exists nb, st_pending st !! s = Some (mkPending (sl_enqueued x) nb (sl_size x)) /\
      (forall t, (t, s) ∈ st_by_age st <-> t = sl_enqueued x) /\
      match sl_due x with
      | None => s ∉ st_ready st /\ forall t, (t, s) ∉ st_delayed st
      | Some t =>
        (t = 0 /\ s ∈ st_ready st /\ forall t', (t', s) ∉ st_delayed st) \/
        (s ∉ st_ready st /\ nb = t /\ forall t', (t', s) ∈ st_delayed st <-> t' = t)
      end
  end.

Definition st_rep (st : State) (m : gmap N Slot) : Prop := forall s, slot_rep st s (m !! s).

Definition set_due (t : option N) (x : Slot) : Slot := mkSlot (sl_enqueued x) (sl_size x) t.

Definition is_due (now : N) (x : Slot) : bool :=
  match sl_due x with Some t => t <=? now | None => false end.

Definition wake_slot (now : N) (x : Slot) : Slot := if is_due now x then set_due (Some 0) x else x.

(** What is due, in sequence order. *)
Definition due_seqs (now : N) (m : gmap N Slot) : list N :=
  sort_by N.leb (map_to_list (filter (fun kx => is_due now kx.2 = true) m)).*1.

Definition slot_size (m : gmap N Slot) (s : N) : N :=
  match m !! s with Some x => sl_size x | None => 0 end.

(** The indexes away from a sequence are not touched. *)
Lemma slot_rep_frame st st' s x :
  st_pending st' !! s = st_pending st !! s -> (s ∈ st_ready st' <-> s ∈ st_ready st) ->
  (forall t, (t, s) ∈ st_delayed st' <-> (t, s) ∈ st_delayed st) ->
  (forall t, (t, s) ∈ st_by_age st' <-> (t, s) ∈ st_by_age st) ->
  slot_rep st s x -> slot_rep st' s x.
Proof.
  intros Hp Hr Hd Ha. destruct x as [x|]; cbn; rewrite Hp.
  - intros (nb & H1 & H2 & H3). exists nb. split; [done|]. split; [by setoid_rewrite Ha|].
    destruct (sl_due x); by setoid_rewrite Hr; setoid_rewrite Hd.
  - setoid_rewrite Hr. setoid_rewrite Hd. by setoid_rewrite Ha.
Qed.

Lemma st_rep_empty : st_rep fq_empty ∅.
Proof. intros s. rewrite lookup_empty. cbn. set_solver. Qed.

Lemma insert_rep st m s p :
  st_rep st m -> m !! s = None ->
  st_rep (fq_insert s p st)
    (<[s := mkSlot (pe_enqueued_ms p) (pe_bytes p) (Some (pe_not_before_ms p))]> m).
Proof.
  intros Hrep Hs k. destruct (decide (s = k)) as [<-|Hne].
  - rewrite lookup_insert_eq. specialize (Hrep s). rewrite Hs in Hrep. destruct Hrep as (_ & Hr & Hd & Ha).
    exists (pe_not_before_ms p). destruct p as [e nb b]. cbn in *. rewrite lookup_insert_eq.
    destruct (N.eqb_spec nb 0) as [->|Hnb]; (split; [done|]; split; [set_solver|]); [left|right]; set_solver.
  - rewrite lookup_insert_ne by done. specialize (Hrep k). revert Hrep.
    apply slot_rep_frame; cbn; [by rewrite lookup_insert_ne|..]; destruct (pe_not_before_ms p =? 0); set_solver.
Qed.

Lemma remove_rep st m s :
  st_rep st m ->
  st_rep (fst (fq_remove s st)) (delete s m) /\ snd (fq_remove s st) = sl_size <$> m !! s.
Proof.
  intros Hrep. unfold fq_remove. pose proof (Hrep s) as Hs. destruct (m !! s) as [x|] eqn:E; cbn in Hs.
  - destruct Hs as (nb & Hp & Ha & Hdue). rewrite Hp. cbn. split; [|done]. intros k.
    destruct (decide (s = k)) as [<-|Hne].
    + rewrite lookup_delete_eq. cbn. rewrite lookup_delete_eq. split; [done|].
      destruct (sl_due x) as [t|]; set_solver.
    + rewrite lookup_delete_ne by done. specialize (Hrep k). revert Hrep.
      apply slot_rep_frame; cbn; [by rewrite lookup_delete_ne|set_solver..].
  - destruct Hs as (Hp & _). rewrite Hp. cbn. split; [|done]. by rewrite delete_id.
Qed.

Lemma unclaim_rep st m s t :
  st_rep st m -> st_rep (fq_unclaim s t st) (alter (set_due (Some t)) s m).
Proof.
  intros Hrep k. unfold fq_unclaim. pose proof (Hrep s) as Hs. pose proof (Hrep k) as Hk.
  destruct (decide (s = k)) as [<-|Hne].
  - rewrite lookup_alter_eq. destruct (m !! s) as [x|] eqn:E; cbn in Hs |- *.
    + destruct Hs as (nb & Hp & Ha & Hdue). rewrite Hp. cbn. exists t. rewrite lookup_insert_eq.
      split; [done|]. split; [done|]. right. destruct (sl_due x) as [t0|]; set_solver.
    + destruct Hs as (Hp & Hr & ?). rewrite Hp. done.
  - rewrite lookup_alter_ne by done. destruct (st_pending st !! s) as [p|]; [|done]. revert Hk.
    apply slot_rep_frame; cbn; [by rewrite lookup_insert_ne|set_solver..].
Qed.

(** One pair of [delayed] becomes ready. *)
Lemma wake_one st m t s :
  st_rep st m -> (t, s) ∈ st_delayed st ->
  exists x, m !! s = Some x /\ sl_due x = Some t /\
  st_rep (mkFqState (st_pending st) (st_ready st ∪ {[ s ]}) (st_delayed st ∖ {[ (t, s) ]}) (st_by_age st))
    (<[s := set_due (Some 0) x]> m).
Proof.
  intros Hrep Hin. pose proof (Hrep s) as Hs. destruct (m !! s) as [x|] eqn:E; cbn in Hs; [|set_solver].
  destruct Hs as (nb & Hp & Ha & Hdue). exists x. split; [done|].
  destruct (sl_due x) as [t0|] eqn:Ed; [|set_solver].
  assert (t0 = t) as -> by (destruct Hdue; set_solver). split; [done|]. intros k.
  destruct (decide (s = k)) as [<-|Hne].
  - rewrite lookup_insert_eq. exists nb. cbn. split; [done|]. split; [done|]. left. set_solver.
  - rewrite lookup_insert_ne by done. specialize (Hrep k). revert Hrep.
    apply slot_rep_frame; cbn; [done|set_solver..].
Qed.

Lemma pair_leb_total a b : pair_leb a b = true \/ pair_leb b a = true.
Proof. unfold pair_leb. destruct a, b. cbn. rewrite !orb_true_iff, !andb_true_iff, !N.ltb_lt, !N.eqb_eq, !N.leb_le. lia. Qed.

Lemma pair_leb_trans a b c : pair_leb a b = true -> pair_leb b c = true -> pair_leb a c = true.
Proof.
  unfold pair_leb. destruct a, b, c. cbn.
  rewrite !orb_true_iff, !andb_true_iff, !N.ltb_lt, !N.eqb_eq, !N.leb_le. lia.
Qed.

Lemma first_pair_spec (s : gset (N * N)) :
  match first_pair s with
  | Some x => x ∈ s /\ forall y, y ∈ s -> x.1 <= y.1
  | None => s = ∅
  end.
Proof.
  unfold first_pair. pose proof (sort_by_sorted pair_leb pair_leb_total pair_leb_trans (elements s)) as Hs.
  assert (forall y, y ∈ s <-> y ∈ sort_by pair_leb (elements s)) as Hin
    by (intros y; by rewrite sort_by_elem_of, elem_of_elements).
  destruct (sort_by pair_leb (elements s)) as [|x l]; cbn.
  - apply set_eq. intros y. rewrite Hin. set_solver.
  - split; [apply Hin; by left|]. intros y [->|Hy]%Hin%elem_of_cons; [done|].
    apply StronglySorted_inv in Hs as [_ Hx]. rewrite Forall_forall in Hx. specialize (Hx _ Hy).
    unfold le_of, pair_leb in Hx. apply orb_true_iff in Hx as [Hx|Hx]; reflect_bools; lia.
Qed.

Lemma wake_slot_insert now (m : gmap N Slot) s x :
  m !! s = Some x -> is_due now x = true ->
  wake_slot now <$> <[s := set_due (Some 0) x]> m = wake_slot now <$> m.
Proof.
  intros Hs Hd. apply map_eq. intros k. rewrite !lookup_fmap. destruct (decide (s = k)) as [<-|Hne].
  - assert (is_due now (set_due (Some 0) x) = true) as H0 by (apply N.leb_le; lia).
    rewrite lookup_insert_eq, Hs. unfold fmap, option_fmap, option_map, wake_slot. by rewrite Hd, H0.
  - by rewrite lookup_insert_ne.
Qed.

Lemma wake_rep fuel now st (m : gmap N Slot) :
  st_rep st m -> (size (st_delayed st) <= fuel)%nat ->
  st_rep (fq_wake fuel now st) (wake_slot now <$> m) /\
  forall t s, (t, s) ∈ st_delayed (fq_wake fuel now st) -> now < t.
Proof.
  assert (forall st m, st_rep st m -> (forall t s, (t, s) ∈ st_delayed st -> now < t) ->
    st_rep st (wake_slot now <$> m)) as Hbase.
  { intros st0 m0 Hrep Hd s. rewrite lookup_fmap. specialize (Hrep s). destruct (m0 !! s) as [x|]; [|done].
    cbn. unfold wake_slot. destruct (is_due now x) eqn:Ei; [|done]. unfold is_due in Ei. cbn in Hrep.
    destruct Hrep as (nb & Hp & Ha & Hdue). destruct (sl_due x) as [t|] eqn:Ed; [|done]. exists nb.
    split; [done|]. split; [done|]. cbn. left. reflect_bools.
    destruct Hdue as [(-> & Hr & Hn)|(Hr & -> & Hn)]; [done|].
    specialize (Hd t s (proj2 (Hn t) eq_refl)). lia. }
  revert st m. induction fuel as [|fuel IH]; intros st m Hrep Hf; cbn [fq_wake].
  - assert (st_delayed st = ∅) as He by (apply leibniz_equiv, size_empty_inv; lia).
    rewrite He. split; [|set_solver]. apply Hbase; [done|]. rewrite He. set_solver.
  - pose proof (first_pair_spec (st_delayed st)) as Hfirst.
    destruct (first_pair (st_delayed st)) as [[t s]|]; cbn in Hfirst.
    + destruct Hfirst as [Hin Hmin]. destruct (now <? t) eqn:Et; reflect_bools.
      * assert (forall t0 s0, (t0, s0) ∈ st_delayed st -> now < t0) as Hall.
        { intros t0 s0 H0. specialize (Hmin _ H0). cbn in Hmin. lia. }
        split; [by apply Hbase|done].
      * destruct (wake_one _ _ _ _ Hrep Hin) as (x & Hx & Hdue & Hrep').
        rewrite <- (wake_slot_insert now m s x Hx) by (unfold is_due; rewrite Hdue; by apply N.leb_le).
        apply IH; [done|]. cbn. rewrite size_difference by set_solver. rewrite size_singleton. lia.
    + rewrite Hfirst. split; [|set_solver]. apply Hbase; [done|]. rewrite Hfirst. set_solver.
Qed.

(** After waking, [ready] is exactly what is due. *)
Lemma ready_due now st m s :
  st_rep st m -> (forall t s, (t, s) ∈ st_delayed st -> now < t) ->
  s ∈ st_ready st <-> exists x, m !! s = Some x /\ is_due now x = true.
Proof.
  intros Hrep Hd. specialize (Hrep s). destruct (m !! s) as [x|]; cbn in Hrep; [|set_solver].
  destruct Hrep as (nb & Hp & Ha & Hdue). unfold is_due. destruct (sl_due x) as [t|] eqn:Et.
  - destruct Hdue as [(-> & Hr & Hn)|(Hr & -> & Hn)].
    + split; [|done]. intros _. exists x. rewrite Et. split; [done|]. apply N.leb_le. lia.
    + split; [done|]. intros (y & [= <-] & Hy). rewrite Et in Hy. reflect_bools.
      specialize (Hd t s (proj2 (Hn t) eq_refl)). lia.
  - split; [set_solver|]. intros (y & [= <-] & Hy). by rewrite Et in Hy.
Qed.

Lemma due_seqs_elem now m s : s ∈ due_seqs now m <-> exists x, m !! s = Some x /\ is_due now x = true.
Proof.
  unfold due_seqs. rewrite sort_by_elem_of, list_elem_of_fmap. split.
  - intros ([s' x] & -> & [H1 H2]%elem_of_map_to_list%map_lookup_filter_Some). eauto.
  - intros (x & H1 & H2). exists (s, x). split; [done|].
    by apply elem_of_map_to_list, map_lookup_filter_Some.
Qed.

Lemma due_seqs_NoDup now m : NoDup (due_seqs now m).
Proof. unfold due_seqs. rewrite sort_by_Permutation. apply NoDup_fst_map_to_list. Qed.

Lemma nleb_total (x y : N) : (x <=? y) = true \/ (y <=? x) = true.
Proof. rewrite !N.leb_le. lia. Qed.

Lemma nleb_trans (x y z : N) : (x <=? y) = true -> (y <=? z) = true -> (x <=? z) = true.
Proof. rewrite !N.leb_le. lia. Qed.

Lemma ready_sorted now st m :
  st_rep st m -> (forall t s, (t, s) ∈ st_delayed st -> now < t) ->
  sort_by N.leb (elements (st_ready st)) = due_seqs now m.
Proof.
  intros Hrep Hd. unfold due_seqs.
  apply sort_by_unique; [exact nleb_total|exact nleb_trans|intros x y; rewrite !N.leb_le; lia|].
  apply NoDup_Permutation; [apply NoDup_elements|apply NoDup_fst_map_to_list|].
  intros s. rewrite elem_of_elements, (ready_due now st m s Hrep Hd), <- due_seqs_elem.
  unfold due_seqs. by rewrite sort_by_elem_of.
Qed.

(** *** Claims *)

Definition sum_sizes (size : N -> N) (l : list N) : N := foldr (fun s acc => size s + acc) 0 l.

Lemma sum_sizes_app size l1 l2 : sum_sizes size (l1 ++ l2) = sum_sizes size l1 + sum_sizes size l2.
Proof. unfold sum_sizes. induction l1 as [|x l1 IH]; cbn [app foldr]; [lia|]. rewrite IH. lia. Qed.

Lemma pick_ready_ext f g n b l picked total :
  (forall s, f s = g s) -> pick_ready f n b l picked total = pick_ready g n b l picked total.
Proof.
  intros Hfg. revert picked total. induction l as [|s l IH]; intros picked total; [done|].
  cbn [pick_ready]. rewrite Hfg. by rewrite IH.
Qed.

(** The pick is a prefix within both limits, except that one entry may be
    larger than [max_bytes], and the next entry does not fit. *)
Lemma pick_ready_spec size n b l picked :
  (length picked <= n)%nat -> ((length picked <= 1)%nat \/ sum_sizes size picked <= b) ->
  exists k, pick_ready size n b l picked (sum_sizes size picked) = picked ++ take k l /\
    (length (picked ++ take k l) <= n)%nat /\
    ((length (picked ++ take k l) <= 1)%nat \/ sum_sizes size (picked ++ take k l) <= b) /\
    (forall s, l !! k = Some s -> length (picked ++ take k l) = n \/
       picked ++ take k l <> [] /\ b < sum_sizes size (picked ++ take k l) + size s).
Proof.
  revert picked. induction l as [|s l IH]; intros picked Hn Hb; cbn [pick_ready].
  { exists O. rewrite app_nil_r. done. }
  destruct (Nat.leb_spec n (length picked)) as [Hge|Hlt].
  { exists O. cbn [take]. rewrite app_nil_r. split_and!; try done. intros s' _. left. lia. }
  destruct (negb _ && _) eqn:Ec; reflect_bools.
  { exists O. cbn [take]. rewrite app_nil_r. split_and!; try done. intros s' [= <-]. by right. }
  destruct (IH (picked ++ [s])) as (k & Hr & Hlen & Hsum & Hnext).
  - rewrite length_app. cbn. lia.
  - rewrite length_app, sum_sizes_app. cbn. apply andb_false_iff in Ec as [Ec|Ec]; reflect_bools.
    + left. rewrite Ec. cbn. lia.
    + right. lia.
  - exists (S k). rewrite sum_sizes_app in Hr. cbn in Hr. rewrite N.add_0_r in Hr.
    rewrite <- app_assoc in *. cbn [take app lookup list_lookup] in *. done.
Qed.

(** Claimed slots. *)
Definition claim_slots {X} (f : X -> X) (picked : list N) (m : gmap N X) : gmap N X :=
  map_imap (fun s x => Some (if bool_decide (s ∈ picked) then f x else x)) m.

Lemma claim_slots_lookup {X} (f : X -> X) picked (m : gmap N X) s :
  claim_slots f picked m !! s = (fun x => if bool_decide (s ∈ picked) then f x else x) <$> m !! s.
Proof. unfold claim_slots. rewrite map_lookup_imap. by destruct (m !! s). Qed.

Lemma wake_slot_due now x : is_due now (wake_slot now x) = is_due now x.
Proof.
  unfold wake_slot. destruct (is_due now x) eqn:E; [|done]. unfold is_due. cbn. apply N.leb_le. lia.
Qed.

Lemma due_seqs_wake now (m : gmap N Slot) : due_seqs now (wake_slot now <$> m) = due_seqs now m.
Proof.
  unfold due_seqs. apply sort_by_unique; [exact nleb_total|exact nleb_trans|intros x y; rewrite !N.leb_le; lia|].
  apply NoDup_Permutation; [apply NoDup_fst_map_to_list..|]. intros s.
  rewrite <- (sort_by_elem_of N.leb s), <- (sort_by_elem_of N.leb s (map_to_list (filter _ m)).*1).
  change (s ∈ due_seqs now (wake_slot now <$> m) <-> s ∈ due_seqs now m). rewrite !due_seqs_elem.
  rewrite lookup_fmap. split.
  - intros (x & Hx & Hd). apply fmap_Some in Hx as (y & Hy & ->). rewrite wake_slot_due in Hd. eauto.
  - intros (x & -> & Hd). exists (wake_slot now x). by rewrite wake_slot_due.
Qed.

Lemma claim_rep st m now n b st' picked :
  st_rep st m -> state_claim now n b st = (st', picked) ->
  picked = pick_ready (slot_size m) n b (due_seqs now m) [] 0 /\
  st_rep st' (claim_slots (set_due None) picked (wake_slot now <$> m)).
Proof.
  intros Hrep E. unfold state_claim in E.
  destruct (wake_rep (size (st_delayed st)) now st m Hrep (le_n _)) as [Hw Hd].
  set (st1 := fq_wake (size (st_delayed st)) now st) in *.
  rewrite (ready_sorted now st1 _ Hw Hd), due_seqs_wake in E.
  assert (forall s, pending_size st1 s = slot_size m s) as Hsz.
  { intros s. specialize (Hw s). unfold pending_size, slot_size. rewrite lookup_fmap in Hw.
    destruct (m !! s) as [x|]; cbn in Hw; [|by destruct Hw as (-> & _)].
    destruct Hw as (nb & -> & _). cbn. unfold wake_slot. by destruct (is_due now x). }
  rewrite (pick_ready_ext _ _ _ _ _ _ _ Hsz) in E.
  set (pk := pick_ready _ _ _ _ _ _) in *. injection E as <- <-. split; [done|]. intros s.
  rewrite claim_slots_lookup. specialize (Hw s) as Hs. case_bool_decide as Hin.
  - assert (s ∈ due_seqs now m) as Hdue.
    { destruct (pick_ready_spec (slot_size m) n b (due_seqs now m) []) as (k & Hpk & _); [cbn; lia|by left; cbn; lia|].
      cbn in Hpk. unfold pk in Hin. rewrite Hpk in Hin. eapply elem_of_take in Hin as (i & Hi & _).
      by eapply list_elem_of_lookup_2. }
    rewrite <- due_seqs_wake in Hdue. apply due_seqs_elem in Hdue as (x & Hx & Hxd). rewrite Hx in Hs |- *.
    cbn in Hs |- *. destruct Hs as (nb & Hp & Ha & Hst). exists nb. split_and!; try done; [|].
    + apply not_elem_of_difference. right. by apply elem_of_list_to_set.
    + intros t Ht. specialize (Hd t s Ht). unfold is_due in Hxd. destruct (sl_due x) as [t0|]; [|done].
      reflect_bools. destruct Hst as [(_ & _ & Hn)|(_ & -> & Hn)]; [by apply (Hn t)|]. apply Hn in Ht. lia.
  - match goal with |- slot_rep _ _ ?y =>
      assert (y = (wake_slot now <$> m) !! s) as -> by (by destruct ((wake_slot now <$> m) !! s)) end.
    revert Hs. apply slot_rep_frame; cbn; [done| |done|done].
    rewrite elem_of_difference, elem_of_list_to_set. naive_solver.
Qed.

Lemma wrapping_sub_mod a b : b <= a -> wrapping_sub (a mod two64) b = (a - b) mod two64.
Proof.
  intros Hb. unfold wrapping_sub. assert (two64 <> 0) as Hz by done.
  pose proof (N.div_mod a two64 Hz) as Ha. pose proof (N.div_mod b two64 Hz) as Hbm.
  pose proof (N.mod_lt a two64 Hz). pose proof (N.mod_lt b two64 Hz).
  set (qa := a / two64) in *. set (qb := b / two64) in *. set (ra := a mod two64) in *. set (rb := b mod two64) in *.
  destruct (N.le_gt_cases rb ra).
  - assert (qb <= qa) by nia. replace (ra + (two64 - rb)) with ((ra - rb) + 1 * two64) by lia.
    replace (a - b) with ((ra - rb) + (qa - qb) * two64) by nia. by rewrite !N.Div0.mod_add.
  - assert (qb + 1 <= qa) by nia.
    replace (a - b) with ((ra + (two64 - rb)) + (qa - qb - 1) * two64) by nia. by rewrite N.Div0.mod_add.
Qed.

(** Several entries forgotten. *)
Definition delete_all {X} (seqs : list N) (m : gmap N X) : gmap N X :=
  fold_left (fun m s => delete s m) seqs m.

Lemma delete_all_lookup {X} seqs (m : gmap N X) s :
  delete_all seqs m !! s = if decide (s ∈ seqs) then None else m !! s.
Proof.
  unfold delete_all. revert m. induction seqs as [|s0 seqs IH]; intros m; cbn; [done|]. rewrite IH.
  destruct (decide (s0 = s)) as [->|Hne].
  - rewrite lookup_delete_eq. destruct (decide (s ∈ seqs)); by rewrite decide_True by (by left).
  - rewrite lookup_delete_ne by done. do 2 case_decide; try done; set_solver.
Qed.

(** ** The queue *)

Section Queue.
Context {DB : Type} `{CL : CfDbLaws ReplCf DB} `{FC : !ForwardCodec}.

(** The stored entries; claimed ones have no time. *)
#[local] Abbreviation stored := (gmap N (ForwardEntry * option N)).

Definition forward_size (e : ForwardEntry) : N :=
  match forward_serialize e with Ok v => str_len v | Err _ => 0 end.

Definition slot_of (x : ForwardEntry * option N) : Slot :=
  mkSlot (fe_enqueued_ms x.1) (forward_size x.1) x.2.

Definition total_size (m : stored) : N := map_fold (fun _ x acc => forward_size x.1 + acc) 0 m.

Definition mem_rep (q : ForwardQueue DB) (m : stored) : Prop :=
  st_rep (fq_state q) (slot_of <$> m) /\ fq_bytes q = total_size m mod two64.

Definition disk_rep (rows : gmap bytes string) (seq : N) (m : stored) : Prop :=
  (forall k v, rows !! k = Some v -> exists s, s <= u64_max /\ k = u64_to_be s /\ is_Some (m !! s)) /\
  (forall s e o, m !! s = Some (e, o) ->
     s <= seq /\ forward_ok e /\ exists v, forward_serialize e = Ok v /\ rows !! u64_to_be s = Some v).

Definition fq_rep (q : ForwardQueue DB) (m : stored) : Prop :=
  fq_seq q <= u64_max /\ mem_rep q m /\ disk_rep (cf_rows (fq_db q) ForwardData) (fq_seq q) m.

Lemma total_size_insert (m : stored) s x : m !! s = None -> total_size (<[s := x]> m) = forward_size x.1 + total_size m.
Proof. intros Hs. unfold total_size. rewrite map_fold_insert_L; [done|intros; lia|done]. Qed.

Lemma total_size_delete (m : stored) s x : m !! s = Some x -> total_size m = forward_size x.1 + total_size (delete s m).
Proof. intros Hs. unfold total_size. rewrite (map_fold_delete_L _ _ s x m); [done|intros; lia|done]. Qed.

(** The due times do not matter for the size. *)
Lemma total_size_ext (m m' : stored) :
  (forall s, fst <$> m' !! s = fst <$> m !! s) -> total_size m' = total_size m.
Proof.
  revert m'. induction m as [|s x m Hs IH] using map_ind; intros m' Hm.
  - replace m' with (∅ : stored); [done|]. symmetry. apply map_empty. intros s. specialize (Hm s).
    rewrite lookup_empty in Hm. by destruct (m' !! s).
  - specialize (Hm s) as Hms. rewrite lookup_insert_eq in Hms. destruct (m' !! s) as [y|] eqn:Ey; [|done].
    cbn in Hms. injection Hms as Hms. rewrite (total_size_delete m' s y), total_size_insert, Hms by done. f_equal.
    apply IH. intros s'. destruct (decide (s = s')) as [<-|Hne].
    + by rewrite lookup_delete_eq, Hs.
    + specialize (Hm s'). by rewrite lookup_insert_ne, lookup_delete_ne in * by done.
Qed.

Lemma forget_rep q m s :
  mem_rep q m -> mem_rep (fq_forget q s) (delete s m) /\
  fq_db (fq_forget q s) = fq_db q /\ fq_seq (fq_forget q s) = fq_seq q.
Proof.
  intros [Hst Hb]. unfold fq_forget. destruct (remove_rep _ _ s Hst) as [Hr Hsz].
  destruct (fq_remove s (fq_state q)) as [st r]. cbn in Hr, Hsz. rewrite <- fmap_delete in Hr.
  rewrite lookup_fmap in Hsz. destruct (m !! s) as [x|] eqn:E; cbn in Hsz; subst r; cbn.
  - split; [|done]. split; [done|]. cbn. pose proof (total_size_delete m s x E) as Ht. rewrite Hb.
    rewrite wrapping_sub_mod by lia. f_equal. lia.
  - split; [|done]. split; [done|]. cbn. by rewrite delete_id.
Qed.

Lemma forget_all_rep done q m :
  mem_rep q m -> mem_rep (fold_left fq_forget done q) (delete_all done m) /\
  fq_db (fold_left fq_forget done q) = fq_db q /\ fq_seq (fold_left fq_forget done q) = fq_seq q.
Proof.
  unfold delete_all. revert q m. induction done as [|s done IH]; intros q m Hm; cbn [fold_left]; [done|].
  destruct (forget_rep q m s Hm) as (Hm1 & Hd & Hs). destruct (IH _ _ Hm1) as (H1 & H2 & H3).
  split; [done|]. by rewrite H2, H3.
Qed.

Lemma deletes_disk rows rows' seq m done :
  rows' = fold_left (apply_cf_op ForwardData) ((fun s => DeleteCf ForwardData (u64_to_be s)) <$> done) rows ->
  Forall (fun s => s <= u64_max) done -> seq <= u64_max ->
  disk_rep rows seq m -> disk_rep rows' seq (delete_all done m).
Proof.
  intros Hrows Hdone Hseq [Hk Hm].
  assert (((fun s => DeleteCf ForwardData (u64_to_be s)) <$> done) = DeleteCf ForwardData <$> (u64_to_be <$> done)) as Hops
    by (by rewrite <- list_fmap_compose).
  rewrite Hops in Hrows. split.
  - intros k v. rewrite Hrows, deletes_rows. case_decide as Hin; [done|]. intros Hv.
    destruct (Hk k v Hv) as (s & Hs & -> & Hsome). exists s. split_and!; try done.
    rewrite delete_all_lookup, decide_False; [done|]. intros Hs'. apply Hin. by apply list_elem_of_fmap_2.
  - intros s e o. rewrite delete_all_lookup. case_decide as Hin; [done|]. intros Hs.
    destruct (Hm s e o Hs) as (Hle & Hok & v & Hv & Hrow). split_and!; try done. exists v. split; [done|].
    rewrite Hrows, deletes_rows, decide_False; [done|].
    intros (s' & Heq & Hs')%list_elem_of_fmap. rewrite Forall_forall in Hdone. specialize (Hdone _ Hs').
    apply u64_to_be_inj in Heq as ->; [done|lia|lia].
Qed.

Lemma put_disk rows seq m s e v :
  seq < s -> s <= u64_max -> forward_ok e -> forward_serialize e = Ok v -> forall o,
  disk_rep rows seq m -> disk_rep (<[u64_to_be s := v]> rows) s (<[s := (e, o)]> m).
Proof.
  intros Hlt Hs He Hv o [Hk Hm]. split.
  - intros k w. destruct (decide (u64_to_be s = k)) as [<-|Hne].
    + intros _. exists s. rewrite lookup_insert_eq. eauto.
    + rewrite lookup_insert_ne by done. intros Hw. destruct (Hk k w Hw) as (s' & Hs' & -> & Hsome). exists s'.
      split_and!; try done. by rewrite lookup_insert_ne by (intros ->; done).
  - intros s' e' o'. destruct (decide (s = s')) as [<-|Hne].
    + rewrite lookup_insert_eq. intros [= <- <-]. split_and!; try done. exists v. by rewrite lookup_insert_eq.
    + rewrite lookup_insert_ne by done. intros Hx. destruct (Hm s' e' o' Hx) as (Hle & Hok & w & Hw & Hrow).
      split_and!; [lia|done|]. exists w. split; [done|]. rewrite lookup_insert_ne; [done|].
      intros Heq. apply u64_to_be_inj in Heq; [done|lia|lia].
Qed.

Lemma rep_fresh q m s : disk_rep (cf_rows (fq_db q) ForwardData) (fq_seq q) m -> fq_seq q < s -> m !! s = None.
Proof. intros [_ Hm] Hlt. destruct (m !! s) as [[e o]|] eqn:E; [|done]. destruct (Hm _ _ _ E). lia. Qed.

Lemma disk_le (rows : gmap bytes string) seq seq' (m : stored) :
  disk_rep rows seq m -> seq <= seq' -> disk_rep rows seq' m.
Proof.
  intros [Hk Hm] Hle. split; [done|]. intros s e o Hs. destruct (Hm s e o Hs) as (? & ?). split; [lia|done].
Qed.

Lemma write_rep q m done entry q' r :
  fq_write q done entry = (q', r) -> fq_rep q m -> fq_seq q < u64_max ->
  Forall (fun s => s <= u64_max) done -> (forall e, entry = Some e -> forward_ok e) ->
  match r with
  | Ok s =>
    fq_rep q' (match entry with
               | Some e => <[fq_seq q + 1 := (e, Some (fe_not_before_ms e))]> (delete_all done m)
               | None => delete_all done m
               end) /\ s = match entry with Some _ => Some (fq_seq q + 1) | None => None end
  | Err _ => fq_rep q' m
  end /\ fq_seq q' <= fq_seq q + 1.
Proof.
  intros E Hrep Hlt Hdone Hok. pose proof Hrep as (Hseq & Hmem & Hdisk). unfold fq_write in E. destruct entry as [e|].
  - destruct (forward_serialize e) as [v|err] eqn:Ev; [|injection E as <- <-; split; [exact Hrep|lia]].
    rewrite wrapping_add_small in E by lia.
    destruct (cf_write (fq_db q) _) as [d|err] eqn:Ew; injection E as <- <-; cbn.
    2: { split; [|lia]. split; [cbn; lia|]. split; [done|]. cbn. apply (disk_le _ (fq_seq q)); [done|lia]. }
    pose proof (cf_write_law _ _ _ Ew ForwardData) as Hrows. rewrite fold_left_app in Hrows. cbn [fold_left] in Hrows.
    rewrite apply_put_eq in Hrows.
    destruct (forget_all_rep done (mkForwardQueue d (fq_seq q + 1) (fq_bytes q) (fq_state q)) m Hmem) as ([Hst Hb] & Hd & Hs).
    cbn in Hd, Hs. rewrite Hs, Hd. split; [|lia]. split; [|done].
    pose proof (deletes_disk _ _ _ _ done eq_refl Hdone Hseq Hdisk) as Hdisk'.
    assert (delete_all done m !! (fq_seq q + 1) = None) as Hfresh.
    { rewrite delete_all_lookup. case_decide; [done|]. eapply rep_fresh; [done|lia]. }
    split; [cbn; lia|]. split; [split|].
    + cbn. rewrite fmap_insert. unfold slot_of at 1. cbn. unfold forward_size. rewrite Ev.
      apply (insert_rep _ _ _ (mkPending (fe_enqueued_ms e) (fe_not_before_ms e) (str_len v))); [done|].
      by rewrite lookup_fmap, Hfresh.
    + cbn. rewrite total_size_insert by done. cbn. unfold forward_size. rewrite Ev, Hb. unfold wrapping_add.
      rewrite N.Div0.add_mod_idemp_l. f_equal. lia.
    + cbn. rewrite Hrows. apply (put_disk _ (fq_seq q)); try done; [lia|lia|by apply Hok].
  - destruct (cf_write (fq_db q) _) as [d|err] eqn:Ew; injection E as <- <-; [|split; [exact Hrep|lia]].
    pose proof (cf_write_law _ _ _ Ew ForwardData) as Hrows.
    destruct (forget_all_rep done (mkForwardQueue d (fq_seq q) (fq_bytes q) (fq_state q)) m Hmem) as (Hm & Hd & Hs).
    cbn in Hd, Hs. split; [|rewrite Hs; lia]. split; [|done]. split; [by rewrite Hs|]. split; [done|].
    rewrite Hd, Hs. by eapply deletes_disk.
Qed.

(** Released entries are due from [t]. *)
Definition release_all (t : N) (seqs : list N) (m : stored) : stored :=
  fold_left (fun m s => alter (fun x => (x.1, Some t)) s m) seqs m.

Lemma release_all_fst t seqs m s : fst <$> release_all t seqs m !! s = fst <$> m !! s.
Proof.
  unfold release_all. revert m. induction seqs as [|s0 seqs IH]; intros m; [done|]. cbn [fold_left]. rewrite IH.
  destruct (decide (s0 = s)) as [->|Hne]; [rewrite lookup_alter_eq; by destruct (m !! s)|by rewrite lookup_alter_ne].
Qed.

(** A change of due times keeps the rows. *)
Lemma disk_ext (rows : gmap bytes string) seq (m m' : stored) :
  (forall s, fst <$> m' !! s = fst <$> m !! s) -> disk_rep rows seq m -> disk_rep rows seq m'.
Proof.
  intros He [Hk Hm]. split.
  - intros k v Hv. destruct (Hk k v Hv) as (s & Hs & -> & x & Hx). exists s. split_and!; try done.
    specialize (He s). rewrite Hx in He. destruct (m' !! s); [by eexists|done].
  - intros s e o Hs. specialize (He s). rewrite Hs in He. destruct (m !! s) as [[e' o']|] eqn:E; [|done].
    cbn in He. injection He as <-. by eapply Hm.
Qed.

Lemma release_state t seqs st (m : stored) :
  st_rep st (slot_of <$> m) ->
  st_rep (fold_left (fun st s => fq_unclaim s t st) seqs st) (slot_of <$> release_all t seqs m).
Proof.
  unfold release_all. revert st m. induction seqs as [|s seqs IH]; intros st m Hst; [done|]. cbn [fold_left].
  apply IH. pose proof (unclaim_rep _ _ s t Hst) as Hu.
  replace (slot_of <$> alter (fun x => (x.1, Some t)) s m) with (alter (set_due (Some t)) s (slot_of <$> m)); [done|].
  apply map_eq. intros k. rewrite lookup_fmap. destruct (decide (s = k)) as [<-|Hne].
  - rewrite !lookup_alter_eq, lookup_fmap. by destruct (m !! s).
  - by rewrite !lookup_alter_ne, lookup_fmap.
Qed.

Lemma release_rep q m seqs t : fq_rep q m -> fq_rep (fq_release q seqs t) (release_all t seqs m).
Proof.
  intros (Hseq & [Hst Hb] & Hdisk). split; [done|]. split; [split|].
  - by apply release_state.
  - cbn. rewrite Hb. f_equal. symmetry. apply total_size_ext, release_all_fst.
  - by eapply disk_ext; [apply release_all_fst|].
Qed.

(** *** Claims *)

Context {FL : ForwardCodecLaws}.

Definition wake_entry (now : N) (x : ForwardEntry * option N) : ForwardEntry * option N :=
  if is_due now (slot_of x) then (x.1, Some 0) else x.

(** The sequences a claim takes. *)
Definition picked_seqs (m : stored) (now : N) (n : nat) (b : N) : list N :=
  pick_ready (slot_size (slot_of <$> m)) n b (due_seqs now (slot_of <$> m)) [] 0.

Definition claimed_map (m : stored) (now : N) (n : nat) (b : N) : stored :=
  claim_slots (fun x => (x.1, None)) (picked_seqs m now n b) (wake_entry now <$> m).

Definition entries_of (m : stored) (seqs : list N) : list (N * ForwardEntry) :=
  omap (fun s => (fun x => (s, x.1)) <$> m !! s) seqs.

Lemma claimed_map_fst m now n b s : fst <$> claimed_map m now n b !! s = fst <$> m !! s.
Proof.
  unfold claimed_map. rewrite claim_slots_lookup, lookup_fmap. destruct (m !! s) as [x|]; [|done]. cbn.
  unfold wake_entry. by case_bool_decide; destruct (is_due now (slot_of x)).
Qed.

Lemma slots_claimed m now n b :
  slot_of <$> claimed_map m now n b
  = claim_slots (set_due None) (picked_seqs m now n b) (wake_slot now <$> (slot_of <$> m)).
Proof.
  apply map_eq. intros s. unfold claimed_map. rewrite claim_slots_lookup, !lookup_fmap, claim_slots_lookup, lookup_fmap.
  destruct (m !! s) as [x|]; [|done]. cbn. unfold wake_entry, wake_slot.
  case_bool_decide; by destruct (is_due now (slot_of x)).
Qed.

Lemma claim_rows_ok all seqs out q m :
  fq_rep q m -> (forall s, s ∈ seqs -> is_Some (m !! s)) ->
  claim_rows all seqs out q = (q, Ok (out ++ entries_of m seqs)).
Proof using Type FL.
  intros Hrep. pose proof Hrep as (_ & _ & _ & Hm). revert out.
  induction seqs as [|s seqs IH]; intros out Hall; cbn [claim_rows].
  { by rewrite app_nil_r. }
  destruct (Hall s ltac:(by left)) as [[e o] Hs]. destruct (Hm s e o Hs) as (_ & Hok & v & Hv & Hrow).
  rewrite cf_get_law, Hrow, (forward_codec_law e v Hok Hv), IH by (intros; apply Hall; by right).
  unfold entries_of. cbn. rewrite Hs. cbn. by rewrite <- app_assoc.
Qed.

Lemma picked_due m now n b :
  exists k, picked_seqs m now n b = take k (due_seqs now (slot_of <$> m)) /\
    (length (picked_seqs m now n b) <= n)%nat /\
    ((length (picked_seqs m now n b) <= 1)%nat \/
     sum_sizes (slot_size (slot_of <$> m)) (picked_seqs m now n b) <= b) /\
    (forall s, due_seqs now (slot_of <$> m) !! k = Some s -> length (picked_seqs m now n b) = n \/
       picked_seqs m now n b <> [] /\
       b < sum_sizes (slot_size (slot_of <$> m)) (picked_seqs m now n b) + slot_size (slot_of <$> m) s).
Proof.
  unfold picked_seqs.
  destruct (pick_ready_spec (slot_size (slot_of <$> m)) n b (due_seqs now (slot_of <$> m)) []) as (k & Hk & H1 & H2 & H3).
  - cbn. lia.
  - left. cbn. lia.
  - exists k. cbn in Hk. rewrite Hk. done.
Qed.

Lemma picked_stored m now n b s :
  s ∈ picked_seqs m now n b -> exists e t, m !! s = Some (e, Some t) /\ t <= now.
Proof.
  destruct (picked_due m now n b) as (k & -> & _). intros (i & Hi & _)%elem_of_take.
  apply list_elem_of_lookup_2 in Hi. apply due_seqs_elem in Hi as (x & Hx & Hd). rewrite lookup_fmap in Hx.
  destruct (m !! s) as [[e o]|]; [|done]. cbn in Hx. injection Hx as <-. unfold is_due in Hd. cbn in Hd.
  destruct o as [t|]; [|done]. exists e, t. split; [done|]. by apply N.leb_le.
Qed.

Lemma queue_claim_rep q m now n b :
  fq_rep q m ->
  snd (fq_claim q now n b) = Ok (entries_of m (picked_seqs m now n b)) /\
  fq_rep (fst (fq_claim q now n b)) (claimed_map m now n b) /\
  fq_seq (fst (fq_claim q now n b)) = fq_seq q.
Proof using Type FL.
  intros Hrep. pose proof Hrep as (Hseq & [Hst Hb] & Hdisk). unfold fq_claim.
  destruct (state_claim now n b (fq_state q)) as [st seqs] eqn:E.
  destruct (claim_rep _ _ _ _ _ _ _ Hst E) as [Hpick Hst']. fold (picked_seqs m now n b) in Hpick. subst seqs.
  rewrite <- slots_claimed in Hst'.
  assert (fq_rep (fq_set_state st q) (claimed_map m now n b)) as Hrep'.
  { split; [done|]. split; [split|]; [done| |].
    - cbn. rewrite Hb. f_equal. symmetry. apply total_size_ext, claimed_map_fst.
    - cbn. by eapply disk_ext; [apply claimed_map_fst|]. }
  rewrite (claim_rows_ok _ _ _ _ _ Hrep').
  - cbn. split; [|done]. f_equal. unfold entries_of. apply list_omap_ext. apply Forall_Forall2_diag, Forall_true.
    intros s. pose proof (claimed_map_fst m now n b s) as Hf.
    destruct (claimed_map m now n b !! s), (m !! s); cbn in *; congruence.
  - intros s (e & t & Hs & _)%picked_stored. pose proof (claimed_map_fst m now n b s) as Hf. rewrite Hs in Hf.
    destruct (claimed_map m now n b !! s); [by eexists|done].
Qed.

(** *** Restarts *)

(** Claims and releases are forgotten; what is due is read from the entries. *)
Definition restart_map (m : stored) : stored := (fun x => (x.1, Some (fe_not_before_ms x.1))) <$> m.

Definition good_row (kv : bytes * string) : Prop :=
  exists s e, s <= u64_max /\ kv.1 = u64_to_be s /\ forward_ok e /\ forward_serialize e = Ok kv.2.

Lemma scan_rep l mx b st (B : stored) :
  Forall good_row l -> NoDup l.*1 ->
  (forall s v, (u64_to_be s, v) ∈ l -> s <= u64_max -> B !! s = None) ->
  st_rep st (slot_of <$> B) -> b = total_size B mod two64 -> mx <= u64_max ->
  exists mx' b' st' B', fq_scan (Ok <$> l) mx b st = Ok (mx', b', st') /\
    st_rep st' (slot_of <$> B') /\ b' = total_size B' mod two64 /\ mx <= mx' <= u64_max /\
    (mx' = mx \/ exists v, (u64_to_be mx', v) ∈ l) /\
    (forall s v, (u64_to_be s, v) ∈ l -> s <= u64_max -> s <= mx' /\
       exists e, forward_ok e /\ forward_serialize e = Ok v /\ B' !! s = Some (e, Some (fe_not_before_ms e))) /\
    (forall s, (s <= u64_max -> forall v, (u64_to_be s, v) ∉ l) -> B' !! s = B !! s).
Proof using Type FL.
  revert mx b st B. induction l as [|[k v] l IH]; intros mx b st B Hgood Hnd Hfresh Hst Hb Hmx.
  { exists mx, b, st, B. split_and!; try done; [by left|]. intros s v Hin%elem_of_nil. done. }
  apply Forall_cons in Hgood as [(s & e & Hs & Hk & Hok & Hv) Hgood]. cbn in Hk, Hv. subst k.
  cbn in Hnd. apply NoDup_cons in Hnd as [Hni Hnd]. cbn [fmap list_fmap fq_scan].
  assert (length (u64_to_be s) = 8%nat) as -> by done. cbn [Nat.eqb negb].
  rewrite (forward_codec_law e v Hok Hv), be_roundtrip by done.
  pose proof (Hfresh s v ltac:(by left) Hs) as Hnone. set (x := (e, Some (fe_not_before_ms e))).
  assert (forall s' v', (u64_to_be s', v') ∈ l -> s' <= u64_max -> s' <> s) as Hother.
  { intros s' v' Hin _ ->. apply Hni. apply list_elem_of_fmap. by exists (u64_to_be s, v'). }
  destruct (IH (N.max mx s) (wrapping_add b (str_len v))
    (fq_insert s (mkPending (fe_enqueued_ms e) (fe_not_before_ms e) (str_len v)) st) (<[s := x]> B))
    as (mx' & b' & st' & B' & Hscan & Hst' & Hb' & Hle & Hmax & Hin & Hout); try done.
  - intros s' v' Hin Hs'. rewrite lookup_insert_ne by (intros Heq; by apply (Hother s' v')).
    apply (Hfresh s' v'); [by right|done].
  - rewrite fmap_insert. unfold slot_of at 1. cbn. unfold forward_size. rewrite Hv.
    apply (insert_rep _ _ _ (mkPending (fe_enqueued_ms e) (fe_not_before_ms e) (str_len v))); [done|].
    by rewrite lookup_fmap, Hnone.
  - rewrite total_size_insert by done. subst b. cbn. unfold forward_size, wrapping_add. rewrite Hv.
    rewrite N.Div0.add_mod_idemp_l. f_equal. lia.
  - lia.
  - exists mx', b', st', B'. split_and!; try done; [lia|lia| | |].
    + destruct Hmax as [->|[w Hw]]; [|right; exists w; by right].
      destruct (N.max_spec mx s) as [[_ ->]|[_ ->]]; [right; exists v; by left|by left].
    + intros s' v' [Heq|Hl]%elem_of_cons Hs'; [|by apply Hin].
      apply pair_equal_spec in Heq as [Heq ->]. apply u64_to_be_inj in Heq as ->; [|done|done].
      split; [lia|]. exists e. split_and!; try done. rewrite Hout; [by rewrite lookup_insert_eq|].
      intros _ v' Hv'. by apply (Hother s v').
    + intros s' Hn. rewrite Hout by (intros Hs' v' Hv'; apply (Hn Hs' v'); by right).
      rewrite lookup_insert_ne; [done|]. intros <-. apply (Hn Hs v). by left.
Qed.

Lemma fq_new_rep q m :
  fq_rep q m -> exists q', fq_new (fq_db q) = Ok q' /\ fq_rep q' (restart_map m) /\ fq_seq q' <= fq_seq q.
Proof using Type FL.
  intros (Hseq & _ & Hk & Hm). destruct (cf_scan_law (fq_db q) ForwardData []) as (l & Hl & Hsort & Hin).
  assert (forall k v, (k, v) ∈ l <-> cf_rows (fq_db q) ForwardData !! k = Some v) as Hin'.
  { intros k v. rewrite Hin. split; [by intros [? _]|]. intros Hv. split; [done|]. by destruct k. }
  unfold fq_new. rewrite Hl.
  destruct (scan_rep l 0 0 fq_empty ∅) as (mx & b & st & B & Hscan & Hst & Hb & Hmx & Hmax & Hall & Hout).
  - apply Forall_forall. intros [k v] Hkv%Hin'. destruct (Hk k v Hkv) as (s & Hs & -> & [e o] & Hx).
    destruct (Hm s e o Hx) as (_ & Hok & v' & Hv' & Hrow). rewrite Hrow in Hkv. injection Hkv as <-.
    exists s, e. done.
  - apply (sorted_NoDup (fun a b => bytes_ltb a b = true)).
    + intros k. by rewrite bytes_ltb_irrefl.
    + clear -Hsort. induction Hsort as [|x l Hl IH Hx]; cbn; constructor; [done|]. by apply Forall_fmap.
  - done.
  - rewrite fmap_empty. apply st_rep_empty.
  - done.
  - done.
  - rewrite Hscan. cbn. exists (mkForwardQueue (fq_db q) mx b st). split; [done|].
    assert (B = restart_map m) as <-.
    { apply map_eq. intros s. unfold restart_map. rewrite lookup_fmap. destruct (m !! s) as [[e o]|] eqn:E.
      - destruct (Hm s e o E) as (Hle & Hok & v & Hv & Hrow). apply Hin' in Hrow.
        destruct (Hall s v Hrow) as (_ & e' & Hok' & Hv' & ->); [lia|]. cbn.
        pose proof (forward_codec_law e v Hok Hv) as H1. rewrite (forward_codec_law e' v Hok' Hv') in H1.
        by apply Ok_inj in H1 as ->.
      - rewrite Hout; [done|]. intros Hs v Hv%Hin'. destruct (Hk _ _ Hv) as (s' & Hs' & Heq & Hsome).
        apply u64_to_be_inj in Heq as ->; [|done|done]. rewrite E in Hsome. by destruct Hsome. }
    assert (mx <= fq_seq q) as Hle'.
    { destruct Hmax as [->|[v Hv]]; [lia|]. apply Hin' in Hv. destruct (Hk _ _ Hv) as (s & Hs & Heq & [e o] & Hx).
      apply u64_to_be_inj in Heq as ->; [|lia|done]. by destruct (Hm s e o Hx). }
    split; [|done]. split; [cbn; lia|]. split; [done|]. cbn. split.
    + intros k v Hv. destruct (Hk k v Hv) as (s & Hs & -> & [e o] & Hx). exists s. split_and!; try done.
      destruct (Hall s v (proj2 (Hin' _ _) Hv) Hs) as (_ & e' & _ & _ & ->). by eexists.
    + intros s e o Hs. destruct (m !! s) as [[e0 o0]|] eqn:E.
      * destruct (Hm s e0 o0 E) as (Hle & _ & v & _ & Hrow). apply Hin' in Hrow as Hrow'.
        destruct (Hall s v Hrow') as (Hmx' & e' & Hok' & Hv' & HB); [lia|]. rewrite Hs in HB. injection HB as -> ->.
        split_and!; [done|done|]. by exists v.
      * rewrite Hout in Hs; [done|]. intros Hle v Hv%Hin'. destruct (Hk _ _ Hv) as (s' & Hs' & Heq & Hsome).
        apply u64_to_be_inj in Heq as ->; [|done|done]. rewrite E in Hsome. by destruct Hsome.
Qed.

(** ** Sequences of operations *)

Inductive FqEvent :=
| FqEnqueue (entry : ForwardEntry)
| FqClaim (now_ms : N) (max_entries : nat) (max_bytes : N)
| FqComplete (seqs : list N) (retry : option ForwardEntry)
| FqRelease (seqs : list N) (not_before_ms : N)
| FqRestart.

Definition fq_event_ok (ev : FqEvent) : Prop :=
  match ev with
  | FqEnqueue e => forward_ok e
  | FqComplete seqs retry => Forall (fun s => s <= u64_max) seqs /\ forall e, retry = Some e -> forward_ok e
  | _ => True
  end.

Definition fq_step (q : ForwardQueue DB) (ev : FqEvent) : ForwardQueue DB :=
  match ev with
  | FqEnqueue e => fst (fq_enqueue q e)
  | FqClaim now n b => fst (fq_claim q now n b)
  | FqComplete seqs retry => fst (fq_complete q seqs retry)
  | FqRelease seqs t => fq_release q seqs t
  | FqRestart => match fq_new (fq_db q) with Ok q' => q' | Err _ => q end
  end.

(** The same on the map of entries. *)
Definition stored_step (q : ForwardQueue DB) (m : stored) (ev : FqEvent) : stored :=
  match ev with
  | FqEnqueue e =>
    if is_ok (snd (fq_enqueue q e)) then <[fq_seq q + 1 := (e, Some (fe_not_before_ms e))]> m else m
  | FqClaim now n b => claimed_map m now n b
  | FqComplete seqs retry =>
    if is_ok (snd (fq_complete q seqs retry)) then
      match retry with
      | Some e => <[fq_seq q + 1 := (e, Some (fe_not_before_ms e))]> (delete_all seqs m)
      | None => delete_all seqs m
      end
    else m
  | FqRelease seqs t => release_all t seqs m
  | FqRestart => restart_map m
  end.

Fixpoint fq_run (q : ForwardQueue DB) (m : stored) (es : list FqEvent) : ForwardQueue DB * stored :=
  match es with
  | [] => (q, m)
  | ev :: es' => fq_run (fq_step q ev) (stored_step q m ev) es'
  end.

Lemma fq_step_rep q m ev :
  fq_rep q m -> fq_event_ok ev -> fq_seq q < u64_max ->
  fq_rep (fq_step q ev) (stored_step q m ev) /\ fq_seq (fq_step q ev) <= fq_seq q + 1.
Proof using Type FL.
  intros Hrep Hev Hlt. destruct ev as [e|now n b|seqs retry|seqs t|]; cbn [fq_step stored_step fq_event_ok] in *.
  - unfold fq_enqueue. destruct (fq_write q [] (Some e)) as [q' r] eqn:E.
    destruct (write_rep _ _ _ _ _ _ E Hrep Hlt) as [Hr Hs]; [constructor|by intros ? [= <-]|].
    split; [|done]. destruct r as [o|err]; cbn; [by destruct Hr|done].
  - destruct (queue_claim_rep q m now n b Hrep) as (_ & Hr & ->). split; [done|lia].
  - destruct Hev as [Hseqs Hretry]. unfold fq_complete. destruct (fq_write q seqs retry) as [q' r] eqn:E.
    destruct (write_rep _ _ _ _ _ _ E Hrep Hlt Hseqs Hretry) as [Hr Hs].
    split; [|done]. destruct r as [o|err]; cbn; [by destruct Hr|done].
  - split; [by apply release_rep|]. cbn. lia.
  - destruct (fq_new_rep q m Hrep) as (q' & -> & Hr & Hs). split; [done|lia].
Qed.

Lemma fq_run_rep q m es q' m' :
  fq_run q m es = (q', m') -> fq_rep q m -> Forall fq_event_ok es ->
  fq_seq q + N.of_nat (length es) < u64_max -> fq_rep q' m' /\ fq_seq q' <= fq_seq q + N.of_nat (length es).
Proof using Type FL.
  revert q m. induction es as [|ev es IH]; intros q m E Hrep Hes Hlt; cbn in E.
  { injection E as <- <-. split; [done|lia]. }
  apply Forall_cons in Hes as [Hev Hes]. rewrite length_cons in Hlt |- *.
  destruct (fq_step_rep q m ev Hrep Hev) as [Hr Hs]; [lia|].
  destruct (IH _ _ E Hr Hes) as [? ?]; [lia|]. split; [done|lia].
Qed.

Lemma empty_fq_rep (d : DB) :
  cf_rows d ForwardData = ∅ -> exists q, fq_new d = Ok q /\ fq_rep q ∅ /\ fq_seq q = 0.
Proof using Type FL.
  intros Hd. assert (fq_rep (mkForwardQueue d 0 0 fq_empty) ∅) as Hrep.
  { split; [cbn; lia|]. split; [split|].
    - cbn. rewrite fmap_empty. apply st_rep_empty.
    - done.
    - cbn. rewrite Hd. split; [intros k v|intros s e o]; by rewrite lookup_empty. }
  destruct (fq_new_rep _ _ Hrep) as (q & Hq & Hr & Hs). cbn in Hq, Hs. exists q. split; [done|].
  unfold restart_map in Hr. rewrite fmap_empty in Hr. split; [done|lia].
Qed.

(** The state a run from an empty column family reaches. *)
Definition fq_reaches (d : DB) (es : list FqEvent) (q : ForwardQueue DB) (m : stored) : Prop :=
  cf_rows d ForwardData = ∅ /\ Forall fq_event_ok es /\ N.of_nat (length es) < u64_max /\
  exists q0, fq_new d = Ok q0 /\ fq_run q0 ∅ es = (q, m).

Lemma reaches_rep d es q m : fq_reaches d es q m -> fq_rep q m.
Proof using Type FL.
  intros (Hd & Hes & Hlen & q0 & Hq0 & Hrun). destruct (empty_fq_rep d Hd) as (q1 & Hq1 & Hrep & Hs).
  rewrite Hq1 in Hq0. apply Ok_inj in Hq0 as <-. eapply fq_run_rep; [done|done|done|]. lia.
Qed.

Lemma reaches_seq d es q m : fq_reaches d es q m -> fq_seq q <= N.of_nat (length es).
Proof using Type FL.
  intros (Hd & Hes & Hlen & q0 & Hq0 & Hrun). destruct (empty_fq_rep d Hd) as (q1 & Hq1 & Hrep & Hs).
  rewrite Hq1 in Hq0. apply Ok_inj in Hq0 as <-.
  destruct (fq_run_rep _ _ _ _ _ Hrun Hrep Hes) as [_ ?]; lia.
Qed.

Lemma size_total st (m : gmap N Slot) : st_rep st m -> size (st_pending st) = size m.
Proof.
  intros Hst. assert (dom (st_pending st) = dom m) as Hdom.
  { apply set_eq. intros s. rewrite !elem_of_dom. specialize (Hst s). destruct (m !! s) as [x|]; cbn in Hst.
    - destruct Hst as (nb & -> & _). split; by eexists.
    - destruct Hst as (-> & _). split; by intros [? ?]. }
  by rewrite <- !size_dom, Hdom.
Qed.

(** C34: In every reachable state of the forward queue the indexes are well
    formed: an entry is in [by_age], under its time, exactly when it is in
    [pending]; [ready] and [delayed] hold only stored entries and no entry is
    in both; an entry is in [delayed] at most once, under its own time. *)
Theorem forward_index_wf d es q m :
  fq_reaches d es q m ->
  let st := fq_state q in
  (forall t s, (t, s) ∈ st_by_age st <-> exists p, st_pending st !! s = Some p /\ pe_enqueued_ms p = t) /\
  (forall s, s ∈ st_ready st -> is_Some (st_pending st !! s) /\ forall t, (t, s) ∉ st_delayed st) /\
  (forall t s, (t, s) ∈ st_delayed st -> exists p, st_pending st !! s = Some p /\ pe_not_before_ms p = t).
Proof using Type FL.
  intros (_ & [Hst _] & _)%reaches_rep st.
  split_and!.
  - intros t s. specialize (Hst s). destruct ((slot_of <$> m) !! s) as [x|]; cbn in Hst.
    + destruct Hst as (nb & Hp & Ha & _). unfold st. rewrite Ha, Hp. split; [intros ->; eauto|]. by intros (p & [= <-] & <-).
    + destruct Hst as (Hp & _ & _ & Ha). unfold st. rewrite Hp. split; [by intros ?%Ha|]. by intros (? & ? & _).
  - intros s Hs. specialize (Hst s). destruct ((slot_of <$> m) !! s) as [x|]; cbn in Hst; [|by destruct Hst as (_ & ? & _)].
    destruct Hst as (nb & Hp & _ & Hd). split; [by eexists|]. destruct (sl_due x); [|by destruct Hd].
    destruct Hd as [(_ & _ & Hd)|(Hd & _)]; done.
  - intros t s Hs. specialize (Hst s).
    destruct ((slot_of <$> m) !! s) as [x|]; cbn in Hst; [|by destruct Hst as (_ & _ & Hd & _); apply Hd in Hs].
    destruct Hst as (nb & Hp & _ & Hd). unfold st. rewrite Hp. eexists. split; [done|]. cbn.
    destruct (sl_due x); [|by destruct Hd as [_ Hd]; apply Hd in Hs].
    destruct Hd as [(_ & _ & Hd)|(_ & -> & Hd)]; [by apply Hd in Hs|]. symmetry. by apply Hd.
Qed.

(** C33: Through enqueues, claims, completions, releases and restarts the
    forward queue behaves as a map from sequences to entries that are claimed
    or due from some time on. A claim returns the picked entries of the map;
    the length, the byte count (a [u64] that wraps) and the age of the oldest
    entry are those of the map; opening the database again gives every entry
    that was not completed. *)
Theorem forward_queue_refines d es q m now n b :
  fq_reaches d es q m ->
  snd (fq_claim q now n b) = Ok (entries_of m (picked_seqs m now n b)) /\
  fq_len q = size m /\ fq_bytes q = total_size m mod two64 /\
  (forall s e o, m !! s = Some (e, o) -> sat_sub now (fe_enqueued_ms e) <= oldest_age_ms q now) /\
  (m <> ∅ -> exists s e o, m !! s = Some (e, o) /\ oldest_age_ms q now = sat_sub now (fe_enqueued_ms e)) /\
  exists q', fq_new (fq_db q) = Ok q' /\
    snd (fq_claim q' now n b) = Ok (entries_of (restart_map m) (picked_seqs (restart_map m) now n b)).
Proof using Type FL.
  intros Hreach. pose proof (reaches_rep _ _ _ _ Hreach) as Hrep. pose proof Hrep as (_ & [Hst Hb] & _).
  assert (forall t s, (t, s) ∈ st_by_age (fq_state q) <-> exists e o, m !! s = Some (e, o) /\ fe_enqueued_ms e = t) as Hage.
  { intros t s. specialize (Hst s). rewrite lookup_fmap in Hst. destruct (m !! s) as [[e o]|]; cbn in Hst.
    - destruct Hst as (nb & _ & -> & _). split; [intros ->; eauto|]. by intros (? & ? & [= <- <-] & <-).
    - destruct Hst as (_ & _ & _ & Ha). split; [by intros ?%Ha|]. by intros (? & ? & ? & _). }
  pose proof (first_pair_spec (st_by_age (fq_state q))) as Hfirst. unfold oldest_age_ms.
  split; [by apply queue_claim_rep|]. split; [|split; [done|split; [|split]]].
  - unfold fq_len. rewrite (size_total _ _ Hst). apply map_size_fmap.
  - intros s e o Hs. assert ((fe_enqueued_ms e, s) ∈ st_by_age (fq_state q)) as Hin by (apply Hage; eauto).
    destruct (first_pair _) as [[t0 s0]|]; [|set_solver]. destruct Hfirst as [_ Hmin].
    specialize (Hmin _ Hin). cbn in Hmin. unfold sat_sub. lia.
  - intros Hne. apply map_choose in Hne as (s & [e o] & Hs).
    assert ((fe_enqueued_ms e, s) ∈ st_by_age (fq_state q)) as Hin by (apply Hage; eauto).
    destruct (first_pair _) as [[t0 s0]|]; [|set_solver]. destruct Hfirst as [Hin0 _].
    apply Hage in Hin0 as (e0 & o0 & Hs0 & <-). eauto.
  - destruct (fq_new_rep q m Hrep) as (q' & Hq' & Hr' & _). exists q'. split; [done|]. by apply queue_claim_rep.
Qed.

Lemma entries_of_all m seqs :
  (forall s, s ∈ seqs -> is_Some (m !! s)) ->
  (entries_of m seqs).*1 = seqs /\
  foldr N.add 0 (forward_size <$> (entries_of m seqs).*2) = sum_sizes (slot_size (slot_of <$> m)) seqs.
Proof.
  unfold entries_of, sum_sizes. induction seqs as [|s seqs IH]; intros Hall; [done|].
  destruct IH as [IH1 IH2]; [intros s' Hs'; apply Hall; by right|].
  destruct (Hall s ltac:(by left)) as [[e o] Hs]. cbn [omap list_omap]. rewrite Hs. cbn [fmap option_fmap option_map list_fmap foldr].
  rewrite IH1, IH2. split; [done|]. f_equal. unfold slot_size. by rewrite lookup_fmap, Hs.
Qed.

Lemma entries_of_elem m seqs s e :
  (s, e) ∈ entries_of m seqs <-> s ∈ seqs /\ fst <$> m !! s = Some e.
Proof.
  unfold entries_of. rewrite list_elem_of_omap. split.
  - intros (s' & Hs' & He). destruct (m !! s') as [x|] eqn:E; [|done]. cbn in He. injection He as -> <-. by rewrite E.
  - intros [Hs He]. exists s. split; [done|]. destruct (m !! s) as [x|]; [|done]. cbn in *. by injection He as ->.
Qed.

Lemma due_seqs_sorted now (m : gmap N Slot) : StronglySorted N.lt (due_seqs now m).
Proof.
  pose proof (due_seqs_NoDup now m) as Hnd.
  pose proof (sort_by_sorted N.leb nleb_total nleb_trans (map_to_list (filter (fun kx => is_due now kx.2 = true) m)).*1) as Hs.
  fold (due_seqs now m) in Hs. induction Hs as [|x l Hl IH Hx]; [constructor|]. apply NoDup_cons in Hnd as [Hni Hnd].
  constructor; [by apply IH|]. rewrite Forall_forall in Hx. apply Forall_forall. intros y Hy. specialize (Hx y Hy).
  unfold le_of in Hx. apply N.leb_le in Hx. assert (x <> y) by (by intros ->). lia.
Qed.

(** A claim on the forward queue hands out entries that are stored,
    unclaimed and due, in sequence order, at most [max_entries] and at most
    [max_bytes] of them (one larger entry goes alone); nothing due with a
    smaller sequence is passed over, it does not stop before a limit is
    reached, and no later claim hands out the same entry again while it is
    neither released nor lost to a restart. *)
Theorem forward_claim_correct d es q m now n b now' n' b' :
  fq_reaches d es q m ->
  exists out, snd (fq_claim q now n b) = Ok out /\
    StronglySorted N.lt out.*1 /\
    (forall s e, (s, e) ∈ out -> exists t, m !! s = Some (e, Some t) /\ t <= now) /\
    (length out <= n)%nat /\
    ((length out <= 1)%nat \/ foldr N.add 0 (forward_size <$> out.*2) <= b) /\
    (forall s e t, m !! s = Some (e, Some t) -> t <= now -> (s, e) ∉ out ->
       (forall s', s' ∈ out.*1 -> s' < s) /\
       (length out = n \/ out <> [] /\ exists s' e' t', m !! s' = Some (e', Some t') /\ t' <= now /\
          s' ∉ out.*1 /\ b < foldr N.add 0 (forward_size <$> out.*2) + forward_size e')) /\
    exists out', snd (fq_claim (fst (fq_claim q now n b)) now' n' b') = Ok out' /\
      forall s, s ∈ out.*1 -> s ∉ out'.*1.
Proof using Type FL.
  intros Hrep%reaches_rep. set (pk := picked_seqs m now n b).
  assert (forall s, s ∈ pk -> is_Some (m !! s)) as Hall.
  { intros s (e & t & Hs & _)%picked_stored. by eexists. }
  destruct (entries_of_all m pk Hall) as [Hfst Hsum].
  destruct (queue_claim_rep q m now n b Hrep) as (Hout & Hrep' & _).
  destruct (picked_due m now n b) as (k & Hk & Hlen & Hbytes & Hnext). fold pk in Hk, Hlen, Hbytes, Hnext, Hout.
  pose proof (due_seqs_sorted now (slot_of <$> m)) as Hsort.
  assert (length (entries_of m pk) = length pk) as Hl by (by rewrite <- Hfst at 2; rewrite length_fmap).
  exists (entries_of m pk). rewrite Hsum, Hfst, Hl. split_and!; try done.
  - rewrite Hk. rewrite <- (take_drop k (due_seqs now (slot_of <$> m))) in Hsort.
    by apply StronglySorted_app_1_l in Hsort.
  - intros s e [Hs He]%entries_of_elem. apply picked_stored in Hs as (e' & t & Hs & Ht). rewrite Hs in He.
    injection He as ->. eauto.
  - intros s e t Hs Ht Hni. assert (s ∈ drop k (due_seqs now (slot_of <$> m))) as Hdrop.
    { assert (s ∈ due_seqs now (slot_of <$> m)) as Hd.
      { apply due_seqs_elem. exists (slot_of (e, Some t)). rewrite lookup_fmap, Hs. split; [done|]. by apply N.leb_le. }
      rewrite <- (take_drop k (due_seqs now (slot_of <$> m))), <- Hk in Hd. apply elem_of_app in Hd as [Hd|Hd]; [|done].
      exfalso. apply Hni. apply entries_of_elem. by rewrite Hs. }
    rewrite <- (take_drop k (due_seqs now (slot_of <$> m))), <- Hk in Hsort. split.
    { intros s' Hs'. by eapply (StronglySorted_app_1_elem_of N.lt). }
    destruct (drop k (due_seqs now (slot_of <$> m))) as [|s' rest] eqn:Edrop; [by apply elem_of_nil in Hdrop|].
    assert (due_seqs now (slot_of <$> m) !! k = Some s') as Hk'.
    { rewrite <- (Nat.add_0_r k), <- lookup_drop, Edrop. done. }
    destruct (Hnext s' Hk') as [Hn|[Hne Hb]]; [by left|right].
    split; [intros He; apply Hne; by rewrite <- Hfst, He|].
    apply list_elem_of_lookup_2 in Hk'. apply due_seqs_elem in Hk' as (x & Hx & Hd). unfold slot_size in Hb at 2.
    rewrite Hx in Hb. rewrite lookup_fmap in Hx. destruct (m !! s') as [[e' o']|] eqn:Em; [|done].
    injection Hx as <-. cbn in Hd, Hb. destruct o' as [t'|]; [|done]. exists s', e', t'. split_and!; try done.
    + by apply N.leb_le.
    + intros Hin. eapply (StronglySorted_app_1_elem_of N.lt _ _ s' s') in Hsort; [lia|done|by left].
  - destruct (queue_claim_rep _ _ now' n' b' Hrep') as (Hout' & _). eexists. split; [exact Hout'|].
    intros s Hs Hs'. destruct (entries_of_all (claimed_map m now n b) (picked_seqs (claimed_map m now n b) now' n' b'))
      as [Hfst' _]; [intros s0 (e & t & Hs0 & _)%picked_stored; by eexists|].
    rewrite Hfst' in Hs'. apply picked_stored in Hs' as (e & t & Hs' & _). unfold claimed_map in Hs'.
    rewrite claim_slots_lookup, bool_decide_true in Hs' by done. by destruct ((wake_entry now <$> m) !! s).
Qed.
End Queue.

(** ** Witnesses *)

Definition wit_forward (i not_before : N) : ForwardEntry :=
  mkForward "db" "autogen" (Some "ms"%string) (100 + i) not_before 0 [i].

Lemma wit_forward_ok i t : i < 256 -> t <= 1000 -> forward_ok (wit_forward i t).
Proof.
  intros Hi Ht. split; [|split].
  - unfold u64_max, u32_max. cbn. lia.
  - split_and!; [reflexivity|reflexivity|reflexivity|]. by repeat constructor.
  - repeat constructor.
Qed.

Definition wit_queue : ForwardQueue (MemDb ReplCf) := mkForwardQueue empty_db 0 0 fq_empty.

(** Three entries, one backing off, a claim and a release. *)
Definition wit_forwards : list FqEvent :=
  [FqEnqueue (wit_forward 1 0); FqEnqueue (wit_forward 2 700); FqEnqueue (wit_forward 3 0);
   FqClaim 600 2 1000; FqRelease [1] 650; FqComplete [3] None].

Definition wit_run : ForwardQueue (MemDb ReplCf) * gmap N (ForwardEntry * option N) :=
  fq_run wit_queue ∅ wit_forwards.

Lemma wit_reaches : fq_reaches (empty_db (Cf := ReplCf)) wit_forwards (fst wit_run) (snd wit_run).
Proof.
  split; [done|]. split; [|split; [by apply N.ltb_lt|]].
  - repeat apply Forall_cons_2; try exact I; try (apply wit_forward_ok; lia); [|constructor].
    split; [|done]. repeat constructor. apply N.leb_le. reflexivity.
  - exists wit_queue. split; [reflexivity|]. apply surjective_pairing.
Qed.

Lemma forward_index_wf_witness :
  (1, 1) ∉ st_delayed (fq_state (fst wit_run)) /\
  (forall t s, (t, s) ∈ st_delayed (fq_state (fst wit_run)) ->
     exists p, st_pending (fq_state (fst wit_run)) !! s = Some p /\ pe_not_before_ms p = t) /\
  (650, 1) ∈ st_delayed (fq_state (fst wit_run)).
Proof.
  destruct (forward_index_wf _ _ _ _ wit_reaches) as (_ & _ & Hd).
  split; [|split; [exact Hd|]]; apply (bool_decide_unpack _); vm_compute; exact I.
Defined.

Lemma forward_queue_refines_witness :
  snd (fq_claim (fst wit_run) 800 16 1000) = Ok [(1, wit_forward 1 0); (2, wit_forward 2 700)] /\
  fq_len (fst wit_run) = 2%nat.
Proof.
  destruct (forward_queue_refines _ _ _ _ 800 16 1000 wit_reaches) as (Hc & Hl & _).
  rewrite Hc, Hl. split; vm_compute; reflexivity.
Defined.

Lemma forward_claim_correct_witness :
  exists out, snd (fq_claim (fst wit_run) 660 16 1000) = Ok out /\ out = [(1, wit_forward 1 0)] /\
    exists out', snd (fq_claim (fst (fq_claim (fst wit_run) 660 16 1000)) 800 16 1000) = Ok out' /\ 1 ∉ out'.*1.
Proof.
  destruct (forward_claim_correct _ _ _ _ 660 16 1000 800 16 1000 wit_reaches)
    as (out & Hout & _ & _ & _ & _ & _ & out' & Hout' & Hdisj).
  assert (out = [(1, wit_forward 1 0)]) as Ho.
  { assert (snd (fq_claim (fst wit_run) 660 16 1000) = Ok [(1, wit_forward 1 0)]) as E by (vm_compute; reflexivity).
    rewrite Hout in E. by apply Ok_inj in E. }
  exists out. split; [exact Hout|]. split; [exact Ho|]. exists out'. split; [exact Hout'|].
  apply Hdisj. rewrite Ho. left.
Defined.
