(* ===== verification/ForwardDrain.v ===== *)
(** * Draining the forward queue

    [drain_forward_batch] and [retry_forwards] of
    [application/peer_ingestion_service.rs]: a claimed batch is grouped by
    database, retention policy and precision, each group is delivered, and
    what did not land goes back on the queue in the same write that removes
    the group's entries. The point codec of the line protocol and
    [deliver_forwards] are the class [ForwardDelivery]. *)

From Stdlib Require Import Ascii String.
From stdpp Require Import prelude list sorting gmap fin_maps strings.
From S2P Require Import Prelude Bytes CfStore Wire Points WalIpc ReplicationLog ForwardQueue ForwardQueueTheorems.
From stdpp Require Import options.

#[local] Open Scope N_scope.

Definition FORWARD_DRAIN_MAX_ENTRIES : nat := 16.
Definition FORWARD_DRAIN_MAX_BYTES : N := 1024 * 1024.
Definition FORWARD_MAX_AGE_MS : N := 3600000.

Definition forward_backoff_ms (attempts : N) : N :=
  N.min (N.shiftl 50 (N.min attempts 5)) 1000.

(** What the drainer calls: the point codec, the clock and the delivery,
    which returns the points that did not land. *)
Class ForwardDelivery (World : Type) := {
  decode_points : bytes -> option (list Point);
  encode_points : list Point -> result string bytes;
  clock_ms : World -> N;
  deliver_forwards : World -> string -> string -> option string -> list Point
    -> World * result string (list Point)
}.

Record ForwardGroup := mkGroup {
  fg_head : ForwardEntry;
  fg_seqs : list N;
  fg_points : list Point
}.

Definition same_target (head entry : ForwardEntry) : bool :=
  bool_decide (fe_db head = fe_db entry) && bool_decide (fe_rp head = fe_rp entry)
  && bool_decide (fe_precision head = fe_precision entry).

Definition absorb_head (head entry : ForwardEntry) : ForwardEntry :=
  mkForward (fe_db head) (fe_rp head) (fe_precision head)
    (N.min (fe_enqueued_ms head) (fe_enqueued_ms entry)) (fe_not_before_ms head)
    (N.max (fe_attempts head) (fe_attempts entry)) (fe_body head).

Definition clear_body (e : ForwardEntry) : ForwardEntry :=
  mkForward (fe_db e) (fe_rp e) (fe_precision e) (fe_enqueued_ms e) (fe_not_before_ms e) (fe_attempts e) [].

(** The first group of the same target, or a new one at the end. *)
Fixpoint push_group (seq : N) (entry : ForwardEntry) (points : list Point) (groups : list ForwardGroup)
    : list ForwardGroup :=
  match groups with
  | [] => [mkGroup (clear_body entry) [seq] points]
  | g :: groups' =>
    if same_target (fg_head g) entry
    then mkGroup (absorb_head (fg_head g) entry) (fg_seqs g ++ [seq]) (fg_points g ++ points) :: groups'
    else g :: push_group seq entry points groups'
  end.

Section Drain.
Context {World DB : Type} `{FD : !ForwardDelivery World} `{CDB : !CfDb ReplCf DB} `{FC : !ForwardCodec}.

(** The points of an entry; an undecodable body is dropped. *)
Definition entry_points (e : ForwardEntry) : list Point := default [] (decode_points (fe_body e)).

Definition group_batch (batch : list (N * ForwardEntry)) : list ForwardGroup :=
  fold_left (fun groups se => push_group se.1 se.2 (entry_points se.2) groups) batch [].

Definition retry_forwards (head : ForwardEntry) (failed : list Point) (now : N) : option ForwardEntry :=
  let attempts := (fe_attempts head + 1) mod (u32_max + 1) in
  if FORWARD_MAX_AGE_MS <? sat_sub now (fe_enqueued_ms head) then None
  else
    match encode_points failed with
    | Err _ => None
    | Ok body =>
      Some (mkForward (fe_db head) (fe_rp head) (fe_precision head) (fe_enqueued_ms head)
              (wrapping_add now (forward_backoff_ms attempts)) attempts body)
    end.

Definition drain_group (qw : ForwardQueue DB * World) (g : ForwardGroup) : ForwardQueue DB * World :=
  let '(q, w) := qw in
  let now := clock_ms w in
  let head := fg_head g in
  let back_off := wrapping_add now (forward_backoff_ms (fe_attempts head)) in
  let '(w', r) := deliver_forwards w (fe_db head) (fe_rp head) (fe_precision head) (fg_points g) in
  match r with
  | Ok failed =>
    let retry := match failed with [] => None | _ => retry_forwards head failed now end in
    let '(q', done) := fq_complete q (fg_seqs g) retry in
    match done with
    | Ok _ => (q', w')
    | Err _ => (fq_release q' (fg_seqs g) back_off, w')
    end
  | Err _ => (fq_release q (fg_seqs g) back_off, w')
  end.

Definition drain_forward_batch (q : ForwardQueue DB) (w : World) (batch : list (N * ForwardEntry))
    : ForwardQueue DB * World :=
  fold_left drain_group (group_batch batch) (q, w).

(** One turn of the drainer: claim a batch and deliver it. *)
Definition drainer_turn (q : ForwardQueue DB) (w : World) : ForwardQueue DB * World :=
  let '(q', r) := fq_claim q (clock_ms w) FORWARD_DRAIN_MAX_ENTRIES FORWARD_DRAIN_MAX_BYTES in
  match r with
  | Ok (((_ :: _) as batch)) => drain_forward_batch q' w batch
  | _ => (q', w)
  end.
End Drain.

(** ** No point is lost *)

(** What the drainer relies on: a point is settled when it landed or its
    primary refused it for good; a delivery settles every point it does not
    return, the point codec reads back what it wrote. *)
Class ForwardDeliveryLaws (World : Type) `{ForwardDelivery World} := {
  settled : World -> Point -> Prop;
  points_codec_law : forall pts b, encode_points pts = Ok b ->
    decode_points b = Some pts /\ Forall byte_ok b /\ N.of_nat (length b) < two64;
  deliver_settles : forall w db rp p pts w' failed,
    deliver_forwards w db rp p pts = (w', Ok failed) -> forall x, x ∈ pts -> x ∈ failed \/ settled w' x;
  deliver_keeps : forall w db rp p pts w' r x,
    deliver_forwards w db rp p pts = (w', r) -> settled w x -> settled w' x
}.

(** Groups with disjoint sequences. *)
Fixpoint disjoint_groups (gs : list ForwardGroup) : Prop :=
  match gs with
  | [] => True
  | g :: gs' => (forall g' s, g' ∈ gs' -> s ∈ fg_seqs g -> s ∉ fg_seqs g') /\ disjoint_groups gs'
  end.

Lemma push_group_elem s e pts gs g :
  g ∈ push_group s e pts gs ->
  g ∈ gs \/ g = mkGroup (clear_body e) [s] pts \/
  exists g0, g0 ∈ gs /\ g = mkGroup (absorb_head (fg_head g0) e) (fg_seqs g0 ++ [s]) (fg_points g0 ++ pts).
Proof.
  induction gs as [|g0 gs IH]; cbn [push_group].
  - intros ->%list_elem_of_singleton. auto.
  - destruct (same_target (fg_head g0) e).
    + intros [-> |Hin]%elem_of_cons; [|left; by right]. do 2 right. exists g0. split; [by left|done].
    + intros [-> |Hin]%elem_of_cons; [left; by left|]. destruct (IH Hin) as [H1|[-> | (g1 & H1 & ->)]]; auto.
      * left. by right.
      * do 2 right. exists g1. split; [by right|done].
Qed.

Lemma push_group_seqs s e pts gs g s' :
  g ∈ push_group s e pts gs -> s' ∈ fg_seqs g -> s' = s \/ exists g0, g0 ∈ gs /\ s' ∈ fg_seqs g0.
Proof.
  intros [Hg | [-> | (g0 & Hg & ->)]]%push_group_elem Hs; cbn in Hs; [eauto|set_solver|].
  apply elem_of_app in Hs as [Hs|Hs]; [eauto|set_solver].
Qed.

Lemma push_group_disjoint s e pts gs :
  disjoint_groups gs -> (forall g, g ∈ gs -> s ∉ fg_seqs g) -> disjoint_groups (push_group s e pts gs).
Proof.
  induction gs as [|g gs IH]; intros Hd Hs; cbn [push_group]; [by split; [set_solver|]|]. destruct Hd as [Hd Hgs].
  destruct (same_target (fg_head g) e); cbn [disjoint_groups fg_seqs].
  - split; [|done]. intros g' s' Hg' [Hs'| ->%list_elem_of_singleton]%elem_of_app; [by eapply Hd|].
    apply Hs. by right.
  - split; [|apply IH; [done|]; intros g' Hg'; apply Hs; by right].
    intros g' s' Hg' Hs' Hin. destruct (push_group_seqs _ _ _ _ _ _ Hg' Hin) as [-> |(g0 & Hg0 & Hs0)].
    + by apply (Hs g); [left|].
    + by apply (Hd g0 s').
Qed.

Lemma push_group_length s e pts gs : (length (push_group s e pts gs) <= S (length gs))%nat.
Proof.
  induction gs as [|g gs IH]; cbn [push_group length]; [done|].
  destruct (same_target (fg_head g) e); cbn [length]; lia.
Qed.

Section NoLoss.
Context {World DB : Type} `{FD : !ForwardDelivery World} {FDL : ForwardDeliveryLaws World} `{CL : CfDbLaws ReplCf DB}
        `{FC : !ForwardCodec} {FL : ForwardCodecLaws}.

#[local] Abbreviation stored := (gmap N (ForwardEntry * option N)).

(** The deliveries of a list of groups start no later than [T], and what each
    leaves behind can be encoded again. *)
Fixpoint groups_in_time (T : N) (w : World) (gs : list ForwardGroup) : bool :=
  match gs with
  | [] => true
  | g :: gs' =>
    let head := fg_head g in
    let '(w', r) := deliver_forwards w (fe_db head) (fe_rp head) (fe_precision head) (fg_points g) in
    (clock_ms w <=? T) && match r with Ok failed => is_ok (encode_points failed) | Err _ => true end &&
    groups_in_time T w' gs'
  end.

(** The same of the batch that a turn claims. *)
Definition turn_in_time (T : N) (q : ForwardQueue DB) (w : World) : bool :=
  match (fq_claim q (clock_ms w) FORWARD_DRAIN_MAX_ENTRIES FORWARD_DRAIN_MAX_BYTES).2 with
  | Ok batch => groups_in_time T w (group_batch batch)
  | Err _ => true
  end.

(** A group of entries of [m], none older than an hour at time [T]. *)
Definition group_ok (T : N) (m : stored) (g : ForwardGroup) : Prop :=
  forward_ok (fg_head g) /\ T <= fe_enqueued_ms (fg_head g) + FORWARD_MAX_AGE_MS /\
  forall s, s ∈ fg_seqs g -> s <= u64_max /\
    exists e, fst <$> m !! s = Some e /\ forall x, x ∈ entry_points e -> x ∈ fg_points g.

(** A point that is settled or waits in the queue. *)
Definition kept (m : stored) (w : World) (x : Point) : Prop :=
  settled w x \/ exists s e o, m !! s = Some (e, o) /\ x ∈ entry_points e.

Lemma retry_ok head failed now e :
  forward_ok head -> retry_forwards head failed now = Some e ->
  forward_ok e /\ entry_points e = failed /\ fe_enqueued_ms e = fe_enqueued_ms head.
Proof using Type FDL.
  intros ((He & Hn & Ha) & (H1 & H2 & H3 & H4) & Hl) E. unfold retry_forwards in E.
  destruct (_ <? _); [done|]. destruct (encode_points failed) as [b|] eqn:Eb; [|done].
  injection E as <-. destruct (points_codec_law _ _ Eb) as (Hd & Hb & Hlb).
  split; [|split; [|done]]; [|unfold entry_points; cbn; by rewrite Hd].
  split; [|split; [done|]].
  - split; [done|]. cbn. split.
    + unfold wrapping_add. pose proof (N.mod_lt (now + forward_backoff_ms ((fe_attempts head + 1) mod (u32_max + 1))) two64 ltac:(done)).
      unfold u64_max, two64 in *. lia.
    + pose proof (N.mod_lt (fe_attempts head + 1) (u32_max + 1) ltac:(done)). lia.
  - rewrite !Forall_cons in Hl |- *. naive_solver.
Qed.

Lemma retry_young head failed now :
  (exists b, encode_points failed = Ok b) -> now <= fe_enqueued_ms head + FORWARD_MAX_AGE_MS ->
  exists e, retry_forwards head failed now = Some e.
Proof.
  intros [b Hb] Hage. unfold retry_forwards, sat_sub. rewrite Hb.
  destruct (N.ltb_spec FORWARD_MAX_AGE_MS (now - fe_enqueued_ms head)); [lia|]. by eexists.
Qed.

(** Releasing keeps every entry. *)
Lemma release_kept t seqs m w x : kept m w x -> kept (release_all t seqs m) w x.
Proof.
  intros [Hs|(s & e & o & Hs & Hx)]; [by left|]. right. exists s, e.
  pose proof (release_all_fst t seqs m s) as Hf. rewrite Hs in Hf.
  destruct (release_all t seqs m !! s) as [[e' o']|]; [|done]. cbn in Hf. injection Hf as ->. by exists o'.
Qed.

Lemma release_group T t seqs m g : group_ok T m g -> group_ok T (release_all t seqs m) g.
Proof.
  intros (H1 & H2 & H3). split_and!; [done|done|]. intros s Hs. destruct (H3 s Hs) as (Hle & e & He & Hx).
  split; [done|]. exists e. by rewrite release_all_fst.
Qed.

(** Removing a group and storing the points it left behind. *)
Lemma complete_kept T m w w' g failed retry seq x :
  group_ok T m g -> m !! seq = None -> seq ∉ fg_seqs g ->
  (forall y, y ∈ fg_points g -> y ∈ failed \/ settled w' y) -> (settled w x -> settled w' x) ->
  (failed <> [] -> exists e, retry = Some e /\ entry_points e = failed) ->
  kept m w x ->
  kept (match retry with
        | Some e => <[seq := (e, Some (fe_not_before_ms e))]> (delete_all (fg_seqs g) m)
        | None => delete_all (fg_seqs g) m
        end) w' x.
Proof.
  intros (_ & _ & Hg) Hfresh Hni Hset Hmono Hretry [Hs|(s & e & o & Hs & Hx)]; [left; by apply Hmono|].
  destruct (decide (s ∈ fg_seqs g)) as [Hin|Hout].
  - destruct (Hg s Hin) as (_ & e' & He & Hsub). rewrite Hs in He. injection He as <-.
    destruct (Hset x (Hsub x Hx)) as [Hf|Hf]; [|by left].
    destruct Hretry as (e' & -> & He'); [by intros ->; apply elem_of_nil in Hf|].
    right. exists seq, e', (Some (fe_not_before_ms e')). rewrite lookup_insert_eq. by rewrite He'.
  - right. exists s, e, o. split; [|done]. destruct retry as [e'|].
    + rewrite lookup_insert_ne by (intros ->; congruence). by rewrite delete_all_lookup, decide_False.
    + by rewrite delete_all_lookup, decide_False.
Qed.

Lemma complete_group T m g seq retry g' :
  group_ok T m g' -> m !! seq = None -> (forall s, s ∈ fg_seqs g -> s ∉ fg_seqs g') ->
  group_ok T (match retry with
              | Some e => <[seq := (e, Some (fe_not_before_ms e))]> (delete_all (fg_seqs g) m)
              | None => delete_all (fg_seqs g) m
              end) g'.
Proof.
  intros (H1 & H2 & H3) Hfresh Hdisj. split_and!; [done|done|]. intros s Hs.
  destruct (H3 s Hs) as (Hle & e & He & Hx). split; [done|]. exists e. split; [|done].
  assert (delete_all (fg_seqs g) m !! s = m !! s) as Hd
    by (rewrite delete_all_lookup, decide_False; [done|]; intros Hs'; by apply (Hdisj s)).
  destruct retry as [e'|]; [rewrite lookup_insert_ne|]; rewrite ?Hd; try done.
  intros ->. rewrite Hfresh in He. done.
Qed.

Lemma drain_group_kept T q w g gs q' w' m :
  drain_group (q, w) g = (q', w') -> fq_rep q m -> fq_seq q < u64_max -> group_ok T m g ->
  groups_in_time T w (g :: gs) = true ->
  groups_in_time T w' gs = true /\
  exists m', fq_rep q' m' /\ fq_seq q' <= fq_seq q + 1 /\ (forall x, kept m w x -> kept m' w' x) /\
    forall g', group_ok T m g' -> (forall s, s ∈ fg_seqs g -> s ∉ fg_seqs g') -> group_ok T m' g'.
Proof using Type FDL.
  intros E Hrep Hlt Hg Htime. pose proof Hg as (Hhead & Hage & Hseqs). unfold drain_group in E.
  cbn [groups_in_time] in Htime. destruct (deliver_forwards w _ _ _ _) as [w1 r] eqn:Ed.
  apply andb_prop in Htime as [[Hclock%N.leb_le Htot]%andb_prop Hrest]. assert (w' = w1) as ->.
  { destruct r; [destruct (fq_complete _ _ _) as [? []]|]; by injection E. }
  split; [exact Hrest|].
  assert (forall x, settled w x -> settled w1 x) as Hmono by (intros x; by eapply deliver_keeps).
  destruct r as [failed|err].
  2: { injection E as <-. eexists. split; [by apply release_rep|]. split; [cbn; lia|]. split.
    - intros x [Hx|Hx]; [left; by apply Hmono|]. apply release_kept. by right.
    - intros g' Hg' _. by apply release_group. }
  set (retry := match failed with [] => None | _ => _ end) in E.
  assert ((forall e, retry = Some e -> forward_ok e) /\
          (failed <> [] -> exists e, retry = Some e /\ entry_points e = failed)) as [Hrok Hrsome].
  { unfold retry. destruct failed as [|y failed]; [done|]. split.
    - intros e He. by destruct (retry_ok _ _ _ _ Hhead He).
    - intros _. destruct (retry_young (fg_head g) (y :: failed) (clock_ms w)) as [e He]; [by destruct (encode_points _); [eexists|]|lia|].
      exists e. split; [done|]. by destruct (retry_ok _ _ _ _ Hhead He) as (_ & ? & _). }
  assert (Forall (fun s => s <= u64_max) (fg_seqs g)) as Hle by (apply Forall_forall; intros s Hs; by apply Hseqs).
  pose proof Hrep as (_ & _ & Hdisk). unfold fq_complete in E.
  assert (m !! (fq_seq q + 1) = None) as Hfresh by (eapply rep_fresh; [done|lia]).
  assert (fq_seq q + 1 ∉ fg_seqs g) as Hni.
  { intros Hin. destruct (Hseqs _ Hin) as (_ & e & He & _). by rewrite Hfresh in He. }
  destruct (fq_write q (fg_seqs g) retry) as [q1 r] eqn:Ew.
  destruct (write_rep _ _ _ _ _ _ Ew Hrep Hlt Hle Hrok) as [Hr Hs1].
  destruct r as [o|err]; cbn in E; injection E as <-.
  - destruct Hr as [Hr _]. eexists. split; [exact Hr|]. split; [done|]. split.
    + intros x Hx. apply (complete_kept T m w w1 g failed); try assumption; [|apply Hmono].
      by eapply deliver_settles.
    + intros g' Hg' Hdisj. by apply complete_group.
  - eexists. split; [by apply release_rep|]. split; [done|]. split.
    + intros x [Hx|Hx]; [left; by apply Hmono|]. apply release_kept. by right.
    + intros g' Hg' _. by apply release_group.
Qed.

Lemma drain_groups_kept T gs q w q' w' m :
  fold_left drain_group gs (q, w) = (q', w') -> fq_rep q m ->
  fq_seq q + N.of_nat (length gs) < u64_max -> Forall (group_ok T m) gs -> disjoint_groups gs ->
  groups_in_time T w gs = true ->
  exists m', fq_rep q' m' /\ forall x, kept m w x -> kept m' w' x.
Proof using Type FDL.
  intros E Hrep Hlt Hgs Hdisj Htime. revert q w m E Hrep Hlt Hgs Htime.
  induction gs as [|g gs IH]; intros q w m E Hrep Hlt Hgs Htime; cbn [fold_left] in E.
  { injection E as <- <-. eauto. }
  destruct Hdisj as [Hd Hdisj]. apply Forall_cons in Hgs as [Hg Hgs]. rewrite length_cons in Hlt.
  destruct (drain_group (q, w) g) as [q1 w1] eqn:E1.
  destruct (drain_group_kept T q w g gs q1 w1 m E1 Hrep) as (Hrest & m1 & Hrep1 & Hs1 & Hkept & Hg1); try done; [lia|].
  destruct (IH Hdisj q1 w1 m1 E Hrep1) as (m' & Hrep' & Hk); [lia| |exact Hrest|].
  - rewrite Forall_forall in Hgs |- *. intros g' Hg'. apply Hg1; [by apply Hgs|]. intros s. by apply Hd.
  - exists m'. split; [done|]. auto.
Qed.

(** *** The groups of a batch *)

Lemma new_group_ok T m s e :
  s <= u64_max -> fst <$> m !! s = Some e -> forward_ok e -> T <= fe_enqueued_ms e + FORWARD_MAX_AGE_MS ->
  group_ok T m (mkGroup (clear_body e) [s] (entry_points e)).
Proof.
  intros Hs Hm ((H1 & H2 & H3) & (H4 & H5 & H6 & H7) & Hl) Hage. split; [|split; [done|]].
  - split; [done|]. split; [by repeat split; [..|constructor]|]. rewrite !Forall_cons in Hl |- *. naive_solver.
  - intros s' ->%list_elem_of_singleton. split; [done|]. by exists e.
Qed.

Lemma absorb_group_ok T m s e g :
  group_ok T m g ->
  s <= u64_max -> fst <$> m !! s = Some e -> forward_ok e -> T <= fe_enqueued_ms e + FORWARD_MAX_AGE_MS ->
  group_ok T m (mkGroup (absorb_head (fg_head g) e) (fg_seqs g ++ [s]) (fg_points g ++ entry_points e)).
Proof.
  intros (((G1 & G2 & G3) & G4 & G5) & Gage & Gs) Hs Hm ((H1 & H2 & H3) & _) Hage. split; [|split; [cbn; lia|]].
  - split; [|done]. cbn. lia.
  - intros s' [Hs'| ->%list_elem_of_singleton]%elem_of_app.
    + destruct (Gs s' Hs') as (Hle & e' & He' & Hx). split; [done|]. exists e'. split; [done|].
      intros x Hin. apply elem_of_app. left. by apply Hx.
    + split; [done|]. exists e. split; [done|]. intros x Hin. apply elem_of_app. by right.
Qed.

Lemma group_batch_ok T m batch :
  NoDup batch.*1 ->
  Forall (fun se => se.1 <= u64_max /\ fst <$> m !! se.1 = Some se.2 /\ forward_ok se.2 /\
                    T <= fe_enqueued_ms se.2 + FORWARD_MAX_AGE_MS) batch ->
  Forall (group_ok T m) (group_batch batch) /\ disjoint_groups (group_batch batch) /\
  (forall g s, g ∈ group_batch batch -> s ∈ fg_seqs g -> s ∈ batch.*1) /\
  (length (group_batch batch) <= length batch)%nat.
Proof.
  induction batch as [|[s e] batch IH] using rev_ind; intros Hnd Hall.
  { split; [constructor|]. split; [done|]. split; [by intros g s Hg%elem_of_nil|done]. }
  rewrite fmap_app in *. cbn in Hnd |- *. apply NoDup_app in Hnd as (Hnd & Hni & _).
  apply Forall_app in Hall as [Hall [(Hs & Hm & Hok & Hage) _]%Forall_cons]. cbn in Hs, Hm, Hok, Hage.
  destruct (IH Hnd Hall) as (Hg & Hd & Hin & Hlen). unfold group_batch in *. rewrite fold_left_app. cbn [fold_left fst snd].
  set (gs := fold_left _ batch []) in *. assert (forall g, g ∈ gs -> s ∉ fg_seqs g) as Hnew.
  { intros g Hgs Hs'. apply (Hni s); [by eapply Hin|]. by left. }
  split_and!.
  - rewrite Forall_forall in Hg |- *. intros g [Hgs| [-> | (g0 & Hg0 & ->)]]%push_group_elem; [by apply Hg| |].
    + by apply new_group_ok.
    + by apply absorb_group_ok; [apply Hg|..].
  - by apply push_group_disjoint.
  - intros g s' Hgs Hs'. apply elem_of_app. destruct (push_group_seqs _ _ _ _ _ _ Hgs Hs') as [-> |(g0 & Hg0 & Hs0)].
    + right. by left.
    + left. by eapply Hin.
  - rewrite length_app. cbn. pose proof (push_group_length s e (entry_points e) gs). lia.
Qed.

(** A point that waits in the queue's rows. *)
Definition queued (q : ForwardQueue DB) (x : Point) : Prop :=
  exists s v e, cf_rows (fq_db q) ForwardData !! u64_to_be s = Some v /\ forward_deserialize v = Ok e /\
    x ∈ entry_points e.

Lemma kept_queued q m w x : fq_rep q m -> kept m w x -> settled w x \/ queued q x.
Proof using Type FL.
  intros (_ & _ & _ & Hm) [Hs|(s & e & o & Hs & Hx)]; [by left|right].
  destruct (Hm s e o Hs) as (_ & Hok & v & Hv & Hrow). exists s, v, e. split_and!; try done.
  by apply forward_codec_law.
Qed.

Lemma queued_kept q m w x : fq_rep q m -> queued q x -> kept m w x.
Proof using Type FL.
  intros (_ & _ & Hk & Hm) (s & v & e & Hrow & He & Hx). right.
  destruct (Hk _ _ Hrow) as (s' & Hs' & Heq & [e' o] & Hm'). destruct (Hm s' e' o Hm') as (_ & Hok & v' & Hv' & Hrow').
  rewrite <- Heq, Hrow in Hrow'. injection Hrow' as <-. rewrite (forward_codec_law _ _ Hok Hv') in He.
  apply Ok_inj in He as <-. eauto.
Qed.

Lemma claimed_batch_ok T q m now n b :
  fq_rep q m -> (forall s e o, m !! s = Some (e, o) -> T <= fe_enqueued_ms e + FORWARD_MAX_AGE_MS) ->
  let batch := entries_of m (picked_seqs m now n b) in
  NoDup batch.*1 /\
  Forall (fun se => se.1 <= u64_max /\ fst <$> claimed_map m now n b !! se.1 = Some se.2 /\ forward_ok se.2 /\
                    T <= fe_enqueued_ms se.2 + FORWARD_MAX_AGE_MS) batch /\
  (length batch <= n)%nat.
Proof.
  intros (Hseq & _ & _ & Hm) Hage batch. assert (forall s, s ∈ picked_seqs m now n b -> is_Some (m !! s)) as Hall.
  { intros s (e & t & Hs & _)%picked_stored. by eexists. }
  destruct (entries_of_all m _ Hall) as [Hfst _]. unfold batch. rewrite Hfst.
  destruct (picked_due m now n b) as (k & Hk & Hl & _). split_and!.
  - rewrite Hk. eapply sublist_NoDup; [apply due_seqs_NoDup|apply sublist_take].
  - apply Forall_forall. intros [s e] [Hs He]%entries_of_elem. cbn. rewrite claimed_map_fst.
    destruct (m !! s) as [[e' o]|] eqn:E; [|done]. cbn in He. injection He as ->.
    destruct (Hm s e o E) as (Hle & Hok & _). split_and!; [lia|done|done|by eapply Hage].
  - rewrite <- Hfst, length_fmap in Hl. done.
Qed.

Lemma drain_no_loss T d es q m w q' w' x :
  fq_reaches d es q m -> N.of_nat (length es) + 17 < u64_max ->
  turn_in_time T q w = true -> (forall s e o, m !! s = Some (e, o) -> T <= fe_enqueued_ms e + FORWARD_MAX_AGE_MS) ->
  drainer_turn q w = (q', w') -> queued q x -> settled w' x \/ queued q' x.
Proof using Type FDL FL.
  intros Hreach Hlen Htime Hage E Hx. pose proof (reaches_seq _ _ _ _ Hreach) as Hseq.
  apply reaches_rep in Hreach as Hrep.
  unfold drainer_turn in E. unfold turn_in_time in Htime. set (now := clock_ms w) in *.
  destruct (queue_claim_rep q m now FORWARD_DRAIN_MAX_ENTRIES FORWARD_DRAIN_MAX_BYTES Hrep) as (Hout & Hrep1 & Hseq1).
  destruct (fq_claim q now FORWARD_DRAIN_MAX_ENTRIES FORWARD_DRAIN_MAX_BYTES) as [q1 r]. cbn [fst snd] in *. subst r.
  set (m1 := claimed_map m now FORWARD_DRAIN_MAX_ENTRIES FORWARD_DRAIN_MAX_BYTES) in *.
  set (pk := picked_seqs m now FORWARD_DRAIN_MAX_ENTRIES FORWARD_DRAIN_MAX_BYTES) in *.
  assert (kept m1 w x) as Hkept.
  { destruct (queued_kept _ _ w _ Hrep Hx) as [?|(s & e & o & Hs & Hxe)]; [by left|right]. exists s, e.
    pose proof (claimed_map_fst m now FORWARD_DRAIN_MAX_ENTRIES FORWARD_DRAIN_MAX_BYTES s) as Hf. rewrite Hs in Hf.
    fold m1 in Hf. destruct (m1 !! s) as [[e' o']|]; [|done]. injection Hf as ->. by exists o'. }
  assert (exists m', fq_rep q' m' /\ kept m' w' x) as (m' & Hrep' & Hk'); [|by eapply kept_queued].
  destruct (entries_of m pk) as [|se batch] eqn:Eb; [injection E as <- <-; eauto|]. rewrite <- Eb in E, Htime.
  destruct (claimed_batch_ok T q m now FORWARD_DRAIN_MAX_ENTRIES FORWARD_DRAIN_MAX_BYTES Hrep Hage) as (Hnd & Hall & Hl).
  fold m1 pk in Hnd, Hall, Hl.
  destruct (group_batch_ok T m1 (entries_of m pk) Hnd Hall) as (Hg & Hd & _ & Hgl).
  destruct (drain_groups_kept T (group_batch (entries_of m pk)) q1 w q' w' m1 E Hrep1) as (m' & Hrep' & Hk);
    try done; [|by exists m'; auto].
  unfold FORWARD_DRAIN_MAX_ENTRIES in Hl. lia.
Qed.

End NoLoss.

(** ** A primary that is down

    Every point lands but one. *)
Definition down_point : Point := mkPoint "down" ∅ ∅ 7.

Definition up_point : Point := mkPoint "up" ∅ ∅ 7.

#[export] Instance down_delivery : ForwardDelivery (list Point) := {
  decode_points b := bytes_pos b ≫= decode;
  encode_points pts :=
    let b := bit_bytes (encode pts) in
    if N.of_nat (length b) <? two64 then Ok b else Err "too large";
  clock_ms _ := 200;
  deliver_forwards w _ _ _ pts :=
    (List.filter (fun x => negb (bool_decide (x = down_point))) pts ++ w,
     Ok (if bool_decide (down_point ∈ pts) then [down_point] else []))
}.

#[export] Program Instance down_delivery_laws : ForwardDeliveryLaws (list Point) :=
  { settled := fun w x => x ∈ w }.
Next Obligation.
  intros pts b. cbn. destruct (N.ltb_spec (N.of_nat (length (bit_bytes (encode pts)))) two64); [|done].
  intros [= <-]. split_and!; [|apply bit_bytes_ok|done]. rewrite bytes_pos_bit_bytes. cbn. by rewrite decode_encode.
Qed.
Next Obligation.
  cbn. intros w _ _ _ pts w' failed [= <- <-] x Hx. destruct (decide (x = down_point)) as [->|Hne].
  - left. rewrite bool_decide_true by done. by left.
  - right. apply elem_of_app. left. apply filterb_elem_of. by rewrite bool_decide_false.
Qed.
Next Obligation. cbn. intros w _ _ _ pts w' r x [= <- _] Hx. apply elem_of_app. by right. Qed.

Definition wit_body (x : Point) : bytes := bit_bytes (encode [x]).

Definition wit_drain (i : N) (x : Point) : ForwardEntry := mkForward "db" "autogen" None (100 + i) 0 0 (wit_body x).

Definition wit_drain_events : list FqEvent :=
  [FqEnqueue (wit_drain 1 up_point); FqEnqueue (wit_drain 2 down_point)].

Definition wit_drain_run : ForwardQueue (MemDb ReplCf) * gmap N (ForwardEntry * option N) :=
  fq_run wit_queue ∅ wit_drain_events.

Lemma wit_drain_ok i x :
  i <= 100 -> N.of_nat (length (wit_body x)) <? two64 = true -> forward_ok (wit_drain i x).
Proof.
  intros Hi Hx. split; [|split].
  - unfold u64_max, u32_max. cbn. lia.
  - split_and!; [reflexivity|reflexivity|reflexivity|]. apply bit_bytes_ok.
  - repeat apply Forall_cons_2; [reflexivity|reflexivity|reflexivity|by apply N.ltb_lt|constructor].
Qed.

Lemma wit_drain_reaches :
  fq_reaches (empty_db (Cf := ReplCf)) wit_drain_events (fst wit_drain_run) (snd wit_drain_run).
Proof.
  split; [done|]. split; [|split; [by apply N.ltb_lt|]].
  - repeat apply Forall_cons_2; [apply wit_drain_ok; [lia|vm_compute; reflexivity]..|constructor].
  - exists wit_queue. split; [reflexivity|]. apply surjective_pairing.
Qed.

Lemma wit_drain_age s e o :
  snd wit_drain_run !! s = Some (e, o) -> 200 <= fe_enqueued_ms e + FORWARD_MAX_AGE_MS.
Proof. unfold FORWARD_MAX_AGE_MS. lia. Qed.

Lemma wit_queued : queued (fst wit_drain_run) down_point.
Proof.
  exists 2, (bytes_str (forward_bytes (wit_drain 2 down_point))), (wit_drain 2 down_point).
  split_and!; [vm_compute; reflexivity|vm_compute; reflexivity|].
  apply (bool_decide_unpack _). vm_compute. exact I.
Qed.

