(* ===== verification/QueryAst.v ===== *)
(** * The query syntax tree ([hyperbytedb/src/timeseriesql/ast.rs]) and what
    is read off it

    Durations, expressions and the [SELECT] statement; the output name of a
    field and the test for aggregates ([timeseriesql/to_clickhouse/]), and
    how an aggregate combines ([domain/rollup.rs]). A 64-bit float is a
    [spec_float] of the standard library. Function names are compared in
    ASCII upper case. *)

From Stdlib Require Import SpecFloat.
From stdpp Require Import prelude list sorting gmap strings pretty.
From S2P Require Import Prelude WalWriter.
From stdpp Require Import options.

#[local] Open Scope Z_scope.

(** ** ASCII case *)

Definition ascii_upper (c : Ascii.ascii) : Ascii.ascii :=
  let n := Ascii.N_of_ascii c in
  if (97 <=? n)%N && (n <=? 122)%N then Ascii.ascii_of_N (n - 32) else c.

Definition ascii_lower (c : Ascii.ascii) : Ascii.ascii :=
  let n := Ascii.N_of_ascii c in
  if (65 <=? n)%N && (n <=? 90)%N then Ascii.ascii_of_N (n + 32) else c.

Fixpoint string_map (f : Ascii.ascii -> Ascii.ascii) (s : string) : string :=
  match s with
  | EmptyString => EmptyString
  | String c s' => String (f c) (string_map f s')
  end.

Definition to_uppercase : string -> string := string_map ascii_upper.
Definition to_lowercase : string -> string := string_map ascii_lower.

Definition eq_ignore_ascii_case (a b : string) : bool := bool_decide (to_lowercase a = to_lowercase b).

(** ** Durations *)

Inductive DurationUnit :=
  Nanosecond | Microsecond | Millisecond | Second | Minute | Hour | Day | Week.

Record Duration := mkDuration { dur_value : Z; dur_unit : DurationUnit }.

Definition nanos_per_unit (u : DurationUnit) : Z :=
  match u with
  | Nanosecond => 1
  | Microsecond => 1000
  | Millisecond => 1000000
  | Second => 1000000000
  | Minute => 60 * 1000000000
  | Hour => 3600 * 1000000000
  | Day => 86400 * 1000000000
  | Week => 7 * 86400 * 1000000000
  end.

Definition duration_to_nanos (d : Duration) : Z :=
  sat_mul_i64 (dur_value d) (nanos_per_unit (dur_unit d)).

Inductive Dimension :=
| DimTime (interval : Duration) (offset : option Duration)
| DimTag (name : string)
| DimAllTags
| DimRegex (pattern : string).

Definition is_time_dim (d : Dimension) : bool :=
  match d with DimTime _ _ => true | _ => false end.

(** [GroupBy::time_dimension]. *)
Definition time_dimension (dims : list Dimension) : option Dimension := find is_time_dim dims.

(** ** Expressions *)

Inductive BinaryOp :=
  Add | Sub | Mul | Div | Mod | OpEq | Neq | OpLt | Lte | OpGt | Gte | And | Or | RegexMatch | RegexNotMatch.

Inductive UnaryOp := Neg | Not.

Inductive FieldType := FieldField | FieldTag.

(** [FunctionCall] and [BinaryExpr] are written into their constructors. *)
Inductive Expr :=
| Identifier (name : string)
| Star
| StringLiteral (s : string)
| IntegerLiteral (i : Z)
| FloatLiteral (f : spec_float)
| BooleanLiteral (b : bool)
| DurationLiteral (d : Duration)
| TimeLiteral (s : string)
| Regex (pattern : string)
| Call (name : string) (args : list Expr)
| BinaryExpr (left : Expr) (op : BinaryOp) (right : Expr)
| UnaryExpr (op : UnaryOp) (e : Expr)
| Wildcard
| FieldRef (name : string) (typ : option FieldType)
| Now.

Record Field := mkField { fd_expr : Expr; fd_alias : option string }.

Inductive FillOption :=
| FillNull
| FillNone
| FillPrevious
| FillLinear
| FillValue (v : spec_float).

(** ** Statements *)

Inductive MeasurementName := NameOf (name : string) | NameRegex (pattern : string).

Record Measurement := mkMeasurement {
  ms_database : option string;
  ms_retention_policy : option string;
  ms_name : MeasurementName
}.

Inductive MeasurementSource (S : Type) :=
| Concrete (m : Measurement)
| Subquery (s : S).
Arguments Concrete {S} m.
Arguments Subquery {S} s.

(** [order_by] is its [time_desc]. *)
Inductive SelectStatement := mkSelect {
  sel_fields : list Field;
  sel_into : option Measurement;
  sel_from : list (MeasurementSource SelectStatement);
  sel_condition : option Expr;
  sel_group_by : option (list Dimension);
  sel_order_by : option bool;
  sel_limit : option N;
  sel_offset : option N;
  sel_slimit : option N;
  sel_soffset : option N;
  sel_fill : option FillOption;
  sel_timezone : option string
}.

(** ** Output names *)

Fixpoint expr_name_parts (e : Expr) : list string :=
  match e with
  | Call name _ => [to_lowercase name]
  | Identifier name | FieldRef name _ => [name]
  | BinaryExpr l _ r => expr_name_parts l ++ expr_name_parts r
  | UnaryExpr _ inner => expr_name_parts inner
  | _ => []
  end.

Definition influxql_name (e : Expr) : option string :=
  match expr_name_parts e with
  | [] => None
  | names => Some (String.concat "_" names)
  end.

Definition default_field_alias (e : Expr) : option string :=
  match e with
  | Identifier _ | FieldRef _ _ => None
  | _ => influxql_name e
  end.

Definition select_output_field_name (f : Field) : option string :=
  match fd_alias f with
  | Some a => Some a
  | None => default_field_alias (fd_expr f)
  end.

(** ** Aggregates *)

Definition is_window_transform_call (name : string) : bool :=
  bool_decide (to_uppercase name ∈
    ["DERIVATIVE"; "NON_NEGATIVE_DERIVATIVE"; "DIFFERENCE"; "NON_NEGATIVE_DIFFERENCE"; "MOVING_AVERAGE";
     "CUMULATIVE_SUM"; "ELAPSED"]%string).

Definition is_call (e : Expr) : bool := match e with Call _ _ => true | _ => false end.

Fixpoint expr_contains_aggregate (e : Expr) : bool :=
  match e with
  | Call name args =>
    if is_window_transform_call name
    then match args with a :: _ => is_call a | [] => false end
    else true
  | BinaryExpr l _ r => expr_contains_aggregate l || expr_contains_aggregate r
  | UnaryExpr _ inner => expr_contains_aggregate inner
  | _ => false
  end.

Definition select_has_true_aggregate (stmt : SelectStatement) : bool :=
  existsb (fun f => expr_contains_aggregate (fd_expr f)) (sel_fields stmt).

(** [HyperbytedbError] as far as queries raise it. *)
Inductive QueryError :=
| QueryParse (msg : string)
| QueryInternal (msg : string).

Inductive RollupCombine := CombineSum | CombineMin | CombineMax | CombineLast | CombineFirst.

Definition rollup_combine_from_call (name : string) : result QueryError RollupCombine :=
  let upper := to_uppercase name in
  if bool_decide (upper ∈ ["SUM"; "COUNT"]%string) then Ok CombineSum
  else if bool_decide (upper = "MIN"%string) then Ok CombineMin
  else if bool_decide (upper = "MAX"%string) then Ok CombineMax
  else if bool_decide (upper = "FIRST"%string) then Ok CombineFirst
  else if bool_decide (upper = "LAST"%string) then Ok CombineLast
  else if bool_decide (upper = "MEAN"%string) then
    Err (QueryParse "mean() uses sum/count storage; handled separately")
  else
    Err (QueryParse ("materialized view aggregate " +:+ upper +:+ " is not supported for incremental rollups")).

Definition rollup_combine_from_field (f : Field) : result QueryError RollupCombine :=
  match fd_expr f with
  | Call name _ => rollup_combine_from_call name
  | _ => Err (QueryParse "materialized view field must be an aggregate call")
  end.

Record MeanRollupField := mkMeanRollup { mr_sum_col : string; mr_count_col : string }.

Definition aggregate_source_field_name (name : string) (args : list Expr) : result QueryError string :=
  match args with
  | [] => Err (QueryParse (name +:+ " requires one field argument"))
  | (Identifier source | FieldRef source _) :: _ => Ok source
  | _ :: _ => Err (QueryParse (name +:+ " argument must be a field name"))
  end.
