(* ===== verification/Selectors.v ===== *)
(** * Output names and selectors of a statement

    [with_output_names] of [timeseriesql/to_clickhouse/select.rs] gives every
    computed field the column name InfluxDB gives it; [multi_selector] of
    [timeseriesql/to_clickhouse/selectors.rs] finds the TOP, BOTTOM or SAMPLE
    call of a statement or says why it is misused. *)

From stdpp Require Import prelude list gmap strings pretty.
From S2P Require Import Prelude QueryAst.
From stdpp Require Import options.

(** ** Output names *)

#[local] Abbreviation names_taken := (gmap string N).

(** The first of [name_n], [name_(n+1)], ... that is not taken, with its
    number. A name is free after as many tries as there are names taken. *)
Fixpoint free_name (fuel : nat) (taken : names_taken) (name : string) (n : N) : string * N :=
  let candidate := name +:+ "_" +:+ pretty n in
  match fuel with
  | O => (candidate, n)
  | S fuel' => if bool_decide (is_Some (taken !! candidate)) then free_name fuel' taken name (n + 1)%N else (candidate, n)
  end.

(** A plain field reference. *)
Definition is_reference (e : Expr) : bool :=
  match e with Identifier _ | FieldRef _ _ => true | _ => false end.

(** One field, with the name it takes. *)
Definition name_field (taken : names_taken) (f : Field) : Field * option string * names_taken :=
  match fd_alias f, influxql_name (fd_expr f) with
  | Some _, _ | None, None => (f, None, taken)
  | None, Some name =>
    let '(resolved, taken) :=
      match taken !! name with
      | None => (name, taken)
      | Some n => let '(candidate, n) := free_name (size taken) taken name n in (candidate, <[name := (n + 1)%N]> taken)
      end in
    let taken := <[resolved := (default 0 (taken !! resolved) + 1)%N]> taken in
    (if negb (is_reference (fd_expr f)) || negb (bool_decide (resolved = name)) then mkField (fd_expr f) (Some resolved) else f,
     Some resolved, taken)
  end.

Fixpoint name_fields (taken : names_taken) (fs : list Field) : list (Field * option string) :=
  match fs with
  | [] => []
  | f :: rest => let '(f', given, taken') := name_field taken f in (f', given) :: name_fields taken' rest
  end.

Definition alias_names (fs : list Field) : names_taken := list_to_map ((fun a => (a, 1%N)) <$> omap fd_alias fs).

Definition with_fields (s : SelectStatement) (fs : list Field) : SelectStatement :=
  mkSelect fs (sel_into s) (sel_from s) (sel_condition s) (sel_group_by s) (sel_order_by s) (sel_limit s) (sel_offset s)
    (sel_slimit s) (sel_soffset s) (sel_fill s) (sel_timezone s).

Definition with_output_names (stmt : SelectStatement) : SelectStatement :=
  with_fields stmt (name_fields (alias_names (sel_fields stmt)) (sel_fields stmt)).*1.

(** ** The selector of a statement *)

Inductive SelectorKind := Top | Bottom | Sampled.

#[global] Instance selector_kind_eq_dec : EqDecision SelectorKind.
Proof. solve_decision. Defined.

Record MultiSelector := mkSelector {
  ms_kind : SelectorKind;
  ms_output : string;
  ms_field : string;
  ms_tags : list string;
  ms_n : N
}.

Definition kind_of (name : string) : option SelectorKind :=
  let upper := to_uppercase name in
  if bool_decide (upper = "TOP"%string) then Some Top
  else if bool_decide (upper = "BOTTOM"%string) then Some Bottom
  else if bool_decide (upper = "SAMPLE"%string) then Some Sampled
  else None.

Fixpoint contains_multi_selector (e : Expr) : bool :=
  match e with
  | Call name args => bool_decide (is_Some (kind_of name)) || existsb contains_multi_selector args
  | BinaryExpr l _ r => contains_multi_selector l || contains_multi_selector r
  | UnaryExpr _ e => contains_multi_selector e
  | _ => false
  end.

Definition ident (e : Expr) : option string :=
  match e with Identifier n | FieldRef n _ => Some n | _ => None end.

(** [{:?}] of an expression and of an optional one. *)
Class ExprDebug := { debug_expr : Expr -> string; debug_opt_expr : option Expr -> string }.

Definition combined_error (name : string) : QueryError :=
  QueryParse ("selector function " +:+ to_lowercase name +:+ "() cannot be combined with other functions").

(** A field that is a selector call. *)
Definition selector_call (f : Field) : option (string * list Expr * SelectorKind) :=
  match fd_expr f with
  | Call name args => (fun k => (name, args, k)) <$> kind_of name
  | _ => None
  end.

Section Selectors.
Context `{ED : !ExprDebug}.

Definition selector_name (fs : list Field) : string :=
  match omap selector_call fs with
  | (name, _, _) :: _ => name
  | [] => "top"
  end.

(** The only selector call of the fields; [all] are the fields of the statement. *)
Fixpoint find_selector (all fs : list Field) (found : option (string * list Expr * SelectorKind * option string))
    : result QueryError (option (string * list Expr * SelectorKind * option string)) :=
  match fs with
  | [] => Ok found
  | f :: rest =>
    match selector_call f, found with
    | Some call, None => find_selector all rest (Some (call, select_output_field_name f))
    | Some (name, _, _), Some _ => Err (combined_error name)
    | None, _ => if is_reference (fd_expr f) then find_selector all rest found else Err (combined_error (selector_name all))
    end
  end.

Fixpoint tag_args (lname : string) (args : list Expr) : result QueryError (list string) :=
  match args with
  | [] => Ok []
  | a :: rest =>
    t ← ok_or (QueryParse ("only fields or tags are allowed in " +:+ lname +:+ "(), found " +:+ debug_expr a)) (ident a);
    ts ← tag_args lname rest;
    Ok (t :: ts)
  end.

Definition selector_limit (lname : string) (arg : option Expr) : result QueryError N :=
  match arg with
  | Some (IntegerLiteral n) =>
    if (1 <=? n)%Z then Ok (Z.to_N n)
    else Err (QueryParse ("limit (" +:+ pretty n +:+ ") in " +:+ lname +:+ " function must be at least 1"))
  | other => Err (QueryParse ("expected integer as last argument in " +:+ lname +:+ "(), found " +:+ debug_opt_expr other))
  end.

(** The selector a call stands for. *)
Definition selector_of_call (name : string) (args : list Expr) (kind : SelectorKind) (output : option string)
    : result QueryError MultiSelector :=
  let lname := to_lowercase name in
  if Nat.ltb (length args) 2 || (bool_decide (kind = Sampled) && negb (Nat.eqb (length args) 2)) then
    Err (QueryParse ("invalid number of arguments for " +:+ lname +:+ ", expected " +:+
           (if bool_decide (kind = Sampled) then "2" else "at least 2") +:+ ", got " +:+ pretty (length args)))
  else
    match args with
    | [] => Err (QueryParse EmptyString)
    | first :: rest =>
      field ← ok_or (QueryParse ("expected first argument to be a field in " +:+ lname +:+ "(), found " +:+ debug_expr first))
                (ident first);
      n ← selector_limit lname (last args);
      tags ← tag_args lname (take (length rest - 1) rest);
      Ok (mkSelector kind (default lname output) field tags n)
    end.

Definition multi_selector (stmt : SelectStatement) : result QueryError (option MultiSelector) :=
  if negb (existsb (fun f => contains_multi_selector (fd_expr f)) (sel_fields stmt)) then Ok None
  else
    let fields := sel_fields (with_output_names stmt) in
    found ← find_selector fields fields None;
    match found with
    | None => Err (QueryParse "top(), bottom() and sample() cannot be used inside an expression")
    | Some (name, args, kind, output) => sel ← selector_of_call name args kind output; Ok (Some sel)
    end.
End Selectors.

(** ** Names are free *)

Lemma candidate_inj name (n n' : N) : name +:+ "_" +:+ pretty n = name +:+ "_" +:+ pretty n' -> n = n'.
Proof. intros H%(inj (String.app name))%(inj (String.app "_")). by apply (inj pretty). Qed.

(** As long as a try fails, the names taken from [n] on are as many as the
    tries. *)
Lemma free_name_spec fuel (taken : names_taken) name n (tried : gset string) :
  tried ⊆ dom taken -> (forall m, (n <= m)%N -> (name +:+ "_" +:+ pretty m) ∉ tried) -> (size taken <= fuel + size tried)%nat ->
  taken !! (free_name fuel taken name n).1 = None.
Proof.
  revert n tried. induction fuel as [|fuel IH]; intros n tried Hsub Hm Hs; cbn [free_name].
  - cbn [fst]. apply not_elem_of_dom. intros Hin.
    assert (size ({[ name +:+ "_" +:+ pretty n ]} ∪ tried : gset string) <= size (dom taken))%nat as Hle
      by (apply subseteq_size; set_solver).
    rewrite size_union, size_singleton, size_dom in Hle by (specialize (Hm n); set_solver by lia). lia.
  - case_bool_decide as E; [|by apply eq_None_not_Some].
    apply (IH _ ({[ name +:+ "_" +:+ pretty n ]} ∪ tried)).
    + apply elem_of_dom in E. set_solver.
    + intros m Hnm [Heq%elem_of_singleton%candidate_inj|Hin]%elem_of_union; [lia|]. apply (Hm m); [lia|done].
    + rewrite size_union, size_singleton by (specialize (Hm n); set_solver by lia). lia.
Qed.

Lemma free_name_free (taken : names_taken) name n : taken !! (free_name (size taken) taken name n).1 = None.
Proof. apply (free_name_spec _ _ _ _ ∅); [set_solver|set_solver|]. rewrite size_empty. lia. Qed.

(** What a field takes is free, and is taken afterwards. *)
Lemma name_field_spec taken f f' given taken' :
  name_field taken f = (f', given, taken') ->
  fd_expr f' = fd_expr f /\ dom taken ⊆ dom taken' /\
  match given with
  | None => f' = f /\ (fd_alias f = None -> influxql_name (fd_expr f) = None)
  | Some r => fd_alias f = None /\ (r ∉ dom taken) /\ (r ∈ dom taken') /\
      (fd_alias f' = Some r \/ fd_alias f' = None /\ is_reference (fd_expr f) = true /\ influxql_name (fd_expr f) = Some r)
  end.
Proof.
  unfold name_field. destruct (fd_alias f) as [a|] eqn:Ea; [by intros [= <- <- <-]|].
  destruct (influxql_name (fd_expr f)) as [name|] eqn:En; [|by intros [= <- <- <-]].
  destruct (taken !! name) as [n|] eqn:Et.
  - pose proof (free_name_free taken name n) as Hfree. destruct (free_name (size taken) taken name n) as [r n']. cbn [fst] in Hfree.
    intros [= <- <- <-]. assert (r <> name) as Hne by congruence. rewrite (bool_decide_false (r = name)) by done.
    rewrite orb_true_r. split; [done|]. split; [set_solver|]. split; [done|]. split; [by apply not_elem_of_dom|].
    split; [set_solver|]. by left.
  - intros [= <- <- <-]. rewrite bool_decide_true by done. rewrite orb_false_r.
    destruct (is_reference (fd_expr f)) eqn:Er; cbn; (split; [done|]); (split; [set_solver|]); (split; [done|]);
      (split; [by apply not_elem_of_dom|]); (split; [set_solver|]); auto.
Qed.

(** The names given are distinct, and none was taken. *)
Lemma name_fields_fresh taken fs :
  NoDup (omap snd (name_fields taken fs)) /\ forall r, r ∈ omap snd (name_fields taken fs) -> r ∉ dom taken.
Proof.
  revert taken. induction fs as [|f fs IH]; intros taken; cbn; [split; [constructor|by intros ? ?%elem_of_nil]|].
  destruct (name_field taken f) as [[f' given] taken'] eqn:E. apply name_field_spec in E as (_ & Hd & Hg).
  destruct (IH taken') as [Hn Hf]. cbn. destruct given as [r|]; cbn.
  - destruct Hg as (_ & Hr & Hr' & _). split; [constructor; [|done]; intros Hin; by apply Hf in Hin|].
    intros r' [-> |Hin]%elem_of_cons; [done|]. apply Hf in Hin. set_solver.
  - split; [done|]. intros r Hin. apply Hf in Hin. set_solver.
Qed.

(** Each result stands for its field. *)
Definition named_from (f : Field) (r : Field * option string) : Prop :=
  fd_expr r.1 = fd_expr f /\
  match r.2 with
  | None => r.1 = f /\ (fd_alias f = None -> influxql_name (fd_expr f) = None)
  | Some n => fd_alias f = None /\
      (fd_alias r.1 = Some n \/ fd_alias r.1 = None /\ is_reference (fd_expr f) = true /\ influxql_name (fd_expr f) = Some n)
  end.

Lemma name_fields_named taken fs : Forall2 named_from fs (name_fields taken fs).
Proof.
  revert taken. induction fs as [|f fs IH]; intros taken; cbn; [constructor|].
  destruct (name_field taken f) as [[f' given] taken'] eqn:E. apply name_field_spec in E as (He & _ & Hg).
  constructor; [|done]. split; [done|]. cbn. destruct given; [|done]. by destruct Hg as (? & _ & _ & ?).
Qed.

(** ** Naming again changes nothing *)

Definition unaliased_name (f : Field) : option string :=
  match fd_alias f with Some _ => None | None => influxql_name (fd_expr f) end.

Lemma name_fields_id taken fs :
  NoDup (omap unaliased_name fs) ->
  (forall f n, f ∈ fs -> unaliased_name f = Some n -> is_reference (fd_expr f) = true /\ n ∉ dom taken) ->
  (name_fields taken fs).*1 = fs.
Proof.
  revert taken. induction fs as [|f fs IH]; intros taken Hd Hf; [done|]. cbn [name_fields]. unfold name_field.
  assert (NoDup (omap unaliased_name fs)) as Hd' by (cbn in Hd; destruct (unaliased_name f); [by apply NoDup_cons in Hd as [_ ?]|done]).
  destruct (fd_alias f) as [a|] eqn:Ea.
  { rewrite fmap_cons. f_equal. apply IH; [done|]. intros g n Hg. apply Hf. by right. }
  destruct (influxql_name (fd_expr f)) as [name|] eqn:En.
  2: { rewrite fmap_cons. f_equal. apply IH; [done|]. intros g n Hg. apply Hf. by right. }
  assert (unaliased_name f = Some name) as Hu by (unfold unaliased_name; by rewrite Ea).
  destruct (Hf f name ltac:(by left) Hu) as [Hr Hn]. apply not_elem_of_dom in Hn. rewrite Hn, Hr, bool_decide_true by done.
  cbn [negb orb]. rewrite fmap_cons. f_equal. apply IH; [done|]. intros g n Hg Hun.
  destruct (Hf g n ltac:(by right) Hun) as [Hrg Hng]. split; [done|]. rewrite dom_insert_L. intros [E%elem_of_singleton|?]%elem_of_union; [|done].
  subst n. cbn in Hd. rewrite Hu in Hd. apply NoDup_cons in Hd as [Hd _]. apply Hd. apply list_elem_of_omap. eauto.
Qed.

Lemma omap_NoDup_inj {A B} (f : A -> option B) l x y b :
  NoDup (omap f l) -> x ∈ l -> y ∈ l -> f x = Some b -> f y = Some b -> x = y.
Proof.
  induction l as [|z l IH]; cbn; [by intros _ ?%elem_of_nil|]. intros Hd Hx Hy Ex Ey.
  assert (forall w, w ∈ l -> f w = Some b -> b ∈ omap f l) as Hin by (intros; apply list_elem_of_omap; eauto).
  apply elem_of_cons in Hx as [-> |Hx], Hy as [-> |Hy]; [done|rewrite Ex in Hd|rewrite Ey in Hd|];
    [apply NoDup_cons in Hd as [[] _]; eauto..|]. apply IH; try done. destruct (f z); [by apply NoDup_cons in Hd as [_ ?]|done].
Qed.

Lemma omap_sublist {A B} (f g : A -> option B) l :
  (forall x b, x ∈ l -> f x = Some b -> g x = Some b) -> sublist (omap f l) (omap g l).
Proof.
  induction l as [|x l IH]; intros H; [constructor|]. cbn.
  assert (sublist (omap f l) (omap g l)) as Hs by (apply IH; intros; apply H; [by right|done]).
  destruct (f x) as [b|] eqn:E; [rewrite (H x b ltac:(by left) E); by constructor|]. destruct (g x); [by constructor|done].
Qed.

Lemma omap_fmap {A B C} (f : A -> B) (g : B -> option C) (l : list A) : omap g (f <$> l) = omap (fun x => g (f x)) l.
Proof. induction l as [|x l IH]; [done|]. cbn. rewrite <-IH. done. Qed.

(** The computed fields of a statement get names that differ from each other
    and from every alias, and naming the result again changes nothing. *)
Theorem output_names_correct stmt :
  let out := name_fields (alias_names (sel_fields stmt)) (sel_fields stmt) in
  NoDup (omap snd out) /\
  (forall a, a ∈ omap fd_alias (sel_fields stmt) -> a ∉ omap snd out) /\
  Forall2 named_from (sel_fields stmt) out /\
  with_output_names (with_output_names stmt) = with_output_names stmt.
Proof.
  intros out. destruct (name_fields_fresh (alias_names (sel_fields stmt)) (sel_fields stmt)) as [Hd Hf]. fold out in Hd, Hf.
  assert (forall a, a ∈ omap fd_alias (sel_fields stmt) -> a ∈ dom (alias_names (sel_fields stmt))) as Ha.
  { intros a Ha. unfold alias_names. rewrite dom_list_to_map_L, elem_of_list_to_set, <-list_fmap_compose. by rewrite list_fmap_id. }
  assert (forall a, a ∈ omap fd_alias (sel_fields stmt) -> a ∉ omap snd out) as Hdis by (intros a H1%Ha H2%Hf; done).
  pose proof (name_fields_named (alias_names (sel_fields stmt)) (sel_fields stmt)) as Hnamed. fold out in Hnamed.
  split; [done|]. split; [done|]. split; [done|]. unfold with_output_names. cbn [sel_fields with_fields]. fold out.
  enough ((name_fields (alias_names out.*1) out.*1).*1 = out.*1) as -> by done.
  assert (forall r n, r ∈ out -> unaliased_name r.1 = Some n -> r.2 = Some n /\ is_reference (fd_expr r.1) = true) as Hu.
  { intros [f' g] n (i & Hi)%list_elem_of_lookup Hn. destruct (Forall2_lookup_r _ _ _ _ _ Hnamed Hi) as (f & _ & He & Hg).
    cbn in *. unfold unaliased_name in Hn. destruct g as [r|].
    - destruct Hg as (_ & [E|(E & Hr & En)]); rewrite E in Hn; [done|]. rewrite He, En in Hn. rewrite He. by simplify_eq.
    - destruct Hg as [-> Hn']. destruct (fd_alias f); [done|]. by rewrite Hn' in Hn. }
  apply name_fields_id.
  - rewrite omap_fmap. eapply sublist_NoDup; [exact Hd|]. apply omap_sublist. intros r n Hr Hn. by apply (Hu r n).
  - intros f n (r & -> & Hr)%list_elem_of_fmap Hn. destruct (Hu r n Hr Hn) as [Hg Href]. split; [done|].
    unfold alias_names. rewrite dom_list_to_map_L, elem_of_list_to_set, <-list_fmap_compose, list_fmap_id.
    rewrite omap_fmap, list_elem_of_omap. intros (r' & Hr' & Ea).
    pose proof Hr' as (i & Hi)%list_elem_of_lookup. destruct (Forall2_lookup_r _ _ _ _ _ Hnamed Hi) as (f & Hfi & He & Hg').
    destruct (r'.2) as [m|] eqn:Em.
    + destruct Hg' as (_ & [E|(E & _)]); [|congruence]. assert (m = n) as -> by congruence.
      assert (r = r') as <- by by eapply (omap_NoDup_inj snd out). unfold unaliased_name in Hn. by rewrite Ea in Hn.
    + destruct Hg' as [Ef _]. rewrite Ef in Ea. apply (Hdis n); apply list_elem_of_omap; [|by exists r]. exists f.
      split; [by eapply list_elem_of_lookup_2|done].
Qed.

(** ** Which statements have a selector *)

Definition all_references (fs : list Field) : Prop := Forall (fun f => is_reference (fd_expr f) = true) fs.

(** The fields are references but for one call of TOP, BOTTOM or SAMPLE with a
    field, tags (none for SAMPLE) and a positive number. *)
Definition valid_selector (fs : list Field) (sel : MultiSelector) : Prop :=
  exists pre f post name first tags n,
    fs = pre ++ f :: post /\ all_references pre /\ all_references post /\
    fd_expr f = Call name (first :: tags ++ [IntegerLiteral n]) /\ kind_of name = Some (ms_kind sel) /\
    ident first = Some (ms_field sel) /\ Forall2 (fun a t => ident a = Some t) tags (ms_tags sel) /\
    (1 <= n)%Z /\ ms_n sel = Z.to_N n /\ (ms_kind sel = Sampled -> tags = []) /\
    ms_output sel = default (to_lowercase name) (select_output_field_name f).

Section SelectorTheorems.
Context `{ED : !ExprDebug}.

Lemma reference_no_call f : is_reference (fd_expr f) = true -> selector_call f = None.
Proof. unfold selector_call. by destruct (fd_expr f). Qed.

Lemma find_selector_found all fs y z : find_selector all fs (Some y) = Ok z <-> z = Some y /\ all_references fs.
Proof.
  induction fs as [|f fs IH]; cbn.
  - split; [intros [= <-]; split; [done|constructor]|]. by intros [-> _].
  - unfold all_references in *. rewrite Forall_cons. destruct (selector_call f) as [[[name args] k]|] eqn:E.
    + split; [done|]. intros (_ & Hr & _). by rewrite reference_no_call in E.
    + destruct (is_reference (fd_expr f)); [rewrite IH; tauto|]. split; [done|]. by intros (_ & ? & _).
Qed.

Lemma find_selector_spec all fs z :
  find_selector all fs None = Ok z <->
  match z with
  | None => all_references fs
  | Some (call, out) => exists pre f post, fs = pre ++ f :: post /\ all_references pre /\ all_references post /\
      selector_call f = Some call /\ out = select_output_field_name f
  end.
Proof.
  induction fs as [|f fs IH]; cbn [find_selector].
  - destruct z as [[call out]|]; split; try done; [intros ([] & ? & ? & ? & _); done|constructor].
  - destruct (selector_call f) as [[[name args] k]|] eqn:E.
    + rewrite find_selector_found. destruct z as [[call out]|]; split.
      * intros [[= -> ->] Hr]. exists [], f, fs. split; [done|]. split; [constructor|done].
      * intros ([|g pre] & f0 & post & [= -> ->] & Hpre & Hpost & Hc & ->); [by rewrite E in Hc; injection Hc as <-|].
        apply Forall_cons in Hpre as [Hg _]. by rewrite reference_no_call in E.
      * by intros [? _].
      * intros [Hf _]%Forall_cons. by rewrite reference_no_call in E.
    + destruct (is_reference (fd_expr f)) eqn:Er.
      * rewrite IH. destruct z as [[call out]|]; [|unfold all_references; rewrite Forall_cons; tauto]. split.
        -- intros (pre & g & post & -> & Hpre & Hrest). exists (f :: pre), g, post. split; [done|]. split; [by constructor|done].
        -- intros ([|g pre] & f0 & post & [= -> ->] & Hpre & Hpost & Hc & ->); [congruence|].
           apply Forall_cons in Hpre as [_ Hpre]. by exists pre, f0, post.
      * split; [done|]. destruct z as [[call out]|]; [|intros [? _]%Forall_cons; congruence].
        intros ([|g pre] & f0 & post & [= -> ->] & Hpre & Hpost & Hc & ->); [congruence|].
        apply Forall_cons in Hpre as [? _]. congruence.
Qed.

Lemma tag_args_spec lname args ts : tag_args lname args = Ok ts <-> Forall2 (fun a t => ident a = Some t) args ts.
Proof.
  revert ts. induction args as [|a args IH]; intros ts; cbn.
  - split; [by intros [= <-]|]. by intros ->%Forall2_nil_inv_l.
  - destruct (ident a) as [t|] eqn:E; cbn.
    + destruct (tag_args lname args) as [ts'|] eqn:Et; cbn.
      * split; [intros [= <-]; constructor; [done|by apply IH]|].
        intros (t' & ts'' & Ht & Hts & ->)%Forall2_cons_inv_l. apply IH in Hts. congruence.
      * split; [done|]. intros (t' & ts'' & Ht & Hts & ->)%Forall2_cons_inv_l. by apply IH in Hts.
    + split; [done|]. intros (t' & ts'' & Ht & _)%Forall2_cons_inv_l. congruence.
Qed.

Lemma kind_selector f call : selector_call f = Some call <->
  exists name args k, fd_expr f = Call name args /\ kind_of name = Some k /\ call = (name, args, k).
Proof.
  unfold selector_call. destruct (fd_expr f); try (split; [done|by intros (? & ? & ? & ? & _)]). rewrite fmap_Some.
  split; [intros (k & Hk & ->); eauto 10|]. intros (? & ? & k & [= -> ->] & Hk & ->). eauto.
Qed.

(** Naming the fields keeps their expressions. *)
Lemma output_names_exprs stmt : fd_expr <$> sel_fields (with_output_names stmt) = fd_expr <$> sel_fields stmt.
Proof.
  unfold with_output_names. cbn [sel_fields with_fields].
  pose proof (name_fields_named (alias_names (sel_fields stmt)) (sel_fields stmt)) as H.
  induction H as [|f r fs rs [He _] _ IH]; [done|]. rewrite !fmap_cons. by rewrite He, IH.
Qed.

Lemma existsb_exprs (p : Expr -> bool) fs : existsb (fun f => p (fd_expr f)) fs = existsb p (fd_expr <$> fs).
Proof. induction fs as [|f fs IH]; [done|]. cbn. by rewrite IH. Qed.

Lemma last_snoc_cons {A} (x : A) l y : last (x :: l ++ [y]) = Some y.
Proof. change (x :: l ++ [y]) with ((x :: l) ++ [y]). apply last_snoc. Qed.

Lemma valid_contains stmt sel :
  valid_selector (sel_fields (with_output_names stmt)) sel ->
  existsb (fun f => contains_multi_selector (fd_expr f)) (sel_fields stmt) = true.
Proof.
  intros (pre & f & post & name & first & tags & n & Ef & _ & _ & Ee & Ek & _).
  rewrite existsb_exprs, <-output_names_exprs, Ef, fmap_app, fmap_cons, Ee, existsb_app. cbn [existsb contains_multi_selector].
  rewrite Ek. rewrite bool_decide_true by done. by rewrite orb_true_r.
Qed.

Lemma selector_of_call_spec name args kind output sel :
  selector_of_call name args kind output = Ok sel <->
  exists first tags n,
    args = first :: tags ++ [IntegerLiteral n] /\ kind = ms_kind sel /\ ident first = Some (ms_field sel) /\
    Forall2 (fun a t => ident a = Some t) tags (ms_tags sel) /\ (1 <= n)%Z /\ ms_n sel = Z.to_N n /\
    (ms_kind sel = Sampled -> tags = []) /\ ms_output sel = default (to_lowercase name) output.
Proof.
  unfold selector_of_call. destruct args as [|first rest]; [split; [done|by intros (? & ? & ? & ? & _)]|].
  destruct rest as [|x tags _] using rev_ind.
  { split; [done|]. intros (? & tags & n & [= _ E] & _). by destruct tags. }
  rewrite last_snoc_cons. cbn [length]. rewrite !length_app. cbn [length]. rewrite take_app_length' by lia.
  assert (Nat.ltb (S (length tags + 1)) 2 = false) as -> by (apply Nat.ltb_ge; lia). cbn [orb].
  destruct (bool_decide (kind = Sampled) && negb (Nat.eqb (S (length tags + 1)) 2)) eqn:Eb.
  { split; [done|]. intros (? & tags' & n & [= <- [<- _]%app_inj_tail] & -> & _ & _ & _ & _ & Hs & _).
    apply andb_true_iff in Eb as [Hk%bool_decide_eq_true Hl]. by rewrite (Hs Hk) in Hl. }
  assert (kind = Sampled -> tags = []) as Htags.
  { intros ->. rewrite bool_decide_true in Eb by done. apply negb_false_iff, Nat.eqb_eq in Eb. by destruct tags; [|cbn in Eb; lia]. }
  split.
  - destruct (ident first) as [field|] eqn:Ef; [|done]. cbn [ok_or mbind result_bind].
    destruct x as [| | |n| | | | | | | | | | |]; try done. cbn [selector_limit]. destruct (Z.leb_spec 1 n); [|done]. cbn [mbind result_bind].
    destruct (tag_args _ tags) as [ts|] eqn:Et; [|done]. intros [= <-]. apply tag_args_spec in Et. exists first, tags, n. by repeat split.
  - intros (? & tags' & n & [= <- [<- ->]%app_inj_tail] & -> & Hf & Ht & Hn & En & _ & Eo). rewrite Hf. cbn [ok_or mbind result_bind selector_limit].
    rewrite (proj2 (Z.leb_le 1 n)) by done. cbn [mbind result_bind]. rewrite (proj2 (tag_args_spec _ _ _) Ht). cbn [mbind result_bind].
    destruct sel. cbn in *. congruence.
Qed.

Lemma valid_selector_alt fs sel :
  valid_selector fs sel <-> exists name args kind output,
    find_selector fs fs None = Ok (Some (name, args, kind, output)) /\ selector_of_call name args kind output = Ok sel.
Proof.
  setoid_rewrite find_selector_spec. setoid_rewrite selector_of_call_spec. setoid_rewrite kind_selector. split.
  - intros (pre & f & post & name & first & tags & n & Hfs & Hpre & Hpost & He & Hk & Hf & Ht & Hn & En & Hs & Ho).
    exists name, (first :: tags ++ [IntegerLiteral n]), (ms_kind sel), (select_output_field_name f).
    split; [exists pre, f, post; eauto 10|]. by exists first, tags, n.
  - intros (name & args & kind & output & (pre & f & post & Hfs & Hpre & Hpost & (? & ? & ? & He & Hk & [= <- <- <-]) & ->) &
            (first & tags & n & -> & -> & Hf & Ht & Hn & En & Hs & Ho)).
    by exists pre, f, post, name, first, tags, n.
Qed.
End SelectorTheorems.

(** C31: The selector of a statement is found exactly when the statement uses it as
    InfluxDB allows: no selector means no call anywhere, a selector means one
    well-formed call beside plain references, and every other statement is
    refused. *)
Theorem multi_selector_correct `{ED : !ExprDebug} stmt :
  (multi_selector stmt = Ok None <-> forall f, f ∈ sel_fields stmt -> contains_multi_selector (fd_expr f) = false) /\
  (forall sel, multi_selector stmt = Ok (Some sel) <-> valid_selector (sel_fields (with_output_names stmt)) sel).
Proof.
  pose proof (valid_contains stmt) as Hcon. unfold multi_selector. setoid_rewrite valid_selector_alt.
  setoid_rewrite valid_selector_alt in Hcon. set (fs := sel_fields (with_output_names stmt)) in *.
  destruct (existsb (fun f => contains_multi_selector (fd_expr f)) (sel_fields stmt)) eqn:Ec; cbn [negb].
  - split.
    + split.
      * destruct (find_selector fs fs None) as [[[[[name args] k] o]|]|]; try done. cbn. by destruct (selector_of_call name args k o).
      * intros H. apply existsb_exists in Ec as (f & Hf%list_elem_of_In & Hc). by rewrite H in Hc.
    + intros sel. destruct (find_selector fs fs None) as [[[[[name args] k] o]|]|] eqn:E; cbn.
      * destruct (selector_of_call name args k o) as [s|] eqn:Es; cbn; (split; [try done|]).
        -- intros [= ->]. by exists name, args, k, o.
        -- intros (? & ? & ? & ? & [= <- <- <- <-] & Hs). congruence.
        -- intros (? & ? & ? & ? & [= <- <- <- <-] & Hs). congruence.
      * split; [done|]. by intros (? & ? & ? & ? & ? & _).
      * split; [done|]. by intros (? & ? & ? & ? & ? & _).
  - split; [split; [|done]|].
    + intros _ f Hf. apply not_true_is_false. intros Hc. apply not_true_iff_false in Ec. apply Ec, existsb_exists.
      exists f. by rewrite <-list_elem_of_In.
    + intros sel. split; [done|]. by intros H%Hcon.
Qed.
