(* ===== verification/CqSchedule.v ===== *)
(** * Continuous queries ([hyperbytedb/src/domain/cq_schedule.rs],
    [domain/continuous_query.rs], [application/continuous_query_service.rs])

    The schedule a [CREATE CONTINUOUS QUERY] statement gives, the boundary
    alignment, the coverage window of a run, the definition record, and the
    service's tick: leader gate, normalisation, due test, execution and the
    recording of the run. [chrono] is the class [Chrono]; the statement
    parser and the execution of [SELECT INTO] are arguments. *)

From stdpp Require Import prelude list sorting gmap strings pretty.
From S2P Require Import Prelude WalWriter QueryAst.
From stdpp Require Import options.

#[local] Open Scope Z_scope.

(** ** Machine integers *)

(** Two's complement: the value a release build keeps in an [i64]. *)
Definition wrap_i64 (z : Z) : Z := (z + 2 ^ 63) mod 2 ^ 64 - 2 ^ 63.

(** [u64 as i64] and [i64 as u64]. *)
Definition as_i64 (n : N) : Z := wrap_i64 (Z.of_N n).

Definition as_u64 (z : Z) : N := Z.to_N (z mod 2 ^ 64).

(** [i64::div_euclid]: the remainder is never negative. *)
Definition div_euclid (a b : Z) : Z := if 0 <? b then a / b else - (a / - b).

(** ** Statements ([timeseriesql/ast.rs]) *)

Inductive Statement := StSelect (s : SelectStatement) | StOther.

Record CreateContinuousQueryStatement := mkCreateCq {
  cc_name : string;
  cc_database : string;
  cc_query : SelectStatement;
  cc_raw_query : string;
  cc_resample_every : option Duration;
  cc_resample_for : option Duration
}.

Inductive CqError :=
| CqQueryParse (msg : string)
| CqInternal (msg : string)
| CqFailed (msg : string).

(** ** Alignment and schedule *)

Definition bucket_start (unix_secs : Z) (interval_secs offset_secs : N) : Z :=
  if (interval_secs =? 0)%N then unix_secs
  else
    let interval := as_i64 interval_secs in
    let offset := as_i64 offset_secs in
    let shifted := wrap_i64 (unix_secs - offset) in
    let bucket := wrap_i64 (div_euclid shifted interval * interval) in
    wrap_i64 (bucket + offset).

Definition duration_to_secs (d : Duration) : result CqError N :=
  let nanos := duration_to_nanos d in
  if nanos <=? 0 then Err (CqQueryParse "duration must be positive")
  else Ok (as_u64 (Z.quot nanos 1000000000)).

Definition group_by_required {A} : result CqError A :=
  Err (CqQueryParse "continuous query requires GROUP BY time(<interval>)").

Definition query_interval_secs (q : SelectStatement) : result CqError N :=
  match sel_group_by q with
  | None => group_by_required
  | Some dims =>
    match time_dimension dims with
    | Some (DimTime interval _) => duration_to_secs interval
    | _ => group_by_required
    end
  end.

Definition query_offset_secs (q : SelectStatement) : result CqError N :=
  match sel_group_by q with
  | None => group_by_required
  | Some dims =>
    match time_dimension dims with
    | Some (DimTime _ (Some o)) => duration_to_secs o
    | _ => Ok 0%N
    end
  end.

(** [.as_ref().map(duration_to_secs).transpose()?]. *)
Definition opt_secs (d : option Duration) : result CqError (option N) :=
  match d with
  | None => Ok None
  | Some d => s ← duration_to_secs d; Ok (Some s)
  end.

Record ScheduleMeta := mkMeta {
  sm_group_by_interval_secs : N;
  sm_group_by_offset_secs : N;
  sm_execution_interval_secs : N;
  sm_coverage_interval_secs : N;
  sm_resample_every_secs : option N;
  sm_resample_for_secs : option N;
  sm_is_advanced : bool
}.

Definition for_error {A} (min_for for_secs : N) : result CqError A :=
  Err (CqQueryParse ("FOR duration must be >= GROUP BY time duration: must be a minimum of "
                     +:+ pretty min_for +:+ "s got " +:+ pretty for_secs +:+ "s")).

Definition derive_schedule (cq : CreateContinuousQueryStatement) : result CqError ScheduleMeta :=
  group ← query_interval_secs (cc_query cq);
  offset ← query_offset_secs (cc_query cq);
  every ← opt_secs (cc_resample_every cq);
  for_ ← opt_secs (cc_resample_for cq);
  let is_advanced := bool_decide (is_Some every) || bool_decide (is_Some for_) in
  let execution := default group every in
  let short :=
    match for_ with
    | Some f => if (f <? N.max execution group)%N then Some f else None
    | None => None
    end in
  match short with
  | Some f => for_error (N.max execution group) f
  | None =>
    let coverage :=
      match for_ with
      | Some f => f
      | None =>
        if is_advanced && bool_decide (is_Some every) && (group <? execution)%N
        then execution else group
      end in
    Ok (mkMeta group offset execution coverage every for_ is_advanced)
  end.

(** ** The stored definition *)

Record ContinuousQueryDef := mkCq {
  cq_name : string;
  cq_database : string;
  cq_query_text : string;
  cq_resample_every_secs : option N;
  cq_resample_for_secs : option N;
  cq_created_at : string;
  cq_group_by_interval_secs : N;
  cq_group_by_offset_secs : N;
  cq_execution_interval_secs : N;
  cq_coverage_interval_secs : N;
  cq_is_advanced : bool;
  cq_last_run_at : option string;
  cq_influxql_names : bool
}.

(** [ScheduleMeta::apply_to]. *)
Definition apply_to (meta : ScheduleMeta) (d : ContinuousQueryDef) : ContinuousQueryDef :=
  mkCq (cq_name d) (cq_database d) (cq_query_text d) (cq_resample_every_secs d)
    (cq_resample_for_secs d) (cq_created_at d) (sm_group_by_interval_secs meta)
    (sm_group_by_offset_secs meta) (sm_execution_interval_secs meta)
    (sm_coverage_interval_secs meta) (sm_is_advanced meta) (cq_last_run_at d)
    (cq_influxql_names d).

Definition schedule_from_def (d : ContinuousQueryDef) : ScheduleMeta :=
  mkMeta (cq_group_by_interval_secs d) (cq_group_by_offset_secs d)
    (cq_execution_interval_secs d) (cq_coverage_interval_secs d) (cq_resample_every_secs d)
    (cq_resample_for_secs d) (cq_is_advanced d).

Definition set_last_run (s : string) (d : ContinuousQueryDef) : ContinuousQueryDef :=
  mkCq (cq_name d) (cq_database d) (cq_query_text d) (cq_resample_every_secs d)
    (cq_resample_for_secs d) (cq_created_at d) (cq_group_by_interval_secs d)
    (cq_group_by_offset_secs d) (cq_execution_interval_secs d) (cq_coverage_interval_secs d)
    (cq_is_advanced d) (Some s) (cq_influxql_names d).

Definition secs_to_duration (secs : N) : Duration := mkDuration (as_i64 secs) Second.

(** [ContinuousQueryDef::from_create]; [created_at] is the clock's reading. *)
Definition from_create (created_at : string) (cq : CreateContinuousQueryStatement)
    : result CqError ContinuousQueryDef :=
  match sel_into (cc_query cq) with
  | None => Err (CqQueryParse "continuous query requires SELECT INTO")
  | Some _ =>
    meta ← derive_schedule cq;
    Ok (apply_to meta
          (mkCq (cc_name cq) (cc_database cq) (cc_raw_query cq) (sm_resample_every_secs meta)
             (sm_resample_for_secs meta) created_at 0 0 0 0 false None true))
  end.

(** [ContinuousQueryDef::normalize] over the statement parser. *)
Definition normalize (parse_query : string -> result CqError (list Statement))
    (d : ContinuousQueryDef) : result CqError ContinuousQueryDef :=
  if (0 <? cq_group_by_interval_secs d)%N && (0 <? cq_execution_interval_secs d)%N then Ok d
  else
    stmts ← parse_query (cq_query_text d);
    match stmts with
    | StSelect s :: _ =>
      meta ← derive_schedule
               (mkCreateCq (cq_name d) (cq_database d) s (cq_query_text d)
                  (secs_to_duration <$> cq_resample_every_secs d)
                  (secs_to_duration <$> cq_resample_for_secs d));
      Ok (apply_to meta d)
    | _ => Err (CqQueryParse "continuous query body must be a SELECT statement")
    end.

(** ** Clock *)

Inductive LocalResult (A : Type) :=
| LSingle (a : A)
| LNone
| LAmbiguous (a b : A).
Arguments LSingle {A} a.
Arguments LNone {A}.
Arguments LAmbiguous {A} a b.

(** What the sources use of [chrono]. *)
Class Chrono := {
  DateTime : Type;
  timestamp : DateTime -> Z;
  timestamp_opt : Z -> LocalResult DateTime;
  timestamp_nanos_opt : DateTime -> option Z;
  parse_from_rfc3339 : string -> option DateTime;
  to_rfc3339 : DateTime -> string
}.

(** Seconds every build of [chrono] can represent (about 253,000 years
    either way), and a bound on what it can represent at all. *)
Definition chrono_safe : Z := 8000000000000.
Definition chrono_limit : Z := 9000000000000.

Class ChronoLaws `(C : Chrono) := {
  timestamp_bounded d : - chrono_limit <= timestamp d <= chrono_limit;
  timestamp_opt_safe s : - chrono_safe <= s <= chrono_safe ->
    exists d, timestamp_opt s = LSingle d;
  timestamp_opt_exact s d : timestamp_opt s = LSingle d ->
    timestamp d = s /\
    (i64_min <= s * 1000000000 <= i64_max -> timestamp_nanos_opt d = Some (s * 1000000000));
  rfc3339_roundtrip d : parse_from_rfc3339 (to_rfc3339 d) = Some d
}.

Section Service.
Context `{C : Chrono}.
Context (parse_query : string -> result CqError (list Statement)).

Record CqWindow := mkWindow { w_start : DateTime; w_end : DateTime }.

Definition unix_timestamp (secs : Z) : result CqError DateTime :=
  match timestamp_opt secs with
  | LSingle dt => Ok dt
  | LNone | LAmbiguous _ _ =>
    Err (CqInternal ("invalid unix timestamp for CQ coverage window: " +:+ pretty secs +:+ "s"))
  end.

Definition window_from_unix (start_secs end_secs : Z) : result CqError CqWindow :=
  s ← unix_timestamp start_secs;
  e ← unix_timestamp end_secs;
  Ok (mkWindow s e).

Definition last_run_time (d : ContinuousQueryDef) (fallback : DateTime) : DateTime :=
  match cq_last_run_at d ≫= parse_from_rfc3339 with
  | Some t => t
  | None => default fallback (parse_from_rfc3339 (cq_created_at d))
  end.

Definition should_run (now : DateTime) (d : ContinuousQueryDef) : bool :=
  let exec_secs := N.max (cq_execution_interval_secs d) 1 in
  let offset := cq_group_by_offset_secs d in
  let last := last_run_time d now in
  let current_boundary := bucket_start (timestamp now) exec_secs offset in
  let last_boundary := bucket_start (timestamp last) exec_secs offset in
  (current_boundary <=? timestamp now) && (last_boundary <? current_boundary).

(** The bounds [coverage_window_from_meta] hands to [window_from_unix]. *)
Definition coverage_bounds (now : Z) (meta : ScheduleMeta) : Z * Z :=
  let offset := sm_group_by_offset_secs meta in
  let group_secs := as_i64 (sm_group_by_interval_secs meta) in
  let exec_secs := as_i64 (sm_execution_interval_secs meta) in
  match sm_resample_for_secs meta with
  | Some f =>
    let end_ := bucket_start now (sm_execution_interval_secs meta) offset in
    (wrap_i64 (end_ - as_i64 f), end_)
  | None =>
    if sm_is_advanced meta && bool_decide (is_Some (sm_resample_every_secs meta)) then
      if group_secs <? exec_secs then (wrap_i64 (now - exec_secs), now)
      else
        let start := bucket_start now (sm_group_by_interval_secs meta) offset in
        (start, wrap_i64 (start + group_secs))
    else
      let end_ := bucket_start now (sm_group_by_interval_secs meta) offset in
      (wrap_i64 (end_ - group_secs), end_)
  end.

Definition coverage_window_from_meta (now : DateTime) (meta : ScheduleMeta)
    : result CqError CqWindow :=
  let '(s, e) := coverage_bounds (timestamp now) meta in window_from_unix s e.

Definition coverage_window (now : DateTime) (d : ContinuousQueryDef) : result CqError CqWindow :=
  coverage_window_from_meta now (schedule_from_def d).

(** ** One run

    What the rest of the node does at a tick: who leads, what
    [execute_select_into] returns for a definition, its nanosecond bounds
    and its whole-buckets flag, and what [store_continuous_query] does. The
    latter is two answers, whether the row was written and what the caller
    sees, because a timed-out run reports an error for either. *)
Record TickEnv := mkTick {
  te_now : DateTime;
  te_leader : bool;
  te_exec : ContinuousQueryDef -> Z -> Z -> bool -> result CqError N;
  te_store : ContinuousQueryDef -> bool * result CqError unit
}.

#[local] Abbreviation cq_id := (string * string)%type.

Definition id_of (d : ContinuousQueryDef) : cq_id := (cq_database d, cq_name d).

Definition cq_store : Type := gmap cq_id ContinuousQueryDef.

(** What a run wrote: the definition it ran, and the window. *)
Record CqRun := mkRun { run_def : ContinuousQueryDef; run_window : CqWindow; run_points : N }.

Definition window_nanos (w : CqWindow) : Z * Z :=
  (default 0 (timestamp_nanos_opt (w_start w)), default 0 (timestamp_nanos_opt (w_end w))).

(** [execute_continuous_query_inner]: the store afterwards, the run when
    rows were written, and the answer. *)
Definition execute_continuous_query_inner (env : TickEnv) (d : ContinuousQueryDef)
    (st : cq_store) : cq_store * option CqRun * result CqError CqWindow :=
  match coverage_window (te_now env) d with
  | Err e => (st, None, Err e)
  | Ok w =>
    let '(start_nanos, end_nanos) := window_nanos w in
    match parse_query (cq_query_text d) with
    | Err e => (st, None, Err e)
    | Ok (StSelect _ :: _) =>
      match te_exec env d start_nanos end_nanos (negb (cq_is_advanced d)) with
      | Err e => (st, None, Err e)
      | Ok points =>
        let d' := set_last_run (to_rfc3339 (te_now env)) d in
        let '(stored, answer) := te_store env d' in
        let st' := if stored then <[id_of d := d']> st else st in
        (st', Some (mkRun d w points), match answer with Ok _ => Ok w | Err e => Err e end)
      end
    | Ok _ => (st, None, Err (CqQueryParse "continuous query body must be a SELECT statement"))
    end
  end.

Definition execute_continuous_query (env : TickEnv) (d : ContinuousQueryDef) (st : cq_store)
    : cq_store * option CqRun * result CqError CqWindow :=
  match normalize parse_query d with
  | Err e => (st, None, Err e)
  | Ok d' =>
    if should_run (te_now env) d' then execute_continuous_query_inner env d' st
    else (st, None, Err (CqQueryParse "continuous query is not due at this time"))
  end.

(** ** The service *)

(** One pass of the loop of [run_pending_queries]. *)
Definition run_one (env : TickEnv) (acc : cq_store * list CqRun) (d : ContinuousQueryDef)
    : cq_store * list CqRun :=
  let '(st, runs) := acc in
  match normalize parse_query d with
  | Err _ => (st, runs)
  | Ok d' =>
    if should_run (te_now env) d' then
      let '(st', run, _) := execute_continuous_query env d' st in
      (st', runs ++ option_list run)
    else (st, runs)
  end.

Definition list_all (st : cq_store) : list ContinuousQueryDef := (map_to_list st).*2.

Definition run_pending_queries (env : TickEnv) (st : cq_store) : cq_store * list CqRun :=
  if te_leader env then fold_left (run_one env) (list_all st) (st, []) else (st, []).

(** The service's loop over a sequence of ticks, with everything it ran. *)
Fixpoint run_ticks (envs : list TickEnv) (st : cq_store) : cq_store * list CqRun :=
  match envs with
  | [] => (st, [])
  | env :: rest =>
    let '(st1, runs1) := run_pending_queries env st in
    let '(st2, runs2) := run_ticks rest st1 in
    (st2, runs1 ++ runs2)
  end.

(** The runs of one query. *)
Definition runs_of (id : cq_id) (runs : list CqRun) : list CqRun :=
  List.filter (fun r => bool_decide (id_of (run_def r) = id)) runs.

End Service.
Arguments CqWindow C : clear implicits.
Arguments TickEnv C : clear implicits.
Arguments CqRun C : clear implicits.
