(* ===== verification/CqTheorems.v ===== *)
(** * Continuous queries: theorems

    Alignment and the derived schedule within machine bounds; the service as
    one independent loop per query; the windows of a query whose runs are
    aligned to boundaries; and what the other window rules leave out. *)

From stdpp Require Import prelude list sorting gmap strings pretty.
From S2P Require Import Prelude WalWriter QueryAst CqSchedule.
From stdpp Require Import options.

#[local] Open Scope Z_scope.

#[local] Abbreviation cq_id := (string * string)%type.

(** ** Vocabulary *)

(** No schedule derived from a statement is longer than this many seconds:
    a duration saturates at [i64::MAX] nanoseconds. *)
Definition secs_limit : N := 9223372036.

(** Boundaries in exact arithmetic. *)
Definition aligned (ts interval offset : Z) : Z := (ts - offset) / interval * interval + offset.

(** The instant the due test compares with. *)
Definition last_known `{C : Chrono} (d : ContinuousQueryDef) : option DateTime :=
  match cq_last_run_at d ≫= parse_from_rfc3339 with
  | Some t => Some t
  | None => parse_from_rfc3339 (cq_created_at d)
  end.

(** The schedule is [e] seconds between runs, [o] of offset, and a window of
    the [f] seconds before the boundary: the rule of a plain query ([f] and
    [e] are the interval) and of one with [FOR]. *)
Definition boundary_schedule (d : ContinuousQueryDef) (e o f : N) : Prop :=
  cq_execution_interval_secs d = e /\ cq_group_by_offset_secs d = o /\
  (0 < cq_group_by_interval_secs d)%N /\
  match cq_resample_for_secs d with
  | Some f' => f' = f
  | None => cq_is_advanced d = false /\ cq_group_by_interval_secs d = e /\ f = e
  end /\
  (0 < e <= secs_limit)%N /\ (o <= secs_limit)%N /\ (e <= f <= secs_limit)%N.

(** Instants a run can compute a window for. *)
Definition tick_in_range `{C : Chrono} (env : TickEnv C) : Prop :=
  -7000000000000 <= timestamp (te_now env) <= 7000000000000.

Definition store_keyed (st : cq_store) : Prop := forall id d, st !! id = Some d -> id_of d = id.

(** What one tick does to one query, the rest of the store left out. *)
Definition run_effect `{C : Chrono} (parse : string -> result CqError (list Statement))
    (env : TickEnv C) (d : ContinuousQueryDef) : option ContinuousQueryDef * option (CqRun C) :=
  match normalize parse d with
  | Err _ => (None, None)
  | Ok d' =>
    if should_run (te_now env) d' then
      let '(st, run, _) := execute_continuous_query parse env d' ∅ in (st !! id_of d', run)
    else (None, None)
  end.

Definition tick_def `{C : Chrono} parse (env : TickEnv C) (d : ContinuousQueryDef)
    : ContinuousQueryDef * list (CqRun C) :=
  if te_leader env then
    let '(d', run) := run_effect parse env d in (default d d', option_list run)
  else (d, []).

Fixpoint run_def_ticks `{C : Chrono} parse (envs : list (TickEnv C)) (d : ContinuousQueryDef)
    : ContinuousQueryDef * list (CqRun C) :=
  match envs with
  | [] => (d, [])
  | env :: rest =>
    let '(d1, r1) := tick_def parse env d in
    let '(d2, r2) := run_def_ticks parse rest d1 in
    (d2, r1 ++ r2)
  end.

(** The window of a run, in seconds. *)
Definition window_secs `{C : Chrono} (r : CqRun C) : Z * Z :=
  (timestamp (w_start (run_window r)), timestamp (w_end (run_window r))).

(** The boundaries at which a query runs: each tick gives its boundary and
    whether it can run there. *)
Fixpoint due (last : Z) (ticks : list (Z * bool)) : list Z :=
  match ticks with
  | [] => []
  | (b, ok) :: rest => if (last <? b) && ok then b :: due b rest else due last rest
  end.

(** ** Machine arithmetic *)

Lemma wrap_small z : - 2 ^ 63 <= z < 2 ^ 63 -> wrap_i64 z = z.
Proof. intros H. unfold wrap_i64. rewrite Z.mod_small by lia. lia. Qed.

Lemma as_i64_small n : (n <= 2 * secs_limit)%N -> as_i64 n = Z.of_N n.
Proof. intros H. unfold secs_limit in H. apply wrap_small. lia. Qed.

Lemma aligned_bounds ts i o : 0 < i -> aligned ts i o <= ts < aligned ts i o + i.
Proof.
  intros Hi. unfold aligned. pose proof (Z.mod_pos_bound (ts - o) i Hi).
  pose proof (Z.div_mod (ts - o) i). nia.
Qed.

Lemma bucket_start_aligned ts i o :
  (0 < i <= secs_limit)%N -> (o <= secs_limit)%N -> - 2 ^ 62 <= ts <= 2 ^ 62 ->
  bucket_start ts i o = aligned ts (Z.of_N i) (Z.of_N o).
Proof.
  intros Hi Ho Ht. pose proof (aligned_bounds ts (Z.of_N i) (Z.of_N o) ltac:(lia)) as Hb.
  unfold bucket_start. destruct (i =? 0)%N eqn:E; [apply N.eqb_eq in E; lia|].
  rewrite !as_i64_small by lia. unfold div_euclid, aligned in *. unfold secs_limit in *.
  rewrite (wrap_small (ts - Z.of_N o)) by lia.
  destruct (0 <? Z.of_N i) eqn:E2; [|apply Z.ltb_ge in E2; lia].
  revert Hb. generalize ((ts - Z.of_N o) / Z.of_N i * Z.of_N i). intros q Hb.
  rewrite !(wrap_small q), wrap_small; lia.
Qed.

Lemma aligned_step a b i o :
  0 < i -> aligned a i o < aligned b i o -> aligned a i o + i <= aligned b i o.
Proof.
  unfold aligned. generalize ((a - o) / i) ((b - o) / i). intros p q Hi H.
  assert (p < q) by nia. nia.
Qed.

Lemma aligned_mono a b i o : 0 < i -> a <= b -> aligned a i o <= aligned b i o.
Proof.
  intros Hi H. unfold aligned. pose proof (Z.div_le_mono (a - o) (b - o) i Hi ltac:(lia)). nia.
Qed.

(** The boundary is the only aligned instant at most one interval back. *)
Lemma aligned_unique ts i o b :
  0 < i -> (exists q, b = q * i + o) -> b <= ts < b + i -> aligned ts i o = b.
Proof.
  intros Hi [q ->] H. unfold aligned.
  replace ((ts - o) / i) with q; [done|].
  apply Z.div_unique_pos with (ts - o - q * i); lia.
Qed.

(** ** Derived schedules *)

Lemma duration_to_secs_ok d n :
  duration_to_secs d = Ok n ->
  (n <= secs_limit)%N /\ Z.of_N n = duration_to_nanos d / 1000000000.
Proof.
  unfold duration_to_secs. destruct (duration_to_nanos d <=? 0) eqn:E; [done|].
  apply Z.leb_gt in E. intros [= <-]. unfold as_u64.
  rewrite Z.quot_div_nonneg by lia.
  assert (duration_to_nanos d <= i64_max).
  { unfold duration_to_nanos, sat_mul_i64, i64_min, i64_max. lia. }
  assert (0 <= duration_to_nanos d / 1000000000 <= 9223372036) as Hb.
  { split; [apply Z.div_pos; lia|]. unfold i64_max in *.
    transitivity ((2 ^ 63 - 1) / 1000000000); [apply Z.div_le_mono; lia|]. by vm_compute. }
  rewrite Z.mod_small by lia. unfold secs_limit. lia.
Qed.

Lemma opt_secs_ok d o :
  opt_secs d = Ok o ->
  match d, o with
  | None, None => True
  | Some d, Some n => duration_to_secs d = Ok n
  | _, _ => False
  end.
Proof.
  destruct d as [d|]; cbn; [|by intros [= <-]].
  destruct (duration_to_secs d); cbn; [|done]. by intros [= <-].
Qed.

(** ** Queries do not interfere *)

Section Projection.
Context `{C : Chrono}.
Context (parse : string -> result CqError (list Statement)).

Definition put_def (id : cq_id) (o : option ContinuousQueryDef) (st : cq_store) : cq_store :=
  match o with Some d => <[id := d]> st | None => st end.

Lemma put_def_empty id o : put_def id o ∅ !! id = o.
Proof. destruct o; [apply lookup_insert_eq|apply lookup_empty]. Qed.

Lemma put_def_same id d st : put_def id (Some d) st !! id = Some d.
Proof. apply lookup_insert_eq. Qed.

Lemma put_def_other id id' o st : id' ≠ id -> put_def id' o st !! id = st !! id.
Proof. intros H. destruct o; [by apply lookup_insert_ne|done]. Qed.

Lemma normalize_id d d' : normalize parse d = Ok d' -> id_of d' = id_of d.
Proof.
  unfold normalize. destruct (_ && _); [by intros [= ->]|].
  destruct (parse (cq_query_text d)) as [[|[s|] l]|]; cbn; try done.
  destruct (derive_schedule _); cbn; [|done]. by intros [= <-].
Qed.

(** A run changes nothing but the row of its own query, whatever else the
    store holds. *)
Lemma execute_shape (env : TickEnv C) d :
  exists upd run ans,
    (forall st, execute_continuous_query parse env d st = (put_def (id_of d) upd st, run, ans)) /\
    (forall d', upd = Some d' -> id_of d' = id_of d) /\
    (forall r, run = Some r -> id_of (run_def r) = id_of d).
Proof.
  unfold execute_continuous_query. destruct (normalize parse d) as [d1|e] eqn:En;
    [|by exists None, None, (Err e)].
  apply normalize_id in En. rewrite <-En.
  destruct (should_run (te_now env) d1); [|by eexists None, None, _].
  unfold execute_continuous_query_inner.
  destruct (coverage_window (te_now env) d1) as [w|e]; [|by exists None, None, (Err e)].
  destruct (window_nanos w) as [s t].
  destruct (parse (cq_query_text d1)) as [[|[q|] l]|e]; try (by eexists None, None, _).
  destruct (te_exec env d1 s t _) as [n|e]; [|by exists None, None, (Err e)].
  destruct (te_store env _) as [[|] a].
  - eexists (Some _), (Some _), _. split; [done|]. split; by intros ? [= <-].
  - eexists None, (Some _), _. split; [done|]. split; [done|]. by intros ? [= <-].
Qed.

Lemma run_one_effect (env : TickEnv C) st runs d :
  let '(upd, run) := run_effect parse env d in
  run_one parse env (st, runs) d = (put_def (id_of d) upd st, runs ++ option_list run) /\
  (forall d', upd = Some d' -> id_of d' = id_of d) /\
  (forall r, run = Some r -> id_of (run_def r) = id_of d).
Proof.
  unfold run_effect, run_one. destruct (normalize parse d) as [d1|e] eqn:En;
    [|cbn; by rewrite app_nil_r].
  apply normalize_id in En. destruct (should_run (te_now env) d1); [|cbn; by rewrite app_nil_r].
  destruct (execute_shape env d1) as (upd & run & ans & Heq & Hu & Hr). rewrite !Heq, En in *.
  split; [|split].
  - by rewrite put_def_empty.
  - intros d'. rewrite put_def_empty. apply Hu.
  - by apply Hr.
Qed.

Lemma runs_of_app id (l k : list (CqRun C)) : runs_of id (l ++ k) = runs_of id l ++ runs_of id k.
Proof. apply filterb_app. Qed.

Lemma runs_of_option id (o : option (CqRun C)) d :
  (forall r, o = Some r -> id_of (run_def r) = id_of d) ->
  runs_of id (option_list o) = if decide (id_of d = id) then option_list o else [].
Proof.
  intros H. destruct o as [r|]; cbn; [|by case_decide]. rewrite (H r eq_refl).
  by destruct (decide (id_of d = id)); [rewrite bool_decide_eq_true_2|rewrite bool_decide_eq_false_2].
Qed.

(** Passing over a list of queries with distinct names. *)
Lemma fold_run_one (env : TickEnv C) l st runs id :
  NoDup (id_of <$> l) ->
  let out := fold_left (run_one parse env) l (st, runs) in
  let mine := find (fun d => bool_decide (id_of d = id)) l in
  out.1 !! id = match mine with
                | Some d => put_def id (run_effect parse env d).1 st !! id
                | None => st !! id
                end /\
  runs_of id out.2 = runs_of id runs
    ++ match mine with Some d => option_list (run_effect parse env d).2 | None => [] end.
Proof.
  revert st runs. induction l as [|x l IH]; intros st runs Hnd; cbn [fold_left find].
  { by rewrite app_nil_r. }
  apply NoDup_cons in Hnd as [Hx Hnd].
  pose proof (run_one_effect env st runs x) as He.
  destruct (run_effect parse env x) as [upd run] eqn:Ee. destruct He as (He & Hu & Hr).
  rewrite He. destruct (IH (put_def (id_of x) upd st) (runs ++ option_list run) Hnd) as [H1 H2].
  cbn zeta in *. rewrite H1, H2, runs_of_app, (runs_of_option _ _ x Hr).
  destruct (decide (id_of x = id)) as [E|E].
  - rewrite bool_decide_eq_true_2 by done.
    assert (find (fun d => bool_decide (id_of d = id)) l = None) as ->.
    { destruct (find _ l) as [y|] eqn:Ef; [|done].
      apply find_Some_elem in Ef as [Hy Hb%bool_decide_eq_true]. exfalso. apply Hx.
      rewrite E, <-Hb. by apply list_elem_of_fmap_2. }
    rewrite E, Ee, app_nil_r. done.
  - rewrite bool_decide_eq_false_2 by done. rewrite app_nil_r.
    assert (forall o, put_def id o (put_def (id_of x) upd st) !! id = put_def id o st !! id) as Hp.
    { intros [y|]; [by rewrite !put_def_same|]. cbn [put_def].
      by apply put_def_other. }
    split; [|done]. destruct (find _ l); [apply Hp|apply (Hp None)].
Qed.

Lemma list_all_find (st : cq_store) id d :
  store_keyed st -> st !! id = Some d ->
  NoDup (id_of <$> list_all st) /\
  find (fun d => bool_decide (id_of d = id)) (list_all st) = Some d.
Proof.
  intros Hk Hd.
  assert (Hfst : id_of <$> list_all st = (map_to_list st).*1).
  { unfold list_all. rewrite <-list_fmap_compose. apply list_fmap_ext. intros i [k x] Hi. cbn.
    apply Hk. apply elem_of_map_to_list. by eapply list_elem_of_lookup_2. }
  split; [rewrite Hfst; apply NoDup_fst_map_to_list|].
  destruct (find _ _) as [x|] eqn:Ef.
  - apply find_Some_elem in Ef as [Hx Hb%bool_decide_eq_true].
    unfold list_all in Hx. apply list_elem_of_fmap in Hx as ([k y] & -> & Hy).
    apply elem_of_map_to_list in Hy. cbn in *. rewrite (Hk _ _ Hy) in Hb. subst.
    rewrite <-Hd. symmetry. exact Hy.
  - pose proof (find_None_elem _ _ Ef d) as Hn. cbn in Hn.
    rewrite bool_decide_eq_true_2 in Hn by (by apply Hk). discriminate Hn.
    unfold list_all. apply list_elem_of_fmap. exists (id, d). split; [done|].
    by apply elem_of_map_to_list.
Qed.

Lemma fold_keyed (env : TickEnv C) l st runs :
  store_keyed st -> store_keyed (fold_left (run_one parse env) l (st, runs)).1.
Proof.
  revert st runs. induction l as [|x l IH]; intros st runs Hk; cbn [fold_left]; [done|].
  pose proof (run_one_effect env st runs x) as He.
  destruct (run_effect parse env x) as [upd run]. destruct He as (-> & Hu & _).
  apply IH. intros id d. destruct (decide (id_of x = id)) as [<-|Hne].
  - destruct upd as [u|]; [|apply Hk]. rewrite put_def_same. intros [= <-]. by apply Hu.
  - rewrite put_def_other by done. apply Hk.
Qed.

Lemma pending_project (env : TickEnv C) st id d :
  store_keyed st -> st !! id = Some d ->
  let out := run_pending_queries parse env st in
  out.1 !! id = Some (tick_def parse env d).1 /\
  runs_of id out.2 = (tick_def parse env d).2 /\ store_keyed out.1.
Proof.
  intros Hk Hd. unfold run_pending_queries, tick_def. destruct (te_leader env); [|done].
  destruct (list_all_find _ _ _ Hk Hd) as [Hnd Hf].
  destruct (fold_run_one env (list_all st) st [] id Hnd) as [H1 H2].
  cbn zeta in *. rewrite Hf in H1, H2.
  destruct (run_effect parse env d) as [upd run] eqn:Ee. cbn [fst snd] in *.
  split; [|split; [done|by apply fold_keyed]]. rewrite H1.
  destruct upd as [u|]; [apply put_def_same|done].
Qed.

(** Each query sees its own sequence of ticks and nothing of the others. *)
Lemma ticks_project (envs : list (TickEnv C)) st id d :
  store_keyed st -> st !! id = Some d ->
  (run_ticks parse envs st).1 !! id = Some (run_def_ticks parse envs d).1 /\
  runs_of id (run_ticks parse envs st).2 = (run_def_ticks parse envs d).2.
Proof.
  revert st d. induction envs as [|env envs IH]; intros st d Hk Hd; cbn; [done|].
  destruct (pending_project env st id d Hk Hd) as (H1 & H2 & H3).
  destruct (run_pending_queries parse env st) as [st1 r1], (tick_def parse env d) as [d1 q1].
  cbn [fst snd] in *. destruct (IH st1 d1 H3 H1) as [H4 H5].
  destruct (run_ticks parse envs st1), (run_def_ticks parse envs d1). cbn [fst snd] in *.
  by rewrite runs_of_app, H2, H5.
Qed.
End Projection.

(** ** Boundary schedules *)

Section Boundary.
Context {C : Chrono} {CL : ChronoLaws C}.
Context (parse : string -> result CqError (list Statement)).

Lemma boundary_normalized d e o f : boundary_schedule d e o f -> normalize parse d = Ok d.
Proof.
  intros (He & _ & Hg & _ & Hpos & _). unfold normalize. rewrite He.
  rewrite (proj2 (N.ltb_lt _ _) Hg), (proj2 (N.ltb_lt _ _)) by lia. done.
Qed.

Lemma last_known_time d t now : last_known d = Some t -> last_run_time d now = t.
Proof.
  unfold last_known, last_run_time. destruct (cq_last_run_at d ≫= _); [by intros [= ->]|].
  by intros ->.
Qed.

Lemma last_known_set d t : last_known (set_last_run (to_rfc3339 t) d) = Some t.
Proof using CL. unfold last_known. cbn. by rewrite rfc3339_roundtrip. Qed.

Lemma timestamp_small d : - 2 ^ 62 <= timestamp d <= 2 ^ 62.
Proof using CL. pose proof (timestamp_bounded d) as H. unfold chrono_limit in H. lia. Qed.

(** A query is due when its boundary has moved. *)
Lemma due_test d e o f t now :
  boundary_schedule d e o f -> last_known d = Some t ->
  should_run now d
  = (aligned (timestamp t) (Z.of_N e) (Z.of_N o)
     <? aligned (timestamp now) (Z.of_N e) (Z.of_N o)).
Proof using CL.
  intros (He & Ho & _ & _ & Hpos & Hol & _) Ht. unfold should_run.
  rewrite (last_known_time _ _ now Ht), He, Ho, N.max_l by lia.
  rewrite !bucket_start_aligned by (done || apply timestamp_small).
  pose proof (aligned_bounds (timestamp now) (Z.of_N e) (Z.of_N o) ltac:(lia)).
  rewrite (proj2 (Z.leb_le _ _)) by lia. done.
Qed.

Lemma boundary_window d e o f (env : TickEnv C) :
  boundary_schedule d e o f -> tick_in_range env ->
  let b := aligned (timestamp (te_now env)) (Z.of_N e) (Z.of_N o) in
  exists w, coverage_window (te_now env) d = Ok w /\
    timestamp (w_start w) = b - Z.of_N f /\ timestamp (w_end w) = b.
Proof using CL.
  intros (He & Ho & _ & Hf & Hpos & Hol & Hfl) Hr b.
  pose proof (aligned_bounds (timestamp (te_now env)) (Z.of_N e) (Z.of_N o) ltac:(lia)) as Hb.
  fold b in Hb. unfold tick_in_range in Hr. unfold secs_limit in *.
  assert (Hcov : coverage_bounds (timestamp (te_now env)) (schedule_from_def d)
                 = (b - Z.of_N f, b)).
  { unfold coverage_bounds. cbn. rewrite He, Ho.
    assert (bucket_start (timestamp (te_now env)) e o = b) as Hbk.
    { apply bucket_start_aligned; [done|done|apply timestamp_small]. }
    destruct (cq_resample_for_secs d) as [f'|].
    - subst f'. rewrite Hbk, as_i64_small, wrap_small by (unfold secs_limit; lia). done.
    - destruct Hf as (-> & Hge & ->). cbn. rewrite Hge, Hbk.
      rewrite as_i64_small, wrap_small by (unfold secs_limit; lia). done. }
  unfold coverage_window, coverage_window_from_meta. rewrite Hcov. unfold window_from_unix.
  destruct (timestamp_opt_safe (b - Z.of_N f)) as [s Hs]; [unfold chrono_safe; lia|].
  destruct (timestamp_opt_safe b) as [t Ht]; [unfold chrono_safe; lia|].
  unfold unix_timestamp. rewrite Hs, Ht. cbn. eexists. split; [done|]. cbn.
  by rewrite (proj1 (timestamp_opt_exact _ _ Hs)), (proj1 (timestamp_opt_exact _ _ Ht)).
Qed.

(** One tick of a query on a boundary schedule. *)
Lemma tick_boundary d e o f t (env : TickEnv C) ok q l :
  boundary_schedule d e o f -> last_known d = Some t -> tick_in_range env ->
  parse (cq_query_text d) = Ok (StSelect q :: l) ->
  (forall d' s n fl, id_of d' = id_of d -> is_ok (te_exec env d' s n fl) = ok) ->
  (forall d', (te_store env d').1 = true) ->
  let b := aligned (timestamp (te_now env)) (Z.of_N e) (Z.of_N o) in
  if (aligned (timestamp t) (Z.of_N e) (Z.of_N o) <? b) && (te_leader env && ok)
  then exists r, tick_def parse env d = (set_last_run (to_rfc3339 (te_now env)) d, [r]) /\
         window_secs r = (b - Z.of_N f, b)
  else tick_def parse env d = (d, []).
Proof using CL.
  intros Hs Ht Hr Hp Hok Hst b. unfold tick_def, run_effect, execute_continuous_query.
  destruct (te_leader env); [|by rewrite andb_false_r].
  rewrite (boundary_normalized _ _ _ _ Hs), (due_test _ _ _ _ _ _ Hs Ht). fold b.
  rewrite (boundary_normalized _ _ _ _ Hs), (due_test _ _ _ _ _ _ Hs Ht). fold b.
  destruct (_ <? b); [|done]. cbn [andb]. unfold execute_continuous_query_inner.
  destruct (boundary_window _ _ _ _ _ Hs Hr) as (w & -> & Hw1 & Hw2).
  destruct (window_nanos w) as [x y]. rewrite Hp. specialize (Hok d x y (negb (cq_is_advanced d)) eq_refl).
  destruct (te_exec env d x y _) as [n|er]; cbn [is_ok] in Hok; subst ok; [|done].
  specialize (Hst (set_last_run (to_rfc3339 (te_now env)) d)).
  destruct (te_store env _) as [stored a]. cbn in Hst. subst stored.
  exists (mkRun d w n). split.
  - apply (f_equal (fun o => (default d o, [mkRun d w n])) (y := Some _)).
    apply lookup_insert_eq.
  - unfold window_secs. cbn. by rewrite Hw1, Hw2.
Qed.

(** The windows of a whole run are those of the due boundaries. *)
Lemma ticks_boundary envs d e o f t (ok : TickEnv C -> bool) q l :
  boundary_schedule d e o f -> last_known d = Some t ->
  parse (cq_query_text d) = Ok (StSelect q :: l) ->
  (forall env, env ∈ envs -> tick_in_range env /\
     (forall d' s n fl, id_of d' = id_of d -> is_ok (te_exec env d' s n fl) = ok env) /\
     (forall d', (te_store env d').1 = true)) ->
  window_secs <$> (run_def_ticks parse envs d).2
  = (fun b => (b - Z.of_N f, b)) <$>
      due (aligned (timestamp t) (Z.of_N e) (Z.of_N o))
        ((fun env => (aligned (timestamp (te_now env)) (Z.of_N e) (Z.of_N o),
                      te_leader env && ok env)) <$> envs).
Proof using CL.
  revert d t. induction envs as [|env envs IH]; intros d t Hs Ht Hp Henv; [done|].
  destruct (Henv env) as (Hr & Hok & Hst); [by left|].
  pose proof (tick_boundary d e o f t env (ok env) q l Hs Ht Hr Hp Hok Hst) as H.
  cbn zeta in H. rewrite fmap_cons. cbn [run_def_ticks due].
  destruct (_ && (te_leader env && ok env)).
  - destruct H as (r & Hd & Hw). rewrite Hd.
    specialize (IH (set_last_run (to_rfc3339 (te_now env)) d) (te_now env) Hs (last_known_set _ _) Hp
                  (fun env' H => Henv env' (list_elem_of_further _ _ _ H))).
    destruct (run_def_ticks parse envs _) as [d2 r2]. cbn [fst snd] in *.
    cbn [app]. by rewrite !fmap_cons, IH, Hw.
  - rewrite H. specialize (IH d t Hs Ht Hp (fun env' H => Henv env' (list_elem_of_further _ _ _ H))).
    by destruct (run_def_ticks parse envs d) as [d2 r2].
Qed.
End Boundary.

(** *** Due boundaries *)

Lemma due_elem last ticks b : b ∈ due last ticks -> (b, true) ∈ ticks /\ last < b.
Proof.
  revert last. induction ticks as [|[x ok] ticks IH]; intros last; cbn; [by intros ?%elem_of_nil|].
  destruct (last <? x) eqn:E, ok; cbn.
  2-4: intros [? ?]%IH; split; [by right|done].
  apply Z.ltb_lt in E. intros [->|[H1 H2]%IH]%elem_of_cons;
    [split; [by left|done]|split; [by right|lia]].
Qed.

Lemma due_sorted last ticks : StronglySorted Z.lt (due last ticks).
Proof.
  revert last. induction ticks as [|[x ok] ticks IH]; intros last; cbn; [constructor|].
  destruct ((last <? x) && ok); [|apply IH]. constructor; [apply IH|].
  apply Forall_forall. intros b Hb. by destruct (due_elem _ _ _ Hb).
Qed.

Lemma due_complete last ticks b :
  StronglySorted Z.le ticks.*1 -> (b, true) ∈ ticks -> last < b -> b ∈ due last ticks.
Proof.
  revert last. induction ticks as [|[x ok] ticks IH]; intros last Hs Hb Hlt; [by apply elem_of_nil in Hb|].
  cbn in *. inversion Hs as [|? ? Hs' Hall]; subst.
  apply elem_of_cons in Hb as [[= -> <-]|Hb].
  - rewrite (proj2 (Z.ltb_lt _ _) Hlt). cbn. by left.
  - assert (x <= b) by (rewrite Forall_forall in Hall; apply Hall;
      apply list_elem_of_fmap; by exists (b, true)).
    destruct ((last <? x) && ok); [|by apply IH].
    destruct (decide (x = b)) as [->|]; [by left|]. right. apply IH; [done|done|lia].
Qed.

Lemma aligned_aligned ts i o : 0 < i -> aligned (aligned ts i o) i o = aligned ts i o.
Proof. intros Hi. apply aligned_unique; [done| |lia]. by exists ((ts - o) / i). Qed.

Lemma boundary_ticks_sorted {C : Chrono} (envs : list (TickEnv C)) e o ok :
  0 < e -> StronglySorted Z.le ((fun env => timestamp (te_now env)) <$> envs) ->
  StronglySorted Z.le
    ((fun env => (aligned (timestamp (te_now env)) e o, te_leader env && ok env)) <$> envs).*1.
Proof.
  intros He. rewrite <-list_fmap_compose.
  induction envs as [|x envs IH]; cbn; intros Hs; [constructor|].
  inversion Hs as [|? ? Hs' Hall]; subst. constructor; [by apply IH|].
  rewrite Forall_fmap in Hall |- *. eapply Forall_impl; [done|]. intros y Hy. cbn in *.
  by apply aligned_mono.
Qed.

(** The window of the boundary after a second's own holds that second, and
    no other window of one interval does. *)
Lemma boundary_window_of_second (e o f x now : Z) :
  0 < e <= f -> aligned x e o + e <= now < aligned x e o + 2 * e ->
  let b := aligned now e o in
  b - f <= x < b /\
  forall y, e = f -> aligned y e o - f <= x < aligned y e o -> aligned y e o = b.
Proof.
  intros He Hn b. assert (Hb : b = aligned x e o + e).
  { apply aligned_unique; [lia| |lia]. exists ((x - o) / e + 1). unfold aligned. lia. }
  pose proof (aligned_bounds x e o ltac:(lia)). split; [lia|].
  intros y <- Hy. enough (aligned x e o = aligned y e o - e) by lia.
  apply aligned_unique; [lia| |lia]. exists ((y - o) / e - 1). unfold aligned. lia.
Qed.

(** ** Properties *)


(** A [chrono] whose instants are whole seconds. *)
#[export] Instance unix_chrono : Chrono := {
  DateTime := { z : Z | (- chrono_safe <=? z) && (z <=? chrono_safe) = true };
  timestamp d := proj1_sig d;
  timestamp_opt s :=
    match bool_dec ((- chrono_safe <=? s) && (s <=? chrono_safe)) true with
    | left H => LSingle (exist _ s H)
    | right _ => LNone
    end;
  timestamp_nanos_opt d :=
    let n := proj1_sig d * 1000000000 in
    if (i64_min <=? n) && (n <=? i64_max) then Some n else None;
  parse_from_rfc3339 s :=
    match decode_or (A := Z) s with
    | Ok z => match bool_dec ((- chrono_safe <=? z) && (z <=? chrono_safe)) true with
              | left H => Some (exist _ z H)
              | right _ => None
              end
    | Err _ => None
    end;
  to_rfc3339 d := pos_bits (encode (proj1_sig d))
}.

#[export] Instance unix_chrono_laws : ChronoLaws unix_chrono.
Proof.
  split.
  - intros [z Hz]. cbn. apply andb_true_iff in Hz as [H1%Z.leb_le H2%Z.leb_le].
    unfold chrono_safe, chrono_limit in *. lia.
  - intros s Hs. cbn. destruct (bool_dec _ true) as [H|H]; [by eexists|].
    exfalso. apply H. apply andb_true_iff. rewrite !Z.leb_le. lia.
  - intros s d. cbn. destruct (bool_dec _ true) as [H|H]; [|done]. intros [= <-]. cbn.
    split; [done|]. intros Hr. rewrite !(proj2 (Z.leb_le _ _)) by lia. done.
  - intros [z Hz]. cbn. rewrite decode_or_bits.
    destruct (bool_dec _ true) as [H|H]; [|by destruct H]. f_equal. f_equal.
    apply (Eqdep_dec.UIP_dec bool_dec).
Qed.

(** ** Sample queries *)

(** [SELECT mean(v) INTO into FROM cpu GROUP BY dims]. *)
Definition select_into (into : Measurement) (dims : list Dimension) : SelectStatement :=
  mkSelect [mkField (Call "mean" [Identifier "v"]) None] (Some into)
    [Concrete (mkMeasurement None None (NameOf "cpu"))] None (Some dims) None None None None None None None.

Definition sample_select : SelectStatement :=
  select_into (mkMeasurement None None (NameOf "cpu_5s")) [DimTag "host"; DimTime (mkDuration 5 Second) None].

Definition sample_create (every for_ : option Duration) : CreateContinuousQueryStatement :=
  mkCreateCq "cq" "db" sample_select "SELECT mean(v) INTO cpu_5s FROM cpu GROUP BY time(5s)"
    every for_.

Definition sample_parse (_ : string) : result CqError (list Statement) :=
  Ok [StSelect sample_select].

Definition unix_epoch : DateTime := exist _ 0 eq_refl.

Definition sample_cq (every for_ : option Duration) : ContinuousQueryDef :=
  match from_create (to_rfc3339 unix_epoch) (sample_create every for_) with
  | Ok d => d
  | Err _ => mkCq "cq" "db" "bad" None None "bad" 0 0 0 0 false None false
  end.

Definition healthy_tick (now : DateTime) : TickEnv unix_chrono :=
  mkTick now true (fun _ _ _ _ => Ok 1%N) (fun _ => (true, Ok tt)).

Definition at_secs (z : Z) (H : (- chrono_safe <=? z) && (z <=? chrono_safe) = true) : DateTime :=
  exist _ z H.

(** Ticks ten seconds apart, as the scheduler's default interval gives. *)
Definition sample_ticks : list (TickEnv unix_chrono) :=
  healthy_tick <$> [at_secs 10 eq_refl; at_secs 20 eq_refl; at_secs 30 eq_refl;
                    at_secs 40 eq_refl; at_secs 50 eq_refl; at_secs 60 eq_refl;
                    at_secs 70 eq_refl; at_secs 80 eq_refl].

Definition sample_wins (d : ContinuousQueryDef) : list (Z * Z) :=
  window_secs <$> (run_ticks sample_parse sample_ticks {[ id_of d := d ]}).2.

(** ** The schedule of a created query *)

Lemma derive_schedule_inv cq m :
  derive_schedule cq = Ok m ->
  query_interval_secs (cc_query cq) = Ok (sm_group_by_interval_secs m) /\
  query_offset_secs (cc_query cq) = Ok (sm_group_by_offset_secs m) /\
  opt_secs (cc_resample_every cq) = Ok (sm_resample_every_secs m) /\
  opt_secs (cc_resample_for cq) = Ok (sm_resample_for_secs m) /\
  sm_execution_interval_secs m
  = default (sm_group_by_interval_secs m) (sm_resample_every_secs m) /\
  sm_is_advanced m = bool_decide (is_Some (sm_resample_every_secs m))
                     || bool_decide (is_Some (sm_resample_for_secs m)) /\
  (forall f, sm_resample_for_secs m = Some f ->
     (sm_execution_interval_secs m <= f /\ sm_group_by_interval_secs m <= f)%N).
Proof.
  unfold derive_schedule.
  destruct (query_interval_secs _) as [g|]; cbn; [|done].
  destruct (query_offset_secs _) as [o|]; cbn; [|done].
  destruct (opt_secs (cc_resample_every cq)) as [ev|]; cbn; [|done].
  destruct (opt_secs (cc_resample_for cq)) as [fo|]; cbn; [|done].
  destruct fo as [f|]; [destruct (f <? _)%N eqn:E|]; cbn; [done| |].
  - apply N.ltb_ge in E. intros [= <-]. cbn. repeat split; try done.
    all: match goal with H : Some _ = Some _ |- _ => injection H as <- end; lia.
  - intros [= <-]. cbn. by repeat split.
Qed.

Lemma secs_bounded d n : duration_to_secs d = Ok n -> (n <= secs_limit)%N.
Proof. by intros [? _]%duration_to_secs_ok. Qed.

Lemma opt_secs_bounded d n : opt_secs d = Ok (Some n) -> (n <= secs_limit)%N.
Proof. intros H%opt_secs_ok. destruct d; [|done]. by apply secs_bounded in H. Qed.

Lemma interval_bounded q n : query_interval_secs q = Ok n -> (n <= secs_limit)%N.
Proof.
  unfold query_interval_secs. destruct (sel_group_by q) as [l|]; [|done].
  destruct (time_dimension l) as [[i o| | |]|]; try done. apply secs_bounded.
Qed.

Lemma offset_bounded q n : query_offset_secs q = Ok n -> (n <= secs_limit)%N.
Proof.
  unfold query_offset_secs. destruct (sel_group_by q) as [l|]; [|done].
  destruct (time_dimension l) as [[i [o|]| | |]|]; try (by intros [= <-]). apply secs_bounded.
Qed.

(** A stored definition carries the schedule its statement asks for: it is built only from a
    [SELECT INTO] with a time grouping, [EVERY] replaces the interval between runs, a [FOR]
    shorter than a run or a group is refused, no value exceeds what [i64] nanoseconds can
    hold, and, unless [EVERY] is given without [FOR], a query whose intervals are at least a
    second is on a boundary schedule, whose windows tile. *)
Theorem created_query_schedule (created : string) (cq : CreateContinuousQueryStatement)
    (d : ContinuousQueryDef) :
  from_create created cq = Ok d ->
  is_Some (sel_into (cc_query cq)) /\
  query_interval_secs (cc_query cq) = Ok (cq_group_by_interval_secs d) /\
  query_offset_secs (cc_query cq) = Ok (cq_group_by_offset_secs d) /\
  opt_secs (cc_resample_every cq) = Ok (cq_resample_every_secs d) /\
  opt_secs (cc_resample_for cq) = Ok (cq_resample_for_secs d) /\
  cq_execution_interval_secs d
  = default (cq_group_by_interval_secs d) (cq_resample_every_secs d) /\
  (forall f, cq_resample_for_secs d = Some f ->
     (cq_execution_interval_secs d <= f /\ cq_group_by_interval_secs d <= f)%N) /\
  Forall (fun n => n <= secs_limit)%N
    [cq_group_by_interval_secs d; cq_group_by_offset_secs d; cq_execution_interval_secs d] /\
  ((0 < cq_group_by_interval_secs d)%N -> (0 < cq_execution_interval_secs d)%N ->
   cq_resample_every_secs d = None \/ is_Some (cq_resample_for_secs d) ->
   boundary_schedule d (cq_execution_interval_secs d) (cq_group_by_offset_secs d)
     (default (cq_execution_interval_secs d) (cq_resample_for_secs d))).
Proof.
  unfold from_create. destruct (sel_into (cc_query cq)) as [into|] eqn:Ei; [|done].
  destruct (derive_schedule cq) as [m|] eqn:Em; cbn; [|done]. intros [= <-]. cbn.
  destruct (derive_schedule_inv _ _ Em) as (Hg & Ho & He & Hf & Hx & Ha & Hmin).
  assert (Hxb : (sm_execution_interval_secs m <= secs_limit)%N).
  { rewrite Hx. destruct (sm_resample_every_secs m) as [n|]; cbn;
      [by eapply opt_secs_bounded|by eapply interval_bounded]. }
  pose proof (interval_bounded _ _ Hg) as Hgb. pose proof (offset_bounded _ _ Ho) as Hob.
  repeat (split; [done|]). split; [by repeat constructor|].
  intros Hg0 Hx0 Hcase. unfold boundary_schedule. cbn.
  repeat (split; [done|]).
  destruct (sm_resample_for_secs m) as [f|] eqn:Ef; cbn.
  - destruct (Hmin f eq_refl). pose proof (opt_secs_bounded _ _ Hf). repeat split; done.
  - destruct Hcase as [Hn|Hn]; [|by apply is_Some_None in Hn].
    rewrite Ha, Hx, Hn in *. cbn in *. repeat split; done.
Qed.

Lemma created_query_schedule_witness :
  boundary_schedule (sample_cq None (Some (mkDuration 20 Second))) 5 0 20.
Proof.
  refine (proj2 (proj2 (proj2 (proj2 (proj2 (proj2 (proj2 (proj2
    (created_query_schedule (to_rfc3339 unix_epoch) (sample_create None (Some (mkDuration 20 Second)))
       (sample_cq None (Some (mkDuration 20 Second))) _)))))))) _ _ _);
    [reflexivity|by vm_compute|by vm_compute|left; reflexivity].
Defined.


(** ** What the other window rules leave out *)

(** With [EVERY] no longer than the grouping and no [FOR], a run covers the bucket it falls
    in, which is still open: the window ends after the run. The next bucket's runs start
    where it ends, so the rows between a bucket's last run and its end are in no later
    window. *)
Theorem every_leaves_tail `{C : Chrono} (meta : ScheduleMeta) (e : N) (now now' : Z) :
  sm_resample_for_secs meta = None -> sm_is_advanced meta = true ->
  sm_resample_every_secs meta = Some e -> sm_execution_interval_secs meta = e ->
  (e <= sm_group_by_interval_secs meta <= secs_limit)%N ->
  (0 < sm_group_by_interval_secs meta)%N -> (sm_group_by_offset_secs meta <= secs_limit)%N ->
  - chrono_limit <= now <= chrono_limit -> - chrono_limit <= now' <= chrono_limit ->
  let w := coverage_bounds now meta in
  let w' := coverage_bounds now' meta in
  w.1 <= now < w.2 /\ (now < now' -> w'.1 = w.1 \/ w.2 <= w'.1).
Proof.
  intros Hf Ha He Hx Heg Hg Ho Hn Hn'. unfold chrono_limit in *.
  assert (Hc : forall x, -9000000000000 <= x <= 9000000000000 ->
    let b := aligned x (Z.of_N (sm_group_by_interval_secs meta))
               (Z.of_N (sm_group_by_offset_secs meta)) in
    coverage_bounds x meta = (b, b + Z.of_N (sm_group_by_interval_secs meta))).
  { intros x Hxr b. pose proof (aligned_bounds x (Z.of_N (sm_group_by_interval_secs meta))
      (Z.of_N (sm_group_by_offset_secs meta)) ltac:(lia)) as Hb. fold b in Hb.
    unfold coverage_bounds. rewrite Hf, Ha, He, Hx. cbn.
    rewrite !as_i64_small by (unfold secs_limit in *; lia).
    rewrite (proj2 (Z.ltb_ge _ _)) by lia.
    rewrite bucket_start_aligned by lia. fold b. unfold secs_limit in *.
    rewrite wrap_small by lia. done. }
  rewrite !Hc by done. cbn [fst snd]. split; [apply aligned_bounds; lia|].
  intros Hlt. pose proof (aligned_mono now now' (Z.of_N (sm_group_by_interval_secs meta))
    (Z.of_N (sm_group_by_offset_secs meta)) ltac:(lia) ltac:(lia)) as Hm.
  apply Z.le_lteq in Hm as [Hm|Hm]; [right; apply aligned_step; lia|left; lia].
Qed.

Lemma every_leaves_tail_witness :
  let m := schedule_from_def (sample_cq (Some (mkDuration 5 Second)) None) in
  let w := coverage_bounds 13 m in w = (10, 15) /\ w.1 <= 13 < w.2.
Proof.
  cbv zeta. split; [reflexivity|].
  apply (every_leaves_tail (schedule_from_def (sample_cq (Some (mkDuration 5 Second)) None))
           5%N 13 27); by vm_compute.
Defined.

(** With [EVERY] longer than the grouping and no [FOR], the window ends at the tick and not at
    the boundary: with ticks ten seconds apart, a query [EVERY 25s] covers [50, 55) never. *)
Theorem every_longer_leaves_gaps :
  sample_wins (sample_cq (Some (mkDuration 25 Second)) None) = [(5, 30); (25, 50); (55, 80)].
Proof. vm_compute. reflexivity. Qed.

(** A plain query grouped by less than the scheduler's ten seconds loses the buckets between
    two ticks. *)
Theorem short_interval_skips_buckets :
  sample_wins (sample_cq None None)
  = [(5, 10); (15, 20); (25, 30); (35, 40); (45, 50); (55, 60); (65, 70); (75, 80)].
Proof. vm_compute. reflexivity. Qed.

(** A grouping under a second is accepted, becomes zero seconds, and every window is empty. *)
Theorem subsecond_window_empty (created raw : string) (into : Measurement) :
  exists d,
    from_create created
      (mkCreateCq "cq" "db"
         (select_into into [DimTime (mkDuration 500 Millisecond) None]) raw None None)
    = Ok d /\
    forall now, - 2 ^ 63 <= now < 2 ^ 63 -> coverage_bounds now (schedule_from_def d) = (now, now).
Proof.
  eexists. split; [reflexivity|]. intros now Hn. unfold coverage_bounds. cbn.
  f_equal. change (as_i64 0) with 0. rewrite Z.sub_0_r. by apply wrap_small.
Qed.
