(* ===== verification/PeerResolution.v ===== *)
(** * Which peers serve a region ([hyperbytedb/src/application/shard_peer_resolution.rs])

    The liveness tests on membership and the ordered candidates of a region
    for reads, aggregates, writes and replication. *)

From stdpp Require Import prelude list sorting gmap strings.
From S2P Require Import Prelude ShardTypes Membership.
From stdpp Require Import options.

#[local] Open Scope N_scope.

Inductive RegionTargetRole := RoleRead | RolePrimaryRead | RoleWrite | RoleReplicate.

#[export] Instance RegionTargetRole_eq_dec : EqDecision RegionTargetRole.
Proof. solve_decision. Defined.

Definition node_state_is (m : ClusterMembership) (node_id : N) (p : NodeState -> bool) : bool :=
  match get_node node_id m with Some n => p (ns n) | None => false end.

Definition is_serving_node (m : ClusterMembership) (node_id : N) : bool :=
  node_state_is m node_id
    (fun s => match s with Active | Decommissioning => true | _ => false end).

Definition is_readable_node (m : ClusterMembership) (node_id : N) : bool :=
  is_serving_node m node_id || node_state_is m node_id (fun s => bool_decide (s = Draining)).

Definition is_active_peer (m : ClusterMembership) (node_id : N) : bool :=
  node_state_is m node_id (fun s => bool_decide (s = Active)).

Definition peer_addr (m : ClusterMembership) (node_id : N) : option string :=
  addr <$> get_node node_id m.

(** The closure [push]: [seen] grows whatever the tests say. *)
Definition push_target (r : ShardRegion) (m : ClusterMembership) (acc : list N * gset N) (id : N)
    : list N * gset N :=
  let '(out, seen) := acc in
  if bool_decide (id ∈ seen) then (out, seen)
  else (if is_serving_peer r id && is_readable_node m id then out ++ [id] else out, {[ id ]} ∪ seen).

Definition resolve_region_peers (r : ShardRegion) (self_id : N) (m : ClusterMembership)
    (role : RegionTargetRole) : list N :=
  if negb (is_serving r) then []
  else
    match role with
    | RoleWrite =>
      if is_serving_peer r (primary r) && is_serving_node m (primary r) then [primary r] else []
    | RoleReplicate =>
      List.filter (fun id => negb (id =? self_id) && is_serving_node m id) (peers r)
    | _ =>
      let first := if bool_decide (role = RolePrimaryRead) then [primary r] else [] in
      (fold_left (push_target r m) (first ++ self_id :: primary r :: peers r) ([], ∅)).1
    end.

Definition active_region_peer_targets (r : ShardRegion) (self_id : N) (m : ClusterMembership)
    : list N :=
  List.filter (fun id => negb (id =? self_id)) (resolve_region_peers r self_id m RoleReplicate).

(** ** Lemmas *)

(** A node the reads may use: a full copy on a node that answers. *)
Definition read_target (r : ShardRegion) (m : ClusterMembership) (id : N) : bool :=
  is_serving_peer r id && is_readable_node m id.

(** What the closure collects: the calls in order, without repetitions, that
    pass the tests. *)
Lemma push_targets_nub r m (l : list N) :
  fold_left (push_target r m) l ([], ∅)
  = (List.filter (read_target r m) (nub l), list_to_set l).
Proof.
  induction l as [|x l IH] using rev_ind; [done|].
  rewrite fold_left_app, IH, nub_snoc. cbn [fold_left push_target].
  rewrite (bool_decide_ext (x ∈ list_to_set (C := gset N) l) (x ∈ nub l))
    by (rewrite elem_of_nub; apply elem_of_list_to_set).
  case_bool_decide as E.
  - f_equal. rewrite elem_of_nub in E. clear IH.
    rewrite list_to_set_app_L. cbn. set_solver.
  - clear IH. rewrite filterb_app, list_to_set_app_L. cbn [List.filter].
    change (is_serving_peer r x && is_readable_node m x) with (read_target r m x).
    destruct (read_target r m x); rewrite ?app_nil_r; f_equal; set_solver.
Qed.

Lemma read_target_peer r m id : read_target r m id = true -> id ∈ peers r.
Proof.
  unfold read_target, is_serving_peer. rewrite !andb_true_iff. intros [[H _] _].
  by apply bool_decide_eq_true in H.
Qed.

Lemma nub_head {A} `{EqDecision A} (x : A) l : head (nub (x :: l)) = Some x.
Proof.
  induction l as [|y l IH] using rev_ind; [done|].
  rewrite app_comm_cons, nub_snoc. case_bool_decide; [done|].
  destruct (nub (x :: l)); [done|]. by cbn in *.
Qed.

Lemma filterb_head {A} (p : A -> bool) (l : list A) x :
  head l = Some x -> p x = true -> head (List.filter p l) = Some x.
Proof. destruct l; cbn; [done|]. intros [= ->] ->. done. Qed.

(** Reads: the candidates of a serving region. *)
Lemma resolve_reads r self m role :
  role <> RoleWrite -> role <> RoleReplicate -> is_serving r = true ->
  resolve_region_peers r self m role
  = List.filter (read_target r m)
      (nub ((if bool_decide (role = RolePrimaryRead) then [primary r] else [])
            ++ self :: primary r :: peers r)).
Proof.
  intros H1 H2 Hs. unfold resolve_region_peers. rewrite Hs. cbn [negb].
  destruct role; [|..|done|done]; by rewrite push_targets_nub.
Qed.

Lemma resolve_reads_elem r self m role id :
  role <> RoleWrite -> role <> RoleReplicate ->
  id ∈ resolve_region_peers r self m role <-> is_serving r = true /\ read_target r m id = true.
Proof.
  intros H1 H2. destruct (is_serving r) eqn:Hs.
  - rewrite resolve_reads by done. rewrite filterb_elem_of, elem_of_nub.
    split; [by intros []|]. intros [_ Hr]. split; [|done]. apply read_target_peer in Hr.
    apply elem_of_app. right. by do 2 right.
  - unfold resolve_region_peers. rewrite Hs. cbn. split; [by intros ?%elem_of_nil|by intros []].
Qed.

(** ** Properties *)

(** The targets of a region, for every role. A region that is not serving has none. A write
    has at most one, the primary, and only while it is a full copy on a node that serves.
    Reads get every full copy on a node that answers (a departing or draining node included,
    a learner excluded), each once, this node first; an aggregate gets the primary first.
    Replication goes to every other member on a serving node, learners included. *)
Theorem resolve_region_peers_correct (r : ShardRegion) (self : N) (m : ClusterMembership) :
  (is_serving r = false -> forall role, resolve_region_peers r self m role = []) /\
  (forall id, id ∈ resolve_region_peers r self m RoleWrite <->
     id = primary r /\ is_serving r = true /\ is_serving_peer r id = true
     /\ is_serving_node m id = true) /\
  (forall role, role = RoleRead \/ role = RolePrimaryRead ->
     NoDup (resolve_region_peers r self m role) /\
     (forall id, id ∈ resolve_region_peers r self m role <->
        is_serving r = true /\ id ∈ peers r /\ id ∉ staging_peers r
        /\ is_readable_node m id = true) /\
     forall id, id = (if bool_decide (role = RoleRead) then self else primary r) ->
       id ∈ resolve_region_peers r self m role ->
       head (resolve_region_peers r self m role) = Some id) /\
  (is_serving r = true ->
   active_region_peer_targets r self m
   = List.filter (fun id => negb (id =? self) && is_serving_node m id) (peers r)).
Proof.
  split; [|split; [|split]].
  - intros Hs role. unfold resolve_region_peers. by rewrite Hs.
  - intros id. unfold resolve_region_peers. destruct (is_serving r); cbn [negb].
    + destruct (is_serving_peer r (primary r) && is_serving_node m (primary r)) eqn:E.
      * apply andb_true_iff in E as [E1 E2]. rewrite list_elem_of_singleton.
        split; [by intros ->|by intros [? _]].
      * apply andb_false_iff in E. rewrite elem_of_nil. split; [done|].
        intros (-> & _ & H1 & H2). destruct E; congruence.
    + rewrite elem_of_nil. split; [done|]. by intros (_ & ? & _).
  - intros role Hrole.
    assert (Hw : role <> RoleWrite /\ role <> RoleReplicate) by (by destruct Hrole as [-> | ->]).
    destruct Hw as [Hw Hre]. destruct (is_serving r) eqn:Hs.
    2: { assert (resolve_region_peers r self m role = []) as ->
           by (unfold resolve_region_peers; by rewrite Hs).
         split; [constructor|]. split; [|by intros ? _ ?%elem_of_nil].
         intros id. rewrite elem_of_nil. split; [done|by intros []]. }
    split; [rewrite resolve_reads by done; apply filterb_NoDup, nub_NoDup|]. split.
    + intros id. rewrite resolve_reads_elem by done. rewrite Hs. unfold read_target, is_serving_peer.
      rewrite !andb_true_iff, negb_true_iff, bool_decide_eq_true, bool_decide_eq_false. naive_solver.
    + intros id Hid Hin. apply resolve_reads_elem in Hin as [_ Ht]; [|done|done].
      rewrite resolve_reads by done. apply filterb_head; [|done].
      destruct Hrole as [-> | ->]; cbn in *; rewrite ?nub_head; subst; apply nub_head.
  - intros Hs. unfold active_region_peer_targets, resolve_region_peers. rewrite Hs. cbn [negb].
    rewrite filterb_filterb. apply filter_ext. intros id.
    by destruct (id =? self), (is_serving_node m id).
Qed.
