(* ===== verification/ShardRouting.v ===== *)
(** * Routing of writes ([hyperbytedb/src/application/shard_routing.rs],
    [domain/series.rs])

    The series id, the bootstrap of a new measurement (its regions and
    their peers), the partition of a batch of points by region, the grouping
    of forwarded regions by primary, and the reading of a peer's answer. *)

From stdpp Require Import prelude list sorting gmap strings pretty.
From S2P Require Import Prelude Bytes ShardTypes ShardOps Placement Membership LocationCache Points PeerResolution.
From stdpp Require Import options.

#[local] Open Scope N_scope.

(** ** Series ids *)

Section SeriesId.
Context `{DH : !DefaultHasher}.

Definition series_id (meas : string) (tags : gmap string string) : N :=
  hasher_finish (HashStr meas
    :: flat_map (fun kv => [HashStr kv.1; HashU8 0xFF; HashStr kv.2; HashU8 0xFE])
         (btree_iter string_leb tags)).

(** The cached value is the computed one: the cell is filled by this call. *)
Definition series_id_for_point (p : Point) : N := series_id (pt_measurement p) (pt_tags p).
End SeriesId.

(** ** Regions of the map *)

Definition region_by_id (m : ShardMap) (id : N) : option ShardRegion :=
  find (fun r => region_id r =? id) (all_regions m).

(** ** Bootstrap *)

Definition effective_replication_factor (configured active_members : nat) : nat :=
  let target := Nat.max configured 1 in
  match active_members with O => O | _ => Nat.min target active_members end.

(** [sort_unstable] then [dedup] on ids. *)
Fixpoint dedup (l : list N) : list N :=
  match l with
  | a :: l' =>
    match l' with
    | b :: _ => if a =? b then dedup l' else a :: dedup l'
    | [] => [a]
    end
  | [] => []
  end.

Definition placeable_members (m : ClusterMembership) (self_id : N) : list N :=
  let ids := node_id <$> active_peers self_id m in
  let self_departing := match get_node self_id m with Some n => is_departing n | None => false end in
  dedup (sort_by N.leb (if self_departing then ids else ids ++ [self_id])).

(** [(0..count).map(|i| (first_id + i, start, end))]. *)
Definition presplit_bounds (first_id count : N) : list (N * N * N) :=
  let width := u64_max / count in
  (fun i =>
     (wrapping_add first_id i, wrapping_mul i width,
      if i + 1 =? count then u64_max else wrapping_mul (i + 1) width))
  <$> seqN 0 (N.to_nat count).

Definition presplit_input (k : MeasurementKey) (candidates : list N) (b : N * N * N)
    : RegionPlanInput :=
  let '(id, st, _) := b in
  mkPlan id [] 0 1 (target_placement k st candidates (length candidates)).

Definition fresh_region (id st en : N) (ps : list N) (prim last_split_at : N) : ShardRegion :=
  mkRegion id st en epoch_default ps prim last_split_at None None Serving None [].

Definition presplit_region (plan : gmap N (list N)) (last_split_at : N) (b : N * N * N)
    : ShardRegion :=
  let '(id, st, en) := b in
  let ps := default [] (plan !! id) in
  fresh_region id st en ps (default 0 (head ps)) last_split_at.

Definition presplit_regions (k : MeasurementKey) (first_id : N) (count : nat)
    (candidates : list N) (rf : nat) (last_split_at : N) : list ShardRegion :=
  let count := N.max (N.of_nat count) 1 in
  let bounds := presplit_bounds first_id count in
  let plan := plan_placement (presplit_input k candidates <$> bounds) rf 10 in
  presplit_region plan last_split_at <$> bounds.

Inductive RoutingError :=
| ClusterUnavailable (msg : string)
| ShardMapError (msg : string)
| PeerUnreachable (msg : string)
| StaleShardEpoch (id : N)
| PartialWrite (reason : string) (dropped : N)
| OtherError (msg : string).

Record ShardingConfig := mkShardingConfig {
  sc_bootstrap_regions_per_node : nat;
  sc_replication_factor : nat
}.

(** [build_bootstrap_op] on a snapshot of the map and of the membership, at
    [now] seconds; the runtime setting has been resolved into the config.
    [saturating_mul] on [usize]. *)
Definition build_bootstrap_op (cfg : ShardingConfig) (m : ShardMap) (mem : ClusterMembership)
    (self_id now : N) (k : MeasurementKey) : result RoutingError ShardMapOp :=
  let candidates := placeable_members mem self_id in
  let regions_wanted :=
    N.min (N.of_nat (sc_bootstrap_regions_per_node cfg) * N.of_nat (length candidates)) u64_max in
  let rf := effective_replication_factor (sc_replication_factor cfg) (length candidates) in
  let last_split_at := N.max now 1 in
  if (1 <? regions_wanted) && (1 <? N.of_nat (length candidates)) then
    Ok (BootstrapMeasurementPresplit k
          (presplit_regions k (next_region_id m) (N.to_nat regions_wanted) candidates rf last_split_at))
  else
    match target_placement k 0 candidates rf with
    | [] => Err (ClusterUnavailable "no active peers for shard bootstrap")
    | (prim :: _) as ps =>
      Ok (BootstrapMeasurement k
            (fresh_region (next_region_id m) 0 u64_max ps prim last_split_at))
    end.

(** ** Partition of a batch *)

Section Partition.
Context `{DH : !DefaultHasher}.

Record PointBuckets := mkBuckets {
  pb_local : gmap N (list Point);
  pb_forward : gmap N (list Point)
}.

(** [entry(id).or_default().push(p)]. *)
Definition push_bucket (id : N) (p : Point) (b : gmap N (list Point)) : gmap N (list Point) :=
  <[id := default [] (b !! id) ++ [p]]> b.

(** The first loop: every measurement of the batch has a space. *)
Fixpoint check_bootstrapped (m : ShardMap) (d r : string) (seen : gset string)
    (points : list Point) : result RoutingError unit :=
  match points with
  | [] => Ok tt
  | p :: rest =>
    let ms := pt_measurement p in
    if negb (bool_decide (ms ∈ seen)) && negb (bool_decide (is_Some (space m (mkKey d r ms)))) then
      Err (ShardMapError ("measurement " +:+ d +:+ "." +:+ r +:+ "." +:+ ms +:+ " not bootstrapped"))
    else check_bootstrapped m d r ({[ ms ]} ∪ seen) rest
  end.

(** The second loop; each lookup may fill the location cache. *)
Fixpoint route_points (m : ShardMap) (d r : string) (self_id : N) (points : list Point)
    (c : CacheInner) (b : PointBuckets) : CacheInner * result RoutingError PointBuckets :=
  match points with
  | [] => (c, Ok b)
  | p :: rest =>
    let sid := series_id_for_point p in
    let '(c', route) := locate_route c m (mkKey d r (pt_measurement p)) sid self_id in
    match route with
    | None => (c', Err (ShardMapError ("no region for series_id " +:+ pretty sid)))
    | Some rt =>
      let b' :=
        if self_is_peer rt && (route_primary rt =? self_id)
        then mkBuckets (push_bucket (route_region_id rt) p (pb_local b)) (pb_forward b)
        else mkBuckets (pb_local b) (push_bucket (route_region_id rt) p (pb_forward b)) in
      route_points m d r self_id rest c' b'
    end
  end.

Definition partition_points (c : CacheInner) (m : ShardMap) (d r : string) (self_id : N)
    (points : list Point) : CacheInner * result RoutingError PointBuckets :=
  match check_bootstrapped m d r ∅ points with
  | Err e => (c, Err e)
  | Ok _ => route_points m d r self_id points c (mkBuckets ∅ ∅)
  end.
End Partition.

(** ** Forwards *)

(** [by_node] in the order of its keys is a [BTreeMap]; the lists keep the
    order of [regions]. *)
Definition group_step (self_id : N) (mem : ClusterMembership)
    (acc : gmap N (list N) * list N) (region : ShardRegion) : gmap N (list N) * list N :=
  let '(by_node, unrouted) := acc in
  match head (resolve_region_peers region self_id mem RoleWrite) with
  | Some node =>
    if negb (node =? self_id)
    then (<[node := default [] (by_node !! node) ++ [region_id region]]> by_node, unrouted)
    else (by_node, unrouted ++ [region_id region])
  | None => (by_node, unrouted ++ [region_id region])
  end.

Definition group_forwards_by_primary (rs : list ShardRegion) (self_id : N)
    (mem : ClusterMembership) : gmap N (list N) * list N :=
  fold_left (group_step self_id mem) rs (∅, []).

Record ShardWritePartResult := mkPartResult {
  part_region_id : N;
  part_status : N;
  part_error : option string
}.

Inductive PartOutcome := Done (r : result RoutingError unit) | Retry.

Definition part_outcome (node : N) (part : ShardWritePartResult) : PartOutcome :=
  let s := part_status part in
  if (200 <=? s) && (s <=? 299) then Done (Ok tt)
  else if s =? 409 then Retry
  else if (s =? 429) || (s =? 503) then
    Done (Err (ClusterUnavailable ("region " +:+ pretty (part_region_id part) +:+ " primary "
                                   +:+ pretty node +:+ " is at write capacity")))
  else if (s =? 400) || (s =? 422) then
    Done (Err (PartialWrite (default EmptyString (part_error part)) 0))
  else
    Done (Err (PeerUnreachable ("forward write for region " +:+ pretty (part_region_id part)
            +:+ " to node " +:+ pretty node +:+ " failed: " +:+ pretty s +:+ " "
            +:+ default EmptyString (part_error part)))).

(** ** Refusals *)

(** The [White_Space] characters, in UTF-8. *)
Definition white_space : list bytes :=
  [[9]; [10]; [11]; [12]; [13]; [32]; [0xC2; 0x85]; [0xC2; 0xA0]; [0xE1; 0x9A; 0x80]]
  ++ ((fun b => [0xE2; 0x80; b]) <$> seqN 0x80 11)
  ++ [[0xE2; 0x80; 0xA8]; [0xE2; 0x80; 0xA9]; [0xE2; 0x80; 0xAF]; [0xE2; 0x81; 0x9F];
      [0xE3; 0x80; 0x80]].

(** Drop the leading members of [set]; the fuel is the length. *)
Fixpoint trim_by (set : list bytes) (fuel : nat) (s : bytes) : bytes :=
  match fuel with
  | O => s
  | S fuel' =>
    match find (fun w => has_prefix w s) set with
    | Some w => trim_by set fuel' (drop (length w) s)
    | None => s
    end
  end.

(** [str::trim]. *)
Definition str_trim (s : bytes) : bytes :=
  let front := trim_by white_space (length s) s in
  rev (trim_by ((fun w => rev w) <$> white_space) (length front) (rev front)).

(** [str::rsplit_once]: the last occurrence of the separator. *)
Fixpoint rsplit_once (sep s : bytes) : option (bytes * bytes) :=
  match s with
  | [] => if bool_decide (sep = []) then Some ([], []) else None
  | c :: s' =>
    match rsplit_once sep s' with
    | Some (a, b) => Some (c :: a, b)
    | None => (fun b => ([], b)) <$> strip_prefix sep s
    end
  end.

(** [HyperbytedbError::PartialWrite] as it prints. *)
Definition partial_prefix : bytes := str_bytes "partial write: ".
Definition dropped_sep : bytes := str_bytes " dropped=".

Definition display_partial (reason : string) (dropped : N) : string :=
  "partial write: " +:+ reason +:+ " dropped=" +:+ pretty dropped.

(** serde_json: printing [{"error": e}], and reading a string [error] member
    out of a text. *)
Class JsonError := {
  json_error : string -> string;
  json_error_member : string -> option string
}.

Class JsonErrorLaws `(J : JsonError) :=
  json_error_roundtrip e : json_error_member (json_error e) = Some e.

Definition refused `{J : JsonError} (message : string) (points : N) : RoutingError :=
  let text := match json_error_member message with
              | Some e => e
              | None => bytes_str (str_trim (str_bytes message))
              end in
  let whole := PartialWrite text points in
  match strip_prefix partial_prefix (str_bytes text) with
  | Some inner =>
    match rsplit_once dropped_sep inner with
    | Some (reason, n) =>
      match from_str_radix 10 n with
      | Some dropped => PartialWrite (bytes_str reason) dropped
      | None => whole
      end
    | None => whole
    end
  | None => whole
  end.
