(* ===== verification/ShardBootstrap.v ===== *)
(** * Bootstrap of a measurement: theorems

    The regions of a new measurement cover the hash space, hold their copies
    on placeable members spread to within one, and are accepted by the shard
    map. *)

From stdpp Require Import prelude list sorting gmap strings pretty.
From S2P Require Import Prelude Bytes ShardTypes ShardOps ShardInvariant Placement PlacementHash PlacementPlan Membership.
From S2P Require Import LocationCache Points PeerResolution ShardRouting.
From stdpp Require Import options.

#[local] Open Scope N_scope.

(** ** Members that can hold a region *)

Lemma dedup_elem l x : x ∈ dedup l <-> x ∈ l.
Proof.
  induction l as [|a l IH]; [done|]. cbn [dedup]. destruct l as [|b l]; [done|].
  destruct (a =? b) eqn:E.
  - apply N.eqb_eq in E as ->. rewrite IH, !elem_of_cons. naive_solver.
  - by rewrite elem_of_cons, IH, (elem_of_cons (b :: l)).
Qed.

Lemma dedup_sorted l : StronglySorted N.le l -> StronglySorted N.lt (dedup l).
Proof.
  induction l as [|a l IH]; intros Hs; [constructor|].
  inversion Hs as [|? ? Hs' Hall]; subst. cbn [dedup]. destruct l as [|b l]; [by repeat constructor|].
  destruct (a =? b) eqn:E; [by apply IH|]. apply N.eqb_neq in E. constructor; [by apply IH|].
  apply Forall_forall. intros x Hx. rewrite dedup_elem in Hx.
  inversion Hs' as [|? ? _ Hb]; subst. apply Forall_cons in Hall as [Hab _].
  rewrite Forall_forall in Hb. apply elem_of_cons in Hx as [->|Hx]; [lia|].
  specialize (Hb x Hx). lia.
Qed.

Lemma sort_ids_sorted (l : list N) : StronglySorted N.le (sort_by N.leb l).
Proof.
  eapply StronglySorted_weaken; [|apply sort_by_sorted].
  - intros x y. apply N.leb_le.
  - intros x y. rewrite !N.leb_le. lia.
  - intros x y z. rewrite !N.leb_le. lia.
Qed.

Lemma placeable_NoDup m self : NoDup (placeable_members m self).
Proof.
  apply (sorted_NoDup N.lt); [lia|]. apply dedup_sorted, sort_ids_sorted.
Qed.

(** Nodes keyed by their id. *)
Definition nodes_keyed (m : ClusterMembership) : Prop :=
  forall id n, nodes m !! id = Some n -> node_id n = id.

Lemma placeable_elem m self id :
  nodes_keyed m ->
  id ∈ placeable_members m self <->
  (id <> self /\ is_active_peer m id = true) \/
  (id = self /\ forall n, get_node self m = Some n -> is_departing n = false).
Proof.
  intros Hk. unfold placeable_members. rewrite dedup_elem, sort_by_elem_of.
  assert (Hact : id ∈ node_id <$> active_peers self m <-> id <> self /\ is_active_peer m id = true).
  { rewrite list_elem_of_fmap. unfold active_peers, is_active_peer, node_state_is, get_node. split.
    - intros (n & -> & [Hn Ht]%filterb_elem_of). unfold node_values in Hn.
      apply list_elem_of_fmap in Hn as ([i n'] & -> & Hn%elem_of_map_to_list). cbn in *.
      apply andb_true_iff in Ht as [H1%negb_true_iff%N.eqb_neq H2].
      rewrite (Hk _ _ Hn) in *. by rewrite Hn.
    - intros [Hne Ha]. destruct (nodes m !! id) as [n|] eqn:E; [|done]. exists n.
      split; [by rewrite (Hk _ _ E)|]. apply filterb_elem_of. split.
      + unfold node_values. apply list_elem_of_fmap. exists (id, n).
        split; [done|]. by apply elem_of_map_to_list.
      + rewrite (Hk _ _ E), Ha. by apply N.eqb_neq in Hne as ->. }
  destruct (get_node self m) as [n|] eqn:Es; [destruct (is_departing n) eqn:Ed|].
  - rewrite Hact. split; [by left|]. intros [|[-> H]]; [done|]. by rewrite (H n eq_refl) in Ed.
  - rewrite elem_of_app, list_elem_of_singleton, Hact. naive_solver.
  - rewrite elem_of_app, list_elem_of_singleton, Hact. naive_solver.
Qed.

(** ** Equal ranges *)

Lemma seqN_S from n : seqN from (S n) = from :: seqN (from + 1) n.
Proof. done. Qed.

(** The ranges written out, when the ids do not wrap. *)
Lemma presplit_bounds_eq first count :
  0 < count -> count <= u64_max -> first + count <= u64_max ->
  presplit_bounds first count
  = (fun i => (first + i, i * (u64_max / count),
               if i + 1 =? count then u64_max else (i + 1) * (u64_max / count)))
    <$> seqN 0 (N.to_nat count).
Proof.
  intros H0 Hc Hf. unfold presplit_bounds. apply list_fmap_ext. intros j i Hi.
  apply list_elem_of_lookup_2, elem_of_seqN in Hi as [_ Hi].
  assert (Hw : count * (u64_max / count) <= u64_max) by (apply N.Div0.mul_div_le).
  assert (Hm : forall a, a <= count -> wrapping_mul a (u64_max / count) = a * (u64_max / count)).
  { intros a Ha. unfold wrapping_mul. apply N.mod_small.
    assert (a * (u64_max / count) <= count * (u64_max / count)) by (apply N.mul_le_mono_r; lia).
    unfold u64_max, two64 in *. lia. }
  rewrite wrapping_add_small by lia. rewrite !Hm by lia. done.
Qed.

(** Regions built over consecutive ranges form a chain. *)
Lemma presplit_chain (f : N * N * N -> ShardRegion) first count :
  (forall b, start (f b) = b.1.2 /\ end_ (f b) = b.2) ->
  0 < count -> count <= u64_max -> first + count <= u64_max ->
  chain 0 u64_max (f <$> presplit_bounds first count).
Proof.
  intros Hf H0 Hc Hfst. rewrite presplit_bounds_eq by done.
  set (w := u64_max / count).
  assert (Hw : count * w <= u64_max) by (apply N.Div0.mul_div_le).
  assert (Hgen : forall n i, i + N.of_nat n = count -> 0 < count ->
    chain (if i =? count then u64_max else i * w) u64_max
      (f <$> ((fun i => (first + i, i * w, if i + 1 =? count then u64_max else (i + 1) * w))
                <$> seqN i n))).
  { intros n. induction n as [|n IH]; intros i Hi Hpos.
    - cbn. replace i with count by lia. by rewrite N.eqb_refl.
    - rewrite seqN_S. rewrite !fmap_cons. cbn [chain].
      destruct (Hf (first + i, i * w, if i + 1 =? count then u64_max else (i + 1) * w)) as [-> ->].
      cbn [fst snd]. destruct (N.eqb_spec i count) as [|_]; [lia|]. split; [done|].
      specialize (IH (i + 1) ltac:(lia) Hpos). split; [|exact IH].
      destruct (N.eqb_spec (i + 1) count); nia. }
  specialize (Hgen (N.to_nat count) 0 ltac:(lia) H0).
  destruct (N.eqb_spec 0 count) as [|_]; [lia|]. by rewrite N.mul_0_l in Hgen.
Qed.

(** ** Planned peers *)

Section Presplit.
Context (k : MeasurementKey) (candidates : list N) (rf : nat).
Context (Hnd : NoDup candidates) (Hne : candidates <> []) (Hrf : (0 < rf)%nat).

Lemma presplit_hrw st : target_placement k st candidates (length candidates) ≡ₚ candidates.
Proof.
  rewrite target_ranking, firstn_all2; [apply ranking_Permutation|].
  by rewrite ranking_Permutation.
Qed.

Lemma presplit_input_ids (bounds : list (N * N * N)) :
  rp_region_id <$> (presplit_input k candidates <$> bounds) = (fun b => b.1.1) <$> bounds.
Proof. rewrite <-list_fmap_compose. apply list_fmap_ext. by intros _ [[id st] en] _. Qed.

Lemma presplit_inputs_wf (bounds : list (N * N * N)) :
  NoDup ((fun b : N * N * N => b.1.1) <$> bounds) ->
  plan_input_wf (presplit_input k candidates <$> bounds).
Proof using Hnd.
  intros Hb. split; [unfold plan_ids; by rewrite presplit_input_ids|].
  intros r ([[id st] en] & -> & _)%list_elem_of_fmap. cbn. split; [|constructor].
  by rewrite presplit_hrw.
Qed.

Lemma presplit_planned (bounds : list (N * N * N)) :
  NoDup ((fun b : N * N * N => b.1.1) <$> bounds) ->
  let plan := plan_placement (presplit_input k candidates <$> bounds) rf 10 in
  forall b, b ∈ bounds ->
    let t := default [] (plan !! b.1.1) in
    plan !! b.1.1 = Some t /\
    NoDup t /\ t ⊆ candidates /\ length t = Nat.min rf (length candidates) /\ t <> [].
Proof using Hnd Hne Hrf.
  intros Hb plan [[id st] en] Hin t. cbn in *.
  set (inputs := presplit_input k candidates <$> bounds) in *.
  pose proof (presplit_inputs_wf bounds Hb) as Hwf. fold inputs in Hwf.
  destruct (plan_targets_spec inputs rf 10 Hwf) as [Hdom Hval]. fold plan in Hdom, Hval.
  assert (Hr : presplit_input k candidates (id, st, en) ∈ inputs) by (by apply list_elem_of_fmap_2).
  assert (Hs : is_Some (plan !! id)).
  { apply Hdom. exists (presplit_input k candidates (id, st, en)). split; [done|]. split; [done|].
    cbn. intros He. pose proof (presplit_hrw st) as Hp. rewrite He in Hp.
    by apply Permutation_nil_l in Hp. }
  destruct Hs as [t' Ht]. assert (t = t') as -> by (unfold t; by rewrite Ht).
  destruct (Hval _ t' Hr) as [(H1 & H2 & H3) _]; [done|]. cbn in H2, H3.
  split; [done|]. split; [done|]. split.
  { intros x Hx%H2. by rewrite presplit_hrw in Hx. }
  rewrite presplit_hrw in H3. split; [done|]. intros ->. cbn in H3.
  destruct candidates; cbn in H3; [done|lia].
Qed.

(** How many of the regions list node [n]. *)
Definition copies (rs : list ShardRegion) (n : N) : nat :=
  length (List.filter (fun r => bool_decide (n ∈ peers r)) rs).

Lemma copies_load (bounds : list (N * N * N)) n at_ :
  NoDup ((fun b : N * N * N => b.1.1) <$> bounds) ->
  let plan := plan_placement (presplit_input k candidates <$> bounds) rf 10 in
  forall l, copy_load (presplit_input k candidates <$> l) plan n
  = N.of_nat (copies (presplit_region plan at_ <$> l) n).
Proof.
  clear Hnd Hne Hrf. intros _ plan. unfold copies. induction l as [|[[id st] en] l IH]; [done|].
  rewrite !fmap_cons. cbn [copy_load List.filter presplit_input presplit_region peers fresh_region].
  rewrite IH. unfold set_of. cbn [rp_region_id rp_weight].
  case_bool_decide; cbn [length]; unfold weight1; lia.
Qed.

Lemma copies_gap_exists rs a b :
  (copies rs b < copies rs a)%nat -> exists r, r ∈ rs /\ a ∈ peers r /\ b ∉ peers r.
Proof.
  clear Hnd Hne Hrf. unfold copies. intros Hlt.
  destruct (decide (Exists (fun r => a ∈ peers r /\ b ∉ peers r) rs)) as [He|He].
  - apply Exists_exists in He as (r & Hr & H1 & H2). by exists r.
  - exfalso. apply (Nat.lt_irrefl (copies rs b)). eapply Nat.lt_le_trans; [exact Hlt|].
    apply filterb_length_le. intros r Hr Ha%bool_decide_eq_true. apply bool_decide_eq_true.
    destruct (decide (b ∈ peers r)); [done|]. exfalso. apply He. apply Exists_exists. eauto.
Qed.

Lemma presplit_spread (bounds : list (N * N * N)) at_ a b :
  NoDup ((fun b : N * N * N => b.1.1) <$> bounds) ->
  let plan := plan_placement (presplit_input k candidates <$> bounds) rf 10 in
  let rs := presplit_region plan at_ <$> bounds in
  b ∈ candidates -> (copies rs a <= copies rs b + 1)%nat.
Proof using Hnd Hne Hrf.
  intros Hb plan rs Hbc. destruct (decide (copies rs a <= copies rs b + 1)%nat) as [|Hgt]; [done|].
  destruct (copies_gap_exists rs a b ltac:(lia)) as (r & Hr & Ha & Hnb).
  apply list_elem_of_fmap in Hr as (bd & -> & Hin).
  destruct (presplit_planned bounds Hb bd Hin) as (Ht & _). fold plan in Ht.
  pose proof (presplit_inputs_wf bounds Hb) as Hwf.
  destruct (plan_targets_spec _ rf 10 Hwf) as [_ Hval]. fold plan in Hval.
  destruct bd as [[id st] en]. cbn [presplit_region peers fresh_region fst] in *.
  destruct (Hval (presplit_input k candidates (id, st, en)) (default [] (plan !! id))) as [_ Hgap];
    [by apply list_elem_of_fmap_2|done|].
  specialize (Hgap a b Ha). cbn [presplit_input hrw rp_weight] in Hgap.
  rewrite presplit_hrw in Hgap. specialize (Hgap Hbc Hnb).
  rewrite !(copies_load bounds _ at_ Hb) in Hgap. fold plan rs in Hgap.
  change (weight1 1) with 1 in Hgap. lia.
Qed.
End Presplit.

Lemma presplit_ids (first count : N) :
  0 < count -> count <= u64_max -> first + count <= u64_max ->
  (fun b : N * N * N => b.1.1) <$> presplit_bounds first count
  = seqN first (N.to_nat count).
Proof.
  intros H0 Hc Hf. rewrite presplit_bounds_eq by done. rewrite <-list_fmap_compose.
  apply list_eq. intros i. rewrite list_lookup_fmap.
  destruct (decide (i < N.to_nat count)%nat) as [Hi|Hi].
  - rewrite !seqN_lookup by done. cbn. f_equal; lia.
  - rewrite (lookup_ge_None_2 (seqN 0 _)), (lookup_ge_None_2 (seqN first _))
      by (rewrite seqN_length; lia). done.
Qed.

Lemma seqN_NoDup from n : NoDup (seqN from n).
Proof. apply (sorted_NoDup N.lt); [lia|apply seqN_sorted]. Qed.

Lemma presplit_bound_ranges first count b :
  0 < count -> count <= u64_max -> first + count <= u64_max ->
  b ∈ presplit_bounds first count ->
  b.1.1 <= u64_max /\ b.1.2 < b.2 /\ b.2 <= u64_max.
Proof.
  intros H0 Hc Hf. rewrite presplit_bounds_eq by done.
  intros (i & -> & [_ Hi]%elem_of_seqN)%list_elem_of_fmap. cbn [fst snd].
  assert (Hw : count * (u64_max / count) <= u64_max) by (apply N.Div0.mul_div_le).
  assert (Hw1 : 0 < u64_max / count) by (apply N.div_str_pos; lia).
  revert Hw Hw1. generalize (u64_max / count). intros w Hw Hw1.
  destruct (N.eqb_spec (i + 1) count); split_and!; try lia; nia.
Qed.

Lemma presplit_regions_spec (k : MeasurementKey) (first : N) (count : nat)
    (candidates : list N) (rf : nat) (at_ : N) :
  NoDup candidates -> candidates <> [] -> (0 < rf)%nat ->
  first + N.max (N.of_nat count) 1 <= u64_max ->
  let rs := presplit_regions k first count candidates rf at_ in
  region_id <$> rs = seqN first (Nat.max count 1) /\
  chain 0 u64_max rs /\
  (forall r, r ∈ rs -> region_wf r /\ is_serving r = true /\ peers r ⊆ candidates /\
     length (peers r) = Nat.min rf (length candidates) /\ head (peers r) = Some (primary r)) /\
  (forall a b, b ∈ candidates -> (copies rs a <= copies rs b + 1)%nat).
Proof.
  intros Hnd Hne Hrf Hf. cbv zeta. unfold presplit_regions.
  set (c := N.max (N.of_nat count) 1) in *. assert (Hc : 0 < c /\ c <= u64_max) by lia.
  destruct Hc as [Hc0 Hc1].
  set (plan := plan_placement _ rf 10).
  assert (Hb : NoDup ((fun b : N * N * N => b.1.1) <$> presplit_bounds first c))
    by (rewrite presplit_ids by done; apply seqN_NoDup).
  split; [|split; [|split]].
  - rewrite <-list_fmap_compose.
    rewrite (list_fmap_ext _ (fun b : N * N * N => b.1.1)) by (by intros _ [[? ?] ?] _).
    rewrite presplit_ids by done. f_equal. lia.
  - apply presplit_chain; [|done..]. by intros [[? ?] ?].
  - intros r (b & -> & Hin)%list_elem_of_fmap.
    destruct (presplit_planned k candidates rf Hnd Hne Hrf _ Hb b Hin) as (_ & H1 & H2 & H3 & H4).
    fold plan in H1, H2, H3, H4.
    destruct (presplit_bound_ranges first c b Hc0 Hc1 Hf Hin) as (Hid & Hlt & Hend).
    destruct b as [[id st] en]. cbn [fst snd] in *. cbn [presplit_region fresh_region peers primary].
    destruct (default [] (plan !! id)) as [|p t] eqn:Et; [done|].
    split; [|done]. constructor; cbn; try done; [split; cbn; lia|by left|by intros ?%elem_of_nil|
      by intros ? ?%elem_of_nil].
  - intros a b Hbc. by apply presplit_spread.
Qed.

(** A measurement's first regions: [count] of them with consecutive ids, well-formed, covering
    the hash space in order without gap or overlap; each on [min rf n] distinct candidates
    with its primary first, and no node holding more than one copy more than another. *)
Theorem presplit_regions_correct (k : MeasurementKey) (first : N) (count : nat)
    (candidates : list N) (rf : nat) (at_ : N) :
  NoDup candidates -> candidates <> [] -> (0 < rf)%nat ->
  first + N.max (N.of_nat count) 1 <= u64_max ->
  let rs := presplit_regions k first count candidates rf at_ in
  region_id <$> rs = seqN first (Nat.max count 1) /\
  chain 0 u64_max rs /\
  (forall r, r ∈ rs -> region_wf r /\ is_serving r = true /\ peers r ⊆ candidates /\
     length (peers r) = Nat.min rf (length candidates) /\ head (peers r) = Some (primary r)) /\
  (forall a b, b ∈ candidates -> (copies rs a <= copies rs b + 1)%nat).
Proof. apply presplit_regions_spec. Qed.

Lemma presplit_regions_correct_witness :
  let rs := presplit_regions (mkKey "db" "autogen" "cpu") 7 12 five_nodes 3 1 in
  Nat.le (copies rs 4) (copies rs 1 + 1).
Proof.
  destruct (presplit_regions_correct (mkKey "db" "autogen" "cpu") 7 12 five_nodes 3 1)
    as (_ & _ & _ & H); [exact five_nodes_NoDup|discriminate|lia|by vm_compute|].
  apply (H 4 1). left.
Defined.

(** ** The map accepts the operation *)

Lemma check_new_ids_fresh m seen rs :
  NoDup (region_id <$> rs) ->
  (forall r, r ∈ rs -> region_id r ∉ seen /\ any_region_id m (region_id r) = false) ->
  check_new_ids m seen rs = Ok tt.
Proof.
  revert seen. induction rs as [|r rs IH]; intros seen Hnd Hf; [done|].
  cbn [check_new_ids]. rewrite fmap_cons in Hnd. apply NoDup_cons in Hnd as [Hr Hnd].
  destruct (Hf r) as [H1 H2]; [by left|]. rewrite bool_decide_eq_false_2, H2 by done. cbn [orb].
  apply IH; [done|]. intros x Hx. destruct (Hf x) as [H3 H4]; [by right|]. split; [|done].
  rewrite not_elem_of_cons. split; [|done]. intros E. apply Hr. rewrite <-E.
  by apply list_elem_of_fmap_2.
Qed.

Lemma fresh_ids m r :
  map_wf m -> next_region_id m < u64_max -> next_region_id m <= region_id r ->
  any_region_id m (region_id r) = false.
Proof.
  intros Hwf Hn Hr. apply any_region_id_false. intros k r' Hin E.
  destruct (mwf_next _ Hwf _ _ Hin); lia.
Qed.

Lemma bootstrap_presplit_accepted m k rs :
  map_wf m -> space m k = None -> next_region_id m < u64_max -> Forall region_wf rs ->
  chain 0 u64_max rs -> NoDup (region_id <$> rs) ->
  (forall r, r ∈ rs -> next_region_id m <= region_id r) ->
  exists m', apply_bootstrap_presplit m k rs = (m', Ok tt) /\ space m' k = Some (mkSpace k rs).
Proof.
  intros Hwf Hk Hn Hr Hc Hnd Hid. unfold apply_bootstrap_presplit, space in *. rewrite Hk.
  rewrite check_new_ids_fresh; [|done|].
  2: { intros r Hin. split; [by intros ?%elem_of_nil|]. apply fresh_ids; auto. }
  pose proof (chain_sorted _ _ _ Hc) as Hs.
  assert (Hv : space_wf (mkSpace k rs)).
  { apply space_wf_intro; [|done..]. eapply Forall_impl; [exact Hr|]. apply rwf_u64. }
  unfold sort_space_regions. cbn [regions key]. rewrite sort_regions_id by done.
  rewrite (swf_valid _ Hv). eexists. split; [done|]. cbn. apply lookup_insert_eq.
Qed.

Lemma bootstrap_single_accepted m k r :
  map_wf m -> space m k = None -> next_region_id m < u64_max -> region_wf r ->
  start r = 0 -> end_ r = u64_max -> region_id r = next_region_id m ->
  exists m', apply_bootstrap m k r = (m', Ok tt) /\ space m' k = Some (mkSpace k [r]).
Proof.
  intros Hwf Hk Hn Hr H0 H1 Hid. unfold apply_bootstrap, space in *. rewrite Hk.
  rewrite fresh_ids by (done || lia).
  assert (Hv : space_wf (mkSpace k [r])).
  { apply space_wf_intro; cbn.
    - apply Forall_singleton. by apply rwf_u64.
    - rewrite H0, H1. repeat split. by compute.
    - apply NoDup_singleton. }
  unfold sort_space_regions. cbn [regions key]. rewrite sort_regions_id by (by repeat constructor).
  rewrite (swf_valid _ Hv). eexists. split; [done|]. cbn. apply lookup_insert_eq.
Qed.

Lemma effective_rf_pos configured n : (0 < n)%nat -> (0 < effective_replication_factor configured n)%nat.
Proof. intros H. unfold effective_replication_factor. destruct n; lia. Qed.

Lemma effective_rf_le configured n : (effective_replication_factor configured n <= n)%nat.
Proof. unfold effective_replication_factor. destruct n; lia. Qed.

Lemma bootstrap_single_wf m mem cfg self at_ k prim ps :
  map_wf m ->
  let candidates := placeable_members mem self in
  let rf := effective_replication_factor (sc_replication_factor cfg) (length candidates) in
  target_placement k 0 candidates rf = prim :: ps ->
  let r := fresh_region (next_region_id m) 0 u64_max (prim :: ps) prim at_ in
  region_wf r /\ peers r ⊆ candidates /\ length (peers r) = rf.
Proof.
  intros Hwf candidates rf Ht r.
  pose proof (placeable_NoDup mem self) as Hnd. fold candidates in Hnd.
  rewrite target_ranking in Ht. pose proof (ranking_Permutation k 0 candidates) as Hp.
  assert (Hl : length (prim :: ps) = rf).
  { rewrite <-Ht, length_take, Hp. pose proof (effective_rf_le (sc_replication_factor cfg)
      (length candidates)) as Hle. fold rf in Hle. lia. }
  assert (Hsub : prim :: ps ⊆ candidates).
  { rewrite <-Ht. intros x Hx. apply elem_of_take in Hx as (i & Hi%list_elem_of_lookup_2 & _).
    by rewrite Hp in Hi. }
  assert (Hnp : NoDup (prim :: ps)).
  { rewrite <-Ht. eapply sublist_NoDup; [|apply sublist_take]. by rewrite Hp. }
  split; [|done]. pose proof (mwf_next_u64 _ Hwf).
  constructor; cbn; [split; cbn; lia|by compute|done|by left|by intros ?%elem_of_nil|
    by intros ? ?%elem_of_nil].
Qed.

(** C29: What the node that first sees a measurement proposes is accepted by a map without the
    measurement: its regions then cover the hash space, each on as many distinct placeable
    members as the replication factor and the membership allow, none of them leaving the
    cluster; with nobody placeable it reports the cluster unavailable and proposes nothing. *)
Theorem bootstrap_op_accepted (cfg : ShardingConfig) (m : ShardMap) (mem : ClusterMembership)
    (self now : N) (k : MeasurementKey) :
  reachable m -> space m k = None -> nodes_keyed mem ->
  let members := placeable_members mem self in
  next_region_id m
    + N.max (N.of_nat (sc_bootstrap_regions_per_node cfg) * N.of_nat (length members)) 1 <= u64_max ->
  match build_bootstrap_op cfg m mem self now k with
  | Err e => members = [] /\ e = ClusterUnavailable "no active peers for shard bootstrap"
  | Ok op => op_wf op /\
      exists m' s, apply_shard_map_op m op = (m', Ok tt) /\ space m' k = Some s /\
        chain 0 u64_max (regions s) /\
        forall r, r ∈ regions s -> is_serving r = true /\
          length (peers r) = effective_replication_factor (sc_replication_factor cfg) (length members) /\
          forall p, p ∈ peers r ->
            (p <> self /\ is_active_peer mem p = true) \/
            (p = self /\ forall n, get_node self mem = Some n -> is_departing n = false)
  end.
Proof.
  intros Hreach Hk Hkeyed members Hn. apply reachable_wf in Hreach.
  pose proof (set_version_wf m (sat_add (map_version m) 1) Hreach) as Hwf.
  pose proof (fun p => placeable_elem mem self p Hkeyed) as Hmem. fold members in Hmem.
  pose proof (placeable_NoDup mem self) as Hnd. fold members in Hnd.
  unfold build_bootstrap_op. fold members. rewrite N.min_l by lia.
  set (rf := effective_replication_factor _ _).
  destruct (_ && _) eqn:E.
  - apply andb_true_iff in E as [Hw%N.ltb_lt Hl%N.ltb_lt].
    assert (Hne : members <> []) by (by intros H; rewrite H in Hl).
    pose proof (effective_rf_pos (sc_replication_factor cfg) (length members) ltac:(lia)) as Hrf.
    destruct (presplit_regions_spec k (next_region_id m)
      (N.to_nat (N.of_nat (sc_bootstrap_regions_per_node cfg) * N.of_nat (length members)))
      members rf (N.max now 1) Hnd Hne Hrf) as (Hids & Hc & Hr & _); [lia|].
    set (rs := presplit_regions _ _ _ _ _ _) in *.
    assert (Hrwf : Forall region_wf rs) by (apply Forall_forall; intros r Hin; by apply Hr).
    split; [done|].
    destruct (bootstrap_presplit_accepted (set_map_version (sat_add (map_version m) 1) m) k rs)
      as (m' & Hm' & Hs'); cbn; try done; [lia|rewrite Hids; apply seqN_NoDup| |].
    { intros r Hin%(list_elem_of_fmap_2 region_id). rewrite Hids in Hin.
      by apply elem_of_seqN in Hin as [? _]. }
    exists m', (mkSpace k rs). split; [done|]. split; [done|]. split; [done|].
    intros r Hin. destruct (Hr r Hin) as (_ & H1 & H2 & H3 & _). split; [done|].
    split; [rewrite H3; pose proof (effective_rf_le (sc_replication_factor cfg) (length members));
            unfold rf; lia|].
    intros p Hp. by apply Hmem, H2.
  - destruct (target_placement k 0 members rf) as [|prim ps] eqn:Et.
    + split; [|done]. destruct members as [|x l] eqn:Em; [done|]. exfalso.
      pose proof (effective_rf_pos (sc_replication_factor cfg) (length members)) as Hrf.
      rewrite Em in Hrf. fold rf in Hrf. specialize (Hrf ltac:(cbn; lia)).
      rewrite target_ranking in Et. pose proof (ranking_Permutation k 0 (x :: l)) as Hp.
      destruct (ranking k 0 (x :: l)); [by apply Permutation_nil_l in Hp|]. destruct rf; [lia|done].
    + destruct (bootstrap_single_wf m mem cfg self (N.max now 1) k prim ps Hreach Et)
        as (Hr & Hsub & Hlen).
      split; [done|].
      destruct (bootstrap_single_accepted (set_map_version (sat_add (map_version m) 1) m) k _
                  Hwf Hk ltac:(cbn; lia) Hr) as (m' & Hm' & Hs'); [done..|].
      exists m'. eexists. split; [done|]. split; [done|]. cbn [regions].
      split; [cbn; repeat split; by compute|]. intros r ->%list_elem_of_singleton.
      split; [done|]. split; [done|]. intros p Hp. by apply Hmem, Hsub.
Qed.

Definition boot_config : ShardingConfig := mkShardingConfig 4 2.

Definition boot_members : ClusterMembership :=
  mkMembership 3 (list_to_map [(1, sample_node 1 Active); (2, sample_node 2 Active);
                               (3, sample_node 3 Decommissioning); (4, sample_node 4 Active)]).

Lemma bootstrap_op_accepted_witness :
  match build_bootstrap_op boot_config map_default boot_members 1 100 hash_key with
  | Ok op => op_wf op /\ exists m', apply_shard_map_op map_default op = (m', Ok tt)
  | Err _ => False
  end.
Proof.
  pose proof (bootstrap_op_accepted boot_config map_default boot_members 1 100 hash_key
                reachable_init eq_refl) as H.
  destruct (build_bootstrap_op boot_config map_default boot_members 1 100 hash_key) as [op|e].
  - destruct H as (H1 & m' & s & H2 & _); [| |split; [exact H1|exists m'; exact H2]].
    + intros id n Hn. unfold boot_members in Hn. cbn [nodes] in Hn.
      apply elem_of_list_to_map_2 in Hn.
      repeat (apply elem_of_cons in Hn as [[= -> ->]|Hn]; [reflexivity|]). by apply elem_of_nil in Hn.
    + by vm_compute.
  - destruct H as [H _]; [| |vm_compute in H; discriminate H].
    + intros id n Hn. unfold boot_members in Hn. cbn [nodes] in Hn.
      apply elem_of_list_to_map_2 in Hn.
      repeat (apply elem_of_cons in Hn as [[= -> ->]|Hn]; [reflexivity|]). by apply elem_of_nil in Hn.
    + by vm_compute.
Defined.
