(* ===== verification/ShardRoutingTheorems.v ===== *)
(** * Routing of writes: theorems

    A batch is partitioned by the region that holds each point's series and
    nothing is lost or duplicated; forwarded regions are grouped under their
    primary; a primary's partial write reads back as it was printed. *)

From Stdlib Require Import Ascii.
From stdpp Require Import prelude list sorting gmap strings pretty.
From S2P Require Import Prelude Bytes ShardTypes ShardOps ShardInvariant ShardTheorems LocationCache Membership Points PeerResolution ShardRouting.
From stdpp Require Import options.

#[local] Open Scope N_scope.

(** ** Buckets *)

(** All the points of a map of buckets. *)
Definition bucket_points (b : gmap N (list Point)) : list Point := concat (map_to_list b).*2.

Definition bucket (b : gmap N (list Point)) (id : N) : list Point := default [] (b !! id).

Lemma push_bucket_lookup id p b i :
  bucket (push_bucket id p b) i = bucket b i ++ (if i =? id then [p] else []).
Proof.
  unfold bucket, push_bucket. destruct (N.eqb_spec i id) as [->|Hne].
  - by rewrite lookup_insert_eq.
  - by rewrite lookup_insert_ne, app_nil_r by done.
Qed.

Lemma bucket_points_insert id l b :
  b !! id = None -> bucket_points (<[id := l]> b) ≡ₚ l ++ bucket_points b.
Proof. intros H. unfold bucket_points. by rewrite map_to_list_insert. Qed.

Lemma push_bucket_points id p b : bucket_points (push_bucket id p b) ≡ₚ p :: bucket_points b.
Proof.
  unfold push_bucket. destruct (b !! id) as [l|] eqn:E; cbn.
  - rewrite <-(insert_id b id l E) at 2.
    rewrite <-(insert_delete_eq b id (l ++ [p])), <-(insert_delete_eq b id l).
    rewrite !bucket_points_insert by apply lookup_delete_eq.
    rewrite <-app_assoc. cbn. by rewrite Permutation_middle.
  - by rewrite bucket_points_insert.
Qed.

(** Routing moves every point into one bucket. *)
Lemma route_points_perm `{DH : !DefaultHasher} m d r self_id points c b c' b' :
  route_points m d r self_id points c b = (c', Ok b') ->
  bucket_points (pb_local b') ++ bucket_points (pb_forward b')
  ≡ₚ points ++ bucket_points (pb_local b) ++ bucket_points (pb_forward b).
Proof.
  revert c b. induction points as [|p points IH]; intros c b; cbn [route_points].
  { by intros [= <- <-]. }
  destruct (locate_route c m _ _ _) as [c1 [rt|]]; [|done].
  intros H. apply IH in H. rewrite H.
  destruct (_ && _); cbn [pb_local pb_forward]; rewrite push_bucket_points; solve_Permutation.
Qed.

Lemma partition_points_perm `{DH : !DefaultHasher} c m d r self_id points c' b :
  partition_points c m d r self_id points = (c', Ok b) ->
  bucket_points (pb_local b) ++ bucket_points (pb_forward b) ≡ₚ points.
Proof.
  unfold partition_points. destruct (check_bootstrapped m d r ∅ points); [|done]. intros H.
  rewrite (route_points_perm _ _ _ _ _ _ _ _ _ H). cbn [pb_local pb_forward]. unfold bucket_points.
  rewrite map_to_list_empty. cbn. by rewrite app_nil_r.
Qed.

(** ** Partition *)

Section Partition.
Context `{DH : !DefaultHasher}.
Context (hist : N -> option ShardMap) (m : ShardMap) (d r : string) (self_id : N).
Context (Hsnap : snapshot_of hist m) (Hreach : reachable m).

(** The key of a point's measurement, and the region that holds its series. *)
Definition point_key (p : Point) : MeasurementKey := mkKey d r (pt_measurement p).

Definition home (p : Point) : option ShardRegion := locate m (point_key p) (series_id_for_point p).

(** This node writes a region itself when it is its primary and a member. *)
Definition writes_here (reg : ShardRegion) : bool :=
  bool_decide (self_id ∈ peers reg) && (primary reg =? self_id).

Definition homed (here : bool) (id : N) (p : Point) : bool :=
  match home p with
  | Some reg => Bool.eqb (writes_here reg) here && (region_id reg =? id)
  | None => false
  end.

(** No region of the measurement is staging. *)
Definition all_serving (p : Point) : Prop :=
  forall s reg, space m (point_key p) = Some s -> reg ∈ regions s -> is_serving reg = true.

Lemma locate_route_step c p :
  rtc (cache_step hist) cache_new c ->
  rtc (cache_step hist) cache_new (locate_route c m (point_key p) (series_id_for_point p) self_id).1.
Proof using Hsnap.
  intros Hc. unfold locate_route. destruct (locate_read _ _ _ _); [done|].
  destruct (locate _ _ _); [|done]. eapply rtc_r; [done|]. by apply step_fill.
Qed.

(** A lookup finds a route as soon as the map has a home for the series. *)
Lemma locate_route_found c p :
  is_Some (home p) ->
  is_Some (locate_route c m (point_key p) (series_id_for_point p) self_id).2.
Proof.
  intros [reg Hr]. unfold locate_route, home in *. destruct (locate_read _ _ _ _); [by eexists|].
  rewrite Hr. by eexists.
Qed.

Lemma route_points_total points c b :
  (forall p, p ∈ points -> is_Some (home p)) ->
  exists c' b', route_points m d r self_id points c b = (c', Ok b').
Proof.
  revert c b. induction points as [|p points IH]; intros c b Hh; cbn [route_points]; [by eauto|].
  destruct (locate_route_found c p) as [rt Hrt]; [apply Hh; by left|].
  unfold point_key in Hrt. destruct (locate_route c m _ _ _) as [c1 o]. cbn in Hrt. subst o.
  apply IH. intros q Hq. apply Hh. by right.
Qed.

Lemma route_points_coherent points c b c' b' :
  rtc (cache_step hist) cache_new c ->
  route_points m d r self_id points c b = (c', Ok b') -> rtc (cache_step hist) cache_new c'.
Proof using Hsnap.
  revert c b. induction points as [|p points IH]; intros c b Hc; cbn [route_points].
  { by intros [= <- <-]. }
  pose proof (locate_route_step c p Hc) as Hs. unfold point_key in Hs.
  destruct (locate_route c m _ _ _) as [c1 [rt|]]; [|done]. by apply IH.
Qed.

Lemma route_points_buckets points c b c' b' :
  rtc (cache_step hist) cache_new c -> (forall p, p ∈ points -> all_serving p) ->
  route_points m d r self_id points c b = (c', Ok b') ->
  (forall p, p ∈ points -> is_Some (home p)) /\
  forall id,
    bucket (pb_local b') id = bucket (pb_local b) id ++ List.filter (homed true id) points /\
    bucket (pb_forward b') id = bucket (pb_forward b) id ++ List.filter (homed false id) points.
Proof using Hsnap Hreach.
  revert c b. induction points as [|p points IH]; intros c b Hc Hserv; cbn [route_points].
  { intros [= <- <-]. split; [by intros ? ?%elem_of_nil|]. intros id. by rewrite !app_nil_r. }
  pose proof (locate_route_step c p Hc) as Hs.
  destruct (cache_transparent_when_serving hist c m (point_key p) Hc Hsnap Hreach
              (Hserv p ltac:(by left)) (series_id_for_point p) self_id epoch_default)
    as (_ & Hrt & _).
  unfold point_key in Hs, Hrt. destruct (locate_route c m _ _ _) as [c1 o]. cbn [fst snd] in *.
  destruct o as [rt|]; [|done]. destruct (locate m _ _) as [reg|] eqn:El; [|done].
  cbn in Hrt. injection Hrt as ->. intros H.
  apply IH in H as [H1 H2]; [|done|intros q Hq; apply Hserv; by right].
  assert (Hh : home p = Some reg) by exact El. split.
  { intros q [->|Hq]%elem_of_cons; [by eexists|by apply H1]. }
  intros id. specialize (H2 id) as [H2 H3]. rewrite H2, H3. cbn [List.filter].
  assert (Hhom : forall here, homed here id p
            = Bool.eqb (writes_here reg) here && (region_id reg =? id))
    by (intros; unfold homed; by rewrite Hh).
  rewrite !Hhom.
  cbn [self_is_peer route_of route_primary route_region_id]. fold (writes_here reg).
  destruct (writes_here reg); cbn [Bool.eqb andb pb_local pb_forward];
    rewrite push_bucket_lookup, (N.eqb_sym id); destruct (region_id reg =? id);
    by rewrite ?app_nil_r, <-?app_assoc.
Qed.
End Partition.

Lemma check_bootstrapped_ok m d r seen points :
  (forall s, s ∈ seen -> is_Some (space m (mkKey d r s))) ->
  check_bootstrapped m d r seen points = Ok tt <->
  forall p, p ∈ points -> is_Some (space m (mkKey d r (pt_measurement p))).
Proof.
  revert seen. induction points as [|p points IH]; intros seen Hs; cbn [check_bootstrapped].
  { split; [by intros _ ? ?%elem_of_nil|done]. }
  destruct (decide (is_Some (space m (mkKey d r (pt_measurement p))))) as [Hp|Hp].
  - rewrite (bool_decide_eq_true_2 (is_Some _)) by done. rewrite andb_false_r.
    rewrite IH by (intros s; set_unfold; naive_solver).
    split; [|intros H q Hq; apply H; by right].
    intros H q [->|Hq]%elem_of_cons; [done|by apply H].
  - rewrite (bool_decide_eq_false_2 (is_Some _)) by done.
    rewrite (bool_decide_eq_false_2 (_ ∈ seen)) by (by intros ?%Hs). cbn.
    split; [done|]. intros H. destruct Hp. apply H. by left.
Qed.

(** In a reachable map, a series whose measurement has a space has a home,
    unless its id is the one value no half-open range holds. *)
Lemma home_exists `{DH : !DefaultHasher} m d r p :
  reachable m -> is_Some (space m (mkKey d r (pt_measurement p))) ->
  series_id_for_point p < u64_max -> is_Some (home m d r p).
Proof.
  intros Hr%reachable_wf [s Hs] Hlt. unfold home, locate, point_key, space in *. rewrite Hs. cbn.
  pose proof (space_wf_chain _ (mwf_space _ Hr _ _ Hs)) as Hc.
  destruct s as [k l]. destruct (chain_locate k l (series_id_for_point p) Hc) as (? & reg & ? & _ & _ & E);
    [done|]. by rewrite E.
Qed.

(** ** Properties *)

(** C24: Partitioning a batch loses and duplicates nothing: the buckets together are the batch.
    It succeeds whenever every measurement of the batch has regions and no series id is
    [u64::MAX], and keeps the location cache coherent. When no region of the batch's
    measurements is staging, the bucket of a region holds, in batch order, exactly the points
    whose series the region holds, on the local side exactly for the regions this node is a
    member and the primary of. *)
Theorem partition_points_correct `{DH : !DefaultHasher} (hist : N -> option ShardMap)
    (c : CacheInner) (m : ShardMap) (d r : string) (self_id : N) (points : list Point) :
  rtc (cache_step hist) cache_new c -> snapshot_of hist m -> reachable m ->
  let out := partition_points c m d r self_id points in
  ((forall p, p ∈ points -> is_Some (space m (mkKey d r (pt_measurement p))) /\
      series_id_for_point p < u64_max) -> is_ok out.2 = true) /\
  ((exists p, p ∈ points /\ space m (mkKey d r (pt_measurement p)) = None) -> is_ok out.2 = false) /\
  forall b, out.2 = Ok b ->
    rtc (cache_step hist) cache_new out.1 /\
    bucket_points (pb_local b) ++ bucket_points (pb_forward b) ≡ₚ points /\
    ((forall p, p ∈ points -> all_serving m d r p) ->
     forall id,
       bucket (pb_local b) id = List.filter (homed m d r self_id true id) points /\
       bucket (pb_forward b) id = List.filter (homed m d r self_id false id) points).
Proof.
  intros Hc Hsnap Hreach. cbv zeta. unfold partition_points.
  pose proof (check_bootstrapped_ok m d r ∅ points ltac:(set_solver)) as Hcheck. split; [|split].
  - intros H. rewrite (proj2 Hcheck) by (intros p Hp; by apply H).
    destruct (route_points_total m d r self_id points c (mkBuckets ∅ ∅)) as (c' & b' & ->); [|done].
    intros p Hp. destruct (H p Hp). by apply home_exists.
  - intros (p & Hp & Hn). destruct (check_bootstrapped m d r ∅ points) as [[]|e]; [|done].
    apply (proj1 Hcheck eq_refl) in Hp as [s Hs]. congruence.
  - intros b. destruct (check_bootstrapped m d r ∅ points) as [[]|e]; [|done]. intros Hb.
    destruct (route_points m d r self_id points c (mkBuckets ∅ ∅)) as [c' res] eqn:E.
    cbn in Hb. subst res. cbn [fst].
    split; [by eapply route_points_coherent|]. split.
    { rewrite (route_points_perm _ _ _ _ _ _ _ _ _ E). cbn [pb_local pb_forward]. unfold bucket_points at 1 2.
      rewrite map_to_list_empty. cbn. by rewrite app_nil_r. }
    intros Hserv. by destruct (route_points_buckets hist m d r self_id Hsnap Hreach _ _ _ _ _ Hc Hserv E).
Qed.

Definition const_hasher (n : N) : DefaultHasher := fun _ => n.

(** A hasher that counts what it is fed. *)
Definition count_hasher : DefaultHasher := fun inputs => N.of_nat (length inputs).

Definition route_point : Point := mkPoint "cpu" {[ "host"%string := "a"%string ]} ∅ 5.

Lemma partition_points_correct_witness :
  is_ok (partition_points (DH := const_hasher 7) cache_new sample_map "db" "autogen" 1
           [route_point; route_point]).2 = true.
Proof.
  apply (partition_points_correct (DH := const_hasher 7) sample_hist cache_new sample_map
           "db" "autogen" 1 [route_point; route_point]);
    [apply rtc_refl|reflexivity|exact sample_map_reachable|].
  intros p [-> |[-> |[]%elem_of_nil]%elem_of_cons]%elem_of_cons; split;
    (reflexivity || by eexists).
Defined.

(** ** Forwards by primary *)

(** The node a region's writes must reach, when it is another one. *)
Definition forward_target (self_id : N) (mem : ClusterMembership) (reg : ShardRegion) : option N :=
  match head (resolve_region_peers reg self_id mem RoleWrite) with
  | Some node => if node =? self_id then None else Some node
  | None => None
  end.

Lemma group_step_eq self_id mem by_node unrouted reg :
  group_step self_id mem (by_node, unrouted) reg
  = match forward_target self_id mem reg with
    | Some node => (<[node := default [] (by_node !! node) ++ [region_id reg]]> by_node, unrouted)
    | None => (by_node, unrouted ++ [region_id reg])
    end.
Proof.
  unfold group_step, forward_target.
  destruct (head _) as [node|]; [|done]. by destruct (node =? self_id).
Qed.

Lemma group_forwards_fold self_id mem rs by_node unrouted :
  let out := fold_left (group_step self_id mem) rs (by_node, unrouted) in
  (forall node, default [] (out.1 !! node) = default [] (by_node !! node)
     ++ (region_id <$> List.filter
           (fun reg => bool_decide (forward_target self_id mem reg = Some node)) rs)) /\
  out.2 = unrouted
     ++ (region_id <$> List.filter
           (fun reg => bool_decide (forward_target self_id mem reg = None)) rs).
Proof.
  revert by_node unrouted. induction rs as [|reg rs IH]; intros by_node unrouted.
  { cbn. split; [intros node|]; by rewrite app_nil_r. }
  cbn [fold_left]. rewrite group_step_eq. cbn [List.filter].
  destruct (forward_target self_id mem reg) as [n|] eqn:E.
  - destruct (IH (<[n := default [] (by_node !! n) ++ [region_id reg]]> by_node) unrouted) as [H1 H2].
    split; [|rewrite H2; by rewrite (bool_decide_eq_false_2 (Some n = None)) by done].
    intros node. rewrite H1. destruct (decide (n = node)) as [->|Hne].
    + rewrite lookup_insert_eq, bool_decide_eq_true_2 by done. cbn. by rewrite <-app_assoc.
    + rewrite lookup_insert_ne, bool_decide_eq_false_2 by congruence. done.
  - destruct (IH by_node (unrouted ++ [region_id reg])) as [H1 H2].
    rewrite (bool_decide_eq_true_2 (None = None)) by done. split.
    + intros node. rewrite H1, (bool_decide_eq_false_2 (None = Some node)) by done. done.
    + rewrite H2. cbn. by rewrite <-app_assoc.
Qed.

(** Grouping the forwarded regions by primary: a node is listed with exactly the regions whose
    only write target it is, in order, never this node; every region that has no other node to
    go to is in the second list; so each region is in exactly one place, and where it goes is
    its primary, a full copy on a serving node. *)
Theorem group_forwards_correct (rs : list ShardRegion) (self_id : N) (mem : ClusterMembership) :
  let '(by_node, unrouted) := group_forwards_by_primary rs self_id mem in
  (forall node, default [] (by_node !! node)
     = region_id <$> List.filter
         (fun reg => bool_decide (forward_target self_id mem reg = Some node)) rs) /\
  unrouted = region_id <$> List.filter
         (fun reg => bool_decide (forward_target self_id mem reg = None)) rs /\
  forall reg node, forward_target self_id mem reg = Some node ->
    node <> self_id /\ node = primary reg /\ is_serving reg = true /\
    is_serving_peer reg node = true /\ is_serving_node mem node = true.
Proof.
  unfold group_forwards_by_primary.
  pose proof (group_forwards_fold self_id mem rs ∅ []) as [H1 H2].
  destruct (fold_left _ rs (∅, [])) as [by_node unrouted]. cbn [fst snd] in *.
  split; [intros node; rewrite H1; by rewrite lookup_empty|]. split; [done|].
  intros reg node. unfold forward_target, resolve_region_peers.
  destruct (is_serving reg); cbn [negb]; [|done].
  destruct (_ && _) eqn:E; [|done]. apply andb_true_iff in E as [E1 E2]. cbn [head].
  destruct (N.eqb_spec (primary reg) self_id); [done|]. by intros [= <-].
Qed.

(** ** Refusals *)

Lemma rsplit_once_none c sep l : c ∉ l -> rsplit_once (c :: sep) l = None.
Proof.
  induction l as [|x l IH]; intros Hc; [done|]. apply not_elem_of_cons in Hc as [Hx Hc].
  cbn [rsplit_once]. rewrite IH by done. unfold strip_prefix. cbn [has_prefix].
  by destruct (N.eqb_spec c x).
Qed.

(** The last separator is found when nothing after it can start one. *)
Lemma rsplit_once_last c sep s n :
  c ∉ sep -> c ∉ n -> rsplit_once (c :: sep) (s ++ c :: sep ++ n) = Some (s, n).
Proof.
  intros Hs Hn. induction s as [|x s IH]; cbn [app rsplit_once].
  - rewrite rsplit_once_none by (by rewrite elem_of_app; intros []).
    rewrite app_comm_cons. by rewrite strip_prefix_app.
  - by rewrite IH.
Qed.

Lemma parse_digits_no_space acc s n : parse_digits 10 acc s = Some n -> 32 ∉ s.
Proof.
  revert acc. induction s as [|c s IH]; intros acc; cbn [parse_digits]; [by intros _ ?%elem_of_nil|].
  destruct (to_digit 10 c) as [x|] eqn:E; cbn; [|done]. case_match; [|done]. intros Hp.
  rewrite not_elem_of_cons. split; [by intros <-|by eapply IH].
Qed.

Lemma decimal_no_space n : n <= u64_max -> 32 ∉ decimal n.
Proof.
  intros Hn. unfold decimal, pretty, pretty_N. case_decide;
    [refine (bool_decide_unpack _ _); by vm_compute|].
  apply (parse_digits_no_space 0 _ n). by rewrite parse_pretty_go.
Qed.

(** What a primary says about a forwarded part survives the wire: a partial write, printed,
    wrapped in JSON and read back, has the same reason and the same count whatever its reason
    contains, and any other refusal counts the whole part as dropped. *)
Theorem refused_roundtrip {J : JsonError} {JL : JsonErrorLaws J} (reason : string)
    (dropped points : N) :
  dropped <= u64_max ->
  refused (json_error (display_partial reason dropped)) points = PartialWrite reason dropped /\
  forall e, has_prefix partial_prefix (str_bytes e) = false ->
    refused (json_error e) points = PartialWrite e points.
Proof.
  intros Hd. split.
  - unfold refused. rewrite json_error_roundtrip. unfold display_partial.
    rewrite !str_bytes_app. fold partial_prefix dropped_sep.
    rewrite strip_prefix_app. change (str_bytes (pretty dropped)) with (decimal dropped).
    change dropped_sep with (32 :: str_bytes "dropped=").
    rewrite <-app_comm_cons, rsplit_once_last;
      [|refine (bool_decide_unpack _ _); by vm_compute|by apply decimal_no_space].
    by rewrite decimal_roundtrip, str_bytes_str.
  - intros e He. unfold refused. rewrite json_error_roundtrip. unfold strip_prefix. by rewrite He.
Qed.

(** A JSON printer good enough for one string. *)
Definition brace_json : JsonError := {|
  json_error e := String "{"%char e;
  json_error_member s := match s with String "{"%char e => Some e | _ => None end
|}.

Lemma refused_roundtrip_witness :
  refused (J := brace_json) (json_error (JsonError := brace_json) (display_partial "field type dropped=3 conflict" 2)) 10
  = PartialWrite "field type dropped=3 conflict" 2.
Proof.
  refine (proj1 (refused_roundtrip (J := brace_json) (JL := _) "field type dropped=3 conflict" 2 10 _));
    [intros e; reflexivity|by vm_compute].
Defined.
