(* ===== verification/ShardQueryRouting.v ===== *)
(** * Regions of a query ([hyperbytedb/src/application/shard_query_routing.rs])

    A [SELECT] whose [WHERE] clause fixes the value of every tag is sent only
    to the regions of the series it names. The theorem shows that no matching
    series is left out, for conditions without an empty tag value; a theorem
    at the end shows what happens with one. The regex engine is a class. *)

From Stdlib Require Import SpecFloat.
From stdpp Require Import prelude list sorting gmap strings pretty.
From S2P Require Import Prelude Bytes ShardTypes ShardOps ShardInvariant ShardTheorems.
From S2P Require Import Points PeerResolution ShardRouting ShardRoutingTheorems QueryAst.
From stdpp Require Import options.

#[local] Open Scope N_scope.

(** ** Anchored literal regexes *)

#[local] Abbreviation chars := (list Ascii.ascii).

Definition ascii_in (c : Ascii.ascii) (s : string) : bool :=
  bool_decide (c ∈ String.list_ascii_of_string s).

Definition is_ascii_punctuation (c : Ascii.ascii) : bool :=
  let n := Ascii.N_of_ascii c in
  ((33 <=? n) && (n <=? 47)) || ((58 <=? n) && (n <=? 64)) || ((91 <=? n) && (n <=? 96))
  || ((123 <=? n) && (n <=? 126)).

Definition is_backslash (c : Ascii.ascii) : bool := Ascii.N_of_ascii c =? 92.

Definition is_meta (c : Ascii.ascii) : bool := ascii_in c ".+*?()[]{}^$|".

Definition strip_prefix (p l : chars) : option chars :=
  if bool_decide (take (length p) l = p) then Some (drop (length p) l) else None.

Definition strip_suffix (p l : chars) : option chars :=
  reverse <$> strip_prefix (reverse p) (reverse l).

Definition text (s : string) : chars := String.list_ascii_of_string s.

(** The loop over the characters: the finished values and the last one. *)
Fixpoint regex_values (grouped : bool) (cs : chars) (values : list chars) (cur : chars) : option (list chars) :=
  match cs with
  | [] => Some (values ++ [cur])
  | c :: cs' =>
    if is_backslash c then
      match cs' with
      | e :: cs'' => if is_ascii_punctuation e then regex_values grouped cs'' values (cur ++ [e]) else None
      | [] => None
      end
    else if ascii_in c "|" && grouped then regex_values grouped cs' (values ++ [cur]) []
    else if is_meta c then None
    else regex_values grouped cs' values (cur ++ [c])
  end.

Definition regex_literal_alternatives (pattern : string) : option (list string) :=
  body ← strip_prefix (text "^") (text pattern);
  body ← strip_suffix (text "$") body;
  let inner := match strip_prefix (text "(?:") body with Some i => Some i | None => strip_prefix (text "(") body end in
  values ←
    match inner with
    | Some i => i' ← strip_suffix (text ")") i; regex_values true i' [] []
    | None => regex_values false body [] []
    end;
  if existsb (fun v => bool_decide (v = [])) values then None
  else Some (String.string_of_list_ascii <$> values).

(** ** Exact conditions *)

Definition is_time_identifier (name : string) : bool := eq_ignore_ascii_case name "time".

Fixpoint is_time_bound_expr (e : Expr) : bool :=
  match e with
  | Identifier name | FieldRef name _ => is_time_identifier name
  | Now => true
  | BinaryExpr l _ r => is_time_bound_expr l || is_time_bound_expr r
  | UnaryExpr _ inner => is_time_bound_expr inner
  | DurationLiteral _ | TimeLiteral _ | Call _ _ => true
  | _ => false
  end.

Definition parse_tag_identifier_eq (l r : Expr) : option (string * string) :=
  match l, r with
  | Identifier tag, StringLiteral val | StringLiteral val, Identifier tag => Some (tag, val)
  | _, _ => None
  end.

Fixpoint tag_value_set (e : Expr) : option (string * list string) :=
  match e with
  | BinaryExpr l OpEq r =>
    tv ← parse_tag_identifier_eq l r;
    if is_time_identifier tv.1 then None else Some (tv.1, [tv.2])
  | BinaryExpr l Or r =>
    a ← tag_value_set l;
    b ← tag_value_set r;
    if bool_decide (a.1 = b.1) then Some (a.1, a.2 ++ b.2) else None
  | BinaryExpr l RegexMatch r =>
    match l, r with
    | Identifier tag, Regex pattern =>
      if is_time_identifier tag then None
      else values ← regex_literal_alternatives pattern; Some (tag, values)
    | _, _ => None
    end
  | _ => None
  end.

#[local] Abbreviation value_sets := (gmap string (list string)).

(** One term of the conjunction: [sets.insert(tag, values).is_none()]. *)
Definition add_tag_values (e : Expr) (sets : value_sets) : option value_sets :=
  tv ← tag_value_set e;
  match sets !! tv.1 with
  | None => Some (<[tv.1 := tv.2]> sets)
  | Some _ => None
  end.

(** [None] where the source returns false. *)
Fixpoint collect_tag_value_sets (e : Expr) (sets : value_sets) : option value_sets :=
  match e with
  | BinaryExpr l And r => sets' ← collect_tag_value_sets l sets; collect_tag_value_sets r sets'
  | BinaryExpr l (OpGt | Gte | OpLt | Lte) r =>
    if is_time_bound_expr l || is_time_bound_expr r then Some sets else None
  | BinaryExpr l OpEq r =>
    match parse_tag_identifier_eq l r with
    | Some (tag, _) => if is_time_identifier tag then Some sets else add_tag_values e sets
    | None => add_tag_values e sets
    end
  | BinaryExpr _ _ _ => add_tag_values e sets
  | _ => None
  end.

(** ** Selection *)

Definition MAX_SERIES_IDS_FOR_ROUTING : nat := N.to_nat 10000.

Section Selection.
Context `{DH : !DefaultHasher}.

#[local] Abbreviation tag_set := (gmap string string).

Fixpoint tag_combos (sets : list (string * list string)) (combos : list tag_set) : option (list tag_set) :=
  match sets with
  | [] => Some combos
  | (tag, values) :: rest =>
    if (MAX_SERIES_IDS_FOR_ROUTING <? length combos * length values)%nat then None
    else tag_combos rest (combos ≫= fun c => (fun v => <[tag := v]> c) <$> values)
  end.

Definition routable_series_ids (meas : string) (tag_keys : list string) (condition : option Expr)
    : option (list N) :=
  match condition ≫= (fun e => collect_tag_value_sets e ∅) with
  | None => None
  | Some sets =>
    if bool_decide (sort_by string_leb tag_keys = (btree_iter string_leb sets).*1)
    then fmap (M := option) (fmap (M := list) (series_id meas)) (tag_combos (btree_iter string_leb sets) [∅])
    else None
  end.

Inductive RegionSelection :=
| SelectAll
| SelectSingle (r : ShardRegion)
| SelectSubset (rs : list ShardRegion).

Definition selection_regions (sel : RegionSelection) (s : MeasurementShardSpace) : list ShardRegion :=
  match sel with
  | SelectAll => regions s
  | SelectSingle r => [r]
  | SelectSubset rs => rs
  end.

Fixpoint locate_all (s : MeasurementShardSpace) (sids : list N) (seen : gset N) : option (list ShardRegion) :=
  match sids with
  | [] => Some []
  | sid :: rest =>
    region ← space_locate s sid;
    if bool_decide (region_id region ∈ seen) then locate_all s rest seen
    else rs ← locate_all s rest ({[ region_id region ]} ∪ seen); Some (region :: rs)
  end.

Definition select_regions_for_query (s : MeasurementShardSpace) (meas : string)
    (tag_keys : option (list string)) (stmt : SelectStatement) : RegionSelection :=
  match (keys ← tag_keys; routable_series_ids meas keys (sel_condition stmt)) with
  | None | Some [] => SelectAll
  | Some sids =>
    if (MAX_SERIES_IDS_FOR_ROUTING <? length sids)%nat then SelectAll
    else
      match locate_all s sids ∅ with
      | None | Some [] => SelectAll
      | Some [r] => SelectSingle r
      | Some rs => SelectSubset rs
      end
  end.
End Selection.

(** ** What a condition means

    The column of a tag a series does not have reads as the empty string. *)

(** A regex engine: pattern and subject. *)
Class RegexEngine := regex_matches : string -> string -> bool.

Definition tag_column (tags : gmap string string) (tag : string) : string := default EmptyString (tags !! tag).

(** The rows of a series that satisfy a condition; [atom] decides the terms
    that are not on tags. *)
Fixpoint where_holds `{RX : !RegexEngine} (atom : Expr -> bool) (tags : gmap string string) (e : Expr) : bool :=
  match e with
  | BinaryExpr l And r => where_holds atom tags l && where_holds atom tags r
  | BinaryExpr l Or r => where_holds atom tags l || where_holds atom tags r
  | BinaryExpr l OpEq r =>
    match parse_tag_identifier_eq l r with
    | Some (tag, v) => if is_time_identifier tag then atom e else bool_decide (tag_column tags tag = v)
    | None => atom e
    end
  | BinaryExpr l RegexMatch r =>
    match l, r with
    | Identifier tag, Regex pattern => regex_matches pattern (tag_column tags tag)
    | _, _ => atom e
    end
  | _ => atom e
  end.

(** Literal text of a pattern: characters that are not special, and escaped
    punctuation. *)
Inductive literal : chars -> chars -> Prop :=
| literal_nil : literal [] []
| literal_char c cs v : is_meta c = false -> is_backslash c = false -> literal cs v -> literal (c :: cs) (c :: v)
| literal_escape b c cs v :
    is_backslash b = true -> is_ascii_punctuation c = true -> literal cs v -> literal (b :: c :: cs) (c :: v).

Inductive alternatives : chars -> list chars -> Prop :=
| alternatives_one cs v : literal cs v -> alternatives cs [v]
| alternatives_more cs v cs' vs :
    literal cs v -> alternatives cs' vs -> alternatives (cs ++ text "|" ++ cs') (v :: vs).

(** [^v$], [^(v|w)$] or [^(?:v|w)$]. *)
Definition anchored (pattern : string) (vs : list string) : Prop :=
  exists body, text pattern = text "^" ++ body ++ text "$" /\
    ((exists v, literal body v /\ vs = [String.string_of_list_ascii v]) \/
     (exists open cs l, (open = text "(" \/ open = text "(?:") /\ body = open ++ cs ++ text ")" /\
        alternatives cs l /\ vs = String.string_of_list_ascii <$> l)).

(** An anchored pattern of literals matches nothing but them. *)
Class RegexEngineLaws (RX : RegexEngine) : Prop :=
  anchored_match : forall pattern vs s, anchored pattern vs -> regex_matches pattern s = true -> s ∈ vs.

(** ** Lemmas *)

Lemma strip_prefix_spec p l r : strip_prefix p l = Some r <-> l = p ++ r.
Proof.
  unfold strip_prefix. case_bool_decide as H; split.
  - intros [= <-]. by rewrite <-H at 1; rewrite take_drop.
  - intros ->. by rewrite drop_app_length.
  - done.
  - intros ->. by rewrite take_app_length in H.
Qed.

Lemma strip_suffix_spec p l r : strip_suffix p l = Some r <-> l = r ++ p.
Proof.
  unfold strip_suffix. rewrite fmap_Some. split.
  - intros (x & Hx%strip_prefix_spec & ->). rewrite <-(reverse_involutive l), Hx, reverse_app. by rewrite reverse_involutive.
  - intros ->. exists (reverse r). rewrite strip_prefix_spec, reverse_app. by rewrite reverse_involutive.
Qed.

Lemma literal_app cs v cs' v' : literal cs v -> literal cs' v' -> literal (cs ++ cs') (v ++ v').
Proof. intros H H'. induction H; cbn; [done|by constructor|by constructor]. Qed.

Lemma alternatives_cons_app cs v cs' w vs :
  literal cs v -> alternatives cs' (w :: vs) -> alternatives (cs ++ cs') ((v ++ w) :: vs).
Proof.
  intros Hl H. inversion H; subst.
  - constructor. by apply literal_app.
  - rewrite app_assoc. constructor; [by apply literal_app|done].
Qed.

(** What the loop reads is text of its values. *)
Lemma regex_values_sound grouped cs values cur out :
  regex_values grouped cs values cur = Some out ->
  exists v vs, out = values ++ (cur ++ v) :: vs /\ alternatives cs (v :: vs) /\ (grouped = false -> vs = [] /\ literal cs v).
Proof.
  remember (length cs) as n eqn:Hn. revert cs Hn values cur.
  induction n as [n IH] using lt_wf_ind. intros cs -> values cur E.
  destruct cs as [|c cs]; cbn [regex_values] in E.
  { injection E as <-. exists [], []. rewrite app_nil_r. repeat constructor. }
  destruct (is_backslash c) eqn:Hb.
  - destruct cs as [|e cs]; [done|]. destruct (is_ascii_punctuation e) eqn:Hp; [|done].
    destruct (IH (length cs) ltac:(cbn; lia) cs eq_refl _ _ E) as (v & vs & -> & Ha & Hg).
    exists (e :: v), vs. rewrite <-app_assoc. split; [done|]. split.
    + apply (alternatives_cons_app [c; e] [e]); [|done]. repeat constructor; done.
    + intros Hf. destruct (Hg Hf) as [-> Hl]. split; [done|]. by constructor.
  - destruct (ascii_in c "|" && grouped) eqn:Hbar.
    + destruct (IH (length cs) ltac:(cbn; lia) cs eq_refl _ _ E) as (v & vs & -> & Ha & Hg).
      exists [], (v :: vs). rewrite app_nil_r, <-app_assoc. split; [done|]. apply andb_prop in Hbar as [Hc Hgr].
      split; [|by rewrite Hgr].
      apply bool_decide_eq_true, list_elem_of_singleton in Hc as ->.
      apply (alternatives_more [] [] cs (v :: vs)); [constructor|done].
    + destruct (is_meta c) eqn:Hm; [done|].
      destruct (IH (length cs) ltac:(cbn; lia) cs eq_refl _ _ E) as (v & vs & -> & Ha & Hg).
      exists (c :: v), vs. rewrite <-app_assoc. split; [done|]. split.
      * apply (alternatives_cons_app [c] [c]); [|done]. repeat constructor; done.
      * intros Hf. destruct (Hg Hf) as [-> Hl]. split; [done|]. by constructor.
Qed.

Lemma no_empty_value (values : list chars) :
  existsb (fun v => bool_decide (v = [])) values = false -> EmptyString ∉ String.string_of_list_ascii <$> values.
Proof.
  intros H (v & Hv & Hin)%list_elem_of_fmap. rewrite <-not_true_iff_false in H. apply H. apply existsb_exists.
  exists v. rewrite list_elem_of_In in Hin. split; [done|]. apply bool_decide_eq_true. by destruct v.
Qed.

Lemma regex_alternatives_sound pattern vs :
  regex_literal_alternatives pattern = Some vs -> anchored pattern vs /\ EmptyString ∉ vs.
Proof.
  unfold regex_literal_alternatives. intros (b0 & H0%strip_prefix_spec & E)%bind_Some.
  apply bind_Some in E as (body & H1%strip_suffix_spec & E). apply bind_Some in E as (values & Ev & E).
  destruct (existsb _ values) eqn:He; [done|]. injection E as <-. split; [|by apply no_empty_value].
  exists body. rewrite H0, H1. split; [done|].
  assert (forall i open, (open = text "(" \/ open = text "(?:") -> body = open ++ i ->
    (i' ← strip_suffix (text ")") i; regex_values true i' [] []) = Some values ->
    exists open cs l, (open = text "(" \/ open = text "(?:") /\ body = open ++ cs ++ text ")" /\
      alternatives cs l /\ String.string_of_list_ascii <$> values = String.string_of_list_ascii <$> l) as Hgroup.
  { intros i open Hopen -> (i' & ->%strip_suffix_spec & Hv)%bind_Some.
    apply regex_values_sound in Hv as (v & vs & -> & Ha & _). exists open, i', (v :: vs). done. }
  destruct (strip_prefix (text "(?:") body) as [i|] eqn:E1; [|destruct (strip_prefix (text "(") body) as [i|] eqn:E2].
  - right. apply strip_prefix_spec in E1. eapply Hgroup; [right; reflexivity|done|done].
  - right. apply strip_prefix_spec in E2. eapply Hgroup; [left; reflexivity|done|done].
  - left. apply regex_values_sound in Ev as (v & vs & -> & _ & Hg). destruct (Hg eq_refl) as [-> Hl].
    exists v. done.
Qed.

(** The condition compares no tag with the empty string. *)
Fixpoint compares_empty (e : Expr) : bool :=
  match e with
  | BinaryExpr l (And | Or) r => compares_empty l || compares_empty r
  | BinaryExpr l OpEq r =>
    match parse_tag_identifier_eq l r with Some (_, EmptyString) => true | _ => false end
  | _ => false
  end.

Section Sound.
Context `{DH : !DefaultHasher} `{RX : !RegexEngine} {RL : RegexEngineLaws RX}.
Context (atom : Expr -> bool) (tags : gmap string string).

Lemma tag_value_set_no_empty e tag vs :
  tag_value_set e = Some (tag, vs) -> compares_empty e = false -> EmptyString ∉ vs.
Proof.
  revert tag vs. induction e as [| | | | | | | | | |l IHl op r IHr| | | |]; intros tag vs E Hc; try done.
  destruct op; cbn [tag_value_set compares_empty] in E, Hc; try done.
  - apply bind_Some in E as ([t v] & Ep & E). rewrite Ep in Hc. cbn [fst snd] in E.
    destruct (is_time_identifier t); [done|]. injection E as <- <-. intros Heq%list_elem_of_singleton. subst v. discriminate Hc.
  - apply bind_Some in E as ([t1 v1] & E1 & E). apply bind_Some in E as ([t2 v2] & E2 & E). cbn [fst snd] in E.
    case_bool_decide; [|done]. injection E as <- <-. apply orb_false_iff in Hc as [Hc1 Hc2].
    intros [Hin|Hin]%elem_of_app; [by eapply IHl|by eapply IHr].
  - destruct l, r; try done. destruct (is_time_identifier _); [done|].
    apply bind_Some in E as (values & Ev & E). injection E as <- <-. by apply regex_alternatives_sound in Ev as [_ ?].
Qed.

Lemma tag_value_set_sound e tag vs :
  tag_value_set e = Some (tag, vs) -> where_holds atom tags e = true -> tag_column tags tag ∈ vs.
Proof using RL.
  revert tag vs. induction e as [| | | | | | | | | |l IHl op r IHr| | | |]; intros tag vs E Hw; try done.
  destruct op; cbn [tag_value_set where_holds] in E, Hw; try done.
  - apply bind_Some in E as ([t v] & Ep & E). rewrite Ep in Hw. cbn [fst snd] in E.
    destruct (is_time_identifier t); [done|]. injection E as <- <-. apply bool_decide_eq_true in Hw as ->. by left.
  - apply bind_Some in E as ([t1 v1] & E1 & E). apply bind_Some in E as ([t2 v2] & E2 & E). cbn [fst snd] in E.
    case_bool_decide as Ht; [|done]. cbn in Ht. subst t2. injection E as <- <-.
    apply elem_of_app. apply orb_prop in Hw as [Hw|Hw]; [left; by apply IHl|right; by apply IHr].
  - destruct l, r; try done. destruct (is_time_identifier _); [done|].
    apply bind_Some in E as (values & Ev & E). injection E as <- <-. apply regex_alternatives_sound in Ev as [Ha _].
    by eapply anchored_match.
Qed.

(** A value set that may be used for routing. *)
Definition exact_set (tag : string) (vs : list string) : Prop := tag_column tags tag ∈ vs /\ EmptyString ∉ vs.

Lemma add_tag_values_sound e sets sets' :
  add_tag_values e sets = Some sets' -> where_holds atom tags e = true -> compares_empty e = false ->
  map_Forall exact_set sets -> map_Forall exact_set sets'.
Proof using RL.
  unfold add_tag_values. intros ([t vs] & Et & E)%bind_Some Hw Hc Hall. cbn [fst snd] in E.
  destruct (sets !! t); [done|]. injection E as <-. apply map_Forall_insert_2; [|done].
  split; [by eapply tag_value_set_sound|by eapply tag_value_set_no_empty].
Qed.

Lemma collect_sound e sets sets' :
  collect_tag_value_sets e sets = Some sets' -> where_holds atom tags e = true -> compares_empty e = false ->
  map_Forall exact_set sets -> map_Forall exact_set sets'.
Proof using RL.
  revert sets sets'. induction e as [| | | | | | | | | |l IHl op r IHr| | | |]; intros sets sets' E Hw Hc Hall; try done.
  pose proof (add_tag_values_sound (BinaryExpr l op r) sets sets') as Hadd.
  destruct op; cbn [collect_tag_value_sets] in E; try (by apply Hadd).
  - destruct (parse_tag_identifier_eq l r) as [[t v]|]; [|by apply Hadd].
    destruct (is_time_identifier t); [by injection E as <-|by apply Hadd].
  - destruct (_ || _); [by injection E as <-|done].
  - destruct (_ || _); [by injection E as <-|done].
  - destruct (_ || _); [by injection E as <-|done].
  - destruct (_ || _); [by injection E as <-|done].
  - apply bind_Some in E as (s1 & E1 & E). cbn [where_holds compares_empty] in Hw, Hc.
    apply andb_prop in Hw as [Hw1 Hw2]. apply orb_false_iff in Hc as [Hc1 Hc2]. eauto.
Qed.

Lemma exact_set_some tag vs : exact_set tag vs -> exists v, tags !! tag = Some v /\ v ∈ vs.
Proof.
  intros [Hin Hne]. unfold tag_column in Hin. destruct (tags !! tag) as [v|]; [by exists v|done].
Qed.

Lemma tag_combos_complete sets combos out c :
  tag_combos sets combos = Some out -> Forall (fun kv => exact_set kv.1 kv.2) sets -> c ∈ combos ->
  exists c', c' ∈ out /\ forall k, c' !! k = if decide (k ∈ sets.*1) then tags !! k else c !! k.
Proof.
  revert combos c. induction sets as [|[t vs] sets IH]; intros combos c E Hall Hc; cbn [tag_combos] in E.
  { injection E as <-. by exists c. }
  destruct (_ <? _)%nat; [done|]. apply Forall_cons in Hall as [Ht Hall]. cbn in Ht.
  destruct (exact_set_some _ _ Ht) as (v & Hv & Hin).
  destruct (IH _ (<[t := v]> c) E Hall) as (c' & Hc' & Hk).
  { apply list_elem_of_bind. exists c. split; [|done]. by apply (list_elem_of_fmap_2 (fun v => <[t := v]> c)). }
  exists c'. split; [done|]. intros k. rewrite Hk. cbn [fmap list_fmap fst].
  destruct (decide (k ∈ sets.*1)) as [H|H]; [by rewrite decide_True by (by right)|].
  destruct (decide (k = t)) as [->|Hne].
  - by rewrite decide_True by (by left); rewrite lookup_insert_eq.
  - rewrite decide_False by (by intros [?|?]%elem_of_cons). by rewrite lookup_insert_ne.
Qed.

Lemma routable_complete meas keys e sids :
  routable_series_ids meas keys (Some e) = Some sids -> where_holds atom tags e = true -> compares_empty e = false ->
  (forall t, is_Some (tags !! t) -> t ∈ keys) -> series_id meas tags ∈ sids.
Proof using RL.
  unfold routable_series_ids. cbn [mbind option_bind]. intros E Hw Hc Hdom.
  destruct (collect_tag_value_sets e ∅) as [sets|] eqn:Es; [|done].
  case_bool_decide as Hk; [|done]. apply fmap_Some in E as (combos & Ec & ->).
  pose proof (collect_sound _ _ _ Es Hw Hc (map_Forall_empty _)) as Hall.
  destruct (tag_combos_complete _ _ _ ∅ Ec) as (c' & Hc' & Heq); [|by left|].
  - apply Forall_forall. intros [t vs] Hin%btree_iter_elem. by apply Hall.
  - assert (c' = tags) as ->; [|by apply list_elem_of_fmap_2]. apply map_eq. intros t. rewrite Heq.
    destruct (decide _) as [|Hn]; [done|]. rewrite lookup_empty. symmetry. apply eq_None_not_Some. intros Hs.
    apply Hn. rewrite <-Hk. apply sort_by_elem_of. by apply Hdom.
Qed.
End Sound.

Lemma locate_all_complete s sids seen rs sid region :
  NoDup (region_id <$> regions s) -> locate_all s sids seen = Some rs -> sid ∈ sids ->
  space_locate s sid = Some region -> region ∈ rs \/ region_id region ∈ seen.
Proof.
  intros Hnd. revert seen rs. induction sids as [|x sids IH]; intros seen rs E Hin Hl; [by apply elem_of_nil in Hin|].
  cbn [locate_all] in E. apply bind_Some in E as (r & Hr & E). apply elem_of_cons in Hin as [<-|Hin].
  - rewrite Hl in Hr. injection Hr as <-. case_bool_decide; [by right|].
    apply bind_Some in E as (rs' & _ & E). injection E as <-. left. by left.
  - case_bool_decide; [by eapply IH|]. apply bind_Some in E as (rs' & Er & E). injection E as <-.
    destruct (IH _ _ Er Hin Hl) as [H'|[Heq|H']%elem_of_union]; [left; by right| |by right].
    apply elem_of_singleton in Heq. left. apply elem_of_cons. left.
    apply (NoDup_fmap_eq region_id (regions s)); [done|exact (proj1 (space_locate_sound _ _ _ Hl))|exact (proj1 (space_locate_sound _ _ _ Hr))|done].
Qed.

(** ** Properties *)

(** C23: No series is left out: for a space of a reachable map, every series with
    tags among the known keys whose rows satisfy the condition has the region
    of its id among the selected ones, as long as the condition compares no
    tag with the empty string. *)
Theorem region_selection_sound `{DH : !DefaultHasher} `{RX : !RegexEngine} {RL : RegexEngineLaws RX}
    (atom : Expr -> bool) (tags : gmap string string) m k s meas tag_keys stmt region :
  reachable m -> space m k = Some s ->
  (forall keys t, tag_keys = Some keys -> is_Some (tags !! t) -> t ∈ keys) ->
  (forall e, sel_condition stmt = Some e -> where_holds atom tags e = true /\ compares_empty e = false) ->
  space_locate s (series_id meas tags) = Some region ->
  region ∈ selection_regions (select_regions_for_query s meas tag_keys stmt) s.
Proof.
  intros Hm Hs Hdom Hcond Hl. pose proof (proj1 (space_locate_sound _ _ _ Hl)) as Hin.
  assert (NoDup (region_id <$> regions s)) as Hnd by (apply space_wf_nodup; by eapply mwf_space; [apply reachable_wf|]).
  unfold select_regions_for_query.
  destruct (tag_keys ≫= _) as [[|sid0 sids]|] eqn:Er; [done| |done].
  apply bind_Some in Er as (keys & -> & Er). destruct (_ <? _)%nat; [done|].
  destruct (locate_all s (sid0 :: sids) ∅) as [rs|] eqn:El; [|done].
  destruct (sel_condition stmt) as [e|] eqn:Ec; [|done]. destruct (Hcond e eq_refl) as [Hw He].
  pose proof (routable_complete atom tags _ _ _ _ Er Hw He (fun t => Hdom keys t eq_refl)) as Hsid.
  destruct (locate_all_complete _ _ _ _ _ _ Hnd El Hsid Hl) as [H|H]; [|by apply elem_of_empty in H].
  destruct rs as [|r1 [|r2 rs]]; done.
Qed.

(** An engine for anchored literals. *)
Definition literal_engine : RegexEngine := fun pattern s =>
  match regex_literal_alternatives pattern with Some vs => bool_decide (s ∈ vs) | None => false end.

Lemma literal_values grouped cs v rest values cur :
  literal cs v -> regex_values grouped (cs ++ rest) values cur = regex_values grouped rest values (cur ++ v).
Proof.
  intros H. revert cur. induction H as [|c cs v Hm Hb H IH|b c cs v Hb Hp H IH]; intros cur; cbn [app regex_values].
  - by rewrite app_nil_r.
  - rewrite Hb, Hm. assert (ascii_in c "|" = false) as ->.
    { apply not_true_is_false. intros Hc%bool_decide_eq_true%list_elem_of_singleton. by subst c. }
    cbn [andb]. by rewrite IH, <-app_assoc.
  - rewrite Hb, Hp, IH, <-app_assoc. done.
Qed.

Lemma regex_values_bar cs values cur :
  regex_values true (text "|" ++ cs) values cur = regex_values true cs (values ++ [cur]) [].
Proof. reflexivity. Qed.

Lemma alternatives_values cs v vs values cur :
  alternatives cs (v :: vs) -> regex_values true cs values cur = Some (values ++ (cur ++ v) :: vs).
Proof.
  intros H. remember (v :: vs) as l eqn:E. revert v vs values cur E.
  induction H as [cs v Hl|cs v cs' vs Hl H IH]; intros v' vs' values cur [= <- <-].
  - pose proof (literal_values true _ _ [] values cur Hl) as E. rewrite app_nil_r in E. by rewrite E.
  - rewrite (literal_values _ _ _ _ _ _ Hl). destruct vs as [|w ws]; [inversion H|].
    rewrite regex_values_bar, (IH w ws _ _ eq_refl), <-app_assoc. done.
Qed.

(** The text of literals does not begin with a special character. *)
Lemma literal_head cs v c : literal (c :: cs) v -> is_meta c = false \/ is_backslash c = true.
Proof. inversion 1; auto. Qed.

Lemma alternatives_head cs vs c : alternatives (c :: cs) vs -> is_meta c = false \/ is_backslash c = true \/ ascii_in c "|" = true.
Proof.
  intros H. remember (c :: cs) as l eqn:E. destruct H as [cs0 v Hl|[|c' cs0] v cs' vs Hl H].
  - rewrite E in Hl. destruct (literal_head _ _ _ Hl); auto.
  - injection E as <- _. auto.
  - injection E as -> _. destruct (literal_head _ _ _ Hl); auto.
Qed.

Lemma literal_not_group p body v :
  is_meta p = true -> is_backslash p = false -> literal body v -> forall q, strip_prefix (p :: q) body = None.
Proof.
  intros Hm Hb Hl q. destruct (strip_prefix (p :: q) body) as [r|] eqn:E; [|done].
  apply strip_prefix_spec in E as ->. cbn in Hl. apply literal_head in Hl as [?|?]; congruence.
Qed.

(** A bare group does not begin with [?:]. *)
Lemma group_not_flagged cs l :
  alternatives cs l -> strip_prefix (text "(?:") (text "(" ++ cs ++ text ")") = None.
Proof.
  intros Ha. destruct (strip_prefix _ _) as [r|] eqn:E; [|done]. apply strip_prefix_spec in E.
  destruct cs as [|c cs]; [done|]. injection E as -> _. apply alternatives_head in Ha as [Hm|[Hm|Hm]]; discriminate Hm.
Qed.

Lemma anchored_values pattern vs vs' :
  anchored pattern vs -> regex_literal_alternatives pattern = Some vs' -> vs' = vs.
Proof.
  intros (body & Hp & Hbody) E. unfold regex_literal_alternatives in E. rewrite Hp in E.
  rewrite (proj2 (strip_prefix_spec _ _ _) eq_refl) in E. cbn [mbind option_bind] in E.
  rewrite (proj2 (strip_suffix_spec _ _ _) eq_refl) in E. cbn [mbind option_bind] in E.
  assert (forall cs l, alternatives cs l ->
    (i' ← strip_suffix (text ")") (cs ++ text ")"); regex_values true i' [] []) = Some l) as Hgroup.
  { intros cs l Ha. rewrite (proj2 (strip_suffix_spec _ _ _) eq_refl). cbn [mbind option_bind].
    destruct l as [|v l]; [inversion Ha|]. by rewrite (alternatives_values _ _ _ _ _ Ha). }
  destruct Hbody as [(v & Hv & ->)|(open & cs & l & Hopen & -> & Ha & ->)].
  - unfold text in E. cbn [String.list_ascii_of_string] in E. rewrite !(fun p Hm Hb => literal_not_group p body v Hm Hb Hv) in E by reflexivity.
    pose proof (literal_values false body v [] [] [] Hv) as Hr. rewrite app_nil_r in Hr. rewrite Hr in E.
    cbn in E. destruct (bool_decide _); [done|]. by injection E as <-.
  - assert (match (match strip_prefix (text "(?:") (open ++ cs ++ text ")") with
                   | Some i => Some i
                   | None => strip_prefix (text "(") (open ++ cs ++ text ")")
                   end) with
            | Some i => i' ← strip_suffix (text ")") i; regex_values true i' [] []
            | None => regex_values false (open ++ cs ++ text ")") [] []
            end = Some l) as Hl.
    { destruct Hopen as [-> | ->].
      - rewrite (group_not_flagged _ _ Ha), (proj2 (strip_prefix_spec _ _ _) eq_refl). by apply Hgroup.
      - rewrite (proj2 (strip_prefix_spec _ _ _) eq_refl). by apply Hgroup. }
    rewrite Hl in E. cbn [mbind option_bind] in E. destruct (existsb _ l); [done|]. by injection E as <-.
Qed.

#[export] Instance literal_engine_laws : RegexEngineLaws literal_engine.
Proof.
  intros pattern vs s Ha Hs. unfold literal_engine, regex_matches in Hs.
  destruct (regex_literal_alternatives pattern) as [vs'|] eqn:E; [|done]. apply bool_decide_eq_true in Hs.
  by rewrite <-(anchored_values _ _ _ Ha E).
Qed.

(** ** Witnesses *)

Definition tag_eq (tag v : string) : Expr := BinaryExpr (Identifier tag) OpEq (StringLiteral v).

Definition select_where (e : Expr) : SelectStatement :=
  mkSelect [mkField (Identifier "v") None] None [Concrete (mkMeasurement None None (NameOf "cpu"))] (Some e)
    None None None None None None None None.

(** [host =~ /^(a|b)$/ AND time > now()]. *)
Definition two_hosts : Expr :=
  BinaryExpr (BinaryExpr (Identifier "host") RegexMatch (Regex "^(a|b)$")) And
    (BinaryExpr (Identifier "time") OpGt Now).

Lemma region_selection_sound_witness :
  let s := default (mkSpace k_cpu []) (space sample_map k_cpu) in
  let sel := select_regions_for_query (DH := count_hasher) s "cpu" (Some ["host"%string]) (select_where two_hosts) in
  length (regions s) = 2%nat /\ length (selection_regions sel s) = 1%nat /\
  forall region, space_locate s (series_id (DH := count_hasher) "cpu" {[ "host"%string := "b"%string ]}) = Some region ->
    region ∈ selection_regions sel s.
Proof.
  split; [vm_compute; reflexivity|]. split; [vm_compute; reflexivity|]. intros region Hl.
  apply (region_selection_sound (DH := count_hasher) (RX := literal_engine) (fun _ => true)
           {[ "host"%string := "b"%string ]} sample_map k_cpu); [exact sample_map_reachable|vm_compute; reflexivity| | |exact Hl].
  - intros keys t [= <-] [v [<- _]%lookup_singleton_Some]. by left.
  - intros e [= <-]. split; vm_compute; reflexivity.
Defined.

Definition split_space : MeasurementShardSpace :=
  mkSpace (mkKey "db" "autogen" "cpu") [fresh_region 1 0 3 [7] 7 1; fresh_region 2 3 u64_max [9] 9 1].

(** A condition [host = ''] holds for the rows of a series without the tag,
    but is routed by the id of a series whose tag is empty: the region of the
    series without the tag is not asked. *)
Theorem empty_tag_value_misses_series :
  let stmt := select_where (tag_eq "host" EmptyString) in
  where_holds (RX := literal_engine) (fun _ => false) ∅ (tag_eq "host" EmptyString) = true /\
  region_id <$> space_locate split_space (series_id (DH := count_hasher) "cpu" ∅) = Some 1 /\
  region_id <$> selection_regions (select_regions_for_query (DH := count_hasher) split_space "cpu"
                                     (Some ["host"%string]) stmt) split_space = [2].
Proof. repeat split; vm_compute; reflexivity. Qed.
