(* ===== verification/Json.v ===== *)
(** * JSON values and 64-bit floats

    What query results are made of: [serde_json::Value] with its three kinds
    of number, the conversions of [f64], and the texts of times. Floats are
    [spec_float]s with the operations of the standard library at 53 bits of
    precision; the text of a value, the [Debug] text of tags and the reading
    of times (chrono) are the class [QueryText]. *)

From Stdlib Require Import SpecFloat.
From stdpp Require Import prelude list sorting gmap strings pretty.
From S2P Require Import Prelude Bytes WalWriter.
From stdpp Require Import options.

#[local] Open Scope Z_scope.

(** ** 64-bit floats *)

#[global] Abbreviation f64 := spec_float.

Definition f64_of_Z (z : Z) : f64 := binary_normalize 53 1024 z 0 false.
Definition f64_add : f64 -> f64 -> f64 := SFadd 53 1024.
Definition f64_sub : f64 -> f64 -> f64 := SFsub 53 1024.
Definition f64_mul : f64 -> f64 -> f64 := SFmul 53 1024.
Definition f64_div : f64 -> f64 -> f64 := SFdiv 53 1024.
Definition f64_sqrt : f64 -> f64 := SFsqrt 53 1024.

Definition f64_is_finite (f : f64) : bool :=
  match f with S754_zero _ | S754_finite _ _ _ => true | _ => false end.

Definition f64_is_nan (f : f64) : bool := match f with S754_nan => true | _ => false end.

(** [f64::min] and [f64::max]; of two zeros the first. *)
Definition f64_min (a b : f64) : f64 :=
  match SFcompare a b with
  | Some Gt => b
  | None => if f64_is_nan a then b else a
  | _ => a
  end.

Definition f64_max (a b : f64) : f64 :=
  match SFcompare a b with
  | Some Lt => b
  | None => if f64_is_nan a then b else a
  | _ => a
  end.

Definition i64_clamp (z : Z) : Z := Z.max (- 2 ^ 63) (Z.min z (2 ^ 63 - 1)).

(** [f as i64]: truncated and saturating, NaN as 0. *)
Definition f64_to_i64 (f : f64) : Z :=
  match f with
  | S754_zero _ | S754_nan => 0
  | S754_infinity true => - 2 ^ 63
  | S754_infinity false => 2 ^ 63 - 1
  | S754_finite s m e =>
    let magnitude := Z.shiftl (Z.pos m) e in
    i64_clamp (if s then - magnitude else magnitude)
  end.

(** ** Values *)

Inductive Number := NumPos (n : N) | NumNeg (z : Z) | NumFloat (f : f64).

Inductive Value :=
| VNull
| VBool (b : bool)
| VNumber (n : Number)
| VString (s : string)
| VArray (vs : list Value)
| VObject (kvs : list (string * Value)).

(** [json!] of an integer and of a float: a float that is not finite has no
    JSON number and becomes null. *)
Definition json_int (z : Z) : Value := VNumber (if z <? 0 then NumNeg z else NumPos (Z.to_N z)).

Definition json_f64 (f : f64) : Value := if f64_is_finite f then VNumber (NumFloat f) else VNull.

Definition is_null (v : Value) : bool := match v with VNull => true | _ => false end.

Definition value_as_i64 (v : Value) : option Z :=
  match v with
  | VNumber (NumPos n) => if Z.of_N n <=? i64_max then Some (Z.of_N n) else None
  | VNumber (NumNeg z) => Some z
  | _ => None
  end.

Definition value_as_u64 (v : Value) : option N :=
  match v with VNumber (NumPos n) => Some n | _ => None end.

Definition value_as_f64 (v : Value) : option f64 :=
  match v with
  | VNumber (NumPos n) => Some (f64_of_Z (Z.of_N n))
  | VNumber (NumNeg z) => Some (f64_of_Z z)
  | VNumber (NumFloat f) => Some f
  | _ => None
  end.

Definition value_as_str (v : Value) : option string :=
  match v with VString s => Some s | _ => None end.

(** ** Texts *)

Class QueryText := {
  (** [Value::to_string]. *)
  value_text : Value -> string;
  (** [{:?}] of optional tag pairs and of an optional tag map. *)
  debug_pairs : option (list (string * string)) -> string;
  debug_tags : option (gmap string string) -> string;
  (** [parse_from_rfc3339] and [parse_from_str] without and with a fraction,
      each with its [timestamp_nanos_opt]. *)
  parse_rfc3339 : string -> option (option Z);
  parse_naive : string -> option (option Z);
  parse_naive_frac : string -> option (option Z);
  (** [DateTime::format] to seconds. *)
  format_secs : Z -> string
}.

(** ** Results ([domain/query_result.rs]) *)

Record SeriesResult := mkSeries {
  sr_name : string;
  sr_tags : option (gmap string string);
  sr_columns : list string;
  sr_values : list (list Value);
  sr_partial : option bool
}.

Record StatementResult := mkStatementResult {
  st_statement_id : N;
  st_series : option (list SeriesResult);
  st_error : option string
}.

(** [QueryResponse] has one field. *)
#[global] Abbreviation QueryResponse := (list StatementResult).

Definition response_single (id : N) (series : list SeriesResult) : QueryResponse :=
  [mkStatementResult id (Some series) None].

Definition response_empty (id : N) : QueryResponse := response_single id [].

Definition response_error (id : N) (msg : string) : QueryResponse :=
  [mkStatementResult id None (Some msg)].

Definition set_values (vs : list (list Value)) (s : SeriesResult) : SeriesResult :=
  mkSeries (sr_name s) (sr_tags s) (sr_columns s) vs (sr_partial s).

Definition set_columns (cs : list string) (s : SeriesResult) : SeriesResult :=
  mkSeries (sr_name s) (sr_tags s) cs (sr_values s) (sr_partial s).

(** [trim_end_matches('0')]. *)
Fixpoint trim_zeros (rev_digits : bytes) : bytes :=
  match rev_digits with
  | 48%N :: rest => trim_zeros rest
  | _ => reverse rev_digits
  end.

Definition time_value_from_nanos `{QT : !QueryText} (nanos : Z) (epoch : option string) : Value :=
  let unit := match epoch with
              | Some e =>
                if bool_decide (e ∈ ["ns"; "n"]%string) then Some 1
                else if bool_decide (e ∈ ["u"; "us"]%string) then Some 1000
                else if bool_decide (e = "ms"%string) then Some 1000000
                else if bool_decide (e = "s"%string) then Some 1000000000
                else None
              | None => None
              end in
  match unit with
  | Some u => json_int (Z.quot nanos u)
  | None =>
    let frac := trim_zeros (reverse (digits 10 (fun d => 48 + d)%N 9 (Z.to_N (nanos mod 1000000000)))) in
    VString (format_secs nanos +:+ (if bool_decide (frac = []) then EmptyString else "." +:+ bytes_str frac) +:+ "Z")
  end.

(** Text of numbers and strings, with times as integers only: an instance to
    evaluate on. *)
Definition number_text (n : Number) : string :=
  match n with
  | NumPos n => pretty n
  | NumNeg z => pretty z
  | NumFloat _ => "float"
  end.

Definition plain_text : QueryText := {|
  value_text v := match v with VNumber n => number_text n | VString s => s | VNull => "null" | _ => "other" end;
  debug_pairs o := match o with Some l => String.concat "," ((fun kv => kv.1 +:+ "=" +:+ kv.2) <$> l) | None => "None" end;
  debug_tags _ := "tags";
  parse_rfc3339 _ := None;
  parse_naive _ := None;
  parse_naive_frac _ := None;
  format_secs z := pretty z
|}.
