(* ===== verification/QueryMerge.v ===== *)
(** * Merging of sharded query results
    ([hyperbytedb/src/domain/sharding/query_merge.rs])

    The rewriting of a [SELECT] into the statement every region runs, the
    rules by which the regions' rows merge, the merge itself, and what the
    coordinator does afterwards: the final aggregates, missing buckets, order,
    limit and offset. [HashMap] is [gmap], iterated in the order of
    [map_to_list]; [IndexMap] is an association list in insertion order. *)

From Stdlib Require Import SpecFloat.
From stdpp Require Import prelude list sorting gmap strings pretty.
From S2P Require Import Prelude Bytes WalWriter CqSchedule QueryAst Json.
From stdpp Require Import options.

#[local] Open Scope Z_scope.

(** ** Plans *)

Inductive ColumnMerge :=
| MergeSum
| MergeMin
| MergeMax
| MergeFirst
| MergeLast
| FirstByTime
| LastByTime
| EarliestTime
| LatestTime
| TimeOfMax
| TimeOfMin
| DistinctKeep
| MergeSkip
| Unsupported
| WholeGroupOnly.

Record StddevPartialCols := mkStddevCols { sdv_sum_col : string; sdv_sumsq_col : string; sdv_count_col : string }.

Record CoordinatorFill := mkFill { fill_step_ns : Z; fill_bounds_ns : option (Z * Z) }.

Record ShardedQueryPlan := mkPlan {
  region_stmt : SelectStatement;
  mean_partials : gmap string MeanRollupField;
  first_partials : gmap string string;
  last_partials : gmap string string;
  stddev_partials : gmap string StddevPartialCols;
  distinct_outputs : gset string;
  count_distinct_outputs : gmap string string;
  merge_rules : gmap string ColumnMerge;
  row_key_distinct_cols : gset string;
  saved_limit : option N;
  saved_offset : option N;
  saved_time_desc : option bool;
  needs_global_sort : bool;
  point_time_col : option string;
  plan_epoch : option string;
  region_unordered : bool;
  coordinator_fill : option CoordinatorFill
}.

(** The columns a rewritten field adds to the plan. *)
Record Partials := mkPartials {
  pa_mean : gmap string MeanRollupField;
  pa_first : gmap string string;
  pa_last : gmap string string;
  pa_stddev : gmap string StddevPartialCols;
  pa_distinct : gset string;
  pa_count_distinct : gmap string string;
  pa_row_key : gset string
}.

Definition no_partials : Partials := mkPartials ∅ ∅ ∅ ∅ ∅ ∅ ∅.

Definition partial_names (kind output : string) : string * string :=
  ("__" +:+ kind +:+ "_sum_" +:+ output, "__" +:+ kind +:+ "_count_" +:+ output).

Definition field_arg (name : string) : Expr := Identifier name.

Definition call_expr (name : string) (arg : Expr) : Expr := Call name [arg].

(** [source.split('*')] of a string, as its parts. *)
Fixpoint split_star (s : string) (cur : string) : list string :=
  match s with
  | EmptyString => [cur]
  | String c s' => if bool_decide (Ascii.N_of_ascii c = 42%N) then cur :: split_star s' EmptyString
                   else split_star s' (cur +:+ String c EmptyString)
  end.

Definition field_with_call (name source : string) (alias : option string) : Field :=
  let parts := split_star source EmptyString in
  mkField
    (if eq_ignore_ascii_case name "sum" && negb (bool_decide (length parts = 1%nat)) then
       match parts with
       | [l; r] => call_expr "sum" (BinaryExpr (field_arg l) Mul (field_arg r))
       | _ => call_expr name (field_arg source)
       end
     else call_expr name (field_arg source)) alias.

Definition sel_time_col (output : string) : string := output +:+ "__sel_time".

Definition rewrite_call (f : Field) (output name : string) (args : list Expr) (p : Partials)
    : result QueryError (list Field * Partials) :=
  let upper := to_uppercase name in
  if bool_decide (upper = "MEAN"%string) then
    source ← aggregate_source_field_name name args;
    let '(sum_col, count_col) := partial_names "mean" output in
    Ok ([field_with_call "sum" source (Some sum_col); field_with_call "count" source (Some count_col)],
        mkPartials (<[output := mkMeanRollup sum_col count_col]> (pa_mean p)) (pa_first p) (pa_last p) (pa_stddev p)
          (pa_distinct p) (pa_count_distinct p) (pa_row_key p))
  else if bool_decide (upper = "FIRST"%string) then
    _ ← aggregate_source_field_name name args;
    Ok ([f; field_with_call "min" "time" (Some (sel_time_col output))],
        mkPartials (pa_mean p) (<[output := sel_time_col output]> (pa_first p)) (pa_last p) (pa_stddev p)
          (pa_distinct p) (pa_count_distinct p) (pa_row_key p))
  else if bool_decide (upper = "LAST"%string) then
    _ ← aggregate_source_field_name name args;
    Ok ([f; field_with_call "max" "time" (Some (sel_time_col output))],
        mkPartials (pa_mean p) (pa_first p) (<[output := sel_time_col output]> (pa_last p)) (pa_stddev p)
          (pa_distinct p) (pa_count_distinct p) (pa_row_key p))
  else if bool_decide (upper = "STDDEV"%string) then
    source ← aggregate_source_field_name name args;
    let '(sum_col, count_col) := partial_names "stddev" output in
    let sumsq_col := ("__stddev_sumsq_" +:+ output) in
    Ok ([field_with_call "sum" source (Some sum_col);
         field_with_call "sum" (source +:+ "*" +:+ source) (Some sumsq_col);
         field_with_call "count" source (Some count_col)],
        mkPartials (pa_mean p) (pa_first p) (pa_last p)
          (<[output := mkStddevCols sum_col sumsq_col count_col]> (pa_stddev p))
          (pa_distinct p) (pa_count_distinct p) (pa_row_key p))
  else if bool_decide (upper = "DISTINCT"%string) then
    Ok ([f], mkPartials (pa_mean p) (pa_first p) (pa_last p) (pa_stddev p) ({[ output ]} ∪ pa_distinct p)
               (pa_count_distinct p) ({[ output ]} ∪ pa_row_key p))
  else if bool_decide (upper = "COUNT"%string) then
    match args with
    | Call inner inner_args :: _ =>
      if eq_ignore_ascii_case inner "distinct" then
        source ← aggregate_source_field_name inner inner_args;
        let distinct_output := ("distinct_" +:+ source) in
        Ok ([mkField (call_expr "distinct" (field_arg source)) (Some distinct_output)],
            mkPartials (pa_mean p) (pa_first p) (pa_last p) (pa_stddev p) (pa_distinct p)
              (<[output := distinct_output]> (pa_count_distinct p)) ({[ distinct_output ]} ∪ pa_row_key p))
      else Ok ([f], p)
    | _ => Ok ([f], p)
    end
  else Ok ([f], p).

Definition rewrite_field_for_region (f : Field) (p : Partials) : result QueryError (list Field * Partials) :=
  match select_output_field_name f with
  | None => Ok ([f], p)
  | Some output =>
    match fd_expr f with
    | Call name args => rewrite_call f output name args p
    | _ => Ok ([f], p)
    end
  end.

Fixpoint rewrite_fields (fs : list Field) (p : Partials) : result QueryError (list Field * Partials) :=
  match fs with
  | [] => Ok ([], p)
  | f :: rest =>
    fp ← rewrite_field_for_region f p;
    rp ← rewrite_fields rest fp.2;
    Ok (fp.1 ++ rp.1, rp.2)
  end.

Definition is_non_mergeable_agg (name : string) : bool :=
  bool_decide (to_uppercase name ∈ ["PERCENTILE"; "MEDIAN"; "MODE"; "SPREAD"]%string).

Definition combine_rule (c : RollupCombine) : ColumnMerge :=
  match c with
  | CombineSum => MergeSum
  | CombineMin => MergeMin
  | CombineMax => MergeMax
  | CombineFirst => MergeFirst
  | CombineLast => MergeLast
  end.

#[local] Abbreviation rules_map := (gmap string ColumnMerge).

(** The rules of the partial columns. *)
Definition partial_rules (p : Partials) : rules_map :=
  let r := map_fold (fun _ m r => <[mr_count_col m := MergeSum]> (<[mr_sum_col m := MergeSum]> r)) ∅ (pa_mean p) in
  let r := map_fold (fun output t r => <[t := EarliestTime]> (<[output := FirstByTime]> r)) r (pa_first p) in
  let r := map_fold (fun output t r => <[t := LatestTime]> (<[output := LastByTime]> r)) r (pa_last p) in
  let r := map_fold (fun _ s r => <[sdv_count_col s := MergeSum]>
                      (<[sdv_sumsq_col s := MergeSum]> (<[sdv_sum_col s := MergeSum]> r))) r (pa_stddev p) in
  let r := set_fold (fun col r => <[col := DistinctKeep]> r) r (pa_distinct p) in
  map_fold (fun _ col r => <[col := DistinctKeep]> r) r (pa_count_distinct p).

Definition is_call_of (f : Field) (p : string -> bool) : bool :=
  match fd_expr f with Call name _ => p name | _ => false end.

(** The rule of a field that has none yet. *)
Definition field_rule (p : Partials) (f : Field) (name : string) : ColumnMerge :=
  if is_call_of f is_non_mergeable_agg then WholeGroupOnly
  else
    match rollup_combine_from_field f with
    | Ok c => combine_rule c
    | Err _ =>
      if is_call_of f (fun n => eq_ignore_ascii_case n "mean" || eq_ignore_ascii_case n "count") then MergeSum
      else if bool_decide (is_Some (pa_count_distinct p !! name)) then MergeSkip
      else Unsupported
    end.

Definition add_field_rule (p : Partials) (r : rules_map) (f : Field) : rules_map :=
  match select_output_field_name f with
  | None => r
  | Some name => match r !! name with Some _ => r | None => <[name := field_rule p f name]> r end
  end.

Definition build_merge_rules (stmt : SelectStatement) (p : Partials) : rules_map :=
  fold_left (add_field_rule p) (sel_fields stmt) (partial_rules p).

Definition group_time (stmt : SelectStatement) : option Dimension :=
  match sel_group_by stmt with Some dims => time_dimension dims | None => None end.

Definition is_plain (e : Expr) : bool :=
  match e with Identifier _ | FieldRef _ _ => true | _ => false end.

Definition lone_point_selector (stmt : SelectStatement) : option (string * string) :=
  match group_time stmt with
  | Some _ => None
  | None =>
    match List.filter (fun f => negb (is_plain (fd_expr f))) (sel_fields stmt) with
    | [f] =>
      match fd_expr f with
      | Call name _ =>
        if bool_decide (to_uppercase name ∈ ["FIRST"; "LAST"; "MAX"; "MIN"]%string)
        then (fun o => (o, to_uppercase name)) <$> select_output_field_name f else None
      | _ => None
      end
    | _ => None
    end
  end.

Definition names_time (f : Field) : bool :=
  match fd_expr f with
  | Identifier name => bool_decide (name = "time"%string) || bool_decide (name = "__time"%string)
  | _ => false
  end || bool_decide (fd_alias f = Some "time"%string).

Definition ensure_time_field_for_global_sort (fs : list Field) : list Field :=
  if existsb names_time fs then fs else mkField (Identifier "time") None :: fs.

(** The statement with other fields, order, limit, offset and fill. *)
Definition with_region (s : SelectStatement) (fields : list Field) (order : option bool)
    (limit offset : option N) (fill : option FillOption) : SelectStatement :=
  mkSelect fields (sel_into s) (sel_from s) (sel_condition s) (sel_group_by s) order limit offset
    (sel_slimit s) (sel_soffset s) fill (sel_timezone s).

Definition sat_add_u64 (a b : N) : N := N.min (a + b) u64_max.

(** How many rows a region fetches. *)
Definition region_fetch (limit offset : option N) : option N :=
  let off := default 0%N offset in
  match limit with
  | Some l => Some (sat_add_u64 l off)
  | None => if (0 <? off)%N then Some off else None
  end.

Definition prepare_sharded_region_query (stmt : SelectStatement) : result QueryError ShardedQueryPlan :=
  fp ← rewrite_fields (sel_fields stmt) no_partials;
  let '(fields, p) := fp in
  let rules := build_merge_rules stmt p in
  let selector := lone_point_selector stmt in
  let rules := match selector with
               | Some (output, name) =>
                 if bool_decide (name = "MAX"%string) then <[sel_time_col output := TimeOfMax]> rules
                 else if bool_decide (name = "MIN"%string) then <[sel_time_col output := TimeOfMin]> rules
                 else rules
               | None => rules
               end in
  let limited := bool_decide (is_Some (sel_limit stmt)) || bool_decide (is_Some (sel_offset stmt)) in
  let time_buckets := bool_decide (is_Some (group_time stmt)) in
  let sorted := bool_decide (is_Some (sel_order_by stmt)) || time_buckets in
  let fields := if sorted && negb time_buckets && negb (select_has_true_aggregate stmt)
                then ensure_time_field_for_global_sort fields else fields in
  Ok (mkPlan
        (with_region stmt fields (if sorted then None else sel_order_by stmt)
           (if limited then region_fetch (sel_limit stmt) (sel_offset stmt) else sel_limit stmt)
           (if limited then None else sel_offset stmt) (sel_fill stmt))
        (pa_mean p) (pa_first p) (pa_last p) (pa_stddev p) (pa_distinct p) (pa_count_distinct p) rules (pa_row_key p)
        (if limited then sel_limit stmt else None) (if limited then sel_offset stmt else None)
        (if sorted then sel_order_by stmt else None) sorted
        ((fun s => sel_time_col s.1) <$> selector) None false None).

(** ** Fill and order at the coordinator *)

Definition COORDINATOR_FILL_MAX_BUCKETS : Z := 1000000.

Definition epoch_unit_nanos (epoch : option string) : option Z :=
  match epoch with
  | None => None
  | Some e =>
    if bool_decide (e ∈ ["ns"; "n"]%string) then Some 1
    else if bool_decide (e ∈ ["u"; "us"]%string) then Some 1000
    else if bool_decide (e = "ms"%string) then Some 1000000
    else if bool_decide (e = "s"%string) then Some 1000000000
    else None
  end.

Definition small_unit (u : DurationUnit) : bool :=
  match u with Nanosecond | Microsecond | Millisecond | Second | Minute => true | _ => false end.

(** The fill of [fill(null)], if the coordinator can do it. *)
Definition null_fill (epoch : option string) (stmt : SelectStatement) (interval : Duration)
    (offset : option Duration) (time_min time_max : option Z) : option CoordinatorFill :=
  let step := duration_to_nanos interval in
  unit_ns ← epoch_unit_nanos epoch;
  if bool_decide (is_Some offset) || bool_decide (is_Some (sel_timezone stmt)) || negb (small_unit (dur_unit interval))
     || (step <=? 0) || negb (Z.rem step unit_ns =? 0)
  then None
  else
    match time_min, time_max with
    | Some lo, Some hi =>
      if lo <=? hi then
        let lo := div_euclid lo step in
        let hi := div_euclid hi step in
        if COORDINATOR_FILL_MAX_BUCKETS <=? wrap_i64 (hi - lo) then None
        else Some (mkFill step (Some (wrap_i64 (lo * step), wrap_i64 (hi * step))))
      else Some (mkFill step None)
    | _, _ => Some (mkFill step None)
    end.

Definition with_coordinator (p : ShardedQueryPlan) (stmt : SelectStatement) (fill : option CoordinatorFill)
    : ShardedQueryPlan :=
  mkPlan stmt (mean_partials p) (first_partials p) (last_partials p) (stddev_partials p) (distinct_outputs p)
    (count_distinct_outputs p) (merge_rules p) (row_key_distinct_cols p) (saved_limit p) (saved_offset p)
    (saved_time_desc p) (needs_global_sort p) (point_time_col p) (plan_epoch p) true fill.

Definition move_fill_and_order_to_coordinator (p : ShardedQueryPlan) (stmt : SelectStatement)
    (time_min time_max : option Z) : ShardedQueryPlan * bool :=
  match group_time stmt with
  | Some (DimTime interval offset) =>
    let r := region_stmt p in
    if negb (needs_global_sort p) || negb (select_has_true_aggregate stmt) || bool_decide (is_Some (sel_into stmt))
       || bool_decide (is_Some (sel_limit r)) || bool_decide (is_Some (sel_offset r))
       || bool_decide (is_Some (sel_slimit stmt)) || bool_decide (is_Some (sel_soffset stmt))
    then (p, false)
    else
      match sel_fill stmt with
      | Some FillNone => (with_coordinator p r (coordinator_fill p), true)
      | None | Some FillNull =>
        match null_fill (plan_epoch p) stmt interval offset time_min time_max with
        | Some fill =>
          (with_coordinator p
             (with_region r (sel_fields r) (sel_order_by r) (sel_limit r) (sel_offset r) (Some FillNone)) (Some fill), true)
        | None => (p, false)
        end
      | _ => (p, false)
      end
  | _ => (p, false)
  end.

(** ** Cells *)

Section Merge.
Context `{QT : !QueryText}.

Definition json_as_f64 (v : Value) : option f64 := value_as_f64 v.

Definition json_as_i64 (v : Value) : option Z :=
  match value_as_i64 v with
  | Some i => Some i
  | None => u ← value_as_u64 v; if Z.of_N u <=? i64_max then Some (Z.of_N u) else None
  end.

Definition json_as_count (v : Value) : Z :=
  match json_as_i64 v with
  | Some i => i
  | None => match json_as_f64 v with Some f => if f64_is_finite f then f64_to_i64 f else 0 | None => 0 end
  end.

Definition json_time_nanos (v : Value) : option Z :=
  if is_null v then None
  else
    match json_as_i64 v with
    | Some n => Some n
    | None =>
      s ← value_as_str v;
      match mjoin (parse_rfc3339 s) with
      | Some n => Some n
      | None => mjoin (parse_naive_frac s)
      end
    end.

Definition json_sortable_time (v : Value) : Z :=
  match json_as_i64 v with
  | Some n => n
  | None =>
    match value_as_str v with
    | None => 0
    | Some s =>
      match parse_rfc3339 s with
      | Some n => default 0 n
      | None =>
        match parse_naive s with
        | Some n => default 0 n
        | None => match parse_naive_frac s with Some n => default 0 n | None => 0 end
        end
      end
    end
  end.

Definition json_sum (l r : Value) : Value :=
  match value_as_i64 l, value_as_i64 r with
  | Some a, Some b =>
    if (i64_min <=? a + b) && (a + b <=? i64_max) then json_int (a + b)
    else json_f64 (f64_add (f64_of_Z a) (f64_of_Z b))
  | _, _ =>
    match value_as_u64 l, value_as_u64 r with
    | Some a, Some b =>
      if (a + b <=? u64_max)%N then VNumber (NumPos (a + b))
      else json_f64 (f64_add (f64_of_Z (Z.of_N a)) (f64_of_Z (Z.of_N b)))
    | _, _ =>
      json_f64 (f64_add (default (S754_zero false) (json_as_f64 l)) (default (S754_zero false) (json_as_f64 r)))
    end
  end.

(** ** Rows *)

Definition ragged_merge_row : QueryError := QueryInternal "ragged shard merge row".

Definition column_index (cols : list string) (c : string) : option nat := position (fun x => bool_decide (x = c)) cols.

Definition time_index (cols : list string) : option nat :=
  position (fun c => bool_decide (c = "time"%string) || bool_decide (c = "__time"%string)) cols.

Definition merge_extreme (pick : f64 -> f64 -> f64) (l r : Value) : Value :=
  match json_as_f64 l, json_as_f64 r with
  | Some a, Some b => json_f64 (pick a b)
  | Some a, None => json_f64 a
  | None, Some b => json_f64 b
  | None, None => l
  end.

Definition pick_by_time (l r : Value) (lrow rrow : list Value) (cols : list string) (time_col : string)
    (pick_min : bool) : result QueryError Value :=
  match column_index cols time_col with
  | None => Ok l
  | Some i =>
    lv ← ok_or ragged_merge_row (lrow !! i);
    rv ← ok_or ragged_merge_row (rrow !! i);
    Ok (match json_time_nanos lv, json_time_nanos rv with
        | Some a, Some b => if (if pick_min then a <=? b else b <=? a) then l else r
        | None, Some _ => r
        | _, None => l
        end)
  end.

(** [strip_suffix("__sel_time")]. *)
Definition strip_sel_time (col : string) : option string :=
  let n := (String.length col - 10)%nat in
  if bool_decide (String.substring n 10 col = "__sel_time"%string /\ (10 <= String.length col)%nat)
  then Some (String.substring 0 n col) else None.

Definition time_of_extreme (is_max : bool) (l r : Value) (lrow rrow : list Value) (cols : list string) (col : string)
    : result QueryError Value :=
  value_col ← ok_or ragged_merge_row (strip_sel_time col);
  vi ← ok_or ragged_merge_row (column_index cols value_col);
  let lv := lrow !! vi ≫= json_as_f64 in
  let rv := rrow !! vi ≫= json_as_f64 in
  let right_wins :=
    match lv, rv with
    | None, Some _ => true
    | Some a, Some b =>
      if SFeqb a b then json_sortable_time r <? json_sortable_time l
      else if is_max then SFltb a b else SFltb b a
    | _, None => false
    end in
  Ok (if right_wins then r else l).

Definition merge_values (l r : Value) (rule : ColumnMerge) (cols : list string) (col_idx : nat)
    (lrow rrow : list Value) : result QueryError Value :=
  match rule with
  | WholeGroupOnly =>
    if is_null r then Ok l
    else if is_null l then Ok r
    else Err (QueryParse (default "aggregate"%string (cols !! col_idx) +:+
           " needs each group's points in one region, and one group here spans several: filter to single series or GROUP BY every tag"))
  | DistinctKeep | MergeSkip | Unsupported | MergeFirst => Ok l
  | MergeLast => Ok r
  | MergeSum => Ok (json_sum l r)
  | MergeMin => Ok (merge_extreme f64_min l r)
  | MergeMax => Ok (merge_extreme f64_max l r)
  | FirstByTime =>
    col ← ok_or ragged_merge_row (cols !! col_idx); pick_by_time l r lrow rrow cols (sel_time_col col) true
  | LastByTime =>
    col ← ok_or ragged_merge_row (cols !! col_idx); pick_by_time l r lrow rrow cols (sel_time_col col) false
  | EarliestTime | LatestTime =>
    let lt := json_sortable_time l in
    let rt := json_sortable_time r in
    let right_wins := match rule with EarliestTime => rt <? lt | _ => lt <? rt end in
    Ok (if is_null l || (right_wins && negb (is_null r)) then r else l)
  | TimeOfMax => col ← ok_or ragged_merge_row (cols !! col_idx); time_of_extreme true l r lrow rrow cols col
  | TimeOfMin => col ← ok_or ragged_merge_row (cols !! col_idx); time_of_extreme false l r lrow rrow cols col
  end.

(** The cells of the columns from [i] on. *)
Fixpoint merge_cells (rules : rules_map) (cols : list string) (lrow rrow : list Value) (i : nat)
    (rest : list string) : result QueryError (list Value) :=
  match rest with
  | [] => Ok []
  | col :: rest' =>
    l ← ok_or ragged_merge_row (lrow !! i);
    r ← ok_or ragged_merge_row (rrow !! i);
    v ← merge_values l r (default Unsupported (rules !! col)) cols i lrow rrow;
    vs ← merge_cells rules cols lrow rrow (S i) rest';
    Ok (v :: vs)
  end.

Definition merge_row (cols : list string) (rules : rules_map) (l r : list Value) : result QueryError (list Value) :=
  if negb (Nat.eqb (length l) (length cols)) || negb (Nat.eqb (length r) (length cols)) then Err ragged_merge_row
  else merge_cells rules cols l r 0 cols.

(** ** Series *)

Definition tag_pairs (tags : option (gmap string string)) : list (string * string) :=
  match tags with Some t => btree_iter string_leb t | None => [] end.

(** [Vec<(String, String)>::cmp]. *)
Fixpoint pairs_leb (a b : list (string * string)) : bool :=
  match a, b with
  | [], _ => true
  | _ :: _, [] => false
  | (k, v) :: a', (k', v') :: b' =>
    if bool_decide (k = k') then
      if bool_decide (v = v') then pairs_leb a' b' else string_leb v v'
    else string_leb k k'
  end.

Definition series_leb (a b : SeriesResult) : bool :=
  if bool_decide (sr_name a = sr_name b) then pairs_leb (tag_pairs (sr_tags a)) (tag_pairs (sr_tags b))
  else string_leb (sr_name a) (sr_name b).

Definition sort_series : list SeriesResult -> list SeriesResult := sort_by series_leb.

Definition first_statement_id (parts : list QueryResponse) : N :=
  match parts with
  | (r :: _) :: _ => st_statement_id r
  | _ => 0%N
  end.

(** Every series of every part, in order. *)
Definition all_series (parts : list QueryResponse) : list SeriesResult :=
  parts ≫= fun part => part ≫= fun r => default [] (st_series r).

Definition SHARD_MERGE_MAX_DISTINCT_SERIES : N := 500000.

Definition raw_key (s : SeriesResult) : string :=
  sr_name s +:+ ":" +:+ debug_pairs ((fun t => btree_iter string_leb t) <$> sr_tags s).

Definition merge_raw (merged : gmap string SeriesResult) (s : SeriesResult) : gmap string SeriesResult :=
  match merged !! raw_key s with
  | Some old => <[raw_key s := set_values (sr_values old ++ sr_values s) old]> merged
  | None => <[raw_key s := s]> merged
  end.

Definition too_many_series : QueryError :=
  QueryParse ("shard merge would combine more than " +:+ pretty SHARD_MERGE_MAX_DISTINCT_SERIES
              +:+ " distinct series; narrow the query").

Definition merge_query_results (parts : list QueryResponse) : result QueryError QueryResponse :=
  match parts with
  | [] => Ok (response_empty 0)
  | [part] => Ok part
  | _ =>
    let merged := fold_left merge_raw (all_series parts) ∅ in
    let series := (map_to_list merged).*2 in
    if (SHARD_MERGE_MAX_DISTINCT_SERIES <? N.of_nat (length series))%N then Err too_many_series
    else Ok (response_single (first_statement_id parts) (sort_series series))
  end.

Definition series_key (s : SeriesResult) : string :=
  sr_name s +:+ String.concat EmptyString
    ((fun kv => "|" +:+ kv.1 +:+ "=" +:+ kv.2) <$> tag_pairs (sr_tags s)).

(** An [IndexMap]: the entry of a key. *)
Fixpoint im_get {V} (k : string) (m : list (string * V)) : option V :=
  match m with
  | [] => None
  | (k', v) :: m' => if bool_decide (k = k') then Some v else im_get k m'
  end.

Fixpoint im_set {V} (k : string) (v : V) (m : list (string * V)) : list (string * V) :=
  match m with
  | [] => [(k, v)]
  | (k', v') :: m' => if bool_decide (k = k') then (k', v) :: m' else (k', v') :: im_set k v m'
  end.

#[local] Abbreviation row_map := (list (string * list Value)).
#[local] Abbreviation series_map := (list (string * (SeriesResult * row_map))).

(** The indices of the distinct columns a series has. *)
Definition distinct_indices (distinct_cols : gset string) (cols : list string) : list (string * nat) :=
  omap (fun c => (fun i => (c, i)) <$> column_index cols c) (elements distinct_cols).

Definition row_key (time_idx : option nat) (distinct : list (string * nat)) (row : list Value) : string :=
  let cell (i : nat) := value_text (default VNull (row !! i)) in
  (match time_idx with Some i => cell i | None => EmptyString end)
  +:+ String.concat EmptyString ((fun ci => "|" +:+ ci.1 +:+ "=" +:+ cell ci.2) <$> distinct).

(** The positions of the header's columns in a series, if it has them all. *)
Definition remap_columns (header cols : list string) : option (list nat) := mapM (column_index cols) header.

Definition merge_one_row (rules : rules_map) (header cols : list string) (remap : list nat)
    (time_idx : option nat) (distinct : list (string * nat)) (rows : row_map) (row : list Value)
    : result QueryError row_map :=
  if negb (Nat.eqb (length row) (length cols)) then Err ragged_merge_row
  else
    let k := row_key time_idx distinct row in
    let row' := if bool_decide (header = cols) then row else (fun i => default VNull (row !! i)) <$> remap in
    match im_get k rows with
    | Some old => merged ← merge_row header rules old row'; Ok (im_set k merged rows)
    | None => Ok (im_set k row' rows)
    end.

Fixpoint fold_rows {A} (f : A -> list Value -> result QueryError A) (a : A) (rows : list (list Value))
    : result QueryError A :=
  match rows with
  | [] => Ok a
  | row :: rest => a' ← f a row; fold_rows f a' rest
  end.

Definition merge_one_series (rules : rules_map) (distinct_cols : gset string) (merged : series_map)
    (s : SeriesResult) : result QueryError series_map :=
  let k := series_key s in
  let cols := sr_columns s in
  let '(header, rows) := default (set_values [] s, []) (im_get k merged) in
  remap ← (if bool_decide (sr_columns header = cols) then Ok []
           else ok_or ragged_merge_row (remap_columns (sr_columns header) cols));
  rows' ← fold_rows (merge_one_row rules (sr_columns header) cols remap (time_index cols)
                       (distinct_indices distinct_cols cols)) rows (sr_values s);
  Ok (im_set k (header, rows') merged).

Fixpoint fold_series (rules : rules_map) (distinct_cols : gset string) (merged : series_map)
    (l : list SeriesResult) : result QueryError series_map :=
  match l with
  | [] => Ok merged
  | s :: rest => merged' ← merge_one_series rules distinct_cols merged s; fold_series rules distinct_cols merged' rest
  end.

(** Whether only one part returned a series. *)
Definition lone (l : list SeriesResult) (s : SeriesResult) : bool :=
  bool_decide (length (List.filter (fun x => bool_decide (series_key x = series_key s)) l) = 1%nat).

Definition merge_rows_with_rules (parts : list QueryResponse) (id : N) (rules : rules_map)
    (distinct_cols : gset string) : result QueryError QueryResponse :=
  let l := all_series parts in
  merged ← fold_series rules distinct_cols [] (List.filter (fun s => negb (lone l s)) l);
  Ok (response_single id (sort_series
        (((fun e => set_values (e.2.2).*2 e.2.1) <$> merged) ++ List.filter (lone l) l))).

Definition rollup_merge_rules (field_rollups : gmap string RollupCombine) : rules_map := combine_rule <$> field_rollups.

(** [meta] is read for its [field_rollups] only. *)
Definition merge_materialized_rollup_results (parts : list QueryResponse) (field_rollups : gmap string RollupCombine)
    : result QueryError QueryResponse :=
  match parts with
  | [] => Ok (response_empty 0)
  | [part] => Ok part
  | _ => merge_rows_with_rules parts (first_statement_id parts) (rollup_merge_rules field_rollups) ∅
  end.

Definition column_merge_rules (stmt : SelectStatement) : rules_map :=
  fold_left (fun r f =>
    match select_output_field_name f with
    | None => r
    | Some name =>
      <[name := match rollup_combine_from_field f with
                | Ok c => combine_rule c
                | Err _ => if is_call_of f (fun n => eq_ignore_ascii_case n "count") then MergeSum else Unsupported
                end]> r
    end) (sel_fields stmt) ∅.

(** A lone MAX or MIN carries its point's time in a column of its own. *)
Definition rename_time (col : string) (s : SeriesResult) : SeriesResult :=
  if bool_decide (col ∈ sr_columns s) then s
  else
    match column_index (sr_columns s) "time" with
    | Some i => set_columns (<[i := col]> (sr_columns s)) s
    | None => s
    end.

Definition map_series (f : SeriesResult -> SeriesResult) (r : QueryResponse) : QueryResponse :=
  map (fun st => mkStatementResult (st_statement_id st) (option_map (map f) (st_series st)) (st_error st)) r.

Definition selector_time_col (p : ShardedQueryPlan) : option string :=
  col ← point_time_col p;
  match merge_rules p !! col with Some (TimeOfMax | TimeOfMin) => Some col | _ => None end.

Definition merge_aggregate_parts (parts : list QueryResponse) (stmt : SelectStatement)
    (plan : option ShardedQueryPlan) : result QueryError QueryResponse :=
  let parts := match plan ≫= selector_time_col with
               | Some col => map (map_series (rename_time col)) parts
               | None => parts
               end in
  match parts with
  | [] => Ok (response_empty 0)
  | [part] => Ok part
  | _ =>
    merge_rows_with_rules parts (first_statement_id parts)
      (match plan with Some p => merge_rules p | None => column_merge_rules stmt end)
      (match plan with Some p => row_key_distinct_cols p | None => ∅ end)
  end.

(** ** Final aggregates *)

Definition mean_value (sum count : Value) : Value :=
  let s := default (S754_zero false) (json_as_f64 sum) in
  let n := json_as_count count in
  if (n =? 0) || negb (f64_is_finite s) then VNull else json_f64 (f64_div s (f64_of_Z n)).

Definition stddev_value (sum sumsq count : Value) : Value :=
  let s := default (S754_zero false) (json_as_f64 sum) in
  let q := default (S754_zero false) (json_as_f64 sumsq) in
  let c := json_as_count count in
  if (c <? 2) || negb (f64_is_finite s) || negb (f64_is_finite q) then VNull
  else
    let n := f64_of_Z c in
    let var := f64_div (f64_sub q (f64_div (f64_mul s s) n)) (f64_sub n (f64_of_Z 1)) in
    if negb (f64_is_finite var) then VNull
    else if SFleb var (S754_zero false) then json_f64 (S754_zero false)
    else json_f64 (f64_sqrt var).

Inductive AggregateFinalizer :=
| FinalMean (sum_idx count_idx : nat)
| FinalStddev (sum_idx sumsq_idx count_idx : nat).

Definition cell (row : list Value) (i : nat) : result QueryError Value := ok_or ragged_merge_row (row !! i).

Definition finalize_cell (f : AggregateFinalizer) (row : list Value) : result QueryError Value :=
  match f with
  | FinalMean si ci => s ← cell row si; c ← cell row ci; Ok (mean_value s c)
  | FinalStddev si qi ci => s ← cell row si; q ← cell row qi; c ← cell row ci; Ok (stddev_value s q c)
  end.

Definition finalizers (p : ShardedQueryPlan) (cols : list string) : list (string * AggregateFinalizer) :=
  omap (fun om => match column_index cols (mr_sum_col om.2), column_index cols (mr_count_col om.2) with
                  | Some si, Some ci => Some (om.1, FinalMean si ci)
                  | _, _ => None
                  end) (map_to_list (mean_partials p))
  ++ omap (fun os => match column_index cols (sdv_sum_col os.2), column_index cols (sdv_sumsq_col os.2),
                           column_index cols (sdv_count_col os.2) with
                     | Some si, Some qi, Some ci => Some (os.1, FinalStddev si qi ci)
                     | _, _, _ => None
                     end) (map_to_list (stddev_partials p)).

Definition drop_cols (p : ShardedQueryPlan) : list string :=
  ((map_to_list (mean_partials p)).*2 ≫= fun m => [mr_sum_col m; mr_count_col m])
  ++ (map_to_list (first_partials p)).*2 ++ (map_to_list (last_partials p)).*2
  ++ ((map_to_list (stddev_partials p)).*2 ≫= fun s => [sdv_sum_col s; sdv_sumsq_col s; sdv_count_col s])
  ++ option_list (point_time_col p).

Definition keep_col (p : ShardedQueryPlan) (c : string) : bool :=
  negb (bool_decide (c ∈ drop_cols p)) && bool_decide (mean_partials p !! c = None)
  && bool_decide (stddev_partials p !! c = None).

Definition keep_cols (p : ShardedQueryPlan) (cols : list string) : list (nat * string) :=
  List.filter (fun ic => keep_col p ic.2) (zip (seq 0 (length cols)) cols).

(** ** Distinct counts *)

(** The groups in first-seen order: the distinct texts and a row. *)
Definition note_distinct (s : SeriesResult) (time_idx : option nat) (distinct_idx : nat)
    (groups : list (string * (gset string * list Value))) (row : list Value)
    : result QueryError (list (string * (gset string * list Value))) :=
  tkey ← match time_idx with
         | Some ti => v ← cell row ti; Ok (value_text v)
         | None => Ok EmptyString
         end;
  let k := tkey +:+ "|" +:+ debug_tags (sr_tags s) in
  v ← cell row distinct_idx;
  let '(set, template) := default (∅, row) (im_get k groups) in
  Ok (im_set k ({[ value_text v ]} ∪ set, template) groups).

Fixpoint pick_cells (count_col : string) (distinct_idx : nat) (row : list Value) (i : nat) (cols : list string)
    : result QueryError (list Value) :=
  match cols with
  | [] => Ok []
  | c :: rest =>
    if negb (Nat.eqb i distinct_idx) && negb (bool_decide (c = count_col)) then
      v ← cell row i; vs ← pick_cells count_col distinct_idx row (S i) rest; Ok (v :: vs)
    else pick_cells count_col distinct_idx row (S i) rest
  end.

Fixpoint map_result {A B} (f : A -> result QueryError B) (l : list A) : result QueryError (list B) :=
  match l with
  | [] => Ok []
  | a :: rest => b ← f a; bs ← map_result f rest; Ok (b :: bs)
  end.

(** [row.push(null)] up to the index, then the cell. *)
Definition put_cell (i : nat) (v : Value) (row : list Value) : list Value :=
  <[i := v]> (row ++ replicate (S i - length row) VNull).

Definition collapse_one (s : SeriesResult) (count_col distinct_col : string) : result QueryError SeriesResult :=
  match column_index (sr_columns s) distinct_col with
  | None => Ok s
  | Some di =>
    groups ← fold_rows (note_distinct s (time_index (sr_columns s)) di) [] (sr_values s);
    let cols := List.filter (fun c => negb (bool_decide (c = distinct_col))) (sr_columns s) in
    let '(cols, out) := match column_index cols count_col with
                        | Some i => (cols, i)
                        | None => (cols ++ [count_col], length cols)
                        end in
    values ← map_result (fun g =>
               row ← pick_cells count_col di (g.2.2) 0 (sr_columns s);
               Ok (put_cell out (json_int (Z.of_nat (size (g.2.1)))) row)) groups;
    Ok (set_values values (set_columns cols s))
  end.

Fixpoint collapse_all (s : SeriesResult) (outputs : list (string * string)) : result QueryError SeriesResult :=
  match outputs with
  | [] => Ok s
  | (count_col, distinct_col) :: rest => s' ← collapse_one s count_col distinct_col; collapse_all s' rest
  end.

Definition collapse_count_distinct (s : SeriesResult) (p : ShardedQueryPlan) : result QueryError SeriesResult :=
  collapse_all s (map_to_list (count_distinct_outputs p)).

(** Rows out of columns. *)
Definition finalize_row (keep : list (nat * string)) (fs : list (string * AggregateFinalizer)) (row : list Value)
    : result QueryError (list Value) :=
  kept ← map_result (fun ic => cell row ic.1) keep;
  final ← map_result (fun f => finalize_cell f.2 row) fs;
  Ok (kept ++ final).

Definition finalize_series_aggregates (s : SeriesResult) (p : ShardedQueryPlan) : result QueryError SeriesResult :=
  s ← (if bool_decide (count_distinct_outputs p = ∅) then Ok s else collapse_count_distinct s p);
  let fs := finalizers p (sr_columns s) in
  let keep := keep_cols p (sr_columns s) in
  if bool_decide (length fs = 0%nat) && Nat.eqb (length keep) (length (sr_columns s)) then Ok s
  else
    values ← map_result (finalize_row keep fs) (sr_values s);
    Ok (set_values values (set_columns (keep.*2 ++ fs.*1) s)).

(** The time of a lone selector, as a time. *)
Definition promoted_time (epoch : option string) (v : option Value) : Value :=
  match v with
  | Some (VString text) => time_value_from_nanos (json_sortable_time (VString text)) epoch
  | Some v => v
  | None => VNull
  end.

Definition promote_time (p : ShardedQueryPlan) (s : SeriesResult) : SeriesResult :=
  match point_time_col p with
  | None => s
  | Some col =>
    if bool_decide ("time"%string ∈ sr_columns s) then s
    else
      match column_index (sr_columns s) col with
      | None => s
      | Some i =>
        mkSeries (sr_name s) (sr_tags s) ("time"%string :: sr_columns s)
          ((fun row => promoted_time (plan_epoch p) (row !! i) :: row) <$> sr_values s) (sr_partial s)
      end
  end.

Definition finalize_sharded_aggregates (r : QueryResponse) (p : ShardedQueryPlan) : result QueryError QueryResponse :=
  match r with
  | [] => Ok (response_empty 0)
  | st :: _ =>
    match st_series st with
    | None => Ok (response_single (st_statement_id st) [])
    | Some series =>
      finalized ← map_result (fun s => finalize_series_aggregates (promote_time p s) p) series;
      Ok (response_single (st_statement_id st) finalized)
    end
  end.

(** ** Missing buckets *)

Definition sat_i64 (z : Z) : Z := Z.max i64_min (Z.min z i64_max).

(** The buckets from [t] on; [fuel] bounds the turns of the loop. *)
Fixpoint bucket_rows (fuel : nat) (t hi step : Z) (present : gset Z) (row : Z -> list Value) : list (list Value) :=
  match fuel with
  | O => []
  | S fuel' =>
    if t <=? hi then
      let next := sat_i64 (t + step) in
      let rest := if step <=? 0 then [] else bucket_rows fuel' next hi step present row in
      if bool_decide (t ∈ present) then rest else row t :: rest
    else []
  end.

Definition series_bounds (fill : CoordinatorFill) (present : list Z) : option (Z * Z) :=
  match fill_bounds_ns fill with
  | Some b => Some b
  | None =>
    match present with
    | [] => None
    | t :: rest => Some (fold_left Z.min rest t, fold_left Z.max rest t)
    end
  end.

Definition null_row (width ti : nat) (epoch : option string) (t : Z) : list Value :=
  <[ti := time_value_from_nanos t epoch]> (replicate width VNull).

Definition fill_series (fill : CoordinatorFill) (epoch : option string) (unit_ns : Z) (s : SeriesResult) : SeriesResult :=
  match time_index (sr_columns s) with
  | None => s
  | Some ti =>
    let present := omap (fun row => t ← row !! ti ≫= json_as_i64; Some (sat_i64 (t * unit_ns))) (sr_values s) in
    match series_bounds fill present with
    | None => s
    | Some (lo, hi) =>
      let step := fill_step_ns fill in
      set_values (sr_values s ++ bucket_rows (S (Z.to_nat ((hi - lo) / Z.max step 1))) lo hi step (list_to_set present)
                                   (null_row (length (sr_columns s)) ti epoch)) s
    end
  end.

Definition fill_missing_buckets (r : QueryResponse) (fill : CoordinatorFill) (epoch : option string) : QueryResponse :=
  match epoch_unit_nanos epoch with
  | None => r
  | Some unit_ns => map_series (fill_series fill epoch unit_ns) r
  end.

(** ** Order, limit and offset *)

(** [sort_by_cached_key], ascending or by [Reverse]. *)
Definition sort_rows (time_idx : option nat) (desc : bool) (flat : list (nat * list Value)) : list (nat * list Value) :=
  match time_idx with
  | Some ti =>
    let key (r : nat * list Value) := default 0 (json_sortable_time <$> (r.2 !! ti)) in
    sort_by (fun a b => if desc then key b <=? key a else key a <=? key b) flat
  | None =>
    let key (r : nat * list Value) := default EmptyString (value_text <$> head r.2) in
    sort_by (fun a b => if desc then string_leb (key b) (key a) else string_leb (key a) (key b)) flat
  end.

Definition limit_rows {A} (limit offset : option N) (l : list A) : list A :=
  let l := drop (N.to_nat (default 0%N offset)) l in
  match limit with Some n => take (N.to_nat n) l | None => l end.

Definition flat_rows (series : list SeriesResult) : list (nat * list Value) :=
  zip (seq 0 (length series)) series ≫= fun ir => (fun row => (ir.1, row)) <$> sr_values ir.2.

Definition rows_of (i : nat) (flat : list (nat * list Value)) : list (list Value) :=
  (List.filter (fun r => Nat.eqb r.1 i) flat).*2.

Definition apply_global_sort_limit_offset (r : QueryResponse) (original : SelectStatement) (p : ShardedQueryPlan)
    : QueryResponse :=
  match r with
  | [] => response_empty 0
  | st :: _ =>
    match st_series st with
    | None | Some [] => response_single (st_statement_id st) []
    | Some ((s0 :: _) as series) =>
      let desc := default (default false (sel_order_by original)) (saved_time_desc p) in
      let flat := limit_rows (saved_limit p) (saved_offset p)
                    (sort_rows (time_index (sr_columns s0)) desc (flat_rows series)) in
      response_single (st_statement_id st)
        (List.filter (fun s => negb (bool_decide (length (sr_values s) = 0%nat)))
           (imap (fun i s => set_values (rows_of i flat) s) series))
    end
  end.

Definition apply_sharded_post_merge (r : QueryResponse) (original : SelectStatement) (p : ShardedQueryPlan)
    : result QueryError QueryResponse :=
  r ← (if select_has_true_aggregate original then finalize_sharded_aggregates r p else Ok r);
  let r := match coordinator_fill p with Some fill => fill_missing_buckets r fill (plan_epoch p) | None => r end in
  Ok (if needs_global_sort p || bool_decide (is_Some (saved_limit p)) || bool_decide (is_Some (saved_offset p))
      then apply_global_sort_limit_offset r original p else r).

Definition merge_sharded_query_results (parts : list QueryResponse) (stmt : SelectStatement)
    (plan : option ShardedQueryPlan) : result QueryError QueryResponse :=
  merged ← (if select_has_true_aggregate stmt then merge_aggregate_parts parts stmt plan else merge_query_results parts);
  match plan with
  | Some p => apply_sharded_post_merge merged stmt p
  | None => Ok merged
  end.
End Merge.
