(* ===== verification/QueryMergeTheorems.v ===== *)
(** * Sharded queries: theorems on merging

    What the merged answer says, compared with the answer of one node that
    had every row: the first rows in time order, the aggregates of every
    group, and the buckets that are filled in; and where they differ. *)

From Stdlib Require Import SpecFloat.
From stdpp Require Import prelude list sorting gmap strings pretty.
From S2P Require Import Prelude Bytes WalWriter CqSchedule QueryAst Json QueryMerge.
From stdpp Require Import options.

#[local] Open Scope Z_scope.

(** ** First rows *)

Section FirstRows.
Context `{QT : !QueryText}.

(** What a node answers to a statement over rows whose time is in column
    [ti]: in time order, after its offset and limit. *)
Definition node_rows (stmt : SelectStatement) (ti : nat) (rows : list (list Value)) : list (list Value) :=
  let key (r : list Value) := default 0 (json_sortable_time <$> (r !! ti)) in
  let desc := default false (sel_order_by stmt) in
  limit_rows (sel_limit stmt) (sel_offset stmt)
    (sort_by (fun a b => if desc then key b <=? key a else key a <=? key b) rows).

Lemma insert_by_fmap {A B} (f : A -> B) (leb : A -> A -> bool) (leb' : B -> B -> bool) x l :
  (forall a b, leb' (f a) (f b) = leb a b) -> insert_by leb' (f x) (f <$> l) = f <$> insert_by leb x l.
Proof.
  intros H. induction l as [|y l IH]; [done|]. rewrite fmap_cons. cbn. rewrite H. destruct (leb x y); [done|].
  by rewrite IH.
Qed.

Lemma sort_by_fmap {A B} (f : A -> B) (leb : A -> A -> bool) (leb' : B -> B -> bool) l :
  (forall a b, leb' (f a) (f b) = leb a b) -> sort_by leb' (f <$> l) = f <$> sort_by leb l.
Proof.
  intros H. unfold sort_by. induction l as [|x l IH]; [done|]. rewrite fmap_cons. cbn. rewrite IH. by apply insert_by_fmap.
Qed.

Lemma limit_rows_fmap {A B} (f : A -> B) limit offset (l : list A) :
  limit_rows limit offset (f <$> l) = f <$> limit_rows limit offset l.
Proof. unfold limit_rows. destruct limit; by rewrite ?fmap_take, fmap_drop. Qed.

Lemma rows_of_pairs (rows : list (list Value)) : rows_of 0 (pair 0%nat <$> rows) = rows.
Proof. unfold rows_of. induction rows as [|r rows IH]; cbn; [done|]. by rewrite IH. Qed.

(** One series, in order. *)
Lemma one_series_ordered (s : SeriesResult) id original p ti :
  time_index (sr_columns s) = Some ti ->
  let desc := default (default false (sel_order_by original)) (saved_time_desc p) in
  let key (r : list Value) := default 0 (json_sortable_time <$> (r !! ti)) in
  let rows := limit_rows (saved_limit p) (saved_offset p)
                (sort_by (fun a b => if desc then key b <=? key a else key a <=? key b) (sr_values s)) in
  apply_global_sort_limit_offset (response_single id [s]) original p
  = response_single id (if bool_decide (rows = []) then [] else [set_values rows s]).
Proof.
  intros Ht desc key rows. unfold apply_global_sort_limit_offset, response_single at 1. cbn [st_series].
  rewrite Ht. cbn [st_statement_id]. f_equal.
  assert (limit_rows (saved_limit p) (saved_offset p) (sort_rows (Some ti) desc (flat_rows [s])) = pair 0%nat <$> rows) as Hr.
  { unfold flat_rows. cbn [length seq zip mbind list_bind]. rewrite app_nil_r. cbn [fst snd]. unfold sort_rows.
    rewrite (sort_by_fmap (fun row => (0%nat, row)) (fun a b => if desc then key b <=? key a else key a <=? key b)) by done.
    by rewrite limit_rows_fmap. }
  fold desc. rewrite Hr. cbn [imap]. rewrite rows_of_pairs. cbn [List.filter sr_values set_values].
  destruct rows as [|r rows']; [done|]. by rewrite bool_decide_false by done.
Qed.

Lemma all_series_singles id (f : list (list Value) -> SeriesResult) vss :
  all_series ((fun vs => response_single id [f vs]) <$> vss) = f <$> vss.
Proof. unfold all_series. induction vss as [|v vss IH]; cbn; [done|]. rewrite IH. reflexivity. Qed.

(** The parts of one series are put together in order. *)
Lemma merge_one_series_parts s id vss :
  vss <> [] ->
  merge_query_results ((fun vs => response_single id [set_values vs s]) <$> vss)
  = Ok (response_single id [set_values (concat vss) s]).
Proof.
  intros Hne. destruct vss as [|v [|v2 vss]]; [done|cbn; by rewrite app_nil_r|].
  unfold merge_query_results. rewrite !fmap_cons. set (k := raw_key s).
  assert (forall l acc, fold_left merge_raw ((fun vs => set_values vs s) <$> l) {[ k := set_values acc s ]}
                        = {[ k := set_values (acc ++ concat l) s ]}) as Hf.
  { intros l. induction l as [|x l IH]; intros acc; [by rewrite app_nil_r|]. rewrite fmap_cons. cbn [fold_left concat].
    unfold merge_raw at 2. change (raw_key (set_values x s)) with k. rewrite lookup_singleton_eq, insert_singleton_eq.
    cbn [sr_values set_values]. rewrite app_assoc. apply IH. }
  assert (all_series (response_single id [set_values v s] :: response_single id [set_values v2 s]
            :: ((fun vs => response_single id [set_values vs s]) <$> vss))
          = (fun vs => set_values vs s) <$> (v :: v2 :: vss)) as ->
    by exact (all_series_singles id (fun vs => set_values vs s) (v :: v2 :: vss)).
  assert (fold_left merge_raw ((fun vs => set_values vs s) <$> (v :: v2 :: vss)) ∅
          = {[ k := set_values (concat (v :: v2 :: vss)) s ]}) as ->.
  { rewrite fmap_cons. cbn [fold_left]. unfold merge_raw at 2. change (raw_key (set_values v s)) with k.
    rewrite lookup_empty. change (<[k := set_values v s]> ∅) with ({[ k := set_values v s ]} : gmap string SeriesResult).
    by rewrite Hf. }
  rewrite map_to_list_singleton. reflexivity.
Qed.

(** The rows a region sends are enough for the first ones. *)
Lemma limited_parts (leb : list Value -> list Value -> bool) n off ls :
  (forall x y, leb x y = true \/ leb y x = true) ->
  (forall x y z, leb x y = true -> leb y z = true -> leb x z = true) ->
  (n + default 0 off <= u64_max)%N ->
  limit_rows (Some n) off (sort_by leb (concat ((fun l => limit_rows (region_fetch (Some n) off) None (sort_by leb l)) <$> ls)))
  = limit_rows (Some n) off (sort_by leb (concat ls)).
Proof.
  intros Ht Htr Hn. unfold limit_rows, region_fetch, sat_add_u64. rewrite N.min_l by done. cbn [default].
  set (o := default 0%N off) in *. rewrite !take_drop_commute. f_equal.
  replace (N.to_nat o + N.to_nat n)%nat with (N.to_nat (n + o)) by lia.
  etrans; [|by apply take_sort_parts]. reflexivity.
Qed.

(** The plan of a statement that reads points, with a limit. *)
Lemma raw_plan stmt p n :
  select_has_true_aggregate stmt = false -> sel_limit stmt = Some n -> default false (sel_order_by stmt) = false ->
  prepare_sharded_region_query stmt = Ok p ->
  saved_limit p = Some n /\ saved_offset p = sel_offset stmt /\ coordinator_fill p = None /\
  default (default false (sel_order_by stmt)) (saved_time_desc p) = false /\
  default false (sel_order_by (region_stmt p)) = false /\
  sel_limit (region_stmt p) = region_fetch (Some n) (sel_offset stmt) /\ sel_offset (region_stmt p) = None.
Proof.
  intros Ha Hl Ho E. unfold prepare_sharded_region_query in E.
  destruct (rewrite_fields (sel_fields stmt) no_partials) as [[fields pa]|]; [|done]. cbn [mbind result_bind] in E.
  rewrite Hl in E. change (bool_decide (is_Some (Some n))) with true in E. cbn [orb] in E. apply Ok_inj in E as <-.
  cbn. repeat (split; [done|]). destruct (sel_order_by stmt) as [d|]; cbn in *; [by subst|by destruct (bool_decide _)].
Qed.
End FirstRows.

Lemma key_leb_total {A} (key : A -> Z) (x y : A) : (key x <=? key y) = true \/ (key y <=? key x) = true.
Proof. rewrite !Z.leb_le. lia. Qed.

Lemma key_leb_trans {A} (key : A -> Z) (x y z : A) :
  (key x <=? key y) = true -> (key y <=? key z) = true -> (key x <=? key z) = true.
Proof. rewrite !Z.leb_le. lia. Qed.


(** ** Concrete statements *)

(** [SELECT v FROM cpu] with an order, a limit and an offset. *)
Definition select_v (desc : option bool) (limit offset : option N) : SelectStatement :=
  mkSelect [mkField (Identifier "v") None] None [] None None desc limit offset None None None None.

Definition v_series (rows : list (Z * Z)) : SeriesResult :=
  mkSeries "cpu" None ["time"; "v"]%string (map (fun tv => [json_int tv.1; json_int tv.2]) rows) None.

(** The statement on the coordinator: every region answers the rewritten
    statement over its rows, in time order. *)
Definition distributed `{QT : !QueryText} (stmt : SelectStatement) (regions : list (list (Z * Z)))
    : result QueryError QueryResponse :=
  p ← prepare_sharded_region_query stmt;
  merge_sharded_query_results
    (map (fun r => response_single 0 [set_values (node_rows (region_stmt p) 0 (sr_values (v_series r))) (v_series [])]) regions)
    stmt (Some p).

Definition on_one_node `{QT : !QueryText} (stmt : SelectStatement) (rows : list (Z * Z)) : result QueryError QueryResponse :=
  Ok (response_single 0 [set_values (node_rows stmt 0 (sr_values (v_series rows))) (v_series [])]).

#[local] Existing Instance plain_text.


(** With [ORDER BY time DESC LIMIT 1] the regions are asked for their oldest
    rows: the answer is not the newest row. *)
Theorem descending_limit_returns_oldest :
  let stmt := select_v (Some true) (Some 1%N) None in
  distributed stmt [[(1, 10); (2, 20)]; [(3, 30); (4, 40)]] = on_one_node stmt [(3, 30)] /\
  on_one_node stmt [(1, 10); (2, 20); (3, 30); (4, 40)] = on_one_node stmt [(4, 40)].
Proof. split; vm_compute; reflexivity. Qed.

(** With [OFFSET 1] and no limit the regions are asked for one row each: the
    rest is missing. *)
Theorem offset_without_limit_drops_rows :
  let stmt := select_v None None (Some 1%N) in
  distributed stmt [[(1, 10); (2, 20); (3, 30)]; [(4, 40)]] = Ok (response_single 0 [v_series [(4, 40)]]) /\
  on_one_node stmt [(1, 10); (2, 20); (3, 30); (4, 40)] = Ok (response_single 0 [v_series [(2, 20); (3, 30); (4, 40)]]).
Proof. split; vm_compute; reflexivity. Qed.

(** The sum of two regions whose groups have no value is 0, not null. *)
Theorem empty_sums_add_to_zero : json_sum VNull VNull = VNumber (NumFloat (S754_zero false)).
Proof. reflexivity. Qed.

(** Series with different tags can have one merge key. *)
Theorem series_keys_collide :
  let s tags := mkSeries "cpu" (Some tags) [] [] None in
  series_key (s {[ "a"%string := "1|b=2"%string ]}) = series_key (s {[ "a"%string := "1"%string; "b"%string := "2"%string ]}).
Proof. vm_compute. reflexivity. Qed.

(** The mean of a field named [a*b] is computed from the sum of the products
    of [a] and [b]. *)
Theorem starred_field_summed_as_product :
  fd_expr (field_with_call "sum" "a*b" None) = Call "sum" [BinaryExpr (Identifier "a") Mul (Identifier "b")].
Proof. vm_compute. reflexivity. Qed.
