(* ===== verification/QueryAggregates.v ===== *)
(** * Sharded queries: aggregates

    The rows of the regions carry partial aggregates of their own points.
    Merged, they carry the aggregates of all points: counts and integer sums
    are exact, extremes and the first and last values are those of the union.
    A group is the list of samples of one series and bucket. *)

From Stdlib Require Import SpecFloat.
From stdpp Require Import prelude list sorting gmap strings pretty.
From S2P Require Import Prelude Bytes WalWriter CqSchedule QueryAst Json QueryMerge.
From stdpp Require Import options.

#[local] Open Scope Z_scope.

(** ** Floats in order *)

Definition f64_le (a b : f64) : Prop := SFleb a b = true.

(** A finite float as a triple in lexicographic order. *)
Definition f64_rank (f : f64) : Z * Z * Z :=
  match f with
  | S754_finite false m e => (1, e, Z.pos m)
  | S754_finite true m e => (-1, - e, Z.neg m)
  | _ => (0, 0, 0)
  end.

Definition rank_le (a b : Z * Z * Z) : Prop :=
  let '(a1, a2, a3) := a in
  let '(b1, b2, b3) := b in
  a1 < b1 \/ (a1 = b1 /\ (a2 < b2 \/ (a2 = b2 /\ a3 <= b3))).

Lemma f64_le_rank a b :
  f64_is_finite a = true -> f64_is_finite b = true -> f64_le a b <-> rank_le (f64_rank a) (f64_rank b).
Proof.
  unfold f64_le, SFleb. destruct a as [sa|sa| |[] ma ea], b as [sb|sb| |[] mb eb]; cbn; try done; intros _ _;
    try (split; intros; (done || lia));
    change (PosDef.Pos.compare_cont Eq) with Pos.compare;
    destruct (Z.compare_spec ea eb); cbn; try (split; intros; (done || lia));
    destruct (Pos.compare_spec ma mb); cbn; subst; split; intros; (done || lia).
Qed.

Lemma f64_le_trans a b c :
  f64_is_finite a = true -> f64_is_finite b = true -> f64_is_finite c = true -> f64_le a b -> f64_le b c -> f64_le a c.
Proof.
  intros Ha Hb Hc. rewrite !f64_le_rank by done. destruct (f64_rank a) as [[? ?] ?], (f64_rank b) as [[? ?] ?],
    (f64_rank c) as [[? ?] ?]. cbn. lia.
Qed.

Lemma f64_le_total a b : f64_is_finite a = true -> f64_is_finite b = true -> f64_le a b \/ f64_le b a.
Proof.
  intros Ha Hb. rewrite !f64_le_rank by done. destruct (f64_rank a) as [[? ?] ?], (f64_rank b) as [[? ?] ?]. cbn. lia.
Qed.

Lemma f64_le_refl a : f64_is_finite a = true -> f64_le a a.
Proof. intros Ha. by destruct (f64_le_total a a). Qed.

Lemma f64_compare_swap a b : SFcompare b a = CompOpp <$> SFcompare a b.
Proof.
  destruct a as [[]|[]| |[] ma ea], b as [[]|[]| |[] mb eb]; cbn; try done; f_equal;
    rewrite (Z.compare_antisym ea eb); destruct (ea ?= eb); cbn; try done;
    change (PosDef.Pos.compare_cont Eq) with Pos.compare; rewrite (Pos.compare_antisym ma mb); by destruct (ma ?= mb)%positive.
Qed.

Lemma f64_compare_finite a b : f64_is_finite a = true -> f64_is_finite b = true -> SFcompare a b <> None.
Proof. by destruct a, b. Qed.

Lemma f64_min_spec a b :
  f64_is_finite a = true -> f64_is_finite b = true ->
  (f64_min a b = a \/ f64_min a b = b) /\ f64_le (f64_min a b) a /\ f64_le (f64_min a b) b.
Proof.
  intros Ha Hb. pose proof (f64_le_refl a Ha) as Hra. pose proof (f64_le_refl b Hb) as Hrb.
  pose proof (f64_compare_swap a b) as Hs. pose proof (f64_compare_finite a b Ha Hb) as Hn.
  unfold f64_min, f64_le, SFleb in *. destruct (SFcompare a b) as [[]|] eqn:E; cbn in Hs; rewrite ?E, ?Hs; auto. done.
Qed.

Lemma f64_max_spec a b :
  f64_is_finite a = true -> f64_is_finite b = true ->
  (f64_max a b = a \/ f64_max a b = b) /\ f64_le a (f64_max a b) /\ f64_le b (f64_max a b).
Proof.
  intros Ha Hb. pose proof (f64_le_refl a Ha) as Hra. pose proof (f64_le_refl b Hb) as Hrb.
  pose proof (f64_compare_swap a b) as Hs. pose proof (f64_compare_finite a b Ha Hb) as Hn.
  unfold f64_max, f64_le, SFleb in *. destruct (SFcompare a b) as [[]|] eqn:E; cbn in Hs; rewrite ?E, ?Hs; auto. done.
Qed.

(** ** Groups and their columns *)

(** A point of a group: its time and its value of each selected field. *)
Record Sample := mkSample { sp_time : Z; sp_value : string -> Value }.

(** What a column of a region's answer holds: the bucket of the row, or an
    aggregate of the points of the group. *)
Inductive Column :=
| ColKey
| ColCount
| ColSum (f : string)
| ColMin (f : string)
| ColMax (f : string)
| ColFirst (f : string)
| ColFirstTime
| ColLast (f : string)
| ColLastTime.

Definition int_of (s : Sample) (f : string) : Z := default 0 (value_as_i64 (sp_value s f)).

Definition sum_ints (f : string) (g : list Sample) : Z := foldr (fun s acc => int_of s f + acc) 0 g.

Definition sum_abs (f : string) (g : list Sample) : Z := foldr (fun s acc => Z.abs (int_of s f) + acc) 0 g.

Section Aggregates.
Context `{QT : !QueryText}.

(** A cell that is read as a time. *)
Definition reads_as (v : Value) (t : Z) : Prop :=
  json_time_nanos v = Some t /\ json_sortable_time v = t /\ is_null v = false.

(** A finite number that bounds the values of the group and is one of them. *)
Definition extreme (le : f64 -> f64 -> Prop) (f : string) (g : list Sample) (v : Value) : Prop :=
  exists x, json_as_f64 v = Some x /\ f64_is_finite x = true /\
    (exists s, s ∈ g /\ json_as_f64 (sp_value s f) = Some x) /\
    forall s, s ∈ g -> exists y, json_as_f64 (sp_value s f) = Some y /\ f64_is_finite y = true /\ le x y.

Definition earliest (g : list Sample) (s : Sample) : Prop := s ∈ g /\ forall s', s' ∈ g -> sp_time s <= sp_time s'.

Definition latest (g : list Sample) (s : Sample) : Prop := s ∈ g /\ forall s', s' ∈ g -> sp_time s' <= sp_time s.

(** The cell of a row whose bucket prints as [rk]. *)
Definition cell_ok (rk : string) (g : list Sample) (c : Column) (v : Value) : Prop :=
  match c with
  | ColKey => value_text v = rk
  | ColCount => v = json_int (Z.of_nat (length g))
  | ColSum f => v = json_int (sum_ints f g)
  | ColMin f => extreme f64_le f g v
  | ColMax f => extreme (fun x y => f64_le y x) f g v
  | ColFirst f => exists s, earliest g s /\ v = sp_value s f
  | ColFirstTime => exists s, earliest g s /\ reads_as v (sp_time s)
  | ColLast f => exists s, latest g s /\ v = sp_value s f
  | ColLastTime => exists s, latest g s /\ reads_as v (sp_time s)
  end.

Definition row_ok (columns : list Column) (rk : string) (g : list Sample) (row : list Value) : Prop :=
  Forall2 (cell_ok rk g) columns row.

Definition column_rule (c : Column) : ColumnMerge :=
  match c with
  | ColKey => Unsupported
  | ColCount | ColSum _ => MergeSum
  | ColMin _ => MergeMin
  | ColMax _ => MergeMax
  | ColFirst _ => FirstByTime
  | ColFirstTime => EarliestTime
  | ColLast _ => LastByTime
  | ColLastTime => LatestTime
  end.

(** The names of the columns, their rules, and the time beside a first or
    last value. *)
Definition layout (cols : list string) (rules : gmap string ColumnMerge) (columns : list Column) : Prop :=
  Forall2 (fun c k => default Unsupported (rules !! c) = column_rule k /\
    match k with
    | ColFirst _ => exists j, column_index cols (sel_time_col c) = Some j /\ columns !! j = Some ColFirstTime
    | ColLast _ => exists j, column_index cols (sel_time_col c) = Some j /\ columns !! j = Some ColLastTime
    | _ => True
    end) cols columns.

(** The integers of the group, and their number, add up within [i64]. *)
Definition small (columns : list Column) (g : list Sample) : Prop :=
  Z.of_nat (length g) <= i64_max /\ forall f, ColSum f ∈ columns -> sum_abs f g <= i64_max.

(** ** Cells *)

Lemma as_i64_json_int z : i64_min <= z <= i64_max -> value_as_i64 (json_int z) = Some z.
Proof.
  unfold json_int, i64_min, i64_max. intros H. destruct (Z.ltb_spec z 0); cbn; [done|].
  rewrite Z2N.id by lia. unfold i64_max. by destruct (Z.leb_spec z (2 ^ 63 - 1)); [|lia].
Qed.

Lemma json_sum_ints a b :
  i64_min <= a <= i64_max -> i64_min <= b <= i64_max -> i64_min <= a + b <= i64_max ->
  json_sum (json_int a) (json_int b) = json_int (a + b).
Proof.
  intros Ha Hb Hs. unfold json_sum. rewrite !as_i64_json_int by done.
  destruct (Z.leb_spec i64_min (a + b)), (Z.leb_spec (a + b) i64_max); try lia. done.
Qed.

Lemma sum_ints_app f g1 g2 : sum_ints f (g1 ++ g2) = sum_ints f g1 + sum_ints f g2.
Proof. unfold sum_ints. induction g1 as [|s g1 IH]; [done|]. cbn [app foldr]. lia. Qed.

Lemma sum_abs_app f g1 g2 : sum_abs f (g1 ++ g2) = sum_abs f g1 + sum_abs f g2.
Proof. unfold sum_abs. induction g1 as [|s g1 IH]; [done|]. cbn [app foldr]. lia. Qed.

Lemma sum_abs_bound f g : Z.abs (sum_ints f g) <= sum_abs f g.
Proof. unfold sum_ints, sum_abs. induction g as [|s g IH]; [done|]. cbn [foldr]. lia. Qed.

Lemma small_app columns g1 g2 : small columns (g1 ++ g2) -> small columns g1 /\ small columns g2.
Proof.
  intros [Hl Hs]. rewrite length_app in Hl. split; (split; [lia|]); intros f Hf; specialize (Hs f Hf);
    rewrite sum_abs_app in Hs; pose proof (sum_abs_bound f g1); pose proof (sum_abs_bound f g2); lia.
Qed.

Lemma merge_sums f g1 g2 :
  sum_abs f (g1 ++ g2) <= i64_max ->
  json_sum (json_int (sum_ints f g1)) (json_int (sum_ints f g2)) = json_int (sum_ints f (g1 ++ g2)).
Proof.
  intros H. rewrite sum_ints_app. rewrite sum_abs_app in H. unfold i64_max in H.
  pose proof (sum_abs_bound f g1). pose proof (sum_abs_bound f g2). apply json_sum_ints; unfold i64_min, i64_max; lia.
Qed.

Lemma json_as_f64_finite x : f64_is_finite x = true -> json_as_f64 (json_f64 x) = Some x.
Proof. intros H. unfold json_f64. by rewrite H. Qed.

Lemma merge_extremes (le : f64 -> f64 -> Prop) pick f g1 g2 v1 v2 :
  (forall a b, f64_is_finite a = true -> f64_is_finite b = true ->
     (pick a b = a \/ pick a b = b) /\ le (pick a b) a /\ le (pick a b) b) ->
  (forall a b c, f64_is_finite a = true -> f64_is_finite b = true -> f64_is_finite c = true -> le a b -> le b c -> le a c) ->
  extreme le f g1 v1 -> extreme le f g2 v2 -> extreme le f (g1 ++ g2) (merge_extreme pick v1 v2).
Proof.
  intros Hpick Htrans (x1 & E1 & F1 & (s1 & Hs1 & Es1) & H1) (x2 & E2 & F2 & (s2 & Hs2 & Es2) & H2).
  unfold merge_extreme. rewrite E1, E2. destruct (Hpick x1 x2 F1 F2) as (Hor & Hl1 & Hl2).
  assert (f64_is_finite (pick x1 x2) = true) as F by (by destruct Hor as [-> | ->]).
  exists (pick x1 x2). split; [by apply json_as_f64_finite|]. split; [done|]. split.
  - destruct Hor as [-> | ->]; [exists s1|exists s2]; (split; [apply elem_of_app; auto|done]).
  - intros s [Hs|Hs]%elem_of_app; [destruct (H1 s Hs) as (y & Ey & Fy & Hy)|destruct (H2 s Hs) as (y & Ey & Fy & Hy)];
      exists y; (split; [done|split; [done|]]); [by apply (Htrans _ x1 y)|by apply (Htrans _ x2 y)].
Qed.

Lemma earliest_app g1 g2 s1 s2 :
  earliest g1 s1 -> earliest g2 s2 ->
  if sp_time s1 <=? sp_time s2 then earliest (g1 ++ g2) s1 else earliest (g1 ++ g2) s2.
Proof.
  intros [H1 L1] [H2 L2]. destruct (Z.leb_spec (sp_time s1) (sp_time s2)); (split; [apply elem_of_app; auto|]);
    intros s [Hs|Hs]%elem_of_app; [apply L1 in Hs|apply L2 in Hs|apply L1 in Hs|apply L2 in Hs]; lia.
Qed.

Lemma latest_app g1 g2 s1 s2 :
  latest g1 s1 -> latest g2 s2 ->
  if sp_time s2 <=? sp_time s1 then latest (g1 ++ g2) s1 else latest (g1 ++ g2) s2.
Proof.
  intros [H1 L1] [H2 L2]. destruct (Z.leb_spec (sp_time s2) (sp_time s1)); (split; [apply elem_of_app; auto|]);
    intros s [Hs|Hs]%elem_of_app; [apply L1 in Hs|apply L2 in Hs|apply L1 in Hs|apply L2 in Hs]; lia.
Qed.

(** The earliest samples of a group have one time. *)
Lemma earliest_time g s s' : earliest g s -> earliest g s' -> sp_time s = sp_time s'.
Proof. intros [H1 L1] [H2 L2]. specialize (L1 s' H2). specialize (L2 s H1). lia. Qed.

Lemma latest_time g s s' : latest g s -> latest g s' -> sp_time s = sp_time s'.
Proof. intros [H1 L1] [H2 L2]. specialize (L1 s' H2). specialize (L2 s H1). lia. Qed.

Lemma row_cell columns rk g row i k :
  row_ok columns rk g row -> columns !! i = Some k -> exists v, row !! i = Some v /\ cell_ok rk g k v.
Proof. intros H Hi. destruct (Forall2_lookup_l _ _ _ _ _ H Hi) as (v & Hv & Hc). eauto. Qed.

(** The merge of two partial cells is the cell of the union. *)
Lemma merge_cell_ok cols rules columns rk g1 g2 l r i c k lv rv :
  layout cols rules columns -> row_ok columns rk g1 l -> row_ok columns rk g2 r -> small columns (g1 ++ g2) ->
  cols !! i = Some c -> columns !! i = Some k -> cell_ok rk g1 k lv -> cell_ok rk g2 k rv ->
  exists v, merge_values lv rv (column_rule k) cols i l r = Ok v /\ cell_ok rk (g1 ++ g2) k v.
Proof.
  intros Hlay Hl Hr [Hlen Hsum] Hc Hk Hlv Hrv.
  destruct (Forall2_lookup_lr _ _ _ _ _ _ Hlay Hc Hk) as [_ Hpair].
  destruct k; cbn [column_rule merge_values cell_ok] in *.
  - subst. eauto.
  - subst. eexists. split; [done|]. rewrite length_app in *. unfold i64_max in Hlen.
    rewrite json_sum_ints; unfold i64_min, i64_max; [f_equal|..]; lia.
  - subst. eexists. split; [done|]. apply merge_sums, Hsum. by eapply list_elem_of_lookup_2.
  - eexists. split; [done|]. by apply merge_extremes; [apply f64_min_spec|apply f64_le_trans|..].
  - eexists. split; [done|]. apply merge_extremes; [apply f64_max_spec| |done|done].
    intros a b c' Ha Hb Hc' H1 H2. by apply (f64_le_trans c' b a).
  - destruct Hlv as (s1 & E1 & ->), Hrv as (s2 & E2 & ->), Hpair as (j & Hj & Hkj).
    destruct (row_cell _ _ _ _ _ _ Hl Hkj) as (t1 & Ht1 & s1' & E1' & R1 & _).
    destruct (row_cell _ _ _ _ _ _ Hr Hkj) as (t2 & Ht2 & s2' & E2' & R2 & _).
    rewrite Hc. cbn. unfold pick_by_time. rewrite Hj. cbn. rewrite Ht1, Ht2. cbn. rewrite R1, R2.
    rewrite (earliest_time _ _ _ E1' E1), (earliest_time _ _ _ E2' E2).
    pose proof (earliest_app _ _ _ _ E1 E2). eexists. split; [done|].
    destruct (sp_time s1 <=? sp_time s2); eauto.
  - destruct Hlv as (s1 & E1 & R1), Hrv as (s2 & E2 & R2). destruct R1 as (N1 & S1 & Z1), R2 as (N2 & S2 & Z2).
    rewrite S1, S2, Z1, Z2. cbn. eexists. split; [done|]. rewrite andb_true_r.
    pose proof (earliest_app _ _ _ _ E1 E2) as H.
    destruct (Z.ltb_spec (sp_time s2) (sp_time s1)), (Z.leb_spec (sp_time s1) (sp_time s2)); try lia;
      [exists s2|exists s1]; done.
  - destruct Hlv as (s1 & E1 & ->), Hrv as (s2 & E2 & ->), Hpair as (j & Hj & Hkj).
    destruct (row_cell _ _ _ _ _ _ Hl Hkj) as (t1 & Ht1 & s1' & E1' & R1 & _).
    destruct (row_cell _ _ _ _ _ _ Hr Hkj) as (t2 & Ht2 & s2' & E2' & R2 & _).
    rewrite Hc. cbn. unfold pick_by_time. rewrite Hj. cbn. rewrite Ht1, Ht2. cbn. rewrite R1, R2.
    rewrite (latest_time _ _ _ E1' E1), (latest_time _ _ _ E2' E2).
    pose proof (latest_app _ _ _ _ E1 E2). eexists. split; [done|].
    destruct (sp_time s2 <=? sp_time s1); eauto.
  - destruct Hlv as (s1 & E1 & R1), Hrv as (s2 & E2 & R2). destruct R1 as (N1 & S1 & Z1), R2 as (N2 & S2 & Z2).
    rewrite S1, S2, Z1, Z2. cbn. eexists. split; [done|]. rewrite andb_true_r.
    pose proof (latest_app _ _ _ _ E1 E2) as H.
    destruct (Z.ltb_spec (sp_time s1) (sp_time s2)), (Z.leb_spec (sp_time s2) (sp_time s1)); try lia;
      [exists s2|exists s1]; done.
Qed.

Lemma merge_cells_ok cols rules columns rk g1 g2 l r rest crest i :
  layout cols rules columns -> row_ok columns rk g1 l -> row_ok columns rk g2 r -> small columns (g1 ++ g2) ->
  drop i cols = rest -> drop i columns = crest ->
  exists row, merge_cells rules cols l r i rest = Ok row /\ Forall2 (cell_ok rk (g1 ++ g2)) crest row.
Proof.
  intros Hlay Hl Hr Hs. revert i crest. induction rest as [|c rest IH]; intros i crest Hc Hk.
  - exists []. split; [done|]. assert (length (drop i columns) = length (drop i cols)) as Hlen.
    { rewrite !length_drop. by rewrite (Forall2_length _ _ _ Hlay). }
    rewrite Hc, Hk in Hlen. by destruct crest.
  - assert (cols !! i = Some c) as Hci by (rewrite <-(Nat.add_0_r i), <-lookup_drop, Hc; done).
    destruct (Forall2_lookup_l _ _ _ _ _ Hlay Hci) as (k & Hki & Hrule & _).
    destruct (row_cell _ _ _ _ _ _ Hl Hki) as (lv & Hlv & Clv), (row_cell _ _ _ _ _ _ Hr Hki) as (rv & Hrv & Crv).
    destruct (merge_cell_ok _ _ _ _ _ _ _ _ _ _ _ _ _ Hlay Hl Hr Hs Hci Hki Clv Crv) as (v & Ev & Cv).
    rewrite (drop_S _ _ _ Hci) in Hc. rewrite (drop_S _ _ _ Hki) in Hk. injection Hc as Hc. subst crest.
    destruct (IH (S i) _ Hc eq_refl) as (row & Erow & Crow).
    exists (v :: row). cbn [merge_cells]. rewrite Hlv, Hrv. cbn [ok_or mbind result_bind]. rewrite Hrule, Ev.
    cbn [mbind result_bind]. rewrite Erow. split; [done|]. by constructor.
Qed.

(** The merge of two partial rows is the row of the union. *)
Lemma merge_row_ok cols rules columns rk g1 g2 l r :
  layout cols rules columns -> row_ok columns rk g1 l -> row_ok columns rk g2 r -> small columns (g1 ++ g2) ->
  exists row, merge_row cols rules l r = Ok row /\ row_ok columns rk (g1 ++ g2) row.
Proof.
  intros Hlay Hl Hr Hs. unfold merge_row.
  rewrite <-(Forall2_length _ _ _ Hl), <-(Forall2_length _ _ _ Hr), (Forall2_length _ _ _ Hlay), Nat.eqb_refl. cbn [negb orb].
  by apply (merge_cells_ok cols rules columns rk g1 g2 l r cols columns 0).
Qed.

(** ** Tables *)

Section Tables.
Context (cols : list string) (rules : gmap string ColumnMerge) (columns : list Column).

#[local] Abbreviation bucket := (row_key (time_index cols) []).

(** A series of a region with the groups of its rows. *)
Record Part := mkPart { pt_series : SeriesResult; pt_groups : list (list Sample) }.

(** The groups of a part by the bucket of their row. *)
Definition part_rows (a : Part) : list (string * list Sample) := zip (bucket <$> sr_values (pt_series a)) (pt_groups a).

(** The region answered one row per bucket, the aggregates of its group. *)
Definition part_ok (a : Part) : Prop :=
  sr_columns (pt_series a) = cols /\ NoDup (bucket <$> sr_values (pt_series a)) /\
  Forall2 (fun row g => row_ok columns (bucket row) g row) (sr_values (pt_series a)) (pt_groups a).

(** The points of a bucket, over all regions. *)
Definition group_of (rk : string) (l : list (string * list Sample)) : list Sample :=
  concat (filter (fun e => e.1 = rk) l).*2.

Definition series_rows (k : string) (parts : list Part) : list (string * list Sample) :=
  concat (part_rows <$> filter (fun a => series_key (pt_series a) = k) parts).

(** One row per bucket that has points, the aggregates of all of them. *)
Definition rows_spec (values : list (list Value)) (l : list (string * list Sample)) : Prop :=
  NoDup (bucket <$> values) /\ (forall rk, rk ∈ bucket <$> values <-> rk ∈ l.*1) /\
  forall row, row ∈ values -> row_ok columns (bucket row) (group_of (bucket row) l) row.

(** One series per key, with its rows. *)
Definition table_spec (series : list SeriesResult) (parts : list Part) : Prop :=
  NoDup (series_key <$> series) /\
  (forall k, k ∈ series_key <$> series <-> k ∈ (fun a => series_key (pt_series a)) <$> parts) /\
  forall s, s ∈ series -> sr_columns s = cols /\ rows_spec (sr_values s) (series_rows (series_key s) parts).

(** Every column is one the rules know, the bucket is the time column, and
    the numbers stay within [i64]. *)
Definition table_fits (parts : list Part) : Prop :=
  layout cols rules columns /\
  (forall i, time_index cols = Some i -> columns !! i = Some ColKey) /\
  (forall k rk, small columns (group_of rk (series_rows k parts))) /\ Forall part_ok parts.

(** *** Index maps *)

Lemma im_get_set {V} k k' (v : V) m : im_get k' (im_set k v m) = if bool_decide (k' = k) then Some v else im_get k' m.
Proof.
  induction m as [|[k0 v0] m IH]; cbn; [by case_bool_decide|].
  destruct (decide (k = k0)) as [-> |E]; [rewrite (bool_decide_true (k0 = k0)) by done; cbn; by case_bool_decide|].
  rewrite (bool_decide_false (k = k0)) by done. cbn. rewrite IH. repeat case_bool_decide; naive_solver.
Qed.

Lemma im_set_keys {V} k (v : V) m k' : k' ∈ (im_set k v m).*1 <-> k' = k \/ k' ∈ m.*1.
Proof.
  induction m as [|[k0 v0] m IH]; cbn; [set_solver|]. case_bool_decide as E; cbn; [subst|]; set_solver.
Qed.

Lemma im_set_NoDup {V} k (v : V) m : NoDup m.*1 -> NoDup (im_set k v m).*1.
Proof.
  induction m as [|[k0 v0] m IH]; cbn; [intros; apply NoDup_singleton|]. rewrite NoDup_cons. intros [Hn Hd].
  case_bool_decide as E; cbn; apply NoDup_cons; [by subst|]. rewrite im_set_keys. naive_solver.
Qed.

Lemma im_get_elem {V} k (v : V) m : NoDup m.*1 -> im_get k m = Some v <-> (k, v) ∈ m.
Proof.
  induction m as [|[k0 v0] m IH]; cbn; [intros _; split; [done|by intros ?%elem_of_nil]|].
  rewrite NoDup_cons, elem_of_cons. intros [Hn Hd]. case_bool_decide as E; [subst|].
  - split; [intros [= ->]; auto|]. intros [[= ->]|Hin]; [done|]. destruct Hn. by apply (list_elem_of_fmap_2 fst) in Hin.
  - rewrite IH by done. naive_solver.
Qed.

Lemma im_get_None {V} k (m : list (string * V)) : im_get k m = None <-> k ∉ m.*1.
Proof.
  induction m as [|[k0 v0] m IH]; cbn; [set_solver|]. case_bool_decide; [subst; set_solver|]. rewrite IH. set_solver.
Qed.

(** *** Groups of keyed rows *)

Lemma group_of_app rk l1 l2 : group_of rk (l1 ++ l2) = group_of rk l1 ++ group_of rk l2.
Proof. unfold group_of. by rewrite filter_app, fmap_app, concat_app. Qed.

Lemma group_of_eq rk g : group_of rk [(rk, g)] = g.
Proof. unfold group_of. rewrite filter_cons_True by done. cbn. by rewrite app_nil_r. Qed.

Lemma group_of_ne rk rk' g : rk' <> rk -> group_of rk [(rk', g)] = [].
Proof. intros H. unfold group_of. by rewrite filter_cons_False. Qed.

Lemma group_of_absent rk l : rk ∉ l.*1 -> group_of rk l = [].
Proof.
  induction l as [|[k g] l IH]; [done|]. rewrite fmap_cons, not_elem_of_cons. intros [Hk Hl]. unfold group_of.
  rewrite filter_cons_False by (cbn in *; congruence). by apply IH.
Qed.

Lemma group_of_small rk l1 l2 : small columns (group_of rk (l1 ++ l2)) -> small columns (group_of rk l1).
Proof. rewrite group_of_app. by intros [? _]%small_app. Qed.

Lemma series_rows_app k l1 l2 : series_rows k (l1 ++ l2) = series_rows k l1 ++ series_rows k l2.
Proof. unfold series_rows. by rewrite filter_app, fmap_app, concat_app. Qed.

Lemma series_rows_one a : series_rows (series_key (pt_series a)) [a] = part_rows a.
Proof. unfold series_rows. rewrite filter_cons_True by done. cbn. by rewrite app_nil_r. Qed.

Lemma series_rows_ne k a : series_key (pt_series a) <> k -> series_rows k [a] = [].
Proof. intros H. unfold series_rows. by rewrite filter_cons_False. Qed.

Lemma series_rows_absent k l : k ∉ (fun a => series_key (pt_series a)) <$> l -> series_rows k l = [].
Proof.
  induction l as [|a l IH]; [done|]. rewrite fmap_cons, not_elem_of_cons. intros [Hk Hl]. unfold series_rows.
  rewrite filter_cons_False by congruence. by apply IH.
Qed.

(** *** Rows *)

Definition rows_inv (rows : list (string * list Value)) (l : list (string * list Sample)) : Prop :=
  NoDup rows.*1 /\ (forall rk, rk ∈ rows.*1 <-> rk ∈ l.*1) /\
  forall rk row, (rk, row) ∈ rows -> bucket row = rk /\ row_ok columns rk (group_of rk l) row.

Lemma rows_inv_nil : rows_inv [] [].
Proof. split; [constructor|]. split; [done|]. by intros ? ? ?%elem_of_nil. Qed.

Lemma string_app_empty (a : string) : a +:+ EmptyString = a.
Proof. induction a as [|c a IH]; [done|]. change (String c (a +:+ EmptyString) = String c a). by rewrite IH. Qed.

Lemma rows_inv_set rows l row g :
  rows_inv rows l -> row_ok columns (bucket row) (group_of (bucket row) (l ++ [(bucket row, g)])) row ->
  rows_inv (im_set (bucket row) row rows) (l ++ [(bucket row, g)]).
Proof.
  intros (Hd & Hk & Hr) Hrow. assert (NoDup (im_set (bucket row) row rows).*1) as Hd' by by apply im_set_NoDup.
  split; [done|]. split.
  - intros rk. rewrite im_set_keys, Hk, fmap_app, elem_of_app. cbn. set_solver.
  - intros rk r. rewrite <-im_get_elem, im_get_set by done. case_bool_decide as E; [subst; by intros [= <-]|].
    rewrite im_get_elem by done. intros Hin. destruct (Hr rk r Hin) as [Hb Hok]. split; [done|].
    by rewrite group_of_app, group_of_ne, app_nil_r.
Qed.

(** *** Series *)

Definition series_inv (merged : list (string * (SeriesResult * list (string * list Value)))) (parts : list Part) : Prop :=
  NoDup merged.*1 /\ (forall k, k ∈ merged.*1 <-> k ∈ (fun a => series_key (pt_series a)) <$> parts) /\
  forall k h rows, (k, (h, rows)) ∈ merged ->
    series_key h = k /\ sr_columns h = cols /\ rows_inv rows (series_rows k parts).

Lemma series_inv_set merged parts a h rows :
  let k := series_key (pt_series a) in
  series_inv merged parts -> series_key h = k -> sr_columns h = cols -> rows_inv rows (series_rows k (parts ++ [a])) ->
  series_inv (im_set k (h, rows) merged) (parts ++ [a]).
Proof.
  intros k (Hd & Hk & Hr) Hh Hc Hrows. assert (NoDup (im_set k (h, rows) merged).*1) as Hd' by by apply im_set_NoDup.
  split; [done|]. split.
  - intros k'. rewrite im_set_keys, Hk, fmap_app, elem_of_app. subst k. set_solver.
  - intros k' h' rows'. rewrite <-im_get_elem, im_get_set by done. case_bool_decide as E; [subst; by intros [= <- <-]|].
    rewrite im_get_elem by done. intros Hin. destruct (Hr _ _ _ Hin) as (? & ? & ?).
    by rewrite series_rows_app, (series_rows_ne k'), app_nil_r.
Qed.

(** *** Merging *)

Section Merging.
Context (Hlay : layout cols rules columns) (Hkey : forall i, time_index cols = Some i -> columns !! i = Some ColKey).

(** The bucket of a row is that of its group. *)
Lemma row_ok_bucket row0 g row : row_ok columns (bucket row0) g row -> bucket row = bucket row0.
Proof using Hkey.
  intros H. unfold row_key in *. destruct (time_index cols) as [i|] eqn:E; [|done].
  destruct (row_cell _ _ _ _ _ _ H (Hkey i eq_refl)) as (v & Hv & Hc). cbn [cell_ok] in Hc. rewrite Hv.
  change (value_text (default VNull (Some v))) with (value_text v). rewrite Hc. apply string_app_empty.
Qed.

Lemma merge_one_row_ok remap rows l row g :
  rows_inv rows l -> row_ok columns (bucket row) g row -> small columns (group_of (bucket row) (l ++ [(bucket row, g)])) ->
  exists rows', merge_one_row rules cols cols remap (time_index cols) [] rows row = Ok rows' /\
    rows_inv rows' (l ++ [(bucket row, g)]).
Proof using Hkey Hlay.
  intros Hinv Hrow Hs. unfold merge_one_row.
  rewrite <-(Forall2_length _ _ _ Hrow), (Forall2_length _ _ _ Hlay), Nat.eqb_refl. cbn [negb].
  rewrite bool_decide_true by done. destruct (im_get (bucket row) rows) as [old|] eqn:E.
  - destruct Hinv as (Hd & Hk & Hr). apply im_get_elem in E; [|done]. destruct (Hr _ _ E) as [Hb Hold].
    rewrite group_of_app, group_of_eq in Hs.
    destruct (merge_row_ok _ _ _ _ _ _ _ _ Hlay Hold Hrow Hs) as (m & -> & Hm).
    eexists. split; [done|]. pose proof (row_ok_bucket _ _ _ Hm) as Hbm. rewrite <-Hbm.
    apply rows_inv_set; [done|]. rewrite Hbm. by rewrite group_of_app, group_of_eq.
  - eexists. split; [done|]. apply rows_inv_set; [done|]. destruct Hinv as (Hd & Hk & Hr).
    rewrite group_of_app, group_of_eq, group_of_absent; [done|]. by rewrite <-Hk, <-im_get_None.
Qed.

Lemma fold_rows_ok remap values gs rows l :
  Forall2 (fun row g => row_ok columns (bucket row) g row) values gs -> rows_inv rows l ->
  (forall rk, small columns (group_of rk (l ++ zip (bucket <$> values) gs))) ->
  exists rows', fold_rows (merge_one_row rules cols cols remap (time_index cols) []) rows values = Ok rows' /\
    rows_inv rows' (l ++ zip (bucket <$> values) gs).
Proof using Hkey Hlay.
  intros Hok. revert rows l. induction Hok as [|row g values gs Hrow Hok IH]; intros rows l Hinv Hs.
  - exists rows. split; [done|]. by rewrite app_nil_r.
  - rewrite fmap_cons in *. cbn [zip zip_with] in *. rewrite cons_middle, app_assoc in *.
    destruct (merge_one_row_ok remap rows l row g Hinv Hrow) as (rows1 & E1 & Hinv1); [by eapply group_of_small|].
    destruct (IH _ _ Hinv1 Hs) as (rows' & E' & Hinv'). exists rows'. cbn [fold_rows]. by rewrite E1.
Qed.

Lemma merge_one_series_ok merged parts a :
  series_inv merged parts -> part_ok a ->
  (forall rk, small columns (group_of rk (series_rows (series_key (pt_series a)) (parts ++ [a])))) ->
  exists merged', merge_one_series rules ∅ merged (pt_series a) = Ok merged' /\ series_inv merged' (parts ++ [a]).
Proof using Hkey Hlay.
  intros Hinv (Hc & Hd & Hok) Hs. set (k := series_key (pt_series a)) in *.
  unfold merge_one_series. fold k. set (e := default _ (im_get k merged)).
  assert (series_key e.1 = k /\ sr_columns e.1 = cols /\ rows_inv e.2 (series_rows k parts)) as (He1 & He2 & He3).
  { destruct Hinv as (Hdm & Hk & Hr). subst e. destruct (im_get k merged) as [[h rows]|] eqn:E; cbn.
    - apply im_get_elem in E; [|done]. by apply Hr.
    - rewrite series_rows_absent; [by split; [|split; [|apply rows_inv_nil]]|]. by rewrite <-Hk, <-im_get_None. }
  destruct e as [h rows]. cbn [fst snd] in *. rewrite Hc, He2. rewrite bool_decide_true by done. cbn [mbind result_bind].
  unfold distinct_indices. rewrite elements_empty. cbn [omap list_omap].
  rewrite series_rows_app in Hs. unfold k in Hs at 2. rewrite series_rows_one in Hs.
  destruct (fold_rows_ok [] _ _ _ _ Hok He3 Hs) as (rows' & -> & Hrows'). eexists. split; [done|].
  apply series_inv_set; [done..|]. rewrite series_rows_app. by rewrite series_rows_one.
Qed.

Lemma fold_series_ok l merged parts :
  series_inv merged parts -> Forall part_ok l -> (forall k rk, small columns (group_of rk (series_rows k (parts ++ l)))) ->
  exists merged', fold_series rules ∅ merged (pt_series <$> l) = Ok merged' /\ series_inv merged' (parts ++ l).
Proof using Hkey Hlay.
  intros Hinv Hok. revert merged parts Hinv. induction Hok as [|a l Ha Hok IH]; intros merged parts Hinv Hs.
  - exists merged. split; [done|]. by rewrite app_nil_r.
  - rewrite cons_middle, app_assoc in *.
    destruct (merge_one_series_ok merged parts a Hinv Ha) as (m1 & E1 & Hinv1).
    { intros rk. specialize (Hs (series_key (pt_series a)) rk). rewrite series_rows_app in Hs. by eapply group_of_small. }
    destruct (IH _ _ Hinv1 Hs) as (m' & E' & Hinv'). exists m'. rewrite fmap_cons. cbn [fold_series]. by rewrite E1.
Qed.
End Merging.

(** *** The whole table *)

Lemma rows_inv_spec rows l : rows_inv rows l -> rows_spec rows.*2 l.
Proof.
  intros (Hd & Hk & Hr). assert (bucket <$> rows.*2 = rows.*1) as Hb.
  { rewrite <-list_fmap_compose. apply list_fmap_ext. intros i [rk row] Hi. cbn. apply (Hr rk row). by eapply list_elem_of_lookup_2. }
  split; [by rewrite Hb|]. split; [by rewrite Hb|]. intros row ([rk row'] & -> & Hin)%list_elem_of_fmap. cbn.
  destruct (Hr _ _ Hin) as [-> Hok]. done.
Qed.

Lemma zip_group row g values gs :
  NoDup (bucket <$> values) -> (row, g) ∈ zip values gs -> group_of (bucket row) (zip (bucket <$> values) gs) = g.
Proof.
  revert gs. induction values as [|v values IH]; intros [|g0 gs]; cbn [zip zip_with]; try by intros _ ?%elem_of_nil.
  rewrite fmap_cons, NoDup_cons, elem_of_cons. intros [Hn Hd] Hin. cbn [zip zip_with].
  change (?x :: ?l) with ([x] ++ l). rewrite group_of_app. destruct Hin as [[= -> ->]|Hin].
  - rewrite group_of_eq, group_of_absent; [by rewrite app_nil_r|]. intros ([rk g'] & E & Hin)%list_elem_of_fmap.
    apply Hn. rewrite E. by apply elem_of_zip_l in Hin.
  - rewrite group_of_ne; [by apply IH|]. intros E. apply Hn.
    rewrite E. apply elem_of_zip_l in Hin. by apply list_elem_of_fmap_2.
Qed.

Lemma part_ok_spec a : part_ok a -> rows_spec (sr_values (pt_series a)) (part_rows a).
Proof.
  intros (Hc & Hd & Hok). pose proof (Forall2_length _ _ _ Hok) as Hlen. split; [done|]. split.
  - intros rk. unfold part_rows. rewrite fst_zip; [done|]. rewrite length_fmap. lia.
  - intros row Hrow. apply list_elem_of_lookup in Hrow as [i Hi].
    destruct (Forall2_lookup_l _ _ _ _ _ Hok Hi) as (g & Hg & Hr). unfold part_rows. rewrite (zip_group row g); [done..|].
    apply list_elem_of_lookup. exists i. by rewrite lookup_zip_with, Hi, Hg.
Qed.

Lemma bfilter_fmap {A B} (f : A -> B) (p : B -> bool) l : List.filter p (f <$> l) = f <$> List.filter (fun x => p (f x)) l.
Proof. induction l as [|x l IH]; [done|]. rewrite fmap_cons. cbn. destruct (p (f x)); [rewrite fmap_cons|]; by rewrite IH. Qed.

Lemma lone_key l s s' : series_key s = series_key s' -> lone l s = lone l s'.
Proof. unfold lone. by intros ->. Qed.

(** The rows of a key, if one part has it. *)
Lemma lone_filter parts a :
  a ∈ parts -> lone (pt_series <$> parts) (pt_series a) = true ->
  filter (fun b => series_key (pt_series b) = series_key (pt_series a)) parts = [a].
Proof.
  intros Hin Hl. unfold lone in Hl. rewrite bfilter_fmap, length_fmap in Hl. apply bool_decide_eq_true in Hl.
  assert (a ∈ filter (fun b => series_key (pt_series b) = series_key (pt_series a)) parts) as Ha by by apply list_elem_of_filter.
  assert (filter (fun b => series_key (pt_series b) = series_key (pt_series a)) parts
          = List.filter (fun x => bool_decide (series_key (pt_series x) = series_key (pt_series a))) parts) as E.
  { clear. induction parts as [|b parts IH]; [done|]. cbn. unfold filter, list_filter. rewrite <-IH. case_bool_decide; by case_decide. }
  rewrite E in *. destruct (List.filter _ parts) as [|x [|? ?]]; [done| |done]. by apply list_elem_of_singleton in Ha as ->.
Qed.

Lemma shared_rows parts k :
  (forall a, a ∈ parts -> series_key (pt_series a) = k -> lone (pt_series <$> parts) (pt_series a) = false) ->
  series_rows k (List.filter (fun a => negb (lone (pt_series <$> parts) (pt_series a))) parts) = series_rows k parts.
Proof.
  generalize (pt_series <$> parts). intros l H. unfold series_rows. f_equal. f_equal.
  induction parts as [|a parts IH]; [done|]. cbn [List.filter].
  destruct (lone l (pt_series a)) eqn:E; cbn [negb]; rewrite !filter_cons; case_decide as Hk;
    rewrite IH by (intros; apply H; set_solver); try done. rewrite H in E; set_solver.
Qed.

Lemma filter_sublist_length {A} (p : A -> bool) l m : sublist m l -> (length (List.filter p m) <= length (List.filter p l))%nat.
Proof. induction 1 as [|x m l H IH|x m l H IH]; cbn; [lia|destruct (p x); cbn; lia|destruct (p x); cbn; lia]. Qed.

Lemma lone_keys_NoDup l m : sublist m l -> Forall (fun s => lone l s = true) m -> NoDup (series_key <$> m).
Proof.
  intros Hsub Hl. induction Hl as [|s m Hs Hl IH]; [constructor|]. rewrite fmap_cons. constructor.
  - intros (s' & E & Hin)%list_elem_of_fmap. apply bool_decide_eq_true in Hs.
    pose proof (filter_sublist_length (fun x => bool_decide (series_key x = series_key s)) l _ Hsub) as Hle.
    rewrite Hs in Hle. cbn in Hle. rewrite bool_decide_true in Hle by done. cbn in Hle.
    assert (s' ∈ List.filter (fun x => bool_decide (series_key x = series_key s)) m) as Hf.
    { apply list_elem_of_In, filter_In. split; [by apply list_elem_of_In|]. by apply bool_decide_eq_true. }
    destruct (List.filter _ m); [by apply elem_of_nil in Hf|cbn in Hle; lia].
  - apply IH. etrans; [|exact Hsub]. by apply sublist_cons.
Qed.

Lemma filter_sublist {A} (p : A -> bool) l : sublist (List.filter p l) l.
Proof. induction l as [|x l IH]; cbn; [done|]. destruct (p x); by constructor. Qed.

Lemma elem_of_bfilter {A} (p : A -> bool) l x : x ∈ List.filter p l <-> x ∈ l /\ p x = true.
Proof. rewrite !list_elem_of_In. apply filter_In. Qed.

(** The merged series and those of one part, together. *)
Lemma table_assembled merged parts :
  let l := pt_series <$> parts in
  Forall part_ok parts -> series_inv merged (List.filter (fun a => negb (lone l (pt_series a))) parts) ->
  table_spec (((fun e => set_values (e.2.2).*2 e.2.1) <$> merged) ++ List.filter (lone l) l) parts.
Proof.
  intros l Hok (Hd & Hk & Hr). set (out := (fun e => set_values (e.2.2).*2 e.2.1) <$> merged).
  assert (series_key <$> out = merged.*1) as Hout.
  { subst out. rewrite <-list_fmap_compose. apply list_fmap_ext. intros i [k [h rows]] Hi.
    destruct (Hr k h rows) as [<- _]; [by eapply list_elem_of_lookup_2|done]. }
  assert (forall k, k ∈ merged.*1 -> exists a, a ∈ parts /\ series_key (pt_series a) = k /\ lone l (pt_series a) = false) as Hshared.
  { intros k (a & -> & [Ha Hn]%elem_of_bfilter)%Hk%list_elem_of_fmap. exists a. split; [done|]. split; [done|].
    by apply negb_true_iff. }
  rewrite Forall_forall in Hok. split; [|split].
  - rewrite fmap_app, Hout. apply NoDup_app. split; [done|]. split.
    + intros k (a & Ha & <- & Hn)%Hshared (s & E & [Hs Hl]%elem_of_bfilter)%list_elem_of_fmap.
      by rewrite (lone_key l _ _ E), Hl in Hn.
    + apply (lone_keys_NoDup l); [apply filter_sublist|]. apply Forall_forall. by intros s [_ ?]%elem_of_bfilter.
  - intros k. rewrite fmap_app, Hout, elem_of_app. split.
    + intros [(a & Ha & <- & _)%Hshared|(s & -> & [(a & -> & Ha)%list_elem_of_fmap _]%elem_of_bfilter)%list_elem_of_fmap];
        by apply (list_elem_of_fmap_2 (fun a => series_key (pt_series a))).
    + intros (a & -> & Ha)%list_elem_of_fmap. destruct (lone l (pt_series a)) eqn:E; [right|left].
      * apply list_elem_of_fmap_2, elem_of_bfilter. split; [by apply list_elem_of_fmap_2|done].
      * apply Hk, (list_elem_of_fmap_2 (fun a => series_key (pt_series a))), elem_of_bfilter. by rewrite E.
  - intros s [([k [h rows]] & -> & Hin)%list_elem_of_fmap|[(a & -> & Ha)%list_elem_of_fmap Hl]%elem_of_bfilter]%elem_of_app.
    + destruct (Hr _ _ _ Hin) as (Hh & Hc & Hrows). split; [done|].
      change (series_key (set_values _ _)) with (series_key h). cbn [sr_values set_values fst snd]. rewrite Hh.
      rewrite <-(shared_rows parts k); [by apply rows_inv_spec|]. intros a Ha E.
      destruct (Hshared k) as (b & _ & Eb & Hb); [by apply (list_elem_of_fmap_2 fst) in Hin|].
      rewrite <-Hb. apply lone_key. congruence.
    + destruct (Hok a Ha) as (Hc & _). split; [done|]. unfold series_rows. rewrite lone_filter by done. cbn.
      rewrite app_nil_r. by apply part_ok_spec, Hok.
Qed.

Lemma table_spec_Permutation s1 s2 parts : s1 ≡ₚ s2 -> table_spec s1 parts -> table_spec s2 parts.
Proof. intros E (Hd & Hk & Hr). split; [by rewrite <-E|]. split; [intros k; by rewrite <-E|]. intros s. rewrite <-E. apply Hr. Qed.
End Tables.

Lemma all_series_parts id (parts : list (list Part)) :
  all_series ((fun ps => response_single id (pt_series <$> ps)) <$> parts) = pt_series <$> concat parts.
Proof.
  unfold all_series. induction parts as [|ps parts IH]; [done|]. rewrite fmap_cons. cbn [mbind list_bind concat].
  rewrite fmap_app, <-IH. cbn. by rewrite app_nil_r.
Qed.
End Aggregates.

(** ** Bounds *)

Lemma sum_abs_sublist f g g' : sublist g' g -> sum_abs f g' <= sum_abs f g.
Proof. unfold sum_abs. induction 1 as [|x m l H IH|x m l H IH]; cbn [foldr]; lia. Qed.

Lemma small_sublist columns g g' : sublist g' g -> small columns g -> small columns g'.
Proof.
  intros Hsub [Hl Hs]. split; [apply sublist_length in Hsub; lia|]. intros f Hf. specialize (Hs f Hf).
  pose proof (sum_abs_sublist f g g' Hsub). lia.
Qed.

Lemma concat_sublist {A} (l l' : list (list A)) : sublist l' l -> sublist (concat l') (concat l).
Proof. induction 1; cbn; [done|by apply sublist_app|by apply sublist_inserts_l]. Qed.

Lemma snd_zip_sublist {A B} (l : list A) (k : list B) : sublist (zip l k).*2 k.
Proof. revert k. induction l as [|a l IH]; intros [|b k]; cbn; try done; [apply sublist_nil_l|by constructor]. Qed.

(** It is enough that the points of all parts stay within [i64]. *)
Lemma small_parts `{QT : !QueryText} cols columns parts k rk :
  small columns (concat (concat (pt_groups <$> parts))) -> small columns (group_of rk (series_rows cols k parts)).
Proof.
  apply small_sublist. unfold group_of, series_rows. apply concat_sublist.
  etrans; [apply (fmap_sublist snd), sublist_filter|]. induction parts as [|a parts IH]; [done|]. rewrite filter_cons.
  rewrite fmap_cons. cbn [concat]. destruct (decide _); [|by apply sublist_inserts_l]. rewrite fmap_cons. cbn [concat].
  rewrite fmap_app. apply sublist_app; [apply snd_zip_sublist|exact IH].
Qed.


(** ** Two regions *)

(** [SELECT mean(v), max(v), first(v) FROM cpu GROUP BY time(10ns), host]. *)
Definition mean_max_first : SelectStatement :=
  mkSelect [mkField (Call "mean" [Identifier "v"]) None; mkField (Call "max" [Identifier "v"]) None;
            mkField (Call "first" [Identifier "v"]) None]
    None [] None (Some [DimTime (mkDuration 10 Nanosecond) None; DimTag "host"]) None None None None None None None.

Definition mean_max_first_cols : list string :=
  ["time"; "__mean_sum_mean"; "__mean_count_mean"; "max"; "first"; "first__sel_time"]%string.

Definition mean_max_first_columns : list Column :=
  [ColKey; ColSum "v"; ColCount; ColMax "v"; ColFirst "v"; ColFirstTime].

Definition sample (t v : Z) : Sample := mkSample t (fun _ => json_int v).

(** A part over one series, one row per bucket: its sum, count, maximum,
    first value and first time. *)
Definition region_part (rows : list (list Z)) (groups : list (list Sample)) : Part :=
  mkPart (mkSeries "cpu" (Some {[ "host"%string := "a"%string ]}) mean_max_first_cols (map (map json_int) rows) None)
    groups.

Definition west : Part := region_part [[0; 9; 2; 5; 4; 1]] [[sample 1 4; sample 7 5]].

Definition east : Part :=
  region_part [[0; 11; 2; 9; 2; 3]; [10; 6; 1; 6; 6; 12]] [[sample 3 2; sample 8 9]; [sample 12 6]].

(** The rules of the plan, and what the two regions answer. *)
Definition plan_rules : gmap string ColumnMerge :=
  match prepare_sharded_region_query mean_max_first with Ok p => merge_rules p | Err _ => ∅ end.

Definition region_answers : list QueryResponse := map (fun a => response_single 0 [pt_series a]) [west; east].

#[local] Existing Instance plain_text.

(** The bucket, sum and count of the merged rows. *)
Definition merged_counts : list (list Value) :=
  match merge_rows_with_rules region_answers 0 plan_rules ∅ with
  | Ok [st] => concat (map (fun s => map (take 3) (sr_values s)) (default [] (st_series st)))
  | _ => []
  end.

(** A row of a concrete part, its first point at position [f], its greatest at [m]. *)
Lemma region_row_ok t g f m :
  f ∈ g -> m ∈ g ->
  Forall (fun s => sp_time f <= sp_time s /\
     exists y, json_as_f64 (sp_value s "v") = Some y /\ f64_is_finite y = true /\ f64_le y (f64_of_Z (int_of m "v"))) g ->
  json_as_f64 (json_int (int_of m "v")) = Some (f64_of_Z (int_of m "v")) ->
  json_as_f64 (sp_value m "v") = Some (f64_of_Z (int_of m "v")) -> f64_is_finite (f64_of_Z (int_of m "v")) = true ->
  sp_value f "v" = json_int (int_of f "v") -> reads_as (json_int (sp_time f)) (sp_time f) ->
  row_ok mean_max_first_columns (value_text (json_int t)) g
    (map json_int [t; sum_ints "v" g; Z.of_nat (length g); int_of m "v"; int_of f "v"; sp_time f]).
Proof.
  intros Hf Hm Hall Em Em' Fm Ef Rf. rewrite Forall_forall in Hall.
  assert (earliest g f) as Hearly by (split; [done|]; intros s Hs; apply (Hall s Hs)).
  repeat apply Forall2_cons_2; [..|apply Forall2_nil_2]; cbn [cell_ok]; try done.
  - exists (f64_of_Z (int_of m "v")). split; [done|]. split; [done|]. split; [eauto|].
    intros s Hs. destruct (Hall s Hs) as (_ & y & ?). by exists y.
  - by exists f.
  - by exists f.
Qed.

Ltac region_row :=
  match goal with
  | |- _ ∈ _ => set_solver
  | |- Forall _ _ =>
    repeat (apply Forall_cons; split; [split; [vm_compute; discriminate|]; eexists; split; [vm_compute; reflexivity|split; vm_compute; reflexivity]|]);
    apply Forall_nil; exact I
  | |- reads_as _ _ => split; [vm_compute; reflexivity|split; vm_compute; reflexivity]
  | |- _ => vm_compute; reflexivity
  end.

Lemma two_regions_fit : table_fits mean_max_first_cols plan_rules mean_max_first_columns (concat [[west]; [east]]).
Proof.
  split; [|split; [|split]].
  - unfold layout. repeat (apply Forall2_cons; split; [split; [vm_compute; reflexivity|]|]).
    all: try apply Forall2_nil; try exact I. exists 5%nat. split; vm_compute; reflexivity.
  - intros i [= <-]. done.
  - intros k rk. apply small_parts. split; [vm_compute; discriminate|]. intros f Hf.
    assert (f = "v"%string) as -> by (clear -Hf; unfold mean_max_first_columns in Hf; set_solver). vm_compute. discriminate.
  - apply Forall_cons. split; [|apply Forall_cons; split; [|by apply Forall_nil]];
      (split; [reflexivity|]); (split; [by apply (bool_decide_unpack _); vm_compute|]).
    + apply Forall2_cons_2; [|apply Forall2_nil_2]. apply (region_row_ok 0 [sample 1 4; sample 7 5] (sample 1 4) (sample 7 5)); region_row.
    + apply Forall2_cons_2; [|apply Forall2_cons_2; [|apply Forall2_nil_2]].
      * apply (region_row_ok 0 [sample 3 2; sample 8 9] (sample 3 2) (sample 8 9)); region_row.
      * apply (region_row_ok 10 [sample 12 6] (sample 12 6) (sample 12 6)); region_row.
Qed.

