(* ===== verification/MultiSelector.v ===== *)
(** * TOP, BOTTOM and SAMPLE

    [domain/sharding/multi_selector.rs]: every region returns its own points
    per group, and the coordinator ranks the union again. The theorem
    is the claim of the module's comment: for TOP and BOTTOM, also with tag
    arguments, the ranking of the regions' rankings is the ranking of all
    points. *)

From Stdlib Require Import SpecFloat.
From stdpp Require Import prelude list sorting gmap strings pretty.
From S2P Require Import Prelude Bytes WalWriter CqSchedule QueryAst Selectors Json QueryMerge QueryMergeTheorems.
From stdpp Require Import options.

#[local] Open Scope Z_scope.

(** ** Definitions *)

Definition BUCKET_COL : string := "__bucket".
Definition TIME_NS_COL : string := "__tns".

(** [f64::total_cmp]: the sign and the order of the encodings. *)
Definition total_rank (f : f64) : Z * Z * Z :=
  match f with
  | S754_infinity true => (-2, 0, 0)
  | S754_finite true m e => (-1, - e, Z.neg m)
  | S754_zero true => (0, 0, 0)
  | S754_zero false => (1, 0, 0)
  | S754_finite false m e => (2, e, Z.pos m)
  | S754_infinity false => (3, 0, 0)
  | S754_nan => (4, 0, 0)
  end.

Definition rank_compare (a b : Z * Z * Z) : comparison :=
  let '(a1, a2, a3) := a in
  let '(b1, b2, b3) := b in
  match a1 ?= b1 with
  | Eq => match a2 ?= b2 with Eq => a3 ?= b3 | c => c end
  | c => c
  end.

Definition total_cmp (a b : f64) : comparison := rank_compare (total_rank a) (total_rank b).

Definition then_with (c d : comparison) : comparison := match c with Eq => d | _ => c end.

(** A missing value is less than every value. *)
Definition by_value (a b : option f64) : comparison :=
  match a, b with
  | Some x, Some y => total_cmp x y
  | Some _, None => Gt
  | None, Some _ => Lt
  | None, None => Eq
  end.

Definition num_at (i : nat) (row : list Value) : option f64 := row !! i ≫= value_as_f64.
Definition int_at (i : nat) (row : list Value) : Z := default 0 (row !! i ≫= value_as_i64).

(** The order of the rows of a group. *)
Definition row_compare (kind : SelectorKind) (value tns : nat) (a b : list Value) : comparison :=
  let c := by_value (num_at value a) (num_at value b) in
  then_with (if bool_decide (kind = Top) then CompOpp c else c) (int_at tns a ?= int_at tns b).

Definition row_leb (kind : SelectorKind) (value tns : nat) (a b : list Value) : bool :=
  match row_compare kind value tns a b with Gt => false | _ => true end.

(** [retain] of the first row of each key. *)
Fixpoint first_of_key {A} (key : A -> string) (seen : gset string) (l : list A) : list A :=
  match l with
  | [] => []
  | x :: l' => if bool_decide (key x ∈ seen) then first_of_key key seen l'
               else x :: first_of_key key ({[ key x ]} ∪ seen) l'
  end.

(** Columns of a series the ranking reads. *)
Record RankCols := mkRankCols { rc_bucket : nat; rc_tns : nat; rc_value : nat; rc_tags : list nat }.

Definition rank_cols (sel : MultiSelector) (cols : list string) : option RankCols :=
  b ← column_index cols BUCKET_COL;
  t ← column_index cols TIME_NS_COL;
  v ← column_index cols (ms_output sel);
  Some (mkRankCols b t v (omap (column_index cols) (ms_tags sel))).

Section Rerank.
(** [RandomState::hash_one] of a time. *)
Context `{QT : !QueryText} (hash_one : Z -> N).

Definition tag_key (tag_cols : list nat) (row : list Value) : string :=
  value_text (VArray ((fun i => default VNull (row !! i)) <$> tag_cols)).

(** The rows a group keeps. *)
Definition rank_group (sel : MultiSelector) (c : RankCols) (rows : list (list Value)) : list (list Value) :=
  take (N.to_nat (ms_n sel))
    match ms_kind sel with
    | Sampled => sort_by (fun a b => N.leb (hash_one (int_at (rc_tns c) a)) (hash_one (int_at (rc_tns c) b))) rows
    | kind =>
      let sorted := sort_by (row_leb kind (rc_value c) (rc_tns c)) rows in
      if bool_decide (rc_tags c = []) then sorted else first_of_key (tag_key (rc_tags c)) ∅ sorted
    end.

(** The groups of a series, in the order their bucket appears. *)
Fixpoint group_rows (bucket : list Value -> Z) (seen : gset Z) (rows : list (list Value)) : list Z :=
  match rows with
  | [] => []
  | row :: rest => if bool_decide (bucket row ∈ seen) then group_rows bucket seen rest
                   else bucket row :: group_rows bucket ({[ bucket row ]} ∪ seen) rest
  end.

(** The kept rows of every group. *)
Definition select_rows (sel : MultiSelector) (c : RankCols) (rows : list (list Value)) : list (list Value) :=
  let bucket := int_at (rc_bucket c) in
  concat ((fun b => rank_group sel c (List.filter (fun r => bucket r =? b) rows)) <$> group_rows bucket ∅ rows).

Definition key_of_series (s : SeriesResult) : string * list (string * string) := (sr_name s, tag_pairs (sr_tags s)).

(** The rows of a series in the columns of another. *)
Definition aligned_rows (into s : SeriesResult) : list (list Value) :=
  let at_ := column_index (sr_columns s) <$> sr_columns into in
  (fun row => (fun i => match i with Some i => default VNull (row !! i) | None => VNull end) <$> at_) <$> sr_values s.

(** The same series from several regions becomes one. *)
Fixpoint add_series (merged : list SeriesResult) (s : SeriesResult) : list SeriesResult :=
  match merged with
  | [] => [s]
  | into :: rest =>
    if bool_decide (key_of_series into = key_of_series s) then set_values (sr_values into ++ aligned_rows into s) into :: rest
    else into :: add_series rest s
  end.

Definition is_hidden (c : string) : bool := bool_decide (c = BUCKET_COL) || bool_decide (c = TIME_NS_COL).

Definition strip_series (s : SeriesResult) : SeriesResult :=
  let keep := List.filter (fun i => match sr_columns s !! i with Some c => negb (is_hidden c) | None => false end)
                (seq 0 (length (sr_columns s))) in
  if Nat.eqb (length keep) (length (sr_columns s)) then s
  else
    set_values ((fun row => (fun i => default VNull (row !! i)) <$> keep) <$> sr_values s)
      (set_columns ((fun i => default EmptyString (sr_columns s !! i)) <$> keep) s).

Definition strip_hidden (series : list SeriesResult) : list SeriesResult := map strip_series series.

(** One series, ranked again; [None] when nothing is left of it. *)
Definition rerank_series (sel : MultiSelector) (stmt : SelectStatement) (s : SeriesResult) : option SeriesResult :=
  match rank_cols sel (sr_columns s) with
  | None => Some s
  | Some c =>
    let desc := default false (sel_order_by stmt) in
    let time := int_at (rc_tns c) in
    let kept := sort_by (fun a b => if desc then time b <=? time a else time a <=? time b)
                  (select_rows sel c (sr_values s)) in
    let rows := limit_rows (sel_limit stmt) (sel_offset stmt) kept in
    if bool_decide (rows = []) then None else Some (set_values rows s)
  end.

Definition rerank (sel : MultiSelector) (stmt : SelectStatement) (series : list SeriesResult) : list SeriesResult :=
  strip_hidden (omap (rerank_series sel stmt) (fold_left add_series series [])).
End Rerank.

(** What a selector keeps of the rows of a bucket: at most [n] of them, in
    order and with distinct tags, and every other row comes after a kept row
    with its tags, or after [n] kept rows. *)
Definition best_of `{QT : !QueryText} (sel : MultiSelector) (c : RankCols) (rows kept : list (list Value)) : Prop :=
  let leb := row_leb (ms_kind sel) (rc_value c) (rc_tns c) in
  let n := N.to_nat (ms_n sel) in
  (length kept <= n)%nat /\ StronglySorted (le_of leb) kept /\
  (rc_tags c <> [] -> NoDup (tag_key (rc_tags c) <$> kept)) /\
  exists rest, rows ≡ₚ kept ++ rest /\
    forall r, r ∈ rest ->
      (rc_tags c <> [] /\ exists k, k ∈ kept /\ tag_key (rc_tags c) k = tag_key (rc_tags c) r /\ leb k r = true) \/
      (length kept = n /\ forall k, k ∈ kept -> leb k r = true).

(** ** First rows of each key *)

Section Firsts.
Context {A : Type} (key : A -> string).

#[local] Abbreviation firsts := (first_of_key key).

Lemma firsts_elem S l x : x ∈ firsts S l -> x ∈ l /\ key x ∉ S.
Proof.
  revert S. induction l as [|y l IH]; intros S; cbn; [by intros ?%elem_of_nil|]. case_bool_decide as E.
  - intros [? ?]%IH. split; [by right|done].
  - intros [-> |[? ?]%IH]%elem_of_cons; [split; [by left|done]|]. split; [by right|set_solver].
Qed.

Lemma firsts_sorted (R : A -> A -> Prop) S l : StronglySorted R l -> StronglySorted R (firsts S l).
Proof.
  intros H. revert S. induction H as [|x l Hl IH Hx]; intros S; cbn; [constructor|]. case_bool_decide; [done|].
  constructor; [done|]. rewrite Forall_forall in *. intros y [Hy _]%firsts_elem. by apply Hx.
Qed.

Lemma firsts_NoDup S l : NoDup (key <$> firsts S l).
Proof.
  revert S. induction l as [|x l IH]; intros S; cbn; [constructor|]. case_bool_decide; [done|]. rewrite fmap_cons.
  constructor; [|done]. intros (y & E & [_ Hy]%firsts_elem)%list_elem_of_fmap. set_solver.
Qed.

Lemma firsts_id S l : NoDup (key <$> l) -> (forall x, x ∈ l -> key x ∉ S) -> firsts S l = l.
Proof.
  revert S. induction l as [|x l IH]; intros S; [done|]. rewrite fmap_cons, NoDup_cons. intros [Hx Hl] Hs. cbn.
  rewrite bool_decide_false by (apply Hs; by left). f_equal. apply IH; [done|]. intros y Hy [E|Hin]%elem_of_union.
  - apply Hx. apply list_elem_of_fmap. exists y. set_solver.
  - by apply (Hs y); [right|].
Qed.

Definition best (n : nat) (l : list A) : list A := take n (firsts ∅ l).

Lemma best_idem n l : best n (best n l) = best n l.
Proof.
  unfold best. rewrite (firsts_id ∅ (take n _)); [by rewrite take_take, Nat.min_id|rewrite fmap_take; eapply sublist_NoDup; [apply firsts_NoDup|apply sublist_take]|set_solver].
Qed.

Lemma firsts_take_elem m S l x : x ∈ take m (firsts S l) -> x ∈ l.
Proof. intros H. apply subseteq_take in H. by apply firsts_elem in H as [? _]. Qed.
End Firsts.

(** Keys seen in a merge and not in a part. *)
Lemma size_diff_add (S S' : gset string) (k : string) : (size (({[ k ]} ∪ S) ∖ S') <= 1 + size (S ∖ S'))%nat.
Proof.
  etrans; [apply (subseteq_size _ ({[ k ]} ∪ S ∖ S')); set_solver|]. rewrite size_union_alt, size_singleton.
  pose proof (subseteq_size (S ∖ S' ∖ {[ k ]}) (S ∖ S')). set_solver by lia.
Qed.

Lemma size_diff_drop (S S' : gset string) (k : string) :
  k ∈ S -> k ∉ S' -> (size (S ∖ ({[ k ]} ∪ S')) + 1 <= size (S ∖ S'))%nat.
Proof.
  intros HS HS'. assert (S ∖ S' = {[ k ]} ∪ S ∖ ({[ k ]} ∪ S')) as ->.
  { apply leibniz_equiv. intros x. destruct (decide (x = k)); set_solver. }
  pose proof (size_union ({[ k ]} : gset string) (S ∖ ({[ k ]} ∪ S')) ltac:(set_solver)) as H. rewrite size_singleton in H. lia.
Qed.

Lemma size_diff_both (S S' : gset string) (k : string) : (size (({[ k ]} ∪ S) ∖ ({[ k ]} ∪ S')) <= size (S ∖ S'))%nat.
Proof. apply subseteq_size. set_solver. Qed.

Section Ranking.
Context {A : Type} (leb : A -> A -> bool) (key : A -> string).
Context (leb_total : forall x y, leb x y = true \/ leb y x = true).
Context (leb_trans : forall x y z, leb x y = true -> leb y z = true -> leb x z = true).

#[local] Abbreviation firsts := (first_of_key key).
#[local] Abbreviation merge l t := (foldr (insert_by leb) t l).
#[local] Abbreviation sorted := (StronglySorted (le_of leb)).

(** A merge starts with the head of a part. *)
Lemma merge_head l t :
  sorted l -> sorted t ->
  (l = [] /\ t = []) \/ (exists x l1, l = x :: l1 /\ forall z, z ∈ t -> leb x z = true) \/
  (exists y t1, t = y :: t1 /\ forall z, z ∈ l -> leb z y = false).
Proof using key leb_total leb_trans.
  intros Hl Ht. destruct l as [|x l], t as [|y t]; [by left|right; right; exists y, t; set_solver|right; left; exists x, l; set_solver|].
  right. pose proof (StronglySorted_inv Hl) as [_ Hx]. pose proof (StronglySorted_inv Ht) as [_ Hy].
  rewrite Forall_forall in Hx, Hy. destruct (leb x y) eqn:E; [left; exists x, l|right; exists y, t]; (split; [done|]).
  - intros z [-> |Hz]%elem_of_cons; [done|]. eapply leb_trans; [exact E|by apply Hy].
  - intros z [-> |Hz]%elem_of_cons; [done|]. apply not_true_is_false. intros Hc. apply Hx in Hz. unfold le_of in Hz.
    by rewrite (leb_trans _ _ _ Hz Hc) in E.
Qed.

(** The best of a merge are found among the best of its parts. The sets are
    the keys seen in the merge and in each part. *)
Lemma firsts_merge_parts sz l t (S S1 S2 : gset string) m p k :
  (length l + length t <= sz)%nat -> sorted l -> sorted t -> S1 ⊆ S -> S2 ⊆ S ->
  (k + size (S ∖ S1) <= m)%nat -> (k + size (S ∖ S2) <= p)%nat ->
  take k (firsts S (merge (take m (firsts S1 l)) (take p (firsts S2 t)))) = take k (firsts S (merge l t)).
Proof using leb_total leb_trans.
  revert l t S S1 S2 m p k. induction sz as [|sz IH]; intros l t S S1 S2 m p k Hsz Hl Ht HS1 HS2 Hm Hp.
  { destruct l, t; cbn in Hsz; try lia. cbn [first_of_key]. by rewrite (take_nil m), (take_nil p). }
  assert (forall m S l, sorted l -> sorted (take m (firsts S l))) as Hsort by (intros; by apply StronglySorted_take, firsts_sorted).
  destruct (merge_head l t Hl Ht) as [[-> ->]|[(x & l1 & -> & Hx)|(y & t1 & -> & Hy)]]; [cbn [first_of_key]; by rewrite (take_nil m), (take_nil p)| |].
  - rewrite (foldr_insert_head leb x l1 t) by done. apply StronglySorted_inv in Hl as [Hl1 Hxl]. cbn [length] in Hsz.
    cbn [first_of_key]. case_bool_decide as E1.
    { rewrite (bool_decide_true (key x ∈ S)) by set_solver. apply IH; try done; lia. }
    destruct m as [|m]; [replace k with 0%nat by lia; done|]. cbn [take].
    rewrite (foldr_insert_head leb x); [| |by apply Hsort|intros z Hz%firsts_take_elem; by apply Hx].
    2: { constructor; [by apply Hsort|]. rewrite Forall_forall in *. intros z Hz%firsts_take_elem. by apply Hxl. }
    cbn [first_of_key]. case_bool_decide as E.
    + pose proof (size_diff_drop S S1 (key x) E E1). apply IH; try done; [lia|set_solver|lia].
    + destruct k as [|k]; [done|]. cbn [take]. f_equal. pose proof (size_diff_both S S1 (key x)).
      pose proof (size_diff_add S S2 (key x)). apply IH; try done; [lia|set_solver|set_solver|lia|lia].
  - rewrite (foldr_insert_tail leb y l t1) by done. apply StronglySorted_inv in Ht as [Ht1 Hyt]. cbn [length] in Hsz.
    cbn [first_of_key]. case_bool_decide as E1.
    { rewrite (bool_decide_true (key y ∈ S)) by set_solver. apply IH; try done; lia. }
    destruct p as [|p]; [replace k with 0%nat by lia; done|]. cbn [take].
    rewrite (foldr_insert_tail leb y) by (intros z Hz%firsts_take_elem; by apply Hy).
    cbn [first_of_key]. case_bool_decide as E.
    + pose proof (size_diff_drop S S2 (key y) E E1). apply IH; try done; [lia|set_solver|lia].
    + destruct k as [|k]; [done|]. cbn [take]. f_equal. pose proof (size_diff_both S S2 (key y)).
      pose proof (size_diff_add S S1 (key y)). apply IH; try done; [lia|set_solver|set_solver|lia|lia].
Qed.

Lemma best_merge n l t : sorted l -> sorted t -> best key n (merge (best key n l) (best key n t)) = best key n (merge l t).
Proof using leb_total leb_trans.
  intros Hl Ht. unfold best. apply (firsts_merge_parts (length l + length t)); try done; rewrite difference_diag_L, size_empty; lia.
Qed.

(** A row that is not the first of its key has an earlier one that is. *)
Lemma firsts_rest S l :
  sorted l ->
  exists rest, l ≡ₚ firsts S l ++ rest /\
    forall r, r ∈ rest -> key r ∈ S \/ exists k, k ∈ firsts S l /\ key k = key r /\ leb k r = true.
Proof using Type.
  intros Hl. revert S. induction Hl as [|x l Hl IH Hx]; intros S; [exists []; split; [done|by intros ? ?%elem_of_nil]|].
  rewrite Forall_forall in Hx. cbn [first_of_key]. case_bool_decide as E.
  - destruct (IH S) as (rest & Hp & Hr). exists (x :: rest). split; [rewrite <-Permutation_middle; by constructor|].
    intros r [-> |Hin]%elem_of_cons; [by left|by apply Hr].
  - destruct (IH ({[ key x ]} ∪ S)) as (rest & Hp & Hr). exists rest. split; [cbn; by constructor|].
    intros r Hin. destruct (Hr r Hin) as [[Ek%elem_of_singleton|]%elem_of_union|(k & Hk & ? & ?)]; [|by left|].
    + right. exists x. split; [by left|]. split; [done|]. apply Hx. rewrite Hp. apply elem_of_app. by right.
    + right. exists k. split; [by right|done].
Qed.

(** What is cut from a sorted list comes after everything that is kept. *)
Lemma take_rest n l r : sorted l -> r ∈ drop n l -> length (take n l) = n /\ forall k, k ∈ take n l -> leb k r = true.
Proof using Type.
  intros Hs Hr. split.
  - rewrite length_take. destruct (decide (n <= length l)%nat); [lia|]. rewrite drop_ge in Hr by lia. by apply elem_of_nil in Hr.
  - revert n Hr. induction Hs as [|x l Hs IH Hx]; intros [|n] Hr k Hk; cbn in *; try (by apply elem_of_nil in Hk).
    rewrite Forall_forall in Hx. apply elem_of_cons in Hk as [-> |Hk]; [apply Hx; by apply (subseteq_drop n l)|by eapply IH].
Qed.

Lemma best_rest n l :
  sorted l ->
  exists rest, l ≡ₚ best key n l ++ rest /\
    forall r, r ∈ rest -> (exists k, k ∈ best key n l /\ key k = key r /\ leb k r = true) \/
      (length (best key n l) = n /\ forall k, k ∈ best key n l -> leb k r = true).
Proof using leb_trans.
  intros Hs. destruct (firsts_rest ∅ l Hs) as (rest & Hp & Hr). unfold best.
  pose proof (firsts_sorted key _ ∅ l Hs) as Hf. exists (drop n (firsts ∅ l) ++ rest).
  split; [by rewrite app_assoc, take_drop|]. intros r [Hin|Hin]%elem_of_app; [right; by apply take_rest|].
  destruct (Hr r Hin) as [?%elem_of_empty|(k & Hk & Ek & Hle)]; [done|].
  rewrite <-(take_drop n (firsts ∅ l)) in Hk. apply elem_of_app in Hk as [Hk|Hk]; [left; by exists k|right].
  destruct (take_rest n _ k Hf Hk) as [? Hall]. split; [done|]. intros j Hj. eapply leb_trans; [by apply Hall|done].
Qed.

(** The best of everything are found among the best of each part. *)
Lemma best_parts n ls :
  best key n (sort_by leb (concat ((fun l => best key n (sort_by leb l)) <$> ls))) = best key n (sort_by leb (concat ls)).
Proof using leb_total leb_trans.
  assert (forall l, sorted (sort_by leb l)) as Hs by (intros; by apply sort_by_sorted).
  induction ls as [|l ls IH]; [done|]. rewrite fmap_cons. cbn [concat]. rewrite !sort_by_app by done.
  assert (sorted (best key n (sort_by leb l))) as Hb by by apply StronglySorted_take, firsts_sorted.
  rewrite (sort_by_id leb (best key n (sort_by leb l))) by done.
  rewrite <-(best_merge n (best key n _)), best_idem, IH by done. by apply best_merge.
Qed.
End Ranking.

(** ** The order of rows *)

(** The place of a row in the order of a selector: the rank of its value,
    then its time. *)
Definition row_rank (kind : SelectorKind) (value tns : nat) (row : list Value) : Z * Z * Z * Z :=
  let '(a, b, c) := match num_at value row with Some x => total_rank x | None => (-3, 0, 0) end in
  if bool_decide (kind = Top) then (- a, - b, - c, int_at tns row) else (a, b, c, int_at tns row).

Definition rank_before (x y : Z * Z * Z * Z) : Prop :=
  let '(x1, x2, x3, x4) := x in
  let '(y1, y2, y3, y4) := y in
  x1 < y1 \/ (x1 = y1 /\ (x2 < y2 \/ (x2 = y2 /\ (x3 < y3 \/ (x3 = y3 /\ x4 <= y4))))).

Lemma row_leb_spec kind value tns a b :
  row_leb kind value tns a b = true <-> rank_before (row_rank kind value tns a) (row_rank kind value tns b).
Proof.
  unfold row_leb, row_compare, row_rank, by_value, total_cmp.
  set (ra := match num_at value a with Some x => total_rank x | None => (-3, 0, 0) end).
  set (rb := match num_at value b with Some x => total_rank x | None => (-3, 0, 0) end).
  assert (forall x, -2 <= (total_rank x).1.1) as Hr by (intros [[]|[]| |[] ? ?]; cbn; lia).
  assert (match num_at value a, num_at value b with
          | Some x, Some y => rank_compare (total_rank x) (total_rank y)
          | Some _, None => Gt | None, Some _ => Lt | None, None => Eq end = rank_compare ra rb) as ->.
  { subst ra rb. destruct (num_at value a) as [x|], (num_at value b) as [y|]; try done.
    - specialize (Hr x). destruct (total_rank x) as [[x1 x2] x3]. cbn [fst] in Hr. unfold rank_compare. by destruct (Z.compare_spec x1 (-3)); [lia..|].
    - specialize (Hr y). destruct (total_rank y) as [[y1 y2] y3]. cbn [fst] in Hr. unfold rank_compare. by destruct (Z.compare_spec (-3) y1); [lia|..|lia]. }
  destruct ra as [[a1 a2] a3], rb as [[b1 b2] b3]. cbn [rank_compare].
  destruct (bool_decide (kind = Top)); cbn [rank_before];
    destruct (Z.compare_spec a1 b1); cbn [CompOpp then_with]; try (split; intros; (done || lia));
    destruct (Z.compare_spec a2 b2); cbn [CompOpp then_with]; try (split; intros; (done || lia));
    destruct (Z.compare_spec a3 b3); cbn [CompOpp then_with]; try (split; intros; (done || lia));
    destruct (Z.compare_spec (int_at tns a) (int_at tns b)); split; intros; (done || lia).
Qed.

Lemma row_leb_total kind value tns a b : row_leb kind value tns a b = true \/ row_leb kind value tns b a = true.
Proof.
  rewrite !row_leb_spec. destruct (row_rank kind value tns a) as [[[? ?] ?] ?], (row_rank kind value tns b) as [[[? ?] ?] ?].
  cbn. lia.
Qed.

Lemma row_leb_trans kind value tns a b c :
  row_leb kind value tns a b = true -> row_leb kind value tns b c = true -> row_leb kind value tns a c = true.
Proof.
  rewrite !row_leb_spec. destruct (row_rank kind value tns a) as [[[? ?] ?] ?], (row_rank kind value tns b) as [[[? ?] ?] ?],
    (row_rank kind value tns c) as [[[? ?] ?] ?]. cbn. lia.
Qed.

(** ** Groups *)

Section Buckets.
Context (bucket : list Value -> Z).

#[local] Abbreviation in_bucket b := (List.filter (fun r => bucket r =? b)).

Lemma group_rows_elem seen rows b : b ∈ group_rows bucket seen rows <-> ((b ∉ seen) /\ exists r, r ∈ rows /\ bucket r = b).
Proof.
  revert seen. induction rows as [|r rows IH]; intros seen; cbn; [set_solver|]. case_bool_decide as E; [|rewrite elem_of_cons]; rewrite IH.
  - set_solver.
  - destruct (decide (b = bucket r)) as [-> |]; set_solver.
Qed.

Lemma group_rows_NoDup seen rows : NoDup (group_rows bucket seen rows).
Proof.
  revert seen. induction rows as [|r rows IH]; intros seen; cbn; [constructor|]. case_bool_decide; [done|].
  constructor; [|done]. rewrite group_rows_elem. set_solver.
Qed.

Lemma in_bucket_none b rows : (forall r, r ∈ rows -> bucket r <> b) -> in_bucket b rows = [].
Proof.
  induction rows as [|r rows IH]; intros H; [done|]. cbn. destruct (Z.eqb_spec (bucket r) b) as [E|E].
  - by destruct (H r); [left|].
  - apply IH. intros r' Hr'. apply H. by right.
Qed.

Lemma in_bucket_all b rows : (forall r, r ∈ rows -> bucket r = b) -> in_bucket b rows = rows.
Proof.
  induction rows as [|r rows IH]; intros H; [done|]. cbn. rewrite (proj2 (Z.eqb_eq _ _)) by (apply H; by left).
  f_equal. apply IH. intros r' Hr'. apply H. by right.
Qed.

Lemma in_bucket_elem b rows r : r ∈ in_bucket b rows <-> r ∈ rows /\ bucket r = b.
Proof. rewrite !list_elem_of_In, filter_In. by rewrite Z.eqb_eq. Qed.
End Buckets.

Section Groups.
Context `{QT : !QueryText} (hash_one : Z -> N) (sel : MultiSelector) (c : RankCols).

#[local] Abbreviation bucket := (int_at (rc_bucket c)).
#[local] Abbreviation rank := (rank_group hash_one sel c).
#[local] Abbreviation in_bucket b := (List.filter (fun r => bucket r =? b)).

(** Ranking the rankings of parts ranks everything. *)
Lemma rank_parts ls : ms_kind sel <> Sampled -> rank (concat (rank <$> ls)) = rank (concat ls).
Proof.
  intros Hk. unfold rank_group. set (n := N.to_nat (ms_n sel)).
  assert (forall kind, let leb := row_leb kind (rc_value c) (rc_tns c) in let key := tag_key (rc_tags c) in
    take n (sort_by leb (concat ((fun l => take n (sort_by leb l)) <$> ls))) = take n (sort_by leb (concat ls)) /\
    best key n (sort_by leb (concat ((fun l => best key n (sort_by leb l)) <$> ls))) = best key n (sort_by leb (concat ls))) as H.
  { intros kind leb key. split; [apply take_sort_parts|apply best_parts]; [apply row_leb_total|apply row_leb_trans..|apply row_leb_total|apply row_leb_trans]. }
  unfold best in H. destruct (ms_kind sel); [| |done]; case_bool_decide; apply H.
Qed.

Lemma rank_best rows : ms_kind sel <> Sampled -> best_of sel c rows (rank rows).
Proof.
  intros Hk. unfold best_of, rank_group. set (leb := row_leb (ms_kind sel) (rc_value c) (rc_tns c)).
  assert (forall x y, leb x y = true \/ leb y x = true) as Ht by (intros; apply row_leb_total).
  assert (forall x y z, leb x y = true -> leb y z = true -> leb x z = true) as Htr by (intros ? ? ?; apply row_leb_trans).
  pose proof (sort_by_sorted leb Ht Htr rows) as Hs. pose proof (sort_by_Permutation leb rows) as Hp.
  set (n := N.to_nat (ms_n sel)). set (key := tag_key (rc_tags c)).
  replace (match ms_kind sel with Sampled => _ | _ => _ end) with
    (if bool_decide (rc_tags c = []) then sort_by leb rows else first_of_key key ∅ (sort_by leb rows))
    by (subst leb; by destruct (ms_kind sel)).
  case_bool_decide as E.
  - split; [rewrite length_take; lia|]. split; [by apply StronglySorted_take|]. split; [done|].
    exists (drop n (sort_by leb rows)). rewrite take_drop. split; [done|]. intros r Hr. right. by apply take_rest.
  - split; [rewrite length_take; lia|]. split; [by apply StronglySorted_take, firsts_sorted|]. split.
    + intros _. rewrite fmap_take. eapply sublist_NoDup; [apply (firsts_NoDup key)|apply sublist_take].
    + destruct (best_rest leb key Htr n (sort_by leb rows) Hs) as (rest & Hrest & Hr). exists rest.
      split; [etrans; [symmetry; exact Hp|exact Hrest]|]. intros r Hin. destruct (Hr r Hin); [by left|by right].
Qed.

Lemma rank_elem rows r : r ∈ rank rows -> r ∈ rows.
Proof.
  unfold rank_group. intros H%subseteq_take. destruct (ms_kind sel); [| |by apply sort_by_elem_of in H];
    case_bool_decide; try apply firsts_elem in H as [H _]; by apply sort_by_elem_of in H.
Qed.

Lemma rank_nonempty rows : (1 <= ms_n sel)%N -> rows <> [] -> rank rows <> [].
Proof.
  intros Hn Hr. unfold rank_group. destruct (N.to_nat (ms_n sel)) as [|n] eqn:E; [lia|].
  assert (forall leb : list Value -> list Value -> bool, sort_by leb rows <> []) as Hs.
  { intros leb Hs. apply Hr. apply (f_equal length) in Hs. rewrite sort_by_length in Hs. by apply length_zero_iff_nil. }
  destruct (ms_kind sel); [| |]; try case_bool_decide; destruct (sort_by _ rows) eqn:Es; cbn; try done; by apply Hs in Es.
Qed.

(** A bucket of the selection is the ranking of the bucket. *)
Lemma select_rows_bucket b rows : in_bucket b (select_rows hash_one sel c rows) = rank (in_bucket b rows).
Proof.
  unfold select_rows. assert (forall bs, NoDup bs ->
    in_bucket b (concat ((fun b => rank (in_bucket b rows)) <$> bs)) = if decide (b ∈ bs) then rank (in_bucket b rows) else []) as H.
  { induction bs as [|b' bs IH]; [done|]. rewrite NoDup_cons, fmap_cons. intros [Hb Hbs]. cbn [concat]. rewrite List.filter_app, IH by done.
    destruct (decide (b' = b)) as [-> |Hne].
    - rewrite in_bucket_all by (intros r Hr%rank_elem%in_bucket_elem; tauto). rewrite decide_False by done.
      rewrite decide_True by (by left). by rewrite app_nil_r.
    - rewrite in_bucket_none by (intros r [_ Hr]%rank_elem%in_bucket_elem; congruence). cbn [app].
      destruct (decide (b ∈ bs)); [rewrite decide_True by (by right)|rewrite decide_False by set_solver]; done. }
  rewrite H by apply group_rows_NoDup. destruct (decide _) as [_|Hb]; [done|].
  rewrite in_bucket_none; [|rewrite group_rows_elem in Hb; set_solver]. unfold rank_group.
  destruct (ms_kind sel); try case_bool_decide; cbn; by rewrite take_nil.
Qed.

Lemma select_rows_elem r rows : r ∈ select_rows hash_one sel c rows -> r ∈ rows.
Proof.
  unfold select_rows. rewrite list_elem_of_In, in_concat. intros (l & Hl & Hr). apply list_elem_of_In in Hl. apply list_elem_of_In in Hr.
  apply list_elem_of_fmap in Hl as (b & -> & _). by apply rank_elem, in_bucket_elem in Hr as [? _].
Qed.
End Groups.

(** ** Blocks without ties *)

Section Blocks.
Context {A B : Type} (leb : A -> A -> bool) (f : B -> list A).
Context (leb_total : forall x y, leb x y = true \/ leb y x = true).
Context (leb_trans : forall x y z, leb x y = true -> leb y z = true -> leb x z = true).

(** No element of one list is tied with one of the other. *)
Definition untied (l1 l2 : list A) : Prop :=
  forall x y, x ∈ l1 -> y ∈ l2 -> leb x y = false \/ leb y x = false.

Lemma insert_untied_comm x y l :
  leb x y = false \/ leb y x = false -> insert_by leb x (insert_by leb y l) = insert_by leb y (insert_by leb x l).
Proof using leb_total leb_trans. intros [H|H]; [|symmetry]; by apply insert_by_strict_comm. Qed.

Lemma foldr_insert_untied x l t :
  (forall y, y ∈ l -> leb x y = false \/ leb y x = false) ->
  insert_by leb x (foldr (insert_by leb) t l) = foldr (insert_by leb) (insert_by leb x t) l.
Proof using leb_total leb_trans.
  induction l as [|y l IH]; intros H; cbn; [done|]. rewrite insert_untied_comm by (apply H; by left). f_equal. apply IH.
  intros z Hz. apply H. by right.
Qed.

Lemma foldr_blocks_comm l1 l2 t :
  untied l1 l2 -> foldr (insert_by leb) (foldr (insert_by leb) t l2) l1 = foldr (insert_by leb) (foldr (insert_by leb) t l1) l2.
Proof using leb_total leb_trans.
  intros H. induction l1 as [|x l1 IH]; cbn; [done|]. rewrite IH by (intros a b Ha Hb; apply H; [by right|done]).
  apply foldr_insert_untied. intros y Hy. apply H; [by left|done].
Qed.

(** Sorting does not see the order of untied blocks. *)
Lemma sort_blocks_Permutation bs bs' :
  bs ≡ₚ bs' -> NoDup bs -> (forall b b', b ∈ bs -> b' ∈ bs -> b <> b' -> untied (f b) (f b')) ->
  sort_by leb (concat (f <$> bs)) = sort_by leb (concat (f <$> bs')).
Proof using leb_total leb_trans.
  unfold sort_by. induction 1 as [|b bs bs' Hp IH|b b' bs|bs bs' bs'' Hp IH Hp' IH']; intros Hd H; [done|..].
  - rewrite !fmap_cons. cbn [concat]. rewrite !foldr_app. apply NoDup_cons in Hd as [_ Hd]. f_equal. apply IH; [done|].
    intros x y Hx Hy. apply H; by right.
  - rewrite !fmap_cons. cbn [concat]. rewrite !foldr_app. apply foldr_blocks_comm. apply H; [by left|by right; left|].
    apply NoDup_cons in Hd as [Hd _]. set_solver.
  - rewrite IH by done. apply IH'; [by rewrite <-Hp|]. intros x y. rewrite <-Hp. apply H.
Qed.
End Blocks.

(** ** Regions *)

Lemma column_index_NoDup cols j c : NoDup cols -> cols !! j = Some c -> column_index cols c = Some j.
Proof.
  unfold column_index. revert j. induction cols as [|c' cols IH]; intros [|j]; [done|done| |]; rewrite NoDup_cons; cbn; intros [Hn Hd] H.
  - injection H as ->. by rewrite bool_decide_true.
  - rewrite bool_decide_false by (intros ->; apply Hn; by eapply list_elem_of_lookup_2). by rewrite (IH j).
Qed.

Lemma aligned_same_columns h s rows :
  sr_columns s = sr_columns h -> NoDup (sr_columns h) -> (forall row, row ∈ rows -> length row = length (sr_columns h)) ->
  aligned_rows h (set_values rows s) = rows.
Proof.
  intros Hc Hd Hl. unfold aligned_rows. cbn [sr_columns sr_values set_values]. rewrite Hc.
  rewrite <-(list_fmap_id rows) at 2. apply list_fmap_ext. intros i row Hi. specialize (Hl row (list_elem_of_lookup_2 _ _ _ Hi)).
  apply list_eq. intros j. rewrite !list_lookup_fmap.
  destruct (sr_columns h !! j) as [col|] eqn:Ej; cbn.
  - rewrite (column_index_NoDup _ _ _ Hd Ej). destruct (row !! j) as [v|] eqn:Er; [done|].
    apply lookup_ge_None in Er. apply lookup_lt_Some in Ej. lia.
  - symmetry. apply lookup_ge_None. rewrite Hl. by apply lookup_ge_None in Ej.
Qed.

Lemma add_region_series h rows0 regions :
  NoDup (sr_columns h) -> (forall row, row ∈ concat regions -> length row = length (sr_columns h)) ->
  fold_left add_series ((fun rows => set_values rows h) <$> regions) [set_values rows0 h] = [set_values (rows0 ++ concat regions) h].
Proof.
  intros Hd. revert rows0. induction regions as [|r regions IH]; intros rows0 Hl; [cbn; by rewrite app_nil_r|].
  rewrite fmap_cons. cbn [fold_left concat] in *. unfold add_series at 2. rewrite bool_decide_true by done.
  rewrite aligned_same_columns; [|done|done|intros row Hr; apply Hl; apply elem_of_app; by left].
  cbn [sr_values set_values]. change (set_values ?v (set_values ?w h)) with (set_values v h).
  rewrite IH by (intros row Hr; apply Hl; apply elem_of_app; by right). by rewrite app_assoc.
Qed.

Section Regions.
Context `{QT : !QueryText} (hash_one : Z -> N) (sel : MultiSelector) (c : RankCols).

#[local] Abbreviation bucket := (int_at (rc_bucket c)).
#[local] Abbreviation select := (select_rows hash_one sel c).

Lemma concat_bucket b ls : List.filter (fun r => bucket r =? b) (concat ls) = concat (List.filter (fun r => bucket r =? b) <$> ls).
Proof. induction ls as [|l ls IH]; [done|]. rewrite fmap_cons. cbn [concat]. by rewrite List.filter_app, IH. Qed.

Lemma select_regions_bucket b regions :
  ms_kind sel <> Sampled ->
  rank_group hash_one sel c (List.filter (fun r => bucket r =? b) (concat (select <$> regions)))
  = rank_group hash_one sel c (List.filter (fun r => bucket r =? b) (concat regions)).
Proof.
  intros Hk. rewrite !concat_bucket, <-list_fmap_compose. rewrite <-(rank_parts hash_one sel c (List.filter (fun r => bucket r =? b) <$> regions)) by done.
  rewrite <-list_fmap_compose. do 2 f_equal. apply list_fmap_ext. intros i rows _. cbn. apply select_rows_bucket.
Qed.

Lemma group_rows_regions regions :
  (1 <= ms_n sel)%N -> group_rows bucket ∅ (concat (select <$> regions)) ≡ₚ group_rows bucket ∅ (concat regions).
Proof.
  intros Hn. apply NoDup_Permutation; [apply group_rows_NoDup..|]. intros b. rewrite !group_rows_elem.
  split; intros [_ (r & Hr & Hb)]; (split; [set_solver|]); rewrite list_elem_of_In, in_concat in Hr; destruct Hr as (l & Hl & Hr);
    apply list_elem_of_In in Hl; apply list_elem_of_In in Hr.
  - apply list_elem_of_fmap in Hl as (rows & -> & Hrows). exists r. split; [|done]. apply list_elem_of_In, in_concat.
    exists rows. split; apply list_elem_of_In; [done|]. by eapply select_rows_elem.
  - assert (List.filter (fun r => bucket r =? b) (select l) <> []) as Hne.
    { rewrite select_rows_bucket. apply rank_nonempty; [done|]. intros E.
      assert (r ∈ List.filter (fun r => bucket r =? b) l) as Hin by (by apply in_bucket_elem). rewrite E in Hin. by apply elem_of_nil in Hin. }
    destruct (List.filter (fun r => bucket r =? b) (select l)) as [|r' rest] eqn:E; [done|].
    assert (r' ∈ select l /\ bucket r' = b) as [Hr' Hb'] by (apply in_bucket_elem; rewrite E; by left).
    exists r'. split; [|done]. apply list_elem_of_In, in_concat. exists (select l).
    split; apply list_elem_of_In; [by apply list_elem_of_fmap_2|done].
Qed.

(** The rows of a series, in time order. *)
Lemma select_regions_sorted regions (time_leb : Z -> Z -> bool) :
  ms_kind sel <> Sampled -> (1 <= ms_n sel)%N ->
  (forall a b, time_leb a b = true \/ time_leb b a = true) ->
  (forall a b d, time_leb a b = true -> time_leb b d = true -> time_leb a d = true) ->
  (forall a b, time_leb a b = true -> time_leb b a = true -> a = b) ->
  (forall r r', r ∈ concat regions -> r' ∈ concat regions -> int_at (rc_tns c) r = int_at (rc_tns c) r' -> bucket r = bucket r') ->
  let leb a b := time_leb (int_at (rc_tns c) a) (int_at (rc_tns c) b) in
  sort_by leb (select (concat (select <$> regions))) = sort_by leb (select (concat regions)).
Proof.
  intros Hk Hn Ht Htr Ha Hb leb. unfold select_rows at 1 3.
  rewrite (list_fmap_ext _ (fun b => rank_group hash_one sel c (List.filter (fun r => bucket r =? b) (concat regions))))
    by (intros; by apply select_regions_bucket).
  apply (sort_blocks_Permutation leb); [by intros; apply Ht|by intros x y z; apply Htr|by apply group_rows_regions|apply group_rows_NoDup|].
  intros b b' _ _ Hne r r' [Hr Er]%rank_elem%in_bucket_elem [Hr' Er']%rank_elem%in_bucket_elem. subst leb. cbn.
  destruct (time_leb _ _) eqn:E1; [right|by left]. apply not_true_is_false. intros E2. apply Hne.
  rewrite <-Er, <-Er'. by apply Hb; [..|apply Ha].
Qed.
End Regions.

(** C22: Ranking again is exact: for TOP and BOTTOM, with or without tag
    arguments, a series whose regions each keep their own best points of
    every bucket is ranked to what one region with all points gives, its
    order, limit and offset included; and what is kept of a bucket are the
    best of its points, one per combination of tags. *)
Theorem rerank_regions_exact `{QT : !QueryText} hash_one sel stmt h c (regions : list (list (list Value))) :
  ms_kind sel <> Sampled -> (1 <= ms_n sel)%N -> rank_cols sel (sr_columns h) = Some c -> NoDup (sr_columns h) -> regions <> [] ->
  (forall row, row ∈ concat regions -> length row = length (sr_columns h)) ->
  (forall r r', r ∈ concat regions -> r' ∈ concat regions -> int_at (rc_tns c) r = int_at (rc_tns c) r' ->
     int_at (rc_bucket c) r = int_at (rc_bucket c) r') ->
  rerank hash_one sel stmt ((fun rows => set_values (select_rows hash_one sel c rows) h) <$> regions)
  = rerank hash_one sel stmt [set_values (concat regions) h] /\
  forall b, let in_bucket := List.filter (fun r => int_at (rc_bucket c) r =? b) in
    best_of sel c (in_bucket (concat regions)) (in_bucket (select_rows hash_one sel c (concat regions))).
Proof.
  intros Hk Hn Hc Hd Hne Hl Hb. split; [|intros b; cbn zeta; rewrite select_rows_bucket; by apply rank_best]. unfold rerank.
  assert (fold_left add_series ((fun rows => set_values (select_rows hash_one sel c rows) h) <$> regions) []
          = [set_values (concat (select_rows hash_one sel c <$> regions)) h]) as ->.
  { destruct regions as [|r regions]; [done|]. rewrite !fmap_cons. cbn [fold_left add_series concat].
    etrans; [|apply (add_region_series h _ (select_rows hash_one sel c <$> regions)); [done|]].
    { by rewrite <-list_fmap_compose. } intros row Hr. apply Hl. apply list_elem_of_In, in_concat in Hr as (l & Hin & Hr).
    apply list_elem_of_In, list_elem_of_fmap in Hin as (rows & -> & Hrows). apply list_elem_of_In, select_rows_elem in Hr.
    cbn [concat]. apply elem_of_app. right. apply list_elem_of_In, in_concat. exists rows. by rewrite <-!list_elem_of_In. }
  cbn [fold_left add_series omap list_omap]. unfold rerank_series. cbn [sr_columns set_values sr_values]. rewrite Hc.
  rewrite (select_regions_sorted hash_one sel c regions
             (fun a b => if default false (sel_order_by stmt) then b <=? a else a <=? b)); try done.
  all: destruct (default false (sel_order_by stmt)); intros *; rewrite ?Z.leb_le; lia.
Qed.

(** ** Two regions *)

(** [top(v, host, 2)]. *)
Definition top_hosts : MultiSelector := mkSelector Top "top" "v" ["host"%string] 2.

Definition top_series : SeriesResult := mkSeries "cpu" None ["top"; "host"; "__bucket"; "__tns"]%string [] None.

Definition top_row (v : Z) (host : string) (t : Z) : list Value := [json_int v; VString host; json_int 0; json_int t].

(** Text that tells the hosts apart. *)
Definition host_text : QueryText :=
  {| value_text v := match v with VArray (VString s :: _) => s | _ => EmptyString end;
     debug_pairs _ := EmptyString; debug_tags _ := EmptyString; parse_rfc3339 _ := None; parse_naive _ := None;
     parse_naive_frac _ := None; format_secs _ := EmptyString |}.

Lemma rerank_regions_exact_witness :
  let regions := [[top_row 9 "a" 1; top_row 8 "a" 2; top_row 3 "b" 3]; [top_row 7 "c" 4; top_row 9 "a" 0]] in
  let c := mkRankCols 2 3 0 [1%nat] in
  rerank (QT := host_text) (fun _ => 0%N) top_hosts (select_v None None None)
    ((fun rows => set_values (select_rows (QT := host_text) (fun _ => 0%N) top_hosts c rows) top_series) <$> regions)
  = [mkSeries "cpu" None ["top"; "host"]%string [[json_int 9; VString "a"]; [json_int 7; VString "c"]] None].
Proof.
  intros regions c.
  edestruct (rerank_regions_exact (QT := host_text) (fun _ => 0%N) top_hosts (select_v None None None) top_series c regions) as [E _];
    [done|done|reflexivity|by apply (bool_decide_unpack _); vm_compute|done|..|rewrite E; vm_compute; reflexivity].
  - intros row Hr. repeat (apply elem_of_cons in Hr as [-> |Hr]; [reflexivity|]). by apply elem_of_nil in Hr.
  - intros r r' Hr Hr' _. repeat (apply elem_of_cons in Hr as [-> |Hr]; [repeat (apply elem_of_cons in Hr' as [-> |Hr']; [reflexivity|]); by apply elem_of_nil in Hr'|]). by apply elem_of_nil in Hr.
Defined.
