(* ===== verification/ColumnNaming.v ===== *)
(** * Physical names

    [domain/measurement.rs], [domain/column_mapping.rs] and
    [domain/chdb_naming.rs]: the tables and columns a measurement is stored
    in. Names are byte strings; a character of more than one byte counts once,
    by its first byte. *)

From stdpp Require Import prelude list gmap strings.
From S2P Require Import Prelude Bytes Points QueryAst.
From stdpp Require Import options.

#[local] Open Scope N_scope.

(** ** Measurements and their columns *)

Record MeasurementMeta := mkMeta {
  mm_name : string;
  mm_field_types : gmap string N;
  mm_tag_keys : list string;
  mm_field_rollups : gmap string RollupCombine;
  mm_mean_fields : gmap string MeanRollupField;
  mm_materialized : bool;
  mm_materialized_rp : option string
}.

Definition TAG_COL_PREFIX : string := "__tag__".

(** [column_mapping::tag_column_name]. *)
Definition logical_tag_column (tag_key : string) (field_names : gset string) : string :=
  if bool_decide (tag_key ∈ field_names) then TAG_COL_PREFIX +:+ tag_key else tag_key.

Definition tag_col_name_for_columnar (tag_key field_name : string) : string :=
  if bool_decide (tag_key = field_name) then TAG_COL_PREFIX +:+ tag_key else tag_key.

Record ColumnMapping := mkMapping {
  cm_tag_keys : gset string;
  cm_field_names : gset string;
  cm_field_rollups : gmap string RollupCombine;
  cm_mean_fields : gmap string MeanRollupField
}.

Definition from_measurement_meta (m : MeasurementMeta) : ColumnMapping :=
  mkMapping (list_to_set (mm_tag_keys m)) (dom (mm_field_types m)) (mm_field_rollups m) (mm_mean_fields m).

Definition from_identifiers (tags fields : list string) : ColumnMapping :=
  mkMapping (list_to_set tags) (list_to_set fields) ∅ ∅.

Definition mapped_tag_column (m : ColumnMapping) (tag_key : string) : string := logical_tag_column tag_key (cm_field_names m).

Definition physical_select_identifier (m : ColumnMapping) (name : string) : string :=
  if bool_decide (name ∈ cm_field_names m) then name
  else if bool_decide (name ∈ cm_tag_keys m) then mapped_tag_column m name
  else name.

(** [RollupCombine] hashes as its discriminant. *)
Definition combine_code (c : RollupCombine) : N :=
  match c with CombineSum => 0 | CombineMin => 1 | CombineMax => 2 | CombineLast => 3 | CombineFirst => 4 end.

Definition measurement_meta_fingerprint `{DH : !DefaultHasher} (m : MeasurementMeta) : N :=
  hasher_finish
    (flat_map (fun kv => [HashStr kv.1; HashU8 kv.2]) (btree_iter string_leb (mm_field_types m))
     ++ map HashStr (sort_by string_leb (mm_tag_keys m))
     ++ flat_map (fun kv => [HashStr kv.1; HashI64 (Z.of_N (combine_code kv.2))]) (btree_iter string_leb (mm_field_rollups m))
     ++ flat_map (fun kv => [HashStr kv.1; HashStr (mr_sum_col kv.2); HashStr (mr_count_col kv.2)])
          (btree_iter string_leb (mm_mean_fields m))).

(** ** Identifiers *)

Definition is_ascii_digit (c : Ascii.ascii) : bool := let n := Ascii.N_of_ascii c in (48 <=? n) && (n <=? 57).

Definition is_ident_char (c : Ascii.ascii) : bool :=
  let n := Ascii.N_of_ascii c in
  is_ascii_digit c || ((65 <=? n) && (n <=? 90)) || ((97 <=? n) && (n <=? 122)) || (n =? 95).

(** A byte that continues a character. *)
Definition is_continuation (c : Ascii.ascii) : bool := let n := Ascii.N_of_ascii c in (128 <=? n) && (n <? 192).

Definition underscore : Ascii.ascii := Ascii.ascii_of_N 95.

Fixpoint replace_chars (s : string) : string :=
  match s with
  | EmptyString => EmptyString
  | String c s' =>
    if is_ident_char c then String c (replace_chars s')
    else if is_continuation c then replace_chars s'
    else String underscore (replace_chars s')
  end.

Definition sanitise_ident (input : string) : string :=
  match input with
  | EmptyString => "_"
  | _ =>
    let out := replace_chars input in
    match out with
    | String c _ => if is_ascii_digit c then String underscore out else out
    | EmptyString => out
    end
  end.

Definition unquoted_table_name (db rp meas : string) : string :=
  sanitise_ident db +:+ "_" +:+ sanitise_ident rp +:+ "_" +:+ sanitise_ident meas.

(** [replace(c, by)]. *)
Fixpoint replace_with (c : Ascii.ascii) (by_ : string) (s : string) : string :=
  match s with
  | EmptyString => EmptyString
  | String d s' => if bool_decide (d = c) then by_ +:+ replace_with c by_ s' else String d (replace_with c by_ s')
  end.

Definition backslash : Ascii.ascii := Ascii.ascii_of_N 92.
Definition backtick : Ascii.ascii := Ascii.ascii_of_N 96.

Definition twice (c : Ascii.ascii) : string := String c (String c EmptyString).

Definition quote_backticks (ident : string) : string :=
  let escaped := replace_with backtick (twice backtick) (replace_with backslash (twice backslash) ident) in
  String backtick (escaped +:+ String backtick EmptyString).

(** [char::is_control]: C0, DEL, and C1, which takes two bytes. *)
Fixpoint has_control (s : string) : bool :=
  match s with
  | EmptyString => false
  | String c s' =>
    let n := Ascii.N_of_ascii c in
    (n <? 32) || (n =? 127) ||
    ((n =? 194) && match s' with
                   | String d _ => (128 <=? Ascii.N_of_ascii d) && (Ascii.N_of_ascii d <? 160)
                   | EmptyString => false
                   end) || has_control s'
  end.

(** [debug] is [{:?}] of a string. *)
Definition reject_control_chars (debug : string -> string) (ident : string) : result QueryError unit :=
  if has_control ident then Err (QueryParse ("identifier contains control characters: " +:+ debug ident)) else Ok tt.

Definition quote_backticks_validated (debug : string -> string) (ident : string) : result QueryError string :=
  _ ← reject_control_chars debug ident; Ok (quote_backticks ident).

Definition quoted_table_name (db rp meas : string) : string := quote_backticks (unquoted_table_name db rp meas).

Definition unquoted_series_table_name (db rp meas : string) : string := unquoted_table_name db rp meas +:+ "_series".

Definition quoted_series_table_name (db rp meas : string) : string := quote_backticks (unquoted_series_table_name db rp meas).

Definition unquoted_fact_mv_name (db rp mv_name : string) : string := unquoted_table_name db rp mv_name +:+ "_mv".

Definition quoted_fact_mv_name (db rp mv_name : string) : string := quote_backticks (unquoted_fact_mv_name db rp mv_name).

Definition unquoted_series_mv_name (db rp mv_name : string) : string := unquoted_table_name db rp mv_name +:+ "_series_mv".

Definition quoted_series_mv_name (db rp mv_name : string) : string := quote_backticks (unquoted_series_mv_name db rp mv_name).

(** [chdb_naming::tag_column_name]. *)
Definition tag_column_name (tag_key : string) (field_names : gset string) : string :=
  sanitise_ident (logical_tag_column tag_key field_names).

Definition field_column_name (field_key : string) : string := sanitise_ident field_key.

Definition physical_tag_column_name (m : ColumnMapping) (tag_key : string) : string := tag_column_name tag_key (cm_field_names m).

(** ** Sanitised identifiers *)

Fixpoint string_all (p : Ascii.ascii -> bool) (s : string) : bool :=
  match s with EmptyString => true | String c s' => p c && string_all p s' end.

(** An identifier ClickHouse takes without quotes. *)
Definition plain_ident (s : string) : bool :=
  match s with
  | EmptyString => false
  | String c _ => negb (is_ascii_digit c) && string_all is_ident_char s
  end.

Lemma replace_chars_plain s : string_all is_ident_char (replace_chars s) = true.
Proof.
  induction s as [|c s IH]; [done|]. cbn [replace_chars]. destruct (is_ident_char c) eqn:E; cbn; [by rewrite E|].
  destruct (is_continuation c); [done|]. by cbn.
Qed.

Lemma replace_chars_id s : string_all is_ident_char s = true -> replace_chars s = s.
Proof. induction s as [|c s IH]; [done|]. cbn. intros [-> H]%andb_true_iff. by rewrite IH. Qed.

(** The first byte of a string is not a continuation. *)
Definition starts_char (s : string) : bool :=
  match s with EmptyString => true | String c _ => negb (is_continuation c) end.

(** Sanitising gives an identifier ClickHouse takes without quotes, keeps one
    that already is, and so changes nothing the second time. *)
Theorem sanitise_ident_correct s :
  starts_char s = true ->
  plain_ident (sanitise_ident s) = true /\ (plain_ident s = true -> sanitise_ident s = s) /\
  sanitise_ident (sanitise_ident s) = sanitise_ident s.
Proof.
  assert (forall s, plain_ident s = true -> sanitise_ident s = s) as Hid.
  { intros [|c t]; [done|]. cbn [plain_ident]. intros [Hd%negb_true_iff Ha]%andb_true_iff. unfold sanitise_ident.
    rewrite replace_chars_id by done. by rewrite Hd. }
  intros Hs. assert (plain_ident (sanitise_ident s) = true) as Hp; [|auto].
  destruct s as [|c t]; [done|]. cbn [starts_char] in Hs. apply negb_true_iff in Hs.
  pose proof (replace_chars_plain (String c t)) as Hall. unfold sanitise_ident.
  assert (exists d u, replace_chars (String c t) = String d u) as (d & u & E)
    by (cbn; rewrite Hs; destruct (is_ident_char c); eauto).
  rewrite E in *. destruct (is_ascii_digit d) eqn:Ed; cbn [plain_ident]; [|by rewrite Ed, Hall]. exact Hall.
Qed.

Lemma sanitise_ident_correct_witness : sanitise_ident "1 day" = "_1_day"%string /\ plain_ident (sanitise_ident "1 day") = true.
Proof. split; [reflexivity|]. by apply sanitise_ident_correct. Defined.

(** ** Quoted identifiers *)

Section Quoting.
(** How ClickHouse reads a backslash escape. *)
Context (unescape : Ascii.ascii -> Ascii.ascii) (unescape_backslash : unescape backslash = backslash).

(** The rest of an identifier in backticks: a doubled backtick or an escape is
    one character, a single backtick ends it. *)
Fixpoint read_backticks (s : string) : option (string * string) :=
  match s with
  | EmptyString => None
  | String c s' =>
    if bool_decide (c = backtick) then
      match s' with
      | String d s'' =>
        if bool_decide (d = backtick) then
          match read_backticks s'' with Some (i, rest) => Some (String backtick i, rest) | None => None end
        else Some (EmptyString, s')
      | EmptyString => Some (EmptyString, s')
      end
    else if bool_decide (c = backslash) then
      match s' with
      | String d s'' => match read_backticks s'' with Some (i, rest) => Some (String (unescape d) i, rest) | None => None end
      | EmptyString => None
      end
    else match read_backticks s' with Some (i, rest) => Some (String c i, rest) | None => None end
  end.

Definition starts_with (c : Ascii.ascii) (s : string) : bool :=
  match s with EmptyString => false | String d _ => bool_decide (d = c) end.

Lemma app_String c a b : String c a +:+ b = String c (a +:+ b).
Proof. done. Qed.

(** The escaped identifier is read up to the text that follows it. *)
Lemma read_escaped ident tail rest :
  read_backticks tail = Some (EmptyString, rest) ->
  read_backticks (replace_with backtick (twice backtick) (replace_with backslash (twice backslash) ident) +:+ tail)
  = Some (ident, rest).
Proof using unescape_backslash.
  intros Hr. induction ident as [|c s IH]; [done|]. cbn [replace_with]. case_bool_decide as Eb; [subst c|].
  - change (twice backslash +:+ ?x) with (String backslash (String backslash x)). cbn [replace_with].
    rewrite (bool_decide_false (backslash = backtick)), !app_String by done. cbn [read_backticks].
    rewrite bool_decide_false, bool_decide_true by done. by rewrite IH, unescape_backslash.
  - cbn [replace_with]. case_bool_decide as Et; [subst c|].
    + change (twice backtick +:+ ?x) with (String backtick (String backtick x)). rewrite !app_String.
      cbn [read_backticks]. rewrite !bool_decide_true by done. by rewrite IH.
    + rewrite app_String. cbn [read_backticks]. rewrite !bool_decide_false by done. by rewrite IH.
Qed.

Lemma read_closing rest : starts_with backtick rest = false -> read_backticks (String backtick rest) = Some (EmptyString, rest).
Proof. intros Hr. destruct rest as [|d rest]; [done|]. cbn [read_backticks starts_with] in *. by rewrite bool_decide_true, Hr by done. Qed.
End Quoting.

Lemma app_assoc_string (a b c : string) : a +:+ (b +:+ c) = (a +:+ b) +:+ c.
Proof. induction a as [|x a IH]; [done|]. rewrite !app_String. by rewrite IH. Qed.

(** A quoted identifier is read back as it was, whatever it contains and
    whatever text follows: it cannot end early, and two identifiers never
    share a quoted form. *)
Theorem quoted_ident_roundtrip unescape ident rest :
  unescape backslash = backslash -> starts_with backtick rest = false ->
  exists body, quote_backticks ident +:+ rest = String backtick body /\ read_backticks unescape body = Some (ident, rest).
Proof.
  intros Hu Hr. unfold quote_backticks. eexists. split; [by rewrite app_String|].
  rewrite <-app_assoc_string. apply read_escaped; [done|]. by apply read_closing.
Qed.

Lemma quoted_ident_roundtrip_witness :
  let ident := String backtick (String backslash "x; DROP") in
  exists body, quote_backticks ident +:+ " WHERE 1" = String backtick body /\
    read_backticks (fun c => c) body = Some (ident, " WHERE 1"%string).
Proof. by apply (quoted_ident_roundtrip (fun c => c)). Defined.

(** ** Columns *)

Lemma prefix_app_inj (p a b : string) : p +:+ a = p +:+ b -> a = b.
Proof. induction p as [|c p IH]; [done|]. rewrite !app_String. intros [= H]. by apply IH. Qed.

(** Columns of a measurement are distinct as long as no key starts with the
    prefix: tags from fields and from each other. *)
Theorem tag_columns_distinct fields t t' f :
  (forall x, TAG_COL_PREFIX +:+ x <> t) -> (forall x, TAG_COL_PREFIX +:+ x <> t') -> (forall x, TAG_COL_PREFIX +:+ x <> f) ->
  f ∈ fields ->
  logical_tag_column t fields <> f /\ (logical_tag_column t fields = logical_tag_column t' fields -> t = t').
Proof.
  intros Ht Ht' Hf Hin. unfold logical_tag_column. split.
  - case_bool_decide; [apply Hf|congruence].
  - repeat case_bool_decide; intros E; [by apply prefix_app_inj in E|by destruct (Ht' t)|by destruct (Ht t')|done].
Qed.

(** ** Names that meet *)

(** Different measurements can be stored in one table. *)
Theorem table_names_collide :
  unquoted_table_name "a" "b_c" "d" = unquoted_table_name "a_b" "c" "d" /\
  unquoted_table_name "db" "rp" "cpu.load" = unquoted_table_name "db" "rp" "cpu-load" /\
  unquoted_series_table_name "db" "rp" "cpu" = unquoted_table_name "db" "rp" "cpu_series".
Proof. repeat split. Qed.

(** A tag and a field of one measurement can be stored in one column, and so
    can two tags. *)
Theorem columns_collide :
  tag_column_name "a-b" {[ "a_b"%string ]} = field_column_name "a_b" /\
  tag_column_name "a.b" ∅ = tag_column_name "a-b" ∅ /\
  tag_column_name "host" {[ "host"%string ]} = field_column_name "__tag__host".
Proof. repeat split. Qed.
