(* ===== verification/PointFrames.v ===== *)
(** * Binary point frames ([hyperbytedb/src/application/line_protocol.rs])

    The body of a forwarded or replicated write: frames of
    [magic | u32 LE length | bincode(Vec<Point>)], any number of them, with
    ASCII whitespace between. bincode on points is the class [PointsBincode];
    the line-protocol parser, for bodies that are not frames, an argument. *)

From stdpp Require Import prelude list sorting gmap strings pretty.
From S2P Require Import Prelude Bytes Wire Points WalIpc.
From stdpp Require Import options.

#[local] Open Scope N_scope.

Class PointsBincode := {
  points_serialize : list Point -> result string bytes;
  points_deserialize : bytes -> result string (list Point)
}.

Class PointsBincodeLaws `(B : PointsBincode) := {
  points_roundtrip pts b : points_serialize pts = Ok b -> points_deserialize b = Ok pts;
  points_byte_ok pts b : points_serialize pts = Ok b -> Forall byte_ok b
}.

Inductive PointsError :=
| PointsInternal (msg : string)
| PointsTooLarge (msg : string)
| PointsBad (line reason : string)
| PointsLimit (count limit : nat)
| PointsNoClock.

(** [b"\0HBP"]. *)
Definition POINTS_FRAME_MAGIC : bytes := [0; 72; 66; 80].

Definition is_binary_points (body : bytes) : bool := has_prefix POINTS_FRAME_MAGIC body.

(** [u8::is_ascii_whitespace]. *)
Definition is_ascii_whitespace (b : N) : bool :=
  (b =? 9) || (b =? 10) || (b =? 12) || (b =? 13) || (b =? 32).

Fixpoint skip_whitespace (s : bytes) : bytes :=
  match s with
  | b :: tail => if is_ascii_whitespace b then skip_whitespace tail else s
  | [] => []
  end.

Section Frames.
Context `{B : PointsBincode}.

Definition encode_points_binary (points : list Point) : result PointsError bytes :=
  match points_serialize points with
  | Err e => Err (PointsInternal ("encode points: " +:+ e))
  | Ok payload =>
    if N.of_nat (length payload) <=? u32_max
    then Ok (POINTS_FRAME_MAGIC ++ le_bytes 4 (N.of_nat (length payload)) ++ payload)
    else Err (PointsTooLarge "points frame over 4 GiB")
  end.

Definition bad_points (m : string) : PointsError := PointsBad EmptyString ("binary points: " +:+ m).

Definition over_limit (limit : nat) : PointsError :=
  PointsTooLarge ("more than " +:+ pretty limit +:+ " points in one request").

(** The loop of [decode_points_frames]; [None] when the fuel runs out. *)
Fixpoint decode_frames (fuel limit : nat) (rest : bytes) (out : list Point)
    : option (result PointsError (list Point)) :=
  match fuel with
  | O => None
  | S fuel' =>
    let rest := skip_whitespace rest in
    match rest with
    | [] => Some (Ok out)
    | _ =>
      if negb (has_prefix POINTS_FRAME_MAGIC rest) || (length rest <? 8)%nat
      then Some (Err (bad_points "truncated or mixed body"))
      else
        let len := N.to_nat (le_num (take 4 (drop 4 rest))) in
        if (length rest <? 8 + len)%nat then Some (Err (bad_points "frame shorter than its length"))
        else
          match points_deserialize (take len (drop 8 rest)) with
          | Err e => Some (Err (bad_points e))
          | Ok points =>
            if (limit <? length out + length points)%nat
            then Some (Err (over_limit limit))
            else decode_frames fuel' limit (drop (8 + len) rest) (out ++ points)
          end
    end
  end.

Definition decode_points_frames (body : bytes) (limit : nat) : option (result PointsError (list Point)) :=
  decode_frames (S (length body)) limit body [].

(** [parse_line_body_to_points_limited]; [parse_lp] is [parse_line_body_inner]
    with its limit. *)
Definition parse_line_body_to_points_limited
    (parse_lp : bytes -> option string -> nat -> result PointsError (list Point))
    (default_limit : nat) (body : bytes) (precision : option string) (max_points : nat)
    : option (result PointsError (list Point)) :=
  let limit := match max_points with O => default_limit | n => n end in
  if is_binary_points body then decode_points_frames body limit
  else Some (parse_lp body precision limit).
End Frames.

(** ** Lemmas *)

Lemma skip_whitespace_length s : (length (skip_whitespace s) <= length s)%nat.
Proof. induction s as [|b s IH]; cbn; [done|]. destruct (is_ascii_whitespace b); cbn; lia. Qed.

Lemma skip_whitespace_app ws s :
  Forall (fun b => is_ascii_whitespace b = true) ws -> skip_whitespace (ws ++ s) = skip_whitespace s.
Proof. induction 1 as [|b ws Hb _ IH]; [done|]. cbn. by rewrite Hb. Qed.

Lemma skip_whitespace_magic s : skip_whitespace (POINTS_FRAME_MAGIC ++ s) = POINTS_FRAME_MAGIC ++ s.
Proof. done. Qed.

Section Theorems.
Context {B : PointsBincode} {BL : PointsBincodeLaws B}.

(** Each frame consumes at least its header, so the fuel never runs out. *)
Lemma decode_frames_total fuel limit rest out :
  (length rest < fuel)%nat -> decode_frames fuel limit rest out <> None.
Proof using B.
  clear BL. revert rest out. induction fuel as [|fuel IH]; intros rest out Hf; [lia|].
  cbn [decode_frames]. pose proof (skip_whitespace_length rest) as Hs.
  destruct (skip_whitespace rest) as [|b s]; [done|]. set (r := b :: s) in *.
  destruct (_ || _) eqn:E; [done|]. apply orb_false_iff in E as [_ E%Nat.ltb_ge].
  destruct (_ <? 8 + _)%nat; [done|]. destruct (points_deserialize _); [|done].
  destruct (limit <? _)%nat; [done|]. apply IH. rewrite length_drop. lia.
Qed.

(** One frame at the front of a body. *)
Lemma decode_frame_step fuel limit ws pts b rest out :
  Forall (fun x => is_ascii_whitespace x = true) ws -> encode_points_binary pts = Ok b ->
  decode_frames (S fuel) limit (ws ++ b ++ rest) out
  = if (limit <? length out + length pts)%nat
    then Some (Err (over_limit limit))
    else decode_frames fuel limit rest (out ++ pts).
Proof using BL.
  intros Hws. unfold encode_points_binary.
  destruct (points_serialize pts) as [payload|] eqn:Ep; [|done].
  destruct (_ <=? u32_max) eqn:El; [|done]. apply N.leb_le in El. intros <-%Ok_inj.
  cbn [decode_frames]. rewrite skip_whitespace_app, <-!app_assoc, skip_whitespace_magic by done.
  set (hdr := le_bytes 4 (N.of_nat (length payload))).
  assert (Hh : length hdr = 4%nat) by apply le_bytes_length.
  destruct (POINTS_FRAME_MAGIC ++ hdr ++ payload ++ rest) as [|b0 s0] eqn:Eb; [done|]. rewrite <-Eb.
  rewrite has_prefix_app. cbn [negb orb].
  rewrite (drop_app_length' _ _ 4) by done. rewrite (take_app_length' _ _ 4) by done.
  assert (Hlen : N.to_nat (le_num hdr) = length payload).
  { unfold hdr. rewrite le_roundtrip by (unfold u32_max in El; lia). apply Nat2N.id. }
  rewrite !Hlen.
  replace (drop 8 (POINTS_FRAME_MAGIC ++ hdr ++ payload ++ rest)) with (payload ++ rest).
  2: { rewrite app_assoc. symmetry. apply drop_app_length'. by rewrite length_app, Hh. }
  replace (drop (8 + length payload) (POINTS_FRAME_MAGIC ++ hdr ++ payload ++ rest)) with rest.
  2: { rewrite !app_assoc. symmetry. apply drop_app_length'. rewrite !length_app, Hh. cbn. lia. }
  rewrite take_app_length, (points_roundtrip _ _ Ep), !length_app, Hh. cbn [length POINTS_FRAME_MAGIC].
  rewrite !(proj2 (Nat.ltb_ge _ _)) by lia. done.
Qed.

(** The body of several frames, each with whitespace before it. *)
Fixpoint frames_body (frames : list (bytes * bytes)) (trail : bytes) : bytes :=
  match frames with
  | [] => trail
  | (ws, b) :: rest => ws ++ b ++ frames_body rest trail
  end.

Definition whitespace (ws : bytes) : Prop := Forall (fun b => is_ascii_whitespace b = true) ws.

Lemma decode_frames_all frames ptss trail limit fuel out :
  Forall2 (fun f pts => whitespace f.1 /\ encode_points_binary pts = Ok f.2) frames ptss ->
  whitespace trail -> (length frames < fuel)%nat ->
  decode_frames fuel limit (frames_body frames trail) out
  = Some (if decide (length out + length (concat ptss) <= limit \/ ptss = [])%nat
          then Ok (out ++ concat ptss)
          else Err (over_limit limit)).
Proof using BL.
  intros Hf Ht. revert fuel out. induction Hf as [|[ws b] pts frames ptss [Hw Hb] Hf IH];
    intros fuel out Hfuel; (destruct fuel as [|fuel]; [cbn in Hfuel; lia|]).
  - cbn [frames_body decode_frames concat]. rewrite <-(app_nil_r trail), skip_whitespace_app by done.
    cbn. by rewrite decide_True, app_nil_r by (by right).
  - cbn [frames_body fst snd] in *. rewrite (decode_frame_step fuel limit ws pts b _ out Hw Hb).
    destruct (limit <? length out + length pts)%nat eqn:E.
    + apply Nat.ltb_lt in E. rewrite decide_False; [done|]. cbn [concat]. rewrite length_app.
      intros [?|?]; [lia|done].
    + apply Nat.ltb_ge in E. rewrite IH by (cbn in Hfuel; lia).
      rewrite length_app. cbn [concat]. rewrite length_app, <-app_assoc.
      assert (Hd : (length out + length pts + length (concat ptss) <= limit \/ ptss = [])%nat <->
                   (length out + (length pts + length (concat ptss)) <= limit \/ pts :: ptss = [])%nat).
      { split; [intros [?| ->]; [left; lia|left; cbn; lia]|intros [?|?]; [left; lia|done]]. }
      by rewrite (decide_ext _ _ _ _ Hd).
Qed.
End Theorems.

Lemma frames_body_length {B : PointsBincode} frames ptss trail :
  Forall2 (fun f pts => whitespace f.1 /\ encode_points_binary pts = Ok f.2) frames ptss ->
  (length frames <= length (frames_body frames trail))%nat.
Proof.
  induction 1 as [|[ws b] pts frames ptss [_ Hb] _ IH]; cbn [frames_body length]; [lia|].
  cbn [snd] in Hb. unfold encode_points_binary in Hb. destruct (points_serialize pts); [|done].
  destruct (_ <=? u32_max); [|done]. apply Ok_inj in Hb. subst b.
  rewrite !length_app. cbn [length POINTS_FRAME_MAGIC]. lia.
Qed.

(** ** Properties *)

(** A body of frames decodes to the concatenation of their points, whatever ASCII whitespace
    separates or follows them, and is refused as too large exactly when it holds more points
    than the limit; no body, well-formed or not, makes the decoder run on. *)
Theorem frames_roundtrip {B : PointsBincode} {BL : PointsBincodeLaws B}
    (frames : list (bytes * bytes)) (ptss : list (list Point)) (trail : bytes) (limit : nat) :
  Forall2 (fun f pts => whitespace f.1 /\ encode_points_binary pts = Ok f.2) frames ptss ->
  whitespace trail -> frames <> [] ->
  decode_points_frames (frames_body frames trail) limit
  = Some (if decide (length (concat ptss) <= limit)%nat then Ok (concat ptss)
          else Err (over_limit limit)) /\
  forall body, decode_points_frames body limit <> None.
Proof.
  intros Hf Ht Hne. split; [|intros body; apply decode_frames_total; lia].
  unfold decode_points_frames. pose proof (frames_body_length frames ptss trail Hf) as Hl.
  rewrite (decode_frames_all frames ptss trail) by (done || lia). cbn [length Nat.add app].
  destruct ptss as [|pts ptss]; [by inversion Hf; subst|].
  assert (Hd : (length (concat (pts :: ptss)) <= limit \/ pts :: ptss = [])%nat <->
               (length (concat (pts :: ptss)) <= limit)%nat) by (split; [intros [?|?]; done|by left]).
  by rewrite (decide_ext _ _ _ _ Hd).
Qed.

(** Points written as their own code, in bytes. *)
#[export] Instance coded_points : PointsBincode := {
  points_serialize pts := Ok (str_bytes (pos_bits (encode pts)));
  points_deserialize b := decode_or (bytes_str b)
}.

#[export] Instance coded_points_laws : PointsBincodeLaws coded_points.
Proof.
  split; intros pts b [= <-]; [|apply utf8_bytes]. cbn. by rewrite str_bytes_str, decode_or_bits.
Qed.

Definition frame_of (pts : list Point) : bytes :=
  match encode_points_binary pts with Ok b => b | Err _ => [] end.

Definition frame_point (m : string) : Point := mkPoint m {[ "host"%string := "a"%string ]} ∅ 5.

Lemma frames_roundtrip_witness :
  decode_points_frames
    (frames_body [([], frame_of [frame_point "cpu"]); ([10], frame_of [frame_point "mem"])] [32]) 5
  = Some (Ok [frame_point "cpu"; frame_point "mem"]).
Proof.
  rewrite (proj1 (frames_roundtrip
    [([], frame_of [frame_point "cpu"]); ([10], frame_of [frame_point "mem"])]
    [[frame_point "cpu"]; [frame_point "mem"]] [32] 5
    ltac:(repeat constructor) ltac:(repeat constructor) ltac:(discriminate))).
  reflexivity.
Defined.
