(* ===== verification/ForwardCoalescer.v ===== *)
(** * Coalesced forwards ([hyperbytedb/src/application/forward_coalescer.rs])

    One lane per destination: a queue of jobs and a loop that fills each
    request from it up to a size, holding back the job that would not fit.
    The answer to a request is cut back into the answers of its jobs. *)

From stdpp Require Import prelude list sorting gmap strings pretty.
From S2P Require Import Prelude Bytes ShardTypes ShardRouting.
From stdpp Require Import options.

#[local] Open Scope N_scope.

Record ShardWriteRequest := mkWriteReq {
  wr_db : string;
  wr_rp : string;
  wr_precision : option string;
  wr_epoch : ShardEpoch;
  wr_region_id : N;
  wr_body : bytes
}.

Inductive NodeSendOutcome :=
| SendResults (rs : list ShardWritePartResult)
| SendUnsupported
| SendCapacity
| SendFailed (msg : string).

(** A job; [job_reply] names the caller waiting for its answer. *)
Record Job := mkJob {
  job_parts : list ShardWriteRequest;
  job_bytes : N;
  job_reply : N
}.

Record Limits := mkLimits {
  max_inflight : nat;
  max_bytes : N;
  max_parts : nat
}.

Definition coalescer_new (inflight : nat) (bytes : N) (parts : nat) : Limits :=
  mkLimits (Nat.max inflight 1) (N.max bytes 1) (Nat.max parts 1).

Definition coalescer_default : Limits := coalescer_new 4 (512 * 1024) 256.

(** The job [send] builds. *)
Definition job_of (parts : list ShardWriteRequest) (reply : N) : Job :=
  mkJob parts (fold_right (fun p acc => N.of_nat (length (wr_body p)) + 64 + acc) 0 parts) reply.

(** ** Filling a request *)

(** The inner loop: what it takes, the job it holds back, and the rest of
    the queue. *)
Fixpoint fill_request (lim : Limits) (bytes : N) (nparts : nat) (queue : list Job)
    : list Job * option Job * list Job :=
  match queue with
  | [] => ([], None, [])
  | job :: rest =>
    if (bytes <? max_bytes lim) && (nparts <? max_parts lim)%nat then
      if (max_bytes lim <? bytes + job_bytes job)
         || (max_parts lim <? nparts + length (job_parts job))%nat
      then ([], Some job, rest)
      else
        let '(taken, carried, rest') :=
          fill_request lim (bytes + job_bytes job) (nparts + length (job_parts job)) rest in
        (job :: taken, carried, rest')
    else ([], None, queue)
  end.

Record Lane := mkLane {
  ln_carried : option Job;
  ln_queue : list Job;
  ln_inflight : list (list Job)
}.

Definition lane_new : Lane := mkLane None [] [].

(** One turn of [lane_loop] with a free slot: the request it sends, or none
    when there is nothing to send. *)
Definition lane_turn (lim : Limits) (ln : Lane) : Lane * option (list Job) :=
  let first :=
    match ln_carried ln with
    | Some job => Some (job, ln_queue ln)
    | None => match ln_queue ln with job :: q => Some (job, q) | [] => None end
    end in
  match first with
  | None => (ln, None)
  | Some (job, q) =>
    let '(taken, carried, q') := fill_request lim (job_bytes job) (length (job_parts job)) q in
    (mkLane carried q' (ln_inflight ln ++ [job :: taken]), Some (job :: taken))
  end.

(** ** Answering the jobs of a request *)

Fixpoint cut_results (counts : list nat) (rs : list ShardWritePartResult)
    : list (list ShardWritePartResult) :=
  match counts with
  | [] => []
  | n :: counts' => take n rs :: cut_results counts' (drop n rs)
  end.

Definition mismatch_msg (addr : string) (got want : nat) : string :=
  "forward batch to " +:+ addr +:+ ": " +:+ pretty got +:+ " results for " +:+ pretty want +:+ " parts".

(** [send_jobs] once [post_batch] has answered. *)
Definition send_jobs (addr : string) (jobs : list Job) (outcome : NodeSendOutcome)
    : list (N * NodeSendOutcome) :=
  let counts := (fun j => length (job_parts j)) <$> jobs in
  match outcome with
  | SendResults rs =>
    if (length rs =? sum_nat counts)%nat
    then zip (job_reply <$> jobs) (SendResults <$> cut_results counts rs)
    else (fun j => (job_reply j, SendFailed (mismatch_msg addr (length rs) (sum_nat counts)))) <$> jobs
  | other => (fun j => (job_reply j, other)) <$> jobs
  end.

Definition request_parts (jobs : list Job) : list ShardWriteRequest := concat (job_parts <$> jobs).

(** [send_direct] once [post_batch] has answered. *)
Definition send_direct (addr : string) (parts : list ShardWriteRequest) (outcome : NodeSendOutcome)
    : NodeSendOutcome :=
  match outcome with
  | SendResults rs =>
    if negb (length rs =? length parts)%nat
    then SendFailed (mismatch_msg addr (length rs) (length parts))
    else outcome
  | other => other
  end.

(** [post_batch]'s reading of the response: transport error, or a status and
    a body. *)
Definition read_batch_response (resp : result string (N * result string (list ShardWritePartResult)))
    : NodeSendOutcome :=
  match resp with
  | Err e => SendFailed e
  | Ok (status, body) =>
    if (status =? 404) || (status =? 405) then SendUnsupported
    else if (status =? 503) || (status =? 429) then SendCapacity
    else if (200 <=? status) && (status <=? 299) then
      match body with
      | Ok rs => SendResults rs
      | Err e => SendFailed (pretty status +:+ ": " +:+ e)
      end
    else SendFailed (pretty status)
  end.

(** ** The lane as a machine *)

(** What happened on a lane: the jobs callers sent, in order; the requests
    made, in order; the lane; the answers given. *)
Record LaneRun := mkLaneRun {
  lr_enqueued : list Job;
  lr_sent : list (list Job);
  lr_lane : Lane;
  lr_answers : list (N * NodeSendOutcome)
}.

Definition run_new : LaneRun := mkLaneRun [] [] lane_new [].

(** Callers queue jobs, the loop sends while a slot is free, requests are
    answered in any order and in any way. *)
Inductive lane_step (lim : Limits) (addr : string) : LaneRun -> LaneRun -> Prop :=
| lane_enqueue enq sent ln log job :
    lane_step lim addr (mkLaneRun enq sent ln log)
      (mkLaneRun (enq ++ [job]) sent
         (mkLane (ln_carried ln) (ln_queue ln ++ [job]) (ln_inflight ln)) log)
| lane_send enq sent ln ln' log req :
    (length (ln_inflight ln) < max_inflight lim)%nat -> lane_turn lim ln = (ln', Some req) ->
    lane_step lim addr (mkLaneRun enq sent ln log) (mkLaneRun enq (sent ++ [req]) ln' log)
| lane_answer enq sent ln log before req after outcome :
    ln_inflight ln = before ++ req :: after ->
    lane_step lim addr (mkLaneRun enq sent ln log)
      (mkLaneRun enq sent (mkLane (ln_carried ln) (ln_queue ln) (before ++ after))
         (log ++ send_jobs addr req outcome)).

(** A request within the limits, or a single job. *)
Definition request_ok (lim : Limits) (req : list Job) : Prop :=
  (exists j, req = [j]) \/
  (fold_right (fun j acc => job_bytes j + acc) 0 req <= max_bytes lim /\
   (length (request_parts req) <= max_parts lim)%nat).

(** What a lane keeps true: jobs leave in the order they came, each request
    fits, few are out at once, and a job is answered once its request is. *)
Record lane_inv (lim : Limits) (run : LaneRun) : Prop := mkLaneInv {
  li_fifo : lr_enqueued run
    = concat (lr_sent run) ++ option_list (ln_carried (lr_lane run)) ++ ln_queue (lr_lane run);
  li_fits : Forall (request_ok lim) (lr_sent run);
  li_inflight : (length (ln_inflight (lr_lane run)) <= max_inflight lim)%nat;
  li_answers : (lr_answers run).*1 ++ (job_reply <$> concat (ln_inflight (lr_lane run)))
    ≡ₚ job_reply <$> concat (lr_sent run)
}.

(** ** Lemmas *)

Lemma fill_request_spec lim bytes nparts queue taken carried rest :
  fill_request lim bytes nparts queue = (taken, carried, rest) ->
  queue = taken ++ option_list carried ++ rest /\
  (taken = [] \/
   bytes + fold_right (fun j acc => job_bytes j + acc) 0 taken <= max_bytes lim /\
   (nparts + length (request_parts taken) <= max_parts lim)%nat).
Proof.
  revert bytes nparts taken carried rest.
  induction queue as [|job queue IH]; intros bytes nparts taken carried rest; cbn [fill_request].
  { intros [= <- <- <-]. split; [done|by left]. }
  destruct (_ && _); [|intros [= <- <- <-]; split; [done|by left]].
  destruct (_ || _) eqn:E; [intros [= <- <- <-]; split; [done|by left]|].
  apply orb_false_iff in E as [E1%N.ltb_ge E2%Nat.ltb_ge].
  destruct (fill_request lim _ _ queue) as [[t c] r] eqn:Ef. intros [= <- <- <-].
  apply IH in Ef as [-> Hc]. split; [done|]. right.
  unfold request_parts in *. cbn [fold_right]. rewrite fmap_cons. cbn [concat]. rewrite length_app.
  destruct Hc as [-> |[H1 H2]]; cbn in *; [split; lia|]. split; lia.
Qed.

Lemma lane_turn_spec lim ln ln' req :
  lane_turn lim ln = (ln', Some req) ->
  option_list (ln_carried ln) ++ ln_queue ln
  = req ++ option_list (ln_carried ln') ++ ln_queue ln' /\
  ln_inflight ln' = ln_inflight ln ++ [req] /\ request_ok lim req.
Proof.
  unfold lane_turn.
  assert (Hgen : forall job q,
    (let '(taken, carried, q') := fill_request lim (job_bytes job) (length (job_parts job)) q in
     (mkLane carried q' (ln_inflight ln ++ [job :: taken]), Some (job :: taken))) = (ln', Some req) ->
    job :: q = req ++ option_list (ln_carried ln') ++ ln_queue ln' /\
    ln_inflight ln' = ln_inflight ln ++ [req] /\ request_ok lim req).
  { intros job q. destruct (fill_request lim _ _ q) as [[t c] r] eqn:E. intros [= <- <-].
    apply fill_request_spec in E as [-> Hc]. cbn [ln_carried ln_queue ln_inflight].
    split; [done|]. split; [done|]. destruct Hc as [-> |[H1 H2]]; [left; by eexists|right].
    unfold request_parts in *. cbn [fold_right]. rewrite fmap_cons. cbn [concat]. rewrite length_app.
    split; lia. }
  destruct (ln_carried ln) as [job|]; [apply Hgen|].
  destruct (ln_queue ln) as [|job q]; [done|apply Hgen].
Qed.

Lemma cut_results_parts {A} (f : A -> ShardWritePartResult) (groups : list (list A)) :
  cut_results (length (A := A) <$> groups) (f <$> concat groups)
  = (fun g : list A => f <$> g) <$> groups.
Proof.
  induction groups as [|g groups IH]; [done|]. rewrite !fmap_cons. cbn [cut_results concat].
  rewrite fmap_app, take_app_length', drop_app_length' by (by rewrite length_fmap). by rewrite IH.
Qed.

Lemma cut_results_length counts rs : length (cut_results counts rs) = length counts.
Proof. revert rs. induction counts as [|n counts IH]; intros rs; cbn; [done|]. by rewrite IH. Qed.

Lemma send_jobs_replies addr jobs outcome : (send_jobs addr jobs outcome).*1 = job_reply <$> jobs.
Proof.
  unfold send_jobs.
  assert (Hall : forall o : NodeSendOutcome, ((fun j => (job_reply j, o)) <$> jobs).*1 = job_reply <$> jobs)
    by (intros o; by rewrite <-list_fmap_compose).
  destruct outcome; [|apply Hall..]. destruct (_ =? _)%nat; [|apply Hall].
  apply fst_zip. rewrite !length_fmap, cut_results_length. by rewrite !length_fmap.
Qed.

Lemma lane_step_inv lim addr run run' : lane_inv lim run -> lane_step lim addr run run' -> lane_inv lim run'.
Proof.
  intros [H1 H2 H3 H4] Hst. destruct Hst as [enq sent ln log job|enq sent ln ln' log req Hlt Ht|
    enq sent ln log before req after outcome Hin];
    cbn [lr_enqueued lr_sent lr_lane lr_answers] in *; split;
    cbn [lr_enqueued lr_sent lr_lane lr_answers ln_carried ln_queue ln_inflight]; try done.
  - by rewrite H1, <-!app_assoc.
  - destruct (lane_turn_spec _ _ _ _ Ht) as (Hq & _ & _).
    rewrite H1, Hq, concat_app. cbn. by rewrite app_nil_r, <-!app_assoc.
  - destruct (lane_turn_spec _ _ _ _ Ht) as (_ & _ & Hok). apply Forall_app. split; [done|by apply Forall_singleton].
  - destruct (lane_turn_spec _ _ _ _ Ht) as (_ & -> & _). rewrite length_app. cbn. lia.
  - destruct (lane_turn_spec _ _ _ _ Ht) as (_ & -> & _).
    rewrite !concat_app, !fmap_app, app_assoc, H4. done.
  - rewrite Hin, length_app in H3. cbn in H3. rewrite length_app. lia.
  - rewrite <-H4, Hin, !fmap_app, send_jobs_replies, !concat_app, !fmap_app. cbn [concat].
    rewrite fmap_app. solve_Permutation.
Qed.

(** ** Properties *)

(** C28: A lane, whatever the interleaving of callers, sends and answers: jobs leave in the order
    they were queued and none is lost; a request either is a single job or keeps both limits;
    no more requests are out than allowed; and every job sent is answered exactly once, when
    its request is. *)
Theorem coalescer_lane_correct (lim : Limits) (addr : string) (run : LaneRun) :
  rtc (lane_step lim addr) run_new run -> lane_inv lim run.
Proof.
  assert (H0 : lane_inv lim run_new) by (split; cbn; try done; lia).
  revert H0. generalize run_new. intros r0 H0 Hr.
  induction Hr as [|x y z Hxy _ IH]; [done|]. by apply IH, (lane_step_inv _ addr x).
Qed.

(** Each caller gets the results of its own parts: when the node answers each part of the
    request in order, the answer cut back for a job is what the node says of that job's parts;
    an answer of the wrong length, and every other outcome, reaches every caller as it is. *)
Theorem coalescer_answers_own_parts (addr : string) (jobs : list Job)
    (answer : ShardWriteRequest -> ShardWritePartResult) :
  send_jobs addr jobs (SendResults (answer <$> request_parts jobs))
  = (fun j => (job_reply j, SendResults (answer <$> job_parts j))) <$> jobs /\
  (forall outcome, (send_jobs addr jobs outcome).*1 = job_reply <$> jobs) /\
  (forall rs, length rs <> length (request_parts jobs) ->
     send_jobs addr jobs (SendResults rs)
     = (fun j => (job_reply j, SendFailed (mismatch_msg addr (length rs) (length (request_parts jobs)))))
         <$> jobs).
Proof.
  assert (Hsum : sum_nat ((fun j => length (job_parts j)) <$> jobs) = length (request_parts jobs)).
  { unfold request_parts. induction jobs as [|j jobs IH]; [done|].
    rewrite !fmap_cons. cbn [concat sum_nat fold_right]. rewrite length_app.
    f_equal. exact IH. }
  split; [|split; [apply send_jobs_replies|]].
  - unfold send_jobs. rewrite Hsum, length_fmap, Nat.eqb_refl. unfold request_parts.
    pose proof (cut_results_parts answer (job_parts <$> jobs)) as Hc.
    rewrite <-!list_fmap_compose in Hc. unfold compose in Hc. rewrite Hc. clear.
    induction jobs as [|j jobs IH]; [done|]. cbn. f_equal. exact IH.
  - intros rs Hne. unfold send_jobs. rewrite Hsum. apply Nat.eqb_neq in Hne as ->. done.
Qed.

Definition wit_part (id : N) : ShardWriteRequest :=
  mkWriteReq "db" "autogen" None epoch_default id [id; id].

Definition wit_job (reply : N) (ids : list N) : Job := job_of (wit_part <$> ids) reply.

(** Two jobs of two parts share a request of at most four parts; a third is
    held back. *)
Definition wit_lane_run : LaneRun :=
  mkLaneRun [wit_job 1 [10; 11]; wit_job 2 [12; 13]; wit_job 3 [14]]
    [[wit_job 1 [10; 11]; wit_job 2 [12; 13]]]
    (mkLane None [wit_job 3 [14]] [[wit_job 1 [10; 11]; wit_job 2 [12; 13]]]) [].

Lemma coalescer_lane_correct_witness : lane_inv (coalescer_new 2 1000 4) wit_lane_run.
Proof.
  apply (coalescer_lane_correct (coalescer_new 2 1000 4) "node-2").
  eapply rtc_l; [apply (lane_enqueue _ _ _ _ _ _ (wit_job 1 [10; 11]))|].
  eapply rtc_l; [apply (lane_enqueue _ _ _ _ _ _ (wit_job 2 [12; 13]))|].
  eapply rtc_l; [apply (lane_enqueue _ _ _ _ _ _ (wit_job 3 [14]))|].
  eapply rtc_l; [|apply rtc_refl].
  apply (lane_send _ _ [wit_job 1 [10; 11]; wit_job 2 [12; 13]; wit_job 3 [14]] []); [cbn; lia|].
  vm_compute. reflexivity.
Defined.
