(* ===== verification/FieldTypes.v ===== *)
(** * Field types ([hyperbytedb/src/domain/field_type.rs],
    [split_field_type_conflicts] of [application/ingest_metadata.rs])

    Which field types may share a column, the widening of stored types, and
    the split of a batch into the points that fit and the partial write that
    reports the rest. *)

From stdpp Require Import prelude list sorting gmap strings pretty.
From S2P Require Import Prelude Bytes Points.
From stdpp Require Import options.

#[local] Open Scope N_scope.

Definition widen_field_disc (a b : N) : option N :=
  if a =? b then Some a
  else if ((a =? 0) && (b =? 1)) || ((a =? 1) && (b =? 0)) then Some 0
  else if ((a =? 1) && (b =? 2)) || ((a =? 2) && (b =? 1)) then Some 2
  else None.

Definition field_types_compatible (stored incoming : N) : bool :=
  bool_decide (is_Some (widen_field_disc stored incoming)).

Definition merge_field_disc (stored incoming : N) : N :=
  default stored (widen_field_disc stored incoming).

(** One key of the batch. *)
Definition merge_field (out : gmap string N) (kv : string * N) : gmap string N :=
  match out !! kv.1 with
  | Some stored =>
    match widen_field_disc stored kv.2 with Some w => <[kv.1 := w]> out | None => out end
  | None => <[kv.1 := kv.2]> out
  end.

Definition merge_field_type_map (existing batch : gmap string N) : gmap string N :=
  fold_left merge_field (map_to_list batch) existing.

(** ** Conflicts in a batch *)

Record FieldTypeConflict := mkConflict {
  fc_field : string;
  fc_measurement : string;
  fc_got : string;
  fc_expected : string
}.

Definition point_fields (p : Point) : list (string * FieldValue) := btree_iter string_leb (pt_fields p).

(** [point.fields.iter().find_map(..)]. *)
Fixpoint find_conflict (meas : string) (known : gmap string N) (fields : list (string * FieldValue))
    : option FieldTypeConflict :=
  match fields with
  | [] => None
  | (k, v) :: rest =>
    let disc := type_discriminant v in
    match known !! k with
    | Some have =>
      match widen_field_disc have disc with
      | None => Some (mkConflict k meas (type_name_from_discriminant disc)
                        (type_name_from_discriminant have))
      | Some _ => find_conflict meas known rest
      end
    | None => find_conflict meas known rest
    end
  end.

(** The second loop over a kept point's fields. *)
Definition note_field (known : gmap string N) (kv : string * FieldValue) : gmap string N :=
  let disc := type_discriminant kv.2 in
  <[kv.1 := default disc ((known !! kv.1) ≫= fun have => widen_field_disc have disc)]> known.

Definition note_point (known : gmap string N) (p : Point) : gmap string N :=
  fold_left note_field (point_fields p) known.

Record SplitState := mkSplit {
  ss_types : gmap string (gmap string N);
  ss_kept : list Point;
  ss_dropped : N;
  ss_first : option FieldTypeConflict
}.

Section Split.
(** [metadata.get_measurement(db, rp, m)], as the stored field types. *)
Context (stored : string -> result string (option (gmap string N))).

Definition split_point (st : SplitState) (p : Point) : result string SplitState :=
  types ← match ss_types st !! pt_measurement p with
          | Some _ => Ok (ss_types st)
          | None =>
            s ← stored (pt_measurement p);
            Ok (<[pt_measurement p := default ∅ s]> (ss_types st))
          end;
  match types !! pt_measurement p with
  | None => Ok (mkSplit types (ss_kept st) (ss_dropped st) (ss_first st))
  | Some known =>
    match find_conflict (pt_measurement p) known (point_fields p) with
    | Some e =>
      Ok (mkSplit types (ss_kept st) (ss_dropped st + 1)
            (Some (default e (ss_first st))))
    | None =>
      Ok (mkSplit (<[pt_measurement p := note_point known p]> types)
            (ss_kept st ++ [p]) (ss_dropped st) (ss_first st))
    end
  end.

Fixpoint split_each (st : SplitState) (points : list Point) : result string SplitState :=
  match points with
  | [] => Ok st
  | p :: rest => st' ← split_point st p; split_each st' rest
  end.

(** The kept points, and the first conflict with the number of points it and
    the later ones dropped. *)
Definition split_field_type_conflicts (points : list Point)
    : result string (list Point * option (FieldTypeConflict * N)) :=
  st ← split_each (mkSplit ∅ [] 0 None) points;
  Ok (ss_kept st, (fun e => (e, ss_dropped st)) <$> ss_first st).
End Split.

(** ** Widening *)

(** A stored type takes values of another without changing. *)
Definition absorbs (a b : N) : Prop := widen_field_disc a b = Some a.

#[export] Instance absorbs_dec a b : Decision (absorbs a b).
Proof. unfold absorbs. apply _. Defined.

Lemma widen_cases a b w :
  widen_field_disc a b = Some w ->
  (a = b /\ w = a) \/ (a = 0 /\ b = 1 /\ w = 0) \/ (a = 1 /\ b = 0 /\ w = 0)
  \/ (a = 1 /\ b = 2 /\ w = 2) \/ (a = 2 /\ b = 1 /\ w = 2).
Proof.
  unfold widen_field_disc.
  destruct (N.eqb_spec a b), (N.eqb_spec a 0), (N.eqb_spec a 1), (N.eqb_spec a 2),
    (N.eqb_spec b 0), (N.eqb_spec b 1), (N.eqb_spec b 2); cbn; intros [= <-]; subst; try done; lia.
Qed.

Lemma widen_comm a b : widen_field_disc a b = widen_field_disc b a.
Proof.
  unfold widen_field_disc.
  destruct (N.eqb_spec a b) as [->|Hne]; [by rewrite N.eqb_refl|].
  destruct (N.eqb_spec b a); [congruence|].
  destruct (N.eqb_spec a 0), (N.eqb_spec a 1), (N.eqb_spec a 2),
    (N.eqb_spec b 0), (N.eqb_spec b 1), (N.eqb_spec b 2); subst; try done.
Qed.

Lemma widen_refl a : widen_field_disc a a = Some a.
Proof. unfold widen_field_disc. by rewrite N.eqb_refl. Qed.

(** A widened type takes what both took. *)
Lemma widen_absorbs a b w x :
  widen_field_disc a b = Some w -> absorbs a x \/ x = b -> absorbs w x.
Proof.
  unfold absorbs. intros Hw Hx. apply widen_cases in Hw.
  destruct Hx as [Hx|Hx].
  - apply widen_cases in Hx.
    destruct Hw as [[? ?]|[(? & ? & ?)|[(? & ? & ?)|[(? & ? & ?)|(? & ? & ?)]]]];
      destruct Hx as [[? ?]|[(? & ? & ?)|[(? & ? & ?)|[(? & ? & ?)|(? & ? & ?)]]]];
      subst; (done || lia || apply widen_refl).
  - destruct Hw as [[? ?]|[(? & ? & ?)|[(? & ? & ?)|[(? & ? & ?)|(? & ? & ?)]]]];
      subst; (done || apply widen_refl).
Qed.

Lemma absorbs_refl a : absorbs a a.
Proof. apply widen_refl. Qed.

(** A map of types takes every field of a point. *)
Definition covers (known : gmap string N) (p : Point) : Prop :=
  forall k v, pt_fields p !! k = Some v ->
    exists t, known !! k = Some t /\ absorbs t (type_discriminant v).

(** [known'] takes what [known] took. *)
Definition types_grow (known known' : gmap string N) : Prop :=
  forall k t, known !! k = Some t ->
    exists t', known' !! k = Some t' /\ forall x, absorbs t x -> absorbs t' x.

Lemma types_grow_refl known : types_grow known known.
Proof. intros k t Ht. by exists t. Qed.

Lemma types_grow_trans a b c : types_grow a b -> types_grow b c -> types_grow a c.
Proof.
  intros H1 H2 k t Ht. destruct (H1 _ _ Ht) as (t1 & Ht1 & Ha). destruct (H2 _ _ Ht1) as (t2 & Ht2 & Hb).
  exists t2. split; [done|]. auto.
Qed.

Lemma covers_grow known known' p : covers known p -> types_grow known known' -> covers known' p.
Proof.
  intros Hc Hg k v Hv. destruct (Hc _ _ Hv) as (t & Ht & Ha). destruct (Hg _ _ Ht) as (t' & Ht' & Hx).
  exists t'. split; [done|]. auto.
Qed.

(** *** Merging maps *)

Lemma merge_field_spec out kv k :
  merge_field out kv !! k
  = if decide (kv.1 = k)
    then Some (match out !! k with Some s => merge_field_disc s kv.2 | None => kv.2 end)
    else out !! k.
Proof.
  unfold merge_field, merge_field_disc. destruct kv as [k' d]. cbn.
  case_decide as E; [subst|].
  - destruct (out !! k) as [s|] eqn:Es; [|by rewrite lookup_insert_eq].
    destruct (widen_field_disc s d); cbn; [by rewrite lookup_insert_eq|done].
  - destruct (out !! k') as [s|]; [destruct (widen_field_disc s d)|];
      by rewrite ?lookup_insert_ne by done.
Qed.

Lemma merge_fields_lookup l existing k :
  NoDup l.*1 ->
  fold_left merge_field l existing !! k
  = match list_to_map (M := gmap string N) l !! k with
    | Some d => Some (match existing !! k with Some s => merge_field_disc s d | None => d end)
    | None => existing !! k
    end.
Proof.
  revert existing. induction l as [|[k' d] l IH]; intros existing Hnd; cbn [fold_left].
  { by rewrite list_to_map_nil, lookup_empty. }
  apply NoDup_cons in Hnd as [Hk Hnd]. rewrite IH by done.
  rewrite merge_field_spec, list_to_map_cons. cbn [fst snd].
  case_decide as E; [subst|by rewrite lookup_insert_ne].
  rewrite lookup_insert_eq, (not_elem_of_list_to_map_1 (M := gmap string) l k) by done. done.
Qed.

Lemma merge_map_lookup existing batch k :
  merge_field_type_map existing batch !! k
  = match batch !! k with
    | Some d => Some (match existing !! k with Some s => merge_field_disc s d | None => d end)
    | None => existing !! k
    end.
Proof.
  unfold merge_field_type_map. rewrite merge_fields_lookup by apply NoDup_fst_map_to_list.
  by rewrite list_to_map_to_list.
Qed.

(** *** One point *)

Lemma find_conflict_None meas known l :
  find_conflict meas known l = None <->
  forall k v have, (k, v) ∈ l -> known !! k = Some have ->
    is_Some (widen_field_disc have (type_discriminant v)).
Proof.
  induction l as [|[k v] l IH]; cbn [find_conflict]; [split; [by intros _ ? ? ? ?%elem_of_nil|done]|].
  assert (Hgo : (forall have, known !! k = Some have ->
      is_Some (widen_field_disc have (type_discriminant v))) ->
    find_conflict meas known l = None <->
    (forall k0 v0 have, (k0, v0) ∈ (k, v) :: l -> known !! k0 = Some have ->
       is_Some (widen_field_disc have (type_discriminant v0)))).
  { intros Hk. rewrite IH. split; [|intros H k0 v0 have Hin; apply H; by right].
    intros H k0 v0 have [[= -> ->]|Hin]%elem_of_cons; [apply Hk|by apply H]. }
  destruct (known !! k) as [have|] eqn:Ek; [|by apply Hgo].
  destruct (widen_field_disc have (type_discriminant v)) eqn:Ew.
  - apply Hgo. intros ? [= <-]. rewrite Ew. by eexists.
  - split; [done|]. intros H. destruct (H k v have) as [w Hw]; [by left|done|congruence].
Qed.

Lemma find_conflict_Some meas known l e :
  find_conflict meas known l = Some e ->
  exists k v have, (k, v) ∈ l /\ known !! k = Some have /\
    widen_field_disc have (type_discriminant v) = None.
Proof.
  induction l as [|[k v] l IH]; cbn [find_conflict]; [done|].
  assert (Hgo : find_conflict meas known l = Some e -> exists k0 v0 have, (k0, v0) ∈ (k, v) :: l /\
    known !! k0 = Some have /\ widen_field_disc have (type_discriminant v0) = None).
  { intros (k0 & v0 & have & H & ?)%IH. exists k0, v0, have. split; [by right|done]. }
  destruct (known !! k) as [have|] eqn:Ek; [|done].
  destruct (widen_field_disc have (type_discriminant v)) eqn:Ew; [done|].
  intros _. exists k, v, have. split; [by left|done].
Qed.

Lemma note_fields_lookup l known k :
  NoDup l.*1 ->
  fold_left note_field l known !! k
  = match list_to_map (M := gmap string FieldValue) l !! k with
    | Some v => Some (default (type_discriminant v)
                  ((known !! k) ≫= fun have => widen_field_disc have (type_discriminant v)))
    | None => known !! k
    end.
Proof.
  revert known. induction l as [|[k' v] l IH]; intros known Hnd; cbn [fold_left].
  { by rewrite list_to_map_nil, lookup_empty. }
  apply NoDup_cons in Hnd as [Hk Hnd]. rewrite IH by done. rewrite list_to_map_cons.
  unfold note_field. cbn [fst snd]. destruct (decide (k' = k)) as [->|Hne].
  - by rewrite !lookup_insert_eq, (not_elem_of_list_to_map_1 (M := gmap string) l k).
  - by rewrite !lookup_insert_ne by done.
Qed.

Lemma note_point_lookup known p k :
  note_point known p !! k
  = match pt_fields p !! k with
    | Some v => Some (default (type_discriminant v)
                  ((known !! k) ≫= fun have => widen_field_disc have (type_discriminant v)))
    | None => known !! k
    end.
Proof.
  unfold note_point, point_fields. rewrite note_fields_lookup by apply btree_iter_NoDup.
  f_equal. rewrite <-(list_to_map_to_list (pt_fields p)) at 2.
  by rewrite (list_to_map_proper _ _ (btree_iter_NoDup _ _) (btree_iter_Permutation _ _)).
Qed.

Lemma note_point_fits known p :
  find_conflict (pt_measurement p) known (point_fields p) = None ->
  covers (note_point known p) p /\ types_grow known (note_point known p).
Proof.
  intros Hn. rewrite find_conflict_None in Hn.
  assert (Hc : forall k v have, pt_fields p !! k = Some v -> known !! k = Some have ->
    is_Some (widen_field_disc have (type_discriminant v))).
  { intros k v have Hv. apply Hn. by apply btree_iter_elem. }
  split.
  - intros k v Hv. rewrite note_point_lookup, Hv. eexists. split; [done|].
    destruct (known !! k) as [have|] eqn:Ek; cbn; [|apply absorbs_refl].
    destruct (Hc k v have Hv Ek) as [w Hw]. rewrite Hw. cbn.
    eapply widen_absorbs; [done|by right].
  - intros k t Ht. rewrite note_point_lookup. destruct (pt_fields p !! k) as [v|] eqn:Hv; [|by exists t].
    eexists. split; [done|]. intros x Hx. rewrite Ht. cbn.
    destruct (Hc k v t Hv Ht) as [w Hw]. rewrite Hw. cbn. eapply widen_absorbs; [done|by left].
Qed.

(** A conflict stays one as the type widens. *)
Lemma conflict_persists t t' b :
  (forall x, absorbs t x -> absorbs t' x) -> widen_field_disc t b = None ->
  widen_field_disc t' b = None.
Proof.
  intros Hg Hn. specialize (Hg t (widen_refl t)). unfold absorbs in *.
  destruct (widen_field_disc t' b) as [w|] eqn:Ew; [|done]. exfalso.
  apply widen_cases in Hg, Ew.
  destruct Hg as [[? ?]|[(? & ? & ?)|[(? & ? & ?)|[(? & ? & ?)|(? & ? & ?)]]]];
    destruct Ew as [[? ?]|[(? & ? & ?)|[(? & ? & ?)|[(? & ? & ?)|(? & ? & ?)]]]];
    subst; try (rewrite widen_refl in Hn); done.
Qed.

(** ** Batches *)

(** The types of a measurement take a point. *)
Definition fits (types : gmap string (gmap string N)) (p : Point) : bool :=
  match types !! pt_measurement p with
  | Some known =>
    forallb (fun kv => match known !! kv.1 with
                       | Some t => bool_decide (absorbs t (type_discriminant kv.2))
                       | None => false
                       end) (point_fields p)
  | None => false
  end.

Lemma fits_covers types p known :
  types !! pt_measurement p = Some known -> fits types p = true <-> covers known p.
Proof.
  intros Ht. unfold fits. rewrite Ht, forallb_elem_of. split.
  - intros H k v Hv. specialize (H (k, v) (proj2 (btree_iter_elem _ _ _ _) Hv)). cbn in H.
    destruct (known !! k) as [t|]; [|done]. apply bool_decide_eq_true in H. by exists t.
  - intros H [k v] Hin. apply btree_iter_elem in Hin. destruct (H k v Hin) as (t & Hk & Ha). cbn.
    rewrite Hk. by apply bool_decide_eq_true.
Qed.

(** A field of the point conflicts with its stored type. *)
Definition conflicts (known : gmap string N) (p : Point) : Prop :=
  exists k v t, pt_fields p !! k = Some v /\ known !! k = Some t /\
    widen_field_disc t (type_discriminant v) = None.

Lemma conflicts_grow known known' p :
  types_grow known known' -> conflicts known p -> conflicts known' p.
Proof.
  intros Hg (k & v & t & Hv & Ht & Hn). destruct (Hg _ _ Ht) as (t' & Ht' & Ha).
  exists k, v, t'. split; [done|]. split; [done|]. by eapply conflict_persists.
Qed.

Lemma conflicts_not_covers known p : conflicts known p -> ~ covers known p.
Proof.
  intros (k & v & t & Hv & Ht & Hn) Hc. destruct (Hc _ _ Hv) as (t' & Ht' & Ha).
  unfold absorbs in Ha. congruence.
Qed.

Lemma filterb_full {A} (f : A -> bool) l : (length l <= length (List.filter f l))%nat -> List.filter f l = l.
Proof.
  induction l as [|x l IH]; cbn; [done|]. pose proof (filterb_length f l).
  destruct (f x); cbn; intros Hl; [f_equal; apply IH; lia|lia].
Qed.

Section SplitInv.
Context (stored : string -> result string (option (gmap string N))).

(** Every point so far is settled by the types: kept and taken, or dropped
    and in conflict. *)
Record split_inv (points : list Point) (st : SplitState) : Prop := mkSplitInv {
  si_kept : ss_kept st = List.filter (fits (ss_types st)) points;
  si_settled : forall p, p ∈ points ->
    exists known, ss_types st !! pt_measurement p = Some known /\ (covers known p \/ conflicts known p);
  si_count : ss_dropped st + N.of_nat (length (ss_kept st)) = N.of_nat (length points);
  si_first : ss_first st = None <-> ss_dropped st = 0;
  si_stored : forall m known, ss_types st !! m = Some known ->
    exists s, stored m = Ok s /\ types_grow (default ∅ s) known
}.

(** Growing one measurement's types settles nothing differently. *)
Lemma fits_grow (types types' : gmap string (gmap string N)) p known :
  types !! pt_measurement p = Some known -> covers known p \/ conflicts known p ->
  (forall m k, types !! m = Some k -> exists k', types' !! m = Some k' /\ types_grow k k') ->
  fits types' p = fits types p /\
  exists known', types' !! pt_measurement p = Some known' /\ (covers known' p \/ conflicts known' p).
Proof.
  intros Ht Hs Hg. destruct (Hg _ _ Ht) as (known' & Ht' & Hgk).
  assert (Hs' : covers known' p \/ conflicts known' p).
  { destruct Hs; [left; by eapply covers_grow|right; by eapply conflicts_grow]. }
  split; [|by exists known'].
  apply eq_true_iff_eq. rewrite (fits_covers _ _ _ Ht), (fits_covers _ _ _ Ht').
  destruct Hs as [Hc|Hc].
  - split; [done|]. intros _. by eapply covers_grow.
  - split; intros H; exfalso; [|by eapply conflicts_not_covers].
    eapply conflicts_not_covers; [|exact H]. by eapply conflicts_grow.
Qed.

(** The types of a measurement are loaded on its first point. *)
Lemma split_load points st p types :
  split_inv points st ->
  match ss_types st !! pt_measurement p with
  | Some _ => Ok (ss_types st)
  | None => s ← stored (pt_measurement p); Ok (<[pt_measurement p := default ∅ s]> (ss_types st))
  end = Ok types ->
  split_inv points (mkSplit types (ss_kept st) (ss_dropped st) (ss_first st)) /\
  is_Some (types !! pt_measurement p).
Proof.
  intros Hi. destruct (ss_types st !! pt_measurement p) as [known|] eqn:Ek.
  { intros <-%Ok_inj. split; [by destruct st|by eexists]. }
  destruct (stored (pt_measurement p)) as [s|] eqn:Es; cbn; [|done]. intros <-%Ok_inj.
  split; [|rewrite lookup_insert_eq; by eexists]. destruct Hi as [H1 H2 H3 H4 H5].
  assert (Hg : forall m k, ss_types st !! m = Some k ->
    exists k', <[pt_measurement p := default ∅ s]> (ss_types st) !! m = Some k' /\ types_grow k k').
  { intros m k Hm. rewrite lookup_insert_ne by congruence. exists k. split; [done|apply types_grow_refl]. }
  split; cbn [ss_types ss_kept ss_dropped ss_first]; [|..|done|done|].
  - rewrite H1. apply List.filter_ext_in. intros q Hq%list_elem_of_In.
    destruct (H2 q Hq) as (known & Hk & Hs). symmetry. by eapply fits_grow.
  - intros q Hq. destruct (H2 q Hq) as (known & Hk & Hs). by eapply fits_grow.
  - intros m known [[<- <-]|[Hne Hm]]%lookup_insert_Some; [|by apply H5].
    exists s. split; [done|apply types_grow_refl].
Qed.

Lemma split_keep points types kept dropped first p known :
  split_inv points (mkSplit types kept dropped first) ->
  types !! pt_measurement p = Some known ->
  find_conflict (pt_measurement p) known (point_fields p) = None ->
  split_inv (points ++ [p])
    (mkSplit (<[pt_measurement p := note_point known p]> types) (kept ++ [p]) dropped first).
Proof.
  intros [H1 H2 H3 H4 H5] Hk Hn. cbn [ss_types ss_kept ss_dropped ss_first] in *.
  destruct (note_point_fits known p Hn) as [Hc Hgp].
  set (types' := <[pt_measurement p := note_point known p]> types).
  assert (Hnew : types' !! pt_measurement p = Some (note_point known p)) by apply lookup_insert_eq.
  assert (Hg : forall m k, types !! m = Some k -> exists k', types' !! m = Some k' /\ types_grow k k').
  { intros m k Hm. destruct (decide (pt_measurement p = m)) as [<-|Hne].
    - assert (k = known) as -> by congruence. by exists (note_point known p).
    - exists k. unfold types'. rewrite lookup_insert_ne by done. split; [done|apply types_grow_refl]. }
  split; cbn [ss_types ss_kept ss_dropped ss_first].
  - rewrite filterb_app, H1. f_equal.
    + apply List.filter_ext_in. intros q Hq%list_elem_of_In.
      destruct (H2 q Hq) as (k & Hkq & Hs). symmetry. by eapply fits_grow.
    + cbn. by rewrite (proj2 (fits_covers _ _ _ Hnew)).
  - intros q [Hq| ->%list_elem_of_singleton]%elem_of_app; [|eauto].
    destruct (H2 q Hq) as (k & Hkq & Hs). by eapply fits_grow.
  - rewrite !length_app. cbn. lia.
  - done.
  - intros m k Hm. apply lookup_insert_Some in Hm as [[<- <-]|[Hne Hm]]; [|by apply H5].
    destruct (H5 _ _ Hk) as (s & Hs & Hgs). exists s. split; [done|]. by eapply types_grow_trans.
Qed.

Lemma split_drop points types kept dropped first p known e :
  split_inv points (mkSplit types kept dropped first) ->
  types !! pt_measurement p = Some known ->
  find_conflict (pt_measurement p) known (point_fields p) = Some e ->
  split_inv (points ++ [p]) (mkSplit types kept (dropped + 1) (Some (default e first))).
Proof.
  intros [H1 H2 H3 H4 H5] Hk (k & v & have & Hin & Hh & Hw)%find_conflict_Some.
  cbn [ss_types ss_kept ss_dropped ss_first] in *.
  assert (Hc : conflicts known p).
  { exists k, v, have. split; [|done]. by apply btree_iter_elem in Hin. }
  split; cbn [ss_types ss_kept ss_dropped ss_first].
  - rewrite filterb_app, <-H1. cbn. destruct (fits types p) eqn:Ef; [|by rewrite app_nil_r].
    apply (fits_covers _ _ _ Hk) in Ef. by apply conflicts_not_covers in Hc.
  - intros q [Hq| ->%list_elem_of_singleton]%elem_of_app; [by apply H2|eauto].
  - rewrite length_app. cbn. lia.
  - split; [done|lia].
  - done.
Qed.

Lemma split_points_inv pre points st st' :
  split_inv pre st -> split_each stored st points = Ok st' -> split_inv (pre ++ points) st'.
Proof.
  revert pre st. induction points as [|p points IH]; intros pre st Hi; cbn [split_each].
  { intros <-%Ok_inj. by rewrite app_nil_r. }
  destruct (split_point stored st p) as [st1|] eqn:E; cbn; [|done].
  rewrite cons_middle, app_assoc. apply IH. unfold split_point in E.
  destruct (match ss_types st !! _ with Some _ => _ | None => _ end) as [types|] eqn:Et; cbn in E; [|done].
  destruct (split_load _ _ _ _ Hi Et) as [Hi' [known Hk]]. rewrite Hk in E.
  destruct (find_conflict _ known _) as [e|] eqn:Ef; apply Ok_inj in E; subst st1.
  - by eapply split_drop.
  - by eapply split_keep.
Qed.
End SplitInv.

(** ** Properties *)

Lemma split_conflicts_spec (stored : string -> result string (option (gmap string N)))
    (points kept : list Point) (partial : option (FieldTypeConflict * N)) :
  split_field_type_conflicts stored points = Ok (kept, partial) ->
  exists types : gmap string (gmap string N),
    (forall m known, types !! m = Some known ->
       exists s, stored m = Ok s /\ types_grow (default ∅ s) known) /\
    kept = List.filter (fits types) points /\
    (forall p, p ∈ points -> fits types p = false ->
       exists known, types !! pt_measurement p = Some known /\ conflicts known p) /\
    N.of_nat (length kept) + default 0 (snd <$> partial) = N.of_nat (length points) /\
    (partial = None <-> kept = points).
Proof.
  unfold split_field_type_conflicts.
  destruct (split_each stored (mkSplit ∅ [] 0 None) points) as [st|] eqn:E; cbn; [|done].
  intros [= <- <-].
  assert (H0 : split_inv stored [] (mkSplit ∅ [] 0 None)).
  { split; cbn; try done. by intros ? ?%elem_of_nil. }
  destruct (split_points_inv stored [] points _ st H0 E) as [H1 H2 H3 H4 H5]. cbn [app] in *.
  exists (ss_types st). split; [done|]. split; [done|]. split.
  { intros p Hp Hf. destruct (H2 p Hp) as (known & Hk & [Hc|Hc]); [|by exists known].
    apply (fits_covers _ _ _ Hk) in Hc. congruence. }
  split.
  { destruct (ss_first st) as [e|]; cbn; [lia|]. rewrite (proj1 H4 eq_refl) in H3. lia. }
  rewrite fmap_None, H4. split.
  - intros Hz. rewrite H1 in H3 |- *. apply filterb_full. lia.
  - intros Hk. rewrite Hk in H3. lia.
Qed.

(** Splitting a batch by field type: there is one set of types per measurement, which takes
    everything the stored types took, such that the kept points are, in order, exactly the
    points of the batch that fit it; a dropped point has a field that conflicts with it; and
    the partial write is reported exactly when something was dropped, with its count. *)
Theorem split_conflicts_correct (stored : string -> result string (option (gmap string N)))
    (points kept : list Point) (partial : option (FieldTypeConflict * N)) :
  split_field_type_conflicts stored points = Ok (kept, partial) ->
  exists types : gmap string (gmap string N),
    (forall m known, types !! m = Some known ->
       exists s, stored m = Ok s /\ types_grow (default ∅ s) known) /\
    kept = List.filter (fits types) points /\
    (forall p, p ∈ points -> fits types p = false ->
       exists known, types !! pt_measurement p = Some known /\ conflicts known p) /\
    N.of_nat (length kept) + default 0 (snd <$> partial) = N.of_nat (length points) /\
    (partial = None <-> kept = points).
Proof. apply split_conflicts_spec. Qed.

Definition wit_types (m : string) : result string (option (gmap string N)) :=
  Ok (Some {[ "v"%string := 1 ]}).

Definition typed_point (v : FieldValue) : Point := mkPoint "cpu" ∅ {[ "v"%string := v ]} 5.

Lemma split_conflicts_correct_witness :
  exists types, [typed_point (FInteger 1); typed_point (FUInteger 7)]
    = List.filter (fits types)
        [typed_point (FInteger 1); typed_point (FString "x"); typed_point (FUInteger 7);
         typed_point (FFloat 0)].
Proof.
  destruct (split_conflicts_correct wit_types
    [typed_point (FInteger 1); typed_point (FString "x"); typed_point (FUInteger 7);
     typed_point (FFloat 0)]
    [typed_point (FInteger 1); typed_point (FUInteger 7)]
    (Some (mkConflict "v" "cpu" "string" "integer", 2))) as (types & _ & H & _).
  - vm_compute. reflexivity.
  - exists types. exact H.
Defined.

(** Widening never removes a field and never narrows what a stored type takes; a field new to
    the map gets the batch's type. *)
Theorem merge_map_grows (existing batch : gmap string N) :
  types_grow existing (merge_field_type_map existing batch) /\
  dom (merge_field_type_map existing batch) = dom existing ∪ dom batch /\
  forall k, existing !! k = None -> merge_field_type_map existing batch !! k = batch !! k.
Proof.
  split; [|split].
  - intros k t Ht. rewrite merge_map_lookup, Ht. destruct (batch !! k) as [d|]; [|by exists t].
    eexists. split; [done|]. intros x Hx. unfold merge_field_disc.
    destruct (widen_field_disc t d) as [w|] eqn:Ew; cbn; [|done]. eapply widen_absorbs; [done|by left].
  - apply set_eq. intros k. rewrite elem_of_union, !elem_of_dom, merge_map_lookup.
    destruct (batch !! k), (existing !! k); cbn; unfold is_Some; naive_solver.
  - intros k Hk. rewrite merge_map_lookup, Hk. by destruct (batch !! k).
Qed.
