(* ===== verification/ShardWriteHandler.v ===== *)
(** * The primary's side of a forwarded write
    ([hyperbytedb/src/adapters/http/shard_handlers.rs])

    A batch of parts from another node: each part is checked against this
    node's shard map, parsed and split by field type on its own; the parts
    that pass are appended to the WAL in groups and replicated part by part;
    every part gets its own status. The metadata pass, the WAL append and the
    dispatch of replication are the class [ShardReceiver]. *)

From stdpp Require Import prelude list sorting gmap strings pretty.
From S2P Require Import Prelude Bytes ShardTypes Membership Points PeerResolution ShardRouting ForwardCoalescer PointFrames FieldTypes.
From stdpp Require Import options.

#[local] Open Scope N_scope.

Record OutboundReplicationBatch := mkOutbound {
  ob_database : string;
  ob_retention_policy : string;
  ob_precision : option string;
  ob_body : bytes;
  ob_wal_seq : N;
  ob_target_node_ids : option (list N);
  ob_region_id : option N
}.

Class ShardReceiver (World : Type) := {
  rc_map : World -> result string ShardMap;
  rc_members : World -> option ClusterMembership;
  rc_stored_types : World -> string -> string -> string -> result string (option (gmap string N));
  rc_prepare : World -> string -> string -> list Point -> World * result string unit;
  rc_append : World -> string -> string -> list Point -> World * result string N;
  rc_replicate : World -> OutboundReplicationBatch -> World * result string unit
}.

(** ** Checks *)

(** [map.spaces.values().find_map(..)]. *)
Fixpoint lookup_in_spaces (d r : string) (id : N) (ss : list MeasurementShardSpace)
    : option ShardRegion :=
  match ss with
  | [] => None
  | s :: rest =>
    if negb (bool_decide (db (key s) = d)) || negb (bool_decide (rp (key s) = r))
    then lookup_in_spaces d r id rest
    else match find (fun reg => region_id reg =? id) (regions s) with
         | Some reg => Some reg
         | None => lookup_in_spaces d r id rest
         end
  end.

Definition lookup_region_in_db_rp (m : ShardMap) (d r : string) (id : N) : option ShardRegion :=
  lookup_in_spaces d r id (map_to_list (spaces m)).*2.

Definition forwarded_write_region (m : ShardMap) (node_id : N) (req : ShardWriteRequest)
    : result (N * string) ShardRegion :=
  match lookup_region_in_db_rp m (wr_db req) (wr_rp req) (wr_region_id req) with
  | None => Err (404, "region not found"%string)
  | Some region =>
    if negb (bool_decide (epoch region = wr_epoch req)) then Err (409, "stale epoch"%string)
    else if negb (bool_decide (node_id ∈ peers region)) then Err (403, "not owner"%string)
    else if negb (primary region =? node_id) then Err (409, "not region primary"%string)
    else Ok region
  end.

Definition quoted (s : string) : string :=
  let q := String (Ascii.ascii_of_nat 34) EmptyString in q +:+ s +:+ q.

Definition show_conflict (c : FieldTypeConflict) : string :=
  "field type conflict: input field " +:+ quoted (fc_field c) +:+ " on measurement "
  +:+ quoted (fc_measurement c) +:+ " is type " +:+ fc_got c +:+ ", already exists as type "
  +:+ fc_expected c.

Definition show_points_error (e : PointsError) : string :=
  match e with
  | PointsInternal m => "internal error: " +:+ m
  | PointsTooLarge m => "request payload too large: " +:+ m
  | PointsBad line reason => "unable to parse '" +:+ line +:+ "': " +:+ reason
  | PointsLimit c l => "request exceeds maximum point count: " +:+ pretty c +:+ " points (limit: " +:+ pretty l +:+ ")"
  | PointsNoClock => "wall clock not available for implicit timestamp on line protocol point"
  end.

#[local] Abbreviation results_t := (list (option ShardWritePartResult)).

Section Handler.
Context {World : Type} `{RC : !ShardReceiver World} `{J : !JsonError} `{PB : !PointsBincode}.
Context (parse_lp : bytes -> option string -> nat -> result PointsError (list Point)).
Context (default_limit max_points : nat) (node_id : N).

(** [part_result]. *)
Definition part_result (id status : N) (error : option string) : ShardWritePartResult :=
  mkPartResult id status (json_error <$> error).

Definition set_body (b : bytes) (req : ShardWriteRequest) : ShardWriteRequest :=
  mkWriteReq (wr_db req) (wr_rp req) (wr_precision req) (wr_epoch req) (wr_region_id req) b.

Definition parse_part (req : ShardWriteRequest) : result string (list Point) :=
  match parse_line_body_to_points_limited parse_lp default_limit (wr_body req) (wr_precision req)
          max_points with
  | Some (Ok points) => Ok points
  | Some (Err e) => Err (show_points_error e)
  | None => Err "unreachable"%string
  end.

(** [split_forwarded_conflicts]: the request with the body to replicate, the
    kept points, and the partial write to report. *)
Definition split_forwarded_conflicts (w : World) (req : ShardWriteRequest) (points : list Point)
    : result string (ShardWriteRequest * list Point * option string) :=
  '(kept, partial) ← split_field_type_conflicts (rc_stored_types w (wr_db req) (wr_rp req)) points;
  let partial := (fun en => display_partial (show_conflict en.1) en.2) <$> partial in
  if bool_decide (is_Some partial) && negb (bool_decide (kept = [])) then
    match encode_points_binary kept with
    | Ok body => Ok (set_body body req, kept, partial)
    | Err e => Err (show_points_error e)
    end
  else Ok (req, kept, partial).

Record ReadyPart := mkReady {
  rd_index : nat;
  rd_req : ShardWriteRequest;
  rd_region : ShardRegion;
  rd_partial : option string
}.

Record WriteGroup := mkWriteGroup {
  wg_db : string;
  wg_rp : string;
  wg_members : list ReadyPart;
  wg_points : list Point
}.

Definition point_limit : nat := match max_points with O => default_limit | n => n end.

(** Into the first group of the same database and policy with room. *)
Fixpoint join_group (ready : ReadyPart) (points : list Point) (groups : list WriteGroup)
    : list WriteGroup :=
  match groups with
  | [] => [mkWriteGroup (wr_db (rd_req ready)) (wr_rp (rd_req ready)) [ready] points]
  | g :: rest =>
    if bool_decide (wg_db g = wr_db (rd_req ready)) && bool_decide (wg_rp g = wr_rp (rd_req ready))
       && (length (wg_points g) + length points <=? point_limit)%nat
    then mkWriteGroup (wg_db g) (wg_rp g) (wg_members g ++ [ready]) (wg_points g ++ points) :: rest
    else g :: join_group ready points rest
  end.

(** What checking one part gives: a status, or a part ready for its group. *)
Definition check_part (w : World) (m : ShardMap) (index : nat) (req : ShardWriteRequest)
    : ShardWritePartResult + (ReadyPart * list Point) :=
  match forwarded_write_region m node_id req with
  | Err (status, msg) => inl (part_result (wr_region_id req) status (Some msg))
  | Ok region =>
    match parse_part req with
    | Err e => inl (part_result (wr_region_id req) 400 (Some e))
    | Ok points =>
      match split_forwarded_conflicts w req points with
      | Err e => inl (part_result (wr_region_id req) 500 (Some e))
      | Ok (req', [], Some msg) => inl (part_result (wr_region_id req') 400 (Some msg))
      | Ok (req', kept, partial) => inr (mkReady index req' region partial, kept)
      end
    end
  end.

(** The first loop. *)
Fixpoint check_parts (w : World) (m : ShardMap) (index : nat) (parts : list ShardWriteRequest)
    (results : results_t) (groups : list WriteGroup) : results_t * list WriteGroup :=
  match parts with
  | [] => (results, groups)
  | req :: rest =>
    match check_part w m index req with
    | inl r => check_parts w m (S index) rest (<[index := Some r]> results) groups
    | inr (ready, points) => check_parts w m (S index) rest results (join_group ready points groups)
    end
  end.

(** [append_forwarded_group]. *)
Definition append_forwarded_group (w : World) (d r : string) (points : list Point)
    : World * result (N * string) N :=
  let '(w1, prepared) := rc_prepare w d r points in
  match prepared with
  | Err e => (w1, Err (422, e))
  | Ok _ =>
    let '(w2, appended) := rc_append w1 d r points in
    (w2, map_err (fun e => (500, e)) appended)
  end.

(** [replicate_forwarded_part]. *)
Definition replicate_forwarded_part (w : World) (m : ReadyPart) (wal_seq : N)
    : World * result string unit :=
  match rc_members w with
  | None => (w, Ok tt)
  | Some members =>
    let req := rd_req m in
    rc_replicate w
      (mkOutbound (wr_db req) (wr_rp req) (wr_precision req) (wr_body req) wal_seq
         (Some (active_region_peer_targets (rd_region m) node_id members))
         (Some (region_id (rd_region m))))
  end.

(** A member's answer once its group is in the WAL. *)
Definition member_result (m : ReadyPart) (replicated : result string unit) : ShardWritePartResult :=
  let id := wr_region_id (rd_req m) in
  match replicated, rd_partial m with
  | Ok _, Some msg => part_result id 400 (Some msg)
  | Ok _, None => part_result id 204 None
  | Err e, _ => part_result id 500 (Some e)
  end.

Definition replicate_member (wal_seq : N) (acc : World * results_t) (m : ReadyPart)
    : World * results_t :=
  let '(w, results) := acc in
  let '(w', replicated) := replicate_forwarded_part w m wal_seq in
  (w', <[rd_index m := Some (member_result m replicated)]> results).

(** The second loop, one group. *)
Definition write_group (acc : World * results_t) (g : WriteGroup) : World * results_t :=
  let '(w, results) := acc in
  let '(w1, outcome) := append_forwarded_group w (wg_db g) (wg_rp g) (wg_points g) in
  match outcome with
  | Err (status, msg) =>
    (w1, fold_left (fun res m =>
           <[rd_index m := Some (part_result (wr_region_id (rd_req m)) status (Some msg))]> res)
           (wg_members g) results)
  | Ok wal_seq => fold_left (replicate_member wal_seq) (wg_members g) (w1, results)
  end.

Definition unprocessed : ShardWritePartResult := part_result 0 500 (Some "part not processed"%string).

Definition apply_shard_write_batch (w : World) (parts : list ShardWriteRequest)
    : World * list ShardWritePartResult :=
  match rc_map w with
  | Err e => (w, (fun p => part_result (wr_region_id p) 500 (Some e)) <$> parts)
  | Ok m =>
    let '(results, groups) := check_parts w m 0 parts (replicate (length parts) None) [] in
    let '(w', results') := fold_left write_group groups (w, results) in
    (w', default unprocessed <$> results')
  end.

(** [apply_shard_write], the single-part endpoint: status and error. *)
Definition apply_shard_write (w : World) (req : ShardWriteRequest) : World * (N * option string) :=
  let answer status e : N * option string := (status, Some (json_error e)) in
  match rc_map w with
  | Err e => (w, answer 500 e)
  | Ok m =>
    match forwarded_write_region m node_id req with
    | Err (status, msg) => (w, answer status msg)
    | Ok region =>
      match parse_part req with
      | Err e => (w, answer 400 e)
      | Ok points =>
        match split_forwarded_conflicts w req points with
        | Err e => (w, answer 500 e)
        | Ok (_, [], Some msg) => (w, answer 400 msg)
        | Ok (req, points, partial) =>
          let '(w1, prepared) := rc_prepare w (wr_db req) (wr_rp req) points in
          match prepared with
          | Err e => (w1, answer 422 e)
          | Ok _ =>
            let '(w2, appended) := rc_append w1 (wr_db req) (wr_rp req) points in
            match appended with
            | Err e => (w2, answer 500 e)
            | Ok wal_seq =>
              let '(w3, replicated) :=
                match rc_members w2 with
                | None => (w2, Ok tt)
                | Some members =>
                  rc_replicate w2
                    (mkOutbound (wr_db req) (wr_rp req) (wr_precision req) (wr_body req) wal_seq
                       (Some (active_region_peer_targets region node_id members))
                       (Some (region_id region)))
                end in
              match replicated, partial with
              | Err e, _ => (w3, answer 500 e)
              | Ok _, Some msg => (w3, answer 400 msg)
              | Ok _, None => (w3, (204, None))
              end
            end
          end
        end
      end
    end
  end.
End Handler.

(** ** What the node keeps

    [logged w db rp p]: the point is in this node's WAL. *)
Class ShardReceiverLaws (World : Type) `{ShardReceiver World} := {
  logged : World -> string -> string -> Point -> Prop;
  append_logs w d r pts w' seq : rc_append w d r pts = (w', Ok seq) -> Forall (logged w' d r) pts;
  append_keeps w d r pts w' o d' r' p : rc_append w d r pts = (w', o) -> logged w d' r' p -> logged w' d' r' p;
  prepare_keeps w d r pts w' o d' r' p : rc_prepare w d r pts = (w', o) -> logged w d' r' p -> logged w' d' r' p;
  replicate_keeps w b w' o d' r' p : rc_replicate w b = (w', o) -> logged w d' r' p -> logged w' d' r' p
}.

Section Theorems.
Context {World : Type} {RC : ShardReceiver World} {RL : ShardReceiverLaws World}.
Context {J : JsonError} {PB : PointsBincode}.
Context (parse_lp : bytes -> option string -> nat -> result PointsError (list Point)).
Context (default_limit max_points : nat) (node_id : N).

#[local] Abbreviation parse_part := (parse_part parse_lp default_limit max_points).
#[local] Abbreviation check_part := (check_part parse_lp default_limit max_points node_id).
#[local] Abbreviation check_parts := (check_parts parse_lp default_limit max_points node_id).
#[local] Abbreviation join_group := (join_group default_limit max_points).
#[local] Abbreviation write_group := (write_group node_id).
#[local] Abbreviation replicate_member := (replicate_member node_id).

Definition is_success (status : N) : bool := (200 <=? status) && (status <=? 299).

(** An honest answer to a part: it names the part's region, and success means
    that this node is the region's primary at the sender's epoch and that
    every point of the part is in its WAL. *)
Definition honest (m : ShardMap) (w : World) (req : ShardWriteRequest) (r : ShardWritePartResult)
    : Prop :=
  part_region_id r = wr_region_id req /\
  (is_success (part_status r) = true ->
   exists region points,
     forwarded_write_region m node_id req = Ok region /\ parse_part req = Ok points /\
     Forall (logged w (wr_db req) (wr_rp req)) points).

(** A checked part waiting for its group. *)
Definition ready_for (m : ShardMap) (req : ShardWriteRequest) (ready : ReadyPart) (points : list Point)
    : Prop :=
  wr_region_id (rd_req ready) = wr_region_id req /\ wr_db (rd_req ready) = wr_db req /\
  wr_rp (rd_req ready) = wr_rp req /\
  exists region, forwarded_write_region m node_id req = Ok region /\
    (rd_partial ready = None -> parse_part req = Ok points).

Lemma check_part_spec w m index req :
  match check_part w m index req with
  | inl r => honest m w req r /\ is_success (part_status r) = false
  | inr (ready, points) => rd_index ready = index /\ ready_for m req ready points
  end.
Proof.
  unfold ShardWriteHandler.check_part.
  destruct (forwarded_write_region m node_id req) as [region|[status msg]] eqn:Ef.
  2: { assert (Hs : is_success status = false).
       { unfold forwarded_write_region in Ef. repeat (case_match; try done); by injection Ef as <- <-. }
       split; [split; [done|]|exact Hs]. cbn. by rewrite Hs. }
  destruct (parse_part req) as [points|e] eqn:Ep; [|split; [split; done|done]].
  destruct (split_forwarded_conflicts w req points) as [[[req' kept] partial]|e] eqn:Es;
    [|split; [split; done|done]].
  assert (Hreq : wr_region_id req' = wr_region_id req /\ wr_db req' = wr_db req /\ wr_rp req' = wr_rp req
                 /\ (partial = None -> kept = points)).
  { unfold split_forwarded_conflicts in Es.
    destruct (split_field_type_conflicts _ points) as [[k p]|] eqn:Ec; cbn in Es; [|done].
    destruct (split_conflicts_spec _ _ _ _ Ec) as (_ & _ & _ & _ & _ & Hiff).
    destruct (_ && _); [destruct (encode_points_binary k); [|done]|]; injection Es as <- <- <-;
      cbn; repeat split; intros Hn%fmap_None; by apply Hiff. }
  destruct Hreq as (H1 & H2 & H3 & H4).
  assert (Hready : ready_for m req (mkReady index req' region partial) kept).
  { split; [done|]. split; [done|]. split; [done|]. exists region. split; [done|]. cbn.
    intros Hn. rewrite (H4 Hn). done. }
  destruct kept, partial; try (split; [done|exact Hready]).
  split; [split; [done|]|done]. done.
Qed.

(** *** Groups *)

(** A group's member, with the part it stands for. *)
Definition member_ok (m : ShardMap) (parts : list ShardWriteRequest) (g : WriteGroup) (ready : ReadyPart)
    : Prop :=
  exists req points, parts !! rd_index ready = Some req /\ ready_for m req ready points /\
    wg_db g = wr_db req /\ wg_rp g = wr_rp req /\ points ⊆ wg_points g.

Definition write_group_ok (m : ShardMap) (parts : list ShardWriteRequest) (g : WriteGroup) : Prop :=
  forall ready, ready ∈ wg_members g -> member_ok m parts g ready.

Lemma join_group_ok m parts ready points groups req :
  parts !! rd_index ready = Some req -> ready_for m req ready points ->
  Forall (write_group_ok m parts) groups -> Forall (write_group_ok m parts) (join_group ready points groups).
Proof.
  intros Hp Hr. destruct Hr as (Hid & Hd & Hrp & Hreg).
  assert (Hr : ready_for m req ready points) by (split; done).
  induction groups as [|g groups IH]; intros Hg; cbn [ShardWriteHandler.join_group].
  - apply Forall_singleton. intros x ->%list_elem_of_singleton. exists req, points. cbn.
    split; [done|]. split; [done|]. split; [done|]. split; [done|]. done.
  - apply Forall_cons in Hg as [Hg Hgs]. destruct (_ && _) eqn:E.
    + apply andb_true_iff in E as [[E1%bool_decide_eq_true E2%bool_decide_eq_true]%andb_true_iff _].
      constructor; [|done]. intros x [Hx| ->%list_elem_of_singleton]%elem_of_app.
      * destruct (Hg x Hx) as (req' & pts' & Ha & Hb & Hc & He & Hf). exists req', pts'. cbn.
        split; [done|]. split; [done|]. split; [done|]. split; [done|]. set_solver.
      * exists req, points. cbn. split; [done|]. split; [done|]. split; [congruence|].
        split; [congruence|]. set_solver.
    + constructor; [done|]. by apply IH.
Qed.

Lemma join_group_members ready points groups x :
  (exists g, g ∈ join_group ready points groups /\ x ∈ wg_members g) <->
  x = ready \/ exists g, g ∈ groups /\ x ∈ wg_members g.
Proof.
  induction groups as [|g groups IH]; cbn [ShardWriteHandler.join_group].
  - split; [|intros [->|(g & ?%elem_of_nil & _)]; [|done]].
    + intros (g & ->%list_elem_of_singleton & ->%list_elem_of_singleton). by left.
    + eexists. split; [by left|]. by left.
  - destruct (_ && _).
    + split.
      * intros (g' & [->|Hg']%elem_of_cons & Hx); [|right; exists g'; split; [by right|done]].
        cbn in Hx. apply elem_of_app in Hx as [Hx| ->%list_elem_of_singleton]; [|by left].
        right. exists g. split; [by left|done].
      * intros [->|(g' & [->|Hg']%elem_of_cons & Hx)].
        -- eexists. split; [by left|]. cbn. apply elem_of_app. right. by left.
        -- eexists. split; [by left|]. cbn. apply elem_of_app. by left.
        -- exists g'. split; [by right|done].
    + assert (Hcons : forall gs, (exists g0, g0 ∈ g :: gs /\ x ∈ wg_members g0) <->
                x ∈ wg_members g \/ exists g0, g0 ∈ gs /\ x ∈ wg_members g0).
      { intros gs. setoid_rewrite elem_of_cons. naive_solver. }
      rewrite !Hcons, IH. naive_solver.
Qed.

(** *** The loops *)

Definition keeps (w w' : World) : Prop := forall d r p, logged w d r p -> logged w' d r p.

Lemma keeps_refl w : keeps w w.
Proof. by intros d r p. Qed.

Lemma keeps_trans w1 w2 w3 : keeps w1 w2 -> keeps w2 w3 -> keeps w1 w3.
Proof. intros H1 H2 d r p Hp. by apply H2, H1. Qed.

Lemma honest_keeps m w w' req r : keeps w w' -> honest m w req r -> honest m w' req r.
Proof.
  intros Hk [H1 H2]. split; [done|]. intros Hs. destruct (H2 Hs) as (region & pts & H3 & H4 & H5).
  exists region, pts. split; [done|]. split; [done|]. eapply Forall_impl; [exact H5|]. intros p. apply Hk.
Qed.

(** Index [i] has its answer. *)
Definition part_settled (m : ShardMap) (parts : list ShardWriteRequest) (w : World) (results : results_t)
    (i : nat) : Prop :=
  exists req r, parts !! i = Some req /\ results !! i = Some (Some r) /\ honest m w req r.

(** Index [i] waits in one of the groups. *)
Definition waiting (groups : list WriteGroup) (i : nat) : Prop :=
  exists g ready, g ∈ groups /\ ready ∈ wg_members g /\ rd_index ready = i.

Lemma settled_insert m parts w results i req r j :
  parts !! i = Some req -> length results = length parts -> honest m w req r ->
  part_settled m parts w results j \/ j = i -> part_settled m parts w (<[i := Some r]> results) j.
Proof.
  intros Hp Hl Hh Hj. assert (Hi : (i < length results)%nat).
  { rewrite Hl. by eapply lookup_lt_Some. }
  destruct (decide (j = i)) as [->|Hne].
  - exists req, r. split; [done|]. split; [by apply list_lookup_insert_eq|done].
  - destruct Hj as [(req' & r' & H1 & H2 & H3)|]; [|done]. exists req', r'.
    split; [done|]. split; [by rewrite list_lookup_insert_ne|done].
Qed.

Lemma check_parts_spec w m pre parts results groups :
  let all := pre ++ parts in
  length results = length all -> Forall (write_group_ok m all) groups ->
  (forall i, (i < length pre)%nat -> part_settled m all w results i \/ waiting groups i) ->
  let '(results', groups') := check_parts w m (length pre) parts results groups in
  length results' = length all /\ Forall (write_group_ok m all) groups' /\
  forall i, (i < length all)%nat -> part_settled m all w results' i \/ waiting groups' i.
Proof.
  revert pre results groups. induction parts as [|req parts IH]; intros pre results groups all Hl Hg Hi.
  { cbn [ShardWriteHandler.check_parts]. split; [done|]. split; [done|]. intros i Hlt. apply Hi.
    unfold all in Hlt. by rewrite app_nil_r in Hlt. }
  cbn [ShardWriteHandler.check_parts].
  assert (Hreq : all !! length pre = Some req) by (by apply list_lookup_middle).
  assert (Hall : all = (pre ++ [req]) ++ parts) by (unfold all; by rewrite <-app_assoc).
  assert (Hlen : length (pre ++ [req]) = S (length pre)) by (rewrite length_app; cbn; lia).
  pose proof (check_part_spec w m (length pre) req) as Hc.
  destruct (check_part w m (length pre) req) as [r|[ready points]].
  - destruct Hc as [Hh _]. specialize (IH (pre ++ [req]) (<[length pre := Some r]> results) groups).
    rewrite <-Hall, Hlen in IH. apply IH; [by rewrite length_insert|done|].
    intros i Hlt. destruct (decide (i = length pre)) as [->|].
    + left. eapply settled_insert; eauto.
    + destruct (Hi i ltac:(lia)); [left; eapply settled_insert; eauto|by right].
  - destruct Hc as [Hidx Hr].
    specialize (IH (pre ++ [req]) results (join_group ready points groups)).
    rewrite <-Hall, Hlen in IH. apply IH; [done|eapply join_group_ok; [by rewrite Hidx|done|done]|].
    intros i Hlt.
    assert (Hj : forall x, x = ready \/ (exists g, g ∈ groups /\ x ∈ wg_members g) ->
                 rd_index x = i -> waiting (join_group ready points groups) i).
    { intros x Hx Hxi. apply join_group_members with (points := points) in Hx as (g & Hg' & Hx).
      by exists g, x. }
    destruct (decide (i = length pre)) as [->|].
    + right. apply (Hj ready); [by left|done].
    + destruct (Hi i ltac:(lia)) as [|(g & x & Hg' & Hx & Hxi)]; [by left|right].
      apply (Hj x); [right; by exists g|done].
Qed.

(** Setting the answers of some members settles them and unsettles nothing. *)
Lemma refuse_members m parts w (f : ReadyPart -> ShardWritePartResult) l results :
  length results = length parts ->
  (forall x, x ∈ l -> exists req, parts !! rd_index x = Some req /\ honest m w req (f x)) ->
  let results' := fold_left (fun res x => <[rd_index x := Some (f x)]> res) l results in
  length results' = length parts /\
  forall i, part_settled m parts w results i \/ (exists x, x ∈ l /\ rd_index x = i) ->
    part_settled m parts w results' i.
Proof.
  revert results. induction l as [|x l IH]; intros results Hl Hf; cbn [fold_left].
  { split; [done|]. intros i [|(x & ?%elem_of_nil & _)]; done. }
  destruct (Hf x) as (req & Hp & Hh); [by left|].
  destruct (IH (<[rd_index x := Some (f x)]> results)) as [H1 H2];
    [by rewrite length_insert|intros y Hy; apply Hf; by right|].
  split; [done|]. intros i Hi. apply H2. destruct Hi as [Hi|(y & [->|Hy]%elem_of_cons & Hyi)].
  - left. eapply settled_insert; eauto.
  - left. eapply settled_insert; eauto.
  - right. by exists y.
Qed.

Lemma replicate_part_keeps w m seq w' o :
  replicate_forwarded_part node_id w m seq = (w', o) -> keeps w w'.
Proof using RL.
  unfold replicate_forwarded_part. destruct (rc_members w); [|intros [= <- _]; apply keeps_refl].
  intros H d r p. by eapply replicate_keeps.
Qed.

Lemma settled_keeps m parts w w' results i :
  keeps w w' -> part_settled m parts w results i -> part_settled m parts w' results i.
Proof.
  intros Hk (req & r & H1 & H2 & H3). exists req, r. split; [done|]. split; [done|].
  by eapply honest_keeps.
Qed.

(** A member whose group is logged: its answer is honest. *)
Lemma member_result_honest m w req ready points replicated :
  ready_for m req ready points -> Forall (logged w (wr_db req) (wr_rp req)) points ->
  honest m w req (member_result ready replicated).
Proof.
  intros (Hid & _ & _ & region & Hreg & Hparse) Hlog. unfold member_result.
  destruct replicated as [[]|e]; [destruct (rd_partial ready) eqn:Ep|]; (split; [done|]); cbn; try done.
  intros _. exists region, points. auto.
Qed.

Lemma replicate_members_spec m parts g seq l w results :
  length results = length parts ->
  (forall x, x ∈ l -> member_ok m parts g x) -> Forall (logged w (wg_db g) (wg_rp g)) (wg_points g) ->
  let '(w', results') := fold_left (replicate_member seq) l (w, results) in
  keeps w w' /\ length results' = length parts /\
  forall i, part_settled m parts w results i \/ (exists x, x ∈ l /\ rd_index x = i) ->
    part_settled m parts w' results' i.
Proof using RL.
  revert w results. induction l as [|x l IH]; intros w results Hl Hm Hlog; cbn [fold_left].
  { split; [apply keeps_refl|]. split; [done|]. intros i [|(x & ?%elem_of_nil & _)]; done. }
  unfold ShardWriteHandler.replicate_member at 2.
  destruct (replicate_forwarded_part node_id w x seq) as [w1 o] eqn:Er.
  pose proof (replicate_part_keeps _ _ _ _ _ Er) as Hk1.
  destruct (Hm x) as (req & points & Hp & Hr & Hd & Hrp & Hsub); [by left|].
  assert (Hh : honest m w1 req (member_result x o)).
  { eapply member_result_honest; [done|]. rewrite <-Hd, <-Hrp. apply Forall_forall.
    rewrite Forall_forall in Hlog. intros p Hpp. apply Hk1, Hlog. by apply Hsub. }
  specialize (IH w1 (<[rd_index x := Some (member_result x o)]> results)).
  destruct (fold_left _ l _) as [w' results'].
  destruct IH as (Hk & Hl' & Hi); [by rewrite length_insert|intros y Hy; apply Hm; by right|
    eapply Forall_impl; [exact Hlog|intros p; apply Hk1]|].
  split; [by eapply keeps_trans|]. split; [done|]. intros i Hsi. apply Hi.
  destruct Hsi as [Hs|(y & [->|Hy]%elem_of_cons & Hyi)].
  - left. eapply settled_insert; [done|done|done|]. left. by eapply settled_keeps.
  - left. eapply settled_insert; [done|done|done|by right].
  - right. by exists y.
Qed.

Lemma append_group_spec w d r pts w' o :
  append_forwarded_group w d r pts = (w', o) ->
  keeps w w' /\
  match o with
  | Ok _ => Forall (logged w' d r) pts
  | Err (status, _) => is_success status = false
  end.
Proof using RL.
  unfold append_forwarded_group. destruct (rc_prepare w d r pts) as [w1 [[]|e]] eqn:Ep.
  2: { intros [= <- <-]. split; [|done]. intros ? ? ?. by eapply prepare_keeps. }
  destruct (rc_append w1 d r pts) as [w2 [seq|e]] eqn:Ea; intros [= <- <-].
  - split; [|by eapply append_logs]. intros ? ? ? H. eapply append_keeps; [done|].
    by eapply prepare_keeps.
  - split; [|done]. intros ? ? ? H. eapply append_keeps; [done|]. by eapply prepare_keeps.
Qed.

Lemma write_group_spec m parts g gs w results :
  length results = length parts -> write_group_ok m parts g ->
  (forall i, (i < length parts)%nat -> part_settled m parts w results i \/ waiting (g :: gs) i) ->
  let '(w', results') := write_group (w, results) g in
  keeps w w' /\ length results' = length parts /\
  forall i, (i < length parts)%nat -> part_settled m parts w' results' i \/ waiting gs i.
Proof using RL.
  intros Hl Hg Hi. cbn [ShardWriteHandler.write_group].
  assert (Hsplit : forall i, waiting (g :: gs) i ->
    (exists x, x ∈ wg_members g /\ rd_index x = i) \/ waiting gs i).
  { intros i (g' & x & [->|Hg']%elem_of_cons & Hx & Hxi); [left; by exists x|right; by exists g', x]. }
  destruct (append_forwarded_group w _ _ _) as [w1 o] eqn:Ea.
  destruct (append_group_spec _ _ _ _ _ _ Ea) as [Hk Ho]. destruct o as [seq|[status msg]].
  - pose proof (replicate_members_spec m parts g seq (wg_members g) w1 results Hl Hg Ho) as H.
    destruct (fold_left _ (wg_members g) (w1, results)) as [w' results'].
    destruct H as (Hk' & Hl' & Hs). split; [by eapply keeps_trans|]. split; [done|].
    intros i Hlt. destruct (Hi i Hlt) as [Hsi|[Hx|Hw]%Hsplit]; [left; apply Hs..|by right].
    + left. by eapply settled_keeps.
    + by right.
  - destruct (refuse_members m parts w1
      (fun x => part_result (wr_region_id (rd_req x)) status (Some msg)) (wg_members g) results Hl)
      as [Hl' Hs].
    { intros x Hx. destruct (Hg x Hx) as (req & pts & Hp & (Hid & _) & _). exists req.
      split; [done|]. split; [done|]. cbn. by rewrite Ho. }
    split; [done|]. split; [done|].
    intros i Hlt. destruct (Hi i Hlt) as [Hsi|[Hx|Hw]%Hsplit]; [left; apply Hs..|by right].
    + left. by eapply settled_keeps.
    + by right.
Qed.

Lemma write_groups_spec m parts groups w results :
  length results = length parts -> Forall (write_group_ok m parts) groups ->
  (forall i, (i < length parts)%nat -> part_settled m parts w results i \/ waiting groups i) ->
  let '(w', results') := fold_left write_group groups (w, results) in
  keeps w w' /\ length results' = length parts /\
  forall i, (i < length parts)%nat -> part_settled m parts w' results' i.
Proof using RL.
  revert w results. induction groups as [|g gs IH]; intros w results Hl Hg Hi; cbn [fold_left].
  { split; [apply keeps_refl|]. split; [done|]. intros i Hlt.
    destruct (Hi i Hlt) as [|(g & x & ?%elem_of_nil & _)]; done. }
  apply Forall_cons in Hg as [Hg Hgs].
  pose proof (write_group_spec m parts g gs w results Hl Hg Hi) as H.
  destruct (write_group (w, results) g) as [w1 results1]. destruct H as (Hk & Hl1 & Hi1).
  specialize (IH w1 results1 Hl1 Hgs Hi1). destruct (fold_left _ gs _) as [w' results'].
  destruct IH as (Hk' & ?). split; [by eapply keeps_trans|done].
Qed.

Lemma write_batch_spec (w : World) (m : ShardMap) (parts : list ShardWriteRequest) :
  rc_map w = Ok m ->
  let out := apply_shard_write_batch parse_lp default_limit max_points node_id w parts in
  keeps w out.1 /\ Forall2 (honest m out.1) parts out.2.
Proof using RL.
  intros Hm. cbv zeta. unfold apply_shard_write_batch. rewrite Hm.
  pose proof (check_parts_spec w m [] parts (replicate (length parts) None) []) as Hc.
  cbn [length app] in Hc.
  destruct (check_parts w m 0 parts _ []) as [results groups].
  destruct Hc as (Hl & Hg & Hi); [by rewrite length_replicate|constructor|intros; lia|].
  pose proof (write_groups_spec m parts groups w results Hl Hg Hi) as H.
  destruct (fold_left write_group groups (w, results)) as [w' results'].
  destruct H as (Hk & Hl' & Hs). cbn [fst snd]. split; [done|].
  apply Forall2_same_length_lookup_2; [by rewrite length_fmap|].
  intros i req r Hr Hri. rewrite list_lookup_fmap in Hri.
  destruct (Hs i (lookup_lt_Some _ _ _ Hr)) as (req' & r' & H1 & H2 & H3).
  rewrite H2 in Hri. cbn in Hri. injection Hri as <-. congruence.
Qed.

(** Without its map a node answers every part with an error. *)
Lemma write_batch_no_map (w : World) (e : string) (parts : list ShardWriteRequest) :
  rc_map w = Err e ->
  let out := apply_shard_write_batch parse_lp default_limit max_points node_id w parts in
  out.1 = w /\ Forall2 (fun req r => part_region_id r = wr_region_id req /\ part_status r = 500) parts out.2.
Proof.
  clear RL. intros Hm. cbv zeta. unfold apply_shard_write_batch. rewrite Hm. cbn. split; [done|].
  apply Forall2_fmap_r, Forall_Forall2_diag, Forall_forall. done.
Qed.

(** ** Properties *)


Lemma check_part_names w m index req :
  match check_part w m index req with
  | inl r => part_region_id r = wr_region_id req
  | inr (ready, _) => rd_index ready = index /\ wr_region_id (rd_req ready) = wr_region_id req
  end.
Proof.
  clear RL. unfold ShardWriteHandler.check_part.
  destruct (forwarded_write_region m node_id req) as [region|[status msg]]; [|done].
  destruct (parse_part req) as [points|e]; [|done].
  destruct (split_forwarded_conflicts w req points) as [[[req' kept] partial]|e] eqn:Es; [|done].
  assert (wr_region_id req' = wr_region_id req).
  { unfold split_forwarded_conflicts in Es.
    destruct (split_field_type_conflicts _ points) as [[k p]|]; cbn in Es; [|done].
    destruct (_ && _); [destruct (encode_points_binary k); [|done]|]; by injection Es as <- <- <-. }
  by destruct kept, partial.
Qed.

(** The part that passed its checks, on its own in a group. *)
Lemma ready_single w region req kept partial :
  let ready := mkReady 0 req region partial in
  let '(w', results) := write_group (w, [None]) (mkWriteGroup (wr_db req) (wr_rp req) [ready] kept) in
  (w', default unprocessed <$> results)
  = let '(w1, prepared) := rc_prepare w (wr_db req) (wr_rp req) kept in
    match prepared with
    | Err e => (w1, [part_result (wr_region_id req) 422 (Some e)])
    | Ok _ =>
      let '(w2, appended) := rc_append w1 (wr_db req) (wr_rp req) kept in
      match appended with
      | Err e => (w2, [part_result (wr_region_id req) 500 (Some e)])
      | Ok seq => let '(w3, replicated) := replicate_forwarded_part node_id w2 ready seq in
                  (w3, [member_result ready replicated])
      end
    end.
Proof.
  cbn [ShardWriteHandler.write_group wg_db wg_rp wg_points wg_members]. unfold append_forwarded_group.
  destruct (rc_prepare w _ _ kept) as [w1 [[]|e]]; [|done].
  destruct (rc_append w1 _ _ kept) as [w2 [seq|e]]; [|done]. cbn [map_err fold_left].
  unfold ShardWriteHandler.replicate_member. by destruct (replicate_forwarded_part node_id w2 _ seq).
Qed.

(** The single-part endpoint does what the batch endpoint does with a batch of one. *)
Theorem write_single_as_batch (w : World) (req : ShardWriteRequest) :
  let '(w', (status, error)) := apply_shard_write parse_lp default_limit max_points node_id w req in
  apply_shard_write_batch parse_lp default_limit max_points node_id w [req]
  = (w', [mkPartResult (wr_region_id req) status error]).
Proof.
  unfold apply_shard_write, apply_shard_write_batch. destruct (rc_map w) as [m|e]; [|done].
  pose proof (check_part_names w m 0 req) as Hc. cbn [ShardWriteHandler.check_parts replicate length].
  unfold ShardWriteHandler.check_part in *.
  destruct (forwarded_write_region m node_id req) as [region|[status msg]]; [|done].
  destruct (parse_part req) as [points|e]; [|done].
  destruct (split_forwarded_conflicts w req points) as [[[req' kept] partial]|e]; [|done].
  assert (partial <> None /\ kept = [] \/ ~ (partial <> None /\ kept = [])) as [[Hp ->]|Hne]
    by (destruct partial, kept; naive_solver).
  { destruct partial as [msg|]; [|done]. cbn. by rewrite <-Hc. }
  assert (wr_region_id req' = wr_region_id req) as Hid by (destruct kept, partial; naive_solver).
  pose proof (ready_single w region req' kept partial) as Hw. cbv zeta in Hw.
  destruct kept, partial; try (by destruct Hne); cbn [ShardWriteHandler.join_group fold_left rd_req] in *;
    (destruct (write_group (w, [None]) _) as [w' results]; rewrite Hw;
     destruct (rc_prepare w _ _ _) as [w1 [[]|e]]; [|by rewrite Hid];
     destruct (rc_append w1 _ _ _) as [w2 [seq|e]]; [|by rewrite Hid];
     unfold replicate_forwarded_part; cbn [rd_req rd_region];
     destruct (rc_members w2); [destruct (rc_replicate w2 _) as [w3 [[]|e]]|]; unfold member_result; cbn;
     by rewrite Hid).
Qed.
End Theorems.

(** ** A node in memory *)

Record MemNode := mkMemNode {
  mn_map : ShardMap;
  mn_log : list (string * string * Point)
}.

#[export] Instance mem_receiver : ShardReceiver MemNode := {
  rc_map w := Ok (mn_map w);
  rc_members w := None;
  rc_stored_types _ _ _ _ := Ok None;
  rc_prepare w _ _ _ := (w, Ok tt);
  rc_append w d r pts :=
    (mkMemNode (mn_map w) (mn_log w ++ ((fun p => (d, r, p)) <$> pts)), Ok (N.of_nat (length (mn_log w))));
  rc_replicate w _ := (w, Ok tt)
}.

#[export] Instance mem_receiver_laws : ShardReceiverLaws MemNode.
Proof.
  refine {| logged w d r p := (d, r, p) ∈ mn_log w |}.
  - intros w d r pts w' seq [= <- _]. cbn. apply Forall_forall. intros p Hp.
    apply elem_of_app. right. by apply (list_elem_of_fmap_2 (fun p => (d, r, p))).
  - intros w d r pts w' o d' r' p [= <- _] Hp. cbn. apply elem_of_app. by left.
  - by intros w d r pts w' o d' r' p [= <- _].
  - by intros w b w' o d' r' p [= <- _].
Defined.

(** *** Witnesses *)

Definition handler_map : ShardMap :=
  mkMap 1 2 {[ mkKey "db" "autogen" "cpu" :=
    mkSpace (mkKey "db" "autogen" "cpu") [fresh_region 1 0 u64_max [7; 8] 7 1] ]}.

Definition plain_errors : JsonError := {| json_error e := e; json_error_member s := Some s |}.

Definition no_lines (b : bytes) (p : option string) (n : nat) : result PointsError (list Point) :=
  Err (PointsBad "line"%string "line protocol"%string).

Definition handler_part (id : N) : ShardWriteRequest :=
  mkWriteReq "db" "autogen" None epoch_default id (frame_of [frame_point "cpu"]).

