(* ===== verification/LineProtocol.v ===== *)
(** * Line protocol ([hyperbytedb/src/application/line_protocol.rs])

    The encoder in full, floats included ([f64] bit patterns, printed the way
    [format!] prints them), and the conversion of parsed lines to points. The
    parser itself is a third-party crate, the class [LineParser].

    The reader at the end of the definitions is not part of the program: it
    reads an encoded body from the left, and shows that the encoder keeps what
    it is given. *)

From stdpp Require Import prelude list sorting gmap strings pretty.
From S2P Require Import Prelude Bytes Wire Points WalWriter PointFrames.
From stdpp Require Import options.

#[local] Open Scope N_scope.

(** ** Floats *)

Inductive Float64 :=
| FloatNan
| FloatInf (negative : bool)
| FloatFinite (negative : bool) (mantissa : N) (exponent : Z).

(** IEEE 754 binary64: the value is [mantissa * 2 ^ exponent]. *)
Definition float_of_bits (bits : N) : Float64 :=
  let neg := N.testbit bits 63 in
  let ex := N.land (N.shiftr bits 52) 2047 in
  let frac := N.land bits (2 ^ 52 - 1) in
  if ex =? 2047 then (if frac =? 0 then FloatInf neg else FloatNan)
  else if ex =? 0 then FloatFinite neg frac (-1074)
  else FloatFinite neg (frac + 2 ^ 52) (Z.of_N ex - 1075).

(** [mantissa * 2 ^ exponent * scale] as a fraction. *)
Definition float_num (mantissa : N) (exponent : Z) (scale : N) : N :=
  mantissa * 2 ^ Z.to_N exponent * scale.

Definition float_den (exponent : Z) : N := 2 ^ Z.to_N (- exponent).

(** [f64::fract() == 0.0]. *)
Definition fract_zero (mantissa : N) (exponent : Z) : bool :=
  float_num mantissa exponent 1 mod float_den exponent =? 0.

(** The nearest integer, ties to even. *)
Definition div_half_even (a b : N) : N :=
  let q := a / b in
  let r := a mod b in
  if (b <? 2 * r) || ((2 * r =? b) && N.odd q) then q + 1 else q.

(** [digits] with leading zeros up to [k]. *)
Definition pad_zeros (k : nat) (n : N) : bytes := digits 10 (fun d => 48 + d) k n.

(** [format!("{f:.k}")] of a finite float. *)
Definition format_fixed (k : nat) (neg : bool) (mantissa : N) (exponent : Z) : bytes :=
  let pow := 10 ^ N.of_nat k in
  let scaled := div_half_even (float_num mantissa exponent pow) (float_den exponent) in
  (if neg then [45] else []) ++ decimal (scaled / pow) ++ [46] ++ pad_zeros k (scaled mod pow).

(** Zeros popped off the end of a text that has a point, then the point. *)
Fixpoint pop_zeros (rev_text : bytes) : bytes :=
  match rev_text with
  | c :: rest => if (c =? 48) && bool_decide (46 ∈ rest) then pop_zeros rest else rev_text
  | [] => []
  end.

Definition trim_float (text : bytes) : bytes :=
  let popped := pop_zeros (rev text) in
  rev (match popped with
       | c :: rest => if c =? 46 then rest else popped
       | [] => []
       end).

Definition number_to_lp_float (bits : N) : bytes :=
  match float_of_bits bits with
  | FloatNan => str_bytes "NaN"
  | FloatInf neg => (if neg then [45] else []) ++ str_bytes "inf"
  | FloatFinite neg m e =>
    if fract_zero m e && (float_num m e 1 <? 10 ^ 15 * float_den e)
    then format_fixed 1 neg m e
    else trim_float (format_fixed 15 neg m e)
  end.

(** ** The encoder *)

Definition escape_influx_ident (chars : list N) (s : bytes) : bytes :=
  s ≫= fun ch => if bool_decide (ch ∈ chars) || (ch =? 92) then [92; ch] else [ch].

Definition escape_measurement : bytes -> bytes := escape_influx_ident [44; 32].
Definition escape_tag_key : bytes -> bytes := escape_influx_ident [44; 61; 32].
Definition escape_tag_value : bytes -> bytes := escape_influx_ident [44; 61; 32].
Definition escape_field_key : bytes -> bytes := escape_influx_ident [44; 61; 32].

(** [str::replace] of one character. *)
Definition replace_byte (c : N) (by_ : bytes) (s : bytes) : bytes :=
  s ≫= fun ch => if ch =? c then by_ else [ch].

Definition escape_string_field (s : bytes) : bytes :=
  replace_byte 34 [92; 34] (replace_byte 92 [92; 92] s).

Definition field_value_to_lp (v : FieldValue) : bytes :=
  match v with
  | FFloat bits => number_to_lp_float bits
  | FInteger i => str_bytes (pretty i) ++ [105]
  | FUInteger u => decimal u ++ [117]
  | FString s => [34] ++ escape_string_field (str_bytes s) ++ [34]
  | FBoolean b => str_bytes (if b then "true" else "false")
  end.

(** The loop over the tags; an empty value is left out. *)
Definition encode_tag (kv : string * string) : bytes :=
  if bool_decide (kv.2 = EmptyString) then []
  else [44] ++ escape_tag_key (str_bytes kv.1) ++ [61] ++ escape_tag_value (str_bytes kv.2).

Definition encode_field (kv : string * FieldValue) : bytes :=
  escape_field_key (str_bytes kv.1) ++ [61] ++ field_value_to_lp kv.2.

(** [join]. *)
Fixpoint join (sep : bytes) (parts : list bytes) : bytes :=
  match parts with
  | [] => []
  | [p] => p
  | p :: rest => p ++ sep ++ join sep rest
  end.

Definition encode_line (prec : Precision) (p : Point) : result PointsError bytes :=
  if bool_decide (pt_fields p = ∅) then
    Err (PointsBad (pt_measurement p) "cannot encode point with no fields")
  else
    Ok (escape_measurement (str_bytes (pt_measurement p))
        ++ (btree_iter string_leb (pt_tags p) ≫= encode_tag) ++ [32]
        ++ join [44] (encode_field <$> btree_iter string_leb (pt_fields p)) ++ [32]
        ++ str_bytes (pretty (from_nanos prec (pt_timestamp p)))).

Fixpoint encode_lines (prec : Precision) (points : list Point) : result PointsError (list bytes) :=
  match points with
  | [] => Ok []
  | p :: rest => line ← encode_line prec p; lines ← encode_lines prec rest; mret (line :: lines)
  end.

Definition encode_points_to_line_protocol (points : list Point) (prec : Precision)
    : result PointsError bytes :=
  match points with
  | [] => Ok []
  | _ => lines ← encode_lines prec points; mret (join [10] lines)
  end.

(** ** Parsed lines *)

Inductive LpFieldValue :=
| LpI64 (i : Z)
| LpU64 (u : N)
| LpF64 (bits : N)
| LpString (s : string)
| LpBoolean (b : bool).

Record ParsedLine := mkParsed {
  pl_measurement : string;
  pl_tag_set : option (list (string * string));
  pl_field_set : list (string * LpFieldValue);
  pl_timestamp : option Z
}.

(** [parse_lines], the text of a UTF-8 error, and [{:?}] of a string. *)
Class LineParser := {
  parse_lines : string -> list (result string ParsedLine);
  utf8_error : bytes -> string;
  debug_str : string -> string
}.

Definition lp_field_value_to_domain (v : LpFieldValue) : FieldValue :=
  match v with
  | LpI64 i => FInteger i
  | LpU64 u => FUInteger u
  | LpF64 f => FFloat f
  | LpString s => FString s
  | LpBoolean b => FBoolean b
  end.

(** [collect] into a [BTreeMap]: a later pair replaces an earlier one. *)
Definition collect_map {V} (l : list (string * V)) : gmap string V :=
  fold_left (fun acc kv => <[kv.1 := kv.2]> acc) l ∅.

(** [clock] is [Utc::now().timestamp_nanos_opt()]. *)
Definition parsed_line_to_point (clock : option Z) (prec : Precision) (l : ParsedLine)
    : result PointsError Point :=
  let tags := collect_map (default [] (pl_tag_set l)) in
  let fields := collect_map ((fun kv => (kv.1, lp_field_value_to_domain kv.2)) <$> pl_field_set l) in
  ts ← match pl_timestamp l with
       | Some ts => Ok (to_nanos prec ts)
       | None => match clock with Some ns => Ok ns | None => Err PointsNoClock end
       end;
  mret (mkPoint (pl_measurement l) tags fields ts).

Definition PARSE_ERROR_SNIPPET_LEN : nat := 200.

(** [chars().take(n)] on UTF-8: up to the lead byte of character [n + 1]. *)
Fixpoint take_chars (n : nat) (s : bytes) : bytes :=
  match s with
  | [] => []
  | b :: rest =>
    if utf8_cont b then b :: take_chars n rest
    else match n with O => [] | S n' => b :: take_chars n' rest end
  end.

Section Parse.
Context `{LPa : LineParser}.

Definition line_protocol_parse_context (input : string) (line_index : nat) : string :=
  if (length (str_bytes input) <=? PARSE_ERROR_SNIPPET_LEN)%nat
  then "line " +:+ pretty line_index +:+ ", payload (truncated if long): " +:+ debug_str input
  else "line " +:+ pretty line_index +:+ ", payload starts with: "
       +:+ debug_str (bytes_str (take_chars PARSE_ERROR_SNIPPET_LEN (str_bytes input))).

(** The loop of [parse_line_body_inner]: line [i] of the rest, with the
    points so far. *)
Fixpoint parse_loop (clock : nat -> option Z) (prec : Precision) (limit : option nat) (input : string)
    (i : nat) (lines : list (result string ParsedLine)) (points : list Point)
    : result PointsError (list Point) :=
  match lines with
  | [] => Ok points
  | Err e :: _ => Err (PointsBad (line_protocol_parse_context input i) e)
  | Ok parsed :: rest =>
    point ← parsed_line_to_point (clock i) prec parsed;
    let points := points ++ [point] in
    match limit with
    | Some lim =>
      if (lim <? length points)%nat then Err (PointsLimit (length points) lim)
      else parse_loop clock prec limit input (S i) rest points
    | None => parse_loop clock prec limit input (S i) rest points
    end
  end.

Definition parse_line_body_inner (clock : nat -> option Z) (body : bytes) (precision : option string)
    (max_points : option nat) : result PointsError (list Point) :=
  if utf8_valid body then
    let input := bytes_str body in
    parse_loop clock (precision_from_str_opt precision) max_points input 0 (parse_lines input) []
  else Err (PointsBad EmptyString (utf8_error body)).
End Parse.

(** [estimate_points_capacity], the lines with something in them. *)
Fixpoint count_lines (body : bytes) (has_content : bool) : nat :=
  match body with
  | [] => if has_content then 1 else 0
  | b :: rest =>
    if b =? 10 then (if has_content then S else id) (count_lines rest false)
    else count_lines rest (has_content || negb (is_ascii_whitespace b))
  end.

Definition estimate_points_capacity (body : bytes) : nat := Nat.max (count_lines body false) 1.

(** ** What a body keeps

    Two points a body cannot tell apart: empty tags, the sub-precision part
    of the timestamp and the digits of a float past the fifteenth are lost. *)
Definition same_value (v v' : FieldValue) : Prop :=
  match v, v' with
  | FFloat b, FFloat b' => number_to_lp_float b = number_to_lp_float b'
  | _, _ => v = v'
  end.

Record same_on_wire (prec : Precision) (p q : Point) : Prop := mkSameWire {
  wire_measurement : pt_measurement p = pt_measurement q;
  wire_tags : filter (fun kv => kv.2 <> EmptyString) (pt_tags p)
              = filter (fun kv => kv.2 <> EmptyString) (pt_tags q);
  wire_fields k : option_Forall2 same_value (pt_fields p !! k) (pt_fields q !! k);
  wire_timestamp : from_nanos prec (pt_timestamp p) = from_nanos prec (pt_timestamp q)
}.

(** Reading an identifier back: a backslash keeps the next character, a
    character of [stop] ends it. *)
Fixpoint read_ident (stop : list N) (s : bytes) : bytes * bytes :=
  match s with
  | [] => ([], [])
  | c :: rest =>
    if c =? 92 then
      match rest with
      | [] => ([92], [])
      | d :: rest' => let '(i, t) := read_ident stop rest' in (d :: i, t)
      end
    else if bool_decide (c ∈ stop) then ([], s)
    else let '(i, t) := read_ident stop rest in (c :: i, t)
  end.

Definition ends (stop : list N) (t : bytes) : Prop :=
  match t with [] => True | c :: _ => c ∈ stop /\ c <> 92 end.

(** ** Lemmas *)

Lemma read_ident_escape stop s t : ends stop t -> read_ident stop (escape_influx_ident stop s ++ t) = (s, t).
Proof.
  intros Ht. unfold escape_influx_ident. induction s as [|c s IH].
  - destruct t as [|d t]; [done|]. destruct Ht as [Hin Hne]. cbn.
    by rewrite (proj2 (N.eqb_neq _ _) Hne), bool_decide_true.
  - cbn [mbind list_bind]. destruct (bool_decide (c ∈ stop) || (c =? 92)) eqn:E.
    + cbn. by rewrite IH.
    + apply orb_false_iff in E as [E1 E2]. cbn. by rewrite E2, E1, IH.
Qed.

Lemma escape_cancel stop s s' t t' :
  ends stop t -> ends stop t' ->
  escape_influx_ident stop s ++ t = escape_influx_ident stop s' ++ t' -> s = s' /\ t = t'.
Proof.
  intros Ht Ht' E. pose proof (read_ident_escape stop s t Ht) as H1.
  rewrite E, read_ident_escape in H1 by done. by injection H1 as <- <-.
Qed.

(** A text without special characters is its own escape. *)
Definition clear_of (stop : list N) (s : bytes) : Prop := Forall (fun c => c ∉ stop /\ c <> 92) s.

Lemma escape_clear stop s : clear_of stop s -> escape_influx_ident stop s = s.
Proof.
  unfold escape_influx_ident. induction 1 as [|c s [Hc Hne] _ IH]; [done|]. cbn.
  rewrite bool_decide_false by done. rewrite (proj2 (N.eqb_neq _ _) Hne). cbn. by f_equal.
Qed.

Lemma clear_cancel stop s s' t t' :
  clear_of stop s -> clear_of stop s' -> ends stop t -> ends stop t' ->
  s ++ t = s' ++ t' -> s = s' /\ t = t'.
Proof.
  intros Hs Hs' Ht Ht' E. rewrite <-(escape_clear stop s), <-(escape_clear stop s') in E by done.
  by apply (escape_cancel stop).
Qed.

Lemma escape_string_ident s : escape_string_field s = escape_influx_ident [34] s.
Proof.
  unfold escape_string_field, replace_byte, escape_influx_ident. induction s as [|c s IH]; [done|].
  cbn [mbind list_bind]. rewrite bind_app, IH. f_equal.
  destruct (c =? 92) eqn:E1; reflect_bools; [by subst|]. cbn.
  destruct (c =? 34) eqn:E2; reflect_bools; [by subst|].
  rewrite bool_decide_false by set_solver. done.
Qed.

(** Numbers print as digits, point and sign. *)
Definition numeric (c : N) : Prop := 48 <= c <= 57 \/ c = 45 \/ c = 46.

Lemma decimal_numeric n : Forall numeric (decimal n).
Proof.
  unfold decimal, pretty, pretty_N. case_decide; [constructor; [by left; vm_compute|constructor]|].
  assert (Forall numeric (str_bytes EmptyString)) as Hs by constructor. revert Hs.
  generalize EmptyString. clear H. induction (N.lt_wf_0 n) as [n _ IH]. intros s Hs.
  destruct (decide (n = 0)) as [->|Hnz]; [by rewrite pretty_N_go_0|].
  rewrite pretty_N_go_step by lia. apply IH; [apply N.div_lt; lia|].
  rewrite str_bytes_cons. constructor; [|done]. left.
  rewrite <- (N2Nat.id (n mod 10)). assert (N.to_nat (n mod 10) < 10)%nat as Hk
    by (pose proof (N.mod_lt n 10); lia).
  revert Hk. generalize (N.to_nat (n mod 10)). intros k Hk.
  do 10 (destruct k as [|k]; [by vm_compute|]). lia.
Qed.

Lemma pretty_Z_numeric (z : Z) : Forall numeric (str_bytes (pretty z)).
Proof.
  destruct z as [|p|p]; [constructor; [by left; vm_compute|constructor]|apply (decimal_numeric (Npos p))|].
  change (pretty (Zneg p)) with ("-" +:+ pretty (Npos p))%string. rewrite str_bytes_app.
  apply Forall_app. split; [by repeat constructor; right; left|apply decimal_numeric].
Qed.

Lemma pad_zeros_numeric k n : Forall numeric (pad_zeros k n).
Proof.
  unfold pad_zeros. induction k as [|k IH]; cbn [digits]; constructor; [|done]. left.
  generalize (n / 10 ^ N.of_nat k). intros x. pose proof (N.mod_lt x 10 ltac:(lia)) as Hx.
  generalize dependent (x mod 10). intros y Hy. split; lia.
Qed.

Lemma pop_zeros_Forall (P : N -> Prop) s : Forall P s -> Forall P (pop_zeros s).
Proof. induction 1 as [|c s Hc Hs IH]; [constructor|]. cbn. destruct (_ && _); [done|by constructor]. Qed.

Lemma trim_float_Forall (P : N -> Prop) text : Forall P text -> Forall P (trim_float text).
Proof.
  intros H. unfold trim_float. apply List.Forall_rev.
  pose proof (pop_zeros_Forall P (rev text) ltac:(by apply List.Forall_rev)) as Hp.
  destruct (pop_zeros (rev text)) as [|c rest]; [constructor|]. inversion Hp; subst. by destruct (c =? 46).
Qed.

Lemma format_fixed_numeric k neg m e : Forall numeric (format_fixed k neg m e).
Proof.
  unfold format_fixed. rewrite !Forall_app. split_and!.
  - destruct neg; [constructor; [by right; left|constructor]|constructor].
  - apply decimal_numeric.
  - constructor; [by right; right|constructor].
  - apply pad_zeros_numeric.
Qed.

Lemma float_text bits :
  Forall numeric (number_to_lp_float bits) \/
  number_to_lp_float bits ∈ [str_bytes "NaN"; str_bytes "inf"; [45] ++ str_bytes "inf"].
Proof.
  unfold number_to_lp_float. destruct (float_of_bits bits) as [|neg|neg m e]; [right; by left| |left].
  - right. destruct neg; set_solver.
  - destruct (_ && _); [|apply trim_float_Forall]; apply format_fixed_numeric.
Qed.

(** ** Values *)

Definition is_text (v : FieldValue) : bool := match v with FString _ => true | _ => false end.

Lemma numeric_clear s : Forall numeric s -> clear_of [44; 32] s.
Proof.
  intros H. eapply Forall_impl; [exact H|]. intros c Hc. unfold numeric in Hc.
  rewrite !not_elem_of_cons. split_and!; try apply not_elem_of_nil; lia.
Qed.

Lemma value_clear v : is_text v = false -> clear_of [44; 32] (field_value_to_lp v).
Proof.
  destruct v as [bits|i|u|s|b]; cbn; intros Hv; try done.
  - destruct (float_text bits) as [H|H]; [by apply numeric_clear|].
    rewrite !elem_of_cons, elem_of_nil in H. destruct H as [-> |[-> |[-> |[]]]];
      refine (bool_decide_unpack _ _); by vm_compute.
  - apply Forall_app. split; [apply numeric_clear, pretty_Z_numeric|refine (bool_decide_unpack _ _); by vm_compute].
  - apply Forall_app. split; [apply numeric_clear, decimal_numeric|refine (bool_decide_unpack _ _); by vm_compute].
  - destruct b; refine (bool_decide_unpack _ _); by vm_compute.
Qed.

(** The last character tells the kinds of value apart. *)
Lemma value_last v :
  match v with
  | FFloat _ => forall c, last (field_value_to_lp v) = Some c -> numeric c \/ c = 78 \/ c = 102
  | FInteger _ => last (field_value_to_lp v) = Some 105
  | FUInteger _ => last (field_value_to_lp v) = Some 117
  | FString _ => last (field_value_to_lp v) = Some 34
  | FBoolean _ => last (field_value_to_lp v) = Some 101
  end.
Proof.
  destruct v as [bits|i|u|s|b]; cbn [field_value_to_lp].
  - intros c Hc. destruct (float_text bits) as [H|H].
    + left. eapply Forall_forall; [exact H|]. by apply last_elem.
    + right. rewrite !elem_of_cons, elem_of_nil in H. destruct H as [E|[E|[E|[]]]]; rewrite E in Hc;
        vm_compute in Hc; injection Hc as <-; auto.
  - by rewrite last_snoc.
  - by rewrite last_snoc.
  - by rewrite app_assoc, last_snoc.
  - by destruct b.
Qed.

Lemma value_inj v v' :
  is_text v = false -> is_text v' = false -> field_value_to_lp v = field_value_to_lp v' -> same_value v v'.
Proof.
  intros Hv Hv' E. pose proof (value_last v) as L. pose proof (value_last v') as L'.
  destruct v as [bits|i|u|s|b], v' as [bits'|i'|u'|s'|b']; try done; rewrite E in L;
    try (rewrite L' in L; (discriminate L || (specialize (L _ eq_refl); unfold numeric in L; lia)));
    try (rewrite L in L'; specialize (L' _ eq_refl); unfold numeric in L'; lia); cbn in *.
  - apply app_inv_tail in E. apply str_bytes_inj in E. f_equal. by apply (inj pretty).
  - apply app_inv_tail, decimal_inj in E. by subst.
  - destruct b, b'; vm_compute in E; done.
Qed.

Lemma value_head v t c : is_text v = false -> ends [44; 32] t -> head (field_value_to_lp v ++ t) = Some c -> c <> 34.
Proof.
  intros Hv Ht Hc ->. pose proof (value_clear v Hv) as Hcl. pose proof (value_last v) as Hl.
  destruct (field_value_to_lp v) as [|d s] eqn:E; cbn in Hc.
  - destruct t as [|d t]; [done|]. injection Hc as ->. cbn in Ht. set_solver by lia.
  - injection Hc as ->. destruct v as [bits|i|u|s'|b]; try done.
    + cbn in E. destruct (float_text bits) as [H|H]; rewrite E in H.
      * inversion_clear H as [|? ? Hn]. unfold numeric in Hn. lia.
      * rewrite !elem_of_cons, elem_of_nil in H. destruct H as [H|[H|[H|[]]]]; discriminate H.
    + cbn in E. pose proof (pretty_Z_numeric i) as H. destruct (str_bytes (pretty i)); [discriminate E|].
      injection E as -> _. inversion_clear H as [|? ? Hn]. unfold numeric in Hn. lia.
    + cbn in E. pose proof (decimal_numeric u) as H. destruct (decimal u); [discriminate E|].
      injection E as -> _. inversion_clear H as [|? ? Hn]. unfold numeric in Hn. lia.
    + destruct b; discriminate E.
Qed.

Lemma value_cancel v v' t t' :
  ends [44; 32] t -> ends [44; 32] t' ->
  field_value_to_lp v ++ t = field_value_to_lp v' ++ t' -> same_value v v' /\ t = t'.
Proof.
  intros Ht Ht' E. destruct (is_text v) eqn:Hv, (is_text v') eqn:Hv'.
  - destruct v as [| | |s|], v' as [| | |s'|]; try done. cbn in E. injection E as E.
    rewrite !escape_string_ident, <-!app_assoc in E.
    assert (forall u, ends [34] ([34] ++ u)) as He by (intros u; cbn; split; [set_solver|done]).
    destruct (escape_cancel [34] _ _ _ _ (He t) (He t') E) as [E1 E2]. apply str_bytes_inj in E1.
    injection E2 as ->. by subst.
  - destruct v as [| | |s|]; try done. edestruct (value_head v' t' 34); try done. by rewrite <-E.
  - destruct v' as [| | |s|]; try done. edestruct (value_head v t 34); try done. by rewrite E.
  - destruct (clear_cancel [44; 32] _ _ _ _ (value_clear v Hv) (value_clear v' Hv') Ht Ht' E) as [E1 ->].
    split; [by apply value_inj|done].
Qed.

(** ** Tags and fields *)

Lemma ends_cons c stop t : c ∈ stop -> c <> 92 -> ends stop (c :: t).
Proof. done. Qed.

Definition kept_tags (m : gmap string string) : list (string * string) :=
  filter (fun kv => kv.2 <> EmptyString) (btree_iter string_leb m).

Lemma tags_bytes m :
  btree_iter string_leb m ≫= encode_tag
  = kept_tags m ≫= fun kv => [44] ++ escape_tag_key (str_bytes kv.1) ++ [61] ++ escape_tag_value (str_bytes kv.2).
Proof.
  unfold kept_tags. induction (btree_iter string_leb m) as [|kv l IH]; [done|]. cbn [mbind list_bind].
  rewrite filter_cons. unfold encode_tag at 1. destruct (decide (kv.2 = EmptyString)) as [E|E].
  - rewrite bool_decide_true, decide_False by tauto. done.
  - rewrite bool_decide_false, decide_True by done. cbn [mbind list_bind]. by rewrite <-IH.
Qed.

Lemma tags_cancel (l l' : list (string * string)) t t' :
  let enc := fun kv => [44] ++ escape_tag_key (str_bytes kv.1) ++ [61] ++ escape_tag_value (str_bytes kv.2) in
  (l ≫= enc) ++ 32 :: t = (l' ≫= enc) ++ 32 :: t' -> l = l' /\ t = t'.
Proof.
  intros enc. revert l'. induction l as [|[k v] l IH]; intros [|[k' v'] l'] E; try discriminate E.
  - by injection E as ->.
  - cbn [mbind list_bind] in E. unfold enc in E at 1 3. cbn [fst snd] in E. rewrite <-!app_assoc in E.
    injection E as E. apply (escape_cancel [44; 61; 32]) in E as [Ek E]; [|by split; [set_solver|]..].
    injection E as E.
    assert (forall l0 t0, ends [44; 61; 32] ((l0 ≫= enc) ++ 32 :: t0)) as He.
    { intros [|[? ?] l0] t0; split; (set_solver || done). }
    apply (escape_cancel [44; 61; 32]) in E as [Ev E]; [|apply He..].
    apply IH in E as [-> ->]. apply str_bytes_inj in Ek as ->. by apply str_bytes_inj in Ev as ->.
Qed.

Lemma fields_cancel (l l' : list (string * FieldValue)) t t' :
  l <> [] -> l' <> [] ->
  join [44] (encode_field <$> l) ++ 32 :: t = join [44] (encode_field <$> l') ++ 32 :: t' ->
  Forall2 (fun kv kv' => kv.1 = kv'.1 /\ same_value kv.2 kv'.2) l l' /\ t = t'.
Proof.
  assert (forall (kv : string * FieldValue) l0 t0, exists u, ends [44; 32] u /\
    join [44] (encode_field <$> kv :: l0) ++ 32 :: t0
    = escape_field_key (str_bytes kv.1) ++ 61 :: field_value_to_lp kv.2 ++ u /\
    u = match l0 with [] => 32 :: t0 | _ => 44 :: join [44] (encode_field <$> l0) ++ 32 :: t0 end) as Hsplit.
  { intros kv [|kv2 l0] t0; eexists; (split; [|split; [|done]]); (by split; [set_solver|]) || cbn;
      unfold encode_field at 1; by rewrite <-!app_assoc. }
  revert l'. induction l as [|kv l IH]; intros [|kv' l'] Hn Hn' E; try done.
  destruct (Hsplit kv l t) as (u & Hu & E1 & Eu), (Hsplit kv' l' t') as (u' & Hu' & E1' & Eu').
  rewrite E1, E1' in E. apply (escape_cancel [44; 61; 32]) in E as [Ek E]; [|by split; [set_solver|]..].
  injection E as E. apply value_cancel in E as [Ev E]; [|done..]. apply str_bytes_inj in Ek.
  rewrite Eu, Eu' in E. destruct l as [|kv2 l], l' as [|kv2' l']; try discriminate E.
  - injection E as ->. split; [by repeat constructor|done].
  - apply (f_equal (@tail N)) in E. cbn [tail] in E. apply IH in E as [H ->]; [|done..]. split; [by constructor|done].
Qed.

(** ** Points *)

Lemma tags_of_kept m m' :
  kept_tags m = kept_tags m' ->
  filter (fun kv => kv.2 <> EmptyString) m = filter (fun kv => kv.2 <> EmptyString) m'.
Proof.
  intros E. apply map_eq. intros k. apply option_eq. intros v. rewrite !map_lookup_filter_Some. cbn [snd].
  assert (forall m0 : gmap string string, m0 !! k = Some v /\ v <> EmptyString <-> (k, v) ∈ kept_tags m0) as H.
  { intros m0. unfold kept_tags. rewrite list_elem_of_filter, btree_iter_elem. cbn. tauto. }
  by rewrite !H, E.
Qed.

Lemma fields_of_iter (m m' : gmap string FieldValue) :
  Forall2 (fun kv kv' => kv.1 = kv'.1 /\ same_value kv.2 kv'.2) (btree_iter string_leb m) (btree_iter string_leb m') ->
  forall k, option_Forall2 same_value (m !! k) (m' !! k).
Proof.
  intros H k. destruct (m !! k) as [v|] eqn:E.
  - apply btree_iter_elem with (leb := string_leb) in E.
    destruct (Forall2_elem_of_l _ _ _ _ H E) as ([k' v'] & Hin & Hk & Hv). cbn in Hk, Hv. subst k'.
    apply btree_iter_elem in Hin. rewrite Hin. by constructor.
  - destruct (m' !! k) as [v'|] eqn:E'; [|constructor].
    apply btree_iter_elem with (leb := string_leb) in E'.
    destruct (Forall2_elem_of_r _ _ _ _ H E') as ([k0 v] & Hin & Hk & Hv). cbn in Hk. subst k0.
    apply btree_iter_elem in Hin. by rewrite Hin in E.
Qed.

Lemma line_cancel prec p q lp lq t t' :
  encode_line prec p = Ok lp -> encode_line prec q = Ok lq ->
  ends [10] t -> ends [10] t' -> lp ++ t = lq ++ t' -> same_on_wire prec p q /\ t = t'.
Proof.
  unfold encode_line. intros Hp Hq Ht Ht' E.
  destruct (bool_decide (pt_fields p = ∅)) eqn:Ep; [done|]. destruct (bool_decide (pt_fields q = ∅)) eqn:Eq; [done|].
  apply bool_decide_eq_false in Ep, Eq. apply Ok_inj in Hp, Hq. subst lp lq. rewrite !tags_bytes, <-!app_assoc in E.
  assert (forall (l : list (string * string)) u, ends [44; 32] ((l ≫= fun kv =>
    [44] ++ escape_tag_key (str_bytes kv.1) ++ [61] ++ escape_tag_value (str_bytes kv.2)) ++ [32] ++ u)) as He.
  { intros [|? ?] u; split; (set_solver || done). }
  apply (escape_cancel [44; 32]) in E as [Em E]; [|apply He..]. apply tags_cancel in E as [Et E].
  assert (forall m : gmap string FieldValue, m <> ∅ -> btree_iter string_leb m <> []) as Hne.
  { intros m Hm H. apply Hm, map_eq. intros k. rewrite lookup_empty. apply eq_None_not_Some. intros [v Hv].
    apply btree_iter_elem with (leb := string_leb) in Hv. rewrite H in Hv. by apply not_elem_of_nil in Hv. }
  apply fields_cancel in E as [Ef E]; [|by apply Hne..].
  assert (forall z : Z, clear_of [10] (str_bytes (pretty z))) as Hz.
  { intros z. eapply Forall_impl; [apply pretty_Z_numeric|]. intros c Hc. unfold numeric in Hc.
    rewrite not_elem_of_cons. split_and!; try apply not_elem_of_nil; lia. }
  apply (clear_cancel [10]) in E as [Es ->]; [|by try apply Hz..].
  split; [|done]. constructor; [by apply str_bytes_inj|by apply tags_of_kept|by apply fields_of_iter|].
  apply str_bytes_inj in Es. by apply (inj pretty) in Es.
Qed.

Lemma encode_lines_length prec ps ls : encode_lines prec ps = Ok ls -> length ls = length ps.
Proof.
  revert ls. induction ps as [|p ps IH]; intros ls H; cbn in H; [by apply Ok_inj in H as <-|].
  destruct (encode_line prec p); [|done]. cbn in H. destruct (encode_lines prec ps); [|done]. cbn in H.
  apply Ok_inj in H as <-. cbn. by rewrite (IH _ eq_refl).
Qed.

Lemma lines_cancel prec ps qs ls ls' :
  encode_lines prec ps = Ok ls -> encode_lines prec qs = Ok ls' -> ps <> [] -> qs <> [] ->
  join [10] ls = join [10] ls' -> Forall2 (same_on_wire prec) ps qs.
Proof.
  assert (forall (l : bytes) ls0, exists u, ends [10] u /\ join [10] (l :: ls0) = l ++ u /\
    u = match ls0 with [] => [] | _ => 10 :: join [10] ls0 end) as Hsplit.
  { intros l [|l2 ls0]; eexists; (split; [|split; [|done]]); try done; [by rewrite app_nil_r|].
    split; [set_solver|done]. }
  revert qs ls ls'. induction ps as [|p ps IH]; intros [|q qs] ls ls' Hp Hq Hn Hn' E; try done.
  cbn in Hp, Hq. destruct (encode_line prec p) as [lp|] eqn:Elp; [|done]. destruct (encode_line prec q) as [lq|] eqn:Elq; [|done].
  cbn in Hp, Hq. destruct (encode_lines prec ps) as [lps|] eqn:Eps; [|done]. destruct (encode_lines prec qs) as [lqs|] eqn:Eqs; [|done].
  cbn in Hp, Hq. apply Ok_inj in Hp, Hq. subst ls ls'.
  destruct (Hsplit lp lps) as (u & Hu & E1 & Eu), (Hsplit lq lqs) as (u' & Hu' & E1' & Eu'). rewrite E1, E1' in E.
  destruct (line_cancel prec p q lp lq u u' Elp Elq Hu Hu' E) as [Hw Euu]. constructor; [done|].
  rewrite Euu, Eu' in Eu. destruct lps as [|l1 lps], lqs as [|l1' lqs]; try discriminate Eu.
  - apply encode_lines_length in Eps, Eqs. by destruct ps, qs.
  - apply (f_equal (@tail N)) in Eu. cbn [tail] in Eu. eapply IH; try done; [by intros ->|by intros ->].
Qed.

Lemma encode_lines_ok prec ps :
  is_ok (encode_lines prec ps) = true <-> Forall (fun p => pt_fields p <> ∅) ps.
Proof.
  induction ps as [|p ps IH]; [by split; [constructor|]|]. cbn. rewrite Forall_cons, <-IH. unfold encode_line.
  destruct (decide (pt_fields p = ∅)) as [E|E].
  - rewrite bool_decide_true by done. cbn. split; [done|tauto].
  - rewrite bool_decide_false by done. cbn. destruct (encode_lines prec ps); cbn; tauto.
Qed.

(** ** Properties *)


(** A tag with an empty value is not encoded, though it is part of the
    series: the point that arrives has another series key. *)
Theorem empty_tag_changes_series prec m k fs t :
  let p := mkPoint m {[ k := EmptyString ]} fs t in
  let q := mkPoint m ∅ fs t in
  encode_line prec p = encode_line prec q /\ instant p <> instant q.
Proof.
  intros p q. split.
  - unfold encode_line. cbn [pt_fields pt_measurement pt_tags pt_timestamp p q]. case_bool_decide; [done|].
    assert (btree_iter string_leb ({[ k := EmptyString ]} : gmap string string) ≫= encode_tag = []) as ->.
    { unfold btree_iter. by rewrite map_to_list_singleton. }
    assert (btree_iter string_leb (∅ : gmap string string) ≫= encode_tag = []) as ->; [|done].
    unfold btree_iter. by rewrite map_to_list_empty.
  - unfold instant. cbn. by intros [= E].
Qed.

(** A float closer to zero than half of the fifteenth decimal is sent as
    zero. *)
Theorem small_float_sent_as_zero bits neg m e :
  float_of_bits bits = FloatFinite neg m e -> m <> 0 -> 2 * float_num m e (10 ^ 15) < float_den e ->
  number_to_lp_float bits = (if neg then [45] else []) ++ [48].
Proof.
  intros E Hm Hs. unfold number_to_lp_float. rewrite E.
  assert (float_num m e (10 ^ 15) = float_num m e 1 * 10 ^ 15) as Hn by (unfold float_num; lia).
  assert (0 < float_num m e 1) as Hpos.
  { unfold float_num. assert (0 < 2 ^ Z.to_N e) by (apply N.neq_0_lt_0, N.pow_nonzero; lia). nia. }
  assert (fract_zero m e = false) as ->.
  { unfold fract_zero. apply N.eqb_neq. rewrite N.mod_small; lia. }
  cbn [andb]. unfold format_fixed. change (10 ^ N.of_nat 15) with (10 ^ 15).
  assert (div_half_even (float_num m e (10 ^ 15)) (float_den e) = 0) as ->.
  { unfold div_half_even. rewrite N.div_small, N.mod_small by lia.
    rewrite (proj2 (N.ltb_ge _ _)) by lia. rewrite (proj2 (N.eqb_neq _ _)) by lia. done. }
  by destruct neg; vm_compute.
Qed.

(** ** Examples *)

Definition lp_point : Point :=
  mkPoint "cpu, load" {[ "host"%string := "a=b"%string; "dc"%string := EmptyString ]}
    {[ "v"%string := FFloat 4609434218613702656; "note"%string := FString "x y" ]} 1500000000.


(** [1e-16]. *)
Lemma small_float_sent_as_zero_witness : number_to_lp_float 4367597403136100796 = [48].
Proof. by apply (small_float_sent_as_zero 4367597403136100796 false 8112963841460668 (-106)); vm_compute. Defined.
