(* ===== verification/ShardedIngest.v ===== *)
(** * Coordination of a sharded write
    ([application/peer_ingestion_service.rs], [application/shard_routing.rs])

    A client's batch is partitioned by region; the share of other primaries
    is queued, or sent one request per node with single-region requests for
    what a node could not take, resent while primaries shed load, and held in
    the queue when a primary is down; this node's own share is logged and
    replicated. The same sends deliver the queue later.

    Everything another node, the metadata store or the log answers is the
    class [Coordinator]; each answer comes with the world after it, so the
    shard map may change between any two steps. The location cache is passed
    along. Futures that run at the same time run one after the other here. *)

From stdpp Require Import prelude list sorting gmap strings pretty.
From S2P Require Import Prelude Bytes ShardTypes ShardOps Membership LocationCache Points WalWriter PeerResolution ShardRouting.
From S2P Require Import PointFrames LineProtocol ForwardCoalescer ShardWriteHandler ForwardQueue ForwardDrain.
From stdpp Require Import options.

#[local] Open Scope N_scope.

(** ** What the coordinator calls *)

Class Coordinator (World : Type) := {
  (** [ShardMapPort::snapshot]. *)
  co_shard_map : World -> World * result string ShardMap;
  co_members : World -> ClusterMembership;
  co_now_ms : World -> N;
  co_now_secs : World -> N;
  co_sleep : World -> World;
  (** [ForwardCoalescer::send] or [send_direct]: one result per part. *)
  co_send : World -> string -> list ShardWriteRequest -> World * NodeSendOutcome;
  (** [POST /internal/shard/write]: transport error, or status and body. *)
  co_post_write : World -> string -> ShardWriteRequest -> World * result string (N * string);
  (** [get_measurement], as [materialized] and [materialized_rp]. *)
  co_measurement : World -> MeasurementKey -> World * result RoutingError (option (bool * option string));
  co_prepare : World -> string -> string -> list Point -> World * result RoutingError unit;
  co_append : World -> string -> string -> list Point -> World * result RoutingError N;
  co_dispatch : World -> OutboundReplicationBatch -> World * result RoutingError unit;
  (** Bootstrap: leadership, the proposal to a leader (transport error, or
      status and parsed body), a local apply, and the request to a leader. *)
  co_leader : World -> bool * option string;
  co_propose : World -> string -> ShardMapOp -> World * result string (N * result string unit);
  co_apply_op : World -> ShardMapOp -> World * result RoutingError unit;
  co_ask_leader : World -> string -> MeasurementKey -> World * result string N
}.

Definition co_snapshot `{Coordinator World} (w : World) : World * result RoutingError ShardMap :=
  let '(w', m) := co_shard_map w in (w', map_err OtherError m).

(** The part of [ForwardQueuePort] a write uses. *)
Class ForwardQueuePort (Q : Type) := {
  port_enqueue : Q -> ForwardEntry -> Q * result string N;
  port_oldest_age_ms : Q -> N -> N;
  port_bytes : Q -> N
}.

Record IngestConfig := mkIngestConfig {
  ic_sharding : ShardingConfig;
  ic_binary_points_wire : bool;
  ic_scatter_max_peer_attempts : nat;
  ic_async_forward : bool;
  ic_async_forward_max_lag_ms : N;
  ic_async_forward_max_bytes : N;
  (** [bootstrap_timeout_ms] in polls of 50 ms. *)
  ic_bootstrap_polls : nat
}.

Definition http_success (status : N) : bool := (200 <=? status) && (status <=? 299).

Definition of_points_error (e : PointsError) : RoutingError := OtherError (show_points_error e).

(** [{:?}] of a list of numbers. *)
Definition debug_nums (l : list N) : string := "[" +:+ String.concat ", " (pretty <$> l) +:+ "]".

Definition show_bool (b : bool) : string := if b then "true" else "false".

Definition show_role (r : RegionTargetRole) : string :=
  match r with
  | RoleRead => "Read" | RolePrimaryRead => "PrimaryRead" | RoleWrite => "Write"
  | RoleReplicate => "Replicate"
  end.

Definition no_peers_msg (region : ShardRegion) (role : RegionTargetRole) : string :=
  "no active peers for region " +:+ pretty (region_id region) +:+ " (serving=" +:+ show_bool (is_serving region)
  +:+ ", peers=" +:+ debug_nums (peers region) +:+ ", primary=" +:+ pretty (primary region)
  +:+ ", role=" +:+ show_role role +:+ ")".

Section Coordination.
Context {World : Type} `{CO : !Coordinator World} `{DH : !DefaultHasher} `{J : !JsonError} `{PB : !PointsBincode}.
Context (cfg : IngestConfig) (node_id : N).

(** The world and the location cache. *)
#[local] Abbreviation env := (World * CacheInner)%type.

(** ** Bootstrap *)

Definition measurement_bootstrapped (w : World) (k : MeasurementKey) : World * result RoutingError bool :=
  let '(w', m) := co_snapshot w in (w', m ← m; mret (bool_decide (is_Some (space m k)))).

Fixpoint wait_for_measurement_bootstrapped (polls : nat) (e : env) (k : MeasurementKey)
    : env * result RoutingError unit :=
  let '(w, c) := e in
  let '(w1, m) := co_snapshot w in
  match m with
  | Err err => ((w1, c), Err err)
  | Ok m =>
    if bool_decide (is_Some (space m k)) then ((w1, refresh_from_map c m), Ok tt)
    else match polls with
         | O => ((w1, c), Err (ShardMapError "bootstrap replication timeout"))
         | S polls' => wait_for_measurement_bootstrapped polls' (co_sleep w1, c) k
         end
  end.

(** [build_bootstrap_op] with its own snapshot. *)
Definition bootstrap_op (w : World) (k : MeasurementKey) : World * result RoutingError ShardMapOp :=
  let '(w1, m) := co_snapshot w in
  (w1, m ← m; build_bootstrap_op (ic_sharding cfg) m (co_members w1) node_id (co_now_secs w1) k).

Definition bootstrap_measurement_local (w : World) (k : MeasurementKey) : World * result RoutingError unit :=
  let '(w1, there) := measurement_bootstrapped w k in
  match there with
  | Err e => (w1, Err e)
  | Ok true => (w1, Ok tt)
  | Ok false =>
    let '(w2, op) := bootstrap_op w1 k in
    match op with
    | Err e => (w2, Err e)
    | Ok op => co_apply_op w2 op
    end
  end.

Definition propose_shard_map_op_via_raft (w : World) (addr : string) (op : ShardMapOp)
    : World * result RoutingError unit :=
  let '(w', resp) := co_propose w addr op in
  (w', match resp with
       | Err e => Err (PeerUnreachable e)
       | Ok (status, body) =>
         if http_success status then map_err ShardMapError body
         else Err (ShardMapError ("raft client_write failed: " +:+ pretty status))
       end).

Definition ensure_measurement_bootstrapped (e : env) (k : MeasurementKey) (is_leader : bool)
    (leader_addr : option string) : env * result RoutingError unit :=
  let '(w, c) := e in
  let '(w1, there) := measurement_bootstrapped w k in
  match there with
  | Err err => ((w1, c), Err err)
  | Ok true => ((w1, c), Ok tt)
  | Ok false =>
    let '(w2, started) :=
      if is_leader then
        let '(w2, op) := bootstrap_op w1 k in
        match op with
        | Err err => (w2, Err err)
        | Ok op =>
          match leader_addr with
          | Some addr => propose_shard_map_op_via_raft w2 addr op
          | None => bootstrap_measurement_local w2 k
          end
        end
      else
        match leader_addr with
        | Some addr =>
          let '(w2, resp) := co_ask_leader w1 addr k in
          (w2, match resp with
               | Err err => Err (PeerUnreachable err)
               | Ok status =>
                 if http_success status then Ok tt
                 else Err (ShardMapError ("bootstrap failed: " +:+ pretty status))
               end)
        | None => (w1, Err (ClusterUnavailable "no raft leader for shard bootstrap"))
        end in
    match started with
    | Err err => ((w2, c), Err err)
    | Ok _ => wait_for_measurement_bootstrapped (ic_bootstrap_polls cfg) (w2, c) k
    end
  end.

(** ** One region at a time *)

(** The candidates of a scatter with their addresses. *)
Definition scatter_targets (w : World) (region : ShardRegion) (role : RegionTargetRole) : list (N * string) :=
  let candidates := List.filter (fun id => negb (id =? node_id))
                      (resolve_region_peers region node_id (co_members w) role) in
  omap (fun id => (fun addr => (id, addr)) <$> peer_addr (co_members w) id)
    (take (Nat.max (ic_scatter_max_peer_attempts cfg) 1) candidates).

Fixpoint scatter_loop {T} (attempt_one : env -> N -> string -> env * result RoutingError T)
    (region : ShardRegion) (targets : list (N * string)) (last_err : RoutingError) (e : env)
    : env * result RoutingError T :=
  match targets with
  | [] => (e, Err last_err)
  | (id, addr) :: rest =>
    let '(e', r) := attempt_one e id addr in
    match r with
    | Ok v => (e', Ok v)
    | Err (StaleShardEpoch _) => (e', Err (StaleShardEpoch (region_id region)))
    | Err err => scatter_loop attempt_one region rest err e'
    end
  end.

Definition scatter_to_region_peers {T} (attempt_one : env -> N -> string -> env * result RoutingError T)
    (e : env) (region : ShardRegion) (role : RegionTargetRole) : env * result RoutingError T :=
  match scatter_targets e.1 region role with
  | [] => (e, Err (PeerUnreachable (no_peers_msg region role)))
  | targets =>
    scatter_loop attempt_one region targets
      (PeerUnreachable ("all active peers failed for region " +:+ pretty (region_id region))) e
  end.

Definition refresh_location_cache (e : env) : env * result RoutingError unit :=
  let '(w, m) := co_snapshot e.1 in
  match m with
  | Err err => ((w, e.2), Err err)
  | Ok m => ((w, refresh_from_map e.2 m), Ok tt)
  end.

Definition reload_region (e : env) (k : MeasurementKey) (id : N) : env * result RoutingError ShardRegion :=
  let '(e1, refreshed) := refresh_location_cache e in
  match refreshed with
  | Err err => (e1, Err err)
  | Ok _ =>
    let '(w2, m) := co_snapshot e1.1 in
    ((w2, e1.2),
     m ← m;
     ok_or (ShardMapError "region missing after refresh")
       (s ← space m k; find (fun r => region_id r =? id) (regions s)))
  end.

(** The request of one attempt and the reading of its answer. *)
Definition post_shard_write (req : ShardWriteRequest) (k : MeasurementKey) (point_count : nat)
    (e : env) (peer_id : N) (addr : string) : env * result RoutingError unit :=
  let '(w, c) := e in
  let id := wr_region_id req in
  let '(w', resp) := co_post_write w addr req in
  match resp with
  | Err err => ((w', c), Err (PeerUnreachable err))
  | Ok (status, body) =>
    if status =? 409 then ((w', invalidate_measurement c k), Err (StaleShardEpoch id))
    else if (status =? 503) || (status =? 429) then
      ((w', c), Err (ClusterUnavailable ("region " +:+ pretty id +:+ " primary " +:+ pretty peer_id
                                         +:+ " is at write capacity")))
    else if (status =? 400) || (status =? 422) then ((w', c), Err (refused body (N.of_nat point_count)))
    else if negb (http_success status) then
      ((w', c), Err (PeerUnreachable ("forward write to peer " +:+ pretty peer_id +:+ " failed: "
                                      +:+ pretty status)))
    else ((w', c), Ok tt)
  end.

Definition try_forward_shard_write_to_region (e : env) (d r : string) (precision : option string)
    (points : list Point) : env * result RoutingError unit :=
  match points with
  | [] => (e, Ok tt)
  | p :: _ =>
    let sid := series_id_for_point p in
    let k := mkKey d r (pt_measurement p) in
    let '(w1, m) := co_snapshot e.1 in
    match m with
    | Err err => ((w1, e.2), Err err)
    | Ok m =>
      let '(c1, found) := cache_locate e.2 m k sid in
      match found with
      | None => ((w1, c1), Err (ShardMapError "region missing for forward"))
      | Some region =>
        if negb (check_epoch c1 m k sid (epoch region)) then
          ((w1, invalidate_measurement c1 k), Err (StaleShardEpoch (region_id region)))
        else
          match encode_points_to_line_protocol points (precision_from_str_opt precision) with
          | Err err => ((w1, c1), Err (of_points_error err))
          | Ok body =>
            let req := mkWriteReq d r precision (epoch region) (region_id region) body in
            scatter_to_region_peers (post_shard_write req k (length points)) (w1, c1) region RoleWrite
          end
      end
    end
  end.

Definition forward_shard_write_to_region (e : env) (d r : string) (precision : option string)
    (points : list Point) : env * result RoutingError unit :=
  let '(e1, first) := try_forward_shard_write_to_region e d r precision points in
  match first with
  | Err (StaleShardEpoch id) =>
    match points with
    | [] => (e1, Err (ShardMapError "empty forward batch"))
    | p :: _ =>
      let '(e2, reloaded) := reload_region e1 (mkKey d r (pt_measurement p)) id in
      match reloaded with
      | Err err => (e2, Err err)
      | Ok _ =>
        let '(e3, again) := try_forward_shard_write_to_region e2 d r precision points in
        (e3, map_err (fun err => match err with StaleShardEpoch _ => StaleShardEpoch id | other => other end) again)
      end
    end
  | other => (e1, other)
  end.

(** ** One request per node *)

#[local] Abbreviation outcome := (N * result RoutingError unit)%type.
#[local] Abbreviation buckets := (gmap N (list Point)).

Definition encode_forward (precision : option string) (points : list Point) : result RoutingError bytes :=
  map_err of_points_error
    (if ic_binary_points_wire cfg then encode_points_binary points
     else encode_points_to_line_protocol points (precision_from_str_opt precision)).

(** The regions of the map among [ids], and the ids it does not have. *)
Fixpoint find_regions (m : ShardMap) (ids : list N) : list ShardRegion * list N :=
  match ids with
  | [] => ([], [])
  | id :: rest =>
    let '(found, missing) := find_regions m rest in
    match region_by_id m id with
    | Some reg => (reg :: found, missing)
    | None => (found, id :: missing)
    end
  end.

Definition forward_regions (w : World) (forward : buckets) : World * (list ShardRegion * list N) :=
  let ids := (map_to_list forward).*1 in
  let '(w', m) := co_snapshot w in
  (w', match m with Ok m => find_regions m ids | Err _ => ([], ids) end).

Definition region_epochs (rs : list ShardRegion) : gmap N ShardEpoch :=
  fold_left (fun acc reg => <[region_id reg := epoch reg]> acc) rs ∅.

(** The parts for one node, and the regions that cannot be encoded. *)
Fixpoint build_parts (d r : string) (precision : option string) (forward : buckets)
    (epochs : gmap N ShardEpoch) (ids : list N) : list ShardWriteRequest * list outcome :=
  match ids with
  | [] => ([], [])
  | id :: rest =>
    let '(parts, errs) := build_parts d r precision forward epochs rest in
    match forward !! id with
    | None => (parts, errs)
    | Some points =>
      match encode_forward precision points with
      | Ok body =>
        (mkWriteReq d r precision (default epoch_default (epochs !! id)) id body :: parts, errs)
      | Err err => (parts, (id, Err err) :: errs)
      end
    end
  end.

Record Sending := mkSend {
  sd_node : N;
  sd_addr : string;
  sd_parts : list ShardWriteRequest
}.

(** The results so far and the regions left to the single path. *)
Record Forwarding := mkForwarding {
  fw_results : list outcome;
  fw_single : list N
}.

Fixpoint plan_sends (mem : ClusterMembership) (d r : string) (precision : option string)
    (forward : buckets) (epochs : gmap N ShardEpoch) (by_node : list (N * list N)) (f : Forwarding)
    : list Sending * Forwarding :=
  match by_node with
  | [] => ([], f)
  | (node, ids) :: rest =>
    match peer_addr mem node with
    | None => plan_sends mem d r precision forward epochs rest (mkForwarding (fw_results f) (fw_single f ++ ids))
    | Some addr =>
      let '(parts, errs) := build_parts d r precision forward epochs ids in
      let '(sends, f') := plan_sends mem d r precision forward epochs rest
                            (mkForwarding (fw_results f ++ errs) (fw_single f)) in
      (mkSend node addr parts :: sends, f')
    end
  end.

Fixpoint post_sends (w : World) (sends : list Sending) : World * list (Sending * NodeSendOutcome) :=
  match sends with
  | [] => (w, [])
  | s :: rest =>
    let '(w1, out) := co_send w (sd_addr s) (sd_parts s) in
    let '(w2, outs) := post_sends w1 rest in
    (w2, (s, out) :: outs)
  end.

Definition read_part (d r : string) (forward : buckets) (node : N) (acc : CacheInner * Forwarding)
    (part : ShardWritePartResult) : CacheInner * Forwarding :=
  let '(c, f) := acc in
  let id := part_region_id part in
  let push (o : result RoutingError unit) := (c, mkForwarding (fw_results f ++ [(id, o)]) (fw_single f)) in
  match part_outcome node part with
  | Done (Err (PartialWrite reason _)) =>
    push (Err (refused reason (N.of_nat (length (default [] (forward !! id))))))
  | Done o => push o
  | Retry =>
    let c' := match forward !! id with
              | Some (p :: _) => invalidate_measurement c (mkKey d r (pt_measurement p))
              | _ => c
              end in
    (c', mkForwarding (fw_results f) (fw_single f ++ [id]))
  end.

Definition read_outcome (d r : string) (forward : buckets) (acc : CacheInner * Forwarding)
    (so : Sending * NodeSendOutcome) : CacheInner * Forwarding :=
  let '(c, f) := acc in
  let '(s, out) := so in
  let ids := wr_region_id <$> sd_parts s in
  let push_all (err : RoutingError) :=
    (c, mkForwarding (fw_results f ++ ((fun id => (id, Err err)) <$> ids)) (fw_single f)) in
  match out with
  | SendResults parts => fold_left (read_part d r forward (sd_node s)) parts (c, f)
  | SendUnsupported => (c, mkForwarding (fw_results f) (fw_single f ++ ids))
  | SendCapacity => push_all (ClusterUnavailable ("node " +:+ pretty (sd_node s) +:+ " is at write capacity"))
  | SendFailed msg =>
    push_all (PeerUnreachable ("forward batch to node " +:+ pretty (sd_node s) +:+ " failed: " +:+ msg))
  end.

Fixpoint forward_singles (e : env) (d r : string) (precision : option string) (forward : buckets)
    (ids : list N) : env * list outcome :=
  match ids with
  | [] => (e, [])
  | id :: rest =>
    match forward !! id with
    | None => forward_singles e d r precision forward rest
    | Some points =>
      let '(e1, o) := forward_shard_write_to_region e d r precision points in
      let '(e2, os) := forward_singles e1 d r precision forward rest in
      (e2, (id, o) :: os)
    end
  end.

Definition forward_shard_writes_by_node (e : env) (d r : string) (precision : option string)
    (forward : buckets) : env * list outcome :=
  let '(w, c) := e in
  let '(w1, (regs, missing)) := forward_regions w forward in
  let mem := co_members w1 in
  let '(by_node, unrouted) := group_forwards_by_primary regs node_id mem in
  let '(sends, f) := plan_sends mem d r precision forward (region_epochs regs)
                       (btree_iter N.leb by_node) (mkForwarding [] (missing ++ unrouted)) in
  let '(w2, outs) := post_sends w1 sends in
  let '(c', f') := fold_left (read_outcome d r forward) outs (c, f) in
  let '(e', rest) := forward_singles (w2, c') d r precision forward (fw_single f') in
  (e', fw_results f' ++ rest).

(** ** This node's own share *)

(** [region_replication_targets]. *)
Definition region_replication_targets (w : World) (region : ShardRegion) : list N :=
  active_region_peer_targets region node_id (co_members w).

Fixpoint encode_replicas (w : World) (m : ShardMap) (precision : option string)
    (local : list (N * list Point)) : result RoutingError (list (N * bytes * list N)) :=
  match local with
  | [] => Ok []
  | (id, points) :: rest =>
    region ← ok_or (ShardMapError ("no region " +:+ pretty id)) (region_by_id m id);
    body ← encode_forward precision points;
    replicas ← encode_replicas w m precision rest;
    mret ((id, body, region_replication_targets w region) :: replicas)
  end.

Fixpoint dispatch_replicas (w : World) (d r : string) (precision : option string) (wal_seq : N)
    (replicas : list (N * bytes * list N)) : World * result RoutingError unit :=
  match replicas with
  | [] => (w, Ok tt)
  | (id, body, targets) :: rest =>
    let '(w', o) := co_dispatch w (mkOutbound d r precision body wal_seq (Some targets) (Some id)) in
    match o with
    | Err err => (w', Err err)
    | Ok _ => dispatch_replicas w' d r precision wal_seq rest
    end
  end.

Definition append_local_buckets (w : World) (d r : string) (precision : option string) (local : buckets)
    : World * result RoutingError unit :=
  if bool_decide (local = ∅) then (w, Ok tt)
  else
    let '(w1, m) := co_snapshot w in
    match (m ← m; encode_replicas w1 m precision (map_to_list local)) with
    | Err err => (w1, Err err)
    | Ok replicas =>
      let all_local := concat (map_to_list local).*2 in
      let '(w2, prepared) := co_prepare w1 d r all_local in
      match prepared with
      | Err err => (w2, Err err)
      | Ok _ =>
        let '(w3, appended) := co_append w2 d r all_local in
        match appended with
        | Err err => (w3, Err err)
        | Ok wal_seq => dispatch_replicas w3 d r precision wal_seq replicas
        end
      end
    end.

(** ** The forward queue *)

Section Queued.
Context {Q : Type} `{FQP : !ForwardQueuePort Q}.

(** The frames of the regions, one after the other. *)
Fixpoint encode_frames (bs : list (list Point)) : result PointsError bytes :=
  match bs with
  | [] => Ok []
  | points :: rest =>
    frame ← encode_points_binary points; body ← encode_frames rest; mret (frame ++ body)
  end.

Definition enqueue_forwards (q : Q) (d r : string) (precision : option string) (forward : buckets)
    (now not_before_ms : N) : Q * bool :=
  match encode_frames (map_to_list forward).*2 with
  | Err _ => (q, false)
  | Ok body =>
    let '(q', o) := port_enqueue q (mkForward d r precision now not_before_ms 0 body) in
    (q', is_ok o)
  end.

Definition queue_forwards (w : World) (q : option Q) (d r : string) (precision : option string)
    (forward : buckets) : option Q * bool :=
  match q with
  | None => (None, false)
  | Some q =>
    if bool_decide (forward = ∅) || negb (ic_async_forward cfg) then (Some q, false)
    else
      let now := co_now_ms w in
      if (ic_async_forward_max_lag_ms cfg <? port_oldest_age_ms q now)
         || (ic_async_forward_max_bytes cfg <? port_bytes q)
      then (Some q, false)
      else let '(q', queued) := enqueue_forwards q d r precision forward now 0 in (Some q', queued)
  end.

Definition is_passing (o : result RoutingError unit) : bool :=
  match o with Err (PeerUnreachable _ | ClusterUnavailable _) => true | _ => false end.

Definition is_capacity (o : result RoutingError unit) : bool :=
  match o with Err (ClusterUnavailable _) => true | _ => false end.

(** The buckets of [ids]. *)
Definition subset_of (forward : buckets) (ids : list N) : buckets :=
  filter (fun kv => kv.1 ∈ ids) forward.

Definition hold_failed_forwards (w : World) (q : option Q) (d r : string) (precision : option string)
    (forward : buckets) (results : list outcome) : option Q * list outcome :=
  match q with
  | None => (None, results)
  | Some q =>
    let held := subset_of forward ((List.filter (fun o => is_passing o.2) results).*1) in
    if bool_decide (held = ∅) then (Some q, results)
    else if ic_async_forward_max_bytes cfg <? port_bytes q then (Some q, results)
    else
      let now := co_now_ms w in
      let '(q', queued) := enqueue_forwards q d r precision held now (wrapping_add now (forward_backoff_ms 0)) in
      (Some q',
       if queued then (fun o => if bool_decide (is_Some (held !! o.1)) then (o.1, Ok tt) else o) <$> results
       else results)
  end.

(** [CAPACITY_RETRIES]. *)
Definition CAPACITY_RETRIES : nat := 4.

Fixpoint retry_refused_regions (attempts : nat) (e : env) (d r : string) (precision : option string)
    (forward : buckets) (results : list outcome) : env * list outcome :=
  match attempts with
  | O => (e, results)
  | S attempts' =>
    let refused := (List.filter (fun o => is_capacity o.2) results).*1 in
    if bool_decide (refused = []) then (e, results)
    else
      let subset := subset_of forward refused in
      let '(e', retried) := forward_shard_writes_by_node (co_sleep e.1, e.2) d r precision subset in
      retry_refused_regions attempts' e' d r precision forward
        (List.filter (fun o => negb (bool_decide (o.1 ∈ refused))) results ++ retried)
  end.

(** ** A client's batch *)

Definition show_routing_error (e : RoutingError) : string :=
  match e with
  | ClusterUnavailable m => "cluster unavailable: " +:+ m
  | ShardMapError m => "shard map error: " +:+ m
  | PeerUnreachable m => "peer unreachable: " +:+ m
  | StaleShardEpoch id => "stale shard epoch for region " +:+ pretty id
  | PartialWrite reason dropped => display_partial reason dropped
  | OtherError m => m
  end.

Definition partial_write_error (failures region_count : nat) (all_capacity : bool) (first : RoutingError)
    : RoutingError :=
  if all_capacity then
    ClusterUnavailable (pretty failures +:+ " of " +:+ pretty region_count
      +:+ " region primaries at write capacity; retry the batch")
  else
    ShardMapError ("write partially applied: " +:+ pretty failures +:+ " of " +:+ pretty region_count
      +:+ " forwarded regions failed (local bucket applied); first error: " +:+ show_routing_error first).

Definition errors_of (results : list outcome) : list RoutingError :=
  omap (fun o => match o.2 with Err err => Some err | Ok _ => None end) results.

Definition refused_points (errs : list RoutingError) : N :=
  fold_right (fun err acc => match err with PartialWrite _ n => n + acc | _ => acc end) 0 errs.

(** What the client is told of the forwards. *)
Definition forward_answer (results : list outcome) (region_count : nat) : result RoutingError unit :=
  let errs := errors_of results in
  match errs with
  | [] => Ok tt
  | first :: _ =>
    let all_refused := forallb (fun err => match err with PartialWrite _ _ => true | _ => false end) errs in
    let all_capacity := forallb (fun err => match err with ClusterUnavailable _ => true | _ => false end) errs in
    match first with
    | PartialWrite reason _ =>
      if all_refused then Err (PartialWrite reason (refused_points errs))
      else Err (partial_write_error (length errs) region_count all_capacity first)
    | _ => Err (partial_write_error (length errs) region_count all_capacity first)
    end
  end.

Definition materialized_msg (meas : string) : string :=
  "error parsing query: cannot write directly to materialized view destination " +:+ quoted meas.

(** No measurement is the destination of a view in this retention policy. *)
Fixpoint check_destinations (w : World) (d r : string) (measurements : list string)
    : World * result RoutingError unit :=
  match measurements with
  | [] => (w, Ok tt)
  | meas :: rest =>
    let '(w', meta) := co_measurement w (mkKey d r meas) in
    match meta with
    | Err err => (w', Err err)
    | Ok (Some (true, None)) => (w', Err (OtherError (materialized_msg meas)))
    | Ok (Some (true, Some mr)) =>
      if bool_decide (mr = r) then (w', Err (OtherError (materialized_msg meas)))
      else check_destinations w' d r rest
    | Ok _ => check_destinations w' d r rest
    end
  end.

Fixpoint ensure_bootstrapped (e : env) (d r : string) (leader_addr : option string)
    (measurements : list string) : env * result RoutingError unit :=
  match measurements with
  | [] => (e, Ok tt)
  | meas :: rest =>
    let '(e', o) := ensure_measurement_bootstrapped e (mkKey d r meas) (co_leader e.1).1 leader_addr in
    match o with
    | Err err => (e', Err err)
    | Ok _ => ensure_bootstrapped e' d r leader_addr rest
    end
  end.

(** [partition_points] with its snapshot. *)
Definition partition_batch (e : env) (d r : string) (points : list Point)
    : env * result RoutingError PointBuckets :=
  let '(w, m) := co_snapshot e.1 in
  match m with
  | Err err => ((w, e.2), Err err)
  | Ok m => let '(c, b) := partition_points e.2 m d r node_id points in ((w, c), b)
  end.

(** The sends, the local share, the retries and what is held. *)
Definition write_buckets (e : env) (q : option Q) (d r : string) (precision : option string)
    (b : PointBuckets) : env * option Q * result RoutingError unit :=
  let forward := pb_forward b in
  let '(e1, results) := forward_shard_writes_by_node e d r precision forward in
  let '(w2, local) := append_local_buckets e1.1 d r precision (pb_local b) in
  let '(e3, results) := retry_refused_regions CAPACITY_RETRIES (w2, e1.2) d r precision forward results in
  let '(q', results) := hold_failed_forwards e3.1 q d r precision forward results in
  (e3, q', match local with
           | Err err => Err err
           | Ok _ => forward_answer results (size forward)
           end).

Definition ingest_sharded_points (e : env) (q : option Q) (d r : string) (precision : option string)
    (points : list Point) : env * option Q * result RoutingError unit :=
  let measurements := nub (pt_measurement <$> points) in
  let '(w1, checked) := check_destinations e.1 d r measurements in
  match checked with
  | Err err => ((w1, e.2), q, Err err)
  | Ok _ =>
    let '(e2, ready) := ensure_bootstrapped (w1, e.2) d r (co_leader w1).2 measurements in
    match ready with
    | Err err => (e2, q, Err err)
    | Ok _ =>
      let '(e3, b) := partition_batch e2 d r points in
      match b with
      | Err err => (e3, q, Err err)
      | Ok b =>
        let '(q', queued) := queue_forwards e3.1 q d r precision (pb_forward b) in
        if queued then
          let '(w4, local) := append_local_buckets e3.1 d r precision (pb_local b) in
          ((w4, e3.2), q', local)
        else write_buckets e3 q' d r precision b
      end
    end
  end.
End Queued.

(** ** Delivery of the queue *)

Definition undelivered (forward : buckets) (results : list outcome) : list Point :=
  results ≫= fun o =>
    match o.2 with
    | Ok _ | Err (PartialWrite _ _) => []
    | Err _ => default [] (forward !! o.1)
    end.

Definition deliver_points (e : env) (d r : string) (precision : option string) (points : list Point)
    : env * result RoutingError (list Point) :=
  match points with
  | [] => (e, Ok [])
  | _ =>
    let '(e1, b) := partition_batch e d r points in
    match b with
    | Err err => (e1, Err err)
    | Ok b =>
      let '(e2, results) := forward_shard_writes_by_node e1 d r precision (pb_forward b) in
      let '(w3, local) := append_local_buckets e2.1 d r precision (pb_local b) in
      let failed := match local with Err _ => concat (map_to_list (pb_local b)).*2 | Ok _ => [] end in
      ((w3, e2.2), Ok (failed ++ undelivered (pb_forward b) results))
    end
  end.
End Coordination.

