(* ===== verification/ShardedIngestTheorems.v ===== *)
(** * Coordination of a sharded write: theorems

    What the coordinator relies on is the class [CoordinatorLaws]: an answer
    of success to a part means its points are in the log of the node that
    gave it, which is what the handlers of [ShardWriteHandler] promise. An
    acknowledged batch is then kept: every point is logged somewhere or
    waits in the forward queue. *)

From stdpp Require Import prelude list sorting gmap strings pretty.
From S2P Require Import Prelude Bytes Wire ShardTypes ShardOps Membership LocationCache Points WalWriter PeerResolution ShardRouting.
From S2P Require Import ShardRoutingTheorems PointFrames LineProtocol ForwardCoalescer FieldTypes ShardWriteHandler.
From S2P Require Import CfStore ReplicationLog ForwardQueue ForwardQueueTheorems ForwardDrain ShardedIngest.
From stdpp Require Import options.

#[local] Open Scope N_scope.

(** ** What is relied on *)

(** [landed w d r p]: a node has the point in its log, as the body it came
    in carries it. [declined w d r p]: a primary answered 400 or 422 to a part
    with the point, and logged the rest of the part. *)
Class PointFate (World : Type) := {
  landed : World -> string -> string -> Point -> Prop;
  declined : World -> string -> string -> Point -> Prop
}.

Section Fate.
Context {World : Type} `{PF : !PointFate World}.

(** Logs only grow, and an answer stays given. *)
Definition grows (w w' : World) : Prop :=
  forall d r p, (landed w d r p -> landed w' d r p) /\ (declined w d r p -> declined w' d r p).

Definition answered (w : World) (d r : string) (p : Point) : Prop := landed w d r p \/ declined w d r p.

#[export] Instance grows_preorder : PreOrder grows.
Proof. split; [by intros w d r p|]. intros w1 w2 w3 H H' d r p. specialize (H d r p). specialize (H' d r p). tauto. Qed.

Lemma landed_grows w w' d r pts : grows w w' -> Forall (landed w d r) pts -> Forall (landed w' d r) pts.
Proof. intros Hg H. eapply Forall_impl; [exact H|]. intros p. by apply Hg. Qed.

Lemma answered_grows w w' d r pts : grows w w' -> Forall (answered w d r) pts -> Forall (answered w' d r) pts.
Proof. intros Hg Ha. eapply Forall_impl; [exact Ha|]. intros p [H|H]; [left|right]; by apply (Hg d r p). Qed.
End Fate.

Definition refusal (status : N) : bool := (status =? 400) || (status =? 422).

(** A status is honest about the points of the request. *)
Definition honest_status `{PF : PointFate World} (w : World) (d r : string) (status : N) (pts : list Point) : Prop :=
  (http_success status = true -> Forall (landed w d r) pts) /\
  (refusal status = true -> Forall (answered w d r) pts).

Class CoordinatorLaws (World : Type) `{CO : !Coordinator World} `{PF : !PointFate World} `{PB : !PointsBincode}
    (cfg : IngestConfig) := {
  shard_map_grows w : grows w (co_shard_map w).1;
  sleep_grows w : grows w (co_sleep w);
  send_grows w addr parts : grows w (co_send w addr parts).1;
  post_grows w addr req : grows w (co_post_write w addr req).1;
  measurement_grows w k : grows w (co_measurement w k).1;
  co_prepare_grows w d r pts : grows w (co_prepare w d r pts).1;
  co_append_grows w d r pts : grows w (co_append w d r pts).1;
  dispatch_grows w b : grows w (co_dispatch w b).1;
  propose_grows w addr op : grows w (co_propose w addr op).1;
  apply_op_grows w op : grows w (co_apply_op w op).1;
  ask_grows w addr k : grows w (co_ask_leader w addr k).1;
  clock_in_range w : co_now_ms w <= u64_max;
  append_lands w d r pts w' seq : co_append w d r pts = (w', Ok seq) -> Forall (landed w' d r) pts;
  send_honest w addr parts w' rs :
    co_send w addr parts = (w', SendResults rs) ->
    Forall2 (fun part res =>
      part_region_id res = wr_region_id part /\
      forall pts, encode_forward cfg (wr_precision part) pts = Ok (wr_body part) ->
        honest_status w' (wr_db part) (wr_rp part) (part_status res) pts) parts rs;
  post_honest w addr req w' status body :
    co_post_write w addr req = (w', Ok (status, body)) ->
    forall pts, encode_points_to_line_protocol pts (precision_from_str_opt (wr_precision req)) = Ok (wr_body req) ->
      honest_status w' (wr_db req) (wr_rp req) status pts
}.

(** What a queue promises: with room for [n] more entries, an accepted entry
    is held from then on, and nothing held is lost. *)
Class ForwardQueuePortLaws (Q : Type) `{FQP : !ForwardQueuePort Q} := {
  port_room : nat -> Q -> Prop;
  port_holds : Q -> ForwardEntry -> Prop;
  enqueue_spec n q e q' o :
    port_room (S n) q -> forward_ok e -> port_enqueue q e = (q', o) ->
    port_room n q' /\ (forall e', port_holds q e' -> port_holds q' e') /\ (is_ok o = true -> port_holds q' e);
  port_room_le n q : port_room (S n) q -> port_room n q
}.

Section Sends.
Context {World : Type} `{CO : !Coordinator World} `{PF : !PointFate World} `{PB : !PointsBincode}.
Context `{DH : !DefaultHasher} `{J : !JsonError}.
Context (cfg : IngestConfig) (node_id : N) {CL : CoordinatorLaws World cfg}.

#[local] Abbreviation outcome := (N * result RoutingError unit)%type.
#[local] Abbreviation buckets := (gmap N (list Point)).

(** What a result says of the points it is about. *)
Definition fate (w : World) (d r : string) (o : result RoutingError unit) (pts : list Point) : Prop :=
  match o with
  | Ok _ => Forall (landed w d r) pts
  | Err (PartialWrite _ _) => Forall (answered w d r) pts
  | Err _ => True
  end.

Lemma fate_grows w w' d r o pts : grows w w' -> fate w d r o pts -> fate w' d r o pts.
Proof.
  intros Hg. destruct o as [[]|[]]; cbn; try done; [by apply landed_grows|by apply answered_grows].
Qed.

(** A refusal read from an answer is a partial write. *)
Lemma refused_partial msg n : exists reason k, refused msg n = PartialWrite reason k.
Proof.
  unfold refused. destruct (strip_prefix _ _); [|by eauto]. destruct (rsplit_once _ _) as [[]|]; [|by eauto].
  destruct (from_str_radix _ _); eauto.
Qed.

(** ** One region at a time *)

Lemma post_fate d r precision ep id body pts k n e peer addr e' o :
  encode_points_to_line_protocol pts (precision_from_str_opt precision) = Ok body ->
  post_shard_write (mkWriteReq d r precision ep id body) k n e peer addr = (e', o) ->
  grows e.1 e'.1 /\ fate e'.1 d r o pts.
Proof using CL.
  intros Hb E. destruct e as [w c]. unfold post_shard_write in E.
  pose proof (post_grows w addr (mkWriteReq d r precision ep id body)) as Hg.
  destruct (co_post_write w addr _) as [w' resp] eqn:Ep. cbn [fst] in Hg.
  destruct resp as [[status text]|err]; [|by injection E as <- <-].
  destruct (post_honest _ _ _ _ _ _ Ep pts Hb) as [H1 H2]. cbn in H1, H2.
  destruct (status =? 409); [by injection E as <- <-|]. destruct (_ || _); [by injection E as <- <-|].
  fold (refusal status) in E. destruct (refusal status) eqn:Er.
  { injection E as <- <-. split; [done|]. destruct (refused_partial text (N.of_nat n)) as (? & ? & ->). by apply H2. }
  destruct (http_success status) eqn:Es; injection E as <- <-; [split; [done|by apply H1]|done].
Qed.

Lemma scatter_loop_fate attempt d r region targets last_err e e' o pts :
  (forall e1 id addr e2 o1, attempt e1 id addr = (e2, o1) -> grows e1.1 e2.1 /\ fate e2.1 d r o1 pts) ->
  fate e.1 d r (Err last_err) pts ->
  scatter_loop attempt region targets last_err e = (e', o) -> grows e.1 e'.1 /\ fate e'.1 d r o pts.
Proof.
  intros Ha. revert last_err e. induction targets as [|[id addr] targets IH]; intros last_err e Hl E; cbn in E.
  { by injection E as <- <-. }
  destruct (attempt e id addr) as [e1 o1] eqn:E1. destruct (Ha _ _ _ _ _ E1) as [Hg Hf].
  destruct o1 as [[]|err]; [by injection E as <- <-|].
  assert (forall e2, (e1, Err (StaleShardEpoch (region_id region))) = (e2, o) -> grows e.1 e2.1 /\ fate e2.1 d r o pts) as Hs
    by (by intros e2 [= <- <-]).
  destruct err; try (by apply Hs in E); (apply IH in E as [Hg' Hf']; [|done]; split; [by etrans|done]).
Qed.

Lemma snapshot_step w w' o :
  co_snapshot w = (w', o) -> grows w w' /\ match o with Err err => exists m, err = OtherError m | Ok _ => True end.
Proof using CL.
  unfold co_snapshot. pose proof (shard_map_grows w) as H. destruct (co_shard_map w) as [w1 [m|err]]; cbn in *;
    intros [= <- <-]; eauto.
Qed.

Lemma reload_grows e k id e' o :
  reload_region e k id = (e', o) -> grows e.1 e'.1 /\ forall pts d r, fate e'.1 d r (o ≫= fun _ => Ok tt) pts \/ is_ok o = true.
Proof using CL.
  unfold reload_region, refresh_location_cache. intros E. destruct (co_snapshot e.1) as [w1 m] eqn:E1.
  apply snapshot_step in E1 as [Hg1 Hm]. destruct m as [m|err].
  2: { injection E as <- <-. split; [done|]. destruct Hm as [? ->]. by left. }
  cbn [fst snd] in E. destruct (co_snapshot w1) as [w2 m2] eqn:E2. apply snapshot_step in E2 as [Hg2 Hm2].
  injection E as <- <-. cbn. split; [by etrans|]. intros pts d r. destruct m2 as [m2|err].
  - cbn. destruct (space m2 k) as [s|]; cbn; [|by left]. destruct (find _ (regions s)); [by right|by left].
  - destruct Hm2 as [? ->]. by left.
Qed.

Lemma try_forward_fate e d r precision pts e' o :
  try_forward_shard_write_to_region cfg node_id e d r precision pts = (e', o) ->
  grows e.1 e'.1 /\ fate e'.1 d r o pts.
Proof using CL.
  unfold try_forward_shard_write_to_region. intros E. destruct pts as [|p pts]; [injection E as <- <-; split; [done|constructor]|].
  set (all := p :: pts) in *. destruct (co_snapshot e.1) as [w1 m] eqn:E1. apply snapshot_step in E1 as [Hg Hm].
  destruct m as [m|err]; [|injection E as <- <-; destruct Hm as [? ->]; by split].
  destruct (cache_locate e.2 m _ _) as [c1 [region|]]; [|by injection E as <- <-].
  destruct (negb _); [by injection E as <- <-|].
  destruct (encode_points_to_line_protocol all _) as [body|err] eqn:Eb; [|by injection E as <- <-].
  unfold scatter_to_region_peers in E. destruct (scatter_targets _ _ _ _ _) as [|t ts]; [by injection E as <- <-|].
  apply (scatter_loop_fate _ d r _ _ _ _ _ _ all) in E as [Hg' Hf]; [split; [by etrans|done]| |done].
  intros e1 id addr e2 o1 E2. by eapply post_fate.
Qed.

Lemma forward_to_region_fate e d r precision pts e' o :
  forward_shard_write_to_region cfg node_id e d r precision pts = (e', o) ->
  grows e.1 e'.1 /\ fate e'.1 d r o pts.
Proof using CL.
  unfold forward_shard_write_to_region. intros E.
  destruct (try_forward_shard_write_to_region cfg node_id e d r precision pts) as [e1 first] eqn:E1.
  apply try_forward_fate in E1 as [Hg1 Hf1].
  destruct first as [[]|err]; [by injection E as <- <-|].
  destruct err as [| | |id| |]; try (by injection E as <- <-).
  destruct pts as [|p pts]; [by injection E as <- <-|].
  destruct (reload_region e1 _ id) as [e2 reloaded] eqn:E2. apply reload_grows in E2 as [Hg2 Hr].
  specialize (Hr (p :: pts) d r). destruct reloaded as [reg|err].
  2: { injection E as <- <-. split; [by etrans|]. destruct Hr as [Hr|]; [done|done]. }
  destruct (try_forward_shard_write_to_region cfg node_id e2 d r precision (p :: pts)) as [e3 again] eqn:E3.
  apply try_forward_fate in E3 as [Hg3 Hf3]. injection E as <- <-.
  split; [by etrans; [|etrans]|]. by destruct again as [[]|[]].
Qed.

Lemma forward_singles_fate e d r precision forward ids e' os :
  forward_singles cfg node_id e d r precision forward ids = (e', os) ->
  grows e.1 e'.1 /\
  (forall id, id ∈ ids -> is_Some (forward !! id) -> id ∈ os.*1) /\
  (forall id o, (id, o) ∈ os -> exists pts, forward !! id = Some pts /\ fate e'.1 d r o pts).
Proof using CL.
  revert e os. induction ids as [|id ids IH]; intros e os E; cbn in E.
  { injection E as <- <-. split_and!; [done|set_solver|set_solver]. }
  destruct (forward !! id) as [pts|] eqn:Ef.
  - destruct (forward_shard_write_to_region _ _ _ _ _ _ _) as [e1 o] eqn:E1. apply forward_to_region_fate in E1 as [Hg1 Hf1].
    destruct (forward_singles _ _ _ _ _ _ _ _) as [e2 os'] eqn:E2. injection E as <- <-.
    destruct (IH _ _ E2) as (Hg2 & Hc & Hf). split_and!; [by etrans| |].
    + intros i [-> |Hi]%elem_of_cons Hs; [by left|right; by apply Hc].
    + intros i o' [[= -> ->]|Hi]%elem_of_cons; [|by eapply Hf]. exists pts. split; [done|by eapply fate_grows].
  - destruct (IH _ _ E) as (Hg & Hc & Hf). split_and!; [done| |done].
    intros i [-> |Hi]%elem_of_cons Hs; [|by apply Hc]. rewrite Ef in Hs. by destruct Hs.
Qed.

(** ** One request per node *)

Lemma find_regions_cover m ids :
  let '(found, missing) := find_regions m ids in
  forall id, id ∈ ids -> id ∈ missing \/ id ∈ region_id <$> found.
Proof.
  induction ids as [|i ids IH]; [by intros ? ?%elem_of_nil|]. cbn. destruct (find_regions m ids) as [found missing].
  destruct (region_by_id m i) as [reg|] eqn:E; intros id [-> |Hi]%elem_of_cons.
  - right. apply find_some in E as [_ Heq%N.eqb_eq]. rewrite <-Heq. by left.
  - destruct (IH id Hi); [by left|right; by right].
  - left. by left.
  - destruct (IH id Hi); [left; by right|by right].
Qed.

(** A part carries the points of its bucket. *)
Definition part_ok (d r : string) (forward : buckets) (part : ShardWriteRequest) : Prop :=
  wr_db part = d /\ wr_rp part = r /\
  exists pts, forward !! wr_region_id part = Some pts /\
    encode_forward cfg (wr_precision part) pts = Ok (wr_body part).

(** A bucket that could not be encoded. *)
Definition other_error (forward : buckets) (o : outcome) : Prop :=
  is_Some (forward !! o.1) /\ exists m, o.2 = Err (OtherError m).

Lemma build_parts_spec d r precision forward epochs ids :
  let '(parts, errs) := build_parts cfg d r precision forward epochs ids in
  Forall (part_ok d r forward) parts /\ Forall (other_error forward) errs /\
  forall id, id ∈ ids -> is_Some (forward !! id) -> id ∈ wr_region_id <$> parts \/ id ∈ errs.*1.
Proof.
  clear CL. induction ids as [|i ids IH]; [by split_and!; [constructor..|intros ? ?%elem_of_nil]|]. cbn.
  destruct (build_parts _ _ _ _ _ _ _) as [parts errs]. destruct IH as (Hp & He & Hc).
  destruct (forward !! i) as [pts|] eqn:Ei.
  - destruct (encode_forward cfg precision pts) as [body|err] eqn:Eb.
    + split_and!; [|done|].
      * constructor; [|done]. split_and!; [done..|]. exists pts. by split.
      * intros id [-> |Hi]%elem_of_cons Hs; [left; by left|]. destruct (Hc id Hi Hs); [left; by right|by right].
    + split_and!; [done| |].
      * constructor; [|done]. unfold encode_forward, map_err in Eb. destruct (if ic_binary_points_wire cfg then _ else _);
          [done|]. injection Eb as <-. split; [by eexists|]. by eexists.
      * intros id [-> |Hi]%elem_of_cons Hs; [right; by left|]. destruct (Hc id Hi Hs); [by left|right; by right].
  - split_and!; [done..|]. intros id [-> |Hi]%elem_of_cons Hs; [rewrite Ei in Hs; by destruct Hs|by apply Hc].
Qed.

Definition covered (f : Forwarding) (id : N) : Prop := id ∈ (fw_results f).*1 \/ id ∈ fw_single f.

(** Every result is true of the points it is about. *)
Definition sound (w : World) (d r : string) (forward : buckets) (results : list outcome) : Prop :=
  forall id o, (id, o) ∈ results -> exists pts, forward !! id = Some pts /\ fate w d r o pts.

Lemma sound_grows w w' d r forward results :
  grows w w' -> sound w d r forward results -> sound w' d r forward results.
Proof.
  intros Hg H id o Hin. destruct (H id o Hin) as (pts & Hs & Hf). exists pts. split; [done|by eapply fate_grows].
Qed.

Lemma sound_app w d r forward rs rs' :
  sound w d r forward (rs ++ rs') <-> sound w d r forward rs /\ sound w d r forward rs'.
Proof.
  split.
  - intros H. split; intros id o Hin; apply H, elem_of_app; [by left|by right].
  - intros [H H'] id o [Hin|Hin]%elem_of_app; [by apply H|by apply H'].
Qed.

Lemma sound_errors w d r forward errs : Forall (other_error forward) errs -> sound w d r forward errs.
Proof.
  intros H id o Hin. rewrite Forall_forall in H. destruct (H _ Hin) as [[pts Hp] [m Hm]]. cbn in *. subst. by exists pts.
Qed.

Lemma plan_sends_spec mem w d r precision forward epochs by_node f :
  let '(sends, f') := plan_sends cfg mem d r precision forward epochs by_node f in
  (sound w d r forward (fw_results f) -> sound w d r forward (fw_results f')) /\
  (forall id, covered f id -> covered f' id) /\
  Forall (fun s => Forall (part_ok d r forward) (sd_parts s)) sends /\
  forall node ids id, (node, ids) ∈ by_node -> id ∈ ids -> is_Some (forward !! id) ->
    covered f' id \/ exists s, s ∈ sends /\ id ∈ wr_region_id <$> sd_parts s.
Proof.
  clear CL. revert f. induction by_node as [|[node ids] by_node IH]; intros f; cbn [plan_sends].
  { split_and!; [done|done|constructor|]. by intros ? ? ? ?%elem_of_nil. }
  destruct (peer_addr mem node) as [addr|].
  - pose proof (build_parts_spec d r precision forward epochs ids) as Hb.
    destruct (build_parts _ _ _ _ _ _ _) as [parts errs]. destruct Hb as (Hp & He & Hcov).
    specialize (IH (mkForwarding (fw_results f ++ errs) (fw_single f))). cbn [fw_results fw_single] in IH.
    destruct (plan_sends _ _ _ _ _ _ _ _ _) as [sends f']. destruct IH as (Hs & Hc & Hall & Hn). split_and!.
    + intros Hf. apply Hs, sound_app. split; [done|by apply sound_errors].
    + intros id [H|H]; apply Hc; [left|right; done]. cbn. rewrite fmap_app. set_solver.
    + by constructor.
    + intros n' ids' id [[= -> ->]|Hin]%elem_of_cons Hid Hsome.
      * destruct (Hcov id Hid Hsome) as [H|H]; [right; exists (mkSend node addr parts); split; [by left|done]|].
        left. apply Hc. left. cbn. rewrite fmap_app. set_solver.
      * destruct (Hn n' ids' id Hin Hid Hsome) as [H|(s & Hs' & H)]; [by left|right; exists s; split; [by right|done]].
  - specialize (IH (mkForwarding (fw_results f) (fw_single f ++ ids))). cbn [fw_results fw_single] in IH.
    destruct (plan_sends _ _ _ _ _ _ _ _ _) as [sends f']. destruct IH as (Hs & Hc & Hall & Hn). split_and!; try done.
    + intros id [H|H]; apply Hc; [by left|right]. cbn. set_solver.
    + intros n' ids' id [[= -> ->]|Hin]%elem_of_cons Hid Hsome; [|by eapply Hn].
      left. apply Hc. right. cbn. set_solver.
Qed.

(** A node's answer to a part. *)
Definition answers (w : World) (part : ShardWriteRequest) (res : ShardWritePartResult) : Prop :=
  part_region_id res = wr_region_id part /\
  forall pts, encode_forward cfg (wr_precision part) pts = Ok (wr_body part) ->
    honest_status w (wr_db part) (wr_rp part) (part_status res) pts.

Lemma answers_grows w w' parts rs : grows w w' -> Forall2 (answers w) parts rs -> Forall2 (answers w') parts rs.
Proof.
  clear CL. intros Hg Ha. eapply Forall2_impl; [exact Ha|]. intros part res [Hid H]. split; [done|]. intros pts Hp.
  destruct (H pts Hp) as [H1 H2]. split; intros Hs; [eapply landed_grows|eapply answered_grows]; eauto.
Qed.

Lemma post_sends_spec w sends w' outs :
  post_sends w sends = (w', outs) ->
  grows w w' /\ outs.*1 = sends /\
  Forall (fun so => match so.2 with SendResults rs => Forall2 (answers w') (sd_parts so.1) rs | _ => True end) outs.
Proof using CL.
  revert w outs. induction sends as [|s sends IH]; intros w outs E; cbn in E.
  { injection E as <- <-. split_and!; [done..|constructor]. }
  pose proof (send_grows w (sd_addr s) (sd_parts s)) as Hg.
  destruct (co_send w (sd_addr s) (sd_parts s)) as [w1 out] eqn:Es. cbn [fst] in Hg.
  destruct (post_sends w1 sends) as [w2 outs'] eqn:E2. injection E as <- <-.
  destruct (IH _ _ E2) as (Hg2 & Hfst & Hall). split_and!; [by etrans|by cbn; f_equal|].
  constructor; [|done]. cbn. destruct out; try done. apply send_honest in Es. by eapply answers_grows.
Qed.

Lemma part_outcome_fate w d r node part res pts o :
  answers w part res -> wr_db part = d -> wr_rp part = r ->
  encode_forward cfg (wr_precision part) pts = Ok (wr_body part) ->
  part_outcome node res = Done o -> fate w d r o pts.
Proof.
  clear CL. intros [_ Ha] <- <- Hb. destruct (Ha pts Hb) as [H1 H2]. unfold part_outcome.
  change ((200 <=? part_status res) && (part_status res <=? 299)) with (http_success (part_status res)).
  destruct (http_success (part_status res)); [intros [= <-]; by apply H1|].
  destruct (_ =? 409); [done|]. destruct (_ || _); [by intros [= <-]|].
  change ((part_status res =? 400) || (part_status res =? 422)) with (refusal (part_status res)).
  destruct (refusal (part_status res)); intros [= <-]; [by apply H2|done].
Qed.

Lemma read_part_spec w d r forward node part res c f :
  part_ok d r forward part -> answers w part res ->
  sound w d r forward (fw_results f) ->
  let '(c', f') := read_part d r forward node (c, f) res in
  sound w d r forward (fw_results f') /\ (forall id, covered f id -> covered f' id) /\
  covered f' (wr_region_id part).
Proof.
  clear CL. intros (Hd & Hr & pts & Hf & Hb) Ha Hs. pose proof (proj1 Ha) as Hid. unfold read_part. rewrite Hid.
  pose proof (part_outcome_fate w d r node part res pts) as Hfate.
  assert (forall o, fate w d r o pts ->
    let f' := mkForwarding (fw_results f ++ [(wr_region_id part, o)]) (fw_single f) in
    sound w d r forward (fw_results f') /\ (forall id, covered f id -> covered f' id) /\ covered f' (wr_region_id part)) as Hpush.
  { intros o Ho. cbn. split_and!.
    - apply sound_app. split; [done|]. intros i o' Hin%list_elem_of_singleton. injection Hin as -> ->. by exists pts.
    - unfold covered. cbn. rewrite fmap_app. set_solver.
    - left. cbn. rewrite fmap_app. set_solver. }
  destruct (part_outcome node res) as [o|].
  - specialize (Hfate o Ha Hd Hr Hb eq_refl). destruct o as [[]|err]; [by apply Hpush|].
    destruct err as [| | | |reason n|]; try (by apply Hpush). apply Hpush.
    destruct (refused_partial reason (N.of_nat (length (default [] (forward !! wr_region_id part))))) as (? & ? & ->). done.
  - split_and!; [done| |]; unfold covered; cbn; set_solver.
Qed.

Lemma read_parts_spec w d r forward node parts rs c f :
  Forall (part_ok d r forward) parts -> Forall2 (answers w) parts rs -> sound w d r forward (fw_results f) ->
  let '(c', f') := fold_left (read_part d r forward node) rs (c, f) in
  sound w d r forward (fw_results f') /\ (forall id, covered f id -> covered f' id) /\
  forall id, id ∈ wr_region_id <$> parts -> covered f' id.
Proof.
  clear CL. intros Hp Ha. revert c f Hp. induction Ha as [|part res parts rs Hpr Ha IH]; intros c f Hp Hs.
  { cbn. split_and!; [done|done|]. by intros ? ?%elem_of_nil. }
  inversion_clear Hp as [|? ? Hp1 Hp2]. cbn [fold_left].
  pose proof (read_part_spec w d r forward node part res c f Hp1 Hpr Hs) as H1.
  destruct (read_part d r forward node (c, f) res) as [c1 f1]. destruct H1 as (Hs1 & Hc1 & Hin).
  specialize (IH c1 f1 Hp2 Hs1). destruct (fold_left _ rs (c1, f1)) as [c2 f2]. destruct IH as (Hs2 & Hc2 & Hin2).
  split_and!; [done|by eauto|]. cbn. intros id [-> |H]%elem_of_cons; [by apply Hc2|by apply Hin2].
Qed.

Lemma read_outcome_spec w d r forward s out c f :
  Forall (part_ok d r forward) (sd_parts s) ->
  match out with SendResults rs => Forall2 (answers w) (sd_parts s) rs | _ => True end ->
  sound w d r forward (fw_results f) ->
  let '(c', f') := read_outcome d r forward (c, f) (s, out) in
  sound w d r forward (fw_results f') /\ (forall id, covered f id -> covered f' id) /\
  forall id, id ∈ wr_region_id <$> sd_parts s -> covered f' id.
Proof.
  clear CL. intros Hp Ha Hs. unfold read_outcome.
  assert (forall err, (forall pts, fate w d r (Err err) pts) ->
    let f' := mkForwarding (fw_results f ++ ((fun id => (id, Err err)) <$> (wr_region_id <$> sd_parts s))) (fw_single f) in
    sound w d r forward (fw_results f') /\ (forall id, covered f id -> covered f' id) /\
    forall id, id ∈ wr_region_id <$> sd_parts s -> covered f' id) as Hpush.
  { intros err He. cbn. split_and!.
    - apply sound_app. split; [done|]. intros i o (j & [= -> ->] & Hj)%list_elem_of_fmap.
      apply list_elem_of_fmap in Hj as (part & -> & Hpart). rewrite Forall_forall in Hp.
      destruct (Hp _ Hpart) as (_ & _ & pts & Hpts & _). exists pts. split; [done|apply He].
    - unfold covered. cbn. rewrite fmap_app. set_solver.
    - intros id Hid. left. cbn. rewrite fmap_app, <-(list_fmap_compose _ fst). apply elem_of_app. right.
      by rewrite (list_fmap_id (wr_region_id <$> sd_parts s)). }
  destruct out as [rs| | |msg].
  - by apply read_parts_spec.
  - split_and!; [done| |]; unfold covered; cbn; set_solver.
  - by apply Hpush.
  - by apply Hpush.
Qed.

Lemma read_outcomes_spec w d r forward outs c f :
  Forall (fun s => Forall (part_ok d r forward) (sd_parts s)) outs.*1 ->
  Forall (fun so => match so.2 with SendResults rs => Forall2 (answers w) (sd_parts so.1) rs | _ => True end) outs ->
  sound w d r forward (fw_results f) ->
  let '(c', f') := fold_left (read_outcome d r forward) outs (c, f) in
  sound w d r forward (fw_results f') /\ (forall id, covered f id -> covered f' id) /\
  forall s id, s ∈ outs.*1 -> id ∈ wr_region_id <$> sd_parts s -> covered f' id.
Proof.
  clear CL. revert c f. induction outs as [|[s out] outs IH]; intros c f Hp Ha Hs.
  { cbn. split_and!; [done|done|]. by intros ? ? ?%elem_of_nil. }
  apply Forall_cons in Hp as [Hp1 Hp2]. apply Forall_cons in Ha as [Ha1 Ha2]. cbn [fold_left fmap list_fmap fst] in *.
  pose proof (read_outcome_spec w d r forward s out c f Hp1 Ha1 Hs) as H1.
  destruct (read_outcome d r forward (c, f) (s, out)) as [c1 f1]. destruct H1 as (Hs1 & Hc1 & Hin).
  specialize (IH c1 f1 Hp2 Ha2 Hs1). destruct (fold_left _ outs (c1, f1)) as [c2 f2]. destruct IH as (Hs2 & Hc2 & Hin2).
  split_and!; [done|by eauto|]. intros s' id [-> |H]%elem_of_cons Hid; [by apply Hc2, Hin|by eapply Hin2].
Qed.

(** A region to forward is grouped under a node or left to the single path. *)
Lemma group_forwards_cover rs mem id :
  id ∈ region_id <$> rs ->
  let '(by_node, unrouted) := group_forwards_by_primary rs node_id mem in
  id ∈ unrouted \/ exists node ids, (node, ids) ∈ btree_iter N.leb by_node /\ id ∈ ids.
Proof.
  clear CL. intros (reg & -> & Hin)%list_elem_of_fmap. unfold group_forwards_by_primary.
  pose proof (group_forwards_fold node_id mem rs ∅ []) as [H1 H2].
  destruct (fold_left _ rs (∅, [])) as [by_node unrouted]. cbn [fst snd] in *.
  destruct (forward_target node_id mem reg) as [node|] eqn:E.
  - right. specialize (H1 node). rewrite lookup_empty in H1. cbn in H1.
    assert (region_id reg ∈ default [] (by_node !! node)) as Hid.
    { rewrite H1. apply list_elem_of_fmap. exists reg. split; [done|]. apply list_elem_of_In, filter_In.
      split; [by apply list_elem_of_In|by apply bool_decide_eq_true]. }
    destruct (by_node !! node) as [ids|] eqn:En; [|by apply elem_of_nil in Hid].
    exists node, ids. split; [by apply btree_iter_elem|done].
  - left. rewrite H2. cbn. apply list_elem_of_fmap. exists reg. split; [done|]. apply list_elem_of_In, filter_In.
    split; [by apply list_elem_of_In|by apply bool_decide_eq_true].
Qed.

(** The sends of a write: every region gets a result, and every result is
    true. *)
Lemma forward_by_node_spec e d r precision forward e' results :
  forward_shard_writes_by_node cfg node_id e d r precision forward = (e', results) ->
  grows e.1 e'.1 /\ sound e'.1 d r forward results /\
  forall id, is_Some (forward !! id) -> id ∈ results.*1.
Proof using CL.
  unfold forward_shard_writes_by_node. destruct e as [w c]. intros E.
  destruct (forward_regions w forward) as [w1 [regs missing]] eqn:Er.
  assert (grows w w1 /\ forall id, is_Some (forward !! id) -> id ∈ missing \/ id ∈ region_id <$> regs) as [Hg1 Hcov].
  { unfold forward_regions in Er. destruct (co_snapshot w) as [w' m] eqn:Es. apply snapshot_step in Es as [Hg _].
    injection Er as <- Er. split; [done|]. intros id [pts Hid].
    assert (id ∈ (map_to_list forward).*1) as Hin.
    { apply list_elem_of_fmap. exists (id, pts). split; [done|]. by apply elem_of_map_to_list. }
    destruct m as [m|err]; [|injection Er as <- <-; by left].
    pose proof (find_regions_cover m (map_to_list forward).*1) as H. rewrite Er in H. by apply H. }
  pose proof (fun id => group_forwards_cover regs (co_members w1) id) as Hgrp.
  destruct (group_forwards_by_primary regs node_id (co_members w1)) as [by_node unrouted].
  pose proof (plan_sends_spec (co_members w1) w1 d r precision forward (region_epochs regs)
                (btree_iter N.leb by_node) (mkForwarding [] (missing ++ unrouted))) as Hplan.
  destruct (plan_sends _ _ _ _ _ _ _ _ _) as [sends f]. destruct Hplan as (Hsf & Hcf & Hparts & Hnode).
  specialize (Hsf ltac:(by intros ? ? ?%elem_of_nil)).
  destruct (post_sends w1 sends) as [w2 outs] eqn:Eo. apply post_sends_spec in Eo as (Hg2 & Hfst & Hans).
  pose proof (read_outcomes_spec w2 d r forward outs c f) as Hread. rewrite Hfst in Hread.
  specialize (Hread Hparts Hans ltac:(by eapply sound_grows)).
  destruct (fold_left _ outs (c, f)) as [c' f']. destruct Hread as (Hsf' & Hcf' & Hin).
  destruct (forward_singles _ _ _ _ _ _ _ _) as [e2 rest] eqn:Es. apply forward_singles_fate in Es as (Hg3 & Hcr & Hfr).
  injection E as <- <-. cbn [fst] in *. split_and!.
  - etrans; [done|]. by etrans.
  - apply sound_app. split; [by eapply sound_grows|done].
  - intros id Hid. rewrite fmap_app, elem_of_app.
    assert (covered f' id) as [H|H]; [|by left|right; by apply Hcr].
    assert (covered f id \/ exists s, s ∈ sends /\ id ∈ wr_region_id <$> sd_parts s) as [H|(s & Hs & H)];
      [|by apply Hcf'|by eapply Hin].
    destruct (Hcov id Hid) as [H|H]; [left; apply Hcf; right; set_solver|].
    destruct (Hgrp id H) as [Hu|(node & ids & Hn & Hi)]; [left; apply Hcf; right; set_solver|by eapply Hnode].
Qed.

(** ** This node's own share *)

Lemma dispatch_replicas_grows w d r precision seq replicas w' o :
  dispatch_replicas w d r precision seq replicas = (w', o) -> grows w w'.
Proof using CL.
  revert w. induction replicas as [|[[id body] targets] replicas IH]; intros w E; cbn in E; [by injection E as <- _|].
  pose proof (dispatch_grows w (mkOutbound d r precision body seq (Some targets) (Some id))) as Hg.
  destruct (co_dispatch w _) as [w1 [[]|err]]; cbn [fst] in Hg; [|by injection E as <- _].
  etrans; [done|by apply IH].
Qed.

Lemma append_local_spec w d r precision local w' o :
  append_local_buckets cfg node_id w d r precision local = (w', o) ->
  grows w w' /\ (is_ok o = true -> Forall (landed w' d r) (bucket_points local)).
Proof using CL.
  unfold append_local_buckets. intros E. case_bool_decide as Hl.
  { injection E as <- <-. split; [done|]. intros _. subst local. unfold bucket_points. rewrite map_to_list_empty. constructor. }
  destruct (co_snapshot w) as [w1 m] eqn:E1. apply snapshot_step in E1 as [Hg1 _].
  destruct (m ≫= _) as [replicas|err]; [|by injection E as <- <-].
  pose proof (co_prepare_grows w1 d r (concat (map_to_list local).*2)) as Hg2.
  destruct (co_prepare w1 d r _) as [w2 [[]|err]]; cbn [fst] in Hg2; [|injection E as <- <-; split; [by etrans|done]].
  pose proof (co_append_grows w2 d r (concat (map_to_list local).*2)) as Hg3.
  destruct (co_append w2 d r _) as [w3 [seq|err]] eqn:Ea; cbn [fst] in Hg3;
    [|injection E as <- <-; split; [by do 2 (etrans; [done|])|done]].
  apply append_lands in Ea. apply dispatch_replicas_grows in E.
  split; [by do 3 (etrans; [done|])|]. intros _. by eapply landed_grows.
Qed.

(** ** Retries *)

Definition complete (forward : buckets) (results : list outcome) : Prop :=
  forall id, is_Some (forward !! id) -> id ∈ results.*1.

Lemma subset_lookup forward ids id pts :
  subset_of forward ids !! id = Some pts <-> forward !! id = Some pts /\ id ∈ ids.
Proof. unfold subset_of. by rewrite map_lookup_filter_Some. Qed.

Lemma sound_subset w d r forward ids results :
  sound w d r (subset_of forward ids) results -> sound w d r forward results.
Proof. intros H id o Hin. destruct (H id o Hin) as (pts & [Hp _]%subset_lookup & Hf). eauto. Qed.

Lemma retry_spec n e d r precision forward results e' results' :
  retry_refused_regions cfg node_id n e d r precision forward results = (e', results') ->
  sound e.1 d r forward results -> complete forward results ->
  grows e.1 e'.1 /\ sound e'.1 d r forward results' /\ complete forward results'.
Proof using CL.
  revert e results. induction n as [|n IH]; intros e results E Hs Hc; cbn [retry_refused_regions] in E; [by injection E as <- <-|].
  case_bool_decide; [by injection E as <- <-|]. set (ids := (List.filter _ results).*1) in *.
  destruct (forward_shard_writes_by_node _ _ _ _ _ _ _) as [e1 retried] eqn:E1.
  apply forward_by_node_spec in E1 as (Hg1 & Hs1 & Hc1). cbn [fst] in Hg1.
  assert (grows e.1 e1.1) as Hg by (etrans; [apply sleep_grows|done]).
  apply IH in E as (Hg2 & Hs2 & Hc2); [split_and!; [by etrans|done|done]| |].
  - apply sound_app. split; [|by apply sound_subset in Hs1].
    eapply sound_grows; [done|]. intros id o [Hin _]%filterb_elem_of. by apply Hs.
  - intros id [pts Hid]. rewrite fmap_app, elem_of_app. destruct (decide (id ∈ ids)) as [Hin|Hin].
    + right. apply Hc1. exists pts. by apply subset_lookup.
    + left. pose proof (Hc id ltac:(by eexists)) as ([i o] & -> & Hio)%list_elem_of_fmap.
      apply list_elem_of_fmap. exists (i, o). split; [done|]. apply filterb_elem_of. split; [done|].
      by rewrite bool_decide_false.
Qed.

(** ** The queue *)

Section Queue.
Context {BL : PointsBincodeLaws PB} {Q : Type} `{FQP : !ForwardQueuePort Q} {FQL : ForwardQueuePortLaws Q}.

(** The point is in the frames of an entry, whatever limit of points the
    reader has that lets the entry through. *)
Definition entry_keeps (e : ForwardEntry) (d r : string) (p : Point) : Prop :=
  fe_db e = d /\ fe_rp e = r /\ exists pts, p ∈ pts /\
    forall limit, (length pts <= limit)%nat -> decode_points_frames (fe_body e) limit = Some (Ok pts).

Definition queued_for (q : Q) (d r : string) (p : Point) : Prop :=
  exists e, port_holds q e /\ entry_keeps e d r p.

(** Rust strings and options of strings. *)
Definition target_ok (d r : string) (precision : option string) : Prop :=
  forward_ok (mkForward d r precision 0 0 0 []).

Lemma encode_points_size pts b :
  encode_points_binary pts = Ok b -> Forall byte_ok b /\ N.of_nat (length b) <= u32_max + 8.
Proof using BL.
  unfold encode_points_binary. destruct (points_serialize pts) as [payload|] eqn:E; [|done].
  destruct (N.leb_spec (N.of_nat (length payload)) u32_max) as [Hl|]; [|done]. intros <-%Ok_inj. split.
  - apply Forall_app. split; [by repeat constructor|]. apply Forall_app. split; [apply le_bytes_ok|by eapply points_byte_ok].
  - rewrite !length_app, le_bytes_length. cbn [length POINTS_FRAME_MAGIC]. lia.
Qed.

Lemma encode_frames_spec bs body :
  encode_frames bs = Ok body ->
  Forall byte_ok body /\ N.of_nat (length body) <= N.of_nat (length bs) * (u32_max + 8) /\
  forall limit, (length (concat bs) <= limit)%nat -> decode_points_frames body limit = Some (Ok (concat bs)).
Proof using BL.
  intros E. assert (exists frames, body = frames_body frames [] /\
    Forall2 (fun f pts => whitespace f.1 /\ encode_points_binary pts = Ok f.2) frames bs /\
    Forall byte_ok body /\ N.of_nat (length body) <= N.of_nat (length bs) * (u32_max + 8)) as (frames & Hb & Hf & Hok & Hl).
  { revert body E. induction bs as [|pts bs IH]; intros body E; cbn in E.
    { apply Ok_inj in E as <-. exists []. split_and!; [done|constructor|constructor|done]. }
    destruct (encode_points_binary pts) as [b|] eqn:Eb; [|done]. cbn in E. destruct (encode_frames bs) as [rest|]; [|done].
    cbn in E. apply Ok_inj in E as <-. destruct (IH rest eq_refl) as (frames & -> & Hf & Hok & Hl).
    destruct (encode_points_size _ _ Eb) as [Hbok Hbl]. exists (([], b) :: frames). split_and!; [done| | |].
    - constructor; [split; [constructor|done]|done].
    - by apply Forall_app.
    - rewrite length_app. cbn [length]. lia. }
  split_and!; [done|done|]. intros limit Hlim. unfold decode_points_frames. subst body.
  pose proof (frames_body_length frames bs [] Hf) as Hfl.
  rewrite (decode_frames_all frames bs [] limit _ [] Hf (Forall_nil_2 _)) by lia. cbn [length Nat.add app].
  by rewrite decide_True by (by left).
Qed.

Lemma enqueue_forwards_spec n q d r precision forward now nb q' b :
  port_room (S n) q -> target_ok d r precision -> N.of_nat (size forward) < 2 ^ 31 ->
  now <= u64_max -> nb <= u64_max ->
  enqueue_forwards q d r precision forward now nb = (q', b) ->
  port_room n q' /\ (forall e, port_holds q e -> port_holds q' e) /\
  (b = true -> forall id pts, forward !! id = Some pts -> Forall (queued_for q' d r) pts).
Proof using BL FQL.
  intros Hq Ht Hsize Hnow Hnb E. unfold enqueue_forwards in E.
  destruct (encode_frames (map_to_list forward).*2) as [body|] eqn:Eb.
  2: { injection E as <- <-. split_and!; [by apply port_room_le|done|done]. }
  destruct (encode_frames_spec _ _ Eb) as (Hok & Hl & Hdec).
  assert (forward_ok (mkForward d r precision now nb 0 body)) as Hfe.
  { destruct Ht as (_ & (H1 & H2 & H3 & _) & Hlen). split; [done|]. split; [done|].
    rewrite !Forall_cons in Hlen |- *. destruct Hlen as (L1 & L2 & L3 & _). split_and!; try done.
    rewrite length_fmap, <-(length_map_to_list forward) in *. unfold two64, u32_max in *. cbn [fe_body]. lia. }
  destruct (port_enqueue q _) as [q1 o] eqn:Eq. injection E as <- <-.
  destruct (enqueue_spec _ _ _ _ _ Hq Hfe Eq) as (Hr & Hk & Hh). split_and!; [done|done|].
  intros Ho id pts Hid. apply Forall_forall. intros p Hp. exists (mkForward d r precision now nb 0 body).
  split; [by apply Hh|]. split; [done|]. split; [done|]. exists (concat (map_to_list forward).*2). split; [|done].
  apply list_elem_of_In, in_concat. exists pts. split; [|by apply list_elem_of_In].
  apply list_elem_of_In, list_elem_of_fmap. exists (id, pts). split; [done|]. by apply elem_of_map_to_list.
Qed.

Lemma subset_size forward ids : (size (subset_of forward ids) <= size forward)%nat.
Proof. apply map_size_filter. Qed.

Definition opt_room (n : nat) (q : option Q) : Prop :=
  match q with Some q => port_room n q | None => True end.

(** Whatever was held still is. *)
Definition opt_keeps (q q' : option Q) : Prop :=
  match q, q' with
  | Some q, Some q' => forall e, port_holds q e -> port_holds q' e
  | None, None => True
  | _, _ => False
  end.

Definition kept_point (w : World) (q : option Q) (d r : string) (p : Point) : Prop :=
  landed w d r p \/ exists q0, q = Some q0 /\ queued_for q0 d r p.

Lemma opt_keeps_refl q : opt_keeps q q.
Proof. destruct q; cbn; auto. Qed.

Lemma opt_keeps_trans q1 q2 q3 : opt_keeps q1 q2 -> opt_keeps q2 q3 -> opt_keeps q1 q3.
Proof. destruct q1, q2, q3; cbn; naive_solver. Qed.

Lemma kept_grows w w' q q' d r p :
  grows w w' -> opt_keeps q q' -> kept_point w q d r p -> kept_point w' q' d r p.
Proof.
  clear CL. intros Hg Hk [H|(q0 & -> & e & He & Hp)]; [left; by apply Hg|].
  destruct q' as [q1|]; [|done]. right. exists q1. split; [done|]. exists e. split; [by apply Hk|done].
Qed.

Lemma backoff_in_range now : wrapping_add now (forward_backoff_ms 0) <= u64_max.
Proof.
  unfold wrapping_add. pose proof (N.mod_lt (now + forward_backoff_ms 0) two64 ltac:(done)). unfold u64_max, two64 in *. lia.
Qed.

Lemma queue_forwards_spec w q d r precision forward q' b n :
  opt_room (S n) q -> target_ok d r precision -> N.of_nat (size forward) < 2 ^ 31 ->
  queue_forwards cfg w q d r precision forward = (q', b) ->
  opt_room n q' /\ opt_keeps q q' /\
  (b = true -> forall id pts, forward !! id = Some pts -> Forall (kept_point w q' d r) pts).
Proof using CL BL FQL.
  intros Hq Ht Hs E. unfold queue_forwards in E. destruct q as [q|]; [|by injection E as <- <-]. cbn in Hq.
  assert (forall q2 b2, (Some q, false) = (q2, b2) -> opt_room n q2 /\ opt_keeps (Some q) q2 /\
    (b2 = true -> forall id pts, forward !! id = Some pts -> Forall (kept_point w q2 d r) pts)) as Hno.
  { intros q2 b2 [= <- <-]. split; [by apply port_room_le|]. split; [apply opt_keeps_refl|done]. }
  destruct (_ || negb _); [by apply Hno|]. destruct (_ || _); [by apply Hno|].
  destruct (enqueue_forwards q _ _ _ _ _ _) as [q1 b1] eqn:Eq. injection E as <- <-.
  destruct (enqueue_forwards_spec n q d r precision forward _ 0 q1 b1 Hq Ht Hs (clock_in_range w) ltac:(done) Eq)
    as (Hr & Hk & Hh). split_and!; [done|done|]. intros Hb id pts Hid.
  eapply Forall_impl; [by eapply Hh|]. intros p Hp. right. by exists q1.
Qed.

Lemma hold_spec w q d r precision forward results q' results' n :
  opt_room (S n) q -> target_ok d r precision -> N.of_nat (size forward) < 2 ^ 31 -> sound w d r forward results ->
  hold_failed_forwards cfg w q d r precision forward results = (q', results') ->
  opt_room n q' /\ opt_keeps q q' /\ results'.*1 = results.*1 /\
  forall id, (id, Ok tt) ∈ results' -> exists pts, forward !! id = Some pts /\ Forall (kept_point w q' d r) pts.
Proof using CL BL FQL.
  intros Hq Ht Hs Hsound E.
  assert (forall q0 id, (id, Ok tt) ∈ results -> exists pts, forward !! id = Some pts /\ Forall (kept_point w q0 d r) pts) as Hok.
  { intros q0 id Hin. destruct (Hsound _ _ Hin) as (pts & Hp & Hf). exists pts. split; [done|].
    eapply Forall_impl; [exact Hf|]. by left. }
  unfold hold_failed_forwards in E. destruct q as [q|]; [|injection E as <- <-; split_and!; eauto]. cbn in Hq.
  set (held := subset_of forward _) in E.
  assert (forall q2 rs2, (Some q, results) = (q2, rs2) -> opt_room n q2 /\ opt_keeps (Some q) q2 /\ rs2.*1 = results.*1 /\
    forall id, (id, Ok tt) ∈ rs2 -> exists pts, forward !! id = Some pts /\ Forall (kept_point w q2 d r) pts) as Hno.
  { intros q2 rs2 [= <- <-]. split; [by apply port_room_le|]. split; [apply opt_keeps_refl|]. split; [done|apply Hok]. }
  case_bool_decide; [by apply Hno|]. destruct (_ <? _); [by apply Hno|].
  destruct (enqueue_forwards q _ _ _ _ _ _) as [q1 b] eqn:Eq. injection E as <- <-.
  assert (N.of_nat (size held) < 2 ^ 31) as Hsize by (pose proof (subset_size forward ((List.filter (fun o => is_passing o.2) results).*1)); fold held in H0; lia).
  destruct (enqueue_forwards_spec n q d r precision held _ _ q1 b Hq Ht Hsize (clock_in_range w) (backoff_in_range _) Eq)
    as (Hr & Hk & Hh). split_and!; [done|done| |].
  - destruct b; [|done]. rewrite <-list_fmap_compose. apply list_fmap_ext. intros i [id o] _. cbn. by case_bool_decide.
  - destruct b; [|by apply Hok]. intros id ([i o] & Ho & Hin)%list_elem_of_fmap. cbn in Ho.
    case_bool_decide as Hheld; [|injection Ho as -> <-; by eapply Hok]. injection Ho as ->.
    destruct Hheld as [pts Hpts]. specialize (Hh eq_refl i pts Hpts). apply subset_lookup in Hpts as [Hpts _].
    exists pts. split; [done|]. eapply Forall_impl; [exact Hh|]. intros p Hp. right. by exists q1.
Qed.

Lemma forward_answer_ok results n :
  forward_answer results n = Ok tt -> forall id o, (id, o) ∈ results -> o = Ok tt.
Proof.
  clear CL. unfold forward_answer. intros E id o Hin. destruct o as [[]|err]; [done|exfalso].
  assert (err ∈ errors_of results) as He.
  { unfold errors_of. apply list_elem_of_omap. by exists (id, Err err). }
  destruct (errors_of results) as [|first errs]; [by apply elem_of_nil in He|].
  destruct first; try done. by destruct (forallb _ _).
Qed.

Lemma bucket_points_elem (b : buckets) p : p ∈ bucket_points b <-> exists id pts, b !! id = Some pts /\ p ∈ pts.
Proof.
  unfold bucket_points. rewrite list_elem_of_In, in_concat. split.
  - intros (pts & Hin%list_elem_of_In & Hp%list_elem_of_In). apply list_elem_of_fmap in Hin as ([id pts'] & -> & Hin).
    apply elem_of_map_to_list in Hin. eauto.
  - intros (id & pts & Hid & Hp). exists pts. split; [|by apply list_elem_of_In].
    apply list_elem_of_In, list_elem_of_fmap. exists (id, pts). split; [done|by apply elem_of_map_to_list].
Qed.

Lemma write_buckets_spec e q d r precision b e' q' o :
  opt_room 1 q -> target_ok d r precision -> N.of_nat (size (pb_forward b)) < 2 ^ 31 ->
  write_buckets cfg node_id e q d r precision b = (e', q', o) ->
  grows e.1 e'.1 /\ opt_keeps q q' /\
  (o = Ok tt -> forall p, p ∈ bucket_points (pb_local b) \/ p ∈ bucket_points (pb_forward b) ->
     kept_point e'.1 q' d r p).
Proof using CL BL FQL.
  intros Hq Ht Hs E. unfold write_buckets in E.
  destruct (forward_shard_writes_by_node _ _ _ _ _ _ _) as [e1 results] eqn:E1.
  apply forward_by_node_spec in E1 as (Hg1 & Hs1 & Hc1).
  destruct (append_local_buckets _ _ _ _ _ _ _) as [w2 local] eqn:E2. apply append_local_spec in E2 as [Hg2 Hl2].
  destruct (retry_refused_regions _ _ _ _ _ _ _ _ _) as [e3 results3] eqn:E3.
  apply retry_spec in E3 as (Hg3 & Hs3 & Hc3); [|by eapply sound_grows|done]. cbn [fst] in Hg3.
  destruct (hold_failed_forwards _ _ _ _ _ _ _ _) as [q4 results4] eqn:E4.
  destruct (hold_spec _ _ _ _ _ _ _ _ _ 0 Hq Ht Hs Hs3 E4) as (_ & Hk & Hids & Hok). injection E as <- <- <-.
  split_and!; [by do 2 (etrans; [done|])|done|]. intros Ho p Hp.
  destruct local as [[]|err]; [|done]. destruct Hp as [Hp|Hp].
  - left. eapply Forall_forall; [|exact Hp]. eapply landed_grows; [done|]. by apply Hl2.
  - apply bucket_points_elem in Hp as (id & pts & Hid & Hp). specialize (Hc3 id ltac:(by eexists)).
    rewrite <-Hids in Hc3. apply list_elem_of_fmap in Hc3 as ([i o] & -> & Hin). cbn in Hid.
    rewrite (forward_answer_ok _ _ Ho _ _ Hin) in Hin. destruct (Hok _ Hin) as (pts' & Hid' & Hall).
    rewrite Hid in Hid'. injection Hid' as <-. by eapply Forall_forall.
Qed.

Lemma check_destinations_grows w d r meas w' o : check_destinations w d r meas = (w', o) -> grows w w'.
Proof using CL.
  revert w. induction meas as [|ms meas IH]; intros w E; cbn in E; [by injection E as <- _|].
  pose proof (measurement_grows w (mkKey d r ms)) as Hg. destruct (co_measurement w _) as [w1 o1]. cbn [fst] in Hg.
  assert (forall w2 o2, (w1, o2) = (w2, o) -> grows w w2) as Hret by (by intros w2 o2 [= <- _]).
  destruct o1 as [[[[] [mr|]]|]|err]; try (by eapply Hret); try (etrans; [done|by apply IH]).
  destruct (bool_decide _); [by eapply Hret|etrans; [done|by apply IH]].
Qed.

Lemma wait_grows polls e k e' o :
  wait_for_measurement_bootstrapped polls e k = (e', o) -> grows e.1 e'.1.
Proof using CL.
  revert e. induction polls as [|polls IH]; intros [w c] E; cbn in E;
    (destruct (co_snapshot w) as [w1 m] eqn:E1; apply snapshot_step in E1 as [Hg _];
     destruct m as [m|err]; [|by injection E as <- _]; case_bool_decide; [by injection E as <- _|]).
  - by injection E as <- _.
  - apply IH in E. cbn in *. etrans; [done|]. etrans; [apply sleep_grows|done].
Qed.

Lemma bootstrapped_grows w k w' o : measurement_bootstrapped w k = (w', o) -> grows w w'.
Proof using CL.
  unfold measurement_bootstrapped. destruct (co_snapshot w) as [w1 m] eqn:E1. apply snapshot_step in E1 as [Hg _].
  by intros [= <- _].
Qed.

Lemma bootstrap_op_grows w k w' o : bootstrap_op cfg node_id w k = (w', o) -> grows w w'.
Proof using CL.
  unfold bootstrap_op. destruct (co_snapshot w) as [w1 m] eqn:E1. apply snapshot_step in E1 as [Hg _].
  by intros [= <- _].
Qed.

Lemma bootstrap_local_grows w k w' o : bootstrap_measurement_local cfg node_id w k = (w', o) -> grows w w'.
Proof using CL.
  unfold bootstrap_measurement_local. intros E. destruct (measurement_bootstrapped w k) as [w1 there] eqn:E1.
  apply bootstrapped_grows in E1. destruct there as [[]|err]; try (by injection E as <- _).
  destruct (bootstrap_op cfg node_id w1 k) as [w2 op] eqn:E2. apply bootstrap_op_grows in E2.
  destruct op as [op|err]; [|injection E as <- _; by etrans].
  pose proof (apply_op_grows w2 op) as Hg. rewrite E in Hg. cbn in Hg. by do 2 (etrans; [done|]).
Qed.

Lemma ensure_grows e k leader addr e' o :
  ensure_measurement_bootstrapped cfg node_id e k leader addr = (e', o) -> grows e.1 e'.1.
Proof using CL.
  destruct e as [w c]. unfold ensure_measurement_bootstrapped. intros E.
  destruct (measurement_bootstrapped w k) as [w1 there] eqn:E1. apply bootstrapped_grows in E1.
  destruct there as [[]|err]; [by injection E as <- _| |by injection E as <- _].
  match type of E with (let '(w2, started) := ?t in _) = _ => destruct t as [w2 started] eqn:E2 end.
  assert (grows w1 w2) as Hg.
  { clear E. destruct leader.
    - destruct (bootstrap_op cfg node_id w1 k) as [w3 op] eqn:E3. apply bootstrap_op_grows in E3.
      destruct op as [op|err]; [|by injection E2 as <- _]. destruct addr as [addr|].
      + unfold propose_shard_map_op_via_raft in E2. pose proof (propose_grows w3 addr op) as Hp.
        destruct (co_propose w3 addr op) as [w4 resp]. injection E2 as <- _. by etrans.
      + apply bootstrap_local_grows in E2. by etrans.
    - destruct addr as [addr|]; [|by injection E2 as <- _]. pose proof (ask_grows w1 addr k) as Hp.
      destruct (co_ask_leader w1 addr k) as [w4 resp]. by injection E2 as <- _. }
  destruct started as [[]|err]; [|injection E as <- _; by etrans].
  apply wait_grows in E. cbn in *. by do 2 (etrans; [done|]).
Qed.

Lemma ensure_all_grows e d r addr meas e' o :
  ensure_bootstrapped cfg node_id e d r addr meas = (e', o) -> grows e.1 e'.1.
Proof using CL.
  revert e. induction meas as [|ms meas IH]; intros e E; cbn [ensure_bootstrapped] in E; [by injection E as <- _|].
  destruct (ensure_measurement_bootstrapped _ _ _ _ _ _) as [e1 o1] eqn:E1. apply ensure_grows in E1.
  destruct o1 as [[]|err]; [|by injection E as <- _]. etrans; [done|by apply IH].
Qed.

(** ** Partition *)

Definition filled (b : buckets) : Prop := forall id, b !! id <> Some [].

Lemma push_bucket_filled id p b : filled b -> filled (push_bucket id p b).
Proof.
  clear CL. intros H i. unfold push_bucket. destruct (decide (i = id)) as [->|Hne].
  - rewrite lookup_insert_eq. by destruct (default [] (b !! id)).
  - by rewrite lookup_insert_ne.
Qed.

Lemma route_points_filled m d r points c b c' b' :
  route_points m d r node_id points c b = (c', Ok b') ->
  filled (pb_local b) /\ filled (pb_forward b) -> filled (pb_local b') /\ filled (pb_forward b').
Proof.
  clear CL. revert c b. induction points as [|p points IH]; intros c b; cbn [route_points]; [by intros [= <- <-]|].
  destruct (locate_route c m _ _ _) as [c1 [rt|]]; [|done]. intros H [Hl Hf]. apply IH in H; [done|].
  destruct (_ && _); cbn; split; try done; by apply push_bucket_filled.
Qed.

Lemma filled_size (b : buckets) : filled b -> (size b <= length (bucket_points b))%nat.
Proof.
  clear CL. intros H. unfold bucket_points. rewrite <-length_map_to_list, <-(length_fmap snd (map_to_list b)).
  assert (Forall (fun pts => pts <> []) (map_to_list b).*2) as Hall.
  { apply Forall_forall. intros pts ([id pts'] & -> & Hin)%list_elem_of_fmap. cbn. intros ->. apply elem_of_map_to_list in Hin.
    by apply (H id). }
  induction Hall as [|pts l Hp _ IH]; [done|]. cbn. rewrite length_app. destruct pts; [done|]. cbn. lia.
Qed.

Lemma partition_batch_spec e d r points e' o :
  partition_batch node_id e d r points = (e', o) ->
  grows e.1 e'.1 /\
  match o with
  | Ok b => (forall p, p ∈ points -> p ∈ bucket_points (pb_local b) \/ p ∈ bucket_points (pb_forward b)) /\
            (size (pb_forward b) <= length points)%nat
  | Err _ => True
  end.
Proof using CL.
  unfold partition_batch. intros E. destruct (co_snapshot e.1) as [w m] eqn:E1. apply snapshot_step in E1 as [Hg _].
  destruct m as [m|err]; [|by injection E as <- <-].
  destruct (partition_points e.2 m d r node_id points) as [c b] eqn:Ep. injection E as <- <-. split; [done|].
  destruct b as [b|err]; [|done]. pose proof (partition_points_perm _ _ _ _ _ _ _ _ Ep) as Hperm. split.
  - intros p. by rewrite <-Hperm, elem_of_app.
  - unfold partition_points in Ep. destruct (check_bootstrapped m d r ∅ points); [|done].
    apply route_points_filled in Ep as [_ Hf]; [|by split; intros id; cbn; rewrite lookup_empty].
    pose proof (filled_size _ Hf). apply Permutation_length in Hperm. rewrite length_app in Hperm. lia.
Qed.

(** ** The batch *)

Lemma ingest_keeps e q d r precision points e' q' o :
  opt_room 2 q -> target_ok d r precision -> N.of_nat (length points) < 2 ^ 31 ->
  ingest_sharded_points cfg node_id e q d r precision points = (e', q', o) ->
  grows e.1 e'.1 /\ opt_keeps q q' /\ (o = Ok tt -> forall p, p ∈ points -> kept_point e'.1 q' d r p).
Proof using CL BL FQL.
  intros Hq Ht Hn E. unfold ingest_sharded_points in E.
  destruct (check_destinations _ _ _ _) as [w1 checked] eqn:E1. apply check_destinations_grows in E1.
  destruct checked as [[]|err]; [|injection E as <- <- <-; split_and!; [done|apply opt_keeps_refl|done]].
  destruct (ensure_bootstrapped _ _ _ _ _ _ _) as [e2 ready] eqn:E2. apply ensure_all_grows in E2. cbn [fst] in E2.
  assert (grows e.1 e2.1) as Hg2 by (by etrans).
  destruct ready as [[]|err]; [|injection E as <- <- <-; split_and!; [done|apply opt_keeps_refl|done]].
  destruct (partition_batch _ _ _ _ _) as [e3 b] eqn:E3. apply partition_batch_spec in E3 as [Hg3 Hb].
  assert (grows e.1 e3.1) as Hg by (by etrans).
  destruct b as [b|err]; [|injection E as <- <- <-; split_and!; [done|apply opt_keeps_refl|done]].
  destruct Hb as [Hpts Hsize]. assert (N.of_nat (size (pb_forward b)) < 2 ^ 31) as Hs by lia.
  destruct (queue_forwards _ _ _ _ _ _ _) as [q1 queued] eqn:E4.
  destruct (queue_forwards_spec _ _ _ _ _ _ _ _ 1 Hq Ht Hs E4) as (Hroom & Hk & Hqueued). destruct queued.
  - destruct (append_local_buckets _ _ _ _ _ _ _) as [w4 local] eqn:E5. injection E as <- <- <-.
    apply append_local_spec in E5 as [Hg5 Hl]. cbn. split_and!; [by etrans|done|]. intros -> p Hp.
    destruct (Hpts p Hp) as [H|H].
    + left. eapply Forall_forall; [by apply Hl|done].
    + apply bucket_points_elem in H as (id & pts & Hid & Hin). specialize (Hqueued eq_refl id pts Hid).
      eapply kept_grows; [exact Hg5|apply opt_keeps_refl|]. by eapply Forall_forall.
  - destruct (write_buckets_spec _ _ _ _ _ _ _ _ _ Hroom Ht Hs E) as (Hg5 & Hk5 & Hok).
    split_and!; [by etrans|by eapply opt_keeps_trans|]. intros Ho p Hp. apply Hok; [done|by apply Hpts].
Qed.
End Queue.

(** ** Delivery *)

Lemma deliver_points_spec e d r precision points e' o :
  deliver_points cfg node_id e d r precision points = (e', o) ->
  grows e.1 e'.1 /\
  forall failed, o = Ok failed -> forall p, p ∈ points -> p ∈ failed \/ answered e'.1 d r p.
Proof using CL.
  unfold deliver_points. intros E. destruct points as [|p0 points].
  { injection E as <- <-. split; [done|]. by intros ? _ ? ?%elem_of_nil. }
  destruct (partition_batch _ _ _ _ _) as [e1 b] eqn:E1. apply partition_batch_spec in E1 as [Hg1 Hb].
  destruct b as [b|err]; [|by injection E as <- <-]. destruct Hb as [Hpts _].
  destruct (forward_shard_writes_by_node _ _ _ _ _ _ _) as [e2 results] eqn:E2.
  apply forward_by_node_spec in E2 as (Hg2 & Hs2 & Hc2).
  destruct (append_local_buckets _ _ _ _ _ _ _) as [w3 local] eqn:E3. apply append_local_spec in E3 as [Hg3 Hl3].
  injection E as <- <-. cbn [fst]. split; [by do 2 (etrans; [done|])|]. intros failed [= <-] p Hp.
  rewrite elem_of_app. destruct (Hpts p Hp) as [H|H].
  - destruct local as [[]|err]; [|left; by left]. right. left. eapply Forall_forall; [by apply Hl3|done].
  - apply bucket_points_elem in H as (id & pts & Hid & Hin).
    pose proof (Hc2 id ltac:(by eexists)) as ([i o] & -> & Hio)%list_elem_of_fmap. cbn in Hid.
    destruct (Hs2 _ _ Hio) as (pts' & Hid' & Hf). rewrite Hid in Hid'. injection Hid' as <-.
    apply (fate_grows _ _ _ _ _ _ Hg3) in Hf.
    assert (p ∈ undelivered (pb_forward b) results \/ answered w3 d r p) as [?|?]; [|by left; right|by right].
    destruct o as [[]|err]; [right; left; by eapply Forall_forall|].
    assert ((forall reason n, err <> PartialWrite reason n) -> p ∈ undelivered (pb_forward b) results) as Hun.
    { intros Hne. unfold undelivered. apply list_elem_of_bind. exists (i, Err err). split; [|done]. cbn.
      rewrite Hid. destruct err; try done. by destruct (Hne reason dropped). }
    destruct err as [| | | |reason n|]; try (left; by apply Hun). right. by eapply Forall_forall.
Qed.
End Sends.

(** ** The queue of [adapters/cluster/forward_queue.rs] keeps the promise *)

#[export] Instance rocks_queue {DB} `{CDB : !CfDb ReplCf DB} `{FC : !ForwardCodec} : ForwardQueuePort (ForwardQueue DB) := {
  port_enqueue := fq_enqueue;
  port_oldest_age_ms := oldest_age_ms;
  port_bytes := fq_bytes
}.

Section RocksQueue.
Context {DB : Type} `{CL : CfDbLaws ReplCf DB} `{FC : !ForwardCodec} {FL : ForwardCodecLaws}.

(** A row of the queue's column family holds the entry. *)
Definition row_holds (q : ForwardQueue DB) (e : ForwardEntry) : Prop :=
  exists s v, cf_rows (fq_db q) ForwardData !! u64_to_be s = Some v /\ forward_deserialize v = Ok e.

Lemma row_holds_stored q m e : fq_rep q m -> row_holds q e <-> exists s o, m !! s = Some (e, o).
Proof using FL.
  intros (_ & _ & Hk & Hm). split.
  - intros (s & v & Hrow & He). destruct (Hk _ _ Hrow) as (s' & _ & Heq & [e' o] & Hs').
    destruct (Hm s' e' o Hs') as (_ & Hok & v' & Hv' & Hrow'). rewrite <-Heq, Hrow in Hrow'. injection Hrow' as <-.
    rewrite (forward_codec_law _ _ Hok Hv') in He. apply Ok_inj in He as <-. eauto.
  - intros (s & o & Hs). destruct (Hm s e o Hs) as (_ & Hok & v & Hv & Hrow). exists s, v. split; [done|].
    by apply forward_codec_law.
Qed.

#[export] Program Instance rocks_queue_laws : ForwardQueuePortLaws (ForwardQueue DB) := {
  port_room n q := exists m, fq_rep q m /\ fq_seq q + N.of_nat n <= u64_max;
  port_holds := row_holds
}.
Next Obligation.
  intros n q e q' o (m & Hrep & Hseq) Hok E. cbn in E. unfold fq_enqueue in E.
  destruct (fq_write q [] (Some e)) as [q1 r] eqn:Ew. injection E as <- <-.
  destruct (write_rep q m [] (Some e) q1 r Ew Hrep ltac:(lia) ltac:(constructor) ltac:(by intros ? [= <-])) as [Hr Hs].
  assert (m !! (fq_seq q + 1) = None) as Hfresh by (eapply rep_fresh; [apply Hrep|lia]).
  destruct r as [s|err].
  - destruct Hr as [Hr ->]. assert (delete_all [] m = m) as Hd.
    { apply map_eq. intros i. rewrite delete_all_lookup. case_decide; [set_solver|done]. }
    rewrite Hd in Hr. split_and!.
    + eexists. split; [exact Hr|]. lia.
    + intros e' (s & o & Hs')%(row_holds_stored q m _ Hrep). eapply row_holds_stored; [exact Hr|]. exists s, o.
      rewrite lookup_insert_ne; [done|]. congruence.
    + intros _. eapply row_holds_stored; [exact Hr|]. eexists _, _. by rewrite lookup_insert_eq.
  - split_and!; [exists m; split; [done|lia]| |done].
    intros e' He'%(row_holds_stored q m _ Hrep). by eapply row_holds_stored.
Qed.
Next Obligation. intros n q (m & Hrep & Hseq). exists m. split; [done|lia]. Qed.
End RocksQueue.
