(* ===== verification/ShardedCluster.v ===== *)
(** * Sharded writes across a cluster

    The theorems on acknowledged writes and on the drainer, for every
    coordinator that keeps [CoordinatorLaws]; and a cluster that does: the
    peers of the coordinator are nodes that run the handlers of
    [ShardWriteHandler], so what the coordinator relies on is what those
    handlers promise. *)

From stdpp Require Import prelude list sorting gmap strings pretty.
From S2P Require Import Prelude Bytes Wire ShardTypes ShardOps ShardInvariant ShardTheorems Membership LocationCache.
From S2P Require Import ShardBootstrap Points WalWriter PeerResolution ShardRouting ShardRoutingTheorems PointFrames LineProtocol.
From S2P Require Import ForwardCoalescer FieldTypes ShardWriteHandler CfStore ReplicationLog ForwardQueue.
From S2P Require Import ForwardQueueTheorems ForwardDrain ShardedIngest ShardedIngestTheorems.
From stdpp Require Import options.

#[local] Open Scope N_scope.

(** A body of one frame decodes to its points, within the limit. *)
Lemma decode_one_frame {PB : PointsBincode} {BL : PointsBincodeLaws PB}
    (parse_lp : bytes -> option string -> nat -> result PointsError (list Point)) default_limit pts b precision max_points :
  encode_points_binary pts = Ok b ->
  let limit := match max_points with O => default_limit | n => n end in
  parse_line_body_to_points_limited parse_lp default_limit b precision max_points
  = Some (if decide (length pts <= limit)%nat then Ok pts else Err (over_limit limit)).
Proof.
  intros E limit. unfold parse_line_body_to_points_limited. fold limit.
  assert (is_binary_points b = true) as ->.
  { unfold encode_points_binary in E. destruct (points_serialize pts); [|done]. destruct (_ <=? _); [|done].
    apply Ok_inj in E as <-. apply has_prefix_app. }
  pose proof (frames_body_length [([], b)] [pts] [] ltac:(by repeat constructor)) as Hl. cbn in Hl. rewrite app_nil_r in Hl.
  unfold decode_points_frames.
  pose proof (decode_frames_all [([], b)] [pts] [] limit (S (length b)) [] ltac:(by repeat constructor) (Forall_nil_2 _) ltac:(cbn; lia)) as Hd.
  cbn [frames_body app concat length Nat.add] in Hd. rewrite !app_nil_r in Hd. rewrite Hd.
  assert (Hi : (length pts <= limit \/ [pts] = [])%nat <-> (length pts <= limit)%nat) by (split; [intros [?|?]; done|by left]).
  by rewrite (decide_ext _ _ _ _ Hi).
Qed.

(** ** The drainer delivers through the coordinator *)

Section Delivery.
Context {World : Type} `{CO : !Coordinator World} `{PF : !PointFate World} `{PB : !PointsBincode}.
Context `{DH : !DefaultHasher} `{J : !JsonError}.
Context (cfg : IngestConfig) (node_id : N).
Context (parse_lp : bytes -> option string -> nat -> result PointsError (list Point)) (default_limit : nat).
(** The platform's [usize::MAX]. *)
Context (usize_max : nat).

(** The points of a queued entry; a [Vec] has at most [usize::MAX] of them. *)
#[local] Instance ingest_delivery : ForwardDelivery (World * CacheInner) := {
  decode_points b :=
    match parse_line_body_to_points_limited parse_lp default_limit b None usize_max with
    | Some (Ok pts) => Some pts
    | _ => None
    end;
  encode_points pts :=
    if (length pts <=? usize_max)%nat then map_err show_points_error (encode_points_binary pts)
    else Err "capacity overflow"%string;
  clock_ms e := co_now_ms e.1;
  deliver_forwards e d r precision pts :=
    let '(e', o) := deliver_points cfg node_id e d r precision pts in (e', map_err show_routing_error o)
}.

Context {CL : CoordinatorLaws World cfg} {BL : PointsBincodeLaws PB} (Husize : (0 < usize_max)%nat).

#[local] Program Instance ingest_delivery_laws : ForwardDeliveryLaws (World * CacheInner) := {
  settled e x := exists d r, answered e.1 d r x
}.
Next Obligation.
  cbn. intros pts b. destruct (Nat.leb_spec (length pts) usize_max) as [Hl|]; [|done].
  destruct (encode_points_binary pts) as [b'|] eqn:Eb; [|done]. cbn. intros <-%Ok_inj.
  destruct (encode_points_size _ _ Eb) as [Hok Hsize]. split; [|split; [done|unfold two64, u32_max in *; lia]].
  rewrite (decode_one_frame parse_lp default_limit pts b' None usize_max Eb).
  destruct usize_max; [lia|]. by rewrite decide_True.
Qed.
Next Obligation.
  cbn. intros e d r p pts e' failed E x Hx. destruct (deliver_points _ _ _ _ _ _ _) as [e1 o] eqn:Ed.
  injection E as <- Eo. destruct o as [fs|]; [|done]. cbn in Eo. apply Ok_inj in Eo as <-.
  destruct (deliver_points_spec cfg node_id _ _ _ _ _ _ _ Ed) as [_ H]. destruct (H fs eq_refl x Hx); [by left|right; eauto].
Qed.
Next Obligation.
  cbn. intros e d r p pts e' o x E (d' & r' & Hx). destruct (deliver_points _ _ _ _ _ _ _) as [e1 o1] eqn:Ed.
  injection E as <- _. destruct (deliver_points_spec cfg node_id _ _ _ _ _ _ _ Ed) as [Hg _]. exists d', r'.
  destruct Hx as [H|H]; [left|right]; by apply (Hg d' r' x).
Qed.
End Delivery.

(** ** A cluster of nodes that run the handlers *)

(** The coordinator's view of the map and the membership, its own node, the
    peers by address with their ids, and the parts that were declined. *)
Record Cluster (Node : Type) := mkCluster {
  cl_map : ShardMap;
  cl_members : ClusterMembership;
  cl_now : N;
  cl_self : Node;
  cl_peers : gmap string (N * Node);
  cl_declined : list (string * string * Point)
}.
Arguments mkCluster {Node} _ _ _ _ _ _.
Arguments cl_map {Node} _.
Arguments cl_members {Node} _.
Arguments cl_now {Node} _.
Arguments cl_self {Node} _.
Arguments cl_peers {Node} _.
Arguments cl_declined {Node} _.

Section Network.
Context {Node : Type} `{RC : !ShardReceiver Node} `{J : !JsonError} `{PB : !PointsBincode}.
Context (parse_lp : bytes -> option string -> nat -> result PointsError (list Point)).
Context (default_limit max_points : nat) (node_id : N).

Definition set_self (n : Node) (w : Cluster Node) : Cluster Node :=
  mkCluster (cl_map w) (cl_members w) (cl_now w) n (cl_peers w) (cl_declined w).

(** The points of a part that is one binary frame. *)
Definition frame_points (part : ShardWriteRequest) : list Point :=
  match points_deserialize (drop 8 (wr_body part)) with Ok pts => pts | Err _ => [] end.

Definition declined_points (parts : list ShardWriteRequest) (rs : list ShardWritePartResult)
    : list (string * string * Point) :=
  zip parts rs ≫= fun pr =>
    if refusal (part_status pr.2)
    then (fun p => (wr_db pr.1, wr_rp pr.1, p)) <$> frame_points pr.1 else [].

(** A batch is handled by the node at its address. The single-region
    endpoint does not answer, and the measurements exist. *)
Definition network : Coordinator (Cluster Node) := {|
  co_shard_map w := (w, Ok (cl_map w));
  co_members := cl_members;
  co_now_ms w := N.min (cl_now w) u64_max;
  co_now_secs w := cl_now w / 1000;
  co_sleep w := w;
  co_send w addr parts :=
    match cl_peers w !! addr with
    | None => (w, SendFailed "connection refused")
    | Some (id, n) =>
      let '(n', rs) := apply_shard_write_batch parse_lp default_limit max_points id n parts in
      (mkCluster (cl_map w) (cl_members w) (cl_now w) (cl_self w) (<[addr := (id, n')]> (cl_peers w))
         (declined_points parts rs ++ cl_declined w),
       send_direct addr parts (SendResults rs))
    end;
  co_post_write w _ _ := (w, Err "connection reset"%string);
  co_measurement w _ := (w, Ok None);
  co_prepare w d r pts :=
    let '(n, o) := rc_prepare (cl_self w) d r pts in (set_self n w, map_err OtherError o);
  co_append w d r pts :=
    let '(n, o) := rc_append (cl_self w) d r pts in (set_self n w, map_err OtherError o);
  co_dispatch w b :=
    let '(n, o) := rc_replicate (cl_self w) b in (set_self n w, map_err OtherError o);
  co_leader _ := (false, None);
  co_propose w _ _ := (w, Err "connection refused"%string);
  co_apply_op w _ := (w, Ok tt);
  co_ask_leader w _ _ := (w, Err "connection refused"%string)
|}.

Context {RL : ShardReceiverLaws Node} {BL : PointsBincodeLaws PB}.

#[local] Existing Instance network.

Definition network_fate : PointFate (Cluster Node) := {|
  landed w d r p :=
    logged (cl_self w) d r p \/ exists addr id n, cl_peers w !! addr = Some (id, n) /\ logged n d r p;
  declined w d r p := (d, r, p) ∈ cl_declined w
|}.

#[local] Existing Instance network_fate.

Lemma self_grows w n :
  (forall d r p, logged (cl_self w) d r p -> logged n d r p) -> grows w (set_self n w).
Proof. intros H d r p. split; [|done]. cbn. intros [Hl|Hl]; [left; by apply H|by right]. Qed.

Lemma frame_points_of d r precision ep id pts body :
  encode_points_binary pts = Ok body -> frame_points (mkWriteReq d r precision ep id body) = pts.
Proof using BL.
  unfold encode_points_binary, frame_points. destruct (points_serialize pts) as [payload|] eqn:E; [|done].
  destruct (_ <=? _); [|done]. intros <-%Ok_inj. cbn [wr_body].
  rewrite app_assoc, drop_app_length' by (by rewrite length_app, le_bytes_length).
  by rewrite (points_roundtrip _ _ E).
Qed.

(** What the handler promises of a batch, whether or not it has its map. *)
Lemma handler_answers (id : N) (n : Node) parts n' rs :
  apply_shard_write_batch parse_lp default_limit max_points id n parts = (n', rs) ->
  (forall d r p, logged n d r p -> logged n' d r p) /\
  Forall2 (fun part res => part_region_id res = wr_region_id part /\
    (http_success (part_status res) = true -> forall pts, encode_points_binary pts = Ok (wr_body part) ->
       Forall (logged n' (wr_db part) (wr_rp part)) pts)) parts rs.
Proof using RL BL.
  intros E. destruct (rc_map n) as [m|e] eqn:Em.
  - pose proof (write_batch_spec parse_lp default_limit max_points id n m parts Em) as H. rewrite E in H.
    destruct H as [Hk Hh]. cbn [fst snd] in *. split; [exact Hk|].
    eapply Forall2_impl; [exact Hh|]. intros part res [Hid Hs]. split; [done|]. intros Hok pts Hb.
    destruct (Hs Hok) as (region & points & _ & Hp & Hl). unfold parse_part in Hp.
    destruct (parse_line_body_to_points_limited _ _ _ _ _) as [[points'|]|] eqn:Ep; [|done|done].
    apply Ok_inj in Hp as ->. rewrite (decode_one_frame parse_lp default_limit pts _ _ max_points Hb) in Ep.
    destruct (decide _); [|done]. by injection Ep as ->.
  - pose proof (write_batch_no_map parse_lp default_limit max_points id n e parts Em) as H. rewrite E in H.
    cbn [fst snd] in H. destruct H as [-> Hh]. split; [done|]. eapply Forall2_impl; [exact Hh|].
    intros part res [Hid Hs]. split; [done|]. by rewrite Hs.
Qed.
Lemma declined_elem parts rs i part res d r p :
  parts !! i = Some part -> rs !! i = Some res -> refusal (part_status res) = true -> wr_db part = d -> wr_rp part = r ->
  p ∈ frame_points part -> (d, r, p) ∈ declined_points parts rs.
Proof.
  intros Hp Hr Hs <- <- Hin. unfold declined_points. apply list_elem_of_bind. exists (part, res). split.
  - cbn. rewrite Hs. by apply (list_elem_of_fmap_2 (fun p => (wr_db part, wr_rp part, p))).
  - apply (list_elem_of_lookup_2 _ i), lookup_zip_Some. done.
Qed.

(** The cluster after a batch. *)
Lemma network_send w addr parts w' rs :
  co_send w addr parts = (w', SendResults rs) ->
  exists id n n', cl_peers w !! addr = Some (id, n) /\
    apply_shard_write_batch parse_lp default_limit max_points id n parts = (n', rs) /\
    cl_peers w' = <[addr := (id, n')]> (cl_peers w) /\ cl_self w' = cl_self w /\
    cl_declined w' = declined_points parts rs ++ cl_declined w.
Proof.
  cbn. destruct (cl_peers w !! addr) as [[id n]|]; [|done].
  destruct (apply_shard_write_batch _ _ _ id n parts) as [n' rs'] eqn:E. unfold send_direct.
  destruct (negb _); intros [= <- <-]. by exists id, n, n'.
Qed.

Lemma network_send_grows w addr parts : grows w (co_send w addr parts).1.
Proof using RL BL.
  cbn. destruct (cl_peers w !! addr) as [[id n]|] eqn:Ea; [|done].
  destruct (apply_shard_write_batch _ _ _ id n parts) as [n' rs] eqn:E. apply handler_answers in E as [Hk _].
  cbn [fst]. intros d r p. cbn. split; [|intros H; apply elem_of_app; by right].
  intros [H|(a & i & x & Hx & Hl)]; [by left|right]. destruct (decide (a = addr)) as [->|Hne].
  - rewrite Ea in Hx. injection Hx as <- <-. exists addr, id, n'. rewrite lookup_insert_eq. split; [done|by apply Hk].
  - exists a, i, x. by rewrite lookup_insert_ne.
Qed.

Lemma network_laws cfg : ic_binary_points_wire cfg = true -> CoordinatorLaws (Cluster Node) cfg.
Proof using RL BL.
  intros Hbin. split; try done.
  - apply network_send_grows.
  - intros w d r pts. cbn. destruct (rc_prepare (cl_self w) d r pts) as [n o] eqn:E. apply self_grows.
    intros d' r' p. by eapply prepare_keeps.
  - intros w d r pts. cbn. destruct (rc_append (cl_self w) d r pts) as [n o] eqn:E. apply self_grows.
    intros d' r' p. by eapply append_keeps.
  - intros w b. cbn. destruct (rc_replicate (cl_self w) b) as [n o] eqn:E. apply self_grows.
    intros d' r' p. by eapply replicate_keeps.
  - intros w. cbn. lia.
  - intros w d r pts w' seq E. cbn in E. destruct (rc_append (cl_self w) d r pts) as [n o] eqn:Ea.
    injection E as <- Eo. destruct o as [s|]; [|done]. apply append_logs in Ea.
    eapply Forall_impl; [exact Ea|]. by left.
  - intros w addr parts w' rs E. apply network_send in E as (id & n & n' & Ha & Eb & Hp & _ & Hd).
    apply handler_answers in Eb as [_ Hh]. apply Forall2_same_length_lookup_2; [by eapply Forall2_length|].
    intros i part res Hi Hri. destruct (Forall2_lookup_lr _ _ _ _ _ _ Hh Hi Hri) as [Hid Hs]. split; [done|].
    intros pts Hb. unfold encode_forward in Hb. rewrite Hbin in Hb.
    destruct (encode_points_binary pts) as [body|] eqn:Ep; [|done]. cbn in Hb. apply Ok_inj in Hb as ->. split; intros Hst.
    + eapply Forall_impl; [by apply Hs|]. intros p Hl. right. exists addr, id, n'. by rewrite Hp, lookup_insert_eq.
    + apply Forall_forall. intros p Hin. right. cbn. rewrite Hd. apply elem_of_app. left.
      eapply declined_elem; try done. destruct part. cbn in Ep. by rewrite (frame_points_of _ _ _ _ _ _ _ Ep).
Qed.
End Network.

(** ** Properties *)



(** ** A cluster in memory

    Node 8 coordinates. Node 7 is up and owns [cpu]; node 9 owns [mem] and is
    down. *)
Definition cluster_map : ShardMap :=
  mkMap 1 3 (list_to_map
    [(mkKey "db" "autogen" "cpu", mkSpace (mkKey "db" "autogen" "cpu") [fresh_region 1 0 u64_max [7] 7 1]);
     (mkKey "db" "autogen" "mem", mkSpace (mkKey "db" "autogen" "mem") [fresh_region 2 0 u64_max [9] 9 1])]).

Definition cluster_node (id : N) (addr : string) : NodeInfo := mkNode id addr Active 0 0 false 0.

Definition two_primaries : Cluster MemNode :=
  mkCluster cluster_map
    (mkMembership 1 (list_to_map [(7, cluster_node 7 "n7"); (8, cluster_node 8 "n8"); (9, cluster_node 9 "n9")]))
    500 (mkMemNode cluster_map []) {[ "n7"%string := (7, mkMemNode cluster_map []) ]} [].

Definition cluster_config : IngestConfig := mkIngestConfig (mkShardingConfig 4 2) true 1 false 0 1000000 0.

#[local] Existing Instance plain_errors.

#[local] Instance same_series : DefaultHasher := const_hasher 5.

#[local] Instance cluster_network : Coordinator (Cluster MemNode) := network no_lines 100 0.

#[local] Instance cluster_fate : PointFate (Cluster MemNode) := network_fate.

#[local] Instance cluster_laws : CoordinatorLaws (Cluster MemNode) cluster_config :=
  network_laws no_lines 100 0 cluster_config eq_refl.

Definition cluster_write :=
  ingest_sharded_points cluster_config 8 (two_primaries, cache_new) (Some wit_queue) "db" "autogen" None
    [frame_point "cpu"; frame_point "mem"].

Lemma cluster_target : target_ok "db" "autogen" None.
Proof.
  split; [unfold u64_max, u32_max; cbn; lia|]. split; [split_and!; [reflexivity|reflexivity|reflexivity|constructor]|].
  repeat apply Forall_cons_2; [reflexivity|reflexivity|reflexivity|by apply N.ltb_lt|constructor].
Qed.


(** The rows of a queue that holds both points. *)
Definition queued_entry (i : N) (p : Point) : ForwardEntry := mkForward "db" "autogen" None (100 + i) 0 0 (frame_of [p]).

Definition waiting_events : list FqEvent :=
  [FqEnqueue (queued_entry 1 (frame_point "cpu")); FqEnqueue (queued_entry 2 (frame_point "mem"))].

Definition waiting_run : ForwardQueue (MemDb ReplCf) * gmap N (ForwardEntry * option N) :=
  fq_run wit_queue ∅ waiting_events.

#[local] Instance cluster_delivery : ForwardDelivery (Cluster MemNode * CacheInner) :=
  ingest_delivery cluster_config 8 no_lines 100 (N.to_nat 65535).

Definition drained := drainer_turn (fst waiting_run) (two_primaries, cache_new).

Lemma waiting_ok i p :
  i <= 100 -> Forall byte_ok (frame_of [p]) -> (N.of_nat (length (frame_of [p])) <? two64) = true -> forward_ok (queued_entry i p).
Proof.
  intros Hi Hb Hx. split; [|split].
  - unfold u64_max, u32_max. cbn. lia.
  - split_and!; [reflexivity|reflexivity|reflexivity|done].
  - repeat apply Forall_cons_2; [reflexivity|reflexivity|reflexivity|by apply N.ltb_lt|constructor].
Qed.

Lemma waiting_reaches : fq_reaches (empty_db (Cf := ReplCf)) waiting_events (fst waiting_run) (snd waiting_run).
Proof.
  split; [done|]. split; [|split; [by apply N.ltb_lt|]].
  - repeat apply Forall_cons_2; [apply waiting_ok; [lia|apply (bool_decide_unpack _); vm_compute; exact I|vm_compute; reflexivity]..|constructor].
  - exists wit_queue. split; [reflexivity|]. apply surjective_pairing.
Qed.

Lemma waiting_mem : queued (fst waiting_run) (frame_point "mem").
Proof.
  exists 2, (bytes_str (forward_bytes (queued_entry 2 (frame_point "mem")))), (queued_entry 2 (frame_point "mem")).
  split_and!; [vm_compute; reflexivity|vm_compute; reflexivity|].
  apply (bool_decide_unpack _). vm_compute. exact I.
Qed.


(** ** A bucket that outlives its region

    [cpu] was split into the regions 2 and 3 after a batch was bucketed by
    its region 1. The coordinator records the requests it posts, and the
    primaries accept them. *)
Definition split_map : ShardMap :=
  mkMap 2 4 {[ mkKey "db" "autogen" "cpu" :=
    mkSpace (mkKey "db" "autogen" "cpu") [fresh_region 2 0 10 [7] 7 1; fresh_region 3 10 u64_max [9] 9 1] ]}.

Definition posts : Coordinator (list (string * ShardWriteRequest)) := {|
  co_shard_map w := (w, Ok split_map);
  co_members w := cl_members two_primaries;
  co_now_ms w := 500;
  co_now_secs w := 0;
  co_sleep w := w;
  co_send w _ _ := (w, SendFailed "connection refused"%string);
  co_post_write w addr req := ((addr, req) :: w, Ok (204, EmptyString));
  co_measurement w _ := (w, Ok None);
  co_prepare w _ _ _ := (w, Ok tt);
  co_append w _ _ _ := (w, Ok 1);
  co_dispatch w _ := (w, Ok tt);
  co_leader _ := (false, None);
  co_propose w _ _ := (w, Err "connection refused"%string);
  co_apply_op w _ := (w, Ok tt);
  co_ask_leader w _ _ := (w, Err "connection refused"%string)
|}.

Definition one_tag : Point := mkPoint "cpu" {[ "host"%string := "a"%string ]} {[ "v"%string := FBoolean true ]} 5.

Definition three_tags : Point :=
  mkPoint "cpu" (list_to_map [("dc", "x"); ("host", "a"); ("rack", "b")]%string) {[ "v"%string := FBoolean true ]} 5.

(** A bucket whose region was split is sent whole to the child region of its
    first point: the retry of a single region locates only that point, and
    the receiving primary compares region, epoch and ownership but no series.
    The other point is acknowledged by node 7 although its series belongs to
    region 3 of node 9. *)
Theorem stale_bucket_misrouted :
  let points := [one_tag; three_tags] in
  let out := forward_shard_writes_by_node (CO := posts) (DH := count_hasher) cluster_config 8
               ([], cache_new) "db" "autogen" None {[ 1 := points ]} in
  out.2 = [(1, Ok tt)] /\
  (exists body req, encode_points_to_line_protocol points (precision_from_str_opt None) = Ok body /\
     out.1.1 = [("n7"%string, req)] /\ wr_body req = body /\
     region_id <$> locate split_map (mkKey "db" "autogen" "cpu") (series_id_for_point (DH := count_hasher) one_tag)
     = Some (wr_region_id req) /\
     is_ok (forwarded_write_region split_map 7 req) = true) /\
  primary <$> locate split_map (mkKey "db" "autogen" "cpu") (series_id_for_point (DH := count_hasher) three_tags) = Some 9.
Proof.
  split; [vm_compute; reflexivity|]. split; [|vm_compute; reflexivity].
  eexists _, _. repeat (split; [vm_compute; reflexivity|]). vm_compute. reflexivity.
Qed.
