(* ===== verification/MetaStore.v ===== *)
(** * The metadata store

    [adapters/metadata/rocksdb_meta.rs] with [domain/database.rs]: the
    databases with their retention policies, the series of a measurement and
    the values of its tags, as rows of one column family with caches in
    memory. Serde on the rows is the class [MetaCodec]. The functions run one
    after the other. Users, tombstones, settings and the definitions of
    continuous queries and views, with their caches, are left out. *)

From stdpp Require Import prelude list gmap fin_sets strings.
From S2P Require Import Prelude Bytes CfStore Wire QueryAst ColumnNaming CqSchedule.
From stdpp Require Import options.

#[local] Open Scope N_scope.

(** ** Databases *)

(** A [std::time::Duration], in nanoseconds. *)
Record RetentionPolicy := mkRp {
  rp_name : string;
  rp_duration : option N;
  rp_shard_group_duration : N;
  rp_replication_factor : N;
  rp_is_default : bool
}.

Record Database := mkDatabase {
  dbs_name : string;
  dbs_retention_policies : list RetentionPolicy;
  dbs_default_rp : string
}.

#[export] Instance RetentionPolicy_eq_dec : EqDecision RetentionPolicy.
Proof. solve_decision. Defined.

#[export] Instance Database_eq_dec : EqDecision Database.
Proof. solve_decision. Defined.

#[export] Instance DurationUnit_eq_dec : EqDecision DurationUnit.
Proof. solve_decision. Defined.

Definition nanos_per_sec : N := 1000000000.
Definition secs (n : N) : N := n * nanos_per_sec.
Definition as_secs (d : N) : N := d / nanos_per_sec.

Definition derive_shard_group_duration (duration : option N) : N :=
  match duration with
  | None => secs (7 * 86400)
  | Some d =>
    if as_secs d <? 2 * 86400 then secs 3600
    else if as_secs d <? 180 * 86400 then secs 86400
    else secs (7 * 86400)
  end.

Definition autogen : RetentionPolicy := mkRp "autogen" None (derive_shard_group_duration None) 1 true.

Definition new_database (name : string) : Database := mkDatabase name [autogen] (rp_name autogen).

Record CreateDatabaseStatement := mkCreateDb {
  cd_name : string;
  cd_duration : option Duration;
  cd_replication : option N;
  cd_shard_duration : option Duration;
  cd_rp_name : option string
}.

(** [Duration::from_nanos(d.to_nanos() as u64)]. *)
Definition std_duration (d : Duration) : N := as_u64 (duration_to_nanos d).

(** [0s] stands for no limit. *)
Definition limit_duration (d : Duration) : option N :=
  if (dur_value d =? 0)%Z && bool_decide (dur_unit d = Second) then None else Some (std_duration d).

Definition retention_policy_from_create (stmt : CreateDatabaseStatement) : option RetentionPolicy :=
  if negb (bool_decide (is_Some (cd_duration stmt)) || bool_decide (is_Some (cd_replication stmt))
           || bool_decide (is_Some (cd_shard_duration stmt)) || bool_decide (is_Some (cd_rp_name stmt))) then None
  else
    let duration := cd_duration stmt ≫= limit_duration in
    Some (mkRp (default "autogen" (cd_rp_name stmt)) duration
            (match cd_shard_duration stmt with
             | Some d => std_duration d
             | None => derive_shard_group_duration duration
             end)
            (default 1 (cd_replication stmt)) true).

(** [lexer::nanos_to_ast_duration]. *)
Definition nanos_to_ast_duration (nanos : Z) : Duration :=
  let try_ u k := if (Z.rem nanos (nanos_per_unit u) =? 0)%Z then mkDuration (Z.quot nanos (nanos_per_unit u)) u else k in
  try_ Week (try_ Day (try_ Hour (try_ Minute (try_ Second (mkDuration nanos Nanosecond))))).

Definition ast_duration_from_std (d : N) : Duration := nanos_to_ast_duration (as_i64 d).

Definition create_database_statement_from_rp (name : string) (rp : RetentionPolicy) : CreateDatabaseStatement :=
  mkCreateDb name
    (Some (match rp_duration rp with None => mkDuration 0 Second | Some d => ast_duration_from_std d end))
    (Some (rp_replication_factor rp)) (Some (ast_duration_from_std (rp_shard_group_duration rp))) (Some (rp_name rp)).

Record RetentionPolicyChange := mkRpChange {
  ch_duration : option (option Duration);
  ch_replication : option N;
  ch_shard_duration : option Duration;
  ch_is_default : option bool
}.

(** ** Keys *)

Definition sep : N := 58.

(** Each part with a colon after it. *)
Fixpoint colon_joined (parts : list bytes) : bytes :=
  match parts with [] => [] | p :: rest => p ++ [sep] ++ colon_joined rest end.

Definition db_key (name : string) : bytes := str_bytes "db:" ++ str_bytes name.

Definition meas_key (db rp name : string) : bytes :=
  str_bytes "meas:" ++ colon_joined [str_bytes db; str_bytes rp] ++ str_bytes name.

(** The prefix of everything a database has of one kind. *)
Definition kind_prefix (kind db : string) : bytes := colon_joined [str_bytes kind; str_bytes db].

Definition tag_val_prefix (db rp : string) (meas : option string) : bytes :=
  str_bytes "tag_val:" ++ colon_joined (str_bytes <$> [db; rp] ++ option_list meas).

Definition tag_val_storage_key (db rp meas tag_key tag_value : string) : bytes :=
  str_bytes "tag_val:" ++ colon_joined (str_bytes <$> [db; rp; meas; tag_key]) ++ str_bytes tag_value.

Definition tag_count_cache_key (db rp meas tag_key : bytes) : bytes := colon_joined [db; rp; meas] ++ tag_key.

Definition series_prefix (db rp meas : string) : bytes :=
  str_bytes "series:" ++ colon_joined (str_bytes <$> [db; rp; meas]).

Definition series_storage_key (db rp meas : string) (series_id : N) : bytes :=
  str_bytes "series:" ++ colon_joined (str_bytes <$> [db; rp; meas]) ++ hex16 series_id.

Definition meas_cache_key (db rp name : string) : bytes := colon_joined [str_bytes db; str_bytes rp] ++ str_bytes name.

Fixpoint split_once (s : bytes) : option (bytes * bytes) :=
  match s with
  | [] => None
  | c :: s' => if c =? sep then Some ([], s') else p ← split_once s'; Some (c :: p.1, p.2)
  end.

(** [str::splitn(n, ':')]. *)
Fixpoint splitn (n : nat) (s : bytes) : list bytes :=
  match n with
  | O => []
  | S O => [s]
  | S n' => match split_once s with None => [s] | Some (a, b) => a :: splitn n' b end
  end.

Definition parse_tag_val_storage_key (key : bytes) : option (bytes * bytes * bytes * bytes) :=
  rest ← strip_prefix (str_bytes "tag_val:") key;
  match splitn 5 rest with
  | [db; rp; meas; tag_key; _] => Some (db, rp, meas, tag_key)
  | _ => None
  end.

Definition parse_series_storage_key (key : bytes) : option (bytes * bytes * bytes * N) :=
  rest ← strip_prefix (str_bytes "series:") key;
  match splitn 4 rest with
  | [db; rp; meas; hex] => id ← from_str_radix 16 hex; Some (db, rp, meas, id)
  | _ => None
  end.

(** ** The index of series *)

Record SeriesIndex := mkIndex {
  si_keys : gset bytes;
  si_counts : gmap bytes N
}.

Definition si_empty : SeriesIndex := mkIndex ∅ ∅.

(** [str::rfind(':')]. *)
Fixpoint rfind (s : bytes) : option nat :=
  match s with
  | [] => None
  | c :: s' => match rfind s' with Some i => Some (S i) | None => if c =? sep then Some O else None end
  end.

Definition prefix_of (key : bytes) : bytes :=
  match rfind key with Some i => take (S i) key | None => key end.

(** [entry(prefix).or_default() += 1]. *)
Definition si_increment (counts : gmap bytes N) (prefix : bytes) : gmap bytes N :=
  <[prefix := default 0 (counts !! prefix) + 1]> counts.

Definition si_decrement (counts : gmap bytes N) (prefix : bytes) : gmap bytes N :=
  match counts !! prefix with
  | None => counts
  | Some n => if n - 1 =? 0 then delete prefix counts else <[prefix := n - 1]> counts
  end.

Definition si_contains (idx : SeriesIndex) (key : bytes) : bool := bool_decide (key ∈ si_keys idx).

Definition si_insert (idx : SeriesIndex) (key : bytes) : SeriesIndex * bool :=
  if si_contains idx key then (idx, false)
  else (mkIndex ({[ key ]} ∪ si_keys idx) (si_increment (si_counts idx) (prefix_of key)), true).

Definition si_remove (idx : SeriesIndex) (key : bytes) : SeriesIndex * bool :=
  if si_contains idx key then (mkIndex (si_keys idx ∖ {[ key ]}) (si_decrement (si_counts idx) (prefix_of key)), true)
  else (idx, false).

(** The keys that go are counted down one after the other. *)
Definition si_retain (keep : bytes -> bool) (idx : SeriesIndex) : SeriesIndex :=
  mkIndex (filter (fun k => keep k = true) (si_keys idx))
    (fold_left (fun counts k => si_decrement counts (prefix_of k))
       (elements (filter (fun k => keep k = false) (si_keys idx))) (si_counts idx)).

Definition si_replace (keys : gset bytes) (idx : SeriesIndex) : SeriesIndex :=
  mkIndex keys (fold_left (fun counts k => si_increment counts (prefix_of k)) (elements keys) ∅).

Definition si_count (idx : SeriesIndex) (prefix : bytes) : N := default 0 (si_counts idx !! prefix).

(** ** The store *)

Inductive MetaCf := META_CF.

#[export] Instance MetaCf_eq_dec : EqDecision MetaCf.
Proof. solve_decision. Defined.

Record RocksDbMetadata (DB : Type) := mkStore {
  md_db : DB;
  md_generation : N;
  md_db_cache : gmap string Database;
  md_meas_cache : gmap bytes MeasurementMeta;
  md_tag_known : gset bytes;
  md_tag_count_cache : gmap bytes N;
  md_tag_counts_warmed : bool;
  md_series_known : SeriesIndex;
  md_series_warmed : bool;
  md_meas_list_cache : gmap string (N * list string)
}.
Arguments mkStore {DB}.
Arguments md_db {DB}.
Arguments md_generation {DB}.
Arguments md_db_cache {DB}.
Arguments md_meas_cache {DB}.
Arguments md_tag_known {DB}.
Arguments md_tag_count_cache {DB}.
Arguments md_tag_counts_warmed {DB}.
Arguments md_series_known {DB}.
Arguments md_series_warmed {DB}.
Arguments md_meas_list_cache {DB}.

(** Durations are stored in whole seconds. *)
Record RpRow := mkRpRow {
  rr_name : string;
  rr_duration : option N;
  rr_shard_group_duration : N;
  rr_replication_factor : N;
  rr_is_default : bool
}.

Record DbRow := mkDbRow {
  dr_name : string;
  dr_retention_policies : list RpRow;
  dr_default_rp : string
}.

Definition rp_row (rp : RetentionPolicy) : RpRow :=
  mkRpRow (rp_name rp) (as_secs <$> rp_duration rp) (as_secs (rp_shard_group_duration rp))
    (rp_replication_factor rp) (rp_is_default rp).

Definition rp_of_row (r : RpRow) : RetentionPolicy :=
  mkRp (rr_name r) (secs <$> rr_duration r) (secs (rr_shard_group_duration r)) (rr_replication_factor r) (rr_is_default r).

Definition db_row (d : Database) : DbRow := mkDbRow (dbs_name d) (rp_row <$> dbs_retention_policies d) (dbs_default_rp d).

Definition db_of_row (r : DbRow) : Database :=
  mkDatabase (dr_name r) (rp_of_row <$> dr_retention_policies r) (dr_default_rp r).

(** [serde_json] on the rows. *)
Class MetaCodec := {
  db_to_vec : DbRow -> result string string;
  db_from_slice : string -> result string DbRow;
  tags_to_vec : gmap string string -> result string string;
  tags_from_slice : string -> result string (gmap string string)
}.

(** What is written reads back. *)
Class MetaCodecLaws `(MC : MetaCodec) := {
  db_codec_law : forall r v, db_to_vec r = Ok v -> db_from_slice v = Ok r;
  tags_codec_law : forall t v, tags_to_vec t = Ok v -> tags_from_slice v = Ok t
}.

Inductive MetaError :=
| MetadataError (e : string)
| QueryParse (msg : string)
| DatabaseNotFound (name : string).

(** Calls on the store. *)
Definition MetaM (DB A : Type) : Type := RocksDbMetadata DB -> RocksDbMetadata DB * result MetaError A.

#[export] Instance meta_ret DB : MRet (MetaM DB) := fun A a st => (st, Ok a).
#[export] Instance meta_bind DB : MBind (MetaM DB) := fun A B k m st =>
  match m st with
  | (st', Ok a) => k a st'
  | (st', Err e) => (st', Err e)
  end.

Section Calls.
Context {DB : Type} `{CDB : !CfDb MetaCf DB} `{MC : !MetaCodec}.

#[local] Abbreviation St := (RocksDbMetadata DB).

Definition set_rows (d : DB) (st : St) : St :=
  mkStore d (md_generation st) (md_db_cache st) (md_meas_cache st) (md_tag_known st) (md_tag_count_cache st)
    (md_tag_counts_warmed st) (md_series_known st) (md_series_warmed st) (md_meas_list_cache st).

Definition set_db_cache (c : gmap string Database) (st : St) : St :=
  mkStore (md_db st) (md_generation st) c (md_meas_cache st) (md_tag_known st) (md_tag_count_cache st)
    (md_tag_counts_warmed st) (md_series_known st) (md_series_warmed st) (md_meas_list_cache st).

Definition set_series (idx : SeriesIndex) (warmed : bool) (st : St) : St :=
  mkStore (md_db st) (md_generation st) (md_db_cache st) (md_meas_cache st) (md_tag_known st) (md_tag_count_cache st)
    (md_tag_counts_warmed st) idx warmed (md_meas_list_cache st).

Definition set_tags (known : gset bytes) (counts : gmap bytes N) (warmed : bool) (st : St) : St :=
  mkStore (md_db st) (md_generation st) (md_db_cache st) (md_meas_cache st) known counts
    warmed (md_series_known st) (md_series_warmed st) (md_meas_list_cache st).

(** The measurements changed: the caches, and the generation. *)
Definition set_measurements (c : gmap bytes MeasurementMeta) (l : gmap string (N * list string)) (st : St) : St :=
  mkStore (md_db st) (md_generation st + 1) (md_db_cache st) c (md_tag_known st) (md_tag_count_cache st)
    (md_tag_counts_warmed st) (md_series_known st) (md_series_warmed st) l.

Definition modify (f : St -> St) : MetaM DB unit := fun st => (f st, Ok tt).

Definition lift {A} (r : St -> result string A) : MetaM DB A := fun st =>
  (st, match r st with Ok a => Ok a | Err e => Err (MetadataError e) end).

Definition fail {A} (e : MetaError) : MetaM DB A := fun st => (st, Err e).

Definition write_batch (b : list (CfOp MetaCf)) : MetaM DB unit := fun st =>
  match cf_write (md_db st) b with
  | Ok d => (set_rows d st, Ok tt)
  | Err e => (st, Err (MetadataError e))
  end.

(** *** Databases *)

Definition cache_database (name : string) (d : Database) : MetaM DB unit :=
  modify (fun st => set_db_cache (<[name := d]> (md_db_cache st)) st).

Definition create_database (name : string) : MetaM DB unit :=
  let db := new_database name in
  value ← lift (fun _ => db_to_vec (db_row db));
  stored ← lift (fun st => cf_get (md_db st) META_CF (db_key name));
  _ ← (match stored with
       | Some _ => mret tt
       | None => write_batch [PutCf META_CF (db_key name) value]
       end : MetaM DB unit);
  cache_database name db.

Definition get_database (name : string) : MetaM DB (option Database) := fun st =>
  match md_db_cache st !! name with
  | Some d => (st, Ok (Some d))
  | None =>
    (stored ← lift (fun st => cf_get (md_db st) META_CF (db_key name));
     match stored with
     | None => mret None
     | Some v =>
       row ← lift (fun _ => db_from_slice v);
       _ ← cache_database name (db_of_row row);
       mret (Some (db_of_row row))
     end : MetaM DB (option Database)) st
  end.

Definition get_existing (name : string) : MetaM DB Database :=
  d ← get_database name;
  match d with Some d => mret d | None => fail (DatabaseNotFound name) end.

(** Write a database and cache it. *)
Definition put_database (name : string) (d : Database) : MetaM DB unit :=
  value ← lift (fun _ => db_to_vec (db_row d));
  _ ← write_batch [PutCf META_CF (db_key name) value];
  cache_database name d.

Definition set_is_default (b : bool) (r : RetentionPolicy) : RetentionPolicy :=
  mkRp (rp_name r) (rp_duration r) (rp_shard_group_duration r) (rp_replication_factor r) b.

(** [name] is the default policy, and the only one marked so. *)
Definition make_default (name : string) (d : Database) : Database :=
  mkDatabase (dbs_name d) ((fun r => set_is_default (bool_decide (rp_name r = name)) r) <$> dbs_retention_policies d) name.

Definition find_rp (name : string) (l : list RetentionPolicy) : option RetentionPolicy :=
  find (fun r => bool_decide (rp_name r = name)) l.

Definition without_rp (name : string) (l : list RetentionPolicy) : list RetentionPolicy :=
  List.filter (fun r => negb (bool_decide (rp_name r = name))) l.

Definition same_settings (a b : RetentionPolicy) : bool :=
  bool_decide (rp_duration a = rp_duration b) && (rp_shard_group_duration a =? rp_shard_group_duration b)
  && (rp_replication_factor a =? rp_replication_factor b).

Definition create_database_with (stmt : CreateDatabaseStatement) : MetaM DB unit :=
  existing ← get_database (cd_name stmt);
  _ ← (match existing with None => create_database (cd_name stmt) | Some _ => mret tt end : MetaM DB unit);
  match retention_policy_from_create stmt with
  | None => mret tt
  | Some rp =>
    match existing ≫= (fun d => find_rp (rp_name rp) (dbs_retention_policies d)) with
    | Some existing_rp =>
      if same_settings existing_rp rp then mret tt
      else fail (QueryParse ("database " +:+ cd_name stmt +:+ " already exists with different retention policy settings"))
    | None =>
      d ← get_existing (cd_name stmt);
      put_database (cd_name stmt)
        (make_default (rp_name rp)
           (mkDatabase (dbs_name d) (without_rp (rp_name rp) (dbs_retention_policies d) ++ [rp]) (dbs_default_rp d)))
    end
  end.

Definition apply_change (change : RetentionPolicyChange) (r : RetentionPolicy) : RetentionPolicy :=
  mkRp (rp_name r)
    (match ch_duration change with Some d => d ≫= limit_duration | None => rp_duration r end)
    (match ch_shard_duration change with Some d => std_duration d | None => rp_shard_group_duration r end)
    (default (rp_replication_factor r) (ch_replication change)) (rp_is_default r).

(** [iter_mut().find(..)], then an update of what was found. *)
Fixpoint update_first (p : RetentionPolicy -> bool) (f : RetentionPolicy -> RetentionPolicy) (l : list RetentionPolicy)
    : option (list RetentionPolicy) :=
  match l with
  | [] => None
  | r :: l' => if p r then Some (f r :: l') else cons r <$> update_first p f l'
  end.

Definition alter_retention_policy (db name : string) (change : RetentionPolicyChange) : MetaM DB unit :=
  d ← get_existing db;
  match update_first (fun r => bool_decide (rp_name r = name)) (apply_change change) (dbs_retention_policies d) with
  | None => fail (QueryParse ("retention policy " +:+ name +:+ " not found"))
  | Some rps =>
    let d' := mkDatabase (dbs_name d) rps (dbs_default_rp d) in
    put_database db (if bool_decide (ch_is_default change = Some true) then make_default name d' else d')
  end.

Definition create_retention_policy (db : string) (rp : RetentionPolicy) : MetaM DB unit :=
  d ← get_existing db;
  put_database db
    (if existsb (fun x => bool_decide (rp_name x = rp_name rp)) (dbs_retention_policies d) then d
     else
       let rps := dbs_retention_policies d ++ [rp] in
       if rp_is_default rp then
         mkDatabase (dbs_name d)
           ((fun r => if bool_decide (rp_name r = rp_name rp) then r else set_is_default false r) <$> rps) (rp_name rp)
       else mkDatabase (dbs_name d) rps (dbs_default_rp d)).

Definition drop_retention_policy (db name : string) : MetaM DB unit :=
  d ← get_existing db;
  let rps := without_rp name (dbs_retention_policies d) in
  put_database db
    (mkDatabase (dbs_name d) rps
       (if bool_decide (dbs_default_rp d = name) then match rps with r :: _ => rp_name r | [] => "autogen" end
        else dbs_default_rp d)).

Definition get_default_rp (db : string) : MetaM DB string := d ← get_existing db; mret (dbs_default_rp d).

Definition list_retention_policies (db : string) : MetaM DB (list RetentionPolicy) :=
  d ← get_database db;
  mret (match d with Some d => dbs_retention_policies d | None => [] end).

(** [raft/state_machine.rs]: CREATE DATABASE as it is replicated. *)
Definition apply_create_database (name : string) (rp : option RetentionPolicy) : MetaM DB unit :=
  match rp with
  | Some rp => create_database_with (create_database_statement_from_rp name rp)
  | None => create_database name
  end.

(** *** Series *)

(** What a scan does at a key: it ends, passes over the key, or reads an id. *)
Inductive Visit := Stop | Skip | SeriesAt (id : N).

Definition visit (prefix : bytes) (end_ : N) (key : bytes) : Visit :=
  if negb (has_prefix prefix key) then Stop
  else if negb (utf8_valid key) then Skip
  else
    match from_str_radix 16 (drop (length prefix) key) with
    | None => Skip
    | Some id => if end_ <=? id then Stop else SeriesAt id
    end.

#[local] Abbreviation rows := (list (result string (bytes * string))).

Fixpoint scan_loop (prefix : bytes) (start end_ : N) (items : rows) : result string (list N) :=
  match items with
  | [] => Ok []
  | Err e :: _ => Err e
  | Ok (key, _) :: rest =>
    match visit prefix end_ key with
    | Stop => Ok []
    | Skip => scan_loop prefix start end_ rest
    | SeriesAt id =>
      ids ← scan_loop prefix start end_ rest;
      Ok (if start <=? id then id :: ids else ids)
    end
  end.

Definition scan_series_ids (db rp meas : string) (start end_ : N) (st : St) : result string (list N) :=
  let prefix := series_prefix db rp meas in
  scan_loop prefix start end_ (cf_scan (md_db st) META_CF prefix).

Definition sat_succ (n : N) : N := N.min (n + 1) u64_max.

Fixpoint count_loop (prefix : bytes) (start end_ count : N) (items : rows) : result string N :=
  match items with
  | [] => Ok count
  | Err e :: _ => Err e
  | Ok (key, _) :: rest =>
    match visit prefix end_ key with
    | Stop => Ok count
    | Skip => count_loop prefix start end_ count rest
    | SeriesAt id => count_loop prefix start end_ (if start <=? id then sat_succ count else count) rest
    end
  end.

Definition count_series_ids_blocking (db rp meas : string) (start end_ : N) (st : St) : result string N :=
  count_loop (series_prefix db rp meas) start end_ 0
    (cf_scan (md_db st) META_CF (series_storage_key db rp meas start)).

Fixpoint nth_loop (prefix : bytes) (start end_ n seen : N) (items : rows) : result string (option N) :=
  match items with
  | [] => Ok None
  | Err e :: _ => Err e
  | Ok (key, _) :: rest =>
    match visit prefix end_ key with
    | Stop => Ok None
    | Skip => nth_loop prefix start end_ n seen rest
    | SeriesAt id =>
      if start <=? id then if seen =? n then Ok (Some id) else nth_loop prefix start end_ n (sat_succ seen) rest
      else nth_loop prefix start end_ n seen rest
    end
  end.

Definition nth_series_id_in_range (db rp meas : string) (start end_ n : N) (st : St) : result string (option N) :=
  nth_loop (series_prefix db rp meas) start end_ n 0
    (cf_scan (md_db st) META_CF (series_storage_key db rp meas start)).

Definition list_series_ids (db rp meas : string) (st : St) : result string (list N) :=
  scan_series_ids db rp meas 0 u64_max st.

Definition count_series_ids_in_range (db rp meas : string) (start end_ : N) (st : St) : result string N :=
  if (start =? 0) && (end_ =? u64_max) then
    if md_series_warmed st then Ok (si_count (md_series_known st) (series_prefix db rp meas))
    else ids ← list_series_ids db rp meas st; Ok (N.of_nat (length ids))
  else count_series_ids_blocking db rp meas start end_ st.

Definition median_series_id_in_range (db rp meas : string) (start end_ : N) (st : St) : result string (option N) :=
  count ← count_series_ids_in_range db rp meas start end_ st;
  if count =? 0 then Ok None else nth_series_id_in_range db rp meas start end_ (count / 2) st.

Fixpoint list_loop (prefix : bytes) (items : rows) : result string (list (N * gmap string string)) :=
  match items with
  | [] => Ok []
  | Err e :: _ => Err e
  | Ok (key, value) :: rest =>
    if negb (has_prefix prefix key) then Ok []
    else if negb (utf8_valid key) then list_loop prefix rest
    else
      match from_str_radix 16 (drop (length prefix) key) with
      | None => list_loop prefix rest
      | Some id =>
        tags ← tags_from_slice value;
        l ← list_loop prefix rest;
        Ok ((id, tags) :: l)
      end
  end.

Definition list_series (db rp meas : string) (st : St) : result string (list (N * gmap string string)) :=
  list_loop (series_prefix db rp meas) (cf_scan (md_db st) META_CF (series_prefix db rp meas)).

(** The series the index does not have, with their rows. *)
Fixpoint novel_series (db rp meas : string) (known : SeriesIndex) (series : list (N * gmap string string))
    : result string (list (bytes * string)) :=
  match series with
  | [] => Ok []
  | (id, tags) :: rest =>
    let k := series_storage_key db rp meas id in
    if si_contains known k then novel_series db rp meas known rest
    else value ← tags_to_vec tags; out ← novel_series db rp meas known rest; Ok ((k, value) :: out)
  end.

Definition register_series_batch (db rp meas : string) (series : list (N * gmap string string)) : MetaM DB unit :=
  novel ← lift (fun st => novel_series db rp meas (md_series_known st) series);
  match novel with
  | [] => mret tt
  | _ =>
    _ ← write_batch ((fun kv => PutCf META_CF kv.1 kv.2) <$> novel);
    modify (fun st => set_series (fold_left (fun idx kv => (si_insert idx kv.1).1) novel (md_series_known st))
                        (md_series_warmed st) st)
  end.

(** The keys of a scan that [pick] takes, up to the first outside of the
    prefix. *)
Fixpoint collect_loop (prefix : bytes) (pick : bytes -> bool) (items : rows) : result string (list bytes) :=
  match items with
  | [] => Ok []
  | Err e :: _ => Err e
  | Ok (key, _) :: rest =>
    if negb (has_prefix prefix key) then Ok []
    else keys ← collect_loop prefix pick rest; Ok (if pick key then key :: keys else keys)
  end.

Fixpoint remove_rows (keys : list bytes) : MetaM DB unit :=
  match keys with
  | [] => mret tt
  | k :: rest => _ ← write_batch [DeleteCf META_CF k]; remove_rows rest
  end.

Definition retain_series (keep : bytes -> bool) : MetaM DB unit :=
  modify (fun st => set_series (si_retain keep (md_series_known st)) (md_series_warmed st) st).

(** The predicate is not read. *)
Definition delete_series_matching (db rp : string) (meas : option string) (predicate_sql : string) : MetaM DB N :=
  let prefix := str_bytes "series:" ++ colon_joined (str_bytes <$> [db; rp] ++ option_list meas) in
  keys ← lift (fun st => collect_loop prefix (fun _ => true) (cf_scan (md_db st) META_CF prefix));
  _ ← remove_rows keys;
  _ ← retain_series (fun k => negb (has_prefix prefix k));
  mret (N.of_nat (length keys)).

Fixpoint range_loop (prefix : bytes) (start end_ : N) (items : rows) : result string (list bytes) :=
  match items with
  | [] => Ok []
  | Err e :: _ => Err e
  | Ok (key, _) :: rest =>
    match visit prefix end_ key with
    | Stop => Ok []
    | Skip => range_loop prefix start end_ rest
    | SeriesAt id =>
      keys ← range_loop prefix start end_ rest;
      Ok (if start <=? id then key :: keys else keys)
    end
  end.

Definition delete_series_in_range (db rp meas : string) (start end_ : N) : MetaM DB N :=
  let prefix := series_prefix db rp meas in
  keys ← lift (fun st => range_loop prefix start end_ (cf_scan (md_db st) META_CF prefix));
  _ ← remove_rows keys;
  _ ← retain_series (fun k =>
        match strip_prefix prefix k with
        | None => true
        | Some id_hex =>
          match from_str_radix 16 id_hex with Some id => (id <? start) || (end_ <=? id) | None => true end
        end);
  mret (N.of_nat (length keys)).

Definition warm_series : MetaM DB N :=
  keys ← lift (fun st => collect_loop (str_bytes "series:") utf8_valid (cf_scan (md_db st) META_CF (str_bytes "series:")));
  let keys : gset bytes := list_to_set keys in
  _ ← modify (fun st => set_series (si_replace keys (md_series_known st)) true st);
  mret (N.of_nat (size keys)).

Definition delete_measurement (db rp name : string) : MetaM DB unit :=
  _ ← write_batch [DeleteCf META_CF (meas_key db rp name)];
  series ← lift (fun st =>
    collect_loop (kind_prefix "series" db)
      (fun key => utf8_valid key &&
         match parse_series_storage_key key with
         | Some (kdb, _, kmeas, _) => bool_decide (kdb = str_bytes db) && bool_decide (kmeas = str_bytes name)
         | None => false
         end)
      (cf_scan (md_db st) META_CF (kind_prefix "series" db)));
  _ ← remove_rows series;
  _ ← modify (fun st => set_measurements (delete (meas_cache_key db rp name) (md_meas_cache st))
                          (delete db (md_meas_list_cache st)) st);
  _ ← modify (fun st =>
        set_tags (filter (fun k => has_prefix (tag_val_prefix db rp (Some name)) k = false) (md_tag_known st))
          (filter (fun kv => has_prefix (colon_joined (str_bytes <$> [db; rp; name])) kv.1 = false) (md_tag_count_cache st))
          (md_tag_counts_warmed st) st);
  modify (fun st => set_series (fold_left (fun idx k => (si_remove idx k).1) series (md_series_known st))
                      (md_series_warmed st) st).

(** The last byte of a prefix plus one: every prefix ends in [:]. *)
Definition prefix_end (prefix : bytes) : bytes :=
  match reverse prefix with
  | [] => []
  | c :: r => reverse ((c + 1) :: r)
  end.

Definition drop_database (name : string) : MetaM DB unit :=
  _ ← write_batch (DeleteCf META_CF (db_key name)
        :: ((fun kind => DeleteRangeCf META_CF (kind_prefix kind name) (prefix_end (kind_prefix kind name)))
             <$> ["meas"; "tag_val"; "series"]%string));
  _ ← modify (fun st => set_db_cache (delete name (md_db_cache st)) st);
  let prefix := colon_joined [str_bytes name] in
  _ ← modify (fun st =>
        set_measurements (filter (fun kv => has_prefix prefix kv.1 = false) (md_meas_cache st))
          (delete name (md_meas_list_cache st)) st);
  _ ← modify (fun st =>
        set_tags (filter (fun k => has_prefix (kind_prefix "tag_val" name) k = false) (md_tag_known st))
          (filter (fun kv => has_prefix prefix kv.1 = false) (md_tag_count_cache st)) (md_tag_counts_warmed st) st);
  retain_series (fun k => negb (has_prefix (kind_prefix "series" name) k)).

(** *** Tag values *)

(** Counts that are not cached are left out before the counts are warmed. *)
Definition bump_tag_count (warmed : bool) (counts : gmap bytes N) (ck : bytes) (delta : N) : gmap bytes N :=
  if warmed then <[ck := default 0 (counts !! ck) + delta]> counts
  else match counts !! ck with Some n => <[ck := n + delta]> counts | None => counts end.

(** How often a count is named by the keys. *)
Definition keys_per_count (storage_keys : list bytes) : gmap bytes N :=
  fold_left (fun per_key key =>
    match parse_tag_val_storage_key key with
    | Some (db, rp, meas, tag_key) =>
      let ck := tag_count_cache_key db rp meas tag_key in <[ck := default 0 (per_key !! ck) + 1]> per_key
    | None => per_key
    end) storage_keys ∅.

Definition bump_tag_counts_from_storage_keys (counts : gmap bytes N) (storage_keys : list bytes) (warmed : bool)
    : gmap bytes N :=
  map_fold (fun ck delta counts => bump_tag_count warmed counts ck delta) counts (keys_per_count storage_keys).

(** [multi_get_cf]: the keys without a row. *)
Fixpoint unstored (d : DB) (keys : list bytes) : result string (list bytes) :=
  match keys with
  | [] => Ok []
  | k :: rest =>
    stored ← cf_get d META_CF k;
    created ← unstored d rest;
    Ok (match stored with Some _ => created | None => k :: created end)
  end.

(** [TagValueWriter::write]. *)
Definition write_tag_values (batch : list (CfOp MetaCf)) (keys : list bytes) : MetaM DB unit :=
  created ← lift (fun st => unstored (md_db st) keys);
  _ ← write_batch (batch ++ ((fun k => PutCf META_CF k "1") <$> created));
  modify (fun st =>
    set_tags (list_to_set keys ∪ md_tag_known st)
      (bump_tag_counts_from_storage_keys (md_tag_count_cache st) created (md_tag_counts_warmed st))
      (md_tag_counts_warmed st) st).

Definition store_tag_values_batch (db rp meas : string) (entries : list (string * string)) : MetaM DB unit := fun st =>
  let keys := (fun e => tag_val_storage_key db rp meas e.1 e.2) <$> entries in
  match List.filter (fun k => negb (bool_decide (k ∈ md_tag_known st))) keys with
  | [] => (st, Ok tt)
  | novel => write_tag_values [] novel st
  end.

Definition store_tag_value (db rp meas tag_key tag_value : string) : MetaM DB unit :=
  store_tag_values_batch db rp meas [(tag_key, tag_value)].

(** The key and the value of a row under a tag prefix. *)
Definition tag_of_rest (whole : bool) (rest : bytes) : option (bytes * bytes) :=
  if whole then match splitn 3 rest with [_; k; v] => Some (k, v) | _ => None end
  else match splitn 2 rest with [k; v] => Some (k, v) | _ => None end.

Fixpoint tag_values_loop (prefix : bytes) (whole : bool) (tag_key : bytes) (items : rows) : result string (gset bytes) :=
  match items with
  | [] => Ok ∅
  | Err e :: _ => Err e
  | Ok (key, _) :: rest =>
    if negb (has_prefix prefix key) then Ok ∅
    else
      values ← tag_values_loop prefix whole tag_key rest;
      let s := drop (length prefix) key in
      Ok (if utf8_valid s then
            match tag_of_rest whole s with
            | Some (k, v) => if bool_decide (k = tag_key) then {[ v ]} ∪ values else values
            | None => values
            end
          else values)
  end.

Definition list_tag_values (db rp tag_key : string) (meas : option string) (st : St) : result string (list bytes) :=
  let prefix := tag_val_prefix db rp meas in
  values ← tag_values_loop prefix (bool_decide (meas = None)) (str_bytes tag_key) (cf_scan (md_db st) META_CF prefix);
  Ok (sort_by bytes_leb (elements values)).

Definition ends_with (suffix k : bytes) : bool := has_prefix (reverse suffix) (reverse k).

(** Over all measurements the cached counts of the database are summed, and
    only without any are the values listed. *)
Definition count_tag_values (db rp tag_key : string) (meas : option string) : MetaM DB N := fun st =>
  match meas with
  | Some meas =>
    let ck := tag_count_cache_key (str_bytes db) (str_bytes rp) (str_bytes meas) (str_bytes tag_key) in
    match md_tag_count_cache st !! ck with
    | Some n => (st, Ok n)
    | None =>
      (values ← lift (list_tag_values db rp tag_key (Some meas));
       let n := N.of_nat (length values) in
       _ ← modify (fun st => set_tags (md_tag_known st) (<[ck := n]> (md_tag_count_cache st)) (md_tag_counts_warmed st) st);
       mret n : MetaM DB N) st
    end
  | None =>
    let cached := map_fold (fun k n acc =>
      if has_prefix (colon_joined [str_bytes db]) k && ends_with ([sep] ++ str_bytes tag_key) k then n + acc else acc) 0
      (md_tag_count_cache st) in
    if 0 <? cached then (st, Ok cached)
    else (values ← lift (list_tag_values db rp tag_key None); mret (N.of_nat (length values)) : MetaM DB N) st
  end.

Definition warm_tag_value_counts : MetaM DB N :=
  keys ← lift (fun st => collect_loop (str_bytes "tag_val:")
                 (fun k => utf8_valid k && bool_decide (is_Some (parse_tag_val_storage_key k)))
                 (cf_scan (md_db st) META_CF (str_bytes "tag_val:")));
  let counts := keys_per_count keys in
  _ ← modify (fun st => set_tags (list_to_set keys ∪ md_tag_known st) counts true st);
  mret (N.of_nat (size counts)).

(** [open]: the caches are empty. *)
Definition open_metadata (d : DB) : St := mkStore d 0 ∅ ∅ ∅ ∅ false si_empty false ∅.
End Calls.
