(* ===== verification/MetaSeries.v ===== *)
(** * The series of the metadata store

    What the store answers about series is what was registered and not
    deleted since, whatever the order of the calls and the restarts between
    them, and the counts of the index agree with its keys. *)

From stdpp Require Import prelude list sorting gmap fin_sets fin_maps strings.
From S2P Require Import Prelude Bytes CfStore Wire QueryAst ColumnNaming CqSchedule MetaStore.
From stdpp Require Import options.

#[local] Open Scope N_scope.

(** ** What the store promises *)

(** A registered series: database, policy, measurement and id. *)
Definition Series : Type := string * string * string * N.

Definition series_row (x : Series) : bytes :=
  let '(db, rp, meas, id) := x in series_storage_key db rp meas id.

(** Names as the keys assume them. *)
Definition name_ok (s : string) : Prop := (sep ∉ str_bytes s) /\ utf8 s.

Inductive SeriesCall :=
| RegisterSeries (db rp meas : string) (series : list (N * gmap string string))
| DeleteRange (db rp meas : string) (start end_ : N)
| DeleteMatching (db rp : string) (meas : option string) (predicate : string)
| DeleteMeasurement (db rp meas : string)
| DropDb (db : string)
| CreateDb (stmt : CreateDatabaseStatement)
| CreateRp (db : string) (rp : RetentionPolicy)
| DropRp (db rp : string)
| AlterRp (db rp : string) (change : RetentionPolicyChange)
| StoreTags (db rp meas : string) (entries : list (string * string))
| WarmSeries
| Reopen.

Definition call_ok (c : SeriesCall) : Prop :=
  match c with
  | RegisterSeries db rp meas series => name_ok db /\ name_ok rp /\ name_ok meas /\ Forall (fun s => s.1 < u64_max) series
  | DeleteRange db rp meas start end_ => name_ok db /\ name_ok rp /\ name_ok meas /\ end_ <= u64_max
  | DeleteMatching db rp meas _ => name_ok db /\ name_ok rp /\ forall m, meas = Some m -> name_ok m
  | DeleteMeasurement db rp meas => name_ok db /\ name_ok rp /\ name_ok meas
  | DropDb db => name_ok db
  | _ => True
  end.

#[export] Instance name_ok_dec s : Decision (name_ok s).
Proof. unfold name_ok, utf8. apply _. Defined.

#[export] Instance call_ok_dec c : Decision (call_ok c).
Proof.
  destruct c as [| |db rp [m|] p| | | | | | | | |]; cbn [call_ok]; try apply _.
  - destruct (decide (name_ok db /\ name_ok rp /\ name_ok m)) as [Hd|Hd]; [left|right].
    + destruct Hd as (? & ? & ?); split_and!; [done..|by intros ? [= <-]].
    + intros (? & ? & ?); apply Hd; split_and!; auto.
  - destruct (decide (name_ok db /\ name_ok rp)) as [Hd|Hd]; [left|right].
    + by destruct Hd.
    + intros (? & ? & _); by apply Hd.
Defined.

(** The effect of a call on the set of series. *)
Definition call_spec (S : gset Series) (c : SeriesCall) : gset Series :=
  match c with
  | RegisterSeries db rp meas series => list_to_set ((fun s => (db, rp, meas, s.1)) <$> series) ∪ S
  | DeleteRange db rp meas start end_ =>
    filter (fun x : Series => ~ (x.1 = (db, rp, meas) /\ start <= x.2 < end_)) S
  | DeleteMatching db rp None _ => filter (fun x : Series => ~ x.1.1 = (db, rp)) S
  | DeleteMatching db rp (Some meas) _ => filter (fun x : Series => ~ x.1 = (db, rp, meas)) S
  | DeleteMeasurement db _ meas => filter (fun x : Series => ~ (x.1.1.1 = db /\ x.1.2 = meas)) S
  | DropDb db => filter (fun x : Series => ~ x.1.1.1 = db) S
  | _ => S
  end.

(** The ids of a measurement in a range, in order. *)
Definition ids_in (S : gset Series) (db rp meas : string) (start end_ : N) : list N :=
  sort_by N.leb
    (elements (set_map snd (filter (fun x : Series => x.1 = (db, rp, meas) /\ start <= x.2 < end_) S) : gset N)).

Section Run.
Context {DB : Type} `{CDB : !CfDb MetaCf DB} `{MC : !MetaCodec}.

Definition unit_call {A} (m : MetaM DB A) : MetaM DB unit := _ ← m; mret tt.

Definition run_call (c : SeriesCall) : MetaM DB unit :=
  match c with
  | RegisterSeries db rp meas series => register_series_batch db rp meas series
  | DeleteRange db rp meas start end_ => unit_call (delete_series_in_range db rp meas start end_)
  | DeleteMatching db rp meas predicate => unit_call (delete_series_matching db rp meas predicate)
  | DeleteMeasurement db rp meas => delete_measurement db rp meas
  | DropDb db => drop_database db
  | CreateDb stmt => create_database_with stmt
  | CreateRp db rp => create_retention_policy db rp
  | DropRp db rp => drop_retention_policy db rp
  | AlterRp db rp change => alter_retention_policy db rp change
  | StoreTags db rp meas entries => store_tag_values_batch db rp meas entries
  | WarmSeries => unit_call warm_series
  | Reopen => modify (fun st => open_metadata (md_db st))
  end.

Fixpoint run_calls (cs : list SeriesCall) : MetaM DB unit :=
  match cs with
  | [] => mret tt
  | c :: rest => _ ← run_call c; run_calls rest
  end.
End Run.

(** ** Keys *)


Lemma utf8_app a b : utf8_valid a = true -> utf8_valid (a ++ b) = utf8_valid b.
Proof.
  remember (length a) as n eqn:Hn. revert a Hn. induction n as [n IH] using lt_wf_ind. intros a -> Ha.
  destruct a as [|b0 a]; [done|]. cbn [utf8_valid app] in *. destruct (b0 <? 128); [by apply (IH (length a)); cbn; [lia|..]|].
  destruct a as [|b1 a]; [done|]. cbn [app]. destruct (_ && _).
  { apply andb_true_iff in Ha as [-> Ha]. cbn [andb]. by apply (IH (length a)); cbn; [lia|..]. }
  destruct a as [|b2 a]; [done|]. cbn [app]. destruct (_ && _).
  { rewrite !andb_true_iff in Ha. destruct Ha as [[-> ->] Ha]. cbn [andb]. by apply (IH (length a)); cbn; [lia|..]. }
  destruct a as [|b3 a]; [done|]. cbn [app]. apply andb_true_iff in Ha as [-> Ha]. cbn [andb].
  by apply (IH (length a)); cbn; [lia|..].
Qed.

Lemma utf8_join ns b : Forall utf8 ns -> utf8_valid (colon_joined (str_bytes <$> ns) ++ b) = utf8_valid b.
Proof.
  induction 1 as [|s ns Hs _ IH]; [done|]. rewrite fmap_cons. cbn [colon_joined]. rewrite <-!(assoc_L (++)).
  rewrite utf8_app by done. exact IH.
Qed.

(** The first colon after text without one is found. *)
Lemma colon_inj a a' x x' : sep ∉ a -> sep ∉ a' -> a ++ [sep] ++ x = a' ++ [sep] ++ x' -> a = a' /\ x = x'.
Proof.
  revert a'. induction a as [|c a IH]; intros [|c' a'] Ha Ha' E; cbn in E; simplify_eq.
  - done.
  - set_solver.
  - set_solver.
  - destruct (IH a') as [-> ->]; [set_solver..|done|done].
Qed.

Lemma join_prefix ns ns' rest :
  Forall (fun a => sep ∉ a) ns -> Forall (fun a => sep ∉ a) ns' -> (length ns <= length ns')%nat ->
  has_prefix (colon_joined ns) (colon_joined ns' ++ rest) = true <-> ns = take (length ns) ns'.
Proof.
  intros Hns. revert ns'. induction Hns as [|a ns Ha Hns IH]; intros ns' Hns' Hl; [done|].
  destruct ns' as [|a' ns']; [cbn in Hl; lia|]. apply Forall_cons in Hns' as [Ha' Hns']. cbn in Hl.
  specialize (IH ns' Hns' ltac:(lia)). cbn [colon_joined length take].
  split.
  - intros (k & E)%has_prefix_true. rewrite <-!(assoc_L (++)) in E. apply colon_inj in E as [-> E]; [|done..].
    f_equal. apply IH. apply has_prefix_true. by exists k.
  - intros [= -> E]. apply IH in E. apply has_prefix_true in E as (k & E). apply has_prefix_true. exists k.
    by rewrite <-!(assoc_L (++)), E.
Qed.

Lemma join_app ns ns' : colon_joined (ns ++ ns') = colon_joined ns ++ colon_joined ns'.
Proof. induction ns as [|a ns IH]; [done|]. cbn [app colon_joined]. by rewrite IH, <-!(assoc_L (++)). Qed.

Lemma join_last ns a : exists p, colon_joined (ns ++ [a]) = p ++ [sep].
Proof. rewrite join_app. exists (colon_joined ns ++ a). cbn. by rewrite (assoc_L (++)). Qed.

Lemma hex16_sep n : sep ∉ hex16 n.
Proof.
  unfold hex16. generalize 16%nat. intros k. induction k as [|k IH]; cbn [digits]; [set_solver|].
  intros [E|]%elem_of_cons; [|done]. unfold hex_char, sep in E. set (d := _ mod 16) in E. clearbody d.
  destruct (N.ltb_spec d 10); lia.
Qed.

Lemma rfind_none s : sep ∉ s -> rfind s = None.
Proof.
  induction s as [|c s IH]; [done|]. intros H. cbn. rewrite IH by set_solver.
  destruct (N.eqb_spec c sep); [set_solver|done].
Qed.

Lemma rfind_last p s : sep ∉ s -> rfind (p ++ [sep] ++ s) = Some (length p).
Proof.
  intros Hs. induction p as [|c p IH]; cbn [app rfind length]; [by rewrite rfind_none|].
  cbn [app] in IH. by rewrite IH.
Qed.

Lemma prefix_of_last p s : sep ∉ s -> prefix_of ((p ++ [sep]) ++ s) = p ++ [sep].
Proof.
  intros Hs. unfold prefix_of. rewrite <-(assoc_L (++)), rfind_last by done.
  rewrite (assoc_L (++)). rewrite take_app_length'; [done|]. rewrite length_app. cbn. lia.
Qed.

Lemma split_once_colon a x : sep ∉ a -> split_once (a ++ [sep] ++ x) = Some (a, x).
Proof.
  induction a as [|c a IH]; intros H; cbn [app split_once]; [done|].
  destruct (N.eqb_spec c sep); [set_solver|]. cbn [app] in IH. by rewrite IH by set_solver.
Qed.

Lemma splitn_joined ns rest : Forall (fun a => sep ∉ a) ns -> splitn (S (length ns)) (colon_joined ns ++ rest) = ns ++ [rest].
Proof.
  induction 1 as [|a ns Ha _ IH]; [done|]. cbn [colon_joined length]. rewrite <-!(assoc_L (++)).
  change (splitn (S (S ?n)) ?s) with (match split_once s with None => [s] | Some (a, b) => a :: splitn (S n) b end).
  rewrite split_once_colon by done. by rewrite IH.
Qed.

(** Series names, all as the keys assume them. *)
Definition names_ok (x : string * string * string) : Prop := name_ok x.1.1 /\ name_ok x.1.2 /\ name_ok x.2.

Definition prefix_key (x : string * string * string) : bytes := series_prefix x.1.1 x.1.2 x.2.

Lemma row_key_prefix x : series_row x = prefix_key x.1 ++ hex16 x.2.
Proof. destruct x as [[[db rp] meas] id]. unfold prefix_key, series_prefix, series_row, series_storage_key. cbn [fst snd]. by rewrite <-(assoc_L (++)). Qed.

Lemma prefix_of_row_key x : prefix_of (series_row x) = prefix_key x.1.
Proof.
  rewrite row_key_prefix. destruct x as [[[db rp] meas] id]. unfold prefix_key, series_prefix. cbn [fst snd].
  destruct (join_last [str_bytes db; str_bytes rp] (str_bytes meas)) as [p Hp].
  change (str_bytes <$> [db; rp; meas]) with ([str_bytes db; str_bytes rp] ++ [str_bytes meas]).
  rewrite Hp, (assoc_L (++) _ p). apply prefix_of_last, hex16_sep.
Qed.

Lemma prefix_key_inj x y : names_ok x -> names_ok y -> prefix_key x = prefix_key y -> x = y.
Proof.
  destruct x as [[a b] c], y as [[a' b'] c']. intros ([Ha _] & [Hb _] & [Hc _]) ([Ha' _] & [Hb' _] & [Hc' _]) E. cbn [fst snd] in *.
  unfold prefix_key, series_prefix in E. apply app_inv_head in E. rewrite !fmap_cons in E. cbn [colon_joined fmap list_fmap] in E.
  apply colon_inj in E as [Ea%str_bytes_inj E]; [|done..]. apply colon_inj in E as [Eb%str_bytes_inj E]; [|done..].
  apply colon_inj in E as [Ec%str_bytes_inj _]; [|done..]. cbn [fst snd] in *. congruence.
Qed.

Lemma utf8_row_key x : names_ok x.1 -> utf8_valid (series_row x) = true.
Proof.
  destruct x as [[[a b] c] id]. intros ([_ Ha] & [_ Hb] & [_ Hc]). unfold series_row, series_storage_key. cbn [fst snd] in *.
  rewrite utf8_app by done. rewrite utf8_join by (by repeat constructor). apply utf8_ascii, hex16_ascii.
Qed.

Lemma parse_row_key db rp meas id :
  names_ok (db, rp, meas) -> id <= u64_max ->
  parse_series_storage_key (series_row (db, rp, meas, id)) = Some (str_bytes db, str_bytes rp, str_bytes meas, id).
Proof.
  intros ([Ha _] & [Hb _] & [Hc _]) Hid. cbn [fst snd] in *. unfold parse_series_storage_key, series_row, series_storage_key.
  rewrite strip_prefix_app. cbn [mbind option_bind].
  pose proof (splitn_joined (str_bytes <$> [db; rp; meas]) (hex16 id)
    ltac:(rewrite !fmap_cons, !Forall_cons; split_and!; done)) as E.
  cbn [fmap list_fmap length] in E. cbn [fmap list_fmap]. rewrite E. cbn. by rewrite hex16_roundtrip.
Qed.

(** ** The index *)

(** The counts are those of the keys, and only of prefixes with keys. *)
Definition index_ok (idx : SeriesIndex) : Prop :=
  forall p, let n := N.of_nat (size (filter (fun k => prefix_of k = p) (si_keys idx))) in
    si_counts idx !! p = if n =? 0 then None else Some n.

Lemma index_count idx p : index_ok idx -> si_count idx p = N.of_nat (size (filter (fun k => prefix_of k = p) (si_keys idx))).
Proof. intros H. unfold si_count. rewrite H. cbn zeta. destruct (N.eqb_spec (N.of_nat (size (filter (fun k => prefix_of k = p) (si_keys idx)))) 0); cbn; lia. Qed.

Lemma keys_insert (K : gset bytes) k p :
  k ∉ K -> size (filter (fun k => prefix_of k = p) ({[ k ]} ∪ K))
           = (size (filter (fun k => prefix_of k = p) K) + if bool_decide (prefix_of k = p) then 1 else 0)%nat.
Proof.
  intros Hk. case_bool_decide as E.
  - replace (filter _ ({[ k ]} ∪ K)) with ({[ k ]} ∪ filter (fun k => prefix_of k = p) K) by set_solver.
    rewrite size_union by set_solver. rewrite size_singleton. lia.
  - replace (filter _ ({[ k ]} ∪ K)) with (filter (fun k => prefix_of k = p) K) by set_solver. lia.
Qed.

Lemma index_insert K C k :
  k ∉ K -> index_ok (mkIndex K C) -> index_ok (mkIndex ({[ k ]} ∪ K) (si_increment C (prefix_of k))).
Proof.
  intros Hk H p. cbn [si_keys si_counts]. specialize (H p). cbn [si_keys si_counts] in H. rewrite keys_insert by done.
  cbn zeta in *. unfold si_increment. set (n := size (filter (fun k => prefix_of k = p) K)) in *. case_bool_decide as E.
  - rewrite E, lookup_insert_eq, H. destruct (N.eqb_spec (N.of_nat n) 0), (N.eqb_spec (N.of_nat (n + 1)) 0); cbn; f_equal; lia.
  - rewrite lookup_insert_ne by done. by rewrite Nat.add_0_r.
Qed.

Lemma index_remove K C k :
  k ∈ K -> index_ok (mkIndex K C) -> index_ok (mkIndex (K ∖ {[ k ]}) (si_decrement C (prefix_of k))).
Proof.
  intros Hk H p. pose proof (keys_insert (K ∖ {[ k ]}) k p ltac:(set_solver)) as Hs.
  replace ({[ k ]} ∪ K ∖ {[ k ]}) with K in Hs by (apply union_difference_L; set_solver).
  pose proof (H p) as Hp. pose proof (H (prefix_of k)) as Hq. cbn [si_keys si_counts] in *. cbn zeta in *.
  set (n := size (filter (fun k => prefix_of k = p) K)) in *.
  set (n' := size (filter (fun k => prefix_of k = p) (K ∖ {[ k ]}))) in *. unfold si_decrement. case_bool_decide as E.
  - rewrite E in *. fold n in Hq. rewrite Hp. destruct (N.eqb_spec (N.of_nat n) 0); [lia|].
    destruct (N.eqb_spec (N.of_nat n - 1) 0), (N.eqb_spec (N.of_nat n') 0); try lia;
      rewrite ?lookup_delete_eq, ?lookup_insert_eq; [done|f_equal; lia].
  - replace n' with n by lia. rewrite <-Hp. destruct (C !! prefix_of k) as [m|]; [|done].
    destruct (m - 1 =? 0); [by rewrite lookup_delete_ne by done|by rewrite lookup_insert_ne by done].
Qed.

Lemma index_remove_all K C ks :
  NoDup ks -> (forall k, k ∈ ks -> k ∈ K) -> index_ok (mkIndex K C) ->
  index_ok (mkIndex (K ∖ list_to_set ks) (fold_left (fun c k => si_decrement c (prefix_of k)) ks C)).
Proof.
  intros Hnd. revert K C. induction Hnd as [|k ks Hk Hnd IH]; intros K C Hin H; cbn [fold_left list_to_set foldr].
  { by rewrite difference_empty_L. }
  rewrite <-difference_difference_l_L. apply IH; [|apply index_remove; [apply Hin; by left|done]].
  intros k' Hk'. apply elem_of_difference. split; [apply Hin; by right|]. intros ->%elem_of_singleton. done.
Qed.

Lemma index_retain keep idx : index_ok idx -> index_ok (si_retain keep idx).
Proof.
  intros H. unfold si_retain.
  replace (filter (fun k => keep k = true) (si_keys idx))
    with (si_keys idx ∖ list_to_set (elements (filter (fun k => keep k = false) (si_keys idx)))).
  - apply index_remove_all; [apply NoDup_elements|set_solver|by destruct idx].
  - rewrite list_to_set_elements_L. apply set_eq. intros k. rewrite elem_of_difference, !elem_of_filter.
    destruct (keep k); naive_solver.
Qed.

Lemma index_add_all K C ks :
  NoDup ks -> (forall k, k ∈ ks -> k ∉ K) -> index_ok (mkIndex K C) ->
  index_ok (mkIndex (list_to_set ks ∪ K) (fold_left (fun c k => si_increment c (prefix_of k)) ks C)).
Proof.
  intros Hnd. revert K C. induction Hnd as [|k ks Hk Hnd IH]; intros K C Hin H; cbn [fold_left list_to_set foldr].
  { by rewrite (left_id_L ∅ (∪)). }
  replace ({[ k ]} ∪ list_to_set ks ∪ K) with (list_to_set ks ∪ ({[ k ]} ∪ K)) by set_solver.
  apply IH; [|apply index_insert; [apply Hin; by left|done]]. intros k' Hk' [->%elem_of_singleton|]%elem_of_union; [done|].
  by apply (Hin k'); [right|].
Qed.

Lemma index_empty : index_ok si_empty.
Proof.
  intros p. cbn [si_keys si_counts si_empty]. rewrite lookup_empty.
  replace (filter _ (∅ : gset bytes)) with (∅ : gset bytes) by set_solver. by rewrite size_empty.
Qed.

Lemma index_replace keys idx : index_ok (si_replace keys idx).
Proof.
  unfold si_replace. pose proof (index_add_all ∅ ∅ (elements keys) (NoDup_elements keys) ltac:(set_solver) index_empty) as H.
  by rewrite list_to_set_elements_L, (right_id_L ∅ (∪)) in H.
Qed.

Lemma si_insert_spec idx k : index_ok idx -> index_ok (si_insert idx k).1 /\ si_keys (si_insert idx k).1 = {[ k ]} ∪ si_keys idx.
Proof.
  intros H. unfold si_insert, si_contains. case_bool_decide as E; cbn; [split; [done|set_solver]|].
  split; [|done]. apply index_insert; [done|by destruct idx].
Qed.

Lemma si_remove_spec idx k : index_ok idx -> index_ok (si_remove idx k).1 /\ si_keys (si_remove idx k).1 = si_keys idx ∖ {[ k ]}.
Proof.
  intros H. unfold si_remove, si_contains. case_bool_decide as E; cbn; [|split; [done|set_solver]].
  split; [|done]. apply index_remove; [done|by destruct idx].
Qed.

Lemma si_insert_all {A} (f : A -> bytes) l idx :
  index_ok idx ->
  let idx' := fold_left (fun idx x => (si_insert idx (f x)).1) l idx in
  index_ok idx' /\ si_keys idx' = list_to_set (f <$> l) ∪ si_keys idx.
Proof.
  revert idx. induction l as [|x l IH]; intros idx H; cbn [fold_left]; [cbn; split; [done|set_solver]|].
  destruct (si_insert_spec idx (f x) H) as [H' E]. destruct (IH _ H') as [H'' E']. split; [done|]. cbn zeta in *.
  rewrite E', E, fmap_cons. cbn. set_solver.
Qed.

Lemma si_remove_all l idx :
  index_ok idx ->
  let idx' := fold_left (fun idx k => (si_remove idx k).1) l idx in
  index_ok idx' /\ si_keys idx' = si_keys idx ∖ list_to_set l.
Proof.
  revert idx. induction l as [|x l IH]; intros idx H; cbn [fold_left]; [cbn; split; [done|set_solver]|].
  destruct (si_remove_spec idx x H) as [H' E]. destruct (IH _ H') as [H'' E']. split; [done|]. cbn zeta in *.
  rewrite E', E. cbn. set_solver.
Qed.

(** ** Scans *)

Definition id_in (start end_ i : N) : bool := (start <=? i) && (i <? end_).

Section Loops.
Context `{MC : !MetaCodec} (P : bytes) (HP : utf8_valid P = true).

#[local] Abbreviation row_of := (fun iv : N * string => (P ++ hex16 iv.1, iv.2)).

(** Rows of a scan: series in the order of their ids, then other keys. *)
Definition scanned (l : list (bytes * string)) (L : list (N * string)) : Prop :=
  StronglySorted N.lt L.*1 /\ Forall (fun i => i < u64_max) L.*1 /\
  exists tail, l = (row_of <$> L) ++ tail /\ forall k v t, tail = (k, v) :: t -> has_prefix P k = false.

Lemma scanned_cons l i v L : scanned l ((i, v) :: L) ->
  i < u64_max /\ (forall j, j ∈ L.*1 -> i < j) /\ exists l', l = (P ++ hex16 i, v) :: l' /\ scanned l' L.
Proof using Type.
  intros (Hs & Hb & tail & -> & Ht). rewrite fmap_cons in Hs, Hb. apply StronglySorted_inv in Hs as [Hs Hi].
  apply Forall_cons in Hb as [Hib Hb]. rewrite Forall_forall in Hi. split; [done|]. split; [done|].
  eexists. split; [reflexivity|]. split; [done|]. split; [done|]. by exists tail.
Qed.

Lemma scanned_nil l : scanned l [] -> l = [] \/ exists k v t, l = (k, v) :: t /\ has_prefix P k = false.
Proof using Type.
  intros (_ & _ & tail & -> & Ht). destruct tail as [|[k v] t]; [by left|right]. exists k, v, t. split; [done|by eapply Ht].
Qed.

Lemma visit_row end_ i : i < u64_max -> visit P end_ (P ++ hex16 i) = if end_ <=? i then Stop else SeriesAt i.
Proof using HP.
  intros Hi. unfold visit. rewrite has_prefix_app, utf8_app by done. rewrite (utf8_ascii (hex16 i)) by apply hex16_ascii.
  cbn [negb]. rewrite drop_app_length, hex16_roundtrip by lia. done.
Qed.

Lemma past_end start end_ i (L : list N) :
  end_ <= i -> (forall j, j ∈ L -> i < j) -> List.filter (id_in start end_) (i :: L) = [].
Proof using Type.
  intros Hi Hj. apply elem_of_nil_inv. intros j [Hin Hr]%filterb_elem_of. unfold id_in in Hr.
  apply andb_true_iff in Hr as [_ Hr%N.ltb_lt]. apply elem_of_cons in Hin as [-> |Hin%Hj]; lia.
Qed.

Lemma filter_id_in start end_ i (L : list N) :
  i < end_ -> List.filter (id_in start end_) (i :: L)
              = if start <=? i then i :: List.filter (id_in start end_) L else List.filter (id_in start end_) L.
Proof using Type. intros Hi%N.ltb_lt. cbn [List.filter]. unfold id_in at 1. rewrite Hi, andb_true_r. done. Qed.

#[local] Ltac series_loop L l :=
  revert l; induction L as [|[i v] L IH]; intros l Hl;
  [destruct (scanned_nil l Hl) as [-> |(k & v & t & -> & Hk)]; [done|];
   rewrite fmap_cons; cbn; unfold visit; by rewrite Hk|];
  destruct (scanned_cons l i v L Hl) as (Hi & Hj & l' & -> & Hl'); rewrite !fmap_cons; cbn [fst].

Lemma scan_loop_rows start end_ l L :
  scanned l L -> scan_loop P start end_ (Ok <$> l) = Ok (List.filter (id_in start end_) L.*1).
Proof using HP.
  series_loop L l. cbn [scan_loop]. rewrite visit_row by done. destruct (N.leb_spec end_ i).
  - by rewrite past_end.
  - rewrite (IH l' Hl'). cbn [mbind result_bind]. by rewrite filter_id_in.
Qed.

Lemma count_loop_rows start end_ l L count :
  scanned l L -> count + N.of_nat (length (List.filter (id_in start end_) L.*1)) <= u64_max ->
  count_loop P start end_ count (Ok <$> l) = Ok (count + N.of_nat (length (List.filter (id_in start end_) L.*1))).
Proof using HP.
  intros Hl. revert count. revert Hl. revert l. induction L as [|[i v] L IH]; intros l Hl count Hc.
  { destruct (scanned_nil l Hl) as [-> |(k & v & t & -> & Hk)]; [cbn; f_equal; lia|].
    rewrite fmap_cons. cbn. unfold visit. rewrite Hk. cbn. f_equal. lia. }
  destruct (scanned_cons l i v L Hl) as (Hi & Hj & l' & -> & Hl'). rewrite !fmap_cons in *. cbn [fst] in *.
  cbn [count_loop]. rewrite visit_row by done. destruct (N.leb_spec end_ i).
  - rewrite past_end by done. cbn. f_equal. lia.
  - rewrite filter_id_in in * by done. unfold sat_succ. destruct (start <=? i); cbn [length] in *; rewrite (IH l' Hl') by lia; f_equal; lia.
Qed.

Lemma nth_loop_rows start end_ n seen l L :
  scanned l L -> seen <= n -> n < u64_max ->
  nth_loop P start end_ n seen (Ok <$> l) = Ok (List.filter (id_in start end_) L.*1 !! N.to_nat (n - seen)).
Proof using HP.
  intros Hl. revert seen. revert Hl. revert l. induction L as [|[i v] L IH]; intros l Hl seen Hs Hn.
  { destruct (scanned_nil l Hl) as [-> |(k & v & t & -> & Hk)]; [done|]. rewrite fmap_cons. cbn. unfold visit. by rewrite Hk. }
  destruct (scanned_cons l i v L Hl) as (Hi & Hj & l' & -> & Hl'). rewrite !fmap_cons. cbn [fst].
  cbn [nth_loop]. rewrite visit_row by done. destruct (N.leb_spec end_ i); [by rewrite past_end|].
  rewrite filter_id_in by done. destruct (start <=? i); [|by apply IH]. destruct (N.eqb_spec seen n) as [-> |Hne].
  - by rewrite N.sub_diag.
  - unfold sat_succ. rewrite (IH l' Hl') by lia. replace (N.to_nat (n - seen)) with (S (N.to_nat (n - N.min (seen + 1) u64_max))) by lia. done.
Qed.

Lemma range_loop_rows start end_ l L :
  scanned l L ->
  range_loop P start end_ (Ok <$> l) = Ok ((fun i => P ++ hex16 i) <$> List.filter (id_in start end_) L.*1).
Proof using HP.
  series_loop L l. cbn [range_loop]. rewrite visit_row by done. destruct (N.leb_spec end_ i).
  - by rewrite past_end.
  - rewrite (IH l' Hl'). cbn [mbind result_bind]. rewrite filter_id_in by done. by destruct (start <=? i).
Qed.
End Loops.

(** A scan of rows whose keys under a prefix are series. *)
Lemma split_scanned P (l : list (bytes * string)) :
  StronglySorted (fun a b => bytes_ltb a.1 b.1 = true) l ->
  (forall k v, (k, v) ∈ l -> bytes_leb P k = true) ->
  (forall k v, (k, v) ∈ l -> has_prefix P k = true -> exists i, i < u64_max /\ k = P ++ hex16 i) ->
  exists L, scanned P l L /\ forall i, i ∈ L.*1 <-> i < u64_max /\ exists v, (P ++ hex16 i, v) ∈ l.
Proof.
  induction 1 as [|[k v] l Hl IH Hk]; intros Hle Hser.
  { exists []. split; [split; [constructor|]; split; [constructor|]; by exists []|]. intros i. cbn. set_solver. }
  destruct IH as (L & (HL & HLb & tail & El & Ht) & HLi); [intros; eapply Hle; by right|intros; eapply Hser; [by right|done]|].
  rewrite Forall_forall in Hk. destruct (has_prefix P k) eqn:E.
  - destruct (Hser k v) as (i & Hi & ->); [by left|done|]. exists ((i, v) :: L).
    assert (forall j, j ∈ L.*1 -> i < j) as Hlt.
    { intros j [Hj (w & Hw)]%HLi. specialize (Hk _ Hw). cbn in Hk. rewrite bytes_ltb_app, hex16_ltb in Hk by lia. by apply N.ltb_lt. }
    split.
    + split; [rewrite fmap_cons; constructor; [done|by apply Forall_forall]|]. split; [rewrite fmap_cons; by constructor|].
      exists tail. split; [by rewrite El|done].
    + intros j. rewrite fmap_cons, elem_of_cons, HLi. cbn [fst]. split.
      * intros [-> |(? & w & ?)]; [split; [done|exists v; by left]|split; [done|exists w; by right]].
      * intros (Hj & w & [E'|]%elem_of_cons); [left|right; eauto]. injection E' as E' _. apply app_inv_head, hex16_inj in E'; [done|lia..].
  - exists []. split; [split; [constructor|]; split; [constructor|]|].
    + exists ((k, v) :: l). split; [done|]. by intros ? ? ? [= <- <- <-].
    + intros i. split; [by intros ?%elem_of_nil|]. intros (Hi & w & [[= E' _]|Hw]%elem_of_cons); exfalso.
      * by rewrite <-E', has_prefix_app in E.
      * specialize (Hk _ Hw). cbn in Hk. rewrite (prefix_convex P k (P ++ hex16 i)) in E; [done|eapply Hle; by left|done|apply has_prefix_app].
Qed.

(** ** The store and the set of series *)

Definition series_text : bytes := str_bytes "series:".

Lemma has_prefix_same p a b : has_prefix (p ++ a) (p ++ b) = has_prefix a b.
Proof. induction p as [|x p IH]; [done|]. cbn. by rewrite N.eqb_refl. Qed.

Lemma has_prefix_weaken p q k : has_prefix (p ++ q) k = true -> has_prefix p k = true.
Proof. intros (k' & ->)%has_prefix_true. rewrite <-(assoc_L (++)). apply has_prefix_app. Qed.

Lemma series_row_text x : has_prefix series_text (series_row x) = true.
Proof. destruct x as [[[db rp] meas] id]. apply has_prefix_app. Qed.

(** Which series a prefix of names has. *)
Lemma names_prefix ns db rp meas id :
  Forall name_ok ns -> names_ok (db, rp, meas) -> (length ns <= 3)%nat ->
  has_prefix (series_text ++ colon_joined (str_bytes <$> ns)) (series_row (db, rp, meas, id)) = true
  <-> ns = take (length ns) [db; rp; meas].
Proof.
  intros Hns ([Ha _] & [Hb _] & [Hc _]) Hl. cbn [fst snd] in *. unfold series_row, series_storage_key.
  unfold series_text. rewrite has_prefix_same. rewrite join_prefix.
  - rewrite length_fmap, <-fmap_take. split; [|by intros <-].
    apply (list_fmap_eq_inj str_bytes). intros ? ?. apply str_bytes_inj.
  - apply Forall_fmap. eapply Forall_impl; [exact Hns|]. by intros s [? _].
  - rewrite !fmap_cons, !Forall_cons. split_and!; done.
  - rewrite length_fmap. exact Hl.
Qed.

Lemma collect_loop_rows P pick (l : list (bytes * string)) :
  collect_loop P pick (Ok <$> l) = Ok (List.filter pick (take_while (fun kv => has_prefix P kv.1) l).*1).
Proof.
  induction l as [|[k v] l IH]; [done|]. rewrite fmap_cons. cbn [collect_loop take_while fst].
  destruct (has_prefix P k); [|done]. rewrite IH. cbn [mbind result_bind negb]. rewrite fmap_cons. cbn [List.filter fst]. by destruct (pick k).
Qed.

(** Calls that keep a relation between the states, whatever they return. *)
Section Keeps.
Context {DB : Type} (R : relation (RocksDbMetadata DB)) `{!PreOrder R}.

Definition keeps_rel {A} (m : MetaM DB A) : Prop := forall st, R st (m st).1.

Lemma keeps_ret {A} (a : A) : keeps_rel (mret a).
Proof using Type*. by intros st. Qed.

Lemma keeps_fail {A} e : keeps_rel (fail (A := A) e).
Proof using Type*. by intros st. Qed.

Lemma keeps_lift {A} (r : RocksDbMetadata DB -> result string A) : keeps_rel (lift r).
Proof using Type*. by intros st. Qed.

Lemma keeps_bind {A B} (m : MetaM DB A) (k : A -> MetaM DB B) : keeps_rel m -> (forall a, keeps_rel (k a)) -> keeps_rel (m ≫= k).
Proof using Type*.
  intros Hm Hk st. unfold mbind, meta_bind. specialize (Hm st). destruct (m st) as [st1 [a|e]]; [|done].
  etrans; [exact Hm|apply Hk].
Qed.
End Keeps.

Section StoreSeries.
Context {DB : Type} `{CDB : !CfDb MetaCf DB} {CL : CfDbLaws MetaCf DB} `{MC : !MetaCodec}.

#[local] Abbreviation St := (RocksDbMetadata DB).
#[local] Abbreviation stored st := (cf_rows (md_db st) META_CF).

Lemma meta_bind_ok {A B} (m : MetaM DB A) (k : A -> MetaM DB B) st st' b :
  (m ≫= k) st = (st', Ok b) -> exists st1 a, m st = (st1, Ok a) /\ k a st1 = (st', Ok b).
Proof using Type. unfold mbind, meta_bind. destruct (m st) as [st1 [a|e]] eqn:E; [|done]. eauto. Qed.

Lemma lift_ok {A} (r : St -> result string A) st st' a : lift r st = (st', Ok a) -> st' = st /\ r st = Ok a.
Proof using Type. unfold lift. destruct (r st); [|done]. by intros [= <- <-]. Qed.

Lemma modify_ok (f : St -> St) st st' u : modify f st = (st', Ok u) -> st' = f st.
Proof using Type. intros E. exact (eq_sym (f_equal fst E)). Qed.

Lemma write_batch_ok b st st' u :
  write_batch b st = (st', Ok u) -> exists d, st' = set_rows d st /\ cf_rows d META_CF = fold_left (apply_cf_op META_CF) b (stored st).
Proof using Type.
  unfold write_batch. destruct (cf_write (md_db st) b) as [d|] eqn:E; [|done]. intros [= <- _]. exists d. split; [done|].
  by apply cf_write_law.
Qed.

Lemma meta_puts (l : list (bytes * string)) (m : gmap bytes string) k :
  is_Some (fold_left (apply_cf_op META_CF) ((fun kv => PutCf META_CF kv.1 kv.2) <$> l) m !! k) <-> k ∈ l.*1 \/ is_Some (m !! k).
Proof using Type.
  revert m. induction l as [|[k' v] l IH]; intros m; [cbn; set_solver|]. rewrite !fmap_cons. cbn [fold_left fst snd].
  rewrite IH, apply_put_eq, lookup_insert_is_Some', elem_of_cons. naive_solver.
Qed.

Lemma remove_rows_ok ks st st' u :
  remove_rows ks st = (st', Ok u) ->
  exists d, st' = set_rows d st /\ forall k, cf_rows d META_CF !! k = if decide (k ∈ ks) then None else stored st !! k.
Proof using Type.
  revert st. induction ks as [|k0 ks IH]; intros st; cbn [remove_rows].
  { intros [= <- _]. exists (md_db st). split; [by destruct st|]. intros k. by rewrite decide_False by set_solver. }
  intros (st1 & ? & (d & -> & Hd)%write_batch_ok & (d' & -> & Hd')%IH)%meta_bind_ok. exists d'. split; [done|].
  intros k. rewrite Hd'. cbn [md_db set_rows]. rewrite Hd. cbn [fold_left]. rewrite apply_delete_eq.
  destruct (decide (k0 = k)) as [-> |]; [rewrite lookup_delete_eq|rewrite lookup_delete_ne by done];
    repeat case_decide; try done; set_solver.
Qed.

Record series_ok (st : St) (S : gset Series) : Prop := {
  so_names : forall x, x ∈ S -> names_ok x.1 /\ x.2 < u64_max;
  so_rows : forall k, has_prefix series_text k = true -> is_Some (stored st !! k) <-> exists x, x ∈ S /\ k = series_row x;
  so_index : index_ok (md_series_known st);
  so_known : forall k, k ∈ si_keys (md_series_known st) -> exists x, x ∈ S /\ k = series_row x;
  so_warm : md_series_warmed st = true -> forall x, x ∈ S -> series_row x ∈ si_keys (md_series_known st)
}.

Lemma so_stored st S x : series_ok st S -> x ∈ S -> is_Some (stored st !! series_row x).
Proof using Type. intros H Hx. apply (so_rows _ _ H); [apply series_row_text|eauto]. Qed.

(** A call that leaves the rows and the index of the series alone. *)
Lemma series_frame st st' S :
  series_ok st S -> (forall k, has_prefix series_text k = true -> stored st' !! k = stored st !! k) ->
  md_series_known st' = md_series_known st -> md_series_warmed st' = md_series_warmed st -> series_ok st' S.
Proof using Type.
  intros [H1 H2 H3 H4 H5] Hr Hk Hw. split; rewrite ?Hk, ?Hw; try done. intros k E. by rewrite Hr, H2.
Qed.

(** A call that removes series. *)
Lemma series_delete (Q : Series -> Prop) `{!forall x, Decision (Q x)} st st' S :
  series_ok st S ->
  (forall x, x ∈ S -> is_Some (stored st' !! series_row x) <-> ~ Q x) ->
  (forall k, has_prefix series_text k = true -> is_Some (stored st' !! k) -> is_Some (stored st !! k)) ->
  index_ok (md_series_known st') -> md_series_warmed st' = md_series_warmed st ->
  (forall x, x ∈ S -> series_row x ∈ si_keys (md_series_known st) -> series_row x ∈ si_keys (md_series_known st') <-> ~ Q x) ->
  si_keys (md_series_known st') ⊆ si_keys (md_series_known st) ->
  series_ok st' (filter (fun x => ~ Q x) S).
Proof using Type.
  intros Hok Hrow Hsub Hidx Hw Hk Hks. split.
  - intros x [_ Hx]%elem_of_filter. by apply (so_names _ _ Hok).
  - intros k Ek. split.
    + intros Hs. destruct (proj1 (so_rows _ _ Hok k Ek) (Hsub _ Ek Hs)) as (x & Hx & ->). exists x.
      rewrite elem_of_filter. split; [|done]. split; [by apply Hrow|done].
    + intros (x & [Hq Hx]%elem_of_filter & ->). by apply Hrow.
  - done.
  - intros k Hin. destruct (so_known _ _ Hok k) as (x & Hx & ->); [by apply Hks|]. exists x. rewrite elem_of_filter.
    split; [|done]. split; [|done]. by apply Hk; [|apply Hks|].
  - rewrite Hw. intros Hwarm x [Hq Hx]%elem_of_filter. apply Hk; [done| |done]. by apply (so_warm _ _ Hok).
Qed.

(** The keys of a scan of a prefix. *)
Lemma collect_ok P pick st keys :
  collect_loop P pick (cf_scan (md_db st) META_CF P) = Ok keys ->
  forall k, k ∈ keys <-> is_Some (stored st !! k) /\ has_prefix P k = true /\ pick k = true.
Proof using Type.
  destruct (cf_scan_law (md_db st) META_CF P) as (l & -> & Hs & Hin). rewrite collect_loop_rows. intros [= <-] k.
  rewrite filterb_elem_of, list_elem_of_fmap. split.
  - intros (([k' v] & -> & [Hl Hp]%take_while_elem) & Hpick). apply Hin in Hl as [Hl _]. cbn in *. eauto.
  - intros ([v Hv] & Hp & Hpick). split; [|done]. exists (k, v). split; [done|].
    assert (bytes_leb P k = true) by (apply has_prefix_true in Hp as [? ->]; apply bytes_prefix_leb).
    apply take_while_prefix; [done|by intros [k' v'] [_ ?]%Hin|]. split; [by apply Hin|done].
Qed.

Lemma series_row_inj x y : names_ok x.1 -> names_ok y.1 -> x.2 <= u64_max -> y.2 <= u64_max -> series_row x = series_row y -> x = y.
Proof using Type.
  intros Hx Hy Hxi Hyi E. pose proof (f_equal prefix_of E) as Ep. rewrite !prefix_of_row_key in Ep.
  apply prefix_key_inj in Ep; [|done..]. rewrite !row_key_prefix, Ep in E. apply app_inv_head, hex16_inj in E; [|done..].
  destruct x, y. by cbn in *; subst.
Qed.

Lemma so_mem st S x i : series_ok st S -> names_ok x -> i < u64_max -> is_Some (stored st !! series_row (x, i)) <-> (x, i) ∈ S.
Proof using Type.
  intros Hok Hx Hi. rewrite (so_rows _ _ Hok) by apply series_row_text. split; [|by intros; eexists].
  intros (y & Hy & E). destruct (so_names _ _ Hok y Hy) as [Hyn Hyi].
  by apply series_row_inj in E as ->; [|cbn; first [done|lia]..].
Qed.

Lemma prefix_key_names x : prefix_key x = series_text ++ colon_joined (str_bytes <$> [x.1.1; x.1.2; x.2]).
Proof using Type. done. Qed.

Lemma names_forall a b c : names_ok (a, b, c) -> Forall name_ok [a; b; c].
Proof using Type. intros (? & ? & ?). rewrite !Forall_cons. by split_and!. Qed.

Lemma prefix_key_row x y : names_ok x -> names_ok y.1 -> has_prefix (prefix_key x) (series_row y) = true <-> y.1 = x.
Proof using Type.
  destruct x as [[a b] c], y as [[[a' b'] c'] i]. intros Hx Hy. cbn [fst snd] in *.
  rewrite prefix_key_names, names_prefix by (try done; by apply names_forall). cbn. split; [by intros [= -> -> ->]|by intros [= -> -> ->]].
Qed.

Lemma utf8_prefix_key x : names_ok x -> utf8_valid (prefix_key x) = true.
Proof using Type.
  destruct x as [[a b] c]. intros ([_ Ha] & [_ Hb] & [_ Hc]). cbn [fst snd] in *. rewrite prefix_key_names, utf8_app by done.
  cbn [fst snd]. rewrite <-(app_nil_r (colon_joined _)), utf8_join; [done|by repeat constructor].
Qed.

(** A scan of a measurement reads its series in the order of their ids. *)
Lemma series_scan st S x p :
  series_ok st S -> names_ok x -> bytes_leb (prefix_key x) p = true ->
  exists l L, cf_scan (md_db st) META_CF p = Ok <$> l /\ scanned (prefix_key x) l L /\
    forall i, i ∈ L.*1 <-> (x, i) ∈ S /\ bytes_leb p (prefix_key x ++ hex16 i) = true.
Proof using Type.
  intros Hok Hx Hp. destruct (cf_scan_law (md_db st) META_CF p) as (l & El & Hs & Hin). exists l.
  destruct (split_scanned (prefix_key x) l Hs) as (L & HL & HLi).
  - intros k v [_ H]%Hin. by eapply bytes_leb_trans.
  - intros k v [Hk _]%Hin Hpre. pose proof (has_prefix_weaken series_text _ _ Hpre) as Ht.
    destruct (proj1 (so_rows _ _ Hok k Ht)) as (y & Hy & ->); [by eexists|]. destruct (so_names _ _ Hok y Hy) as [Hyn Hyi].
    apply prefix_key_row in Hpre as <-; [|done..]. exists y.2. split; [done|apply row_key_prefix].
  - exists L. split; [done|]. split; [done|]. intros i. rewrite HLi. setoid_rewrite Hin. split.
    + intros (Hi & v & Hv & Hle). split; [|done]. apply (so_mem st); [done..|]. rewrite row_key_prefix. by eexists.
    + intros [HS Hle]. destruct (so_names _ _ Hok _ HS) as [_ Hi]. split; [done|].
      destruct (so_stored _ _ _ Hok HS) as [v Hv]. rewrite row_key_prefix in Hv. by exists v.
Qed.

(** *** Calls on series *)

Lemma novel_series_ok db rp meas known series out :
  novel_series db rp meas known series = Ok out ->
  forall k, k ∈ out.*1 <-> (k ∉ si_keys known) /\ exists i, i ∈ series.*1 /\ k = series_row (db, rp, meas, i).
Proof using Type.
  revert out. induction series as [|[i tags] series IH]; intros out; cbn [novel_series].
  { intros [= <-] k. cbn. split; [by intros ?%elem_of_nil|]. by intros (_ & i & ?%elem_of_nil & _). }
  unfold si_contains. case_bool_decide as E.
  - intros Ho k. rewrite (IH _ Ho). rewrite fmap_cons. setoid_rewrite elem_of_cons. cbn [fst]. naive_solver.
  - destruct (tags_to_vec tags) as [v|]; [|done]. cbn [mbind result_bind].
    destruct (novel_series db rp meas known series) as [out'|] eqn:Ho; [|done]. cbn [mbind result_bind]. intros [= <-] k.
    rewrite !fmap_cons, elem_of_cons, (IH _ eq_refl). setoid_rewrite elem_of_cons. cbn [fst]. split.
    + intros [-> |(? & i' & ? & ?)]; [split; [done|exists i; split; [by left|done]]|split; [done|exists i'; split; [by right|done]]].
    + intros (Hk & i' & [-> |Hi'] & ->); [by left|right; split; [done|by exists i']].
Qed.

Lemma register_ok db rp meas series st st' S u :
  call_ok (RegisterSeries db rp meas series) -> series_ok st S -> register_series_batch db rp meas series st = (st', Ok u) ->
  series_ok st' (call_spec S (RegisterSeries db rp meas series)).
Proof using Type.
  intros (Ha & Hb & Hc & Hids) Hok (st1 & novel & [-> Hn]%lift_ok & E)%meta_bind_ok. pose proof (novel_series_ok _ _ _ _ _ _ Hn) as Hnov.
  assert (exists d, stored st' = cf_rows d META_CF /\ (forall k, is_Some (cf_rows d META_CF !! k) <-> k ∈ novel.*1 \/ is_Some (stored st !! k)) /\
    index_ok (md_series_known st') /\ si_keys (md_series_known st') = list_to_set novel.*1 ∪ si_keys (md_series_known st) /\
    md_series_warmed st' = md_series_warmed st) as (d & Ed & Hd & Hidx & Hkeys & Hw).
  { destruct novel as [|kv novel].
    - injection E as <- _. exists (md_db st). split_and!; try done; [set_solver|apply (so_index _ _ Hok)|set_solver].
    - apply meta_bind_ok in E as (st2 & ? & (d & -> & Hd)%write_batch_ok & [= <- _]). exists d.
      destruct (si_insert_all fst (kv :: novel) (md_series_known st) (so_index _ _ Hok)) as [Hi Hk].
      split_and!; try done. intros k. rewrite Hd. apply meta_puts. }
  assert (forall x, x ∈ call_spec S (RegisterSeries db rp meas series) <-> (exists i, i ∈ series.*1 /\ x = (db, rp, meas, i)) \/ x ∈ S) as HS.
  { intros x. cbn [call_spec]. rewrite elem_of_union, elem_of_list_to_set, list_elem_of_fmap. setoid_rewrite list_elem_of_fmap. naive_solver. }
  split.
  - intros x [(i & Hi & ->)|Hx]%HS; [|by apply (so_names _ _ Hok)]. split; [done|].
    apply list_elem_of_fmap in Hi as ([i' t] & -> & Hi). rewrite Forall_forall in Hids. by apply Hids in Hi.
  - intros k Hk. rewrite Ed, Hd, Hnov, (so_rows _ _ Hok) by done. setoid_rewrite HS. split.
    + intros [(_ & i & Hi & ->)|(x & Hx & ->)]; eauto 6.
    + intros (x & [(i & Hi & ->)|Hx] & ->); [|eauto]. destruct (decide (series_row (db, rp, meas, i) ∈ si_keys (md_series_known st))).
      * right. by apply (so_known _ _ Hok).
      * left. eauto.
  - done.
  - intros k. rewrite Hkeys, elem_of_union, elem_of_list_to_set, Hnov. setoid_rewrite HS.
    intros [(_ & i & Hi & ->)|(x & Hx & ->)%(so_known _ _ Hok)]; eauto 6.
  - rewrite Hw. intros Hwarm x. rewrite Hkeys, elem_of_union, elem_of_list_to_set, Hnov. intros [(i & Hi & ->)|Hx]%HS.
    + destruct (decide (series_row (db, rp, meas, i) ∈ si_keys (md_series_known st))); [by right|left; eauto].
    + right. by apply (so_warm _ _ Hok).
Qed.

(** Rows and index of a store from which keys were deleted. *)
Lemma deleted_ok (Q : Series -> Prop) `{!forall x, Decision (Q x)} st st' S (keys : list bytes) :
  series_ok st S ->
  (forall k, stored st' !! k = if decide (k ∈ keys) then None else stored st !! k) ->
  (forall x, x ∈ S -> series_row x ∈ keys <-> Q x) ->
  index_ok (md_series_known st') -> md_series_warmed st' = md_series_warmed st ->
  (forall x, x ∈ S -> series_row x ∈ si_keys (md_series_known st) -> series_row x ∈ si_keys (md_series_known st') <-> ~ Q x) ->
  si_keys (md_series_known st') ⊆ si_keys (md_series_known st) ->
  series_ok st' (filter (fun x => ~ Q x) S).
Proof using Type.
  intros Hok Hrow Hkeys ? ? ? ?. apply (series_delete Q st); try done.
  - intros x Hx. rewrite Hrow. pose proof (so_stored _ _ _ Hok Hx). specialize (Hkeys x Hx). case_decide; [|tauto].
    split; [by intros []|tauto].
  - intros k _. rewrite Hrow. case_decide; [by intros []|done].
Qed.

Lemma retain_keys keep idx k : k ∈ si_keys (si_retain keep idx) <-> keep k = true /\ k ∈ si_keys idx.
Proof using Type. cbn. by rewrite elem_of_filter. Qed.

(** Keys deleted from storage, and the index filtered. *)
Lemma delete_retain_ok (Q : Series -> Prop) `{!forall x, Decision (Q x)} keep keys st st1 st' S u u' :
  series_ok st S -> remove_rows keys st = (st1, Ok u) -> retain_series keep st1 = (st', Ok u') ->
  (forall x, x ∈ S -> series_row x ∈ keys <-> Q x) -> (forall x, x ∈ S -> keep (series_row x) = true <-> ~ Q x) ->
  series_ok st' (filter (fun x => ~ Q x) S).
Proof using Type.
  intros Hok (d & -> & Hd)%remove_rows_ok [= <- _] Hq Hkeep. eapply (deleted_ok Q st _ S keys); try done.
  - apply index_retain, (so_index _ _ Hok).
  - intros x Hx Hin. cbn [md_series_known set_series set_rows]. rewrite retain_keys, Hkeep by done. tauto.
  - intros k. cbn [md_series_known set_series set_rows]. rewrite retain_keys. tauto.
Qed.

Lemma stored_keys pick P st S keys x :
  series_ok st S -> x ∈ S -> collect_loop P pick (cf_scan (md_db st) META_CF P) = Ok keys ->
  series_row x ∈ keys <-> has_prefix P (series_row x) = true /\ pick (series_row x) = true.
Proof using Type. intros Hok Hx Hk. rewrite (collect_ok _ _ _ _ Hk). pose proof (so_stored _ _ _ Hok Hx). tauto. Qed.

Lemma delete_names_ok ns (Q : Series -> Prop) `{!forall x, Decision (Q x)} keys st st1 st' S u u' :
  let P := series_text ++ colon_joined (str_bytes <$> ns) in
  series_ok st S -> Forall name_ok ns -> (length ns <= 3)%nat ->
  (forall db rp meas id, Q (db, rp, meas, id) <-> ns = take (length ns) [db; rp; meas]) ->
  collect_loop P (fun _ => true) (cf_scan (md_db st) META_CF P) = Ok keys -> remove_rows keys st = (st1, Ok u) ->
  retain_series (fun k => negb (has_prefix P k)) st1 = (st', Ok u') ->
  series_ok st' (filter (fun x => ~ Q x) S).
Proof using Type.
  intros P Hok Hns Hl HQ Hk Hd Hr.
  assert (forall x, x ∈ S -> has_prefix P (series_row x) = true <-> Q x) as HP.
  { intros [[[db rp] meas] id] [Hx _]%(so_names _ _ Hok). rewrite HQ. by apply names_prefix. }
  eapply (delete_retain_ok Q _ keys st st1 st'); try done.
  - intros x Hx. rewrite (stored_keys _ _ _ _ _ _ Hok Hx Hk), HP by done. tauto.
  - intros x Hx. cbn beta. rewrite <-HP by done. destruct (has_prefix P (series_row x)); naive_solver.
Qed.

Lemma delete_matching_ok db rp meas predicate st st' S n :
  call_ok (DeleteMatching db rp meas predicate) -> series_ok st S -> delete_series_matching db rp meas predicate st = (st', Ok n) ->
  series_ok st' (call_spec S (DeleteMatching db rp meas predicate)).
Proof using Type.
  intros (Ha & Hb & Hc) Hok (st1 & keys & [-> Hk]%lift_ok & (st2 & u & Hd & (st3 & u' & Hr & [= <- _])%meta_bind_ok)%meta_bind_ok)%meta_bind_ok.
  destruct meas as [meas|]; cbn [call_spec].
  - eapply (delete_names_ok [db; rp; meas] (fun x => x.1 = (db, rp, meas))); try done.
    + apply names_forall. split_and!; [done..|by apply Hc].
    + intros. cbn. split; [by intros [= -> -> ->]|by intros [= -> -> ->]].
  - eapply (delete_names_ok [db; rp] (fun x => x.1.1 = (db, rp))); try done.
    + rewrite !Forall_cons. by split_and!.
    + cbn. lia.
    + intros. cbn. split; [by intros [= -> ->]|by intros [= -> ->]].
Qed.

Lemma delete_range_ok db rp meas start end_ st st' S n :
  call_ok (DeleteRange db rp meas start end_) -> series_ok st S -> delete_series_in_range db rp meas start end_ st = (st', Ok n) ->
  series_ok st' (call_spec S (DeleteRange db rp meas start end_)).
Proof using Type.
  intros (Ha & Hb & Hc & He) Hok (st1 & keys & [-> Hk]%lift_ok & (st2 & u & Hd & (st3 & u' & Hr & [= <- _])%meta_bind_ok)%meta_bind_ok)%meta_bind_ok.
  set (x0 := (db, rp, meas)). assert (names_ok x0) as Hx0 by done. change (series_prefix db rp meas) with (prefix_key x0) in *.
  destruct (series_scan st S x0 (prefix_key x0) Hok Hx0) as (l & L & El & HL & HLi); [unfold bytes_leb; by rewrite bytes_ltb_irrefl|].
  rewrite El, (range_loop_rows _ (utf8_prefix_key x0 Hx0) start end_ l L HL) in Hk. injection Hk as <-. cbn [call_spec].
  assert (forall y, y ∈ S -> y.1 = x0 -> series_row y = prefix_key x0 ++ hex16 y.2) as Erow by (intros y _ <-; apply row_key_prefix).
  eapply (delete_retain_ok (fun y : Series => y.1 = x0 /\ start <= y.2 < end_)); try done.
  - intros y Hy. destruct (so_names _ _ Hok y Hy) as [Hyn Hyi]. rewrite list_elem_of_fmap. split.
    + intros (i & E & [[Hi Hle]%HLi Hr']%filterb_elem_of). destruct (so_names _ _ Hok _ Hi) as [_ Hib].
      pose proof (eq_trans E (eq_sym (row_key_prefix (x0, i)))) as E'. apply series_row_inj in E' as ->; [|cbn in *; first [done|lia]..]. split; [done|].
      unfold id_in in Hr'. apply andb_true_iff in Hr' as [?%N.leb_le ?%N.ltb_lt]. done.
    + intros [Ey Hr']. exists y.2. split; [by apply Erow|]. apply filterb_elem_of. split.
      * apply HLi. split; [|apply bytes_prefix_leb]. rewrite <-Ey. by destruct y.
      * unfold id_in. apply andb_true_iff. rewrite N.leb_le, N.ltb_lt. lia.
  - intros y Hy. destruct (so_names _ _ Hok y Hy) as [Hyn Hyi]. destruct (decide (y.1 = x0)) as [Ey|Ey].
    + rewrite (Erow y Hy Ey), strip_prefix_app, hex16_roundtrip by lia. rewrite orb_true_iff, N.ltb_lt, N.leb_le. split; [intros ? [_ ?]; lia|].
      intros Hn. destruct (decide (start <= y.2 < end_)); [by destruct Hn|lia].
    + unfold strip_prefix. destruct (has_prefix (prefix_key x0) (series_row y)) eqn:E; [|naive_solver].
      by apply prefix_key_row in E.
Qed.

(** Keys of another kind. *)
Lemma other_kind c q k : c <> 115 -> has_prefix series_text k = true -> k <> c :: q.
Proof using Type. intros Hc (k' & ->)%has_prefix_true [= E]. apply Hc. by rewrite <-E. Qed.

Lemma kind_prefix_series db : kind_prefix "series" db = series_text ++ colon_joined (str_bytes <$> [db]).
Proof using Type. done. Qed.

Lemma delete_measurement_ok db rp meas st st' S u :
  call_ok (DeleteMeasurement db rp meas) -> series_ok st S -> delete_measurement db rp meas st = (st', Ok u) ->
  series_ok st' (call_spec S (DeleteMeasurement db rp meas)).
Proof using Type.
  intros (Ha & Hb & Hc) Hok (st1 & u1 & (d & -> & Hd)%write_batch_ok & (st2 & keys & [-> Hk]%lift_ok &
    (st3 & u3 & (d' & -> & Hd')%remove_rows_ok & (st4 & _ & [= <- _] & (st5 & _ & [= <- _] & [= <- _])%meta_bind_ok)%meta_bind_ok)%meta_bind_ok)%meta_bind_ok)%meta_bind_ok.
  assert (series_ok (set_rows d st) S) as Hok1.
  { apply (series_frame st); try done. intros k Ek. cbn [md_db set_rows]. rewrite Hd. cbn [fold_left]. rewrite apply_delete_eq.
    rewrite lookup_delete_ne; [done|]. intros E. by apply (other_kind 109 _ k ltac:(done) Ek (eq_sym E)). }
  destruct (si_remove_all keys (md_series_known st) (so_index _ _ Hok)) as [Hidx Hkeys].
  assert (forall x, x ∈ S -> series_row x ∈ keys <-> x.1.1.1 = db /\ x.1.2 = meas) as HQ.
  { intros [[[a b] c] i] Hx. destruct (so_names _ _ Hok _ Hx) as [Hn Hi]. rewrite (stored_keys _ _ _ _ _ _ Hok1 Hx Hk).
    rewrite kind_prefix_series, names_prefix by (first [done|cbn; lia|by rewrite Forall_cons]). rewrite utf8_row_key, parse_row_key by (done || cbn in *; lia).
    cbn [andb fst snd length take]. rewrite andb_true_iff, !bool_decide_eq_true. split.
    - intros ([= ->] & _ & ->%str_bytes_inj). done.
    - by intros [-> ->]. }
  cbn [call_spec]. eapply (deleted_ok (fun x : Series => x.1.1.1 = db /\ x.1.2 = meas) (set_rows d st) _ S keys); try done.
  - intros x Hx Hin. cbn [md_series_known set_series]. cbn zeta in Hkeys. rewrite Hkeys, elem_of_difference, elem_of_list_to_set, HQ by done. tauto.
  - cbn [md_series_known set_series]. cbn zeta in Hkeys. intros k. rewrite Hkeys. set_solver.
Qed.

Lemma bytes_range p c k : in_range (p ++ [c]) (p ++ [c + 1]) k = has_prefix (p ++ [c]) k.
Proof using Type.
  unfold in_range, bytes_leb. revert k. induction p as [|x p IH]; intros [|y k]; cbn [app bytes_ltb has_prefix]; try done.
  - destruct k; cbn; destruct (N.eqb_spec y c), (N.eqb_spec c y), (N.ltb_spec y c), (N.eqb_spec y (c + 1)), (N.ltb_spec y (c + 1)); try done; try lia; cbn.
  - rewrite (N.eqb_sym y x). destruct (N.eqb_spec x y) as [-> |Hne]; [by rewrite IH|].
    destruct (N.ltb_spec y x), (N.ltb_spec x y); cbn; try done; lia.
Qed.

(** The range of a prefix is the keys that have it. *)
Lemma delete_kind_rows (kind name : string) (m : gmap bytes string) (k : bytes) :
  apply_cf_op META_CF m (DeleteRangeCf META_CF (kind_prefix kind name) (prefix_end (kind_prefix kind name))) !! k
  = if has_prefix (kind_prefix kind name) k then None else m !! k.
Proof using Type.
  unfold kind_prefix. destruct (join_last [str_bytes kind] (str_bytes name)) as [p Hp]. cbn [app] in Hp. rewrite Hp, apply_delete_range_eq.
  unfold prefix_end. rewrite reverse_snoc, reverse_cons, reverse_involutive.
  pose proof (bytes_range p sep k) as Hr. destruct (has_prefix (p ++ [sep]) k).
  - apply map_lookup_filter_None_2. right. intros v _. cbn. by rewrite Hr.
  - destruct (m !! k) as [v|] eqn:E; [by apply map_lookup_filter_Some_2|]. apply map_lookup_filter_None_2. by left.
Qed.

Lemma other_kind_prefix kind name k :
  kind = "meas"%string \/ kind = "tag_val"%string -> has_prefix series_text k = true -> has_prefix (kind_prefix kind name) k = false.
Proof using Type. intros Hk (k' & ->)%has_prefix_true. by destruct Hk as [-> | ->]. Qed.

Lemma drop_database_ok db st st' S u :
  call_ok (DropDb db) -> series_ok st S -> drop_database db st = (st', Ok u) -> series_ok st' (call_spec S (DropDb db)).
Proof using Type.
  intros Ha Hok (st1 & _ & (d & -> & Hd)%write_batch_ok & (st2 & _ & ->%modify_ok & (st3 & _ & ->%modify_ok & (st4 & _ & ->%modify_ok & ->%modify_ok)%meta_bind_ok)%meta_bind_ok)%meta_bind_ok)%meta_bind_ok.
  assert (forall k, has_prefix series_text k = true ->
    cf_rows d META_CF !! k = if has_prefix (kind_prefix "series" db) k then None else stored st !! k) as Hrow.
  { intros k Ek. rewrite Hd. rewrite !fmap_cons. cbn [fold_left fmap list_fmap]. rewrite !delete_kind_rows, apply_delete_eq.
    rewrite (other_kind_prefix "meas"), (other_kind_prefix "tag_val") by auto.
    rewrite lookup_delete_ne; [done|]. intros E. by apply (other_kind 100 _ k ltac:(done) Ek (eq_sym E)). }
  assert (forall x, x ∈ S -> has_prefix (kind_prefix "series" db) (series_row x) = true <-> x.1.1.1 = db) as HP.
  { intros [[[a b] c] i] [Hx _]%(so_names _ _ Hok). rewrite kind_prefix_series, names_prefix by (first [done|cbn; lia|by rewrite Forall_cons]).
    cbn. split; [by intros [= ->]|by intros ->]. }
  cbn [call_spec]. apply (series_delete (fun x : Series => x.1.1.1 = db) st); try done.
  - intros x Hx. cbn [md_db set_series set_tags set_measurements set_db_cache set_rows]. rewrite Hrow, <-HP by (done || apply series_row_text).
    pose proof (so_stored _ _ _ Hok Hx). destruct (has_prefix _ _); [|naive_solver]. split; [by intros []|intros Hn; by destruct Hn].
  - intros k Ek. cbn [md_db set_series set_tags set_measurements set_db_cache set_rows]. rewrite Hrow by done.
    destruct (has_prefix (kind_prefix _ _) k); [intros [? [=]]|done].
  - apply index_retain, (so_index _ _ Hok).
  - intros x Hx Hin. cbn [md_series_known set_series set_tags set_measurements set_db_cache set_rows].
    rewrite retain_keys, <-HP by done. cbn beta.
    destruct (has_prefix (kind_prefix _ _) (series_row x)); cbn [negb].
    + split; [by intros [? _]|intros Hn; by destruct Hn].
    + split; [done|by split].
  - intros k. cbn [md_series_known set_series set_tags set_measurements set_db_cache set_rows]. rewrite retain_keys. tauto.
Qed.

Lemma warm_series_ok st st' S n : series_ok st S -> warm_series st = (st', Ok n) -> series_ok st' S.
Proof using Type.
  intros Hok (st1 & keys & [-> Hk]%lift_ok & (st2 & _ & [= <- _] & [= <- _])%meta_bind_ok)%meta_bind_ok.
  assert (forall k, k ∈ keys <-> exists x, x ∈ S /\ k = series_row x) as Hkeys.
  { intros k. rewrite (collect_ok _ _ _ _ Hk). split.
    - intros (Hs & Hp & _). by apply (so_rows _ _ Hok).
    - intros (x & Hx & ->). destruct (so_names _ _ Hok x Hx). split_and!; [by apply (so_stored _ S)|apply series_row_text|by apply utf8_row_key]. }
  destruct Hok as [H1 H2 H3 H4 H5]. split; try done.
  - apply index_replace.
  - intros k Hin. apply Hkeys. cbn in Hin. by apply elem_of_list_to_set in Hin.
  - intros _ x Hx. cbn. apply elem_of_list_to_set, Hkeys. eauto.
Qed.

Lemma reopen_ok st S : series_ok st S -> series_ok (open_metadata (md_db st)) S.
Proof using Type. by intros [H1 H2 H3 H4 H5]. Qed.

(** *** Other calls *)

(** A call that does not touch series. *)
Definition same_series (st st' : St) : Prop :=
  (forall k, has_prefix series_text k = true -> stored st' !! k = stored st !! k) /\
  md_series_known st' = md_series_known st /\ md_series_warmed st' = md_series_warmed st.

#[local] Instance same_series_preorder : PreOrder same_series.
Proof using Type.
  split; [by intros st|]. intros st1 st2 st3 (H1 & H2 & H3) (H4 & H5 & H6). split_and!; [|congruence..]. intros k Hk. by rewrite H4, H1.
Qed.

#[local] Abbreviation keeps_series := (keeps_rel same_series).

Lemma keeps_cache name d : keeps_series (cache_database name d).
Proof using Type. by intros st. Qed.

Lemma keeps_puts (l : list (bytes * string)) :
  (forall k, k ∈ l.*1 -> has_prefix series_text k = false) -> keeps_series (write_batch ((fun kv => PutCf META_CF kv.1 kv.2) <$> l)).
Proof using Type.
  intros Hl st. unfold write_batch. destruct (cf_write _ _) as [d|] eqn:E; [|done]. split; [|done]. cbn [fst md_db set_rows].
  intros k Hk. rewrite (cf_write_law _ _ _ E). clear E. generalize (stored st). induction l as [|[k' v] l IH]; intros m; [done|].
  rewrite fmap_cons. cbn [fold_left fst snd]. rewrite IH by (intros; apply Hl; by right). rewrite apply_put_eq, lookup_insert_ne; [done|].
  intros ->. by rewrite Hl in Hk by by left.
Qed.

Lemma keeps_put_database name d : keeps_series (put_database name d).
Proof using Type.
  apply (keeps_bind _); [apply (keeps_lift _)|]. intros v. apply (keeps_bind _); [|intros; apply keeps_cache].
  apply (keeps_puts [(db_key name, v)]). by intros k ->%list_elem_of_singleton.
Qed.

Lemma keeps_create_database name : keeps_series (create_database name).
Proof using Type.
  apply (keeps_bind _); [apply (keeps_lift _)|]. intros v. apply (keeps_bind _); [apply (keeps_lift _)|]. intros [w|].
  - apply (keeps_bind _); [apply (keeps_ret _)|]. intros. apply keeps_cache.
  - apply (keeps_bind _); [|intros; apply keeps_cache]. apply (keeps_puts [(db_key name, v)]). by intros k ->%list_elem_of_singleton.
Qed.

Lemma keeps_get_database name : keeps_series (get_database name).
Proof using Type.
  intros st. unfold get_database. destruct (md_db_cache st !! name); [done|]. revert st. apply (keeps_bind _); [apply (keeps_lift _)|].
  intros [v|]; [|apply (keeps_ret _)]. apply (keeps_bind _); [apply (keeps_lift _)|]. intros row.
  apply (keeps_bind _); [apply keeps_cache|]. intros. apply (keeps_ret _).
Qed.

Lemma keeps_get_existing name : keeps_series (get_existing name).
Proof using Type. apply (keeps_bind _); [apply keeps_get_database|]. intros [d|]; [apply (keeps_ret _)|apply (keeps_fail _)]. Qed.

Lemma keeps_create_with stmt : keeps_series (create_database_with stmt).
Proof using Type.
  apply (keeps_bind _); [apply keeps_get_database|]. intros existing.
  apply (keeps_bind _); [destruct existing; [apply (keeps_ret _)|apply keeps_create_database]|]. intros _.
  destruct (retention_policy_from_create stmt) as [rp|]; [|apply (keeps_ret _)].
  destruct (existing ≫= _) as [old|]; [destruct (same_settings old rp); [apply (keeps_ret _)|apply (keeps_fail _)]|].
  apply (keeps_bind _); [apply keeps_get_existing|]. intros. apply keeps_put_database.
Qed.

Lemma keeps_alter db rp change : keeps_series (alter_retention_policy db rp change).
Proof using Type.
  apply (keeps_bind _); [apply keeps_get_existing|]. intros d. destruct (update_first _ _ _); [apply keeps_put_database|apply (keeps_fail _)].
Qed.

Lemma unstored_sub d keys created : unstored d keys = Ok created -> forall k, k ∈ created -> k ∈ keys.
Proof using Type.
  revert created. induction keys as [|k0 keys IH]; intros created; cbn [unstored]; [by intros [= <-]|].
  destruct (cf_get d META_CF k0) as [o|]; [|done]. cbn [mbind result_bind]. destruct (unstored d keys) as [c|]; [|done].
  cbn [mbind result_bind]. intros [= <-] k. specialize (IH c eq_refl k). destruct o; rewrite ?elem_of_cons; tauto.
Qed.

Lemma keeps_store_tags db rp meas entries : keeps_series (store_tag_values_batch db rp meas entries).
Proof using Type.
  intros st. unfold store_tag_values_batch. set (novel := List.filter _ _).
  assert (forall k, k ∈ novel -> has_prefix series_text k = false) as Hn.
  { intros k [(e & -> & _)%list_elem_of_fmap _]%filterb_elem_of. done. }
  clearbody novel. destruct novel as [|k0 novel]; [done|]. unfold write_tag_values, mbind, meta_bind, lift.
  destruct (unstored (md_db st) (k0 :: novel)) as [created|] eqn:E; [|done]. cbn [app].
  assert (same_series st (write_batch ((fun k => PutCf META_CF k "1") <$> created) st).1) as Hw.
  { replace ((fun k => PutCf META_CF k "1") <$> created)
      with ((fun kv => PutCf META_CF kv.1 kv.2) <$> ((fun k => (k, "1"%string)) <$> created)) by (by rewrite <-list_fmap_compose).
    apply keeps_puts. intros k Hk. rewrite <-list_fmap_compose in Hk. cbn in Hk. rewrite list_fmap_id in Hk. by apply Hn, (unstored_sub _ _ _ E). }
  by destruct (write_batch _ st) as [st1 [[]|]].
Qed.

(** *** All calls *)

Lemma run_call_ok c st st' S u : call_ok c -> series_ok st S -> run_call c st = (st', Ok u) -> series_ok st' (call_spec S c).
Proof using Type.
  intros Hc Hok E.
  assert (keeps_series (run_call c) -> series_ok st' S) as Hkeep.
  { intros Hk. specialize (Hk st). rewrite E in Hk. destruct Hk as (? & ? & ?). by apply (series_frame st). }
  destruct c; cbn [run_call] in *; unfold unit_call in *.
  - by eapply register_ok.
  - apply meta_bind_ok in E as (st1 & n & E & [= <- _]). by eapply delete_range_ok.
  - apply meta_bind_ok in E as (st1 & n & E & [= <- _]). by eapply delete_matching_ok.
  - by eapply delete_measurement_ok.
  - by eapply drop_database_ok.
  - apply Hkeep, keeps_create_with.
  - apply Hkeep. apply (keeps_bind _); [apply keeps_get_existing|]. intros. apply keeps_put_database.
  - apply Hkeep. apply (keeps_bind _); [apply keeps_get_existing|]. intros. apply keeps_put_database.
  - apply Hkeep, keeps_alter.
  - apply Hkeep, keeps_store_tags.
  - apply meta_bind_ok in E as (st1 & n & E & [= <- _]). by eapply warm_series_ok.
  - apply modify_ok in E as ->. by apply reopen_ok.
Qed.

Lemma run_calls_ok cs st st' S u :
  Forall call_ok cs -> series_ok st S -> run_calls cs st = (st', Ok u) -> series_ok st' (fold_left call_spec cs S).
Proof using Type.
  intros Hcs. revert st S. induction Hcs as [|c cs Hc Hcs IH]; intros st S Hok; cbn [run_calls fold_left]; [by intros [= <- _]|].
  intros (st1 & [] & E & Er)%meta_bind_ok. eapply IH; [|exact Er]. by eapply run_call_ok.
Qed.

Lemma open_ok d : (forall k, has_prefix series_text k = true -> cf_rows d META_CF !! k = None) -> series_ok (open_metadata d) ∅.
Proof using Type.
  intros Hd. split; [set_solver| |apply index_empty|cbn; set_solver|done]. intros k Hk. cbn. rewrite Hd by done. split; [by intros []|set_solver].
Qed.
End StoreSeries.

(** ** What the store answers *)

Lemma ids_in_elem S db rp meas start end_ i :
  i ∈ ids_in S db rp meas start end_ <-> (db, rp, meas, i) ∈ S /\ start <= i < end_.
Proof.
  unfold ids_in. rewrite sort_by_elem_of, elem_of_elements, elem_of_map. setoid_rewrite elem_of_filter. split.
  - intros ([x j] & -> & [E ?] & ?). cbn in *. by subst.
  - intros [HS ?]. exists (db, rp, meas, i). done.
Qed.

Lemma ids_in_sorted S db rp meas start end_ : StronglySorted N.lt (ids_in S db rp meas start end_).
Proof.
  unfold ids_in. set (l := elements _). assert (NoDup l) as Hnd by apply NoDup_elements. clearbody l.
  assert (StronglySorted N.le (sort_by N.leb l)) as Hs.
  { eapply StronglySorted_weaken; [intros x y; apply N.leb_le|apply sort_by_sorted]; intros *; rewrite !N.leb_le; lia. }
  assert (NoDup (sort_by N.leb l)) as Hn by (by rewrite sort_by_Permutation).
  induction Hs as [|x l' Hs IH Hx]; [constructor|]. apply NoDup_cons in Hn as [Hnx Hn]. constructor; [by apply IH|].
  rewrite Forall_forall in *. intros y Hy. specialize (Hx y Hy). assert (x <> y) by (by intros ->). lia.
Qed.

Lemma sorted_lt_eq (l l' : list N) : StronglySorted N.lt l -> StronglySorted N.lt l' -> (forall i, i ∈ l <-> i ∈ l') -> l = l'.
Proof.
  assert (forall l, StronglySorted N.lt l -> NoDup l) as Hnd.
  { induction 1 as [|x k Hk IH Hx]; constructor; [|done]. rewrite Forall_forall in Hx. intros Hy%Hx. lia. }
  intros Hl Hl' Hi. apply (StronglySorted_unique_strong N.lt); [intros; lia|done|done|]. apply NoDup_Permutation; auto.
Qed.

Lemma sorted_lt_length (l : list N) a M : StronglySorted N.lt l -> a <= M -> Forall (fun i => a <= i < M) l -> a + N.of_nat (length l) <= M.
Proof.
  intros Hl. revert a. induction Hl as [|x l Hl IH Hx]; intros a Ha Hb; cbn [length]; [lia|]. apply Forall_cons in Hb as [Hxb Hb].
  rewrite Forall_forall in Hx, Hb. specialize (IH (x + 1) ltac:(lia)). rewrite Forall_forall in IH.
  assert (x + 1 + N.of_nat (length l) <= M); [|lia]. apply IH. intros y Hy. specialize (Hx y Hy). specialize (Hb y Hy). lia.
Qed.

Section Answers.
Context {DB : Type} `{CDB : !CfDb MetaCf DB} {CL : CfDbLaws MetaCf DB} `{MC : !MetaCodec}.
Context (st : RocksDbMetadata DB) (S : gset Series) (Hok : series_ok st S).
Context (db rp meas : string) (Hn : names_ok (db, rp, meas)).

#[local] Abbreviation ids := (ids_in S db rp meas).
#[local] Abbreviation P := (prefix_key (db, rp, meas)).

(** The ids a scan from [start0] reads. *)
Lemma scanned_ids start0 start end_ L :
  start0 <= start -> StronglySorted N.lt L ->
  (forall i, i ∈ L <-> (db, rp, meas, i) ∈ S /\ start0 <= i) -> List.filter (id_in start end_) L = ids start end_.
Proof using Type.
  intros Hs HL Hi. apply sorted_lt_eq.
  - by apply StronglySorted_filterb.
  - apply ids_in_sorted.
  - intros i. rewrite filterb_elem_of, Hi, ids_in_elem. unfold id_in. rewrite andb_true_iff, N.leb_le, N.ltb_lt. split; [tauto|].
    intros [? ?]. split_and!; try tauto; lia.
Qed.

Lemma ids_length start end_ : N.of_nat (length (ids start end_)) <= u64_max.
Proof using Hok.
  pose proof (sorted_lt_length _ 0 u64_max (ids_in_sorted S db rp meas start end_) ltac:(lia)) as Hb. rewrite N.add_0_l in Hb. apply Hb.
  apply Forall_forall. intros i Hi. rewrite ids_in_elem in Hi. destruct Hi as [HS _]. destruct (so_names _ _ Hok _ HS). cbn in *. lia.
Qed.

Lemma scan_ids start end_ : scan_series_ids db rp meas start end_ st = Ok (ids start end_).
Proof using Hok Hn.
  unfold scan_series_ids. change (series_prefix db rp meas) with P.
  destruct (series_scan st S (db, rp, meas) P Hok Hn) as (l & L & -> & HL & HLi); [unfold bytes_leb; by rewrite bytes_ltb_irrefl|].
  rewrite (scan_loop_rows _ (utf8_prefix_key _ Hn) start end_ l L HL). f_equal. apply (scanned_ids 0); [lia|by destruct HL|].
  intros i. rewrite HLi. rewrite bytes_prefix_leb. split; intros [? _]; split; (done || lia).
Qed.

(** The rows from the first id in range on. *)
Lemma scan_from start :
  start <= u64_max -> exists l L, cf_scan (md_db st) META_CF (series_storage_key db rp meas start) = Ok <$> l /\ scanned P l L /\
    forall end_, List.filter (id_in start end_) L.*1 = ids start end_.
Proof using Hok Hn.
  intros Hs. pose proof (row_key_prefix (db, rp, meas, start)) as Ek. cbn [series_row fst snd] in Ek. rewrite Ek.
  destruct (series_scan st S (db, rp, meas) (P ++ hex16 start) Hok Hn) as (l & L & El & HL & HLi); [apply bytes_prefix_leb|].
  exists l, L. split; [done|]. split; [done|]. intros end_. apply (scanned_ids start); [lia|by destruct HL|]. intros i. rewrite HLi.
  split; intros [HS Hle]; (split; [done|]); destruct (so_names _ _ Hok _ HS) as [_ Hi]; cbn in Hi;
    unfold bytes_leb in *; rewrite bytes_ltb_app, hex16_ltb, negb_true_iff, N.ltb_ge in * by lia; done.
Qed.

Lemma warmed_count : md_series_warmed st = true -> si_count (md_series_known st) P = N.of_nat (length (ids 0 u64_max)).
Proof using Hok Hn.
  intros Hw. rewrite index_count by apply (so_index _ _ Hok). f_equal.
  rewrite <-(length_fmap (fun i => series_row (db, rp, meas, i))), <-(size_list_to_set (C := gset bytes)).
  - f_equal. apply set_eq. intros k. rewrite elem_of_filter, elem_of_list_to_set, list_elem_of_fmap. split.
    + intros [Ep Hk]. destruct (so_known _ _ Hok k Hk) as (x & Hx & ->). destruct (so_names _ _ Hok x Hx) as [Hxn Hxi].
      rewrite prefix_of_row_key in Ep. apply prefix_key_inj in Ep; [|done..]. destruct x as [x i]. cbn in *. subst x.
      exists i. split; [done|]. apply ids_in_elem. split; [done|lia].
    + intros (i & -> & [HS _]%ids_in_elem). split; [apply prefix_of_row_key|]. by apply (so_warm _ _ Hok).
  - apply NoDup_fmap_2_strong; [|unfold ids_in; rewrite sort_by_Permutation; apply NoDup_elements].
    intros i j [Hi _]%ids_in_elem [Hj _]%ids_in_elem E. destruct (so_names _ _ Hok _ Hi), (so_names _ _ Hok _ Hj).
    apply series_row_inj in E; [congruence|cbn in *; first [done|lia]..].
Qed.

Lemma count_blocking start end_ :
  start <= u64_max -> count_series_ids_blocking db rp meas start end_ st = Ok (N.of_nat (length (ids start end_))).
Proof using Hok Hn.
  intros Hs. unfold count_series_ids_blocking. destruct (scan_from _ Hs) as (l & L & -> & HL & Ef).
  pose proof (ids_length start end_). rewrite (count_loop_rows _ (utf8_prefix_key _ Hn) _ _ l L 0 HL); rewrite Ef; [done|lia].
Qed.

Lemma count_ids start end_ :
  start <= u64_max -> count_series_ids_in_range db rp meas start end_ st = Ok (N.of_nat (length (ids start end_))).
Proof using Hok Hn.
  intros Hs. unfold count_series_ids_in_range. destruct (_ && _) eqn:E; [|by apply count_blocking].
  apply andb_true_iff in E as [-> %N.eqb_eq -> %N.eqb_eq]. destruct (md_series_warmed st) eqn:Hw; [by rewrite <-warmed_count|].
  unfold list_series_ids. by rewrite scan_ids.
Qed.

Lemma median_ids start end_ :
  start <= u64_max -> median_series_id_in_range db rp meas start end_ st = Ok (ids start end_ !! (length (ids start end_) / 2)%nat).
Proof using Hok Hn.
  intros Hs. unfold median_series_id_in_range. rewrite count_ids by done. cbn [mbind result_bind].
  pose proof (ids_length start end_) as Hlen. destruct (N.eqb_spec (N.of_nat (length (ids start end_))) 0) as [E|E].
  { destruct (ids start end_); [done|cbn in E; lia]. }
  unfold nth_series_id_in_range. destruct (scan_from _ Hs) as (l & L & -> & HL & Ef).
  pose proof (N.div_lt (N.of_nat (length (ids start end_))) 2 ltac:(lia) ltac:(lia)).
  set (n := N.of_nat (length (ids start end_)) / 2) in *.
  etrans; [apply (nth_loop_rows P (utf8_prefix_key _ Hn) start end_ n 0 l L HL); [lia|by eapply N.lt_le_trans]|].
  rewrite Ef, N.sub_0_r. subst n. by rewrite N2Nat.inj_div, Nat2N.id.
Qed.
End Answers.

(** ** A codec *)

#[export] Instance RpRow_eq_dec : EqDecision RpRow.
Proof. solve_decision. Defined.

#[export] Instance RpRow_countable : Countable RpRow.
Proof.
  by refine (inj_countable' (fun r => (rr_name r, rr_duration r, rr_shard_group_duration r, rr_replication_factor r, rr_is_default r))
    (fun '(a, b, c, d, e) => mkRpRow a b c d e) _); intros [].
Defined.

#[export] Instance DbRow_eq_dec : EqDecision DbRow.
Proof. solve_decision. Defined.

#[export] Instance DbRow_countable : Countable DbRow.
Proof.
  by refine (inj_countable' (fun r => (dr_name r, dr_retention_policies r, dr_default_rp r)) (fun '(a, b, c) => mkDbRow a b c) _); intros [].
Defined.

#[export] Instance bits_meta_codec : MetaCodec := {
  db_to_vec r := Ok (pos_bits (encode r));
  db_from_slice := decode_or;
  tags_to_vec t := Ok (pos_bits (encode t));
  tags_from_slice := decode_or
}.

#[export] Instance bits_meta_codec_laws : MetaCodecLaws bits_meta_codec.
Proof. split; intros ? ? [= <-]; apply decode_or_bits. Qed.

(** An empty store in memory. *)
Definition fresh_metadata : RocksDbMetadata (MemDb MetaCf) := open_metadata empty_db.

Definition after (cs : list SeriesCall) : RocksDbMetadata (MemDb MetaCf) := (run_calls cs fresh_metadata).1.

Definition host (h : string) : gmap string string := {[ "host"%string := h ]}.

(** ** Properties *)


Definition sample_calls : list SeriesCall :=
  [RegisterSeries "db" "rp" "cpu" [(7, host "a"); (3, host "b"); (9, host "c"); (5, host "d")];
   RegisterSeries "db" "rp" "cpu2" [(4, host "a")]; Reopen; WarmSeries;
   DeleteRange "db" "rp" "cpu" 5 7; DeleteMeasurement "db" "rp" "cpu2"].


(** ** Where the store departs *)

(** Deleting the series of one host deletes those of all hosts. *)
Theorem delete_ignores_predicate :
  let st := after [RegisterSeries "db" "rp" "cpu" [(1, host "a"); (2, host "b")]; DeleteMatching "db" "rp" (Some "cpu"%string) "host = 'a'"] in
  list_series "db" "rp" "cpu" st = Ok [].
Proof. vm_compute. reflexivity. Qed.

(** The largest id is counted by the warmed index, and not listed. *)
Theorem largest_id_not_listed :
  let st := after [RegisterSeries "db" "rp" "cpu" [(u64_max, host "a")]; WarmSeries] in
  list_series "db" "rp" "cpu" st = Ok [(u64_max, host "a")] /\ list_series_ids "db" "rp" "cpu" st = Ok [] /\
  count_series_ids_in_range "db" "rp" "cpu" 0 u64_max st = Ok 1.
Proof. vm_compute. split_and!; reflexivity. Qed.

(** The series of a measurement with a colon in its name survive it. *)
Theorem colon_measurement_keeps_series :
  let st := after [RegisterSeries "db" "rp" "cpu:load" [(1, host "a")]; DeleteMeasurement "db" "rp" "cpu:load"] in
  list_series_ids "db" "rp" "cpu:load" st = Ok [1].
Proof. vm_compute. reflexivity. Qed.

(** The values of a dropped measurement's tags are still listed, and the
    count of the next ones starts from zero. *)
Theorem dropped_measurement_keeps_tag_values :
  let st := (_ ← warm_tag_value_counts;
             _ ← store_tag_value "db" "rp" "cpu" "host" "a";
             _ ← delete_measurement "db" "rp" "cpu";
             store_tag_value "db" "rp" "cpu" "host" "b" : MetaM (MemDb MetaCf) unit) fresh_metadata in
  list_tag_values "db" "rp" "host" (Some "cpu"%string) st.1 = Ok [str_bytes "a"; str_bytes "b"] /\
  (count_tag_values "db" "rp" "host" (Some "cpu"%string) st.1).2 = Ok 1.
Proof. vm_compute. split; reflexivity. Qed.

(** A value that two measurements have counts once before the counts are
    warmed and twice after. *)
Theorem tag_value_count_depends_on_cache :
  let st := (_ ← store_tag_value "db" "rp" "cpu" "host" "a"; store_tag_value "db" "rp" "mem" "host" "a" : MetaM (MemDb MetaCf) unit)
              fresh_metadata in
  (count_tag_values "db" "rp" "host" None st.1).2 = Ok 1 /\
  (count_tag_values "db" "rp" "host" None (warm_tag_value_counts st.1).1).2 = Ok 2.
Proof. vm_compute. split; reflexivity. Qed.
