(* ===== verification/MetaDatabases.v ===== *)
(** * The databases of the metadata store

    A database and its retention policies are kept in a cache and in a row.
    What the cache answers is what a restart reads, up to the whole seconds
    the rows keep, after any calls, failed ones included. *)

From stdpp Require Import prelude list gmap fin_sets fin_maps strings.
From S2P Require Import Prelude Bytes CfStore Wire QueryAst ColumnNaming CqSchedule MetaStore MetaSeries.
From stdpp Require Import options.

#[local] Open Scope N_scope.

(** ** Rows *)

Lemma db_row_of_row r : db_row (db_of_row r) = r.
Proof.
  assert (forall n, as_secs (secs n) = n) as Hs by (intros n; unfold as_secs, secs; by apply N.div_mul).
  destruct r as [name rps def]. unfold db_row, db_of_row. cbn. f_equal. rewrite <-list_fmap_compose.
  induction rps as [|[n d sg rf b] rps IH]; [done|]. rewrite fmap_cons, IH. f_equal. unfold rp_row, rp_of_row. cbn.
  rewrite Hs. by destruct d; cbn; rewrite ?Hs.
Qed.

(** What a restart makes of a database. *)
Definition reread (d : Database) : Database := db_of_row (db_row d).

(** No two policies have the same name. *)
Definition policies_ok (d : Database) : Prop := NoDup (rp_name <$> dbs_retention_policies d).

Lemma reread_names d : rp_name <$> dbs_retention_policies (reread d) = rp_name <$> dbs_retention_policies d.
Proof. unfold reread, db_of_row, db_row. cbn. by rewrite <-!list_fmap_compose. Qed.

Lemma new_policies_ok name : policies_ok (new_database name).
Proof. apply NoDup_singleton. Qed.

Lemma without_names name l x : x ∈ rp_name <$> without_rp name l <-> x ∈ rp_name <$> l /\ x <> name.
Proof.
  unfold without_rp. rewrite !list_elem_of_fmap. setoid_rewrite filterb_elem_of. setoid_rewrite negb_true_iff. setoid_rewrite bool_decide_eq_false. naive_solver.
Qed.

Lemma without_NoDup name l : NoDup (rp_name <$> l) -> NoDup (rp_name <$> without_rp name l).
Proof.
  induction l as [|r l IH]; [done|]. rewrite fmap_cons, NoDup_cons. intros [Hr Hl]. unfold without_rp in *. cbn [List.filter].
  destruct (negb _); [|by apply IH]. rewrite fmap_cons, NoDup_cons. split; [|by apply IH]. intros [? _]%without_names. done.
Qed.

Lemma make_default_names name d : rp_name <$> dbs_retention_policies (make_default name d) = rp_name <$> dbs_retention_policies d.
Proof. cbn. by rewrite <-list_fmap_compose. Qed.

Lemma snoc_policies_ok l rp : NoDup (rp_name <$> l) -> rp_name rp ∉ rp_name <$> l -> NoDup (rp_name <$> l ++ [rp]).
Proof. intros Hl Hrp. rewrite fmap_app. apply NoDup_app. split; [done|]. split; [set_solver|apply NoDup_singleton]. Qed.

Lemma update_first_names p change l l' :
  update_first p (apply_change change) l = Some l' -> rp_name <$> l' = rp_name <$> l.
Proof.
  revert l'. induction l as [|r l IH]; intros l'; [done|]. cbn [update_first]. destruct (p r); [by intros [= <-]|].
  destruct (update_first p (apply_change change) l) as [k|]; [|done]. intros [= <-]. rewrite !fmap_cons. f_equal. by apply IH.
Qed.

(** ** The cache and the rows *)

Definition db_text : bytes := str_bytes "db:".

Section StoreDatabases.
Context {DB : Type} `{CDB : !CfDb MetaCf DB} {CL : CfDbLaws MetaCf DB} `{MC : !MetaCodec} {ML : MetaCodecLaws MC}.

#[local] Abbreviation St := (RocksDbMetadata DB).
#[local] Abbreviation stored st := (cf_rows (md_db st) META_CF).

(** The row of a database reads back as it. *)
Definition has_row (st : St) (name : string) (d : Database) : Prop :=
  exists v, stored st !! db_key name = Some v /\ db_from_slice v = Ok (db_row d) /\ policies_ok d.

Record dbs_ok (st : St) : Prop := {
  do_rows : forall name v, stored st !! db_key name = Some v -> exists d, db_from_slice v = Ok (db_row d) /\ policies_ok d;
  do_cache : forall name d, md_db_cache st !! name = Some d -> has_row st name d
}.

Lemma db_key_inj n n' : db_key n = db_key n' -> n = n'.
Proof using Type. intros E. apply app_inv_head in E. by apply str_bytes_inj. Qed.

Definition same_dbs (st st' : St) : Prop :=
  (forall k, has_prefix db_text k = true -> stored st' !! k = stored st !! k) /\ md_db_cache st' = md_db_cache st.

#[local] Instance same_dbs_preorder : PreOrder same_dbs.
Proof using Type.
  split; [by intros st|]. intros st1 st2 st3 (H1 & H2) (H3 & H4). split; [|congruence]. intros k Hk. by rewrite H3, H1.
Qed.

Lemma db_key_text n : has_prefix db_text (db_key n) = true.
Proof using Type. apply has_prefix_app. Qed.

Lemma dbs_frame st st' : dbs_ok st -> same_dbs st st' -> dbs_ok st'.
Proof using Type.
  intros [H1 H2] [Hr Hc]. split.
  - intros name v. rewrite Hr by apply db_key_text. apply H1.
  - intros name d. rewrite Hc. intros (v & Hv & ? & ?)%H2. exists v. by rewrite Hr by apply db_key_text.
Qed.

(** Reading a database finds its row. *)
Lemma get_database_spec name st :
  dbs_ok st -> exists st' o, get_database name st = (st', Ok o) /\ dbs_ok st' /\ md_db st' = md_db st /\
    match o with Some d => has_row st name d | None => stored st !! db_key name = None /\ md_db_cache st !! name = None end.
Proof using Type.
  intros Hok. unfold get_database. destruct (md_db_cache st !! name) as [d|] eqn:Ec.
  { exists st, (Some d). split_and!; try done. by apply (do_cache _ Hok). }
  unfold mbind, meta_bind, lift. rewrite cf_get_law. destruct (stored st !! db_key name) as [v|] eqn:Ev; [|by exists st, None].
  destruct (do_rows _ Hok name v Ev) as (d & Hd & Hp). rewrite Hd. cbn.
  assert (has_row st name (reread d)) as Hrow.
  { exists v. split; [done|]. split; [by unfold reread; rewrite db_row_of_row|]. unfold policies_ok. by rewrite reread_names. }
  eexists _, (Some (reread d)). split; [reflexivity|]. split; [|done]. destruct Hok as [H1 H2]. split; [done|].
  intros n d'. cbn. rewrite lookup_insert_Some. intros [[<- <-]|[_ Hc]]; [done|by apply H2].
Qed.

Lemma put_database_ok name d st : dbs_ok st -> policies_ok d -> dbs_ok (put_database name d st).1.
Proof using ML.
  intros [H1 H2] Hd. unfold put_database, mbind, meta_bind, lift. destruct (db_to_vec (db_row d)) as [v|] eqn:Ev; [|done].
  apply db_codec_law in Ev. unfold write_batch. destruct (cf_write _ _) as [d'|] eqn:E; [|done]. cbn.
  assert (forall k, cf_rows d' META_CF !! k = if decide (k = db_key name) then Some v else stored st !! k) as Hr.
  { intros k. rewrite (cf_write_law _ _ _ E). cbn [fold_left]. rewrite apply_put_eq.
    case_decide as Ek; [by rewrite Ek, lookup_insert_eq|by rewrite lookup_insert_ne]. }
  split; cbn.
  - intros n w. rewrite Hr. case_decide; [intros [= <-]; by exists d|by apply H1].
  - intros n d0. rewrite lookup_insert_Some. intros [[<- <-]|[Hne Hc]].
    + exists v. cbn. by rewrite Hr, decide_True.
    + destruct (H2 _ _ Hc) as (w & Hw & ? & ?). exists w. cbn. rewrite Hr, decide_False; [done|]. by intros ?%db_key_inj.
Qed.

(** *** Calls on databases *)

#[local] Abbreviation keeps_ok m := (forall st, dbs_ok st -> dbs_ok (m st).1).

Lemma get_existing_spec name st :
  dbs_ok st -> exists st', dbs_ok st' /\ md_db st' = md_db st /\
    (get_existing name st = (st', Err (DatabaseNotFound name)) \/
     exists d, get_existing name st = (st', Ok d) /\ policies_ok d).
Proof using Type.
  intros Hok. destruct (get_database_spec name st Hok) as (st' & o & E & Hok' & Hdb & Ho). exists st'. split; [done|]. split; [done|].
  unfold get_existing, mbind, meta_bind. rewrite E. destruct o as [d|]; [right; exists d|by left]. split; [done|]. by destruct Ho as (? & _ & _ & ?).
Qed.

(** A change of a database that was read. *)
Lemma change_ok name (f : Database -> MetaM DB unit) :
  (forall d, policies_ok d -> keeps_ok (f d)) -> keeps_ok (get_existing name ≫= f).
Proof using Type.
  intros Hf st Hok. destruct (get_existing_spec name st Hok) as (st' & Hok' & _ & [E|(d & E & Hd)]); unfold mbind, meta_bind; rewrite E; [done|by apply Hf].
Qed.

Lemma create_rp_ok db rp : keeps_ok (create_retention_policy db rp).
Proof using ML.
  apply change_ok. intros d Hd st Hok. apply put_database_ok; [done|]. destruct (existsb _ _) eqn:E; [done|].
  assert (rp_name rp ∉ rp_name <$> dbs_retention_policies d) as Hn.
  { intros (r & Er & Hr)%list_elem_of_fmap. apply not_true_iff_false in E. apply E, existsb_exists. exists r.
    split; [by apply list_elem_of_In|]. by apply bool_decide_eq_true. }
  pose proof (snoc_policies_ok _ rp Hd Hn) as Hs. destruct (rp_is_default rp); unfold policies_ok; [|exact Hs].
  cbn [dbs_retention_policies]. rewrite <-list_fmap_compose.
  rewrite (list_fmap_ext _ rp_name); [exact Hs|]. intros i r _. cbn. by case_bool_decide.
Qed.

Lemma drop_rp_ok db name : keeps_ok (drop_retention_policy db name).
Proof using ML. apply change_ok. intros d Hd st Hok. apply put_database_ok; [done|]. by apply without_NoDup. Qed.

Lemma alter_ok db name change : keeps_ok (alter_retention_policy db name change).
Proof using ML.
  apply change_ok. intros d Hd st Hok. destruct (update_first _ _ _) as [l|] eqn:E; [|done]. apply update_first_names in E.
  apply put_database_ok; [done|]. unfold policies_ok. case_bool_decide; rewrite ?make_default_names; cbn; by rewrite E.
Qed.

(** A database that has no row yet. *)
Lemma create_ok name st :
  dbs_ok st -> stored st !! db_key name = None -> dbs_ok (create_database name st).1.
Proof using ML.
  intros Hok Hn. pose proof (put_database_ok name (new_database name) st Hok (new_policies_ok name)) as Hput.
  unfold create_database, put_database, mbind, meta_bind, lift in *. destruct (db_to_vec _) as [v|]; [|done]. by rewrite cf_get_law, Hn.
Qed.

Lemma create_with_ok stmt : keeps_ok (create_database_with stmt).
Proof using ML.
  intros st Hok. unfold create_database_with. unfold mbind at 1, meta_bind at 1.
  destruct (get_database_spec (cd_name stmt) st Hok) as (st1 & existing & -> & Hok1 & Hdb & Hex).
  unfold mbind at 1, meta_bind at 1.
  assert (dbs_ok ((match existing with Some _ => mret tt | None => create_database (cd_name stmt) end : MetaM DB unit) st1).1) as Hok2.
  { destruct existing; [done|]. apply create_ok; [done|]. destruct Hex as [Hex _]. by rewrite Hdb. }
  destruct ((match existing with Some _ => mret tt | None => create_database (cd_name stmt) end : MetaM DB unit) st1) as [st2 [[]|e]]; [|done].
  destruct (retention_policy_from_create stmt) as [rp|]; [|done]. destruct (existing ≫= _) as [old|]; [by destruct (same_settings old rp)|].
  revert st2 Hok2. apply change_ok. intros d Hd st2 Hok2. apply put_database_ok; [done|]. unfold policies_ok. rewrite make_default_names.
  apply snoc_policies_ok; [by apply without_NoDup|]. intros [_ Hne]%without_names. done.
Qed.

Lemma drop_db_ok name : keeps_ok (drop_database name).
Proof using ML.
  intros st [H1 H2]. unfold drop_database, mbind, meta_bind, write_batch. destruct (cf_write _ _) as [d|] eqn:E; [|done].
  assert (forall n, cf_rows d META_CF !! db_key n = if decide (n = name) then None else stored st !! db_key n) as Hr.
  { intros n. rewrite (cf_write_law _ _ _ E), !fmap_cons. cbn [fold_left fmap list_fmap]. rewrite !delete_kind_rows, apply_delete_eq. cbn [has_prefix].
    assert (forall kind, kind ∈ ["meas"; "tag_val"; "series"]%string -> has_prefix (kind_prefix kind name) (db_key n) = false) as Hk.
    { intros kind. rewrite !elem_of_cons. by intros [-> |[-> |[-> |[]%elem_of_nil]]]. }
    rewrite !Hk by set_solver. case_decide as En; [by rewrite En, lookup_delete_eq|].
    rewrite lookup_delete_ne; [done|]. by intros ?%db_key_inj. }
  unfold modify, retain_series. cbn -[db_key has_prefix kind_prefix]. split; cbn -[db_key has_prefix kind_prefix].
  - intros n v. rewrite Hr. case_decide; [done|]. apply H1.
  - intros n d0. rewrite lookup_delete_Some. intros [Hne (v & Hv & ?)%H2]. exists v. cbn -[db_key]. by rewrite Hr, decide_False.
Qed.

(** *** Calls that do not touch databases *)

#[local] Abbreviation keeps_dbs := (keeps_rel same_dbs).

(** The key an operation is about does not belong to a database. *)
Definition other_op (o : CfOp MetaCf) : Prop :=
  match o with
  | PutCf _ k _ | DeleteCf _ k => has_prefix db_text k = false
  | DeleteRangeCf _ _ _ => False
  end.

Lemma keeps_write b : Forall other_op b -> keeps_dbs (write_batch b).
Proof using CL.
  intros Hb st. unfold write_batch. destruct (cf_write _ _) as [d|] eqn:E; [|done]. split; [|done]. cbn [fst md_db set_rows].
  intros k Hk. rewrite (cf_write_law _ _ _ E). clear E. generalize (stored st). induction Hb as [|o b Ho _ IH]; intros m; [done|].
  cbn [fold_left]. rewrite IH. destruct o as [[] k' v|[] k'|]; cbn in Ho; [rewrite apply_put_eq|rewrite apply_delete_eq|done].
  - rewrite lookup_insert_ne; [done|]. intros ->. congruence.
  - rewrite lookup_delete_ne; [done|]. intros ->. congruence.
Qed.

Lemma keeps_modify (f : St -> St) : (forall st, md_db (f st) = md_db st /\ md_db_cache (f st) = md_db_cache st) -> keeps_dbs (modify f).
Proof using CL. intros Hf st. destruct (Hf st) as [E1 E2]. split; cbn; [by rewrite E1|done]. Qed.

Lemma keeps_deletes keys : (forall k, k ∈ keys -> has_prefix db_text k = false) -> keeps_dbs (remove_rows keys).
Proof using CL.
  induction keys as [|k keys IH]; intros Hk; [apply (keeps_ret _)|]. cbn [remove_rows]. apply (keeps_bind _).
  - apply keeps_write. constructor; [|constructor]. apply Hk. by left.
  - intros _. apply IH. intros. apply Hk. by right.
Qed.

(** Keys that were read from storage. *)
Lemma keeps_read {A B} (r : St -> result string A) (P : A -> Prop) (k : A -> MetaM DB B) :
  (forall st a, r st = Ok a -> P a) -> (forall a, P a -> keeps_dbs (k a)) -> keeps_dbs (lift r ≫= k).
Proof using CL.
  intros Hr Hk st. unfold mbind, meta_bind, lift. destruct (r st) as [a|] eqn:E; [|done]. apply Hk. by eapply Hr.
Qed.

Lemma series_not_db k : has_prefix series_text k = true -> has_prefix db_text k = false.
Proof using CL. by intros (k' & ->)%has_prefix_true. Qed.

Lemma collect_series P pick (st : St) keys :
  collect_loop (series_text ++ P) pick (cf_scan (md_db st) META_CF (series_text ++ P)) = Ok keys ->
  forall k, k ∈ keys -> has_prefix db_text k = false.
Proof using CL. intros E k (_ & Hp & _)%(collect_ok _ _ _ _ E). by eapply series_not_db, has_prefix_weaken. Qed.

Lemma range_keys P start end_ items keys : range_loop P start end_ items = Ok keys -> forall k, k ∈ keys -> has_prefix P k = true.
Proof using CL.
  revert keys. induction items as [|[[k v]|e] items IH]; intros keys; cbn [range_loop]; [by intros [= <-] ? ?%elem_of_nil| |done].
  unfold visit. destruct (has_prefix P k) eqn:Hp; cbn [negb]; [|by intros [= <-] ? ?%elem_of_nil].
  destruct (negb (utf8_valid k)); [apply IH|]. destruct (from_str_radix _ _) as [id|]; [|apply IH].
  destruct (end_ <=? id); [by intros [= <-] ? ?%elem_of_nil|]. destruct (range_loop _ _ _ items) as [l|]; [|done]. cbn.
  intros [= <-] k'. specialize (IH l eq_refl k'). destruct (start <=? id); [|done]. intros [-> |]%elem_of_cons; auto.
Qed.

#[local] Ltac keeps_step :=
  first [apply (keeps_ret _)|apply (keeps_lift _)|by apply keeps_modify|apply (keeps_bind _); [|intros ?]].

Lemma keeps_register db rp meas series : keeps_dbs (register_series_batch db rp meas series).
Proof using CL.
  apply (keeps_read _ (fun novel => forall k, k ∈ novel.*1 -> has_prefix db_text k = false)).
  - intros st novel E k (_ & i & _ & ->)%(novel_series_ok _ _ _ _ _ _ E). apply series_not_db, series_row_text.
  - intros [|kv novel] Hn; [keeps_step|]. keeps_step; [|keeps_step]. apply keeps_write. apply Forall_fmap, Forall_forall.
    intros kv' Hkv. cbn. apply Hn. by apply list_elem_of_fmap_2.
Qed.

Lemma keeps_delete_matching db rp meas predicate : keeps_dbs (delete_series_matching db rp meas predicate).
Proof using CL.
  apply (keeps_read _ (fun keys => forall k, k ∈ keys -> has_prefix db_text k = false)); [intros st keys; apply collect_series|].
  intros keys Hk. keeps_step; [by apply keeps_deletes|]. repeat keeps_step.
Qed.

Lemma keeps_delete_range db rp meas start end_ : keeps_dbs (delete_series_in_range db rp meas start end_).
Proof using CL.
  apply (keeps_read _ (fun keys => forall k, k ∈ keys -> has_prefix db_text k = false)).
  - intros st keys E k Hk. by eapply series_not_db, (has_prefix_weaken series_text), (range_keys _ _ _ _ _ E).
  - intros keys Hk. keeps_step; [by apply keeps_deletes|]. repeat keeps_step.
Qed.

Lemma keeps_delete_measurement db rp meas : keeps_dbs (delete_measurement db rp meas).
Proof using CL.
  keeps_step; [by apply keeps_write; repeat constructor|].
  apply (keeps_read _ (fun keys => forall k, k ∈ keys -> has_prefix db_text k = false)); [intros st keys; apply collect_series|].
  intros keys Hk. keeps_step; [by apply keeps_deletes|]. repeat keeps_step.
Qed.

Lemma keeps_tags db rp meas entries : keeps_dbs (store_tag_values_batch db rp meas entries).
Proof using CL.
  intros st. unfold store_tag_values_batch. set (novel := List.filter _ _).
  assert (forall k, k ∈ novel -> has_prefix db_text k = false) as Hn.
  { intros k [(e & -> & _)%list_elem_of_fmap _]%filterb_elem_of. done. }
  clearbody novel. destruct novel as [|k0 novel]; [done|]. revert st.
  apply (keeps_read _ (fun created => forall k, k ∈ created -> has_prefix db_text k = false)).
  - intros st created E k Hk. by apply Hn, (unstored_sub _ _ _ E).
  - intros created Hc. keeps_step; [|keeps_step]. apply keeps_write. cbn [app]. apply Forall_fmap, Forall_forall. intros k. apply Hc.
Qed.

(** *** All calls *)

(** Calls one after the other, failed or not. *)
Definition run_any (cs : list SeriesCall) (st : St) : St := fold_left (fun st c => (run_call c st).1) cs st.

Lemma run_call_dbs_ok c : keeps_ok (run_call c).
Proof using ML.
  intros st Hok. assert (keeps_dbs (run_call c) -> dbs_ok (run_call c st).1) as Hk by (intros Hk; by eapply dbs_frame).
  destruct c; cbn [run_call] in *; unfold unit_call in *.
  - apply Hk, keeps_register.
  - apply Hk. keeps_step; [apply keeps_delete_range|keeps_step].
  - apply Hk. keeps_step; [apply keeps_delete_matching|keeps_step].
  - apply Hk, keeps_delete_measurement.
  - by apply drop_db_ok.
  - by apply create_with_ok.
  - by apply create_rp_ok.
  - by apply drop_rp_ok.
  - by apply alter_ok.
  - apply Hk, keeps_tags.
  - apply Hk. keeps_step; [|keeps_step]. repeat keeps_step.
  - destruct Hok as [H1 H2]. by split.
Qed.

Lemma run_any_ok cs st : dbs_ok st -> dbs_ok (run_any cs st).
Proof using ML. revert st. induction cs as [|c cs IH]; intros st Hok; [done|]. by apply IH, run_call_dbs_ok. Qed.
End StoreDatabases.

(** ** Properties *)


Definition week : RetentionPolicy := mkRp "week" (Some (secs 604800)) (secs 86400) 1 true.
Definition day : RetentionPolicy := mkRp "day" (Some (secs 86400)) (secs 3600) 1 false.

Definition create_db : SeriesCall := CreateDb (mkCreateDb "db" None None None None).

Definition names_of (r : result MetaError (option Database)) : list string :=
  match r with Ok (Some d) => rp_name <$> dbs_retention_policies d | _ => [] end.

Definition db_calls : list SeriesCall :=
  [create_db; CreateRp "db" week; CreateRp "other" day; CreateRp "db" day; DropRp "db" "autogen"].


(** ** Where the store departs *)

(** A replicated CREATE DATABASE of an existing database makes its cached
    policies the initial ones, and the next change writes that. *)
Theorem recreated_database_forgets_policies :
  let st := (apply_create_database "db" None (run_any [create_db; CreateRp "db" week] fresh_metadata)).1 in
  names_of (get_database "db" st).2 = ["autogen"]%string /\
  names_of (get_database "db" (open_metadata (md_db st))).2 = ["autogen"; "week"]%string /\
  names_of (get_database "db" (open_metadata (md_db (run_any [CreateRp "db" day] st)))).2 = ["autogen"; "day"]%string.
Proof. vm_compute. split_and!; reflexivity. Qed.

(** Dropping the default policy makes another one the default, which is not
    marked so. *)
Theorem new_default_not_marked :
  (get_database "db" (run_any [create_db; CreateRp "db" day; DropRp "db" "autogen"] fresh_metadata)).2
  = Ok (Some (mkDatabase "db" [day] "day")) /\ rp_is_default day = false.
Proof. vm_compute. split; reflexivity. Qed.

(** After the last policy is dropped the default names no policy, also when
    another one is created. *)
Theorem default_policy_missing :
  (get_database "db" (run_any [create_db; DropRp "db" "autogen"; CreateRp "db" day] fresh_metadata)).2
  = Ok (Some (mkDatabase "db" [day] "autogen")).
Proof. vm_compute. reflexivity. Qed.
