(* ===== verification/ShardSplitMerge.v ===== *)
(** * Split and merge decisions

    The part of [application/shard_scheduler.rs] that changes the shape of a
    space: the heartbeats and split hints it keeps, the choice of a split
    key, and the split and merge it proposes. A proposal is applied to the
    map as its commit does ([apply_shard_map_op]); the medians come from the
    metadata store. Metrics and logging are left out. *)

From stdpp Require Import prelude list sorting gmap fin_sets strings.
From S2P Require Import Prelude Bytes CfStore Wire ShardTypes ShardOps ShardInvariant ShardTheorems.
From S2P Require Import QueryAst ColumnNaming CqSchedule MetaStore MetaSeries.
From stdpp Require Import options.

#[local] Open Scope N_scope.

(** ** What the scheduler knows *)

Record RegionHeartbeatRow := mkHeartbeat {
  hb_region_id : N;
  hb_node_id : N;
  hb_series_count : N;
  hb_approx_bytes : N;
  hb_write_qps : N;
  hb_at : N
}.

Record SplitScheduler := mkScheduler {
  ss_node_id : N;
  ss_heartbeats : list RegionHeartbeatRow;
  ss_split_hints : gmap (N * N) N;
  ss_cross_epoch_merge : gmap N bool;
  ss_region_operators : gset N;
  ss_max_regions_per_measurement : N
}.

Definition record_heartbeat (row : RegionHeartbeatRow) (s : SplitScheduler) : SplitScheduler :=
  mkScheduler (ss_node_id s)
    (List.filter (fun h => negb ((hb_region_id h =? hb_region_id row) && (hb_node_id h =? hb_node_id row)))
       (ss_heartbeats s) ++ [row])
    (ss_split_hints s) (ss_cross_epoch_merge s) (ss_region_operators s) (ss_max_regions_per_measurement s).

Definition record_cross_epoch_merge (node : N) (supported : bool) (s : SplitScheduler) : SplitScheduler :=
  mkScheduler (ss_node_id s) (ss_heartbeats s) (ss_split_hints s) (<[node := supported]> (ss_cross_epoch_merge s))
    (ss_region_operators s) (ss_max_regions_per_measurement s).

Definition record_split_hint (region node : N) (hint : option N) (s : SplitScheduler) : SplitScheduler :=
  mkScheduler (ss_node_id s) (ss_heartbeats s)
    (match hint with
     | Some k => <[(region, node) := k]> (ss_split_hints s)
     | None => delete (region, node) (ss_split_hints s)
     end)
    (ss_cross_epoch_merge s) (ss_region_operators s) (ss_max_regions_per_measurement s).

Definition cross_epoch_merge_ready (candidates : list N) (s : SplitScheduler) : bool :=
  forallb (fun id => (id =? ss_node_id s) || default false (ss_cross_epoch_merge s !! id)) candidates.

(** Rows of the peers of a region. *)
Definition region_rows (hb : list RegionHeartbeatRow) (r : ShardRegion) : list RegionHeartbeatRow :=
  List.filter (fun h => (hb_region_id h =? region_id r) && bool_decide (hb_node_id h ∈ peers r)) hb.

(** [max_by_key]: the last of several. *)
Definition most_series (rows : list RegionHeartbeatRow) : option RegionHeartbeatRow :=
  fold_left (fun best h =>
    match best with
    | Some b => if hb_series_count b <=? hb_series_count h then Some h else best
    | None => Some h
    end) rows None.

Definition peer_split_hint (r : ShardRegion) (s : SplitScheduler) : option N :=
  reporter ← most_series (region_rows (ss_heartbeats s) r);
  ss_split_hints s !! (region_id r, hb_node_id reporter).

(** ** Splits *)

Definition REGIONS_PER_CANDIDATE : N := 32.

Definition region_cap (configured_floor candidates : N) : N :=
  N.max configured_floor (N.max (N.min (candidates * REGIONS_PER_CANDIDATE) u64_max) 1).

Definition region_ready_to_split (series_count last_split_at now split_series max_series split_cooldown_secs : N) : bool :=
  if max_series <? series_count then true
  else if last_split_at =? 0 then false
  else if now - last_split_at <? split_cooldown_secs then false
  else split_series <? series_count.

Definition choose_split_key (lo hi : N) (peer_hint local_median : option N) : N :=
  let inside o := k ← o; if (lo <? k) && (k <? hi) then Some k else None in
  let key := match inside peer_hint with
             | Some k => k
             | None => default (lo + (hi - lo) / 2) (inside local_median)
             end in
  N.min (N.max key (sat_add lo 1)) (hi - 1).

Inductive SplitRefusal := RangeTooNarrow | TransferDebt | RegionCap.

Inductive SplitOutcome := Proposed | Refused (reason : SplitRefusal).

Definition set_range (lo hi : N) (r : ShardRegion) : ShardRegion :=
  mkRegion (region_id r) lo hi (epoch r) (peers r) (primary r) (last_split_at r) (transfer_verified r)
    (transfer_first_seen r) (state r) (staged_from r) (staging_peers r).

Definition set_last_split (t : N) (r : ShardRegion) : ShardRegion :=
  mkRegion (region_id r) (start r) (end_ r) (epoch r) (peers r) (primary r) t (transfer_verified r)
    (transfer_first_seen r) (state r) (staged_from r) (staging_peers r).

(** Both children are clones of the parent: a split moves no data. *)
Definition split_op (m : ShardMap) (k : MeasurementKey) (r : ShardRegion) (split_key now : N) : ShardMapOp :=
  let child := set_last_split now (set_epoch (bump_version (epoch r)) r) in
  Split k (region_id r) split_key (epoch r)
    (set_range (start r) split_key child)
    (set_region_id (next_region_id m) (set_range split_key (end_ r) child)).

(** A committed proposal; a refused one leaves the map. *)
Definition propose (op : ShardMapOp) (m : ShardMap) : ShardMap * result ShardMapApplyError unit :=
  match apply_shard_map_op m op with
  | (m', Ok u) => (m', Ok u)
  | (_, Err e) => (m, Err e)
  end.

Section Decisions.
(** [median_series_id_in_range] of the metadata port. *)
Context (median : MeasurementKey -> N -> N -> result string (option N)).

Definition compute_split_key (k : MeasurementKey) (r : ShardRegion) (s : SplitScheduler) : N :=
  let local_median :=
    if bool_decide (ss_node_id s ∈ peers r) then
      match median k (start r) (end_ r) with Ok o => o | Err _ => None end
    else None in
  choose_split_key (start r) (end_ r) (peer_split_hint r s) local_median.

Definition try_split (candidates : list N) (now : N) (k : MeasurementKey) (r : ShardRegion) (s : SplitScheduler) (m : ShardMap)
    : ShardMap * result ShardMapApplyError SplitOutcome :=
  if end_ r - start r <=? 1 then (m, Ok (Refused RangeTooNarrow))
  else if transfer_outstanding r then (m, Ok (Refused TransferDebt))
  else if match space m k with
          | Some sp => region_cap (ss_max_regions_per_measurement s) (N.of_nat (length candidates)) <=? N.of_nat (length (regions sp))
          | None => false
          end then (m, Ok (Refused RegionCap))
  else
    match propose (split_op m k r (compute_split_key k r s) now) m with
    | (m', Ok _) => (m', Ok Proposed)
    | (m', Err e) => (m', Err e)
    end.
End Decisions.

(** ** Merges *)

Definition mergeable (a b : ShardRegion) (cross_epoch : bool) : bool :=
  bool_decide (staging_peers a = []) && bool_decide (staging_peers b = [])
  && bool_decide (list_to_set (peers a) = (list_to_set (peers b) : gset N))
  && (cross_epoch || bool_decide (epoch a = epoch b)).

Definition merged_epoch (a b : ShardEpoch) : ShardEpoch :=
  bump_version (mkEpoch (N.max (conf_ver a) (conf_ver b)) (N.max (version a) (version b))).

Definition merge_op (k : MeasurementKey) (left right : ShardRegion) (now : N) : ShardMapOp :=
  Merge k (region_id left) (region_id right) (epoch left)
    (if bool_decide (epoch right = epoch left) then None else Some (epoch right))
    (set_last_split now (set_epoch (merged_epoch (epoch left) (epoch right)) (set_range (start left) (end_ right) left))).

Definition try_merge (candidates : list N) (now : N) (k : MeasurementKey) (left right : ShardRegion) (s : SplitScheduler) (m : ShardMap)
    : ShardMap * result ShardMapApplyError unit :=
  if negb (end_ left =? start right) then (m, Ok tt)
  else if transfer_outstanding left || transfer_outstanding right then (m, Ok tt)
  else if negb (mergeable left right (cross_epoch_merge_ready candidates s)) then (m, Ok tt)
  else propose (merge_op k left right now) m.

Definition current_region (m : ShardMap) (k : MeasurementKey) (id : N) : option ShardRegion :=
  sp ← spaces m !! k; find (fun r => region_id r =? id) (regions sp).

(** Both regions are claimed first, and read again. *)
Definition run_merge (candidates : list N) (now : N) (k : MeasurementKey) (left_id right_id : N) (s : SplitScheduler) (m : ShardMap)
    : ShardMap * result ShardMapApplyError unit :=
  if bool_decide (left_id ∈ ss_region_operators s) then (m, Ok tt)
  else if bool_decide (right_id ∈ {[ left_id ]} ∪ ss_region_operators s) then (m, Ok tt)
  else
    match current_region m k left_id, current_region m k right_id with
    | Some l, Some r => try_merge candidates now k l r s m
    | _, _ => (m, Ok tt)
    end.

(** ** The split key *)

Lemma choose_split_key_inside lo hi hint local :
  hi <= u64_max -> 1 < hi - lo -> lo < choose_split_key lo hi hint local < hi.
Proof. intros Hu Hw. unfold choose_split_key, sat_add. cbn zeta. lia. Qed.

(** A key inside the range is taken as it is. *)
Lemma choose_inside lo hi local key :
  hi <= u64_max -> lo < key < hi -> local = Some key -> choose_split_key lo hi None local = key.
Proof.
  intros Hu [Hl Hh] ->. unfold choose_split_key, sat_add. cbn. rewrite (proj2 (N.ltb_lt _ _) Hl), (proj2 (N.ltb_lt _ _) Hh). cbn. lia.
Qed.

(** ** Accepted operations *)

Lemma position_id l1 (r : ShardRegion) l2 :
  NoDup (region_id <$> l1 ++ r :: l2) -> position (fun x => region_id x =? region_id r) (l1 ++ r :: l2) = Some (length l1).
Proof.
  intros Hnd. destruct (position _ _) as [i|] eqn:E.
  - apply position_Some in E as (x & Hx & Ex%N.eqb_eq & _). f_equal.
    apply (NoDup_lookup (region_id <$> l1 ++ r :: l2) _ _ (region_id r) Hnd); rewrite list_lookup_fmap.
    + by rewrite Hx, <-Ex.
    + by rewrite list_lookup_middle.
  - rewrite position_None in E. specialize (E r ltac:(set_solver)). by rewrite N.eqb_refl in E.
Qed.

(** A region of the map, with its neighbours. *)
Lemma in_map_split m k r : map_wf m -> in_map m k r -> exists l1 l2, spaces m !! k = Some (mkSpace k (l1 ++ r :: l2)).
Proof.
  intros Hwf ([k' l] & Hs & Hr). pose proof (mwf_key _ Hwf _ _ Hs) as Hk. cbn in Hk. subst k'. cbn in Hr.
  apply list_elem_of_split in Hr as (l1 & l2 & ->). eauto.
Qed.

(** Two regions that meet are neighbours. *)
Lemma meeting_neighbours m k l r :
  map_wf m -> in_map m k l -> in_map m k r -> end_ l = start r ->
  exists l1 l2, spaces m !! k = Some (mkSpace k (l1 ++ l :: r :: l2)).
Proof.
  intros Hwf Hl Hr E. destruct (in_map_split m k l Hwf Hl) as (l1 & l2 & Hs). exists l1.
  pose proof (rwf_nonempty _ (mwf_region _ Hwf k r Hr)) as Hrn. pose proof (rwf_nonempty _ (mwf_region _ Hwf k l Hl)) as Hln.
  destruct (chain_middle _ _ _ _ _ (map_wf_space_chain _ _ _ Hwf Hs)) as (C1 & _ & C3).
  destruct Hr as (s & Hs' & Hin). rewrite Hs in Hs'. injection Hs' as <-. cbn in Hin.
  apply elem_of_app in Hin as [Hin|[-> |Hin]%elem_of_cons].
  - pose proof (chain_bounds _ _ _ _ C1 Hin). lia.
  - lia.
  - destruct l2 as [|x l2]; [by apply elem_of_nil in Hin|]. exists l2. apply elem_of_cons in Hin as [-> |Hin]; [done|].
    cbn in C3. destruct C3 as (Ex & _ & C4). pose proof (chain_bounds _ _ _ _ C4 Hin).
    assert (in_map m k x) as Hx by (eexists; split; [done|cbn; set_solver]).
    pose proof (rwf_nonempty _ (mwf_region _ Hwf k x Hx)). lia.
Qed.

(** The ids of the other spaces do not meet those of a changed one. *)
Lemma global_ids_put m k l s :
  map_wf m -> spaces m !! k = Some (mkSpace k l) -> NoDup (region_id <$> regions s) ->
  (forall r, r ∈ regions s -> (exists r0, r0 ∈ l /\ region_id r0 = region_id r) \/ any_region_id m (region_id r) = false) ->
  validate_global_region_ids (put_space k s m) = Ok tt.
Proof.
  intros Hwf Hs Hnd Hids. apply global_ids_Ok. split.
  - intros k' s' Hs'. cbn in Hs'. apply lookup_insert_Some in Hs' as [[<- <-]|[_ Hs']]; [done|]. by eapply space_wf_nodup, mwf_space.
  - assert (forall k2 r1 r2, r1 ∈ regions s -> k2 <> k -> in_map m k2 r2 -> region_id r1 = region_id r2 -> False) as Hne.
    { intros k2 r1 r2 H1 Hk H2 Eid. destruct (Hids r1 H1) as [(r0 & H0 & E0)|Hf].
      - apply Hk. apply (mwf_ids _ Hwf k2 k r2 r0 H2); [by eexists|congruence].
      - rewrite any_region_id_false in Hf. by eapply Hf. }
    intros k1 k2 r1 r2 [[-> H1]|[Hn1 H1]]%in_map_put [[-> H2]|[Hn2 H2]]%in_map_put Eid; [done|exfalso..|].
    + by eapply Hne.
    + by eapply (Hne k1 r2 r1).
    + by eapply mwf_ids.
Qed.

Lemma normalise_child_copies old c : peers (normalise_child old c) = peers c /\ staging_peers (normalise_child old c) = staging_peers c.
Proof. unfold normalise_child. by destruct (negb _). Qed.

(** A region replaced by two that meet inside it, the right one with a fresh id. *)
Lemma split_children_wf m k l1 r l2 a b sk :
  map_wf m -> spaces m !! k = Some (mkSpace k (l1 ++ r :: l2)) ->
  any_region_id m (region_id b) = false -> region_id b <= u64_max -> region_id a = region_id r ->
  start a = start r -> end_ a = sk -> start b = sk -> end_ b = end_ r -> start r < sk < end_ r ->
  space_wf (mkSpace k (l1 ++ a :: b :: l2)).
Proof.
  intros Hwf Hs Hfresh Hb Ea L1 L2 R1 R2 [Hlo Hhi]. pose proof (mwf_space _ Hwf _ _ Hs) as Hsw.
  pose proof (space_wf_nodup _ Hsw) as Hnd. cbn [regions] in Hnd.
  apply space_wf_intro; cbn [regions].
  - pose proof (swf_u64 _ Hsw) as Hu. cbn in Hu. rewrite Forall_app, Forall_cons in Hu. rewrite Forall_app, !Forall_cons.
    destruct Hu as (? & (? & ? & ?) & ?). split_and!; try done; unfold u64_region; split_and!; lia.
  - pose proof (space_wf_chain _ Hsw) as (mid & C1 & C2 & C3 & C4)%chain_app. cbn in C2.
    apply chain_app. exists mid. split; [done|]. cbn. rewrite L1, L2, R1, R2. split_and!; try done; lia.
  - rewrite !fmap_app, !fmap_cons in *. rewrite Ea.
    apply (NoDup_Permutation_proper _ (region_id b :: (region_id <$> l1) ++ region_id r :: (region_id <$> l2))).
    { rewrite !Permutation_middle. apply Permutation_app_head. constructor. }
    constructor; [|done]. rewrite any_region_id_false in Hfresh. intros Hin.
    assert (region_id b ∈ region_id <$> l1 ++ r :: l2) as (x & Ex & Hx)%list_elem_of_fmap by (by rewrite fmap_app, fmap_cons).
    apply (Hfresh k x); [|done]. by eexists.
Qed.

Lemma split_op_wf m k r sk now :
  map_wf m -> in_map m k r -> start r < sk < end_ r -> op_wf (split_op m k r sk now).
Proof.
  intros Hwf Hr [Hlo Hhi]. pose proof (mwf_region _ Hwf k r Hr) as Hrw. pose proof (mwf_next_u64 _ Hwf) as Hnu.
  pose proof (rwf_u64 _ Hrw) as (Hu1 & Hu2 & Hu3). destruct Hrw as [_ ? ? ? ? ?].
  split; [|split; [|done]]; constructor; cbn; try done; unfold u64_region; cbn; split_and!; try lia.
Qed.

(** The split of a region of the map, inside its range, is accepted. *)
Lemma split_op_accepted m k r sk now :
  map_wf m -> next_region_id m < u64_max -> in_map m k r -> start r < sk < end_ r ->
  exists m', apply_shard_map_op m (split_op m k r sk now) = (m', Ok tt).
Proof.
  intros Hwf Hn Hr [Hlo Hhi]. pose proof (mwf_next_u64 _ Hwf) as Hnu.
  destruct (in_map_split m k r Hwf Hr) as (l1 & l2 & Hs). pose proof (mwf_space _ Hwf _ _ Hs) as Hsw.
  pose proof (space_wf_nodup _ Hsw) as Hnd. cbn [regions] in Hnd.
  assert (any_region_id m (next_region_id m) = false) as Hfresh.
  { apply any_region_id_false. intros k' r' Hin. destruct (mwf_next _ Hwf _ _ Hin); lia. }
  unfold apply_shard_map_op, split_op. fold (bump_map m). unfold apply_split. cbn [next_region_id bump_map set_map_version].
  change (any_region_id (bump_map m) (next_region_id m)) with (any_region_id m (next_region_id m)). rewrite Hfresh.
  cbn [spaces set_next_region_id bump_map set_map_version]. rewrite Hs. cbn [regions key]. rewrite position_id by done.
  rewrite list_lookup_middle by done. rewrite bool_decide_true by done. cbn [negb].
  rewrite (proj2 (N.leb_gt _ _) Hlo), (proj2 (N.leb_gt _ _) Hhi). cbn [orb]. cbn [end_ set_range start set_region_id].
  rewrite N.eqb_refl. cbn [negb orb]. rewrite splice_app.
  set (lc := normalise_child r (set_range (start r) sk _)). set (rc := normalise_child r (set_region_id _ (set_region_id _ _))).
  destruct (normalise_child_place r (set_range (start r) sk (set_last_split now (set_epoch (bump_version (epoch r)) r)))) as (L1 & L2 & L3 & _).
  destruct (normalise_child_place r (set_region_id (next_region_id m) (set_region_id (next_region_id m)
    (set_range sk (end_ r) (set_last_split now (set_epoch (bump_version (epoch r)) r)))))) as (R1 & R2 & R3 & _).
  fold lc in L1, L2, L3. fold rc in R1, R2, R3. cbn in L1, L2, L3, R1, R2, R3.
  assert (space_wf (mkSpace k (l1 ++ lc :: rc :: l2))) as Hsw'.
  { apply (split_children_wf m k l1 r l2 lc rc sk Hwf Hs); try done; by rewrite R3. }
  rewrite (sort_space_id _ Hsw'), (swf_valid _ Hsw').
  assert (map_wf (set_next_region_id (sat_add (next_region_id m) 1) (bump_map m))) as Hwf'.
  { apply set_next_wf; [by apply bump_map_wf|cbn; unfold sat_add; lia|unfold sat_add; lia]. }
  rewrite (global_ids_put _ k (l1 ++ r :: l2)); [by eexists|done|done|by apply (space_wf_nodup _ Hsw')|].
  intros x Hx. cbn in Hx. rewrite elem_of_app, !elem_of_cons in Hx. destruct Hx as [Hx|[-> |[-> |Hx]]].
  - left. exists x. set_solver.
  - left. exists r. split; [set_solver|done].
  - right. rewrite R3. exact Hfresh.
  - left. exists x. set_solver.
Qed.

(** The merge of two regions that meet is accepted. *)
Lemma merge_op_accepted m k l r now :
  map_wf m -> in_map m k l -> in_map m k r -> end_ l = start r ->
  op_wf (merge_op k l r now) /\ exists m', apply_shard_map_op m (merge_op k l r now) = (m', Ok tt).
Proof.
  intros Hwf Hl Hr Hmeet. pose proof (mwf_region _ Hwf k l Hl) as Hlw. pose proof (mwf_region _ Hwf k r Hr) as Hrw.
  pose proof (rwf_u64 _ Hlw) as (Hu1 & Hu2 & Hu3). pose proof (rwf_u64 _ Hrw) as (Hv1 & Hv2 & Hv3).
  pose proof (rwf_nonempty _ Hlw) as Hle. pose proof (rwf_nonempty _ Hrw) as Hre.
  set (mg := set_last_split now (set_epoch (merged_epoch (epoch l) (epoch r)) (set_range (start l) (end_ r) l))).
  assert (region_wf mg) as Hmw.
  { destruct Hlw as [_ ? ? ? ? ?]. constructor; cbn; try done; try lia. }
  split; [by split|].
  destruct (meeting_neighbours m k l r Hwf Hl Hr Hmeet) as (l1 & l2 & Hs). pose proof (mwf_space _ Hwf _ _ Hs) as Hsw.
  pose proof (space_wf_nodup _ Hsw) as Hnd. cbn [regions] in Hnd.
  unfold apply_shard_map_op, merge_op. fold mg. fold (bump_map m). unfold apply_merge. cbn [spaces bump_map set_map_version].
  rewrite Hs. cbn [regions key]. rewrite position_id by done. rewrite list_lookup_middle by done. cbn [fmap option_fmap option_map].
  rewrite bool_decide_true by done. cbn [negb].
  replace (l1 ++ l :: r :: l2) with ((l1 ++ [l]) ++ r :: l2) in * by (by rewrite <-app_assoc).
  rewrite position_id by done. rewrite length_app, Nat.add_1_r, Nat.eqb_refl. cbn [negb].
  rewrite list_lookup_middle by (rewrite length_app; cbn; lia). cbn [fmap option_fmap option_map].
  rewrite bool_decide_true by (by case_bool_decide; cbn; congruence). cbn [negb].
  rewrite <-app_assoc. cbn [app]. rewrite splice_merged_app.
  assert (space_wf (mkSpace k (l1 ++ mg :: l2))) as Hsw'; [|by rewrite (sort_space_id _ Hsw'), (swf_valid _ Hsw'); eexists].
  rewrite <-app_assoc in Hsw, Hnd. cbn [app] in Hsw, Hnd. apply space_wf_intro; cbn [regions].
  - pose proof (swf_u64 _ Hsw) as Hu. cbn in Hu. rewrite Forall_app, !Forall_cons in Hu. rewrite Forall_app, !Forall_cons.
    destruct Hu as (? & _ & _ & ?). split_and!; try done.
  - pose proof (space_wf_chain _ Hsw) as (mid & C1 & C2 & C3 & C4 & C5 & C6)%chain_app.
    apply chain_app. exists mid. split; [done|]. cbn. split_and!; try done. lia.
  - rewrite !fmap_app, !fmap_cons in *. cbn. apply NoDup_app in Hnd as (N1 & N2 & (N3 & [N4 N5]%NoDup_cons)%NoDup_cons).
    apply NoDup_app. split_and!; [done|set_solver|]. constructor; set_solver.
Qed.

(** ** What the operations keep *)

(** Where the copies of a region are, and whether they are complete. *)
Definition same_copies (r r' : ShardRegion) : Prop :=
  list_to_set (peers r') = (list_to_set (peers r) : gset N)
  /\ staging_peers r' = staging_peers r /\ transfer_outstanding r' = transfer_outstanding r.

#[export] Instance same_copies_equiv : Equivalence same_copies.
Proof. unfold same_copies. split; red; naive_solver congruence. Qed.

(** Every located series stays located, on the same copies. *)
Definition copies_kept (m m' : ShardMap) : Prop :=
  forall k sid r, locate m k sid = Some r -> exists r', locate m' k sid = Some r' /\ same_copies r r'.

#[export] Instance copies_kept_preorder : PreOrder copies_kept.
Proof.
  split; [intros m k sid r Hl; by exists r|]. intros m1 m2 m3 H12 H23 k sid r Hl.
  destruct (H12 _ _ _ Hl) as (r2 & Hl2 & S12). destruct (H23 _ _ _ Hl2) as (r3 & Hl3 & S23).
  exists r3. split; [done|by etrans].
Qed.

Definition region_count (m : ShardMap) (k : MeasurementKey) : N :=
  match spaces m !! k with Some s => N.of_nat (length (regions s)) | None => 0 end.

(** A series inside a region of the map is located there. *)
Lemma locate_inside m k r sid r0 :
  map_wf m -> in_map m k r -> start r <= sid < end_ r -> locate m k sid = Some r0 -> r0 = r.
Proof.
  intros Hwf (s & Hs & Hr) Hin Hl. unfold locate in Hl. rewrite Hs in Hl. cbn in Hl.
  apply space_locate_sound in Hl as [H0 C0].
  apply (chain_contains_unique _ _ _ sid _ _ (space_wf_chain _ (mwf_space _ Hwf _ _ Hs)) H0 Hr C0).
  unfold contains. apply andb_true_iff. rewrite N.leb_le, N.ltb_lt. lia.
Qed.

Lemma same_id_region m k r1 r2 : map_wf m -> in_map m k r1 -> in_map m k r2 -> region_id r1 = region_id r2 -> r1 = r2.
Proof.
  intros Hwf (s & Hs & H1) (s' & Hs' & H2). rewrite Hs in Hs'. injection Hs' as <-.
  apply (nodup_region_id (regions s)); [by apply space_wf_nodup, (mwf_space _ Hwf k)|done..].
Qed.

Lemma split_effect m k r sk now m' :
  map_wf m -> in_map m k r -> op_wf (split_op m k r sk now) ->
  apply_shard_map_op m (split_op m k r sk now) = (m', Ok tt) ->
  copies_kept m m' /\ (forall k', region_count m' k' = region_count m k' + if decide (k' = k) then 1 else 0)
  /\ (forall sid, start r <= sid < end_ r -> exists c, locate m' k sid = Some c /\ peers c = peers r /\ primary c = primary r
        /\ start c = (if sid <? sk then start r else sk) /\ end_ c = (if sid <? sk then sk else end_ r)).
Proof.
  intros Hwf Hr (Hl & Hrw & _) H. pose proof (bump_map_wf _ Hwf) as Hbw.
  destruct (apply_split_Ok _ _ _ _ _ _ _ _ Hbw (rwf_u64 _ Hl) (rwf_u64 _ Hrw) H) as (l1 & l2 & old & lc & rc & Hd & Hs).
  pose proof (split_done_locate _ _ _ _ _ _ _ _ _ _ _ _ _ Hbw Hd Hs) as Hloc. destruct Hd. cbn in sd_before.
  assert (old = r) as ->.
  { apply (same_id_region m k); try done. eexists. split; [done|]. cbn. set_solver. }
  unfold normalise_child in sd_left, sd_right. cbn [primary set_range set_last_split set_epoch set_region_id] in sd_left, sd_right.
  rewrite N.eqb_refl in sd_left, sd_right. cbn [negb] in sd_left, sd_right.
  assert (forall sid, start r <= sid < end_ r -> locate m' k sid = Some (if sid <? sk then lc else rc)) as Hin.
  { intros sid Hsid. rewrite Hloc. destruct (N.leb_spec (start r) sid), (N.ltb_spec sid sk), (N.leb_spec sk sid), (N.ltb_spec sid (end_ r)); cbn; try lia; done. }
  assert (same_copies r lc /\ same_copies r rc) as [Sl Sr] by (by subst lc rc).
  split_and!.
  - intros k' sid r0 Hl0. destruct (decide (k' = k)) as [-> |Hk].
    + destruct (decide (start r <= sid < end_ r)) as [Hsid|Hsid].
      * rewrite Hin by done. rewrite (locate_inside m k r sid r0 Hwf Hr Hsid Hl0). eexists. split; [done|]. by case_match.
      * exists r0. split; [|done]. rewrite Hloc.
        destruct (N.leb_spec (start r) sid), (N.ltb_spec sid sk), (N.leb_spec sk sid), (N.ltb_spec sid (end_ r)); cbn; try lia; done.
    + exists r0. split; [|done]. subst m'. by rewrite put_space_locate, decide_False.
  - intros k'. subst m'. unfold region_count. cbn. case_decide as Hk.
    + subst k'. rewrite lookup_insert_eq, sd_before. cbn. rewrite !length_app. cbn. lia.
    + rewrite lookup_insert_ne by done. by rewrite N.add_0_r.
  - intros sid Hsid. rewrite Hin by done. eexists. split; [done|]. subst lc rc. by case_match.
Qed.

(** The map has no region with this id and this epoch. *)
Definition stale (m : ShardMap) (k : MeasurementKey) (r : ShardRegion) : Prop :=
  forall r0, in_map m k r0 -> region_id r0 = region_id r -> epoch r0 <> epoch r.

(** A split of a region that has changed since it was read is refused. *)
Lemma stale_split_refused m k r sk now :
  stale m k r -> exists m' e, apply_shard_map_op m (split_op m k r sk now) = (m', Err e).
Proof.
  intros Hst. unfold apply_shard_map_op, split_op. fold (bump_map m). unfold apply_split.
  destruct (any_region_id _ _); [by eauto|]. cbn [spaces set_next_region_id bump_map set_map_version].
  destruct (spaces m !! k) as [s|] eqn:Es; [|by eauto].
  destruct (position _ _) as [i|] eqn:Ep; [|by eauto].
  apply position_Some in Ep as (x & Hx & Ex%N.eqb_eq & _). rewrite Hx.
  rewrite bool_decide_false; [by eauto|]. apply Hst; [|done]. exists s. split; [done|by eapply list_elem_of_lookup_2].
Qed.

(** After a split the parent is gone, and the other regions are as they were. *)
Lemma split_members m k r sk now m' :
  map_wf m -> in_map m k r -> version (epoch r) < u64_max -> op_wf (split_op m k r sk now) ->
  apply_shard_map_op m (split_op m k r sk now) = (m', Ok tt) ->
  stale m' k r /\ forall k1 r1, in_map m k1 r1 -> region_id r1 <> region_id r -> in_map m' k1 r1.
Proof.
  intros Hwf Hr Hv (Hl & Hrw & _) H. pose proof (bump_map_wf _ Hwf) as Hbw.
  destruct (apply_split_Ok _ _ _ _ _ _ _ _ Hbw (rwf_u64 _ Hl) (rwf_u64 _ Hrw) H) as (l1 & l2 & old & lc & rc & Hd & Hs).
  destruct Hd. cbn in sd_before, sd_right, sd_fresh.
  assert (old = r) as ->.
  { apply (same_id_region m k); try done. eexists. split; [done|]. cbn. set_solver. }
  rewrite any_region_id_false in sd_fresh. pose proof (mwf_space _ Hwf _ _ sd_before) as Hsw.
  assert (forall r0, r0 ∈ l1 ++ l2 -> region_id r0 <> region_id r) as Hne.
  { intros r0 H0 E. pose proof (space_wf_nodup _ Hsw) as Hnd. cbn in Hnd. rewrite fmap_app, fmap_cons in Hnd.
    apply NoDup_app in Hnd as (_ & N1 & [N2 _]%NoDup_cons). apply elem_of_app in H0 as [H0|H0];
      apply (list_elem_of_fmap_2 region_id) in H0; rewrite E in H0; [apply (N1 _ H0); by left|by apply N2]. }
  split.
  - intros r0 (s & Hs0 & H0) Eid Ee. subst m'. cbn in Hs0. rewrite lookup_insert_eq in Hs0. injection Hs0 as <-. cbn in H0.
    rewrite elem_of_app, !elem_of_cons in H0. destruct H0 as [H0|[-> |[-> |H0]]].
    + by apply (Hne r0); [set_solver|].
    + subst lc. apply (f_equal version) in Ee. rewrite (proj2 (proj2 (proj2 (proj2 (normalise_child_place r _))))) in Ee. cbn in Ee. unfold sat_add in Ee. lia.
    + subst rc. rewrite (proj1 (proj2 (proj2 (normalise_child_place r _)))) in Eid. cbn in Eid. by apply (sd_fresh k r).
    + by apply (Hne r0); [set_solver|].
  - intros k1 r1 (s & Hs1 & H1) Hid. subst m'. cbn. destruct (decide (k1 = k)) as [-> |Hk].
    + rewrite sd_before in Hs1. injection Hs1 as <-. cbn in H1. eexists. split; [apply lookup_insert_eq|]. cbn.
      rewrite elem_of_app, elem_of_cons in H1. destruct H1 as [?|[-> |?]]; [set_solver|done|set_solver].
    + exists s. split; [|done]. cbn. by rewrite lookup_insert_ne.
Qed.

Lemma propose_Ok op m m' u : propose op m = (m', Ok u) -> apply_shard_map_op m op = (m', Ok tt).
Proof. unfold propose. destruct (apply_shard_map_op m op) as [m1 [[]|e]]; by intros [= <-]. Qed.

Lemma propose_Err op m m' e : propose op m = (m', Err e) -> m' = m.
Proof. unfold propose. destruct (apply_shard_map_op m op) as [m1 [[]|e1]]; by intros [= <-]. Qed.

(** What a step of the scheduler may do to the shape of the map. *)
Definition shape_kept (cap : N) (m m' : ShardMap) : Prop :=
  (reachable m -> reachable m') /\ copies_kept m m' /\ forall k, region_count m' k <= N.max cap (region_count m k).

#[export] Instance shape_kept_preorder cap : PreOrder (shape_kept cap).
Proof.
  split; [intros m; split_and!; [done|done|lia]|]. intros m1 m2 m3 (A1 & B1 & C1) (A2 & B2 & C2).
  split_and!; [auto|by etrans|]. intros k. specialize (C1 k). specialize (C2 k). lia.
Qed.

(** A split goes through on a region of the map, or leaves the map. *)
Lemma try_split_cases median cands now k r s m m' out :
  reachable m -> in_map m k r \/ stale m k r -> try_split median cands now k r s m = (m', out) ->
  m' = m \/ in_map m k r /\ exists sk, op_wf (split_op m k r sk now) /\ apply_shard_map_op m (split_op m k r sk now) = (m', Ok tt).
Proof.
  intros Hm Hfs H. pose proof (reachable_wf _ Hm) as Hwf. unfold try_split in H.
  destruct (end_ r - start r <=? 1) eqn:Ew; [left; by simplify_eq|]. apply N.leb_gt in Ew.
  destruct (transfer_outstanding r); [left; by simplify_eq|].
  destruct (match space m k with Some _ => _ | None => _ end); [left; by simplify_eq|].
  destruct (propose _ m) as [m1 [u|e]] eqn:Ep; simplify_eq; [|left; by apply propose_Err in Ep as ->].
  apply propose_Ok in Ep. destruct Hfs as [Hr|Hst].
  2: { destruct (stale_split_refused m k r (compute_split_key median k r s) now Hst) as (? & ? & Hx). by rewrite Hx in Ep. }
  right. split; [done|]. exists (compute_split_key median k r s). split; [|done].
  apply split_op_wf; try done. apply choose_split_key_inside; [|done].
  by destruct (rwf_u64 _ (mwf_region _ Hwf k r Hr)) as (_ & _ & ?).
Qed.

Lemma try_split_shape median cands now k r s m m' out :
  reachable m -> in_map m k r \/ stale m k r -> try_split median cands now k r s m = (m', out) ->
  shape_kept (region_cap (ss_max_regions_per_measurement s) (N.of_nat (length cands))) m m'.
Proof.
  intros Hm Hfs H. pose proof (reachable_wf _ Hm) as Hwf.
  destruct (try_split_cases _ _ _ _ _ _ _ _ _ Hm Hfs H) as [-> |(Hr & sk & How & Ha)]; [done|].
  destruct (split_effect _ _ _ _ _ _ Hwf Hr How Ha) as (Hk & Hc & _).
  split_and!; [intros _; by eapply reachable_step|done|]. intros k'. rewrite Hc. case_decide as E; [|lia].
  subst k'. destruct Hr as (sp & Hs & Hr). unfold try_split, space in H. rewrite Hs in H.
  unfold region_count. rewrite Hs. destruct (region_cap _ _ <=? N.of_nat (length (regions sp))) eqn:Ecap; [|apply N.leb_gt in Ecap; lia].
  exfalso. assert (m' = m) as -> by (repeat case_match; by simplify_eq).
  specialize (Hc k). rewrite decide_True in Hc by done. lia.
Qed.

Lemma current_region_in m k id r : current_region m k id = Some r -> in_map m k r /\ region_id r = id.
Proof.
  unfold current_region. destruct (spaces m !! k) as [sp|] eqn:Es; [|done]. cbn. intros [Hr He]%find_some.
  split; [exists sp; split; [done|by apply list_elem_of_In]|by apply N.eqb_eq].
Qed.

Lemma current_region_of m k r : map_wf m -> in_map m k r -> current_region m k (region_id r) = Some r.
Proof.
  intros Hwf (sp & Hs & Hr). unfold current_region. rewrite Hs. cbn.
  destruct (find _ _) as [x|] eqn:E.
  - apply find_some in E as [Hx He%N.eqb_eq]. f_equal. apply (same_id_region m k); try done; exists sp; split; try done. by apply list_elem_of_In.
  - apply find_none with (x := r) in E; [|by apply list_elem_of_In]. by rewrite N.eqb_refl in E.
Qed.

Lemma merge_effect m k l r now m' :
  map_wf m -> in_map m k l -> in_map m k r -> end_ l = start r -> same_copies l r ->
  apply_shard_map_op m (merge_op k l r now) = (m', Ok tt) ->
  copies_kept m m' /\ (forall k', region_count m k' = region_count m' k' + if decide (k' = k) then 1 else 0)
  /\ forall sid, start l <= sid < end_ r -> exists c, locate m' k sid = Some c /\ peers c = peers l /\ primary c = primary l
       /\ start c = start l /\ end_ c = end_ r /\ epoch c = merged_epoch (epoch l) (epoch r).
Proof.
  intros Hwf Hl Hr Hmeet Hsame H. pose proof (bump_map_wf _ Hwf) as Hbw.
  destruct (merge_op_accepted m k l r now Hwf Hl Hr Hmeet) as [(Hmw & _) _].
  destruct (apply_merge_Ok _ _ _ _ _ _ _ _ Hbw (rwf_u64 _ Hmw) H) as (l1 & l2 & lr & rr & Hd & Hs).
  pose proof (merge_done_locate _ _ _ _ _ _ _ _ _ _ _ _ Hbw Hd Hs) as [_ Hloc]. destruct Hd. cbn in md_before.
  assert (lr = l /\ rr = r) as [-> ->].
  { split; apply (same_id_region m k); try done; try apply md_ids; eexists; split; try done; cbn; set_solver. }
  set (mg := set_last_split _ _) in *.
  assert (forall sid, start l <= sid < end_ r -> locate m' k sid = Some mg) as Hin.
  { intros sid [H1%N.leb_le H2%N.ltb_lt]. by rewrite Hloc, H1, H2. }
  split_and!.
  - intros k' sid r0 Hl0. destruct (decide (k' = k)) as [-> |Hk].
    + destruct (decide (start l <= sid < end_ r)) as [Hsid|Hsid].
      * rewrite Hin by done. exists mg. split; [done|].
        destruct (decide (sid < end_ l)).
        -- by rewrite (locate_inside m k l sid r0 Hwf Hl ltac:(lia) Hl0).
        -- rewrite (locate_inside m k r sid r0 Hwf Hr ltac:(lia) Hl0). by symmetry.
      * exists r0. split; [|done]. rewrite Hloc. destruct (N.leb_spec (start l) sid), (N.ltb_spec sid (end_ r)); cbn; try lia; done.
    + exists r0. split; [|done]. subst m'. by rewrite put_space_locate, decide_False.
  - intros k'. subst m'. unfold region_count. cbn [spaces put_space set_spaces bump_map set_map_version]. destruct (decide (k' = k)) as [-> |Hk].
    + rewrite lookup_insert_eq, md_before. cbn. rewrite !length_app. cbn. lia.
    + rewrite lookup_insert_ne by done. by rewrite N.add_0_r.
  - intros sid Hsid. rewrite Hin by done. by eexists.
Qed.

(** Regions that may merge have the same copies. *)
Lemma mergeable_same l r cross :
  mergeable l r cross = true -> transfer_outstanding l || transfer_outstanding r = false -> same_copies l r.
Proof.
  unfold mergeable. intros (((H1%bool_decide_eq_true & H2%bool_decide_eq_true)%andb_true_iff & H3%bool_decide_eq_true)%andb_true_iff & _)%andb_true_iff
    [T1 T2]%orb_false_iff. unfold same_copies. split_and!; congruence.
Qed.

(** A merge goes through, or leaves the map. *)
Lemma run_merge_cases cands now k lid rid s m m' out :
  map_wf m -> run_merge cands now k lid rid s m = (m', out) ->
  out = Ok tt /\ (m' = m \/ exists l r, in_map m k l /\ in_map m k r /\ end_ l = start r /\ same_copies l r
    /\ apply_shard_map_op m (merge_op k l r now) = (m', Ok tt)).
Proof.
  intros Hwf H. unfold run_merge in H. repeat (case_match; simplify_eq; [by auto|]).
  destruct (current_region m k lid) as [l|] eqn:El; simplify_eq; [|by auto].
  destruct (current_region m k rid) as [r|] eqn:Er; simplify_eq; [|by auto].
  apply current_region_in in El as [Hl _], Er as [Hr _]. unfold try_merge in H.
  destruct (end_ l =? start r) eqn:Em; cbn [negb] in H; simplify_eq; [|by auto]. apply N.eqb_eq in Em.
  destruct (_ || _) eqn:Et; simplify_eq; [by auto|]. destruct (mergeable _ _ _) eqn:Eg; cbn [negb] in H; simplify_eq; [|by auto].
  destruct (merge_op_accepted m k l r now Hwf Hl Hr Em) as [_ [m1 Ha]].
  unfold propose in H. rewrite Ha in H. injection H as <- <-. split; [done|]. right.
  exists l, r. split_and!; try done. by eapply mergeable_same.
Qed.

Lemma run_merge_shape cap cands now k lid rid s m m' out :
  reachable m -> run_merge cands now k lid rid s m = (m', out) -> shape_kept cap m m'.
Proof.
  intros Hm H. pose proof (reachable_wf _ Hm) as Hwf.
  destruct (run_merge_cases _ _ _ _ _ _ _ _ _ Hwf H) as [_ [-> |(l & r & Hl & Hr & Em & Hs & Ha)]]; [done|].
  destruct (merge_effect _ _ _ _ _ _ Hwf Hl Hr Em Hs Ha) as (Hk & Hc & _).
  destruct (merge_op_accepted m k l r now Hwf Hl Hr Em) as [How _].
  split_and!; [intros _; by eapply reachable_step|done|]. intros k'. rewrite (Hc k'). lia.
Qed.

(** One step of the scheduler on the shape of the map, with whatever it knows
    at that time; a split may be tried on a region read earlier. *)
Inductive shape_step (cap : N) (m m' : ShardMap) : Prop :=
| step_split median cands now k r s out :
    region_cap (ss_max_regions_per_measurement s) (N.of_nat (length cands)) <= cap ->
    in_map m k r \/ stale m k r -> try_split median cands now k r s m = (m', out) -> shape_step cap m m'
| step_merge cands now k lid rid s out : run_merge cands now k lid rid s m = (m', out) -> shape_step cap m m'.

Lemma shape_step_kept cap m m' : reachable m -> shape_step cap m m' -> shape_kept cap m m'.
Proof.
  intros Hm [median cands now k r s out Hcap Hfs H|]; [|by eapply run_merge_shape].
  destruct (try_split_shape _ _ _ _ _ _ _ _ _ Hm Hfs H) as (? & ? & Hc). split_and!; try done.
  intros k'. specialize (Hc k'). lia.
Qed.

Lemma sorted_lt_cut (l : list N) i x :
  StronglySorted N.lt l -> l !! i = Some x ->
  StronglySorted N.lt (take i l) /\ StronglySorted N.lt (drop i l)
  /\ (forall j, j ∈ take i l <-> j ∈ l /\ j < x) /\ (forall j, j ∈ drop i l <-> j ∈ l /\ x <= j).
Proof.
  intros Hs Hx. assert (i < length l)%nat as Hi by (by eapply lookup_lt_Some).
  assert (length (take i l) = i) as Ht by (rewrite length_take; lia).
  pose proof (drop_S _ _ _ Hx) as Hd. rewrite <-(take_drop i l) in Hs. apply StronglySorted_app in Hs as (Hlt & Hst & Hsd).
  rewrite Hd in Hsd. apply StronglySorted_inv in Hsd as [Hsd Hgt]. rewrite Forall_forall in Hgt.
  assert (forall j, j ∈ take i l -> j < x) as A by (intros j Hj; apply Hlt; [done|rewrite Hd; by left]).
  assert (forall j, j ∈ drop i l -> x <= j) as B.
  { rewrite Hd. intros j [-> |Hj%Hgt]%elem_of_cons; lia. }
  assert (forall j, j ∈ l <-> j ∈ take i l \/ j ∈ drop i l) as C by (intros j; by rewrite <-elem_of_app, take_drop).
  split_and!; [done|rewrite Hd; constructor; [done|by apply Forall_forall]|..]; intros j; rewrite C; split.
  - intros Hj. auto.
  - intros [[Hj|Hj%B] ?]; [done|lia].
  - auto.
  - intros [[Hj%A|Hj] ?]; [lia|done].
Qed.

(** Cutting a range at one of its ids. *)
Lemma ids_cut S d p ms lo hi i x :
  ids_in S d p ms lo hi !! i = Some x ->
  ids_in S d p ms lo x = take i (ids_in S d p ms lo hi) /\ ids_in S d p ms x hi = drop i (ids_in S d p ms lo hi).
Proof.
  intros Hx. pose proof (ids_in_sorted S d p ms lo hi) as Hs. destruct (sorted_lt_cut _ _ _ Hs Hx) as (S1 & S2 & E1 & E2).
  apply list_elem_of_lookup_2, ids_in_elem in Hx as [_ Hx].
  split; apply sorted_lt_eq; try done; try apply ids_in_sorted; intros j; rewrite ids_in_elem; [rewrite E1|rewrite E2]; rewrite ids_in_elem;
    split; intros H; decompose [and] H; split_and!; try done; lia.
Qed.

(** A region of two series or more is cut inside. *)
Lemma middle_inside S d p ms lo hi :
  let ids := ids_in S d p ms lo hi in
  (2 <= length ids)%nat -> exists x, ids !! (length ids / 2)%nat = Some x /\ lo < x < hi.
Proof.
  intros ids Hlen. pose proof (Nat.div_lt (length ids) 2 ltac:(lia) ltac:(lia)) as Hlt.
  destruct (lookup_lt_is_Some_2 ids _ Hlt) as [x Hx]. exists x. split; [done|].
  destruct (ids !! 0%nat) as [y|] eqn:Hy; [|apply lookup_ge_None in Hy; lia].
  assert (y < x) as Hyx.
  { destruct (sorted_lt_cut ids _ x (ids_in_sorted _ _ _ _ _ _) Hx) as (_ & _ & E & _). apply (E y).
    apply list_elem_of_lookup. exists 0%nat. rewrite lookup_take_lt; [done|]. apply Nat.div_str_pos. lia. }
  apply list_elem_of_lookup_2, ids_in_elem in Hx as [_ Hx], Hy as [_ Hy]. lia.
Qed.

Lemma try_split_accepted median cands now k r s m :
  map_wf m -> next_region_id m < u64_max -> in_map m k r -> 1 < end_ r - start r -> transfer_outstanding r = false ->
  region_count m k < region_cap (ss_max_regions_per_measurement s) (N.of_nat (length cands)) ->
  exists m', try_split median cands now k r s m = (m', Ok Proposed)
    /\ apply_shard_map_op m (split_op m k r (compute_split_key median k r s) now) = (m', Ok tt).
Proof.
  intros Hwf Hn Hr Hw Hd Hc. pose proof (rwf_u64 _ (mwf_region _ Hwf k r Hr)) as (_ & _ & Hu).
  destruct (split_op_accepted m k r (compute_split_key median k r s) now Hwf Hn Hr) as [m' Ha].
  { by apply choose_split_key_inside. }
  exists m'. split; [|done]. unfold try_split. rewrite (proj2 (N.leb_gt _ _) Hw), Hd. unfold region_count in Hc. unfold space.
  destruct (spaces m !! k); [rewrite (proj2 (N.leb_gt _ _) Hc)|]; unfold propose; by rewrite Ha.
Qed.

(** ** Properties *)

(** C16: Splits and merges move no data: along any run of the scheduler's
    split and merge steps, on current regions or on ones that have changed
    since they were read, the map stays well formed, every series that was
    located stays located on the same set of peers, with the same learners
    and no transfer debt gained or lost, and no measurement grows past the
    region cap. *)
Theorem shape_steps_move_no_data cap m m' :
  reachable m -> rtc (shape_step cap) m m' ->
  reachable m' /\
  (forall k sid r, locate m k sid = Some r ->
     exists r', locate m' k sid = Some r' /\ list_to_set (peers r') = (list_to_set (peers r) : gset N)
       /\ staging_peers r' = staging_peers r /\ transfer_outstanding r' = transfer_outstanding r) /\
  (forall k, region_count m' k <= N.max cap (region_count m k)).
Proof.
  intros Hm H. assert (shape_kept cap m m') as (A & B & C); [|by auto].
  induction H as [m|m m1 m' Hs _ IH]; [done|]. pose proof (shape_step_kept cap _ _ Hm Hs) as Hk.
  etrans; [exact Hk|]. apply IH, Hk, Hm.
Qed.


(** C18: A merge that is due goes through: two neighbours on the same peers, no
    learner and no transfer debt on either and neither claimed, at equal
    epochs or once every candidate takes different ones, become one region
    over both ranges on the peers and the primary of the left one, newer than
    both, and the measurement has one region less. *)
Theorem mergeable_regions_merge cands now k l r s m :
  reachable m -> in_map m k l -> in_map m k r -> end_ l = start r ->
  transfer_outstanding l = false -> transfer_outstanding r = false ->
  mergeable l r (cross_epoch_merge_ready cands s) = true ->
  region_id l ∉ ss_region_operators s -> region_id r ∉ ss_region_operators s ->
  exists m', run_merge cands now k (region_id l) (region_id r) s m = (m', Ok tt) /\
    region_count m k = region_count m' k + 1 /\
    forall sid, start l <= sid < end_ r ->
      exists c, locate m' k sid = Some c /\ peers c = peers l /\ primary c = primary l
        /\ start c = start l /\ end_ c = end_ r
        /\ (version (epoch l) < u64_max -> version (epoch r) < u64_max ->
            version (epoch l) < version (epoch c) /\ version (epoch r) < version (epoch c)).
Proof.
  intros Hm%reachable_wf Hl Hr Hmeet Dl Dr Hmg Ol Or.
  assert (region_id r <> region_id l) as Hne.
  { intros E. pose proof (same_id_region m k r l Hm Hr Hl E) as ->. pose proof (rwf_nonempty _ (mwf_region _ Hm k l Hl)). lia. }
  destruct (merge_op_accepted m k l r now Hm Hl Hr Hmeet) as [_ [m' Ha]].
  assert (same_copies l r) as Hsame by (eapply mergeable_same; [done|by rewrite Dl, Dr]).
  destruct (merge_effect _ _ _ _ _ _ Hm Hl Hr Hmeet Hsame Ha) as (_ & Hc & Hloc).
  exists m'. split_and!.
  - unfold run_merge. rewrite !bool_decide_false by set_solver. rewrite !current_region_of by done.
    unfold try_merge. rewrite Hmeet, N.eqb_refl, Dl, Dr, Hmg. cbn [negb orb]. unfold propose. by rewrite Ha.
  - rewrite (Hc k). by rewrite decide_True.
  - intros sid Hsid. destruct (Hloc sid Hsid) as (c & ? & ? & ? & ? & ? & Ee). exists c. split_and!; try done.
    rewrite Ee. cbn. unfold sat_add. lia.
Qed.

(** ** Witnesses *)

Definition sample_scheduler : SplitScheduler := mkScheduler 1 [] ∅ ∅ ∅ 4.

Definition whole : ShardRegion := sample_region 1 0 u64_max 1.

Definition no_median (k : MeasurementKey) (lo hi : N) : result string (option N) := Ok None.

Definition halved : ShardMap := (try_split no_median [1; 2] 100 k_cpu whole sample_scheduler sample_map1).1.

Definition rejoined : ShardMap := (run_merge [1; 2] 200 k_cpu 1 2 sample_scheduler halved).1.

Lemma whole_in_map : in_map sample_map1 k_cpu whole.
Proof. eexists. split; [vm_compute; reflexivity|]. by left. Qed.

Lemma shape_steps_move_no_data_witness :
  region_count halved k_cpu = 2 /\ region_count rejoined k_cpu = 1 /\ reachable rejoined /\
  exists r', locate rejoined k_cpu 5 = Some r' /\ list_to_set (peers r') = ({[1; 2]} : gset N).
Proof.
  assert (rtc (shape_step 64) sample_map1 rejoined) as Hrun.
  { eapply rtc_l; [|apply rtc_once].
    - eapply (step_split 64 _ _ no_median [1; 2] 100 k_cpu whole sample_scheduler);
        [by vm_compute|left; exact whole_in_map|apply surjective_pairing].
    - eapply (step_merge 64 _ _ [1; 2] 200 k_cpu 1 2 sample_scheduler). apply surjective_pairing. }
  destruct (shape_steps_move_no_data 64 sample_map1 rejoined sample_map1_reachable Hrun) as (Hr & Hc & _).
  split; [vm_compute; reflexivity|]. split; [vm_compute; reflexivity|]. split; [exact Hr|].
  destruct (Hc k_cpu 5 whole) as (r' & Hl & Hp & _); [vm_compute; reflexivity|].
  exists r'. split; [exact Hl|]. rewrite Hp. vm_compute. reflexivity.
Defined.

Definition split_calls : list SeriesCall :=
  [RegisterSeries "db" "autogen" "cpu" [(7, host "a"); (3, host "b"); (9, host "c"); (5, host "d")]; Reopen;
   RegisterSeries "db" "autogen" "cpu" [(4, host "e")]].


Definition half (id : N) : ShardRegion := default whole (current_region halved k_cpu id).

Lemma halved_reachable : reachable halved.
Proof.
  refine (proj1 (try_split_shape no_median [1; 2] 100 k_cpu whole sample_scheduler sample_map1 _ _ _ _ _) _);
    [exact sample_map1_reachable|left; exact whole_in_map|apply surjective_pairing|exact sample_map1_reachable].
Qed.

Lemma half_in_map id : is_Some (current_region halved k_cpu id) -> in_map halved k_cpu (half id).
Proof. intros [r Hr]. unfold half. rewrite Hr. by apply current_region_in in Hr as [? _]. Qed.

Lemma mergeable_regions_merge_witness :
  exists m' c, run_merge [1; 2] 200 k_cpu 1 2 sample_scheduler halved = (m', Ok tt) /\ region_count m' k_cpu = 1 /\
    locate m' k_cpu 5 = Some c /\ end_ c = u64_max.
Proof.
  destruct (mergeable_regions_merge [1; 2] 200 k_cpu (half 1) (half 2) sample_scheduler halved halved_reachable)
    as (m' & Ht & Hc & Hloc); [apply half_in_map; vm_compute; eauto..|vm_compute; reflexivity| | | | | |].
  1-5: apply (bool_decide_unpack _); vm_compute; reflexivity.
  destruct (Hloc 5) as (c & Hc5 & _ & _ & _ & He & _); [split; vm_compute; [intros [=]|reflexivity]|].
  exists m', c. split; [exact Ht|]. split; [|split; [exact Hc5|rewrite He; vm_compute; reflexivity]].
  assert (region_count halved k_cpu = 2) as E2 by (vm_compute; reflexivity). rewrite E2 in Hc. lia.
Defined.
