(* ===== verification/ShardScheduler.v ===== *)
(** * The shard scheduler's tick

    [application/shard_scheduler.rs]: which nodes may hold regions, the
    removal of dead peers, failover of primaries, the pass over the regions
    of the map that ends in merges and placement moves, the moves themselves,
    and the retirement of evacuated nodes. Proposals are applied as their
    commit does. The answers of other nodes, the copy of a region and what
    else commits while it runs are parameters. Logging and metrics are left
    out, as is the reconciliation of transfer debt, which nothing calls. *)

From stdpp Require Import prelude list sorting gmap fin_sets strings relations.
From S2P Require Import Prelude ShardTypes ShardOps ShardInvariant ShardTheorems Placement PlacementConverge.
From S2P Require Import Membership PeerResolution ShardRouting ShardSplitMerge.
From stdpp Require Import options.

#[local] Open Scope N_scope.

(** ** Nodes *)

Definition i64_sat (z : Z) : Z := Z.max (- 2 ^ 63) (Z.min z (2 ^ 63 - 1)).

(** [as u64] on an [i64]. *)
Definition i64_as_u64 (z : Z) : N := Z.to_N (z mod 2 ^ 64).

Definition peer_disconnected_past_deadline (n : NodeInfo) (now : Z) (timeout_secs : N) : bool :=
  bool_decide (ns n = Disconnected) && (timeout_secs <=? i64_as_u64 (i64_sat (now - last_heartbeat n))).

(** The settings a tick reads, overrides applied. *)
Record SchedulerConfig := mkConfig {
  sc_replication_factor : nat;
  sc_heartbeat_interval_secs : N;
  sc_dead_node_timeout_secs : N;
  sc_primary_failover_after_secs : N;
  sc_promote_min_progress_pct : N;
  sc_peer_heal_enabled : bool;
  sc_add_peer_proposals_enabled : bool;
  sc_remove_peer_proposals_enabled : bool;
  sc_region_split_series : N;
  sc_region_max_series : N;
  sc_region_split_cooldown_secs : N;
  sc_region_merge_series : N;
  sc_split_merge_interval_secs : N;
  sc_load_split_qps_threshold : N
}.

Definition HEARTBEAT_TTL_INTERVALS : N := 3.

Definition PRIMARY_BALANCE_TOLERANCE_PCT : N := 10.

Definition MAX_BALANCE_LEARNERS_PER_NODE : nat := 2.

Definition max_region_peer_heartbeat_stats (hb : list RegionHeartbeatRow) (r : ShardRegion) : N * N :=
  fold_left (fun acc h => (N.max acc.1 (hb_series_count h), N.max acc.2 (hb_write_qps h))) (region_rows hb r) (0, 0).

Definition max_region_peer_heartbeat_bytes (hb : list RegionHeartbeatRow) (r : ShardRegion) : N :=
  fold_left (fun acc h => N.max acc (hb_approx_bytes h)) (region_rows hb r) 0.

Definition learners_on (m : ShardMap) (node : N) : nat :=
  length (List.filter (fun r => bool_decide (node ∈ staging_peers r)) (map_to_list (spaces m) ≫= fun ks => regions ks.2)).

Definition failover_watermark_safe (candidate best : option N) : bool :=
  negb (bool_decide (candidate = Some 0) && match best with Some b => 0 <? b | None => false end).

Definition promote_progress_safe (candidate best : option N) (min_pct : N) : bool :=
  match candidate, best with
  | None, _ => false
  | Some _, None => true
  | Some c, Some b => if b =? 0 then true else N.min (b * N.min min_pct 100) u64_max <=? N.min (c * 100) u64_max
  end.

Definition joiner_map_caught_up (cluster_map_version joiner_map_version : N) : bool :=
  cluster_map_version <=? joiner_map_version.

(** The part of a sync manifest that says how far a node is. *)
Record SyncManifest := mkManifest {
  sm_wal_last_seq : N;
  sm_databases : list (list (list (N * N)))
}.

Definition max_opt (l : list N) : option N :=
  match l with [] => None | x :: l => Some (fold_left N.max l x) end.

Section Scheduler.
Context (cfg : SchedulerConfig).

(** The cluster as the tick sees it, and the clocks. *)
Context (M : ClusterMembership) (now : N) (wall : Z).

Definition active_candidate_ids : list N :=
  dedup (sort_ids (node_id <$> List.filter
    (fun n => holds_placement n && negb (peer_disconnected_past_deadline n wall (sc_dead_node_timeout_secs cfg))) (node_values M))).

Definition departing_node_ids : list N := node_id <$> List.filter is_departing (node_values M).

Definition unhealthy_region_peers (r : ShardRegion) : list N :=
  List.filter (fun p => match get_node p M with None => true | Some n => negb (node_is_serving n) end) (peers r).

(** ** Dead peers *)

Definition dead_peer (r : ShardRegion) (id : N) : bool :=
  if id =? primary r then false
  else match get_node id M with
       | None => true
       | Some n =>
         if is_departing n || bool_decide (ns n = Draining) then false
         else if bool_decide (ns n = Decommissioning) then false
         else if bool_decide (ns n = Active) then false
         else peer_disconnected_past_deadline n wall (sc_dead_node_timeout_secs cfg)
       end.

Definition try_replace_dead_peer (peer_client : bool) (k : MeasurementKey) (r : ShardRegion) (m : ShardMap)
    : ShardMap * result ShardMapApplyError unit :=
  if negb (sc_peer_heal_enabled cfg) then (m, Ok tt)
  else if negb peer_client then (m, Ok tt)
  else
    match find (dead_peer r) (peers r) with
    | None => (m, Ok tt)
    | Some dead =>
      if negb (sc_remove_peer_proposals_enabled cfg) then (m, Ok tt)
      else if primary r =? dead then (m, Ok tt)
      else propose (RemovePeer k (region_id r) dead (epoch r)) m
    end.

(** ** Failover *)

(** [GET /internal/sync/manifest] of a node. *)
Context (fetch_manifest : string -> option SyncManifest).

Definition peer_region_wal_watermark (peer region : N) : option N :=
  n ← get_node peer M;
  manifest ← fetch_manifest (addr n);
  let marks := concat (concat (sm_databases manifest)) in
  match last (List.filter (fun w => w.1 =? region) marks) with
  | Some w => Some w.2
  | None => if bool_decide (marks = []) then Some (sm_wal_last_seq manifest) else Some 0
  end.

Definition active_or_self (self id : N) : bool := (id =? self) || is_active_peer M id.

Definition peer_is_active_alternate (r : ShardRegion) (self id : N) : bool :=
  negb (id =? primary r) && negb (id =? self) && is_serving_peer r id && is_active_peer M id.

Definition pick_alternate_primary (r : ShardRegion) (self : N) : option N :=
  find (peer_is_active_alternate r self) (peers r).

(** A known position displaces an unknown one or a lower one; this node wins a tie. *)
Definition better_watermark (self : N) (acc : N * option N) (c : N * option N) : N * option N :=
  let better := match c.2, acc.2 with
                | Some _, None => true
                | Some w, Some b => (b <? w) || ((w =? b) && (c.1 =? self))
                | None, _ => false
                end in
  if better then c else acc.

Definition failover_candidates (r : ShardRegion) (self : N) : list N :=
  List.filter (fun id => negb (id =? primary r) && is_serving_peer r id && active_or_self self id) (peers r).

Definition pick_best_primary (peer_client : bool) (r : ShardRegion) (self : N) : option N :=
  match failover_candidates r self with
  | [] => None
  | (first :: _) as candidates =>
    if peer_client then
      Some (fold_left (better_watermark self)
              ((fun c => (c, peer_region_wal_watermark c (region_id r))) <$> candidates) (first, None)).1
    else pick_alternate_primary r self
  end.

Definition pick_learner_survivor (r : ShardRegion) (self : N) : option N :=
  find (fun id => negb (id =? primary r) && active_or_self self id) (staging_peers r).

Definition heartbeat_ttl : N := N.max (N.min (sc_heartbeat_interval_secs cfg * HEARTBEAT_TTL_INTERVALS) u64_max) 1.

Definition fresh (h : RegionHeartbeatRow) : bool := now - hb_at h <=? heartbeat_ttl.

(** [None]: no fresh heartbeat, which is not a reported zero. *)
Definition region_progress (hb : list RegionHeartbeatRow) (r : ShardRegion) (peer : N) : option N :=
  max_opt (hb_series_count <$> List.filter (fun h => (hb_region_id h =? region_id r) && (hb_node_id h =? peer) && fresh h) hb).

Definition region_progress_for_peers (hb : list RegionHeartbeatRow) (r : ShardRegion) : list (N * option N) :=
  (fun peer => (peer, region_progress hb r peer)) <$> peers r.

Definition progress_of (progress : list (N * option N)) (peer : N) : option N :=
  match find (fun p => p.1 =? peer) progress with Some p => p.2 | None => None end.

Definition best_progress (progress : list (N * option N)) : option N := max_opt (omap snd progress).

Definition UnhealthyPrimaries := gmap (MeasurementKey * N) N.

Definition promote_learner_survivor (k : MeasurementKey) (r : ShardRegion) (learner : N) (u : UnhealthyPrimaries) (m : ShardMap)
    : UnhealthyPrimaries * (ShardMap * result ShardMapApplyError unit) :=
  match propose (PromotePeer k (region_id r) learner (epoch r)) m with
  | (m, Err e) => (u, (m, Err e))
  | (m, Ok _) =>
    match current_region m k (region_id r) with
    | None => (u, (m, Ok tt))
    | Some current =>
      match propose (TransferPrimary k (region_id current) learner (epoch current)) m with
      | (m, Err e) => (u, (m, Err e))
      | (m, Ok _) => (delete (k, region_id r) u, (m, Ok tt))
      end
    end
  end.

Definition try_failover_unhealthy_primary (peer_client : bool) (s : SplitScheduler) (k : MeasurementKey) (r : ShardRegion)
    (u : UnhealthyPrimaries) (m : ShardMap) : UnhealthyPrimaries * (ShardMap * result ShardMapApplyError unit) :=
  if is_active_peer M (primary r) then (delete (k, region_id r) u, (m, Ok tt))
  else
    let first_seen := default now (u !! (k, region_id r)) in
    let u := <[(k, region_id r) := first_seen]> u in
    if now - first_seen <? sc_primary_failover_after_secs cfg then (u, (m, Ok tt))
    else
      match pick_best_primary peer_client r (ss_node_id s) with
      | None =>
        match pick_learner_survivor r (ss_node_id s) with
        | Some learner => promote_learner_survivor k r learner u m
        | None => (u, (m, Ok tt))
        end
      | Some new_primary =>
        let progress := region_progress_for_peers (ss_heartbeats s) r in
        if peer_client && negb (failover_watermark_safe (progress_of progress new_primary) (best_progress progress))
        then (u, (m, Ok tt))
        else
          match propose (TransferPrimary k (region_id r) new_primary (epoch r)) m with
          | (m, Err e) => (u, (m, Err e))
          | (m, Ok _) => (delete (k, region_id r) u, (m, Ok tt))
          end
      end.

(** ** Placement targets *)

(** The order a [HashMap] is iterated in. *)
Context (order : gmap MeasurementKey MeasurementShardSpace -> list (MeasurementKey * MeasurementShardSpace)).

Definition plan_input (k : MeasurementKey) (candidates : list N) (rw : ShardRegion * N) : RegionPlanInput :=
  mkPlan (region_id rw.1) (List.filter (fun p => negb (bool_decide (p ∈ staging_peers rw.1))) (peers rw.1)) (primary rw.1) rw.2
    (target_placement k (start rw.1) candidates (length candidates)).

(** A region's series if it may be placed with its neighbours for a merge. *)
Definition merge_run (hb : list RegionHeartbeatRow) (sp : MeasurementShardSpace) : list (N * option N) :=
  (fun r => (region_id r,
     if existsb (fun h => hb_region_id h =? region_id r) hb && (sc_split_merge_interval_secs cfg <=? now - last_split_at r)
     then Some (max_region_peer_heartbeat_stats hb r).1 else None)) <$> regions sp.

Definition space_inputs (candidates : list N) (hb : list RegionHeartbeatRow) (sp : MeasurementShardSpace) : list RegionPlanInput :=
  plan_input (key sp) candidates <$>
    zip (regions sp) (estimate_region_weights ((fun r => (end_ r - start r, (max_region_peer_heartbeat_stats hb r).1)) <$> regions sp)).

Definition refresh_placement_plan (dests : gset MeasurementKey) (hb : list RegionHeartbeatRow) (plan : gmap N (list N)) (m : ShardMap)
    : gmap N (list N) :=
  let candidates := active_candidate_ids in
  if bool_decide (candidates = []) then plan
  else
    let rf := effective_replication_factor (sc_replication_factor cfg) (length candidates) in
    let sps := List.filter (fun sp => negb (bool_decide (key sp ∈ dests))) (order (spaces m)).*2 in
    fold_left (fun plan run => colocate_small_neighbours plan run (sc_region_merge_series cfg))
      (merge_run hb <$> sps)
      (plan_placement (sps ≫= space_inputs candidates hb) rf PRIMARY_BALANCE_TOLERANCE_PCT).

Definition balanced_target (plan : gmap N (list N)) (k : MeasurementKey) (r : ShardRegion) (candidates : list N) (rf : nat) : list N :=
  match plan !! region_id r with
  | Some t => if Nat.eqb (length t) rf && forallb (fun n => bool_decide (n ∈ candidates)) t then t
              else target_placement k (start r) candidates rf
  | None => target_placement k (start r) candidates rf
  end.

(** What the scheduler remembers between ticks, beside the split state. *)
Record PlacementState := mkPlacement {
  ps_plan : gmap N (list N);
  ps_rollup_dests : gset MeasurementKey;
  ps_map_versions : gmap N (option (N * N));
  ps_stalls : gmap N N;
  ps_errors : gmap N N;
  ps_last_attempted : gmap N N;
  ps_attempt_seq : N;
  ps_learners_seen : gset (N * N)
}.

Definition preview_placement_tier (peer_client : bool) (ps : PlacementState) (k : MeasurementKey) (r : ShardRegion) (m : ShardMap)
    : option (MoveTier * PlacementStep) :=
  if bool_decide (k ∈ ps_rollup_dests ps) || negb peer_client then None
  else
    r ← current_region m k (region_id r);
    let candidates := active_candidate_ids in
    if bool_decide (candidates = []) then None
    else
      let rf := effective_replication_factor (sc_replication_factor cfg) (length candidates) in
      step ← next_placement_step r (balanced_target (ps_plan ps) k r candidates rf);
      Some (move_tier r rf departing_node_ids (unhealthy_region_peers r), step).

(** ** The tick *)

Record PendingPlacement := mkPending {
  pp_key : MeasurementKey;
  pp_region_id : N;
  pp_tier : MoveTier;
  pp_approx_bytes : N;
  pp_copies : bool
}.

Record PendingMerge := mkPendingMerge { pm_key : MeasurementKey; pm_left : N; pm_right : N }.

Record TickState := mkTick {
  tk_map : ShardMap;
  tk_unhealthy : UnhealthyPrimaries;
  tk_placements : list PendingPlacement;
  tk_merges : list PendingMerge
}.

Definition set_tk_map (m : ShardMap) (t : TickState) : TickState := mkTick m (tk_unhealthy t) (tk_placements t) (tk_merges t).

Definition heal_and_failover (peer_client : bool) (s : SplitScheduler) (k : MeasurementKey) (r : ShardRegion) (t : TickState) : TickState :=
  let m := (try_replace_dead_peer peer_client k r (tk_map t)).1 in
  let '(u, (m, _)) := try_failover_unhealthy_primary peer_client s k r (tk_unhealthy t) m in
  mkTick m u (tk_placements t) (tk_merges t).

(** [median_series_id_in_range] of the metadata port. *)
Context (median : MeasurementKey -> N -> N -> result string (option N)).

(** A split that is due; the pass of the region ends with a proposed one. *)
Definition split_due (due : bool) (s : SplitScheduler) (k : MeasurementKey) (r : ShardRegion) (t : TickState) : TickState * bool :=
  if due then
    match try_split median active_candidate_ids now k r s (tk_map t) with
    | (m, Ok Proposed) => (set_tk_map m t, true)
    | (m, _) => (set_tk_map m t, false)
    end
  else (t, false).

(** [ops]: the regions with an operator, the one of this pass included. *)
Definition merge_due (cross_epoch : bool) (hb : list RegionHeartbeatRow) (ops : gset N) (r right : ShardRegion) : bool :=
  ((max_region_peer_heartbeat_stats hb r).1 <? sc_region_merge_series cfg)
  && ((max_region_peer_heartbeat_stats hb right).1 <? sc_region_merge_series cfg)
  && (sc_split_merge_interval_secs cfg <=? now - last_split_at r)
  && (sc_split_merge_interval_secs cfg <=? now - last_split_at right)
  && mergeable r right cross_epoch && negb (bool_decide (region_id right ∈ ops)).

Definition load_split_due (write_qps : N) (r : ShardRegion) : bool :=
  (0 <? sc_load_split_qps_threshold cfg) && (sc_load_split_qps_threshold cfg <? write_qps)
  && (sc_split_merge_interval_secs cfg <=? now - last_split_at r).

Definition queue_placement (peer_client : bool) (ps : PlacementState) (hb : list RegionHeartbeatRow) (k : MeasurementKey) (r : ShardRegion)
    (t : TickState) : TickState :=
  match preview_placement_tier peer_client ps k r (tk_map t) with
  | Some (tier, step) =>
    mkTick (tk_map t) (tk_unhealthy t)
      (tk_placements t ++ [mkPending k (region_id r) tier (max_region_peer_heartbeat_bytes hb r)
                             (match step with Add _ => true | _ => false end)]) (tk_merges t)
  | None => t
  end.

(** The pass of one region, and the right half of the merge it queued. *)
Definition region_pass (peer_client : bool) (s : SplitScheduler) (ps : PlacementState) (cross_epoch : bool) (hb : list RegionHeartbeatRow)
    (k : MeasurementKey) (r : ShardRegion) (next : option ShardRegion) (t : TickState) : TickState * option N :=
  let '(series, qps) := max_region_peer_heartbeat_stats hb r in
  let t := heal_and_failover peer_client s k r t in
  let ready := region_ready_to_split series (last_split_at r) now (sc_region_split_series cfg) (sc_region_max_series cfg)
                 (sc_region_split_cooldown_secs cfg) in
  let '(t, done) := split_due ready s k r t in
  if done then (t, None)
  else
    match next with
    | Some rt =>
      if merge_due cross_epoch hb ({[ region_id r ]} ∪ ss_region_operators s) r rt then
        (mkTick (tk_map t) (tk_unhealthy t) (tk_placements t) (tk_merges t ++ [mkPendingMerge k (region_id r) (region_id rt)]),
         Some (region_id rt))
      else
        let '(t, done) := split_due (load_split_due qps r) s k r t in
        (if done then t else queue_placement peer_client ps hb k r t, None)
    | None =>
      let '(t, done) := split_due (load_split_due qps r) s k r t in
      (if done then t else queue_placement peer_client ps hb k r t, None)
    end.

(** The right half of a merge queued in this tick is left alone, and so is a
    region with an operator. *)
Fixpoint space_pass (peer_client : bool) (s : SplitScheduler) (ps : PlacementState) (cross_epoch : bool) (hb : list RegionHeartbeatRow)
    (k : MeasurementKey) (rs : list ShardRegion) (merging_right : option N) (t : TickState) : TickState :=
  match rs with
  | [] => t
  | r :: rest =>
    if bool_decide (merging_right = Some (region_id r)) then space_pass peer_client s ps cross_epoch hb k rest merging_right t
    else if bool_decide (region_id r ∈ ss_region_operators s) then space_pass peer_client s ps cross_epoch hb k rest merging_right t
    else
      let '(t, queued) := region_pass peer_client s ps cross_epoch hb k r (head rest) t in
      space_pass peer_client s ps cross_epoch hb k rest (match queued with Some _ => queued | None => merging_right end) t
  end.

Definition prune (live : gset N) (c : gmap N N) : gmap N N := filter (fun kv => kv.1 ∈ live) c.

Definition prune_region_counters (m : ShardMap) (ps : PlacementState) : PlacementState :=
  let live : gset N := list_to_set (region_id <$> (order (spaces m) ≫= fun ks => regions ks.2)) in
  mkPlacement (ps_plan ps) (ps_rollup_dests ps) (ps_map_versions ps) (prune live (ps_stalls ps)) (prune live (ps_errors ps))
    (prune live (ps_last_attempted ps)) (ps_attempt_seq ps) (ps_learners_seen ps).

(** [list_all_materialized_views] of the metadata port: the destinations. *)
Context (views : option (list MeasurementKey)).

Definition refresh_rollup_dests (ps : PlacementState) : PlacementState :=
  match views with
  | Some defs => mkPlacement (ps_plan ps) (list_to_set defs) (ps_map_versions ps) (ps_stalls ps) (ps_errors ps) (ps_last_attempted ps)
                   (ps_attempt_seq ps) (ps_learners_seen ps)
  | None => ps
  end.

Definition set_plan (plan : gmap N (list N)) (ps : PlacementState) : PlacementState :=
  mkPlacement plan (ps_rollup_dests ps) (ps_map_versions ps) (ps_stalls ps) (ps_errors ps) (ps_last_attempted ps)
    (ps_attempt_seq ps) (ps_learners_seen ps).

Definition set_map_versions (v : gmap N (option (N * N))) (ps : PlacementState) : PlacementState :=
  mkPlacement (ps_plan ps) (ps_rollup_dests ps) v (ps_stalls ps) (ps_errors ps) (ps_last_attempted ps)
    (ps_attempt_seq ps) (ps_learners_seen ps).

Definition plan_tick (peer_client : bool) (s : SplitScheduler) (ps : PlacementState) (u : UnhealthyPrimaries) (m : ShardMap)
    : TickState * PlacementState :=
  let ps := prune_region_counters m (refresh_rollup_dests (set_map_versions ∅ ps)) in
  let ps := set_plan (refresh_placement_plan (ps_rollup_dests ps) (ss_heartbeats s) (ps_plan ps) m) ps in
  let cross_epoch := cross_epoch_merge_ready active_candidate_ids s in
  let hb := List.filter fresh (ss_heartbeats s) in
  (fold_left (fun t ks => space_pass peer_client s ps cross_epoch hb (key ks.2) (regions ks.2) None t) (order (spaces m)) (mkTick m u [] []), ps).

(** The merges of a tick, one after the other; an error ends only its own. *)
Definition run_merges (s : SplitScheduler) (merges : list PendingMerge) (m : ShardMap) : ShardMap :=
  fold_left (fun m pm => (run_merge active_candidate_ids now (pm_key pm) (pm_left pm) (pm_right pm) s m).1) merges m.

(** ** Placement moves *)

Definition bump_count (id : N) (c : gmap N N) : gmap N N := <[id := N.min (default 0 (c !! id) + 1) u32_max]> c.

Definition set_stalls (c : gmap N N) (ps : PlacementState) : PlacementState :=
  mkPlacement (ps_plan ps) (ps_rollup_dests ps) (ps_map_versions ps) c (ps_errors ps) (ps_last_attempted ps)
    (ps_attempt_seq ps) (ps_learners_seen ps).

Definition set_errors (c : gmap N N) (ps : PlacementState) : PlacementState :=
  mkPlacement (ps_plan ps) (ps_rollup_dests ps) (ps_map_versions ps) (ps_stalls ps) c (ps_last_attempted ps)
    (ps_attempt_seq ps) (ps_learners_seen ps).

Definition note_placement_stall (id : N) (ps : PlacementState) : PlacementState := set_stalls (bump_count id (ps_stalls ps)) ps.

Definition clear_placement_stall (id : N) (ps : PlacementState) : PlacementState := set_stalls (delete id (ps_stalls ps)) ps.

Definition note_placement_error (id : N) (ps : PlacementState) : PlacementState := set_errors (bump_count id (ps_errors ps)) ps.

Definition clear_placement_error (id : N) (ps : PlacementState) : PlacementState := set_errors (delete id (ps_errors ps)) ps.

(** [fetch_map_version] of the peer client. *)
Context (fetch_map_version : string -> option N).

(** One probe per peer and tick; a failed one is remembered too. *)
Definition cached_peer_map_version (peer : N) (a : string) (cluster_ver : N) (ps : PlacementState) : PlacementState * option (N * N) :=
  match ps_map_versions ps !! peer with
  | Some c => (ps, c)
  | None =>
    let c := (fun v => (v, cluster_ver)) <$> fetch_map_version a in
    (set_map_versions (<[peer := c]> (ps_map_versions ps)) ps, c)
  end.

Fixpoint caught_up_loop (cluster_ver : N) (candidates : list (N * string)) (ps : PlacementState) : PlacementState * option N :=
  match candidates with
  | [] => (ps, None)
  | (id, a) :: rest =>
    match cached_peer_map_version id a cluster_ver ps with
    | (ps, Some (ver, probed_against)) =>
      if joiner_map_caught_up probed_against ver then (ps, Some id) else caught_up_loop cluster_ver rest ps
    | (ps, None) => caught_up_loop cluster_ver rest ps
    end
  end.

Definition first_caught_up (region cluster_ver : N) (candidates : list (N * string)) (ps : PlacementState) : PlacementState * option N :=
  if bool_decide (candidates = []) then (clear_placement_stall region ps, None)
  else
    match caught_up_loop cluster_ver candidates ps with
    | (ps, Some id) => (clear_placement_stall region ps, Some id)
    | (ps, None) => (note_placement_stall region ps, None)
    end.

(** Copying the rows of a region onto a peer, at a rate: whether it succeeds,
    and the map after what other tasks committed meanwhile. *)
Context (stage_region_onto : MeasurementKey -> ShardRegion -> N -> N -> ShardMap -> ShardMap * bool).
Context (movement_budget schedule_limit : N).

Inductive PlacementError := ProposalRefused (e : ShardMapApplyError) | StageFailed.

Definition missing_members (m : ShardMap) (r : ShardRegion) (tier : MoveTier) (target : list N) : list (N * string) :=
  omap (fun t => n ← get_node t M; Some (t, addr n))
    (List.filter (fun t => negb (bool_decide (t ∈ peers r))
       && (negb (bool_decide (tier = Convergence)) || Nat.ltb (learners_on m t) MAX_BALANCE_LEARNERS_PER_NODE)) target).

Definition promote_deferred (peer_client : bool) (s : SplitScheduler) (r : ShardRegion) (new_primary : N) : bool :=
  let progress := region_progress_for_peers (ss_heartbeats s) r in
  negb (bool_decide (primary r ∈ departing_node_ids)) && peer_client
  && negb (promote_progress_safe (progress_of progress new_primary) (best_progress progress) (sc_promote_min_progress_pct cfg)).

(** The learner is committed first, then filled, then promoted. *)
Definition add_member (k : MeasurementKey) (r : ShardRegion) (to_peer rate : N) (m : ShardMap) : ShardMap * result PlacementError unit :=
  match propose (AddPeer k (region_id r) to_peer (epoch r) true) m with
  | (m, Err e) => (m, Err (ProposalRefused e))
  | (m, Ok _) =>
    match current_region m k (region_id r) with
    | None => (m, Ok tt)
    | Some after_region =>
      match stage_region_onto k after_region to_peer rate m with
      | (m, false) => (m, Err StageFailed)
      | (m, true) =>
        match current_region m k (region_id r) with
        | None => (m, Ok tt)
        | Some current =>
          match propose (PromotePeer k (region_id r) to_peer (epoch current)) m with
          | (m, Err e) => (m, Err (ProposalRefused e))
          | (m, Ok _) => (m, Ok tt)
          end
        end
      end
    end
  end.

Definition converge_done (id : N) (ps : PlacementState) (mr : ShardMap * result PlacementError unit)
    : PlacementState * (ShardMap * result PlacementError bool) :=
  match mr with
  | (m, Ok _) => (clear_placement_stall id ps, (m, Ok true))
  | (m, Err e) => (ps, (m, Err e))
  end.

Definition lift_refused (mr : ShardMap * result ShardMapApplyError unit) : ShardMap * result PlacementError unit :=
  match mr with (m, Ok u) => (m, Ok u) | (m, Err e) => (m, Err (ProposalRefused e)) end.

Definition try_converge_placement (peer_client : bool) (s : SplitScheduler) (k : MeasurementKey) (id : N) (may_copy : bool)
    (ps : PlacementState) (m : ShardMap) : PlacementState * (ShardMap * result PlacementError bool) :=
  if bool_decide (k ∈ ps_rollup_dests ps) || negb peer_client then (ps, (m, Ok false))
  else
    match current_region m k id with
    | None => (ps, (m, Ok false))
    | Some r =>
      let candidates := active_candidate_ids in
      if bool_decide (candidates = []) then (note_placement_stall id ps, (m, Ok false))
      else
        let rf := effective_replication_factor (sc_replication_factor cfg) (length candidates) in
        let target := balanced_target (ps_plan ps) k r candidates rf in
        match next_placement_step r target with
        | None => (clear_placement_stall id ps, (m, Ok false))
        | Some step =>
          let tier := move_tier r rf departing_node_ids (unhealthy_region_peers r) in
          let rate := move_rate_bytes_per_sec tier movement_budget (N.to_nat schedule_limit) in
          match step with
          | Add _ =>
            if negb (sc_add_peer_proposals_enabled cfg) || negb may_copy then (ps, (m, Ok false))
            else
              match first_caught_up id (map_version m) (missing_members m r tier target) ps with
              | (ps, None) => (ps, (m, Ok false))
              | (ps, Some to_peer) => converge_done id ps (add_member k r to_peer rate m)
              end
          | Promote new_primary =>
            if promote_deferred peer_client s r new_primary then (ps, (m, Ok false))
            else converge_done id ps (lift_refused (propose (TransferPrimary k id new_primary (epoch r)) m))
          | Remove from_peer =>
            if negb (sc_remove_peer_proposals_enabled cfg) then (ps, (m, Ok false))
            else converge_done id ps (lift_refused (propose (RemovePeer k id from_peer (epoch r)) m))
          end
        end
    end.

Definition run_one_placement (peer_client : bool) (s : SplitScheduler) (job : PendingPlacement) (ps : PlacementState) (m : ShardMap)
    : PlacementState * ShardMap :=
  match current_region m (pp_key job) (pp_region_id job) with
  | None => (ps, m)
  | Some r =>
    match try_converge_placement peer_client s (pp_key job) (region_id r) (pp_copies job) ps m with
    | (ps, (m, Ok true)) => (clear_placement_error (pp_region_id job) ps, m)
    | (ps, (m, Ok false)) => (ps, m)
    | (ps, (m, Err _)) => (note_placement_error (pp_region_id job) ps, m)
    end
  end.

Definition note_placement_attempt (id : N) (ps : PlacementState) : PlacementState :=
  let seq := N.min ((ps_attempt_seq ps) + 1) u64_max in
  mkPlacement (ps_plan ps) (ps_rollup_dests ps) (ps_map_versions ps) (ps_stalls ps) (ps_errors ps)
    (<[id := seq]> (ps_last_attempted ps)) (wrapping_add (ps_attempt_seq ps) 1) (ps_learners_seen ps).

(** ** Learners left over *)

Definition outstanding_learners (m : ShardMap) : list (MeasurementKey * N * N) :=
  order (spaces m) ≫= fun ks => regions ks.2 ≫= fun r => (fun p => (key ks.2, region_id r, p)) <$> staging_peers r.

Definition stale_learners (ops : gset N) (m : ShardMap) (ps : PlacementState) : PlacementState * list (MeasurementKey * N * N) :=
  let current : gset (N * N) := list_to_set ((fun x => (x.1.2, x.2)) <$> outstanding_learners m) in
  let stale := current ∩ ps_learners_seen ps in
  (mkPlacement (ps_plan ps) (ps_rollup_dests ps) (ps_map_versions ps) (ps_stalls ps) (ps_errors ps) (ps_last_attempted ps)
     (ps_attempt_seq ps) current,
   List.filter (fun x => negb (bool_decide (x.1.1 ∈ ps_rollup_dests ps)) && bool_decide ((x.1.2, x.2) ∈ stale)
                         && negb (bool_decide (x.1.2 ∈ ops))) (outstanding_learners m)).

Definition restage_and_promote (k : MeasurementKey) (id peer : N) (m : ShardMap) : ShardMap :=
  match current_region m k id with
  | None => m
  | Some r =>
    if negb (bool_decide (peer ∈ staging_peers r)) then m
    else
      let rf := effective_replication_factor (sc_replication_factor cfg) (length active_candidate_ids) in
      let rate := move_rate_bytes_per_sec (move_tier r rf departing_node_ids (unhealthy_region_peers r)) movement_budget
                    (N.to_nat schedule_limit) in
      match stage_region_onto k r peer rate m with
      | (m, false) => m
      | (m, true) =>
        match current_region m k id with
        | None => m
        | Some current => (propose (PromotePeer k id peer (epoch current)) m).1
        end
      end
  end.

Definition promote_learner (ops : gset N) (k : MeasurementKey) (id peer : N) (m : ShardMap) : ShardMap :=
  if bool_decide (id ∈ ops) then m else restage_and_promote k id peer m.
End Scheduler.

(** ** Starting moves *)

Definition TRANSFER_CHUNK_POINTS : N := 50000.

Definition MOVE_INFLIGHT_BYTES : N := TRANSFER_CHUNK_POINTS * 128 * 4.

Definition MAX_PROPOSAL_STEPS_PER_TICK : N := 64.

Definition move_budget_mib (movement_max_inflight_bytes : N) : N := N.max (movement_max_inflight_bytes / (1024 * 1024)) 1.

Definition mover_inflight_permits (approx_bytes budget_mib : N) : N :=
  N.min (N.max (N.min approx_bytes MOVE_INFLIGHT_BYTES / (1024 * 1024)) 1) budget_mib.

Definition tier_rank (t : MoveTier) : N := match t with RfViolation => 0 | Evacuation => 1 | Convergence => 2 end.

Definition placement_leb (last : gmap N N) (a b : PendingPlacement) : bool :=
  let ra := tier_rank (pp_tier a) in let rb := tier_rank (pp_tier b) in
  let la := default 0 (last !! pp_region_id a) in let lb := default 0 (last !! pp_region_id b) in
  (ra <? rb) || ((ra =? rb) && ((la <? lb) || ((la =? lb) && (pp_region_id a <=? pp_region_id b)))).

Definition sort_placements (last : gmap N N) (pending : list PendingPlacement) : list PendingPlacement :=
  sort_by (placement_leb last) pending.

(** The permits left, the regions with an operator, and the moves in flight
    with the MiB each one holds; a proposal holds none. *)
Record Movers := mkMovers {
  mv_slots : N;
  mv_mib : N;
  mv_operators : gset N;
  mv_inflight : list (PendingPlacement * option N)
}.

Record StartState := mkStart { st_movers : Movers; st_copies_full : bool; st_proposals : N }.

Definition claim (job : PendingPlacement) (permits : option N) (mv : Movers) : Movers :=
  if bool_decide (pp_region_id job ∈ mv_operators mv) then mv
  else
    match permits with
    | Some want => mkMovers (mv_slots mv - 1) (mv_mib mv - want) ({[ pp_region_id job ]} ∪ mv_operators mv) (mv_inflight mv ++ [(job, Some want)])
    | None => mkMovers (mv_slots mv) (mv_mib mv) ({[ pp_region_id job ]} ∪ mv_operators mv) (mv_inflight mv ++ [(job, None)])
    end.

Definition start_one (budget_mib : N) (st : StartState) (job : PendingPlacement) : StartState :=
  if pp_copies job then
    if st_copies_full st then st
    else
      let want := mover_inflight_permits (pp_approx_bytes job) budget_mib in
      if (mv_slots (st_movers st) =? 0) || (mv_mib (st_movers st) <? want) then mkStart (st_movers st) true (st_proposals st)
      else mkStart (claim job (Some want) (st_movers st)) false (st_proposals st)
  else if MAX_PROPOSAL_STEPS_PER_TICK <=? st_proposals st then st
  else mkStart (claim job None (st_movers st)) (st_copies_full st) (st_proposals st + 1).

Definition start_background_placements (budget_mib : N) (last : gmap N N) (pending : list PendingPlacement) (mv : Movers) : Movers :=
  st_movers (fold_left (start_one budget_mib) (sort_placements last pending) (mkStart mv false 0)).

(** The end of the [i]th move in flight gives back what it held. *)
Definition finish_move (i : nat) (mv : Movers) : Movers :=
  match mv_inflight mv !! i with
  | None => mv
  | Some (job, permits) =>
    mkMovers (match permits with Some _ => mv_slots mv + 1 | None => mv_slots mv end)
      (mv_mib mv + default 0 permits) (mv_operators mv ∖ {[ pp_region_id job ]}) (delete i (mv_inflight mv))
  end.

(** ** Retiring evacuated nodes *)

Definition decommission_complete (dests : gset MeasurementKey) (m : ShardMap) (node : N) : bool :=
  negb (existsb (fun r => bool_decide (node ∈ peers r))
    (map_to_list (spaces m) ≫= fun ks => if bool_decide (key ks.2 ∈ dests) then [] else regions ks.2)).

Record RollupHandoff := mkHandoff { rh_done : bool; rh_running : bool; rh_failing_since : option N }.

Definition ROLLUP_HANDOFF_GIVE_UP : N := 30 * 60.

Definition no_handoff : RollupHandoff := mkHandoff false false None.

(** The serving node with the lowest id, other than [node]. *)
Definition handoff_target (M : ClusterMembership) (node : N) : option NodeInfo :=
  fold_left (fun best n =>
    if negb (node_id n =? node) && node_is_serving n then
      match best with Some b => if node_id n <? node_id b then Some n else best | None => Some n end
    else best) (node_values M) None.

(** Whether the rollups are on a node that stays; if not, the hand-off is
    started: from the one address to the other. *)
Definition rollups_handed_off (dests : gset MeasurementKey) (peer_client : bool) (M : ClusterMembership) (node : N)
    (hs : gmap N RollupHandoff) : gmap N RollupHandoff * bool * option (string * string) :=
  if bool_decide (dests = ∅) then (hs, true, None)
  else if negb peer_client then (hs, true, None)
  else
    let state := default no_handoff (hs !! node) in
    let hs := <[node := state]> hs in
    if rh_done state then (hs, true, None)
    else if rh_running state then (hs, false, None)
    else
      match get_node node M, handoff_target M node with
      | Some from, Some to => (<[node := mkHandoff (rh_done state) true (rh_failing_since state)]> hs, false, Some (addr from, addr to))
      | _, _ => (hs, false, None)
      end.

Inductive HandoffResult := HandedOff | NotSupported | HandoffFailed.

(** The end of a hand-off, at [now] on the monotonic clock. *)
Definition handoff_finished (node now : N) (res : HandoffResult) (hs : gmap N RollupHandoff) : gmap N RollupHandoff :=
  let state := default no_handoff (hs !! node) in
  <[node := match res with
            | HandedOff | NotSupported => mkHandoff true false (rh_failing_since state)
            | HandoffFailed =>
              let since := default now (rh_failing_since state) in
              mkHandoff (rh_done state || (ROLLUP_HANDOFF_GIVE_UP <=? now - since)) false (Some since)
            end]> hs.

Definition retire_one (dests : gset MeasurementKey) (peer_client : bool) (m : ShardMap)
    (acc : ClusterMembership * gmap N RollupHandoff) (node : N) : ClusterMembership * gmap N RollupHandoff :=
  let '(M, hs) := acc in
  if negb (node_state_is M node (fun s => bool_decide (s = Decommissioning))) then (M, hs)
  else if negb (decommission_complete dests m node) then (M, hs)
  else
    let '(hs, handed, _) := rollups_handed_off dests peer_client M node hs in
    if handed then ((transition node Leaving M).1, hs) else (M, hs).

Definition retire_evacuated_nodes (dests : gset MeasurementKey) (peer_client : bool) (m : ShardMap) (M : ClusterMembership)
    (hs : gmap N RollupHandoff) : ClusterMembership * gmap N RollupHandoff :=
  fold_left (retire_one dests peer_client m) (departing_node_ids M) (M, hs).
