(* ===== verification/ShardSchedulerTheorems.v ===== *)
(** * Theorems on the shard scheduler

    What a tick keeps ([plan_tick] and its merges), when a failover goes
    through, what a placement move commits, the budget of the moves in
    flight, and the nodes that are retired. *)

From stdpp Require Import prelude list sorting gmap fin_sets strings relations.
From S2P Require Import Prelude ShardTypes ShardOps ShardInvariant ShardTheorems Placement PlacementConverge.
From S2P Require Import Membership PeerResolution ShardRouting ShardSplitMerge ShardScheduler.
From stdpp Require Import options.

#[local] Open Scope N_scope.

(** ** Single-region proposals *)

Lemma region_op_accepted op k name f m r r' :
  map_wf m -> region_step op = Some (k, region_id r, epoch r, name, f) -> in_map m k r -> f r = Ok r' ->
  exists m', apply_shard_map_op m op = (m', Ok tt).
Proof.
  intros Hwf Hop Hr Hf. rewrite (region_step_apply _ _ _ _ _ _ _ Hop). unfold modify_region. cbn [spaces bump_map set_map_version].
  destruct (in_map_split m k r Hwf Hr) as (l1 & l2 & Hs). rewrite Hs. cbn [regions key].
  pose proof (space_wf_nodup _ (mwf_space _ Hwf _ _ Hs)) as Hnd. cbn in Hnd.
  rewrite position_id by done. rewrite list_lookup_middle by done. rewrite bool_decide_true by done. cbn [negb]. rewrite Hf. by eexists.
Qed.

(** What an accepted one does: the region is replaced, the others stay. *)
Lemma region_op_effect op k id ep name f m r m' :
  map_wf m -> region_step op = Some (k, id, ep, name, f) -> in_map m k r -> region_id r = id ->
  apply_shard_map_op m op = (m', Ok tt) ->
  ep = epoch r /\ exists r', f r = Ok r' /\ same_place r r' /\ epoch r' = bump_conf_ver (epoch r) /\
    (forall k1 r1, in_map m' k1 r1 <-> (k1 = k /\ r1 = r') \/ (in_map m k1 r1 /\ region_id r1 <> id)) /\
    (forall k1 sid, locate m' k1 sid
       = if decide (k1 = k) then if contains r sid then Some r' else locate m k1 sid else locate m k1 sid).
Proof.
  intros Hwf Hop Hr Hid H. destruct (region_step_locate _ _ _ _ _ _ _ _ Hwf Hop H) as (x & x' & Hx & Exid & Exep & Hf & Hsp & He & Hloc).
  pose proof (same_id_region m k x r Hwf Hx Hr ltac:(congruence)) as ->. split; [done|]. exists x'. split_and!; try done; [congruence|].
  destruct (region_step_Ok _ _ _ _ _ _ _ _ Hwf Hop H) as (l1 & y & l2 & y' & Hs & Hy & _ & Hfy & _ & _ & -> & _).
  pose proof (space_wf_nodup _ (mwf_space _ Hwf _ _ Hs)) as Hnd. cbn in Hnd. rewrite fmap_app, fmap_cons in Hnd.
  assert (y = r) as ->.
  { apply (same_id_region m k); try done; [|congruence]. eexists. split; [done|]. cbn. set_solver. }
  rewrite Hf in Hfy. injection Hfy as <-. apply NoDup_app in Hnd as (_ & N1 & [N2 _]%NoDup_cons).
  assert (forall z, z ∈ l1 ++ l2 -> region_id z <> id) as Hne.
  { intros z Hz E. rewrite <-Hid in E. apply elem_of_app in Hz as [Hz|Hz]; apply (list_elem_of_fmap_2 region_id) in Hz; rewrite E in Hz;
      [apply (N1 _ Hz); by left|by apply N2]. }
  intros k1 r1. unfold in_map. cbn. destruct (decide (k1 = k)) as [-> |Hk].
  - rewrite lookup_insert_eq, Hs. split.
    + intros (s & [= <-] & H1). cbn in H1. rewrite elem_of_app, elem_of_cons in H1.
      destruct (decide (r1 = x')) as [-> |Hx1]; [by left|]. right. split; [eexists; split; [done|]; cbn; set_solver|].
      apply Hne. set_solver.
    + intros [[_ ->]|[(s & [= <-] & H1) Hi]]; eexists; (split; [done|]); cbn; [set_solver|]. cbn in H1.
      rewrite elem_of_app, elem_of_cons in *. naive_solver.
  - rewrite lookup_insert_ne by done. split; [|intros [[? _]|[? _]]; done].
    intros H1. right. split; [done|]. intros E. apply Hk. apply (mwf_ids _ Hwf k1 k r1 r); [done|done|congruence].
Qed.

(** A proposal for a region that has changed is refused. *)
Lemma stale_op_refused op k name f m r m' u :
  map_wf m -> region_step op = Some (k, region_id r, epoch r, name, f) -> stale m k r -> propose op m <> (m', Ok u).
Proof.
  intros Hwf Hop Hst Hp%propose_Ok. destruct (region_step_locate _ _ _ _ _ _ _ _ Hwf Hop Hp) as (x & _ & Hx & Hi & He & _).
  by apply (Hst x).
Qed.

(** ** What a step of the tick may do *)

(** [r'] has the copies of [r], but for some on dead nodes; no new learner. *)
Definition sub_copies (dead : N -> Prop) (r r' : ShardRegion) : Prop :=
  (forall p, p ∈ peers r' -> p ∈ peers r) /\ (forall p, p ∈ peers r -> p ∈ peers r' \/ dead p) /\
  (forall p, p ∈ staging_peers r' -> p ∈ staging_peers r).

#[export] Instance sub_copies_preorder dead : PreOrder (sub_copies dead).
Proof. unfold sub_copies. split; red; naive_solver. Qed.

Lemma same_sub_copies dead r r' : same_copies r r' -> sub_copies dead r r'.
Proof.
  intros (Hp & Hs & _). assert (forall p, p ∈ peers r' <-> p ∈ peers r) as H.
  { intros p. by rewrite <-!(elem_of_list_to_set (C := gset N)), Hp. }
  unfold sub_copies. rewrite Hs. naive_solver.
Qed.

(** The regions of [ids] were changed, within what a tick may do. *)
Record touched (dead : N -> Prop) (cap : N) (ids : list N) (m m' : ShardMap) : Prop := mkTouched {
  to_reachable : reachable m';
  to_others : forall k r, in_map m k r -> region_id r ∉ ids -> in_map m' k r;
  to_copies : forall k sid r, locate m k sid = Some r -> exists r', locate m' k sid = Some r' /\ sub_copies dead r r';
  to_count : forall k, region_count m' k <= N.max cap (region_count m k)
}.

Lemma touched_refl dead cap ids m : reachable m -> touched dead cap ids m m.
Proof. intros H. split; [done|done| |lia]. intros k sid r Hr. by exists r. Qed.

Lemma touched_trans dead cap ids ids' m1 m2 m3 :
  touched dead cap ids m1 m2 -> touched dead cap ids' m2 m3 -> touched dead cap (ids ++ ids') m1 m3.
Proof.
  intros [R1 O1 C1 N1] [R2 O2 C2 N2]. split; [done| | |].
  - intros k r Hr Hi. rewrite not_elem_of_app in Hi. destruct Hi. by auto.
  - intros k sid r Hr. destruct (C1 _ _ _ Hr) as (r2 & Hr2 & S2). destruct (C2 _ _ _ Hr2) as (r3 & Hr3 & S3).
    exists r3. split; [done|by etrans].
  - intros k. specialize (N1 k). specialize (N2 k). lia.
Qed.

Lemma touched_mono dead cap ids ids' m m' : touched dead cap ids m m' -> ids ⊆ ids' -> touched dead cap ids' m m'.
Proof. intros [R O C Nn] Hi. split; [done| |done|done]. intros k r Hr Hn. apply O; [done|]. intros ?. by apply Hn, Hi. Qed.

Lemma touched_again dead cap id m1 m2 m3 :
  touched dead cap [id] m1 m2 -> touched dead cap [id] m2 m3 -> touched dead cap [id] m1 m3.
Proof. intros H1 H2. eapply touched_mono; [by eapply touched_trans|]. set_solver. Qed.

Definition current_or_stale (m : ShardMap) (k : MeasurementKey) (r : ShardRegion) : Prop := in_map m k r \/ stale m k r.

(** An accepted proposal that gives up only dead copies. *)
Lemma region_op_current dead cap op k name f m r m' u :
  reachable m -> in_map m k r -> region_step op = Some (k, region_id r, epoch r, name, f) -> op_wf op ->
  (forall r', f r = Ok r' -> sub_copies dead r r') -> propose op m = (m', Ok u) ->
  touched dead cap [region_id r] m m' /\ exists r', f r = Ok r' /\ in_map m' k r' /\ same_place r r'
    /\ epoch r' = bump_conf_ver (epoch r)
    /\ (forall r0, in_map m' k r0 -> region_id r0 = region_id r -> r0 = r')
    /\ (forall sid, start r <= sid < end_ r -> locate m' k sid = Some r').
Proof.
  intros Hm Hr Hop How Hsub Hp%propose_Ok. pose proof (reachable_wf _ Hm) as Hwf.
  destruct (region_op_effect _ _ _ _ _ _ _ r _ Hwf Hop Hr eq_refl Hp) as (_ & r' & Hf & Hsp & He & Hin & Hloc).
  split.
  - split.
    + by eapply reachable_step.
    + intros k1 r1 H1 Hne. apply Hin. right. split; [done|]. set_solver.
    + intros k1 sid c Hl. rewrite Hloc. case_decide as Ek; [subst k1|by exists c].
      destruct (contains r sid) eqn:Ec; [|by exists c]. exists r'. split; [done|].
      unfold contains in Ec. apply andb_true_iff in Ec as [E1%N.leb_le E2%N.ltb_lt].
      rewrite (locate_inside m k r sid c Hwf Hr ltac:(done) Hl). by apply Hsub.
    + intros k1. destruct (region_step_Ok _ _ _ _ _ _ _ _ Hwf Hop Hp) as (l1 & y & l2 & y' & Hs & _ & _ & _ & _ & _ & -> & _).
      unfold region_count. cbn. destruct (decide (k1 = k)) as [-> |Hk].
      * rewrite lookup_insert_eq, Hs. cbn. rewrite !length_app. cbn. lia.
      * rewrite lookup_insert_ne by done. lia.
  - exists r'. split_and!; try done.
    + apply Hin. by left.
    + by intros r0 [[_ ->]|[_ ?]]%Hin Eid.
    + intros sid Hsid. rewrite Hloc, decide_True by done.
      unfold contains. by rewrite (proj2 (N.leb_le _ _) (proj1 Hsid)), (proj2 (N.ltb_lt _ _) (proj2 Hsid)).
Qed.

Lemma newer_stale m k r r' :
  (forall r0, in_map m k r0 -> region_id r0 = region_id r -> r0 = r') -> conf_ver (epoch r) < conf_ver (epoch r') -> stale m k r.
Proof. intros Hu Hlt r0 Hr0 Ei E. rewrite (Hu _ Hr0 Ei) in E. rewrite E in Hlt. lia. Qed.

(** A node that is gone: unknown, or disconnected past the deadline. *)
Definition dead_node (cfg : SchedulerConfig) (M : ClusterMembership) (wall : Z) (p : N) : Prop :=
  match get_node p M with
  | None => True
  | Some n => peer_disconnected_past_deadline n wall (sc_dead_node_timeout_secs cfg) = true
  end.

Section Tick.
Context (cfg : SchedulerConfig) (M : ClusterMembership) (now : N) (wall : Z).
Context (fetch_manifest : string -> option SyncManifest).
Context (order : gmap MeasurementKey MeasurementShardSpace -> list (MeasurementKey * MeasurementShardSpace)).
Context (median : MeasurementKey -> N -> N -> result string (option N)).
Context (views : option (list MeasurementKey)).
Context (peer_client : bool) (s : SplitScheduler).

Abbreviation dead := (dead_node cfg M wall).
Abbreviation candidates := (active_candidate_ids cfg M wall).
Abbreviation cap := (region_cap (ss_max_regions_per_measurement s) (N.of_nat (length candidates))).
Abbreviation failover := (try_failover_unhealthy_primary cfg M now fetch_manifest peer_client s).

(** What a step on the region [r] of the tick's snapshot must do. *)
Definition pass_ok (k : MeasurementKey) (r : ShardRegion) (m m' : ShardMap) : Prop :=
  touched dead cap [region_id r] m m' /\ current_or_stale m' k r.

Definition pass_start (k : MeasurementKey) (r : ShardRegion) (m : ShardMap) : Prop :=
  reachable m /\ current_or_stale m k r /\ conf_ver (epoch r) < u64_max /\ version (epoch r) < u64_max.

Lemma pass_refl k r m : pass_start k r m -> pass_ok k r m m.
Proof. intros (Hm & Hc & _). split; [by apply touched_refl|done]. Qed.

Lemma pass_trans k r m1 m2 m3 : pass_ok k r m1 m2 -> pass_ok k r m2 m3 -> pass_ok k r m1 m3.
Proof. intros [T1 _] [T2 C2]. split; [by eapply touched_again|done]. Qed.

Lemma pass_next k r m m' : pass_start k r m -> pass_ok k r m m' -> pass_start k r m'.
Proof. intros (_ & _ & ? & ?) [T C]. split_and!; try done. apply (to_reachable _ _ _ _ _ T). Qed.

Lemma dead_peer_dead r p : dead_peer cfg M wall r p = true -> dead p.
Proof. unfold dead_peer, dead_node. intros H. repeat case_match; done. Qed.

Lemma propose_pass op k name f m r m' res :
  pass_start k r m -> region_step op = Some (k, region_id r, epoch r, name, f) -> op_wf op ->
  (forall r', f r = Ok r' -> sub_copies dead r r') -> propose op m = (m', res) -> pass_ok k r m m'.
Proof.
  intros Hs Hop How Hsub Hp. destruct res as [u|e]; [|apply propose_Err in Hp as ->; by apply pass_refl].
  destruct Hs as (Hm & [Hc|Hst] & Hcv & _); [|by eapply stale_op_refused in Hp; [|apply reachable_wf|..]].
  destruct (region_op_current dead cap _ _ _ _ _ _ _ _ Hm Hc Hop How Hsub Hp) as (? & r' & _ & _ & _ & Ee & Hu & _).
  split; [done|]. right. apply (newer_stale _ _ _ r' Hu). rewrite Ee. cbn. unfold sat_add. lia.
Qed.

Lemma remove_sub r p ep r' : dead p -> remove_peer p ep r = Ok r' -> sub_copies dead r r'.
Proof.
  intros Hd H. unfold remove_peer in H. repeat case_match; simplify_eq. unfold sub_copies. cbn.
  split_and!; intros q; rewrite ?elem_of_retain_ne; [naive_solver| |naive_solver]. intros Hq.
  destruct (decide (q = p)) as [-> |]; auto.
Qed.

Lemma transfer_sub id p ep r r' : transfer_primary id p ep r = Ok r' -> sub_copies dead r r'.
Proof. intros H. unfold transfer_primary in H. repeat case_match; simplify_eq. unfold sub_copies. cbn. auto. Qed.

Lemma promote_sub id p ep r r' : promote_peer id p ep r = Ok r' -> sub_copies dead r r'.
Proof.
  intros H. unfold promote_peer in H. repeat case_match; simplify_eq. unfold sub_copies. cbn. split_and!; auto.
  intros q. rewrite elem_of_retain_ne. naive_solver.
Qed.

Lemma heal_pass k r m : pass_start k r m -> pass_ok k r m (try_replace_dead_peer cfg M wall peer_client k r m).1.
Proof.
  intros Hs. unfold try_replace_dead_peer. destruct (negb _); [by apply pass_refl|]. destruct (negb _); [by apply pass_refl|].
  destruct (find _ _) as [p|] eqn:Ef; [|by apply pass_refl]. destruct (negb _); [by apply pass_refl|].
  destruct (_ =? _); [by apply pass_refl|]. destruct (propose _ m) as [m' res] eqn:Ep. cbn.
  eapply propose_pass; try done; [reflexivity|done|]. intros r'. apply remove_sub. by apply find_some in Ef as [_ ?%dead_peer_dead].
Qed.

Lemma promote_learner_survivor_pass k r learner u m :
  pass_start k r m -> pass_ok k r m (promote_learner_survivor k r learner u m).2.1.
Proof.
  intros Hs. unfold promote_learner_survivor. destruct (propose _ m) as [m1 [u1|e]] eqn:Ep; cycle 1.
  { eapply propose_pass in Ep; try done. by apply promote_sub. }
  pose proof Hs as (Hm & [Hc|Hst] & Hcv & _); [|by eapply stale_op_refused in Ep; [|apply reachable_wf|..]].
  destruct (region_op_current dead cap (PromotePeer k (region_id r) learner (epoch r)) _ _ _ _ _ _ _ Hm Hc eq_refl I (promote_sub _ _ _ _) Ep)
    as (T1 & r1 & _ & Hr1 & (Ei & _) & Ee & Hu1 & _).
  pose proof (propose_pass (PromotePeer k (region_id r) learner (epoch r)) _ _ _ _ _ _ _ Hs eq_refl I (promote_sub _ _ _ _) Ep) as P1.
  destruct (current_region m1 k (region_id r)) as [c|] eqn:Ec; [|done]. apply current_region_in in Ec as [Hc1 Eci].
  rewrite (Hu1 c Hc1 Eci) in *. clear c Hc1 Eci.
  destruct (propose _ m1) as [m2 [u2|e]] eqn:Ep2; cbn; [|by apply propose_Err in Ep2 as ->].
  destruct (region_op_current dead cap (TransferPrimary k (region_id r1) learner (epoch r1)) _ _ _ _ _ _ _ (to_reachable _ _ _ _ _ T1) Hr1 eq_refl I (transfer_sub _ _ _ _) Ep2)
    as (T2 & r2 & _ & _ & _ & Ee2 & Hu2 & _).
  rewrite Ei in T2, Hu2. eapply pass_trans; [exact P1|]. split; [done|]. right. apply (newer_stale _ _ _ r2 Hu2).
  rewrite Ee2, Ee. cbn. unfold sat_add. lia.
Qed.

Lemma failover_pass k r u m : pass_start k r m -> pass_ok k r m (failover k r u m).2.1.
Proof.
  intros Hs. unfold try_failover_unhealthy_primary. destruct (is_active_peer _ _); [by apply pass_refl|].
  destruct (_ <? _); [by apply pass_refl|]. destruct (pick_best_primary _ _ _ _ _) as [p|].
  - destruct (_ && _); [by apply pass_refl|]. destruct (propose _ m) as [m' res] eqn:Ep.
    eapply propose_pass in Ep; try done; [|by apply transfer_sub]. by destruct res.
  - destruct (pick_learner_survivor _ _ _); [by apply promote_learner_survivor_pass|by apply pass_refl].
Qed.

Lemma split_due_pass due k r t :
  pass_start k r (tk_map t) -> pass_ok k r (tk_map t) (tk_map (split_due cfg M now wall median due s k r t).1).
Proof.
  intros Hs. unfold split_due. destruct due; [|by apply pass_refl].
  destruct (try_split _ _ _ _ _ _ _) as [m' out] eqn:Et.
  enough (pass_ok k r (tk_map t) m') by (by destruct out as [[]|]). pose proof Hs as (Hm & Hc & _ & Hv).
  destruct (try_split_shape _ _ _ _ _ _ _ _ _ Hm Hc Et) as (Hr & Hk & Hn).
  destruct (try_split_cases _ _ _ _ _ _ _ _ _ Hm Hc Et) as [-> |(Hin & sk & How & Ha)]; [by apply pass_refl|].
  destruct (split_members _ _ _ _ _ _ (reachable_wf _ Hm) Hin Hv How Ha) as [Hst Ho].
  split; [|by right]. split; [by apply Hr| | |done].
  - intros k1 r1 H1 Hne. apply Ho; [done|set_solver].
  - intros k1 sid c Hl. destruct (Hk _ _ _ Hl) as (c' & ? & ?). exists c'. split; [done|by apply same_sub_copies].
Qed.

Lemma queue_placement_map ps hb k r t : tk_map (queue_placement cfg M wall peer_client ps hb k r t) = tk_map t.
Proof. unfold queue_placement. by destruct (preview_placement_tier _ _ _ _ _ _ _ _) as [[]|]. Qed.

Lemma heal_and_failover_pass k r t :
  pass_start k r (tk_map t) -> pass_ok k r (tk_map t) (tk_map (heal_and_failover cfg M now wall fetch_manifest peer_client s k r t)).
Proof.
  intros Hs. unfold heal_and_failover. pose proof (heal_pass k r _ Hs) as P1. set (m1 := (try_replace_dead_peer _ _ _ _ _ _ _).1) in *.
  pose proof (failover_pass k r (tk_unhealthy t) m1 (pass_next _ _ _ _ Hs P1)) as P2.
  destruct (failover _ _ _ _) as [u [m2 res]]. by eapply pass_trans.
Qed.

Abbreviation pass := (region_pass cfg M now wall fetch_manifest median peer_client s).

Lemma region_pass_ok ps cross hb k r next t :
  pass_start k r (tk_map t) -> pass_ok k r (tk_map t) (tk_map (pass ps cross hb k r next t).1).
Proof.
  intros Hs. unfold region_pass. destruct (max_region_peer_heartbeat_stats hb r) as [series qps].
  pose proof (heal_and_failover_pass k r t Hs) as P1. set (t1 := heal_and_failover _ _ _ _ _ _ _ _ _ _) in *.
  pose proof (pass_next _ _ _ _ Hs P1) as Hs1. set (ready := region_ready_to_split _ _ _ _ _ _).
  pose proof (split_due_pass ready k r t1 Hs1) as P2. destruct (split_due _ _ _ _ _ ready _ _ _ t1) as [t2 d]. cbn in P2.
  pose proof (pass_trans _ _ _ _ _ P1 P2) as P12. destruct d; [done|].
  pose proof (pass_next _ _ _ _ Hs P12) as Hs2. pose proof (split_due_pass (load_split_due cfg now qps r) k r t2 Hs2) as P3.
  destruct (split_due _ _ _ _ _ (load_split_due _ _ _ _) _ _ _ t2) as [t3 d]. cbn in P3.
  pose proof (pass_trans _ _ _ _ _ P12 P3) as P13. destruct next as [rt|]; [destruct (merge_due _ _ _ _ _ _ _); [done|]|];
    destruct d; cbn; rewrite ?queue_placement_map; done.
Qed.

(** The regions of the snapshot still to come. *)
Definition snapshot_ok (m : ShardMap) (k : MeasurementKey) (rs : list ShardRegion) : Prop :=
  forall r, r ∈ rs -> in_map m k r /\ conf_ver (epoch r) < u64_max /\ version (epoch r) < u64_max.

Lemma space_pass_touched ps cross hb k rs right t :
  reachable (tk_map t) -> NoDup (region_id <$> rs) -> snapshot_ok (tk_map t) k rs ->
  touched dead cap (region_id <$> rs) (tk_map t)
    (tk_map (space_pass cfg M now wall fetch_manifest median peer_client s ps cross hb k rs right t)).
Proof.
  revert right t. induction rs as [|r rs IH]; intros right t Hm Hnd Hp; cbn; [by apply touched_refl|].
  apply NoDup_cons in Hnd as [Hni Hnd].
  assert (forall rt t', reachable (tk_map t') -> touched dead cap [region_id r] (tk_map t) (tk_map t') ->
    touched dead cap (region_id r :: (region_id <$> rs)) (tk_map t)
      (tk_map (space_pass cfg M now wall fetch_manifest median peer_client s ps cross hb k rs rt t'))) as Hrest.
  { intros rt t' Hm' Ht. apply (touched_trans dead cap [region_id r] (region_id <$> rs) _ (tk_map t')); [done|].
    apply IH; [done|done|]. intros r1 Hr1. destruct (Hp r1) as (Hi & ? & ?); [by right|]. split_and!; try done.
    apply (to_others _ _ _ _ _ Ht); [done|]. intros E%list_elem_of_singleton.
    apply Hni. rewrite <-E. by apply list_elem_of_fmap_2. }
  case_bool_decide; [apply Hrest; [done|by apply touched_refl]|].
  case_bool_decide; [apply Hrest; [done|by apply touched_refl]|].
  destruct (Hp r) as (Hi & Hc & Hv); [by left|].
  destruct (region_pass_ok ps cross hb k r (head rs) t) as [Ht _]; [by split_and!; [|left|..]|].
  destruct (pass ps cross hb k r (head rs) t) as [t' q]. apply Hrest; [apply (to_reachable _ _ _ _ _ Ht)|done].
Qed.

Definition ids_of (L : list (MeasurementKey * MeasurementShardSpace)) : list N := L ≫= fun ks => region_id <$> regions ks.2.

Lemma spaces_pass_touched ps cross hb L t :
  reachable (tk_map t) -> NoDup (ids_of L) -> (forall ks, ks ∈ L -> snapshot_ok (tk_map t) (key ks.2) (regions ks.2)) ->
  touched dead cap (ids_of L) (tk_map t)
    (tk_map (fold_left (fun t ks => space_pass cfg M now wall fetch_manifest median peer_client s ps cross hb (key ks.2) (regions ks.2) None t) L t)).
Proof.
  revert t. induction L as [|ks L IH]; intros t Hm Hnd Hp; cbn; [by apply touched_refl|].
  cbn in Hnd. apply NoDup_app in Hnd as (Hn1 & Hdis & Hn2).
  pose proof (space_pass_touched ps cross hb (key ks.2) (regions ks.2) None t Hm Hn1 (Hp ks ltac:(by left))) as Ht.
  eapply touched_trans; [exact Ht|]. apply IH; [apply (to_reachable _ _ _ _ _ Ht)|done|].
  intros ks' Hks r Hr. destruct (Hp ks' ltac:(by right) r Hr) as (Hi & ? & ?). split_and!; try done.
  apply (to_others _ _ _ _ _ Ht); [done|]. intros Hin. apply (Hdis _ Hin). apply list_elem_of_bind.
  exists ks'. split; [by apply list_elem_of_fmap_2|done].
Qed.

Lemma run_merges_shape l m : reachable m -> shape_kept cap m (run_merges cfg M now wall s l m).
Proof.
  revert m. induction l as [|pm l IH]; intros m Hm; cbn; [done|].
  destruct (run_merge _ _ _ _ _ s m) as [m1 out] eqn:E. cbn. pose proof (run_merge_shape cap _ _ _ _ _ _ _ _ _ Hm E) as H1.
  etrans; [exact H1|]. apply IH, H1, Hm.
Qed.

Context (Horder : forall g, order g ≡ₚ map_to_list g).

Lemma snapshot_pending m :
  map_wf m -> (forall k r, in_map m k r -> conf_ver (epoch r) < u64_max /\ version (epoch r) < u64_max) ->
  NoDup (ids_of (order (spaces m))) /\
  forall ks, ks ∈ order (spaces m) -> snapshot_ok m (key ks.2) (regions ks.2).
Proof using Horder.
  intros Hwf Hroom.
  assert (forall ks, ks ∈ order (spaces m) -> spaces m !! ks.1 = Some ks.2 /\ key ks.2 = ks.1) as Hin.
  { intros [k sp] Hks. rewrite Horder in Hks. apply elem_of_map_to_list in Hks. split; [done|]. by apply (mwf_key _ Hwf). }
  split.
  - apply NoDup_bind.
    + intros [k1 s1] [k2 s2] id H1%Hin H2%Hin (r1 & -> & Hr1)%list_elem_of_fmap (r2 & E & Hr2)%list_elem_of_fmap. cbn in *.
      destruct H1 as [H1 _], H2 as [H2 _]. assert (k1 = k2) as ->; [|congruence].
      apply (mwf_ids _ Hwf k1 k2 r1 r2); [by eexists|by eexists|done].
    + intros [k1 s1] [H1 _]%Hin. cbn in *. by apply space_wf_nodup, (mwf_space _ Hwf k1).
    + rewrite Horder. apply NoDup_map_to_list.
  - intros ks Hks r Hr. destruct (Hin ks Hks) as [Hs ->]. assert (in_map m ks.1 r) as Hm by (by eexists). by destruct (Hroom _ _ Hm).
Qed.

Lemma plan_tick_touched ps u m :
  reachable m -> (forall k r, in_map m k r -> conf_ver (epoch r) < u64_max /\ version (epoch r) < u64_max) ->
  touched dead cap (ids_of (order (spaces m))) m (tk_map (plan_tick cfg M now wall fetch_manifest order median views peer_client s ps u m).1).
Proof using Horder.
  intros Hm Hroom. destruct (snapshot_pending m (reachable_wf _ Hm) Hroom) as [Hnd Hp].
  by apply (spaces_pass_touched _ _ _ (order (spaces m)) (mkTick m u [] [])).
Qed.
End Tick.

(** ** Failover *)

Lemma better_watermark_fold self l acc :
  let res := fold_left (better_watermark self) l acc in
  res ∈ acc :: l /\ forall q w, (q, Some w) ∈ acc :: l -> exists w', res.2 = Some w' /\ w <= w'.
Proof.
  revert acc. induction l as [|c l IH]; intros acc; cbn.
  { split; [by left|]. intros q w [<-|[]%elem_of_nil]%elem_of_cons. by exists w. }
  destruct (IH (better_watermark self acc c)) as [Hin Hmax].
  assert (better_watermark self acc c = acc \/ better_watermark self acc c = c) as Hb by (unfold better_watermark; case_match; auto).
  split; [rewrite !elem_of_cons in *; destruct Hin as [->|]; [destruct Hb; auto|auto]|]. intros q w Hq. rewrite !elem_of_cons in Hq. destruct Hq as [E|[E|Hq]]; [| |apply (Hmax q w); by right].
  - unfold better_watermark in Hmax at 1. subst acc. cbn in Hmax. destruct c as [c [wc|]]; cbn in *.
    + destruct ((w <? wc) || _) eqn:Eb; [|apply (Hmax q w); by left].
      destruct (Hmax c wc) as (w' & -> & Hle); [by left|]. exists w'. split; [done|].
      apply orb_true_iff in Eb as [Eb%N.ltb_lt|[Eb%N.eqb_eq _]%andb_true_iff]; lia.
    + apply (Hmax q w). by left.
  - subst c. unfold better_watermark in Hmax at 1. cbn in Hmax. destruct acc as [a [wa|]]; cbn in *.
    + destruct ((wa <? w) || _) eqn:Eb; [apply (Hmax q w); by left|]. apply orb_false_iff in Eb as [Eb%N.ltb_ge _].
      destruct (Hmax a wa) as (w' & -> & Hle); [by left|]. exists w'. split; [done|lia].
    + apply (Hmax q w). by left.
Qed.

(** The best candidate, by the positions known. *)
Lemma pick_best_primary_best M fetch_manifest r self :
  failover_candidates M r self <> [] ->
  exists p, pick_best_primary M fetch_manifest true r self = Some p /\ p ∈ failover_candidates M r self /\
    forall q w, q ∈ failover_candidates M r self -> peer_region_wal_watermark M fetch_manifest q (region_id r) = Some w ->
      exists w', peer_region_wal_watermark M fetch_manifest p (region_id r) = Some w' /\ w <= w'.
Proof.
  intros Hne. unfold pick_best_primary. destruct (failover_candidates M r self) as [|c0 cs] eqn:Ec; [done|]. cbn beta iota. rewrite <-Ec.
  set (wm := fun c => peer_region_wal_watermark M fetch_manifest c (region_id r)).
  set (l := (fun c => (c, wm c)) <$> failover_candidates M r self).
  destruct (better_watermark_fold self l (c0, None)) as [Hin Hmax]. set (res := fold_left _ l _) in *.
  exists res.1. split; [done|].
  assert (forall q, q ∈ failover_candidates M r self -> (q, wm q) ∈ l) as Hl.
  { intros q Hq. apply list_elem_of_fmap. by exists q. }
  apply elem_of_cons in Hin as [E|(c & E & Hc)%list_elem_of_fmap].
  - rewrite E in *. cbn in *. split; [rewrite Ec; by left|]. intros q w Hq Hw.
    destruct (Hmax q w) as (w' & ? & _); [|done]. right. rewrite <-Hw. by apply Hl.
  - rewrite E in *. cbn in *. split; [done|]. intros q w Hq Hw. apply (Hmax q w). right. rewrite <-Hw. by apply Hl.
Qed.

Lemma candidate_serving M r self p :
  p ∈ failover_candidates M r self -> p ∈ peers r /\ is_serving_peer r p = true /\ active_or_self M self p = true.
Proof.
  unfold failover_candidates. rewrite list_elem_of_In, filter_In, <-list_elem_of_In.
  intros [Hp [[_ ?]%andb_true_iff ?]%andb_true_iff]. done.
Qed.

Lemma progress_of_peer cfg now hb r p :
  p ∈ peers r -> progress_of (region_progress_for_peers cfg now hb r) p = region_progress cfg now hb r p.
Proof.
  intros Hp. unfold progress_of, region_progress_for_peers. induction (peers r) as [|q l IH]; [by apply elem_of_nil in Hp|]. cbn.
  destruct (N.eqb_spec q p) as [-> |Hne]; [done|]. apply IH. apply elem_of_cons in Hp as [->|]; done.
Qed.

(** Accepted for a serving peer. *)
Lemma transfer_accepted m k r p :
  reachable m -> in_map m k r -> is_serving_peer r p = true ->
  exists m', propose (TransferPrimary k (region_id r) p (epoch r)) m = (m', Ok tt) /\
    forall sid, start r <= sid < end_ r -> exists c, locate m' k sid = Some c /\ primary c = p /\ peers c = peers r /\ is_serving_peer c p = true.
Proof.
  intros Hm Hr Hsv. pose proof Hsv as [Hp%bool_decide_eq_true Hs%negb_true_iff]%andb_true_iff.
  assert (transfer_primary (region_id r) p (epoch r) r = Ok (set_epoch (bump_conf_ver (epoch r)) (set_primary p r))) as Hf.
  { unfold transfer_primary. by rewrite Hs, bool_decide_true. }
  set (op := TransferPrimary k (region_id r) p (epoch r)).
  destruct (region_op_accepted op k _ _ m r _ (reachable_wf _ Hm) eq_refl Hr Hf) as [m' Ha].
  assert (propose op m = (m', Ok tt)) as Hpr by (unfold propose; by rewrite Ha). exists m'. split; [done|].
  destruct (region_op_current (fun _ => False) 0 op k _ _ m r m' tt Hm Hr eq_refl I) as (_ & r' & Hf' & _ & _ & _ & _ & Hloc); [|done|].
  { intros r' E. rewrite Hf in E. injection E as <-. split_and!; auto. }
  rewrite Hf in Hf'. injection Hf' as <-. intros sid Hsid. eexists. split; [by apply Hloc|]. done.
Qed.

Lemma promote_survivor_accepted m k r l u :
  reachable m -> in_map m k r -> l ∈ staging_peers r ->
  exists m', promote_learner_survivor k r l u m = (delete (k, region_id r) u, (m', Ok tt)) /\
    forall sid, start r <= sid < end_ r -> exists c, locate m' k sid = Some c /\ primary c = l /\ peers c = peers r /\ is_serving_peer c l = true.
Proof.
  intros Hm Hr Hl. pose proof (mwf_region _ (reachable_wf _ Hm) k r Hr) as Hrw. pose proof (rwf_staging _ Hrw l Hl) as Hp.
  set (op := PromotePeer k (region_id r) l (epoch r)).
  set (r1 := set_epoch (bump_conf_ver (epoch r)) (set_staging_peers (retain_ne l (staging_peers r)) r)).
  assert (promote_peer (region_id r) l (epoch r) r = Ok r1) as Hf by (unfold promote_peer; by rewrite bool_decide_true).
  destruct (region_op_accepted op k _ _ m r _ (reachable_wf _ Hm) eq_refl Hr Hf) as [m1 Ha].
  assert (propose op m = (m1, Ok tt)) as Hpr by (unfold propose; by rewrite Ha).
  destruct (region_op_current (fun _ => False) 0 op k _ _ m r m1 tt Hm Hr eq_refl I) as (T & r' & Hf' & Hr1 & (Ei & Es & Ee) & _ & Hu & _); [|done|].
  { intros r'. rewrite Hf. intros [= <-]. unfold sub_copies. cbn. split_and!; auto. intros q [? _]%elem_of_retain_ne. done. }
  rewrite Hf in Hf'. injection Hf' as <-. unfold promote_learner_survivor. fold op. rewrite Hpr.
  assert (current_region m1 k (region_id r) = Some r1) as ->.
  { apply (current_region_of m1 k r1); [|done]. apply reachable_wf, (to_reachable _ _ _ _ _ T). }
  destruct (transfer_accepted m1 k r1 l (to_reachable _ _ _ _ _ T) Hr1) as (m2 & -> & Hloc).
  { unfold is_serving_peer. rewrite bool_decide_true by done. rewrite bool_decide_false; [done|]. cbn. rewrite elem_of_retain_ne. naive_solver. }
  exists m2. split; [done|]. exact Hloc.
Qed.

(** ** Placement moves *)

(** An accepted proposal replaces the region, whatever it does to it. *)
Lemma proposed_region op k name f m r m' u :
  reachable m -> in_map m k r -> region_step op = Some (k, region_id r, epoch r, name, f) -> op_wf op -> propose op m = (m', Ok u) ->
  reachable m' /\ exists r', f r = Ok r' /\ region_id r' = region_id r /\ current_region m' k (region_id r) = Some r'.
Proof.
  intros Hm Hr Hop How Hp%propose_Ok. assert (reachable m') as Hm' by (by eapply reachable_step). split; [done|].
  destruct (region_op_effect _ _ _ _ _ _ _ r _ (reachable_wf _ Hm) Hop Hr eq_refl Hp) as (_ & r' & Hf & (Ei & _) & _ & Hin & _).
  exists r'. split_and!; try done. rewrite <-Ei. apply current_region_of; [by apply reachable_wf|]. apply Hin. by left.
Qed.

Lemma caught_up_loop_in fetch cluster l ps ps' id : caught_up_loop fetch cluster l ps = (ps', Some id) -> exists a, (id, a) ∈ l.
Proof.
  revert ps. induction l as [|[i a] l IH]; intros ps; cbn; [done|]. destruct (cached_peer_map_version _ _ _ _ _) as [ps1 [[v pr]|]].
  - destruct (joiner_map_caught_up _ _); [intros [= _ <-]; exists a; by left|]. intros [b Hb]%IH. exists b. by right.
  - intros [b Hb]%IH. exists b. by right.
Qed.

Lemma first_caught_up_missing M fetch region cluster m r tier target ps ps' id :
  first_caught_up fetch region cluster (missing_members M m r tier target) ps = (ps', Some id) -> id ∈ target /\ id ∉ peers r.
Proof.
  unfold first_caught_up. case_bool_decide; [done|]. destruct (caught_up_loop _ _ _ _) as [ps1 [i|]] eqn:E; [|done].
  intros [= _ <-]. apply caught_up_loop_in in E as [a Ha]. unfold missing_members in Ha.
  apply list_elem_of_omap in Ha as (t & Ht & Hn). apply list_elem_of_In, filter_In in Ht as [Ht [Hp _]%andb_true_iff].
  destruct (get_node t M); [|done]. cbn in Hn. injection Hn as -> _. apply negb_true_iff, bool_decide_eq_false in Hp.
  by rewrite list_elem_of_In.
Qed.

Section Moves.
Context (stage : MeasurementKey -> ShardRegion -> N -> N -> ShardMap -> ShardMap * bool).

(** A copy leaves the region it copies, whatever else commits meanwhile. *)
Definition stage_keeps_region : Prop :=
  forall k r p rate m m' ok, reachable m -> stage k r p rate m = (m', ok) ->
    reachable m' /\ current_region m' k (region_id r) = current_region m k (region_id r).

Lemma add_member_outcome k r p rate m m' out :
  stage_keeps_region -> reachable m -> in_map m k r -> add_member stage k r p rate m = (m', out) ->
  (out <> Ok tt /\ m' = m)
  \/ exists r1, add_peer p (epoch r) true r = Ok r1 /\
       ((out <> Ok tt /\ current_region m' k (region_id r) = Some r1)
        \/ (out = Ok tt /\ exists r2, promote_peer (region_id r) p (epoch r1) r1 = Ok r2 /\ current_region m' k (region_id r) = Some r2)).
Proof.
  intros Hstage Hm Hr H. unfold add_member in H.
  destruct (propose (AddPeer _ _ _ _ _) m) as [m1 [u1|e]] eqn:E1; cycle 1.
  { apply propose_Err in E1 as ->. simplify_eq. by left. }
  destruct (proposed_region (AddPeer k (region_id r) p (epoch r) true) k _ _ m r m1 u1 Hm Hr eq_refl I E1) as (Hm1 & r1 & Hf1 & Ei & Hc1).
  right. exists r1. split; [done|]. rewrite Hc1 in H. destruct (stage k r1 p rate m1) as [m2 ok] eqn:Es.
  destruct (Hstage _ _ _ _ _ _ _ Hm1 Es) as [Hm2 Hc2]. rewrite Ei, Hc1 in Hc2. destruct ok; [|simplify_eq; by left]. rewrite Hc2 in H.
  destruct (propose (PromotePeer _ _ _ _) m2) as [m3 [u3|e]] eqn:E3; cycle 1.
  { apply propose_Err in E3 as ->. simplify_eq. by left. }
  injection H as <- <-. right. split; [done|]. apply current_region_in in Hc2 as [Hin _]. rewrite <-Ei in E3.
  destruct (proposed_region (PromotePeer k (region_id r1) p (epoch r1)) k _ _ m2 r1 m3 u3 Hm2 Hin eq_refl I E3) as (_ & r2 & Hf & _ & Hc3).
  exists r2. by rewrite <-Ei.
Qed.

Lemma lifted_outcome op k name f m r m' out :
  reachable m -> in_map m k r -> region_step op = Some (k, region_id r, epoch r, name, f) -> op_wf op ->
  lift_refused (propose op m) = (m', out) ->
  (out <> Ok tt /\ m' = m) \/ (out = Ok tt /\ exists r', f r = Ok r' /\ current_region m' k (region_id r) = Some r').
Proof.
  intros Hm Hr Hop How H. destruct (propose op m) as [m1 [[]|e]] eqn:E; cbn in H; simplify_eq.
  - destruct (proposed_region _ _ _ _ _ _ _ _ Hm Hr Hop How E) as (_ & r' & Hf & _ & Hc). right. eauto.
  - apply propose_Err in E as ->. by left.
Qed.
End Moves.

(** ** The budget of the moves *)

(** The permits held by the copies in flight. *)
Definition held (mv : Movers) : list N := omap snd (mv_inflight mv).

Definition sum_N (l : list N) : N := fold_right N.add 0 l.

Definition moving (mv : Movers) : list N := (fun x => pp_region_id x.1) <$> mv_inflight mv.

Record movers_ok (slots budget : N) (mv : Movers) : Prop := mkMoversOk {
  mo_slots : mv_slots mv + N.of_nat (length (held mv)) = slots;
  mo_mib : mv_mib mv + sum_N (held mv) = budget;
  mo_distinct : NoDup (moving mv);
  mo_claimed : forall id, id ∈ moving mv -> id ∈ mv_operators mv
}.

(** What happens to the movers: a tick starts moves, a move ends, and splits,
    merges and the passes of a tick claim and release other regions. *)
Inductive mover_step (budget : N) (mv : Movers) : Movers -> Prop :=
| step_start last pending : mover_step budget mv (start_background_placements budget last pending mv)
| step_finish i : mover_step budget mv (finish_move i mv)
| step_claim id : mover_step budget mv (mkMovers (mv_slots mv) (mv_mib mv) ({[ id ]} ∪ mv_operators mv) (mv_inflight mv))
| step_release id : id ∉ moving mv ->
    mover_step budget mv (mkMovers (mv_slots mv) (mv_mib mv) (mv_operators mv ∖ {[ id ]}) (mv_inflight mv)).

Lemma sum_N_app l1 l2 : sum_N (l1 ++ l2) = sum_N l1 + sum_N l2.
Proof. unfold sum_N. induction l1 as [|x l1 IH]; cbn; [done|]. rewrite IH. lia. Qed.

Lemma claim_ok slots budget job permits mv :
  movers_ok slots budget mv ->
  match permits with Some want => mv_slots mv <> 0 /\ want <= mv_mib mv | None => True end ->
  movers_ok slots budget (claim job permits mv).
Proof.
  intros [Hs Hm Hd Hc] Hp. unfold claim. case_bool_decide as Hin; [done|].
  assert (pp_region_id job ∉ moving mv) as Hni by (intros ?; by apply Hin, Hc).
  destruct permits as [want|]; split; unfold held, moving in *; cbn; rewrite ?omap_app, ?fmap_app, ?length_app, ?sum_N_app; cbn.
  1,2,5,6: try (destruct Hp); try rewrite app_nil_r; lia.
  all: try (apply NoDup_app; split_and!; [done|set_solver|by apply NoDup_singleton]).
  all: intros id; rewrite elem_of_app, list_elem_of_singleton; set_solver.
Qed.

Lemma start_one_ok slots budget st job :
  movers_ok slots budget (st_movers st) -> movers_ok slots budget (st_movers (start_one budget st job)).
Proof.
  intros H. unfold start_one. destruct (pp_copies job).
  - destruct (st_copies_full st); [done|]. destruct (_ || _) eqn:E; [done|]. apply orb_false_iff in E as [E1%N.eqb_neq E2%N.ltb_ge].
    by apply claim_ok.
  - destruct (_ <=? _); [done|]. by apply claim_ok.
Qed.

Lemma mover_step_ok slots budget mv mv' : movers_ok slots budget mv -> mover_step budget mv mv' -> movers_ok slots budget mv'.
Proof.
  intros H [last pending|i|id|id Hid].
  - unfold start_background_placements. generalize (sort_placements last pending) as l. intros l.
    assert (movers_ok slots budget (st_movers (mkStart mv false 0))) as H0 by done. revert H0. generalize (mkStart mv false 0) as st.
    induction l as [|job l IH]; intros st Hst; [done|]. by apply IH, start_one_ok.
  - unfold finish_move. destruct (mv_inflight mv !! i) as [[job permits]|] eqn:Ei; [|done]. destruct H as [Hs Hm Hd Hc].
    apply list_elem_of_split_length in Ei as (l1 & l2 & El & ->). unfold held, moving in *. rewrite El in *.
    rewrite delete_middle. rewrite omap_app in Hs, Hm. rewrite fmap_app, fmap_cons in Hd, Hc. rewrite length_app in Hs. rewrite sum_N_app in Hm. cbn in Hs, Hm, Hd, Hc.
    apply NoDup_app in Hd as (D1 & D2 & [D3 D4]%NoDup_cons).
    split; unfold held, moving; cbn; rewrite ?omap_app, ?fmap_app, ?length_app, ?sum_N_app.
    + destruct permits; cbn in *; lia.
    + unfold sum_N in *. destruct permits as [n|]; [change (default 0 (Some n)) with n|]; cbn in *; lia.
    + apply NoDup_app. split_and!; [done|set_solver|done].
    + intros id. rewrite elem_of_app. set_solver.
  - destruct H as [Hs Hm Hd Hc]. split; try done. intros x Hx. cbn. apply elem_of_union. auto.
  - destruct H as [Hs Hm Hd Hc]. split; try done. intros x Hx. cbn. apply elem_of_difference. split; [by apply Hc|]. set_solver.
Qed.

(** ** Retirement *)

(** The rollups of a node need no hand-off, or had one. *)
Definition handed_off (dests : gset MeasurementKey) (peer_client : bool) (hs : gmap N RollupHandoff) (node : N) : bool :=
  bool_decide (dests = ∅) || negb peer_client || rh_done (default no_handoff (hs !! node)).

Definition retires (dests : gset MeasurementKey) (peer_client : bool) (m : ShardMap) (hs : gmap N RollupHandoff) (id : N) (n : NodeInfo) : bool :=
  bool_decide (ns n = Decommissioning) && decommission_complete dests m id && handed_off dests peer_client hs id.

Lemma rollups_handed_off_spec dests pc M node hs :
  let res := rollups_handed_off dests pc M node hs in
  res.1.2 = handed_off dests pc hs node /\ forall j, j <> node -> res.1.1 !! j = hs !! j.
Proof.
  unfold rollups_handed_off, handed_off. case_bool_decide; [done|]. destruct pc; cbn; [|done].
  destruct (rh_done _) eqn:Ed; cbn; [split; [done|]; intros j Hj; by rewrite lookup_insert_ne|].
  destruct (rh_running _); cbn; [split; [done|]; intros j Hj; by rewrite lookup_insert_ne|].
  destruct (get_node node M); [destruct (handoff_target M node)|]; cbn; (split; [done|]); intros j Hj; by rewrite !lookup_insert_ne.
Qed.

Lemma retire_one_spec dests pc m M hs node :
  let res := retire_one dests pc m (M, hs) node in
  (forall j, nodes res.1 !! j
     = (fun n => if bool_decide (j = node) && retires dests pc m hs node n then with_state Leaving n else n) <$> nodes M !! j) /\
  forall j, j <> node -> res.2 !! j = hs !! j.
Proof.
  unfold retire_one, retires, node_state_is, get_node. destruct (nodes M !! node) as [n|] eqn:En; cycle 1.
  { cbn. split; [|done]. intros j. destruct (decide (j = node)) as [-> |Hj]; [by rewrite En|].
    rewrite (bool_decide_false (j = node)) by done. cbn. by destruct (nodes M !! j). }
  assert (forall b : bool, b = false -> forall j, nodes M !! j
    = (fun n => if bool_decide (j = node) && (bool_decide (ns n = Decommissioning) && decommission_complete dests m node && b) then with_state Leaving n else n)
      <$> nodes M !! j) as Hno.
  { intros b -> j. destruct (nodes M !! j); [cbn; by rewrite !andb_false_r|done]. }
  case_bool_decide as Hd; cbn [negb]; cycle 1.
  { split; [|done]. intros j. destruct (decide (j = node)) as [-> |Hj]; [rewrite En; cbn; by rewrite (bool_decide_false (ns n = _)), andb_false_r|].
    rewrite (bool_decide_false (j = node)) by done. cbn. by destruct (nodes M !! j). }
  destruct (decommission_complete dests m node) eqn:Ec; cbn [negb]; cycle 1.
  { split; [|done]. intros j. cbn [fst]. destruct (nodes M !! j); [|done]. cbn. by rewrite andb_false_r, andb_false_r. }
  pose proof (rollups_handed_off_spec dests pc M node hs) as [Eh Ej]. destruct (rollups_handed_off dests pc M node hs) as [[hs' h] o].
  cbn in Eh, Ej. subst h. destruct (handed_off dests pc hs node) eqn:Eh; cbn [fst snd]; [|split; [by apply Hno|done]].
  split; [|done]. intros j. unfold transition. rewrite En, Hd. cbn [legal_transition]. unfold set_node_state. rewrite En. cbn.
  destruct (decide (j = node)) as [-> |Hj].
  - rewrite lookup_alter_eq, En. cbn. by rewrite !bool_decide_true.
  - rewrite lookup_alter_ne by done. rewrite (bool_decide_false (j = node)) by done. by destruct (nodes M !! j).
Qed.

Lemma retire_fold_spec dests pc m L M hs :
  NoDup L -> forall j, nodes (fold_left (retire_one dests pc m) L (M, hs)).1 !! j
    = (fun n => if bool_decide (j ∈ L) && retires dests pc m hs j n then with_state Leaving n else n) <$> nodes M !! j.
Proof.
  revert M hs. induction L as [|x L IH]; intros M hs Hnd j.
  - cbn. destruct (nodes M !! j); done.
  - apply NoDup_cons in Hnd as [Hx Hnd]. cbn [fold_left]. pose proof (retire_one_spec dests pc m M hs x) as [H1 H2].
    destruct (retire_one dests pc m (M, hs) x) as [M1 hs1]. cbn in H1, H2. rewrite IH by done. rewrite H1.
    destruct (nodes M !! j) as [n|]; [|done]. cbn. f_equal. destruct (decide (j = x)) as [-> |Hj].
    + rewrite (bool_decide_false (x ∈ L)) by done. rewrite !bool_decide_true by (done || by left). cbn. done.
    + rewrite (bool_decide_false (j = x)) by done. cbn. unfold retires, handed_off. rewrite H2 by done.
      rewrite (bool_decide_ext (j ∈ x :: L) (j ∈ L)) by (rewrite elem_of_cons; naive_solver). done.
Qed.

Lemma decommission_complete_spec dests m node :
  map_wf m -> decommission_complete dests m node = true <-> forall k r, in_map m k r -> k ∉ dests -> node ∉ peers r.
Proof.
  intros Hwf. unfold decommission_complete. rewrite negb_true_iff, existsb_not_elem_of. split.
  - intros H k r (sp & Hs & Hr) Hk. pose proof (mwf_key _ Hwf _ _ Hs) as Ek.
    specialize (H r). rewrite bool_decide_eq_false in H. apply H. apply list_elem_of_bind. exists (k, sp).
    split; [|by apply elem_of_map_to_list]. cbn. by rewrite Ek, bool_decide_false.
  - intros H r ([k sp] & Hr & Hk%elem_of_map_to_list)%list_elem_of_bind. cbn in Hr. pose proof (mwf_key _ Hwf _ _ Hk) as Ek.
    rewrite Ek in Hr. case_bool_decide; [by apply elem_of_nil in Hr|]. apply bool_decide_eq_false. apply (H k); [by eexists|done].
Qed.

Lemma departing_nodup M : (forall j x, nodes M !! j = Some x -> node_id x = j) -> NoDup (departing_node_ids M).
Proof.
  intros Hids. unfold departing_node_ids, node_values. apply NoDup_ListNoDup.
  assert (NoDup (node_id <$> (map_to_list (nodes M)).*2)) as Hnd.
  { replace (node_id <$> _) with ((map_to_list (nodes M)).*1); [apply NoDup_fst_map_to_list|].
    assert (forall kv, kv ∈ map_to_list (nodes M) -> node_id kv.2 = kv.1) as H.
    { intros [j x] Hx%elem_of_map_to_list. by apply Hids. }
    induction (map_to_list (nodes M)) as [|[j x] l IH]; [done|]. cbn. f_equal; [symmetry; apply (H (j, x)); by left|].
    apply IH. intros kv Hkv. apply H. by right. }
  induction ((map_to_list (nodes M)).*2) as [|x l IH]; cbn in *; [constructor|]. apply NoDup_cons in Hnd as [Hx Hnd].
  destruct (is_departing x); [cbn; constructor; [|by apply IH]|by apply IH].
  intros (y & Ey & Hy)%list_elem_of_In%list_elem_of_fmap. apply list_elem_of_In, filter_In in Hy as [Hy _].
  apply Hx. rewrite Ey. apply list_elem_of_fmap_2. by apply list_elem_of_In.
Qed.

Lemma departing_in M id n :
  (forall j x, nodes M !! j = Some x -> node_id x = j) -> nodes M !! id = Some n -> ns n = Decommissioning -> id ∈ departing_node_ids M.
Proof.
  intros Hids Hn Hd. unfold departing_node_ids, node_values. apply list_elem_of_fmap. exists n. split; [by rewrite (Hids _ _ Hn)|].
  apply list_elem_of_In, filter_In. split; [|unfold is_departing; by rewrite Hd]. apply list_elem_of_In, list_elem_of_fmap.
  exists (id, n). split; [done|]. by apply elem_of_map_to_list.
Qed.

(** ** Properties *)


(** C12: A failover that is due goes through: once the primary of a region has
    been inactive for long enough, the region gets an active serving peer as
    its primary, the one whose known position is best, provided no candidate
    reports to hold nothing; and when no serving peer is left, an active
    learner, which then serves. *)
Theorem failover_restores_primary cfg M now fetch_manifest s k r u m t :
  reachable m -> in_map m k r -> is_active_peer M (primary r) = false ->
  u !! (k, region_id r) = Some t -> sc_primary_failover_after_secs cfg <= now - t ->
  let self := ss_node_id s in
  let candidates := failover_candidates M r self in
  let position := fun q => peer_region_wal_watermark M fetch_manifest q (region_id r) in
  (candidates <> [] /\ forall c, c ∈ candidates -> region_progress cfg now (ss_heartbeats s) r c <> Some 0)
  \/ (candidates = [] /\ exists l, l ∈ staging_peers r /\ active_or_self M self l = true) ->
  exists u' m' p,
    try_failover_unhealthy_primary cfg M now fetch_manifest true s k r u m = (u', (m', Ok tt)) /\
    u' !! (k, region_id r) = None /\ active_or_self M self p = true /\
    (forall q w, q ∈ candidates -> position q = Some w -> exists w', position p = Some w' /\ w <= w') /\
    forall sid, start r <= sid < end_ r ->
      exists c, locate m' k sid = Some c /\ primary c = p /\ peers c = peers r /\ is_serving_peer c p = true.
Proof.
  intros Hm Hr Hact Hu Hlate self candidates position H. unfold try_failover_unhealthy_primary. rewrite Hact, Hu. change (default now (Some t)) with t.
  rewrite (proj2 (N.ltb_ge _ _) Hlate). pose proof (mwf_region _ (reachable_wf _ Hm) k r Hr) as Hrw. destruct H as [[Hne Hnz]|[Hnone Hl]].
  - destruct (pick_best_primary_best M fetch_manifest r self Hne) as (p & Hpick & Hp & Hbest). fold self. rewrite Hpick.
    destruct (candidate_serving M r self p Hp) as (Hpp & Hsv & Hap). rewrite progress_of_peer by done.
    unfold failover_watermark_safe. rewrite bool_decide_false by (by apply Hnz). cbn [andb negb].
    destruct (transfer_accepted m k r p Hm Hr Hsv) as (m' & -> & Hloc). eexists _, m', p. split; [reflexivity|].
    split_and!; try done. apply lookup_delete_eq.
  - fold self. unfold pick_best_primary. fold candidates. rewrite Hnone.
    destruct (pick_learner_survivor M r self) as [p|] eqn:Ep.
    2: { exfalso. destruct Hl as (l & Hl & Ha). unfold pick_learner_survivor in Ep. apply find_none with (x := l) in Ep; [|by apply list_elem_of_In].
      rewrite Ha in Ep. destruct (N.eqb_spec l (primary r)) as [-> |]; [by apply (rwf_no_learner _ Hrw)|done]. }
    apply find_some in Ep as [Hps%list_elem_of_In [_ Hap]%andb_true_iff].
    destruct (promote_survivor_accepted m k r p (<[(k, region_id r) := t]> u) Hm Hr Hps) as (m' & -> & Hloc).
    eexists _, m', p. split; [reflexivity|]. split_and!; try done; [apply lookup_delete_eq|].
    by intros q w []%elem_of_nil.
Qed.


(** C14: Moves stay within their limits: however ticks start moves, moves end
    and other tasks claim and release regions, no more copies are in flight
    than there are mover slots, together they hold no more than the budget,
    no region is moved twice at a time, and once nothing is in flight every
    slot and all of the budget are free again. *)
Theorem moves_within_budget slots budget mv :
  rtc (mover_step budget) (mkMovers slots budget ∅ []) mv ->
  N.of_nat (length (held mv)) <= slots /\ sum_N (held mv) <= budget /\ NoDup (moving mv) /\
  (forall id, id ∈ moving mv -> id ∈ mv_operators mv) /\
  (mv_inflight mv = [] -> mv_slots mv = slots /\ mv_mib mv = budget).
Proof.
  intros H. assert (movers_ok slots budget mv) as [Hs Hm Hd Hc].
  { assert (movers_ok slots budget (mkMovers slots budget ∅ [])) as H0.
    { split; cbn; [lia|lia|by apply NoDup_nil|]. by intros id ?%elem_of_nil. }
    revert H0. induction H as [|mv0 mv1 mv2 Hst _ IH]; [done|]. intros H0. apply IH. by eapply mover_step_ok. }
  split_and!; [lia|lia|done|done|]. intros E. unfold held in *. rewrite E in *. cbn in *. lia.
Qed.


(** ** Witnesses *)

Definition sample_config : SchedulerConfig := mkConfig 3 10 3600 60 90 true true true 1000 5000 600 100 600 0.

Definition node_in (s : NodeState) (beat : Z) (id : N) : NodeInfo := mkNode id (if id =? 3 then "10.0.0.3"%string else "10.0.0.1"%string) s 0 beat false 0.

Definition cluster_of (l : list NodeInfo) : ClusterMembership := mkMembership 1 (list_to_map ((fun n => (node_id n, n)) <$> l)).

Definition empty_placement : PlacementState := mkPlacement ∅ ∅ ∅ ∅ ∅ ∅ 0 ∅.

(** Epochs that can still grow. *)
Definition room (m : ShardMap) : bool :=
  bool_decide (map_Forall (fun _ sp => Forall (fun r => conf_ver (epoch r) < u64_max /\ version (epoch r) < u64_max) (regions sp)) (spaces m)).

Lemma room_in m : room m = true -> forall k r, in_map m k r -> conf_ver (epoch r) < u64_max /\ version (epoch r) < u64_max.
Proof.
  intros H%bool_decide_eq_true k r (sp & Hs & Hr). specialize (H _ _ Hs). cbn in H. rewrite Forall_forall in H. by apply H.
Qed.

(** Node 2 of the peers 1 and 2 is unknown. *)
Definition lone_cluster : ClusterMembership := cluster_of [node_in Active 100 1].

Definition lone_tick : TickState :=
  (plan_tick sample_config lone_cluster 100 100 (fun _ => None) map_to_list no_median None true sample_scheduler empty_placement ∅ sample_map1).1.


(** Three peers, the primary lost. *)
Definition trio : ShardRegion := mkRegion 1 0 u64_max epoch_default [1; 2; 3] 1 0 None None Serving None [].

Definition trio_map : ShardMap := (apply_shard_map_op map_default (BootstrapMeasurement k_cpu trio)).1.

Definition headless : ClusterMembership := cluster_of [node_in Disconnected 90 1; node_in Active 100 2; node_in Active 100 3].

Lemma trio_reachable : reachable trio_map.
Proof.
  eapply (reachable_step _ (BootstrapMeasurement k_cpu trio) _ reachable_init); [|vm_compute; reflexivity].
  split; cbn; try (unfold u64_region; cbn; unfold u64_max; lia); [repeat constructor; set_solver|set_solver..].
Qed.

Lemma trio_in : in_map trio_map k_cpu trio.
Proof. eexists. split; [vm_compute; reflexivity|]. by left. Qed.

(** Node 3 is further than node 2. *)
Definition positions (a : string) : option SyncManifest :=
  Some (mkManifest 9 [[[(1, if bool_decide (a = "10.0.0.3"%string) then 80 else 70)]]]).

Lemma failover_restores_primary_witness :
  exists m' c, (try_failover_unhealthy_primary sample_config headless 200 positions true sample_scheduler k_cpu trio {[ (k_cpu, 1) := 100 ]} trio_map).2
    = (m', Ok tt) /\ locate m' k_cpu 5 = Some c /\ primary c = 3.
Proof.
  destruct (failover_restores_primary sample_config headless 200 positions sample_scheduler k_cpu trio {[ (k_cpu, 1) := 100 ]} trio_map 100)
    as (u' & m' & p & Ht & _ & _ & Hbest & Hloc);
    [exact trio_reachable|exact trio_in|vm_compute; reflexivity|apply lookup_singleton_eq|by vm_compute| |].
  { left. split; [by vm_compute|]. intros c _. by vm_compute. }
  destruct (Hloc 5) as (c & Hc & Hp & _); [split; vm_compute; [intros [=]|reflexivity]|].
  exists m', c. rewrite Ht. split; [reflexivity|]. split; [exact Hc|]. rewrite Hp.
  assert ((fun x : UnhealthyPrimaries * (ShardMap * result ShardMapApplyError unit) => primary <$> locate x.2.1 k_cpu 5)
    (try_failover_unhealthy_primary sample_config headless 200 positions true sample_scheduler k_cpu trio {[ (k_cpu, 1) := 100 ]} trio_map)
    = Some 3) as E by (vm_compute; reflexivity).
  rewrite Ht in E. cbn in E. rewrite Hc in E. cbn in E. congruence.
Defined.

Definition copy_ok (k : MeasurementKey) (r : ShardRegion) (p rate : N) (m : ShardMap) : ShardMap * bool := (m, true).

Definition trio_cluster : ClusterMembership := cluster_of [node_in Active 100 1; node_in Active 100 2; node_in Active 100 3].

Abbreviation moved :=
  (try_converge_placement sample_config trio_cluster 100 100 (fun _ => Some 1) copy_ok 0 4 true sample_scheduler k_cpu 1 true empty_placement sample_map1).


Definition job (id bytes : N) (copies : bool) : PendingPlacement := mkPending k_cpu id Convergence bytes copies.

(** Two slots, 30 MiB: of three copies of 24 MiB one starts; the proposal does too. *)
Lemma moves_within_budget_witness :
  let jobs := [job 1 100000000 true; job 2 100000000 true; job 3 100000000 true; job 4 0 false] in
  let mv := start_background_placements 30 ∅ jobs (mkMovers 2 30 ∅ []) in
  moving mv = [1; 4] /\ sum_N (held mv) <= 30 /\ mv_slots (finish_move 0 (finish_move 1 mv)) = 2.
Proof.
  intros jobs mv.
  assert (rtc (mover_step 30) (mkMovers 2 30 ∅ []) mv) as H1 by (apply rtc_once; apply step_start).
  destruct (moves_within_budget 2 30 mv H1) as (_ & Hsum & _).
  destruct (moves_within_budget 2 30 (finish_move 0 (finish_move 1 mv))) as (_ & _ & _ & _ & Hfree).
  { etrans; [exact H1|]. eapply rtc_l; [apply (step_finish _ _ 1)|]. apply rtc_once. apply (step_finish _ _ 0). }
  split; [vm_compute; reflexivity|]. split; [exact Hsum|]. apply Hfree. vm_compute. reflexivity.
Defined.

Definition leaving_cluster : ClusterMembership := cluster_of [node_in Active 100 1; node_in Active 100 2; node_in Decommissioning 100 3].


(** ** Where the scheduler departs *)

(** A disconnected node whose last heartbeat is in the future, by a second,
    counts as past a deadline of any length, and its copy is given up. *)
Theorem future_heartbeat_counts_as_dead :
  let M := cluster_of [node_in Active 100 1; node_in Disconnected 101 2] in
  peer_disconnected_past_deadline (node_in Disconnected 101 2) 100 (2 ^ 63) = true /\
  peers <$> locate (try_replace_dead_peer sample_config M 100 true k_cpu whole sample_map1).1 k_cpu 5 = Some [1].
Proof. vm_compute. split; reflexivity. Qed.

(** The choice is by the positions of the log and the guard by the heartbeats:
    with no position known the first candidate is chosen, and while it reports
    no series the region stays without a primary, although the other active
    candidate holds all of them. *)
Theorem failover_blocked_by_empty_candidate :
  let s := record_heartbeat (mkHeartbeat 1 2 0 0 0 200) (record_heartbeat (mkHeartbeat 1 3 500 0 0 200) sample_scheduler) in
  failover_candidates headless trio 1 = [2; 3] /\
  region_progress sample_config 200 (ss_heartbeats s) trio 3 = Some 500 /\
  primary <$> locate (try_failover_unhealthy_primary sample_config headless 200 (fun _ => None) true s k_cpu trio {[ (k_cpu, 1) := 0 ]} trio_map).2.1 k_cpu 5
    = Some 1.
Proof. vm_compute. split_and!; reflexivity. Qed.
